(* ===== verification/_CoqProject ===== *)
-Q . S2P
Prelude.v
PMem.v
PMemLine.v
NovaBase.v
NovaJournal.v
NovaJournalCrash.v
NovaInode.v
NovaLogEntry.v
NovaIntegrity.v
NovaBalloc.v
NovaBallocProofs.v
NovaBallocSpec.v
NovaBallocMain.v
NovaLog.v
NovaLogProofs.v
NovaLogGc.v
NovaLogOps.v
NovaLogAlloc.v
NovaLogCrash.v
NovaLogMain.v
NovaFile.v
NovaFileProofs.v
NovaFileOps.v
NovaFileMain.v
Tracing.v
TracingApi.v
TracingProofs.v
TracingSpec.v
TracingMain.v
TraceReader.v
TracePass.v
TraceMain.v
PmfsJournal.v
PmfsRecover.v
PmfsMount.v
PmfsTrans.v
PmfsCrash.v
PmfsRemount.v
PmfsTx.v
PmfsAtomic.v
PmfsCommit.v
PmfsHistory.v
PmfsFormat.v
PmfsClean.v
PmfsMain.v
PmfsFindings.v
PmfsBalloc.v
PmfsBallocProofs.v
PmfsBallocMain.v
PmfsTree.v
PmfsTreeProofs.v
PmfsTreeAlloc.v
PmfsTreeFile.v
PmfsTreeMain.v
PmfsTreeTrunc.v
PmfsTruncate.v
PmfsBuild.v
PmfsBuildProofs.v
PmfsBuildMain.v
PmfsInode.v
PmfsTruncList.v
PmfsInodeMain.v
