(* ===== verification/Prelude.v ===== *)
(** * Silhouette: a verified model of its file-system substrate and its tracer

    Silhouette looks for crash-consistency bugs in persistent-memory file
    systems.  The repository holds the file systems under test (NOVA, PMFS and
    WineFS, [src/thirdPart]), a compiler pass and a kernel runtime that trace
    their stores ([src/codebase/trace]), and scripts that read the trace and
    build crash images ([src/codebase/scripts]).  This library models the C and
    C++ core of it and proves what it is there to do.

    ** Parts

    - [Prelude]: outcomes, the state-and-error monad [M], 64-bit wrapping.
    - [PMem]: the machine.  Stores, cache-line write-backs and fences are
      events; a crash keeps a prefix of the events and, per cache line, a prefix
      of the stores still in flight.
    - [NovaBase]: the inline helpers of [nova_def.h] and [nova.h] (flushing,
      non-temporal copy and fill, CRC-32C, block translation).
    - [NovaJournal], [NovaJournalCrash]: [journal.c], the lite journal, one
      definition per function, and its crash atomicity, stated for any client
      that keeps to the words it logged.
    - [NovaInode]: the inode helpers of [inode.h] and the journalled inode
      transactions of [namei.c], clients of the journal.
    - [NovaLogEntry]: the log entries of [log.h], [log.c] and [checksum.c]:
      updates, checksums, invalidation.  [NovaIntegrity]: [checksum.c], verifying
      entries and inodes against their replicas and repairing them.
    - [NovaBalloc]: [balloc.c], the per-CPU free lists.  The kernel's red-black
      tree is the class [RBTree], with laws [RBTreeLaws] ([plain_tree] is an
      instance).  [NovaBallocProofs] has the invariant of one list,
      [NovaBallocSpec] that of all, [NovaBallocMain] the theorems.
    - [NovaLog]: the pages of a log, [log.c] and [gc.c]: allocating, linking,
      growing, appending, freeing, and the fast garbage collection.  The log uses
      the block allocator through the class [LogAlloc] with laws [LogAllocLaws];
      [NovaLogAlloc] shows that [NovaBalloc] has them.  [NovaLogProofs] has the
      chains of pages, [NovaLogGc] the collection's loop, [NovaLogOps] the
      invariant [log_ok] and each operation, [NovaLogCrash] the failure atomicity
      of appending, [NovaLogMain] the theorems.
    - [NovaFile]: the pages of a file, from [log.c], [inode.c], [nova.h] and
      [snapshot.c]: the radix tree from page offsets to write entries (class
      [RadixTree]), overwriting, truncating, seeking.  [NovaFileProofs] has the
      invariant [file_ok] and the walks over it, [NovaFileOps] each operation,
      [NovaFileMain] the theorems, and the data blocks from [NovaBalloc].
    - [PmfsJournal]: PMFS's [journal.c], one definition per function, with the
      journal's part of [pmfs_init] and [pmfs_fill_super] ([format_journal],
      [mount_journal]).  [PmfsRecover] has the log as a list of slots and what
      undoing it does, [PmfsMount] mounting, [PmfsTrans] the event sequences of
      begin, log, commit and abort, [PMemLine] and [PmfsCrash] what a crash
      leaves of one cache line and of the slots being written, [PmfsRemount]
      recovery cut short by crashes, [PmfsTx] the invariant [running] of a
      transaction, [PmfsAtomic] and [PmfsCommit] its closing, [PmfsHistory] lists
      of transactions, [PmfsFormat] a new journal, [PmfsClean] the cleaner,
      [PmfsMain] the theorems, [PmfsFindings] runs that show defects.
    - [PmfsBalloc]: [balloc.c], the slab wrappers of [super.c] and the second half
      of [bbuild.c], over the sorted list of ranges in use; the kernel's bit
      searches are the class [BitSearch].  [PmfsBallocProofs] has the invariant
      [wf], [PmfsBallocMain] the theorems.
    - [PmfsTree]: the block tree of an inode, from [inode.c] and [pmfs.h]: looking
      up, seeking, allocating, truncating.  [PmfsTreeProofs] has what a tree is in
      memory ([tree], [find]), [PmfsTreeAlloc] the recursion that fills a range,
      [PmfsTreeFile] growing a tree and a whole allocation, [PmfsTreeMain] the
      theorem of allocating; [PmfsTreeTrunc] the recursion that frees a range,
      [PmfsTruncate] a whole truncation and its theorem.
    - [PmfsBuild]: the first half of [bbuild.c], over the allocator, the journal
      and the trees: what mounting after a crash and after an unmount does, and
      what an unmount saves.  [PmfsBuildProofs] has the walks, [PmfsBuildMain]
      the journal as its client uses it, and the theorem.
    - [PmfsInode]: the rest of [inode.c], with the block-size hint of [file.c] and
      the recovery of the truncate list of [super.c]: inodes and the table they
      are in, creating, freeing, evicting, resizing.  [isuper] is [super] with
      the VFS's truncate list.  [PmfsTruncList] has that list as a chain in
      persistent memory and its theorem, [PmfsInodeMain] the search for a free
      inode, creating, storing and reading one, and runs that show defects.
    - [Tracing], [TracingApi]: [KernelTracing.c].  [NovaRt] and [PmfsRt] are the
      two ways records leave the runtime, both instances of [Sink]; the trace
      functions are written against it.  Kernel services are the class
      [Kernel].  [TracingProofs] proves [SinkLaws] of both runtimes,
      [TracingSpec] the refinement of an append-only log by every trace
      function, [TracingMain] sessions from load to unload.
    - [TraceReader]: [trace_value_reader.py], the parser of the value file.
    - [TracePass]: [TracingNoGiri.cpp], the calls the pass puts around each
      instruction, named after the visitors.
    - [TraceMain]: the theorems of the trace, end to end.

    ** What is shown

    Crash safety: with metadata checksums off, the journalled operations of NOVA
    (of log entries, those that are not dentries) are atomic with respect to
    power failure at any point of their event sequence, and durable on return.
    PMFS: from a new journal on, any list of transactions runs to its end, and a
    crash at any point, also in the middle of the recoveries that follow,
    mounts to the contents after a whole number of them; this for callers that
    log before they store, one transaction at a time, an undo journal of at most
    4 MB without a wrap, and generation ids below the last.
    Allocation: the free set changes by exactly the blocks freed or allocated,
    the invariant of the lists is established by mounting and kept, refusals
    change nothing.  Logs: growing a log takes exactly its dead pages out, frees
    them, and keeps the chain; an entry goes to a place that was allocated for
    it; an append that is published survives or never happened; checksummed
    entries and inodes are recovered from whichever copy is good.  Files: every
    write entry counts its pages that were overwritten or truncated, every mapped
    page has a data block of its own, and no block of a retired page stays in
    use.  PMFS's blocks: an allocation takes the lowest free aligned run, freeing
    takes exactly its blocks out of use, filling a range of a file keeps what it
    had, takes only free blocks and writes only to them; truncating unmaps
    exactly the blocks behind the new end and gives exactly what left the tree
    back (with a slab cache that does not run dry, and no empty page of pointers); a mount after a crash
    finds in use exactly the blocks before the end of the journal, those of the
    inode table and those of the inodes in use.  PMFS's inodes: the list of inodes
    to truncate or free after a power failure is never found broken, only as it
    was after some of the calls that changed it; a new inode takes the first free
    place behind the hint, inherits the flags of its directory that the VFS has no
    bit for, and changes nothing else; what is stored of an inode is
    what is read.  Tracing: whatever runs, in whatever contexts, the reader
    finds for each store's number the bytes before and after it; the two
    runtimes agree on records that fit the line buffer, as those of the pass do; unloading PMFS loses nothing and
    unloading NOVA deadlocks exactly when a buffer is not empty.

    ** Fuel and bounds

    Loops of the code over data that shrinks are structural.  The others carry
    fuel: the journal's check and recovery loops (the ring has at most 128
    entries), the allocator's searches (the number of nodes of the tree), the
    walks along a log (the number of pages of the device), the walks over PMFS's
    journal (its number of slots and one, [ring_fuel]), PMFS's height of a tree
    (8 rounds shift a 64-bit number to 0), its second try at reserving slots, its
    walks over a bitmap (the number of bits), its search of the inode table (the
    number of inodes), the reader (the length of the file;
    each round eats 8 bytes or stops).  PMFS's trees are walked by their height.
    [OutOfFuel] is a result of its own, and theorems conclude [Ok] or exclude
    it, so too little fuel would be noticed.  Machine integers are [Z] with
    their wrap-around written out ([u32], [u64], [swrap]); where the code cannot
    overflow that is a lemma, not an assumption of the definitions.

    ** Not modelled

    NOVA's thorough garbage collection and the lists of a snapshot (arguments of
    the models of [gc.c] and [snapshot.c]), inode tables, directories, the read
    and write paths of files, mount and recovery, and the optional parity
    features; the atomicity of appending is shown for entries of fixed
    size that fit the tail's page, without metadata checksums; the redo mode and
    wrapped journals of PMFS, seeking in its trees, recounting a truncated file at
    mount, the ranges saved at unmount, a table of inodes that grows, evicting and
    resizing inodes and recovering the truncate list are modelled, not proved (the
    last three run in examples, and how often recovery goes round its list is an
    argument); PMFS's directories and the data of its files; WineFS; the pass's dispatch over LLVM classes and its debug
    information; the analysis scripts other than the value reader.

    The crash theorems of NOVA and those of file data need [metadata_csum],
    [data_csum] and [data_parity] off where they say so; [env_nova.py] loads NOVA
    with all three on, so these do not cover that configuration, only the one
    that is commented out beside it.

    Locks are modelled only in the trace runtime, where one is taken twice; the
    operations of the file systems hold their locks throughout, except that
    transactions of PMFS may overlap: [PmfsFindings] interleaves them.  The
    write-protection window and the timing and logging macros have no effect on
    the state modelled.  CRC-32C over the hardware instruction is a parameter
    where only its use matters ([Crc]). *)

From stdpp Require Import base list gmap.
From Stdlib Require Import ZArith Lia.

#[global] Set Default Proof Using "Type".

(** ** Scope and notations of the development *)

Declare Scope sil_scope.
Delimit Scope sil_scope with sil.

(** ** Outcomes

    [Ok] is a normal return, [Bug] is a kernel [BUG()], [BUG_ON], failed
    assertion, a fault on a NULL, closed or error pointer, a read past a stack
    buffer, or a spin lock its holder takes again; [OutOfFuel] marks a loop that
    used up the fuel of its model: theorems show it never happens. *)

Inductive result (A : Type) : Type :=
| Ok (a : A)
| Bug
| OutOfFuel.
Arguments Ok {A} a.
Arguments Bug {A}.
Arguments OutOfFuel {A}.

#[export] Instance result_eq_dec A `{EqDecision A} : EqDecision (result A).
Proof. solve_decision. Defined.

Lemma Ok_inj {A S} (a a' : A) (s s' : S) : Ok (a, s) = Ok (a', s') → a = a' ∧ s = s'.
Proof. naive_solver. Qed.
Lemma pair_inj {A B} (a a' : A) (b b' : B) : (a, b) = (a', b') → a = a' ∧ b = b'.
Proof. naive_solver. Qed.

(** A state-and-failure monad: code that reads and writes a state [S]. *)

Definition M (S A : Type) : Type := S → result (A * S).

#[export] Instance M_ret S : MRet (M S) := λ A a s, Ok (a, s).
#[export] Instance M_bind S : MBind (M S) := λ A B f m s,
  match m s with
  | Ok (a, s') => f a s'
  | Bug => Bug
  | OutOfFuel => OutOfFuel
  end.

Definition bug {S A} : M S A := λ _, Bug.
Definition out_of_fuel {S A} : M S A := λ _, OutOfFuel.
Definition get {S} : M S S := λ s, Ok (s, s).
Definition put {S} (s : S) : M S () := λ _, Ok ((), s).
Definition gets {S A} (f : S → A) : M S A := λ s, Ok (f s, s).
Definition modify {S} (f : S → S) : M S () := λ s, Ok ((), f s).
(** [BUG_ON(c)] *)
Definition bug_on {S} (c : bool) : M S () := if c then bug else mret ().
Definition when {S} (c : bool) (m : M S ()) : M S () := if c then m else mret ().

Lemma bind_Ok {S A B} (m : M S A) (f : A → M S B) s a s' :
  m s = Ok (a, s') → (m ≫= f) s = f a s'.
Proof. intros H. unfold mbind, M_bind. by rewrite H. Qed.

Lemma bind_Bug {S A B} (m : M S A) (f : A → M S B) s :
  m s = Bug → (m ≫= f) s = Bug.
Proof. intros H. unfold mbind, M_bind. by rewrite H. Qed.

Lemma bind_inv {S A B} (m : M S A) (f : A → M S B) s b s'' :
  (m ≫= f) s = Ok (b, s'') → ∃ a s', m s = Ok (a, s') ∧ f a s' = Ok (b, s'').
Proof.
  unfold mbind, M_bind. destruct (m s) as [[a s']| |] eqn:E; naive_solver.
Qed.

Lemma bind_assoc {S A B C} (m : M S A) (f : A → M S B) (g : B → M S C) s :
  ((m ≫= f) ≫= g) s = (m ≫= λ a, f a ≫= g) s.
Proof. unfold mbind, M_bind. by destruct (m s) as [[]| |]. Qed.

Lemma bind_mret {S A} (m : M S A) s : (m ≫= mret) s = m s.
Proof. unfold mbind, M_bind. by destruct (m s) as [[]| |]. Qed.

Lemma bind_transfer {S A B} (m m' : M S A) (f : A → M S B) s s' : m s = m' s' → (m ≫= f) s = (m' ≫= f) s'.
Proof. unfold mbind, M_bind. by intros ->. Qed.
Lemma gets_bind {S A B} (p : S → A) (f : A → M S B) s : (gets p ≫= f) s = f (p s) s.
Proof. done. Qed.
Lemma bind_ext {S A B} (m : M S A) (f g : A → M S B) s :
  (∀ a s', f a s' = g a s') → (m ≫= f) s = (m ≫= g) s.
Proof. intros H. unfold mbind, M_bind. destruct (m s) as [[]| |]; auto. Qed.

(** [run_step H] rewrites the leading command of the goal by its equation. *)
Ltac run_step H := rewrite (bind_Ok _ _ _ _ _ H).
(** Inverts a successful run of a bind. *)
Ltac run_inv H :=
  let a := fresh "a" in let s := fresh "s" in let E := fresh "E" in
  apply bind_inv in H as (a & s & E & H).

(** Proves two sequences of commands equal up to associativity. *)
Ltac bind_norm :=
  repeat first [ reflexivity | progress rewrite !bind_assoc | apply bind_ext; intros ].

(** ** Machine integers: [w]-bit unsigned arithmetic on [Z] *)

Definition wrap (w : Z) (x : Z) : Z := (x mod 2 ^ w)%Z.
Abbreviation u8 x := (wrap 8 x).
Abbreviation u16 x := (wrap 16 x).
Abbreviation u32 x := (wrap 32 x).
Abbreviation u64 x := (wrap 64 x).

(** Conversion to a signed [w]-bit integer. *)
Definition swrap (w : Z) (x : Z) : Z :=
  let y := wrap w x in if (y <? 2 ^ (w - 1))%Z then y else (y - 2 ^ w)%Z.
Abbreviation s32 x := (swrap 32 x).

Section Words.
Local Open Scope Z_scope.

Lemma wrap_small w x : 0 <= x < 2 ^ w → wrap w x = x.
Proof. intros. unfold wrap. by apply Z.mod_small. Qed.

Lemma wrap_range w x : 0 <= w → 0 <= wrap w x < 2 ^ w.
Proof. intros. apply Z.mod_pos_bound. by apply Z.pow_pos_nonneg. Qed.

Lemma wrap_idemp w x : 0 <= w → wrap w (wrap w x) = wrap w x.
Proof. intros. apply wrap_small, wrap_range; lia. Qed.

(** Masking the low bits: [x & (2^k - 1)] and [x & ~(2^k - 1)]. *)
Lemma land_mask_mod x k : 0 <= k → Z.land x (2 ^ k - 1) = x mod 2 ^ k.
Proof. intros. rewrite <- Z.land_ones, Z.ones_equiv by lia. f_equal; lia. Qed.

Lemma land_lnot_mask x k :
  0 <= k → Z.land x (Z.lnot (2 ^ k - 1)) = x - x mod 2 ^ k.
Proof.
  intros. rewrite <- Z.ldiff_land.
  replace (2 ^ k - 1) with (Z.ones k) by (rewrite Z.ones_equiv; lia).
  rewrite Z.ldiff_ones_r, Z.shiftl_mul_pow2, Z.shiftr_div_pow2 by lia.
  pose proof (Z.div_mod x (2 ^ k) ltac:(lia)). lia.
Qed.
Lemma swrap_add w x y : 0 <= w → swrap w (swrap w x + y) = swrap w (x + y).
Proof.
  intros Hw. unfold swrap, wrap.
  assert (E : ((if x mod 2 ^ w <? 2 ^ (w - 1) then x mod 2 ^ w else x mod 2 ^ w - 2 ^ w) + y) mod 2 ^ w
    = (x + y) mod 2 ^ w); [|by rewrite E].
  destruct (_ <? _).
  - apply Zplus_mod_idemp_l.
  - replace (x mod 2 ^ w - 2 ^ w + y) with (x mod 2 ^ w + y + -1 * 2 ^ w) by lia.
    rewrite Z_mod_plus_full. apply Zplus_mod_idemp_l.
Qed.

End Words.

Create Rewrite HintDb words.
#[export] Hint Rewrite wrap_small using lia : words.

(** ** Error numbers ([-Exxx] is the negation) *)

Definition EIO : Z := 5.
Definition EAGAIN : Z := 11.
Definition ENOMEM : Z := 12.
Definition EINVAL : Z := 22.
Definition ENOSPC : Z := 28.

(** ** Lists *)

Section Lists.
Lemma foldl_app_eq {A B} (f : A → B → A) l1 l2 a :
  foldl f a (l1 ++ l2) = foldl f (foldl f a l1) l2.
Proof. revert a. induction l1; simpl; auto. Qed.

Lemma prefix_app_inv {A} (l l1 l2 : list A) :
  l `prefix_of` l1 ++ l2 →
  l `prefix_of` l1 ∨ ∃ l', l = l1 ++ l' ∧ l' `prefix_of` l2.
Proof.
  revert l. induction l1 as [|x l1 IH]; intros l H.
  { right. by exists l. }
  destruct l as [|y l]; [left; apply prefix_nil|].
  simpl in H. pose proof (prefix_cons_inv_1 _ _ _ _ H) as ->.
  apply prefix_cons_inv_2 in H.
  destruct (IH _ H) as [?|(l' & -> & ?)]; [left; by apply prefix_cons|right; eauto].
Qed.

Lemma filter_filter_comm {A} (P Q : A → Prop) `{!∀ x, Decision (P x), !∀ x, Decision (Q x)}
  (l : list A) : filter P (filter Q l) = filter Q (filter P l).
Proof.
  induction l as [|x l IH]; [done|]. rewrite !filter_cons.
  repeat case_decide; rewrite ?filter_cons; repeat case_decide; try done; by rewrite IH.
Qed.

Lemma filter_all {A} (P : A → Prop) `{!∀ x, Decision (P x)} (l : list A) :
  Forall P l → filter P l = l.
Proof.
  induction 1 as [|x l Hx Hl IH]; [done|]. rewrite filter_cons.
  by rewrite decide_True, IH.
Qed.

Lemma filter_none {A} (P : A → Prop) `{!∀ x, Decision (P x)} (l : list A) :
  Forall (λ x, ¬ P x) l → filter P l = [].
Proof.
  induction 1 as [|x l Hx Hl IH]; [done|]. rewrite filter_cons.
  by rewrite decide_False, IH.
Qed.

Lemma Forall_filter_keep {A} (P Q : A → Prop) `{!∀ x, Decision (Q x)} (l : list A) :
  Forall P l → Forall P (filter Q l).
Proof.
  rewrite !Forall_forall. intros HP x [_ Hx]%list_elem_of_filter. auto.
Qed.
End Lists.
