(* ===== verification/PMem.v ===== *)
(** * Persistent memory

    The machine the three file systems run on: a byte-addressed memory, the
    store, cache-line write-back and fence instructions their flush helpers
    issue (the inline assembly of [nova_def.h] and [pmfs.h]), and what a power
    failure can leave behind.

    Code runs in the monad [PM]: it reads the volatile [view] and appends each
    store, write-back and fence to [evs] in program order.  A crash cuts that
    sequence after any prefix; [pexec] turns the prefix into a persistent
    state (the durable bytes and the stores still in flight), and [crash_image]
    keeps, per cache line, an arbitrary prefix of the stores in flight. *)

From stdpp Require Import base list gmap.
From Stdlib Require Import ZArith Lia.
From coqutil Require Import Byte Word.LittleEndianList.
From S2P Require Import Prelude.

Local Open Scope Z_scope.

#[export] Instance byte_inhabited : Inhabited byte := populate Byte.x00.
#[export] Instance byte_eq_dec : EqDecision byte := Byte.byte_eq_dec.

(** ** Memories *)

Abbreviation mem := (gmap Z byte).

(** Two memories are the same when every address reads the same byte. *)
Definition mem_eq (m1 m2 : mem) : Prop := ∀ x, m1 !!! x = m2 !!! x.
(** They agree on the addresses of [P]. *)
Definition agree (P : Z → Prop) (m1 m2 : mem) : Prop := ∀ x, P x → m1 !!! x = m2 !!! x.

Fixpoint write_bytes (m : mem) (a : Z) (bs : list byte) : mem :=
  match bs with
  | [] => m
  | b :: r => write_bytes (<[a := b]> m) (a + 1) r
  end.

Fixpoint read_bytes (m : mem) (a : Z) (n : nat) : list byte :=
  match n with
  | O => []
  | S n => m !!! a :: read_bytes m (a + 1) n
  end.

(** Little-endian integers of [n] bytes. *)
Definition load (n : nat) (m : mem) (a : Z) : Z := le_combine (read_bytes m a n).
Definition bytes_of (n : nat) (v : Z) : list byte := le_split n v.

Definition in_range (a n x : Z) : Prop := a <= x < a + n.
#[export] Instance in_range_dec a n x : Decision (in_range a n x).
Proof. unfold in_range. apply _. Defined.

#[export] Instance mem_eq_equiv : Equivalence mem_eq.
Proof.
  split; [by intros m x | by intros m1 m2 H x | by intros m1 m2 m3 H1 H2 x; rewrite H1].
Qed.

#[export] Instance agree_equiv P : Equivalence (agree P).
Proof.
  split; [by intros m x | by intros m1 m2 H x Hx; rewrite H |].
  intros m1 m2 m3 H1 H2 x Hx. by rewrite H1, H2.
Qed.

Lemma agree_mono (P Q : Z → Prop) m1 m2 :
  agree P m1 m2 → (∀ x, Q x → P x) → agree Q m1 m2.
Proof. intros H HQ x Hx. auto. Qed.

Lemma mem_eq_agree m1 m2 P : mem_eq m1 m2 → agree P m1 m2.
Proof. intros H x _. apply H. Qed.

Lemma length_read_bytes m a n : length (read_bytes m a n) = n.
Proof. revert a. induction n; simpl; auto. Qed.

Lemma length_bytes_of n v : length (bytes_of n v) = n.
Proof. apply length_le_split. Qed.

Lemma lookup_total_write_bytes m a bs x :
  write_bytes m a bs !!! x =
  if decide (in_range a (Z.of_nat (length bs)) x)
  then nth (Z.to_nat (x - a)) bs inhabitant else m !!! x.
Proof.
  unfold in_range. revert m a. induction bs as [|b bs IH]; intros m a; simpl.
  { case_decide; [lia|done]. }
  rewrite IH. destruct (decide (x = a)) as [->|Hne].
  - rewrite decide_False by lia. rewrite lookup_total_insert_eq.
    rewrite decide_True by lia. by rewrite Z.sub_diag.
  - rewrite lookup_total_insert_ne by done. repeat case_decide; try lia; [|done].
    replace (Z.to_nat (x - a)) with (S (Z.to_nat (x - (a + 1)))) by lia. done.
Qed.

Lemma write_bytes_out m a bs x :
  ¬ in_range a (Z.of_nat (length bs)) x → write_bytes m a bs !!! x = m !!! x.
Proof. intros. rewrite lookup_total_write_bytes. by rewrite decide_False. Qed.

Lemma nth_read_bytes m a n i :
  (i < n)%nat → nth i (read_bytes m a n) inhabitant = m !!! (a + Z.of_nat i).
Proof.
  revert a i. induction n as [|n IH]; intros a [|i] Hi; simpl; try lia.
  - f_equal. lia.
  - rewrite IH by lia. f_equal. lia.
Qed.

Lemma read_bytes_ext m1 m2 a n :
  agree (in_range a (Z.of_nat n)) m1 m2 → read_bytes m1 a n = read_bytes m2 a n.
Proof.
  unfold in_range. revert a. induction n as [|n IH]; intros a H; simpl; [done|].
  f_equal; [apply H; lia | apply IH; intros x Hx; apply H; lia].
Qed.

Lemma load_ext n m1 m2 a :
  agree (in_range a (Z.of_nat n)) m1 m2 → load n m1 a = load n m2 a.
Proof. intros. unfold load. by rewrite (read_bytes_ext m1 m2). Qed.

#[export] Instance load_proper n : Proper (mem_eq ==> eq ==> eq) (load n).
Proof. intros m1 m2 H a ? <-. by apply load_ext, mem_eq_agree. Qed.

#[export] Instance write_bytes_proper : Proper (mem_eq ==> eq ==> eq ==> mem_eq) write_bytes.
Proof.
  intros m1 m2 H a ? <- bs ? <- x. rewrite !lookup_total_write_bytes.
  case_decide; auto.
Qed.

Lemma read_bytes_nth_eq m a bs n :
  n = length bs →
  (∀ i, (i < length bs)%nat → m !!! (a + Z.of_nat i) = nth i bs inhabitant) →
  read_bytes m a n = bs.
Proof.
  intros -> H. apply (List.nth_ext _ _ inhabitant inhabitant).
  - apply length_read_bytes.
  - rewrite length_read_bytes. intros i Hi. rewrite nth_read_bytes by done. auto.
Qed.

Lemma read_write_same m a bs n :
  n = length bs → read_bytes (write_bytes m a bs) a n = bs.
Proof.
  intros ->. apply read_bytes_nth_eq; [done|]. intros i Hi.
  rewrite lookup_total_write_bytes, decide_True by (unfold in_range; lia).
  f_equal. lia.
Qed.

Lemma load_write_same m a n v :
  load n (write_bytes m a (bytes_of n v)) a = v mod 2 ^ (Z.of_nat n * 8).
Proof.
  unfold load. rewrite read_write_same by (by rewrite length_bytes_of).
  apply le_combine_split.
Qed.

Definition disjoint_ranges (a n b k : Z) : Prop := a + n <= b ∨ b + k <= a.

Lemma load_write_disjoint m a n b bs :
  disjoint_ranges b (Z.of_nat (length bs)) a (Z.of_nat n) →
  load n (write_bytes m b bs) a = load n m a.
Proof.
  intros Hd. apply load_ext. intros x Hx. apply write_bytes_out.
  unfold in_range, disjoint_ranges in *. lia.
Qed.

Lemma load_bound n m a : 0 <= load n m a < 2 ^ (8 * Z.of_nat n).
Proof.
  unfold load. pose proof (le_combine_bound (read_bytes m a n)) as H.
  by rewrite length_read_bytes in H.
Qed.

(** Storing back what was read restores the bytes. *)
Lemma bytes_of_load n m a : bytes_of n (load n m a) = read_bytes m a n.
Proof. apply split_le_combine'. apply length_read_bytes. Qed.

Lemma write_back m m0 a n x :
  write_bytes m a (bytes_of n (load n m0 a)) !!! x =
  if decide (in_range a (Z.of_nat n) x) then m0 !!! x else m !!! x.
Proof.
  rewrite bytes_of_load, lookup_total_write_bytes, length_read_bytes.
  case_decide as Hx; [|done]. unfold in_range in Hx.
  rewrite nth_read_bytes by lia. f_equal. lia.
Qed.

(** ** Events *)

(** A store of at most eight bytes inside one aligned word is the unit the
    memory keeps whole ([movq], [movnti], ...); [nt] marks non-temporal stores.
    [EFlush true] is [clwb] (weakly ordered), [EFlush false] is [clflush]. *)
Inductive event :=
| EStore (nt : bool) (a : Z) (bs : list byte)
| EFlush (clwb : bool) (a : Z)
| EFence.

Definition is_flush (e : event) : Prop := match e with EFlush _ _ => True | _ => False end.
Definition no_store (e : event) : Prop := match e with EStore _ _ _ => False | _ => True end.

Definition line (a : Z) : Z := a / 64.

Definition apply_event (m : mem) (e : event) : mem :=
  match e with
  | EStore _ a bs => write_bytes m a bs
  | _ => m
  end.
Definition apply_events (m : mem) (es : list event) : mem := foldl apply_event m es.

(** ** Persistent state and crashes *)

Record pending := Pending { p_addr : Z; p_bytes : list byte; p_flushed : bool }.
Record pstate := PState { durable : mem; inflight : list pending }.

Definition apply_pending (m : mem) (p : pending) : mem := write_bytes m (p_addr p) (p_bytes p).
Definition mark_line (l : Z) (p : pending) : pending :=
  if decide (line (p_addr p) = l) then Pending (p_addr p) (p_bytes p) true else p.

Definition pexec1 (s : pstate) (e : event) : pstate :=
  match e with
  | EStore false a bs => PState (durable s) (inflight s ++ [Pending a bs false])
  | EStore true a bs =>
      PState (durable s) ((mark_line (line a) <$> inflight s) ++ [Pending a bs true])
  | EFlush true a => PState (durable s) (mark_line (line a) <$> inflight s)
  | EFlush false a =>
      PState (foldl apply_pending (durable s)
                (filter (λ p, line (p_addr p) = line a) (inflight s)))
             (filter (λ p, line (p_addr p) ≠ line a) (inflight s))
  | EFence =>
      PState (foldl apply_pending (durable s) (filter (λ p, p_flushed p = true) (inflight s)))
             (filter (λ p, p_flushed p ≠ true) (inflight s))
  end.
Definition pexec (s : pstate) (es : list event) : pstate := foldl pexec1 s es.

(** [crash_apply keep] persists, per cache line [l], the first [keep l] stores
    in flight on that line. *)
Fixpoint crash_apply (keep : Z → nat) (ps : list pending) (m : mem) : mem :=
  match ps with
  | [] => m
  | p :: r =>
      let l := line (p_addr p) in
      match keep l with
      | O => crash_apply keep r m
      | S k => crash_apply (λ l', if decide (l' = l) then k else keep l') r (apply_pending m p)
      end
  end.

Definition crash_image (s : pstate) (m : mem) : Prop :=
  ∃ keep, m = crash_apply keep (inflight s) (durable s).

(** A crash at any point of the run that issues [es] from state [s]. *)
Definition crash_during (s : pstate) (es : list event) (m : mem) : Prop :=
  ∃ es', es' `prefix_of` es ∧ crash_image (pexec s es') m.

(** ** The persistence lemmas *)

Definition covers (p : pending) (x : Z) : Prop :=
  in_range (p_addr p) (Z.of_nat (length (p_bytes p))) x.
(** A store is not empty and stays inside the cache line of its address. *)
Definition in_line (a : Z) (bs : list byte) : Prop :=
  ∀ x, in_range a (Z.of_nat (length bs)) x → line x = line a.
Definition ev_ok (e : event) : Prop :=
  match e with EStore _ a bs => bs ≠ [] ∧ in_line a bs | _ => True end.
Definition on_line (l : Z) (ps : list pending) : list pending :=
  filter (λ p, line (p_addr p) = l) ps.

(** Per line, the write-backs already issued form a prefix of the stores. *)
Definition flushed_first (ps : list pending) : Prop :=
  ∃ ps1 ps2, ps = ps1 ++ ps2 ∧
    Forall (λ p, p_flushed p = true) ps1 ∧ Forall (λ p, p_flushed p = false) ps2.
Definition pwf (s : pstate) : Prop :=
  Forall (λ p, in_line (p_addr p) (p_bytes p)) (inflight s) ∧
  ∀ l, flushed_first (on_line l (inflight s)).

(** What the running code sees. *)
Definition pview (s : pstate) : mem := foldl apply_pending (durable s) (inflight s).

Lemma apply_pending_other m p x : ¬ covers p x → apply_pending m p !!! x = m !!! x.
Proof. apply write_bytes_out. Qed.

#[export] Instance apply_pending_proper : Proper (mem_eq ==> eq ==> mem_eq) apply_pending.
Proof. intros m1 m2 H p ? <-. unfold apply_pending. by rewrite H. Qed.

Lemma apply_pending_local m1 m2 p x :
  m1 !!! x = m2 !!! x → apply_pending m1 p !!! x = apply_pending m2 p !!! x.
Proof. intros H. unfold apply_pending. rewrite !lookup_total_write_bytes. by case_decide. Qed.

Lemma foldl_pending_local ps m1 m2 x :
  m1 !!! x = m2 !!! x →
  foldl apply_pending m1 ps !!! x = foldl apply_pending m2 ps !!! x.
Proof.
  revert m1 m2. induction ps as [|p ps IH]; intros m1 m2 H; simpl; [done|].
  apply IH. by apply apply_pending_local.
Qed.

Lemma foldl_pending_other ps m x :
  Forall (λ p, ¬ covers p x) ps → foldl apply_pending m ps !!! x = m !!! x.
Proof.
  revert m. induction ps as [|p ps IH]; intros m H; simpl; [done|].
  apply Forall_cons in H as [H1 H2]. rewrite IH by done. by apply apply_pending_other.
Qed.

(** Only the stores of a byte's own line decide its value. *)
Lemma foldl_pending_on_line ps m x :
  Forall (λ p, in_line (p_addr p) (p_bytes p)) ps →
  foldl apply_pending m ps !!! x = foldl apply_pending m (on_line (line x) ps) !!! x.
Proof.
  unfold on_line. revert m. induction ps as [|p ps IH]; intros m H; [done|].
  apply Forall_cons in H as [H1 H2]. rewrite filter_cons. simpl.
  case_decide as Hl; simpl; [by apply IH|].
  rewrite IH by done. apply foldl_pending_local, apply_pending_other.
  intros Hc. apply Hl. symmetry. by apply H1.
Qed.

Lemma crash_apply_on_line keep ps m x :
  Forall (λ p, in_line (p_addr p) (p_bytes p)) ps →
  crash_apply keep ps m !!! x =
  foldl apply_pending m (take (keep (line x)) (on_line (line x) ps)) !!! x.
Proof.
  unfold on_line. revert keep m. induction ps as [|p ps IH]; intros keep m H.
  { simpl. by destruct (keep _). }
  apply Forall_cons in H as [H1 H2]. rewrite filter_cons. simpl.
  destruct (keep (line (p_addr p))) as [|k] eqn:Hk.
  - rewrite IH by done. case_decide as Hl; [|done]. by rewrite <- Hl, Hk.
  - rewrite IH by done. case_decide as Hl.
    + rewrite Hl, Hk. by rewrite decide_True by done.
    + rewrite decide_False by done. apply foldl_pending_local, apply_pending_other.
      intros Hc. apply Hl. by apply H1.
Qed.

Lemma on_line_app l ps1 ps2 : on_line l (ps1 ++ ps2) = on_line l ps1 ++ on_line l ps2.
Proof. apply filter_app. Qed.

Lemma line_mark l p : line (p_addr (mark_line l p)) = line (p_addr p).
Proof. unfold mark_line. by case_decide. Qed.

Lemma on_line_mark l l' ps : on_line l (mark_line l' <$> ps) = mark_line l' <$> on_line l ps.
Proof.
  unfold on_line. induction ps as [|p ps IH]; [done|]. rewrite fmap_cons, !filter_cons.
  rewrite line_mark. case_decide; [|done]. by rewrite fmap_cons, IH.
Qed.

Lemma on_line_spec l ps p : p ∈ on_line l ps ↔ line (p_addr p) = l ∧ p ∈ ps.
Proof. unfold on_line. by rewrite list_elem_of_filter. Qed.

Lemma mark_line_other l l' ps : l ≠ l' → mark_line l' <$> on_line l ps = on_line l ps.
Proof.
  intros Hne. induction ps as [|p ps IH]; [done|].
  unfold on_line in *. rewrite filter_cons. case_decide; [|done].
  rewrite fmap_cons, IH. f_equal. unfold mark_line. by rewrite decide_False by congruence.
Qed.

Lemma mark_line_flushed l ps :
  Forall (λ p, p_flushed p = true) (mark_line l <$> on_line l ps).
Proof.
  apply Forall_fmap, Forall_forall. intros p [Hp _]%on_line_spec.
  unfold compose, mark_line. by rewrite decide_True.
Qed.

Lemma on_line_filter (P : pending → Prop) `{!∀ x, Decision (P x)} l ps :
  on_line l (filter P ps) = filter P (on_line l ps).
Proof. apply filter_filter_comm. Qed.

Lemma flushed_first_filter ps :
  flushed_first ps →
  ps = filter (λ p, p_flushed p = true) ps ++ filter (λ p, p_flushed p ≠ true) ps.
Proof.
  intros (ps1 & ps2 & -> & H1 & H2). rewrite !filter_app.
  rewrite (filter_all _ ps1 H1), (filter_none _ ps2), (filter_none _ ps1), (filter_all _ ps2).
  - by rewrite app_nil_r.
  - eapply Forall_impl; [exact H2|]. simpl. congruence.
  - eapply Forall_impl; [exact H1|]. simpl. congruence.
  - eapply Forall_impl; [exact H2|]. simpl. congruence.
Qed.

Lemma flushed_first_all b ps : Forall (λ p, p_flushed p = b) ps → flushed_first ps.
Proof.
  intros H. destruct b; [exists ps, [] | exists [], ps];
    rewrite ?app_nil_r; split_and!; auto; constructor.
Qed.

Lemma on_line_singleton l p : line (p_addr p) = l → on_line l [p] = [p].
Proof. intros H. unfold on_line. by rewrite filter_cons, decide_True. Qed.
Lemma on_line_singleton_ne l p : line (p_addr p) ≠ l → on_line l [p] = [].
Proof. intros H. unfold on_line. by rewrite filter_cons, decide_False. Qed.

Lemma pwf_nil m : pwf (PState m []).
Proof. split; [constructor | intros l; by apply (flushed_first_all true)]. Qed.

Lemma Forall_in_line_mark l ps :
  Forall (λ p, in_line (p_addr p) (p_bytes p)) ps →
  Forall (λ p, in_line (p_addr p) (p_bytes p)) (mark_line l <$> ps).
Proof.
  intros H. apply Forall_fmap. eapply Forall_impl; [exact H|]. intros p Hp.
  unfold compose, mark_line. by case_decide.
Qed.

(** The invariant holds throughout a run. *)
Lemma pwf_pexec1 s e : pwf s → ev_ok e → pwf (pexec1 s e).
Proof.
  intros [Hl Hf] He. destruct e as [[] a bs|[] a|]; simpl in *;
    try (match type of He with _ ∧ _ => destruct He as [_ He] end); split; simpl.
  - apply Forall_app. split; [by apply Forall_in_line_mark | by constructor].
  - intros l. rewrite on_line_app, on_line_mark. destruct (decide (line a = l)) as [<-|Hne].
    + rewrite on_line_singleton by done. apply (flushed_first_all true), Forall_app.
      split; [apply mark_line_flushed | by constructor].
    + rewrite on_line_singleton_ne, app_nil_r, mark_line_other by done. apply Hf.
  - apply Forall_app. split; [done | by constructor].
  - intros l. rewrite on_line_app. destruct (decide (line a = l)) as [<-|Hne].
    + rewrite on_line_singleton by done. destruct (Hf (line a)) as (ps1 & ps2 & -> & H1 & H2).
      exists ps1, (ps2 ++ [Pending a bs false]). rewrite app_assoc. split_and!; auto.
      apply Forall_app. split; [done | by constructor].
    + by rewrite on_line_singleton_ne, app_nil_r by done.
  - by apply Forall_in_line_mark.
  - intros l. rewrite on_line_mark. destruct (decide (l = line a)) as [->|Hne].
    + apply (flushed_first_all true), mark_line_flushed.
    + by rewrite mark_line_other.
  - by apply Forall_filter_keep.
  - intros l. rewrite on_line_filter. destruct (Hf l) as (ps1 & ps2 & -> & H1 & H2).
    exists (filter (λ p, line (p_addr p) ≠ line a) ps1), (filter (λ p, line (p_addr p) ≠ line a) ps2).
    rewrite filter_app. split_and!; auto; by apply Forall_filter_keep.
  - by apply Forall_filter_keep.
  - intros l. rewrite on_line_filter. apply (flushed_first_all false), Forall_forall.
    intros p [Hp _]%list_elem_of_filter. by destruct (p_flushed p).
Qed.

Lemma pwf_pexec s es : pwf s → Forall ev_ok es → pwf (pexec s es).
Proof.
  unfold pexec. intros Hs He. revert s Hs. induction He as [|e es H1 H2 IH]; [done|].
  intros s Hs. simpl. apply IH. by apply pwf_pexec1.
Qed.

Lemma foldl_pending_mark l ps m :
  foldl apply_pending m (mark_line l <$> ps) = foldl apply_pending m ps.
Proof.
  revert m. induction ps as [|p ps IH]; intros m; [done|]. rewrite fmap_cons. simpl.
  rewrite IH. f_equal. unfold apply_pending, mark_line. by case_decide.
Qed.

Lemma foldl_two_on_line ps1 ps2 m x :
  Forall (λ p, in_line (p_addr p) (p_bytes p)) ps1 →
  Forall (λ p, in_line (p_addr p) (p_bytes p)) ps2 →
  foldl apply_pending (foldl apply_pending m ps1) ps2 !!! x =
  foldl apply_pending m (on_line (line x) ps1 ++ on_line (line x) ps2) !!! x.
Proof.
  intros H1 H2. rewrite foldl_app_eq, foldl_pending_on_line by done.
  apply foldl_pending_local. by apply foldl_pending_on_line.
Qed.

(** Write-backs and fences do not change what the code sees. *)
Lemma pview_pexec1 s e :
  pwf s → mem_eq (pview (pexec1 s e)) (apply_event (pview s) e).
Proof.
  intros [Hl Hf]. unfold pview. destruct e as [[] a bs|[] a|]; simpl.
  - by rewrite foldl_app_eq, foldl_pending_mark.
  - by rewrite foldl_app_eq.
  - by rewrite foldl_pending_mark.
  - intros x. rewrite foldl_two_on_line by (by apply Forall_filter_keep).
    rewrite (foldl_pending_on_line (inflight s)) by done.
    rewrite !on_line_filter. destruct (decide (line x = line a)) as [Hx|Hx].
    + rewrite filter_all, filter_none, app_nil_r; [done| |];
        apply Forall_forall; intros p [Hp _]%on_line_spec; congruence.
    + rewrite filter_none, filter_all; [done| |];
        apply Forall_forall; intros p [Hp _]%on_line_spec; congruence.
  - intros x. rewrite foldl_two_on_line by (by apply Forall_filter_keep).
    rewrite (foldl_pending_on_line (inflight s)) by done.
    by rewrite !on_line_filter, <- flushed_first_filter.
Qed.

#[export] Instance apply_event_proper : Proper (mem_eq ==> eq ==> mem_eq) apply_event.
Proof. intros m1 m2 H e ? <-. destruct e; simpl; by rewrite ?H. Qed.

#[export] Instance apply_events_proper : Proper (mem_eq ==> eq ==> mem_eq) apply_events.
Proof.
  intros m1 m2 H es ? <-. unfold apply_events. revert m1 m2 H.
  induction es as [|e es IH]; intros m1 m2 H; simpl; [done|]. apply IH. by rewrite H.
Qed.

Lemma apply_events_app m es1 es2 :
  apply_events m (es1 ++ es2) = apply_events (apply_events m es1) es2.
Proof. apply foldl_app_eq. Qed.
Lemma pexec_app s es1 es2 : pexec s (es1 ++ es2) = pexec (pexec s es1) es2.
Proof. apply foldl_app_eq. Qed.

Theorem pview_pexec s es :
  pwf s → Forall ev_ok es → mem_eq (pview (pexec s es)) (apply_events (pview s) es).
Proof.
  intros Hs He. revert s Hs. induction He as [|e es H1 H2 IH]; intros s Hs; [done|].
  change (pexec s (e :: es)) with (pexec (pexec1 s e) es).
  change (apply_events ?m (e :: es)) with (apply_events (apply_event m e) es).
  rewrite IH by (by apply pwf_pexec1). by rewrite pview_pexec1.
Qed.

Lemma apply_events_local es m1 m2 x :
  m1 !!! x = m2 !!! x → apply_events m1 es !!! x = apply_events m2 es !!! x.
Proof.
  unfold apply_events. revert m1 m2. induction es as [|e es IH]; intros m1 m2 H; [done|].
  simpl. apply IH. destruct e; simpl; [|done..]. rewrite !lookup_total_write_bytes. by case_decide.
Qed.

(** *** Frames: bytes no store touches *)

Definition stores_in (P : Z → Prop) (es : list event) : Prop :=
  ∀ nt a bs x, EStore nt a bs ∈ es → in_range a (Z.of_nat (length bs)) x → P x.
Definition inflight_in (P : Z → Prop) (s : pstate) : Prop :=
  ∀ p x, p ∈ inflight s → covers p x → P x.

Lemma stores_in_cons P e es :
  stores_in P (e :: es) ↔ stores_in P [e] ∧ stores_in P es.
Proof.
  split.
  - intros H. split; intros nt a bs x Hin; apply (H nt a bs x).
    + apply list_elem_of_singleton in Hin as <-. apply list_elem_of_here.
    + by apply list_elem_of_further.
  - intros [H1 H2] nt a bs x Hin. apply elem_of_cons in Hin as [<-|Hin].
    + apply (H1 nt). by apply list_elem_of_singleton.
    + by apply (H2 nt).
Qed.

Lemma stores_in_app P es1 es2 :
  stores_in P (es1 ++ es2) ↔ stores_in P es1 ∧ stores_in P es2.
Proof.
  unfold stores_in. split.
  - intros H. split; intros nt a bs x Hin; apply (H nt a bs x), elem_of_app; auto.
  - intros [H1 H2] nt a bs x [?|?]%elem_of_app; eauto.
Qed.

Lemma stores_in_nil P : stores_in P [].
Proof. intros nt a bs x Hin. by apply elem_of_nil in Hin. Qed.

Lemma stores_in_mono P Q es : stores_in P es → (∀ x, P x → Q x) → stores_in Q es.
Proof. unfold stores_in. eauto. Qed.

Lemma stores_in_prefix P es es' : es' `prefix_of` es → stores_in P es → stores_in P es'.
Proof. intros [r ->] [H _]%stores_in_app. done. Qed.

Lemma apply_events_frame P m es x :
  stores_in P es → ¬ P x → apply_events m es !!! x = m !!! x.
Proof.
  intros H Hx. unfold apply_events. revert m.
  induction es as [|e es IH]; intros m; [done|].
  apply stores_in_cons in H as [H1 H2]. simpl. rewrite IH by done.
  destruct e as [nt a bs| |]; simpl; try done. apply write_bytes_out.
  intros Hr. apply Hx, (H1 nt a bs); [by apply list_elem_of_singleton|done].
Qed.

Lemma inflight_in_pexec1 P s e :
  inflight_in P s → stores_in P [e] → inflight_in P (pexec1 s e).
Proof.
  intros Hs He p x Hp Hx.
  assert (Hm : ∀ l, p ∈ mark_line l <$> inflight s → P x).
  { intros l (q & -> & Hq)%list_elem_of_fmap. apply (Hs q); [done|].
    unfold mark_line in Hx. by case_decide. }
  destruct e as [[] a bs|[] a|]; simpl in Hp.
  - apply elem_of_app in Hp as [Hp| ->%list_elem_of_singleton]; [eauto|].
    apply (He true a bs); [by apply list_elem_of_singleton|done].
  - apply elem_of_app in Hp as [Hp| ->%list_elem_of_singleton]; [eauto|].
    apply (He false a bs); [by apply list_elem_of_singleton|done].
  - eauto.
  - apply list_elem_of_filter in Hp as [_ Hp]. eauto.
  - apply list_elem_of_filter in Hp as [_ Hp]. eauto.
Qed.

Lemma durable_pexec1 P s e x :
  inflight_in P s → ¬ P x → durable (pexec1 s e) !!! x = durable s !!! x.
Proof.
  intros Hs Hx. destruct e as [[] a bs|[] a|]; simpl; try done;
    apply foldl_pending_other, Forall_filter_keep, Forall_forall; intros p Hp Hc; eauto.
Qed.

Lemma pexec_frame P s es :
  inflight_in P s → stores_in P es →
  inflight_in P (pexec s es) ∧ agree (λ x, ¬ P x) (durable (pexec s es)) (durable s).
Proof.
  unfold pexec. revert s. induction es as [|e es IH]; intros s Hs He; [done|].
  apply stores_in_cons in He as [H1 H2]. simpl.
  destruct (IH (pexec1 s e)) as [H3 H4]; [by apply inflight_in_pexec1|done|].
  split; [done|]. intros x Hx. rewrite H4 by done. by apply (durable_pexec1 P).
Qed.

Lemma crash_apply_frame P keep ps m x :
  (∀ p y, p ∈ ps → covers p y → P y) → ¬ P x → crash_apply keep ps m !!! x = m !!! x.
Proof.
  intros H Hx. revert keep m. induction ps as [|p ps IH]; intros keep m; [done|]. simpl.
  assert (∀ p y, p ∈ ps → covers p y → P y) as H'
    by (intros q y Hq; apply H; by apply list_elem_of_further).
  destruct (keep _); rewrite IH by done; [done|]. apply apply_pending_other.
  intros Hc. apply Hx, (H p); [apply list_elem_of_here|done].
Qed.

(** A crash leaves every byte outside the stored ranges at its durable value. *)
Lemma crash_during_frame P s es m :
  inflight_in P s → stores_in P es → crash_during s es m →
  agree (λ x, ¬ P x) m (durable s).
Proof.
  intros Hs He (es' & Hpre & keep & ->) x Hx.
  destruct (pexec_frame P s es') as [H1 H2]; [done|by eapply stores_in_prefix|].
  rewrite (crash_apply_frame P); [by apply H2| |done]. intros p y. apply H1.
Qed.

Lemma crash_during_app s es1 es2 m :
  crash_during s (es1 ++ es2) m →
  crash_during s es1 m ∨ crash_during (pexec s es1) es2 m.
Proof.
  intros (es' & Hpre & Hc). apply prefix_app_inv in Hpre as [Hpre|(l' & -> & Hpre)].
  - left. by exists es'.
  - right. exists l'. by rewrite <- pexec_app.
Qed.

Lemma crash_during_end s es m : crash_image (pexec s es) m → crash_during s es m.
Proof. intros H. by exists es. Qed.

Lemma crash_during_nil s m : inflight s = [] → crash_during s [] m → m = durable s.
Proof.
  intros Hs (es' & Hpre & keep & ->). apply prefix_nil_inv in Hpre as ->.
  simpl. by rewrite Hs.
Qed.

(** *** Write-back and fence *)

(** Whether line [l] holds a store of [es] that no write-back followed. *)
Definition unflushed1 (l : Z) (d : bool) (e : event) : bool :=
  match e with
  | EStore nt a _ => if decide (line a = l) then negb nt else d
  | EFlush _ a => if decide (line a = l) then false else d
  | EFence => d
  end.
Definition unflushed (l : Z) (es : list event) : bool := foldl (unflushed1 l) false es.

Lemma unflushed_inv s es :
  inflight s = [] →
  ∀ p, p ∈ inflight (pexec s es) → p_flushed p = false →
       unflushed (line (p_addr p)) es = true.
Proof.
  intros Hs. induction es as [|e es IH] using rev_ind.
  { simpl. rewrite Hs. by intros p ?%elem_of_nil. }
  rewrite pexec_app. unfold unflushed. setoid_rewrite foldl_app_eq. simpl.
  intros p Hp Hf.
  assert (Hmark : ∀ a, p ∈ mark_line (line a) <$> inflight (pexec s es) →
            line a ≠ line (p_addr p) ∧ unflushed (line (p_addr p)) es = true).
  { intros a (q & -> & Hq)%list_elem_of_fmap. rewrite line_mark.
    unfold mark_line in Hf. case_decide; [done|]. split; [done|]. by apply IH. }
  destruct e as [[] a bs|[] a|]; simpl in *.
  - apply elem_of_app in Hp as [Hp| ->%list_elem_of_singleton]; [|done].
    apply Hmark in Hp as [? ?]. by rewrite decide_False.
  - apply elem_of_app in Hp as [Hp| ->%list_elem_of_singleton]; simpl; case_decide; [done|by apply IH|done|done].
  - apply Hmark in Hp as [? ?]. by rewrite decide_False.
  - apply list_elem_of_filter in Hp as [Hne Hp]. rewrite decide_False by done. by apply IH.
  - apply list_elem_of_filter in Hp as [_ Hp]. by apply IH.
Qed.

Lemma unflushed_app_flushes l es fl :
  Forall is_flush fl →
  (unflushed l es = true → ∃ c a, EFlush c a ∈ fl ∧ line a = l) →
  unflushed l (es ++ fl) = false.
Proof.
  unfold unflushed. rewrite foldl_app_eq. generalize (foldl (unflushed1 l) false es).
  intros d Hfl. revert d. induction Hfl as [|e fl He Hfl IH]; intros d Hd; simpl.
  { destruct d; [|done]. destruct (Hd eq_refl) as (c & a & ?%elem_of_nil & _). done. }
  destruct e as [| c a|]; try done. simpl. case_decide as Ha; [by apply IH|].
  apply IH. intros ->. destruct (Hd eq_refl) as (c' & a' & [[= -> ->]|Hin]%elem_of_cons & Ha');
    [congruence|eauto].
Qed.

Lemma unflushed_stored l es :
  unflushed l es = true → ∃ a bs, EStore false a bs ∈ es ∧ line a = l.
Proof.
  induction es as [|e es IH] using rev_ind; [done|].
  unfold unflushed in *. rewrite foldl_app_eq. simpl. intros H.
  destruct e as [nt a bs|c a|]; simpl in H.
  - case_decide.
    + destruct nt; [done|]. exists a, bs. split; [|done]. apply elem_of_app. right.
      by apply list_elem_of_singleton.
    + destruct (IH H) as (a' & bs' & ? & ?). exists a', bs'. split; [|done].
      apply elem_of_app. auto.
  - case_decide; [done|]. destruct (IH H) as (a' & bs' & ? & ?). exists a', bs'.
    split; [|done]. apply elem_of_app. auto.
  - destruct (IH H) as (a' & bs' & ? & ?). exists a', bs'. split; [|done].
    apply elem_of_app. auto.
Qed.

(** Stores that are all written back are durable after the fence. *)
Theorem fence_durable s es :
  inflight s = [] → Forall ev_ok es → (∀ l, unflushed l es = false) →
  inflight (pexec s (es ++ [EFence])) = [] ∧
  mem_eq (durable (pexec s (es ++ [EFence]))) (apply_events (durable s) es).
Proof.
  intros Hs He Hu.
  assert (Hnil : inflight (pexec s (es ++ [EFence])) = []).
  { rewrite pexec_app. simpl. apply filter_none, Forall_forall. intros p Hp Hf.
    destruct (p_flushed p) eqn:E; [done|].
    apply unflushed_inv in Hp; [|done..]. by rewrite Hu in Hp. }
  split; [done|].
  assert (Hv : mem_eq (pview (pexec s (es ++ [EFence]))) (apply_events (durable s) es)).
  { rewrite pview_pexec.
    - rewrite apply_events_app. unfold pview. by rewrite Hs.
    - destruct s as [d i]. simpl in Hs. subst. apply pwf_nil.
    - apply Forall_app. split; [done|by constructor]. }
  unfold pview in Hv. by rewrite Hnil in Hv.
Qed.

(** A single store in flight on a quiescent memory is all or nothing. *)
Lemma crash_one_store s nt a bs fl m :
  inflight s = [] → Forall no_store fl →
  crash_during s (EStore nt a bs :: fl) m →
  m = durable s ∨ m = write_bytes (durable s) a bs.
Proof.
  intros Hs Hfl (es' & Hpre & keep & ->).
  destruct es' as [|e es']; [left; simpl; by rewrite Hs|].
  pose proof (prefix_cons_inv_1 _ _ _ _ Hpre) as ->.
  apply prefix_cons_inv_2 in Hpre.
  set (m0 := durable s). set (m1 := write_bytes m0 a bs).
  assert (Hst : ∀ t es, Forall no_store es →
    (durable t = m1 ∧ inflight t = [] ∨
     durable t = m0 ∧ ∃ f, inflight t = [Pending a bs f]) →
    (durable (pexec t es) = m1 ∧ inflight (pexec t es) = [] ∨
     durable (pexec t es) = m0 ∧ ∃ f, inflight (pexec t es) = [Pending a bs f])).
  { intros t es Hes. unfold pexec. revert t. induction Hes as [|e es He Hes IH]; [done|].
    intros t Ht. simpl. apply IH. destruct Ht as [[H1 H2]|[H1 [f H2]]].
    - left. destruct e as [|[]|]; simpl; rewrite ?H1, ?H2; done.
    - destruct e as [|[] b|]; simpl; rewrite ?H1, ?H2; try done.
      + right. split; [done|]. unfold mark_line. simpl. case_decide; eauto.
      + rewrite !filter_cons. simpl. repeat case_decide; try done; [by left|right; eauto].
      + rewrite !filter_cons. simpl. repeat case_decide; try done; [by left|right; eauto]. }
  destruct (Hst (pexec1 s (EStore nt a bs)) es') as [[H1 H2]|[H1 [f H2]]].
  - destruct Hpre as [r ->]. by apply Forall_app in Hfl as [? _].
  - right. split; destruct nt; simpl; rewrite ?Hs; simpl; eauto.
  - change (pexec s (EStore nt a bs :: es')) with (pexec (pexec1 s (EStore nt a bs)) es').
    rewrite H1, H2. by right.
  - change (pexec s (EStore nt a bs :: es')) with (pexec (pexec1 s (EStore nt a bs)) es').
    rewrite H1, H2. simpl. destruct (keep _); [by left|by right].
Qed.

(** *** Automation: where a list of events stores *)

Lemma stores_in_store P nt a bs es :
  (∀ x, in_range a (Z.of_nat (length bs)) x → P x) → stores_in P es →
  stores_in P (EStore nt a bs :: es).
Proof.
  intros Ha He. apply stores_in_cons. split; [|done].
  intros nt' a' bs' x ?%list_elem_of_singleton. simplify_eq. auto.
Qed.

Lemma stores_in_other P e es :
  no_store e → stores_in P es → stores_in P (e :: es).
Proof.
  intros Ha He. apply stores_in_cons. split; [|done].
  intros nt' a' bs' x ?%list_elem_of_singleton. by subst.
Qed.

Lemma stores_in_flushes P es :
  Forall is_flush es → stores_in P es.
Proof.
  induction 1 as [|e es He Hes IH]; [apply stores_in_nil|].
  apply stores_in_other; [by destruct e|done].
Qed.

Create HintDb pmem.
#[export] Hint Resolve stores_in_nil stores_in_store stores_in_other stores_in_flushes : pmem.

Arguments bytes_of : simpl never.
Arguments load : simpl never.
Arguments read_bytes : simpl never.
Arguments write_bytes : simpl never.
Arguments apply_events : simpl never.
Arguments pexec : simpl never.

Lemma apply_events_cons m e es : apply_events m (e :: es) = apply_events (apply_event m e) es.
Proof. done. Qed.

Lemma apply_events_no_store m es : Forall no_store es → apply_events m es = m.
Proof.
  induction 1 as [|e es He Hes IH]; [done|]. rewrite apply_events_cons.
  by destruct e.
Qed.

Lemma is_flush_no_store es : Forall is_flush es → Forall no_store es.
Proof. intros H. eapply Forall_impl; [exact H|]. by intros []. Qed.

Lemma is_flush_ev_ok es : Forall is_flush es → Forall ev_ok es.
Proof. intros H. eapply Forall_impl; [exact H|]. by intros []. Qed.

Lemma unflushed_app l es1 es2 :
  unflushed l es1 = false → unflushed l es2 = false → unflushed l (es1 ++ es2) = false.
Proof. unfold unflushed. intros H1 H2. by rewrite foldl_app_eq, H1. Qed.

Lemma unflushed_no_store l es : Forall no_store es → unflushed l es = false.
Proof.
  unfold unflushed. induction 1 as [|e es He Hes IH]; [done|]. simpl.
  destruct e; simpl in *; [done|by case_decide|done].
Qed.

(** Decides a goal [stores_in P es] for a literal list of integer stores. *)
Ltac solve_stores :=
  repeat first
    [ apply stores_in_nil
    | apply stores_in_store; [intros ?; rewrite ?length_bytes_of; unfold in_range; lia|]
    | apply stores_in_other; [exact I|] ].

(** Runs a literal list of events on the memory. *)
Ltac run_events := unfold apply_events; cbn [foldl apply_event app].
