(* ===== verification/PMemLine.v ===== *)
(** * Persistent memory, one cache line at a time

    Each cache line persists a prefix of the stores made to it, whatever the
    other lines do.  So a record that fills one line and is validated by the
    last store to it is found whole or invalid after a crash
    ([crash_last_store]); PMFS's log entries rely on it. *)

From stdpp Require Import base list gmap.
From Stdlib Require Import ZArith Lia.
From coqutil Require Import Byte.
From S2P Require Import Prelude PMem.

Local Open Scope Z_scope.

(** The bytes of line [l]. *)
Definition on (l x : Z) : Prop := line x = l.
(** No store is in flight on line [l]. *)
Definition clean (l : Z) (s : pstate) : Prop := on_line l (inflight s) = [].

Definition strip (p : pending) : Z * list byte := (p_addr p, p_bytes p).
Definition put_bytes (m : mem) (w : Z * list byte) : mem := write_bytes m w.1 w.2.

(** The stores of [es] to line [l]. *)
Fixpoint line_stores (l : Z) (es : list event) : list (Z * list byte) :=
  match es with
  | [] => []
  | EStore _ a bs :: es => if decide (line a = l) then (a, bs) :: line_stores l es else line_stores l es
  | _ :: es => line_stores l es
  end.

Lemma line_stores_app l es1 es2 :
  line_stores l (es1 ++ es2) = line_stores l es1 ++ line_stores l es2.
Proof.
  induction es1 as [|[nt a bs| |] es1 IH]; simpl; try done. case_decide; simpl; by rewrite IH.
Qed.

Lemma put_bytes_local m1 m2 ws x :
  m1 !!! x = m2 !!! x → foldl put_bytes m1 ws !!! x = foldl put_bytes m2 ws !!! x.
Proof.
  revert m1 m2. induction ws as [|w ws IH]; intros m1 m2 E; simpl; [done|]. apply IH.
  unfold put_bytes. rewrite !lookup_total_write_bytes. by case_decide.
Qed.

Lemma foldl_strip m ps : foldl apply_pending m ps = foldl put_bytes m (strip <$> ps).
Proof. revert m. induction ps as [|p ps IH]; intros m; [done|]. simpl. by rewrite IH. Qed.

Lemma strip_mark l (ps : list pending) : strip <$> (mark_line l <$> ps) = strip <$> ps.
Proof.
  rewrite <- list_fmap_compose. apply list_fmap_ext. intros i p _. simpl.
  unfold mark_line. by case_decide.
Qed.

(** On its line, a run is its stores to that line. *)
Lemma apply_events_line l es m x :
  Forall ev_ok es → on l x → apply_events m es !!! x = foldl put_bytes m (line_stores l es) !!! x.
Proof.
  intros He Hx. revert m. induction He as [|e es H1 H2 IH]; intros m; [done|].
  rewrite apply_events_cons. destruct e as [nt a bs| |]; simpl; try apply IH.
  case_decide as Hl; simpl; [apply IH|]. rewrite IH. apply put_bytes_local, write_bytes_out.
  intros Hr. destruct H1 as [_ H1]. apply Hl. rewrite <- (H1 x Hr). exact Hx.
Qed.

Lemma line_stores_prefix l es n :
  ∃ es', es' `prefix_of` es ∧ line_stores l es' = take n (line_stores l es).
Proof.
  revert n. induction es as [|e es IH]; intros n.
  { exists []. split; [done|]. simpl. by rewrite take_nil. }
  assert (Hcons : ∀ k, ∃ es', es' `prefix_of` e :: es ∧
    line_stores l es' = line_stores l [e] ++ take k (line_stores l es)).
  { intros k. destruct (IH k) as (es' & Hp & E). exists (e :: es'). split; [by apply prefix_cons|].
    change (e :: es') with ([e] ++ es'). by rewrite line_stores_app, E. }
  destruct e as [nt a bs| |]; simpl.
  - simpl in Hcons. case_decide; [|by apply (Hcons n)].
    destruct n as [|n]; [exists []; split; [apply prefix_nil|done]|].
    destruct (Hcons n) as (es' & Hp & E). by exists es'.
  - apply (Hcons n).
  - apply (Hcons n).
Qed.

Lemma filter_other_line l a ps :
  l ≠ line a → on_line l (filter (λ p, line (p_addr p) = line a) ps) = [].
Proof.
  intros Hne. rewrite on_line_filter. apply filter_none, Forall_forall.
  intros p [Hp _]%on_line_spec. congruence.
Qed.

Lemma filter_same_line l a ps :
  l ≠ line a → on_line l (filter (λ p, line (p_addr p) ≠ line a) ps) = on_line l ps.
Proof.
  intros Hne. rewrite on_line_filter. apply filter_all, Forall_forall.
  intros p [Hp _]%on_line_spec. congruence.
Qed.

(** The state of line [l] after [es]: [d] of its stores are durable, the others
    are in flight in order. *)
Definition line_at (l : Z) (m0 : mem) (es : list event) (t : pstate) (d : nat) : Prop :=
  (d <= length (line_stores l es))%nat ∧
  agree (on l) (durable t) (foldl put_bytes m0 (take d (line_stores l es))) ∧
  strip <$> on_line l (inflight t) = drop d (line_stores l es).

Lemma line_at_step l m0 es t d e :
  pwf t → line_at l m0 es t d → ∃ d', line_at l m0 (es ++ [e]) (pexec1 t e) d'.
Proof.
  intros [Hin Hff] (Hd & Hdur & Hfl). unfold line_at. rewrite line_stores_app.
  destruct e as [nt a bs|c a|]; simpl.
  - exists d. assert (E : strip <$> on_line l (inflight (pexec1 t (EStore nt a bs))) =
      drop d (line_stores l es) ++ if decide (line a = l) then [(a, bs)] else []).
    { destruct nt; simpl; rewrite on_line_app, ?on_line_mark, fmap_app, ?strip_mark, Hfl;
        (case_decide; [by rewrite on_line_singleton|by rewrite on_line_singleton_ne]). }
    cbn [pexec1] in E. rewrite E, length_app, take_app_le, drop_app_le by done.
    split_and!; [lia|by destruct nt|by case_decide].
  - rewrite app_nil_r. destruct c; simpl.
    + exists d. by rewrite on_line_mark, strip_mark.
    + destruct (decide (l = line a)) as [->|Hne].
      * exists (length (line_stores (line a) es)). rewrite firstn_all, skipn_all. split; [done|].
        split.
        -- intros x Hx. rewrite foldl_strip. fold (on_line (line a) (inflight t)). rewrite Hfl.
           rewrite <- (take_drop d (line_stores (line a) es)) at 2. rewrite foldl_app_eq.
           apply put_bytes_local. by apply Hdur.
        -- rewrite on_line_filter, filter_none; [done|]. apply Forall_forall.
           intros p [Hp _]%on_line_spec. auto.
      * exists d. rewrite filter_same_line by done. split; [done|]. split; [|done].
        intros x Hx. rewrite foldl_pending_on_line by (by apply Forall_filter_keep).
        rewrite Hx, filter_other_line by done. by apply Hdur.
  - rewrite app_nil_r.
    set (F := filter (λ p, p_flushed p = true) (on_line l (inflight t))).
    assert (E : strip <$> F ++ filter (λ p, p_flushed p ≠ true) (on_line l (inflight t))
      = drop d (line_stores l es)) by (unfold F; by rewrite <- flushed_first_filter).
    rewrite fmap_app in E.
    assert (HF : take (length F) (drop d (line_stores l es)) = strip <$> F).
    { rewrite <- E, take_app_le by (by rewrite length_fmap).
      by rewrite take_ge by (by rewrite length_fmap). }
    assert (HU : drop (length F) (drop d (line_stores l es)) =
      strip <$> filter (λ p, p_flushed p ≠ true) (on_line l (inflight t))).
    { by rewrite <- E, drop_app_length' by (by rewrite length_fmap). }
    exists (d + length F)%nat. split_and!.
    + apply (f_equal length) in E. rewrite length_app, length_drop, !length_fmap in E. lia.
    + intros x Hx. rewrite foldl_pending_on_line by (by apply Forall_filter_keep).
      rewrite Hx, on_line_filter. fold F. rewrite foldl_strip, <- HF.
      rewrite <- take_take_drop, foldl_app_eq. apply put_bytes_local. by apply Hdur.
    + by rewrite on_line_filter, <- HU, drop_drop.
Qed.

Lemma line_at_pexec l s es :
  pwf s → clean l s → Forall ev_ok es → ∃ d, line_at l (durable s) es (pexec s es) d.
Proof.
  intros Hs Hc He. induction es as [|e es IH] using rev_ind.
  - exists O. split_and!; [simpl; lia|done|]. unfold clean in Hc. unfold pexec. simpl. by rewrite Hc.
  - apply Forall_app in He as [H1 H2]. destruct (IH H1) as [d Hd].
    rewrite pexec_app. apply (line_at_step _ _ _ _ d); [by apply pwf_pexec|done].
Qed.

(** A crash keeps, of a line that was clean, a prefix of the run. *)
Theorem crash_line_prefix l s es m :
  pwf s → clean l s → Forall ev_ok es → crash_during s es m →
  ∃ es', es' `prefix_of` es ∧ agree (on l) m (apply_events (durable s) es').
Proof.
  intros Hs Hc He (es1 & Hpre & keep & ->).
  assert (He1 : Forall ev_ok es1) by (destruct Hpre as [r ->]; by apply Forall_app in He as [? _]).
  destruct (line_at_pexec l s es1) as (d & Hd & Hdur & Hfl); [done..|].
  destruct (pwf_pexec s es1) as [Hin _]; [done..|].
  destruct (line_stores_prefix l es1 (d + keep l)) as (es' & Hp & E).
  exists es'. split; [by etrans|]. intros x Hx.
  rewrite (apply_events_line l) by
    (try done; destruct Hp as [r ->]; by apply Forall_app in He1 as [? _]).
  rewrite crash_apply_on_line, E by done. rewrite Hx, foldl_strip, fmap_take, Hfl.
  rewrite <- take_take_drop, foldl_app_eq. apply put_bytes_local. by apply Hdur.
Qed.

(** Once written back and fenced, a line is clean and holds what the code sees. *)
Lemma fence_clean l s es :
  inflight s = [] → Forall ev_ok es → unflushed l es = false →
  clean l (pexec s (es ++ [EFence])).
Proof.
  intros Hs He Hu. unfold clean, on_line. apply filter_none, Forall_forall. intros p Hp Hl.
  rewrite pexec_app in Hp. apply list_elem_of_filter in Hp as [Hf Hp].
  destruct (p_flushed p) eqn:E; [done|].
  apply unflushed_inv in Hp; [|done..]. by rewrite Hl, Hu in Hp.
Qed.

Lemma clean_view l s : pwf s → clean l s → agree (on l) (durable s) (pview s).
Proof.
  intros [Hin _] Hc x Hx. unfold pview. rewrite foldl_pending_on_line, Hx by done.
  unfold clean in Hc. by rewrite Hc.
Qed.

(** A clean line stays clean while no store hits it. *)
Lemma clean_pexec l s es :
  pwf s → Forall ev_ok es → clean l s → line_stores l es = [] → clean l (pexec s es).
Proof.
  intros Hs He Hc Hno. destruct (line_at_pexec l s es) as (d & _ & _ & E); [done..|].
  rewrite Hno, drop_nil in E. unfold clean. by apply fmap_nil_inv in E.
Qed.

(** Where stores outside [P] cannot reach. *)
Lemma line_stores_out l es P :
  stores_in P es → Forall ev_ok es → (∀ x, on l x → ¬ P x) → line_stores l es = [].
Proof.
  intros Hst He Hl. induction He as [|e es H1 H2 IH]; [done|].
  apply stores_in_cons in Hst as [Hs1 Hs2]. specialize (IH Hs2).
  destruct e as [nt a bs| |]; simpl; try done. case_decide as E; [|done].
  exfalso. apply (Hl a E), (Hs1 nt a bs); [by apply list_elem_of_singleton|].
  destruct H1 as [H1 _]. destruct bs; [done|]. unfold in_range. simpl. lia.
Qed.

(** A record on a clean line is validated by the last store to the line: after a
    crash the field of that store is as before the run, or the whole line is as
    after it. *)
Theorem crash_last_store l s pre nt a bs post m :
  pwf s → clean l s → Forall ev_ok (pre ++ EStore nt a bs :: post) →
  stores_in (λ x, ¬ in_range a (Z.of_nat (length bs)) x) pre →
  line a = l → line_stores l post = [] →
  crash_during s (pre ++ EStore nt a bs :: post) m →
  agree (in_range a (Z.of_nat (length bs))) m (durable s) ∨
  agree (on l) m (apply_events (durable s) (pre ++ [EStore nt a bs])).
Proof.
  intros Hs Hc He Hpre Ha Hpost Hm.
  destruct (crash_line_prefix l s _ m Hs Hc He Hm) as (es' & Hp & Hag).
  assert (Hl : ∀ x, in_range a (Z.of_nat (length bs)) x → on l x).
  { intros x Hx. unfold on. rewrite <- Ha. apply Forall_app in He as [_ He].
    apply Forall_cons in He as [[_ He] _]. by apply He. }
  apply prefix_app_inv in Hp as [Hp|(r & -> & Hp)].
  - left. intros x Hx. rewrite Hag by auto.
    eapply apply_events_frame; [by eapply stores_in_prefix|]. simpl. naive_solver.
  - destruct r as [|e r].
    { left. intros x Hx. rewrite Hag, app_nil_r by auto.
      eapply apply_events_frame; [done|]. simpl. naive_solver. }
    right. pose proof (prefix_cons_inv_1 _ _ _ _ Hp) as ->. apply prefix_cons_inv_2 in Hp.
    intros x Hx. rewrite Hag by done. change (EStore nt a bs :: r) with ([EStore nt a bs] ++ r).
    rewrite (app_assoc pre), apply_events_app.
    apply Forall_app in He as [_ He]. apply Forall_cons in He as [_ He].
    destruct Hp as [r' ->]. apply Forall_app in He as [He _].
    rewrite line_stores_app in Hpost. apply app_eq_nil in Hpost as [Hno _].
    rewrite (apply_events_line l) by done. by rewrite Hno.
Qed.

Lemma unflushed_off l es : line_stores l es = [] → unflushed l es = false.
Proof.
  unfold unflushed. induction es as [|e es IH]; [done|]. destruct e as [nt a bs| |]; simpl.
  - case_decide; [done|exact IH].
  - case_decide; exact IH.
  - exact IH.
Qed.

(** Events that store nowhere. *)
Lemma no_store_of P es : stores_in P es → Forall ev_ok es → (∀ x, ¬ P x) → Forall no_store es.
Proof.
  intros Hst He HP. induction He as [|e es H1 H2 IH]; [constructor|].
  apply stores_in_cons in Hst as [Hs1 Hs2]. constructor; [|by apply IH].
  destruct e as [nt a bs| |]; simpl; [|done..]. destruct H1 as [H1 _].
  apply (HP a), (Hs1 nt a bs); [by apply list_elem_of_singleton|].
  destruct bs; [done|]. unfold in_range. simpl. lia.
Qed.

Lemma line_stores_none l es : Forall no_store es → line_stores l es = [].
Proof. induction 1 as [|e es He Hes IH]; [done|]. destruct e; [destruct He|exact IH..]. Qed.

(** A run that wrote everything back leaves nothing in flight at its fence. *)
Lemma fence_quiescent m es :
  Forall ev_ok es → (∀ k, unflushed k es = false) →
  ∃ m', pexec (PState m []) (es ++ [EFence]) = PState m' [] ∧ mem_eq m' (apply_events m es).
Proof.
  intros Hok Hu. assert (Hok' : Forall ev_ok (es ++ [EFence])) by (apply Forall_app_2; [done|by constructor]).
  pose proof (pview_pexec (PState m []) (es ++ [EFence]) (pwf_nil m) Hok') as Hv.
  assert (Hc : ∀ k, clean k (pexec (PState m []) (es ++ [EFence]))) by (intros k; by apply fence_clean).
  destruct (pexec (PState m []) (es ++ [EFence])) as [m' [|w ps]].
  - exists m'. split; [done|]. rewrite apply_events_app in Hv. exact Hv.
  - specialize (Hc (line (p_addr w))). unfold clean, on_line in Hc. simpl in Hc.
    by rewrite filter_cons_True in Hc.
Qed.
