(* ===== verification/NovaBase.v ===== *)
(** * NOVA: primitives over persistent memory

    The inline helpers of [nova_def.h] and [nova.h] the rest of NOVA is built
    on: cache-line flushing, the persistence barrier, non-temporal copies and
    fills, the block-offset translation and the CRC-32C routine.

    Pointers into the NVMM mapping are modelled by their offset from its start
    ([sbi->virt_addr], which is page aligned), so [nova_get_block] is the
    identity on non-zero offsets and NULL at zero.  The write-protection window
    ([nova_memunlock_*], [nova_memlock_*]) has no effect on memory contents and
    is left out. *)

From stdpp Require Import base list gmap.
From Stdlib Require Import ZArith Lia.
From coqutil Require Import Byte Word.LittleEndianList.
From S2P Require Import Prelude PMem.

Local Open Scope Z_scope.

(** ** The monad of code that runs on persistent memory *)

Record cpu := Cpu { view : mem; evs : list event }.
Abbreviation PM := (M cpu).

Definition emit (e : event) : PM () :=
  λ s, Ok ((), Cpu (apply_event (view s) e) (evs s ++ [e])).
Definition emits (es : list event) : PM () :=
  λ s, Ok ((), Cpu (apply_events (view s) es) (evs s ++ es)).

(** A cached store of an [n]-byte integer, and a load. *)
Definition store (n : nat) (a v : Z) : PM () := emit (EStore false a (bytes_of n v)).
Definition fetch (n : nat) (a : Z) : PM Z := gets (λ s, load n (view s) a).
(** Dereferencing NULL faults. *)
Definition deref (p : option Z) : PM Z := match p with Some a => mret a | None => bug end.

Definition log_state (s : cpu) (es : list event) : cpu :=
  Cpu (apply_events (view s) es) (evs s ++ es).

Lemma emits_eq es s : emits es s = Ok ((), log_state s es).
Proof. done. Qed.
Lemma emit_eq e s : emit e s = Ok ((), log_state s [e]).
Proof. done. Qed.
Lemma store_eq n a v s : store n a v s = Ok ((), log_state s [EStore false a (bytes_of n v)]).
Proof. done. Qed.
Lemma fetch_eq n a s : fetch n a s = Ok (load n (view s) a, s).
Proof. done. Qed.
Lemma log_state_app s es1 es2 : log_state (log_state s es1) es2 = log_state s (es1 ++ es2).
Proof. unfold log_state. simpl. by rewrite apply_events_app, app_assoc. Qed.
Lemma log_state_nil s : log_state s [] = s.
Proof. destruct s. unfold log_state. simpl. by rewrite app_nil_r. Qed.

(** ** [nova_def.h]: flushing and fencing *)

Definition CACHELINE_SIZE : Z := 64.
Definition PAGE_SHIFT : Z := 12.
Definition PAGE_SIZE : Z := 4096.
(** [PAGE_MASK] is [~(PAGE_SIZE - 1)]. *)
Definition PAGE_MASK : Z := Z.lnot (PAGE_SIZE - 1).

(** Module parameters and mount-time flags the modelled code reads. *)
Record nova_cfg := NovaCfg {
  support_clwb : bool;      (* extern int support_clwb *)
  metadata_csum : bool;     (* extern int metadata_csum *)
  cpus : Z;                 (* sbi->cpus *)
  (* the code memcpy_mcsafe(_, p, len) returns: 0, or that of a media error
     (or of the fault, for a [p] computed from NULL) *)
  mcsafe_rc : option Z → Z → Z
}.
Definition mcsafe_fail (cfg : nova_cfg) (p : option Z) (len : Z) : bool :=
  negb (mcsafe_rc cfg p len =? 0).

Definition PERSISTENT_BARRIER : PM () := emit EFence.

(** [for (i = 0; i < len; i += CACHELINE_SIZE)] over [u32] counters. *)
Fixpoint flush_loop (fuel : nat) (clwb : bool) (buf i len : Z) : PM () :=
  if i <? len then
    match fuel with
    | O => out_of_fuel
    | S fuel =>
        emit (EFlush clwb (buf + i));;
        flush_loop fuel clwb buf (u32 (i + CACHELINE_SIZE)) len
    end
  else mret ().

Definition nova_flush_buffer (cfg : nova_cfg) (buf len : Z) (fence : bool) : PM () :=
  let len := u32 (len + Z.land buf (CACHELINE_SIZE - 1)) in
  flush_loop (Z.to_nat (len / CACHELINE_SIZE + 1)) (support_clwb cfg) buf 0 len;;
  when fence PERSISTENT_BARRIER.

(** The lines [nova_flush_buffer] writes back, in order. *)
Definition flush_events (clwb : bool) (buf len : Z) : list event :=
  (λ k : nat, EFlush clwb (buf + 64 * Z.of_nat k)) <$>
    seq 0 (Z.to_nat ((len + buf mod 64 + 63) / 64)).

Lemma flush_loop_eq fuel clwb buf k len s :
  0 <= len <= 2 ^ 32 - 64 → 64 * k <= len + 63 → 0 <= k →
  (Z.to_nat (len / 64 + 1 - k) <= fuel)%nat →
  flush_loop fuel clwb buf (64 * k) len s =
  Ok ((), log_state s ((λ j : nat, EFlush clwb (buf + 64 * Z.of_nat j)) <$>
            seq (Z.to_nat k) (Z.to_nat ((len + 63) / 64 - k)))).
Proof.
  intros Hlen. revert k s. induction fuel as [|fuel IH]; intros k s Hk Hk0 Hf; simpl.
  - destruct (Z.ltb_spec (64 * k) len); [exfalso|].
    { pose proof (Z.div_le_lower_bound len 64 k ltac:(lia) ltac:(lia)). lia. }
    replace (Z.to_nat ((len + 63) / 64 - k)) with O; [by rewrite log_state_nil|].
    assert ((len + 63) / 64 < k + 1) by (apply Z.div_lt_upper_bound; lia). lia.
  - destruct (Z.ltb_spec (64 * k) len).
    + rewrite (bind_Ok _ _ _ _ _ (emit_eq _ s)).
      unfold CACHELINE_SIZE. rewrite wrap_small by lia.
      replace (64 * k + 64) with (64 * (k + 1)) by lia.
      rewrite IH by lia. rewrite log_state_app. do 3 f_equal.
      assert (k + 1 <= (len + 63) / 64) by (apply Z.div_le_lower_bound; lia).
      replace (Z.to_nat ((len + 63) / 64 - k)) with (S (Z.to_nat ((len + 63) / 64 - (k + 1)))) by lia.
      replace (Z.to_nat (k + 1)) with (S (Z.to_nat k)) by lia.
      simpl. do 2 f_equal. lia.
    + replace (Z.to_nat ((len + 63) / 64 - k)) with O; [by rewrite log_state_nil|].
      assert ((len + 63) / 64 < k + 1) by (apply Z.div_lt_upper_bound; lia). lia.
Qed.

Definition fence_events (fence : bool) : list event := if fence then [EFence] else [].

Lemma nova_flush_buffer_eq cfg buf len fence s :
  0 <= len <= 2 ^ 32 - 128 →
  nova_flush_buffer cfg buf len fence s =
  Ok ((), log_state s (flush_events (support_clwb cfg) buf len ++ fence_events fence)).
Proof.
  intros Hlen. unfold nova_flush_buffer, CACHELINE_SIZE.
  change (64 - 1) with (2 ^ 6 - 1). rewrite land_mask_mod by lia. change (2 ^ 6) with 64.
  pose proof (Z.mod_pos_bound buf 64 ltac:(lia)).
  rewrite wrap_small by lia.
  erewrite bind_Ok; [|apply (flush_loop_eq _ _ _ 0); lia]. rewrite Z.sub_0_r.
  unfold when, fence_events, flush_events. destruct fence; [|by rewrite app_nil_r].
  unfold PERSISTENT_BARRIER. by rewrite emit_eq, log_state_app.
Qed.

(** Every line of the buffer is written back. *)
Lemma flush_events_cover clwb buf len x :
  0 <= len → in_range buf len x →
  ∃ a, EFlush clwb a ∈ flush_events clwb buf len ∧ line a = line x.
Proof.
  unfold in_range. intros Hlen Hx. set (k := x / 64 - buf / 64).
  exists (buf + 64 * k).
  pose proof (Z.div_mod x 64 ltac:(lia)). pose proof (Z.div_mod buf 64 ltac:(lia)).
  pose proof (Z.mod_pos_bound x 64 ltac:(lia)). pose proof (Z.mod_pos_bound buf 64 ltac:(lia)).
  assert (0 <= k) by (unfold k; pose proof (Z.div_le_mono buf x 64 ltac:(lia)); lia).
  split.
  - unfold flush_events. apply list_elem_of_fmap. exists (Z.to_nat k).
    split; [f_equal; lia|]. apply elem_of_seq. split; [lia|].
    assert (k + 1 <= (len + buf mod 64 + 63) / 64) by (apply Z.div_le_lower_bound; lia). lia.
  - unfold line. rewrite Z.mul_comm, Z.div_add by lia. unfold k. lia.
Qed.

Lemma flush_events_flushes clwb buf len :
  Forall is_flush (flush_events clwb buf len).
Proof. unfold flush_events. apply Forall_fmap, Forall_forall. done. Qed.

(** ** [nova.h]: copies, fills, translation *)

(** The kernel's [__copy_from_user_inatomic_nocache]: which stores it issues is
    the kernel's business, what it promises is that they write the given bytes
    and nothing else. *)
Class NocacheCopy := {
  nocache_events : Z → list byte → list event;
  nocache_view : ∀ m a bs, mem_eq (apply_events m (nocache_events a bs)) (write_bytes m a bs);
  nocache_stores : ∀ a bs, stores_in (in_range a (Z.of_nat (length bs))) (nocache_events a bs);
  nocache_in_line : ∀ a bs, Forall ev_ok (nocache_events a bs)
}.

Definition memcpy_to_pmem_nocache `{NocacheCopy} (cfg : nova_cfg) (dst src size : Z) : PM () :=
  bs ← gets (λ s, read_bytes (view s) src (Z.to_nat size));
  emits (nocache_events dst bs);;
  nova_flush_buffer cfg dst size true.

Lemma memcpy_to_pmem_nocache_eq `{NocacheCopy} cfg dst src size s :
  0 <= size <= 2 ^ 32 - 128 →
  memcpy_to_pmem_nocache cfg dst src size s =
  Ok ((), log_state s (nocache_events dst (read_bytes (view s) src (Z.to_nat size)) ++
            flush_events (support_clwb cfg) dst size ++ [EFence])).
Proof.
  intros. unfold memcpy_to_pmem_nocache.
  erewrite bind_Ok; [|done]. erewrite bind_Ok; [|apply emits_eq].
  by rewrite nova_flush_buffer_eq, log_state_app.
Qed.

(** The kernel's [memset] and [memcpy] on cached memory: again, which stores they
    issue is the kernel's business. *)
Class CachedWrite := {
  cached_events : Z → list byte → list event;
  cached_view : ∀ m a bs, mem_eq (apply_events m (cached_events a bs)) (write_bytes m a bs);
  cached_stores : ∀ a bs, stores_in (in_range a (Z.of_nat (length bs))) (cached_events a bs);
  cached_in_line : ∀ a bs, Forall ev_ok (cached_events a bs)
}.

(** One byte-sized store per byte: the simplest way to keep the promise. *)
Fixpoint bytewise_events (nt : bool) (a : Z) (bs : list byte) : list event :=
  match bs with
  | [] => []
  | b :: r => EStore nt a [b] :: bytewise_events nt (a + 1) r
  end.

Lemma bytewise_view nt m a bs :
  apply_events m (bytewise_events nt a bs) = write_bytes m a bs.
Proof. revert m a. induction bs as [|b bs IH]; intros m a; [done|]. simpl. apply IH. Qed.

Lemma bytewise_stores nt a bs :
  stores_in (in_range a (Z.of_nat (length bs))) (bytewise_events nt a bs).
Proof.
  unfold in_range. revert a. induction bs as [|b bs IH]; intros a; [apply stores_in_nil|].
  simpl. apply stores_in_cons. split.
  - intros nt' a' bs' x ?%list_elem_of_singleton. simplify_eq. unfold in_range. simpl. lia.
  - eapply stores_in_mono; [apply IH|]. simpl. lia.
Qed.

Lemma in_line_single a b : in_line a [b].
Proof. intros x. unfold in_range. simpl. intros. f_equal. lia. Qed.
Lemma bytewise_in_line nt a bs : Forall ev_ok (bytewise_events nt a bs).
Proof.
  revert a. induction bs as [|b bs IH]; intros a; simpl; constructor;
    [split; [done|apply in_line_single]|apply IH].
Qed.

Program Definition bytewise_copy : NocacheCopy := {| nocache_events := bytewise_events true |}.
Next Obligation. intros. by rewrite bytewise_view. Qed.
Next Obligation. apply bytewise_stores. Qed.
Next Obligation. apply bytewise_in_line. Qed.
Program Definition bytewise_write : CachedWrite := {| cached_events := bytewise_events false |}.
Next Obligation. intros. by rewrite bytewise_view. Qed.
Next Obligation. apply bytewise_stores. Qed.
Next Obligation. apply bytewise_in_line. Qed.

(** [memset_nt]: [movnti] stores of eight bytes (64-byte blocks, then single
    words), then one of four bytes.  The length register [%edx] is 32 bits wide. *)
Fixpoint movnti_words (n : nat) (dest : Z) (qword : Z) : list event :=
  match n with
  | O => []
  | S n => EStore true dest (bytes_of 8 qword) :: movnti_words n (dest + 8) qword
  end.

Definition memset_nt_events (dest dword length : Z) : list event :=
  let qword := Z.lor (Z.shiftl (u32 dword) 32) (u32 dword) in
  let edx := u32 length in
  let ecx := Z.shiftr edx 6 in
  let edx := Z.land edx 63 in
  let n1 := Z.to_nat (8 * ecx) in
  let dest1 := dest + 64 * ecx in
  let ecx := Z.shiftr edx 3 in
  let edx := Z.land edx 7 in
  let dest2 := dest1 + 8 * ecx in
  movnti_words n1 dest qword ++ movnti_words (Z.to_nat ecx) dest1 qword ++
  (if Z.shiftr edx 2 =? 0 then [] else [EStore true dest2 (bytes_of 4 (u32 dword))]).

Definition memset_nt (dest dword length : Z) : PM () := emits (memset_nt_events dest dword length).

(** The [n]-fold repetition of a pattern. *)
Definition repeat_bytes (n : nat) (bs : list byte) : list byte := concat (replicate n bs).

Lemma repeat_bytes_add n k bs : repeat_bytes (n + k) bs = repeat_bytes n bs ++ repeat_bytes k bs.
Proof. unfold repeat_bytes. by rewrite replicate_add, concat_app. Qed.
Lemma length_repeat_bytes n bs : length (repeat_bytes n bs) = (n * length bs)%nat.
Proof. induction n as [|n IH]; [done|]. unfold repeat_bytes in *. simpl. rewrite length_app. lia. Qed.
Lemma repeat_bytes_double n bs : repeat_bytes n (bs ++ bs) = repeat_bytes (2 * n) bs.
Proof.
  induction n as [|n IH]; [done|]. replace (2 * S n)%nat with (2 + 2 * n)%nat by lia.
  rewrite repeat_bytes_add, <- IH. unfold repeat_bytes. simpl. by rewrite app_nil_r.
Qed.

Lemma write_bytes_app m a bs1 bs2 :
  write_bytes m a (bs1 ++ bs2) = write_bytes (write_bytes m a bs1) (a + Z.of_nat (length bs1)) bs2.
Proof.
  revert m a. induction bs1 as [|b bs1 IH]; intros m a; simpl app; [by rewrite Z.add_0_r|].
  change (write_bytes (<[a := b]> m) (a + 1) (bs1 ++ bs2) =
    write_bytes (write_bytes (<[a := b]> m) (a + 1) bs1) (a + Z.of_nat (length (b :: bs1))) bs2).
  rewrite IH. f_equal. simpl. lia.
Qed.

Lemma movnti_words_write n dest q m :
  apply_events m (movnti_words n dest q) = write_bytes m dest (repeat_bytes n (bytes_of 8 q)).
Proof.
  revert dest m. induction n as [|n IH]; intros dest m; [done|].
  simpl movnti_words. change (apply_events m (EStore true dest (bytes_of 8 q) :: movnti_words n (dest + 8) q))
    with (apply_events (write_bytes m dest (bytes_of 8 q)) (movnti_words n (dest + 8) q)).
  rewrite IH. change (repeat_bytes (S n) (bytes_of 8 q))
    with (bytes_of 8 q ++ repeat_bytes n (bytes_of 8 q)).
  by rewrite write_bytes_app, length_bytes_of.
Qed.

(** [qword] holds [dword] twice. *)
Lemma bytes_of_twice d :
  0 <= d < 2 ^ 32 → bytes_of 8 (Z.lor (Z.shiftl d 32) d) = bytes_of 4 d ++ bytes_of 4 d.
Proof.
  intros Hd. unfold bytes_of.
  assert (E : le_combine (le_split 4 d) = d).
  { rewrite le_combine_split. by apply Z.mod_small. }
  rewrite <- (split_le_combine' (le_split 4 d ++ le_split 4 d) 8)
    by (by rewrite length_app, !length_le_split).
  rewrite le_combine_app, E, length_le_split. by rewrite Z.lor_comm.
Qed.

(** [memset_nt] fills [length] bytes with the pattern, for a length that is a
    multiple of four and fits the 32-bit register. *)
Lemma memset_nt_fill m dest dword len :
  0 <= len < 2 ^ 32 → len mod 4 = 0 →
  apply_events m (memset_nt_events dest dword len) =
  write_bytes m dest (repeat_bytes (Z.to_nat (len / 4)) (bytes_of 4 (u32 dword))).
Proof.
  intros Hlen Hm. unfold memset_nt_events. rewrite (wrap_small 32 len) by lia.
  pose proof (wrap_range 32 dword ltac:(lia)) as Hd. set (d := u32 dword) in *.
  change 63 with (2 ^ 6 - 1). change 7 with (2 ^ 3 - 1). rewrite !land_mask_mod by lia.
  rewrite !Z.shiftr_div_pow2 by lia. change (2 ^ 6) with 64. change (2 ^ 3) with 8.
  change (2 ^ 2) with 4. set (r := len mod 64). set (q := len / 64).
  assert (Hr : 0 <= r < 64 ∧ len = 64 * q + r).
  { split; [apply Z.mod_pos_bound; lia|apply Z.div_mod; lia]. }
  assert (Hq : 0 <= q) by lia.
  set (r2 := r mod 8). set (q2 := r / 8).
  assert (Hr2 : 0 <= r2 < 8 ∧ r = 8 * q2 + r2).
  { split; [apply Z.mod_pos_bound; lia|apply Z.div_mod; lia]. }
  assert (Hr4 : r2 = 0 ∨ r2 = 4).
  { assert (r2 mod 4 = 0); [|assert (r2 = 4 * (r2 / 4) + r2 mod 4) by (apply Z.div_mod; lia); lia].
    replace r2 with (len + (- (16 * q + 2 * q2)) * 4) by lia. by rewrite Z.mod_add. }
  rewrite !apply_events_app, !movnti_words_write, bytes_of_twice by done.
  rewrite !repeat_bytes_double.
  assert (El : Z.to_nat (len / 4) = (2 * Z.to_nat (8 * q) + (2 * Z.to_nat q2 + Z.to_nat (r2 / 4)))%nat).
  { pose proof (Z.div_mod len 4 ltac:(lia)). pose proof (Z.div_mod r2 4 ltac:(lia)).
    pose proof (Z.mod_pos_bound r2 4 ltac:(lia)). lia. }
  rewrite El, repeat_bytes_add, write_bytes_app, repeat_bytes_add, write_bytes_app.
  rewrite !length_repeat_bytes, length_bytes_of.
  replace (dest + Z.of_nat (2 * Z.to_nat (8 * q) * 4)) with (dest + 64 * q) by lia.
  replace (dest + 64 * q + Z.of_nat (2 * Z.to_nat q2 * 4)) with (dest + 64 * q + 8 * q2) by lia.
  destruct Hr4 as [-> | ->]; [done|]. reflexivity.
Qed.

(** [nova_get_block]: NULL at offset zero. *)
Definition nova_get_block (block : Z) : option Z := if block =? 0 then None else Some block.
(** [nova_get_addr_off]: pointers are offsets already. *)
Definition nova_get_addr_off (addr : Z) : Z := addr.
Definition nova_get_block_off (blocknr : Z) : Z := u64 (Z.shiftl blocknr PAGE_SHIFT).

Lemma nova_get_block_Some b : b ≠ 0 → nova_get_block b = Some b.
Proof. intros. unfold nova_get_block. by destruct (Z.eqb_spec b 0). Qed.

(** ** [nova.h]: CRC-32C *)

(** The CPU's CRC-32C instructions and the kernel's [crc32c]. *)
Class Crc := {
  has_xmm4_2 : bool;                          (* static_cpu_has(X86_FEATURE_XMM4_2) *)
  crc32q : Z → Z → Z;                         (* crc32q (%1), %0 *)
  crc32b : Z → byte → Z;                      (* crc32b (%1), %0 *)
  kernel_crc32c : Z → list byte → Z           (* crc32c() *)
}.
(** What Intel's manual and the kernel promise of them: eight bytes at once
    fold the bytes in memory order, and [crc32c] is the same fold. *)
Class CrcLaws `{Crc} : Prop := {
  crc32q_bytes : ∀ acc bs, length bs = 8%nat → crc32q acc (le_combine bs) = foldl crc32b acc bs;
  kernel_crc32c_bytes : ∀ acc bs, kernel_crc32c acc bs = foldl crc32b acc bs
}.

Section Crc32c.
Context `{Crc}.

(** [while (len > 8)] *)
Fixpoint crc_qword_loop (fuel : nat) (acc : Z) (data : list byte) : Z * list byte :=
  match fuel with
  | O => (acc, data)
  | S fuel =>
      if (8 <? length data)%nat
      then crc_qword_loop fuel (crc32q acc (le_combine (take 8 data))) (drop 8 data)
      else (acc, data)
  end.

(** [while (len > 0)] *)
Fixpoint crc_byte_loop (acc : Z) (data : list byte) : Z :=
  match data with
  | [] => acc
  | b :: data => crc_byte_loop (crc32b acc b) data
  end.

Definition nova_crc32c (crc : Z) (data : list byte) : Z :=
  if has_xmm4_2 then
    let '(acc, rest) := crc_qword_loop (length data) crc data in
    u32 (crc_byte_loop acc rest)
  else u32 (kernel_crc32c crc data).

Lemma nova_crc32c_range crc data : 0 <= nova_crc32c crc data < 2 ^ 32.
Proof.
  unfold nova_crc32c. destruct has_xmm4_2; [destruct (crc_qword_loop _ _ _)|];
    apply wrap_range; lia.
Qed.

Lemma crc_byte_loop_foldl acc data : crc_byte_loop acc data = foldl crc32b acc data.
Proof. revert acc. induction data; simpl; auto. Qed.

Lemma crc_qword_loop_foldl `{!CrcLaws} fuel acc data :
  (length data <= fuel)%nat →
  let '(acc', rest) := crc_qword_loop fuel acc data in
  foldl crc32b acc' rest = foldl crc32b acc data ∧ (length rest <= 8)%nat.
Proof.
  revert acc data. induction fuel as [|fuel IH]; intros acc data Hf; simpl.
  - split; [done|lia].
  - destruct (Nat.ltb_spec 8 (length data)); [|by split; [|lia]].
    specialize (IH (crc32q acc (le_combine (take 8 data))) (drop 8 data)).
    destruct (crc_qword_loop _ _ _) as [acc' rest].
    destruct IH as [IH1 IH2]; [rewrite length_drop; lia|]. split; [|done].
    rewrite IH1, crc32q_bytes by (rewrite length_take; lia).
    by rewrite <- foldl_app_eq, take_drop.
Qed.
(** Both code paths compute the byte-wise fold. *)
Lemma nova_crc32c_foldl `{!CrcLaws} crc data :
  nova_crc32c crc data = u32 (foldl crc32b crc data).
Proof.
  unfold nova_crc32c. destruct has_xmm4_2; [|by rewrite kernel_crc32c_bytes].
  pose proof (crc_qword_loop_foldl (length data) crc data ltac:(lia)) as Hl.
  destruct (crc_qword_loop _ _ _) as [acc rest]. destruct Hl as [Hl _].
  by rewrite crc_byte_loop_foldl, Hl.
Qed.
End Crc32c.

(** A concrete CPU: the CRC-32C polynomial, bit by bit. *)
Definition crc_shift (x : Z) : Z :=
  if Z.testbit x 0 then Z.lxor (Z.shiftr x 1) 2197175160 else Z.shiftr x 1.
Definition crc_byte (acc : Z) (b : byte) : Z :=
  Nat.iter 8 crc_shift (Z.lxor acc (byte.unsigned b)).
Definition bitwise_crc (sse : bool) : Crc := {|
  has_xmm4_2 := sse;
  crc32q := λ acc v, foldl crc_byte acc (le_split 8 v);
  crc32b := crc_byte;
  kernel_crc32c := foldl crc_byte
|}.

Lemma bitwise_crc_laws sse : @CrcLaws (bitwise_crc sse).
Proof.
  split; [|done]. intros acc bs Hbs.
  change (foldl crc_byte acc (le_split 8 (le_combine bs)) = foldl crc_byte acc bs).
  by rewrite split_le_combine'.
Qed.

(** Both code paths compute the CRC-32C check value of "123456789". *)
Definition check_bytes : list byte := byte.of_Z <$> [49; 50; 51; 52; 53; 54; 55; 56; 57].
Example crc_check sse :
  Z.lxor (@nova_crc32c (bitwise_crc sse) (2 ^ 32 - 1) check_bytes) (2 ^ 32 - 1) = 0xE3069283.
Proof. destruct sse; vm_compute; reflexivity. Qed.

Lemma flush_fence_no_store clwb buf len b :
  Forall no_store (flush_events clwb buf len ++ fence_events b).
Proof.
  apply Forall_app. split; [apply is_flush_no_store, flush_events_flushes|].
  destruct b; by repeat constructor.
Qed.

(** Stores inside a buffer, then the flush of that buffer: nothing is left
    behind in the cache. *)
Lemma unflushed_covered l es clwb buf len tl :
  0 <= len → stores_in (in_range buf len) es → Forall ev_ok es → Forall no_store tl →
  unflushed l (es ++ flush_events clwb buf len ++ tl) = false.
Proof.
  intros Hlen Hst Hok Htl. rewrite app_assoc.
  apply unflushed_app; [|by apply unflushed_no_store].
  apply unflushed_app_flushes; [apply flush_events_flushes|].
  intros (a & bs & Hin & Hl)%unflushed_stored.
  assert (Ha : in_range buf len a).
  { apply (Hst false a bs); [done|]. rewrite Forall_forall in Hok.
    destruct (Hok _ Hin) as [Hne _]. destruct bs; [done|]. unfold in_range. simpl. lia. }
  destruct (flush_events_cover clwb buf len a) as (b & Hb & Hlb); [done..|].
  exists clwb, b. by rewrite Hlb.
Qed.

(** An [n]-byte store at an [n]-aligned address stays in its cache line. *)
Lemma ev_ok_aligned nt a n v :
  (0 < n)%nat → (Z.of_nat n | 64) → a mod Z.of_nat n = 0 → ev_ok (EStore nt a (bytes_of n v)).
Proof.
  intros Hn [q Hq] Ha. split.
  - intros E. apply (f_equal length) in E. rewrite length_bytes_of in E. simpl in E. lia.
  - intros x. rewrite length_bytes_of. unfold in_range, line. intros Hx.
    apply Z.mod_divide in Ha as [c ->]; [|lia]. rewrite Hq.
    set (N := Z.of_nat n) in *. assert (0 < q) by nia.
    rewrite (Z.mul_comm q), <- !Z.div_div by lia.
    rewrite Z.div_mul by lia. f_equal. symmetry. apply Z.div_unique with (x - c * N); lia.
Qed.

(** Splits [Forall ev_ok es] into the conditions on the stores of [es]. *)
Ltac events_ok :=
  repeat lazymatch goal with
  | |- Forall _ [] => apply List.Forall_nil
  | |- Forall _ (_ ++ _) => apply Forall_app_2
  | |- Forall _ (_ :: _) => apply List.Forall_cons; [try exact I|]
  | |- Forall _ (flush_events _ _ _) => apply is_flush_ev_ok, flush_events_flushes
  end.
(** The same for [stores_in P es]. *)
Ltac events_in :=
  repeat lazymatch goal with
  | |- stores_in _ [] => apply stores_in_nil
  | |- stores_in _ (_ ++ _) => apply stores_in_app; split
  | |- stores_in _ (flush_events _ _ _) => apply stores_in_flushes, flush_events_flushes
  | |- stores_in _ [EFence] => apply stores_in_other; [exact I|]
  | |- stores_in _ [_] => fail
  | |- stores_in _ (_ :: _) => apply stores_in_cons; split
  end.

(** ** Non-temporal fills *)

Lemma movnti_ok n dest q : dest mod 8 = 0 → Forall ev_ok (movnti_words n dest q).
Proof.
  revert dest. induction n as [|n IH]; intros dest Hd; [constructor|]. constructor.
  - apply (ev_ok_aligned true dest 8 q); [lia|by exists 8|done].
  - apply IH. by rewrite <- Z.add_mod_idemp_r, Z.add_0_r by lia.
Qed.

Lemma movnti_cached n dest q a bs : EStore false a bs ∉ movnti_words n dest q.
Proof.
  revert dest. induction n as [|n IH]; intros dest; [apply not_elem_of_nil|].
  apply not_elem_of_cons. by split.
Qed.

Lemma movnti_in n dest q : stores_in (in_range dest (8 * Z.of_nat n)) (movnti_words n dest q).
Proof.
  revert dest. induction n as [|n IH]; intros dest; [apply stores_in_nil|].
  simpl movnti_words. apply stores_in_store.
  - intros x. rewrite length_bytes_of. unfold in_range. lia.
  - eapply stores_in_mono; [apply IH|]. intros x. unfold in_range. lia.
Qed.

(** A fill of whole lines. *)
Section Fill.
Variables (dest len : Z).
Hypothesis Hd : dest mod 8 = 0.
Hypothesis Hlen : 0 <= len < 2 ^ 32 ∧ len mod 64 = 0.

Lemma fill_words dword : ∃ n q, memset_nt_events dest dword len = movnti_words n dest q ∧ 8 * Z.of_nat n = len.
Proof using Hlen.
  destruct Hlen as [Hr Hm]. exists (Z.to_nat (len / 8)), (Z.lor (Z.shiftl (u32 dword) 32) (u32 dword)).
  unfold memset_nt_events. rewrite (wrap_small 32 len) by lia.
  change 63 with (2 ^ 6 - 1). rewrite land_mask_mod by lia. change (2 ^ 6) with 64. rewrite Hm.
  rewrite !app_nil_r. assert (E : 8 * Z.shiftr len 6 = len / 8).
  { rewrite Z.shiftr_div_pow2 by lia. change (2 ^ 6) with (8 * 8). apply Z.mod_divide in Hm as [k ->]; [|lia].
    replace (k * 64) with (k * 8 * 8) by lia. rewrite Z.div_mul by lia.
    replace (k * 8 * 8) with (k * (8 * 8)) by lia. rewrite Z.div_mul by lia. lia. }
  rewrite E. split; [done|]. rewrite Z2Nat.id by (apply Z.div_pos; lia).
  apply Z.mod_divide in Hm as [k ->]; [|lia]. replace (k * 64) with (k * 8 * 8) by lia.
  rewrite Z.div_mul by lia. lia.
Qed.

Lemma fill_ok dword : Forall ev_ok (memset_nt_events dest dword len).
Proof using Hlen Hd. destruct (fill_words dword) as (n & q & -> & _). by apply movnti_ok. Qed.

Lemma fill_cached dword a bs : EStore false a bs ∉ memset_nt_events dest dword len.
Proof using Hlen. destruct (fill_words dword) as (n & q & -> & _). apply movnti_cached. Qed.

Lemma fill_in dword : stores_in (in_range dest len) (memset_nt_events dest dword len).
Proof using Hlen. destruct (fill_words dword) as (n & q & -> & <-). apply movnti_in. Qed.

Lemma fill_zero m x : in_range dest len x → apply_events m (memset_nt_events dest 0 len) !!! x = Byte.x00.
Proof using Hlen.
  intros Hx. destruct Hlen as [Hr Hm]. rewrite memset_nt_fill; [|done|].
  - rewrite lookup_total_write_bytes. rewrite length_repeat_bytes, length_bytes_of. case_decide as Hin.
    + assert (E : repeat_bytes (Z.to_nat (len / 4)) (bytes_of 4 (u32 0)) =
        replicate (Z.to_nat (len / 4) * 4) Byte.x00).
      { generalize (Z.to_nat (len / 4)). induction n as [|n IH]; [done|].
        change (repeat_bytes (S n) ?b) with (b ++ repeat_bytes n b). by rewrite IH. }
      rewrite E, nth_lookup, lookup_replicate_2; [done|]. unfold in_range in *. lia.
    + exfalso. apply Hin. unfold in_range in *.
      rewrite (Z_div_exact_2 len 4) in Hx; [lia|lia|]. apply Z.mod_divide in Hm as [k ->]; [|lia].
      replace (k * 64) with (k * 16 * 4) by lia. by rewrite Z.mod_mul.
  - apply Z.mod_divide in Hm as [k ->]; [|lia]. replace (k * 64) with (k * 16 * 4) by lia. by rewrite Z.mod_mul.
Qed.
End Fill.

Arguments nova_crc32c : simpl never.
Arguments nova_flush_buffer : simpl never.
