(* ===== verification/NovaJournal.v ===== *)
(** * NOVA: the lite journal

    [journal.c] and [journal.h]: a per-CPU undo journal in a one-page ring of
    32-byte entries.  The operations are those of the source, one definition
    per function; [jfields] is the abstract view, the words a transaction logs.
    The crash-atomicity theorems are in [NovaJournalCrash]. *)

From stdpp Require Import base list gmap.
From Stdlib Require Import ZArith Lia.
From coqutil Require Import Byte Word.LittleEndianList.
From S2P Require Import Prelude PMem NovaBase.

Local Open Scope Z_scope.

(** ** [journal.h], [super.h], [nova_def.h]: constants and layouts *)

Definition JOURNAL_INODE : Z := 1.
Definition JOURNAL_ENTRY : Z := 2.
Definition JOURNAL_START : Z := 48.
Definition NOVA_DEF_BLOCK_SIZE_4K : Z := 4096.

(** [struct nova_lite_journal_entry]: field offsets and size. *)
Definition je_type : Z := 0.
Definition je_data1 : Z := 8.
Definition je_data2 : Z := 16.
Definition je_padding : Z := 24.
Definition je_csum : Z := 28.
Definition sizeof_journal_entry : Z := 32.

(** [struct journal_ptr_pair]. *)
Definition journal_head : Z := 0.
Definition journal_tail : Z := 8.

(** [struct nova_inode] (packed). *)
Definition pi_valid : Z := 1.
Definition pi_log_tail : Z := 72.
Definition pi_alter_log_tail : Z := 88.
Definition pi_delete_epoch_id : Z := 104.
Definition sizeof_nova_inode : Z := 120.

(** [struct nova_dentry] (packed). *)
Definition de_reassigned : Z := 2.
Definition de_invalid : Z := 3.
Definition de_csum : Z := 12.
Definition de_ino : Z := 16.

(** The part of [struct nova_inode_info_header] (DRAM) the journal and its
    clients use. *)
Record inode_hdr := InodeHdr {
  sih_pi_addr : Z;
  sih_alter_pi_addr : Z;
  sih_log_tail : Z;
  sih_alter_log_tail : Z
}.

(** [enum nova_entry_type] and [nova_get_log_entry_size] ([log.h]). *)
Inductive nova_entry_type :=
| FILE_WRITE | DIR_LOG | SET_ATTR | LINK_CHANGE | MMAP_WRITE | SNAPSHOT_INFO | NEXT_PAGE.

Definition nova_get_log_entry_size (type : nova_entry_type) : Z :=
  match type with
  | FILE_WRITE => 64
  | DIR_LOG => 48
  | SET_ATTR => 56
  | LINK_CHANGE => 40
  | MMAP_WRITE => 40
  | SNAPSHOT_INFO => 40
  | NEXT_PAGE => 0
  end.

Section Journal.
Context `{Crc} `{NocacheCopy}.
Variable cfg : nova_cfg.

Definition nova_get_journal_pointers (cpu : Z) : PM Z :=
  if cpu >=? cpus cfg then bug
  else p ← deref (nova_get_block (NOVA_DEF_BLOCK_SIZE_4K * JOURNAL_START));
       mret (p + cpu * CACHELINE_SIZE).

(** [nova_crc32c(~0, entry, sizeof(entry) - sizeof(__le32))]: 28 bytes. *)
Definition entry_crc (entry : Z) : PM Z :=
  gets (λ s, nova_crc32c (2 ^ 32 - 1)
               (read_bytes (view s) entry (Z.to_nat (sizeof_journal_entry - 4)))).

Definition nova_update_journal_entry_csum (entry : Z) : PM () :=
  crc ← entry_crc entry;
  store 4 (entry + je_csum) crc.

Definition nova_check_entry_integrity (entry : Z) : PM Z :=
  crc ← entry_crc entry;
  csum ← fetch 4 (entry + je_csum);
  mret (if csum =? crc then 0 else 1).

Definition next_lite_journal (curr_p : Z) : Z :=
  if Z.land curr_p (PAGE_SIZE - 1) + sizeof_journal_entry >=? PAGE_SIZE
  then Z.land curr_p PAGE_MASK
  else u64 (curr_p + sizeof_journal_entry).

(** [while (temp != pair->journal_tail)]; [tail] is re-read each round. *)
Fixpoint check_loop (fuel : nat) (jp temp : Z) : PM Z :=
  tail ← fetch 8 (jp + journal_tail);
  if temp =? tail then mret 0 else
  match fuel with
  | O => out_of_fuel
  | S fuel =>
      entry ← deref (nova_get_block temp);
      ret ← nova_check_entry_integrity entry;
      if ret =? 0 then check_loop fuel jp (next_lite_journal temp) else mret ret
  end.

Definition nova_check_journal_entries (fuel : nat) (jp : Z) : PM Z :=
  temp ← fetch 8 (jp + journal_head);
  check_loop fuel jp temp.

(** *** Recovery *)

Definition nova_undo_journal_inode (entry : Z) : PM () :=
  if negb (metadata_csum cfg) then mret () else
  pi_addr ← fetch 8 (entry + je_data1);
  alter_pi_addr ← fetch 8 (entry + je_data2);
  pi ← deref (nova_get_block pi_addr);
  alter_pi ← deref (nova_get_block alter_pi_addr);
  memcpy_to_pmem_nocache cfg pi alter_pi sizeof_nova_inode.

Definition nova_undo_journal_entry (entry : Z) : PM () :=
  addr ← fetch 8 (entry + je_data1);
  value ← fetch 8 (entry + je_data2);
  p ← deref (nova_get_block addr);
  store 8 p value;;
  nova_flush_buffer cfg p CACHELINE_SIZE false.

Definition nova_undo_lite_journal_entry (entry : Z) : PM () :=
  type ← fetch 8 (entry + je_type);
  if type =? JOURNAL_INODE then nova_undo_journal_inode entry
  else if type =? JOURNAL_ENTRY then nova_undo_journal_entry entry
  else mret ().

Fixpoint recover_loop (fuel : nat) (jp temp : Z) : PM () :=
  tail ← fetch 8 (jp + journal_tail);
  if temp =? tail then mret () else
  match fuel with
  | O => out_of_fuel
  | S fuel =>
      entry ← deref (nova_get_block temp);
      nova_undo_lite_journal_entry entry;;
      recover_loop fuel jp (next_lite_journal temp)
  end.

Definition nova_recover_lite_journal (fuel : nat) (jp : Z) : PM Z :=
  temp ← fetch 8 (jp + journal_head);
  recover_loop fuel jp temp;;
  head ← fetch 8 (jp + journal_head);
  store 8 (jp + journal_tail) head;;
  nova_flush_buffer cfg (jp + journal_head) CACHELINE_SIZE true;;
  mret 0.

(** *** Create and commit *)

Definition nova_append_replica_inode_journal (curr_p : Z) (inode : inode_hdr) : PM Z :=
  entry ← deref (nova_get_block curr_p);
  store 8 (entry + je_type) JOURNAL_INODE;;
  store 4 (entry + je_padding) 0;;
  store 8 (entry + je_data1) (sih_pi_addr inode);;
  store 8 (entry + je_data2) (sih_alter_pi_addr inode);;
  nova_update_journal_entry_csum entry;;
  mret (next_lite_journal curr_p).

Definition nova_append_entry_journal (curr_p field : Z) : PM Z :=
  entry ← deref (nova_get_block curr_p);
  store 8 (entry + je_type) JOURNAL_ENTRY;;
  store 4 (entry + je_padding) 0;;
  let aligned_field := Z.land field (Z.lnot 7) in
  store 8 (entry + je_data1) (nova_get_addr_off aligned_field);;
  v ← fetch 8 aligned_field;
  store 8 (entry + je_data2) v;;
  nova_update_journal_entry_csum entry;;
  mret (next_lite_journal curr_p).

Definition nova_journal_inode_tail (curr_p pi : Z) : PM Z :=
  curr_p ← nova_append_entry_journal curr_p (pi + pi_log_tail);
  if metadata_csum cfg then nova_append_entry_journal curr_p (pi + pi_alter_log_tail)
  else mret curr_p.

(** [nova_get_inode] ([inode.h]). *)
Definition nova_get_inode (inode : inode_hdr) : option Z :=
  let addr := nova_get_block (sih_pi_addr inode) in
  if mcsafe_fail cfg addr sizeof_nova_inode then None else addr.

Definition nova_append_inode_journal (curr_p : Z) (inode : inode_hdr)
    (new_inode invalidate is_dir : bool) : PM Z :=
  let pi := nova_get_inode inode in
  if metadata_csum cfg then nova_append_replica_inode_journal curr_p inode else
  match pi with
  | None => mret curr_p
  | Some pi =>
      if is_dir then nova_journal_inode_tail curr_p pi
      else if new_inode then nova_append_entry_journal curr_p (pi + pi_valid)
      else
        curr_p ← nova_journal_inode_tail curr_p pi;
        if invalidate then
          curr_p ← nova_append_entry_journal curr_p (pi + pi_valid);
          nova_append_entry_journal curr_p (pi + pi_delete_epoch_id)
        else mret curr_p
  end.

(** The build with [CONFIG_NOVA_BUG5] undefined, as in the source. *)
Definition nova_append_dentry_journal (curr_p dentry : Z) : PM Z :=
  curr_p ← nova_append_entry_journal curr_p (dentry + de_ino);
  curr_p ← nova_append_entry_journal curr_p (dentry + de_csum);
  curr_p ← nova_append_entry_journal curr_p (dentry + de_reassigned);
  nova_append_entry_journal curr_p (dentry + de_invalid).

Definition nova_flush_journal_in_batch (head tail : Z) : PM () :=
  (if head <? tail then
     journal_entry ← deref (nova_get_block head);
     nova_flush_buffer cfg journal_entry (u32 (tail - head)) false
   else
     journal_entry ← deref (nova_get_block head);
     nova_flush_buffer cfg journal_entry
       (u32 (PAGE_SIZE - Z.land head (Z.lnot PAGE_MASK))) false;;
     journal_entry ← deref (nova_get_block tail);
     nova_flush_buffer cfg (Z.land journal_entry PAGE_MASK)
       (u32 (Z.land tail (Z.lnot PAGE_MASK))) false);;
  PERSISTENT_BARRIER.

(** The guard at the start of each [nova_create_*_transaction]: the pair and
    its head, [BUG()] unless the journal is initialised and empty. *)
Definition open_journal (cpu : Z) : PM (Z * Z) :=
  jp ← nova_get_journal_pointers cpu;
  head ← fetch 8 (jp + journal_head);
  tail ← fetch 8 (jp + journal_tail);
  bug_on ((head =? 0) || negb (head =? tail));;
  mret (jp, head).

(** Their common end: make the entries durable, then publish the new tail. *)
Definition publish_journal (jp temp : Z) : PM Z :=
  head ← fetch 8 (jp + journal_head);
  nova_flush_journal_in_batch head temp;;
  store 8 (jp + journal_tail) temp;;
  nova_flush_buffer cfg (jp + journal_head) CACHELINE_SIZE true;;
  mret temp.

Definition nova_create_inode_transaction (inode dir : inode_hdr) (cpu : Z)
    (new_inode invalidate : bool) : PM Z :=
  '(jp, temp) ← open_journal cpu;
  temp ← nova_append_inode_journal temp inode new_inode invalidate false;
  temp ← nova_append_inode_journal temp dir new_inode invalidate true;
  publish_journal jp temp.

Definition opt_append {A} (x : option A) (f : Z → A → PM Z) (temp : Z) : PM Z :=
  match x with Some a => f temp a | None => mret temp end.

Definition nova_create_rename_transaction (old_inode old_dir : inode_hdr)
    (new_inode new_dir : option inode_hdr)
    (father_entry new_dentry old_dentry : option Z)
    (invalidate_new_inode : bool) (cpu : Z) : PM Z :=
  '(jp, temp) ← open_journal cpu;
  temp ← nova_append_inode_journal temp old_inode false false false;
  temp ← nova_append_inode_journal temp old_dir false false true;
  temp ← opt_append new_inode
           (λ t i, nova_append_inode_journal t i false invalidate_new_inode false) temp;
  temp ← opt_append new_dir (λ t i, nova_append_inode_journal t i false false true) temp;
  temp ← opt_append father_entry nova_append_dentry_journal temp;
  temp ← opt_append new_dentry nova_append_dentry_journal temp;
  temp ← opt_append old_dentry nova_append_dentry_journal temp;
  publish_journal jp temp.

Fixpoint logentry_loop (count : nat) (i : Z) (entry temp : Z) : PM Z :=
  match count with
  | O => mret temp
  | S count =>
      temp ← nova_append_entry_journal temp (entry + i * 8);
      logentry_loop count (i + 1) entry temp
  end.

Definition nova_create_logentry_transaction (entry : Z) (type : nova_entry_type)
    (cpu : Z) : PM Z :=
  '(jp, temp) ← open_journal cpu;
  let size := nova_get_log_entry_size type in
  temp ← logentry_loop (Z.to_nat (size / 8)) 0 entry temp;
  publish_journal jp temp.

Definition nova_commit_lite_transaction (tail cpu : Z) : PM () :=
  jp ← nova_get_journal_pointers cpu;
  t ← fetch 8 (jp + journal_tail);
  bug_on (negb (t =? tail));;
  store 8 (jp + journal_head) tail;;
  nova_flush_buffer cfg (jp + journal_head) CACHELINE_SIZE true.

(** *** Initialisation *)

Fixpoint soft_init_loop (fuel n : nat) (i ret : Z) : PM Z :=
  match n with
  | O => mret ret
  | S n =>
      jp ← nova_get_journal_pointers i;
      head ← fetch 8 (jp + journal_head);
      tail ← fetch 8 (jp + journal_tail);
      if head =? tail then soft_init_loop fuel n (i + 1) ret else
      ret ← nova_check_journal_entries fuel jp;
      if negb (ret =? 0) then mret (- EINVAL) else
      ret ← nova_recover_lite_journal fuel jp;
      soft_init_loop fuel n (i + 1) ret
  end.

(** [kcalloc_ok]: the lock array could be allocated. *)
Definition nova_lite_journal_soft_init (fuel : nat) (kcalloc_ok : bool) : PM Z :=
  if negb kcalloc_ok then mret (- ENOMEM)
  else soft_init_loop fuel (Z.to_nat (cpus cfg)) 0 0.

(** [new_log_block] is [nova_new_log_blocks(sb, &sih, &blocknr, 1, ...)]: the
    number of blocks allocated and the first block. *)
Fixpoint hard_init_loop (new_log_block : PM (Z * Z)) (n : nat) (i : Z) : PM Z :=
  match n with
  | O => mret 0
  | S n =>
      jp ← nova_get_journal_pointers i;
      '(allocated, blocknr) ← new_log_block;
      if negb (allocated =? 1) || (blocknr =? 0) then mret (- ENOSPC) else
      let block := nova_get_block_off blocknr in
      store 8 (jp + journal_tail) block;;
      store 8 (jp + journal_head) block;;
      nova_flush_buffer cfg jp CACHELINE_SIZE false;;
      hard_init_loop new_log_block n (i + 1)
  end.

Definition nova_lite_journal_hard_init (fuel : nat) (kcalloc_ok : bool)
    (new_log_block : PM (Z * Z)) : PM Z :=
  ret ← hard_init_loop new_log_block (Z.to_nat (cpus cfg)) 0;
  if negb (ret =? 0) then mret ret else
  PERSISTENT_BARRIER;;
  nova_lite_journal_soft_init fuel kcalloc_ok.

(** *** The abstract view: the fields a transaction logs *)

Fixpoint append_fields (fields : list Z) (curr_p : Z) : PM Z :=
  match fields with
  | [] => mret curr_p
  | f :: fields =>
      curr_p ← nova_append_entry_journal curr_p f;
      append_fields fields curr_p
  end.

Definition transaction (fields : list Z) (cpu : Z) : PM Z :=
  '(jp, temp) ← open_journal cpu;
  temp ← append_fields fields temp;
  publish_journal jp temp.

Definition inode_fields (inode : inode_hdr) (new_inode invalidate is_dir : bool) : list Z :=
  match nova_get_inode inode with
  | None => []
  | Some pi =>
      if is_dir then [pi + pi_log_tail]
      else if new_inode then [pi + pi_valid]
      else (pi + pi_log_tail) ::
           (if invalidate then [pi + pi_valid; pi + pi_delete_epoch_id] else [])
  end.

Definition dentry_fields (dentry : Z) : list Z :=
  [dentry + de_ino; dentry + de_csum; dentry + de_reassigned; dentry + de_invalid].

Definition opt_fields {A} (x : option A) (f : A → list Z) : list Z :=
  match x with Some a => f a | None => [] end.
End Journal.

(** ** The ring *)

(** Slot [k] of the journal page at [jb]. *)
Definition slot (jb k : Z) : Z := jb + 32 * k.
Definition next_slot (k : Z) : Z := (k + 1) mod 128.
Definition page_ok (jb : Z) : Prop := 0 < jb ∧ jb mod 4096 = 0 ∧ jb + 4096 < 2 ^ 64.
Definition align8 (a : Z) : Z := a - a mod 8.

(** Slot [p] holds an undo record of word [f] with value [v], checksum included. *)
Record entry_at `{Crc} (m : mem) (p f v : Z) : Prop := {
  ea_type : load 8 m p = JOURNAL_ENTRY;
  ea_data1 : load 8 m (p + je_data1) = f;
  ea_data2 : load 8 m (p + je_data2) = v;
  ea_csum : load 4 m (p + je_csum) = nova_crc32c (2 ^ 32 - 1) (read_bytes m p 28)
}.

Lemma align8_eq a : Z.land a (Z.lnot 7) = align8 a.
Proof. change 7 with (2 ^ 3 - 1). rewrite land_lnot_mask by lia. done. Qed.

Lemma align8_mult a : align8 a mod 8 = 0.
Proof.
  unfold align8. pose proof (Z.div_mod a 8 ltac:(lia)).
  replace (a - a mod 8) with ((a / 8) * 8) by lia. by apply Z.mod_mul.
Qed.

Lemma next_lite_journal_slot jb k :
  page_ok jb → 0 <= k < 128 → next_lite_journal (slot jb k) = slot jb (next_slot k).
Proof.
  intros (H1 & H2 & H3) Hk. unfold next_lite_journal, PAGE_MASK, PAGE_SIZE.
  change (4096 - 1) with (2 ^ 12 - 1).
  rewrite land_mask_mod, land_lnot_mask by lia. change (2 ^ 12) with 4096.
  unfold slot, next_slot, sizeof_journal_entry.
  assert (Hmod : (jb + 32 * k) mod 4096 = 32 * k).
  { rewrite Z.add_mod, H2, Z.add_0_l, Z.mod_mod by lia. apply Z.mod_small. lia. }
  rewrite Hmod. destruct (Z.geb_spec (32 * k + 32) 4096).
  - replace k with 127 by lia. change ((127 + 1) mod 128) with 0. lia.
  - rewrite (Z.mod_small (k + 1)), wrap_small by lia. lia.
Qed.

Lemma slot_in_page jb k x : 0 <= k < 128 → in_range (slot jb k) 32 x → in_range jb 4096 x.
Proof. unfold slot, in_range. lia. Qed.

Lemma next_slot_range k : 0 <= next_slot k < 128.
Proof. apply Z.mod_pos_bound. lia. Qed.

Lemma entry_at_ext `{Crc} m1 m2 p f v :
  agree (in_range p 32) m1 m2 → entry_at m1 p f v → entry_at m2 p f v.
Proof.
  intros Ha [H1 H2 H3 H4].
  assert (He : ∀ n a, 0 <= a → a + Z.of_nat n <= 32 → load n m1 (p + a) = load n m2 (p + a)).
  { intros n a Ha1 Ha2. apply load_ext. eapply agree_mono; [exact Ha|].
    unfold in_range. lia. }
  split.
  - rewrite <- (Z.add_0_r p), <- He, Z.add_0_r by lia. done.
  - rewrite <- He by (unfold je_data1; lia). done.
  - rewrite <- He by (unfold je_data2; lia). done.
  - rewrite <- He by (unfold je_csum; lia). rewrite H4. f_equal.
    apply read_bytes_ext. eapply agree_mono; [exact Ha|]. unfold in_range. lia.
Qed.

Section Facts.
Context `{Crc} `{NocacheCopy}.
Variable cfg : nova_cfg.

(** The stores one undo record issues. *)
Definition record_body (p f v : Z) : list event :=
  [EStore false (p + je_type) (bytes_of 8 JOURNAL_ENTRY);
   EStore false (p + je_padding) (bytes_of 4 0);
   EStore false (p + je_data1) (bytes_of 8 f);
   EStore false (p + je_data2) (bytes_of 8 v)].
Definition record_events (m : mem) (p f v : Z) : list event :=
  record_body p f v ++
  [EStore false (p + je_csum)
     (bytes_of 4 (nova_crc32c (2 ^ 32 - 1) (read_bytes (apply_events m (record_body p f v)) p 28)))].

Lemma nova_append_entry_journal_eq p field s :
  p ≠ 0 → disjoint_ranges p 32 (align8 field) 8 →
  nova_append_entry_journal p field s =
  Ok (next_lite_journal p,
      log_state s (record_events (view s) p (align8 field) (load 8 (view s) (align8 field)))).
Proof.
  intros Hp Hd. unfold nova_append_entry_journal.
  erewrite bind_Ok; [|by rewrite nova_get_block_Some].
  erewrite bind_Ok; [|apply store_eq]. erewrite bind_Ok; [|apply store_eq].
  erewrite bind_Ok; [|apply store_eq]. erewrite bind_Ok; [|apply fetch_eq].
  erewrite bind_Ok; [|apply store_eq]. rewrite align8_eq. unfold nova_get_addr_off.
  unfold disjoint_ranges, je_type, je_padding, je_data1, je_data2 in *.
  cbn [log_state view]. run_events.
  rewrite !load_write_disjoint by
    (unfold disjoint_ranges; rewrite !length_bytes_of; lia).
  rewrite !log_state_app. unfold nova_update_journal_entry_csum.
  erewrite bind_Ok; [|erewrite bind_Ok; [apply store_eq|done]].
  rewrite log_state_app. done.
Qed.

Lemma record_stores m p f v : stores_in (in_range p 32) (record_events m p f v).
Proof.
  unfold record_events, record_body, je_type, je_padding, je_data1, je_data2, je_csum.
  simpl. solve_stores.
Qed.

Lemma in_line_aligned a n v :
  a mod 8 = 0 → (n <= 8)%nat → in_line a (bytes_of n v).
Proof.
  intros Ha Hn x. rewrite length_bytes_of. unfold in_range, line. intros Hx.
  pose proof (Z.div_mod a 8 ltac:(lia)).
  replace (x / 64) with ((x / 8) / 8) by (rewrite Z.div_div by lia; done).
  replace (a / 64) with ((a / 8) / 8) by (rewrite Z.div_div by lia; done).
  f_equal. symmetry. apply (Z.div_unique x 8 (a / 8) (x - a)); lia.
Qed.

Lemma record_in_line m p f v :
  p mod 32 = 0 → Forall ev_ok (record_events m p f v).
Proof.
  intros Hp. assert (Hl : ∀ o, 0 <= o < 32 → ∀ bs, o + Z.of_nat (length bs) <= 32 →
    in_line (p + o) bs).
  { intros o Ho bs Hbs x. unfold in_range, line. intros Hx.
    pose proof (Z.div_mod p 32 ltac:(lia)).
    replace (x / 64) with ((x / 32) / 2) by (rewrite Z.div_div by lia; done).
    replace ((p + o) / 64) with (((p + o) / 32) / 2) by (rewrite Z.div_div by lia; done).
    f_equal. transitivity (p / 32).
    - symmetry. apply (Z.div_unique x 32 (p / 32) (x - p)); lia.
    - apply (Z.div_unique _ 32 (p / 32) o); lia. }
  unfold record_events, record_body. simpl.
  repeat constructor; try done; apply Hl; rewrite ?length_bytes_of;
    unfold je_type, je_padding, je_data1, je_data2, je_csum; lia.
Qed.

(** After the stores, the slot holds the record. *)
Lemma record_entry_at m p f v :
  0 <= f < 2 ^ 64 → 0 <= v < 2 ^ 64 → entry_at (apply_events m (record_events m p f v)) p f v.
Proof.
  intros Hf Hv. unfold record_events. rewrite apply_events_app.
  set (m1 := apply_events m (record_body p f v)).
  set (c := nova_crc32c _ _).
  run_events.
  assert (Hc : ∀ n a, p + a + Z.of_nat n <= p + je_csum → 
            load n (write_bytes m1 (p + je_csum) (bytes_of 4 c)) (p + a) = load n m1 (p + a)).
  { intros n a Ha. apply load_write_disjoint. unfold disjoint_ranges. lia. }
  unfold je_csum in *. split.
  - specialize (Hc 8%nat 0 ltac:(lia)). rewrite Z.add_0_r in Hc. rewrite Hc.
    unfold m1. unfold record_body. run_events.
    unfold je_type, je_padding, je_data1, je_data2. rewrite Z.add_0_r.
    rewrite !load_write_disjoint by (unfold disjoint_ranges; rewrite length_bytes_of; lia).
    by rewrite load_write_same.
  - rewrite Hc by (unfold je_data1; lia). unfold m1.
    unfold record_body. run_events. unfold je_data1, je_data2.
    rewrite load_write_disjoint by (unfold disjoint_ranges; rewrite length_bytes_of; lia).
    rewrite load_write_same. by apply Z.mod_small.
  - rewrite Hc by (unfold je_data2; lia). unfold m1.
    unfold record_body. run_events.
    rewrite load_write_same. by apply Z.mod_small.
  - rewrite load_write_same, Z.mod_small by (apply nova_crc32c_range).
    unfold c. f_equal. apply read_bytes_ext. intros x Hx. symmetry. apply write_bytes_out.
    unfold in_range in *. rewrite length_bytes_of. lia.
Qed.

(** *** [append_fields]: the records land in consecutive slots *)

(** A field whose aligned word exists and stays clear of [P]. *)
Definition field_ok (P : Z → Prop) (f : Z) : Prop :=
  8 <= f < 2 ^ 64 ∧ ∀ x, in_range (align8 f) 8 x → ¬ P x.
Definition in_slots (jb k : Z) (n : nat) (x : Z) : Prop :=
  ∃ i, (i < n)%nat ∧ in_range (slot jb ((k + Z.of_nat i) mod 128)) 32 x.

Lemma align8_range f : 8 <= f < 2 ^ 64 → 8 <= align8 f < 2 ^ 64.
Proof. unfold align8. pose proof (Z.mod_pos_bound f 8 ltac:(lia)).
  pose proof (Z.div_mod f 8 ltac:(lia)). lia. Qed.

Lemma in_slots_page jb k n x : in_slots jb k n x → in_range jb 4096 x.
Proof.
  intros (i & Hi & Hx). eapply slot_in_page; [|exact Hx]. apply Z.mod_pos_bound. lia.
Qed.

Lemma slot_disjoint jb i j x :
  0 <= i → 0 <= j → in_range (slot jb i) 32 x → in_range (slot jb j) 32 x → i = j.
Proof. unfold in_range, slot. lia. Qed.

Lemma next_slot_add k i : 0 <= k < 128 → (next_slot k + i) mod 128 = (k + (i + 1)) mod 128.
Proof.
  intros. unfold next_slot. rewrite Z.add_mod_idemp_l by lia. f_equal. lia.
Qed.

Lemma slot_mod32 jb k : page_ok jb → slot jb k mod 32 = 0.
Proof.
  intros (_ & H1 & _). unfold slot. rewrite (Z.mul_comm 32), Z.mod_add by lia.
  apply Z.mod_divide in H1 as [q ->]; [|lia].
  replace (q * 4096) with ((q * 128) * 32) by lia. by apply Z.mod_mul.
Qed.

Lemma disjoint_of_ranges a n b k :
  0 < n → 0 < k → (∀ x, in_range a n x → ¬ in_range b k x) → disjoint_ranges b k a n.
Proof.
  intros Hn Hk Hd. unfold in_range, disjoint_ranges in *.
  destruct (decide (b + k <= a)); [by left|].
  destruct (decide (a + n <= b)); [by right|]. exfalso.
  apply (Hd (Z.max a b)); lia.
Qed.

Lemma append_fields_spec jb fs k s :
  page_ok jb → 0 <= k < 128 → (length fs <= 128)%nat →
  Forall (field_ok (in_range jb 4096)) fs →
  ∃ es,
    append_fields fs (slot jb k) s =
      Ok (slot jb ((k + Z.of_nat (length fs)) mod 128), log_state s es) ∧
    stores_in (in_slots jb k (length fs)) es ∧ Forall ev_ok es ∧
    ∀ i f, fs !! i = Some f →
      entry_at (apply_events (view s) es) (slot jb ((k + Z.of_nat i) mod 128))
        (align8 f) (load 8 (view s) (align8 f)).
Proof.
  intros Hjb. revert k s. induction fs as [|f fs IH]; intros k s Hk Hn Hfs.
  { exists []. simpl. rewrite log_state_nil, Z.add_0_r, Z.mod_small by lia.
    split_and!; auto using stores_in_nil. done. }
  apply Forall_cons in Hfs as [[Hf Hd] Hfs]. simpl in Hn.
  set (p := slot jb k). set (v := load 8 (view s) (align8 f)).
  assert (Hp : p ≠ 0) by (unfold p, slot; destruct Hjb; lia).
  assert (Hdp : disjoint_ranges p 32 (align8 f) 8).
  { apply disjoint_of_ranges; [lia..|]. intros x Hx Hx'. apply (Hd x Hx).
    by eapply slot_in_page. }
  simpl. erewrite bind_Ok; [|by apply nova_append_entry_journal_eq].
  unfold p at 1. rewrite next_lite_journal_slot by done.
  set (re := record_events (view s) p (align8 f) v).
  destruct (IH (next_slot k) (log_state s re)) as (es & He & Hst & Hok & Hent);
    [apply next_slot_range|lia|done|].
  fold v. fold re. rewrite He. clear IH He.
  assert (Hre : stores_in (in_range p 32) re) by apply record_stores.
  assert (Hnx : ∀ i : nat, (next_slot k + Z.of_nat i) mod 128 = (k + Z.of_nat (S i)) mod 128)
    by (intros; rewrite next_slot_add by lia; do 2 f_equal; lia).
  exists (re ++ es). rewrite log_state_app, Hnx. split_and!; [done|..].
  - apply stores_in_app. split.
    + eapply stores_in_mono; [exact Hre|]. intros x Hx. exists O. split; [lia|].
      by rewrite Z.add_0_r, Z.mod_small by lia.
    + eapply stores_in_mono; [exact Hst|]. intros x (i & Hi & Hx). exists (S i).
      split; [lia|]. by rewrite <- Hnx.
  - apply Forall_app. split; [|done]. by apply record_in_line, slot_mod32.
  - intros [|i] f' Hi; simpl in Hi.
    + injection Hi as <-. rewrite Z.add_0_r, Z.mod_small by lia. fold p v.
      rewrite apply_events_app. eapply entry_at_ext;
        [|apply (record_entry_at (view s) p);
          [pose proof (align8_range f Hf); lia|apply load_bound]].
      intros x Hx. symmetry. eapply apply_events_frame; [exact Hst|].
      intros (i & Hi & Hx'). 
      assert (Heq : (next_slot k + Z.of_nat i) mod 128 = k).
      { eapply slot_disjoint; [apply Z.mod_pos_bound; lia|lia|exact Hx'|exact Hx]. }
      rewrite Hnx in Heq. revert Heq.
      destruct (decide (k + Z.of_nat (S i) < 128)).
      { rewrite Z.mod_small by lia. lia. }
      rewrite <- (Z.mod_unique (k + Z.of_nat (S i)) 128 1 (k + Z.of_nat (S i) - 128)) by lia.
      lia.
    + rewrite <- Hnx, apply_events_app.
      replace (load 8 (view s) (align8 f')) with (load 8 (view (log_state s re)) (align8 f')).
      { by apply Hent. }
      simpl. apply load_ext. intros x Hx. eapply apply_events_frame; [exact Hre|].
      intros Hx'. rewrite Forall_forall in Hfs.
      destruct (Hfs f') as [_ Hd']; [by eapply list_elem_of_lookup_2|].
      apply (Hd' x Hx). by eapply slot_in_page.
Qed.

(** *** Without metadata checksums, every transaction logs a list of words *)

Lemma append_fields_app fs1 fs2 p s :
  append_fields (fs1 ++ fs2) p s = (append_fields fs1 p ≫= append_fields fs2) s.
Proof.
  revert p s. induction fs1 as [|f fs1 IH]; intros p s; [done|]. simpl.
  rewrite bind_assoc. apply bind_ext. intros. apply IH.
Qed.

Lemma append_fields_one f p s : append_fields [f] p s = nova_append_entry_journal p f s.
Proof. apply bind_mret. Qed.

Lemma nova_append_inode_journal_fields p inode a b c s :
  metadata_csum cfg = false →
  nova_append_inode_journal cfg p inode a b c s = append_fields (inode_fields cfg inode a b c) p s.
Proof.
  intros Hm. unfold nova_append_inode_journal, inode_fields, nova_journal_inode_tail.
  rewrite Hm. destruct (nova_get_inode cfg inode) as [pi|]; [|done].
  destruct c; [by rewrite bind_mret, append_fields_one|].
  destruct a; [by rewrite append_fields_one|]. simpl.
  rewrite bind_assoc. apply bind_ext. intros p1 s1. simpl.
  destruct b; [|done]. unfold mbind at 1, M_bind at 1. simpl.
  apply bind_ext. intros. by rewrite bind_mret.
Qed.

Lemma nova_append_dentry_journal_fields p dentry s :
  nova_append_dentry_journal p dentry s = append_fields (dentry_fields dentry) p s.
Proof.
  unfold nova_append_dentry_journal. simpl. do 3 (apply bind_ext; intros).
  by rewrite bind_mret.
Qed.

Lemma opt_append_fields {A} (x : option A) (f : Z → A → PM Z) (g : A → list Z) p s :
  (∀ p a s, f p a s = append_fields (g a) p s) →
  opt_append x f p s = append_fields (opt_fields x g) p s.
Proof. intros Hf. by destruct x; simpl. Qed.

Lemma logentry_loop_fields n i entry p s :
  logentry_loop n i entry p s =
  append_fields ((λ k : nat, entry + (i + Z.of_nat k) * 8) <$> seq 0 n) p s.
Proof.
  revert i p s. induction n as [|n IH]; intros i p s; [done|]. simpl.
  rewrite Z.add_0_r. apply bind_ext. intros p1 s1. rewrite IH. f_equal.
  rewrite <- fmap_S_seq, <- list_fmap_compose. apply list_fmap_ext. intros. simpl. lia.
Qed.

Definition rename_fields (old_inode old_dir : inode_hdr) (new_inode new_dir : option inode_hdr)
    (father_entry new_dentry old_dentry : option Z) (invalidate_new_inode : bool) : list Z :=
  inode_fields cfg old_inode false false false ++ inode_fields cfg old_dir false false true ++
  opt_fields new_inode (λ i, inode_fields cfg i false invalidate_new_inode false) ++
  opt_fields new_dir (λ i, inode_fields cfg i false false true) ++
  opt_fields father_entry dentry_fields ++ opt_fields new_dentry dentry_fields ++
  opt_fields old_dentry dentry_fields.

Definition logentry_fields (entry : Z) (type : nova_entry_type) : list Z :=
  (λ k : nat, entry + Z.of_nat k * 8) <$> seq 0 (Z.to_nat (nova_get_log_entry_size type / 8)).

Lemma bind_app {B} fs1 fs2 p (f : Z → PM B) s :
  (append_fields (fs1 ++ fs2) p ≫= f) s =
  (append_fields fs1 p ≫= λ p1, append_fields fs2 p1 ≫= f) s.
Proof.
  rewrite <- bind_assoc. unfold mbind at 1 3, M_bind at 1 3. by rewrite append_fields_app.
Qed.

Lemma bind_congr {A B} (m1 m2 : PM A) (f g : A → PM B) s :
  m1 s = m2 s → (∀ a s', f a s' = g a s') → (m1 ≫= f) s = (m2 ≫= g) s.
Proof.
  intros Hm Hf. unfold mbind, M_bind. rewrite Hm. destruct (m2 s) as [[]| |]; auto.
Qed.

Lemma create_inode_is_transaction inode dir cpu a b s :
  metadata_csum cfg = false →
  nova_create_inode_transaction cfg inode dir cpu a b s =
  transaction cfg (inode_fields cfg inode a b false ++ inode_fields cfg dir a b true) cpu s.
Proof.
  intros Hm. unfold nova_create_inode_transaction, transaction.
  apply bind_ext. intros [jp temp] s1. rewrite bind_app.
  by repeat (apply bind_congr; [by apply nova_append_inode_journal_fields|intros]).
Qed.

Lemma create_rename_is_transaction oi od ni nd fe ne oe inv cpu s :
  metadata_csum cfg = false →
  nova_create_rename_transaction cfg oi od ni nd fe ne oe inv cpu s =
  transaction cfg (rename_fields oi od ni nd fe ne oe inv) cpu s.
Proof.
  intros Hm. unfold nova_create_rename_transaction, transaction, rename_fields.
  apply bind_ext. intros [jp temp] s1.
  assert (Hi : ∀ b c p i s,
    nova_append_inode_journal cfg p i false b c s =
    append_fields (inode_fields cfg i false b c) p s)
    by (intros; by apply nova_append_inode_journal_fields).
  pose proof nova_append_dentry_journal_fields as Hd.
  do 6 (rewrite bind_app; apply bind_congr;
        [first [apply Hi | apply opt_append_fields; auto]|intros]).
  apply bind_congr; [by apply opt_append_fields|done].
Qed.

Lemma create_logentry_is_transaction entry type cpu s :
  nova_create_logentry_transaction cfg entry type cpu s =
  transaction cfg (logentry_fields entry type) cpu s.
Proof.
  unfold nova_create_logentry_transaction, transaction, logentry_fields.
  apply bind_ext. intros [jp temp] s1. apply bind_congr; [|done].
  rewrite logentry_loop_fields. done.
Qed.
End Facts.
