(* ===== verification/NovaJournalCrash.v ===== *)
(** * NOVA: the lite journal is crash atomic

    A transaction logs words, publishes the log, lets its client update the
    logged words in place and commits.  Whatever prefix of that run a power
    failure cuts, and whichever stores in flight it keeps, mounting
    ([nova_lite_journal_soft_init]) leaves the file system as before the
    transaction or as after the update. *)

From stdpp Require Import base list gmap.
From Stdlib Require Import ZArith Lia.
From coqutil Require Import Byte Word.LittleEndianList.
From S2P Require Import Prelude PMem NovaBase NovaJournal.

Local Open Scope Z_scope.

(** The journal pointer table and the [k]-th pair. *)
Definition table : Z := 4096 * 48.
Definition pair_of (cpu : Z) : Z := table + cpu * 64.

(** The addresses of the journal of [cpu] with its page at [jb]. *)
Definition journal_area (cfg : nova_cfg) (jb x : Z) : Prop :=
  in_range table (64 * cpus cfg) x ∨ in_range jb 4096 x.
(** The logged words. *)
Definition in_words (fields : list Z) (x : Z) : Prop :=
  ∃ f, f ∈ fields ∧ in_range (align8 f) 8 x.

#[export] Instance in_words_dec fields x : Decision (in_words fields x).
Proof.
  refine (cast_if (decide (Exists (λ f, in_range (align8 f) 8 x) fields)));
    [apply Exists_exists in e as (f & ? & ?); by exists f |
     intros (f & ? & ?); apply n, Exists_exists; eauto].
Defined.

Section Spec.
Context `{Crc} `{NocacheCopy}.
Variable cfg : nova_cfg.

Definition batch_events (head tail : Z) : list event :=
  if head <? tail then flush_events (support_clwb cfg) head (tail - head)
  else flush_events (support_clwb cfg) head (4096 - head mod 4096) ++
       flush_events (support_clwb cfg) (tail - tail mod 4096) (tail mod 4096).

Definition publish_events (jp head tail : Z) : list event :=
  batch_events head tail ++ [EFence] ++
  EStore false (jp + journal_tail) (bytes_of 8 tail) ::
  flush_events (support_clwb cfg) jp 64 ++ [EFence].

Lemma nova_get_journal_pointers_eq cpu s :
  0 <= cpu < cpus cfg → nova_get_journal_pointers cfg cpu s = Ok (pair_of cpu, s).
Proof.
  intros Hc. unfold nova_get_journal_pointers.
  destruct (Z.geb_spec cpu (cpus cfg)); [lia|done].
Qed.

Lemma slot_bounds jb k :
  page_ok jb → 0 <= k < 128 →
  0 < slot jb k < 2 ^ 64 ∧ slot jb k mod 4096 = 32 * k ∧ jb <= slot jb k.
Proof.
  intros (H1 & H2 & H3) Hk. unfold slot.
  rewrite Z.add_mod, H2, Z.add_0_l, Z.mod_mod, Z.mod_small by lia. lia.
Qed.

Lemma nova_flush_journal_in_batch_eq jb k1 k2 s :
  page_ok jb → 0 <= k1 < 128 → 0 <= k2 < 128 →
  nova_flush_journal_in_batch cfg (slot jb k1) (slot jb k2) s =
  Ok ((), log_state s (batch_events (slot jb k1) (slot jb k2) ++ [EFence])).
Proof.
  intros Hjb Hk1 Hk2. unfold nova_flush_journal_in_batch, batch_events.
  destruct (slot_bounds jb k1) as ((? & ?) & Hm1 & ?); [done..|].
  destruct (slot_bounds jb k2) as ((? & ?) & Hm2 & ?); [done..|].
  unfold PAGE_MASK, PAGE_SIZE. rewrite Z.lnot_involutive.
  change (4096 - 1) with (2 ^ 12 - 1). rewrite !land_mask_mod by lia.
  change (2 ^ 12) with 4096. rewrite Hm1, Hm2.
  destruct (Z.ltb_spec (slot jb k1) (slot jb k2)) as [Hlt|Hge].
  - assert (0 <= slot jb k2 - slot jb k1 <= 4096) by (unfold slot in *; lia).
    rewrite bind_assoc.
    erewrite bind_Ok; [|by rewrite nova_get_block_Some by lia].
    rewrite wrap_small by lia.
    erewrite bind_Ok; [|apply nova_flush_buffer_eq; lia].
    unfold PERSISTENT_BARRIER. by rewrite emit_eq, log_state_app, app_nil_r.
  - rewrite !wrap_small by lia. rewrite bind_assoc.
    erewrite bind_Ok; [|by rewrite nova_get_block_Some by lia]. rewrite bind_assoc.
    erewrite bind_Ok; [|apply nova_flush_buffer_eq; lia]. rewrite bind_assoc.
    erewrite bind_Ok; [|by rewrite nova_get_block_Some by lia].
    change (4096 - 1) with (2 ^ 12 - 1). rewrite land_lnot_mask by lia. change (2 ^ 12) with 4096.
    rewrite Hm2.
    erewrite bind_Ok; [|apply nova_flush_buffer_eq; lia].
    unfold PERSISTENT_BARRIER. cbn [fence_events].
    by rewrite emit_eq, !app_nil_r, !log_state_app, <- app_assoc.
Qed.

(** The batch flush reaches every record of the transaction. *)
Lemma batch_covers jb k n x :
  page_ok jb → 0 <= k < 128 → (n < 128)%nat → in_slots jb k n x →
  ∃ a, EFlush (support_clwb cfg) a ∈
         batch_events (slot jb k) (slot jb ((k + Z.of_nat n) mod 128)) ∧ line a = line x.
Proof.
  intros Hjb Hk Hn (i & Hi & Hx).
  destruct (slot_bounds jb k) as (_ & Hm1 & _); [done..|].
  destruct (slot_bounds jb ((k + Z.of_nat n) mod 128)) as (_ & Hm2 & _);
    [done|apply Z.mod_pos_bound; lia|].
  unfold batch_events. rewrite Hm1, Hm2. unfold in_range in Hx.
  assert (Hmod : ∀ j : nat, (j < 128)%nat →
    (k + Z.of_nat j) mod 128 = k + Z.of_nat j ∧ k + Z.of_nat j < 128 ∨
    (k + Z.of_nat j) mod 128 = k + Z.of_nat j - 128 ∧ 128 <= k + Z.of_nat j).
  { intros j Hj. destruct (decide (k + Z.of_nat j < 128)).
    - left. by rewrite Z.mod_small by lia.
    - right. split; [|lia]. symmetry. apply Z.mod_unique with 1; lia. }
  unfold slot in *.
  destruct (Z.ltb_spec (jb + 32 * k) (jb + 32 * ((k + Z.of_nat n) mod 128)));
    destruct (Hmod i ltac:(lia)) as [[Ei ?]|[Ei ?]];
    destruct (Hmod n ltac:(lia)) as [[En ?]|[En ?]]; try lia;
    rewrite Ei in Hx; rewrite En in *.
  - apply flush_events_cover; [lia|]. unfold in_range. lia.
  - destruct (flush_events_cover (support_clwb cfg) (jb + 32 * k) (4096 - 32 * k) x)
      as (a & Ha & ?); [lia|unfold in_range; lia|].
    exists a. split; [|done]. apply elem_of_app. by left.
  - destruct (flush_events_cover (support_clwb cfg)
      (jb + 32 * (k + Z.of_nat n - 128) - 32 * (k + Z.of_nat n - 128))
      (32 * (k + Z.of_nat n - 128)) x)
      as (a & Ha & ?); [lia|unfold in_range; lia|].
    exists a. split; [|done]. apply elem_of_app. by right.
Qed.

Lemma batch_events_flushes head tail :
  Forall is_flush (batch_events head tail).
Proof.
  unfold batch_events. case_match; [apply flush_events_flushes|].
  apply Forall_app. split; apply flush_events_flushes.
Qed.

(** *** Functional specifications *)

(** The journal of [cpu] has its page at [jb], apart from the pointer table. *)
Record journal_at (cpu jb : Z) : Prop := {
  ja_cpu : 0 <= cpu < cpus cfg;
  ja_cpus : cpus cfg <= 1024;
  ja_page : page_ok jb;
  ja_apart : ∀ x, in_range table (64 * cpus cfg) x → ¬ in_range jb 4096 x
}.
(** Memory [m] has head [h] and tail [t] in the pair of [cpu]. *)
Definition pair_is (m : mem) (cpu h t : Z) : Prop :=
  load 8 m (pair_of cpu + journal_head) = h ∧ load 8 m (pair_of cpu + journal_tail) = t.

Lemma pair_in_table cpu o x :
  0 <= cpu < cpus cfg → 0 <= o <= 8 →
  in_range (pair_of cpu + o) 8 x → in_range table (64 * cpus cfg) x.
Proof. unfold in_range, pair_of. lia. Qed.

Lemma pair_is_ext m1 m2 cpu h t :
  0 <= cpu < cpus cfg → agree (in_range table (64 * cpus cfg)) m1 m2 →
  pair_is m1 cpu h t → pair_is m2 cpu h t.
Proof.
  intros Hc Ha [H1 H2]. split; [rewrite <- H1|rewrite <- H2]; symmetry; apply load_ext;
    (eapply agree_mono; [exact Ha|]); intros x; apply pair_in_table;
    unfold journal_head, journal_tail; lia.
Qed.

Lemma open_journal_eq cpu h s :
  0 <= cpu < cpus cfg → pair_is (view s) cpu h h → h ≠ 0 →
  open_journal cfg cpu s = Ok ((pair_of cpu, h), s).
Proof.
  intros Hc [Hh Ht] Hh0. unfold open_journal.
  erewrite bind_Ok; [|by apply nova_get_journal_pointers_eq].
  erewrite bind_Ok; [|apply fetch_eq]. erewrite bind_Ok; [|apply fetch_eq].
  rewrite Hh, Ht, Z.eqb_refl. by destruct (Z.eqb_spec h 0).
Qed.

Lemma flush_pair_eq jp fence s :
  nova_flush_buffer cfg (jp + journal_head) CACHELINE_SIZE fence s =
  Ok ((), log_state s (flush_events (support_clwb cfg) jp 64 ++ fence_events fence)).
Proof. rewrite nova_flush_buffer_eq by (unfold CACHELINE_SIZE; lia).
  unfold journal_head, CACHELINE_SIZE. by rewrite Z.add_0_r. Qed.

Lemma publish_journal_eq jb k1 k2 cpu s :
  journal_at cpu jb → 0 <= k1 < 128 → 0 <= k2 < 128 →
  pair_is (view s) cpu (slot jb k1) (slot jb k1) →
  publish_journal cfg (pair_of cpu) (slot jb k2) s =
  Ok (slot jb k2,
      log_state s (publish_events (pair_of cpu) (slot jb k1) (slot jb k2))).
Proof.
  intros [Hc Hcs Hjb Hap] Hk1 Hk2 [Hh Ht]. unfold publish_journal.
  erewrite bind_Ok; [|apply fetch_eq]. rewrite Hh.
  erewrite bind_Ok; [|by apply nova_flush_journal_in_batch_eq].
  erewrite bind_Ok; [|apply store_eq].
  erewrite bind_Ok; [|apply flush_pair_eq]. rewrite !log_state_app.
  unfold publish_events. cbn [fence_events]. unfold mret, M_ret.
  by rewrite <- !app_assoc.
Qed.

Theorem transaction_spec jb k cpu fs s :
  journal_at cpu jb → 0 <= k < 128 → (length fs < 128)%nat →
  pair_is (view s) cpu (slot jb k) (slot jb k) →
  Forall (field_ok (journal_area cfg jb)) fs →
  ∃ ea, let k' := (k + Z.of_nat (length fs)) mod 128 in
    transaction cfg fs cpu s =
      Ok (slot jb k', log_state s (ea ++ publish_events (pair_of cpu) (slot jb k) (slot jb k'))) ∧
    stores_in (in_slots jb k (length fs)) ea ∧ Forall ev_ok ea ∧
    ∀ i f, fs !! i = Some f →
      entry_at (apply_events (view s) ea) (slot jb ((k + Z.of_nat i) mod 128))
        (align8 f) (load 8 (view s) (align8 f)).
Proof.
  intros Hja Hk Hn Hp Hfs. destruct (Hja) as [Hc Hcs Hjb Hap].
  destruct (append_fields_spec jb fs k s) as (ea & He & Hst & Hok & Hent);
    [done|done|lia|..].
  { eapply Forall_impl; [exact Hfs|]. intros f [Hf1 Hf2]. split; [done|].
    intros x Hx Hx'. apply (Hf2 x Hx). by right. }
  exists ea. simpl. split_and!; try done. unfold transaction.
  erewrite bind_Ok; [|apply open_journal_eq; [done|done|]]; cycle 1.
  { destruct (slot_bounds jb k); [done..|lia]. }
  cbn beta iota. erewrite bind_Ok; [|exact He].
  rewrite (publish_journal_eq jb k); [|done|done|apply Z.mod_pos_bound; lia|].
  - by rewrite log_state_app.
  - simpl. eapply pair_is_ext; [done| |exact Hp]. intros x Hx. symmetry.
    eapply apply_events_frame; [exact Hst|]. intros Hx'%in_slots_page. by apply (Hap x).
Qed.

Definition commit_events (jp tail : Z) : list event :=
  EStore false (jp + journal_head) (bytes_of 8 tail) ::
  flush_events (support_clwb cfg) jp 64 ++ [EFence].

Lemma nova_commit_lite_transaction_eq cpu h t s :
  0 <= cpu < cpus cfg → pair_is (view s) cpu h t →
  nova_commit_lite_transaction cfg t cpu s = Ok ((), log_state s (commit_events (pair_of cpu) t)).
Proof.
  intros Hc [_ Ht]. unfold nova_commit_lite_transaction.
  erewrite bind_Ok; [|by apply nova_get_journal_pointers_eq].
  erewrite bind_Ok; [|apply fetch_eq]. rewrite Ht, Z.eqb_refl.
  erewrite bind_Ok; [|done]. erewrite bind_Ok; [|apply store_eq].
  by rewrite flush_pair_eq, log_state_app.
Qed.

(** *** Recovery *)

(** The slots from [k] hold undo records of [fs] with their values in [m0]. *)
Definition records (m m0 : mem) (jb k : Z) (fs : list Z) : Prop :=
  ∀ i f, fs !! i = Some f →
    entry_at m (slot jb ((k + Z.of_nat i) mod 128)) (align8 f) (load 8 m0 (align8 f)).

Lemma records_ext m1 m2 m0 jb k fs :
  agree (in_range jb 4096) m1 m2 → records m1 m0 jb k fs → records m2 m0 jb k fs.
Proof.
  intros Ha Hr i f Hi. eapply entry_at_ext; [|by apply Hr].
  eapply agree_mono; [exact Ha|]. intros x. apply slot_in_page, Z.mod_pos_bound. lia.
Qed.

Lemma records_cons m m0 jb k f fs :
  0 <= k < 128 → records m m0 jb k (f :: fs) →
  entry_at m (slot jb k) (align8 f) (load 8 m0 (align8 f)) ∧ records m m0 jb (next_slot k) fs.
Proof.
  intros Hk Hr. split.
  - specialize (Hr O f eq_refl). by rewrite Z.add_0_r, Z.mod_small in Hr by lia.
  - intros i g Hi. rewrite next_slot_add by lia.
    specialize (Hr (S i) g Hi). by rewrite Nat2Z.inj_succ in Hr.
Qed.

Lemma check_entry_eq m p f v s :
  view s = m → entry_at m p f v → nova_check_entry_integrity p s = Ok (0, s).
Proof.
  intros <- [H1 H2 H3 H4]. unfold nova_check_entry_integrity, entry_crc.
  erewrite bind_Ok; [|done]. erewrite bind_Ok; [|apply fetch_eq].
  rewrite H4. change (Z.to_nat (sizeof_journal_entry - 4)) with 28%nat.
  by rewrite Z.eqb_refl.
Qed.

Lemma slot_eq_tail jb k n :
  0 <= k < 128 → (0 < n < 128)%nat → slot jb k ≠ slot jb ((k + Z.of_nat n) mod 128).
Proof.
  intros Hk Hn Heq. assert (E : k = (k + Z.of_nat n) mod 128) by (unfold slot in Heq; lia).
  destruct (decide (k + Z.of_nat n < 128)); [rewrite Z.mod_small in E; lia|].
  rewrite <- (Z.mod_unique _ 128 1 (k + Z.of_nat n - 128)) in E; lia.
Qed.

Lemma tail_next k n :
  0 <= k < 128 →
  (k + Z.of_nat (S n)) mod 128 = (next_slot k + Z.of_nat n) mod 128.
Proof. intros. rewrite next_slot_add by lia. f_equal. lia. Qed.

Lemma check_loop_eq jb m0 jp fs : ∀ k fuel s,
  page_ok jb → 0 <= k < 128 → (length fs < 128)%nat → (length fs <= fuel)%nat →
  load 8 (view s) (jp + journal_tail) = slot jb ((k + Z.of_nat (length fs)) mod 128) →
  records (view s) m0 jb k fs →
  check_loop fuel jp (slot jb k) s = Ok (0, s).
Proof.
  induction fs as [|f fs IH]; intros k fuel s Hjb Hk Hn Hf Ht Hr.
  - rewrite Z.add_0_r, Z.mod_small in Ht by lia.
    destruct fuel; simpl; (erewrite bind_Ok; [|apply fetch_eq]); by rewrite Ht, Z.eqb_refl.
  - destruct fuel as [|fuel]; simpl in Hf; [lia|]. simpl.
    erewrite bind_Ok; [|apply fetch_eq]. rewrite Ht.
    destruct (Z.eqb_spec (slot jb k) (slot jb ((k + Z.of_nat (length (f :: fs))) mod 128)))
      as [E|_]; [apply slot_eq_tail in E; [done|lia|simpl in *; lia]|].
    apply records_cons in Hr as [He Hr]; [|done].
    destruct (slot_bounds jb k) as ((? & ?) & ? & ?); [done..|].
    erewrite bind_Ok; [|by rewrite nova_get_block_Some by lia].
    erewrite bind_Ok; [|by eapply check_entry_eq]. simpl.
    rewrite next_lite_journal_slot by done.
    apply IH; [done|apply next_slot_range|simpl in *; lia|lia| |done].
    rewrite Ht. simpl. by rewrite tail_next.
Qed.

Lemma undo_entry_eq p f v s :
  entry_at (view s) p f v → 0 < f →
  nova_undo_lite_journal_entry cfg p s =
  Ok ((), log_state s (EStore false f (bytes_of 8 v) :: flush_events (support_clwb cfg) f 64)).
Proof.
  intros [H1 H2 H3 _] Hf. unfold nova_undo_lite_journal_entry.
  erewrite bind_Ok; [|apply fetch_eq].
  unfold je_type. rewrite Z.add_0_r, H1. simpl. unfold nova_undo_journal_entry.
  erewrite bind_Ok; [|apply fetch_eq]. erewrite bind_Ok; [|apply fetch_eq].
  rewrite H2, H3. erewrite bind_Ok; [|by rewrite nova_get_block_Some by lia].
  erewrite bind_Ok; [|apply store_eq].
  rewrite nova_flush_buffer_eq by (unfold CACHELINE_SIZE; lia).
  by rewrite log_state_app, app_nil_r.
Qed.

Lemma recover_loop_eq jb m0 cpu fs : journal_at cpu jb → ∀ k fuel s,
  0 <= k < 128 → (length fs < 128)%nat → (length fs <= fuel)%nat →
  Forall (field_ok (journal_area cfg jb)) fs →
  load 8 (view s) (pair_of cpu + journal_tail) =
    slot jb ((k + Z.of_nat (length fs)) mod 128) →
  records (view s) m0 jb k fs →
  ∃ es, recover_loop cfg fuel (pair_of cpu) (slot jb k) s = Ok ((), log_state s es) ∧
    stores_in (in_words fs) es ∧
    ∀ x, in_words fs x → apply_events (view s) es !!! x = m0 !!! x.
Proof.
  intros [Hc Hcs Hjb Hap].
  induction fs as [|f fs IH]; intros k fuel s Hk Hn Hf Hok Ht Hr.
  - exists []. rewrite log_state_nil. split_and!; [|apply stores_in_nil|].
    + rewrite Z.add_0_r, Z.mod_small in Ht by lia.
      destruct fuel; simpl; (erewrite bind_Ok; [|apply fetch_eq]); by rewrite Ht, Z.eqb_refl.
    + intros x (g & ?%elem_of_nil & _). done.
  - destruct fuel as [|fuel]; simpl in Hf; [lia|]. simpl.
    erewrite bind_Ok; [|apply fetch_eq]. rewrite Ht.
    destruct (Z.eqb_spec (slot jb k) (slot jb ((k + Z.of_nat (length (f :: fs))) mod 128)))
      as [E|_]; [apply slot_eq_tail in E; [done|lia|simpl in *; lia]|].
    apply records_cons in Hr as [He Hr]; [|done].
    apply Forall_cons in Hok as [[Hf1 Hf2] Hok].
    destruct (slot_bounds jb k) as ((? & ?) & ? & ?); [done..|].
    pose proof (align8_range f Hf1) as Hal.
    erewrite bind_Ok; [|by rewrite nova_get_block_Some by lia].
    erewrite bind_Ok; [|apply undo_entry_eq; [exact He|lia]].
    rewrite next_lite_journal_slot by done.
    set (ue := EStore false (align8 f) _ :: _).
    assert (Hue : stores_in (in_range (align8 f) 8) ue).
    { apply stores_in_store; [by intros x; rewrite length_bytes_of|].
      apply stores_in_flushes, flush_events_flushes. }
    assert (Hkeep : agree (journal_area cfg jb) (view s) (apply_events (view s) ue)).
    { intros x Hx. symmetry. eapply apply_events_frame; [exact Hue|].
      intros Hx'. by apply (Hf2 x). }
    destruct (IH (next_slot k) fuel (log_state s ue)) as (es & E & Hst & Hv);
      [apply next_slot_range|simpl in *; lia|lia|done| | |].
    { simpl. rewrite <- tail_next by done.
      change (S (length fs)) with (length (f :: fs)). rewrite <- Ht.
      symmetry. apply load_ext.
      intros x Hx. apply Hkeep. left. eapply pair_in_table; [done| |exact Hx].
      unfold journal_tail. lia. }
    { eapply records_ext; [|exact Hr]. eapply agree_mono; [exact Hkeep|].
      intros x Hx. by right. }
    exists (ue ++ es). rewrite E, log_state_app. split_and!; [done|..].
    + apply stores_in_app. split; eapply stores_in_mono; eauto.
      * intros x Hx. exists f. split; [apply list_elem_of_here|done].
      * intros x (g & Hg & Hx). exists g. split; [by apply list_elem_of_further|done].
    + intros x Hx. rewrite apply_events_app.
      destruct (decide (in_words fs x)) as [Hin|Hout]; [by apply Hv|].
      rewrite (apply_events_frame _ _ es) by done.
      destruct Hx as (g & [->|Hg]%elem_of_cons & Hx); [|by destruct Hout; exists g].
      unfold ue. rewrite apply_events_cons, apply_events_no_store by (apply is_flush_no_store, flush_events_flushes).
      simpl. by rewrite write_back, decide_True.
Qed.

Definition idle (m : mem) (cpu : Z) : Prop := ∃ h, pair_is m cpu h h.

Lemma idle_ext m1 m2 cpu :
  0 <= cpu < cpus cfg → agree (in_range table (64 * cpus cfg)) m1 m2 →
  idle m1 cpu → idle m2 cpu.
Proof. intros ? ? [h ?]. exists h. by eapply pair_is_ext. Qed.

Lemma soft_init_step_idle fuel n i ret s :
  0 <= i < cpus cfg → idle (view s) i →
  soft_init_loop cfg fuel (S n) i ret s = soft_init_loop cfg fuel n (i + 1) ret s.
Proof.
  intros Hi [h [Hh Ht]]. simpl.
  erewrite bind_Ok; [|by apply nova_get_journal_pointers_eq].
  erewrite bind_Ok; [|apply fetch_eq]. erewrite bind_Ok; [|apply fetch_eq].
  by rewrite Hh, Ht, Z.eqb_refl.
Qed.

Lemma soft_init_idle fuel n i ret s :
  0 <= i → i + Z.of_nat n <= cpus cfg →
  (∀ c, i <= c < i + Z.of_nat n → idle (view s) c) →
  soft_init_loop cfg fuel n i ret s = Ok (ret, s).
Proof.
  revert i. induction n as [|n IH]; intros i Hi Hn Hidle; [done|].
  rewrite soft_init_step_idle by first [lia | apply Hidle; lia].
  apply IH; [lia..|]. intros. apply Hidle. lia.
Qed.

(** Everything of the pair of [cpu]. *)
Definition pair_bytes (cpu x : Z) : Prop := in_range (pair_of cpu) 16 x.

(** Rolling back one journal: the logged words get their old values, the
    pair becomes empty, nothing else changes. *)
Definition rolled_back (m m0 m' : mem) (cpu : Z) (fs : list Z) : Prop :=
  (∀ x, in_words fs x → m' !!! x = m0 !!! x) ∧
  (∀ x, ¬ in_words fs x → ¬ pair_bytes cpu x → m' !!! x = m !!! x) ∧
  idle m' cpu.

Lemma nova_recover_lite_journal_eq jb k m0 cpu fs fuel s :
  journal_at cpu jb → 0 <= k < 128 → (length fs < 128)%nat → (length fs <= fuel)%nat →
  Forall (field_ok (journal_area cfg jb)) fs →
  pair_is (view s) cpu (slot jb k) (slot jb ((k + Z.of_nat (length fs)) mod 128)) →
  records (view s) m0 jb k fs →
  ∃ s', nova_recover_lite_journal cfg fuel (pair_of cpu) s = Ok (0, s') ∧
    rolled_back (view s) m0 (view s') cpu fs.
Proof.
  intros Hja Hk Hn Hf Hok [Hh Ht] Hr. destruct (Hja) as [Hc Hcs Hjb Hap].
  unfold nova_recover_lite_journal. erewrite bind_Ok; [|apply fetch_eq]. rewrite Hh.
  destruct (recover_loop_eq jb m0 cpu fs Hja k fuel s) as (es & E & Hst & Hv); [done..|].
  erewrite bind_Ok; [|exact E]. erewrite bind_Ok; [|apply fetch_eq].
  assert (Harea : agree (journal_area cfg jb) (view s) (apply_events (view s) es)).
  { intros x Hx. symmetry. eapply apply_events_frame; [exact Hst|].
    intros (f & Hf' & Hx'). rewrite Forall_forall in Hok.
    destruct (Hok f Hf') as [_ Hd]. by apply (Hd x). }
  assert (Hh' : load 8 (apply_events (view s) es) (pair_of cpu + journal_head) = slot jb k).
  { rewrite <- Hh. symmetry. apply load_ext. intros x Hx. apply Harea. left.
    eapply pair_in_table; [done| |exact Hx]. unfold journal_head. lia. }
  erewrite bind_Ok; [|apply store_eq]. erewrite bind_Ok; [|apply flush_pair_eq].
  eexists. split; [done|]. simpl. rewrite Hh'.
  rewrite apply_events_no_store by apply (flush_fence_no_store _ _ _ true). run_events.
  unfold rolled_back, pair_bytes. split_and!.
  - intros x Hx. rewrite write_bytes_out; [by apply Hv|]. rewrite length_bytes_of.
    intros Hx'. destruct Hx as (f & Hf' & Hx). rewrite Forall_forall in Hok.
    destruct (Hok f Hf') as [_ Hd]. apply (Hd x Hx). left.
    eapply pair_in_table; [done| |exact Hx']. unfold journal_tail. lia.
  - intros x Hx1 Hx2. rewrite write_bytes_out; [by eapply apply_events_frame|].
    rewrite length_bytes_of. unfold in_range, journal_tail in *. lia.
  - exists (slot jb k). split.
    + rewrite load_write_disjoint; [done|]. unfold disjoint_ranges, journal_tail, journal_head.
      rewrite length_bytes_of. lia.
    + rewrite load_write_same, Z.mod_small; [done|].
      destruct (slot_bounds jb k) as ((? & ?) & _); [done..|]. lia.
Qed.

Lemma rolled_back_idle m m0 m' cpu fs c jb :
  0 <= cpu < cpus cfg → rolled_back m m0 m' cpu fs →
  Forall (field_ok (journal_area cfg jb)) fs →
  0 <= c < cpus cfg → c ≠ cpu → idle m c → idle m' c.
Proof.
  intros Hcpu (_ & Hout & _) Hok Hc Hne [h [Hh Ht]]. exists h.
  split; [rewrite <- Hh|rewrite <- Ht]; apply load_ext; intros x Hx;
    (apply Hout; [intros (f & Hf & Hx')|];
     [rewrite Forall_forall in Hok; destruct (Hok f Hf) as [_ Hd]; apply (Hd x Hx'); left;
      eapply pair_in_table; [exact Hc| |exact Hx]; unfold journal_tail, journal_head; lia
     |unfold pair_bytes, in_range, pair_of, journal_tail, journal_head in *; lia]).
Qed.

(** Mounting with one journal to replay. *)
Theorem soft_init_rolls_back jb k m0 cpu fs fuel s :
  journal_at cpu jb → 0 <= k < 128 → (length fs < 128)%nat → (length fs <= fuel)%nat →
  Forall (field_ok (journal_area cfg jb)) fs →
  pair_is (view s) cpu (slot jb k) (slot jb ((k + Z.of_nat (length fs)) mod 128)) →
  records (view s) m0 jb k fs →
  (∀ c, 0 <= c < cpus cfg → c ≠ cpu → idle (view s) c) →
  ∃ s', nova_lite_journal_soft_init cfg fuel true s = Ok (0, s') ∧
    rolled_back (view s) m0 (view s') cpu fs.
Proof.
  intros Hja Hk Hn Hf Hok Hp Hr Hidle. destruct (Hja) as [Hc Hcs Hjb Hap].
  unfold nova_lite_journal_soft_init. simpl.
  assert (Hgen : ∀ n i ret, 0 <= i <= cpu → i + Z.of_nat n = cpus cfg →
    ∃ s', soft_init_loop cfg fuel n i ret s = Ok (if decide (fs = []) then ret else 0, s') ∧
      rolled_back (view s) m0 (view s') cpu fs).
  2:{ destruct (Hgen (Z.to_nat (cpus cfg)) 0 0) as (s' & E & ?); [lia..|].
      exists s'. rewrite E. by case_decide. }
  induction n as [|n IH]; intros i ret Hi Hn'; [lia|].
  destruct (decide (i = cpu)) as [->|Hne].
  2:{ rewrite soft_init_step_idle by first [lia | apply Hidle; lia]. apply IH; lia. }
  case_decide as Hfs.
  - subst fs. exists s. rewrite Z.add_0_r, (Z.mod_small k) in Hp by lia.
    rewrite soft_init_step_idle by (first [lia | by eexists]). split.
    + apply soft_init_idle; [lia..|]. intros. apply Hidle; lia.
    + split_and!; [by intros x (? & ?%elem_of_nil & _)|done|by eexists].
  - simpl. erewrite bind_Ok; [|by apply nova_get_journal_pointers_eq].
    pose proof Hp as [Hh Ht].
    erewrite bind_Ok; [|apply fetch_eq]. erewrite bind_Ok; [|apply fetch_eq].
    rewrite Hh, Ht.
    destruct (Z.eqb_spec (slot jb k) (slot jb ((k + Z.of_nat (length fs)) mod 128))) as [E|_].
    { apply slot_eq_tail in E; [done|lia|]. destruct fs; [done|simpl in *; lia]. }
    unfold nova_check_journal_entries. rewrite bind_assoc.
    erewrite bind_Ok; [|apply fetch_eq]. rewrite Hh.
    erewrite bind_Ok; [|by eapply check_loop_eq]. simpl.
    destruct (nova_recover_lite_journal_eq jb k m0 cpu fs fuel s) as (s' & E & Hrb); [done..|].
    erewrite bind_Ok; [|exact E]. exists s'. split; [|done].
    apply soft_init_idle; [lia..|]. intros c Hc'.
    eapply rolled_back_idle; [done|exact Hrb|exact Hok|lia|lia|apply Hidle; lia].
Qed.
End Spec.

(** ** Crash atomicity *)

Section Crash.
Context `{Crc} `{NocacheCopy}.
Variable cfg : nova_cfg.

(** Mounting memory [m] succeeds and shows, outside the journal, exactly
    [m_pre] or exactly [m_post]. *)
Definition mounts_to (jb : Z) (m : mem) (ms : list mem) : Prop :=
  ∃ s', nova_lite_journal_soft_init cfg 128 true (Cpu m []) = Ok (0, s') ∧
    ∃ m', m' ∈ ms ∧ agree (λ x, ¬ journal_area cfg jb x) (view s') m'.

Lemma mounts_idle jb m m' :
  (∀ c, 0 <= c < cpus cfg → idle m c) → 0 <= cpus cfg →
  agree (λ x, ¬ journal_area cfg jb x) m m' → mounts_to jb m [m'].
Proof.
  intros Hidle Hc Ha. exists (Cpu m []). split.
  - unfold nova_lite_journal_soft_init. simpl. apply soft_init_idle; [lia..|].
    intros. apply Hidle. lia.
  - exists m'. split; [by apply list_elem_of_singleton|done].
Qed.

Lemma mounts_mono jb m ms ms' : mounts_to jb m ms → ms ⊆ ms' → mounts_to jb m ms'.
Proof. intros (s' & E & m' & ? & ?) Hs. exists s'. split; [done|]. exists m'. auto. Qed.

Section Run.
#[local] Set Default Proof Using "All".
Variables (jb k cpu : Z) (fs : list Z) (m0 : mem) (upd : list event).
Let n := length fs.
Let k' := (k + Z.of_nat n) mod 128.
Hypothesis Hja : journal_at cfg cpu jb.
Hypothesis Hk : 0 <= k < 128.
Hypothesis Hn : (length fs < 128)%nat.
Hypothesis Hpair : pair_is m0 cpu (slot jb k) (slot jb k).
Hypothesis Hidle : ∀ c, 0 <= c < cpus cfg → c ≠ cpu → idle m0 c.
Hypothesis Hok : Forall (field_ok (journal_area cfg jb)) fs.
Hypothesis Hupd : stores_in (in_words fs) upd.
Hypothesis Hupd_ok : Forall ev_ok upd.
Hypothesis Hupd_flushed : ∀ l, unflushed l upd = false.

Variable ea : list event.
Hypothesis Hea : stores_in (in_slots jb k n) ea.
Hypothesis Hea_ok : Forall ev_ok ea.
Hypothesis Hent : records (apply_events m0 ea) m0 jb k fs.

Let area := journal_area cfg jb.
Let p0 := PState m0 [].
Let es1 := ea ++ batch_events cfg (slot jb k) (slot jb k').
Let p1 := pexec p0 (es1 ++ [EFence]).
Let es2 := EStore false (pair_of cpu + journal_tail) (bytes_of 8 (slot jb k')) ::
           flush_events (support_clwb cfg) (pair_of cpu) 64.
Let p2 := pexec p1 (es2 ++ [EFence]).
Let p3 := pexec p2 (upd ++ [EFence]).
Let es4 := EStore false (pair_of cpu + journal_head) (bytes_of 8 (slot jb k')) ::
           flush_events (support_clwb cfg) (pair_of cpu) 64.

Lemma k'_range : 0 <= k' < 128.
Proof. apply Z.mod_pos_bound. lia. Qed.

Lemma words_not_area x : in_words fs x → ¬ area x.
Proof.
  intros (f & Hf & Hx). rewrite Forall_forall in Hok.
  destruct (Hok f Hf) as [_ Hd]. by apply Hd.
Qed.

Lemma slots_area x : in_slots jb k n x → area x.
Proof. intros Hx. right. by eapply in_slots_page. Qed.

Lemma pair_area o x : 0 <= o <= 8 → in_range (pair_of cpu + o) 8 x → area x.
Proof. intros. left. destruct Hja. by eapply pair_in_table. Qed.

(** The memory is idle wherever the pointer table is as in [m0]. *)
Lemma table_idle m :
  agree (in_range table (64 * cpus cfg)) m0 m → ∀ c, 0 <= c < cpus cfg → idle m c.
Proof.
  intros Ha c Hc. eapply idle_ext; [done|exact Ha|].
  destruct (decide (c = cpu)) as [->|?]; [by eexists|auto].
Qed.

Lemma es1_unflushed l : unflushed l es1 = false.
Proof.
  unfold es1. apply unflushed_app_flushes; [apply batch_events_flushes|].
  intros (a & bs & Hin & Hl)%unflushed_stored.
  assert (Hx : in_slots jb k n a).
  { apply (Hea false a bs); [done|]. rewrite Forall_forall in Hea_ok.
    destruct (Hea_ok _ Hin) as [Hne _]. destruct bs; [done|]. unfold in_range. simpl. lia. }
  destruct Hja. destruct (batch_covers cfg jb k n a) as (b & Hb & Hlb); [done..|].
  exists (support_clwb cfg), b. by rewrite Hlb.
Qed.

Lemma p1_spec : inflight p1 = [] ∧ mem_eq (durable p1) (apply_events m0 ea).
Proof.
  destruct (fence_durable p0 es1) as [H1 H2]; [done| |apply es1_unflushed|].
  { apply Forall_app. split; [done|]. apply is_flush_ev_ok, batch_events_flushes. }
  split; [done|]. unfold p1. rewrite H2. unfold es1. rewrite apply_events_app.
  by rewrite (apply_events_no_store _ (batch_events _ _ _))
    by (apply is_flush_no_store, batch_events_flushes).
Qed.

Lemma line_pair o : 0 <= o < 64 → line (pair_of cpu + o) = line (pair_of cpu).
Proof.
  intros. unfold line, pair_of, table.
  replace (4096 * 48 + cpu * 64 + o) with (o + (3072 + cpu) * 64) by lia.
  replace (4096 * 48 + cpu * 64) with (0 + (3072 + cpu) * 64) by lia.
  rewrite !Z.div_add by lia. rewrite (Z.div_small o) by lia. done.
Qed.

Lemma pair_store_spec p o v :
  inflight p = [] → 0 <= o <= 8 →
  let es := EStore false (pair_of cpu + o) (bytes_of 8 v) ::
            flush_events (support_clwb cfg) (pair_of cpu) 64 in
  inflight (pexec p (es ++ [EFence])) = [] ∧
  mem_eq (durable (pexec p (es ++ [EFence])))
         (write_bytes (durable p) (pair_of cpu + o) (bytes_of 8 v)).
Proof.
  intros Hp Ho es.
  destruct (fence_durable p es) as [H1 H2]; [done|..].
  - constructor; [|apply is_flush_ev_ok, flush_events_flushes]. split; [done|].
    intros x. rewrite length_bytes_of. unfold in_range. intros Hx.
    rewrite line_pair by lia. replace x with (pair_of cpu + (x - pair_of cpu)) by lia.
    apply line_pair. lia.
  - intros l. unfold es. rewrite <- (app_nil_l (flush_events _ _ _)), app_comm_cons.
    apply unflushed_app_flushes; [apply flush_events_flushes|].
    unfold unflushed. simpl. case_decide as Hl; [|done]. intros _.
    destruct (flush_events_cover (support_clwb cfg) (pair_of cpu) 64 (pair_of cpu + o))
      as (a & Ha & Hla); [lia|unfold in_range; lia|].
    exists (support_clwb cfg), a. by rewrite Hla.
  - split; [done|]. rewrite H2. unfold es. rewrite apply_events_cons.
    by rewrite apply_events_no_store by (apply is_flush_no_store, flush_events_flushes).
Qed.

Lemma idle_others m c :
  agree (λ x, in_range table (64 * cpus cfg) x ∧ ¬ pair_bytes cpu x) m0 m →
  0 <= c < cpus cfg → c ≠ cpu → idle m c.
Proof.
  intros Ha Hc Hne. destruct (Hidle c Hc Hne) as [h [Hh Ht]]. exists h.
  split; [rewrite <- Hh|rewrite <- Ht]; symmetry; apply load_ext; intros x Hx; apply Ha;
    (split; [eapply pair_in_table; [exact Hc| |exact Hx]; unfold journal_tail, journal_head; lia|]);
    unfold pair_bytes, in_range, pair_of, journal_head, journal_tail in *; lia.
Qed.

Lemma pair_bytes_at o x : 0 <= o <= 8 → in_range (pair_of cpu + o) 8 x → pair_bytes cpu x.
Proof. unfold pair_bytes, in_range. lia. Qed.

Lemma ea_out x : ¬ in_range jb 4096 x → apply_events m0 ea !!! x = m0 !!! x.
Proof. intros Hx. eapply apply_events_frame; [exact Hea|]. by intros ?%in_slots_page. Qed.

(** The published state: [durable p2] up to equality of memories. *)
Let m2 := write_bytes (apply_events m0 ea) (pair_of cpu + journal_tail) (bytes_of 8 (slot jb k')).

Lemma p2_spec : inflight p2 = [] ∧ mem_eq (durable p2) m2.
Proof.
  destruct p1_spec as [H1 H2]. destruct (pair_store_spec p1 journal_tail (slot jb k')) as [H3 H4];
    [done|unfold journal_tail; lia|].
  split; [done|]. unfold p2, es2, m2. by rewrite H4, H2.
Qed.

Lemma m2_pair : pair_is m2 cpu (slot jb k) (slot jb k').
Proof.
  destruct Hja as [Hc Hcs Hjb Hap]. pose proof k'_range.
  destruct (slot_bounds jb k') as ((? & ?) & _); [done..|].
  split; unfold m2.
  - rewrite load_write_disjoint by
      (unfold disjoint_ranges, journal_head, journal_tail; rewrite length_bytes_of; lia).
    destruct Hpair as [<- _]. apply load_ext. intros x Hx. apply ea_out. intros Hx'.
    apply (Hap x); [|done]. eapply pair_in_table; [done| |exact Hx]. unfold journal_head. lia.
  - rewrite load_write_same. apply Z.mod_small. lia.
Qed.

Lemma m2_out x : ¬ area x → m2 !!! x = m0 !!! x.
Proof.
  intros Hx. unfold m2. rewrite write_bytes_out; [apply ea_out|rewrite length_bytes_of];
    intros Hx'; apply Hx; [by right|].
  eapply pair_area; [|exact Hx']. unfold journal_tail. lia.
Qed.

Lemma m2_records : records m2 m0 jb k fs.
Proof.
  eapply records_ext; [|exact Hent]. intros x Hx. unfold m2.
  rewrite write_bytes_out; [done|]. rewrite length_bytes_of. intros Hx'.
  destruct Hja as [Hc _ _ Hap]. apply (Hap x); [|done].
  eapply pair_in_table; [done| |exact Hx']. unfold journal_tail. lia.
Qed.

Lemma m2_idle m c :
  agree area m2 m → 0 <= c < cpus cfg → c ≠ cpu → idle m c.
Proof.
  intros Ha. apply idle_others. intros x [Hx Hp]. rewrite <- Ha by (by left). unfold m2.
  destruct Hja as [Hc _ _ Hap].
  rewrite write_bytes_out; [symmetry; apply ea_out; by apply Hap|].
  rewrite length_bytes_of. intros Hx'. apply Hp.
  eapply pair_bytes_at; [|exact Hx']. unfold journal_tail. lia.
Qed.

(** Wherever the journal is as published, mounting rolls back. *)
Lemma published m :
  agree area m2 m → agree (λ x, ¬ area x ∧ ¬ in_words fs x) m2 m →
  mounts_to jb m [m0].
Proof.
  intros Ha Ho. destruct Hja as [Hc Hcs Hjb Hap].
  destruct (soft_init_rolls_back cfg jb k m0 cpu fs 128 (Cpu m [])) as (s' & E & R1 & R2 & _);
    [done|done|done|lia|done|..].
  - eapply pair_is_ext; [done| |apply m2_pair]. intros x Hx. apply Ha. by left.
  - eapply records_ext; [|apply m2_records]. intros x Hx. apply Ha. by right.
  - intros c. by apply m2_idle.
  - exists s'. split; [done|]. exists m0. split; [by apply list_elem_of_singleton|].
    intros x Hx. destruct (decide (in_words fs x)) as [Hw|Hw]; [by apply R1|].
    rewrite R2; [|done|].
    + simpl. rewrite <- Ho by done. by apply m2_out.
    + intros Hp. apply Hx. left. unfold pair_bytes, in_range, pair_of in *. lia.
Qed.

(** Before the tail is published the journals are idle. *)
Lemma unpublished m : agree (λ x, ¬ in_range jb 4096 x) m m0 → mounts_to jb m [m0].
Proof.
  intros Ha. destruct Hja as [Hc Hcs Hjb Hap]. apply mounts_idle; [|lia|].
  - apply table_idle. intros x Hx. symmetry. apply Ha. by apply Hap.
  - intros x Hx. apply Ha. intros Hx'. apply Hx. by right.
Qed.

Lemma p1_out : agree (λ x, ¬ in_range jb 4096 x) (durable p1) m0.
Proof. intros x Hx. destruct p1_spec as [_ ->]. by apply ea_out. Qed.

Lemma p3_spec : inflight p3 = [] ∧ mem_eq (durable p3) (apply_events m2 upd).
Proof.
  destruct p2_spec as [H1 H2]. destruct (fence_durable p2 upd) as [H3 H4]; [done..|].
  split; [done|]. unfold p3. by rewrite H4, H2.
Qed.

Lemma upd_area x : area x → apply_events m2 upd !!! x = m2 !!! x.
Proof.
  intros Hx. eapply apply_events_frame; [exact Hupd|]. intros Hw. by eapply words_not_area.
Qed.

(** The committed state, shown outside the journal as the update left it. *)
Lemma committed m :
  mem_eq m (write_bytes (apply_events m2 upd) (pair_of cpu + journal_head)
              (bytes_of 8 (slot jb k'))) →
  mounts_to jb m [apply_events m0 upd].
Proof.
  intros Hm. destruct Hja as [Hc Hcs Hjb Hap]. pose proof k'_range.
  destruct (slot_bounds jb k') as ((? & ?) & _); [done..|].
  assert (Ha : agree (λ x, area x ∧ ¬ pair_bytes cpu x) m2 m).
  { intros x [Hx Hp]. rewrite Hm, write_bytes_out, upd_area; [done..|].
    rewrite length_bytes_of. intros Hx'. apply Hp.
    eapply pair_bytes_at; [|exact Hx']. unfold journal_head. lia. }
  apply mounts_idle; [|lia|].
  - intros c Hcc. destruct (decide (c = cpu)) as [->|Hne].
    + exists (slot jb k'). split.
      * rewrite Hm, load_write_same. apply Z.mod_small. lia.
      * rewrite Hm, load_write_disjoint by
          (unfold disjoint_ranges, journal_head, journal_tail; rewrite length_bytes_of; lia).
        destruct m2_pair as [_ <-]. apply load_ext. intros x Hx. apply upd_area.
        eapply pair_area; [|exact Hx]. unfold journal_tail. lia.
    + apply idle_others; [|done..]. intros x [Hx Hp].
      rewrite <- Ha by (split; [by left|done]). unfold m2.
      rewrite write_bytes_out; [symmetry; apply ea_out; by apply Hap|].
      rewrite length_bytes_of. intros Hx'. apply Hp.
      eapply pair_bytes_at; [|exact Hx']. unfold journal_tail. lia.
  - intros x Hx. rewrite Hm, write_bytes_out.
    + apply apply_events_local. by apply m2_out.
    + rewrite length_bytes_of. intros Hx'. apply Hx.
      eapply pair_area; [|exact Hx']. unfold journal_head. lia.
Qed.

Lemma crash_publish m :
  crash_during p0 (ea ++ publish_events cfg (pair_of cpu) (slot jb k) (slot jb k')) m →
  mounts_to jb m [m0].
Proof.
  intros Hcr. unfold publish_events in Hcr. rewrite app_assoc in Hcr. fold es1 in Hcr.
  change (es1 ++ [EFence] ++ ?r) with (es1 ++ ([EFence] ++ r)) in Hcr.
  rewrite app_assoc in Hcr.
  change (EStore ?b ?a ?v :: ?f ++ ?g) with ((EStore b a v :: f) ++ g) in Hcr. fold es2 in Hcr.
  apply crash_during_app in Hcr as [Hcr|Hcr].
  - apply unpublished. change m0 with (durable p0) at 1.
    eapply (crash_during_frame (in_range jb 4096)); [| |exact Hcr].
    + intros p x Hp. by apply elem_of_nil in Hp.
    + apply stores_in_app. split; [|by apply stores_in_other; [|apply stores_in_nil]].
      apply stores_in_app. split; [|apply stores_in_flushes, batch_events_flushes].
      eapply stores_in_mono; [exact Hea|]. by apply in_slots_page.
  - fold p1 in Hcr. destruct p1_spec as [H1 H2].
    unfold es2 in Hcr. rewrite <- app_comm_cons in Hcr.
    apply crash_one_store in Hcr as [-> | ->];
      [apply unpublished, p1_out| |done|].
    + apply published; intros x Hx; unfold m2; symmetry; by apply write_bytes_proper.
    + apply (flush_fence_no_store _ _ _ true).
Qed.

Lemma crash_update m : crash_during p2 (upd ++ [EFence]) m → mounts_to jb m [m0].
Proof.
  intros Hcr. destruct p2_spec as [H1 H2].
  assert (Ha : agree (λ x, ¬ in_words fs x) m (durable p2)).
  { eapply (crash_during_frame (in_words fs)); [| |exact Hcr].
    - intros p x Hp. rewrite H1 in Hp. by apply elem_of_nil in Hp.
    - apply stores_in_app. split; [exact Hupd|]. by apply stores_in_other; [|apply stores_in_nil]. }
  apply published; intros x Hx; rewrite Ha, H2; try done.
  - intros Hw. by eapply words_not_area.
  - by destruct Hx.
Qed.

Lemma crash_commit m :
  crash_during p3 (commit_events cfg (pair_of cpu) (slot jb k')) m →
  mounts_to jb m [m0; apply_events m0 upd].
Proof.
  intros Hcr. destruct p3_spec as [H1 H2]. apply crash_one_store in Hcr as [-> | ->]; [..|done|].
  - eapply mounts_mono; [apply published|set_solver]; intros x Hx; rewrite H2.
    + symmetry. by apply upd_area.
    + symmetry. eapply apply_events_frame; [exact Hupd|]. by destruct Hx.
  - eapply mounts_mono; [apply committed|set_solver]. by rewrite H2.
  - apply (flush_fence_no_store _ _ _ true).
Qed.

Let all := ea ++ publish_events cfg (pair_of cpu) (slot jb k) (slot jb k') ++
           upd ++ [EFence] ++ commit_events cfg (pair_of cpu) (slot jb k').

Lemma p2_eq :
  pexec p0 (ea ++ publish_events cfg (pair_of cpu) (slot jb k) (slot jb k')) = p2.
Proof.
  unfold p2, p1, es1, es2, publish_events. rewrite <- pexec_app. f_equal.
  by rewrite <- !app_assoc.
Qed.

Lemma crash_all m : crash_during p0 all m → mounts_to jb m [m0; apply_events m0 upd].
Proof.
  unfold all. rewrite (app_assoc ea), (app_assoc upd). intros Hcr.
  apply crash_during_app in Hcr as [Hcr|Hcr].
  { eapply mounts_mono; [by apply crash_publish|set_solver]. }
  rewrite p2_eq in Hcr. apply crash_during_app in Hcr as [Hcr|Hcr].
  { eapply mounts_mono; [by apply crash_update|set_solver]. }
  by apply crash_commit.
Qed.

Lemma complete_all m : crash_image (pexec p0 all) m → mounts_to jb m [apply_events m0 upd].
Proof.
  unfold all. rewrite (app_assoc ea), (app_assoc upd), pexec_app, p2_eq, (pexec_app p2).
  fold p3. intros [keep ->]. destruct p3_spec as [H1 H2].
  destruct (pair_store_spec p3 journal_head (slot jb k')) as [H3 H4];
    [done|unfold journal_head; lia|].
  change (commit_events cfg (pair_of cpu) (slot jb k')) with (es4 ++ [EFence]).
  unfold es4. rewrite H3. simpl. apply committed. by rewrite H4, H2.
Qed.

(** *** What the running code sees *)
Let tr := ea ++ publish_events cfg (pair_of cpu) (slot jb k) (slot jb k').

Lemma transaction_view : apply_events m0 tr = m2.
Proof.
  unfold tr, publish_events. rewrite apply_events_app, apply_events_app.
  rewrite (apply_events_no_store _ (batch_events _ _ _))
    by (apply is_flush_no_store, batch_events_flushes).
  cbn [app]. rewrite apply_events_cons, apply_events_cons.
  by rewrite apply_events_no_store by apply (flush_fence_no_store _ _ _ true).
Qed.

Lemma transaction_out : agree (λ x, ¬ area x) m0 (apply_events m0 tr).
Proof. intros x Hx. rewrite transaction_view. by rewrite m2_out. Qed.

Lemma transaction_pair :
  pair_is (apply_events (apply_events m0 tr) (upd ++ [EFence])) cpu (slot jb k) (slot jb k').
Proof.
  rewrite transaction_view, apply_events_app. destruct Hja as [Hc _ _ _].
  eapply pair_is_ext; [exact Hc| |apply m2_pair]. intros x Hx. symmetry. apply upd_area.
  by left.
Qed.
End Run.

(** A mounted file system whose journals are empty; the next record of
    [cpu]'s journal goes to slot [k] of the page at [jb]. *)
Record ready (m : mem) (cpu jb k : Z) : Prop := {
  rd_at : journal_at cfg cpu jb;
  rd_slot : 0 <= k < 128;
  rd_pair : pair_is m cpu (slot jb k) (slot jb k);
  rd_idle : ∀ c, 0 <= c < cpus cfg → c ≠ cpu → idle m c
}.

(** [prog] is failure atomic from [s]: it returns [a], and after a power
    failure at any point of it mounting shows the memory of before or [post];
    once it has returned, mounting shows [post]. *)
Definition crash_atomic {A} (jb : Z) (prog : PM A) (s : cpu) (a : A) (post : mem) : Prop :=
  ∃ es, prog s = Ok (a, log_state s es) ∧
    (∀ m, crash_during (PState (view s) []) es m → mounts_to jb m [view s; post]) ∧
    (∀ m, crash_image (pexec (PState (view s) []) es) m → mounts_to jb m [post]).

(** The protocol of every client of the journal. *)
Lemma protocol_atomic {A} fs cpu jb k (update : Z → PM A) a upd s :
  ready (view s) cpu jb k → (length fs < 128)%nat →
  Forall (field_ok (journal_area cfg jb)) fs →
  (∀ t s1, agree (λ x, ¬ journal_area cfg jb x) (view s) (view s1) →
     update t s1 = Ok (a, log_state s1 upd)) →
  stores_in (in_words fs) upd → Forall ev_ok upd → (∀ l, unflushed l upd = false) →
  crash_atomic jb
    (t ← transaction cfg fs cpu;
     a ← update t;
     PERSISTENT_BARRIER;;
     nova_commit_lite_transaction cfg t cpu;;
     mret a) s a (apply_events (view s) upd).
Proof.
  intros [Hja Hk Hp Hi] Hn Hok Hu Hst Hev Hfl. destruct (Hja) as [Hc Hcs Hjb Hap].
  destruct (transaction_spec cfg jb k cpu fs s) as (ea & E & Hea & Hea' & Hent); [done..|].
  set (k' := (k + Z.of_nat (length fs)) mod 128) in *.
  exists (ea ++ publish_events cfg (pair_of cpu) (slot jb k) (slot jb k') ++
          upd ++ [EFence] ++ commit_events cfg (pair_of cpu) (slot jb k')).
  split_and!.
  - erewrite bind_Ok; [|exact E]. erewrite bind_Ok; [|apply Hu]; cycle 1.
    { simpl. by eapply transaction_out. }
    unfold PERSISTENT_BARRIER. erewrite bind_Ok; [|apply emit_eq].
    rewrite log_state_app, (log_state_app _ _ (upd ++ _)).
    erewrite bind_Ok; [|eapply (nova_commit_lite_transaction_eq cfg cpu (slot jb k)); [done|]]; cycle 1.
    { simpl. rewrite apply_events_app. by eapply transaction_pair. }
    rewrite log_state_app. unfold mret, M_ret. by rewrite <- !app_assoc.
  - intros m. by apply crash_all.
  - intros m. by apply complete_all.
Qed.
End Crash.


(** ** A small mounted file system

    One CPU whose journal page is block 50, empty; the inode table is around
    block 60.  The witnesses of the journal's clients start from it. *)
Module Demo.
Definition cfg : nova_cfg := NovaCfg true false 1 (λ _ _, 0).
Definition jb : Z := 4096 * 50.
Definition disk : mem :=
  write_bytes (write_bytes ∅ (pair_of 0) (bytes_of 8 jb)) (pair_of 0 + 8) (bytes_of 8 jb).
Definition start : cpu := Cpu disk [].

Lemma disk_ready : ready cfg (view start) 0 jb 0.
Proof.
  split.
  - split; try (simpl; lia).
    + unfold page_ok, jb. split_and!; [lia|reflexivity|lia].
    + intros x. unfold in_range, table, jb. simpl. lia.
  - lia.
  - split; reflexivity.
  - simpl. lia.
Qed.

Lemma not_journal a n x :
  4096 * 51 <= a → in_range a n x → ¬ journal_area cfg jb x.
Proof. unfold journal_area, in_range, table, jb. simpl. lia. Qed.
End Demo.
