(* ===== verification/NovaInode.v ===== *)
(** * NOVA: inode updates under the journal

    The inode helpers of [inode.h] and the two journalled transactions of
    [namei.c]: creating a new inode, and changing the link count (or removing)
    of an inode together with its directory.  The theorems discharge the
    protocol of [NovaJournalCrash] for each of them: the program, run from a
    mounted file system with idle journals, is failure atomic. *)

From stdpp Require Import base list gmap.
From Stdlib Require Import ZArith Lia.
From coqutil Require Import Byte Word.LittleEndianList.
From S2P Require Import Prelude PMem NovaBase NovaJournal NovaJournalCrash.

Local Open Scope Z_scope.

(** The fields of [struct nova_inode_update] (DRAM). *)
Record nova_inode_update := InodeUpdate { u_tail : Z; u_alter_tail : Z }.

(** [struct nova_inode]: the checksum field. *)
Definition pi_csum : Z := 116.

Section Inode.
Context `{Crc} `{NocacheCopy}.
Variable cfg : nova_cfg.

Definition nova_get_alter_inode (inode : inode_hdr) : option Z :=
  if negb (metadata_csum cfg) then None else
  let addr := nova_get_block (sih_alter_pi_addr inode) in
  if mcsafe_fail cfg addr sizeof_nova_inode then None else addr.

Definition nova_update_alter_inode (inode : inode_hdr) (pi : Z) : PM Z :=
  if negb (metadata_csum cfg) then mret 0 else
  match nova_get_alter_inode inode with
  | None => mret (- EINVAL)
  | Some alter_pi => memcpy_to_pmem_nocache cfg alter_pi pi sizeof_nova_inode;; mret 0
  end.

(** The CRC of an inode without its checksum field. *)
Definition inode_crc (pi : Z) : PM Z :=
  gets (λ s, nova_crc32c (2 ^ 32 - 1) (read_bytes (view s) pi (Z.to_nat (sizeof_nova_inode - 4)))).

Definition nova_update_inode_checksum (pi : Z) : PM Z :=
  (if negb (metadata_csum cfg) then mret ()
   else crc ← inode_crc pi; store 4 (pi + pi_csum) crc);;
  nova_flush_buffer cfg pi sizeof_nova_inode true;;
  mret 0.

Definition nova_check_inode_checksum (pi : Z) : PM Z :=
  if negb (metadata_csum cfg) then mret 0 else
  crc ← inode_crc pi;
  csum ← fetch 4 (pi + pi_csum);
  mret (if csum =? u32 crc then 0 else 1).

Definition nova_update_tail (pi new_tail : Z) : PM () :=
  PERSISTENT_BARRIER;;
  store 8 (pi + pi_log_tail) new_tail;;
  nova_flush_buffer cfg (pi + pi_log_tail) CACHELINE_SIZE true.

Definition nova_update_alter_tail (pi new_tail : Z) : PM () :=
  if negb (metadata_csum cfg) then mret () else
  PERSISTENT_BARRIER;;
  store 8 (pi + pi_alter_log_tail) new_tail;;
  nova_flush_buffer cfg (pi + pi_alter_log_tail) CACHELINE_SIZE true.

(** Returns the DRAM inode with its new tails. *)
Definition nova_update_inode (inode : inode_hdr) (pi : Z) (update : nova_inode_update)
    (update_alter : bool) : PM inode_hdr :=
  let inode := InodeHdr (sih_pi_addr inode) (sih_alter_pi_addr inode)
                 (u_tail update) (u_alter_tail update) in
  nova_update_tail pi (u_tail update);;
  when (metadata_csum cfg) (nova_update_alter_tail pi (u_alter_tail update));;
  nova_update_inode_checksum pi;;
  (if update_alter then nova_update_alter_inode inode pi else mret 0);;
  mret inode.

(** [cpu] is the result of [nova_get_cpuid]. *)
Definition nova_lite_transaction_for_new_inode (cpu pi pidir : Z) (inode dir : inode_hdr)
    (update : nova_inode_update) : PM inode_hdr :=
  journal_tail ← nova_create_inode_transaction cfg inode dir cpu true false;
  dir ← nova_update_inode dir pidir update false;
  store 1 (pi + pi_valid) 1;;
  nova_update_inode_checksum pi;;
  PERSISTENT_BARRIER;;
  nova_commit_lite_transaction cfg journal_tail cpu;;
  when (metadata_csum cfg)
    (nova_update_alter_inode inode pi;; nova_update_alter_inode dir pidir;; mret ());;
  mret dir.

Definition nova_lite_transaction_for_time_and_link (cpu pi pidir : Z) (inode dir : inode_hdr)
    (update update_dir : nova_inode_update) (invalidate : bool) (epoch_id : Z) :
    PM (inode_hdr * inode_hdr) :=
  journal_tail ← nova_create_inode_transaction cfg inode dir cpu false invalidate;
  when invalidate
    (store 1 (pi + pi_valid) 0;; store 8 (pi + pi_delete_epoch_id) epoch_id);;
  inode ← nova_update_inode inode pi update false;
  dir ← nova_update_inode dir pidir update_dir false;
  PERSISTENT_BARRIER;;
  nova_commit_lite_transaction cfg journal_tail cpu;;
  when (metadata_csum cfg)
    (nova_update_alter_inode inode pi;; nova_update_alter_inode dir pidir;; mret ());;
  mret (inode, dir).

(** *** Without metadata checksums: the stores of each update *)

Definition tail_update_events (pi tail : Z) : list event :=
  EFence :: EStore false (pi + pi_log_tail) (bytes_of 8 tail) ::
  flush_events (support_clwb cfg) (pi + pi_log_tail) 64 ++ [EFence] ++
  flush_events (support_clwb cfg) pi 120 ++ [EFence].

Lemma nova_update_inode_checksum_eq pi s :
  metadata_csum cfg = false →
  nova_update_inode_checksum pi s =
  Ok (0, log_state s (flush_events (support_clwb cfg) pi 120 ++ [EFence])).
Proof.
  intros Hm. unfold nova_update_inode_checksum. rewrite Hm. simpl.
  erewrite bind_Ok; [|done].
  by erewrite bind_Ok; [|apply nova_flush_buffer_eq; unfold sizeof_nova_inode; lia].
Qed.

Lemma nova_update_inode_eq inode pi u s :
  metadata_csum cfg = false →
  nova_update_inode inode pi u false s =
  Ok (InodeHdr (sih_pi_addr inode) (sih_alter_pi_addr inode) (u_tail u) (u_alter_tail u),
      log_state s (tail_update_events pi (u_tail u))).
Proof.
  intros Hm. unfold nova_update_inode, nova_update_tail, PERSISTENT_BARRIER. rewrite Hm.
  rewrite bind_assoc. erewrite bind_Ok; [|apply emit_eq].
  rewrite bind_assoc. erewrite bind_Ok; [|apply store_eq].
  erewrite bind_Ok; [|apply nova_flush_buffer_eq; unfold CACHELINE_SIZE; lia].
  erewrite bind_Ok; [|done].
  erewrite bind_Ok; [|by apply nova_update_inode_checksum_eq].
  erewrite bind_Ok; [|done]. rewrite !log_state_app. unfold mret, M_ret.
  unfold tail_update_events. cbn [fence_events app]. by rewrite <- !app_assoc.
Qed.

(** *** The conditions the protocol asks of an update *)

(** An inode in its table: aligned, inside the device, clear of [P]. *)
Record inode_ok (P : Z → Prop) (inode : inode_hdr) (pi : Z) : Prop := {
  io_addr : sih_pi_addr inode = pi;
  io_read : mcsafe_fail cfg (Some pi) sizeof_nova_inode = false;
  io_aligned : pi mod 8 = 0;
  io_bounds : 8 <= pi < 2 ^ 64 - 120;
  io_clear : ∀ x, in_range pi 120 x → ¬ P x
}.

Lemma nova_get_inode_ok P inode pi : inode_ok P inode pi → nova_get_inode cfg inode = Some pi.
Proof.
  intros [H1 H2 _ H4 _]. unfold nova_get_inode. rewrite H1, nova_get_block_Some by lia.
  by rewrite H2.
Qed.

Lemma align8_off pi o : pi mod 8 = 0 → align8 (pi + o) = pi + align8 o.
Proof.
  intros Hm. unfold align8. rewrite Z.add_mod, Hm, Z.add_0_l, Z.mod_mod by lia. lia.
Qed.

Lemma inode_field_ok P inode pi o :
  inode_ok P inode pi → 0 <= o < 120 → field_ok P (pi + o).
Proof.
  intros [_ _ H3 H4 H5] Ho. split; [lia|]. intros x Hx. apply H5.
  rewrite align8_off in Hx by done. unfold in_range, align8 in *.
  pose proof (Z.mod_pos_bound o 8 ltac:(lia)). pose proof (Z.div_mod o 8 ltac:(lia)).
  assert (o / 8 < 15) by (apply Z.div_lt_upper_bound; lia). lia.
Qed.

(** A store inside the aligned word of a logged field. *)
Lemma store_in_word fs pi o f a len nt v :
  pi mod 8 = 0 → pi + f ∈ fs → a = pi + o → align8 f <= o → o + Z.of_nat len <= align8 f + 8 →
  stores_in (in_words fs) [EStore nt a (bytes_of len v)].
Proof.
  intros Hm Hf -> H1 H2. apply stores_in_store; [|apply stores_in_nil].
  intros x Hx. rewrite length_bytes_of in Hx. exists (pi + f). split; [done|].
  rewrite align8_off by done. unfold in_range in *. lia.
Qed.

Lemma aligned_off pi o n : pi mod 8 = 0 → (n | 8) → (n | o) → 0 < n → (pi + o) mod n = 0.
Proof.
  intros Hm [c Hc] [d ->] Hn. apply Z.mod_divide in Hm as [q ->]; [|lia]. rewrite Hc.
  replace (q * (c * n) + d * n) with ((q * c + d) * n) by lia. apply Z.mod_mul. lia.
Qed.

Lemma tail_update_ok pi tail : pi mod 8 = 0 → Forall ev_ok (tail_update_events pi tail).
Proof.
  intros Hm. unfold tail_update_events. events_ok.
  apply ev_ok_aligned; [lia|by exists 8|]. apply aligned_off; [done|by exists 1|by exists 9|lia].
Qed.

Lemma tail_update_stores fs pi tail :
  pi mod 8 = 0 → pi + pi_log_tail ∈ fs → stores_in (in_words fs) (tail_update_events pi tail).
Proof.
  intros Hm Hf. unfold tail_update_events. events_in.
  eapply (store_in_word _ pi pi_log_tail pi_log_tail); unfold pi_log_tail, align8 in *; done.
Qed.

(** Stores to the inode followed by its tail update leave nothing unflushed. *)
Lemma tail_update_flushed l pi tail es :
  pi mod 8 = 0 → stores_in (in_range pi 120) es → Forall ev_ok es →
  unflushed l (es ++ tail_update_events pi tail) = false.
Proof.
  intros Hm Hst Hok. unfold tail_update_events. rewrite !app_comm_cons, !app_assoc.
  rewrite <- (app_assoc _ _ [EFence]). apply unflushed_covered; [lia| | |by repeat constructor].
  - events_in; [done|]. apply stores_in_store; [|apply stores_in_nil].
    intros x. rewrite length_bytes_of. unfold in_range, pi_log_tail. lia.
  - pose proof (tail_update_ok pi tail Hm) as Ht. unfold tail_update_events in Ht.
    apply Forall_cons in Ht as [? Ht]. apply Forall_cons in Ht as [? Ht]. by events_ok.
Qed.

(** *** Failure atomicity *)

Lemma crash_atomic_ext {A} jb (p1 p2 : PM A) s a post :
  p1 s = p2 s → crash_atomic cfg jb p2 s a post → crash_atomic cfg jb p1 s a post.
Proof. intros E (es & H1 & H2). exists es. by rewrite E. Qed.

(** The stores of the two transactions, in order. *)
Definition new_inode_events (pi pidir : Z) (u : nova_inode_update) : list event :=
  tail_update_events pidir (u_tail u) ++
  EStore false (pi + pi_valid) (bytes_of 1 1) :: flush_events (support_clwb cfg) pi 120 ++ [EFence].

Definition invalidate_events (pi epoch_id : Z) (invalidate : bool) : list event :=
  if invalidate then
    [EStore false (pi + pi_valid) (bytes_of 1 0);
     EStore false (pi + pi_delete_epoch_id) (bytes_of 8 epoch_id)]
  else [].

Definition time_and_link_events (pi pidir : Z) (u ud : nova_inode_update)
    (invalidate : bool) (epoch_id : Z) : list event :=
  (invalidate_events pi epoch_id invalidate ++ tail_update_events pi (u_tail u)) ++
  tail_update_events pidir (u_tail ud).

Definition with_tails (inode : inode_hdr) (u : nova_inode_update) : inode_hdr :=
  InodeHdr (sih_pi_addr inode) (sih_alter_pi_addr inode) (u_tail u) (u_alter_tail u).

Definition write_int (n : nat) (a v : Z) (m : mem) : mem := write_bytes m a (bytes_of n v).

Lemma valid_store_ok pi v : ev_ok (EStore false (pi + pi_valid) (bytes_of 1 v)).
Proof. apply ev_ok_aligned; [lia|by exists 64|]. apply Z.mod_1_r. Qed.

Lemma tail_update_view m pi tail :
  apply_events m (tail_update_events pi tail) = write_int 8 (pi + pi_log_tail) tail m.
Proof.
  unfold tail_update_events. rewrite !apply_events_cons.
  rewrite apply_events_no_store; [done|]. rewrite app_assoc.
  apply Forall_app. split; apply (flush_fence_no_store _ _ _ true).
Qed.

(** C3: creating an inode is failure atomic.  Run from a mounted file system
    whose journals are idle, [nova_lite_transaction_for_new_inode] returns;
    whatever instant of it the power fails at and whichever stores still in
    the caches survive, mounting afterwards (which replays the journal) shows,
    outside the journal area, the memory as it was or the memory in which the
    directory has its new log tail and the new inode is valid.  Once the call
    has returned, it is the latter. *)
Theorem new_inode_crash_atomic cpu jb k pi pidir inode dir u s :
  metadata_csum cfg = false → ready cfg (view s) cpu jb k →
  inode_ok (journal_area cfg jb) inode pi → inode_ok (journal_area cfg jb) dir pidir →
  crash_atomic cfg jb (nova_lite_transaction_for_new_inode cpu pi pidir inode dir u) s
    (with_tails dir u)
    (write_int 1 (pi + pi_valid) 1 (write_int 8 (pidir + pi_log_tail) (u_tail u) (view s))).
Proof.
  intros Hm Hrd Hi Hd.
  pose proof (protocol_atomic cfg [pi + pi_valid; pidir + pi_log_tail] cpu jb k
    (λ _, dir ← nova_update_inode dir pidir u false; store 1 (pi + pi_valid) 1;;
          nova_update_inode_checksum pi;; mret dir)
    (with_tails dir u) (new_inode_events pi pidir u) s) as Hp.
  unfold new_inode_events in Hp. rewrite apply_events_app, tail_update_view in Hp.
  rewrite apply_events_cons, apply_events_no_store in Hp
    by apply (flush_fence_no_store _ _ _ true).
  pose proof Hi as [_ _ Hai _ _]. pose proof Hd as [_ _ Had _ _].
  eapply crash_atomic_ext; [|apply Hp]; clear Hp.
  - unfold nova_lite_transaction_for_new_inode. rewrite Hm.
    etrans; [apply bind_congr; [by apply create_inode_is_transaction|reflexivity]|].
    unfold inode_fields. rewrite (nova_get_inode_ok _ _ _ Hi), (nova_get_inode_ok _ _ _ Hd).
    bind_norm.
  - done.
  - simpl. lia.
  - repeat constructor; (eapply inode_field_ok; [done|]); unfold pi_valid, pi_log_tail; lia.
  - intros _ s1 _. erewrite bind_Ok; [|by apply nova_update_inode_eq].
    erewrite bind_Ok; [|apply store_eq].
    erewrite bind_Ok; [|by apply nova_update_inode_checksum_eq].
    by rewrite !log_state_app.
  - events_in; [by apply tail_update_stores; [|set_solver]|].
    eapply (store_in_word _ pi pi_valid pi_valid); unfold pi_valid, align8; try done. set_solver.
  - events_ok; [by apply tail_update_ok|apply valid_store_ok].
  - intros l. apply unflushed_app.
    + apply (tail_update_flushed l pidir (u_tail u) []); [done|apply stores_in_nil|done].
    + rewrite app_comm_cons.
      apply (unflushed_covered l [EStore false (pi + pi_valid) (bytes_of 1 1)]); [lia|..];
        [|by events_ok; apply valid_store_ok|by repeat constructor].
      unfold pi_valid. solve_stores.
Qed.

Definition invalidated (pi epoch_id : Z) (invalidate : bool) (m : mem) : mem :=
  if invalidate then write_int 8 (pi + pi_delete_epoch_id) epoch_id (write_int 1 (pi + pi_valid) 0 m)
  else m.

Lemma invalidate_view pi e b m : apply_events m (invalidate_events pi e b) = invalidated pi e b m.
Proof. by destruct b. Qed.

Lemma invalidate_ok pi e b : pi mod 8 = 0 → Forall ev_ok (invalidate_events pi e b).
Proof.
  intros Hm. destruct b; simpl; events_ok; [apply valid_store_ok|].
  apply ev_ok_aligned; [lia|by exists 8|].
  apply aligned_off; [done|by exists 1|by exists 13|lia].
Qed.

Lemma invalidate_stores pi e b fs :
  pi mod 8 = 0 → (b = true → pi + pi_valid ∈ fs ∧ pi + pi_delete_epoch_id ∈ fs) →
  stores_in (in_words fs) (invalidate_events pi e b).
Proof.
  intros Hm Hf. destruct b; simpl; events_in; destruct (Hf eq_refl).
  - by eapply (store_in_word _ pi pi_valid pi_valid).
  - by eapply (store_in_word _ pi pi_delete_epoch_id pi_delete_epoch_id).
Qed.

Lemma invalidate_in_inode pi e b : stores_in (in_range pi 120) (invalidate_events pi e b).
Proof. unfold invalidate_events, pi_valid, pi_delete_epoch_id. destruct b; solve_stores. Qed.

(** C18: changing an inode's link count, or removing it ([invalidate]),
    together with the update of its directory is failure atomic: a power
    failure anywhere inside [nova_lite_transaction_for_time_and_link] mounts
    to the memory before it or to the one with both log tails (and, when
    invalidating, the cleared [valid] byte and the deletion epoch) in place;
    after the call it is the latter. *)
Theorem time_and_link_crash_atomic cpu jb k pi pidir inode dir u ud invalidate epoch_id s :
  metadata_csum cfg = false → ready cfg (view s) cpu jb k →
  inode_ok (journal_area cfg jb) inode pi → inode_ok (journal_area cfg jb) dir pidir →
  crash_atomic cfg jb
    (nova_lite_transaction_for_time_and_link cpu pi pidir inode dir u ud invalidate epoch_id) s
    (with_tails inode u, with_tails dir ud)
    (write_int 8 (pidir + pi_log_tail) (u_tail ud)
       (write_int 8 (pi + pi_log_tail) (u_tail u) (invalidated pi epoch_id invalidate (view s)))).
Proof.
  intros Hm Hrd Hi Hd.
  set (fs := inode_fields cfg inode false invalidate false ++
             inode_fields cfg dir false invalidate true).
  pose proof (protocol_atomic cfg fs cpu jb k
    (λ _, when invalidate
            (store 1 (pi + pi_valid) 0;; store 8 (pi + pi_delete_epoch_id) epoch_id);;
          inode ← nova_update_inode inode pi u false;
          dir ← nova_update_inode dir pidir ud false; mret (inode, dir))
    (with_tails inode u, with_tails dir ud)
    (time_and_link_events pi pidir u ud invalidate epoch_id) s) as Hp.
  unfold time_and_link_events in Hp.
  rewrite !apply_events_app, !tail_update_view, invalidate_view in Hp.
  pose proof Hi as [_ _ Hai _ _]. pose proof Hd as [_ _ Had _ _].
  assert (Hfs : fs = (pi + pi_log_tail) ::
    (if invalidate then [pi + pi_valid; pi + pi_delete_epoch_id] else []) ++ [pidir + pi_log_tail]).
  { unfold fs, inode_fields. by rewrite (nova_get_inode_ok _ _ _ Hi), (nova_get_inode_ok _ _ _ Hd). }
  eapply crash_atomic_ext; [|apply Hp]; clear Hp.
  - unfold nova_lite_transaction_for_time_and_link. rewrite Hm.
    etrans; [apply bind_congr; [by apply create_inode_is_transaction|reflexivity]|].
    bind_norm.
  - done.
  - rewrite Hfs. destruct invalidate; simpl; lia.
  - rewrite Hfs. destruct invalidate; repeat constructor; (eapply inode_field_ok; [done|]);
      unfold pi_valid, pi_log_tail, pi_delete_epoch_id; lia.
  - intros _ s1 _.
    rewrite (bind_Ok _ _ _ () (log_state s1 (invalidate_events pi epoch_id invalidate)));
      [|destruct invalidate; [|by simpl; rewrite log_state_nil];
        unfold when; by erewrite bind_Ok; [|apply store_eq]; rewrite store_eq, log_state_app].
    erewrite bind_Ok; [|by apply nova_update_inode_eq].
    erewrite bind_Ok; [|by apply nova_update_inode_eq].
    by rewrite !log_state_app, <- app_assoc.
  - rewrite Hfs. events_in.
    + apply invalidate_stores; [done|]. destruct invalidate; [set_solver|done].
    + apply tail_update_stores; [done|set_solver].
    + apply tail_update_stores; [done|set_solver].
  - events_ok; auto using invalidate_ok, tail_update_ok.
  - intros l. apply unflushed_app.
    + apply tail_update_flushed; auto using invalidate_ok, invalidate_in_inode.
    + apply (tail_update_flushed l pidir (u_tail ud) []); [done|apply stores_in_nil|done].
Qed.
End Inode.

(** ** Witnesses: block 60 holds the inode at its start, its directory 128
    bytes further. *)
Module InodeDemo.
#[local] Existing Instance bytewise_copy.
#[local] Instance crc : Crc := bitwise_crc true.
Import Demo.

Definition pi : Z := 4096 * 60.
Definition pidir : Z := 4096 * 60 + 128.
Definition inode : inode_hdr := InodeHdr pi 0 0 0.
Definition dir : inode_hdr := InodeHdr pidir 0 0 0.

Lemma inode_demo : inode_ok cfg (journal_area cfg jb) inode pi.
Proof.
  split; [done|done|done|unfold pi; lia|]. intros x. apply not_journal. unfold pi; lia.
Qed.
Lemma dir_demo : inode_ok cfg (journal_area cfg jb) dir pidir.
Proof.
  split; [done|done|done|unfold pidir; lia|]. intros x. apply not_journal. unfold pidir; lia.
Qed.

Lemma new_inode_crash_atomic_witness :
  crash_atomic cfg jb
    (nova_lite_transaction_for_new_inode cfg 0 pi pidir inode dir (InodeUpdate 245760 0)) start
    (with_tails dir (InodeUpdate 245760 0))
    (write_int 1 (pi + pi_valid) 1 (write_int 8 (pidir + pi_log_tail) 245760 disk)).
Proof.
  apply (new_inode_crash_atomic cfg 0 jb 0 pi pidir inode dir (InodeUpdate 245760 0) start).
  - reflexivity.
  - apply disk_ready.
  - apply inode_demo.
  - apply dir_demo.
Defined.

Lemma time_and_link_crash_atomic_witness :
  crash_atomic cfg jb
    (nova_lite_transaction_for_time_and_link cfg 0 pi pidir inode dir
       (InodeUpdate 245760 0) (InodeUpdate 249856 0) true 7) start
    (with_tails inode (InodeUpdate 245760 0), with_tails dir (InodeUpdate 249856 0))
    (write_int 8 (pidir + pi_log_tail) 249856
       (write_int 8 (pi + pi_log_tail) 245760 (invalidated pi 7 true disk))).
Proof.
  apply (time_and_link_crash_atomic cfg 0 jb 0 pi pidir inode dir (InodeUpdate 245760 0)
           (InodeUpdate 249856 0) true 7 start).
  - reflexivity.
  - apply disk_ready.
  - apply inode_demo.
  - apply dir_demo.
Defined.
End InodeDemo.
