(* ===== verification/NovaLogEntry.v ===== *)
(** * NOVA: log entries

    The entries of an inode's log: their layouts ([log.h]), the page tail
    ([nova.h]), their checksum ([checksum.c]) and the in-place operations of
    [log.c]: filling an entry, invalidating or reassigning one, and the
    journalled in-place update. *)

From stdpp Require Import base list gmap.
From Stdlib Require Import ZArith Lia.
From coqutil Require Import Byte Word.LittleEndianList.
From S2P Require Import Prelude PMem NovaBase NovaJournal NovaJournalCrash NovaInode.

Local Open Scope Z_scope.

(** ** [log.h]: layouts *)

Definition PAGE_OFFSET_MASK : Z := 4095.
Definition BLOCK_OFF (p : Z) : Z := Z.land p (Z.lnot PAGE_OFFSET_MASK).
Definition ENTRY_LOC (p : Z) : Z := Z.land p PAGE_OFFSET_MASK.
Definition LOG_BLOCK_TAIL : Z := 4064.

(** [struct nova_inode_page_tail], by offset from the page. *)
Definition pt_invalid_entries : Z := LOG_BLOCK_TAIL.
Definition pt_num_entries : Z := LOG_BLOCK_TAIL + 4.
Definition pt_alter_page : Z := LOG_BLOCK_TAIL + 16.
Definition pt_next_page : Z := LOG_BLOCK_TAIL + 24.
Definition sizeof_page_tail : Z := 32.

(** [enum nova_entry_type] as the byte stored in an entry. *)
Definition type_code (t : nova_entry_type) : Z :=
  match t with
  | FILE_WRITE => 1 | DIR_LOG => 2 | SET_ATTR => 3 | LINK_CHANGE => 4
  | MMAP_WRITE => 5 | SNAPSHOT_INFO => 6 | NEXT_PAGE => 7
  end.
Definition type_of_code (c : Z) : option nova_entry_type :=
  if c =? 1 then Some FILE_WRITE else if c =? 2 then Some DIR_LOG
  else if c =? 3 then Some SET_ATTR else if c =? 4 then Some LINK_CHANGE
  else if c =? 5 then Some MMAP_WRITE else if c =? 6 then Some SNAPSHOT_INFO
  else if c =? 7 then Some NEXT_PAGE else None.

(** [struct nova_file_write_entry]. *)
Definition fw_reassigned : Z := 1.
Definition fw_updating : Z := 2.
Definition fw_num_pages : Z := 4.
Definition fw_invalid_pages : Z := 24.
Definition fw_mtime : Z := 28.
Definition fw_size : Z := 32.
Definition fw_epoch_id : Z := 40.
Definition fw_trans_id : Z := 48.
Definition fw_csum : Z := 60.
(** [struct nova_dentry] (its other fields are in [NovaJournal]). *)
Definition de_name_len : Z := 1.
Definition de_de_len : Z := 4.
Definition de_links_count : Z := 6.
Definition de_mtime : Z := 8.
Definition de_epoch_id : Z := 32.
Definition de_trans_id : Z := 40.
Definition de_name : Z := 48.
(** [struct nova_setattr_logentry]. *)
Definition se_invalid : Z := 48.
Definition se_csum : Z := 52.
(** [struct nova_link_change_entry]. *)
Definition lc_invalid : Z := 1.
Definition lc_csum : Z := 36.
(** [struct nova_mmap_entry] and [struct nova_snapshot_info_entry]. *)
Definition mm_invalid : Z := 1.
Definition sn_deleted : Z := 1.

(** Offset of the checksum of an entry. *)
Definition csum_off (t : nova_entry_type) : Z :=
  match t with
  | FILE_WRITE => fw_csum | DIR_LOG => de_csum | SET_ATTR => se_csum
  | LINK_CHANGE | MMAP_WRITE | SNAPSHOT_INFO => lc_csum | NEXT_PAGE => 0
  end.

Definition NOVA_INIT_CSUM : Z := 1.
Definition NOVA_META_CSUM_LEN : Z := 4.

(** ** DRAM structures *)

(** The fields of [struct inode] the entries record. *)
Record vfs_inode := VfsInode {
  i_mode : Z; i_uid : Z; i_gid : Z; i_size : Z; i_atime : Z; i_mtime : Z; i_ctime : Z;
  i_nlink : Z; i_generation : Z; i_flags : Z
}.

(** [struct nova_log_entry_info].  [ei_data] holds the bytes [data] points to
    (an entry prepared in DRAM, or the name of a dentry). *)
Record nova_log_entry_info := EntryInfo {
  ei_type : nova_entry_type;
  ei_ia_valid : Z; ei_ia_size : Z;         (* attr->ia_valid, attr->ia_size *)
  ei_data : list byte;
  ei_epoch_id : Z; ei_trans_id : Z; ei_file_size : Z; ei_ino : Z; ei_time : Z;
  ei_link_change : Z;
  ei_inplace : bool
}.

Definition ATTR_SIZE : Z := 8.
(** [ATTR_MODE | ATTR_UID | ATTR_GID | ATTR_SIZE | ATTR_ATIME | ATTR_MTIME | ATTR_CTIME] *)
Definition attr_mask : Z := 127.

Section Entry.
Context `{Crc} `{NocacheCopy}.
Variable cfg : nova_cfg.

(** *** [nova.h]: page tails *)

(** Flushes the tail of the page at [page], without a fence. *)
Definition flush_page_tail (page : Z) (fence : bool) : PM () :=
  nova_flush_buffer cfg (page + LOG_BLOCK_TAIL) sizeof_page_tail fence.

Definition next_log_page (curr : Z) : PM Z :=
  let page := nova_get_block (BLOCK_OFF curr) in
  let rc := mcsafe_rc cfg ((λ p, p + pt_next_page) <$> page) 8 in
  if negb (rc =? 0) then mret (u64 rc) else
  p ← deref page;
  fetch 8 (p + pt_next_page).

Definition alter_log_page (curr : Z) : PM Z :=
  if negb (metadata_csum cfg) then mret 0 else
  let page := nova_get_block (BLOCK_OFF curr) in
  let rc := mcsafe_rc cfg ((λ p, p + pt_alter_page) <$> page) 8 in
  if negb (rc =? 0) then mret (u64 rc) else
  p ← deref page;
  fetch 8 (p + pt_alter_page).

Definition alter_log_entry (curr_p : Z) : PM Z :=
  if negb (metadata_csum cfg) then mret 0 else
  p ← deref (nova_get_block curr_p);
  alter_page ← fetch 8 (BLOCK_OFF p + pt_alter_page);
  mret (u64 (alter_page + ENTRY_LOC curr_p)).

Definition nova_set_next_page_flag (curr_p : Z) : PM () :=
  if ENTRY_LOC curr_p >=? LOG_BLOCK_TAIL then mret () else
  p ← deref (nova_get_block curr_p);
  store 1 p (type_code NEXT_PAGE);;
  nova_flush_buffer cfg p CACHELINE_SIZE true.

Definition nova_set_next_page_address (curr_page next_page : Z) (fence : bool) : PM () :=
  store 8 (curr_page + pt_next_page) next_page;;
  flush_page_tail curr_page false;;
  when fence PERSISTENT_BARRIER.

Definition nova_set_page_num_entries (curr_page num : Z) (flush : bool) : PM () :=
  store 4 (curr_page + pt_num_entries) num;;
  when flush (flush_page_tail curr_page false).

Definition nova_set_page_invalid_entries (curr_page num : Z) (flush : bool) : PM () :=
  store 4 (curr_page + pt_invalid_entries) num;;
  when flush (flush_page_tail curr_page false).

Definition nova_inc_page_num_entries (curr : Z) : PM () :=
  p ← deref (nova_get_block (BLOCK_OFF curr));
  n ← fetch 4 (p + pt_num_entries);
  store 4 (p + pt_num_entries) (n + 1);;
  flush_page_tail p false.

Definition nova_inc_page_invalid_entries (curr : Z) : PM () :=
  p ← deref (nova_get_block (BLOCK_OFF curr));
  n ← fetch 4 (p + pt_invalid_entries);
  store 4 (p + pt_invalid_entries) (n + 1);;
  flush_page_tail p false.

Definition nova_set_alter_page_address (curr alter_curr : Z) : PM () :=
  if negb (metadata_csum cfg) then mret () else
  curr_page ← deref (nova_get_block (BLOCK_OFF curr));
  alter_page ← deref (nova_get_block (BLOCK_OFF alter_curr));
  store 8 (curr_page + pt_alter_page) alter_curr;;
  flush_page_tail curr_page false;;
  store 8 (alter_page + pt_alter_page) curr;;
  flush_page_tail alter_page true.

Definition is_last_entry (curr_p size : Z) : bool :=
  u32 (ENTRY_LOC curr_p + size) >? LOG_BLOCK_TAIL.

Definition goto_next_page (curr_p : Z) : PM bool :=
  if ENTRY_LOC curr_p + 32 >? LOG_BLOCK_TAIL then mret true else
  let addr := nova_get_block curr_p in
  if mcsafe_rc cfg addr 1 <? 0 then mret true else
  p ← deref addr;
  type ← fetch 1 p;
  mret (type =? type_code NEXT_PAGE).

(** *** [checksum.c]: entry checksums *)

Definition nova_get_entry_type (p : Z) : PM Z :=
  let rc := mcsafe_rc cfg (Some p) 1 in
  if negb (rc =? 0) then mret (u8 rc) else fetch 1 p.

(** The length of an entry of type [t]; a dentry stores its own. *)
Definition entry_len (t : nova_entry_type) (entry : Z) : PM Z :=
  match t with
  | DIR_LOG => fetch 2 (entry + de_de_len)
  | NEXT_PAGE => mret 0
  | t => mret (nova_get_log_entry_size t)
  end.

Definition nova_calc_entry_csum (entry : Z) : PM Z :=
  type ← nova_get_entry_type entry;
  match type_of_code type with
  | None | Some NEXT_PAGE => mret 0
  | Some t =>
      len ← entry_len t entry;
      if len >? 0 then
        let check_len := csum_off t in
        csum ← gets (λ s, nova_crc32c NOVA_INIT_CSUM
                            (read_bytes (view s) entry (Z.to_nat check_len)));
        let rest := u64 (len - (check_len + NOVA_META_CSUM_LEN)) in
        if rest >? 0 then
          gets (λ s, nova_crc32c csum
                  (read_bytes (view s) (entry + csum_off t + NOVA_META_CSUM_LEN) (Z.to_nat rest)))
        else mret csum
      else mret 0
  end.

Definition nova_update_entry_csum (entry : Z) : PM () :=
  len ← (if negb (metadata_csum cfg) then mret CACHELINE_SIZE else
         type ← nova_get_entry_type entry;
         csum ← nova_calc_entry_csum entry;
         match type_of_code type with
         | None | Some NEXT_PAGE => mret 0
         | Some t => store 4 (entry + csum_off t) csum;; entry_len t entry
         end);
  when (len >? 0) (nova_flush_buffer cfg entry len true).

(** *** [log.c]: filling an entry *)

(** Stores fields [(offset, width, value)] of the entry, in order. *)
Fixpoint store_fields (entry : Z) (fs : list (Z * nat * Z)) : PM () :=
  match fs with
  | [] => mret ()
  | (o, n, v) :: fs => store n (entry + o) v;; store_fields entry fs
  end.

Definition setattr_fields (inode : vfs_inode) (info : nova_log_entry_info) : list (Z * nat * Z) :=
  [(0, 1%nat, type_code SET_ATTR);
   (1, 1%nat, Z.land (ei_ia_valid info) attr_mask);
   (2, 2%nat, i_mode inode);
   (4, 4%nat, i_uid inode);
   (8, 4%nat, i_gid inode);
   (12, 4%nat, i_atime inode);
   (20, 4%nat, i_ctime inode);
   (16, 4%nat, i_mtime inode);
   (32, 8%nat, ei_epoch_id info);
   (40, 8%nat, ei_trans_id info);
   (se_invalid, 1%nat, 0);
   (24, 8%nat, if Z.land (ei_ia_valid info) ATTR_SIZE =? 0 then i_size inode else ei_ia_size info)].

Definition nova_update_setattr_entry (inode : vfs_inode) (entry : Z)
    (info : nova_log_entry_info) : PM () :=
  store_fields entry (setattr_fields inode info);;
  nova_update_entry_csum entry.

Definition link_change_fields (inode : vfs_inode) (info : nova_log_entry_info) : list (Z * nat * Z) :=
  [(0, 1%nat, type_code LINK_CHANGE);
   (16, 8%nat, ei_epoch_id info);
   (24, 8%nat, ei_trans_id info);
   (lc_invalid, 1%nat, 0);
   (2, 2%nat, i_nlink inode);
   (4, 4%nat, i_ctime inode);
   (8, 4%nat, i_flags inode);
   (12, 4%nat, i_generation inode)].

Definition nova_update_link_change_entry (inode : vfs_inode) (entry : Z)
    (info : nova_log_entry_info) : PM () :=
  store_fields entry (link_change_fields inode info);;
  nova_update_entry_csum entry.

Definition write_entry_fields (info : nova_log_entry_info) : list (Z * nat * Z) :=
  [(fw_epoch_id, 8%nat, ei_epoch_id info);
   (fw_trans_id, 8%nat, ei_trans_id info);
   (fw_mtime, 4%nat, ei_time info);
   (fw_size, 8%nat, ei_file_size info);
   (fw_updating, 1%nat, 0)].

Definition nova_update_write_entry (entry : Z) (info : nova_log_entry_info) : PM Z :=
  store_fields entry (write_entry_fields info);;
  nova_update_entry_csum entry;;
  mret 0.

(** [unsigned short links_count] after the change. *)
Definition new_links (dir : vfs_inode) (info : nova_log_entry_info) : Z :=
  let links_count := u16 (i_nlink dir) in
  if (links_count =? 0) && (ei_link_change info =? -1) then 0
  else u16 (links_count + ei_link_change info).

Definition nova_update_old_dentry (dir : vfs_inode) (dentry : Z)
    (info : nova_log_entry_info) : PM Z :=
  store_fields dentry
    [(de_epoch_id, 8%nat, ei_epoch_id info);
     (de_trans_id, 8%nat, ei_trans_id info);
     (de_ino, 8%nat, 0);
     (de_invalid, 1%nat, 1);
     (de_mtime, 4%nat, i_mtime dir);
     (de_links_count, 2%nat, new_links dir info)];;
  nova_inc_page_invalid_entries (nova_get_addr_off dentry);;
  nova_update_entry_csum dentry;;
  mret 0.

(** A non-temporal copy of bytes in DRAM to persistent memory. *)
Definition copy_to_pmem (dst : Z) (bs : list byte) : PM () :=
  emits (nocache_events dst bs);;
  nova_flush_buffer cfg dst (Z.of_nat (length bs)) true.

Definition nova_update_new_dentry (dir : vfs_inode) (entry : Z)
    (info : nova_log_entry_info) : PM Z :=
  let name := ei_data info in
  let len := Z.of_nat (length name) in
  store_fields entry
    [(0, 1%nat, type_code DIR_LOG);
     (de_epoch_id, 8%nat, ei_epoch_id info);
     (de_trans_id, 8%nat, ei_trans_id info);
     (de_ino, 8%nat, ei_ino info);
     (de_name_len, 1%nat, len)];;
  copy_to_pmem (entry + de_name) name;;
  store_fields entry
    [(de_name + len, 1%nat, 0);
     (de_mtime, 4%nat, i_mtime dir);
     (de_links_count, 2%nat, new_links dir info);
     (de_de_len, 2%nat, ei_file_size info)];;
  nova_update_entry_csum entry;;
  mret 0.

Definition nova_update_log_entry (inode : vfs_inode) (entry : Z)
    (info : nova_log_entry_info) : PM Z :=
  match ei_type info with
  | FILE_WRITE =>
      if ei_inplace info then nova_update_write_entry entry info
      else copy_to_pmem entry (ei_data info);; mret 0
  | DIR_LOG =>
      if ei_inplace info then nova_update_old_dentry inode entry info
      else nova_update_new_dentry inode entry info
  | SET_ATTR => nova_update_setattr_entry inode entry info;; mret 0
  | LINK_CHANGE => nova_update_link_change_entry inode entry info;; mret 0
  | MMAP_WRITE | SNAPSHOT_INFO => copy_to_pmem entry (ei_data info);; mret 0
  | NEXT_PAGE => mret 0
  end.

(** *** [checksum.c]: the replica of an entry *)

(** What [nova_get_entry_copy] writes through its pointers. *)
Record entry_copy := EntryCopy { ec_csum : Z; ec_size : Z; ec_bytes : list byte }.

Definition NOVA_DENTRY_HEADER_LEN : Z := 48.
Definition NOVA_MAX_ENTRY_LEN : Z := 304.

Definition bytes_at (p n : Z) : PM (list byte) := gets (λ s, read_bytes (view s) p (Z.to_nat n)).

(** [out] is what the outputs hold beforehand; the paths that leave them
    alone return it. *)
Definition nova_get_entry_copy (entry : Z) (out : entry_copy) : PM (Z * entry_copy) :=
  let ret := mcsafe_rc cfg (Some entry) 1 in
  if ret <? 0 then mret (ret, out) else
  type ← fetch 1 entry;
  match type_of_code type with
  | None | Some NEXT_PAGE => mret (- EINVAL, EntryCopy 0 0 (ec_bytes out))
  | Some DIR_LOG =>
      let ret := mcsafe_rc cfg (Some entry) NOVA_DENTRY_HEADER_LEN in
      de_len ← fetch 2 (entry + de_de_len);
      if (ret <? 0) || (de_len >? NOVA_MAX_ENTRY_LEN) then mret (ret, out) else
      let ret := mcsafe_rc cfg (Some (entry + NOVA_DENTRY_HEADER_LEN))
                   (u64 (de_len - NOVA_DENTRY_HEADER_LEN)) in
      if ret <? 0 then mret (ret, EntryCopy (ec_csum out) de_len (ec_bytes out)) else
      bs ← bytes_at entry de_len;
      csum ← fetch 4 (entry + de_csum);
      mret (ret, EntryCopy csum de_len bs)
  | Some t =>
      let size := nova_get_log_entry_size t in
      let ret := mcsafe_rc cfg (Some entry) size in
      if ret <? 0 then mret (ret, EntryCopy (ec_csum out) size (ec_bytes out)) else
      bs ← bytes_at entry size;
      csum ← fetch 4 (entry + csum_off t);
      mret (ret, EntryCopy csum size bs)
  end.

(** [uninit]: the locals of the function before they are assigned. *)
Definition nova_update_alter_entry (uninit : entry_copy) (entry : Z) : PM Z :=
  if negb (metadata_csum cfg) then mret 0 else
  alter_curr ← alter_log_entry (nova_get_addr_off entry);
  if alter_curr =? 0 then mret (- EIO) else
  alter_entry ← deref (nova_get_block alter_curr);
  '(ret, c) ← nova_get_entry_copy entry uninit;
  if negb (ret =? 0) then mret ret else
  copy_to_pmem alter_entry (take (Z.to_nat (ec_size c)) (ec_bytes c));;
  mret 0.

(** *** [log.c]: invalidation *)

Definition nova_execute_invalidate_reassign_logentry (entry : Z) (type : nova_entry_type)
    (reassign : bool) (num_free : Z) : PM Z :=
  invalid ←
    match type with
    | FILE_WRITE =>
        when reassign (store 1 (entry + fw_reassigned) 1);;
        when (negb (num_free =? 0))
          (n ← fetch 4 (entry + fw_invalid_pages);
           store 4 (entry + fw_invalid_pages) (n + num_free));;
        invalid_pages ← fetch 4 (entry + fw_invalid_pages);
        num_pages ← fetch 4 (entry + fw_num_pages);
        mret (invalid_pages =? num_pages)
    | DIR_LOG =>
        if reassign then store 1 (entry + de_reassigned) 1;; mret false
        else store 1 (entry + de_invalid) 1;; mret true
    | SET_ATTR => store 1 (entry + se_invalid) 1;; mret true
    | LINK_CHANGE => store 1 (entry + lc_invalid) 1;; mret true
    | MMAP_WRITE => store 1 (entry + mm_invalid) 1;; mret true
    | SNAPSHOT_INFO => store 1 (entry + sn_deleted) 1;; mret true
    | NEXT_PAGE => mret false
    end;
  when invalid (nova_inc_page_invalid_entries (nova_get_addr_off entry));;
  nova_update_entry_csum entry;;
  mret 0.

Definition nova_invalidate_reassign_logentry (uninit : entry_copy) (entry : Z)
    (type : nova_entry_type) (reassign : bool) (num_free : Z) : PM Z :=
  nova_execute_invalidate_reassign_logentry entry type reassign num_free;;
  nova_update_alter_entry uninit entry;;
  mret 0.

Definition nova_invalidate_logentry (uninit : entry_copy) (entry : Z)
    (type : nova_entry_type) (num_free : Z) : PM Z :=
  nova_invalidate_reassign_logentry uninit entry type false num_free.

Definition nova_reassign_logentry (uninit : entry_copy) (entry : Z)
    (type : nova_entry_type) : PM Z :=
  nova_invalidate_reassign_logentry uninit entry type true 0.

Definition nova_set_write_entry_updating (uninit : entry_copy) (entry : Z) (set : bool) : PM Z :=
  store 1 (entry + fw_updating) (if set then 1 else 0);;
  nova_update_entry_csum entry;;
  nova_update_alter_entry uninit entry;;
  mret 0.

(** *** [log.c]: the journalled in-place update *)

Definition nova_inplace_update_log_entry (uninit : entry_copy) (cpu : Z) (inode : vfs_inode)
    (entry : Z) (info : nova_log_entry_info) : PM Z :=
  if metadata_csum cfg then
    nova_update_log_entry inode entry info;;
    nova_update_alter_entry uninit entry;;
    mret 0
  else
    journal_tail ← nova_create_logentry_transaction cfg entry (ei_type info) cpu;
    nova_update_log_entry inode entry info;;
    PERSISTENT_BARRIER;;
    nova_commit_lite_transaction cfg journal_tail cpu;;
    mret 0.

(** *** The stores of a field list *)

Definition field_events (entry : Z) (fs : list (Z * nat * Z)) : list event :=
  (λ '(o, n, v), EStore false (entry + o) (bytes_of n v)) <$> fs.
Definition write_fields (entry : Z) (fs : list (Z * nat * Z)) (m : mem) : mem :=
  foldl (λ m '(o, n, v), write_int n (entry + o) v m) m fs.

Lemma store_fields_eq entry fs s :
  store_fields entry fs s = Ok ((), log_state s (field_events entry fs)).
Proof.
  revert s. induction fs as [|[[o n] v] fs IH]; intros s; simpl; [by rewrite log_state_nil|].
  erewrite bind_Ok; [|apply store_eq]. by rewrite IH, log_state_app.
Qed.

Lemma field_events_view entry fs m : apply_events m (field_events entry fs) = write_fields entry fs m.
Proof.
  unfold apply_events, write_fields, field_events.
  revert m. induction fs as [|[[o n] v] fs IH]; intros m; [done|]. simpl. apply IH.
Qed.

(** Each field is naturally aligned and inside the first [size] bytes. *)
Definition fields_ok (size : Z) (fs : list (Z * nat * Z)) : bool :=
  forallb (λ '(o, n, _), (0 <? Z.of_nat n) && (8 mod Z.of_nat n =? 0) && (o mod Z.of_nat n =? 0)
                         && (0 <=? o) && (o + Z.of_nat n <=? size)) fs.

Lemma fields_ok_inv size fs o n v :
  fields_ok size fs = true → (o, n, v) ∈ fs →
  0 < Z.of_nat n ∧ (Z.of_nat n | 8) ∧ (Z.of_nat n | o) ∧ 0 <= o ∧ o + Z.of_nat n <= size.
Proof.
  intros Hf Hin. unfold fields_ok in Hf. rewrite forallb_forall in Hf.
  specialize (Hf _ (proj1 (list_elem_of_In _ _) Hin)). simpl in Hf.
  rewrite !andb_true_iff in Hf. destruct Hf as ((((H1 & H2) & H3) & H4) & H5).
  apply Z.ltb_lt in H1. apply Z.eqb_eq in H2, H3. apply Z.leb_le in H4, H5.
  split_and!; try done; apply Z.mod_divide; lia.
Qed.

Lemma field_events_ok size entry fs :
  entry mod 8 = 0 → fields_ok size fs = true → Forall ev_ok (field_events entry fs).
Proof.
  intros Hm Hf. unfold field_events. apply Forall_fmap, Forall_forall.
  intros [[o n] v] Hin. destruct (fields_ok_inv _ _ _ _ _ Hf Hin) as (H1 & H2 & H3 & _).
  change (ev_ok (EStore false (entry + o) (bytes_of n v))).
  apply ev_ok_aligned; [lia| |by apply aligned_off].
  etrans; [exact H2|]. by exists 8.
Qed.

Lemma field_events_in size entry fs :
  fields_ok size fs = true → stores_in (in_range entry size) (field_events entry fs).
Proof.
  intros Hf nt a bs x Hin Hx. apply list_elem_of_fmap in Hin as ([[o n] v] & E & Hin).
  injection E as -> -> ->. destruct (fields_ok_inv _ _ _ _ _ Hf Hin) as (_ & _ & _ & ? & ?).
  rewrite length_bytes_of in Hx. unfold in_range in *. lia.
Qed.

(** A logged entry: every byte of its words is covered. *)
Lemma in_logentry entry type x :
  entry mod 8 = 0 → in_range entry (8 * (nova_get_log_entry_size type / 8)) x →
  in_words (logentry_fields entry type) x.
Proof.
  intros Hm Hx. unfold in_range in Hx.
  pose proof (Z.div_mod (x - entry) 8 ltac:(lia)). pose proof (Z.mod_pos_bound (x - entry) 8 ltac:(lia)).
  set (k := (x - entry) / 8) in *.
  assert (0 <= k) by (apply Z.div_pos; lia).
  exists (entry + Z.of_nat (Z.to_nat k) * 8). split.
  - apply list_elem_of_fmap. exists (Z.to_nat k). split; [done|]. apply elem_of_seq. lia.
  - rewrite Z2Nat.id, align8_off by done. unfold align8. rewrite Z.mod_mul by lia.
    unfold in_range. lia.
Qed.

Lemma logentry_fields_ok P entry type :
  entry mod 8 = 0 → 8 <= entry < 2 ^ 64 - 64 →
  (∀ x, in_range entry (nova_get_log_entry_size type) x → ¬ P x) →
  Forall (field_ok P) (logentry_fields entry type).
Proof.
  intros Hm Hb HP. unfold logentry_fields. apply Forall_fmap, Forall_forall.
  intros k [_ Hk]%elem_of_seq. unfold compose, field_ok.
  assert (Hs : 8 * (nova_get_log_entry_size type / 8) <= nova_get_log_entry_size type <= 64)
    by (destruct type; vm_compute; split; discriminate).
  split; [lia|]. rewrite align8_off by done. unfold align8. rewrite Z.mod_mul by lia.
  intros x Hx. apply HP. unfold in_range in *. lia.
Qed.

Lemma nova_update_entry_csum_eq entry s :
  metadata_csum cfg = false →
  nova_update_entry_csum entry s =
  Ok ((), log_state s (flush_events (support_clwb cfg) entry 64 ++ [EFence])).
Proof.
  intros Hm. unfold nova_update_entry_csum. rewrite Hm. simpl.
  erewrite bind_Ok; [|done]. change (CACHELINE_SIZE >? 0) with true. unfold when.
  by rewrite nova_flush_buffer_eq by (unfold CACHELINE_SIZE; lia).
Qed.

(** The fields [nova_update_log_entry] writes in place, per type. *)
Definition inplace_fields (inode : vfs_inode) (info : nova_log_entry_info) :
    option (list (Z * nat * Z)) :=
  match ei_type info with
  | SET_ATTR => Some (setattr_fields inode info)
  | LINK_CHANGE => Some (link_change_fields inode info)
  | FILE_WRITE => if ei_inplace info then Some (write_entry_fields info) else None
  | _ => None
  end.

Lemma inplace_fields_ok inode info fs :
  inplace_fields inode info = Some fs →
  fields_ok (8 * (nova_get_log_entry_size (ei_type info) / 8)) fs = true.
Proof. unfold inplace_fields. repeat case_match; intros; simplify_eq; reflexivity. Qed.

Lemma nova_update_log_entry_eq inode entry info fs s :
  metadata_csum cfg = false → inplace_fields inode info = Some fs →
  nova_update_log_entry inode entry info s =
  Ok (0, log_state s (field_events entry fs ++ flush_events (support_clwb cfg) entry 64 ++ [EFence])).
Proof.
  intros Hm Hf. unfold nova_update_log_entry, inplace_fields in *.
  unfold nova_update_write_entry, nova_update_setattr_entry, nova_update_link_change_entry.
  repeat case_match; simplify_eq; rewrite ?bind_assoc;
    (erewrite bind_Ok; [|apply store_fields_eq]);
    (erewrite bind_Ok; [|by apply nova_update_entry_csum_eq]); by rewrite log_state_app.
Qed.

(** C19: updating a setattr, link-change or write entry of a log in place (not a
    dentry), with metadata checksums off, is failure atomic: a power failure inside [nova_inplace_update_log_entry]
    mounts to the entry as it was or to the entry with all its new fields,
    never to a mix; once it has returned the new fields are durable. *)
Theorem inplace_update_crash_atomic uninit cpu jb k inode entry info fs s :
  metadata_csum cfg = false → ready cfg (view s) cpu jb k →
  entry mod 8 = 0 → 8 <= entry < 2 ^ 64 - 64 →
  (∀ x, in_range entry (nova_get_log_entry_size (ei_type info)) x → ¬ journal_area cfg jb x) →
  inplace_fields inode info = Some fs →
  crash_atomic cfg jb (nova_inplace_update_log_entry uninit cpu inode entry info) s 0
    (write_fields entry fs (view s)).
Proof.
  intros Hm Hrd Ha Hb Hclear Hf.
  pose proof (protocol_atomic cfg (logentry_fields entry (ei_type info)) cpu jb k
    (λ _, nova_update_log_entry inode entry info) 0
    (field_events entry fs ++ flush_events (support_clwb cfg) entry 64 ++ [EFence]) s) as Hp.
  rewrite apply_events_app, field_events_view in Hp.
  rewrite apply_events_no_store in Hp by apply (flush_fence_no_store _ _ _ true).
  pose proof (inplace_fields_ok _ _ _ Hf) as Hok.
  assert (Hs : 8 * (nova_get_log_entry_size (ei_type info) / 8) <= 64)
    by (destruct (ei_type info); vm_compute; discriminate).
  eapply crash_atomic_ext; [|apply Hp]; clear Hp.
  - unfold nova_inplace_update_log_entry. rewrite Hm.
    etrans; [apply bind_congr; [by apply create_logentry_is_transaction|reflexivity]|].
    apply bind_ext; intros t s1.
    by rewrite !(bind_Ok _ _ _ _ _ (nova_update_log_entry_eq _ entry _ _ s1 Hm Hf)).
  - done.
  - unfold logentry_fields. rewrite length_fmap, length_seq. apply Nat.ltb_lt. by destruct (ei_type info).
  - by apply logentry_fields_ok.
  - intros _ s1 _. by apply nova_update_log_entry_eq.
  - events_in. eapply stores_in_mono; [by apply field_events_in|].
    intros x. by apply in_logentry.
  - events_ok. by eapply field_events_ok.
  - intros l. apply unflushed_covered; [lia| | |by repeat constructor].
    + eapply stores_in_mono; [by apply field_events_in|]. unfold in_range. lia.
    + by eapply field_events_ok.
Qed.

(** *** Checksums *)

(** The length of the entry at [entry] in [m]. *)
Definition len_in (m : mem) (t : nova_entry_type) (entry : Z) : Z :=
  match t with
  | DIR_LOG => load 2 m (entry + de_de_len)
  | t => nova_get_log_entry_size t
  end.
(** What [nova_calc_entry_csum] computes: the CRC of the entry without its
    checksum field. *)
Definition csum_in (m : mem) (t : nova_entry_type) (entry : Z) : Z :=
  let crc := nova_crc32c NOVA_INIT_CSUM (read_bytes m entry (Z.to_nat (csum_off t))) in
  let rest := len_in m t entry - (csum_off t + NOVA_META_CSUM_LEN) in
  if rest >? 0 then
    nova_crc32c crc (read_bytes m (entry + csum_off t + NOVA_META_CSUM_LEN) (Z.to_nat rest))
  else crc.

(** A well-formed entry: a known type, and a dentry that covers its header. *)
Record entry_wf (m : mem) (t : nova_entry_type) (entry : Z) : Prop := {
  wf_type : type_of_code (load 1 m entry) = Some t;
  wf_known : t ≠ NEXT_PAGE;
  wf_len : csum_off t + NOVA_META_CSUM_LEN <= len_in m t entry
}.

Lemma len_in_range m t entry : 0 <= len_in m t entry < 2 ^ 16.
Proof. destruct t; simpl; try lia. apply (load_bound 2). Qed.

Lemma csum_off_range t : 0 <= csum_off t.
Proof. destruct t; vm_compute; discriminate. Qed.

Lemma entry_len_eq t entry s :
  t ≠ NEXT_PAGE → entry_len t entry s = Ok (len_in (view s) t entry, s).
Proof. by destruct t. Qed.

Lemma nova_get_entry_type_eq entry s :
  mcsafe_rc cfg (Some entry) 1 = 0 →
  nova_get_entry_type entry s = Ok (load 1 (view s) entry, s).
Proof. intros Hmc. unfold nova_get_entry_type. by rewrite Hmc. Qed.

Lemma nova_calc_entry_csum_eq t entry s :
  mcsafe_rc cfg (Some entry) 1 = 0 → entry_wf (view s) t entry →
  nova_calc_entry_csum entry s = Ok (csum_in (view s) t entry, s).
Proof.
  intros Hmc [Ht Hk Hl]. unfold nova_calc_entry_csum.
  erewrite bind_Ok; [|by apply nova_get_entry_type_eq]. rewrite Ht.
  pose proof (len_in_range (view s) t entry). pose proof (csum_off_range t).
  unfold NOVA_META_CSUM_LEN in *.
  assert (Hgo : (len ← entry_len t entry;
    if len >? 0 then
      csum ← gets (λ s, nova_crc32c NOVA_INIT_CSUM
                          (read_bytes (view s) entry (Z.to_nat (csum_off t))));
      let rest := u64 (len - (csum_off t + 4)) in
      if rest >? 0 then
        gets (λ s, nova_crc32c csum
                (read_bytes (view s) (entry + csum_off t + 4) (Z.to_nat rest)))
      else mret csum
    else mret 0) s = Ok (csum_in (view s) t entry, s)).
  { erewrite bind_Ok; [|by apply entry_len_eq].
    destruct (Z.gtb_spec (len_in (view s) t entry) 0); [|lia].
    erewrite bind_Ok; [|done]. cbv zeta. rewrite wrap_small by lia.
    unfold csum_in, NOVA_META_CSUM_LEN. by destruct (_ >? 0). }
  destruct t; try done; exact Hgo.
Qed.

(** Rewriting the checksum field does not change what is checksummed. *)
Lemma csum_in_update m t entry v :
  entry_wf m t entry →
  let m' := write_int 4 (entry + csum_off t) v m in
  entry_wf m' t entry ∧ csum_in m' t entry = csum_in m t entry.
Proof.
  intros [Ht Hk Hl] m'.
  assert (Hout : ∀ x, ¬ in_range (entry + csum_off t) 4 x → m' !!! x = m !!! x).
  { intros x Hx. apply write_bytes_out. by rewrite length_bytes_of. }
  assert (Hcs : t ≠ NEXT_PAGE → 12 <= csum_off t) by (destruct t; vm_compute; congruence).
  specialize (Hcs Hk).
  assert (Hlen : len_in m' t entry = len_in m t entry).
  { destruct t; try done. apply load_ext. intros x Hx. apply Hout.
    unfold in_range, de_de_len, de_csum, csum_off in *. lia. }
  split; [split|].
  - rewrite <- Ht. f_equal. apply load_ext. intros x Hx. apply Hout. unfold in_range in *. lia.
  - done.
  - by rewrite Hlen.
  - unfold csum_in. rewrite Hlen. unfold NOVA_META_CSUM_LEN.
    rewrite (read_bytes_ext m' m entry);
      [rewrite (read_bytes_ext m' m (entry + csum_off t + 4)); [done|]|];
      intros x Hx; apply Hout; unfold in_range in *; lia.
Qed.

(** C21: a log entry verifies after its checksum is updated: for an entry of
    any known type (a dentry at least as long as its header up to the
    checksum), [nova_update_entry_csum] succeeds and what
    [nova_calc_entry_csum] computes afterwards is the stored checksum. *)
Theorem entry_csum_roundtrip t entry s :
  metadata_csum cfg = true → mcsafe_rc cfg (Some entry) 1 = 0 → entry_wf (view s) t entry →
  ∃ s', nova_update_entry_csum entry s = Ok ((), s') ∧
    nova_calc_entry_csum entry s' = Ok (load 4 (view s') (entry + csum_off t), s').
Proof.
  intros Hm Hmc Hwf. pose proof Hwf as [Ht Hk Hl].
  set (c := csum_in (view s) t entry).
  destruct (csum_in_update (view s) t entry c Hwf) as [Hwf' Hc'].
  pose proof (len_in_range (view s) t entry) as Hlr.
  set (s1 := log_state s [EStore false (entry + csum_off t) (bytes_of 4 c)]).
  assert (Hc : 0 <= c < 2 ^ 32) by (unfold c, csum_in; case_match; apply nova_crc32c_range).
  eexists. split.
  - unfold nova_update_entry_csum. rewrite Hm. simpl. rewrite bind_assoc.
    erewrite bind_Ok; [|by apply nova_get_entry_type_eq]. rewrite bind_assoc.
    erewrite bind_Ok; [|by apply nova_calc_entry_csum_eq]. rewrite Ht.
    transitivity ((len ← entry_len t entry; when (len >? 0) (nova_flush_buffer cfg entry len true)) s1);
      [destruct t; done|].
    erewrite bind_Ok; [|by apply entry_len_eq].
    pose proof (len_in_range (view s1) t entry).
    assert (0 < len_in (view s1) t entry).
    { destruct Hwf' as [_ _ Hl']. unfold NOVA_META_CSUM_LEN in Hl'.
      pose proof (csum_off_range t).
      change (view s1) with (write_int 4 (entry + csum_off t) c (view s)). lia. }
    destruct (Z.gtb_spec (len_in (view s1) t entry) 0); [|lia].
    apply nova_flush_buffer_eq. lia.
  - erewrite (nova_calc_entry_csum_eq t); [|done|];
      cbn [log_state view]; rewrite (apply_events_no_store _ (flush_events _ _ _ ++ _))
        by apply (flush_fence_no_store _ _ _ true); [|exact Hwf'].
    f_equal. f_equal. etrans; [exact Hc'|]. simpl. run_events.
    rewrite load_write_same. symmetry. by apply Z.mod_small.
Qed.

(** *** Invalidation *)

(** The fields an invalidation stores, and whether the entry becomes dead. *)
Definition invalidate_fields (m : mem) (entry : Z) (type : nova_entry_type) (reassign : bool)
    (num_free : Z) : list (Z * nat * Z) :=
  match type with
  | FILE_WRITE =>
      (if reassign then [(fw_reassigned, 1%nat, 1)] else []) ++
      (if num_free =? 0 then []
       else [(fw_invalid_pages, 4%nat, load 4 m (entry + fw_invalid_pages) + num_free)])
  | DIR_LOG => if reassign then [(de_reassigned, 1%nat, 1)] else [(de_invalid, 1%nat, 1)]
  | SET_ATTR => [(se_invalid, 1%nat, 1)]
  | LINK_CHANGE => [(lc_invalid, 1%nat, 1)]
  | MMAP_WRITE => [(mm_invalid, 1%nat, 1)]
  | SNAPSHOT_INFO => [(sn_deleted, 1%nat, 1)]
  | NEXT_PAGE => []
  end.
Definition becomes_dead (m : mem) (entry : Z) (type : nova_entry_type) (reassign : bool)
    (num_free : Z) : bool :=
  match type with
  | FILE_WRITE =>
      u32 (load 4 m (entry + fw_invalid_pages) + num_free) =? load 4 m (entry + fw_num_pages)
  | DIR_LOG => negb reassign
  | NEXT_PAGE => false
  | _ => true
  end.

Lemma invalidate_fields_ok m entry type reassign num_free :
  fields_ok 64 (invalidate_fields m entry type reassign num_free) = true.
Proof. by destruct type, reassign; simpl; try destruct (num_free =? 0). Qed.

Lemma load_write_out n m a b k v :
  (∀ x, in_range a (Z.of_nat n) x → ¬ in_range b (Z.of_nat k) x) →
  load n (write_int k b v m) a = load n m a.
Proof.
  intros Hd. apply load_ext. intros x Hx. apply write_bytes_out. rewrite length_bytes_of. auto.
Qed.

Lemma nova_execute_invalidate_eq entry type reassign num_free s :
  metadata_csum cfg = false → BLOCK_OFF entry ≠ 0 →
  let fs := invalidate_fields (view s) entry type reassign num_free in
  let page := BLOCK_OFF entry in
  let s1 := log_state s (field_events entry fs) in
  nova_execute_invalidate_reassign_logentry entry type reassign num_free s =
  Ok (0, log_state s1
    ((if becomes_dead (view s) entry type reassign num_free
      then EStore false (page + pt_invalid_entries)
             (bytes_of 4 (load 4 (view s1) (page + pt_invalid_entries) + 1)) ::
           flush_events (support_clwb cfg) (page + LOG_BLOCK_TAIL) 32
      else []) ++ flush_events (support_clwb cfg) entry 64 ++ [EFence])).
Proof.
  intros Hm Hpage fs page s1. unfold nova_execute_invalidate_reassign_logentry.
  rewrite (bind_Ok _ _ _ (becomes_dead (view s) entry type reassign num_free) s1).
  - unfold when. destruct (becomes_dead _ _ _ _ _).
    + unfold nova_get_addr_off. fold page.
      unfold nova_inc_page_invalid_entries. rewrite !bind_assoc.
      erewrite bind_Ok; [|by rewrite nova_get_block_Some]. rewrite bind_assoc.
      erewrite bind_Ok; [|apply fetch_eq]. rewrite bind_assoc.
      erewrite bind_Ok; [|apply store_eq]. unfold flush_page_tail.
      erewrite bind_Ok; [|apply nova_flush_buffer_eq; unfold sizeof_page_tail; lia].
      erewrite bind_Ok; [|by apply nova_update_entry_csum_eq].
      rewrite !log_state_app. unfold mret, M_ret. fold page. f_equal. f_equal. f_equal.
      cbn [fence_events]. rewrite app_nil_r. by simpl.
    + erewrite bind_Ok; [|done]. by erewrite bind_Ok; [|by apply nova_update_entry_csum_eq].
  - assert (Hf : ∀ g, store_fields entry g s = Ok ((), log_state s (field_events entry g)))
      by (intros; apply store_fields_eq).
    unfold s1, fs. clear s1 fs. destruct type; try done; simpl.
    + unfold when. destruct reassign, (Z.eqb_spec num_free 0) as [->|]; simpl;
        repeat (first [erewrite bind_Ok; [|reflexivity]]); 
        rewrite ?log_state_app, ?log_state_nil; simpl; run_events.
      all: unfold log_state, mret, M_ret, fw_reassigned, fw_invalid_pages, fw_num_pages; run_events.
      all: rewrite ?load_write_same, ?load_write_disjoint, ?Z.add_0_r by
        (unfold disjoint_ranges; rewrite length_bytes_of; lia).
      all: try rewrite (wrap_small 32) by apply (load_bound 4).
      all: rewrite <- ?app_assoc, ?app_nil_r; try done.
      all: by destruct s.
    + by destruct reassign.
    + by rewrite log_state_nil.
Qed.

(** Invalidating (or reassigning) a log entry keeps the garbage
    collector's count of dead entries exact: the page's [invalid_entries]
    goes up by one (as a [u32]) precisely when the entry becomes dead - a
    write entry when all its pages have become invalid, a dentry when it is
    not merely reassigned, any other entry always - and is left alone
    otherwise. *)
Theorem invalidate_counts entry type reassign num_free s :
  metadata_csum cfg = false → 4096 <= entry → ENTRY_LOC entry + 64 <= LOG_BLOCK_TAIL →
  let count m := load 4 m (BLOCK_OFF entry + pt_invalid_entries) in
  ∃ s', nova_execute_invalidate_reassign_logentry entry type reassign num_free s = Ok (0, s') ∧
    count (view s') =
      if becomes_dead (view s) entry type reassign num_free
      then u32 (count (view s) + 1) else count (view s).
Proof.
  intros Hm He Hloc count.
  assert (Hb : BLOCK_OFF entry = entry - ENTRY_LOC entry ∧ 0 <= ENTRY_LOC entry < 4096).
  { unfold BLOCK_OFF, ENTRY_LOC, PAGE_OFFSET_MASK. change 4095 with (2 ^ 12 - 1).
    rewrite land_lnot_mask, land_mask_mod by lia. split; [done|].
    apply Z.mod_pos_bound. lia. }
  destruct Hb as [Hb Hr].
  eexists. split; [apply nova_execute_invalidate_eq; [done|lia]|].
  set (fs := invalidate_fields _ _ _ _ _). cbn [log_state view].
  assert (Hkeep : count (apply_events (view s) (field_events entry fs)) = count (view s)).
  { apply load_ext. intros x Hx. eapply apply_events_frame;
      [apply (field_events_in 64), invalidate_fields_ok|].
    unfold in_range, pt_invalid_entries, LOG_BLOCK_TAIL in *. lia. }
  rewrite apply_events_app.
  rewrite (apply_events_no_store _ (flush_events _ _ _ ++ _)) by apply (flush_fence_no_store _ _ _ true).
  destruct (becomes_dead _ _ _ _ _); [|exact Hkeep].
  rewrite apply_events_cons, (apply_events_no_store _ (flush_events _ _ _))
    by apply is_flush_no_store, flush_events_flushes.
  simpl. unfold count. rewrite load_write_same. fold (count (apply_events (view s) (field_events entry fs))).
  by rewrite Hkeep.
Qed.
End Entry.

(** ** Witnesses: the entries live in the log page at block 70. *)
Module LogEntryDemo.
#[local] Existing Instance bytewise_copy.
#[local] Existing Instance InodeDemo.crc.
Import Demo.

Definition entry : Z := 4096 * 70 + 64.
Definition vnode : vfs_inode := VfsInode 420 0 0 100 7 8 9 1 3 0.
Definition info : nova_log_entry_info := EntryInfo SET_ATTR 1 0 [] 5 6 0 0 0 0 true.
Definition uninit : entry_copy := EntryCopy 0 0 [].

Lemma inplace_update_crash_atomic_witness :
  crash_atomic cfg jb (nova_inplace_update_log_entry cfg uninit 0 vnode entry info) start 0
    (write_fields entry (setattr_fields vnode info) disk).
Proof.
  apply (inplace_update_crash_atomic cfg uninit 0 jb 0 vnode entry info
           (setattr_fields vnode info) start).
  - reflexivity.
  - apply disk_ready.
  - reflexivity.
  - unfold entry; lia.
  - intros x. apply not_journal. unfold entry; lia.
  - reflexivity.
Defined.

(** The same machine with metadata checksums, and a setattr entry in place. *)
Definition csum_cfg : nova_cfg := NovaCfg true true 1 (λ _ _, 0).
Definition with_entry : NovaBase.cpu := Cpu (write_fields entry (setattr_fields vnode info) disk) [].

Lemma entry_csum_roundtrip_witness :
  ∃ s', nova_update_entry_csum csum_cfg entry with_entry = Ok ((), s') ∧
    nova_calc_entry_csum csum_cfg entry s' = Ok (load 4 (view s') (entry + csum_off SET_ATTR), s').
Proof.
  apply (entry_csum_roundtrip csum_cfg SET_ATTR entry with_entry).
  - reflexivity.
  - reflexivity.
  - split; [vm_compute; reflexivity|discriminate|vm_compute; discriminate].
Defined.

Lemma invalidate_counts_witness :
  ∃ s', nova_execute_invalidate_reassign_logentry cfg entry SET_ATTR false 0 with_entry = Ok (0, s') ∧
    load 4 (view s') (BLOCK_OFF entry + pt_invalid_entries) = 1.
Proof.
  destruct (invalidate_counts cfg entry SET_ATTR false 0 with_entry) as (s' & E & Hc).
  - reflexivity.
  - unfold entry; lia.
  - vm_compute. discriminate.
  - exists s'. split; [exact E|]. rewrite Hc. vm_compute. reflexivity.
Defined.
End LogEntryDemo.
