(* ===== verification/NovaIntegrity.v ===== *)
(** * NOVA: verifying and repairing metadata

    With metadata checksums every inode and every log entry has a replica.
    [nova_verify_entry_csum] and [nova_check_inode_integrity] ([checksum.c])
    read both copies into DRAM, decide which one to trust, and rewrite the
    other.  After a media error they first rewrite the 512 bytes around the bad
    copy ([POISON_RADIUS]) and read it again. *)

From stdpp Require Import base list gmap.
From Stdlib Require Import ZArith Lia.
From coqutil Require Import Byte Word.LittleEndianList.
From S2P Require Import Prelude PMem NovaBase NovaJournal NovaJournalCrash NovaInode NovaLogEntry.

Local Open Scope Z_scope.

Definition POISON_RADIUS : Z := 512.
Definition POISON_MASK : Z := Z.lnot (POISON_RADIUS - 1).

(** A buffer in DRAM, as the memory of a machine of its own. *)
Definition dram : Z := 4096.
Definition in_dram (bs : list byte) : cpu := Cpu (write_bytes ∅ dram bs) [].

Section Integrity.
Context `{Crc} `{NocacheCopy} `{CachedWrite}.
Variable cfg : nova_cfg.
(** What [memcpy_mcsafe] returns for the same source once it was rewritten, and
    how many bytes it copies before it faults. *)
Variable mcsafe_again : option Z → Z → Z.
Variable copied_before : Z → Z → nat.
(** Locals before they are assigned. *)
Variable uninit : entry_copy.

Definition retry_cfg : nova_cfg := NovaCfg (support_clwb cfg) (metadata_csum cfg) (cpus cfg) mcsafe_again.
Definition dram_cfg : nova_cfg := NovaCfg (support_clwb cfg) (metadata_csum cfg) (cpus cfg) (λ _ _, 0).

(** [memcpy_mcsafe] from persistent memory to persistent memory. *)
Definition memcpy_mcsafe_pm (dst src size : Z) : PM Z :=
  bs ← bytes_at src size;
  let rc := mcsafe_rc cfg (Some src) size in
  emits (cached_events dst (if rc =? 0 then bs else take (copied_before src size) bs));;
  mret rc.

(** ** Log entries *)

(** [nova_calc_entry_csum] of a copy in DRAM. *)
Definition copy_csum (bs : list byte) : Z :=
  match nova_calc_entry_csum dram_cfg dram (in_dram bs) with Ok (c, _) => c | _ => 0 end.

Definition nova_repair_entry_pr (entry : Z) : PM Z :=
  let entry_off := nova_get_addr_off entry in
  alter_off ← alter_log_entry cfg entry_off;
  if alter_off =? 0 then mret (-1) else
  entry_pr ← deref (nova_get_block (Z.land entry_off POISON_MASK));
  alter_pr ← deref (nova_get_block (Z.land alter_off POISON_MASK));
  ret ← memcpy_mcsafe_pm entry_pr alter_pr POISON_RADIUS;
  nova_flush_buffer cfg entry_pr POISON_RADIUS false;;
  mret (if ret <? 0 then -1 else 0).

Definition nova_repair_entry (bad : Z) (good : list byte) (entry_size : Z) : PM Z :=
  copy_to_pmem cfg bad (take (Z.to_nat entry_size) good);;
  mret 0.

(** The copy of an entry, after a repair if need be; [None] is a failure. *)
Definition read_entry (entry : Z) : PM (option entry_copy) :=
  '(ret, c) ← nova_get_entry_copy cfg entry uninit;
  if ret <? 0 then
    ret ← nova_repair_entry_pr entry;
    if ret <? 0 then mret None else
    '(ret, c) ← nova_get_entry_copy retry_cfg entry c;
    mret (if ret <? 0 then None else Some c)
  else mret (Some c).

(** The flag, and what [entryc] holds afterwards ([None]: left alone). *)
Definition nova_verify_entry_csum (entry : Z) : PM (bool * option (list byte)) :=
  if negb (metadata_csum cfg) then mret (true, None) else
  e ← read_entry entry;
  match e with
  | None => mret (false, None)
  | Some e =>
      alter_off ← alter_log_entry cfg (nova_get_addr_off entry);
      if alter_off =? 0 then mret (false, None) else
      alter ← deref (nova_get_block alter_off);
      a ← read_entry alter;
      match a with
      | None => mret (false, None)
      | Some a =>
          let entry_bad := negb (ec_csum e =? copy_csum (ec_bytes e)) in
          let alter_bad := negb (ec_csum a =? copy_csum (ec_bytes a)) in
          if entry_bad && alter_bad then mret (false, None)
          else if entry_bad then
            ret ← nova_repair_entry entry (ec_bytes a) (ec_size a);
            if negb (ret =? 0) then mret (false, None) else
            mret (true, Some (take (Z.to_nat (ec_size a)) (ec_bytes a)))
          else if alter_bad then
            ret ← nova_repair_entry alter (ec_bytes e) (ec_size e);
            if negb (ret =? 0) then mret (false, None) else
            mret (true, Some (take (Z.to_nat (ec_size e)) (ec_bytes e)))
          else
            let n := Z.to_nat (ec_size e) in
            ret ← (if negb (bool_decide (take n (ec_bytes e) = take n (ec_bytes a)))
                   then nova_repair_entry alter (ec_bytes e) (ec_size e) else mret 0);
            if negb (ret =? 0) then mret (false, None) else
            mret (true, Some (take n (ec_bytes e)))
      end
  end.

(** ** Inodes *)

(** [nova_check_inode_checksum] of a copy in DRAM. *)
Definition pic_bad (pic : list byte) : bool :=
  match nova_check_inode_checksum cfg dram (in_dram pic) with Ok (r, _) => negb (r =? 0) | _ => true end.

Definition nova_repair_inode_pr (bad_pi good_pi : Z) : PM Z :=
  let bad_pr := Z.land bad_pi POISON_MASK in
  let good_pr := Z.land good_pi POISON_MASK in
  if (bad_pr =? 0) || (good_pr =? 0) then bug else
  ret ← memcpy_mcsafe_pm bad_pr good_pr POISON_RADIUS;
  nova_flush_buffer cfg bad_pr POISON_RADIUS false;;
  mret (if ret <? 0 then -1 else 0).

Definition nova_repair_inode (bad_pi : Z) (good_copy : list byte) : PM Z :=
  copy_to_pmem cfg bad_pi good_copy;;
  mret 0.

(** [memcpy_mcsafe] of an inode into DRAM ([old]: the buffer before): the code
    and the buffer.  [c] tells the first reading from the second. *)
Definition read_inode (c : nova_cfg) (pi : option Z) (old : list byte) : PM (Z * list byte) :=
  match pi with
  | None => mret (mcsafe_rc c None sizeof_nova_inode, old)
  | Some p =>
      bs ← bytes_at p sizeof_nova_inode;
      let rc := mcsafe_rc c pi sizeof_nova_inode in
      mret (rc, if rc =? 0 then bs
                else take (copied_before p sizeof_nova_inode) bs ++ drop (copied_before p sizeof_nova_inode) old)
  end.

(** [memcpy_mcsafe], repairing a media error from the other copy, and again. *)
Definition reread_inode (bad good : option Z) (pic : list byte) : PM (Z * list byte) :=
  b ← deref bad;
  g ← deref good;
  ret ← nova_repair_inode_pr b g;
  if ret <? 0 then mret (ret, pic) else read_inode retry_cfg bad pic.

(** The code, and what [pic] holds afterwards. *)
Definition nova_check_inode_integrity (pi_addr alter_pi_addr : Z) (pic alter_copy : list byte)
    (check_replica : bool) : PM (Z * list byte) :=
  let pi := nova_get_block pi_addr in
  '(ret, pic) ← read_inode cfg pi pic;
  if negb (metadata_csum cfg) then mret (ret, pic) else
  let alter_pi := nova_get_block alter_pi_addr in
  '(ret, pic) ← (if ret <? 0 then reread_inode pi alter_pi pic else mret (ret, pic));
  if ret <? 0 then mret (- EIO, pic) else
  let inode_bad := pic_bad pic in
  if negb inode_bad && negb check_replica then mret (0, pic) else
  '(ret, alter_pic) ← read_inode cfg alter_pi alter_copy;
  if (ret <? 0) && inode_bad then mret (- EIO, pic) else
  '(ret, alter_pic) ← (if ret <? 0 then reread_inode alter_pi pi alter_pic else mret (ret, alter_pic));
  if ret <? 0 then mret (- EIO, pic) else
  let alter_bad := pic_bad alter_pic in
  if inode_bad && alter_bad then mret (- EIO, pic)
  else if inode_bad then
    p ← deref pi;
    ret ← nova_repair_inode p alter_pic;
    mret (if negb (ret =? 0) then - EIO else 0, if negb (ret =? 0) then pic else alter_pic)
  else if alter_bad || negb (bool_decide (pic = alter_pic)) then
    a ← deref alter_pi;
    ret ← nova_repair_inode a pic;
    mret (if negb (ret =? 0) then - EIO else 0, pic)
  else mret (0, pic).
End Integrity.

(** ** Copies in DRAM *)

Lemma read_bytes_shift m m' a a' n :
  (∀ i, 0 <= i < Z.of_nat n → m !!! (a + i) = m' !!! (a' + i)) → read_bytes m a n = read_bytes m' a' n.
Proof.
  revert a a'. induction n as [|n IH]; intros a a' Ha; simpl; [done|]. apply (f_equal2 cons).
  - specialize (Ha 0 ltac:(lia)). by rewrite !Z.add_0_r in Ha.
  - apply IH. intros i Hi. rewrite <- !Z.add_assoc. apply Ha. lia.
Qed.

Lemma in_dram_at m a n i :
  0 <= i < Z.of_nat n → view (in_dram (read_bytes m a n)) !!! (dram + i) = m !!! (a + i).
Proof.
  intros Hi. unfold in_dram. cbn [view]. rewrite lookup_total_write_bytes, length_read_bytes.
  rewrite decide_True by (unfold in_range; lia). rewrite Z.add_simpl_l, nth_read_bytes by lia. f_equal. lia.
Qed.

Lemma in_dram_read m a n o k :
  0 <= o → o + Z.of_nat k <= Z.of_nat n →
  read_bytes (view (in_dram (read_bytes m a n))) (dram + o) k = read_bytes m (a + o) k.
Proof.
  intros Ho Hk. apply read_bytes_shift. intros i Hi. rewrite <- !Z.add_assoc. apply in_dram_at. lia.
Qed.

Lemma read_bytes_take m a n k : (n <= k)%nat → take n (read_bytes m a k) = read_bytes m a n.
Proof.
  revert a n. induction k as [|k IH]; intros a [|n] Hn; try done; [lia|].
  change (m !!! a :: take n (read_bytes m (a + 1) k) = m !!! a :: read_bytes m (a + 1) n).
  rewrite IH by lia. done.
Qed.

Section IntegrityProofs.
#[local] Set Default Proof Using "Type".
Context `{Crc} `{NocacheCopy} `{CachedWrite}.
Variable cfg : nova_cfg.

Definition entry_bytes (m : mem) (t : nova_entry_type) (entry : Z) : list byte :=
  read_bytes m entry (Z.to_nat (len_in m t entry)).

(** Whether the stored checksum is that of the entry. *)
Definition sealed_entry (m : mem) (t : nova_entry_type) (entry : Z) : Prop :=
  load 4 m (entry + csum_off t) = csum_in m t entry.

(** The same bytes elsewhere are the same entry. *)
Lemma entry_same m m' t p q :
  entry_wf m t p → read_bytes m' q (Z.to_nat (len_in m t p)) = entry_bytes m t p →
  entry_wf m' t q ∧ len_in m' t q = len_in m t p ∧ csum_in m' t q = csum_in m t p ∧
  load 4 m' (q + csum_off t) = load 4 m (p + csum_off t).
Proof.
  intros [Ht Hk Hl] Hb. pose proof (len_in_range m t p) as Hr. pose proof (csum_off_range t) as Ho.
  unfold NOVA_META_CSUM_LEN in Hl.
  assert (Hat : ∀ i, 0 <= i < len_in m t p → m' !!! (q + i) = m !!! (p + i)).
  { intros i Hi. apply (f_equal (λ l, nth (Z.to_nat i) l inhabitant)) in Hb. unfold entry_bytes in Hb.
    rewrite !nth_read_bytes, !Z2Nat.id in Hb by lia. exact Hb. }
  assert (Hread : ∀ o k, 0 <= o → o + Z.of_nat k <= len_in m t p →
    read_bytes m' (q + o) k = read_bytes m (p + o) k).
  { intros o k ? ?. apply read_bytes_shift. intros i Hi. rewrite <- !Z.add_assoc. apply Hat. lia. }
  assert (Hread0 : ∀ k, Z.of_nat k <= len_in m t p → read_bytes m' q k = read_bytes m p k).
  { intros k ?. rewrite <- (Z.add_0_r q), <- (Z.add_0_r p). apply Hread; lia. }
  assert (Hoff : 4 <= csum_off t) by (destruct t; try done; by vm_compute).
  assert (Hlen : len_in m' t q = len_in m t p).
  { destruct t; try done. unfold len_in, load. rewrite Hread; [done|done|].
    unfold csum_off, de_csum, de_de_len in *. lia. }
  split; [split|split; [done|split]].
  - rewrite <- Ht. unfold load. by rewrite Hread0 by lia.
  - done.
  - by rewrite Hlen.
  - unfold csum_in. rewrite Hlen, Hread0 by lia. unfold NOVA_META_CSUM_LEN.
    destruct (Z.gtb_spec (len_in m t p - (csum_off t + 4)) 0); [|done].
    f_equal. rewrite <- !Z.add_assoc. apply Hread; lia.
  - unfold load. rewrite Hread by lia. done.
Qed.

Lemma copy_csum_eq m t entry :
  entry_wf m t entry → copy_csum cfg (entry_bytes m t entry) = csum_in m t entry.
Proof.
  intros Hwf. pose proof (len_in_range m t entry) as Hr.
  destruct (entry_same m (view (in_dram (entry_bytes m t entry))) t entry dram Hwf) as (Hwf' & _ & Hc & _).
  { unfold entry_bytes. rewrite <- (Z.add_0_r dram), in_dram_read by lia. by rewrite Z.add_0_r. }
  unfold copy_csum.
  rewrite (nova_calc_entry_csum_eq (dram_cfg cfg) t dram (in_dram (entry_bytes m t entry))) by done. done.
Qed.

(** No media errors. *)
Definition no_faults : Prop := ∀ p n, mcsafe_rc cfg p n = 0.

Definition fits_copy (m : mem) (t : nova_entry_type) (entry : Z) : Prop :=
  len_in m t entry <= NOVA_MAX_ENTRY_LEN.

Lemma get_entry_copy_eq t entry out s :
  no_faults → entry_wf (view s) t entry → fits_copy (view s) t entry →
  nova_get_entry_copy cfg entry out s =
  Ok ((0, EntryCopy (load 4 (view s) (entry + csum_off t)) (len_in (view s) t entry)
         (entry_bytes (view s) t entry)), s).
Proof.
  intros Hnf [Ht Hk Hl] Hf. unfold nova_get_entry_copy. rewrite !Hnf. cbn [Z.ltb Z.compare].
  erewrite bind_Ok; [|apply fetch_eq]. rewrite Ht.
  destruct t; try done; rewrite ?Hnf; cbn [Z.ltb Z.compare orb]; try done.
  erewrite bind_Ok; [|apply fetch_eq]. unfold fits_copy, len_in in Hf.
  destruct (Z.gtb_spec (load 2 (view s) (entry + de_de_len)) NOVA_MAX_ENTRY_LEN); [lia|]. by rewrite Hnf.
Qed.

Hypothesis Hcs : metadata_csum cfg = true.
Hypothesis Hnf : no_faults.

(** The replica of an entry, through the tail of its page. *)
Definition alter_of (m : mem) (entry : Z) : Z :=
  u64 (load 8 m (BLOCK_OFF entry + pt_alter_page) + ENTRY_LOC entry).
Lemma alter_log_entry_eq entry s :
  entry ≠ 0 → alter_log_entry cfg (nova_get_addr_off entry) s = Ok (alter_of (view s) entry, s).
Proof using Hcs.
  intros He. unfold alter_log_entry, nova_get_addr_off. rewrite Hcs, nova_get_block_Some by done. cbn [negb].
  erewrite bind_Ok; [|done]. by erewrite bind_Ok; [|apply fetch_eq].
Qed.

Definition the_copy (m : mem) (t : nova_entry_type) (entry : Z) : entry_copy :=
  EntryCopy (load 4 m (entry + csum_off t)) (len_in m t entry) (entry_bytes m t entry).

Lemma length_entry_bytes m t entry : Z.of_nat (length (entry_bytes m t entry)) = len_in m t entry.
Proof using Type. unfold entry_bytes. rewrite length_read_bytes. pose proof (len_in_range m t entry). lia. Qed.
Lemma take_entry_bytes m t entry : take (Z.to_nat (len_in m t entry)) (entry_bytes m t entry) = entry_bytes m t entry.
Proof using Type. apply take_ge. rewrite <- (length_entry_bytes m t entry). lia. Qed.

(** A copy written over an entry. *)
Lemma copy_to_pmem_view p bs s :
  Z.of_nat (length bs) <= 2 ^ 32 - 128 →
  ∃ s', copy_to_pmem cfg p bs s = Ok ((), s') ∧ mem_eq (view s') (write_bytes (view s) p bs).
Proof using Type.
  intros Hl. unfold copy_to_pmem. erewrite bind_Ok; [|apply emits_eq].
  rewrite nova_flush_buffer_eq by lia. eexists. split; [done|]. cbn [view log_state].
  rewrite (apply_events_no_store _ (flush_events _ _ _ ++ _)) by apply (flush_fence_no_store _ _ _ true).
  apply nocache_view.
Qed.

Lemma repair_entry_view p t q s :
  ∃ s', nova_repair_entry cfg p (entry_bytes (view s) t q) (len_in (view s) t q) s = Ok (0, s') ∧
    mem_eq (view s') (write_bytes (view s) p (entry_bytes (view s) t q)).
Proof using Type.
  unfold nova_repair_entry. rewrite take_entry_bytes.
  destruct (copy_to_pmem_view p (entry_bytes (view s) t q) s) as (s' & E & V).
  { rewrite length_entry_bytes. pose proof (len_in_range (view s) t q). lia. }
  exists s'. split; [|done]. by erewrite bind_Ok; [|exact E].
Qed.

(** Both copies hold [bs], and nothing but them changed. *)
Definition both_hold (m m' : mem) (p q : Z) (bs : list byte) : Prop :=
  read_bytes m' p (length bs) = bs ∧ read_bytes m' q (length bs) = bs ∧
  agree (λ x, ¬ in_range p (Z.of_nat (length bs)) x ∧ ¬ in_range q (Z.of_nat (length bs)) x) m m'.

Lemma both_after_write m m' p q n :
  mem_eq m' (write_bytes m p (read_bytes m q n)) →
  disjoint_ranges p (Z.of_nat n) q (Z.of_nat n) → both_hold m m' p q (read_bytes m q n).
Proof using Type.
  intros V Hd. unfold both_hold. rewrite length_read_bytes. split_and!.
  - rewrite (read_bytes_ext m' _ _ _ (mem_eq_agree _ _ _ V)). apply read_write_same. by rewrite length_read_bytes.
  - apply read_bytes_ext. intros x Hx. rewrite V, write_bytes_out; [done|].
    rewrite length_read_bytes. unfold in_range, disjoint_ranges in *. lia.
  - intros x [Hx _]. rewrite V, write_bytes_out; [done|]. by rewrite length_read_bytes.
Qed.
Lemma both_swap m m' p q bs : both_hold m m' p q bs → both_hold m m' q p bs.
Proof using Type.
  intros (E1 & E2 & A). split_and!; try done. eapply agree_mono; [exact A|]. tauto.
Qed.


(** ** Log entries *)

Variable mcsafe_again : option Z → Z → Z.
Variable copied_before : Z → Z → nat.
Variable uninit : entry_copy.

Lemma read_entry_eq t entry s :
  entry_wf (view s) t entry → fits_copy (view s) t entry →
  read_entry cfg mcsafe_again copied_before uninit entry s = Ok (Some (the_copy (view s) t entry), s).
Proof using Hnf.
  intros Hwf Hf. unfold read_entry. by erewrite bind_Ok; [|by apply (get_entry_copy_eq t)].
Qed.

#[export] Instance sealed_dec m t entry : Decision (sealed_entry m t entry).
Proof using Type. unfold sealed_entry. apply _. Defined.

(** The entry that wins: the primary when its checksum is good. *)
Definition winner (m : mem) (t t' : nova_entry_type) (p q : Z) : nova_entry_type * Z :=
  if decide (sealed_entry m t p) then (t, p) else (t', q).

Lemma bad_flag m t p :
  entry_wf m t p →
  negb (ec_csum (the_copy m t p) =? copy_csum cfg (ec_bytes (the_copy m t p))) =
  negb (bool_decide (sealed_entry m t p)).
Proof using Type.
  intros Hwf. cbn [the_copy ec_csum ec_bytes]. rewrite copy_csum_eq by done. f_equal.
  unfold sealed_entry. destruct (Z.eqb_spec (load 4 m (p + csum_off t)) (csum_in m t p));
    [by rewrite bool_decide_true|by rewrite bool_decide_false].
Qed.

(** Both copies are then good. *)
Lemma both_sealed m m' t p q r bs :
  entry_wf m t r → sealed_entry m t r → bs = entry_bytes m t r → both_hold m m' p q bs →
  sealed_entry m' t p ∧ sealed_entry m' t q.
Proof using Type.
  intros Hwf Hs -> (E1 & E2 & _). unfold entry_bytes in E1, E2. rewrite length_read_bytes in E1, E2.
  destruct (entry_same m m' t r p Hwf E1) as (_ & _ & Hc1 & Hl1).
  destruct (entry_same m m' t r q Hwf E2) as (_ & _ & Hc2 & Hl2).
  unfold sealed_entry in *. by rewrite Hc1, Hl1, Hc2, Hl2.
Qed.


(** What a verification leaves behind: nothing, when neither copy is good;
    otherwise the bytes of the good copy in DRAM and in both places. *)
Definition verified (s s' : cpu) (t t' : nova_entry_type) (p q : Z) (c : option (list byte)) : Prop :=
  match c with
  | None => s' = s ∧ ¬ sealed_entry (view s) t p ∧ ¬ sealed_entry (view s) t' q
  | Some bs =>
      let '(tw, w) := winner (view s) t t' p q in
      sealed_entry (view s) tw w ∧ bs = entry_bytes (view s) tw w ∧
      both_hold (view s) (view s') p q bs ∧
      sealed_entry (view s') tw p ∧ sealed_entry (view s') tw q
  end.

Lemma verified_by s s' t t' p q tw w :
  winner (view s) t t' p q = (tw, w) → entry_wf (view s) tw w → sealed_entry (view s) tw w →
  both_hold (view s) (view s') p q (entry_bytes (view s) tw w) →
  verified s s' t t' p q (Some (entry_bytes (view s) tw w)).
Proof using Type.
  intros E Hwf Hs Hb. unfold verified. rewrite E.
  destruct (both_sealed _ (view s') tw p q w _ Hwf Hs eq_refl Hb). done.
Qed.

Lemma both_equal m t p q n :
  (length (entry_bytes m t p) <= n)%nat →
  take (length (entry_bytes m t p)) (read_bytes m q n) = entry_bytes m t p →
  both_hold m m p q (entry_bytes m t p).
Proof using Type.
  intros Hn E. rewrite read_bytes_take in E by done. split_and!; [|done|done].
  unfold entry_bytes. by rewrite length_read_bytes.
Qed.

(** C32: verifying a log entry without media errors recovers the good copy.
    For well-formed copies that fit the buffers and do not overlap,
    [nova_verify_entry_csum] fails only when the checksums of both are wrong,
    and then it changes nothing; otherwise it returns the primary when its
    checksum is good and the replica when only the replica's is, both places
    hold these bytes afterwards and verify, and no other byte of persistent
    memory changed. *)
Theorem verify_entry_correct t t' entry s :
  let q := alter_of (view s) entry in
  entry ≠ 0 → q ≠ 0 → disjoint_ranges entry NOVA_MAX_ENTRY_LEN q NOVA_MAX_ENTRY_LEN →
  entry_wf (view s) t entry → fits_copy (view s) t entry →
  entry_wf (view s) t' q → fits_copy (view s) t' q →
  ∃ c s', nova_verify_entry_csum cfg mcsafe_again copied_before uninit entry s = Ok ((bool_decide (is_Some c), c), s') ∧
    verified s s' t t' entry q c.
Proof using Hcs Hnf.
  intros q He Hq Hd Hwf Hf Hwf' Hf'.
  pose proof (len_in_range (view s) t entry) as Hr. pose proof (len_in_range (view s) t' q) as Hr'.
  unfold fits_copy, disjoint_ranges in *.
  unfold nova_verify_entry_csum. rewrite Hcs. cbn [negb].
  erewrite bind_Ok; [|by apply read_entry_eq]. cbv beta iota.
  erewrite bind_Ok; [|by apply alter_log_entry_eq]. fold q.
  destruct (Z.eqb_spec q 0); [done|]. rewrite nova_get_block_Some by done.
  erewrite bind_Ok; [|done]. erewrite bind_Ok; [|by apply (read_entry_eq t' q)]. cbv beta iota zeta.
  rewrite !bad_flag by done. cbn [the_copy ec_bytes ec_size].
  destruct (decide (sealed_entry (view s) t entry)) as [Hs|Hs].
  - assert (W : winner (view s) t t' entry q = (t, entry)) by (unfold winner; by rewrite decide_True).
    rewrite (bool_decide_eq_true_2 _ Hs). cbn [negb andb]. rewrite !take_entry_bytes.
    assert (Hrep : ∃ s', nova_repair_entry cfg q (entry_bytes (view s) t entry) (len_in (view s) t entry) s = Ok (0, s') ∧
      verified s s' t t' entry q (Some (entry_bytes (view s) t entry))).
    { destruct (repair_entry_view q t entry s) as (s' & E & V). exists s'. split; [done|].
      apply verified_by; [done..|]. apply both_swap, both_after_write; [done|]. unfold disjoint_ranges. lia. }
    destruct (decide (sealed_entry (view s) t' q)) as [Hs'|Hs'].
    + rewrite (bool_decide_eq_true_2 _ Hs'). cbn [negb].
      case_bool_decide as Heq; cbn [negb].
      * exists (Some (entry_bytes (view s) t entry)), s. split; [done|].
        apply verified_by; [done..|].
        assert (Hn : (length (entry_bytes (view s) t entry) <= Z.to_nat (len_in (view s) t' q))%nat).
        { pose proof (f_equal length Heq) as El. rewrite length_take in El.
          unfold entry_bytes in El |- *. rewrite !length_read_bytes in *. lia. }
        eapply both_equal; [exact Hn|].
        rewrite Heq at 2. f_equal. unfold entry_bytes. by rewrite length_read_bytes.
      * destruct Hrep as (s' & E & V). eexists _, _. split; [|exact V]. by erewrite bind_Ok; [|exact E].
    + rewrite (bool_decide_eq_false_2 _ Hs'). cbn [negb].
      destruct Hrep as (s' & E & V). eexists _, _. split; [|exact V]. by erewrite bind_Ok; [|exact E].
  - rewrite (bool_decide_eq_false_2 _ Hs). cbn [negb].
    destruct (decide (sealed_entry (view s) t' q)) as [Hs'|Hs'].
    + rewrite (bool_decide_eq_true_2 _ Hs'). cbn [negb andb]. rewrite take_entry_bytes.
      destruct (repair_entry_view entry t' q s) as (s' & E & V).
      exists (Some (entry_bytes (view s) t' q)), s'. split; [by erewrite bind_Ok; [|exact E]|].
      apply verified_by; [unfold winner; by rewrite decide_False|done..|].
      apply both_after_write; [done|]. unfold disjoint_ranges. lia.
    + rewrite (bool_decide_eq_false_2 _ Hs'). by exists None, s.
Qed.

(** ** Inodes *)

Definition inode_bytes (m : mem) (p : Z) : list byte := read_bytes m p (Z.to_nat sizeof_nova_inode).
(** The checksum of an inode is that of its other fields. *)
Definition inode_good (m : mem) (p : Z) : Prop :=
  load 4 m (p + pi_csum) = nova_crc32c (2 ^ 32 - 1) (read_bytes m p (Z.to_nat (sizeof_nova_inode - 4))).
#[export] Instance inode_good_dec m p : Decision (inode_good m p).
Proof using Type. unfold inode_good. apply _. Defined.

Lemma inode_same m m' p q :
  read_bytes m' q (Z.to_nat sizeof_nova_inode) = inode_bytes m p → inode_good m p ↔ inode_good m' q.
Proof using Type.
  intros Hb. unfold inode_good, load, inode_bytes in *.
  assert (Hat : ∀ i, 0 <= i < sizeof_nova_inode → m !!! (p + i) = m' !!! (q + i)).
  { intros i Hi. apply (f_equal (λ l, nth (Z.to_nat i) l inhabitant)) in Hb.
    unfold sizeof_nova_inode in *. rewrite !nth_read_bytes, !Z2Nat.id in Hb by lia. done. }
  rewrite (read_bytes_shift m m' (p + pi_csum) (q + pi_csum)), (read_bytes_shift m m' p q); [done|..];
    intros i Hi; rewrite <- ?Z.add_assoc; apply Hat; unfold pi_csum, sizeof_nova_inode in *; lia.
Qed.

Lemma pic_bad_eq m p : pic_bad cfg (inode_bytes m p) = negb (bool_decide (inode_good m p)).
Proof using Hcs.
  rewrite (bool_decide_ext _ (inode_good (view (in_dram (inode_bytes m p))) dram)).
  2: { apply inode_same. unfold inode_bytes. rewrite <- (Z.add_0_r dram), in_dram_read by (unfold sizeof_nova_inode; lia).
       by rewrite Z.add_0_r. }
  unfold pic_bad, nova_check_inode_checksum. rewrite Hcs. cbn [negb].
  erewrite bind_Ok; [|done]. erewrite bind_Ok; [|apply fetch_eq]. unfold inode_good.
  rewrite (wrap_small 32 (nova_crc32c _ _)) by apply nova_crc32c_range.
  unfold mret, M_ret. case_bool_decide as Hg; [by rewrite (proj2 (Z.eqb_eq _ _) Hg)|].
  by rewrite (proj2 (Z.eqb_neq _ _) Hg).
Qed.

Lemma read_inode_eq c p old s :
  mcsafe_rc c (Some p) sizeof_nova_inode = 0 →
  read_inode copied_before c (Some p) old s = Ok ((0, inode_bytes (view s) p), s).
Proof using Type. intros Hc. unfold read_inode. erewrite bind_Ok; [|done]. by rewrite Hc. Qed.

Lemma repair_inode_view p q s :
  ∃ s', nova_repair_inode cfg p (inode_bytes (view s) q) s = Ok (0, s') ∧
    mem_eq (view s') (write_bytes (view s) p (inode_bytes (view s) q)).
Proof using Type.
  unfold nova_repair_inode. destruct (copy_to_pmem_view p (inode_bytes (view s) q) s) as (s' & E & V).
  { unfold inode_bytes, sizeof_nova_inode. rewrite length_read_bytes. lia. }
  exists s'. split; [|done]. by erewrite bind_Ok; [|exact E].
Qed.

(** What a check leaves behind. *)
Definition inode_checked (s s' : cpu) (p q : Z) (check_replica : bool) (r : Z) (pic : list byte) : Prop :=
  let m := view s in
  let w := if decide (inode_good m p) then p else q in
  if decide (inode_good m p ∨ inode_good m q) then
    r = 0 ∧ pic = inode_bytes m w ∧
    (if bool_decide (inode_good m p) && negb check_replica then s' = s
     else both_hold m (view s') p q pic ∧ inode_good (view s') p ∧ inode_good (view s') q)
  else r = - EIO ∧ s' = s.

Lemma both_good m m' p q w :
  inode_good m w → both_hold m m' p q (inode_bytes m w) → inode_good m' p ∧ inode_good m' q.
Proof using Type.
  intros Hg (E1 & E2 & _). unfold inode_bytes in E1, E2. rewrite length_read_bytes in E1, E2.
  split; by apply (inode_same m m' w).
Qed.

Lemma inode_checked_by s s' p q c w :
  w = (if decide (inode_good (view s) p) then p else q) → inode_good (view s) w →
  bool_decide (inode_good (view s) p) && negb c = false →
  both_hold (view s) (view s') p q (inode_bytes (view s) w) →
  inode_checked s s' p q c 0 (inode_bytes (view s) w).
Proof using Type.
  intros Ew Hg Hc Hb. unfold inode_checked. rewrite <- Ew, Hc.
  rewrite decide_True by (destruct (decide (inode_good (view s) p)); subst w; auto).
  destruct (both_good _ _ _ _ _ Hg Hb). done.
Qed.

(** The outcome of a check of [p] with replica [q]. *)
Definition check_ok (p q : Z) (pic0 alter0 : list byte) (c : bool) (s : cpu) : Prop :=
  ∃ r pic s', nova_check_inode_integrity cfg mcsafe_again copied_before p q pic0 alter0 c s = Ok ((r, pic), s') ∧
    inode_checked s s' p q c r pic.

Lemma check_good_primary p q pic0 alter0 check_replica s :
  p ≠ 0 → q ≠ 0 → disjoint_ranges q sizeof_nova_inode p sizeof_nova_inode → inode_good (view s) p →
  check_ok p q pic0 alter0 check_replica s.
Proof using Hcs Hnf.
  intros Hp Hq Hd' Hg.
  unfold check_ok, nova_check_inode_integrity. rewrite !nova_get_block_Some by done. rewrite Hcs.
  erewrite bind_Ok; [|by apply read_inode_eq]. cbv beta iota zeta. cbn [negb Z.ltb Z.compare].
  erewrite bind_Ok; [|done]. cbv beta iota. cbn [Z.ltb Z.compare]. rewrite !pic_bad_eq.
  rewrite (bool_decide_eq_true_2 _ Hg). cbn [negb andb].
  destruct check_replica; cbn [negb].
  2: { exists 0, (inode_bytes (view s) p), s. split; [done|]. unfold inode_checked.
       rewrite !decide_True by tauto. rewrite (bool_decide_eq_true_2 _ Hg). done. }
  erewrite bind_Ok; [|by apply read_inode_eq]. cbv beta iota. cbn [Z.ltb Z.compare andb].
  erewrite bind_Ok; [|done]. cbv beta iota. cbn [Z.ltb Z.compare]. rewrite !pic_bad_eq.
  assert (Hby : ∀ s', both_hold (view s) (view s') p q (inode_bytes (view s) p) →
    inode_checked s s' p q true 0 (inode_bytes (view s) p)).
  { intros s' Hb. apply inode_checked_by; [by rewrite decide_True|done| |done]. by rewrite andb_false_r. }
  assert (Hrep : ∃ s', nova_repair_inode cfg q (inode_bytes (view s) p) s = Ok (0, s') ∧
    inode_checked s s' p q true 0 (inode_bytes (view s) p)).
  { destruct (repair_inode_view q p s) as (s' & E & V). exists s'. split; [done|].
    by apply Hby, both_swap, both_after_write. }
  destruct (decide (inode_good (view s) q)) as [Hg'|Hg'].
  - rewrite (bool_decide_eq_true_2 _ Hg'). cbn [negb orb].
    case_bool_decide as Heq; cbn [negb].
    * eexists _, _, s. split; [done|]. apply Hby.
      split_and!; [by unfold inode_bytes; rewrite length_read_bytes| |done].
      rewrite Heq at 2. unfold inode_bytes. by rewrite length_read_bytes.
    * destruct Hrep as (s' & E & V). eexists _, _, _. split; [|exact V].
      erewrite bind_Ok; [|done]. by erewrite bind_Ok; [|exact E].
  - rewrite (bool_decide_eq_false_2 _ Hg'). cbn [negb orb].
    destruct Hrep as (s' & E & V). eexists _, _, _. split; [|exact V].
    erewrite bind_Ok; [|done]. by erewrite bind_Ok; [|exact E].
Qed.

Lemma check_bad_primary p q pic0 alter0 check_replica s :
  p ≠ 0 → q ≠ 0 → disjoint_ranges p sizeof_nova_inode q sizeof_nova_inode → ¬ inode_good (view s) p →
  check_ok p q pic0 alter0 check_replica s.
Proof using Hcs Hnf.
  intros Hp Hq Hd Hg.
  unfold check_ok, nova_check_inode_integrity. rewrite !nova_get_block_Some by done. rewrite Hcs.
  erewrite bind_Ok; [|by apply read_inode_eq]. cbv beta iota zeta. cbn [negb Z.ltb Z.compare].
  erewrite bind_Ok; [|done]. cbv beta iota. cbn [Z.ltb Z.compare]. rewrite !pic_bad_eq.
  rewrite (bool_decide_eq_false_2 _ Hg). cbn [negb andb].
  erewrite bind_Ok; [|by apply read_inode_eq]. cbv beta iota. cbn [Z.ltb Z.compare andb].
  erewrite bind_Ok; [|done]. cbv beta iota. cbn [Z.ltb Z.compare]. rewrite !pic_bad_eq.
  destruct (decide (inode_good (view s) q)) as [Hg'|Hg'].
  - rewrite (bool_decide_eq_true_2 _ Hg'). cbn [negb].
    destruct (repair_inode_view p q s) as (s' & E & V).
    exists 0, (inode_bytes (view s) q), s'.
    split; [erewrite bind_Ok; [|done]; by erewrite bind_Ok; [|exact E]|].
    apply inode_checked_by; [by rewrite decide_False|done| |by apply both_after_write].
    by rewrite bool_decide_eq_false_2.
  - rewrite (bool_decide_eq_false_2 _ Hg'). cbn [negb].
    eexists _, _, s. split; [done|]. unfold inode_checked. rewrite decide_False by tauto. done.
Qed.

(** C33: checking an inode without media errors recovers the good copy.  With
    metadata checksums and copies that do not overlap,
    [nova_check_inode_integrity] returns [-EIO] exactly when the checksums of
    both copies are wrong, and then changes nothing.  Otherwise it returns 0
    with the primary when its checksum is good and the replica when only the
    replica's is.  It leaves memory alone when the primary is good and the
    replica is not to be checked; in the other cases both places hold the
    returned inode and verify, and no other byte changed. *)
Theorem inode_integrity_correct pi_addr alter_pi_addr pic0 alter0 check_replica s :
  pi_addr ≠ 0 → alter_pi_addr ≠ 0 →
  disjoint_ranges pi_addr sizeof_nova_inode alter_pi_addr sizeof_nova_inode →
  ∃ r pic s', nova_check_inode_integrity cfg mcsafe_again copied_before pi_addr alter_pi_addr pic0 alter0
                check_replica s = Ok ((r, pic), s') ∧
    inode_checked s s' pi_addr alter_pi_addr check_replica r pic.
Proof using Hcs Hnf.
  intros Hp Hq Hd. destruct (decide (inode_good (view s) pi_addr)).
  - apply check_good_primary; [done..| |done]. unfold disjoint_ranges in *. lia.
  - by apply check_bad_primary.
Qed.

End IntegrityProofs.

(** ** Concrete runs *)

Module IntegrityDemo.
#[local] Existing Instance bytewise_copy.
#[local] Existing Instance bytewise_write.
#[local] Existing Instance InodeDemo.crc.
Import Demo LogEntryDemo.

(** A setattr entry whose replica, on the page the tail names, is sealed. *)
Definition replica : Z := 4096 * 80 + 64.
Definition halfway : NovaBase.cpu :=
  let m := write_fields replica (setattr_fields vnode info) (view with_entry) in
  let s := Cpu (write_int 8 (BLOCK_OFF entry + pt_alter_page) (4096 * 80) m) [] in
  match nova_update_entry_csum csum_cfg replica s with Ok (_, s) => s | _ => s end.
Definition again (p : option Z) (n : Z) : Z := 0.
Definition before (p n : Z) : nat := O.

Lemma halfway_wf : entry_wf (view halfway) SET_ATTR entry ∧ entry_wf (view halfway) SET_ATTR replica.
Proof. split; (split; [vm_compute; reflexivity|discriminate|vm_compute; discriminate]). Qed.

Lemma verify_entry_correct_witness :
  ∃ c s', nova_verify_entry_csum csum_cfg again before uninit entry halfway = Ok ((bool_decide (is_Some c), c), s') ∧
    verified halfway s' SET_ATTR SET_ATTR entry (alter_of (view halfway) entry) c ∧
    c = Some (entry_bytes (view halfway) SET_ATTR replica).
Proof.
  assert (Eq : alter_of (view halfway) entry = replica) by (vm_compute; reflexivity).
  destruct (verify_entry_correct csum_cfg eq_refl (λ _ _, eq_refl) again before uninit SET_ATTR SET_ATTR entry halfway)
    as (c & s' & E & V); rewrite ?Eq.
  - discriminate.
  - discriminate.
  - unfold disjoint_ranges, entry, replica, NOVA_MAX_ENTRY_LEN. lia.
  - apply halfway_wf.
  - discriminate.
  - apply halfway_wf.
  - discriminate.
  - exists c, s'. split; [exact E|]. rewrite Eq in V. split; [exact V|].
    destruct c as [bs|]; cbn [verified] in V.
    + unfold winner in V. rewrite decide_False in V by (vm_compute; discriminate). by destruct V as (_ & -> & _).
    + destruct V as (_ & _ & Hb). exfalso. apply Hb. vm_compute. reflexivity.
Defined.

(** Two inodes that hold zeros, the second sealed. *)
Definition pi1 : Z := 4096 * 60.
Definition pi2 : Z := 4096 * 61.
Definition one_sealed : NovaBase.cpu :=
  match nova_update_inode_checksum csum_cfg pi2 (Cpu disk []) with Ok (_, s) => s | _ => Cpu disk [] end.
Lemma one_sealed_goods : ¬ inode_good (view one_sealed) pi1 ∧ inode_good (view one_sealed) pi2.
Proof. split; [vm_compute; discriminate|vm_compute; reflexivity]. Qed.
#[local] Opaque one_sealed.
Lemma inode_integrity_correct_witness :
  ∃ r pic s', nova_check_inode_integrity csum_cfg again before pi1 pi2 [] [] true one_sealed = Ok ((r, pic), s') ∧
    inode_checked one_sealed s' pi1 pi2 true r pic ∧ ¬ inode_good (view one_sealed) pi1 ∧ r = 0.
Proof.
  destruct one_sealed_goods as [Hb Hg].
  destruct (inode_integrity_correct csum_cfg eq_refl (λ _ _, eq_refl) again before pi1 pi2 [] [] true one_sealed)
    as (r & pic & s' & E & V).
  - discriminate.
  - discriminate.
  - unfold disjoint_ranges, pi1, pi2, sizeof_nova_inode. lia.
  - exists r, pic, s'. split; [exact E|]. split; [exact V|]. split; [exact Hb|].
    unfold inode_checked in V. rewrite decide_True in V by (right; exact Hg).
    destruct V as [Hr _]. exact Hr.
Defined.
End IntegrityDemo.
