(* ===== verification/NovaBalloc.v ===== *)
(** * NOVA: the block allocator

    [balloc.c]: per-CPU lists of free block ranges.  A range is a node in DRAM
    ([struct nova_range_node]), linked into a red-black tree ordered by
    [range_low]; [first_node] and [last_node] point to its ends.  Nodes are
    shared between the tree and those pointers, so they live in a store
    [nodes] and are named by their address.

    The red-black tree routines are the kernel's: [RBTree] states what
    [lib/rbtree.c] documents of them.  The theorems are in
    [NovaBallocProofs]. *)

From stdpp Require Import base list gmap.
From Stdlib Require Import ZArith Lia.
From coqutil Require Import Byte Word.LittleEndianList.
From S2P Require Import Prelude PMem NovaBase.

Local Open Scope Z_scope.

(** ** Data *)

(** Addresses of range nodes. *)
Abbreviation addr := nat.

(** [struct rb_root]: the shape of the tree. *)
Inductive tree :=
| Leaf
| Node (l : tree) (n : addr) (r : tree).

Fixpoint inorder (t : tree) : list addr :=
  match t with
  | Leaf => []
  | Node l n r => inorder l ++ n :: inorder r
  end.

(** [struct nova_range_node] of the block tree; [vma] and [mmap_entry] stay 0. *)
Record range_node := RangeNode { range_low : Z; range_high : Z; rn_csum : Z }.

(** Allocation statistics of a list. *)
Record fl_stats := FlStats {
  alloc_log_count : Z; alloc_data_count : Z; free_log_count : Z; free_data_count : Z;
  alloc_log_pages : Z; alloc_data_pages : Z; freed_log_pages : Z; freed_data_pages : Z
}.

(** The blocks a list manages: set when the device is initialised. *)
Record fl_layout := FlLayout {
  csum_start : Z; replica_csum_start : Z; num_csum_blocks : Z;
  parity_start : Z; replica_parity_start : Z; num_parity_blocks : Z;
  block_start : Z; block_end : Z
}.

(** [struct free_list]. *)
Record free_list := FreeList {
  block_free_tree : tree;
  first_node : option addr;
  last_node : option addr;
  num_free_blocks : Z;
  num_blocknode : Z;
  layout : fl_layout;
  stats : fl_stats
}.

(** The DRAM state of the allocator, over the persistent memory. *)
Record bstate := BState {
  nodes : gmap addr range_node;
  next_addr : addr;                  (* fresh addresses for the slab cache *)
  lists : list free_list;            (* sbi->free_lists *)
  per_list_blocks : Z;
  pm : cpu
}.
Abbreviation BM := (M bstate).

Definition set_nodes (s : bstate) (h : gmap addr range_node) : bstate :=
  BState h (next_addr s) (lists s) (per_list_blocks s) (pm s).
Definition set_lists (s : bstate) (l : list free_list) : bstate :=
  BState (nodes s) (next_addr s) l (per_list_blocks s) (pm s).
Definition set_tree (fl : free_list) (t : tree) : free_list :=
  FreeList t (first_node fl) (last_node fl) (num_free_blocks fl) (num_blocknode fl) (layout fl) (stats fl).
Definition set_first (fl : free_list) (n : option addr) : free_list :=
  FreeList (block_free_tree fl) n (last_node fl) (num_free_blocks fl) (num_blocknode fl) (layout fl) (stats fl).
Definition set_last (fl : free_list) (n : option addr) : free_list :=
  FreeList (block_free_tree fl) (first_node fl) n (num_free_blocks fl) (num_blocknode fl) (layout fl) (stats fl).
Definition set_num_free (fl : free_list) (n : Z) : free_list :=
  FreeList (block_free_tree fl) (first_node fl) (last_node fl) n (num_blocknode fl) (layout fl) (stats fl).
Definition set_num_node (fl : free_list) (n : Z) : free_list :=
  FreeList (block_free_tree fl) (first_node fl) (last_node fl) (num_free_blocks fl) n (layout fl) (stats fl).
Definition set_layout (fl : free_list) (l : fl_layout) : free_list :=
  FreeList (block_free_tree fl) (first_node fl) (last_node fl) (num_free_blocks fl) (num_blocknode fl) l (stats fl).
Definition set_stats (fl : free_list) (st : fl_stats) : free_list :=
  FreeList (block_free_tree fl) (first_node fl) (last_node fl) (num_free_blocks fl) (num_blocknode fl) (layout fl) st.

(** ** The kernel's red-black trees *)

Class RBTree := {
  rb_insert_color : addr → tree → tree;     (* rebalance after rb_link_node *)
  rb_erase : addr → tree → tree;
  rb_next : tree → addr → option addr;
  rb_prev : tree → addr → option addr;
  rb_first : tree → option addr
}.
(** They keep the order of the nodes and walk it. *)
Class RBTreeLaws `{RBTree} : Prop := {
  rb_insert_color_inorder : ∀ n t, inorder (rb_insert_color n t) = inorder t;
  rb_erase_inorder : ∀ n t l1 l2,
    inorder t = l1 ++ n :: l2 → NoDup (inorder t) → inorder (rb_erase n t) = l1 ++ l2;
  rb_next_inorder : ∀ t n l1 l2,
    inorder t = l1 ++ n :: l2 → NoDup (inorder t) → rb_next t n = head l2;
  rb_prev_inorder : ∀ t n l1 l2,
    inorder t = l1 ++ n :: l2 → NoDup (inorder t) → rb_prev t n = last l1;
  rb_first_inorder : ∀ t, rb_first t = head (inorder t)
}.

(** Module parameters and mount-time values. *)
Record balloc_cfg := BallocCfg {
  dram_struct_csum : bool;
  initsize : Z;                       (* sbi->initsize *)
  num_blocks : Z;                     (* sbi->num_blocks *)
  bc_cpus : Z;                        (* sbi->cpus *)
  head_reserved_blocks : Z;
  tail_reserved_blocks : Z;
  slab_ok : addr → bool               (* whether the allocation of that node succeeds *)
}.

Inductive alloc_type := LOG | DATA.
Inductive nova_alloc_direction := ALLOC_FROM_HEAD | ALLOC_FROM_TAIL.
Definition is_log (a : alloc_type) : bool := match a with LOG => true | DATA => false end.
Definition from_head (d : nova_alloc_direction) : bool :=
  match d with ALLOC_FROM_HEAD => true | ALLOC_FROM_TAIL => false end.

Definition NOVA_STRIPE_SHIFT : Z := 9.
Definition NOVA_STRIPE_SIZE : Z := 512.
Definition NOVA_DATA_CSUM_LEN : Z := 4.
Definition DEAD_ZONE_BLOCKS : Z := 256.
Definition ANY_CPU : Z := 65536.
Definition PAGES_PER_2MB : Z := 512.
Definition PAGES_PER_2MB_MASK : Z := 512 - 1.

(** [nova_get_numblocks]: block types 4K, 2M and 1G are 0, 1 and 2. *)
Definition nova_get_numblocks (btype : Z) : Z :=
  if btype =? 0 then 1 else if btype =? 1 then 512 else 262144.

Section Balloc.
Context `{Crc} `{RBTree}.
Variable bc : balloc_cfg.

(** ** Access to nodes and lists *)

Definition get_node (n : addr) : BM range_node :=
  h ← gets nodes;
  match h !! n with Some nd => mret nd | None => bug end.
Definition put_node (n : addr) (nd : range_node) : BM () :=
  modify (λ s, set_nodes s (<[n := nd]> (nodes s))).
Definition nova_get_free_list (cpu : Z) : BM free_list :=
  l ← gets lists;
  match (if cpu <? 0 then None else l !! Z.to_nat cpu) with Some fl => mret fl | None => bug end.
Definition put_list (cpu : Z) (fl : free_list) : BM () :=
  modify (λ s, set_lists s (<[Z.to_nat cpu := fl]> (lists s))).

(** Slab allocation: zeroed, at a fresh address, or NULL. *)
Definition nova_alloc_blocknode : BM (option addr) :=
  n ← gets next_addr;
  modify (λ s, BState (nodes s) (S n) (lists s) (per_list_blocks s) (pm s));;
  if slab_ok bc n then put_node n (RangeNode 0 0 0);; mret (Some n) else mret None.
Definition nova_alloc_blocknode_atomic : BM (option addr) := nova_alloc_blocknode.
Definition nova_free_blocknode (n : addr) : BM () :=
  modify (λ s, set_nodes s (delete n (nodes s))).

(** ** Range node checksums ([nova.h]) *)

(** The CRC of the bytes from [vma] up to [csum]. *)
Definition nova_calculate_range_node_csum (nd : range_node) : Z :=
  nova_crc32c (2 ^ 32 - 1)
    (bytes_of 8 0 ++ bytes_of 8 0 ++ bytes_of 8 (range_low nd) ++ bytes_of 8 (range_high nd)).

Definition nova_update_range_node_checksum (n : addr) : BM () :=
  nd ← get_node n;
  when (dram_struct_csum bc)
    (put_node n (RangeNode (range_low nd) (range_high nd) (nova_calculate_range_node_csum nd))).

Definition nova_range_node_checksum_ok (n : addr) : BM bool :=
  nd ← get_node n;
  mret (negb (dram_struct_csum bc) || (rn_csum nd =? nova_calculate_range_node_csum nd)).

Definition set_low (n : addr) (v : Z) : BM () :=
  nd ← get_node n; put_node n (RangeNode v (range_high nd) (rn_csum nd)).
Definition set_high (n : addr) (v : Z) : BM () :=
  nd ← get_node n; put_node n (RangeNode (range_low nd) v (rn_csum nd)).

(** ** The tree of ranges *)

(** Block (and inode) nodes compare by range. *)
Definition nova_rbtree_compare_rangenode (curr : range_node) (key : Z) : Z :=
  if key <? range_low curr then -1 else if key >? range_high curr then 1 else 0.

(** [while (temp)]: the hit flag and the last node visited. *)
Fixpoint find_loop (t : tree) (key : Z) (curr : option addr) : BM (bool * option addr) :=
  match t with
  | Leaf => mret (false, curr)
  | Node l n r =>
      nd ← get_node n;
      let c := nova_rbtree_compare_rangenode nd key in
      if c =? -1 then find_loop l key (Some n)
      else if c =? 1 then find_loop r key (Some n)
      else mret (true, Some n)
  end.

(** [ret_node] is written only when the checksum of the last node holds. *)
Definition nova_find_range_node (t : tree) (key : Z) (ret_node : option addr) :
    BM (bool * option addr) :=
  '(ret, curr) ← find_loop t key None;
  ok ← match curr with Some n => nova_range_node_checksum_ok n | None => mret true end;
  if negb (ok : bool) then mret (false, ret_node) else mret (ret, curr).

(** The walk to the leaf and [rb_link_node]; [None] is [-EINVAL]. *)
Fixpoint link_loop (t : tree) (key : Z) (new : addr) : BM (option tree) :=
  match t with
  | Leaf => mret (Some (Node Leaf new Leaf))
  | Node l n r =>
      nd ← get_node n;
      let c := nova_rbtree_compare_rangenode nd key in
      if c =? -1 then
        l' ← link_loop l key new; mret ((λ l', Node l' n r) <$> l')
      else if c =? 1 then
        r' ← link_loop r key new; mret ((λ r', Node l n r') <$> r')
      else mret None
  end.

Definition nova_insert_range_node (t : tree) (new : addr) : BM (Z * tree) :=
  nd ← get_node new;
  t' ← link_loop t (range_low nd) new;
  match t' with
  | None => mret (- EINVAL, t)
  | Some t' => mret (0, rb_insert_color new t')
  end.
Definition nova_insert_blocktree (t : tree) (new : addr) : BM (Z * tree) :=
  nova_insert_range_node t new.

Fixpoint destroy_loop (fuel : nat) (t : tree) (temp : option addr) : BM tree :=
  match temp with
  | None => mret t
  | Some curr =>
      match fuel with
      | O => out_of_fuel
      | S fuel =>
          let temp := rb_next t curr in
          let t := rb_erase curr t in
          nova_free_blocknode curr;;
          destroy_loop fuel t temp
      end
  end.
Definition nova_destroy_range_node_tree (t : tree) : BM tree :=
  destroy_loop (length (inorder t)) t (rb_first t).

(** [prev] and [next] as written through the pointers; the caller passes NULLs. *)
Definition nova_find_free_slot (t : tree) (low high : Z) : BM (Z * option addr * option addr) :=
  '(ret, ret_node) ← nova_find_range_node t low None;
  if (ret : bool) then mret (- EINVAL, None, None) else
  match ret_node with
  | None => mret (0, None, None)
  | Some n =>
      nd ← get_node n;
      if range_high nd <? low then
        let next := rb_next t n in
        ok ← match next with Some x => nova_range_node_checksum_ok x | None => mret true end;
        mret (if (ok : bool) then 0 else - EIO, Some n, next)
      else if range_low nd >? high then
        let prev := rb_prev t n in
        ok ← match prev with Some x => nova_range_node_checksum_ok x | None => mret true end;
        mret (if (ok : bool) then 0 else - EIO, prev, Some n)
      else mret (- EINVAL, None, None)
  end.

(** ** Freeing *)

Definition bump_free (log_page : bool) (num_blocks : Z) (st : fl_stats) : fl_stats :=
  if log_page then
    FlStats (alloc_log_count st) (alloc_data_count st) (u64 (free_log_count st + 1))
      (free_data_count st) (alloc_log_pages st) (alloc_data_pages st)
      (u64 (freed_log_pages st + num_blocks)) (freed_data_pages st)
  else
    FlStats (alloc_log_count st) (alloc_data_count st) (free_log_count st)
      (u64 (free_data_count st + 1)) (alloc_log_pages st) (alloc_data_pages st)
      (freed_log_pages st) (u64 (freed_data_pages st + num_blocks)).

(** The free list after the blocks went in (label [block_found]). *)
Definition block_found (fl : free_list) (num_blocks : Z) (log_page : bool) : free_list :=
  set_stats (set_num_free fl (u64 (num_free_blocks fl + num_blocks)))
    (bump_free log_page num_blocks (stats fl)).

(** Pointer comparison. *)
Definition opt_eqb (a b : option addr) : bool := bool_decide (a = b).

(** Where the range goes once [prev] and [next] are known: the code, the free
    list, and whether the preallocated node was used. *)
Definition free_place (fl : free_list) (block_low block_high num_blocks : Z)
    (prev next : option addr) (curr_node : addr) : BM (Z * free_list * bool) :=
  left ← match prev with
         | Some p => nd ← get_node p; mret (block_low =? u64 (range_high nd + 1))
         | None => mret false
         end;
  right ← match next with
          | Some x => nd ← get_node x; mret (u64 (block_high + 1) =? range_low nd)
          | None => mret false
          end;
  match prev, next, left, right with
  | Some p, Some x, true, true =>          (* fits the hole *)
      let fl := set_tree fl (rb_erase x (block_free_tree fl)) in
      let fl := set_num_node fl (u64 (num_blocknode fl - 1)) in
      nd ← get_node x;
      set_high p (range_high nd);;
      nova_update_range_node_checksum p;;
      let fl := if opt_eqb (last_node fl) (Some x) then set_last fl (Some p) else fl in
      nova_free_blocknode x;;
      mret (0, fl, false)
  | Some p, _, true, _ =>                  (* aligns left *)
      nd ← get_node p;
      set_high p (u64 (range_high nd + num_blocks));;
      nova_update_range_node_checksum p;;
      mret (0, fl, false)
  | _, Some x, _, true =>                  (* aligns right *)
      nd ← get_node x;
      set_low x (u64 (range_low nd - num_blocks));;
      nova_update_range_node_checksum x;;
      mret (0, fl, false)
  | _, _, _, _ =>                          (* aligns somewhere in the middle *)
      set_low curr_node block_low;;
      set_high curr_node block_high;;
      nova_update_range_node_checksum curr_node;;
      '(ret, t) ← nova_insert_blocktree (block_free_tree fl) curr_node;
      if negb (ret =? 0) then mret (ret, fl, false) else
      let fl := set_tree fl t in
      let fl := match prev with None => set_first fl (Some curr_node) | _ => fl end in
      let fl := match next with None => set_last fl (Some curr_node) | _ => fl end in
      mret (0, set_num_node fl (u64 (num_blocknode fl + 1)), true)
  end.

Definition nova_free_blocks (blocknr num btype : Z) (log_page : bool) : BM Z :=
  if num <=? 0 then mret (- EINVAL) else
  per_list ← gets per_list_blocks;
  let cpuid := blocknr / per_list in
  curr_node ← nova_alloc_blocknode;
  match curr_node with
  | None => mret (- ENOMEM)
  | Some curr_node =>
      fl ← nova_get_free_list cpuid;
      let num_blocks := u64 (nova_get_numblocks btype * num) in
      let block_low := blocknr in
      let block_high := u64 (blocknr + num_blocks - 1) in
      if (blocknr <? block_start (layout fl)) ||
         (u64 (blocknr + num) >? u64 (block_end (layout fl) + 1))
      then nova_free_blocknode curr_node;; mret (- EIO) else
      '(ret, prev, next) ← nova_find_free_slot (block_free_tree fl) block_low block_high;
      if negb (ret =? 0) then nova_free_blocknode curr_node;; mret ret else
      '(ret, fl, new_node_used) ←
        free_place fl block_low block_high num_blocks prev next curr_node;
      when (ret =? 0) (put_list cpuid (block_found fl num_blocks log_page));;
      when (negb new_node_used) (nova_free_blocknode curr_node);;
      mret ret
  end.

(** [btype] is [sih->i_blk_type]. *)
Definition nova_free_data_blocks (btype blocknr num : Z) : BM Z :=
  if blocknr =? 0 then mret (- EINVAL) else nova_free_blocks blocknr num btype false.
Definition nova_free_log_blocks (btype blocknr num : Z) : BM Z :=
  if blocknr =? 0 then mret (- EINVAL) else nova_free_blocks blocknr num btype true.

(** ** Allocating *)

Definition not_enough_blocks (fl : free_list) (num_blocks : Z) (atype : alloc_type) : BM bool :=
  match first_node fl, last_node fl with
  | Some first, Some last =>
      if num_free_blocks fl <? num_blocks then mret true else
      f ← get_node first;
      l ← get_node last;
      mret (is_log atype && (u64 (range_high l - range_low f) <? DEAD_ZONE_BLOCKS))
  | _, _ => mret true
  end.

(** The walk of both allocation loops. *)
Definition step_node (d : nova_alloc_direction) (t : tree) (n : addr) : option addr :=
  if from_head d then rb_next t n else rb_prev t n.
Definition start_node (d : nova_alloc_direction) (fl : free_list) : option addr :=
  if from_head d then first_node fl else last_node fl.

(** What a successful visit of [nova_alloc_superpage] does: the number of
    blocks and their first, with the new free list. *)
Definition superpage_take (fl : free_list) (curr : addr) (nd : range_node)
    (num_blocks left_margin : Z) : BM (Z * Z * free_list) :=
  let curr_blocks := u64 (range_high nd - range_low nd + 1) in
  let saved_range_high := range_high nd in
  let new_blocknr := u64 (range_low nd + left_margin) in
  let right_margin := u32 (curr_blocks - left_margin - num_blocks) in
  when (negb (left_margin =? 0))
    (set_high curr (u64 (range_low nd + left_margin - 1));;
     nova_update_range_node_checksum curr);;
  if negb (right_margin =? 0) then
    if negb (left_margin =? 0) then
      node ← nova_alloc_blocknode_atomic;
      match node with
      | None => mret (- ENOMEM, new_blocknr, fl)
      | Some node =>
          set_low node (u64 (range_low nd + left_margin + num_blocks));;
          set_high node saved_range_high;;
          nova_update_range_node_checksum node;;
          '(_, t) ← nova_insert_blocktree (block_free_tree fl) node;
          let fl := set_num_node (set_tree fl t) (u64 (num_blocknode fl + 1)) in
          mret (num_blocks, new_blocknr,
                if opt_eqb (Some curr) (last_node fl) then set_last fl (Some node) else fl)
      end
    else
      set_low curr (u64 (range_low nd + num_blocks));;
      nova_update_range_node_checksum curr;;
      mret (num_blocks, new_blocknr, fl)
  else if left_margin =? 0 then
    let t := block_free_tree fl in
    let '(temp, fl) :=
      if opt_eqb (Some curr) (first_node fl)
      then (rb_next t curr, set_first fl (rb_next t curr)) else (Some curr, fl) in
    let fl :=
      if opt_eqb (Some curr) (last_node fl)
      then set_last fl (match temp with Some x => rb_prev t x | None => None end) else fl in
    nova_free_blocknode curr;;
    mret (num_blocks, new_blocknr,
          set_num_node (set_tree fl (rb_erase curr t)) (u64 (num_blocknode fl - 1)))
  else mret (num_blocks, new_blocknr, fl).

Fixpoint superpage_loop (fuel : nat) (d : nova_alloc_direction) (fl : free_list)
    (num_blocks : Z) (temp : option addr) : BM (Z * Z * free_list) :=
  match temp with
  | None => mret (0, 0, fl)
  | Some curr =>
      match fuel with
      | O => out_of_fuel
      | S fuel =>
          let next := step_node d (block_free_tree fl) curr in
          ok ← nova_range_node_checksum_ok curr;
          if negb (ok : bool) then superpage_loop fuel d fl num_blocks next else
          nd ← get_node curr;
          let curr_blocks := u64 (range_high nd - range_low nd + 1) in
          let left_margin := u32 (PAGES_PER_2MB - Z.land (range_low nd) PAGES_PER_2MB_MASK) in
          let room := u64 (curr_blocks - left_margin) in
          let whole := Z.land room (Z.lnot PAGES_PER_2MB_MASK) in
          let num_blocks := if (num_blocks >? room) && (whole >? 0) then whole else num_blocks in
          if (curr_blocks >? left_margin) && (num_blocks <=? room)
          then superpage_take fl curr nd num_blocks left_margin
          else superpage_loop fuel d fl num_blocks next
      end
  end.

Definition nova_alloc_superpage (fl : free_list) (num_blocks : Z)
    (d : nova_alloc_direction) : BM (Z * Z * free_list) :=
  superpage_loop (length (inorder (block_free_tree fl))) d fl num_blocks (start_node d fl).

Definition IS_DATABLOCKS_2MB_ALIGNED (num_blocks : Z) (atype : alloc_type) : bool :=
  (Z.land num_blocks PAGES_PER_2MB_MASK =? 0) && negb (is_log atype).

(** The first range that serves the request: [Some] of the number of blocks,
    the first block and the list, or [None]. *)
Fixpoint alloc_loop (fuel : nat) (d : nova_alloc_direction) (btype : Z) (fl : free_list)
    (num_blocks : Z) (temp : option addr) : BM (option (Z * Z * free_list)) :=
  match temp with
  | None => mret None
  | Some curr =>
      match fuel with
      | O => out_of_fuel
      | S fuel =>
          let t := block_free_tree fl in
          let next := step_node d t curr in
          ok ← nova_range_node_checksum_ok curr;
          if negb (ok : bool) then alloc_loop fuel d btype fl num_blocks next else
          nd ← get_node curr;
          let curr_blocks := u64 (range_high nd - range_low nd + 1) in
          if num_blocks >=? curr_blocks then
            if (btype >? 0) && (num_blocks >? curr_blocks)
            then alloc_loop fuel d btype fl num_blocks next else
            let fl := if opt_eqb (Some curr) (first_node fl) then set_first fl (rb_next t curr) else fl in
            let fl := if opt_eqb (Some curr) (last_node fl) then set_last fl (rb_prev t curr) else fl in
            let fl := set_num_node (set_tree fl (rb_erase curr t)) (u64 (num_blocknode fl - 1)) in
            nova_free_blocknode curr;;
            mret (Some (curr_blocks, range_low nd, fl))
          else if from_head d then
            set_low curr (u64 (range_low nd + num_blocks));;
            nova_update_range_node_checksum curr;;
            mret (Some (num_blocks, range_low nd, fl))
          else
            set_high curr (u64 (range_high nd - num_blocks));;
            nova_update_range_node_checksum curr;;
            mret (Some (num_blocks, u64 (range_high nd + 1 - num_blocks), fl))
      end
  end.

(** Returns the number of blocks (or an error) and [new_blocknr]. *)
Definition nova_alloc_blocks_in_free_list (cpu btype : Z) (atype : alloc_type)
    (num_blocks new_blocknr : Z) (d : nova_alloc_direction) : BM (Z * Z) :=
  fl ← nova_get_free_list cpu;
  if bool_decide (first_node fl = None) || (num_free_blocks fl =? 0)
  then mret (- ENOSPC, new_blocknr) else
  few ← (if is_log atype then not_enough_blocks fl num_blocks atype else mret false);
  if (few : bool) then mret (- ENOSPC, new_blocknr) else
  let start := start_node d fl in
  '(ret, nb, fl) ←
    (if IS_DATABLOCKS_2MB_ALIGNED num_blocks atype then nova_alloc_superpage fl num_blocks d
     else mret (0, 0, fl));
  put_list cpu fl;;
  if (ret >? 0) && negb (nb =? 0) then
    put_list cpu (set_num_free fl (u64 (num_free_blocks fl - ret)));;
    mret (ret, nb)
  else
    let nb0 := if ret =? 0 then new_blocknr else nb in
    res ← alloc_loop (length (inorder (block_free_tree fl))) d btype fl num_blocks start;
    match res with
    | None => mret (- ENOSPC, nb0)
    | Some (num_blocks, nb, fl) =>
        if num_free_blocks fl <? num_blocks then put_list cpu fl;; mret (- ENOSPC, nb) else
        put_list cpu (set_num_free fl (u64 (num_free_blocks fl - num_blocks)));;
        mret (num_blocks, nb)
    end.

Fixpoint candidate_loop (fls : list free_list) (i cpuid num : Z) : Z :=
  match fls with
  | [] => cpuid
  | fl :: fls =>
      if num_free_blocks fl >? u64 num
      then candidate_loop fls (i + 1) i (s32 (num_free_blocks fl))
      else candidate_loop fls (i + 1) cpuid num
  end.
Definition nova_get_candidate_free_list : BM Z := l ← gets lists; mret (candidate_loop l 0 0 0).

(** [goto retry] at most twice; the list to allocate from. *)
Fixpoint retry_loop (tries : nat) (cpuid num_blocks : Z) (atype : alloc_type) : BM Z :=
  fl ← nova_get_free_list cpuid;
  few ← not_enough_blocks fl num_blocks atype;
  if (few : bool) then
    match tries with
    | O => mret cpuid
    | S tries => cpuid ← nova_get_candidate_free_list; retry_loop tries cpuid num_blocks atype
    end
  else mret cpuid.

Definition bump_alloc (atype : alloc_type) (n : Z) (st : fl_stats) : fl_stats :=
  if is_log atype then
    FlStats (u64 (alloc_log_count st + 1)) (alloc_data_count st) (free_log_count st)
      (free_data_count st) (u64 (alloc_log_pages st + n)) (alloc_data_pages st)
      (freed_log_pages st) (freed_data_pages st)
  else
    FlStats (alloc_log_count st) (u64 (alloc_data_count st + 1)) (free_log_count st)
      (free_data_count st) (alloc_log_pages st) (u64 (alloc_data_pages st + n))
      (freed_log_pages st) (freed_data_pages st).

(** Running code of the persistent-memory level. *)
Definition lift_pm {A} (m : PM A) : BM A := λ s,
  match m (pm s) with
  | Ok (a, c) => Ok (a, BState (nodes s) (next_addr s) (lists s) (per_list_blocks s) c)
  | Bug => Bug
  | OutOfFuel => OutOfFuel
  end.

(** [this_cpu] is [nova_get_cpuid]; the result is the number of blocks (or an
    error) and the value of [*blocknr], which errors leave alone. *)
Definition nova_new_blocks (this_cpu blocknr num btype : Z) (zero : bool) (atype : alloc_type)
    (cpuid : Z) (d : nova_alloc_direction) : BM (Z * Z) :=
  let num_blocks := u64 (num * nova_get_numblocks btype) in
  if num_blocks =? 0 then mret (- EINVAL, blocknr) else
  let cpuid := if cpuid =? ANY_CPU then this_cpu else cpuid in
  cpuid ← retry_loop 2 cpuid num_blocks atype;
  '(ret_blocks, new_blocknr) ← nova_alloc_blocks_in_free_list cpuid btype atype num_blocks 0 d;
  when (ret_blocks >? 0)
    (fl ← nova_get_free_list cpuid;
     put_list cpuid (set_stats fl (bump_alloc atype ret_blocks (stats fl))));;
  if (ret_blocks <=? 0) || (new_blocknr =? 0) then mret (- ENOSPC, blocknr) else
  when zero
    (lift_pm (bp ← deref (nova_get_block (nova_get_block_off new_blocknr));
              memset_nt bp 0 (PAGE_SIZE * ret_blocks)));;
  mret (ret_blocks / nova_get_numblocks btype, new_blocknr).

Definition nova_new_data_blocks (this_cpu btype blocknr num : Z) (zero : bool) (cpu : Z)
    (d : nova_alloc_direction) : BM (Z * Z) :=
  nova_new_blocks this_cpu blocknr num btype zero DATA cpu d.
Definition nova_new_log_blocks (this_cpu btype blocknr num : Z) (zero : bool) (cpu : Z)
    (d : nova_alloc_direction) : BM (Z * Z) :=
  nova_new_blocks this_cpu blocknr num btype zero LOG cpu d.

Definition nova_count_free_blocks : BM Z :=
  l ← gets lists; mret (foldl (λ a fl, u64 (a + num_free_blocks fl)) 0 l).

(** ** Initialisation *)

Definition no_stats : fl_stats := FlStats 0 0 0 0 0 0 0 0.
Definition empty_list : free_list :=
  FreeList Leaf None None 0 0 (FlLayout 0 0 0 0 0 0 0 0) no_stats.

(** [kcalloc_ok]: the array could be allocated. *)
Definition nova_alloc_block_free_lists (kcalloc_ok : bool) : BM Z :=
  if negb kcalloc_ok then mret (- ENOMEM) else
  modify (λ s, set_lists s (replicate (Z.to_nat (bc_cpus bc)) empty_list));;
  mret 0.

Definition nova_delete_free_lists : BM () := modify (λ s, set_lists s []).

Definition nova_data_csum_init_free_list (l : fl_layout) : fl_layout :=
  let data_csum_blocks :=
    Z.shiftr (u64 (Z.shiftr (initsize bc) NOVA_STRIPE_SHIFT * NOVA_DATA_CSUM_LEN)) PAGE_SHIFT in
  let csum_start := block_start l in
  let start := u64 (block_start l + data_csum_blocks / bc_cpus bc) in
  let start := if data_csum_blocks mod bc_cpus bc =? 0 then start else u64 (start + 1) in
  let n := u64 (start - csum_start) in
  FlLayout csum_start (u64 (block_end l + 1 - n)) n
    (parity_start l) (replica_parity_start l) (num_parity_blocks l)
    start (u64 (block_end l - n)).

Definition nova_data_parity_init_free_list (l : fl_layout) : fl_layout :=
  let total_blocks := initsize bc / PAGE_SIZE in
  let unit := PAGE_SIZE / NOVA_STRIPE_SIZE + 1 in
  let parity_blocks := total_blocks / unit in
  let parity_blocks := if total_blocks mod unit =? 0 then parity_blocks else parity_blocks + 1 in
  let parity_start := block_start l in
  let start := u64 (block_start l + parity_blocks / bc_cpus bc) in
  let start := if parity_blocks mod bc_cpus bc =? 0 then start else u64 (start + 1) in
  let n := u64 (start - parity_start) in
  FlLayout (csum_start l) (replica_csum_start l) (num_csum_blocks l)
    parity_start (u64 (block_end l + 1 - n)) n start (block_end l).

Definition nova_init_free_list (l : fl_layout) (index : Z) : fl_layout :=
  let per_list_blocks := num_blocks bc / bc_cpus bc in
  let start := u64 (per_list_blocks * index) in
  let fin := u64 (start + per_list_blocks - 1) in
  let start := if index =? 0 then u64 (start + head_reserved_blocks bc) else start in
  let fin := if index =? bc_cpus bc - 1 then u64 (fin - tail_reserved_blocks bc) else fin in
  nova_data_parity_init_free_list (nova_data_csum_init_free_list
    (FlLayout (csum_start l) (replica_csum_start l) (num_csum_blocks l) (parity_start l)
       (replica_parity_start l) (num_parity_blocks l) start fin)).

Fixpoint init_blockmap_loop (n : nat) (i : Z) (recovery : bool) : BM () :=
  match n with
  | O => mret ()
  | S n =>
      fl ← nova_get_free_list i;
      let fl := set_layout fl (nova_init_free_list (layout fl) i) in
      if recovery then put_list i fl;; init_blockmap_loop n (i + 1) recovery else
      let lo := block_start (layout fl) in
      let hi := block_end (layout fl) in
      let fl := set_num_free fl (u64 (hi - lo + 1)) in
      blknode ← nova_alloc_blocknode;
      match blknode with
      | None => bug
      | Some b =>
          set_low b lo;;
          set_high b hi;;
          nova_update_range_node_checksum b;;
          '(ret, t) ← nova_insert_blocktree (block_free_tree fl) b;
          if negb (ret =? 0) then put_list i fl;; nova_free_blocknode b else
          put_list i (set_num_node (set_last (set_first (set_tree fl t) (Some b)) (Some b)) 1);;
          init_blockmap_loop n (i + 1) recovery
      end
  end.

Definition nova_init_blockmap (recovery : bool) : BM () :=
  modify (λ s, BState (nodes s) (next_addr s) (lists s) (num_blocks bc / bc_cpus bc) (pm s));;
  init_blockmap_loop (Z.to_nat (bc_cpus bc)) 0 recovery.
End Balloc.
