(* ===== verification/NovaBallocProofs.v ===== *)
(** * NOVA: correctness of the block allocator

    A free list is well formed when its tree, read in order, is a sorted list
    of disjoint, non-adjacent ranges that the nodes hold, and its counters and
    end pointers agree with it ([wf_list]).  Freeing and allocating preserve
    that invariant and act on the set of free blocks as they should. *)

From stdpp Require Import base list gmap sorting.
From Stdlib Require Import ZArith Lia.
From coqutil Require Import Byte Word.LittleEndianList.
From S2P Require Import Prelude PMem NovaBase NovaBalloc.

Local Open Scope Z_scope.

(** ** The abstract view of a list: its ranges in order *)

Record range := Range { r_addr : addr; r_lo : Z; r_hi : Z }.

(** Strictly apart: there is a block between them. *)
Definition apart (x y : range) : Prop := r_hi x + 1 < r_lo y.
Definition range_ok (x : range) : Prop := 0 <= r_lo x <= r_hi x ∧ r_hi x < 2 ^ 62.
Definition in_ranges (rs : list range) (b : Z) : Prop := ∃ x, x ∈ rs ∧ r_lo x <= b <= r_hi x.
Definition sizes (rs : list range) : Z := foldr (λ x n, r_hi x - r_lo x + 1 + n) 0 rs.

Lemma sizes_app rs1 rs2 : sizes (rs1 ++ rs2) = sizes rs1 + sizes rs2.
Proof. induction rs1 as [|x rs IH]; simpl; [done|]. rewrite IH. lia. Qed.

Lemma in_ranges_app rs1 rs2 b : in_ranges (rs1 ++ rs2) b ↔ in_ranges rs1 b ∨ in_ranges rs2 b.
Proof. unfold in_ranges. setoid_rewrite elem_of_app. naive_solver. Qed.
Lemma in_ranges_cons x rs b :
  in_ranges (x :: rs) b ↔ r_lo x <= b <= r_hi x ∨ in_ranges rs b.
Proof. unfold in_ranges. setoid_rewrite elem_of_cons. naive_solver. Qed.
Lemma in_ranges_nil b : ¬ in_ranges [] b.
Proof. by intros (x & ?%elem_of_nil & _). Qed.

Lemma sizes_nonneg rs : Forall range_ok rs → 0 <= sizes rs.
Proof. induction 1 as [|x rs [Hx _] _ IH]; simpl; lia. Qed.

Section Proofs.
#[local] Set Default Proof Using "All".
Context `{Crc} `{RBTree} `{!RBTreeLaws}.
Variable bc : balloc_cfg.

(** ** The invariant *)

Definition csum_ok (nd : range_node) : Prop :=
  dram_struct_csum bc = true → rn_csum nd = nova_calculate_range_node_csum nd.
Definition holds (h : gmap addr range_node) (x : range) : Prop :=
  ∃ nd, h !! r_addr x = Some nd ∧ range_low nd = r_lo x ∧ range_high nd = r_hi x ∧ csum_ok nd.

(** The nodes [h] hold the ranges [rs]. *)
Record wf_ranges (h : gmap addr range_node) (rs : list range) : Prop := {
  wr_nodup : NoDup (r_addr <$> rs);
  wr_holds : Forall (holds h) rs;
  wr_sorted : StronglySorted apart rs;
  wr_ok : Forall range_ok rs
}.

(** The tree, the end pointers and the node count of [fl] present [rs]. *)
Record wf_shape (h : gmap addr range_node) (fl : free_list) (rs : list range) : Prop := {
  ws_tree : inorder (block_free_tree fl) = r_addr <$> rs;
  ws_ranges : wf_ranges h rs;
  ws_first : first_node fl = r_addr <$> head rs;
  ws_last : last_node fl = r_addr <$> last rs;
  ws_nodes : num_blocknode fl = Z.of_nat (length rs)
}.
Record wf_list (h : gmap addr range_node) (fl : free_list) (rs : list range) : Prop := {
  wl_shape : wf_shape h fl rs;
  wl_free : num_free_blocks fl = sizes rs;
  wl_size : sizes rs < 2 ^ 62
}.

(** *** Access *)

Lemma get_node_eq n nd s : nodes s !! n = Some nd → get_node n s = Ok (nd, s).
Proof. intros Hn. unfold get_node. erewrite bind_Ok; [|done]. by rewrite Hn. Qed.

Lemma put_node_eq n nd s : put_node n nd s = Ok ((), set_nodes s (<[n := nd]> (nodes s))).
Proof. done. Qed.

Lemma set_nodes_nodes s h : nodes (set_nodes s h) = h.
Proof. done. Qed.
Lemma set_nodes_twice s h1 h2 : set_nodes (set_nodes s h1) h2 = set_nodes s h2.
Proof. done. Qed.
Lemma set_nodes_id s : set_nodes s (nodes s) = s.
Proof. by destruct s. Qed.

(** A node with its checksum brought up to date. *)
Definition sealed (nd : range_node) : range_node :=
  if dram_struct_csum bc
  then RangeNode (range_low nd) (range_high nd) (nova_calculate_range_node_csum nd) else nd.

Lemma sealed_low nd : range_low (sealed nd) = range_low nd.
Proof. unfold sealed. by destruct (dram_struct_csum bc). Qed.
Lemma sealed_high nd : range_high (sealed nd) = range_high nd.
Proof. unfold sealed. by destruct (dram_struct_csum bc). Qed.
Lemma sealed_ok nd : csum_ok (sealed nd).
Proof. unfold csum_ok, sealed. by intros ->. Qed.

Lemma update_checksum_eq n nd s :
  nodes s !! n = Some nd →
  nova_update_range_node_checksum bc n s = Ok ((), set_nodes s (<[n := sealed nd]> (nodes s))).
Proof.
  intros Hn. unfold nova_update_range_node_checksum, sealed.
  erewrite bind_Ok; [|by apply get_node_eq]. destruct (dram_struct_csum bc); [done|].
  simpl. rewrite insert_id by done. by rewrite set_nodes_id.
Qed.

Lemma set_low_eq n nd v s :
  nodes s !! n = Some nd →
  set_low n v s = Ok ((), set_nodes s (<[n := RangeNode v (range_high nd) (rn_csum nd)]> (nodes s))).
Proof. intros Hn. unfold set_low. by erewrite bind_Ok; [|by apply get_node_eq]. Qed.
Lemma set_high_eq n nd v s :
  nodes s !! n = Some nd →
  set_high n v s = Ok ((), set_nodes s (<[n := RangeNode (range_low nd) v (rn_csum nd)]> (nodes s))).
Proof. intros Hn. unfold set_high. by erewrite bind_Ok; [|by apply get_node_eq]. Qed.

Lemma checksum_ok_eq n nd s :
  nodes s !! n = Some nd → csum_ok nd → nova_range_node_checksum_ok bc n s = Ok (true, s).
Proof.
  intros Hn Hok. unfold nova_range_node_checksum_ok.
  erewrite bind_Ok; [|by apply get_node_eq]. unfold csum_ok in Hok.
  destruct (dram_struct_csum bc); [|done]. by rewrite Hok, Z.eqb_refl.
Qed.

(** Setting a bound of a node and sealing it. *)
Lemma set_high_sealed n nd v s :
  nodes s !! n = Some nd →
  (set_high n v;; nova_update_range_node_checksum bc n) s =
  Ok ((), set_nodes s (<[n := sealed (RangeNode (range_low nd) v (rn_csum nd))]> (nodes s))).
Proof.
  intros Hn. erewrite bind_Ok; [|by apply set_high_eq].
  erewrite update_checksum_eq; [|apply lookup_insert_eq]. simpl.
  by rewrite insert_insert_eq.
Qed.
Lemma set_low_sealed n nd v s :
  nodes s !! n = Some nd →
  (set_low n v;; nova_update_range_node_checksum bc n) s =
  Ok ((), set_nodes s (<[n := sealed (RangeNode v (range_high nd) (rn_csum nd))]> (nodes s))).
Proof.
  intros Hn. erewrite bind_Ok; [|by apply set_low_eq].
  erewrite update_checksum_eq; [|apply lookup_insert_eq]. simpl.
  by rewrite insert_insert_eq.
Qed.

(** *** Ranges *)

Lemma holds_node h x : holds h x → ∃ nd, h !! r_addr x = Some nd ∧
  range_low nd = r_lo x ∧ range_high nd = r_hi x ∧ csum_ok nd.
Proof. done. Qed.

Lemma holds_ext h h' x : h' !! r_addr x = h !! r_addr x → holds h x → holds h' x.
Proof. intros E (nd & ? & ?). exists nd. by rewrite E. Qed.

Lemma holds_sealed h a lo hi c :
  holds (<[a := sealed (RangeNode lo hi c)]> h) (Range a lo hi).
Proof.
  eexists. split; [apply lookup_insert_eq|].
  rewrite sealed_low, sealed_high. split_and!; try done. apply sealed_ok.
Qed.

Lemma wf_ranges_app h rs1 rs2 :
  wf_ranges h (rs1 ++ rs2) ↔
  wf_ranges h rs1 ∧ wf_ranges h rs2 ∧
  (∀ x y, x ∈ rs1 → y ∈ rs2 → apart x y ∧ r_addr x ≠ r_addr y).
Proof.
  split.
  - intros [Hn Hh Hs Ho]. rewrite fmap_app, NoDup_app in Hn. destruct Hn as (Hn1 & Hn & Hn2).
    rewrite Forall_app in Hh, Ho. destruct Hh, Ho.
    apply StronglySorted_app in Hs as (Hs & Hs1 & Hs2).
    split; [by constructor|]. split; [by constructor|].
    intros x y Hx Hy. split; [by apply Hs|]. intros E.
    apply (Hn (r_addr x)); [by apply list_elem_of_fmap_2|].
    rewrite E. by apply list_elem_of_fmap_2.
  - intros ([] & [] & Hd). constructor.
    + rewrite fmap_app, NoDup_app. split_and!; try done. intros a Ha Hb.
      apply list_elem_of_fmap in Ha as (x & -> & Hx). apply list_elem_of_fmap in Hb as (y & E & Hy).
      by destruct (Hd x y Hx Hy).
    + by apply Forall_app.
    + apply StronglySorted_app. split_and!; try done. intros x y Hx Hy. by apply Hd.
    + by apply Forall_app.
Qed.

Lemma wf_ranges_cons h x rs :
  wf_ranges h (x :: rs) ↔
  holds h x ∧ range_ok x ∧ wf_ranges h rs ∧ (∀ y, y ∈ rs → apart x y ∧ r_addr x ≠ r_addr y).
Proof.
  change (x :: rs) with ([x] ++ rs). rewrite wf_ranges_app. split.
  - intros ([_ Hh _ Ho] & ? & Hd). rewrite Forall_singleton in Hh. rewrite Forall_singleton in Ho. split_and!; try done.
    intros y. apply Hd. by apply list_elem_of_singleton.
  - intros (Hh & Ho & ? & Hd). split_and!; [|done|].
    + constructor; simpl; [apply NoDup_singleton|by constructor|by repeat constructor|by constructor].
    + intros z y ->%list_elem_of_singleton. apply Hd.
Qed.

Lemma wf_ranges_nil h : wf_ranges h [].
Proof. repeat constructor. Qed.

Lemma wf_ranges_ext h h' rs :
  (∀ x, x ∈ rs → h' !! r_addr x = h !! r_addr x) → wf_ranges h rs → wf_ranges h' rs.
Proof.
  intros E [Hn Hh Hs Ho]. constructor; try done. rewrite Forall_forall in *.
  intros x Hx. eapply holds_ext; [by apply E|by apply Hh].
Qed.

Lemma in_ranges_below rs b : Forall (λ x, r_hi x < b) rs → ¬ in_ranges rs b.
Proof. rewrite Forall_forall. intros Hall (x & Hx & ?). specialize (Hall x Hx). lia. Qed.
Lemma in_ranges_above rs b : Forall (λ x, b < r_lo x) rs → ¬ in_ranges rs b.
Proof. rewrite Forall_forall. intros Hall (x & Hx & ?). specialize (Hall x Hx). lia. Qed.

(** ** The tree walk *)

(** [key] splits [rs]; a neighbour of the gap is at [c]. *)
Definition gap_at (rs : list range) (key : Z) (l1 l2 : list range) (c : addr) : Prop :=
  rs = l1 ++ l2 ∧ Forall (λ x, r_hi x < key) l1 ∧ Forall (λ x, key < r_lo x) l2 ∧
  (Some c = r_addr <$> last l1 ∨ Some c = r_addr <$> head l2).

Lemma compare_cases nd key :
  nova_rbtree_compare_rangenode nd key = -1 ∧ key < range_low nd ∨
  nova_rbtree_compare_rangenode nd key = 1 ∧ range_low nd <= key ∧ range_high nd < key ∨
  nova_rbtree_compare_rangenode nd key = 0 ∧ range_low nd <= key <= range_high nd.
Proof.
  unfold nova_rbtree_compare_rangenode.
  destruct (Z.ltb_spec key (range_low nd)); [by left|].
  destruct (Z.gtb_spec key (range_high nd)); [right; left|right; right]; lia.
Qed.

Lemma inorder_split t1 n t2 rs :
  inorder t1 ++ n :: inorder t2 = r_addr <$> rs →
  ∃ l1 x l2, rs = l1 ++ x :: l2 ∧ r_addr x = n ∧
    inorder t1 = r_addr <$> l1 ∧ inorder t2 = r_addr <$> l2.
Proof.
  intros E. symmetry in E. apply fmap_app_inv in E as (l1 & l2 & E1 & E2 & ->).
  symmetry in E2. apply fmap_cons_inv in E2 as (x & l2' & -> & E2 & ->).
  by exists l1, x, l2'.
Qed.

Lemma sorted_around h l1 x l2 key :
  wf_ranges h (l1 ++ x :: l2) →
  (key < r_lo x → Forall (λ y, key < r_lo y) l2) ∧
  (r_hi x < key → Forall (λ y, r_hi y < key) l1).
Proof.
  rewrite wf_ranges_app, wf_ranges_cons. intros (W1 & (_ & Ho & W2 & Hx) & Hd).
  unfold apart, range_ok in *. destruct Ho. rewrite !Forall_forall. split.
  - intros Hk y Hy. destruct (Hx y Hy). lia.
  - intros Hk y Hy. destruct (Hd y x Hy); [apply list_elem_of_here|]. destruct W1 as [_ _ _ Ho1].
    lia.
Qed.

Lemma find_loop_spec t : ∀ rs key curr s,
  inorder t = r_addr <$> rs → wf_ranges (nodes s) rs →
  (∃ x, x ∈ rs ∧ r_lo x <= key <= r_hi x ∧
     find_loop t key curr s = Ok ((true, Some (r_addr x)), s)) ∨
  (rs = [] ∧ find_loop t key curr s = Ok ((false, curr), s)) ∨
  (∃ c l1 l2, find_loop t key curr s = Ok ((false, Some c), s) ∧ gap_at rs key l1 l2 c).
Proof.
  induction t as [|t1 IH1 n t2 IH2]; intros rs key curr s E W.
  { right; left. destruct rs; [done|done]. }
  simpl in E. apply inorder_split in E as (l1 & x & l2 & -> & <- & E1 & E2).
  pose proof W as W'. rewrite wf_ranges_app, wf_ranges_cons in W'.
  destruct W' as (W1 & ((nd & Hnd & Hlo & Hhi & Hcs) & Hox & W2 & Hx) & Hd).
  destruct (sorted_around _ _ _ _ key W) as [Habove Hbelow].
  simpl. erewrite bind_Ok; [|by apply get_node_eq].
  destruct (compare_cases nd key) as [(-> & Hk)|[(-> & Hk1 & Hk)|(-> & Hk)]];
    rewrite ?Hlo, ?Hhi in *; simpl.
  - specialize (Habove Hk).
    destruct (IH1 l1 key (Some (r_addr x)) s E1 W1) as
      [(y & Hy & Hky & ->)|[(-> & ->)|(c & k1 & k2 & -> & (-> & F1 & F2 & Hc))]].
    + left. exists y. split_and!; [apply elem_of_app; by left|lia..|done].
    + right; right. exists (r_addr x), [], (x :: l2). split; [done|].
      split_and!; [done|constructor|by constructor|by right].
    + right; right. exists c, k1, (k2 ++ x :: l2). split; [done|].
      split_and!; [by rewrite <- app_assoc|done| |].
      * apply Forall_app. split; [done|by constructor].
      * destruct Hc as [?|Hc]; [by left|right]. by destruct k2.
  - specialize (Hbelow Hk).
    destruct (IH2 l2 key (Some (r_addr x)) s E2 W2) as
      [(y & Hy & Hky & ->)|[(-> & ->)|(c & k1 & k2 & -> & (-> & F1 & F2 & Hc))]].
    + left. exists y. split_and!; [|lia..|done]. apply elem_of_app. right.
      by apply list_elem_of_further.
    + right; right. exists (r_addr x), (l1 ++ [x]), []. split; [done|].
      split_and!; [by rewrite <- app_assoc| |constructor|].
      * apply Forall_app. split; [done|by repeat constructor].
      * left. by rewrite last_snoc.
    + right; right. exists c, (l1 ++ x :: k1), k2. split; [done|].
      split_and!; [by rewrite <- app_assoc| |done|].
      * apply Forall_app. split; [done|by constructor].
      * destruct Hc as [Hc|?]; [left|by right].
        destruct (last k1) as [z|] eqn:Ez; [|done].
        apply last_Some in Ez as (k1' & ->).
        by rewrite app_comm_cons, app_assoc, last_snoc.
  - left. exists x. split_and!; [apply elem_of_app; right; apply list_elem_of_here|lia..|done].
Qed.

(** The walk that links a new node reaches the gap of its key. *)
Lemma link_loop_spec t new : ∀ rs key s,
  inorder t = r_addr <$> rs → wf_ranges (nodes s) rs → ¬ in_ranges rs key →
  ∃ t' l1 l2, link_loop t key new s = Ok (Some t', s) ∧
    inorder t' = (r_addr <$> l1) ++ new :: (r_addr <$> l2) ∧
    rs = l1 ++ l2 ∧ Forall (λ x, r_hi x < key) l1 ∧ Forall (λ x, key < r_lo x) l2.
Proof.
  induction t as [|t1 IH1 n t2 IH2]; intros rs key s E W Hno.
  { exists (Node Leaf new Leaf), [], []. destruct rs; [by split_and!; try constructor|done]. }
  simpl in E. apply inorder_split in E as (l1 & x & l2 & -> & <- & E1 & E2).
  pose proof W as W'. rewrite wf_ranges_app, wf_ranges_cons in W'.
  destruct W' as (W1 & ((nd & Hnd & Hlo & Hhi & Hcs) & Hox & W2 & Hx) & Hd).
  destruct (sorted_around _ _ _ _ key W) as [Habove Hbelow].
  rewrite in_ranges_app, in_ranges_cons in Hno.
  simpl. erewrite bind_Ok; [|by apply get_node_eq].
  destruct (compare_cases nd key) as [(-> & Hk)|[(-> & Hk1 & Hk)|(-> & Hk)]];
    rewrite ?Hlo, ?Hhi in *; simpl; [| |naive_solver].
  - destruct (IH1 l1 key s E1 W1) as (t' & k1 & k2 & Ht & Hi & -> & F1 & F2); [naive_solver|].
    exists (Node t' (r_addr x) t2), k1, (k2 ++ x :: l2). simpl.
    erewrite bind_Ok; [|exact Ht]. split_and!; try done.
    + rewrite Hi, E2, <- app_assoc, fmap_app. done.
    + by rewrite <- app_assoc.
    + apply Forall_app. split; [done|]. constructor; [done|auto].
  - destruct (IH2 l2 key s E2 W2) as (t' & k1 & k2 & Ht & Hi & -> & F1 & F2); [naive_solver|].
    exists (Node t1 (r_addr x) t'), (l1 ++ x :: k1), k2. simpl.
    erewrite bind_Ok; [|exact Ht]. split_and!; try done.
    + rewrite Hi, E1, fmap_app, <- app_assoc. done.
    + by rewrite <- app_assoc.
    + apply Forall_app. split; [auto|]. constructor; [done|auto].
Qed.

(** Two splits of a sorted list at the same key are the same split. *)
Lemma split_unique (l1 l2 k1 k2 : list range) key :
  l1 ++ l2 = k1 ++ k2 → Forall range_ok (l1 ++ l2) →
  Forall (λ x, r_hi x < key) l1 → Forall (λ x, key < r_lo x) l2 →
  Forall (λ x, r_hi x < key) k1 → Forall (λ x, key < r_lo x) k2 → l1 = k1 ∧ l2 = k2.
Proof.
  revert k1. induction l1 as [|x l1 IH]; intros [|y k1] E Ho F1 F2 G1 G2; simpl in *.
  - done.
  - subst l2. apply Forall_cons in F2 as [F2 _]. apply Forall_cons in G1 as [G1 _].
    apply Forall_cons in Ho as [[Ho _] _]. lia.
  - subst k2. apply Forall_cons in G2 as [G2 _]. apply Forall_cons in F1 as [F1 _].
    apply Forall_cons in Ho as [[Ho _] _]. lia.
  - injection E as <- E. apply Forall_cons in F1 as [? F1]. apply Forall_cons in G1 as [? G1].
    apply Forall_cons in Ho as [? Ho]. destruct (IH k1 E Ho F1 F2 G1 G2) as [-> ->]. done.
Qed.

Lemma insert_blocktree_spec t new nd l1 l2 s :
  inorder t = r_addr <$> (l1 ++ l2) → wf_ranges (nodes s) (l1 ++ l2) →
  nodes s !! new = Some nd →
  Forall (λ x, r_hi x < range_low nd) l1 → Forall (λ x, range_low nd < r_lo x) l2 →
  ∃ t', nova_insert_blocktree t new s = Ok ((0, t'), s) ∧
    inorder t' = (r_addr <$> l1) ++ new :: (r_addr <$> l2).
Proof.
  intros E W Hnd F1 F2. unfold nova_insert_blocktree, nova_insert_range_node.
  erewrite bind_Ok; [|by apply get_node_eq].
  destruct (link_loop_spec t new _ (range_low nd) s E W) as (t' & k1 & k2 & Ht & Hi & Ek & G1 & G2).
  { rewrite in_ranges_app. intros [?|?]; [by eapply in_ranges_below|by eapply in_ranges_above]. }
  destruct (split_unique l1 l2 k1 k2 (range_low nd)) as [-> ->]; try done; [apply W|].
  erewrite bind_Ok; [|exact Ht]. exists (rb_insert_color new t').
  by rewrite rb_insert_color_inorder.
Qed.

Lemma rb_next_at t l1 x l2 :
  inorder t = r_addr <$> (l1 ++ x :: l2) → NoDup (r_addr <$> (l1 ++ x :: l2)) →
  rb_next t (r_addr x) = r_addr <$> head l2.
Proof.
  intros E Hn. erewrite rb_next_inorder; [|by rewrite E, fmap_app|by rewrite E].
  by destruct l2.
Qed.
Lemma rb_prev_at t l1 x l2 :
  inorder t = r_addr <$> (l1 ++ x :: l2) → NoDup (r_addr <$> (l1 ++ x :: l2)) →
  rb_prev t (r_addr x) = r_addr <$> last l1.
Proof.
  intros E Hn. erewrite rb_prev_inorder; [|by rewrite E, fmap_app|by rewrite E].
  by rewrite fmap_last.
Qed.
Lemma rb_erase_at t l1 x l2 :
  inorder t = r_addr <$> (l1 ++ x :: l2) → NoDup (r_addr <$> (l1 ++ x :: l2)) →
  inorder (rb_erase (r_addr x) t) = r_addr <$> (l1 ++ l2).
Proof.
  intros E Hn. erewrite rb_erase_inorder; [|by rewrite E, fmap_app|by rewrite E].
  by rewrite fmap_app.
Qed.

Lemma wf_holds h rs x : wf_ranges h rs → x ∈ rs → holds h x.
Proof. intros [_ Hh _ _] Hx. rewrite Forall_forall in Hh. auto. Qed.

Lemma checksum_ok_opt rs o s :
  wf_ranges (nodes s) rs → (∀ x, o = Some x → x ∈ rs) →
  (match r_addr <$> o with Some n => nova_range_node_checksum_ok bc n | None => mret true end) s =
  Ok (true, s).
Proof.
  intros W Ho. destruct o as [x|]; [|done]. simpl.
  destruct (wf_holds _ _ x W) as (nd & Hn & _ & _ & Hc); [by apply Ho|].
  by eapply checksum_ok_eq.
Qed.

Lemma last_in {A} (l : list A) x : last l = Some x → x ∈ l.
Proof. intros (l' & ->)%last_Some. apply elem_of_app. right. by apply list_elem_of_singleton. Qed.
Lemma head_in {A} (l : list A) x : head l = Some x → x ∈ l.
Proof. intros (l' & ->)%head_Some. apply list_elem_of_here. Qed.

(** *** [nova_find_free_slot] *)

Lemma find_range_node_spec t rs key s :
  inorder t = r_addr <$> rs → wf_ranges (nodes s) rs →
  (∃ x, x ∈ rs ∧ r_lo x <= key <= r_hi x ∧
     nova_find_range_node bc t key None s = Ok ((true, Some (r_addr x)), s)) ∨
  (rs = [] ∧ nova_find_range_node bc t key None s = Ok ((false, None), s)) ∨
  (∃ c l1 l2, nova_find_range_node bc t key None s = Ok ((false, Some c), s) ∧ gap_at rs key l1 l2 c).
Proof.
  intros E W. unfold nova_find_range_node.
  destruct (find_loop_spec t rs key None s E W) as
    [(x & Hx & Hk & Hf)|[(-> & Hf)|(c & l1 & l2 & Hf & Hg)]].
  - left. exists x. split_and!; [done|lia..|]. erewrite bind_Ok; [|exact Hf]. cbn beta iota.
    erewrite bind_Ok; [|apply (checksum_ok_opt rs (Some x)); [done|by intros ? [= <-]]]. done.
  - right; left. split; [done|]. erewrite bind_Ok; [|exact Hf]. cbn beta iota. done.
  - right; right. exists c, l1, l2. split; [|done]. erewrite bind_Ok; [|exact Hf]. cbn beta iota.
    destruct Hg as (-> & _ & _ & Hc).
    destruct Hc as [Hc|Hc]; (destruct (_ : option range) as [z|] eqn:Ez in Hc; [|done]);
      simpl in Hc; injection Hc as ->.
    + erewrite bind_Ok; [|apply (checksum_ok_opt (l1 ++ l2) (Some z)); [done|]]; [done|].
      intros ? [= <-]. apply elem_of_app. left. by apply last_in.
    + erewrite bind_Ok; [|apply (checksum_ok_opt (l1 ++ l2) (Some z)); [done|]]; [done|].
      intros ? [= <-]. apply elem_of_app. right. by apply head_in.
Qed.

(** A range that starts inside a free one is refused. *)
Lemma find_free_slot_taken t rs low high s :
  inorder t = r_addr <$> rs → wf_ranges (nodes s) rs → in_ranges rs low →
  nova_find_free_slot bc t low high s = Ok ((- EINVAL, None, None), s).
Proof.
  intros E W (x & Hx & Hk). unfold nova_find_free_slot.
  destruct (find_range_node_spec t rs low s E W) as
    [(y & _ & _ & Hf)|[(-> & Hf)|(c & l1 & l2 & Hf & (-> & F1 & F2 & _))]].
  - by erewrite bind_Ok; [|exact Hf].
  - by apply elem_of_nil in Hx.
  - exfalso. rewrite !Forall_forall in *. apply elem_of_app in Hx as [Hx|Hx].
    + specialize (F1 x Hx). simpl in F1. lia.
    + specialize (F2 x Hx). simpl in F2. lia.
Qed.

(** A range outside the free ones gets exactly its neighbours. *)
Lemma find_free_slot_spec t rs low high s :
  inorder t = r_addr <$> rs → wf_ranges (nodes s) rs → low <= high →
  (∀ b, low <= b <= high → ¬ in_ranges rs b) →
  ∃ l1 l2, rs = l1 ++ l2 ∧
    Forall (λ x, r_hi x < low) l1 ∧ Forall (λ x, high < r_lo x) l2 ∧
    nova_find_free_slot bc t low high s = Ok ((0, r_addr <$> last l1, r_addr <$> head l2), s).
Proof.
  intros E W Hlh Hno. unfold nova_find_free_slot.
  destruct (find_range_node_spec t rs low s E W) as
    [(y & Hy & Hk & _)|[(-> & Hf)|(c & l1 & l2 & Hf & (-> & F1 & F2 & Hc))]].
  - destruct (Hno low); [lia|by exists y].
  - exists [], []. erewrite bind_Ok; [|exact Hf]. by split_and!; try constructor.
  - assert (F2' : Forall (λ x, high < r_lo x) l2).
    { rewrite Forall_forall in *. intros x Hx. specialize (F2 x Hx). simpl in F2.
      destruct (decide (high < r_lo x)); [done|].
      destruct (Hno (r_lo x)); [lia|]. exists x. split; [apply elem_of_app; by right|].
      destruct W as [_ _ _ Ho]. rewrite Forall_forall in Ho.
      destruct (Ho x); [apply elem_of_app; by right|lia]. }
    exists l1, l2. split_and!; [done..|]. erewrite bind_Ok; [|exact Hf]. cbn beta iota.
    destruct Hc as [Hc|Hc].
    + destruct (last l1) as [x|] eqn:El; [|done]. injection Hc as ->.
      pose proof El as (l1' & ->)%last_Some.
      rewrite Forall_app, Forall_singleton in F1. destruct F1 as [F1 Fx].
      destruct (wf_holds _ _ x W) as (nd & Hn & Hlo & Hhi & _); [apply elem_of_app; left; by apply last_in|].
      erewrite bind_Ok; [|by apply get_node_eq]. rewrite Hhi.
      destruct (Z.ltb_spec (r_hi x) low); [|lia].
      rewrite <- app_assoc in E, W. erewrite rb_next_at; [|exact E|apply W].
      erewrite bind_Ok; [|apply (checksum_ok_opt (l1' ++ [x] ++ l2)); [done|]]; [done|].
      intros z Hz%head_in. set_solver.
    + destruct (head l2) as [x|] eqn:El; [|done]. injection Hc as ->.
      pose proof El as (l2' & ->)%head_Some.
      destruct (wf_holds _ _ x W) as (nd & Hn & Hlo & Hhi & _); [apply elem_of_app; right; by apply head_in|].
      apply Forall_cons in F2' as [Fx _].
      destruct W as [Wn Wh Ws Wo]. pose proof (conj Wn (conj Wh (conj Ws Wo))) as _.
      assert (Hx : range_ok x) by (rewrite Forall_forall in Wo; apply Wo; set_solver).
      destruct Hx as [Hx _].
      erewrite bind_Ok; [|by apply get_node_eq]. rewrite Hhi, Hlo.
      destruct (Z.ltb_spec (r_hi x) low); [lia|].
      destruct (Z.gtb_spec (r_lo x) high); [|lia].
      erewrite rb_prev_at; [|exact E|exact Wn].
      erewrite bind_Ok; [|apply (checksum_ok_opt (l1 ++ x :: l2')); [by constructor|]]; [done|].
      intros z Hz%last_in. set_solver.
Qed.

(** *** Replacing a segment of a list of ranges *)

Lemma wf_replace h h' l1 seg l2 seg' :
  wf_ranges h (l1 ++ seg ++ l2) →
  (∀ x, x ∈ l1 ++ l2 → h' !! r_addr x = h !! r_addr x) →
  wf_ranges h' seg' →
  (∀ x y, x ∈ l1 → y ∈ seg' → apart x y ∧ r_addr x ≠ r_addr y) →
  (∀ x y, x ∈ seg' → y ∈ l2 → apart x y ∧ r_addr x ≠ r_addr y) →
  wf_ranges h' (l1 ++ seg' ++ l2).
Proof.
  rewrite !wf_ranges_app. intros (W1 & (Ws & W2 & _) & Hd) E Ws' H1' H2'.
  split_and!; try done.
  - eapply wf_ranges_ext; [|exact W1]. intros x Hx. apply E, elem_of_app. by left.
  - eapply wf_ranges_ext; [|exact W2]. intros x Hx. apply E, elem_of_app. by right.
  - intros x y Hx [Hy|Hy]%elem_of_app; [by apply H1'|]. apply Hd; [done|].
    apply elem_of_app. by right.
Qed.

Lemma wf_ranges_single h x : wf_ranges h [x] ↔ holds h x ∧ range_ok x.
Proof.
  rewrite wf_ranges_cons. split; [naive_solver|]. intros [? ?]. split_and!; [done|done|apply wf_ranges_nil|].
  by intros y ?%elem_of_nil.
Qed.

(** Ranges below [b] whose last does not touch it are all apart from it. *)
Lemma gap_left h l1 b :
  wf_ranges h l1 → Forall (λ x, r_hi x < b) l1 →
  (∀ p, last l1 = Some p → r_hi p + 1 ≠ b) → Forall (λ x, r_hi x + 1 < b) l1.
Proof.
  intros W F Hl. rewrite Forall_forall in *. intros x Hx.
  destruct (last l1) as [p|] eqn:El; [|apply last_None in El; subst; by apply elem_of_nil in Hx].
  specialize (Hl p eq_refl). pose proof El as (l' & ->)%last_Some.
  apply elem_of_app in Hx as [Hx| ->%list_elem_of_singleton].
  - apply wf_ranges_app in W as (_ & [_ _ _ Ho] & Hd).
    destruct (Hd x p Hx) as [Ha _]; [by apply list_elem_of_singleton|]. unfold apart in Ha.
    rewrite Forall_singleton in Ho. destruct Ho.
    assert (r_hi p < b) by (apply F; set_solver). lia.
  - specialize (F p ltac:(set_solver)). simpl in F. lia.
Qed.
Lemma gap_right h l2 b :
  wf_ranges h l2 → Forall (λ x, b < r_lo x) l2 →
  (∀ x, head l2 = Some x → b + 1 ≠ r_lo x) → Forall (λ x, b + 1 < r_lo x) l2.
Proof.
  intros W F Hl. destruct l2 as [|p l2]; [constructor|].
  specialize (Hl p eq_refl). apply wf_ranges_cons in W as (_ & [Ho _] & _ & Hd).
  rewrite Forall_forall in *. specialize (F p ltac:(set_solver)) as Fp. simpl in Fp.
  intros x [->|Hx]%elem_of_cons; [lia|].
  destruct (Hd x Hx) as [Ha _]. unfold apart in Ha. lia.
Qed.

(** Changing the bounds of one range in place: the tree and the pointers stay. *)
Lemma shape_set h fl k1 x k2 lo hi c :
  wf_shape h fl (k1 ++ x :: k2) → 0 <= lo <= hi → hi < 2 ^ 62 →
  Forall (λ y, r_hi y + 1 < lo) k1 → Forall (λ y, hi + 1 < r_lo y) k2 →
  wf_shape (<[r_addr x := sealed (RangeNode lo hi c)]> h) fl (k1 ++ Range (r_addr x) lo hi :: k2).
Proof.
  intros [Ht W Hf Hla Hn] Hlo Hhi G1 G2.
  pose proof W as W'. apply wf_ranges_app in W' as (W1 & W2 & Hd).
  apply wf_ranges_cons in W2 as (_ & _ & W2 & Hd2).
  assert (Hne1 : ∀ y, y ∈ k1 → r_addr y ≠ r_addr x).
  { intros y Hy. apply (Hd y x); [done|apply list_elem_of_here]. }
  assert (Hne2 : ∀ y, y ∈ k2 → r_addr y ≠ r_addr x).
  { intros y Hy E'. by destruct (Hd2 y Hy). }
  split; simpl.
  - by rewrite Ht, !fmap_app.
  - apply (wf_replace h _ k1 [x] k2 [Range (r_addr x) lo hi]); [done|..].
    + intros y [Hy%Hne1|Hy%Hne2]%elem_of_app; by apply lookup_insert_ne, not_eq_sym.
    + apply wf_ranges_single. split; [apply holds_sealed|]. unfold range_ok. simpl. lia.
    + intros y z Hy ->%list_elem_of_singleton. rewrite Forall_forall in G1.
      split; [unfold apart; simpl; by apply G1|by apply Hne1].
    + intros y z ->%list_elem_of_singleton Hy. rewrite Forall_forall in G2.
      split; [unfold apart; simpl; by apply G2|]. simpl. intros E'. symmetry in E'. by apply (Hne2 z).
  - rewrite Hf. by destruct k1.
  - rewrite Hla, !last_app_cons. by destruct k2.
  - rewrite Hn, !length_app. done.
Qed.

(** Inserting a range between its neighbours. *)
Lemma wf_ranges_insert h h' l1 l2 c bl bh :
  wf_ranges h (l1 ++ l2) → (∀ x, x ∈ l1 ++ l2 → h' !! r_addr x = h !! r_addr x) →
  holds h' (Range c bl bh) → c ∉ r_addr <$> (l1 ++ l2) → 0 <= bl <= bh → bh < 2 ^ 62 →
  Forall (λ x, r_hi x + 1 < bl) l1 → Forall (λ x, bh + 1 < r_lo x) l2 →
  wf_ranges h' (l1 ++ Range c bl bh :: l2).
Proof.
  intros W Hout Hh Hfresh Hb1 Hb2 G1 G2. rewrite fmap_app in Hfresh.
  apply (wf_replace h h' l1 [] l2 [Range c bl bh]); [done|done|..].
  - apply wf_ranges_single. split; [done|]. unfold range_ok. simpl. lia.
  - intros x y Hx ->%list_elem_of_singleton. rewrite Forall_forall in G1. split.
    + unfold apart. simpl. by apply G1.
    + simpl. intros <-. apply Hfresh. apply elem_of_app. left. by apply list_elem_of_fmap_2.
  - intros x y ->%list_elem_of_singleton Hy. rewrite Forall_forall in G2. split.
    + unfold apart. simpl. by apply G2.
    + simpl. intros ->. apply Hfresh. apply elem_of_app. right. by apply list_elem_of_fmap_2.
Qed.

(** *** [free_place] *)

(** What freeing [bl .. bh] into the gap between [l1] and [l2] establishes. *)
Definition placed (s : bstate) (fl : free_list) (l1 l2 : list range) (bl bh : Z) (c : addr)
    (h' : gmap addr range_node) (fl' : free_list) (used : bool) (rs' : list range) : Prop :=
  wf_shape h' fl' rs' ∧
  num_free_blocks fl' = num_free_blocks fl ∧ layout fl' = layout fl ∧ stats fl' = stats fl ∧
  (∀ b, in_ranges rs' b ↔ in_ranges (l1 ++ l2) b ∨ bl <= b <= bh) ∧
  sizes rs' = sizes (l1 ++ l2) + (bh - bl + 1) ∧
  (∀ a, a ∉ r_addr <$> (l1 ++ l2) → a ≠ c → h' !! a = nodes s !! a) ∧
  (∀ a, a ∈ r_addr <$> rs' → a ∈ r_addr <$> (l1 ++ l2) ∨ (used = true ∧ a = c)).

Lemma fmap_last_app {A B} (f : A → B) l x l' : f <$> last (l ++ x :: l') = f <$> last (x :: l').
Proof. by rewrite last_app_cons. Qed.

Section Place.
Variables (s : bstate) (fl : free_list) (l1 l2 : list range) (bl bh : Z) (c : addr) (cn : range_node).
Hypothesis Hwf : wf_shape (nodes s) fl (l1 ++ l2).
Hypothesis Hc : nodes s !! c = Some cn.
Hypothesis Hlen : Z.of_nat (length (l1 ++ l2)) < 2 ^ 62.
Hypothesis Hfresh : c ∉ r_addr <$> (l1 ++ l2).
Hypothesis Hr : 0 <= bl <= bh ∧ bh < 2 ^ 62.
Hypothesis F1 : Forall (λ x, r_hi x < bl) l1.
Hypothesis F2 : Forall (λ x, bh < r_lo x) l2.

Lemma place_middle :
  (∀ p, last l1 = Some p → r_hi p + 1 ≠ bl) → (∀ x, head l2 = Some x → bh + 1 ≠ r_lo x) →
  ∃ h' fl', (set_low c bl;; set_high c bh;; nova_update_range_node_checksum bc c;;
     '(ret, t) ← nova_insert_blocktree (block_free_tree fl) c;
      if negb (ret =? 0) then mret (ret, fl, false) else
      let fl := set_tree fl t in
      let fl := match r_addr <$> last l1 with None => set_first fl (Some c) | _ => fl end in
      let fl := match r_addr <$> head l2 with None => set_last fl (Some c) | _ => fl end in
      mret (0, set_num_node fl (u64 (num_blocknode fl + 1)), true)) s =
    Ok ((0, fl', true), set_nodes s h') ∧
    placed s fl l1 l2 bl bh c h' fl' true (l1 ++ Range c bl bh :: l2).
Proof.
  intros Hl Hr'. pose proof Hwf as [Ht W Hf Hla Hn].
  pose proof W as W'. apply wf_ranges_app in W' as (W1 & W2 & Hd).
  pose proof (gap_left _ _ _ W1 F1 Hl) as G1. pose proof (gap_right _ _ _ W2 F2 Hr') as G2.
  set (nd := sealed (RangeNode bl bh (rn_csum cn))).
  set (h' := <[c := nd]> (nodes s)).
  assert (Hout : ∀ x, x ∈ l1 ++ l2 → h' !! r_addr x = nodes s !! r_addr x).
  { intros x Hx. apply lookup_insert_ne. intros ->. apply Hfresh. by apply list_elem_of_fmap_2. }
  assert (W' : wf_ranges h' (l1 ++ l2)) by (eapply wf_ranges_ext; [exact Hout|done]).
  destruct (insert_blocktree_spec (block_free_tree fl) c nd l1 l2 (set_nodes s h')) as (t' & Ei & Hi);
    [done|done|apply lookup_insert_eq|..].
  { unfold nd. rewrite sealed_low. done. }
  { unfold nd. rewrite sealed_low. simpl. eapply Forall_impl; [exact F2|]. simpl. lia. }
  eexists h', _. split.
  { erewrite bind_Ok; [|by apply set_low_eq].
    erewrite bind_Ok; [|by eapply set_high_eq; apply lookup_insert_eq].
    erewrite bind_Ok; [|by eapply update_checksum_eq; apply lookup_insert_eq].
    simpl. rewrite !insert_insert_eq. erewrite bind_Ok; [|exact Ei]. reflexivity. }
  split_and!.
  - split; simpl.
    + rewrite fmap_app. by destruct (last l1), (head l2).
    + apply (wf_ranges_insert (nodes s)); try done; [apply holds_sealed|lia..].
    + destruct l1 as [|x l1']; simpl; [by destruct l2|].
      destruct (last (x :: l1')) eqn:El; [|by apply last_None in El].
      by destruct (head l2).
    + rewrite last_app_cons. destruct l2 as [|y l2']; simpl; [by destruct (last l1)|].
      rewrite app_nil_r in * || idtac. simpl in *.
      rewrite last_app_cons in Hla. by destruct (last l1).
    + rewrite !length_app. simpl. rewrite length_app in Hn, Hlen.
      destruct (last l1), (head l2); simpl; rewrite Hn, wrap_small; lia.
  - by destruct (last l1), (head l2).
  - by destruct (last l1), (head l2).
  - by destruct (last l1), (head l2).
  - intros b. rewrite !in_ranges_app, in_ranges_cons. simpl. naive_solver.
  - rewrite !sizes_app. simpl. lia.
  - intros a Ha Hne. by apply lookup_insert_ne.
  - intros a. rewrite !fmap_app. simpl. rewrite !elem_of_app, elem_of_cons. naive_solver.
Qed.

(** Enlarging one range in place: the tree and the pointers stay. *)
Lemma place_grow k1 k2 x lo hi nd :
  l1 ++ l2 = k1 ++ x :: k2 → holds (nodes s) x → nodes s !! r_addr x = Some nd →
  0 <= lo <= hi → hi < 2 ^ 62 →
  Forall (λ y, r_hi y + 1 < lo) k1 → Forall (λ y, hi + 1 < r_lo y) k2 →
  (∀ b, lo <= b <= hi ↔ r_lo x <= b <= r_hi x ∨ bl <= b <= bh) →
  hi - lo + 1 = r_hi x - r_lo x + 1 + (bh - bl + 1) →
  let h' := <[r_addr x := sealed (RangeNode lo hi (rn_csum nd))]> (nodes s) in
  placed s fl l1 l2 bl bh c h' fl false (k1 ++ Range (r_addr x) lo hi :: k2).
Proof.
  intros E Hx Hnd Hlo Hhi G1 G2 Hin Hsz h'. unfold placed. rewrite E. split_and!; try done.
  - apply shape_set; try done. by rewrite <- E.
  - intros b. rewrite !in_ranges_app, !in_ranges_cons. simpl. rewrite Hin. naive_solver.
  - rewrite !sizes_app. simpl. lia.
  - intros a Ha _. apply lookup_insert_ne. intros <-. apply Ha. rewrite fmap_app. apply elem_of_app.
    right. apply list_elem_of_here.
  - intros a Ha. left. rewrite fmap_app in *. done.
Qed.

Lemma place_left p l1' :
  l1 = l1' ++ [p] → r_hi p + 1 = bl → (∀ x, head l2 = Some x → bh + 1 ≠ r_lo x) →
  ∃ h', (nd ← get_node (r_addr p);
         set_high (r_addr p) (u64 (range_high nd + (bh - bl + 1)));;
         nova_update_range_node_checksum bc (r_addr p);; mret (0, fl, false)) s =
        Ok ((0, fl, false), set_nodes s h') ∧
    placed s fl l1 l2 bl bh c h' fl false (l1' ++ Range (r_addr p) (r_lo p) bh :: l2).
Proof.
  intros El Hp Hx. pose proof Hwf as [_ W _ _ _].
  pose proof W as W'. apply wf_ranges_app in W' as (W1 & W2 & _).
  pose proof (gap_right _ _ _ W2 F2 Hx) as G2. pose proof W1 as W1'. rewrite El in W1'.
  apply wf_ranges_app in W1' as (_ & Wp%wf_ranges_single & Hd). destruct Wp as [Hpp [Hop1 Hop2]].
  destruct Hpp as (nd & Hnd & Hlo & Hhi & Hcs).
  eexists. split.
  - erewrite bind_Ok; [|by apply get_node_eq]. rewrite Hhi, wrap_small by lia.
    rewrite <- bind_assoc. erewrite bind_Ok; [|by apply set_high_sealed]. reflexivity.
  - rewrite Hlo. replace (r_hi p + (bh - bl + 1)) with bh by lia.
    apply place_grow; try done; try lia.
    + by rewrite El, <- app_assoc.
    + by exists nd.
    + rewrite Forall_forall. intros y Hy. destruct (Hd y p Hy) as [Ha _]; [set_solver|]. done.
Qed.

Lemma place_right x l2' :
  l2 = x :: l2' → bh + 1 = r_lo x → (∀ p, last l1 = Some p → r_hi p + 1 ≠ bl) →
  ∃ h', (nd ← get_node (r_addr x);
         set_low (r_addr x) (u64 (range_low nd - (bh - bl + 1)));;
         nova_update_range_node_checksum bc (r_addr x);; mret (0, fl, false)) s =
        Ok ((0, fl, false), set_nodes s h') ∧
    placed s fl l1 l2 bl bh c h' fl false (l1 ++ Range (r_addr x) bl (r_hi x) :: l2').
Proof.
  intros El Hp Hx. pose proof Hwf as [_ W _ _ _].
  pose proof W as W'. apply wf_ranges_app in W' as (W1 & W2 & _).
  pose proof (gap_left _ _ _ W1 F1 Hx) as G1. pose proof W2 as W2'. rewrite El in W2'.
  apply wf_ranges_cons in W2' as (Hxx & [Hop1 Hop2] & _ & Hd).
  destruct Hxx as (nd & Hnd & Hlo & Hhi & Hcs).
  eexists. split.
  - erewrite bind_Ok; [|by apply get_node_eq]. rewrite Hlo, wrap_small by lia.
    rewrite <- bind_assoc. erewrite bind_Ok; [|by apply set_low_sealed]. reflexivity.
  - rewrite Hhi. replace (r_lo x - (bh - bl + 1)) with bl by lia.
    apply place_grow; try done; try lia.
    + by rewrite El.
    + by exists nd.
    + rewrite Forall_forall. intros y Hy. by destruct (Hd y Hy) as [Ha _].
Qed.

Lemma place_hole p x l1' l2' :
  l1 = l1' ++ [p] → l2 = x :: l2' → r_hi p + 1 = bl → bh + 1 = r_lo x →
  ∃ h' fl',
    (let fl := set_tree fl (rb_erase (r_addr x) (block_free_tree fl)) in
     let fl := set_num_node fl (u64 (num_blocknode fl - 1)) in
     nd ← get_node (r_addr x);
     set_high (r_addr p) (range_high nd);;
     nova_update_range_node_checksum bc (r_addr p);;
     let fl := if opt_eqb (last_node fl) (Some (r_addr x)) then set_last fl (Some (r_addr p)) else fl in
     nova_free_blocknode (r_addr x);; mret (0, fl, false)) s =
    Ok ((0, fl', false), set_nodes s h') ∧
    placed s fl l1 l2 bl bh c h' fl' false (l1' ++ Range (r_addr p) (r_lo p) (r_hi x) :: l2').
Proof.
  intros El1 El2 Hp Hx. pose proof Hwf as [Ht W Hf Hla Hn].
  assert (E : l1 ++ l2 = (l1' ++ [p]) ++ x :: l2') by (by rewrite El1, El2).
  rewrite E in *. pose proof W as W0.
  pose proof W0 as W'. apply wf_ranges_app in W' as (W1 & W2 & Hd).
  pose proof W2 as W2'. apply wf_ranges_cons in W2' as (Hxx & [Hox1 Hox2] & W2'' & Hd2).
  destruct Hxx as (ndx & Hndx & Hlox & Hhix & _).
  pose proof W1 as W1'. apply wf_ranges_app in W1' as (W1'' & Wp%wf_ranges_single & Hd1).
  destruct Wp as [Hpp [Hop1 Hop2]]. destruct Hpp as (nd & Hnd & Hlo & Hhi & Hcs).
  assert (Hpx : r_addr p ≠ r_addr x) by (apply (Hd p x); set_solver).
  set (h1 := <[r_addr p := sealed (RangeNode (range_low nd) (range_high ndx) (rn_csum nd))]> (nodes s)).
  set (h' := delete (r_addr x) h1).
  eexists h', _. split.
  { cbv zeta. erewrite bind_Ok; [|by apply get_node_eq].
    rewrite <- bind_assoc. erewrite bind_Ok; [|by apply set_high_sealed]. reflexivity. }
  assert (Hk : ∀ y, y ∈ l1' ++ l2' → r_addr y ≠ r_addr p ∧ r_addr y ≠ r_addr x).
  { intros y [Hy|Hy]%elem_of_app; split.
    - apply (Hd1 y p); set_solver.
    - apply (Hd y x); set_solver.
    - intros E'. apply (Hd p y); set_solver.
    - intros E'. by apply (Hd2 y). }
  unfold placed. rewrite E. split_and!.
  - split; simpl.
    + pose proof (rb_erase_at _ (l1' ++ [p]) x l2' Ht (wr_nodup _ _ W0)) as Her.
      destruct (opt_eqb _ _); simpl; rewrite Her, <- app_assoc, !fmap_app; done.
    + apply (wf_replace (nodes s) h' l1' [p; x] l2' [Range (r_addr p) (r_lo p) (r_hi x)]).
      * by rewrite <- app_assoc in W0.
      * intros y Hy. destruct (Hk y Hy). unfold h', h1.
        by rewrite lookup_delete_ne, lookup_insert_ne by done.
      * apply wf_ranges_single. split; [|unfold range_ok; simpl; lia].
        eapply holds_ext; [by apply lookup_delete_ne|]. rewrite <- Hlo, <- Hhix. apply holds_sealed.
      * intros y z Hy ->%list_elem_of_singleton. destruct (Hd1 y p Hy) as [Ha ?]; [set_solver|]. done.
      * intros y z ->%list_elem_of_singleton Hz. destruct (Hd2 z Hz) as [Ha ?].
        split; [done|]. simpl. intros E'. destruct (Hk z); [set_solver|congruence].
    + destruct (opt_eqb _ _); simpl; rewrite Hf, <- app_assoc; by destruct l1'.
    + rewrite last_app_cons. unfold opt_eqb. simpl. case_bool_decide as Hb; simpl.
      * rewrite Hla in Hb. rewrite last_app_cons in Hb. destruct l2' as [|y l2']; [done|].
        change (last (x :: y :: l2')) with (last (y :: l2')) in Hb.
        destruct (last (y :: l2')) as [z|] eqn:Ez; [|by apply last_None in Ez].
        injection Hb as Hb. apply last_in in Ez.
        destruct (Hk z); [set_solver|done].
      * rewrite Hla in *. rewrite last_app_cons in *. destruct l2' as [|y l2']; [done|]. done.
    + destruct (opt_eqb _ _); simpl; rewrite Hn, wrap_small;
        rewrite !length_app in *; simpl in *; lia.
  - by destruct (opt_eqb _ _).
  - by destruct (opt_eqb _ _).
  - by destruct (opt_eqb _ _).
  - intros b. rewrite !in_ranges_app, !in_ranges_cons. simpl.
    pose proof (in_ranges_nil b) as Hnil.
    assert (Hb : r_lo p <= b <= r_hi x ↔
      r_lo p <= b <= r_hi p ∨ bl <= b <= bh ∨ r_lo x <= b <= r_hi x) by lia.
    rewrite Hb. clear -Hnil. tauto.
  - rewrite !sizes_app. simpl. lia.
  - intros a Ha _. rewrite !fmap_app in Ha. simpl in Ha. unfold h', h1.
    rewrite lookup_delete_ne, lookup_insert_ne by set_solver. done.
  - intros a. rewrite !fmap_app. simpl. set_solver.
Qed.

Lemma free_place_spec :
  ∃ h' fl' used rs',
    free_place bc fl bl bh (bh - bl + 1) (r_addr <$> last l1) (r_addr <$> head l2) c s =
      Ok ((0, fl', used), set_nodes s h') ∧
    placed s fl l1 l2 bl bh c h' fl' used rs'.
Proof.
  pose proof Hwf as [_ W _ _ _]. pose proof W as W'. apply wf_ranges_app in W' as (W1 & W2 & _).
  assert (Hprev : ∀ p, last l1 = Some p →
    (nd ← get_node (r_addr p); mret (bl =? u64 (range_high nd + 1))) s = Ok (bl =? r_hi p + 1, s)).
  { intros p Hp%last_in. destruct (wf_holds _ _ p W1 Hp) as (nd & Hnd & _ & Hhi & _).
    erewrite bind_Ok; [|by apply get_node_eq]. rewrite Hhi.
    destruct W1 as [_ _ _ Ho]. rewrite Forall_forall in Ho. destruct (Ho p Hp).
    by rewrite wrap_small by lia. }
  assert (Hnext : ∀ x, head l2 = Some x →
    (nd ← get_node (r_addr x); mret (u64 (bh + 1) =? range_low nd)) s = Ok (bh + 1 =? r_lo x, s)).
  { intros x Hx%head_in. destruct (wf_holds _ _ x W2 Hx) as (nd & Hnd & Hlo & _).
    erewrite bind_Ok; [|by apply get_node_eq]. rewrite Hlo.
    by rewrite wrap_small by lia. }
  unfold free_place.
  destruct (last l1) as [p|] eqn:El, (head l2) as [x|] eqn:Eh; simpl;
    (erewrite bind_Ok; [|first [by apply Hprev | done]]);
    (erewrite bind_Ok; [|first [by apply Hnext | done]]).
  - pose proof El as (l1' & E1)%last_Some. pose proof Eh as (l2' & E2)%head_Some.
    destruct (Z.eqb_spec bl (r_hi p + 1)), (Z.eqb_spec (bh + 1) (r_lo x)).
    + destruct (place_hole p x l1' l2') as (h' & fl' & E & Hp); [done|done|lia|lia|].
      by exists h', fl', false, (l1' ++ Range (r_addr p) (r_lo p) (r_hi x) :: l2').
    + destruct (place_left p l1') as (h' & E & Hp); [done|lia|intros ? E0; simplify_eq; lia|].
      by eexists h', fl, false, _.
    + destruct (place_right x l2') as (h' & E & Hp); [done|lia|intros ? E0; simplify_eq; lia|].
      by eexists h', fl, false, _.
    + destruct place_middle as (h' & fl' & E & Hp); [intros ? E0; simplify_eq; lia..|].
      rewrite El, Eh in E. by eexists h', fl', true, _.
  - pose proof El as (l1' & E1)%last_Some.
    destruct (Z.eqb_spec bl (r_hi p + 1)).
    + destruct (place_left p l1') as (h' & E & Hp); [done|lia|intros ? E0; congruence|].
      by eexists h', fl, false, _.
    + destruct place_middle as (h' & fl' & E & Hp); [intros ? E0; simplify_eq; lia|intros ? E0; congruence|].
      rewrite El, Eh in E. by eexists h', fl', true, _.
  - pose proof Eh as (l2' & E2)%head_Some.
    destruct (Z.eqb_spec (bh + 1) (r_lo x)).
    + destruct (place_right x l2') as (h' & E & Hp); [done|lia|intros ? E0; congruence|].
      by eexists h', fl, false, _.
    + destruct place_middle as (h' & fl' & E & Hp); [intros ? E0; congruence|intros ? E0; simplify_eq; lia|].
      rewrite El, Eh in E. by eexists h', fl', true, _.
  - destruct place_middle as (h' & fl' & E & Hp); [intros ? E0; congruence..|].
    rewrite El, Eh in E. by eexists h', fl', true, _.
Qed.
End Place.

(** ** The whole allocator *)

(** Every list is well formed over the shared node store; [R i] are the ranges
    of list [i].  Nodes belong to one list, and fresh addresses to none. *)
Record wf_state (s : bstate) (R : nat → list range) : Prop := {
  st_lists : ∀ i fl, lists s !! i = Some fl → wf_list (nodes s) fl (R i);
  st_fresh : ∀ i a, a ∈ r_addr <$> R i → (a < next_addr s)%nat;
  st_apart : ∀ i j a, i ≠ j → a ∈ r_addr <$> R i → a ∈ r_addr <$> R j → False;
  st_bounds : ∀ i fl, lists s !! i = Some fl →
    Forall (λ x, block_start (layout fl) <= r_lo x ∧ r_hi x <= block_end (layout fl)) (R i);
  st_layout : ∀ i fl, lists s !! i = Some fl →
    0 <= block_start (layout fl) ∧ block_end (layout fl) < 2 ^ 61 ∧
    ∀ b, block_start (layout fl) <= b <= block_end (layout fl) → b / per_list_blocks s = Z.of_nat i;
  st_per_list : 0 < per_list_blocks s
}.

(** The set of free blocks. *)
Definition free (s : bstate) (R : nat → list range) (b : Z) : Prop :=
  ∃ i, (i < length (lists s))%nat ∧ in_ranges (R i) b.

Definition update_R (R : nat → list range) (i : nat) (rs : list range) : nat → list range :=
  λ j, if decide (j = i) then rs else R j.

Lemma length_sizes rs : Forall range_ok rs → Z.of_nat (length rs) <= sizes rs.
Proof. induction 1 as [|x rs [Hx _] _ IH]; simpl; lia. Qed.

Lemma sizes_range h rs lo hi :
  wf_ranges h rs → Forall (λ x, lo <= r_lo x ∧ r_hi x <= hi) rs → lo <= hi + 1 → sizes rs <= hi - lo + 1.
Proof.
  revert lo. induction rs as [|x rs IH]; intros lo W Hb Hlh; simpl; [lia|].
  apply wf_ranges_cons in W as (_ & [Ho _] & W & Hd). apply Forall_cons in Hb as [Hx Hb].
  assert (sizes rs <= hi - (r_hi x + 1) + 1); [|lia].
  apply IH; [done| |lia]. rewrite Forall_forall in *. intros y Hy.
  destruct (Hd y Hy) as [Ha _]. unfold apart in Ha. specialize (Hb y Hy). simpl in Hb. lia.
Qed.

Lemma wf_list_ext h h' fl rs :
  (∀ a, a ∈ r_addr <$> rs → h' !! a = h !! a) → wf_list h fl rs → wf_list h' fl rs.
Proof.
  intros E [[] ? ?]. split; try done. split; try done. eapply wf_ranges_ext; [|done].
  intros x Hx. apply E. by apply list_elem_of_fmap_2.
Qed.

(** Changing one list, its own nodes and fresh nodes only. *)
Lemma wf_state_update s R i fl h' n' fl' rs' c :
  wf_state s R → lists s !! i = Some fl → (next_addr s <= n')%nat →
  wf_list h' fl' rs' → layout fl' = layout fl →
  (∀ a, a ∉ r_addr <$> R i → (a < next_addr s)%nat → h' !! a = nodes s !! a) →
  (∀ a, a ∈ r_addr <$> rs' → a ∈ r_addr <$> R i ∨ (next_addr s <= a < n')%nat) →
  Forall (λ x, block_start (layout fl) <= r_lo x ∧ r_hi x <= block_end (layout fl)) rs' →
  wf_state (BState h' n' (<[i := fl']> (lists s)) (per_list_blocks s) c) (update_R R i rs').
Proof.
  intros [S1 S2 S3 S4 S5 S6] Hi Hn W Hl Hout Hids Hb.
  pose proof (lookup_lt_Some _ _ _ Hi) as Hlt. unfold update_R. split; simpl; try done.
  - intros j fl2 Hj. case_decide as E; [subst j|].
    + by rewrite list_lookup_insert_eq in Hj; simplify_eq.
    + rewrite list_lookup_insert_ne in Hj by done. eapply wf_list_ext; [|by apply S1].
      intros a Ha. apply Hout; [|by eapply S2]. intros Ha'. by apply (S3 i j a).
  - intros j a Ha. case_decide as E; [subst j|].
    + destruct (Hids a Ha) as [Ha'|?]; [|lia]. specialize (S2 _ _ Ha'). lia.
    + specialize (S2 _ _ Ha). lia.
  - intros j k a Hjk Hj Hk. destruct (decide (j = i)), (decide (k = i)); subst; try done.
    + destruct (Hids a Hj) as [Ha|Ha]; [by apply (S3 i k a)|]. specialize (S2 _ _ Hk). lia.
    + destruct (Hids a Hk) as [Ha|Ha]; [by apply (S3 j i a)|]. specialize (S2 _ _ Hj). lia.
    + by apply (S3 j k a).
  - intros j fl2 Hj. case_decide as E; [subst j|].
    + rewrite list_lookup_insert_eq in Hj by done. simplify_eq. by rewrite Hl.
    + rewrite list_lookup_insert_ne in Hj by done. by apply S4.
  - intros j fl2 Hj. destruct (decide (j = i)) as [->|E].
    + rewrite list_lookup_insert_eq in Hj by done. simplify_eq. rewrite Hl. by apply S5.
    + rewrite list_lookup_insert_ne in Hj by done. by apply S5.
Qed.

Lemma free_update s R i fl h' n' fl' rs' c b :
  lists s !! i = Some fl →
  free (BState h' n' (<[i := fl']> (lists s)) (per_list_blocks s) c) (update_R R i rs') b ↔
  (∃ j, (j < length (lists s))%nat ∧ j ≠ i ∧ in_ranges (R j) b) ∨ in_ranges rs' b.
Proof.
  intros Hi. apply lookup_lt_Some in Hi. unfold free, update_R. simpl. rewrite length_insert. split.
  - intros (j & Hj & Hb). case_decide; [by right|left; eauto].
  - intros [(j & ? & ? & ?)|Hb]; [exists j|exists i]; (split; [done|]); by case_decide.
Qed.
Lemma free_split s R i fl b :
  lists s !! i = Some fl →
  free s R b ↔ (∃ j, (j < length (lists s))%nat ∧ j ≠ i ∧ in_ranges (R j) b) ∨ in_ranges (R i) b.
Proof.
  intros Hi. apply lookup_lt_Some in Hi. unfold free. split.
  - intros (j & Hj & Hb). destruct (decide (j = i)) as [->|]; [by right|left; eauto].
  - intros [(j & ? & ? & ?)|Hb]; eauto.
Qed.

Lemma nova_get_free_list_eq s i fl :
  lists s !! i = Some fl → nova_get_free_list (Z.of_nat i) s = Ok (fl, s).
Proof.
  intros Hi. unfold nova_get_free_list. erewrite bind_Ok; [|done].
  destruct (Z.ltb_spec (Z.of_nat i) 0); [lia|]. by rewrite Nat2Z.id, Hi.
Qed.

Lemma alloc_blocknode_eq s :
  slab_ok bc (next_addr s) = true →
  nova_alloc_blocknode bc s =
  Ok (Some (next_addr s),
      BState (<[next_addr s := RangeNode 0 0 0]> (nodes s)) (S (next_addr s)) (lists s)
        (per_list_blocks s) (pm s)).
Proof. intros E. unfold nova_alloc_blocknode. erewrite bind_Ok; [|done].
  erewrite bind_Ok; [|done]. by rewrite E. Qed.

(** The blocks a free names, in one list and within its bounds. *)
Record free_request (s : bstate) (R : nat → list range) (blocknr num btype : Z) (i : nat)
    (fl : free_list) : Prop := {
  fr_num : 0 < num;
  fr_list : lists s !! i = Some fl;
  fr_low : block_start (layout fl) <= blocknr;
  fr_high : blocknr + nova_get_numblocks btype * num - 1 <= block_end (layout fl);
  fr_used : ∀ b, blocknr <= b < blocknr + nova_get_numblocks btype * num → ¬ free s R b
}.

Lemma numblocks_pos btype : 1 <= nova_get_numblocks btype.
Proof. unfold nova_get_numblocks. repeat case_match; lia. Qed.

Lemma nova_free_blocks_eq s R blocknr num btype log i fl :
  wf_state s R → slab_ok bc (next_addr s) = true → free_request s R blocknr num btype i fl →
  let n := nova_get_numblocks btype * num in
  ∃ s' R', nova_free_blocks bc blocknr num btype log s = Ok (0, s') ∧ wf_state s' R' ∧
    (∀ b, free s' R' b ↔ free s R b ∨ blocknr <= b < blocknr + n) ∧
    (∃ fl', lists s' = <[i := fl']> (lists s) ∧ num_free_blocks fl' = num_free_blocks fl + n ∧
       layout fl' = layout fl) ∧ pm s' = pm s.
Proof.
  intros S Hslab [Hnum Hi Hlow Hhigh Hused] n. pose proof (numblocks_pos btype) as Hnb.
  destruct (st_layout _ _ S i fl Hi) as (Hbs & Hbe & Hcpu).
  assert (Hn : 0 < n ∧ num <= n) by (unfold n; nia). fold n in Hhigh, Hused.
  pose proof (st_lists _ _ S i fl Hi) as [Wsh Wf Wsz].
  pose proof (st_per_list _ _ S) as Hper.
  set (c := next_addr s).
  set (s2 := BState (<[c := RangeNode 0 0 0]> (nodes s)) (Datatypes.S c) (lists s) (per_list_blocks s) (pm s)).
  assert (Hfresh : c ∉ r_addr <$> R i).
  { intros Hc. pose proof (st_fresh _ _ S _ _ Hc). unfold c in *. lia. }
  assert (Wsh2 : wf_shape (nodes s2) fl (R i)).
  { destruct Wsh as [A B C D E]. split; try done. eapply wf_ranges_ext; [|exact B].
    intros x Hx. apply lookup_insert_ne. intros ->. apply Hfresh. by apply list_elem_of_fmap_2. }
  assert (Hno : ∀ b, blocknr <= b <= blocknr + n - 1 → ¬ in_ranges (R i) b).
  { intros b Hb Hin. apply (Hused b); [lia|]. exists i. split; [by eapply lookup_lt_Some|done]. }
  destruct (find_free_slot_spec (block_free_tree fl) (R i) blocknr (blocknr + n - 1) s2)
    as (l1 & l2 & El & F1 & F2 & Eslot); [apply Wsh2|apply Wsh2|lia|done|].
  rewrite El in Wsh2, Hfresh.
  assert (Hbounds : Forall (λ x, block_start (layout fl) <= r_lo x ∧ r_hi x <= block_end (layout fl)) (R i))
    by (by apply (st_bounds _ _ S)).
  destruct (free_place_spec s2 fl l1 l2 blocknr (blocknr + n - 1) c (RangeNode 0 0 0))
    as (h' & fl' & used & rs' & Eplace & Hsh & Hnf & Hlay & Hst & Hin & Hsz & Hout & Hids);
    [done|apply lookup_insert_eq| |done|lia|done|done|].
  { rewrite <- El. pose proof (length_sizes (R i) ltac:(apply Wsh)). lia. }
  rewrite <- El in Hin, Hsz, Hout, Hids, Hfresh.
  replace (blocknr + n - 1 - blocknr + 1) with n in * by lia.
  assert (Hbounds' : Forall (λ x, block_start (layout fl) <= r_lo x ∧ r_hi x <= block_end (layout fl)) rs').
  { apply Forall_forall. intros x Hx.
    assert (Hox : range_ok x) by (destruct Hsh as [_ [_ _ _ Ho] _ _ _]; rewrite Forall_forall in Ho; auto).
    destruct Hox as [Hox _]. rewrite Forall_forall in Hbounds.
    assert (Hb : ∀ b, r_lo x <= b <= r_hi x → block_start (layout fl) <= b <= block_end (layout fl)).
    { intros b Hb. assert (Hb' : in_ranges rs' b) by (by exists x).
      apply Hin in Hb' as [(y & Hy & ?)|?]; [|lia]. specialize (Hbounds y Hy). simpl in Hbounds. lia. }
    pose proof (Hb (r_lo x)). pose proof (Hb (r_hi x)). lia. }
  assert (Hsz' : sizes rs' < 2 ^ 62).
  { pose proof (sizes_range h' rs' (block_start (layout fl)) (block_end (layout fl))
      ltac:(apply Hsh) Hbounds' ltac:(lia)). lia. }
  set (flf := block_found fl' n log).
  set (hf := if used then h' else delete c h').
  exists (BState hf (Datatypes.S c) (<[i := flf]> (lists s)) (per_list_blocks s) (pm s)), (update_R R i rs').
  split_and!.
  - unfold nova_free_blocks. destruct (Z.leb_spec num 0); [lia|].
    erewrite bind_Ok; [|done]. rewrite (Hcpu blocknr) by lia.
    erewrite bind_Ok; [|by apply alloc_blocknode_eq]. cbn beta iota. fold c s2.
    erewrite bind_Ok; [|by apply nova_get_free_list_eq]. fold n.
    rewrite !(wrap_small 64) by lia.
    destruct (Z.ltb_spec blocknr (block_start (layout fl))); [lia|].
    destruct (Z.gtb_spec (blocknr + num) (block_end (layout fl) + 1)); [lia|]. simpl.
    erewrite bind_Ok; [|exact Eslot]. simpl.
    erewrite bind_Ok; [|exact Eplace]. simpl.
    erewrite bind_Ok; [|done]. unfold hf. destruct used; simpl.
    + erewrite bind_Ok; [|done]. by rewrite Nat2Z.id.
    + erewrite bind_Ok; [|done]. by rewrite Nat2Z.id.
  - apply (wf_state_update s R i fl); try done.
    + lia.
    + split; simpl.
      * destruct Hsh as [A B C D E]. split; try done. unfold hf. destruct used; [done|].
        eapply wf_ranges_ext; [|exact B]. intros x Hx. apply lookup_delete_ne. intros ->.
        destruct (Hids (r_addr x)) as [?|[??]]; [by apply list_elem_of_fmap_2|done..].
      * rewrite Hnf, Wf, wrap_small; [lia|].
        pose proof (sizes_nonneg (R i) ltac:(apply Wsh)). lia.
      * done.
    + intros a Ha Hlt. unfold hf. assert (a ≠ c) by (unfold c; lia).
      destruct used; rewrite ?lookup_delete_ne by done; rewrite Hout by done;
        by apply lookup_insert_ne.
    + intros a Ha. destruct (Hids a Ha) as [?|[_ ->]]; [by left|right]. unfold c. lia.
  - intros b. rewrite (free_update s R i fl), (free_split s R i fl) by done. rewrite Hin.
    clear. intuition lia.
  - exists flf. split; [done|]. unfold flf, block_found. simpl. rewrite Hnf, wrap_small; [done|].
    pose proof (sizes_nonneg (R i) ltac:(apply Wsh)). lia.
  - done.
Qed.

(** *** Allocation *)

(** Removing a range, with the code's updates of the end pointers. *)
Definition unlinked (fl : free_list) (curr : addr) : free_list :=
  let t := block_free_tree fl in
  let fl := if opt_eqb (Some curr) (first_node fl) then set_first fl (rb_next t curr) else fl in
  let fl := if opt_eqb (Some curr) (last_node fl) then set_last fl (rb_prev t curr) else fl in
  set_num_node (set_tree fl (rb_erase curr t)) (u64 (num_blocknode fl - 1)).

Lemma opt_addr_inj h rs x o :
  wf_ranges h rs → x ∈ rs → (∀ y, o = Some y → y ∈ rs) → Some (r_addr x) = r_addr <$> o → o = Some x.
Proof.
  intros [Hnd _ _ _] Hx Ho E. destruct o as [y|]; [|done]. injection E as E. f_equal.
  specialize (Ho y eq_refl). apply list_elem_of_lookup_1 in Hx as [i Hi].
  apply list_elem_of_lookup_1 in Ho as [j Hj].
  assert (i = j) as ->; [|congruence].
  eapply NoDup_lookup; [exact Hnd|by rewrite list_lookup_fmap, Hi|by rewrite list_lookup_fmap, Hj; simpl; rewrite E].
Qed.

Lemma shape_remove h fl k1 x k2 :
  wf_shape h fl (k1 ++ x :: k2) → Z.of_nat (length (k1 ++ x :: k2)) < 2 ^ 62 →
  wf_shape (delete (r_addr x) h) (unlinked fl (r_addr x)) (k1 ++ k2).
Proof.
  intros [Ht W Hf Hla Hn] Hlen. pose proof (wr_nodup _ _ W) as Hnd.
  pose proof W as W'. apply wf_ranges_app in W' as (W1 & W2 & Hd).
  apply wf_ranges_cons in W2 as (_ & _ & W2 & Hd2).
  assert (Hx : x ∈ k1 ++ x :: k2) by (apply elem_of_app; right; apply list_elem_of_here).
  assert (Hfirst : first_node (unlinked fl (r_addr x)) = r_addr <$> head (k1 ++ k2)).
  { unfold unlinked. transitivity (if opt_eqb (Some (r_addr x)) (first_node fl)
      then rb_next (block_free_tree fl) (r_addr x) else first_node fl).
    { destruct (opt_eqb (Some (r_addr x)) (first_node fl)); by destruct (opt_eqb _ (last_node _)). }
    rewrite (rb_next_at _ k1 x k2) by done. unfold opt_eqb. rewrite Hf. case_bool_decide as Hb.
    - apply (opt_addr_inj h (k1 ++ x :: k2)) in Hb; [|done|done|by apply head_in].
      destruct k1 as [|y k1]; [done|]. simpl in Hb. injection Hb as ->.
      destruct (Hd x x); [apply list_elem_of_here..|]. done.
    - destruct k1; [done|]. done. }
  assert (Hlast : last_node (unlinked fl (r_addr x)) = r_addr <$> last (k1 ++ k2)).
  { unfold unlinked. transitivity (if opt_eqb (Some (r_addr x)) (last_node fl)
      then rb_prev (block_free_tree fl) (r_addr x) else last_node fl).
    { by destruct (opt_eqb _ (first_node fl)); simpl; destruct (opt_eqb _ (last_node _)). }
    rewrite (rb_prev_at _ k1 x k2) by done. unfold opt_eqb. rewrite Hla. case_bool_decide as Hb.
    - apply (opt_addr_inj h (k1 ++ x :: k2)) in Hb; [|done|done|by apply last_in].
      rewrite last_app_cons in Hb. destruct k2 as [|y k2]; [by rewrite app_nil_r|].
      change (last (x :: y :: k2)) with (last (y :: k2)) in Hb. apply last_in in Hb.
      by destruct (Hd2 x Hb).
    - rewrite last_app_cons in *. destruct k2 as [|y k2]; [done|].
      by rewrite last_app_cons. }
  split; [..|].
  - transitivity (inorder (rb_erase (r_addr x) (block_free_tree fl))); [|by apply rb_erase_at].
    unfold unlinked. by destruct (opt_eqb _ _), (opt_eqb _ _).
  - apply (wf_replace h _ k1 [x] k2 []); [done| |apply wf_ranges_nil|..].
    + intros y [Hy|Hy]%elem_of_app; apply lookup_delete_ne; intros E.
      * destruct (Hd y x Hy) as [_ Hne]; [apply list_elem_of_here|congruence].
      * by destruct (Hd2 y Hy).
    + by intros ? ? _ ?%elem_of_nil.
    + by intros ? ? ?%elem_of_nil.
  - done.
  - done.
  - transitivity (u64 (num_blocknode fl - 1)).
    { unfold unlinked. by destruct (opt_eqb _ _), (opt_eqb _ _). }
    rewrite Hn, wrap_small; rewrite !length_app in *; simpl in *; lia.
Qed.

(** What taking [n] blocks from [b] on out of [rs] establishes. *)
Definition taken (h : gmap addr range_node) (fl : free_list) (rs : list range)
    (n b : Z) (h' : gmap addr range_node) (fl' : free_list) (rs' : list range) : Prop :=
  wf_shape h' fl' rs' ∧
  num_free_blocks fl' = num_free_blocks fl ∧ layout fl' = layout fl ∧ stats fl' = stats fl ∧
  0 < n ∧ (∀ y, b <= y < b + n → in_ranges rs y) ∧
  (∀ y, in_ranges rs' y ↔ in_ranges rs y ∧ ¬ b <= y < b + n) ∧
  sizes rs' = sizes rs - n.
(** Which nodes it may touch, besides the fresh ones [c]. *)
Definition owned (h : gmap addr range_node) (rs : list range) (P : addr → Prop)
    (h' : gmap addr range_node) (rs' : list range) : Prop :=
  (∀ a, a ∉ r_addr <$> rs → ¬ P a → h' !! a = h !! a) ∧
  (∀ a, a ∈ r_addr <$> rs' → a ∈ r_addr <$> rs ∨ P a).

(** Only [x] changes its blocks; the others are disjoint from it. *)
Lemma in_ranges_other h k1 x k2 b :
  wf_ranges h (k1 ++ x :: k2) → r_lo x <= b <= r_hi x → ¬ in_ranges k1 b ∧ ¬ in_ranges k2 b.
Proof.
  intros W Hb. destruct (sorted_around h k1 x k2 b W) as [_ _].
  apply wf_ranges_app in W as ([_ _ _ Ho1] & W2 & Hd). apply wf_ranges_cons in W2 as (_ & _ & _ & Hd2).
  split; intros (y & Hy & ?).
  - destruct (Hd y x Hy) as [Ha _]; [apply list_elem_of_here|]. unfold apart in Ha. lia.
  - destruct (Hd2 y Hy) as [Ha _]. unfold apart in Ha. lia.
Qed.

(** One visit of the allocation loop. *)
Lemma in_ranges_mid k1 x k2 b :
  in_ranges (k1 ++ x :: k2) b ↔ in_ranges k1 b ∨ r_lo x <= b <= r_hi x ∨ in_ranges k2 b.
Proof. by rewrite in_ranges_app, in_ranges_cons. Qed.

Lemma shrink_taken h fl k1 x k2 lo hi c n b :
  wf_shape h fl (k1 ++ x :: k2) → 0 < n → r_lo x <= lo <= hi → hi <= r_hi x →
  (b = r_lo x ∧ lo = r_lo x + n ∧ hi = r_hi x ∨ b = r_hi x + 1 - n ∧ lo = r_lo x ∧ hi = r_hi x - n) →
  taken h fl (k1 ++ x :: k2) n b (<[r_addr x := sealed (RangeNode lo hi c)]> h) fl
    (k1 ++ Range (r_addr x) lo hi :: k2) ∧
  owned h (k1 ++ x :: k2) (λ _, False) (<[r_addr x := sealed (RangeNode lo hi c)]> h)
    (k1 ++ Range (r_addr x) lo hi :: k2).
Proof.
  intros Hs Hn Hlo Hhi Hcase. pose proof (ws_ranges _ _ _ Hs) as W.
  assert (Hox : range_ok x) by (destruct W as [_ _ _ Ho]; rewrite Forall_forall in Ho; apply Ho; set_solver).
  destruct Hox as [Hox1 Hox2].
  pose proof W as W'. apply wf_ranges_app in W' as (W1 & W2 & Hd).
  apply wf_ranges_cons in W2 as (_ & _ & W2 & Hd2).
  split.
  - unfold taken. split_and!; try done.
    + apply shape_set; [done|lia|lia|..]; apply Forall_forall; intros y Hy.
      * destruct (Hd y x Hy) as [Ha _]; [apply list_elem_of_here|]. unfold apart in Ha. simpl. lia.
      * destruct (Hd2 y Hy) as [Ha _]. unfold apart in Ha. simpl. lia.
    + intros y Hy. apply in_ranges_mid. right; left. lia.
    + intros y. rewrite !in_ranges_mid. simpl.
      assert (Hy : lo <= y <= hi ↔ r_lo x <= y <= r_hi x ∧ ¬ b <= y < b + n) by lia.
      assert (Hb : b <= y < b + n → r_lo x <= y <= r_hi x) by lia.
      pose proof (λ H, in_ranges_other h k1 x k2 y W (Hb H)). tauto.
    + rewrite !sizes_app. simpl. lia.
  - split.
    + intros a Ha _. apply lookup_insert_ne. intros <-. apply Ha. rewrite fmap_app. set_solver.
    + intros a Ha. left. rewrite fmap_app in *. done.
Qed.

Lemma remove_taken h fl k1 x k2 :
  wf_shape h fl (k1 ++ x :: k2) → Z.of_nat (length (k1 ++ x :: k2)) < 2 ^ 62 →
  taken h fl (k1 ++ x :: k2) (r_hi x - r_lo x + 1) (r_lo x) (delete (r_addr x) h)
    (unlinked fl (r_addr x)) (k1 ++ k2) ∧
  owned h (k1 ++ x :: k2) (λ _, False) (delete (r_addr x) h) (k1 ++ k2).
Proof.
  intros Hs Hlen. pose proof (ws_ranges _ _ _ Hs) as W.
  assert (Hox : range_ok x) by (destruct W as [_ _ _ Ho]; rewrite Forall_forall in Ho; apply Ho; set_solver).
  destruct Hox as [Hox1 Hox2]. split.
  - unfold taken. split_and!; try lia.
    + by apply shape_remove.
    + unfold unlinked. by destruct (opt_eqb _ _), (opt_eqb _ _).
    + unfold unlinked. by destruct (opt_eqb _ _), (opt_eqb _ _).
    + unfold unlinked. by destruct (opt_eqb _ _), (opt_eqb _ _).
    + intros y Hy. apply in_ranges_mid. right; left. lia.
    + intros y. rewrite in_ranges_mid, in_ranges_app.
      assert (Hy : r_lo x <= y <= r_hi x ↔ r_lo x <= y < r_lo x + (r_hi x - r_lo x + 1)) by lia.
      rewrite <- Hy. pose proof (in_ranges_other h k1 x k2 y W). tauto.
    + rewrite !sizes_app. simpl. lia.
  - split.
    + intros a Ha _. apply lookup_delete_ne. intros <-. apply Ha. rewrite fmap_app. set_solver.
    + intros a Ha. left. rewrite fmap_app in *. simpl. set_solver.
Qed.

(** The loop took blocks: at most the request, all of it for huge blocks. *)
Definition alloc_took (s : bstate) (fl : free_list) (rs : list range) (btype nb : Z)
    (r : result (option (Z * Z * free_list) * bstate)) : Prop :=
  ∃ n b fl' h' rs', r = Ok (Some (n, b, fl'), set_nodes s h') ∧
    n <= nb ∧ (0 < btype → n = nb) ∧
    taken (nodes s) fl rs n b h' fl' rs' ∧ owned (nodes s) rs (λ _, False) h' rs'.
(** It found none of [todo] large enough. *)
Definition alloc_none (s : bstate) (todo : list range) (btype nb : Z)
    (r : result (option (Z * Z * free_list) * bstate)) : Prop :=
  r = Ok (None, s) ∧ (todo = [] ∨ 0 < btype) ∧ Forall (λ x, r_hi x - r_lo x + 1 < nb) todo.

Lemma alloc_visit fuel d btype fl nb k1 x k2 s :
  wf_shape (nodes s) fl (k1 ++ x :: k2) → Z.of_nat (length (k1 ++ x :: k2)) < 2 ^ 62 →
  0 < nb < 2 ^ 62 →
  (0 < btype ∧ r_hi x - r_lo x + 1 < nb ∧
   alloc_loop bc (S fuel) d btype fl nb (Some (r_addr x)) s =
   alloc_loop bc fuel d btype fl nb (step_node d (block_free_tree fl) (r_addr x)) s) ∨
  alloc_took s fl (k1 ++ x :: k2) btype nb
    (alloc_loop bc (S fuel) d btype fl nb (Some (r_addr x)) s).
Proof.
  intros Hs Hlen Hnb. pose proof (ws_ranges _ _ _ Hs) as W.
  assert (Hx : x ∈ k1 ++ x :: k2) by set_solver.
  assert (Hox : range_ok x) by (destruct W as [_ _ _ Ho]; rewrite Forall_forall in Ho; by apply Ho).
  destruct Hox as [Hox1 Hox2].
  destruct (wf_holds _ _ x W Hx) as (nd & Hnd & Hlo & Hhi & Hcs).
  simpl. erewrite bind_Ok; [|by eapply checksum_ok_eq]. simpl.
  erewrite bind_Ok; [|by apply get_node_eq]. rewrite Hlo, Hhi, !(wrap_small 64) by lia.
  destruct (Z.geb_spec nb (r_hi x - r_lo x + 1)) as [Hge|Hlt].
  - destruct (Z.gtb_spec btype 0) as [Hb|Hb];
      destruct (Z.gtb_spec nb (r_hi x - r_lo x + 1)) as [Hgt|Hle]; simpl.
    { left. split_and!; [lia|lia|done]. }
    all: right; erewrite bind_Ok by done; unfold mret, M_ret.
    all: destruct (remove_taken (nodes s) fl k1 x k2 Hs Hlen) as [Ht Ho].
    all: eexists _, _, _, _, _; split; [reflexivity|]; split; [lia|]; split; [lia|]; exact (conj Ht Ho).
  - right. destruct (from_head d) eqn:Ed.
    + rewrite (wrap_small 64 (r_lo x + nb)) by lia.
      rewrite <- bind_assoc. erewrite bind_Ok; [|by apply set_low_sealed].
      destruct (shrink_taken (nodes s) fl k1 x k2 (r_lo x + nb) (r_hi x) (rn_csum nd) nb (r_lo x))
        as [Ht Ho]; [done|lia..|left; done|].
      rewrite Hhi. eexists _, _, _, _, _; split; [reflexivity|]; split; [lia|]; split; [lia|]; exact (conj Ht Ho).
    + rewrite (wrap_small 64 (r_hi x - nb)), (wrap_small 64 (r_hi x + 1 - nb)) by lia.
      rewrite <- bind_assoc. erewrite bind_Ok; [|by apply set_high_sealed].
      destruct (shrink_taken (nodes s) fl k1 x k2 (r_lo x) (r_hi x - nb) (rn_csum nd) nb (r_hi x + 1 - nb))
        as [Ht Ho]; [done|lia..|right; done|].
      rewrite Hlo. eexists _, _, _, _, _; split; [reflexivity|]; split; [lia|]; split; [lia|]; exact (conj Ht Ho).
Qed.

Lemma alloc_loop_head btype fl nb s : 0 < nb < 2 ^ 62 → ∀ fuel l1 l2,
  wf_shape (nodes s) fl (l1 ++ l2) → Z.of_nat (length (l1 ++ l2)) < 2 ^ 62 → (length l2 <= fuel)%nat →
  let r := alloc_loop bc fuel ALLOC_FROM_HEAD btype fl nb (r_addr <$> head l2) s in
  alloc_none s l2 btype nb r ∨ alloc_took s fl (l1 ++ l2) btype nb r.
Proof.
  intros Hnb. induction fuel as [|fuel IH]; intros l1 l2 Hs Hlen Hf.
  { destruct l2; [|simpl in Hf; lia]. left. by repeat split; auto. }
  destruct l2 as [|x l2]; [left; by repeat split; auto|]. cbv zeta.
  change (r_addr <$> head (x :: l2)) with (Some (r_addr x)).
  destruct (alloc_visit fuel ALLOC_FROM_HEAD btype fl nb l1 x l2 s Hs Hlen Hnb)
    as [(Hb & Hsz & E)|Ht]; [|by right].
  rewrite E. unfold step_node. simpl from_head. cbn iota.
  rewrite (rb_next_at _ l1 x l2); [|apply Hs|apply Hs].
  destruct (IH (l1 ++ [x]) l2) as [(E' & Ht & Hall)|Ht].
  - by rewrite <- app_assoc.
  - by rewrite <- app_assoc.
  - simpl in Hf. lia.
  - left. split; [exact E'|]. split; [by right|]. by constructor.
  - right. by rewrite <- app_assoc in Ht.
Qed.

Lemma alloc_loop_tail btype fl nb s : 0 < nb < 2 ^ 62 → ∀ fuel l1 l2,
  wf_shape (nodes s) fl (l1 ++ l2) → Z.of_nat (length (l1 ++ l2)) < 2 ^ 62 → (length l1 <= fuel)%nat →
  let r := alloc_loop bc fuel ALLOC_FROM_TAIL btype fl nb (r_addr <$> last l1) s in
  alloc_none s l1 btype nb r ∨ alloc_took s fl (l1 ++ l2) btype nb r.
Proof.
  intros Hnb. induction fuel as [|fuel IH]; intros l1 l2 Hs Hlen Hf.
  { destruct l1; [|simpl in Hf; lia]. left. by repeat split; auto. }
  destruct l1 as [|x l1 _] using rev_ind; [left; by repeat split; auto|]. rewrite last_snoc.
  rewrite <- app_assoc in Hs, Hlen. cbv zeta.
  change (r_addr <$> Some x) with (Some (r_addr x)).
  destruct (alloc_visit fuel ALLOC_FROM_TAIL btype fl nb l1 x l2 s Hs Hlen Hnb)
    as [(Hb & Hsz & E)|Ht]; [|right; by rewrite <- app_assoc].
  rewrite E. unfold step_node. simpl from_head. cbn iota.
  rewrite (rb_prev_at _ l1 x l2); [|apply Hs|apply Hs].
  destruct (IH l1 (x :: l2)) as [(E' & Ht & Hall)|Ht]; [done|done| |..].
  - rewrite length_app in Hf. simpl in Hf. lia.
  - left. split; [exact E'|]. split; [by right|]. apply Forall_app. split; [done|]. by constructor.
  - right. by rewrite <- app_assoc.
Qed.

(** The loop over the whole list, from either end. *)
Lemma alloc_loop_spec d btype fl nb rs s :
  0 < nb < 2 ^ 62 → wf_shape (nodes s) fl rs → Z.of_nat (length rs) < 2 ^ 62 →
  let r := alloc_loop bc (length (inorder (block_free_tree fl))) d btype fl nb (start_node d fl) s in
  alloc_none s rs btype nb r ∨ alloc_took s fl rs btype nb r.
Proof.
  intros Hnb Hs Hlen. rewrite (ws_tree _ _ _ Hs), length_fmap. unfold start_node.
  destruct d; simpl from_head; cbn iota.
  - rewrite (ws_first _ _ _ Hs). by apply (alloc_loop_head btype fl nb s Hnb _ [] rs).
  - rewrite (ws_last _ _ _ Hs).
    pose proof (alloc_loop_tail btype fl nb s Hnb (length rs) rs []) as Ht.
    rewrite app_nil_r in Ht. by apply Ht.
Qed.

(** *** Huge pages *)

Definition super_took (s : bstate) (fl : free_list) (rs : list range) (nb : Z)
    (r : result (Z * Z * free_list * bstate)) : Prop :=
  ∃ n b fl' h' n' rs',
    r = Ok ((n, b, fl'), BState h' n' (lists s) (per_list_blocks s) (pm s)) ∧
    (next_addr s <= n')%nat ∧ n <= nb ∧ n mod 512 = 0 ∧ b mod 512 = 0 ∧
    taken (nodes s) fl rs n b h' fl' rs' ∧
    owned (nodes s) rs (λ a, (next_addr s <= a < n')%nat) h' rs'.

Lemma superpage_take_spec s fl k1 x k2 nd nb lm :
  wf_shape (nodes s) fl (k1 ++ x :: k2) → Z.of_nat (length (k1 ++ x :: k2)) < 2 ^ 62 →
  nodes s !! r_addr x = Some nd → range_low nd = r_lo x → range_high nd = r_hi x →
  (∀ a, slab_ok bc a = true) → (∀ y, y ∈ k1 ++ x :: k2 → (r_addr y < next_addr s)%nat) →
  0 < lm <= 512 → (r_lo x + lm) mod 512 = 0 →
  0 < nb → nb mod 512 = 0 → nb <= r_hi x - r_lo x + 1 - lm → r_hi x - r_lo x < 2 ^ 32 - 1 →
  super_took s fl (k1 ++ x :: k2) nb (superpage_take bc fl (r_addr x) nd nb lm s).
Proof.
  intros Hs Hlen Hnd Hlo Hhi Hslab Hlt Hlm Hal Hnb Hnb2 Hroom Hsmall.
  pose proof (ws_ranges _ _ _ Hs) as W.
  assert (Hx : x ∈ k1 ++ x :: k2) by set_solver.
  assert (Hox : range_ok x) by (destruct W as [_ _ _ Ho]; rewrite Forall_forall in Ho; by apply Ho).
  destruct Hox as [Hox1 Hox2].
  pose proof W as W'. apply wf_ranges_app in W' as (W1 & W2 & Hd).
  apply wf_ranges_cons in W2 as (_ & _ & W2 & Hd2).
  set (mid := r_lo x + lm - 1).
  set (x' := Range (r_addr x) (r_lo x) mid).
  set (h1 := <[r_addr x := sealed (RangeNode (r_lo x) mid (rn_csum nd))]> (nodes s)).
  assert (G1 : Forall (λ y, r_hi y + 1 < r_lo x) k1).
  { apply Forall_forall. intros y Hy. by destruct (Hd y x Hy) as [Ha _]; [apply list_elem_of_here|]. }
  assert (G2 : Forall (λ y, r_hi x + 1 < r_lo y) k2).
  { apply Forall_forall. intros y Hy. by destruct (Hd2 y Hy) as [Ha _]. }
  assert (Hs1 : wf_shape h1 fl (k1 ++ x' :: k2)).
  { apply shape_set; [done|unfold mid; lia|unfold mid; lia|done|].
    eapply Forall_impl; [exact G2|]. simpl. unfold mid. lia. }
  unfold superpage_take. rewrite Hlo, Hhi.
  rewrite (wrap_small 64 (r_hi x - r_lo x + 1)), (wrap_small 64 (r_lo x + lm)),
    (wrap_small 64 (r_lo x + lm - 1)), (wrap_small 64 (r_lo x + lm + nb)), (wrap_small 32) by lia.
  destruct (Z.eqb_spec lm 0); [lia|]. cbn [negb]. unfold when.
  rewrite (bind_Ok _ _ _ () (set_nodes s h1)).
  2:{ rewrite (set_high_sealed _ nd) by done. by rewrite Hlo. }
  set (rm := r_hi x - r_lo x + 1 - lm - nb).
  destruct (Z.eqb_spec rm 0) as [Hrm|Hrm]; cbn [negb].
  - (* the request ends the range *)
    unfold mret, M_ret.
    exists nb, (r_lo x + lm), fl, h1, (next_addr s), (k1 ++ x' :: k2).
    split; [reflexivity|]. split_and!; try done; try lia.
    + destruct (shrink_taken (nodes s) fl k1 x k2 (r_lo x) mid (rn_csum nd) nb (r_lo x + lm))
        as [Ht _]; [done|lia|unfold mid; lia|unfold mid; lia|right; unfold mid; lia|exact Ht].
    + destruct (shrink_taken (nodes s) fl k1 x k2 (r_lo x) mid (rn_csum nd) nb (r_lo x + lm))
        as [_ [Ho1 Ho2]]; [done|lia|unfold mid; lia|unfold mid; lia|right; unfold mid; lia|].
      split; [intros a Ha _; apply Ho1; [exact Ha|tauto]|].
      intros a Ha; left; by destruct (Ho2 a Ha).
  - (* a new node for what is right of the request *)
    unfold nova_alloc_blocknode_atomic.
    erewrite bind_Ok; [|apply alloc_blocknode_eq; apply Hslab]. cbn beta iota. simpl next_addr.
    set (c := next_addr s). set (lo := r_lo x + lm + nb).
    set (h2 := <[c := sealed (RangeNode lo (r_hi x) 0)]> h1).
    set (s2 := BState h2 (Datatypes.S c) (lists s) (per_list_blocks s) (pm s)).
    erewrite bind_Ok; [|eapply set_low_eq; apply lookup_insert_eq].
    erewrite bind_Ok; [|eapply set_high_eq; apply lookup_insert_eq].
    erewrite bind_Ok; [|eapply update_checksum_eq; apply lookup_insert_eq].
    simpl. rewrite !insert_insert_eq. fold lo h2.
    change (set_nodes _ h2) with s2.
    assert (Hc : ∀ y, y ∈ k1 ++ x :: k2 → r_addr y ≠ c).
    { intros y Hy. specialize (Hlt y Hy). unfold c. lia. }
    assert (Hc' : c ∉ r_addr <$> ((k1 ++ [x']) ++ k2)).
    { rewrite <- app_assoc. intros (y & E & Hy)%list_elem_of_fmap. symmetry in E. revert E.
      simpl in Hy. apply elem_of_app in Hy as [Hy|[->|Hy]%elem_of_cons]; [| |];
        [apply Hc; set_solver|apply (Hc x); set_solver|apply Hc; set_solver]. }
    assert (Hout : ∀ y, y ∈ (k1 ++ [x']) ++ k2 → h2 !! r_addr y = h1 !! r_addr y).
    { intros y Hy. apply lookup_insert_ne. intros ->. apply Hc'. by apply list_elem_of_fmap_2. }
    assert (E1 : k1 ++ x' :: k2 = (k1 ++ [x']) ++ k2) by (by rewrite <- app_assoc).
    rewrite E1 in Hs1.
    assert (Wn : wf_ranges h2 ((k1 ++ [x']) ++ Range c lo (r_hi x) :: k2)).
    { apply (wf_ranges_insert h1); try done; [apply Hs1|apply holds_sealed|unfold lo, rm in *; lia|..].
      apply Forall_app. split; [|repeat constructor; simpl; unfold mid, lo; lia].
      eapply Forall_impl; [exact G1|]. simpl. unfold lo. lia. }
    destruct (insert_blocktree_spec (block_free_tree fl) c (sealed (RangeNode lo (r_hi x) 0))
      (k1 ++ [x']) k2 s2) as (t & Et & Hi); [apply Hs1| |apply lookup_insert_eq|..].
    { eapply wf_ranges_ext; [|apply Hs1]. exact Hout. }
    { rewrite sealed_low. apply Forall_app. split; [|repeat constructor; simpl; unfold mid, lo; lia].
      eapply Forall_impl; [exact G1|]. simpl. unfold lo. lia. }
    { rewrite sealed_low. eapply Forall_impl; [exact G2|]. simpl. unfold lo, rm in *. lia. }
    erewrite bind_Ok; [|exact Et]. cbn beta iota. unfold mret, M_ret.
    set (fl2 := set_num_node (set_tree fl t) (u64 (num_blocknode fl + 1))).
    set (fl3 := if opt_eqb (Some (r_addr x)) (last_node fl2) then set_last fl2 (Some c) else fl2).
    exists nb, (r_lo x + lm), fl3, h2, (Datatypes.S c), ((k1 ++ [x']) ++ Range c lo (r_hi x) :: k2).
    split; [reflexivity|]. split_and!; try done; try (unfold c; lia).
    + unfold taken. split_and!.
      * destruct Hs1 as [_ _ Hf1 Hl1 Hn1]. split; [|done|..].
        -- unfold fl3. rewrite fmap_app. destruct (opt_eqb _ _); exact Hi.
        -- transitivity (first_node fl); [unfold fl3; by destruct (opt_eqb _ _)|].
           rewrite Hf1. rewrite <- !app_assoc. by destruct k1.
        -- unfold fl3, opt_eqb. rewrite last_app_cons. case_bool_decide as Hb; simpl.
           ++ simpl in Hb. destruct k2 as [|y k2]; [done|]. exfalso.
              rewrite Hl1, last_app_cons in Hb. 
              destruct (last (y :: k2)) as [z|] eqn:Ez; [|by apply last_None in Ez].
              injection Hb as Hb. apply last_in in Ez. by destruct (Hd2 z Ez).
           ++ simpl in Hb. rewrite Hl1 in *. destruct k2 as [|y k2].
              ** rewrite app_nil_r, last_snoc in Hb. done.
              ** by rewrite last_app_cons.
        -- transitivity (u64 (num_blocknode fl + 1)); [unfold fl3; by destruct (opt_eqb _ _)|].
           rewrite Hn1, wrap_small; rewrite !length_app in *; simpl in *; lia.
      * unfold fl3. by destruct (opt_eqb _ _).
      * unfold fl3. by destruct (opt_eqb _ _).
      * unfold fl3. by destruct (opt_eqb _ _).
      * lia.
      * intros y Hy. apply in_ranges_mid. right; left. unfold rm in *. lia.
      * intros y. rewrite <- app_assoc. simpl app. rewrite !in_ranges_mid, in_ranges_cons. simpl.
        assert (Hy : r_lo x <= y <= mid ∨ lo <= y <= r_hi x ↔
          r_lo x <= y <= r_hi x ∧ ¬ r_lo x + lm <= y < r_lo x + lm + nb) by (unfold mid, lo, rm in *; lia).
        assert (Hb : r_lo x + lm <= y < r_lo x + lm + nb → r_lo x <= y <= r_hi x) by lia.
        pose proof (λ H, in_ranges_other (nodes s) k1 x k2 y W (Hb H)). tauto.
      * rewrite <- app_assoc, !sizes_app. simpl. unfold mid, lo. lia.
    + split.
      * intros a Ha Hac. unfold h2, h1. rewrite !lookup_insert_ne; [done|..].
        -- intros <-. apply Ha. by apply list_elem_of_fmap_2.
        -- intros <-. apply Hac. unfold c. lia.
      * intros a. rewrite <- app_assoc, !fmap_app. simpl. unfold c. set_unfold.
        intros [?|[?|[?|?]]]; [naive_solver..|subst a; right; lia|naive_solver].
Qed.

Lemma super_took_weaken s fl rs nb nb' r :
  super_took s fl rs nb' r → nb' <= nb → super_took s fl rs nb r.
Proof.
  intros (n & b & fl' & h' & n' & rs' & -> & H1' & H2' & H3) Hle.
  exists n, b, fl', h', n', rs'. split_and!; try done; try lia; apply H3.
Qed.

(** What huge-page allocation asks of a list: slab allocations succeed, ranges
    are shorter than [2^32] blocks ([right_margin] is an [unsigned int]). *)
Record super_ok (s : bstate) (rs : list range) : Prop := {
  so_slab : ∀ a, slab_ok bc a = true;
  so_fresh : ∀ y, y ∈ rs → (r_addr y < next_addr s)%nat;
  so_small : ∀ y, y ∈ rs → r_hi y - r_lo y < 2 ^ 32 - 1;
  so_len : Z.of_nat (length rs) < 2 ^ 62
}.

Lemma margin_spec lo :
  0 <= lo →
  let lm := u32 (PAGES_PER_2MB - Z.land lo PAGES_PER_2MB_MASK) in
  0 < lm <= 512 ∧ (lo + lm) mod 512 = 0.
Proof.
  intros Hlo. unfold PAGES_PER_2MB, PAGES_PER_2MB_MASK. change (512 - 1) with (2 ^ 9 - 1).
  rewrite land_mask_mod by lia. change (2 ^ 9) with 512.
  pose proof (Z.mod_pos_bound lo 512 ltac:(lia)). pose proof (Z.div_mod lo 512 ltac:(lia)).
  rewrite wrap_small by lia. split; [lia|].
  replace (lo + (512 - lo mod 512)) with ((lo / 512 + 1) * 512) by lia. apply Z.mod_mul. lia.
Qed.

Lemma superpage_visit fuel d fl nb k1 x k2 s :
  wf_shape (nodes s) fl (k1 ++ x :: k2) → super_ok s (k1 ++ x :: k2) →
  0 < nb < 2 ^ 62 → nb mod 512 = 0 →
  (∃ nb', 0 < nb' <= nb ∧ nb' mod 512 = 0 ∧
     superpage_loop bc (S fuel) d fl nb (Some (r_addr x)) s =
     superpage_loop bc fuel d fl nb' (step_node d (block_free_tree fl) (r_addr x)) s) ∨
  super_took s fl (k1 ++ x :: k2) nb (superpage_loop bc (S fuel) d fl nb (Some (r_addr x)) s).
Proof.
  intros Hs [Hslab Hfr Hsm Hlen] Hnb Hm. pose proof (ws_ranges _ _ _ Hs) as W.
  assert (Hx : x ∈ k1 ++ x :: k2) by set_solver.
  assert (Hox : range_ok x) by (destruct W as [_ _ _ Ho]; rewrite Forall_forall in Ho; by apply Ho).
  destruct Hox as [Hox1 Hox2].
  destruct (wf_holds _ _ x W Hx) as (nd & Hnd & Hlo & Hhi & Hcs).
  cbn [superpage_loop]. erewrite bind_Ok; [|by eapply checksum_ok_eq]. cbn [negb].
  erewrite bind_Ok; [|by apply get_node_eq]. rewrite Hlo, Hhi.
  rewrite (wrap_small 64 (r_hi x - r_lo x + 1)) by lia.
  destruct (margin_spec (r_lo x)) as [Hlm Hal]; [lia|].
  set (lm := u32 _) in *. set (cb := r_hi x - r_lo x + 1).
  set (room := u64 (cb - lm)). set (whole := Z.land room (Z.lnot PAGES_PER_2MB_MASK)).
  assert (Hwhole : whole = room - room mod 512).
  { unfold whole, PAGES_PER_2MB_MASK. change (512 - 1) with (2 ^ 9 - 1). by rewrite land_lnot_mask by lia. }
  assert (Hroom : 0 <= room) by (apply wrap_range; lia).
  pose proof (Z.mod_pos_bound room 512 ltac:(lia)). pose proof (Z.div_mod room 512 ltac:(lia)).
  set (nb' := if (nb >? room) && (whole >? 0) then whole else nb).
  assert (Hnb' : 0 < nb' <= nb ∧ nb' mod 512 = 0).
  { unfold nb'. destruct (Z.gtb_spec nb room), (Z.gtb_spec whole 0); simpl; try (split; [lia|done]).
    split; [lia|]. rewrite Hwhole. replace (room - room mod 512) with (room / 512 * 512) by lia.
    apply Z.mod_mul. lia. }
  destruct Hnb' as [Hnb1 Hnb2].
  destruct (Z.gtb_spec cb lm) as [Hgt|]; [|left; by exists nb'].
  destruct (Z.leb_spec nb' room) as [Hle|]; [|left; by exists nb']. simpl.
  right. assert (Er : room = cb - lm) by (unfold room; apply wrap_small; unfold cb in *; lia).
  eapply super_took_weaken; [|apply Hnb1].
  apply superpage_take_spec; try done; try lia. by apply Hsm.
Qed.

Definition super_none (s : bstate) (fl : free_list) (r : result (Z * Z * free_list * bstate)) : Prop :=
  r = Ok ((0, 0, fl), s).

Lemma superpage_loop_head fl s : ∀ fuel l1 l2 nb,
  wf_shape (nodes s) fl (l1 ++ l2) → super_ok s (l1 ++ l2) → (length l2 <= fuel)%nat →
  0 < nb < 2 ^ 62 → nb mod 512 = 0 →
  let r := superpage_loop bc fuel ALLOC_FROM_HEAD fl nb (r_addr <$> head l2) s in
  super_none s fl r ∨ super_took s fl (l1 ++ l2) nb r.
Proof.
  induction fuel as [|fuel IH]; intros l1 l2 nb Hs Hok Hf Hnb Hm.
  { destruct l2; [|simpl in Hf; lia]. by left. }
  destruct l2 as [|x l2]; [by left|]. cbv zeta.
  change (r_addr <$> head (x :: l2)) with (Some (r_addr x)).
  destruct (superpage_visit fuel ALLOC_FROM_HEAD fl nb l1 x l2 s) as [(nb' & Hb & Hm' & E)|Ht];
    [done..| |by right].
  rewrite E. unfold step_node. simpl from_head. cbn iota.
  rewrite (rb_next_at _ l1 x l2); [|apply Hs|apply Hs].
  destruct (IH (l1 ++ [x]) l2 nb') as [E'|Ht].
  - by rewrite <- app_assoc.
  - by rewrite <- app_assoc.
  - simpl in Hf. lia.
  - lia.
  - done.
  - by left.
  - right. rewrite <- app_assoc in Ht. eapply super_took_weaken; [exact Ht|lia].
Qed.

Lemma superpage_loop_tail fl s : ∀ fuel l1 l2 nb,
  wf_shape (nodes s) fl (l1 ++ l2) → super_ok s (l1 ++ l2) → (length l1 <= fuel)%nat →
  0 < nb < 2 ^ 62 → nb mod 512 = 0 →
  let r := superpage_loop bc fuel ALLOC_FROM_TAIL fl nb (r_addr <$> last l1) s in
  super_none s fl r ∨ super_took s fl (l1 ++ l2) nb r.
Proof.
  induction fuel as [|fuel IH]; intros l1 l2 nb Hs Hok Hf Hnb Hm.
  { destruct l1; [|simpl in Hf; lia]. by left. }
  destruct l1 as [|x l1 _] using rev_ind; [by left|]. rewrite last_snoc. cbv zeta.
  rewrite <- app_assoc in Hs, Hok. change (r_addr <$> Some x) with (Some (r_addr x)).
  destruct (superpage_visit fuel ALLOC_FROM_TAIL fl nb l1 x l2 s) as [(nb' & Hb & Hm' & E)|Ht];
    [done..| |right; by rewrite <- app_assoc].
  rewrite E. unfold step_node. simpl from_head. cbn iota.
  rewrite (rb_prev_at _ l1 x l2); [|apply Hs|apply Hs].
  destruct (IH l1 (x :: l2) nb') as [E'|Ht]; [done|done| |lia|done|by left|].
  - rewrite length_app in Hf. simpl in Hf. lia.
  - right. rewrite <- app_assoc. eapply super_took_weaken; [exact Ht|lia].
Qed.

Lemma nova_alloc_superpage_spec d fl nb rs s :
  wf_shape (nodes s) fl rs → super_ok s rs → 0 < nb < 2 ^ 62 → nb mod 512 = 0 →
  let r := nova_alloc_superpage bc fl nb d s in
  super_none s fl r ∨ super_took s fl rs nb r.
Proof.
  intros Hs Hok Hnb Hm. unfold nova_alloc_superpage.
  rewrite (ws_tree _ _ _ Hs), length_fmap. unfold start_node.
  destruct d; simpl from_head; cbn iota.
  - rewrite (ws_first _ _ _ Hs). by apply (superpage_loop_head fl s _ [] rs).
  - rewrite (ws_last _ _ _ Hs).
    pose proof (superpage_loop_tail fl s (length rs) rs []) as Ht.
    rewrite app_nil_r in Ht. by apply Ht.
Qed.
End Proofs.
