(* ===== verification/NovaBallocSpec.v ===== *)
(** * NOVA: allocation over the whole set of free lists

    The properties of [nova_free_blocks], [nova_new_blocks],
    [nova_count_free_blocks] and [nova_init_blockmap] on a well-formed
    allocator ([wf_state]). *)

From stdpp Require Import base list gmap sorting.
From Stdlib Require Import ZArith Lia.
From coqutil Require Import Byte Word.LittleEndianList.
From S2P Require Import Prelude PMem NovaBase NovaBalloc NovaBallocProofs.

Local Open Scope Z_scope.

(** The sum of the counters of all lists. *)
Definition total_free (l : list free_list) : Z := foldr (λ fl a, num_free_blocks fl + a) 0 l.

Lemma total_free_insert l i fl fl' :
  l !! i = Some fl →
  total_free (<[i := fl']> l) = total_free l - num_free_blocks fl + num_free_blocks fl'.
Proof.
  revert i. induction l as [|x l IH]; intros [|i] Hi; simplify_eq/=; [lia|].
  rewrite (IH i) by done. lia.
Qed.

Section Spec.
#[local] Set Default Proof Using "All".
Context `{Crc} `{RBTree} `{!RBTreeLaws}.
Variable bc : balloc_cfg.

Abbreviation wf := (wf_state bc).

Lemma wf_len s R i fl : wf s R → lists s !! i = Some fl → Z.of_nat (length (R i)) < 2 ^ 62.
Proof.
  intros S Hi. destruct (st_lists _ _ _ S i fl Hi) as [[] ? ?].
  pose proof (length_sizes bc (R i) ltac:(by eapply wr_ok)). lia.
Qed.

(** Blocks [b .. b + n - 1] left the free set between [s] and [s']; nothing
    else happened to it. *)
Record took (s : bstate) (R : nat → list range) (n b : Z) (s' : bstate)
    (R' : nat → list range) : Prop := {
  tk_wf : wf s' R';
  tk_pos : 0 < n;
  tk_start : 0 < b;
  tk_were_free : ∀ y, b <= y < b + n → free s R y;
  tk_free : ∀ y, free s' R' y ↔ free s R y ∧ ¬ b <= y < b + n;
  tk_total : total_free (lists s') = total_free (lists s) - n;
  tk_length : length (lists s') = length (lists s);
  tk_layouts : layout <$> lists s' = layout <$> lists s;
  tk_one_list : ∃ i fl, lists s' !! i = Some fl ∧
    block_start (layout fl) <= b ∧ b + n - 1 <= block_end (layout fl)
}.

(** Block 0 is reserved; ranges are shorter than [2^32] blocks. *)
Record sane (s : bstate) : Prop := {
  sn_start : ∀ i fl, lists s !! i = Some fl → 0 < block_start (layout fl);
  sn_small : ∀ i fl, lists s !! i = Some fl →
    block_end (layout fl) - block_start (layout fl) < 2 ^ 32 - 1
}.

Lemma taken_update s R i fl n b h' n' fl' rs' :
  wf s R → sane s → lists s !! i = Some fl → (next_addr s <= n')%nat →
  taken bc (nodes s) fl (R i) n b h' fl' rs' →
  owned (nodes s) (R i) (λ a, (next_addr s <= a < n')%nat) h' rs' →
  took s R n b
    (BState h' n' (<[i := set_num_free fl' (u64 (num_free_blocks fl - n))]> (lists s))
       (per_list_blocks s) (pm s)) (update_R R i rs').
Proof.
  intros S Hsane Hi Hn' (Hsh & Hnf & Hlay & Hst & Hn & Hin & Hiff & Hsz) [Hout Hids].
  pose proof (st_lists _ _ _ S i fl Hi) as [Wsh Wf Wsz].
  pose proof (st_bounds _ _ _ S i fl Hi) as Hbd.
  pose proof (wr_ok _ _ _ (ws_ranges _ _ _ _ Hsh)) as Hok.
  pose proof (sizes_nonneg rs' Hok) as Hnn.
  assert (Hb : block_start (layout fl) <= b).
  { destruct (Hin b ltac:(lia)) as (x & Hx & ?). rewrite Forall_forall in Hbd.
    specialize (Hbd x Hx). simpl in Hbd. lia. }
  pose proof (sn_start _ Hsane i fl Hi).
  assert (Hwrap : u64 (num_free_blocks fl - n) = num_free_blocks fl - n)
    by (apply wrap_small; lia).
  split; simpl.
  - apply (wf_state_update bc s R i fl); try done.
    + split; simpl; [destruct Hsh as []; by split|lia|lia].
    + intros a Ha Hlt. apply Hout; [done|lia].
    + apply Forall_forall. intros x Hx. rewrite Forall_forall in Hbd, Hok.
      destruct (Hok x Hx) as [Hx1 _].
      assert (Hedge : ∀ y, r_lo x <= y <= r_hi x →
        block_start (layout fl) <= y <= block_end (layout fl)).
      { intros y Hy. assert (Hy' : in_ranges rs' y) by (by exists x).
        apply Hiff in Hy' as [(z & Hz & ?) _]. specialize (Hbd z Hz). simpl in Hbd. lia. }
      pose proof (Hedge (r_lo x)). pose proof (Hedge (r_hi x)). lia.
  - done.
  - lia.
  - intros y Hy. exists i. split; [by eapply lookup_lt_Some|by apply Hin].
  - intros y. rewrite (free_update bc s R i fl), (free_split bc s R i fl) by done. rewrite Hiff.
    assert (Hap : (∃ j, (j < length (lists s))%nat ∧ j ≠ i ∧ in_ranges (R j) y) →
      ¬ b <= y < b + n).
    { intros (j & Hj & Hne & (x & Hx & Hxy)) Hy. apply Hne.
      destruct (lookup_lt_is_Some_2 (lists s) j Hj) as [flj Hflj].
      destruct (Hin y Hy) as (z & Hz & Hzy).
      destruct (st_layout _ _ _ S i fl Hi) as (_ & _ & Hci).
      destruct (st_layout _ _ _ S j flj Hflj) as (_ & _ & Hcj).
      pose proof (st_bounds _ _ _ S j flj Hflj) as Hbj. rewrite Forall_forall in Hbd, Hbj.
      specialize (Hbd z Hz). specialize (Hbj x Hx). simpl in Hbd, Hbj.
      specialize (Hci y ltac:(lia)). specialize (Hcj y ltac:(lia)). lia. }
    tauto.
  - rewrite (total_free_insert _ _ fl) by done. simpl. lia.
  - apply length_insert.
  - rewrite list_fmap_insert. simpl. rewrite Hlay. apply list_insert_id. by rewrite list_lookup_fmap, Hi.
  - exists i. eexists. split; [apply list_lookup_insert_eq; by eapply lookup_lt_Some|]. simpl.
    rewrite Hlay. split; [done|]. destruct (Hin (b + n - 1) ltac:(lia)) as (x & Hx & ?).
    rewrite Forall_forall in Hbd. specialize (Hbd x Hx). simpl in Hbd. lia.
Qed.

Lemma not_enough_blocks_eq s fl rs nb atype :
  wf_shape bc (nodes s) fl rs → ∃ few, not_enough_blocks fl nb atype s = Ok (few, s).
Proof.
  intros [_ W Hf Hl _]. unfold not_enough_blocks. rewrite Hf, Hl.
  destruct (head rs) as [x|] eqn:Ex; [|by exists true].
  destruct (last rs) as [z|] eqn:Ez; simpl; [|by exists true].
  destruct (_ <? nb); [by exists true|].
  destruct (wf_holds bc _ _ x W) as (nx & Hx & _); [by apply head_in|].
  destruct (wf_holds bc _ _ z W) as (nz & Hz & _); [by apply last_in|].
  erewrite bind_Ok; [|by apply get_node_eq]. erewrite bind_Ok; [|by apply get_node_eq]. eauto.
Qed.

(** The lists keep their layouts while their blocks come and go. *)
Lemma super_ok_state s R i fl :
  wf s R → sane s → (∀ a, slab_ok bc a = true) → lists s !! i = Some fl → super_ok bc s (R i).
Proof.
  intros S Hsane Hslab Hi. split; [done|..].
  - intros y Hy. apply (st_fresh _ _ _ S i). by apply list_elem_of_fmap_2.
  - intros y Hy. pose proof (st_bounds _ _ _ S i fl Hi) as Hbd. rewrite Forall_forall in Hbd.
    specialize (Hbd y Hy). simpl in Hbd. pose proof (sn_small _ Hsane i fl Hi). lia.
  - by eapply wf_len.
Qed.

(** Why a list cannot serve a request: it has too few blocks, or no range of it
    is long enough for huge blocks. *)
Definition no_room (s : bstate) (rs : list range) (fl : free_list) (btype : Z)
    (atype : alloc_type) (nb : Z) : Prop :=
  not_enough_blocks fl nb atype s = Ok (true, s) ∨
  0 < btype ∧ Forall (λ x, r_hi x - r_lo x + 1 < nb) rs.

(** What an allocation from one list may return. *)
Definition list_outcome (s : bstate) (R : nat → list range) (i : nat) (fl : free_list) (btype : Z)
    (atype : alloc_type) (nb : Z) (r : result (Z * Z * bstate)) : Prop :=
  (∃ v, r = Ok ((- ENOSPC, v), s) ∧ no_room s (R i) fl btype atype nb) ∨
  ∃ n b s' R', r = Ok ((n, b), s') ∧ took s R n b s' R' ∧ pm s' = pm s ∧ n <= nb ∧
    (0 < btype → n = nb ∨ IS_DATABLOCKS_2MB_ALIGNED nb atype = true ∧ n mod 512 = 0 ∧ b mod 512 = 0).

Lemma put_list_eq s i fl :
  put_list (Z.of_nat i) fl s = Ok ((), set_lists s (<[i := fl]> (lists s))).
Proof. unfold put_list. by rewrite Nat2Z.id. Qed.

Lemma set_lists_same s i fl : lists s !! i = Some fl → set_lists s (<[i := fl]> (lists s)) = s.
Proof. intros Hi. rewrite list_insert_id by done. by destruct s. Qed.

(** The general search, once huge pages are out of the way. *)
Lemma alloc_any_spec s R i fl btype atype nb v d :
  wf s R → sane s → lists s !! i = Some fl → 0 < nb < 2 ^ 62 →
  list_outcome s R i fl btype atype nb
    ((res ← alloc_loop bc (length (inorder (block_free_tree fl))) d btype fl nb (start_node d fl);
      match res with
      | None => mret (- ENOSPC, v)
      | Some (num_blocks, nb, fl) =>
          if num_free_blocks fl <? num_blocks
          then put_list (Z.of_nat i) fl;; mret (- ENOSPC, nb) else
          put_list (Z.of_nat i) (set_num_free fl (u64 (num_free_blocks fl - num_blocks)));;
          mret (num_blocks, nb)
      end) s).
Proof.
  intros S Hsane Hi Hnb. pose proof (st_lists _ _ _ S i fl Hi) as [Wsh Wf Wsz].
  destruct (alloc_loop_spec bc d btype fl nb (R i) s)
    as [[E [Hnil Hshort]]|(n & b & fl' & h' & rs' & E & Hle & Hty & Htk & Hown)];
    [done|done|by eapply wf_len|..]; (erewrite bind_Ok; [|exact E]); cbn beta iota.
  - left. eexists. split; [done|]. destruct Hnil as [Hnil|?]; [left|by right].
    unfold not_enough_blocks. by rewrite (ws_first _ _ _ _ Wsh), Hnil.
  - right. pose proof Htk as (Hsh & Hnf & _ & _ & Hn & _ & _ & Hsz).
    pose proof (sizes_nonneg rs' (wr_ok _ _ _ (ws_ranges _ _ _ _ Hsh))).
    destruct (Z.ltb_spec (num_free_blocks fl') n); [lia|].
    erewrite bind_Ok; [|apply put_list_eq]. exists n, b.
    eexists _, (update_R R i rs'). split; [done|]. split; [|split_and!; [done..|by left; auto]].
    rewrite Hnf. apply (taken_update s R i fl n b h' (next_addr s)); try done.
    destruct Hown as [Hout Hids]. split.
    + intros a Ha _. apply Hout; naive_solver.
    + intros a Ha. destruct (Hids a Ha); [by left|done].
Qed.

(** Allocation from one list: all or nothing as [list_outcome] says. *)
Lemma alloc_in_list_spec s R i fl btype atype nb nbr d :
  wf s R → sane s → lists s !! i = Some fl → 0 < nb < 2 ^ 62 →
  (IS_DATABLOCKS_2MB_ALIGNED nb atype = true → ∀ a, slab_ok bc a = true) →
  list_outcome s R i fl btype atype nb
    (nova_alloc_blocks_in_free_list bc (Z.of_nat i) btype atype nb nbr d s).
Proof.
  intros S Hsane Hi Hnb Hslab. pose proof (st_lists _ _ _ S i fl Hi) as [Wsh Wf Wsz].
  unfold nova_alloc_blocks_in_free_list.
  erewrite bind_Ok; [|by apply (nova_get_free_list_eq bc)].
  destruct (_ || _) eqn:Enone.
  { left. eexists. split; [done|]. left. unfold not_enough_blocks.
    destruct (first_node fl), (last_node fl); try done. simpl in Enone. apply Z.eqb_eq in Enone.
    destruct (Z.ltb_spec (num_free_blocks fl) nb); [done|lia]. }
  assert (Hfew : ∃ few, (if is_log atype then not_enough_blocks fl nb atype else mret false) s =
    Ok (few, s) ∧ (few = true → not_enough_blocks fl nb atype s = Ok (true, s))).
  { destruct (is_log atype); [|by exists false].
    destruct (not_enough_blocks_eq s fl (R i) nb atype Wsh) as [few ?]. exists few.
    split; [done|]. by intros ->. }
  destruct Hfew as (few & Hfew & Hlack). erewrite bind_Ok; [|exact Hfew].
  destruct few; [left; eexists; split; [done|left; auto]|].
  destruct (IS_DATABLOCKS_2MB_ALIGNED nb atype) eqn:E2m; cycle 1.
  { erewrite bind_Ok; [|done]. cbn beta iota.
    erewrite bind_Ok; [|apply put_list_eq]. rewrite set_lists_same by done.
    by apply alloc_any_spec. }
  assert (Hm : nb mod 512 = 0).
  { unfold IS_DATABLOCKS_2MB_ALIGNED, PAGES_PER_2MB_MASK in E2m.
    apply andb_prop in E2m as [E2m _]. change (512 - 1) with (2 ^ 9 - 1) in E2m.
    rewrite land_mask_mod in E2m by lia. by apply Z.eqb_eq in E2m. }
  destruct (nova_alloc_superpage_spec bc d fl nb (R i) s)
    as [E|(n & b & fl' & h' & n' & rs' & E & Hn' & Hle & Hn5 & Hb5 & Htk & Hown)];
    [done|by eapply super_ok_state; eauto|done|done|..];
    (erewrite bind_Ok; [|exact E]); cbn beta iota.
  { erewrite bind_Ok; [|apply put_list_eq]. rewrite set_lists_same by done.
    by apply alloc_any_spec. }
  pose proof (taken_update s R i fl n b h' n' fl' rs' S Hsane Hi Hn' Htk Hown) as Htook.
  erewrite bind_Ok; [|apply put_list_eq].
  destruct (Z.gtb_spec n 0); [|pose proof (tk_pos _ _ _ _ _ _ Htook); lia].
  destruct (Z.eqb_spec b 0); [pose proof (tk_start _ _ _ _ _ _ Htook); lia|]. simpl.
  erewrite bind_Ok; [|apply put_list_eq]. right. exists n, b.
  eexists _, (update_R R i rs'). split; [done|]. split; [|split_and!; [done..|by right]].
  unfold set_lists. simpl. rewrite list_insert_insert_eq.
  destruct Htk as (_ & Hnf & _). by rewrite Hnf.
Qed.

(** ** The choice of the list *)

Lemma candidate_loop_range l i cpuid num :
  0 <= cpuid → (cpuid = 0 ∨ cpuid < i) → 0 <= i →
  let c := candidate_loop l i cpuid num in 0 <= c ∧ (c = 0 ∨ c < i + Z.of_nat (length l)).
Proof.
  revert i cpuid num. induction l as [|fl l IH]; intros i cpuid num Hc Hci Hi; simpl.
  { split; [done|]. lia. }
  destruct (_ >? _).
  - destruct (IH (i + 1) i (s32 (num_free_blocks fl))); lia.
  - destruct (IH (i + 1) cpuid num); lia.
Qed.

Lemma retry_loop_spec tries s R i nb atype :
  wf s R → (i < length (lists s))%nat →
  ∃ j, (j < length (lists s))%nat ∧ retry_loop tries (Z.of_nat i) nb atype s = Ok (Z.of_nat j, s) ∧
    (j = i ∨ ∀ fl, lists s !! i = Some fl → not_enough_blocks fl nb atype s = Ok (true, s)).
Proof.
  intros S. revert i. induction tries as [|tries IH]; intros i Hi; simpl;
    destruct (lookup_lt_is_Some_2 _ _ Hi) as [fl Hfl];
    pose proof (st_lists _ _ _ S i fl Hfl) as [Wsh _ _];
    destruct (not_enough_blocks_eq s fl (R i) nb atype Wsh) as [few Hfew];
    (erewrite bind_Ok; [|by apply (nova_get_free_list_eq bc)]);
    (erewrite bind_Ok; [|exact Hfew]); destruct few; try (exists i; by auto).
  destruct (candidate_loop_range (lists s) 0 0 0) as [Hc Hc']; [lia..|].
  unfold nova_get_candidate_free_list. rewrite bind_assoc. erewrite bind_Ok; [|done].
  erewrite bind_Ok; [|done].
  rewrite <- (Z2Nat.id (candidate_loop _ _ _ _)) by done.
  destruct (IH (Z.to_nat (candidate_loop (lists s) 0 0 0))) as (j & Hj & Er & _); [lia|].
  exists j. split_and!; try done. right. intros ? ?. by simplify_eq.
Qed.

(** ** [nova_new_blocks] *)

(** Statistics and memory contents are no part of the invariant. *)
Lemma took_stats s R n b s' R' i fl st c :
  took s R n b s' R' → lists s' !! i = Some fl →
  took s R n b
    (BState (nodes s') (next_addr s') (<[i := set_stats fl st]> (lists s')) (per_list_blocks s') c) R'.
Proof.
  intros [S Hp Hs Hw Hf Ht Hl Hlay (k & flk & Hk & Hkb)] Hi. pose proof (lookup_lt_Some _ _ _ Hi) as Hlt.
  assert (Hcase : ∀ j fl', <[i := set_stats fl st]> (lists s') !! j = Some fl' →
    ∃ fl0, lists s' !! j = Some fl0 ∧ (fl' = fl0 ∨ fl' = set_stats fl0 st)).
  { intros j fl' Hj. destruct (decide (j = i)) as [->|Hne].
    - rewrite list_lookup_insert_eq in Hj by done. simplify_eq. eauto.
    - rewrite list_lookup_insert_ne in Hj by done. eauto. }
  split; try done.
  - destruct S as [S1 S2 S3 S4 S5 S6]. split; simpl; try done; intros j fl' Hj;
      destruct (Hcase j fl' Hj) as (fl0 & Hj0 & [-> | ->]); try (by eauto).
    + destruct (S1 j fl0 Hj0) as [[] ? ?]. by split; [split|..].
    + by apply (S4 j fl0).
    + by apply (S5 j fl0).
  - intros y. rewrite <- Hf. unfold free. simpl. by rewrite length_insert.
  - simpl. rewrite (total_free_insert _ _ fl) by done. simpl. lia.
  - simpl. by rewrite length_insert.
  - simpl. rewrite list_fmap_insert, list_insert_id; [done|]. by rewrite list_lookup_fmap, Hi.
  - exists k. simpl. destruct (decide (k = i)) as [->|Hne].
    + rewrite list_lookup_insert_eq by done. simplify_eq. by eexists.
    + rewrite list_lookup_insert_ne by done. eauto.
Qed.

(** What the caller gets: an error that changes nothing, when the list of
    [cpu] has no room, or [n] blocks from [b] on, zeroed on demand. *)
Definition new_outcome (s : bstate) (R : nat → list range) (cpu num btype : Z) (zero : bool)
    (atype : alloc_type) (blocknr : Z) (r : result (Z * Z * bstate)) : Prop :=
  (r = Ok ((- ENOSPC, blocknr), s) ∧ ∀ fl, lists s !! Z.to_nat cpu = Some fl →
     no_room s (R (Z.to_nat cpu)) fl btype atype (num * nova_get_numblocks btype)) ∨
  ∃ n b s' R', r = Ok ((n / nova_get_numblocks btype, b), s') ∧ took s R n b s' R' ∧
    n <= num * nova_get_numblocks btype ∧
    (0 < btype → n = num * nova_get_numblocks btype ∨ n mod 512 = 0 ∧ b mod 512 = 0) ∧
    view (pm s') =
      if zero then write_bytes (view (pm s)) (4096 * b) (repeat_bytes (Z.to_nat (4096 * n)) [Byte.x00])
      else view (pm s).

(** The mount parameters a request relies on. *)
Record request_ok (s : bstate) (cpu num btype : Z) (zero : bool) (atype : alloc_type) : Prop := {
  rq_cpu : 0 <= cpu < Z.of_nat (length (lists s));
  rq_num : 0 < num * nova_get_numblocks btype < 2 ^ 62;
  rq_slab : IS_DATABLOCKS_2MB_ALIGNED (num * nova_get_numblocks btype) atype = true →
    ∀ a, slab_ok bc a = true;
  rq_zero : zero = true → num * nova_get_numblocks btype < 2 ^ 20 ∧
    ∀ i fl, lists s !! i = Some fl → block_end (layout fl) < 2 ^ 51
}.

Lemma free_bounds s R b :
  wf s R → free s R b → ∃ i fl, lists s !! i = Some fl ∧
    block_start (layout fl) <= b <= block_end (layout fl).
Proof.
  intros S (i & Hi & x & Hx & Hb). destruct (lookup_lt_is_Some_2 _ _ Hi) as [fl Hfl].
  exists i, fl. split; [done|]. pose proof (st_bounds _ _ _ S i fl Hfl) as Hbd.
  rewrite Forall_forall in Hbd. specialize (Hbd x Hx). simpl in Hbd. lia.
Qed.

Lemma zero_pages m b n :
  0 <= n < 2 ^ 20 →
  apply_events m (memset_nt_events b 0 (PAGE_SIZE * n)) =
  write_bytes m b (repeat_bytes (Z.to_nat (4096 * n)) [Byte.x00]).
Proof.
  intros Hn. unfold PAGE_SIZE. rewrite memset_nt_fill; [|lia|].
  - f_equal. replace (4096 * n) with (1024 * n * 4) at 1 by lia. rewrite Z.div_mul by lia.
    change (bytes_of 4 (u32 0)) with (([Byte.x00] ++ [Byte.x00]) ++ ([Byte.x00] ++ [Byte.x00])).
    rewrite !repeat_bytes_double. f_equal. lia.
  - replace (4096 * n) with (1024 * n * 4) by lia. apply Z.mod_mul. lia.
Qed.

Lemma block_off_eq b : 0 < b < 2 ^ 51 →
  nova_get_block (nova_get_block_off b) = Some (4096 * b).
Proof.
  intros Hb. unfold nova_get_block_off, PAGE_SHIFT. rewrite Z.shiftl_mul_pow2 by lia.
  rewrite wrap_small by lia. rewrite nova_get_block_Some by lia. f_equal. lia.
Qed.

Lemma new_blocks_spec s R this_cpu blocknr num btype zero atype cpuid d :
  wf s R → sane s →
  let cpu := if cpuid =? ANY_CPU then this_cpu else cpuid in
  request_ok s cpu num btype zero atype →
  new_outcome s R cpu num btype zero atype blocknr
    (nova_new_blocks bc this_cpu blocknr num btype zero atype cpuid d s).
Proof.
  intros S Hsane cpu [Hcpu Hnum Hslab Hzero]. unfold nova_new_blocks, new_outcome.
  set (nb := num * nova_get_numblocks btype) in *. rewrite (wrap_small 64 nb) by lia.
  destruct (Z.eqb_spec nb 0) as [|_]; [lia|]. cbv zeta. fold cpu.
  destruct (retry_loop_spec 2 s R (Z.to_nat cpu) nb atype) as (i & Hi & Er & Hsame); [done|lia|].
  rewrite Z2Nat.id in Er by lia. erewrite bind_Ok; [|exact Er].
  destruct (lookup_lt_is_Some_2 _ _ Hi) as [fl Hfl].
  destruct (alloc_in_list_spec s R i fl btype atype nb 0 d S Hsane Hfl ltac:(lia) Hslab)
    as [(v & E & Hno)|(n & b & s1 & R1 & E & Htk & Hpm & Hle & Hty)]; (erewrite bind_Ok; [|exact E]);
    cbn beta iota.
  { left. simpl. erewrite bind_Ok; [|done]. split; [done|]. intros fl0 Hfl0.
    destruct Hsame as [->|Hsame]; [by simplify_eq|left; by apply Hsame]. }
  right. pose proof (tk_pos _ _ _ _ _ _ Htk) as Hn. pose proof (tk_start _ _ _ _ _ _ Htk) as Hb.
  assert (Hlen1 : (i < length (lists s1))%nat) by (by rewrite (tk_length _ _ _ _ _ _ Htk)).
  destruct (lookup_lt_is_Some_2 _ _ Hlen1) as [fl1 Hfl1].
  destruct (Z.gtb_spec n 0); [|lia]. destruct (Z.leb_spec n 0); [lia|].
  destruct (Z.eqb_spec b 0); [lia|]. simpl.
  rewrite bind_assoc. erewrite bind_Ok; [|by apply (nova_get_free_list_eq bc)].
  erewrite bind_Ok; [|apply put_list_eq].
  assert (Hty' : 0 < btype → n = nb ∨ n mod 512 = 0 ∧ b mod 512 = 0) by naive_solver.
  destruct zero; simpl.
  - destruct (Hzero eq_refl) as [Hnb20 Hend].
    destruct (free_bounds s R b S) as (j & flj & Hj & Hbj);
      [apply (tk_were_free _ _ _ _ _ _ Htk); lia|]. specialize (Hend j flj Hj).
    erewrite bind_Ok; cycle 1.
    { unfold lift_pm. rewrite block_off_eq by lia. reflexivity. }
    exists n, b. eexists _, R1. split; [reflexivity|]. split_and!; try done.
    + by apply (took_stats s R n b s1 R1 i fl1).
    + simpl. rewrite zero_pages by lia. by rewrite Hpm.
  - erewrite bind_Ok; [|done].
    exists n, b. eexists _, R1. split; [reflexivity|]. split_and!; try done.
    + by apply (took_stats s R n b s1 R1 i fl1).
    + simpl. by rewrite Hpm.
Qed.

(** ** Counting *)

Lemma count_free_blocks_eq s R :
  wf s R → total_free (lists s) < 2 ^ 64 →
  nova_count_free_blocks s = Ok (total_free (lists s), s).
Proof.
  intros S Hlt. unfold nova_count_free_blocks. erewrite bind_Ok; [|done].
  change (Ok (foldl (λ a fl, u64 (a + num_free_blocks fl)) 0 (lists s), s) =
    Ok (total_free (lists s), s)). do 2 f_equal.
  assert (Hpos : Forall (λ fl, 0 <= num_free_blocks fl) (lists s)).
  { apply Forall_lookup. intros i fl Hi. destruct (st_lists _ _ _ S i fl Hi) as [Wsh -> _].
    apply sizes_nonneg. by eapply wr_ok, ws_ranges. }
  assert (Hacc : ∀ l a, Forall (λ fl, 0 <= num_free_blocks fl) l → 0 <= a →
    a + total_free l < 2 ^ 64 →
    0 <= total_free l ∧ foldl (λ a fl, u64 (a + num_free_blocks fl)) a l = a + total_free l).
  { induction l as [|fl l IH]; intros a Hp Ha Hs; simpl in *; [lia|].
    apply Forall_cons in Hp as [Hp1 Hp]. destruct (IH 0 Hp) as [H0' _]; [lia| |].
    { clear -Hs Ha Hp1. lia. }
    destruct (IH (a + num_free_blocks fl) Hp) as [_ E]; [lia|lia|].
    rewrite wrap_small by lia. lia. }
  destruct (Hacc (lists s) 0 Hpos) as [_ E]; lia.
Qed.

(** The total is the number of blocks in all ranges. *)
Lemma total_free_sizes s R :
  wf s R → total_free (lists s) = foldr (λ i a, sizes (R i) + a) 0 (seq 0 (length (lists s))).
Proof.
  intros S.
  assert (Hl : ∀ l k, (∀ i fl, l !! i = Some fl → num_free_blocks fl = sizes (R (k + i)%nat)) →
    total_free l = foldr (λ i a, sizes (R i) + a) 0 (seq k (length l))).
  { induction l as [|fl l IH]; intros k Hk; simpl; [done|].
    rewrite (Hk O fl) by done. rewrite Nat.add_0_r. f_equal. apply IH.
    intros i fl' Hi. rewrite (Hk (Datatypes.S i) fl') by done. f_equal. f_equal. lia. }
  apply Hl. intros i fl Hi. by destruct (st_lists _ _ _ S i fl Hi).
Qed.

(** ** Refused frees *)

Inductive refused (s : bstate) (R : nat → list range) (blocknr num : Z) : Z → Prop :=
| refused_num : num <= 0 → refused s R blocknr num EINVAL
| refused_nomem : 0 < num → slab_ok bc (next_addr s) = false → refused s R blocknr num ENOMEM
| refused_bounds i fl :
    0 < num → slab_ok bc (next_addr s) = true → lists s !! i = Some fl →
    blocknr / per_list_blocks s = Z.of_nat i → 0 <= blocknr < 2 ^ 61 → num < 2 ^ 61 →
    block_start (layout fl) <= block_end (layout fl) →
    blocknr < block_start (layout fl) ∨ block_end (layout fl) + 1 < blocknr + num →
    refused s R blocknr num EIO
| refused_free i fl :
    0 < num → slab_ok bc (next_addr s) = true → lists s !! i = Some fl →
    block_start (layout fl) <= blocknr → blocknr + num - 1 <= block_end (layout fl) →
    in_ranges (R i) blocknr →
    refused s R blocknr num EINVAL.

Lemma wf_fresh_node s R nd :
  wf s R →
  wf (BState (<[next_addr s := nd]> (nodes s)) (Datatypes.S (next_addr s)) (lists s)
        (per_list_blocks s) (pm s)) R ∧
  wf (BState (delete (next_addr s) (<[next_addr s := nd]> (nodes s))) (Datatypes.S (next_addr s))
        (lists s) (per_list_blocks s) (pm s)) R.
Proof.
  intros [S1 S2 S3 S4 S5 S6].
  assert (Hne : ∀ i a, a ∈ r_addr <$> R i → next_addr s ≠ a).
  { intros i a Ha%S2. lia. }
  assert (Hlt : ∀ i a, a ∈ r_addr <$> R i → (a < Datatypes.S (next_addr s))%nat).
  { intros i a Ha%S2. lia. }
  split; split; simpl; try done; intros i fl Hi; eapply wf_list_ext; try (by apply S1);
    intros a Ha; rewrite ?lookup_delete_ne, ?lookup_insert_ne by (by eapply Hne); done.
Qed.

Lemma free_refused_eq s R blocknr num btype log e :
  wf s R → refused s R blocknr num e →
  ∃ s', nova_free_blocks bc blocknr num btype log s = Ok (- e, s') ∧ wf s' R ∧
    lists s' = lists s ∧ pm s' = pm s.
Proof.
  intros S Href. pose proof (wf_fresh_node s R (RangeNode 0 0 0) S) as [S' S''].
  unfold nova_free_blocks.
  destruct Href as [Hn|Hn Hslab|i fl Hn Hslab Hi Hcpu Hb Hn' Hse Hout|i fl Hn Hslab Hi Hlo Hhi Hin];
    (destruct (Z.leb_spec num 0); [|]); try lia.
  - by exists s.
  - erewrite bind_Ok; [|done]. unfold nova_alloc_blocknode. rewrite !bind_assoc.
    erewrite bind_Ok; [|done]. rewrite bind_assoc. erewrite bind_Ok; [|done]. rewrite Hslab.
    eexists. split; [done|]. split; [|done]. destruct S as [S1 S2 S3 S4 S5 S6]. split; simpl; try done.
    intros j a Ha%S2. lia.
  - destruct (st_layout _ _ _ S i fl Hi) as (Hbs & Hbe & _).
    erewrite bind_Ok; [|done]. rewrite Hcpu.
    erewrite bind_Ok; [|by apply alloc_blocknode_eq]. cbn beta iota.
    erewrite bind_Ok; [|by apply (nova_get_free_list_eq bc)].
    assert (Hc : (blocknr <? block_start (layout fl)) ||
      (u64 (blocknr + num) >? u64 (block_end (layout fl) + 1)) = true).
    { destruct (Z.ltb_spec blocknr (block_start (layout fl))); [done|]. simpl.
      rewrite !(wrap_small 64) by lia. apply Z.gtb_lt. lia. }
    rewrite Hc. eexists. split; [done|]. by split.
  - destruct (st_layout _ _ _ S i fl Hi) as (Hbs & Hbe & Hcpu).
    destruct (st_lists _ _ _ S' i fl Hi) as [Wsh _ _].
    erewrite bind_Ok; [|done]. rewrite (Hcpu blocknr) by lia.
    erewrite bind_Ok; [|by apply alloc_blocknode_eq]. cbn beta iota.
    erewrite bind_Ok; [|by apply (nova_get_free_list_eq bc)].
    destruct (Z.ltb_spec blocknr (block_start (layout fl))); [lia|].
    rewrite !(wrap_small 64 (blocknr + num)), !(wrap_small 64 (block_end (layout fl) + 1)) by lia.
    destruct (Z.gtb_spec (blocknr + num) (block_end (layout fl) + 1)); [lia|]. cbn [orb].
    erewrite bind_Ok; [|eapply find_free_slot_taken; [apply Wsh|apply Wsh|done]]. cbn beta iota.
    eexists. split; [done|]. by split.
Qed.

(** ** Initialisation *)

(** A list's share of [n] blocks, rounded up. *)
Definition share (n : Z) : Z := n / bc_cpus bc + (if n mod bc_cpus bc =? 0 then 0 else 1).
Definition csum_blocks : Z := Z.shiftr (Z.shiftr (initsize bc) 9 * 4) 12.
Definition parity_blocks : Z :=
  initsize bc / 4096 / 9 + (if initsize bc / 4096 mod 9 =? 0 then 0 else 1).

(** The device is large enough for what each list reserves. *)
Record geometry : Prop := {
  ge_cpus : 0 < bc_cpus bc;
  ge_size : 0 <= initsize bc < 2 ^ 60;
  ge_blocks : 0 <= num_blocks bc < 2 ^ 60;
  ge_head : 0 < head_reserved_blocks bc;
  ge_tail : 0 <= tail_reserved_blocks bc;
  ge_room : head_reserved_blocks bc + tail_reserved_blocks bc + 2 * share csum_blocks +
    share parity_blocks < num_blocks bc / bc_cpus bc
}.

Definition list_start (i : Z) : Z :=
  num_blocks bc / bc_cpus bc * i + (if i =? 0 then head_reserved_blocks bc else 0) +
  share csum_blocks + share parity_blocks.
Definition list_end (i : Z) : Z :=
  num_blocks bc / bc_cpus bc * (i + 1) - 1 -
  (if i =? bc_cpus bc - 1 then tail_reserved_blocks bc else 0) - share csum_blocks.

Lemma share_nonneg n : 0 < bc_cpus bc → 0 <= n → 0 <= share n.
Proof. intros Hc Hn. unfold share. pose proof (Z.div_pos n _ Hn Hc). case_match; lia. Qed.

Lemma geometry_nonneg : geometry → 0 <= share csum_blocks ∧ 0 <= share parity_blocks.
Proof.
  intros []. split; apply share_nonneg; try done.
  - unfold csum_blocks. apply Z.shiftr_nonneg.
    assert (0 <= Z.shiftr (initsize bc) 9) by (apply Z.shiftr_nonneg; lia). lia.
  - unfold parity_blocks. assert (0 <= initsize bc / 4096) by (apply Z.div_pos; lia).
    pose proof (Z.div_pos (initsize bc / 4096) 9). case_match; lia.
Qed.

Lemma list_bounds i :
  geometry → 0 <= i < bc_cpus bc →
  num_blocks bc / bc_cpus bc * i <= list_start i ∧ 0 < list_start i ∧
  list_start i <= list_end i ∧
  list_end i < num_blocks bc / bc_cpus bc * (i + 1) ∧
  num_blocks bc / bc_cpus bc * (i + 1) <= num_blocks bc.
Proof.
  intros G Hi. destruct (geometry_nonneg G) as [Hc Hp]. destruct G as [G1 G2 G3 G4 G5 G6].
  unfold list_start, list_end. set (per := num_blocks bc / bc_cpus bc) in *.
  assert (bc_cpus bc * per <= num_blocks bc) by (apply Z.mul_div_le; lia).
  destruct (Z.eqb_spec i 0), (Z.eqb_spec i (bc_cpus bc - 1)); nia.
Qed.

Lemma init_csum l :
  geometry → 0 <= block_start l → block_start l + share csum_blocks < 2 ^ 62 →
  share csum_blocks <= block_end l < 2 ^ 62 →
  let l' := nova_data_csum_init_free_list bc l in
  block_start l' = block_start l + share csum_blocks ∧ block_end l' = block_end l - share csum_blocks.
Proof.
  intros G Hs Hs2 He. destruct (geometry_nonneg G) as [Hc Hp]. destruct G as [G1 G2 G3 G4 G5 G6].
  unfold nova_data_csum_init_free_list, NOVA_STRIPE_SHIFT, NOVA_DATA_CSUM_LEN, PAGE_SHIFT.
  assert (Hq : 0 <= Z.shiftr (initsize bc) 9 < 2 ^ 60).
  { rewrite Z.shiftr_div_pow2 by lia. split; [apply Z.div_pos; lia|].
    apply Z.div_lt_upper_bound; lia. }
  rewrite (wrap_small 64 (_ * 4)) by lia. fold csum_blocks. unfold share in *.
  assert (0 <= csum_blocks / bc_cpus bc).
  { apply Z.div_pos; [|done]. apply Z.shiftr_nonneg. lia. }
  cbv zeta. cbn [block_start block_end].
  destruct (csum_blocks mod bc_cpus bc =? 0); rewrite ?(wrap_small 64 (block_start l + _)) by lia;
    rewrite ?(wrap_small 64 (_ + 1)) by lia; rewrite ?(wrap_small 64 (_ - block_start l)) by lia;
    (split; [lia|]); rewrite wrap_small; lia.
Qed.

Lemma init_parity l :
  geometry → 0 <= block_start l → block_start l + share parity_blocks < 2 ^ 62 →
  let l' := nova_data_parity_init_free_list bc l in
  block_start l' = block_start l + share parity_blocks ∧ block_end l' = block_end l.
Proof.
  intros G Hs Hs2. destruct (geometry_nonneg G) as [Hc Hp]. destruct G as [G1 G2 G3 G4 G5 G6].
  unfold nova_data_parity_init_free_list, PAGE_SIZE, NOVA_STRIPE_SIZE.
  change (4096 / 512 + 1) with 9. cbv zeta. cbn [block_start block_end]. split; [|done].
  assert (0 <= initsize bc / 4096) by (apply Z.div_pos; lia).
  assert (0 <= initsize bc / 4096 / 9) by (apply Z.div_pos; lia).
  assert (E : (if initsize bc / 4096 mod 9 =? 0 then initsize bc / 4096 / 9
               else initsize bc / 4096 / 9 + 1) = parity_blocks).
  { unfold parity_blocks. case_match; lia. }
  rewrite E. assert (0 <= parity_blocks) by (unfold parity_blocks; case_match; lia).
  unfold share in *. pose proof (Z.div_pos parity_blocks (bc_cpus bc) ltac:(done) G1).
  destruct (parity_blocks mod bc_cpus bc =? 0); rewrite ?(wrap_small 64 (block_start l + _)) by lia;
    rewrite ?wrap_small; lia.
Qed.

Lemma init_free_list_eq l i :
  geometry → 0 <= i < bc_cpus bc →
  block_start (nova_init_free_list bc l i) = list_start i ∧
  block_end (nova_init_free_list bc l i) = list_end i.
Proof.
  intros G Hi. pose proof (list_bounds i G Hi) as Hb. destruct (geometry_nonneg G) as [Hc Hp].
  pose proof G as [G1 G2 G3 G4 G5 G6]. unfold list_start, list_end in *.
  unfold nova_init_free_list. cbv zeta. set (per := num_blocks bc / bc_cpus bc) in *.
  assert (0 <= per * i) by nia.
  rewrite (wrap_small 64 (per * i)) by (destruct (i =? 0), (i =? bc_cpus bc - 1); nia).
  rewrite (wrap_small 64 (per * i + per - 1)) by (destruct (i =? 0), (i =? bc_cpus bc - 1); nia).
  match goal with |- context [nova_data_csum_init_free_list bc ?l'] => set (l1 := l') end.
  assert (E1 : block_start l1 = per * i + (if i =? 0 then head_reserved_blocks bc else 0)).
  { unfold l1. cbn. destruct (i =? 0); [|lia].
    apply wrap_small. destruct (i =? bc_cpus bc - 1); lia. }
  assert (E2 : block_end l1 = per * (i + 1) - 1 -
    (if i =? bc_cpus bc - 1 then tail_reserved_blocks bc else 0)).
  { unfold l1. cbn. destruct (i =? bc_cpus bc - 1); [|lia].
    rewrite wrap_small; [lia|]. destruct (i =? 0); lia. }
  destruct (init_csum l1 G) as [C1 C2];
    [rewrite E1; destruct (i =? 0); lia| | |].
  { rewrite E1. destruct (i =? 0), (i =? bc_cpus bc - 1); lia. }
  { rewrite E2. destruct (i =? 0), (i =? bc_cpus bc - 1); lia. }
  cbv zeta in C1, C2. destruct (init_parity (nova_data_csum_init_free_list bc l1) G) as [P1 P2].
  { rewrite C1, E1. destruct (i =? 0); lia. }
  { rewrite C1, E1. destruct (i =? 0), (i =? bc_cpus bc - 1); lia. }
  cbv zeta in P1, P2. rewrite P1, P2, C1, C2, E1, E2. lia.
Qed.

(** List [i] right after its initialisation, with its one node at [a]. *)
Definition list_ready (h : gmap addr range_node) (i : nat) (a : addr) (fl : free_list) : Prop :=
  inorder (block_free_tree fl) = [a] ∧ first_node fl = Some a ∧ last_node fl = Some a ∧
  num_blocknode fl = 1 ∧
  num_free_blocks fl = list_end (Z.of_nat i) - list_start (Z.of_nat i) + 1 ∧
  block_start (layout fl) = list_start (Z.of_nat i) ∧ block_end (layout fl) = list_end (Z.of_nat i) ∧
  holds bc h (Range a (list_start (Z.of_nat i)) (list_end (Z.of_nat i))).

Lemma list_ready_ext h h' i a fl : h' !! a = h !! a → list_ready h i a fl → list_ready h' i a fl.
Proof.
  intros E (?&?&?&?&?&?&?&?). unfold list_ready. split_and!; try done. by eapply holds_ext.
Qed.

(** One turn of the loop of [nova_init_blockmap]. *)
Lemma init_step n i s :
  geometry → (∀ a, slab_ok bc a = true) → lists s !! i = Some empty_list →
  Z.of_nat i < bc_cpus bc →
  ∃ s', init_blockmap_loop bc (S n) (Z.of_nat i) false s =
      init_blockmap_loop bc n (Z.of_nat (S i)) false s' ∧
    (∃ fl, lists s' = <[i := fl]> (lists s) ∧ list_ready (nodes s') i (next_addr s) fl) ∧
    next_addr s' = S (next_addr s) ∧ per_list_blocks s' = per_list_blocks s ∧ pm s' = pm s ∧
    (∀ a, a ≠ next_addr s → nodes s' !! a = nodes s !! a).
Proof.
  intros G Hslab Hi Hlt.
  destruct (init_free_list_eq (layout empty_list) (Z.of_nat i) G ltac:(lia)) as [Es Ee].
  destruct (list_bounds (Z.of_nat i) G ltac:(lia)) as (_ & Hs & Hle & Hend & Hn).
  pose proof (ge_blocks G) as Hnb.
  cbn [init_blockmap_loop]. erewrite bind_Ok; [|by apply (nova_get_free_list_eq bc)]. cbn beta iota.
  erewrite bind_Ok; [|by apply alloc_blocknode_eq]. cbn beta iota.
  set (a := next_addr s). set (lay := nova_init_free_list bc _ _) in *.
  erewrite bind_Ok; [|apply (set_low_eq bc), lookup_insert_eq].
  cbn [range_high rn_csum set_layout layout].
  match goal with |- context [set_nodes ?s1 ?h] => set (s2 := set_nodes s1 h) end.
  assert (Hs2 : nodes s2 !! a = Some (RangeNode (block_start lay) 0 0)) by apply lookup_insert_eq.
  rewrite <- bind_assoc.
  erewrite bind_Ok; [|by apply (set_high_sealed bc _ _ _ _ Hs2)]. cbn [range_low range_high rn_csum].
  match goal with |- context [set_nodes s2 ?h] => set (s3 := set_nodes s2 h) end.
  assert (Hs3 : nodes s3 !! a = Some (sealed bc (RangeNode (block_start lay) (block_end lay) 0)))
    by apply lookup_insert_eq.
  assert (Et : nova_insert_blocktree (block_free_tree empty_list) a s3 =
    Ok ((0, rb_insert_color a (Node Leaf a Leaf)), s3)).
  { unfold nova_insert_blocktree, nova_insert_range_node.
    erewrite bind_Ok; [|by apply get_node_eq]. done. }
  erewrite bind_Ok; [|exact Et]. cbn beta iota. cbn [Z.eqb negb].
  erewrite bind_Ok; [|apply put_list_eq].
  replace (Z.of_nat i + 1) with (Z.of_nat (S i)) by lia.
  eexists. split; [reflexivity|]. split_and!; try done.
  - eexists. split; [reflexivity|]. unfold list_ready.
    cbn [block_free_tree first_node last_node num_blocknode num_free_blocks layout set_num_node
      set_last set_first set_tree set_num_free set_layout].
    rewrite rb_insert_color_inorder, Es, Ee. split_and!; try done.
    + rewrite wrap_small; lia.
    + eexists. split; [exact Hs3|]. rewrite sealed_low, sealed_high. split_and!; try done.
      apply sealed_ok.
  - intros b Hb. cbn. by rewrite !lookup_insert_ne by done.
Qed.

Lemma init_loop_spec n i s :
  geometry → (∀ a, slab_ok bc a = true) →
  (∀ j, (i <= j < i + n)%nat → lists s !! j = Some empty_list) → Z.of_nat (i + n) = bc_cpus bc →
  ∃ s', init_blockmap_loop bc n (Z.of_nat i) false s = Ok ((), s') ∧
    length (lists s') = length (lists s) ∧
    (∀ j, (j < i)%nat → lists s' !! j = lists s !! j) ∧
    (∀ j, (i <= j < i + n)%nat → ∃ fl, lists s' !! j = Some fl ∧
       list_ready (nodes s') j (next_addr s + (j - i)) fl) ∧
    next_addr s' = (next_addr s + n)%nat ∧ per_list_blocks s' = per_list_blocks s ∧
    pm s' = pm s ∧ (∀ a, (a < next_addr s)%nat → nodes s' !! a = nodes s !! a).
Proof.
  revert i s. induction n as [|n IH]; intros i s G Hslab Hl Hc.
  { exists s. split_and!; try done; intros; lia. }
  destruct (init_step n i s G Hslab) as (s1 & E & (fl & Hfl & Hready) & Hn1 & Hper1 & Hpm1 & Hout1);
    [apply Hl; lia|lia|].
  pose proof (lookup_lt_Some _ _ _ (Hl i ltac:(lia))) as Hlt.
  destruct (IH (S i) s1) as (s' & E' & Hlen & Hlow & Hr & Hn' & Hper' & Hpm' & Hout); try done.
  { intros j Hj. rewrite Hfl, list_lookup_insert_ne by lia. apply Hl. lia. }
  { lia. }
  exists s'. rewrite E, E', Hlen, Hfl, Hn', Hn1, Hper', Hper1, Hpm', Hpm1.
  split_and!; try done.
  - apply length_insert.
  - intros j Hj. rewrite Hlow by lia. rewrite Hfl. apply list_lookup_insert_ne. lia.
  - intros j Hj. destruct (decide (j = i)) as [->|Hne].
    + exists fl. rewrite Hlow by lia. rewrite Hfl, list_lookup_insert_eq by done. split; [done|].
      rewrite Nat.sub_diag, Nat.add_0_r. eapply list_ready_ext; [|exact Hready].
      apply Hout. lia.
    + destruct (Hr j ltac:(lia)) as (fl' & ? & Hr'). exists fl'. split; [done|].
      replace (next_addr s + (j - i))%nat with (next_addr s1 + (j - S i))%nat by lia. done.
  - lia.
  - intros a Ha. rewrite Hout by lia. apply Hout1. lia.
Qed.

Definition init_ranges (a : addr) (j : nat) : list range :=
  if (Z.of_nat j <? bc_cpus bc)
  then [Range (a + j) (list_start (Z.of_nat j)) (list_end (Z.of_nat j))] else [].

Lemma init_blockmap_spec s :
  geometry → (∀ a, slab_ok bc a = true) →
  lists s = replicate (Z.to_nat (bc_cpus bc)) empty_list →
  ∃ s', nova_init_blockmap bc false s = Ok ((), s') ∧ pm s' = pm s ∧
    let R := init_ranges (next_addr s) in
    wf s' R ∧ (∀ b, free s' R b ↔ ∃ i, 0 <= i < bc_cpus bc ∧ list_start i <= b <= list_end i).
Proof.
  intros G Hslab Hl. pose proof (ge_cpus G) as Hcp. pose proof (ge_blocks G) as Hnb.
  unfold nova_init_blockmap. erewrite bind_Ok; [|done].
  match goal with |- context [init_blockmap_loop bc _ _ _ ?s1] => set (s0 := s1) end.
  destruct (init_loop_spec (Z.to_nat (bc_cpus bc)) 0 s0 G Hslab)
    as (s' & E & Hlen & _ & Hr & Hn & Hper & Hpm & _).
  { intros j Hj. simpl. rewrite Hl. apply lookup_replicate. split; [done|lia]. }
  { lia. }
  simpl in Hlen, Hn, Hper, Hpm, Hr. rewrite Hl, length_replicate in Hlen.
  exists s'. split; [exact E|]. split; [done|]. cbv zeta.
  assert (Hget : ∀ i fl, lists s' !! i = Some fl → Z.of_nat i < bc_cpus bc ∧
    list_ready (nodes s') i (next_addr s + i) fl).
  { intros i fl Hi. pose proof (lookup_lt_Some _ _ _ Hi). split; [lia|].
    destruct (Hr i ltac:(lia)) as (fl' & Hfl' & Hrd). rewrite Nat.sub_0_r in Hrd.
    by simplify_eq. }
  assert (HR : ∀ i, Z.of_nat i < bc_cpus bc → init_ranges (next_addr s) i =
    [Range (next_addr s + i) (list_start (Z.of_nat i)) (list_end (Z.of_nat i))]).
  { intros i Hi. unfold init_ranges. by destruct (Z.ltb_spec (Z.of_nat i) (bc_cpus bc)); [|lia]. }
  assert (Haddr : ∀ i a, a ∈ r_addr <$> init_ranges (next_addr s) i →
    Z.of_nat i < bc_cpus bc ∧ a = (next_addr s + i)%nat).
  { intros i a. unfold init_ranges. destruct (Z.ltb_spec (Z.of_nat i) (bc_cpus bc)); [|by intros ?%elem_of_nil].
    simpl. by intros ->%list_elem_of_singleton. }
  split.
  - split.
    + intros i fl Hi. destruct (Hget i fl Hi) as (Hlt & Ht & Hf & Hla & Hnn & Hnf & _ & _ & Hh).
      destruct (list_bounds (Z.of_nat i) G ltac:(lia)) as (_ & ? & ? & ? & ?).
      rewrite HR by done. split; [split|..]; try done.
      * apply (wf_ranges_single bc). split; [done|]. unfold range_ok. simpl. lia.
      * rewrite Hnf. simpl. lia.
      * simpl. lia.
    + intros i a [Hi ->]%Haddr. lia.
    + intros i j a Hij [_ ->]%Haddr [_ ?]%Haddr. lia.
    + intros i fl Hi. destruct (Hget i fl Hi) as (Hlt & _ & _ & _ & _ & _ & Hs & He & _).
      rewrite HR by done. constructor; [|done]. simpl. lia.
    + intros i fl Hi. destruct (Hget i fl Hi) as (Hlt & _ & _ & _ & _ & _ & Hs & He & _).
      destruct (list_bounds (Z.of_nat i) G ltac:(lia)) as (? & ? & ? & ? & ?).
      rewrite Hs, He, Hper. split_and!; [lia|lia|]. intros b Hb.
      symmetry. apply (Z.div_unique _ _ _ (b - num_blocks bc / bc_cpus bc * Z.of_nat i)); lia.
    + rewrite Hper. pose proof (geometry_nonneg G). destruct G. lia.
  - intros b. unfold free. rewrite Hlen. split.
    + intros (i & Hi & Hb). rewrite HR in Hb by lia. destruct Hb as (x & ->%list_elem_of_singleton & Hb).
      simpl in Hb. exists (Z.of_nat i). lia.
    + intros (i & Hi & Hb). exists (Z.to_nat i). split; [lia|]. rewrite HR by lia.
      eexists. split; [by apply list_elem_of_singleton|]. simpl. by rewrite Z2Nat.id by lia.
Qed.
End Spec.
