(* ===== verification/NovaBallocMain.v ===== *)
(** * NOVA: what the block allocator guarantees

    The theorems about the allocator's entry points, and a small device on
    which they are exercised: two CPUs, 64 blocks, range-node checksums on. *)

From stdpp Require Import base list gmap sorting.
From Stdlib Require Import ZArith Lia.
From coqutil Require Import Byte Word.LittleEndianList.
From S2P Require Import Prelude PMem NovaBase NovaBalloc NovaBallocProofs NovaBallocSpec.

Local Open Scope Z_scope.

Section Main.
#[local] Set Default Proof Using "All".
Context `{Crc} `{RBTree} `{!RBTreeLaws}.
Variable bc : balloc_cfg.

(** C8: [nova_free_blocks] gives back exactly the named blocks: if they belong
    to one list and none of them is free, it returns 0, the set of free blocks
    grows by them and nothing else, the list's counter by their number, and the
    tree, the checksums and the end pointers stay consistent. *)
Theorem free_blocks_correct s R blocknr num btype log i fl :
  wf_state bc s R → slab_ok bc (next_addr s) = true →
  free_request s R blocknr num btype i fl →
  let n := nova_get_numblocks btype * num in
  ∃ s' R', nova_free_blocks bc blocknr num btype log s = Ok (0, s') ∧ wf_state bc s' R' ∧
    (∀ b, free s' R' b ↔ free s R b ∨ blocknr <= b < blocknr + n) ∧
    total_free (lists s') = total_free (lists s) + n.
Proof.
  intros S Hslab Hreq n.
  destruct (nova_free_blocks_eq bc s R blocknr num btype log i fl S Hslab Hreq)
    as (s' & R' & E & S' & Hfree & (fl' & Hl & Hn & _) & _).
  exists s', R'. split_and!; try done.
  rewrite Hl, (total_free_insert _ _ fl) by apply Hreq. rewrite Hn. unfold n. lia.
Qed.

(** A free that is refused (no blocks, no memory, blocks outside the list,
    or a first block that is free already) returns the code of its cause and
    leaves every list and the memory untouched. *)
Theorem free_blocks_refused s R blocknr num btype log e :
  wf_state bc s R → refused bc s R blocknr num e →
  ∃ s', nova_free_blocks bc blocknr num btype log s = Ok (- e, s') ∧ wf_state bc s' R ∧
    lists s' = lists s ∧ pm s' = pm s.
Proof. apply free_refused_eq. Qed.


(** A successful outcome, read back. *)
Lemma new_outcome_took s R cpu num zero atype blocknr n b s1 :
  ∀ r, new_outcome bc s R cpu num 0 zero atype blocknr r → r = Ok ((n, b), s1) → (0 <? n) = true →
  ∃ R1, took bc s R n b s1 R1.
Proof.
  intros r [[-> _]|(n' & b' & s' & R' & -> & Htk & _)] E Hn; apply Z.ltb_lt in Hn; simplify_eq.
  { by unfold ENOSPC in Hn. }
  change (nova_get_numblocks 0) with 1. rewrite Z.div_1_r. by exists R'.
Qed.

(** Freeing what [nova_new_data_blocks] returned restores the set of free
    blocks and the counters. *)
Theorem new_free_roundtrip s R this_cpu blocknr num zero cpuid d n b s1 :
  wf_state bc s R → sane s → (∀ a, slab_ok bc a = true) →
  request_ok bc s (if cpuid =? ANY_CPU then this_cpu else cpuid) num 0 zero DATA →
  nova_new_data_blocks bc this_cpu 0 blocknr num zero cpuid d s = Ok ((n, b), s1) → 0 < n →
  ∃ s2 R2, nova_free_data_blocks bc 0 b n s1 = Ok (0, s2) ∧ wf_state bc s2 R2 ∧
    (∀ y, free s2 R2 y ↔ free s R y) ∧ total_free (lists s2) = total_free (lists s).
Proof.
  intros S Hsane Hslab Hreq E Hn. unfold nova_new_data_blocks in E.
  destruct (new_blocks_spec bc s R this_cpu blocknr num 0 zero DATA cpuid d S Hsane Hreq)
    as [[E' _]|(n' & b' & s' & R' & E' & Htk & _)]; rewrite E in E'; simplify_eq.
  { by unfold ENOSPC in Hn. }
  change (nova_get_numblocks 0) with 1 in *. rewrite Z.div_1_r in *.
  destruct Htk as [S' _ Hb Hwere Hfree Htot _ _ (i & fl & Hi & Hlo & Hhi)].
  destruct (nova_free_blocks_eq bc s' R' b' n' 0 false i fl S' (Hslab _))
    as (s2 & R2 & E2 & S2 & Hf2 & (fl2 & Hl2 & Hn2 & _) & _).
  { split; try done; change (nova_get_numblocks 0) with 1; [lia|].
    intros y Hy Hfy. apply Hfree in Hfy as [_ Hfy]. lia. }
  change (nova_get_numblocks 0) with 1 in *. rewrite Z.mul_1_l in *.
  exists s2, R2. split_and!; try done.
  - unfold nova_free_data_blocks. by destruct (Z.eqb_spec b' 0); [lia|].
  - intros y. rewrite Hf2, Hfree. split; [|destruct (decide (b' <= y < b' + n')); tauto].
    intros [[? _]|?]; [done|by apply Hwere].
  - rewrite Hl2, (total_free_insert _ _ fl) by done. lia.
Qed.

(** Where [nova_data_parity_init_free_list] puts the replica of list [i]'s parity. *)
Definition replica_parity (i b : Z) : Prop := list_end bc i - share bc (parity_blocks bc) < b <= list_end bc i.

(** C20: [nova_init_blockmap], on a new file system and with memory for its nodes,
    builds a well-formed allocator.  Leaving the blocks of the parity replicas
    aside, exactly those blocks are free that the reserved head and tail, the
    checksums, their replica, and the parity leave of each list's share.  (The
    replicas of the parity are free too, see [replica_parity_is_free].) *)
Theorem init_blockmap_correct s :
  geometry bc → (∀ a, slab_ok bc a = true) →
  lists s = replicate (Z.to_nat (bc_cpus bc)) empty_list →
  ∃ s' R, nova_init_blockmap bc false s = Ok ((), s') ∧ pm s' = pm s ∧ wf_state bc s' R ∧
    (∀ b, (∀ i, 0 <= i < bc_cpus bc → ¬ replica_parity i b) →
       free s' R b ↔ ∃ i, 0 <= i < bc_cpus bc ∧
         list_start bc i <= b <= list_end bc i - share bc (parity_blocks bc)).
Proof.
  intros G Hslab Hl. destruct (init_blockmap_spec bc s G Hslab Hl) as (s' & E & Hpm & S & Hf).
  exists s', (init_ranges bc (next_addr s)). split_and!; try done.
  intros b Hb. rewrite (Hf b). destruct (geometry_nonneg bc G) as [_ Hp]. unfold replica_parity in Hb.
  split; intros (i & Hi & Hr); exists i; specialize (Hb i Hi); lia.
Qed.

(** [nova_count_free_blocks] counts the blocks of all ranges. *)
Theorem count_free_blocks_correct s R :
  wf_state bc s R → total_free (lists s) < 2 ^ 64 →
  nova_count_free_blocks s =
  Ok (foldr (λ i a, sizes (R i) + a) 0 (seq 0 (length (lists s))), s).
Proof.
  intros S Hlt. rewrite (count_free_blocks_eq bc s R S Hlt). by rewrite (total_free_sizes bc s R S).
Qed.
End Main.

(** ** Plain search trees as the tree library *)

Fixpoint of_list (l : list addr) : tree :=
  match l with [] => Leaf | n :: l => Node Leaf n (of_list l) end.

Fixpoint succ_in (l : list addr) (n : addr) : option addr :=
  match l with
  | [] => None
  | x :: l => if decide (x = n) then head l else succ_in l n
  end.

Fixpoint erase_in (l : list addr) (n : addr) : list addr :=
  match l with
  | [] => []
  | x :: l => if decide (x = n) then l else x :: erase_in l n
  end.

Definition plain_tree : RBTree := {|
  rb_insert_color := λ _ t, t;
  rb_erase := λ n t, of_list (erase_in (inorder t) n);
  rb_next := λ t n, succ_in (inorder t) n;
  rb_prev := λ t n, succ_in (reverse (inorder t)) n;
  rb_first := λ t, head (inorder t)
|}.

Lemma inorder_of_list l : inorder (of_list l) = l.
Proof. induction l as [|n l IH]; simpl; [done|]. by rewrite IH. Qed.

Lemma succ_in_split l1 n l2 : n ∉ l1 → succ_in (l1 ++ n :: l2) n = head l2.
Proof.
  induction l1 as [|x l1 IH]; intros Hn; simpl; [by rewrite decide_True|].
  rewrite decide_False by set_solver. apply IH. set_solver.
Qed.

Lemma erase_in_split l1 n l2 : n ∉ l1 → erase_in (l1 ++ n :: l2) n = l1 ++ l2.
Proof.
  induction l1 as [|x l1 IH]; intros Hn; simpl; [by rewrite decide_True|].
  rewrite decide_False by set_solver. f_equal. apply IH. set_solver.
Qed.

Lemma plain_tree_laws : @RBTreeLaws plain_tree.
Proof.
  split; try done; intros; simpl.
  - rewrite inorder_of_list. match goal with E : _ = _ |- _ => rewrite E in * end.
    apply erase_in_split. rewrite NoDup_app in *. set_solver.
  - match goal with E : _ = _ |- _ => rewrite E in * end.
    apply succ_in_split. rewrite NoDup_app in *. set_solver.
  - match goal with E : _ = _ |- _ => rewrite E in * end.
    rewrite reverse_app, reverse_cons, <- app_assoc. simpl.
    rewrite succ_in_split; [by rewrite <- head_reverse|].
    rewrite NoDup_app, NoDup_cons in *. rewrite elem_of_reverse. naive_solver.
Qed.

(** ** A small device *)

Module BallocDemo.
#[local] Existing Instance plain_tree.
#[local] Existing Instance plain_tree_laws.
#[local] Instance crc : Crc := bitwise_crc false.

Definition cfg : balloc_cfg := BallocCfg true 262144 64 2 1 0 (λ _, true).
Definition off : bstate := BState ∅ O (replicate 2 empty_list) 0 (Cpu ∅ []).

Definition booted : bstate :=
  match nova_init_blockmap cfg false off with Ok (_, s) => s | _ => off end.
Definition R0 : nat → list range := init_ranges cfg O.

Lemma demo_geometry : geometry cfg.
Proof. by split. Qed.

Lemma booted_run : nova_init_blockmap cfg false off = Ok ((), booted).
Proof. vm_compute. reflexivity. Qed.

Lemma booted_wf : wf_state cfg booted R0 ∧
  (∀ b, free booted R0 b ↔ ∃ i, 0 <= i < 2 ∧ list_start cfg i <= b <= list_end cfg i).
Proof.
  destruct (init_blockmap_spec cfg off demo_geometry) as (s & E & _ & S & Hf); [done..|].
  rewrite booted_run in E. injection E as <-. by split.
Qed.

Lemma booted_list i fl : lists booted !! i = Some fl → (i < 2)%nat ∧
  block_start (layout fl) = list_start cfg (Z.of_nat i) ∧ block_end (layout fl) = list_end cfg (Z.of_nat i).
Proof.
  destruct i as [|[|i]]; intros Hi; vm_compute in Hi; simplify_eq; (split; [lia|by vm_compute]).
Qed.

Lemma booted_sane : sane booted.
Proof.
  split; intros i fl Hi; apply booted_list in Hi as (Hlt & Hs & He);
    rewrite ?Hs, ?He; destruct i as [|[|i]]; try lia; by vm_compute.
Qed.

(** After allocating three blocks on CPU 0, block 5 to 7 are in use. *)
Definition grown : bstate :=
  match nova_new_data_blocks cfg 0 0 0 3 false ANY_CPU ALLOC_FROM_HEAD booted with
  | Ok (_, s) => s | _ => off end.
Lemma grown_run :
  nova_new_data_blocks cfg 0 0 0 3 false ANY_CPU ALLOC_FROM_HEAD booted = Ok ((3, 5), grown).
Proof. vm_compute. reflexivity. Qed.

Lemma booted_request zero : request_ok cfg booted 0 3 0 zero DATA.
Proof.
  split.
  - by vm_compute.
  - change (3 * nova_get_numblocks 0) with 3. lia.
  - done.
  - intros _. change (3 * nova_get_numblocks 0) with 3. split; [lia|].
    intros i fl Hi. apply booted_list in Hi as (Hlt & _ & ->).
    destruct i as [|[|i]]; [by vm_compute..|lia].
Qed.

Lemma init_blockmap_correct_witness :
  geometry cfg ∧ ∃ s' R, nova_init_blockmap cfg false off = Ok ((), s') ∧ pm s' = pm off ∧
    wf_state cfg s' R ∧
    (∀ b, (∀ i, 0 <= i < bc_cpus cfg → ¬ replica_parity cfg i b) →
       free s' R b ↔ ∃ i, 0 <= i < bc_cpus cfg ∧
         list_start cfg i <= b <= list_end cfg i - share cfg (parity_blocks cfg)).
Proof.
  split; [exact demo_geometry|]. exact (init_blockmap_correct cfg off demo_geometry (λ _, eq_refl) eq_refl).
Defined.


Lemma new_free_roundtrip_witness :
  ∃ s2 R2, nova_free_data_blocks cfg 0 5 3 grown = Ok (0, s2) ∧ wf_state cfg s2 R2 ∧
    (∀ y, free s2 R2 y ↔ free booted R0 y) ∧ total_free (lists s2) = total_free (lists booted).
Proof.
  exact (new_free_roundtrip cfg booted R0 0 0 3 false ANY_CPU ALLOC_FROM_HEAD 3 5 grown
    (proj1 booted_wf) booted_sane (λ _, eq_refl) (booted_request false) grown_run eq_refl).
Defined.

Lemma count_free_blocks_correct_witness :
  nova_count_free_blocks booted = Ok (55, booted).
Proof.
  exact (count_free_blocks_correct cfg booted R0 (proj1 booted_wf) eq_refl).
Defined.

Lemma fl0_eq : ∃ fl, lists booted !! O = Some fl ∧ block_start (layout fl) = 5 ∧ block_end (layout fl) = 31.
Proof. eexists. split; [vm_compute; reflexivity|]. by vm_compute. Qed.

Lemma grown_wf : ∃ R, wf_state cfg grown R ∧
  (∀ y, free grown R y ↔ free booted R0 y ∧ ¬ 5 <= y < 8).
Proof.
  assert (Er : nova_new_blocks cfg 0 0 3 0 false DATA ANY_CPU ALLOC_FROM_HEAD booted =
    Ok ((3, 5), grown)) by exact grown_run.
  destruct (new_outcome_took cfg booted R0 0 3 false DATA 0 3 5 grown _
    (new_blocks_spec cfg booted R0 0 0 3 0 false DATA ANY_CPU ALLOC_FROM_HEAD
      (proj1 booted_wf) booted_sane (booted_request false)) Er eq_refl) as [R' Htk].
  exists R'. split; [apply Htk|]. exact (tk_free _ _ _ _ _ _ _ Htk).
Qed.

Lemma free_blocks_correct_witness :
  ∃ R fl, free_request grown R 6 1 0 0 fl ∧
    ∃ s' R', nova_free_blocks cfg 6 1 0 true grown = Ok (0, s') ∧ wf_state cfg s' R' ∧
      (∀ b, free s' R' b ↔ free grown R b ∨ 6 <= b < 6 + 1) ∧
      total_free (lists s') = total_free (lists grown) + 1.
Proof.
  destruct grown_wf as (R & S & Hf).
  assert (Hreq : ∃ fl, free_request grown R 6 1 0 0 fl).
  { eexists. split; [done|vm_compute; reflexivity|vm_compute; discriminate|vm_compute; discriminate|].
    intros b Hb [_ Hn]%Hf. change (nova_get_numblocks 0) with 1 in Hb. lia. }
  destruct Hreq as [fl Hreq]. exists R, fl. split; [done|].
  exact (free_blocks_correct cfg grown R 6 1 0 true 0 fl S eq_refl Hreq).
Defined.

Lemma free_blocks_refused_witness :
  ∃ s', nova_free_blocks cfg 9 1 0 true booted = Ok (- EINVAL, s') ∧ wf_state cfg s' R0 ∧
    lists s' = lists booted ∧ pm s' = pm booted.
Proof.
  assert (Href : refused cfg booted R0 9 1 EINVAL).
  { destruct fl0_eq as (fl & Hfl & Hs & He).
    apply (refused_free cfg booted R0 9 1 0 fl); try lia; try done.
    exists (Range 0 5 31). split; [|simpl; lia]. apply list_elem_of_singleton. by vm_compute. }
  exact (free_blocks_refused cfg booted R0 9 1 0 true EINVAL (proj1 booted_wf) Href).
Defined.

(** The last four blocks of a list are those of its replica parity, yet they
    start out free: [nova_data_parity_init_free_list] leaves [block_end] alone. *)
Lemma replica_parity_is_free :
  ∃ fl, lists booted !! O = Some fl ∧ num_parity_blocks (layout fl) = 4 ∧
    replica_parity_start (layout fl) = 28 ∧ ∀ b, 28 <= b < 28 + 4 → free booted R0 b.
Proof.
  eexists. split; [vm_compute; reflexivity|]. split_and!; [done..|]. intros b Hb.
  apply (proj2 booted_wf). exists 0. change (list_start cfg 0) with 5. change (list_end cfg 0) with 31.
  lia.
Qed.

(** One list with blocks 512 to 2559 free, and no memory for new nodes. *)
Definition poor : balloc_cfg := BallocCfg false 0 4096 1 1 0 (λ _, false).
Definition big : bstate :=
  BState {[ O := RangeNode 512 2559 0 ]} 1
    [FreeList (Node Leaf O Leaf) (Some O) (Some O) 2048 1 (FlLayout 0 0 0 0 0 0 1 4095) no_stats]
    4096 (Cpu ∅ []).

(** When [nova_alloc_superpage] cannot allocate the node of the right part, the
    range is already cut: the caller gets 512 blocks, the tree is empty, and
    1536 blocks are counted as free but lost. *)
Lemma superpage_enomem_leaks :
  ∃ s', nova_new_blocks poor 0 0 1 1 false DATA 0 ALLOC_FROM_HEAD big = Ok ((1, 512), s') ∧
    nodes s' = ∅ ∧ nova_count_free_blocks s' = Ok (1536, s').
Proof. eexists. split; [vm_compute; reflexivity|]. split; vm_compute; reflexivity. Qed.
End BallocDemo.
