(* ===== verification/NovaLog.v ===== *)
(** * NOVA: the pages of an inode's log

    An inode's log is a linked list of 4 KB pages, allocated a few at a time
    and grown at the tail ([log.c]); pages whose entries are all dead are taken
    out when the log grows ([nova_inode_log_fast_gc], [gc.c]).  With metadata
    checksums on there is a second, alternate log.

    The log is a client of the block allocator, through the class [LogAlloc];
    [NovaLogAlloc] shows that [NovaBalloc] implements it.  The proofs are in
    [NovaLogProofs], [NovaLogGc], [NovaLogOps] and [NovaLogCrash]. *)

From stdpp Require Import base list gmap.
From Stdlib Require Import ZArith Lia.
From coqutil Require Import Byte Word.LittleEndianList.
From S2P Require Import Prelude PMem NovaBase NovaJournal NovaInode NovaLogEntry NovaBalloc.

Local Open Scope Z_scope.

(** ** What the log asks of the allocator *)

(** The state [A] of an allocator holds the machine.  [new_log_blocks btype num
    d] is [nova_new_log_blocks] on any CPU without zeroing: the number of blocks
    or an error, and the first block. *)
Class LogAlloc (A : Type) := {
  machine : A → cpu;
  with_machine : A → cpu → A;
  new_log_blocks : Z → Z → nova_alloc_direction → M A (Z * Z);
  free_log_blocks : Z → Z → Z → M A Z                    (* btype, blocknr, num *)
}.

(** ** State *)

(** [struct nova_inode_info_header], as far as the log reads it. *)
Record nova_sih := Sih {
  s_pi_addr : Z;
  s_alter_pi_addr : Z;
  i_blk_type : Z;
  log_pages : Z;
  valid_entries : Z;
  num_entries : Z;
  log_head : Z;
  log_tail : Z;
  alter_log_head : Z;
  alter_log_tail : Z
}.
Definition set_entries (h : nova_sih) (v n : Z) : nova_sih :=
  let 'Sih a b c d _ _ g i j k := h in Sih a b c d v n g i j k.
Definition set_log_pages (h : nova_sih) (v : Z) : nova_sih :=
  let 'Sih a b c _ e f g i j k := h in Sih a b c v e f g i j k.
Definition set_main (h : nova_sih) (hd tl : Z) : nova_sih :=
  let 'Sih a b c d e f _ _ j k := h in Sih a b c d e f hd tl j k.
Definition set_alter (h : nova_sih) (hd tl : Z) : nova_sih :=
  let 'Sih a b c d e f g i _ _ := h in Sih a b c d e f g i hd tl.

Record lstate (A : Type) := LState { blocks : A; sih : nova_sih }.
Arguments LState {A}.
Arguments blocks {A}.
Arguments sih {A}.

Inductive log_id := MAIN_LOG | ALTER_LOG.
Definition is_main (l : log_id) : bool := match l with MAIN_LOG => true | ALTER_LOG => false end.

Definition EXTEND_THRESHOLD : Z := 256.
Definition pi_log_head : Z := 64.
Definition pi_alter_log_head : Z := 80.

(** [struct nova_inode_update]; [curr_p] of the entry is [lu_curr_entry]. *)
Record log_update := LogUpdate {
  lu_tail : Z; lu_alter_tail : Z; lu_curr_entry : Z; lu_alter_entry : Z
}.

Section Log.
Context `{Crc} `{NocacheCopy} `{CachedWrite} {A : Type} `{LogAlloc A}.
Variable cfg : nova_cfg.
(** The number of pages of the device: no chain is longer. *)
Variable pages : nat.

Abbreviation L := (M (lstate A)).

Definition on_pm {B} (m : PM B) : L B := λ s,
  match m (machine (blocks s)) with
  | Ok (b, c) => Ok (b, LState (with_machine (blocks s) c) (sih s))
  | Bug => Bug
  | OutOfFuel => OutOfFuel
  end.
Definition on_blocks {B} (m : M A B) : L B := λ s,
  match m (blocks s) with
  | Ok (b, a) => Ok (b, LState a (sih s))
  | Bug => Bug
  | OutOfFuel => OutOfFuel
  end.
Definition put_sih (f : nova_sih → nova_sih) : L () := modify (λ s, LState (blocks s) (f (sih s))).

Definition nova_get_blocknr (block : Z) : Z := Z.shiftr block PAGE_SHIFT.

(** ** Linking *)

Fixpoint alter_pages_loop (fuel : nat) (curr alter_curr : Z) : PM () :=
  if (curr =? 0) || (alter_curr =? 0) then mret () else
  match fuel with
  | O => out_of_fuel
  | S fuel =>
      nova_set_alter_page_address cfg curr alter_curr;;
      curr ← next_log_page cfg curr;
      alter_curr ← next_log_page cfg alter_curr;
      alter_pages_loop fuel curr alter_curr
  end.
Definition nova_update_alter_pages (curr alter_curr : Z) : PM Z :=
  if (curr =? 0) || (alter_curr =? 0) || negb (metadata_csum cfg) then mret 0 else
  alter_pages_loop pages curr alter_curr;;
  mret 0.

(** An empty page: no entries, and its successor. *)
Definition init_page (curr_page next_page : Z) (fence : bool) : PM () :=
  nova_set_page_num_entries cfg curr_page 0 false;;
  nova_set_page_invalid_entries cfg curr_page 0 false;;
  nova_set_next_page_address cfg curr_page next_page fence.

(** [for (i = 0; i < num_pages - 1; i++)] *)
Fixpoint coalesce_loop (n : nat) (curr_page next_blocknr : Z) : PM Z :=
  match n with
  | O => mret curr_page
  | S n =>
      init_page curr_page (nova_get_block_off next_blocknr) false;;
      coalesce_loop n (curr_page + PAGE_SIZE) (next_blocknr + 1)
  end.

Definition nova_coalesce_log_pages (prev_blocknr first_blocknr num_pages : Z) : PM Z :=
  when (negb (prev_blocknr =? 0))
    (curr_page ← deref (nova_get_block (nova_get_block_off prev_blocknr));
     nova_set_next_page_address cfg curr_page (nova_get_block_off first_blocknr) false);;
  curr_page ← deref (nova_get_block (nova_get_block_off first_blocknr));
  curr_page ← coalesce_loop (Z.to_nat (num_pages - 1)) curr_page (first_blocknr + 1);
  init_page curr_page 0 true;;
  mret 0.

(** ** Allocating *)

(** [while (num_pages)]: the pages allocated so far. *)
Fixpoint allocate_loop (fuel : nat) (d : nova_alloc_direction) (btype num_pages prev_blocknr ret_pages : Z) :
    L Z :=
  if num_pages =? 0 then mret ret_pages else
  match fuel with
  | O => out_of_fuel
  | S fuel =>
      '(allocated, new_inode_blocknr) ← on_blocks (new_log_blocks btype num_pages d);
      if allocated <=? 0 then mret ret_pages else
      on_pm (nova_coalesce_log_pages prev_blocknr new_inode_blocknr allocated);;
      allocate_loop fuel d btype (num_pages - allocated) (new_inode_blocknr + allocated - 1)
        (ret_pages + allocated)
  end.

(** The number of pages (or an error) and [*new_block], which errors leave
    alone. *)
Definition nova_allocate_inode_log_pages (num_pages new_block : Z) (d : nova_alloc_direction) :
    L (Z * Z) :=
  btype ← gets (λ s, i_blk_type (sih s));
  '(allocated, new_inode_blocknr) ← on_blocks (new_log_blocks btype num_pages d);
  if allocated <=? 0 then mret (allocated, new_block) else
  on_pm (nova_coalesce_log_pages 0 new_inode_blocknr allocated);;
  ret_pages ← allocate_loop (Z.to_nat num_pages) d btype (num_pages - allocated)
    (new_inode_blocknr + allocated - 1) allocated;
  mret (ret_pages, nova_get_block_off new_inode_blocknr).

Definition nova_initialize_inode_log (pi : Z) (log : log_id) : L Z :=
  '(allocated, new_block) ←
    nova_allocate_inode_log_pages 1 0 (if is_main log then ALLOC_FROM_HEAD else ALLOC_FROM_TAIL);
  if negb (allocated =? 1) then mret (- ENOSPC) else
  if is_main log then
    on_pm (store 8 (pi + pi_log_tail) new_block;;
           nova_flush_buffer cfg (pi + pi_log_tail) CACHELINE_SIZE false;;
           store 8 (pi + pi_log_head) new_block);;
    put_sih (λ h, set_log_pages (set_main h new_block new_block) 1);;
    on_pm (nova_flush_buffer cfg (pi + pi_log_head) CACHELINE_SIZE true);;
    mret 0
  else
    on_pm (store 8 (pi + pi_alter_log_tail) new_block;;
           nova_flush_buffer cfg (pi + pi_alter_log_tail) CACHELINE_SIZE false;;
           store 8 (pi + pi_alter_log_head) new_block);;
    put_sih (λ h, set_log_pages (set_alter h new_block new_block) (u64 (log_pages h + 1)));;
    on_pm (nova_flush_buffer cfg (pi + pi_alter_log_head) CACHELINE_SIZE true);;
    mret 0.

(** ** Freeing *)

(** [while (curr_block > 0)]: the current run of adjacent pages and the number
    freed so far. *)
Fixpoint free_loop (fuel : nat) (btype curr_block start_blocknr num_free freed : Z) : L (Z * Z * Z) :=
  if curr_block =? 0 then mret (start_blocknr, num_free, freed) else
  match fuel with
  | O => out_of_fuel
  | S fuel =>
      if negb (ENTRY_LOC curr_block =? 0) then mret (start_blocknr, num_free, freed) else
      let blocknr := nova_get_blocknr curr_block in
      curr_block ← on_pm (next_log_page cfg curr_block);
      if start_blocknr =? 0 then free_loop fuel btype curr_block blocknr 1 freed
      else if blocknr =? start_blocknr + num_free
      then free_loop fuel btype curr_block start_blocknr (num_free + 1) freed
      else
        on_blocks (free_log_blocks btype start_blocknr num_free);;
        free_loop fuel btype curr_block blocknr 1 (freed + num_free)
  end.

Definition nova_free_contiguous_log_blocks (head : Z) : L Z :=
  btype ← gets (λ s, i_blk_type (sih s));
  '(start_blocknr, num_free, freed) ← free_loop pages btype head 0 0 0;
  if negb (start_blocknr =? 0) then
    on_blocks (free_log_blocks btype start_blocknr num_free);;
    mret (freed + num_free)
  else mret freed.

(** The inode's pointers go first; [pi] is NULL when the inode is gone.  The
    alternate log is freed whether or not [metadata_csum] is set. *)
Definition nova_free_inode_log (pi : option Z) : L Z :=
  h ← gets sih;
  if (log_head h =? 0) || (log_tail h =? 0) then mret 0 else
  match pi with
  | Some pi =>
      on_pm (store 8 (pi + pi_log_tail) 0;; store 8 (pi + pi_log_head) 0;;
             store 8 (pi + pi_alter_log_tail) 0;; store 8 (pi + pi_alter_log_head) 0;;
             nova_update_inode_checksum cfg pi;;
             if metadata_csum cfg then
               match nova_get_block (s_alter_pi_addr h) with
               | Some alter_pi => memcpy_to_pmem_nocache cfg alter_pi pi sizeof_nova_inode
               | None => mret ()
               end
             else mret ())
  | None => mret ()
  end;;
  nova_free_contiguous_log_blocks (log_head h);;
  nova_free_contiguous_log_blocks (alter_log_head h);;
  mret 0.

(** ** [gc.c]: taking out dead pages *)

Definition curr_page_invalid (page_head : Z) : L bool :=
  page ← on_pm (deref (nova_get_block page_head));
  if mcsafe_fail cfg (Some (page + LOG_BLOCK_TAIL)) sizeof_page_tail then mret false else
  num ← on_pm (fetch 4 (page + pt_num_entries));
  invalid ← on_pm (fetch 4 (page + pt_invalid_entries));
  if invalid =? num then mret true else
  put_sih (λ h, set_entries h (u64 (valid_entries h + u32 (num - invalid))) (u64 (num_entries h + num)));;
  mret false.

(** Unlinks the page after [last_page]. *)
Definition free_curr_page (curr_page : Z) (last_page : option Z) (curr_head : Z) : L () :=
  btype ← gets (λ s, i_blk_type (sih s));
  on_pm (last_page ← deref last_page;
         next ← fetch 8 (curr_page + pt_next_page);
         nova_set_next_page_address cfg last_page next true);;
  on_blocks (free_log_blocks btype (nova_get_blocknr curr_head) 1);;
  mret ().

(** The locals of [nova_inode_log_fast_gc] across its loop. *)
Record gc_scan := GcScan {
  possible_head : Z;
  alter_possible_head : Z;
  found_head : bool;
  last_page : option Z;
  alter_last_page : option Z;
  first_need_free : bool;
  checked_pages : Z;
  freed_pages : Z
}.
Definition scan0 : gc_scan := GcScan 0 0 false None None false 0 0.

Definition same_page (x y : Z) : bool := Z.shiftr x PAGE_SHIFT =? Z.shiftr y PAGE_SHIFT.

(** [while (1)] *)
Fixpoint fast_gc_loop (fuel : nat) (curr alter_curr : Z) (g : gc_scan) : L gc_scan :=
  match fuel with
  | O => out_of_fuel
  | S fuel =>
      h ← gets sih;
      if same_page curr (log_tail h) then
        mret (if found_head g then g else
              GcScan curr alter_curr false (last_page g) (alter_last_page g) (first_need_free g)
                (checked_pages g) (freed_pages g))
      else
        curr_page ← on_pm (deref (nova_get_block curr));
        next ← on_pm (next_log_page cfg curr);
        alter_next ← (if metadata_csum cfg then on_pm (next_log_page cfg alter_curr) else mret 0);
        let alter_page := if metadata_csum cfg then nova_get_block alter_curr else None in
        invalid ← curr_page_invalid curr;
        g ←
          (if (invalid : bool) then
             if curr =? log_head h then
               mret (GcScan (possible_head g) (alter_possible_head g) (found_head g)
                       (Some curr_page) alter_page true (checked_pages g) (freed_pages g + 1))
             else
               free_curr_page curr_page (last_page g) curr;;
               (if metadata_csum cfg then
                  ap ← on_pm (deref alter_page);
                  free_curr_page ap (alter_last_page g) alter_curr
                else mret ());;
               mret (GcScan (possible_head g) (alter_possible_head g) (found_head g)
                       (last_page g) (alter_last_page g) (first_need_free g)
                       (checked_pages g) (freed_pages g + 1))
           else
             mret (if found_head g then
                     GcScan (possible_head g) (alter_possible_head g) true (Some curr_page) alter_page
                       (first_need_free g) (checked_pages g) (freed_pages g)
                   else
                     GcScan curr alter_curr true (Some curr_page) alter_page
                       (first_need_free g) (checked_pages g) (freed_pages g)));
        let g := GcScan (possible_head g) (alter_possible_head g) (found_head g) (last_page g)
                   (alter_last_page g) (first_need_free g) (checked_pages g + 1) (freed_pages g) in
        if (next =? 0) || (metadata_csum cfg && (alter_next =? 0)) then mret g
        else fast_gc_loop fuel next alter_next g
  end.

(** The last page of a chain. *)
Fixpoint chain_end (fuel : nat) (curr : Z) : PM Z :=
  match fuel with
  | O => out_of_fuel
  | S fuel =>
      next ← next_log_page cfg curr;
      if next >? 0 then (next ← next_log_page cfg curr; chain_end fuel next) else mret curr
  end.

(** [if (num_pages > 0)]: linking the new pages behind the tail. *)
Definition link_new_pages (curr_tail new_block alter_new_block num_pages : Z) : L () :=
  if num_pages >? 0 then
    on_pm (curr_page ← deref (nova_get_block (BLOCK_OFF curr_tail));
           nova_set_next_page_address cfg curr_page new_block true);;
    if metadata_csum cfg then
      h ← gets sih;
      on_pm (alter_curr ← chain_end pages (BLOCK_OFF (alter_log_tail h));
             alter_curr_page ← deref (nova_get_block alter_curr);
             nova_set_next_page_address cfg alter_curr_page alter_new_block true)
    else mret ()
  else mret ().

(** Everything before the estimate for thorough collection; the pages left. *)
Definition fast_gc_pages (pi curr_tail new_block alter_new_block num_pages : Z) : L Z :=
  put_sih (λ h, set_entries h 0 0);;
  h ← gets sih;
  let num_logs := if metadata_csum cfg then 2 else 1 in
  g ← fast_gc_loop (S pages) (log_head h) (alter_log_head h) scan0;
  let checked := u64 (checked_pages g - freed_pages g) in
  link_new_pages curr_tail new_block alter_new_block num_pages;;
  h ← gets sih;
  let curr := log_head h in
  let alter_curr := alter_log_head h in
  on_pm (store 8 (pi + pi_log_head) (possible_head g);;
         store 8 (pi + pi_alter_log_head) (alter_possible_head g);;
         nova_update_inode_checksum cfg pi;;
         if metadata_csum cfg && negb (s_alter_pi_addr h =? 0) then
           alter_pi ← deref (nova_get_block (s_alter_pi_addr h));
           memcpy_to_pmem_nocache cfg alter_pi pi sizeof_nova_inode
         else mret ());;
  put_sih (λ h, set_alter (set_main h (possible_head g) (log_tail h)) (alter_possible_head g) (alter_log_tail h));;
  put_sih (λ h, set_log_pages h (u64 (log_pages h + (num_pages - freed_pages g) * num_logs)));;
  on_pm (nova_flush_buffer cfg (pi + pi_log_head) CACHELINE_SIZE true);;
  (if first_need_free g then
     btype ← gets (λ s, i_blk_type (sih s));
     on_blocks (free_log_blocks btype (nova_get_blocknr curr) 1);;
     (if metadata_csum cfg then
        on_blocks (free_log_blocks btype (nova_get_blocknr alter_curr) 1);; mret ()
      else mret ())
   else mret ());;
  mret checked.

(** The estimate: the pages the valid entries would fill, when that is less
    than half of the pages left. *)
Definition thorough_gc_blocks (h : nova_sih) (checked : Z) (force_thorough : bool) : option Z :=
  if num_entries h =? 0 then None else
  let n := u64 (valid_entries h * checked) in
  let b := n / num_entries h in
  let b := if n mod num_entries h =? 0 then b else u64 (b + 1) in
  if force_thorough || (negb (b =? 0) && (u64 (b * 2) <? checked)) then Some b else None.

(** [thorough blocks checked_pages] stands for the two calls of the thorough
    collection. *)
Definition nova_inode_log_fast_gc (thorough : Z → Z → L ()) (pi curr_tail new_block alter_new_block
    num_pages : Z) (force_thorough : bool) : L Z :=
  checked ← fast_gc_pages pi curr_tail new_block alter_new_block num_pages;
  h ← gets sih;
  match thorough_gc_blocks h checked force_thorough with
  | Some b => thorough b checked;; mret 0
  | None => mret 0
  end.

(** ** Growing the log *)

(** The new page to append to, or 0. *)
Definition nova_extend_inode_log (thorough : Z → Z → L ()) (pi curr_p : Z) : L Z :=
  if curr_p =? 0 then
    ret ← nova_initialize_inode_log pi MAIN_LOG;
    if negb (ret =? 0) then mret 0 else
    ret ← (if metadata_csum cfg then
             ret ← nova_initialize_inode_log pi ALTER_LOG;
             if negb (ret =? 0) then mret ret else
             h ← gets sih;
             on_pm (nova_update_alter_pages (log_head h) (alter_log_head h));;
             mret 0
           else mret 0);
    if negb (ret =? 0) then mret 0 else
    on_pm (nova_update_inode_checksum cfg pi);;
    gets (λ s, log_head (sih s))
  else
    h ← gets sih;
    let num_pages := if log_pages h >=? EXTEND_THRESHOLD then EXTEND_THRESHOLD else log_pages h in
    '(allocated, new_block) ← nova_allocate_inode_log_pages num_pages 0 ALLOC_FROM_HEAD;
    if allocated <=? 0 then mret 0 else
    '(allocated, alter_new_block) ←
      (if metadata_csum cfg then
         '(allocated, alter_new_block) ← nova_allocate_inode_log_pages num_pages 0 ALLOC_FROM_TAIL;
         when (negb (allocated <=? 0)) (on_pm (nova_update_alter_pages new_block alter_new_block;; mret ()));;
         mret (allocated, alter_new_block)
       else mret (allocated, 0));
    if allocated <=? 0 then mret 0 else
    nova_inode_log_fast_gc thorough pi curr_p new_block alter_new_block allocated false;;
    mret new_block.

(** For thorough collection: one more page. *)
Definition nova_append_one_log_page (curr_p : Z) : L Z :=
  '(allocated, new_block) ← nova_allocate_inode_log_pages 1 0 ALLOC_FROM_HEAD;
  if negb (allocated =? 1) then mret 0 else
  if curr_p =? 0 then mret new_block else
  on_pm (curr_page ← deref (nova_get_block (BLOCK_OFF curr_p));
         nova_set_next_page_address cfg curr_page new_block true);;
  mret curr_p.

(** The place of the next entry of [size] bytes (0: none), and [*extended]. *)
Definition nova_get_append_head (thorough : Z → Z → L ()) (pi tail size : Z) (log : log_id)
    (thorough_gc extended : bool) : L (Z * bool) :=
  h ← gets sih;
  let curr_p := if negb (tail =? 0) then tail
                else if is_main log then log_tail h else alter_log_tail h in
  full ← (if curr_p =? 0 then mret true
          else if is_last_entry curr_p size then
            next ← on_pm (next_log_page cfg curr_p); mret (next =? 0)
          else mret false);
  '(curr_p, extended, stop) ←
    (if (full : bool) then
       when (is_last_entry curr_p size) (on_pm (nova_set_next_page_flag cfg curr_p));;
       if negb (is_main log) then mret (0, extended, true) else
       '(curr_p, extended) ←
         (if thorough_gc then (p ← nova_append_one_log_page curr_p; mret (p, true))
          else (p ← nova_extend_inode_log thorough pi curr_p; mret (p, extended)));
       mret (curr_p, extended, curr_p =? 0)
     else mret (curr_p, extended, false));
  if (stop : bool) then mret (0, extended) else
  if is_last_entry curr_p size then
    on_pm (nova_set_next_page_flag cfg curr_p);;
    curr_p ← on_pm (next_log_page cfg curr_p);
    mret (curr_p, extended)
  else mret (curr_p, extended).

(** ** Appending an entry *)

(** [memset(entry, 0, size)]. *)
Definition zero_entry (entry size : Z) : PM () :=
  emits (cached_events entry (replicate (Z.to_nat size) Byte.x00)).

(** An error, or the updated [nova_inode_update]. *)
Definition nova_append_log_entry (thorough : Z → Z → L ()) (pi : Z) (inode : vfs_inode)
    (info : nova_log_entry_info) (update : log_update) : L (Z * log_update) :=
  let size := match ei_type info with
              | DIR_LOG => ei_file_size info
              | t => nova_get_log_entry_size t
              end in
  '(curr_p, extended) ← nova_get_append_head thorough pi (lu_tail update) size MAIN_LOG false false;
  if curr_p =? 0 then mret (- ENOSPC, update) else
  on_pm (entry ← deref (nova_get_block curr_p);
         zero_entry entry size;;
         nova_update_log_entry cfg inode entry info;;
         nova_inc_page_num_entries cfg curr_p);;
  let update := LogUpdate (u64 (curr_p + size)) (lu_alter_tail update) curr_p (lu_alter_entry update) in
  if metadata_csum cfg then
    '(alter_curr_p, _) ←
      nova_get_append_head thorough pi (lu_alter_tail update) size ALTER_LOG false extended;
    if alter_curr_p =? 0 then mret (- ENOSPC, update) else
    on_pm (alter_entry ← deref (nova_get_block alter_curr_p);
           zero_entry alter_entry size;;
           nova_update_log_entry cfg inode alter_entry info);;
    mret (0, LogUpdate (lu_tail update) (u64 (alter_curr_p + size)) curr_p alter_curr_p)
  else mret (0, update).
End Log.
