(* ===== verification/NovaLogProofs.v ===== *)
(** * NOVA: correctness of the log pages

    A log is a chain of pages ([linked]) that ends in 0.  Allocating pages
    builds a fresh chain of empty pages out of free blocks, and freeing a chain
    returns exactly its blocks.  The allocator is known through its laws [LogAllocLaws] only. *)

From stdpp Require Import base list gmap.
From Stdlib Require Import ZArith Lia.
From coqutil Require Import Byte Word.LittleEndianList.
From S2P Require Import Prelude PMem NovaBase NovaJournal NovaInode NovaLogEntry NovaBalloc.
From S2P Require Import NovaLog.

Local Open Scope Z_scope.

(** What an allocator promises the log.  [within b n]: the [n] blocks from [b]
    belong to one free list. *)
Class LogAllocLaws {A} `{LogAlloc A} := {
  inv : A → Prop;
  is_free : A → Z → Prop;
  within : Z → Z → Prop;
  machine_with : ∀ a c, machine (with_machine a c) = c;
  inv_with : ∀ a c, inv a → inv (with_machine a c);
  free_with : ∀ a c x, is_free (with_machine a c) x ↔ is_free a x;
  within_range : ∀ b n x, within b n → b <= x < b + n → 0 < x < 2 ^ 51;
  within_join : ∀ b n, 0 < n → within b n → within (b + n) 1 → within b (n + 1);
  within_sub : ∀ b n b' n', within b n → b <= b' → 0 < n' → b' + n' <= b + n → within b' n';
  new_ok : ∀ a num d, inv a → 0 < num < 2 ^ 32 →
    ∃ ret b a', new_log_blocks 0 num d a = Ok ((ret, b), a') ∧ inv a' ∧
      view (machine a') = view (machine a) ∧
      ((ret <= 0 ∧ ∀ x, is_free a' x ↔ is_free a x) ∨
       (0 < ret <= num ∧ within b ret ∧ (∀ x, b <= x < b + ret → is_free a x) ∧
        ∀ x, is_free a' x ↔ is_free a x ∧ ¬ b <= x < b + ret));
  free_ok : ∀ a b n, inv a → 0 < n → within b n → (∀ x, b <= x < b + n → ¬ is_free a x) →
    ∃ ret a', free_log_blocks 0 b n a = Ok (ret, a') ∧ inv a' ∧
      view (machine a') = view (machine a) ∧
      ∀ x, is_free a' x ↔ is_free a x ∨ b <= x < b + n
}.

(** ** Pages and chains *)

Definition page_ok (p : Z) : Prop := 0 < p < 2 ^ 63 ∧ p mod 4096 = 0.
Definition tail_of (p x : Z) : Prop := in_range (p + LOG_BLOCK_TAIL) 32 x.
Definition tails (ps : list Z) (x : Z) : Prop := ∃ p, p ∈ ps ∧ tail_of p x.

Definition next_of (m : mem) (p : Z) : Z := load 8 m (p + pt_next_page).
Definition entries_of (m : mem) (p : Z) : Z := load 4 m (p + pt_num_entries).
Definition invalid_of (m : mem) (p : Z) : Z := load 4 m (p + pt_invalid_entries).
Definition empty_page (m : mem) (p : Z) : Prop := entries_of m p = 0 ∧ invalid_of m p = 0.

Definition first (ps : list Z) (e : Z) : Z := match ps with [] => e | p :: _ => p end.
(** Each page's successor is the next of the list; the last one's is [e]. *)
Fixpoint linked (m : mem) (ps : list Z) (e : Z) : Prop :=
  match ps with
  | [] => True
  | p :: ps => next_of m p = first ps e ∧ linked m ps e
  end.

(** The pages of [n] blocks from [b]. *)
Definition pages_from (b n : Z) : list Z := (λ x, 4096 * x) <$> seqZ b n.

Lemma tail_of_page p x : p mod 4096 = 0 → tail_of p x → x / 4096 = p / 4096.
Proof.
  unfold tail_of, in_range, LOG_BLOCK_TAIL. intros Hp Hx.
  pose proof (Z.div_mod p 4096 ltac:(lia)). symmetry.
  apply (Z.div_unique x 4096 (p / 4096) (x - p)); lia.
Qed.
Lemma tails_apart p q x : p mod 4096 = 0 → q mod 4096 = 0 → p ≠ q → tail_of p x → ¬ tail_of q x.
Proof.
  intros Hp Hq Hne H1 H2. apply Hne. apply tail_of_page in H1, H2; try done.
  pose proof (Z.div_mod p 4096 ltac:(lia)). pose proof (Z.div_mod q 4096 ltac:(lia)). lia.
Qed.

Lemma next_agree m m' p : agree (tail_of p) m m' → next_of m p = next_of m' p.
Proof.
  intros Ha. apply load_ext. eapply agree_mono; [exact Ha|].
  unfold tail_of, in_range, pt_next_page, LOG_BLOCK_TAIL. lia.
Qed.
Lemma entries_agree m m' p : agree (tail_of p) m m' → entries_of m p = entries_of m' p.
Proof.
  intros Ha. apply load_ext. eapply agree_mono; [exact Ha|].
  unfold tail_of, in_range, pt_num_entries, LOG_BLOCK_TAIL. lia.
Qed.
Lemma invalid_agree m m' p : agree (tail_of p) m m' → invalid_of m p = invalid_of m' p.
Proof.
  intros Ha. apply load_ext. eapply agree_mono; [exact Ha|].
  unfold tail_of, in_range, pt_invalid_entries, LOG_BLOCK_TAIL. lia.
Qed.
Lemma empty_agree m m' p : agree (tail_of p) m m' → empty_page m p → empty_page m' p.
Proof.
  intros Ha [H1 H2]. split; [by rewrite <- (entries_agree m)|by rewrite <- (invalid_agree m)].
Qed.
Lemma linked_agree m m' ps e : agree (tails ps) m m' → linked m ps e → linked m' ps e.
Proof.
  induction ps as [|p ps IH]; intros Ha; simpl; [done|]. intros [Hn Hl]. split.
  - rewrite <- Hn. symmetry. apply next_agree. eapply agree_mono; [exact Ha|].
    intros x Hx. exists p. split; [apply list_elem_of_here|done].
  - apply IH; [|done]. eapply agree_mono; [exact Ha|]. intros x (q & Hq & Hx).
    exists q. split; [by apply list_elem_of_further|done].
Qed.
Lemma linked_app m ps qs e : linked m (ps ++ qs) e ↔ linked m ps (first qs e) ∧ linked m qs e.
Proof.
  induction ps as [|p ps IH]; simpl; [tauto|]. rewrite IH.
  destruct ps; simpl; tauto.
Qed.

(** Updates of page tails only. *)
Definition tails_only (ps : list Z) (m m' : mem) : Prop := agree (λ x, ¬ tails ps x) m m'.
Lemma tails_only_refl ps m : tails_only ps m m.
Proof. by intros x _. Qed.
Lemma tails_only_trans ps qs m1 m2 m3 :
  tails_only ps m1 m2 → tails_only qs m2 m3 → tails_only (ps ++ qs) m1 m3.
Proof.
  intros H1 H2 x Hx. rewrite H1, H2; [done| |]; intros (p & Hp & Ht); apply Hx; exists p;
    (split; [apply elem_of_app; tauto|done]).
Qed.
Lemma tails_only_weaken ps qs m m' : ps ⊆ qs → tails_only ps m m' → tails_only qs m m'.
Proof.
  intros Hs Ha. eapply agree_mono; [exact Ha|]. intros x Hx (p & Hp & Ht). apply Hx.
  exists p. split; [by apply Hs|done].
Qed.
(** Another page's tail is not touched. *)
Lemma tails_only_other ps p m m' :
  tails_only ps m m' → p ∉ ps → p mod 4096 = 0 → Forall (λ q, q mod 4096 = 0) ps →
  agree (tail_of p) m m'.
Proof.
  intros Ha Hp Hm Hps. eapply agree_mono; [exact Ha|]. intros x Hx (q & Hq & Ht).
  rewrite list.Forall_forall in Hps. apply (tails_apart p q x); auto. intros ->. done.
Qed.

Lemma page_block_off p : page_ok p → BLOCK_OFF p = p.
Proof.
  intros [Hr Hp]. unfold BLOCK_OFF, PAGE_OFFSET_MASK.
  change 4095 with (Z.ones 12). rewrite <- Z.ldiff_land, Z.ldiff_ones_r by lia.
  rewrite Z.shiftl_mul_pow2, Z.shiftr_div_pow2 by lia. change (2 ^ 12) with 4096.
  pose proof (Z.div_mod p 4096 ltac:(lia)). lia.
Qed.
Lemma page_get_block p : page_ok p → nova_get_block p = Some p.
Proof. intros [? _]. apply nova_get_block_Some. lia. Qed.

Lemma page_off_eq b : 0 <= b < 2 ^ 51 → nova_get_block_off b = 4096 * b.
Proof.
  intros Hb. unfold nova_get_block_off, PAGE_SHIFT. rewrite Z.shiftl_mul_pow2 by lia.
  rewrite wrap_small by lia. change (2 ^ 12) with 4096. lia.
Qed.
Lemma page_ok_block b : 0 < b < 2 ^ 51 → page_ok (4096 * b).
Proof. intros Hb. split; [lia|]. by rewrite Z.mul_comm, Z.mod_mul. Qed.

Lemma page_mod b : (4096 * b) mod 4096 = 0.
Proof. by rewrite Z.mul_comm, Z.mod_mul. Qed.
#[local] Hint Resolve page_mod : core.

Lemma pages_from_cons b n : 0 < n → pages_from b n = 4096 * b :: pages_from (b + 1) (n - 1).
Proof.
  intros Hn. unfold pages_from. rewrite seqZ_cons by lia. simpl.
  by replace (Z.succ b) with (b + 1) by lia; replace (Z.pred n) with (n - 1) by lia.
Qed.
Lemma pages_from_app b n k : 0 <= n → 0 <= k → pages_from b (n + k) = pages_from b n ++ pages_from (b + n) k.
Proof. intros. unfold pages_from. by rewrite seqZ_app, fmap_app. Qed.
Lemma elem_of_pages_from b n p : p ∈ pages_from b n ↔ ∃ x, p = 4096 * x ∧ b <= x < b + n.
Proof.
  unfold pages_from. rewrite list_elem_of_fmap. setoid_rewrite elem_of_seqZ. done.
Qed.
Lemma length_pages_from b n : length (pages_from b n) = Z.to_nat n.
Proof. unfold pages_from. by rewrite length_fmap, length_seqZ. Qed.

Section Proofs.
#[local] Set Default Proof Using "Type".
Context `{Crc} `{NocacheCopy} `{CachedWrite} {A : Type} `{LogAlloc A}.
Variable cfg : nova_cfg.
Variable pages : nat.
(** No media errors. *)
Definition reads_ok : Prop := ∀ p n, mcsafe_rc cfg (Some p) n = 0.

(** *** Page tails *)

Lemma flush_view buf len f s :
  0 <= len <= 2 ^ 32 - 128 →
  ∃ s', nova_flush_buffer cfg buf len f s = Ok ((), s') ∧ view s' = view s.
Proof.
  intros Hl. rewrite nova_flush_buffer_eq by done. eexists. split; [done|]. cbn.
  apply apply_events_no_store, Forall_app. split; [apply is_flush_no_store, flush_events_flushes|].
  destruct f; repeat constructor.
Qed.

Lemma set_next_spec p nx f s :
  ∃ s', nova_set_next_page_address cfg p nx f s = Ok ((), s') ∧
    view s' = write_bytes (view s) (p + pt_next_page) (bytes_of 8 nx).
Proof.
  unfold nova_set_next_page_address. run_step (store_eq 8 (p + pt_next_page) nx s).
  unfold flush_page_tail.
  destruct (flush_view (p + LOG_BLOCK_TAIL) sizeof_page_tail false
    (log_state s [EStore false (p + pt_next_page) (bytes_of 8 nx)])) as (s1 & E1 & V1);
    [unfold sizeof_page_tail; lia|].
  erewrite bind_Ok; [|exact E1]. destruct f; eexists; (split; [done|]); cbn; by rewrite ?V1.
Qed.

Lemma set_next_tail p nx m :
  0 <= nx < 2 ^ 64 →
  let m' := write_bytes m (p + pt_next_page) (bytes_of 8 nx) in
  next_of m' p = nx ∧ entries_of m' p = entries_of m p ∧ invalid_of m' p = invalid_of m p ∧
  tails_only [p] m m'.
Proof.
  intros Hn m'. unfold m', next_of, entries_of, invalid_of. split_and!.
  - rewrite load_write_same. apply Z.mod_small. cbn. lia.
  - apply load_write_disjoint. rewrite length_bytes_of. unfold disjoint_ranges, pt_next_page, pt_num_entries. lia.
  - apply load_write_disjoint. rewrite length_bytes_of. unfold disjoint_ranges, pt_next_page, pt_invalid_entries. lia.
  - intros x Hx. symmetry. apply write_bytes_out. rewrite length_bytes_of. intros Hr. apply Hx.
    exists p. split; [apply list_elem_of_here|].
    unfold tail_of, in_range, pt_next_page, LOG_BLOCK_TAIL in *. lia.
Qed.

Lemma init_page_spec p nx f s :
  0 <= nx < 2 ^ 64 →
  ∃ s', init_page cfg p nx f s = Ok ((), s') ∧ next_of (view s') p = nx ∧
    empty_page (view s') p ∧ tails_only [p] (view s) (view s').
Proof.
  intros Hn. unfold init_page, nova_set_page_num_entries, nova_set_page_invalid_entries, when.
  rewrite bind_assoc. run_step (store_eq 4 (p + pt_num_entries) 0 s).
  set (s1 := log_state s _). erewrite bind_Ok; [|done].
  rewrite bind_assoc. run_step (store_eq 4 (p + pt_invalid_entries) 0 s1).
  set (s2 := log_state s1 _). erewrite bind_Ok; [|done].
  destruct (set_next_spec p nx f s2) as (s3 & E3 & V3). exists s3. split; [done|].
  destruct (set_next_tail p nx (view s2) Hn) as (T1 & T2 & T3 & T4). rewrite V3.
  assert (V2 : view s2 = write_bytes (write_bytes (view s) (p + pt_num_entries) (bytes_of 4 0))
    (p + pt_invalid_entries) (bytes_of 4 0)) by done.
  split_and!; [done| |].
  - unfold empty_page. rewrite T2, T3, V2. unfold entries_of, invalid_of. split.
    + rewrite load_write_disjoint by (rewrite length_bytes_of; unfold disjoint_ranges, pt_invalid_entries, pt_num_entries; lia).
      rewrite load_write_same. done.
    + by rewrite load_write_same.
  - intros x Hx. rewrite <- T4 by done. rewrite V2.
    assert (Hr : ∀ o, LOG_BLOCK_TAIL <= o <= LOG_BLOCK_TAIL + 28 → ¬ in_range (p + o) (Z.of_nat 4) x).
    { intros o Ho Hr. apply Hx. exists p. split; [apply list_elem_of_here|].
      unfold tail_of, in_range in *. lia. }
    rewrite !write_bytes_out; [done| |]; rewrite length_bytes_of; apply Hr;
      unfold pt_invalid_entries, pt_num_entries; lia.
Qed.

Lemma next_log_page_eq p s :
  reads_ok → page_ok p → next_log_page cfg p s = Ok (next_of (view s) p, s).
Proof.
  intros Hr Hp. unfold next_log_page. rewrite page_block_off, page_get_block by done. simpl.
  rewrite Hr. simpl. by erewrite bind_Ok; [|done].
Qed.

(** *** Coalescing *)

Lemma coalesce_loop_spec n : ∀ b s,
  0 < b → b + Z.of_nat n < 2 ^ 51 →
  ∃ s', coalesce_loop cfg n (4096 * b) (b + 1) s = Ok (4096 * (b + Z.of_nat n), s') ∧
    linked (view s') (pages_from b (Z.of_nat n)) (4096 * (b + Z.of_nat n)) ∧
    Forall (empty_page (view s')) (pages_from b (Z.of_nat n)) ∧
    tails_only (pages_from b (Z.of_nat n)) (view s) (view s').
Proof.
  induction n as [|n IH]; intros b s Hb Hlt.
  { exists s. rewrite Z.add_0_r. by split_and!. }
  cbn [coalesce_loop]. rewrite page_off_eq by lia.
  destruct (init_page_spec (4096 * b) (4096 * (b + 1)) false s) as (s1 & E1 & N1 & M1 & T1);
    [lia|].
  erewrite bind_Ok; [|exact E1].
  replace (4096 * b + PAGE_SIZE) with (4096 * (b + 1)) by (unfold PAGE_SIZE; lia).
  destruct (IH (b + 1) s1) as (s2 & E2 & L2 & M2 & T2); [lia|lia|].
  assert (Hag : agree (tail_of (4096 * b)) (view s1) (view s2)).
  { apply (tails_only_other (pages_from (b + 1) (Z.of_nat n))); [done| |done|].
    - rewrite elem_of_pages_from. intros (x & Hx & Hr). lia.
    - apply list.Forall_forall. intros q (x & -> & Hr)%elem_of_pages_from. done. }
  exists s2. rewrite pages_from_cons by lia.
  replace (Z.of_nat (S n) - 1) with (Z.of_nat n) by lia.
  replace (b + Z.of_nat (S n)) with (b + 1 + Z.of_nat n) by lia.
  split_and!; [done| | |].
  - simpl. split; [|done]. rewrite <- (next_agree (view s1)), N1 by done.
    destruct n as [|n]; [by rewrite Z.add_0_r|]. by rewrite pages_from_cons by lia.
  - constructor; [by eapply empty_agree|done].
  - by eapply (tails_only_trans [_]).
Qed.

(** The previous page of a coalesced run: none, or the page to link from. *)
Definition prev_page (b : Z) : list Z := if b =? 0 then [] else [4096 * b].

Lemma coalesce_spec prev b n s :
  0 <= prev < 2 ^ 51 → 0 < b → 0 < n → b + n <= 2 ^ 51 →
  (prev ≠ 0 → ¬ b <= prev < b + n) →
  ∃ s', nova_coalesce_log_pages cfg prev b n s = Ok (0, s') ∧
    linked (view s') (pages_from b n) 0 ∧ Forall (empty_page (view s')) (pages_from b n) ∧
    (prev ≠ 0 → next_of (view s') (4096 * prev) = 4096 * b ∧
       entries_of (view s') (4096 * prev) = entries_of (view s) (4096 * prev) ∧
       invalid_of (view s') (4096 * prev) = invalid_of (view s) (4096 * prev)) ∧
    tails_only (prev_page prev ++ pages_from b n) (view s) (view s').
Proof.
  intros Hprev Hb Hn Hlt Hdis. unfold nova_coalesce_log_pages, prev_page.
  assert (Hlink : ∃ s1, (when (negb (prev =? 0)) (curr_page ← deref (nova_get_block (nova_get_block_off prev));
      nova_set_next_page_address cfg curr_page (nova_get_block_off b) false)) s = Ok ((), s1) ∧
    (prev ≠ 0 → next_of (view s1) (4096 * prev) = 4096 * b ∧
       entries_of (view s1) (4096 * prev) = entries_of (view s) (4096 * prev) ∧
       invalid_of (view s1) (4096 * prev) = invalid_of (view s) (4096 * prev)) ∧
    tails_only (prev_page prev) (view s) (view s1)).
  { unfold prev_page. destruct (Z.eqb_spec prev 0) as [->|Hne]; [by exists s|].
    simpl when. rewrite !page_off_eq by lia.
    rewrite nova_get_block_Some by lia. erewrite bind_Ok; [|done].
    destruct (set_next_spec (4096 * prev) (4096 * b) false s) as (s1 & E1 & V1). exists s1.
    destruct (set_next_tail (4096 * prev) (4096 * b) (view s)) as (? & ? & ? & ?); [lia|].
    rewrite V1. split_and!; done. }
  destruct Hlink as (s1 & E1 & P1 & T1). erewrite bind_Ok; [|exact E1].
  rewrite page_off_eq by lia. rewrite nova_get_block_Some by lia. erewrite bind_Ok; [|done].
  destruct (coalesce_loop_spec (Z.to_nat (n - 1)) b s1) as (s2 & E2 & L2 & M2 & T2); [lia|lia|].
  rewrite Z2Nat.id in * by lia. erewrite bind_Ok; [|exact E2].
  destruct (init_page_spec (4096 * (b + (n - 1))) 0 true s2) as (s3 & E3 & N3 & M3 & T3); [lia|].
  erewrite bind_Ok; [|exact E3]. exists s3. split; [done|].
  assert (Epages : pages_from b n = pages_from b (n - 1) ++ [4096 * (b + (n - 1))]).
  { replace n with (n - 1 + 1) at 1 by lia. by rewrite pages_from_app by lia. }
  assert (Hother : ∀ p, p ∈ pages_from b (n - 1) → agree (tail_of p) (view s2) (view s3)).
  { intros p (x & -> & Hx)%elem_of_pages_from. apply (tails_only_other [4096 * (b + (n - 1))]); [done| |..].
    - rewrite list_elem_of_singleton. lia.
    - done.
    - by repeat constructor. }
  assert (H23 : tails_only (pages_from b n) (view s1) (view s3)).
  { rewrite Epages. by eapply tails_only_trans. }
  split_and!.
  - rewrite Epages, linked_app. split; [|done]. simpl first.
    eapply linked_agree; [|exact L2]. intros x (p & Hp & Hx). by apply (Hother p).
  - rewrite Epages. apply list.Forall_app. split; [|by apply list.Forall_singleton].
    apply list.Forall_forall. intros p Hp. eapply empty_agree; [by apply Hother|].
    by eapply list.Forall_forall in M2.
  - intros Hne. destruct (P1 Hne) as (? & ? & ?).
    assert (Ha : agree (tail_of (4096 * prev)) (view s1) (view s3)).
    { apply (tails_only_other (pages_from b n)); [done| | |].
      - rewrite elem_of_pages_from. intros (x & Hx & Hr). apply (Hdis Hne). lia.
      - done.
      - apply list.Forall_forall. intros q (x & -> & Hr)%elem_of_pages_from. done. }
    rewrite <- (next_agree (view s1)), <- (entries_agree (view s1)), <- (invalid_agree (view s1)) by done.
    done.
  - by eapply tails_only_trans.
Qed.

(** *** Running the two levels *)

Definition mview (s : lstate A) : mem := view (machine (blocks s)).

Lemma on_pm_Ok {B} (m : M cpu B) s b c :
  m (machine (blocks s)) = Ok (b, c) → on_pm m s = Ok (b, LState (with_machine (blocks s) c) (sih s)).
Proof. intros E. unfold on_pm. by rewrite E. Qed.
Lemma on_blocks_Ok {B} (m : M A B) s b a :
  m (blocks s) = Ok (b, a) → on_blocks m s = Ok (b, LState a (sih s)).
Proof. intros E. unfold on_blocks. by rewrite E. Qed.

Section Laws.
Context `{!LogAllocLaws}.

(** The state [s'] holds a new chain [ps] of empty pages, made of blocks that
    were free in [s]; nothing else changed. *)
Record new_chain (s s' : lstate A) (ps : list Z) : Prop := {
  nc_inv : inv (blocks s');
  nc_sih : sih s' = sih s;
  nc_linked : linked (mview s') ps 0;
  nc_empty : Forall (empty_page (mview s')) ps;
  nc_pages : Forall page_ok ps;
  nc_nodup : NoDup ps;
  nc_within : Forall (λ p, within (p / 4096) 1) ps;
  nc_free : ∀ p, p ∈ ps → is_free (blocks s) (p / 4096);
  nc_left : ∀ x, is_free (blocks s') x ↔ is_free (blocks s) x ∧ 4096 * x ∉ ps;
  nc_frame : tails_only ps (mview s) (mview s')
}.

Lemma page_blocknr p : page_ok p → 4096 * (p / 4096) = p.
Proof using Type. intros [_ Hm]. pose proof (Z.div_mod p 4096 ltac:(lia)). lia. Qed.
Lemma block_page x : 4096 * x / 4096 = x.
Proof using Type. rewrite Z.mul_comm. apply Z.div_mul. lia. Qed.

Lemma pages_from_run b n :
  within b n → 0 < n →
  Forall page_ok (pages_from b n) ∧ NoDup (pages_from b n) ∧
  Forall (λ p, within (p / 4096) 1) (pages_from b n).
Proof.
  intros Hw Hn. split_and!.
  - apply list.Forall_forall. intros p (x & -> & Hx)%elem_of_pages_from. apply page_ok_block.
    by eapply within_range.
  - unfold pages_from. apply NoDup_fmap_2_strong; [|apply NoDup_seqZ]. intros; lia.
  - apply list.Forall_forall. intros p (x & -> & Hx)%elem_of_pages_from. rewrite block_page.
    eapply within_sub; [exact Hw|lia..].
Qed.

Lemma elem_run b n x : 4096 * x ∈ pages_from b n ↔ b <= x < b + n.
Proof using Type. rewrite elem_of_pages_from. split; [intros (y & ? & ?); lia|]. intros. by exists x. Qed.

(** One allocation, linked behind [prev]. *)
Lemma alloc_run s num d prev :
  inv (blocks s) → 0 < num < 2 ^ 32 →
  ∃ ret b s1, on_blocks (new_log_blocks 0 num d) s = Ok ((ret, b), s1) ∧ sih s1 = sih s ∧
    mview s1 = mview s ∧ inv (blocks s1) ∧
    ((ret <= 0 ∧ ∀ x, is_free (blocks s1) x ↔ is_free (blocks s) x) ∨
     0 < ret <= num ∧ within b ret ∧ (∀ x, b <= x < b + ret → is_free (blocks s) x) ∧
     (0 <= prev < 2 ^ 51 → (prev ≠ 0 → ¬ is_free (blocks s) prev) →
      ∃ s2, on_pm (nova_coalesce_log_pages cfg prev b ret) s1 = Ok (0, s2) ∧ sih s2 = sih s ∧
        inv (blocks s2) ∧ linked (mview s2) (pages_from b ret) 0 ∧
        Forall (empty_page (mview s2)) (pages_from b ret) ∧
        (prev ≠ 0 → next_of (mview s2) (4096 * prev) = 4096 * b ∧
           entries_of (mview s2) (4096 * prev) = entries_of (mview s) (4096 * prev) ∧
           invalid_of (mview s2) (4096 * prev) = invalid_of (mview s) (4096 * prev)) ∧
        tails_only (prev_page prev ++ pages_from b ret) (mview s) (mview s2) ∧
        ∀ x, is_free (blocks s2) x ↔ is_free (blocks s) x ∧ ¬ b <= x < b + ret)).
Proof.
  intros Hinv Hnum. destruct (new_ok (blocks s) num d Hinv Hnum) as (ret & b & a' & E & Hinv' & Hv & Hcase).
  exists ret, b, (LState a' (sih s)). split; [by apply on_blocks_Ok|].
  split_and!; try done.
  destruct Hcase as [?|(Hret & Hw & Hf & Hl)]; [by left|right]. split_and!; try done; [lia..|].
  intros Hprev Hpf.
  pose proof (within_range _ _ b Hw ltac:(lia)). pose proof (within_range _ _ (b + ret - 1) Hw ltac:(lia)).
  destruct (coalesce_spec prev b ret (machine a')) as (c & E2 & L2 & M2 & P2 & T2); [lia..| |].
  { intros Hne Hin. by apply (Hpf Hne), Hf. }
  exists (LState (with_machine a' c) (sih s)).
  split; [exact (on_pm_Ok _ (LState a' (sih s)) _ _ E2)|].
  unfold mview. cbn [blocks sih]. rewrite machine_with. rewrite Hv in *. split_and!; try done.
  - by apply inv_with.
  - intros x. rewrite free_with. apply Hl.
Qed.

Lemma first_run b n : 0 < n → first (pages_from b n) 0 = 4096 * b.
Proof using Type. intros. by rewrite pages_from_cons. Qed.

(** Linking a new run behind a chain. *)
Lemma new_chain_extend s s1 s2 ps b n prev :
  new_chain s s1 (ps ++ [4096 * prev]) →
  within b n → 0 < n → (∀ x, b <= x < b + n → is_free (blocks s1) x) →
  sih s2 = sih s1 → inv (blocks s2) → linked (mview s2) (pages_from b n) 0 →
  Forall (empty_page (mview s2)) (pages_from b n) →
  next_of (mview s2) (4096 * prev) = 4096 * b →
  entries_of (mview s2) (4096 * prev) = entries_of (mview s1) (4096 * prev) →
  invalid_of (mview s2) (4096 * prev) = invalid_of (mview s1) (4096 * prev) →
  tails_only ([4096 * prev] ++ pages_from b n) (mview s1) (mview s2) →
  (∀ x, is_free (blocks s2) x ↔ is_free (blocks s1) x ∧ ¬ b <= x < b + n) →
  new_chain s s2 (ps ++ [4096 * prev] ++ pages_from b n).
Proof.
  intros [C1 C2 C3 C4 C5 C6 C7 C8 C9 C10] Hw Hn Hf Hsih Hinv Hl He Hnx Hen Hiv Ht Hleft.
  destruct (pages_from_run b n Hw Hn) as (R1 & R2 & R3).
  assert (Hnew : ∀ p, p ∈ pages_from b n → p ∉ ps ++ [4096 * prev]).
  { intros p (x & -> & Hx)%elem_of_pages_from Hin. by apply Hf, C9 in Hx as []. }
  rewrite list.Forall_app in C4, C5, C7. destruct C4 as [E1 E2], C5 as [P1 P2], C7 as [W1 W2].
  rewrite list.Forall_singleton in E2. apply NoDup_app in C6 as (N1 & N2 & N3).
  assert (Hother : ∀ p, p ∈ ps → agree (tail_of p) (mview s1) (mview s2)).
  { intros p Hp. apply (tails_only_other ([4096 * prev] ++ pages_from b n)); [done| | |].
    - rewrite elem_of_app, list_elem_of_singleton. intros [->|Hin].
      + apply (N2 _ Hp). apply list_elem_of_here.
      + apply (Hnew p Hin), elem_of_app. by left.
    - rewrite list.Forall_forall in P1. by apply (P1 p).
    - apply list.Forall_app. split; [by repeat constructor|].
      apply list.Forall_forall. intros q (x & -> & _)%elem_of_pages_from. done. }
  split; try done; try congruence.
  - rewrite !linked_app in C3 |- *. destruct C3 as [L1 _].
    split; [|split; [simpl; by rewrite first_run|done]].
    eapply linked_agree; [|exact L1]. intros x (p & Hp & Hx). by apply (Hother p).
  - rewrite !list.Forall_app. split_and!; [| |done].
    + apply list.Forall_forall. intros p Hp. eapply empty_agree; [by apply Hother|].
      by eapply list.Forall_forall in E1.
    + rewrite list.Forall_singleton. unfold empty_page in *. by rewrite Hen, Hiv.
  - rewrite !list.Forall_app. done.
  - rewrite app_assoc. apply NoDup_app. split_and!; [by apply NoDup_app| |done].
    intros p Hp Hin. by apply (Hnew p).
  - rewrite !list.Forall_app. done.
  - intros p. rewrite app_assoc, elem_of_app. intros [Hp|Hp]; [by apply C8|].
    apply elem_of_pages_from in Hp as (x & -> & Hx). rewrite block_page. by apply C9, Hf.
  - intros x. rewrite Hleft, C9, app_assoc, (elem_of_app _ (pages_from b n)), elem_run. tauto.
  - eapply tails_only_weaken; [|exact (tails_only_trans _ _ _ _ _ C10 Ht)].
    intros p. rewrite !elem_of_app. tauto.
Qed.

Lemma allocate_loop_spec fuel d : ∀ num prev ret s s1 ps,
  new_chain s s1 (ps ++ [4096 * prev]) → 0 <= num < 2 ^ 32 → (Z.to_nat num <= fuel)%nat →
  ∃ k s2 qs, allocate_loop cfg fuel d 0 num prev ret s1 = Ok (ret + k, s2) ∧ 0 <= k <= num ∧
    Z.of_nat (length qs) = k ∧ new_chain s s2 (ps ++ [4096 * prev] ++ qs).
Proof.
  induction fuel as [|fuel IH]; intros num prev ret s s1 ps Hc Hnum Hf.
  { cbn [allocate_loop]. destruct (Z.eqb_spec num 0); [|lia]. exists 0, s1, [].
    rewrite app_nil_r, Z.add_0_r. split_and!; try done; lia. }
  cbn [allocate_loop]. destruct (Z.eqb_spec num 0) as [|Hne].
  { exists 0, s1, []. rewrite app_nil_r, Z.add_0_r. split_and!; try done; lia. }
  destruct (alloc_run s1 num d prev (nc_inv _ _ _ Hc) ltac:(lia))
    as (al & b & s2 & E & Hsih & Hv & Hinv & Hcase).
  erewrite bind_Ok; [|exact E].
  destruct Hcase as [(Hal & Hfree)|(Hal & Hw & Hfr & Hco)].
  { destruct (Z.leb_spec al 0); [|lia]. exists 0, s2, []. rewrite app_nil_r, Z.add_0_r.
    split_and!; try done; [lia|].
    destruct Hc. split; try done; try congruence; [by rewrite Hv..| |by rewrite Hv].
    intros x. by rewrite Hfree. }
  destruct (Z.leb_spec al 0); [lia|].
  assert (Hprev : page_ok (4096 * prev)).
  { pose proof (nc_pages _ _ _ Hc) as Hp. apply list.Forall_app in Hp as [_ Hp].
    by rewrite list.Forall_singleton in Hp. }
  assert (Hlast : 4096 * prev ∈ ps ++ [4096 * prev]) by (apply elem_of_app; right; apply list_elem_of_here).
  destruct Hco as (s3 & E3 & Hsih3 & Hinv3 & L3 & M3 & P3 & T3 & F3).
  { unfold page_ok in Hprev. lia. }
  { intros _ Hfp. by apply (nc_left _ _ _ Hc) in Hfp as []. }
  destruct P3 as (P3 & P3' & P3''). { unfold page_ok in Hprev. lia. }
  unfold prev_page in T3. destruct (Z.eqb_spec prev 0); [unfold page_ok in Hprev; lia|].
  erewrite bind_Ok; [|exact E3].
  assert (Hc3 : new_chain s s3 (ps ++ [4096 * prev] ++ pages_from b al)).
  { eapply new_chain_extend; eauto; lia. }
  assert (Epages : pages_from b al = pages_from b (al - 1) ++ [4096 * (b + al - 1)]).
  { replace al with (al - 1 + 1) at 1 by lia. rewrite pages_from_app by lia.
    by replace (b + al - 1) with (b + (al - 1)) by lia. }
  rewrite Epages, !app_assoc in Hc3.
  destruct (IH (num - al) (b + al - 1) (ret + al) s s3 _ Hc3) as (k & s4 & qs & E4 & Hk & Hlen & Hc4); [lia|lia|].
  exists (al + k), s4, (pages_from b al ++ qs). split_and!; [by rewrite E4; do 2 f_equal; lia|lia|lia| |].
  - rewrite length_app, length_pages_from. lia.
  - rewrite Epages, <- !app_assoc. rewrite <- !app_assoc in Hc4. exact Hc4.
Qed.

(** [nova_allocate_inode_log_pages]. *)
Lemma allocate_spec num nb d s :
  inv (blocks s) → i_blk_type (sih s) = 0 → 0 < num < 2 ^ 32 →
  ∃ ret nb' s', nova_allocate_inode_log_pages cfg num nb d s = Ok ((ret, nb'), s') ∧
    ((ret <= 0 ∧ nb' = nb ∧ sih s' = sih s ∧ inv (blocks s') ∧ mview s' = mview s ∧
      ∀ x, is_free (blocks s') x ↔ is_free (blocks s) x) ∨
     (∃ ps, 0 < ret <= num ∧ Z.of_nat (length ps) = ret ∧ nb' = first ps 0 ∧ new_chain s s' ps)).
Proof.
  intros Hinv Hbt Hnum. unfold nova_allocate_inode_log_pages.
  erewrite bind_Ok; [|done]. rewrite Hbt.
  destruct (alloc_run s num d 0 Hinv ltac:(lia)) as (al & b & s2 & E & Hsih & Hv & Hinv2 & Hcase).
  erewrite bind_Ok; [|exact E].
  destruct Hcase as [(Hal & Hfree)|(Hal & Hw & Hfr & Hco)].
  { destruct (Z.leb_spec al 0); [|lia]. exists al, nb, s2. split; [done|]. by left. }
  destruct (Z.leb_spec al 0); [lia|].
  destruct Hco as (s3 & E3 & Hsih3 & Hinv3 & L3 & M3 & _ & T3 & F3); [lia|done|].
  erewrite bind_Ok; [|exact E3].
  destruct (pages_from_run b al Hw ltac:(lia)) as (R1 & R2 & R3).
  pose proof (within_range _ _ b Hw ltac:(lia)) as Hb.
  assert (Hc3 : new_chain s s3 (pages_from b al)).
  { split; try done.
    - intros p (x & -> & Hx)%elem_of_pages_from. rewrite block_page. by apply Hfr.
    - intros x. rewrite F3, elem_run. done. }
  assert (Epages : pages_from b al = pages_from b (al - 1) ++ [4096 * (b + al - 1)]).
  { replace al with (al - 1 + 1) at 1 by lia. rewrite pages_from_app by lia.
    by replace (b + al - 1) with (b + (al - 1)) by lia. }
  rewrite Epages in Hc3.
  destruct (allocate_loop_spec (Z.to_nat num) d (num - al) (b + al - 1) al s s3 _ Hc3)
    as (k & s4 & qs & E4 & Hk & Hlen & Hc4); [lia|lia|].
  rewrite app_assoc, <- Epages in Hc4.
  erewrite bind_Ok; [|exact E4]. exists (al + k), (nova_get_block_off b), s4. split; [done|].
  right. exists (pages_from b al ++ qs). split_and!; [lia|lia| | |done].
  - rewrite length_app, length_pages_from. lia.
  - rewrite page_off_eq by lia. by rewrite pages_from_cons by lia.
Qed.

(** *** Freeing a chain *)

(** Adjacent pages of the chain belong to one free list. *)
Definition runs_ok (ps : list Z) : Prop :=
  ∀ l1 b n l2, ps = l1 ++ pages_from b n ++ l2 → 0 < n → within b n.

(** It holds of any pages of free lists, for adjacent blocks share a list. *)
Lemma run_within n : ∀ b, (∀ x, b <= x < b + Z.of_nat (S n) → within x 1) → within b (Z.of_nat (S n)).
Proof.
  induction n as [|n IH]; intros b Hw.
  - apply Hw. lia.
  - replace (Z.of_nat (S (S n))) with (Z.of_nat (S n) + 1) by lia. apply within_join; [lia| |].
    + apply IH. intros x Hx. apply Hw. lia.
    + apply Hw. lia.
Qed.
Lemma runs_ok_within ps : Forall (λ p, within (p / 4096) 1) ps → runs_ok ps.
Proof.
  intros Hw l1 b n l2 -> Hn. rewrite !list.Forall_app in Hw. destruct Hw as (_ & Hw & _).
  replace n with (Z.of_nat (S (Z.to_nat (n - 1)))) by lia. apply run_within. intros x Hx.
  rewrite list.Forall_forall in Hw. rewrite <- (block_page x). apply Hw, elem_run. lia.
Qed.

(** The end of [nova_free_contiguous_log_blocks]. *)
Definition free_rest (start num freed : Z) : M (lstate A) Z :=
  if negb (start =? 0) then
    on_blocks (free_log_blocks 0 start num);;
    mret (freed + num)
  else mret freed.

Definition held (start num : Z) : list Z := if start =? 0 then [] else pages_from start num.

Lemma page_entry_loc p : page_ok p → ENTRY_LOC p = 0.
Proof using Type.
  intros [Hr Hp]. unfold ENTRY_LOC, PAGE_OFFSET_MASK. change 4095 with (2 ^ 12 - 1).
  rewrite land_mask_mod by lia. done.
Qed.
Lemma page_blocknr_eq p : page_ok p → nova_get_blocknr p = p / 4096.
Proof using Type. intros _. unfold nova_get_blocknr, PAGE_SHIFT. by rewrite Z.shiftr_div_pow2. Qed.

(** Freeing the run held. *)
Lemma free_run b n ps s :
  inv (blocks s) → 0 < n → runs_ok (pages_from b n ++ ps) →
  (∀ p, p ∈ pages_from b n → ¬ is_free (blocks s) (p / 4096)) →
  ∃ ret s', on_blocks (free_log_blocks 0 b n) s = Ok (ret, s') ∧ inv (blocks s') ∧
    sih s' = sih s ∧ mview s' = mview s ∧
    ∀ x, is_free (blocks s') x ↔ is_free (blocks s) x ∨ 4096 * x ∈ pages_from b n.
Proof.
  intros Hinv Hn Hr Hnf.
  destruct (free_ok (blocks s) b n Hinv Hn) as (ret & a' & E & Hinv' & Hv & Hf).
  { by apply (Hr [] b n ps). }
  { intros x Hx. rewrite <- (block_page x). apply Hnf. by apply elem_run. }
  exists ret, (LState a' (sih s)). split; [by apply on_blocks_Ok|]. split_and!; try done.
  intros x. cbn. rewrite elem_run. apply Hf.
Qed.

Definition freed_all (s s' : lstate A) (ps : list Z) : Prop :=
  inv (blocks s') ∧ sih s' = sih s ∧ mview s' = mview s ∧
  ∀ x, is_free (blocks s') x ↔ is_free (blocks s) x ∨ 4096 * x ∈ ps.

Lemma free_rest_spec fuel start num freed s :
  inv (blocks s) → runs_ok (held start num) →
  (∀ p, p ∈ held start num → ¬ is_free (blocks s) (p / 4096)) → (start ≠ 0 → 0 < num) →
  ∃ s', (free_loop cfg fuel 0 (first [] 0) start num freed ≫=
         (λ '(start, num, freed), free_rest start num freed)) s =
    Ok (freed + Z.of_nat (length (held start num)), s') ∧ freed_all s s' (held start num).
Proof.
  intros Hinv Hr Hnf Hnum. assert (E0 : free_loop cfg fuel 0 (first [] 0) start num freed s =
    Ok ((start, num, freed), s)) by (by destruct fuel).
  unfold free_rest, held in *. destruct (Z.eqb_spec start 0) as [->|Hst].
  - exists s. erewrite bind_Ok; [|exact E0]. cbn. rewrite Z.add_0_r. split; [done|].
    split_and!; try done. intros x. rewrite elem_of_nil. tauto.
  - destruct (free_run start num [] s) as (ret & s' & E & Hfr); rewrite ?app_nil_r; try done; [by apply Hnum|].
    exists s'. split; [|done]. erewrite bind_Ok; [|exact E0].
    cbv beta iota. destruct (Z.eqb_spec start 0); [done|]. cbn [negb]. erewrite bind_Ok; [|exact E].
    rewrite length_pages_from, Z2Nat.id by (specialize (Hnum Hst); lia). done.
Qed.
Lemma held_one p : page_ok p → held (p / 4096) 1 = [p].
Proof using Type.
  intros Hp. pose proof (page_blocknr p Hp) as E. destruct Hp as [Hp _]. unfold held.
  destruct (Z.eqb_spec (p / 4096) 0) as [E0|]; [rewrite E0 in E; lia|].
  rewrite pages_from_cons by lia. by rewrite E.
Qed.

Lemma free_loop_spec fuel : ∀ ps start num freed s,
  reads_ok → inv (blocks s) → linked (mview s) ps 0 → Forall page_ok ps → NoDup (held start num ++ ps) →
  runs_ok (held start num ++ ps) → (∀ p, p ∈ held start num ++ ps → ¬ is_free (blocks s) (p / 4096)) →
  (start ≠ 0 → 0 < num) → (length ps <= fuel)%nat →
  ∃ s', (free_loop cfg fuel 0 (first ps 0) start num freed ≫=
         (λ '(start, num, freed), free_rest start num freed)) s =
    Ok (freed + Z.of_nat (length (held start num ++ ps)), s') ∧ freed_all s s' (held start num ++ ps).
Proof.
  induction fuel as [|fuel IH]; intros ps start num freed s Hrd Hinv Hl Hp Hnd Hr Hnf Hnum Hlen.
  { destruct ps; [|simpl in Hlen; lia]. rewrite app_nil_r in *. by apply free_rest_spec. }
  destruct ps as [|p ps].
  { rewrite app_nil_r in *. by apply free_rest_spec. }
  apply Forall_cons_1 in Hp as [Hp Hps]. destruct Hl as [Hn Hl]. cbn [first free_loop].
  destruct (Z.eqb_spec p 0); [destruct Hp as [? _]; lia|].
  rewrite page_entry_loc, page_blocknr_eq by done. cbn [Z.eqb negb].
  rewrite bind_assoc. erewrite bind_Ok; [|apply on_pm_Ok; by apply next_log_page_eq].
  set (s1 := LState _ _).
  assert (Hs1 : inv (blocks s1) ∧ sih s1 = sih s ∧ mview s1 = mview s ∧
    ∀ x, is_free (blocks s1) x ↔ is_free (blocks s) x).
  { unfold s1, mview. cbn. rewrite machine_with. split_and!; try done; [by apply inv_with|].
    intros x. apply free_with. }
  destruct Hs1 as (Hinv1 & Hsih1 & Hv1 & Hf1).
  change (next_of (view (machine (blocks s))) p) with (next_of (mview s) p). rewrite Hn.
  rewrite <- Hv1 in Hl.
  unfold held in Hnd, Hr, Hnf |- *. destruct (Z.eqb_spec start 0) as [->|Hst].
  - (* the first page of a run *)
    destruct (IH ps (p / 4096) 1 freed s1 Hrd Hinv1 Hl Hps) as (s' & E & Hfr);
      rewrite ?held_one by done; try done; try lia.
    { intros q Hq. rewrite Hf1. by apply Hnf. }
    { simpl in Hlen. lia. }
    rewrite held_one in E, Hfr by done. exists s'. split; [exact E|].
    destruct Hfr as (F1 & F2 & F3 & F4). split_and!; try congruence; try done.
    intros x. by rewrite F4, Hf1.
  - destruct (Z.eqb_spec (p / 4096) (start + num)) as [Hadj|Hadj].
    + (* the run grows *)
      assert (Eh : pages_from start num ++ p :: ps = held start (num + 1) ++ ps).
      { unfold held. destruct (Z.eqb_spec start 0); [done|].
        rewrite pages_from_app, <- app_assoc by (specialize (Hnum Hst); lia).
        rewrite (pages_from_cons (start + num)), <- Hadj, page_blocknr by (done || lia). done. }
      rewrite Eh in *. destruct (IH ps start (num + 1) freed s1 Hrd Hinv1 Hl Hps) as (s' & E & Hfr); try done.
      { intros q Hq. rewrite Hf1. by apply Hnf. }
      { specialize (Hnum Hst). lia. }
      { simpl in Hlen. lia. }
      exists s'. split; [exact E|]. destruct Hfr as (F1 & F2 & F3 & F4).
      split_and!; try congruence; try done. intros x. by rewrite F4, Hf1.
    + (* a new run *)
      rewrite bind_assoc.
      destruct (free_run start num (p :: ps) s1) as (ret & s2 & E2 & Hinv2 & Hsih2 & Hv2 & Hf2); try done.
      { by apply Hnum. }
      { intros q Hq. rewrite Hf1. apply Hnf, elem_of_app. by left. }
      erewrite bind_Ok; [|exact E2]. rewrite <- Hv2 in Hl.
      apply NoDup_app in Hnd as (N1 & N2 & N3).
      destruct (IH ps (p / 4096) 1 (freed + num) s2 Hrd Hinv2 Hl Hps) as (s' & E & Hfr);
        rewrite ?held_one by done; try done; try lia.
      { intros l1 b k l2 El. apply (Hr (pages_from start num ++ l1) b k l2). by rewrite <- app_assoc, <- El. }
      { intros q Hq. rewrite Hf2, Hf1. intros [Hq'|Hq'].
        - apply (Hnf q); [apply elem_of_app; by right|done].
        - assert (page_ok q) as Hqok.
          { apply elem_of_app in Hq as [?%list_elem_of_singleton|Hq]; [by subst|].
            by eapply list.Forall_forall in Hps. }
          rewrite page_blocknr in Hq' by done. by apply (N2 q). }
      { simpl in Hlen. lia. }
      rewrite held_one in E, Hfr by done. exists s'. split.
      * rewrite E. do 2 f_equal. rewrite !length_app, length_pages_from. specialize (Hnum Hst). simpl. lia.
      * destruct Hfr as (F1 & F2 & F3 & F4). split_and!; try congruence; try done.
        intros x. rewrite F4, Hf2, Hf1, (elem_of_app (pages_from start num)). simpl. tauto.
Qed.

(** [nova_free_contiguous_log_blocks]. *)
Lemma free_contiguous_spec ps s :
  reads_ok → inv (blocks s) → i_blk_type (sih s) = 0 → linked (mview s) ps 0 → Forall page_ok ps →
  NoDup ps → Forall (λ p, within (p / 4096) 1) ps →
  (∀ p, p ∈ ps → ¬ is_free (blocks s) (p / 4096)) → (length ps <= pages)%nat →
  ∃ s', nova_free_contiguous_log_blocks cfg pages (first ps 0) s = Ok (Z.of_nat (length ps), s') ∧
    freed_all s s' ps.
Proof.
  intros Hrd Hinv Hbt Hl Hp Hnd Hr%runs_ok_within Hnf Hlen. unfold nova_free_contiguous_log_blocks.
  erewrite bind_Ok; [|done]. rewrite Hbt.
  by apply (free_loop_spec pages ps 0 0 0 s).
Qed.
End Laws.
End Proofs.
