(* ===== verification/NovaLogGc.v ===== *)
(** * NOVA: taking dead pages out of a log

    A page whose entries are all invalid is dead.  [nova_inode_log_fast_gc]
    unlinks and frees the dead pages before the tail page, moves the head past
    them, and links the new pages behind the tail ([fast_gc_pages_spec]). *)

From stdpp Require Import base list gmap.
From Stdlib Require Import ZArith Lia.
From coqutil Require Import Byte Word.LittleEndianList.
From S2P Require Import Prelude PMem NovaBase NovaJournal NovaInode NovaLogEntry NovaBalloc.
From S2P Require Import NovaLog NovaLogProofs.

Local Open Scope Z_scope.

Section Gc.
#[local] Set Default Proof Using "Type".
Context `{Crc} `{NocacheCopy} `{CachedWrite} {A : Type} `{LogAlloc A} `{!LogAllocLaws}.
Variable cfg : nova_cfg.
Variable pages : nat.

(** ** The scan *)

Definition dead (m : mem) (p : Z) : Prop := invalid_of m p = entries_of m p.
#[local] Instance dead_dec m p : Decision (dead m p).
Proof using Type. unfold dead. apply _. Defined.
Definition live (m : mem) (ps : list Z) : list Z := filter (λ p, ¬ dead m p) ps.
Definition dead_pages (m : mem) (ps : list Z) : list Z := filter (dead m) ps.

(** The pages [d] the scan went over: the head stays for now. *)
Definition kept (m : mem) (d : list Z) : list Z :=
  match d with [] => [] | h :: d => h :: live m d end.
Definition gone (m : mem) (d : list Z) : list Z :=
  match d with [] => [] | h :: d => dead_pages m d end.

Record scan_of (m : mem) (d : list Z) (g : gc_scan) : Prop := {
  sc_found : found_head g = negb (bool_decide (live m d = []));
  sc_head : live m d ≠ [] → possible_head g = first (live m d) 0;
  sc_last : last_page g = last (kept m d);
  sc_need : first_need_free g = match d with [] => false | h :: _ => bool_decide (dead m h) end;
  sc_checked : checked_pages g = Z.of_nat (length d);
  sc_freed : freed_pages g = Z.of_nat (length (dead_pages m d))
}.

Lemma set_entries_twice h a b c d : set_entries (set_entries h a b) c d = set_entries h c d.
Proof using Type. by destruct h. Qed.

(** Same state but for the counters of entries. *)
Definition same_log (s s' : lstate A) : Prop :=
  inv (blocks s') ∧ mview s' = mview s ∧ (∃ v n, sih s' = set_entries (sih s) v n) ∧
  ∀ x, is_free (blocks s') x ↔ is_free (blocks s) x.

Lemma same_log_refl s : inv (blocks s) → same_log s s.
Proof using Type.
  intros Hinv. split_and!; try done. exists (valid_entries (sih s)), (num_entries (sih s)).
  by destruct (sih s).
Qed.
Lemma same_log_trans s1 s2 s3 : same_log s1 s2 → same_log s2 s3 → same_log s1 s3.
Proof using Type.
  intros (I1 & V1 & (v1 & n1 & S1) & F1) (I2 & V2 & (v2 & n2 & S2) & F2).
  split_and!; [done|congruence| |intros x; by rewrite F2].
  exists v2, n2. by rewrite S2, S1, set_entries_twice.
Qed.
Lemma same_log_machine s : inv (blocks s) → same_log s (LState (with_machine (blocks s) (machine (blocks s))) (sih s)).
Proof.
  intros Hinv. unfold same_log, mview. cbn. rewrite machine_with. split_and!; [by apply inv_with|done| |].
  - exists (valid_entries (sih s)), (num_entries (sih s)). by destruct (sih s).
  - intros x. apply free_with.
Qed.

Lemma on_pm_read {B} (m : M cpu B) s b :
  inv (blocks s) → m (machine (blocks s)) = Ok (b, machine (blocks s)) →
  ∃ s', on_pm m s = Ok (b, s') ∧ same_log s s'.
Proof. intros Hinv E. eexists. split; [by apply on_pm_Ok|]. by apply same_log_machine. Qed.

Lemma page_invalid_spec p s :
  reads_ok cfg → inv (blocks s) → page_ok p →
  ∃ s', curr_page_invalid cfg p s = Ok (bool_decide (dead (mview s) p), s') ∧ same_log s s'.
Proof.
  intros Hrd Hinv Hp. unfold curr_page_invalid. rewrite page_get_block by done.
  destruct (on_pm_read (deref (Some p)) s p Hinv) as (s1 & E1 & L1); [done|].
  erewrite bind_Ok; [|exact E1]. pose proof L1 as (I1 & V1 & _).
  unfold mcsafe_fail. rewrite Hrd. cbn [Z.eqb negb].
  destruct (on_pm_read (fetch 4 (p + pt_num_entries)) s1 (entries_of (mview s1) p) I1) as (s2 & E2 & L2); [done|].
  erewrite bind_Ok; [|exact E2]. pose proof L2 as (I2 & V2 & _).
  destruct (on_pm_read (fetch 4 (p + pt_invalid_entries)) s2 (invalid_of (mview s2) p) I2) as (s3 & E3 & L3); [done|].
  erewrite bind_Ok; [|exact E3]. rewrite V2, V1.
  assert (L : same_log s s3) by (eapply same_log_trans; [exact L1|]; by eapply same_log_trans).
  unfold dead. case_bool_decide as Hd.
  - rewrite Hd, Z.eqb_refl. by exists s3.
  - destruct (Z.eqb_spec (invalid_of (mview s) p) (entries_of (mview s) p)) as [E|_]; [done|].
    erewrite bind_Ok; [|done]. eexists. split; [done|].
    destruct L as (I & V & (v & n & S) & F). split_and!; try done.
    cbn. rewrite S, set_entries_twice. eauto.
Qed.

(** Unlinking the page [p] behind [l]. *)
Lemma free_page_spec p l s :
  inv (blocks s) → i_blk_type (sih s) = 0 → page_ok p → within (p / 4096) 1 →
  ¬ is_free (blocks s) (p / 4096) →
  ∃ s', free_curr_page cfg p (Some l) p s = Ok ((), s') ∧ inv (blocks s') ∧ sih s' = sih s ∧
    mview s' = write_bytes (mview s) (l + pt_next_page) (bytes_of 8 (next_of (mview s) p)) ∧
    ∀ x, is_free (blocks s') x ↔ is_free (blocks s) x ∨ x = p / 4096.
Proof.
  intros Hinv Hbt Hp Hw Hnf. unfold free_curr_page. erewrite bind_Ok; [|done]. rewrite Hbt.
  destruct (set_next_spec cfg l (next_of (mview s) p) true (machine (blocks s))) as (c & E & V).
  erewrite bind_Ok; [|apply on_pm_Ok; erewrite bind_Ok; [|done]; erewrite bind_Ok; [|done]; exact E].
  set (s1 := LState _ _).
  destruct (free_ok (blocks s1) (p / 4096) 1) as (ret & a' & E2 & Hinv' & Hv & Hf); [by apply inv_with|lia|done| |].
  { intros x Hx. replace x with (p / 4096) by lia. cbn. by rewrite free_with. }
  rewrite page_blocknr_eq by done. erewrite bind_Ok; [|apply on_blocks_Ok; exact E2].
  eexists. split; [done|]. unfold mview in *. cbn in *. rewrite machine_with in *.
  split_and!; try done; [by rewrite Hv, V|]. intros x. rewrite Hf, free_with. split; [|intuition lia].
  intros [?|?]; [by left|right; lia].
Qed.

Lemma live_app m d e : live m (d ++ e) = live m d ++ live m e.
Proof using Type. apply filter_app. Qed.
Lemma live_one m p : live m [p] = if decide (dead m p) then [] else [p].
Proof using Type. unfold live. rewrite filter_cons. repeat case_decide; tauto. Qed.
Lemma dead_pages_app m d e : dead_pages m (d ++ e) = dead_pages m d ++ dead_pages m e.
Proof using Type. apply filter_app. Qed.
Lemma dead_pages_one m p : dead_pages m [p] = if decide (dead m p) then [p] else [].
Proof using Type. unfold dead_pages. rewrite filter_cons. repeat case_decide; tauto. Qed.
Lemma kept_snoc m d p : d ≠ [] → kept m (d ++ [p]) = kept m d ++ live m [p].
Proof using Type. destruct d as [|h d]; [done|]. intros _. simpl. by rewrite live_app. Qed.
Lemma gone_snoc m d p : d ≠ [] → gone m (d ++ [p]) = gone m d ++ dead_pages m [p].
Proof using Type. destruct d as [|h d]; [done|]. intros _. simpl. by rewrite dead_pages_app. Qed.
Lemma kept_sub m d p : p ∈ kept m d → p ∈ d.
Proof using Type.
  destruct d as [|h d]; [done|]. simpl. rewrite !elem_of_cons. unfold live.
  rewrite list_elem_of_filter. tauto.
Qed.
Lemma kept_last m d : d ≠ [] → ∃ k l, kept m d = k ++ [l] ∧ last (kept m d) = Some l.
Proof using Type.
  intros Hd. assert (kept m d ≠ []) by (by destruct d).
  destruct (exists_last H4) as (k & l & E). exists k, l. by rewrite E, last_snoc.
Qed.
Lemma first_app ps qs e : ps ≠ [] → first (ps ++ qs) e = first ps e.
Proof using Type. by destruct ps. Qed.

(** The log being scanned: pages [ps] before the tail page, then [tl]. *)
Record gc_log (s0 : lstate A) (ps tl : list Z) : Prop := {
  gl_pages : Forall page_ok (ps ++ tl);
  gl_nodup : NoDup (ps ++ tl);
  gl_within : Forall (λ p, within (p / 4096) 1) ps;
  gl_used : ∀ p, p ∈ ps → ¬ is_free (blocks s0) (p / 4096);
  gl_head : log_head (sih s0) = first (ps ++ tl) 0;
  gl_tail : ∃ tp rest, tl = tp :: rest ∧ log_tail (sih s0) / 4096 = tp / 4096;
  gl_btype : i_blk_type (sih s0) = 0
}.

(** The state of the scan after [d], with [r] left. *)
Record gc_inv (s0 : lstate A) (d r tl : list Z) (g : gc_scan) (s : lstate A) : Prop := {
  gi_scan : scan_of (mview s0) d g;
  gi_inv : inv (blocks s);
  gi_sih : ∃ v n, sih s = set_entries (sih s0) v n;
  gi_linked : linked (mview s) (kept (mview s0) d ++ r ++ tl) 0;
  gi_counts : ∀ p, p ∈ d ++ r ++ tl → entries_of (mview s) p = entries_of (mview s0) p ∧
    invalid_of (mview s) p = invalid_of (mview s0) p;
  gi_free : ∀ x, is_free (blocks s) x ↔ is_free (blocks s0) x ∨ 4096 * x ∈ gone (mview s0) d;
  gi_frame : tails_only (d ++ r ++ tl) (mview s0) (mview s)
}.

Lemma gc_inv_log s0 d r tl g s s' : gc_inv s0 d r tl g s → same_log s s' → gc_inv s0 d r tl g s'.
Proof using Type.
  intros [] (I & V & (v & n & S) & F). split; try done; try (by rewrite V).
  - destruct gi_sih0 as (v0 & n0 & E0). exists v, n. by rewrite S, E0, set_entries_twice.
  - intros x. by rewrite F.
Qed.

(** The scan moves past a live page, or past a dead head. *)
Lemma gc_inv_keep s0 d p r tl g g' s :
  gc_inv s0 d (p :: r) tl g s → (d = [] ∨ ¬ dead (mview s0) p) → scan_of (mview s0) (d ++ [p]) g' →
  gc_inv s0 (d ++ [p]) r tl g' s.
Proof using Type.
  intros [S1 I Sh L C F Fr] Hp Hg. split; try done.
  - destruct Hp as [->|Hp]; [done|]. destruct d as [|h d]; [done|].
    rewrite kept_snoc, live_one, decide_False, <- app_assoc by done. done.
  - intros q Hq. apply C. by rewrite <- app_assoc in Hq.
  - intros x. rewrite F. destruct Hp as [->|Hp]; [done|]. destruct d as [|h d]; [done|].
    rewrite gone_snoc, dead_pages_one, decide_False, app_nil_r by done. done.
  - by rewrite <- app_assoc.
Qed.

(** It takes out a dead page. *)
Lemma gc_inv_drop s0 ps d p r tl g g' l s s' :
  gc_log s0 ps tl → ps = d ++ p :: r →
  gc_inv s0 d (p :: r) tl g s → d ≠ [] → dead (mview s0) p → last (kept (mview s0) d) = Some l →
  scan_of (mview s0) (d ++ [p]) g' →
  inv (blocks s') → sih s' = sih s →
  mview s' = write_bytes (mview s) (l + pt_next_page) (bytes_of 8 (next_of (mview s) p)) →
  (∀ x, is_free (blocks s') x ↔ is_free (blocks s) x ∨ x = p / 4096) →
  gc_inv s0 (d ++ [p]) r tl g' s'.
Proof using Type.
  intros G Eps [S1 I Sh L C F Fr] Hd Hdead Hl Hg Hinv Hsih Hv Hfree.
  destruct (kept_last (mview s0) d Hd) as (k & l' & Ek & El). rewrite Hl in El. injection El as <-.
  assert (Hn : 0 <= next_of (mview s) p < 2 ^ 64) by apply (load_bound 8).
  destruct (set_next_tail l (next_of (mview s) p) (mview s) Hn) as (T1 & T2 & T3 & T4).
  rewrite <- Hv in T1, T2, T3, T4.
  pose proof (gl_pages _ _ _ G) as Hpg. pose proof (gl_nodup _ _ _ G) as Hnd.
  rewrite Eps, <- app_assoc in Hpg, Hnd. simpl in Hpg, Hnd.
  assert (Hld : l ∈ d).
  { apply (kept_sub (mview s0)). rewrite Ek. apply elem_of_app. right. apply list_elem_of_here. }
  assert (Hother : ∀ q, q ∈ d ++ p :: r ++ tl → q ≠ l → agree (tail_of q) (mview s) (mview s')).
  { intros q Hq Hne. rewrite list.Forall_forall in Hpg. apply (tails_only_other [l]); [done| | |].
    - by rewrite list_elem_of_singleton.
    - by apply (Hpg q).
    - apply list.Forall_singleton. apply (Hpg l), elem_of_app. by left. }
  split; try done.
  - by rewrite Hsih.
  - rewrite kept_snoc, live_one, decide_True, app_nil_r by done.
    rewrite Ek, <- app_assoc in L |- *. rewrite linked_app in L |- *. destruct L as [L1 L2].
    simpl in L2. destruct L2 as (L2 & L3 & L4).
    apply NoDup_app in Hnd as (N1 & N2 & N3).
    assert (Hnl : ∀ q, q ∈ p :: r ++ tl → q ≠ l) by (intros q Hq ->; by apply (N2 l)).
    assert (Hkl : ∀ q, q ∈ k → q ≠ l).
    { intros q Hq ->.
      assert (NoDup (kept (mview s0) d)) as Hk.
      { destruct d as [|h d]; [done|]. simpl. apply NoDup_cons in N1 as [? ?]. constructor.
        - unfold live. rewrite list_elem_of_filter. tauto.
        - by apply NoDup_filter. }
      rewrite Ek in Hk. apply NoDup_app in Hk as (_ & Hk & _). apply (Hk l Hq), list_elem_of_here. }
    split; [|split].
    + eapply linked_agree; [|exact L1]. intros x (q & Hq & Hx). apply (Hother q); [|by apply Hkl|done].
      apply elem_of_app. left. apply (kept_sub (mview s0)). rewrite Ek. apply elem_of_app. by left.
    + simpl. by rewrite T1, L3.
    + eapply linked_agree; [|exact L4]. intros x (q & Hq & Hx). apply (Hother q); [| |done].
      * apply elem_of_app. right. by apply list_elem_of_further.
      * apply Hnl. by apply list_elem_of_further.
  - intros q Hq. rewrite <- app_assoc in Hq. destruct (C q Hq) as [C1 C2].
    destruct (decide (q = l)) as [->|Hne]; [by rewrite T2, T3|].
    rewrite <- (entries_agree (mview s)), <- (invalid_agree (mview s)) by (by apply Hother). done.
  - intros x. rewrite Hfree, F, gone_snoc, dead_pages_one, decide_True, elem_of_app, list_elem_of_singleton by done.
    assert (page_ok p) as Hpp.
    { rewrite list.Forall_forall in Hpg. apply (Hpg p), elem_of_app. right. apply list_elem_of_here. }
    pose proof (page_blocknr p Hpp).
    assert (x = p / 4096 ↔ 4096 * x = p) as -> by lia. tauto.
  - rewrite <- app_assoc. eapply tails_only_weaken; [|exact (tails_only_trans _ _ _ _ _ Fr T4)].
    intros q. rewrite elem_of_app, list_elem_of_singleton. intros [?| ->]; [done|]. apply elem_of_app. by left.
Qed.

Lemma same_page_eq x y : same_page x y = bool_decide (x / 4096 = y / 4096).
Proof using Type.
  unfold same_page, PAGE_SHIFT. rewrite !Z.shiftr_div_pow2 by lia. change (2 ^ 12) with 4096.
  case_bool_decide; [by apply Z.eqb_eq|by apply Z.eqb_neq].
Qed.

Lemma page_inj p q : page_ok p → page_ok q → p / 4096 = q / 4096 → p = q.
Proof using Type. intros Hp Hq E. rewrite <- (page_blocknr p), <- (page_blocknr q), E by done. done. Qed.

(** How one round changes the locals: the page is live, the dead head, or
    another dead page. *)
Definition after_live (g : gc_scan) (p ac : Z) (ap : option Z) : gc_scan :=
  if found_head g
  then GcScan (possible_head g) (alter_possible_head g) true (Some p) ap
         (first_need_free g) (checked_pages g + 1) (freed_pages g)
  else GcScan p ac true (Some p) ap (first_need_free g) (checked_pages g + 1) (freed_pages g).
Definition after_head (g : gc_scan) (p : Z) (ap : option Z) : gc_scan :=
  GcScan (possible_head g) (alter_possible_head g) (found_head g) (Some p) ap true
    (checked_pages g + 1) (freed_pages g + 1).
Definition after_dead (g : gc_scan) : gc_scan :=
  GcScan (possible_head g) (alter_possible_head g) (found_head g) (last_page g) (alter_last_page g)
    (first_need_free g) (checked_pages g + 1) (freed_pages g + 1).

Lemma length_snoc {X} (d : list X) x : Z.of_nat (length (d ++ [x])) = Z.of_nat (length d) + 1.
Proof using Type. rewrite length_app. simpl. lia. Qed.

Lemma scan_live m d g p ac ap : scan_of m d g → ¬ dead m p → scan_of m (d ++ [p]) (after_live g p ac ap).
Proof using Type.
  intros [S1 S2 S3 S4 S5 S6] Hp. unfold after_live.
  assert (El : live m (d ++ [p]) = live m d ++ [p]) by (by rewrite live_app, live_one, decide_False).
  assert (Ed : dead_pages m (d ++ [p]) = dead_pages m d).
  { by rewrite dead_pages_app, dead_pages_one, decide_False, app_nil_r. }
  assert (Ek : last (kept m (d ++ [p])) = Some p).
  { destruct d as [|h d]; [done|]. rewrite kept_snoc, live_one, decide_False by done. by rewrite last_snoc. }
  assert (En : first_need_free g = match d ++ [p] with [] => false | h :: _ => bool_decide (dead m h) end).
  { rewrite S4. destruct d as [|h d]; [|done]. simpl. by rewrite bool_decide_eq_false_2. }
  case_bool_decide as Hl; simpl in S1; rewrite S1; split; simpl; rewrite ?El, ?Ed, ?length_snoc; try done; try lia.
  - by rewrite bool_decide_eq_false_2 by (by destruct (live m d)).
  - by rewrite Hl.
  - by rewrite bool_decide_eq_false_2 by (by destruct (live m d)).
  - intros _. rewrite first_app by done. by apply S2.
Qed.

Lemma scan_head m g p ap : scan_of m [] g → dead m p → scan_of m [p] (after_head g p ap).
Proof using Type.
  intros [S1 S2 S3 S4 S5 S6] Hp. simpl in *.
  split; unfold after_head; simpl; rewrite ?live_one, ?dead_pages_one, ?decide_True by done; try done.
  - by rewrite bool_decide_eq_true_2.
  - by rewrite S5.
  - by rewrite S6.
Qed.

Lemma scan_dead m d g p : scan_of m d g → d ≠ [] → dead m p → scan_of m (d ++ [p]) (after_dead g).
Proof using Type.
  intros [S1 S2 S3 S4 S5 S6] Hd Hp.
  assert (El : live m (d ++ [p]) = live m d) by (by rewrite live_app, live_one, decide_True, app_nil_r).
  assert (Ed : dead_pages m (d ++ [p]) = dead_pages m d ++ [p]).
  { by rewrite dead_pages_app, dead_pages_one, decide_True. }
  split; unfold after_dead; simpl; rewrite ?El, ?Ed, ?length_snoc; try done; try lia.
  - rewrite kept_snoc, live_one, decide_True, app_nil_r by done. done.
  - rewrite S4. by destruct d.
Qed.

Section Scan.
Context (s0 : lstate A) (tl : list Z).
Hypothesis Hcs : metadata_csum cfg = false.
Hypothesis Hrd : reads_ok cfg.

Lemma fast_gc_step fuel d p r g s ac :
  gc_log s0 (d ++ p :: r) tl → gc_inv s0 d (p :: r) tl g s →
  ∃ g' s', fast_gc_loop cfg (S fuel) p ac g s = fast_gc_loop cfg fuel (first (r ++ tl) 0) 0 g' s' ∧
    gc_inv s0 (d ++ [p]) r tl g' s'.
Proof using All.
  intros G I. pose proof (gl_pages _ _ _ G) as Hpg. pose proof (gl_nodup _ _ _ G) as Hnd.
  rewrite list.Forall_forall in Hpg.
  assert (Hpin : p ∈ (d ++ p :: r) ++ tl).
  { apply elem_of_app. left. apply elem_of_app. right. apply list_elem_of_here. }
  pose proof (Hpg p Hpin) as Hp. destruct (gi_sih _ _ _ _ _ _ I) as (v & n & Esih).
  assert (Ehead : log_head (sih s) = first ((d ++ p :: r) ++ tl) 0).
  { rewrite Esih, <- (gl_head _ _ _ G). by destruct (sih s0). }
  assert (Etail : log_tail (sih s) = log_tail (sih s0)) by (rewrite Esih; by destruct (sih s0)).
  assert (Ebt : i_blk_type (sih s) = 0).
  { rewrite Esih, <- (gl_btype _ _ _ G). by destruct (sih s0). }
  destruct (gl_tail _ _ _ G) as (tp & rest & Etl & Htp).
  assert (Hne : p ≠ tp).
  { intros ->. apply NoDup_app in Hnd as (_ & Hnd & _). apply (Hnd tp).
    - apply elem_of_app. right. apply list_elem_of_here.
    - rewrite Etl. apply list_elem_of_here. }
  assert (Hsame : same_page p (log_tail (sih s)) = false).
  { rewrite same_page_eq, Etail, Htp. apply bool_decide_eq_false_2. intros E.
    apply Hne, page_inj; [done| |done]. apply Hpg. rewrite Etl. apply elem_of_app. right. apply list_elem_of_here. }
  assert (Hnx : next_of (mview s) p = first (r ++ tl) 0).
  { pose proof (gi_linked _ _ _ _ _ _ I) as L. rewrite linked_app in L. by destruct L as (_ & L & _). }
  assert (Hnz : first (r ++ tl) 0 ≠ 0).
  { assert (first (r ++ tl) 0 ∈ (d ++ p :: r) ++ tl) as Hin.
    { rewrite <- app_assoc. apply elem_of_app. right. simpl. apply list_elem_of_further.
      rewrite Etl. destruct r; apply list_elem_of_here. }
    apply Hpg in Hin as [? _]. lia. }
  cbn [fast_gc_loop]. erewrite bind_Ok; [|done]. rewrite Hsame, (page_get_block p Hp).
  destruct (on_pm_read (deref (Some p)) s p (gi_inv _ _ _ _ _ _ I)) as (s1 & E1 & L1); [done|].
  erewrite bind_Ok; [|exact E1]. pose proof L1 as (I1 & V1 & _).
  destruct (on_pm_read (next_log_page cfg p) s1 (next_of (mview s1) p) I1) as (s2 & E2 & L2);
    [by apply next_log_page_eq|].
  erewrite bind_Ok; [|exact E2]. rewrite V1, Hnx. pose proof L2 as (I2 & V2 & _). rewrite Hcs.
  erewrite bind_Ok; [|done].
  destruct (page_invalid_spec p s2 Hrd I2 Hp) as (s3 & E3 & L3). erewrite bind_Ok; [|exact E3].
  assert (Lall : same_log s s3) by (eapply same_log_trans; [exact L1|]; by eapply same_log_trans).
  pose proof (gc_inv_log _ _ _ _ _ _ _ I Lall) as I3. destruct Lall as (_ & V3 & (v3 & n3 & S3) & _).
  assert (Edead : bool_decide (dead (mview s2) p) = bool_decide (dead (mview s0) p)).
  { apply bool_decide_ext. unfold dead. destruct (gi_counts _ _ _ _ _ _ I p) as [C1 C2].
    { apply elem_of_app. right. apply list_elem_of_here. }
    by rewrite V2, V1, C1, C2. }
  rewrite Edead. clear Edead E3. destruct (Z.eqb_spec (first (r ++ tl) 0) 0) as [|_]; [done|]. cbn [andb orb].
  pose proof (gi_scan _ _ _ _ _ _ I) as Hscan.
  case_bool_decide as Hdead.
  - destruct d as [|h d].
    + (* the dead head *)
      rewrite Ehead. cbn [first app]. rewrite Z.eqb_refl. erewrite bind_Ok; [|done].
      exists (after_head g p None), s3. split; [done|].
      apply (gc_inv_keep s0 [] p r tl g); [done|by left|]. by apply scan_head.
    + (* another dead page *)
      rewrite Ehead. cbn [first app]. destruct (Z.eqb_spec p h) as [->|_].
      { apply NoDup_app in Hnd as (Hnd & _ & _). simpl in Hnd. apply NoDup_cons in Hnd as [Hnd _].
        destruct Hnd. apply elem_of_app. right. apply list_elem_of_here. }
      destruct (kept_last (mview s0) (h :: d)) as (k & l & Ek & El); [done|].
      rewrite (sc_last _ _ _ Hscan), El.
      destruct (free_page_spec p l s3) as (s4 & E4 & I4 & Sh4 & V4 & F4).
      { by apply (gi_inv _ _ _ _ _ _ I3). }
      { rewrite S3. by destruct (sih s). }
      { done. }
      { pose proof (gl_within _ _ _ G) as Hw. rewrite list.Forall_forall in Hw. apply Hw.
        apply elem_of_app. right. apply list_elem_of_here. }
      { rewrite (gi_free _ _ _ _ _ _ I3), page_blocknr by done. intros [Hf|Hf].
        - apply (gl_used _ _ _ G p); [|done]. apply elem_of_app. right. apply list_elem_of_here.
        - simpl in Hf. unfold dead_pages in Hf. apply list_elem_of_filter in Hf as [_ Hf].
          apply NoDup_app in Hnd as (Hnd & _ & _). apply NoDup_app in Hnd as (_ & Hnd & _).
          apply (Hnd p); [by apply list_elem_of_further|apply list_elem_of_here]. }
      rewrite bind_assoc. erewrite bind_Ok; [|exact E4]. erewrite bind_Ok; [|done].
      exists (after_dead g), s4. split; [unfold after_dead; cbn; by rewrite (sc_last _ _ _ Hscan), El|].
      apply (gc_inv_drop s0 ((h :: d) ++ p :: r) (h :: d) p r tl g (after_dead g) l s3 s4); try done. by apply scan_dead.
  - (* a live page *)
    exists (after_live g p ac None), s3. split.
    + erewrite bind_Ok; [|done]. unfold after_live. by destruct (found_head g).
    + apply (gc_inv_keep s0 d p r tl g); [done|by right|]. by apply scan_live.
Qed.

Lemma fast_gc_loop_spec fuel : ∀ d r g s ac,
  gc_log s0 (d ++ r) tl → gc_inv s0 d r tl g s → (length r < fuel)%nat →
  ∃ g' s', fast_gc_loop cfg fuel (first (r ++ tl) 0) ac g s = Ok (g', s') ∧
    (∃ g2, gc_inv s0 (d ++ r) [] tl g2 s' ∧ first_need_free g' = first_need_free g2 ∧
       checked_pages g' = checked_pages g2 ∧ freed_pages g' = freed_pages g2) ∧
    possible_head g' = first (live (mview s0) (d ++ r) ++ tl) 0.
Proof using All.
  induction fuel as [|fuel IH]; intros d r g s ac G I Hf; [lia|].
  destruct r as [|p r].
  - destruct (gl_tail _ _ _ G) as (tp & rest & -> & Htp). rewrite app_nil_r in *.
    destruct (gi_sih _ _ _ _ _ _ I) as (v & n & Esih). cbn [fast_gc_loop first app].
    erewrite bind_Ok; [|done].
    assert (same_page tp (log_tail (sih s)) = true) as ->.
    { rewrite same_page_eq. apply bool_decide_eq_true_2. rewrite Esih, <- Htp. by destruct (sih s0). }
    eexists _, s. split; [done|]. pose proof (gi_scan _ _ _ _ _ _ I) as [S1 S2 _ _ _ _].
    split; [exists g; by destruct (found_head g)|].
    rewrite S1. case_bool_decide as El; [by rewrite El|]. cbn [negb].
    rewrite first_app by done. by apply S2.
  - destruct (fast_gc_step fuel d p r g s ac G I) as (g1 & s1 & E1 & I1).
    cbn [first app]. rewrite E1.
    destruct (IH (d ++ [p]) r g1 s1 0) as (g' & s' & E' & Hg & Hh); rewrite <- ?app_assoc; try done.
    { simpl in Hf. lia. }
    exists g', s'. by rewrite <- app_assoc in Hg, Hh.
Qed.

(** ** The whole collection *)

Lemma kept_live ps :
  kept (mview s0) ps = match ps with
                       | h :: _ => if decide (dead (mview s0) h) then h :: live (mview s0) ps else live (mview s0) ps
                       | [] => [] end.
Proof using Type.
  destruct ps as [|h ps]; [done|]. simpl. unfold live. rewrite filter_cons.
  repeat case_decide; tauto.
Qed.
Lemma dead_gone ps :
  dead_pages (mview s0) ps = match ps with
                       | h :: _ => if decide (dead (mview s0) h) then h :: gone (mview s0) ps else gone (mview s0) ps
                       | [] => [] end.
Proof using Type.
  destruct ps as [|h ps]; [done|]. simpl. unfold dead_pages. rewrite filter_cons.
  repeat case_decide; tauto.
Qed.
Lemma linked_kept m ps qs e :
  linked m (kept (mview s0) ps ++ qs) e → linked m (live (mview s0) ps ++ qs) e.
Proof using Type.
  rewrite kept_live. destruct ps as [|h ps]; [done|]. case_decide; [|done]. by intros [_ ?].
Qed.
Lemma live_sub ps p : p ∈ live (mview s0) ps → p ∈ ps.
Proof using Type. unfold live. rewrite list_elem_of_filter. tauto. Qed.

(** Linking a chain behind the last page. *)
Lemma link_new_pages_spec ct ks lp new s :
  inv (blocks s) → linked (mview s) (ks ++ [lp]) 0 → linked (mview s) new 0 →
  NoDup (ks ++ [lp] ++ new) → Forall page_ok (ks ++ [lp] ++ new) → BLOCK_OFF ct = lp →
  ∃ s', link_new_pages cfg pages ct (first new 0) 0 (Z.of_nat (length new)) s = Ok ((), s') ∧
    inv (blocks s') ∧ sih s' = sih s ∧ linked (mview s') (ks ++ [lp] ++ new) 0 ∧
    tails_only [lp] (mview s) (mview s') ∧
    entries_of (mview s') lp = entries_of (mview s) lp ∧ invalid_of (mview s') lp = invalid_of (mview s) lp ∧
    ∀ x, is_free (blocks s') x ↔ is_free (blocks s) x.
Proof using Hcs.
  intros Hinv Hl Hln Hnd Hpg Hct. unfold link_new_pages.
  destruct new as [|n new].
  { exists s. split_and!; try done. }
  destruct (Z.gtb_spec (Z.of_nat (length (n :: new))) 0) as [_|]; [|simpl in *; lia].
  rewrite list.Forall_app in Hpg. destruct Hpg as [P1 [P2 P3]%Forall_cons_1].
  rewrite Hct, (page_get_block lp P2), Hcs.
  destruct (set_next_spec cfg lp n true (machine (blocks s))) as (c & E & V).
  assert (Hn : 0 <= n < 2 ^ 64) by (apply Forall_cons_1 in P3 as [[? _] _]; lia).
  erewrite bind_Ok; [|apply on_pm_Ok; erewrite bind_Ok; [|done]; exact E].
  eexists. split; [done|]. destruct (set_next_tail lp n (mview s) Hn) as (T1 & T2 & T3 & T4).
  unfold mview in *. cbn [blocks sih]. rewrite machine_with, V.
  split_and!; try done; [by apply inv_with| |by intros; apply free_with].
  apply NoDup_app in Hnd as (N1 & N2 & N3). apply NoDup_app in N3 as (_ & N3 & _).
  assert (Hother : ∀ q, q ≠ lp → q mod 4096 = 0 →
    agree (tail_of q) (view (machine (blocks s))) (write_bytes (view (machine (blocks s))) (lp + pt_next_page) (bytes_of 8 n))).
  { intros q Hq Hm. apply (tails_only_other [lp]); [done|by rewrite list_elem_of_singleton|done|].
    apply list.Forall_singleton. by apply P2. }
  rewrite list.Forall_forall in P1, P3.
  rewrite linked_app in Hl |- *. destruct Hl as [Hl _]. split.
  - eapply linked_agree; [|exact Hl]. intros x (q & Hq & Hx). apply (Hother q); [|by apply P1|done].
    intros ->. apply (N2 lp Hq), list_elem_of_here.
  - split; [exact T1|]. eapply linked_agree; [|exact Hln]. intros x (q & Hq & Hx).
    apply (Hother q); [|by apply P3|done]. intros ->. by apply (N3 lp); [apply list_elem_of_here|].
Qed.

Lemma kept_sublist m d : kept m d `sublist_of` d.
Proof using Type. destruct d as [|h d]; [done|]. apply sublist_skip, sublist_filter. Qed.

Lemma length_live_dead m ps : length ps = (length (live m ps) + length (dead_pages m ps))%nat.
Proof using Type.
  unfold live, dead_pages. induction ps as [|p ps IH]; [done|]. rewrite !filter_cons.
  destruct (decide (dead m p)); [rewrite decide_False by tauto|rewrite decide_True by done]; simpl; lia.
Qed.
Lemma first_page_bound ps : Forall page_ok ps → 0 <= first ps 0 < 2 ^ 64.
Proof using Type. intros Hp. destruct Hp as [|p ps [? _] _]; simpl; lia. Qed.

(** The inode's record [pi] and its new heads. *)
Lemma store_heads_spec pi hd ahd (rest : M cpu ()) s :
  rest = mret () →
  ∃ s', (store 8 (pi + pi_log_head) hd;; store 8 (pi + pi_alter_log_head) ahd;;
         nova_update_inode_checksum cfg pi;; rest) s = Ok ((), s') ∧
    view s' = write_bytes (write_bytes (view s) (pi + pi_log_head) (bytes_of 8 hd))
                (pi + pi_alter_log_head) (bytes_of 8 ahd).
Proof using Hcs.
  intros ->. run_step (store_eq 8 (pi + pi_log_head) hd s). set (s1 := log_state s _).
  run_step (store_eq 8 (pi + pi_alter_log_head) ahd s1). set (s2 := log_state s1 _).
  erewrite bind_Ok; [|by apply nova_update_inode_checksum_eq]. eexists. split; [done|].
  cbn. apply apply_events_no_store, Forall_app. split; [apply is_flush_no_store, flush_events_flushes|].
  repeat constructor.
Qed.

Lemma gc_inv_start ps s :
  gc_log s0 ps tl → linked (mview s0) (ps ++ tl) 0 → same_log s0 s → gc_inv s0 [] ps tl scan0 s.
Proof using Type.
  intros G L (I & V & Sh & F). split; try done; try (by rewrite V).
  - intros x. rewrite F. simpl. rewrite elem_of_nil. tauto.
Qed.

(** What [nova_inode_log_fast_gc] does before it estimates: [s'] against [s0]. *)
Record gc_done (ps new : list Z) (pi : Z) (s' : lstate A) : Prop := {
  gd_inv : inv (blocks s');
  gd_linked : linked (mview s') (live (mview s0) ps ++ tl ++ new) 0;
  gd_counts : ∀ p, p ∈ live (mview s0) ps ++ tl ++ new →
    entries_of (mview s') p = entries_of (mview s0) p ∧ invalid_of (mview s') p = invalid_of (mview s0) p;
  gd_head : log_head (sih s') = first (live (mview s0) ps ++ tl) 0;
  gd_pi : load 8 (mview s') (pi + pi_log_head) = log_head (sih s');
  gd_tail : log_tail (sih s') = log_tail (sih s0);
  gd_btype : i_blk_type (sih s') = i_blk_type (sih s0);
  gd_pages : log_pages (sih s') =
    u64 (log_pages (sih s0) + (Z.of_nat (length new) - Z.of_nat (length (dead_pages (mview s0) ps))));
  gd_free : ∀ x, is_free (blocks s') x ↔ is_free (blocks s0) x ∨ 4096 * x ∈ dead_pages (mview s0) ps;
  gd_frame : agree (λ x, ¬ tails (ps ++ tl ++ new) x ∧ ¬ in_range pi 120 x) (mview s0) (mview s')
}.

(** The scan and the new pages linked. *)
Lemma scan_and_link ps tl' lp new ct s :
  tl = tl' ++ [lp] → BLOCK_OFF ct = lp → gc_log s0 ps tl → linked (mview s0) (ps ++ tl) 0 →
  linked (mview s0) new 0 → Forall page_ok new → NoDup (ps ++ tl ++ new) →
  same_log s0 s → (length ps <= pages)%nat →
  ∃ g s1 s2, fast_gc_loop cfg (S pages) (first (ps ++ tl) 0) (alter_log_head (sih s)) scan0 s = Ok (g, s1) ∧
    link_new_pages cfg pages ct (first new 0) 0 (Z.of_nat (length new)) s1 = Ok ((), s2) ∧
    possible_head g = first (live (mview s0) ps ++ tl) 0 ∧
    first_need_free g = match ps with [] => false | h :: _ => bool_decide (dead (mview s0) h) end ∧
    checked_pages g = Z.of_nat (length ps) ∧ freed_pages g = Z.of_nat (length (dead_pages (mview s0) ps)) ∧
    inv (blocks s2) ∧ (∃ v n, sih s2 = set_entries (sih s0) v n) ∧
    linked (mview s2) (kept (mview s0) ps ++ tl ++ new) 0 ∧
    (∀ p, p ∈ ps ++ tl ++ new → entries_of (mview s2) p = entries_of (mview s0) p ∧
       invalid_of (mview s2) p = invalid_of (mview s0) p) ∧
    (∀ x, is_free (blocks s2) x ↔ is_free (blocks s0) x ∨ 4096 * x ∈ gone (mview s0) ps) ∧
    tails_only (ps ++ tl) (mview s0) (mview s2).
Proof using All.
  intros Etl Hct G L Ln Pn Hnd Hsame Hlen.
  destruct (fast_gc_loop_spec (S pages) [] ps scan0 s (alter_log_head (sih s))) as
    (g & s1 & E1 & (g2 & [S1 I1 Sh1 L1 C1 F1 Fr1] & G1 & G2 & G3) & Hhd); [done|by apply gc_inv_start|lia|].
  cbn [app] in *.
  pose proof (gl_pages _ _ _ G) as Hpg.
  assert (Hmod : ∀ p, p ∈ ps ++ tl ++ new → p mod 4096 = 0).
  { intros p. rewrite app_assoc, elem_of_app. rewrite list.Forall_forall in Hpg, Pn.
    intros [Hp|Hp]; [by apply (Hpg p)|by apply (Pn p)]. }
  assert (Hlog : Forall (λ q, q mod 4096 = 0) (ps ++ tl)).
  { apply list.Forall_forall. intros p Hp. apply Hmod. rewrite app_assoc. apply elem_of_app. by left. }
  assert (Hnew : ∀ p, p ∈ new → agree (tail_of p) (mview s0) (mview s1)).
  { intros p Hp. eapply tails_only_other; [exact Fr1| | |exact Hlog].
    - rewrite app_assoc in Hnd. apply NoDup_app in Hnd as (_ & Hnd & _). intros Hin. by apply (Hnd p).
    - apply Hmod. rewrite !elem_of_app. tauto. }
  destruct (link_new_pages_spec ct (kept (mview s0) ps ++ tl') lp new s1)
    as (s2 & E2 & I2 & Sh2 & L2 & Fr2 & C2 & C2' & F2); try done.
  { by rewrite <- app_assoc, <- Etl. }
  { eapply linked_agree; [|exact Ln]. intros x (p & Hp & Hx). by apply (Hnew p). }
  { rewrite <- app_assoc, (app_assoc tl'), <- Etl. eapply sublist_NoDup; [exact Hnd|].
    apply sublist_app; [apply kept_sublist|done]. }
  { rewrite <- app_assoc, (app_assoc tl'), <- Etl, app_assoc. apply list.Forall_app. split; [|done].
    apply list.Forall_forall. intros q Hq. rewrite list.Forall_forall in Hpg. apply Hpg.
    rewrite elem_of_app in Hq |- *. destruct Hq as [Hq%kept_sub|?]; tauto. }
  exists g, s1, s2. rewrite <- app_assoc, (app_assoc tl'), <- Etl in L2.
  pose proof S1 as [_ _ _ S4 S5 S6]. 
  split_and!; try congruence; try done.
  - rewrite Sh2. done.
  - intros p Hp.
    assert (entries_of (mview s1) p = entries_of (mview s0) p ∧ invalid_of (mview s1) p = invalid_of (mview s0) p)
      as [D1 D2].
    { rewrite app_assoc, elem_of_app in Hp. destruct Hp as [Hp|Hp].
      - by apply (C1 p).
      - rewrite <- (entries_agree (mview s0)), <- (invalid_agree (mview s0)) by (by apply Hnew). done. }
    destruct (decide (p = lp)) as [->|Hne]; [by rewrite C2, C2'|].
    assert (agree (tail_of p) (mview s1) (mview s2)) as Ha.
    { apply (tails_only_other [lp]); [done|by rewrite list_elem_of_singleton|by apply Hmod|].
      apply list.Forall_singleton, Hmod. rewrite Etl, !elem_of_app, list_elem_of_singleton. tauto. }
    rewrite <- (entries_agree (mview s1)), <- (invalid_agree (mview s1)) by done. done.
  - intros x. by rewrite F2, F1.
  - eapply tails_only_weaken; [|exact (tails_only_trans _ _ _ _ _ Fr1 Fr2)].
    intros q. rewrite Etl, !elem_of_app. tauto.
Qed.

(** The heads written, only freed blocks remain to be accounted for. *)
Lemma gc_done_intro ps new pi v n hd ahd s2 s :
  linked (mview s2) (kept (mview s0) ps ++ tl ++ new) 0 →
  (∀ p, p ∈ ps ++ tl ++ new → entries_of (mview s2) p = entries_of (mview s0) p ∧
     invalid_of (mview s2) p = invalid_of (mview s0) p) →
  tails_only (ps ++ tl) (mview s0) (mview s2) →
  (∀ x, in_range pi 120 x → ¬ tails (ps ++ tl ++ new) x) →
  hd = first (live (mview s0) ps ++ tl) 0 → 0 <= hd < 2 ^ 64 →
  inv (blocks s) →
  mview s = write_bytes (write_bytes (mview s2) (pi + pi_log_head) (bytes_of 8 hd))
              (pi + pi_alter_log_head) (bytes_of 8 ahd) →
  sih s = set_log_pages (set_alter (set_main (set_entries (sih s0) v n) hd (log_tail (sih s0))) ahd (alter_log_tail (sih s0)))
    (u64 (log_pages (sih s0) + (Z.of_nat (length new) - Z.of_nat (length (dead_pages (mview s0) ps))))) →
  (∀ x, is_free (blocks s) x ↔ is_free (blocks s0) x ∨ 4096 * x ∈ dead_pages (mview s0) ps) →
  gc_done ps new pi s.
Proof using Type.
  intros L C Fr Hpi Ehd Hhd I V Sh F.
  assert (Hin : ∀ x, ¬ in_range pi 120 x → mview s !!! x = mview s2 !!! x).
  { intros x Hx. rewrite V, !write_bytes_out; [done| |]; rewrite length_bytes_of; intros Hr; apply Hx;
      unfold in_range, pi_log_head, pi_alter_log_head in *; lia. }
  assert (Htails : ∀ ps', ps' ⊆ ps ++ tl ++ new → agree (tails ps') (mview s2) (mview s)).
  { intros ps' Hsub x (p & Hp & Hx). symmetry. apply Hin. intros Hr. apply (Hpi x Hr).
    exists p. split; [by apply Hsub|done]. }
  assert (Hkl : live (mview s0) ps ++ tl ++ new ⊆ ps ++ tl ++ new).
  { intros p. rewrite !(elem_of_app _ (tl ++ new)). intros [?%live_sub|?]; tauto. }
  split; try done.
  - eapply linked_agree; [|by apply linked_kept]. by apply Htails.
  - intros p Hp%Hkl. destruct (C p Hp) as [<- <-].
    assert (agree (tail_of p) (mview s2) (mview s)) as Ha.
    { intros x Hx. apply (Htails [p]); [by intros q ->%list_elem_of_singleton|].
      exists p. split; [apply list_elem_of_here|done]. }
    by rewrite (entries_agree _ _ _ Ha), (invalid_agree _ _ _ Ha).
  - rewrite Sh, <- Ehd. by destruct (sih s0).
  - rewrite V, Sh, load_write_disjoint, load_write_same.
    + rewrite Z.mod_small by done. by destruct (sih s0).
    + rewrite length_bytes_of. unfold disjoint_ranges, pi_log_head, pi_alter_log_head. lia.
  - rewrite Sh. by destruct (sih s0).
  - rewrite Sh. by destruct (sih s0).
  - rewrite Sh. by destruct (sih s0).
  - intros x [Ht Hr]. rewrite (Hin x Hr). apply Fr. intros (p & Hp & Hx). apply Ht.
    exists p. split; [rewrite app_assoc; apply elem_of_app; by left|done].
Qed.

(** The dead head goes last. *)
Lemma free_head_spec ps (b : bool) head s :
  gc_log s0 ps tl → head = first (ps ++ tl) 0 →
  b = match ps with [] => false | h :: _ => bool_decide (dead (mview s0) h) end →
  inv (blocks s) → i_blk_type (sih s) = 0 →
  (∀ x, is_free (blocks s) x ↔ is_free (blocks s0) x ∨ 4096 * x ∈ gone (mview s0) ps) →
  ∃ s', (if b then
           btype ← gets (λ s, i_blk_type (NovaLog.sih s));
           on_blocks (free_log_blocks btype (nova_get_blocknr head) 1);;
           mret ()
         else mret ()) s = Ok ((), s') ∧ inv (blocks s') ∧ mview s' = mview s ∧ sih s' = sih s ∧
    ∀ x, is_free (blocks s') x ↔ is_free (blocks s0) x ∨ 4096 * x ∈ dead_pages (mview s0) ps.
Proof using Type.
  intros G -> -> I Hbt F. pose proof (dead_gone ps) as Ed. destruct ps as [|h ps].
  { exists s. by split_and!. }
  destruct (decide (dead (mview s0) h)) as [Hd|Hd].
  2:{ rewrite bool_decide_eq_false_2 by done. exists s. split_and!; try done. intros x. by rewrite Ed, F. }
  rewrite bool_decide_eq_true_2 by done. erewrite bind_Ok; [|done]. rewrite Hbt. cbn [first app].
  pose proof (gl_pages _ _ _ G) as Hpg. apply Forall_cons_1 in Hpg as [Hh _].
  rewrite page_blocknr_eq by done.
  destruct (free_ok (blocks s) (h / 4096) 1 I) as (ret & a' & E & I' & V' & F'); [done| | |].
  { pose proof (gl_within _ _ _ G) as Hw. by apply Forall_cons_1 in Hw as [? _]. }
  { intros x Hx. replace x with (h / 4096) by lia. rewrite F, page_blocknr by done. intros [Hf|Hf].
    - by apply (gl_used _ _ _ G h); [apply list_elem_of_here|].
    - pose proof (gl_nodup _ _ _ G) as Hnd. simpl in *. apply NoDup_cons in Hnd as [Hnd _].
      unfold dead_pages in Hf. apply list_elem_of_filter in Hf as [_ Hf]. apply Hnd, elem_of_app. by left. }
  erewrite bind_Ok; [|apply on_blocks_Ok; exact E]. eexists. split; [done|]. cbn [blocks sih].
  split_and!; try done. intros x. rewrite F', F, Ed, elem_of_cons.
  pose proof (page_blocknr h Hh). assert (h / 4096 <= x < h / 4096 + 1 ↔ 4096 * x = h) as -> by lia. tauto.
Qed.

(** [fast_gc_pages]. *)
Lemma fast_gc_pages_spec ps tl' lp new pi ct :
  tl = tl' ++ [lp] → BLOCK_OFF ct = lp → inv (blocks s0) → gc_log s0 ps tl →
  linked (mview s0) (ps ++ tl) 0 → linked (mview s0) new 0 → Forall page_ok new →
  NoDup (ps ++ tl ++ new) → (length ps <= pages)%nat → Z.of_nat (length ps) < 2 ^ 64 →
  (∀ x, in_range pi 120 x → ¬ tails (ps ++ tl ++ new) x) →
  ∃ s', fast_gc_pages cfg pages pi ct (first new 0) 0 (Z.of_nat (length new)) s0 =
      Ok (Z.of_nat (length (live (mview s0) ps)), s') ∧ gc_done ps new pi s'.
Proof using All.
  intros Etl Hct Hinv G L Ln Pn Hnd Hlen Hlen' Hpi. unfold fast_gc_pages, put_sih.
  erewrite bind_Ok; [|done]. set (s := LState _ _). erewrite bind_Ok; [|done].
  assert (Hs : same_log s0 s).
  { split_and!; try done. exists 0, 0. done. }
  assert (Ehd : log_head (sih s) = first (ps ++ tl) 0).
  { rewrite <- (gl_head _ _ _ G). unfold s. cbn. by destruct (sih s0). }
  rewrite Ehd.
  destruct (scan_and_link ps tl' lp new ct s) as (g & s1 & s2 & E1 & E2 & G1 & G2 & G3 & G4 & I2 & (v & n & Sh2) & L2 & C2 & F2 & Fr2); try done.
  erewrite bind_Ok; [|exact E1]. erewrite bind_Ok; [|exact E2]. erewrite bind_Ok; [|done].
  rewrite Hcs. cbn [andb].
  destruct (store_heads_spec pi (possible_head g) (alter_possible_head g) (mret ()) (machine (blocks s2)))
    as (c & E3 & V3); [done|].
  erewrite bind_Ok; [|apply on_pm_Ok; exact E3]. 
  erewrite bind_Ok; [|done]. erewrite bind_Ok; [|done].
  destruct (flush_view cfg (pi + pi_log_head) CACHELINE_SIZE true c) as (c' & E4 & V4); [unfold CACHELINE_SIZE; lia|].
  erewrite bind_Ok; [|apply on_pm_Ok; cbn [blocks]; rewrite machine_with; exact E4].
  set (s5 := LState _ _).
  assert (V5 : mview s5 = write_bytes (write_bytes (mview s2) (pi + pi_log_head) (bytes_of 8 (possible_head g)))
              (pi + pi_alter_log_head) (bytes_of 8 (alter_possible_head g))).
  { unfold mview, s5. cbn. by rewrite machine_with, V4. }
  assert (I5 : inv (blocks s5)) by (by unfold s5; do 2 apply inv_with).
  assert (F5 : ∀ x, is_free (blocks s5) x ↔ is_free (blocks s2) x).
  { intros x. unfold s5. cbn. by rewrite !free_with. }
  assert (Sh5 : sih s5 = set_log_pages (set_alter (set_main (set_entries (sih s0) v n) (possible_head g)
      (log_tail (sih s0))) (alter_possible_head g) (alter_log_tail (sih s0)))
    (u64 (log_pages (sih s0) + (Z.of_nat (length new) - Z.of_nat (length (dead_pages (mview s0) ps)))))).
  { unfold s5. cbn. rewrite Sh2, G4, Z.mul_1_r. by destruct (sih s0). }
  clearbody s5.
  destruct (free_head_spec ps (first_need_free g) (log_head (sih s2)) s5) as (s6 & E6 & I6 & V6 & Sh6 & F6); try done.
  { rewrite Sh2, <- (gl_head _ _ _ G). by destruct (sih s0). }
  { rewrite Sh5, <- (gl_btype _ _ _ G). by destruct (sih s0). }
  { intros x. by rewrite F5. }
  erewrite bind_Ok; [|exact E6]. exists s6. split.
  - pose proof (length_live_dead (mview s0) ps) as Hlen2. rewrite G3, G4, wrap_small by lia. unfold mret, M_ret. do 2 f_equal. lia.
  - apply (gc_done_intro ps new pi v n (possible_head g) (alter_possible_head g) s2); try done; try congruence.
    rewrite G1. apply first_page_bound with (ps := live (mview s0) ps ++ tl).
    apply list.Forall_forall. intros p Hp. pose proof (gl_pages _ _ _ G) as Hpg.
    rewrite list.Forall_forall in Hpg. apply Hpg. rewrite elem_of_app in Hp |- *.
    destruct Hp as [?%live_sub|?]; tauto.
Qed.
End Scan.
End Gc.
