(* ===== verification/NovaLogOps.v ===== *)
(** * NOVA: logs that grow

    The invariant of an inode's log ([log_ok]): a chain of pages that belong to
    the inode, from [log_head], with the committed tail in one of them.  The
    first page ([nova_initialize_inode_log]), growing at the tail
    ([nova_extend_inode_log]), the place of the next entry
    ([nova_get_append_head]) and giving everything back
    ([nova_free_inode_log]), without metadata checksums. *)

From stdpp Require Import base list gmap.
From Stdlib Require Import ZArith Lia.
From coqutil Require Import Byte Word.LittleEndianList.
From S2P Require Import Prelude PMem NovaBase NovaJournal NovaInode NovaLogEntry NovaBalloc.
From S2P Require Import NovaLog NovaLogProofs NovaLogGc.

Local Open Scope Z_scope.

(** ** Addresses in a page *)

Lemma block_off_0 : BLOCK_OFF 0 = 0.
Proof. done. Qed.
Lemma block_off_div x : BLOCK_OFF x = 4096 * (x / 4096).
Proof.
  unfold BLOCK_OFF, PAGE_OFFSET_MASK. change 4095 with (Z.ones 12).
  rewrite <- Z.ldiff_land, Z.ldiff_ones_r by lia.
  rewrite Z.shiftl_mul_pow2, Z.shiftr_div_pow2 by lia. change (2 ^ 12) with 4096. lia.
Qed.
Lemma entry_loc_mod x : ENTRY_LOC x = x mod 4096.
Proof.
  unfold ENTRY_LOC, PAGE_OFFSET_MASK. change 4095 with (2 ^ 12 - 1). by rewrite land_mask_mod by lia.
Qed.
Lemma is_last_entry_eq x size :
  0 < size <= LOG_BLOCK_TAIL → is_last_entry x size = (x mod 4096 + size >? LOG_BLOCK_TAIL).
Proof.
  intros Hs. unfold is_last_entry, LOG_BLOCK_TAIL in *. rewrite entry_loc_mod, wrap_small; [done|].
  pose proof (Z.mod_pos_bound x 4096). lia.
Qed.
Lemma body_not_tail p x : p mod 4096 = 0 → x mod 4096 < LOG_BLOCK_TAIL → ¬ tail_of p x.
Proof.
  unfold tail_of, in_range, LOG_BLOCK_TAIL. intros Hp Hx Ht.
  pose proof (tail_of_page p x Hp Ht). pose proof (Z.div_mod x 4096). pose proof (Z.div_mod p 4096). lia.
Qed.

(** An entry of [size] bytes fits its page at [x]. *)
Definition fits (x size : Z) : Prop := x mod 4096 + size <= LOG_BLOCK_TAIL.
#[export] Instance fits_dec x size : Decision (fits x size).
Proof. unfold fits. apply _. Defined.

Section Ops.
#[local] Set Default Proof Using "Type".
Context `{Crc} `{NocacheCopy} `{CachedWrite} {A : Type} `{LogAlloc A} `{!LogAllocLaws}.
Variable cfg : nova_cfg.
Variable pages : nat.

(** The log of the inode at [pi]: the pages [ps] before the committed tail, and
    [tl] from it on. *)
Record log_ok (s : lstate A) (pi : Z) (ps tl : list Z) : Prop := {
  lo_inv : inv (blocks s);
  lo_btype : i_blk_type (sih s) = 0;
  lo_pages : Forall page_ok (ps ++ tl);
  lo_nodup : NoDup (ps ++ tl);
  lo_within : Forall (λ p, within (p / 4096) 1) (ps ++ tl);
  lo_used : ∀ p, p ∈ ps ++ tl → ¬ is_free (blocks s) (p / 4096);
  lo_linked : linked (mview s) (ps ++ tl) 0;
  lo_head : log_head (sih s) = first (ps ++ tl) 0;
  lo_pi_head : load 8 (mview s) (pi + pi_log_head) = log_head (sih s);
  lo_tail : ∃ tp rest, tl = tp :: rest ∧ log_tail (sih s) / 4096 = tp / 4096;
  lo_pi : ∀ x, in_range pi 120 x → ¬ is_free (blocks s) (x / 4096) ∧ 4096 * (x / 4096) ∉ ps ++ tl
}.

Lemma tails_in_pages ps x : Forall page_ok ps → tails ps x → 4096 * (x / 4096) ∈ ps.
Proof using Type.
  intros Hp (p & Hin & Hx). rewrite list.Forall_forall in Hp. specialize (Hp p Hin).
  rewrite (tail_of_page p x) by (done || apply Hp). by rewrite page_blocknr.
Qed.

(** The pages of a chain are different blocks of the device. *)
Lemma chain_length ps :
  (∀ b x, within b 1 → b <= x < b + 1 → x < Z.of_nat pages) →
  Forall page_ok ps → NoDup ps → Forall (λ p, within (p / 4096) 1) ps → (length ps <= pages)%nat.
Proof.
  intros Hdev Hp Hnd Hw.
  assert (Hnd' : NoDup ((λ p, p / 4096) <$> ps)).
  { apply NoDup_fmap_2_strong; [|done]. intros p q Hin Hin' E. rewrite list.Forall_forall in Hp.
    apply page_inj; auto. }
  rewrite <- (length_fmap (λ p, p / 4096) ps), <- (Nat2Z.id pages), <- (length_seqZ 0 (Z.of_nat pages)).
  apply submseteq_length, NoDup_submseteq; [done|].
  intros b (p & -> & Hin)%list_elem_of_fmap. rewrite list.Forall_forall in Hw. specialize (Hw p Hin).
  apply elem_of_seqZ. pose proof (within_range _ _ (p / 4096) Hw ltac:(lia)).
  specialize (Hdev _ (p / 4096) Hw ltac:(lia)). lia.
Qed.

Lemma log_ok_gc s pi ps tl : log_ok s pi ps tl → gc_log s ps tl.
Proof using Type.
  intros []. split; try done.
  - by apply list.Forall_app in lo_within0 as [? _].
  - intros p Hp. apply lo_used0, elem_of_app. by left.
Qed.

(** Stores to the body of the log's pages keep the log. *)
Lemma log_ok_frame s s' pi ps tl :
  log_ok s pi ps tl → inv (blocks s') → sih s' = sih s →
  agree (tails (ps ++ tl)) (mview s) (mview s') →
  agree (in_range pi 120) (mview s) (mview s') →
  (∀ x, is_free (blocks s') x → is_free (blocks s) x) → log_ok s' pi ps tl.
Proof using Type.
  intros [] I Sh Ha Hpi F. split; try done; try (by rewrite Sh).
  - intros p Hp Hf%F. by apply (lo_used0 p).
  - by eapply linked_agree.
  - rewrite Sh, <- lo_pi_head0. apply load_ext. intros x Hx. symmetry. apply Hpi.
    unfold in_range, pi_log_head in *. lia.
  - intros x Hx. destruct (lo_pi0 x Hx). split; [|done]. by intros ?%F.
Qed.

(** A new chain is apart from the log and from the inode. *)
Lemma new_chain_apart s s' pi ps tl new :
  log_ok s pi ps tl → new_chain s s' new →
  log_ok s' pi ps tl ∧ NoDup ((ps ++ tl) ++ new) ∧
  (∀ x, in_range pi 120 x → ¬ tails ((ps ++ tl) ++ new) x) ∧
  ∀ p, p ∈ ps ++ tl → agree (tail_of p) (mview s) (mview s').
Proof using Type.
  intros L C. pose proof (lo_pages _ _ _ _ L) as Hpg. pose proof (nc_pages _ _ _ C) as Hnp.
  assert (Hdis : ∀ p, p ∈ ps ++ tl → p ∉ new).
  { intros p Hp Hn. apply (lo_used _ _ _ _ L p Hp). by apply (nc_free _ _ _ C). }
  assert (Hother : ∀ p, p ∈ ps ++ tl → agree (tail_of p) (mview s) (mview s')).
  { intros p Hp. rewrite list.Forall_forall in Hpg. eapply tails_only_other; [apply (nc_frame _ _ _ C)|by apply Hdis|by apply Hpg|].
    eapply list.Forall_impl; [exact Hnp|]. by intros q [_ ?]. }
  assert (Hpi : ∀ x, in_range pi 120 x → ¬ tails new x).
  { intros x Hx Ht%tails_in_pages; [|done]. apply (proj1 (lo_pi _ _ _ _ L x Hx)).
    rewrite <- (block_page (x / 4096)). by apply (nc_free _ _ _ C). }
  split_and!; [| | |done].
  - eapply log_ok_frame; [done|apply (nc_inv _ _ _ C)|apply (nc_sih _ _ _ C)| | |].
    + intros x (p & Hp & Hx). by apply (Hother p).
    + intros x Hx. apply (nc_frame _ _ _ C). by apply Hpi.
    + intros x Hf. by apply (nc_left _ _ _ C) in Hf as [? _].
  - apply NoDup_app. split_and!; [apply (lo_nodup _ _ _ _ L)|done|apply (nc_nodup _ _ _ C)].
  - intros x Hx (p & [Hp|Hp]%elem_of_app & Ht); [|by apply (Hpi x Hx); exists p].
    apply (proj2 (lo_pi _ _ _ _ L x Hx)), tails_in_pages; [done|]. by exists p.
Qed.

(** The log after the collection that comes with new pages. *)
Lemma gc_done_log s0 s' pi ps tl new :
  log_ok s0 pi ps tl → NoDup ((ps ++ tl) ++ new) → Forall page_ok new →
  Forall (λ p, within (p / 4096) 1) new → (∀ p, p ∈ new → ¬ is_free (blocks s0) (p / 4096)) →
  (∀ x, in_range pi 120 x → 4096 * (x / 4096) ∉ new) →
  gc_done s0 tl ps new pi s' → i_blk_type (sih s') = 0 →
  log_ok s' pi (live (mview s0) ps) (tl ++ new).
Proof using Type.
  intros L Hnd Hp Hw Hu Hpi G Hbt. pose proof (lo_nodup _ _ _ _ L) as Hnd0.
  assert (Hsub : live (mview s0) ps ++ tl ++ new ⊆ (ps ++ tl) ++ new).
  { intros p. rewrite !elem_of_app. intros [?%live_sub|[?|?]]; tauto. }
  assert (Hall : ∀ P : Z → Prop, Forall P (ps ++ tl) → Forall P new → Forall P (live (mview s0) ps ++ tl ++ new)).
  { intros P H1' H2'. rewrite list.Forall_forall in *. intros p Hin%Hsub. apply elem_of_app in Hin as [?|?]; auto. }
  assert (Hdead : ∀ p, p ∈ live (mview s0) ps ++ tl ++ new → p ∉ dead_pages (mview s0) ps).
  { intros p Hin Hd. unfold dead_pages in Hd. apply list_elem_of_filter in Hd as [Hd Hps].
    apply NoDup_app in Hnd as (_ & Hnd & _). apply NoDup_app in Hnd0 as (_ & Hnd0 & _).
    rewrite !elem_of_app in Hin. destruct Hin as [Hin|[Hin|Hin]].
    - unfold live in Hin. by apply list_elem_of_filter in Hin as [? _].
    - by apply (Hnd0 p).
    - apply (Hnd p); [|done]. apply elem_of_app. by left. }
  destruct (lo_tail _ _ _ _ L) as (tp & rest & -> & Htp).
  split; try done.
  - apply (gd_inv _ _ _ _ _ _ G).
  - apply Hall; [apply (lo_pages _ _ _ _ L)|done].
  - eapply sublist_NoDup; [exact Hnd|]. rewrite <- app_assoc. apply sublist_app; [apply sublist_filter|done].
  - apply Hall; [apply (lo_within _ _ _ _ L)|done].
  - intros p Hin. rewrite (gd_free _ _ _ _ _ _ G). intros [Hf|Hf].
    + apply Hsub, elem_of_app in Hin as [Hin|Hin]; [by apply (lo_used _ _ _ _ L p)|by apply (Hu p)].
    + apply (Hdead p Hin). rewrite page_blocknr in Hf; [done|].
      assert (Forall page_ok (live (mview s0) ps ++ (tp :: rest) ++ new)) as Hpg
        by (apply Hall; [apply (lo_pages _ _ _ _ L)|done]).
      rewrite list.Forall_forall in Hpg. by apply Hpg.
  - apply (gd_linked _ _ _ _ _ _ G).
  - rewrite (gd_head _ _ _ _ _ _ G). by destruct (live (mview s0) ps).
  - apply (gd_pi _ _ _ _ _ _ G).
  - exists tp, (rest ++ new). split; [done|]. by rewrite (gd_tail _ _ _ _ _ _ G).
  - intros x Hx. destruct (lo_pi _ _ _ _ L x Hx) as [Hf Hin]. split.
    + rewrite (gd_free _ _ _ _ _ _ G). intros [?|Hd]; [done|]. unfold dead_pages in Hd.
      apply list_elem_of_filter in Hd as [_ Hd]. apply Hin, elem_of_app. by left.
    + intros [?|?]%Hsub%elem_of_app; [done|by apply (Hpi x)].
Qed.

Hypothesis Hcs : metadata_csum cfg = false.
Hypothesis Hrd : reads_ok cfg.
(** [pages] bounds the blocks of the device. *)
Hypothesis Hdev : ∀ b x, within b 1 → b <= x < b + 1 → x < Z.of_nat pages.
Hypothesis Hpages : Z.of_nat pages < 2 ^ 63.

(** The thorough collection, when the estimate asks for it. *)
Definition after_gc (thorough : Z → Z → M (lstate A) ()) (checked : Z) : M (lstate A) () :=
  h ← gets sih;
  match thorough_gc_blocks h checked false with
  | Some b => thorough b checked
  | None => mret ()
  end.

(** The log grew by the empty pages [new], and lost its dead pages. *)
Record grown_log (s s' : lstate A) (pi : Z) (ps tl new : list Z) : Prop := {
  gr_new : new ≠ [];
  gr_log : log_ok s' pi (live (mview s) ps) (tl ++ new);
  gr_tail : log_tail (sih s') = log_tail (sih s);
  gr_empty : Forall (empty_page (mview s')) new;
  gr_counts : ∀ p, p ∈ live (mview s) ps ++ tl →
    entries_of (mview s') p = entries_of (mview s) p ∧ invalid_of (mview s') p = invalid_of (mview s) p;
  gr_were_free : ∀ p, p ∈ new → is_free (blocks s) (p / 4096);
  gr_free : ∀ x, is_free (blocks s') x ↔
    (is_free (blocks s) x ∧ 4096 * x ∉ new) ∨ 4096 * x ∈ dead_pages (mview s) ps;
  gr_pages : log_pages (sih s') =
    u64 (log_pages (sih s) + (Z.of_nat (length new) - Z.of_nat (length (dead_pages (mview s) ps))));
  gr_frame : agree (λ x, ¬ tails (ps ++ tl ++ new) x ∧ ¬ in_range pi 120 x) (mview s) (mview s')
}.

Lemma live_agree m m' ps :
  (∀ p, p ∈ ps → entries_of m' p = entries_of m p ∧ invalid_of m' p = invalid_of m p) →
  live m' ps = live m ps ∧ dead_pages m' ps = dead_pages m ps.
Proof using Type.
  induction ps as [|p ps IH]; intros Ha; [done|]. destruct (Ha p) as [H1' H2']; [apply list_elem_of_here|].
  destruct IH as [E1 E2]; [intros q Hq; apply Ha; by apply list_elem_of_further|].
  assert (dead m' p ↔ dead m p) as Hd by (unfold dead; by rewrite H1', H2').
  unfold live, dead_pages in *. rewrite !filter_cons, E1, E2.
  split; repeat case_decide; tauto.
Qed.

(** [nova_inode_log_fast_gc] on a log and a new chain. *)
Lemma grow_spec pi ct s s1 ps tl' lp new :
  log_ok s pi ps (tl' ++ [lp]) → BLOCK_OFF ct = lp → new_chain s s1 new → new ≠ [] →
  ∃ s2, fast_gc_pages cfg pages pi ct (first new 0) 0 (Z.of_nat (length new)) s1 =
    Ok (Z.of_nat (length (live (mview s) ps)), s2) ∧ grown_log s s2 pi ps (tl' ++ [lp]) new.
Proof using All.
  intros L Hct C Hne. destruct (new_chain_apart s s1 pi ps _ new L C) as (L1 & Hnd & Hpi & Hag).
  assert (Hlen : (length ps <= pages)%nat).
  { pose proof (chain_length _ Hdev (lo_pages _ _ _ _ L) (lo_nodup _ _ _ _ L) (lo_within _ _ _ _ L)) as Hl.
    rewrite length_app in Hl. lia. }
  destruct (fast_gc_pages_spec cfg pages s1 (tl' ++ [lp]) Hcs Hrd ps tl' lp new pi ct)
    as (s2 & E & G); try done.
  { apply (nc_inv _ _ _ C). }
  { by eapply log_ok_gc. }
  { apply (lo_linked _ _ _ _ L1). }
  { apply (nc_linked _ _ _ C). }
  { apply (nc_pages _ _ _ C). }
  { by rewrite app_assoc. }
  { lia. }
  { by rewrite app_assoc. }
  assert (Hc : ∀ p, p ∈ ps ++ tl' ++ [lp] → entries_of (mview s1) p = entries_of (mview s) p ∧
    invalid_of (mview s1) p = invalid_of (mview s) p).
  { intros p Hp. rewrite <- (entries_agree (mview s)), <- (invalid_agree (mview s)) by (by apply Hag). done. }
  destruct (live_agree (mview s) (mview s1) ps) as [El Ed].
  { intros p Hp. apply Hc, elem_of_app. by left. }
  exists s2. rewrite <- El. split; [done|].
  assert (Hnf : ∀ p, p ∈ new → ¬ is_free (blocks s1) (p / 4096)).
  { intros p Hp Hf. apply (nc_left _ _ _ C) in Hf as [_ Hf]. rewrite page_blocknr in Hf; [done|].
    pose proof (nc_pages _ _ _ C) as Hq. rewrite list.Forall_forall in Hq. by apply Hq. }
  pose proof (nc_sih _ _ _ C) as Esih.
  split; rewrite <- ?El, <- ?Ed.
  - done.
  - eapply gc_done_log; try done.
    + apply (nc_pages _ _ _ C).
    + apply (nc_within _ _ _ C).
    + intros x Hx Hin. apply (proj1 (lo_pi _ _ _ _ L x Hx)).
      rewrite <- (block_page (x / 4096)). by apply (nc_free _ _ _ C).
    + by rewrite (gd_btype _ _ _ _ _ _ G), Esih, (lo_btype _ _ _ _ L).
  - by rewrite (gd_tail _ _ _ _ _ _ G), Esih.
  - apply list.Forall_forall. intros p Hp. pose proof (nc_empty _ _ _ C) as He.
    rewrite list.Forall_forall in He. specialize (He p Hp). unfold empty_page in *.
    destruct (gd_counts _ _ _ _ _ _ G p) as [-> ->]; [|done]. rewrite !elem_of_app. tauto.
  - intros p Hp. destruct (gd_counts _ _ _ _ _ _ G p) as [-> ->].
    { rewrite app_assoc. apply elem_of_app. by left. }
    apply Hc. rewrite elem_of_app in Hp |- *. destruct Hp as [?%live_sub|?]; tauto.
  - apply (nc_free _ _ _ C).
  - intros x. by rewrite (gd_free _ _ _ _ _ _ G), (nc_left _ _ _ C).
  - by rewrite (gd_pages _ _ _ _ _ _ G), Esih.
  - intros x [Ht Hr]. rewrite <- (gd_frame _ _ _ _ _ _ G) by done. apply (nc_frame _ _ _ C).
    intros (p & Hp & Hx). apply Ht. exists p. rewrite !elem_of_app. tauto.
Qed.

(** The state is as before but for the allocator's own bookkeeping. *)
Definition unchanged (s s' : lstate A) : Prop :=
  inv (blocks s') ∧ sih s' = sih s ∧ mview s' = mview s ∧ ∀ x, is_free (blocks s') x ↔ is_free (blocks s) x.

Lemma log_ok_unchanged s s' pi ps tl : log_ok s pi ps tl → unchanged s s' → log_ok s' pi ps tl.
Proof using Type.
  intros L (I & Sh & V & F). apply (log_ok_frame s); try done; rewrite ?V; try by intros x _.
  intros x. apply F.
Qed.

(** [nova_extend_inode_log] on a log that exists. *)
Lemma extend_spec thorough pi curr_p s ps tl' lp :
  log_ok s pi ps (tl' ++ [lp]) → BLOCK_OFF curr_p = lp → 0 < log_pages (sih s) →
  (∃ s', nova_extend_inode_log cfg pages thorough pi curr_p s = Ok (0, s') ∧ unchanged s s') ∨
  (∃ new s', nova_extend_inode_log cfg pages thorough pi curr_p s =
      (after_gc thorough (Z.of_nat (length (live (mview s) ps)));; mret (first new 0) : M (lstate A) Z) s' ∧
    Z.of_nat (length new) <= EXTEND_THRESHOLD ∧ grown_log s s' pi ps (tl' ++ [lp]) new).
Proof using All.
  intros L Hct Hlp. unfold nova_extend_inode_log.
  destruct (Z.eqb_spec curr_p 0) as [->|_].
  { pose proof (lo_pages _ _ _ _ L) as Hpg. rewrite block_off_0 in Hct. subst lp.
    rewrite list.Forall_forall in Hpg. destruct (Hpg 0) as [? _]; [|lia].
    rewrite !elem_of_app, list_elem_of_singleton. tauto. }
  erewrite bind_Ok; [|done].
  set (num := if _ >=? _ then _ else _).
  assert (Hnum : 0 < num <= EXTEND_THRESHOLD).
  { unfold num, EXTEND_THRESHOLD. destruct (Z.geb_spec (log_pages (sih s)) 256); lia. }
  clearbody num. unfold EXTEND_THRESHOLD in *.
  destruct (allocate_spec cfg num 0 ALLOC_FROM_HEAD s (lo_inv _ _ _ _ L) (lo_btype _ _ _ _ L) ltac:(lia))
    as (ret & nb & s1 & E & [(Hret & -> & Sh & I & V & F)|(new & Hret & Hlen & -> & C)]).
  { left. exists s1. erewrite bind_Ok; [|exact E]. cbv iota beta.
    destruct (Z.leb_spec ret 0); [|lia]. done. }
  right. exists new. assert (Hne : new ≠ []) by (intros ->; simpl in Hlen; lia).
  destruct (grow_spec pi curr_p s s1 ps tl' lp new L Hct C Hne) as (s2 & E2 & G).
  exists s2. split; [|split; [lia|done]].
  erewrite bind_Ok; [|exact E]. cbv iota beta. destruct (Z.leb_spec ret 0); [lia|].
  rewrite Hcs. erewrite bind_Ok; [|done]. cbv iota beta. destruct (Z.leb_spec ret 0); [lia|].
  unfold nova_inode_log_fast_gc. rewrite <- Hlen, !bind_assoc. erewrite bind_Ok; [|exact E2].
  unfold after_gc. rewrite !bind_assoc, !gets_bind.
  destruct (thorough_gc_blocks _ _ _); [by rewrite bind_assoc|done].
Qed.

(** ** The place of the next entry *)

Lemma on_pm_reads {B} (m : M cpu B) s b :
  inv (blocks s) → m (machine (blocks s)) = Ok (b, machine (blocks s)) →
  ∃ s', on_pm m s = Ok (b, s') ∧ unchanged s s'.
Proof using Type.
  intros Hinv E. eexists. split; [by apply on_pm_Ok|]. unfold unchanged, mview. cbn.
  rewrite machine_with. split_and!; try done; [by apply inv_with|]. intros. apply free_with.
Qed.

(** [s'] is [s] but for the type byte at [x] of a page body. *)
Record flagged (s s' : lstate A) (x : Z) : Prop := {
  fg_inv : inv (blocks s');
  fg_sih : sih s' = sih s;
  fg_free : ∀ b, is_free (blocks s') b ↔ is_free (blocks s) b;
  fg_view : agree (λ y, y ≠ x) (mview s) (mview s');
  fg_body : LOG_BLOCK_TAIL <= x mod 4096 → mview s' = mview s
}.

Lemma flag_spec x s :
  inv (blocks s) → 0 < x →
  ∃ s', on_pm (nova_set_next_page_flag cfg x) s = Ok ((), s') ∧ flagged s s' x.
Proof using pages.
  intros I Hx. unfold nova_set_next_page_flag. rewrite entry_loc_mod.
  destruct (Z.geb_spec (x mod 4096) LOG_BLOCK_TAIL) as [Hge|Hlt].
  { destruct (on_pm_reads (mret ()) s () I) as (s' & E & (I' & Sh & V & F)); [done|].
    exists s'. split; [done|]. split; try done. by rewrite V. }
  rewrite nova_get_block_Some by lia.
  set (s1 := log_state (machine (blocks s)) [EStore false x (bytes_of 1 (type_code NEXT_PAGE))]).
  destruct (flush_view cfg x CACHELINE_SIZE true s1) as (c & E & V); [unfold CACHELINE_SIZE; lia|].
  eexists. split.
  { apply on_pm_Ok. erewrite bind_Ok; [|done]. run_step (store_eq 1 x (type_code NEXT_PAGE) (machine (blocks s))).
    exact E. }
  split; cbn; try done.
  - by apply inv_with.
  - intros b. apply free_with.
  - unfold mview. cbn. rewrite machine_with, V. intros y Hy. symmetry. apply write_bytes_out.
    rewrite length_bytes_of. unfold in_range. lia.
  - lia.
Qed.

(** The flag of a page of the log keeps the log, and its pages' counters. *)
Lemma flagged_log s s' x pi ps tl :
  log_ok s pi ps tl → BLOCK_OFF x ∈ ps ++ tl → flagged s s' x →
  log_ok s' pi ps tl ∧ agree (tails (ps ++ tl)) (mview s) (mview s').
Proof using Type.
  intros L Hx F. pose proof (lo_pages _ _ _ _ L) as Hpg. rewrite list.Forall_forall in Hpg.
  assert (Ht : agree (tails (ps ++ tl)) (mview s) (mview s')).
  { intros y (p & Hp & Hy). destruct (Z.le_gt_cases LOG_BLOCK_TAIL (x mod 4096)) as [Hl|Hl].
    - by rewrite (fg_body _ _ _ F).
    - apply (fg_view _ _ _ F). intros ->. by apply (body_not_tail p x); [apply Hpg| |]. }
  split; [|done]. apply (log_ok_frame s); try apply F; try done.
  - intros y Hy. apply (fg_view _ _ _ F). intros ->.
    apply (proj2 (lo_pi _ _ _ _ L x Hy)). by rewrite <- block_off_div.
Qed.

(** What [nova_get_append_head] does at [x] in the page [q] of the log, with the
    pages [rest] behind: it stays, goes to the next page, fails, or grows the
    log. *)
Definition head_outcome (thorough : Z → Z → M (lstate A) ()) (s : lstate A) (pi x size : Z) (ext : bool)
    (ps tl : list Z) (q : Z) (rest : list Z) (r : result ((Z * bool) * lstate A)) : Prop :=
  (fits x size ∧ r = Ok ((x, ext), s)) ∨
  (¬ fits x size ∧ ∃ q' rest' s', rest = q' :: rest' ∧ r = Ok ((q', ext), s') ∧ flagged s s' x) ∨
  (¬ fits x size ∧ rest = [] ∧ ∃ s1 s', flagged s s1 x ∧ unchanged s1 s' ∧ r = Ok ((0, ext), s')) ∨
  (¬ fits x size ∧ rest = [] ∧ ∃ s1 s' new, flagged s s1 x ∧ grown_log s1 s' pi ps (tl ++ [q]) new ∧
     r = (after_gc thorough (Z.of_nat (length (live (mview s1) ps)));; mret (first new 0, ext) : M (lstate A) (Z * bool)) s').

Lemma flagged_unchanged s s1 s2 x : unchanged s s1 → flagged s1 s2 x → flagged s s2 x.
Proof using Type.
  intros (I & Sh & V & F) [I2 Sh2 F2 V2 B2]. split; try done; try congruence.
  - intros b. by rewrite F2.
  - by rewrite <- V.
  - intros Hx. by rewrite B2.
Qed.

Lemma next_in_log s pi ps tl q rest :
  log_ok s pi ps (tl ++ q :: rest) → next_of (mview s) q = first rest 0.
Proof using Type.
  intros L. pose proof (lo_linked _ _ _ _ L) as Hl. rewrite app_assoc, linked_app in Hl. by destruct Hl as (_ & ? & _).
Qed.

Lemma first_new_page s s' pi ps tl new : grown_log s s' pi ps tl new → page_ok (first new 0).
Proof using Type.
  intros G. pose proof (lo_pages _ _ _ _ (gr_log _ _ _ _ _ _ G)) as Hpg.
  destruct new as [|n new]; [by destruct (gr_new _ _ _ _ _ _ G)|]. rewrite list.Forall_forall in Hpg.
  apply Hpg. rewrite !elem_of_app. right. right. apply list_elem_of_here.
Qed.
Lemma page_not_last p size : page_ok p → 0 < size <= LOG_BLOCK_TAIL → is_last_entry p size = false.
Proof using pages.
  intros [_ Hm] Hs. rewrite is_last_entry_eq, Hm by done. destruct (Z.gtb_spec (0 + size) LOG_BLOCK_TAIL); lia.
Qed.

Lemma next_of_entry x s :
  reads_ok cfg → page_ok (BLOCK_OFF x) → next_log_page cfg x s = Ok (next_of (view s) (BLOCK_OFF x), s).
Proof using Type.
  intros Hr Hp. unfold next_log_page. rewrite page_get_block by done. simpl. rewrite Hr. simpl.
  by erewrite bind_Ok; [|done].
Qed.

Lemma append_head_spec thorough pi tail size ext s ps tl q rest x :
  log_ok s pi ps (tl ++ q :: rest) → x = (if tail =? 0 then log_tail (sih s) else tail) →
  BLOCK_OFF x = q → 0 < size <= LOG_BLOCK_TAIL → 0 < log_pages (sih s) →
  head_outcome thorough s pi x size ext ps tl q rest
    (nova_get_append_head cfg pages thorough pi tail size MAIN_LOG false ext s).
Proof using All.
  intros L Hx Hq Hs Hlp. unfold nova_get_append_head, head_outcome. rewrite gets_bind. cbn [is_main].
  assert ((if negb (tail =? 0) then tail else log_tail (sih s)) = x) as -> by (subst x; by destruct (tail =? 0)).
  assert (Hqp : page_ok q).
  { pose proof (lo_pages _ _ _ _ L) as Hpg. rewrite list.Forall_forall in Hpg. apply Hpg.
    rewrite !elem_of_app, elem_of_cons. tauto. }
  assert (Hxpos : 0 < x).
  { rewrite block_off_div in Hq. destruct Hqp as [? _]. pose proof (Z.mul_div_le x 4096 ltac:(lia)). lia. }
  destruct (Z.eqb_spec x 0) as [|_]; [lia|].
  assert (Elast : is_last_entry x size = negb (bool_decide (fits x size))).
  { rewrite is_last_entry_eq by done. unfold fits. case_bool_decide; destruct (Z.gtb_spec (x mod 4096 + size) LOG_BLOCK_TAIL); (done || lia). }
  rewrite Elast. case_bool_decide as Hfit; cbn [negb].
  { left. split; [done|]. erewrite bind_Ok; [|done]. cbv iota. erewrite bind_Ok; [|done]. cbv iota beta.
    by rewrite Elast. }
  right. destruct (on_pm_reads (next_log_page cfg x) s (first rest 0) (lo_inv _ _ _ _ L)) as (s1 & E1 & U1).
  { rewrite next_of_entry, Hq; [|done|by rewrite Hq]. by rewrite <- (next_in_log s pi ps tl q rest). }
  rewrite bind_assoc. erewrite bind_Ok; [|exact E1]. erewrite bind_Ok; [|done].
  pose proof (log_ok_unchanged _ _ _ _ _ L U1) as L1.
  destruct rest as [|q' rest]; cbn [first].
  - (* the last page *)
    right. cbn [Z.eqb when negb].
    destruct (flag_spec x s1 (lo_inv _ _ _ _ L1) Hxpos) as (s2 & E2 & F2).
    pose proof (flagged_unchanged _ _ _ _ U1 F2) as F.
    destruct (flagged_log s s2 x pi ps (tl ++ [q]) L) as [L2 Hag]; [|done|].
    { rewrite Hq, !elem_of_app, list_elem_of_singleton. tauto. }
    rewrite !bind_assoc. erewrite bind_Ok; [|exact E2].
    destruct (extend_spec thorough pi x s2 ps tl q L2 Hq) as [(s3 & E3 & U3)|(new & s3 & E3 & _ & G)].
    { by rewrite (fg_sih _ _ _ F). }
    + left. split; [done|]. split; [done|]. exists s2, s3. split_and!; try done.
      rewrite !bind_assoc. erewrite bind_Ok; [|exact E3]. done.
    + right. split; [done|]. split; [done|]. exists s2, s3, new. split_and!; try done.
      rewrite !bind_assoc, (bind_transfer _ _ _ _ _ E3), bind_assoc. apply bind_ext. intros [] s4.
      assert (Hn : page_ok (first new 0)) by (by eapply first_new_page).
      repeat (erewrite bind_Ok; [|done]). destruct (Z.eqb_spec (first new 0) 0); [destruct Hn as [? _]; lia|].
      cbv iota beta. by rewrite page_not_last.
  - left. split; [done|]. exists q', rest.
    assert (Hq' : page_ok q').
    { pose proof (lo_pages _ _ _ _ L) as Hpg. rewrite list.Forall_forall in Hpg. apply Hpg.
      rewrite !elem_of_app, !elem_of_cons. tauto. }
    destruct (Z.eqb_spec q' 0); [destruct Hq' as [? _]; lia|]. cbv iota.
    erewrite bind_Ok; [|done]. cbv iota beta. rewrite Elast. cbn [negb].
    destruct (flag_spec x s1 (lo_inv _ _ _ _ L1) Hxpos) as (s2 & E2 & F2).
    pose proof (flagged_unchanged _ _ _ _ U1 F2) as F.
    destruct (flagged_log s s2 x pi ps (tl ++ q :: q' :: rest) L) as [L2 Hag]; [|done|].
    { rewrite Hq, !elem_of_app, elem_of_cons. tauto. }
    erewrite bind_Ok; [|exact E2].
    destruct (on_pm_reads (next_log_page cfg x) s2 q' (lo_inv _ _ _ _ L2)) as (s3 & E3 & U3).
    { rewrite next_of_entry, Hq; [|done|by rewrite Hq].
      pose proof (next_in_log _ _ _ _ _ _ L2) as En. unfold mview in En. by rewrite En. }
    erewrite bind_Ok; [|exact E3]. exists s3. split_and!; try done.
    destruct U3 as (I3 & Sh3 & V3 & F3). destruct F as [I Sh Fr V B]. split; try done; try congruence.
    + intros b. by rewrite F3.
    + by rewrite V3.
    + intros Hb. rewrite V3. by apply B.
Qed.

(** ** The first page *)

(** Where the inode's record lies: in no free block. *)
Definition pi_apart (s : lstate A) (pi : Z) : Prop := ∀ x, in_range pi 120 x → ¬ is_free (blocks s) (x / 4096).

(** A log of one empty page. *)
Record fresh_log (s s' : lstate A) (pi p : Z) : Prop := {
  fl_log : log_ok s' pi [] [p];
  fl_tail : log_tail (sih s') = p;
  fl_pi_tail : load 8 (mview s') (pi + pi_log_tail) = p;
  fl_pages : log_pages (sih s') = 1;
  fl_empty : empty_page (mview s') p;
  fl_was_free : is_free (blocks s) (p / 4096);
  fl_free : ∀ x, is_free (blocks s') x ↔ is_free (blocks s) x ∧ 4096 * x ≠ p;
  fl_frame : agree (λ x, ¬ tail_of p x ∧ ¬ in_range pi 120 x) (mview s) (mview s')
}.

(** The inode's pointers: tail, then head, each flushed. *)
Lemma store_pointers_spec pi p s :
  ∃ s', (store 8 (pi + pi_log_tail) p;;
         nova_flush_buffer cfg (pi + pi_log_tail) CACHELINE_SIZE false;;
         store 8 (pi + pi_log_head) p) s = Ok ((), s') ∧
    view s' = write_bytes (write_bytes (view s) (pi + pi_log_tail) (bytes_of 8 p)) (pi + pi_log_head) (bytes_of 8 p).
Proof using cfg pages.
  run_step (store_eq 8 (pi + pi_log_tail) p s). set (s1 := log_state s _).
  destruct (flush_view cfg (pi + pi_log_tail) CACHELINE_SIZE false s1) as (s2 & E2 & V2); [unfold CACHELINE_SIZE; lia|].
  erewrite bind_Ok; [|exact E2]. rewrite store_eq. eexists. split; [done|]. cbn. by rewrite V2.
Qed.

Lemma fresh_log_intro s s1 s' pi p :
  i_blk_type (sih s) = 0 → pi_apart s pi → new_chain s s1 [p] → inv (blocks s') →
  sih s' = set_log_pages (set_main (sih s) p p) 1 →
  mview s' = write_bytes (write_bytes (mview s1) (pi + pi_log_tail) (bytes_of 8 p)) (pi + pi_log_head) (bytes_of 8 p) →
  (∀ x, is_free (blocks s') x ↔ is_free (blocks s1) x) → fresh_log s s' pi p.
Proof using pages.
  intros Hbt Hap C I Sh V F. pose proof (nc_pages _ _ _ C) as Hp. rewrite list.Forall_singleton in Hp.
  assert (Hf : is_free (blocks s) (p / 4096)) by (apply (nc_free _ _ _ C), list_elem_of_here).
  assert (Hfree : ∀ x, is_free (blocks s') x ↔ is_free (blocks s) x ∧ 4096 * x ≠ p).
  { intros x. by rewrite F, (nc_left _ _ _ C), list_elem_of_singleton. }
  assert (Hpi : ∀ x, in_range pi 120 x → 4096 * (x / 4096) ≠ p).
  { intros x Hx <-. apply (Hap x Hx). by rewrite <- (block_page (x / 4096)). }
  assert (Hout : ∀ x, ¬ in_range pi 120 x → mview s' !!! x = mview s1 !!! x).
  { intros x Hx. rewrite V, !write_bytes_out; [done| |]; rewrite length_bytes_of; intros Hr; apply Hx;
      unfold in_range, pi_log_head, pi_log_tail in *; lia. }
  assert (Ha : agree (tail_of p) (mview s1) (mview s')).
  { intros x Hx. symmetry. apply Hout. intros Hr. apply (Hpi x Hr).
    rewrite (tail_of_page p x), page_blocknr; [done|done|apply Hp|done]. }
  assert (Hr : 0 <= p < 2 ^ 64) by (destruct Hp as [? _]; lia).
  pose proof (nc_linked _ _ _ C) as [Hl _].
  split; try done; try (rewrite Sh; by destruct (sih s)).
  - split; try done; try (rewrite Sh; by destruct (sih s)).
    + by apply list.Forall_singleton.
    + apply NoDup_singleton.
    + apply (nc_within _ _ _ C).
    + intros q ->%list_elem_of_singleton. rewrite Hfree, page_blocknr by done. tauto.
    + simpl. split; [|done]. by rewrite <- (next_agree (mview s1)).
    + rewrite V, Sh, load_write_same, Z.mod_small by done. by destruct (sih s).
    + exists p, []. rewrite Sh. split; [done|]. by destruct (sih s).
    + intros x Hx. cbn [app]. rewrite Hfree, list_elem_of_singleton. split; [|by apply Hpi].
      intros [? _]. by apply (Hap x).
  - rewrite V, load_write_disjoint, load_write_same, Z.mod_small; [done|done|].
    rewrite length_bytes_of. unfold disjoint_ranges, pi_log_head, pi_log_tail. lia.
  - eapply empty_agree; [exact Ha|]. pose proof (nc_empty _ _ _ C) as He. by rewrite list.Forall_singleton in He.
  - intros x [Ht Hx]. rewrite (Hout x Hx). apply (nc_frame _ _ _ C).
    intros (q & ->%list_elem_of_singleton & Hq). done.
Qed.

Lemma first_page_spec thorough pi s :
  inv (blocks s) → i_blk_type (sih s) = 0 → pi_apart s pi →
  (∃ s', nova_extend_inode_log cfg pages thorough pi 0 s = Ok (0, s') ∧ unchanged s s') ∨
  (∃ p s', nova_extend_inode_log cfg pages thorough pi 0 s = Ok (p, s') ∧ fresh_log s s' pi p).
Proof using All.
  intros I Hbt Hap. unfold nova_extend_inode_log, nova_initialize_inode_log. cbn [Z.eqb is_main].
  destruct (allocate_spec cfg 1 0 ALLOC_FROM_HEAD s I Hbt ltac:(lia))
    as (ret & nb & s1 & E & [(Hret & -> & Sh & I1 & V & F)|(new & Hret & Hlen & -> & C)]).
  { left. exists s1. split; [|done]. rewrite bind_assoc. erewrite bind_Ok; [|exact E]. cbv iota beta.
    by destruct (Z.eqb_spec ret 1); [lia|]. }
  right. destruct new as [|p [|? ?]]; [simpl in Hlen; lia| |simpl in Hlen; lia].
  exists p. rewrite bind_assoc. erewrite bind_Ok; [|exact E]. cbv iota beta.
  destruct (Z.eqb_spec ret 1); [|lia]. cbn [negb first].
  destruct (store_pointers_spec pi p (machine (blocks s1))) as (c & E2 & V2).
  rewrite bind_assoc. erewrite bind_Ok; [|apply on_pm_Ok; exact E2].
  unfold put_sih. rewrite bind_assoc. erewrite bind_Ok; [|done].
  destruct (flush_view cfg (pi + pi_log_head) CACHELINE_SIZE true c) as (c' & E3 & V3); [unfold CACHELINE_SIZE; lia|].
  rewrite bind_assoc. erewrite bind_Ok; [|apply on_pm_Ok; cbn [blocks]; rewrite machine_with; exact E3].
  erewrite bind_Ok; [|done]. cbn [Z.eqb negb]. rewrite Hcs. erewrite bind_Ok; [|done].
  cbn [Z.eqb negb]. erewrite bind_Ok; cycle 1.
  { apply on_pm_Ok. cbn [blocks]. rewrite machine_with. by apply nova_update_inode_checksum_eq. }
  match goal with |- ∃ s', gets _ ?st = _ ∧ _ => exists st end. split.
  { unfold gets. do 2 f_equal. cbn. by destruct (sih s1). }
  apply (fresh_log_intro s s1); try done; cbn [blocks sih].
  - by do 3 apply inv_with; apply (nc_inv _ _ _ C).
  - by rewrite (nc_sih _ _ _ C).
  - unfold mview. cbn [blocks]. rewrite !machine_with. cbn.
    rewrite apply_events_no_store; [by rewrite V3, V2|]. apply Forall_app. split; [apply is_flush_no_store, flush_events_flushes|].
    repeat constructor.
  - intros x. by rewrite !free_with.
Qed.

(** ** Giving the log back *)

(** The inode's log is gone: its pointers are null, its pages free. *)
Record freed_log (s s' : lstate A) (pi : Z) (ps : list Z) : Prop := {
  fr_inv : inv (blocks s');
  fr_sih : sih s' = sih s;
  fr_head : load 8 (mview s') (pi + pi_log_head) = 0;
  fr_tail : load 8 (mview s') (pi + pi_log_tail) = 0;
  fr_free : ∀ x, is_free (blocks s') x ↔ is_free (blocks s) x ∨ 4096 * x ∈ ps;
  fr_frame : agree (λ x, ¬ in_range pi 120 x) (mview s) (mview s')
}.

Definition null_pointers (pi : Z) (m : mem) : mem :=
  write_bytes (write_bytes (write_bytes (write_bytes m (pi + pi_log_tail) (bytes_of 8 0))
    (pi + pi_log_head) (bytes_of 8 0)) (pi + pi_alter_log_tail) (bytes_of 8 0))
    (pi + pi_alter_log_head) (bytes_of 8 0).

Lemma null_pointers_loads pi m :
  load 8 (null_pointers pi m) (pi + pi_log_head) = 0 ∧ load 8 (null_pointers pi m) (pi + pi_log_tail) = 0 ∧
  agree (λ x, ¬ in_range pi 120 x) m (null_pointers pi m).
Proof using pages.
  unfold null_pointers, pi_log_head, pi_log_tail, pi_alter_log_head, pi_alter_log_tail. split_and!.
  - rewrite !load_write_disjoint by (rewrite length_bytes_of; unfold disjoint_ranges; lia).
    by rewrite load_write_same.
  - rewrite !load_write_disjoint by (rewrite length_bytes_of; unfold disjoint_ranges; lia).
    by rewrite load_write_same.
  - intros x Hx. rewrite !write_bytes_out; [done|..]; rewrite length_bytes_of; unfold in_range in *; lia.
Qed.

Lemma store_nulls_spec pi (rest : M cpu ()) s :
  rest = mret () →
  ∃ s', (store 8 (pi + pi_log_tail) 0;; store 8 (pi + pi_log_head) 0;;
         store 8 (pi + pi_alter_log_tail) 0;; store 8 (pi + pi_alter_log_head) 0;;
         nova_update_inode_checksum cfg pi;; rest) s = Ok ((), s') ∧ view s' = null_pointers pi (view s).
Proof using Hcs pages.
  intros ->. run_step (store_eq 8 (pi + pi_log_tail) 0 s). set (s1 := log_state s _).
  run_step (store_eq 8 (pi + pi_log_head) 0 s1). set (s2 := log_state s1 _).
  run_step (store_eq 8 (pi + pi_alter_log_tail) 0 s2). set (s3 := log_state s2 _).
  run_step (store_eq 8 (pi + pi_alter_log_head) 0 s3). set (s4 := log_state s3 _).
  erewrite bind_Ok; [|by apply nova_update_inode_checksum_eq]. eexists. split; [done|].
  cbn. apply apply_events_no_store, Forall_app. split; [apply is_flush_no_store, flush_events_flushes|].
  repeat constructor.
Qed.

Lemma free_inode_log_spec pi s ps tl :
  log_ok s pi ps tl → log_tail (sih s) ≠ 0 → alter_log_head (sih s) = 0 →
  ∃ s', nova_free_inode_log cfg pages (Some pi) s = Ok (0, s') ∧ freed_log s s' pi (ps ++ tl).
Proof using All.
  intros L Ht Hah. unfold nova_free_inode_log. rewrite gets_bind.
  pose proof (lo_pages _ _ _ _ L) as Hpg. rewrite (lo_head _ _ _ _ L), Hah.
  destruct (lo_tail _ _ _ _ L) as (tp & rest & Etl & _).
  destruct (Z.eqb_spec (first (ps ++ tl) 0) 0) as [E|_].
  { assert (0 ∈ ps ++ tl) as Hin.
    { rewrite <- E, Etl. destruct ps; apply list_elem_of_here. }
    rewrite list.Forall_forall in Hpg. apply Hpg in Hin as [? _]. lia. }
  destruct (Z.eqb_spec (log_tail (sih s)) 0); [done|]. cbn [orb]. rewrite Hcs.
  destruct (store_nulls_spec pi (mret ()) (machine (blocks s))) as (c & E1 & V1); [done|].
  erewrite bind_Ok; [|apply on_pm_Ok; exact E1]. set (s1 := LState _ _).
  destruct (null_pointers_loads pi (mview s)) as (N1 & N2 & N3).
  assert (V : mview s1 = null_pointers pi (mview s)) by (unfold mview, s1; cbn; by rewrite machine_with, V1).
  assert (Hout : agree (tails (ps ++ tl)) (mview s) (mview s1)).
  { intros x Hx. rewrite V. apply N3. intros Hr. apply (proj2 (lo_pi _ _ _ _ L x Hr)). by apply tails_in_pages. }
  destruct (free_contiguous_spec cfg pages (ps ++ tl) s1) as (s2 & E2 & I2 & Sh2 & V2 & F2); try done.
  { apply inv_with, (lo_inv _ _ _ _ L). }
  { apply (lo_btype _ _ _ _ L). }
  { eapply linked_agree; [exact Hout|]. apply (lo_linked _ _ _ _ L). }
  { apply (lo_nodup _ _ _ _ L). }
  { apply (lo_within _ _ _ _ L). }
  { intros p Hp. cbn. rewrite free_with. by apply (lo_used _ _ _ _ L). }
  { apply chain_length; [done|done|apply (lo_nodup _ _ _ _ L)|apply (lo_within _ _ _ _ L)]. }
  erewrite bind_Ok; [|exact E2].
  assert (E3 : nova_free_contiguous_log_blocks cfg pages 0 s2 = Ok (0, s2)).
  { unfold nova_free_contiguous_log_blocks. rewrite gets_bind. by destruct pages. }
  erewrite bind_Ok; [|exact E3]. exists s2. split; [done|]. split; try done.
  - by rewrite V2, V.
  - by rewrite V2, V.
  - intros x. rewrite F2. cbn. by rewrite free_with.
  - by rewrite V2, V.
Qed.

(** A commit moves the tail towards the end of the chain. *)
Lemma log_ok_commit s pi ps tl q rest t :
  log_ok s pi ps (tl ++ q :: rest) → t / 4096 = q / 4096 →
  log_ok (LState (blocks s) (set_main (sih s) (log_head (sih s)) t)) pi (ps ++ tl) (q :: rest).
Proof using Type.
  intros [] Ht. split; rewrite <- ?app_assoc; try done; simpl.
  - rewrite <- lo_btype0. by destruct (sih s).
  - rewrite <- lo_head0. by destruct (sih s).
  - etrans; [apply lo_pi_head0|]. by destruct (sih s).
  - exists q, rest. split; [done|]. rewrite <- Ht. by destruct (sih s).
Qed.
End Ops.
