(* ===== verification/NovaLogAlloc.v ===== *)
(** * NOVA: the block allocator as the log's allocator

    [NovaBalloc], with the geometry of its free lists fixed at mount time,
    implements [LogAlloc] and keeps [LogAllocLaws]: the log of [NovaLog] runs on
    it.  Slab allocations are taken to succeed; [nova_free_blocks] drops the
    blocks when they do not. *)

From stdpp Require Import base list gmap.
From Stdlib Require Import ZArith Lia.
From coqutil Require Import Byte Word.LittleEndianList.
From S2P Require Import Prelude PMem NovaBase NovaBalloc NovaBallocProofs NovaBallocSpec NovaLog.
From S2P Require Import NovaLogProofs.

Local Open Scope Z_scope.

(** [this_cpu] is [nova_get_cpuid] of the running thread. *)
#[export] Instance balloc_log_alloc `{Crc} `{RBTree} (bc : balloc_cfg) (this_cpu : Z) : LogAlloc bstate := {|
  machine := pm;
  with_machine s c := BState (nodes s) (next_addr s) (lists s) (per_list_blocks s) c;
  new_log_blocks btype num d := nova_new_log_blocks bc this_cpu btype 0 num false ANY_CPU d;
  free_log_blocks btype blocknr num := nova_free_log_blocks bc btype blocknr num
|}.

Section Unique.
#[local] Set Default Proof Using "All".
Context `{Crc} `{RBTree} `{!RBTreeLaws}.
Variable bc : balloc_cfg.

(** The presentation of the lists is determined by the trees and the nodes. *)
Lemma ranges_unique h rs rs' :
  wf_ranges bc h rs → wf_ranges bc h rs' → r_addr <$> rs = r_addr <$> rs' → rs = rs'.
Proof.
  revert rs'. induction rs as [|x rs IH]; intros [|x' rs'] W W' E; try done.
  apply wf_ranges_cons in W as (Hx & _ & W & _). apply wf_ranges_cons in W' as (Hx' & _ & W' & _).
  simpl in E. injection E as Ea E. rewrite (IH rs' W W' E). f_equal.
  apply holds_node in Hx as (nd & Hn & Hlo & Hhi & _). apply holds_node in Hx' as (nd' & Hn' & Hlo' & Hhi' & _).
  rewrite Ea in Hn. destruct x, x'; simpl in *. congruence.
Qed.

Lemma wf_unique s R R' i :
  wf_state bc s R → wf_state bc s R' → (i < length (lists s))%nat → R i = R' i.
Proof.
  intros S S' Hi. destruct (lookup_lt_is_Some_2 _ _ Hi) as [fl Hfl].
  destruct (st_lists _ _ _ S i fl Hfl) as [[Ht W _ _ _] _ _], (st_lists _ _ _ S' i fl Hfl) as [[Ht' W' _ _ _] _ _].
  apply (ranges_unique (nodes s)); [done..|congruence].
Qed.
Lemma free_unique s R R' b :
  wf_state bc s R → wf_state bc s R' → free s R b ↔ free s R' b.
Proof.
  intros S S'. split; intros (i & Hi & Hb); exists i; (split; [done|]).
  - by rewrite <- (wf_unique s R R' i).
  - by rewrite (wf_unique s R R' i).
Qed.

End Unique.

Section Instance.
#[local] Set Default Proof Using "All".
Context `{Crc} `{RBTree} `{!RBTreeLaws}.
Variable bc : balloc_cfg.
Variable this_cpu : Z.
(** The lists' ranges. *)
Variable layouts : list fl_layout.
Hypothesis Hcpu : 0 <= this_cpu < Z.of_nat (length layouts).
Hypothesis Hslab : ∀ a, slab_ok bc a = true.
Hypothesis Hlayouts : Forall (λ l, 0 < block_start l ∧ block_end l < 2 ^ 51 ∧
  block_end l - block_start l < 2 ^ 32 - 1) layouts.

Definition balloc_inv (s : bstate) : Prop := (∃ R, wf_state bc s R) ∧ layout <$> lists s = layouts.
Definition balloc_free (s : bstate) (b : Z) : Prop := ∃ R, wf_state bc s R ∧ free s R b.
Definition balloc_within (b n : Z) : Prop :=
  ∃ l, l ∈ layouts ∧ block_start l <= b ∧ b + n - 1 <= block_end l.

Lemma balloc_free_eq s R b : wf_state bc s R → balloc_free s b ↔ free s R b.
Proof using H1.
  intros S. split; [|intros; by exists R]. intros (R' & S' & Hf). by rewrite (free_unique bc s R R').
Qed.

Lemma inv_layout s i fl :
  layout <$> lists s = layouts → lists s !! i = Some fl →
  layout fl ∈ layouts ∧ 0 < block_start (layout fl) ∧ block_end (layout fl) < 2 ^ 51 ∧
  block_end (layout fl) - block_start (layout fl) < 2 ^ 32 - 1.
Proof using Hlayouts.
  intros El Hi. assert (Hin : layout fl ∈ layouts).
  { rewrite <- El. apply list_elem_of_fmap_2, list_elem_of_lookup_2 with (i := i). done. }
  split; [done|]. rewrite list.Forall_forall in Hlayouts. by apply Hlayouts.
Qed.
Lemma inv_sane s : layout <$> lists s = layouts → sane s.
Proof using Hlayouts.
  intros El. split; intros i fl Hi; destruct (inv_layout s i fl El Hi) as (_ & ? & ? & ?); lia.
Qed.
Lemma wf_with_machine s R c :
  wf_state bc s R → wf_state bc (BState (nodes s) (next_addr s) (lists s) (per_list_blocks s) c) R.
Proof using Type. by intros []. Qed.

Lemma balloc_new_ok s num d :
  balloc_inv s → 0 < num < 2 ^ 32 →
  ∃ ret b s', nova_new_log_blocks bc this_cpu 0 0 num false ANY_CPU d s = Ok ((ret, b), s') ∧ balloc_inv s' ∧
    view (pm s') = view (pm s) ∧
    ((ret <= 0 ∧ ∀ x, balloc_free s' x ↔ balloc_free s x) ∨
     (0 < ret <= num ∧ balloc_within b ret ∧ (∀ x, b <= x < b + ret → balloc_free s x) ∧
      ∀ x, balloc_free s' x ↔ balloc_free s x ∧ ¬ b <= x < b + ret)).
Proof.
  intros [[R S] El] Hnum. unfold nova_new_log_blocks.
  destruct (new_blocks_spec bc s R this_cpu 0 num 0 false LOG ANY_CPU d S (inv_sane s El))
    as [[E _]|(n & b & s' & R' & E & [S' Hn Hb Hwere Hf _ _ Hl (i & fl & Hi & Hlo & Hhi)] & Hle & _ & V)].
  { change (ANY_CPU =? ANY_CPU) with true. cbn iota.
    rewrite <- El, length_fmap in Hcpu. split; change (num * nova_get_numblocks 0) with (num * 1); [done|lia|done|done]. }
  - exists (- ENOSPC), 0, s. split; [exact E|]. split_and!; [split; [by exists R|done]|done|]. left. split; [unfold ENOSPC; lia|done].
  - change (nova_get_numblocks 0) with 1 in *. rewrite Z.div_1_r, Z.mul_1_r in *.
    exists n, b, s'. split; [exact E|]. split_and!; [split; [by exists R'|by rewrite Hl]|done|].
    right. split_and!; [done|done| | |].
    + exists (layout fl). split; [|done]. apply (inv_layout s' i fl); [by rewrite Hl|done].
    + intros x Hx. apply (balloc_free_eq s R x S), Hwere. lia.
    + intros x. rewrite (balloc_free_eq s' R' x S'), (balloc_free_eq s R x S). apply Hf.
Qed.

Lemma balloc_free_any s b n (log : bool) :
  balloc_inv s → 0 < n → balloc_within b n → (∀ x, b <= x < b + n → ¬ balloc_free s x) →
  b ≠ 0 ∧ ∃ s', nova_free_blocks bc b n 0 log s = Ok (0, s') ∧ balloc_inv s' ∧
    view (pm s') = view (pm s) ∧ ∀ x, balloc_free s' x ↔ balloc_free s x ∨ b <= x < b + n.
Proof.
  intros [[R S] El] Hn (l & Hl & Hlo & Hhi) Hnf.
  assert (∃ i fl, lists s !! i = Some fl ∧ layout fl = l) as (i & fl & Hi & <-).
  { rewrite <- El in Hl. apply list_elem_of_fmap in Hl as (fl & -> & Hfl).
    apply list_elem_of_lookup_1 in Hfl as [i Hi]. by exists i, fl. }
  destruct (nova_free_blocks_eq bc s R b n 0 log i fl S (Hslab _))
    as (s' & R' & E & S' & Hf & (fl' & Hl' & _ & Hlay) & Hpm).
  { split; change (nova_get_numblocks 0) with 1; try done; [lia|].
    intros x Hx. rewrite <- (balloc_free_eq s R x S). apply Hnf. lia. }
  destruct (inv_layout s i fl El Hi) as (_ & Hpos & _).
  split; [lia|]. exists s'. split; [exact E|]. split_and!.
  - split; [by exists R'|]. rewrite Hl', list_fmap_insert, Hlay, list_insert_id; [done|].
    by rewrite list_lookup_fmap, Hi.
  - by rewrite Hpm.
  - intros x. rewrite (balloc_free_eq s' R' x S'), (balloc_free_eq s R x S), Hf.
    change (nova_get_numblocks 0) with 1. by rewrite Z.mul_1_l.
Qed.

Lemma balloc_free_ok s b n :
  balloc_inv s → 0 < n → balloc_within b n → (∀ x, b <= x < b + n → ¬ balloc_free s x) →
  ∃ ret s', nova_free_log_blocks bc 0 b n s = Ok (ret, s') ∧ balloc_inv s' ∧
    view (pm s') = view (pm s) ∧ ∀ x, balloc_free s' x ↔ balloc_free s x ∨ b <= x < b + n.
Proof.
  intros I Hn Hl Hf. destruct (balloc_free_any s b n true I Hn Hl Hf) as (Hb & s' & E & Hs).
  exists 0, s'. unfold nova_free_log_blocks. by destruct (Z.eqb_spec b 0).
Qed.

(** Between the lists lie checksum and parity blocks. *)
Hypothesis Hgap : ∀ l l', l ∈ layouts → l' ∈ layouts →
  ∀ x, block_start l <= x <= block_end l → block_start l' <= x + 1 <= block_end l' → l = l'.

#[export] Instance balloc_log_laws : @LogAllocLaws bstate (balloc_log_alloc bc this_cpu).
Proof.
  apply (Build_LogAllocLaws bstate (balloc_log_alloc bc this_cpu) balloc_inv balloc_free balloc_within).
  - done.
  - intros s c [[R S] El]. split; [exists R; by apply wf_with_machine|done].
  - intros s c x. split; intros (R & S & Hf); exists R; (split; [|done]); by destruct S.
  - intros b n x (l & Hl & Hlo & Hhi) Hx. rewrite list.Forall_forall in Hlayouts.
    specialize (Hlayouts l Hl). lia.
  - intros b n Hn (l & Hl & Hlo & Hhi) (l' & Hl' & Hlo' & Hhi'). exists l. split; [done|].
    assert (l = l') as -> by (apply (Hgap l l' Hl Hl' (b + n - 1)); lia). lia.
  - intros b n b' n' (l & Hl & Hlo & Hhi) ? ? ?. exists l. split; [done|lia].
  - apply balloc_new_ok.
  - apply balloc_free_ok.
Defined.
End Instance.
