(* ===== verification/NovaLogCrash.v ===== *)
(** * NOVA: appending is atomic

    NOVA appends an entry to an inode's log behind the tail, and then publishes
    it with one 8-byte store to the tail in the inode ([nova_append_log_entry],
    then [nova_update_inode]).  A power failure finds the log as it was or with
    the whole entry ([append_crash_atomic]). *)

From stdpp Require Import base list gmap.
From Stdlib Require Import ZArith Lia.
From coqutil Require Import Byte Word.LittleEndianList.
From S2P Require Import Prelude PMem NovaBase NovaJournal NovaInode NovaLogEntry NovaBalloc.
From S2P Require Import NovaLog NovaLogProofs NovaLogGc NovaLogOps.

Local Open Scope Z_scope.

(** ** Publishing with one store *)

(** Stores to [P], written back and fenced, then one more store: a crash leaves
    the bytes outside [P] alone or finds everything done. *)
Lemma publish_atomic (P : Z → Prop) m0 es nt a bs fl m :
  Forall ev_ok es → stores_in P es → (∀ l, unflushed l es = false) → Forall no_store fl →
  crash_during (PState m0 []) (es ++ EFence :: EStore nt a bs :: fl) m →
  agree (λ x, ¬ P x) m0 m ∨ mem_eq m (write_bytes (apply_events m0 es) a bs).
Proof.
  intros Hok Hin Hu Hfl Hc.
  assert (Hframe : ∀ x, ¬ P x → apply_events m0 es !!! x = m0 !!! x) by (intros x Hx; by apply (apply_events_frame P)).
  replace (es ++ EFence :: EStore nt a bs :: fl) with ((es ++ [EFence]) ++ EStore nt a bs :: fl) in Hc
    by (by rewrite <- app_assoc).
  destruct (fence_durable (PState m0 []) es eq_refl Hok Hu) as [Hnil Hd].
  apply crash_during_app in Hc as [Hc|Hc].
  - left. intros x Hx. symmetry. apply (crash_during_frame P (PState m0 []) (es ++ [EFence])); [|by events_in|done|done].
    intros p y Hp. by apply elem_of_nil in Hp.
  - apply (crash_one_store _ nt a bs fl m Hnil Hfl) in Hc as [->| ->].
    + left. intros x Hx. by rewrite Hd, Hframe.
    + right. intros x. rewrite !lookup_total_write_bytes. case_match; [done|apply Hd].
Qed.


(** ** Filling an entry *)

Section Append.
#[local] Set Default Proof Using "Type".
Context `{Crc} `{NocacheCopy} `{CachedWrite}.
Variable cfg : nova_cfg.
Hypothesis Hcs : metadata_csum cfg = false.

(** The entries that are written as fields, and those copied from DRAM. *)
Definition copied (info : nova_log_entry_info) : bool :=
  match ei_type info with
  | FILE_WRITE => negb (ei_inplace info)
  | MMAP_WRITE | SNAPSHOT_INFO => true
  | _ => false
  end.

Definition zeros (size : Z) : list byte := replicate (Z.to_nat size) Byte.x00.

(** The memory with the entry at [entry], on bytes that were cleared. *)
Definition entry_image (inode : vfs_inode) (info : nova_log_entry_info) (entry size : Z) (m : mem) : mem :=
  let m := write_bytes m entry (zeros size) in
  match inplace_fields inode info with
  | Some fs => write_fields entry fs m
  | None => write_bytes m entry (ei_data info)
  end.

(** A request the theorem covers: any entry but a dentry, with the prepared
    entry as long as its type says. *)
Record entry_request (inode : vfs_inode) (info : nova_log_entry_info) (size : Z) : Prop := {
  er_size : size = nova_get_log_entry_size (ei_type info);
  er_kind : (∃ fs, inplace_fields inode info = Some fs) ∨
            copied info = true ∧ Z.of_nat (length (ei_data info)) = size
}.

Definition entry_events (inode : vfs_inode) (info : nova_log_entry_info) (entry : Z) : list event :=
  match inplace_fields inode info with
  | Some fs => field_events entry fs ++ flush_events (support_clwb cfg) entry 64 ++ [EFence]
  | None => nocache_events entry (ei_data info) ++
            flush_events (support_clwb cfg) entry (Z.of_nat (length (ei_data info))) ++ [EFence]
  end.

Lemma size_range t : 0 <= nova_get_log_entry_size t <= 64 ∧ nova_get_log_entry_size t mod 4 = 0.
Proof. destruct t; by vm_compute. Qed.

Lemma copied_no_fields inode info : copied info = true → inplace_fields inode info = None.
Proof. unfold copied, inplace_fields. intros. repeat case_match; by simplify_eq. Qed.

Lemma update_entry_eq inode info entry size s :
  entry_request inode info size →
  nova_update_log_entry cfg inode entry info s = Ok (0, log_state s (entry_events inode info entry)).
Proof using Hcs.
  intros [Es Hk]. unfold entry_events. destruct Hk as [[fs Hf]|[Hc Hlen]].
  - rewrite Hf. by apply nova_update_log_entry_eq.
  - rewrite (copied_no_fields inode info Hc). pose proof (size_range (ei_type info)) as [Hr _].
    unfold nova_update_log_entry, copied, copy_to_pmem in *.
    destruct (ei_type info); try done; try (destruct (ei_inplace info); [done|]);
      rewrite bind_assoc; (erewrite bind_Ok; [|apply emits_eq]);
      (erewrite bind_Ok; [|apply nova_flush_buffer_eq; lia]); by rewrite log_state_app.
Qed.

Lemma zeros_length size : 0 <= size → Z.of_nat (length (zeros size)) = size.
Proof. intros. unfold zeros. rewrite length_replicate. lia. Qed.

Lemma entry_events_view inode info entry size m :
  mem_eq (apply_events m (cached_events entry (zeros size) ++ entry_events inode info entry))
    (entry_image inode info entry size m).
Proof.
  rewrite apply_events_app. pose proof (cached_view m entry (zeros size)) as Hz.
  unfold entry_events, entry_image. destruct (inplace_fields inode info) as [fs|];
    rewrite apply_events_app, (apply_events_no_store _ (flush_events _ _ _ ++ _)) by apply (flush_fence_no_store _ _ _ true).
  - rewrite <- field_events_view. intros x. by apply apply_events_local.
  - intros x. rewrite nocache_view, !lookup_total_write_bytes. case_decide; [done|]. rewrite Hz, lookup_total_write_bytes. done.
Qed.

Lemma entry_events_ok inode info entry size :
  entry mod 8 = 0 → entry_request inode info size →
  Forall ev_ok (cached_events entry (zeros size) ++ entry_events inode info entry).
Proof.
  intros Hm [Es Hk]. apply Forall_app. split; [apply cached_in_line|]. unfold entry_events.
  destruct (inplace_fields inode info) as [fs|] eqn:Hf; events_ok.
  - eapply field_events_ok; [done|]. by eapply inplace_fields_ok.
  - apply nocache_in_line.
Qed.

Lemma fields_size t : 8 * (nova_get_log_entry_size t / 8) <= nova_get_log_entry_size t.
Proof. destruct t; by vm_compute. Qed.

Lemma entry_events_in inode info entry size :
  entry_request inode info size →
  stores_in (in_range entry size) (cached_events entry (zeros size) ++ entry_events inode info entry).
Proof.
  intros [Es Hk]. pose proof (size_range (ei_type info)) as [Hr _]. rewrite <- Es in Hr.
  pose proof (fields_size (ei_type info)) as Hfs. rewrite <- Es in Hfs.
  apply stores_in_app. split.
  { pose proof (cached_stores entry (zeros size)) as Hc. by rewrite zeros_length in Hc by lia. }
  unfold entry_events. destruct (inplace_fields inode info) as [fs|] eqn:Hf; events_in.
  - eapply stores_in_mono; [eapply field_events_in; by eapply inplace_fields_ok|].
    rewrite <- Es. unfold in_range. intros x. lia.
  - destruct Hk as [[? ?]|[_ Hlen]]; [done|]. pose proof (nocache_stores entry (ei_data info)) as Hn.
    by rewrite Hlen in Hn.
Qed.

Lemma entry_events_flushed l inode info entry size :
  entry mod 8 = 0 → entry_request inode info size →
  unflushed l (cached_events entry (zeros size) ++ entry_events inode info entry) = false.
Proof.
  intros Hm Hreq. pose proof (entry_events_ok inode info entry size Hm Hreq) as Hok.
  pose proof (entry_events_in inode info entry size Hreq) as Hin. destruct Hreq as [Es Hk].
  pose proof (size_range (ei_type info)) as [Hr _]. rewrite <- Es in Hr. unfold entry_events in *.
  destruct (inplace_fields inode info) as [fs|] eqn:Hf; rewrite app_assoc in *;
    apply stores_in_app in Hin as [Hin _]; apply Forall_app in Hok as [Hok _];
    (apply unflushed_covered; [|eapply stores_in_mono; [exact Hin|]|done|by repeat constructor]).
  - lia.
  - unfold in_range. intros x. lia.
  - lia.
  - destruct Hk as [[? ?]|[_ Hlen]]; [done|]. by rewrite Hlen.
Qed.

(** ** Behind the tail, then the tail *)

Definition slot_events (inode : vfs_inode) (info : nova_log_entry_info) (x size n : Z) : list event :=
  cached_events x (zeros size) ++ entry_events inode info x ++
  EStore false (BLOCK_OFF x + pt_num_entries) (bytes_of 4 (n + 1)) ::
  flush_events (support_clwb cfg) (BLOCK_OFF x + LOG_BLOCK_TAIL) sizeof_page_tail.

(** The bytes the append may touch: its slot and the counters of its page. *)
Definition slot (x size y : Z) : Prop := in_range x size y ∨ tail_of (BLOCK_OFF x) y.

Lemma slot_size x size y : fits x size → in_range x size y → BLOCK_OFF x <= y < BLOCK_OFF x + LOG_BLOCK_TAIL.
Proof.
  intros Hf Hy. unfold fits in Hf. rewrite block_off_div. unfold in_range in Hy.
  pose proof (Z.div_mod x 4096). pose proof (Z.mod_pos_bound x 4096). lia.
Qed.

Lemma num_store_ok x n : ev_ok (EStore false (BLOCK_OFF x + pt_num_entries) (bytes_of 4 n)).
Proof.
  apply ev_ok_aligned; [lia|by exists 16|]. rewrite block_off_div. unfold pt_num_entries, LOG_BLOCK_TAIL.
  replace (4096 * (x / 4096) + (4064 + 4)) with ((1024 * (x / 4096) + 1017) * 4) by lia. apply Z.mod_mul. lia.
Qed.

Lemma num_store_in x n :
  stores_in (tail_of (BLOCK_OFF x)) [EStore false (BLOCK_OFF x + pt_num_entries) (bytes_of 4 n)].
Proof.
  apply stores_in_store; [|apply stores_in_nil]. intros y. rewrite length_bytes_of.
  unfold tail_of, in_range, pt_num_entries, LOG_BLOCK_TAIL. lia.
Qed.

Lemma slot_events_facts inode info x size n :
  x mod 8 = 0 → entry_request inode info size →
  Forall ev_ok (slot_events inode info x size n) ∧ stores_in (slot x size) (slot_events inode info x size n) ∧
  ∀ l, unflushed l (slot_events inode info x size n) = false.
Proof.
  intros Hm Hreq. unfold slot_events. rewrite app_assoc. split_and!.
  - apply Forall_app. split; [by apply entry_events_ok|]. events_ok. apply num_store_ok.
  - apply stores_in_app. split.
    + eapply stores_in_mono; [by apply entry_events_in|]. intros y ?. by left.
    + apply stores_in_cons. split; [|events_in].
      eapply stores_in_mono; [apply num_store_in|]. intros y ?. by right.
  - intros l. apply unflushed_app; [by apply (entry_events_flushed l inode info x size)|].
    rewrite <- (app_nil_r (flush_events _ _ _)).
    apply (unflushed_covered l [EStore false (BLOCK_OFF x + pt_num_entries) (bytes_of 4 (n + 1))]);
      [unfold sizeof_page_tail; lia|apply num_store_in| |constructor].
    events_ok. apply num_store_ok.
Qed.

(** The counter is read after the entry is written, which leaves it alone. *)
Lemma count_kept inode info x size m :
  fits x size → x mod 8 = 0 → entry_request inode info size →
  load 4 (apply_events m (cached_events x (zeros size) ++ entry_events inode info x)) (BLOCK_OFF x + pt_num_entries) =
  entries_of m (BLOCK_OFF x).
Proof.
  intros Hf Hm Hreq. apply load_ext. intros y Hy.
  apply (apply_events_frame (in_range x size)); [by apply entry_events_in|].
  intros Hin%slot_size; [|done]. unfold in_range, pt_num_entries, LOG_BLOCK_TAIL in *. lia.
Qed.

Context {A : Type} `{LogAlloc A} `{!LogAllocLaws}.
Variable pages : nat.

(** [nova_append_log_entry] where the entry fits the tail's page. *)
Lemma append_fits thorough pi inode info s x size :
  page_ok (BLOCK_OFF x) → log_tail (sih s) = x → x mod 8 = 0 → fits x size → 0 < size →
  entry_request inode info size →
  nova_append_log_entry cfg pages thorough pi inode info (LogUpdate 0 0 0 0) s =
  Ok ((0, LogUpdate (x + size) 0 x 0),
      LState (with_machine (blocks s) (log_state (machine (blocks s))
        (slot_events inode info x size (entries_of (mview s) (BLOCK_OFF x))))) (sih s)).
Proof using Hcs.
  intros Hp Ht Hm Hf Hs Hreq. pose proof (er_size _ _ _ Hreq) as Es.
  assert (Hx : 0 < x).
  { rewrite block_off_div in Hp. destruct Hp as [? _]. pose proof (Z.mul_div_le x 4096 ltac:(lia)). lia. }
  assert (Hlast : is_last_entry x size = false).
  { rewrite is_last_entry_eq by (unfold LOG_BLOCK_TAIL; pose proof (size_range (ei_type info)); lia).
    unfold fits in Hf. destruct (Z.gtb_spec (x mod 4096 + size) LOG_BLOCK_TAIL); lia. }
  unfold nova_append_log_entry.
  assert ((match ei_type info with DIR_LOG => ei_file_size info | t => nova_get_log_entry_size t end) = size) as ->.
  { rewrite Es. destruct Hreq as [_ [[fs Hk]|[Hk _]]]; unfold inplace_fields, copied in Hk; by destruct (ei_type info). }
  assert (Eh : nova_get_append_head cfg pages thorough pi (lu_tail (LogUpdate 0 0 0 0)) size MAIN_LOG false false s =
    Ok ((x, false), s)).
  { unfold nova_get_append_head. rewrite gets_bind. cbn [lu_tail Z.eqb negb is_main]. rewrite Ht.
    destruct (Z.eqb_spec x 0); [lia|]. rewrite Hlast. do 2 (erewrite bind_Ok; [|done]; cbv iota beta).
    by rewrite Hlast. }
  erewrite bind_Ok; [|exact Eh]. cbv iota beta. destruct (Z.eqb_spec x 0); [lia|].
  erewrite bind_Ok; cycle 1.
  { apply on_pm_Ok. rewrite nova_get_block_Some by lia. erewrite bind_Ok; [|done].
    unfold zero_entry. erewrite bind_Ok; [|apply emits_eq].
    erewrite bind_Ok; [|by apply (update_entry_eq inode info x size)].
    unfold nova_inc_page_num_entries. rewrite page_get_block by done. erewrite bind_Ok; [|done].
    erewrite bind_Ok; [|apply fetch_eq]. erewrite bind_Ok; [|apply store_eq].
    unfold flush_page_tail. apply nova_flush_buffer_eq. unfold sizeof_page_tail. lia. }
  rewrite Hcs. unfold mret, M_ret. do 2 f_equal.
  - rewrite wrap_small; [done|]. destruct Hp as [Hp _]. rewrite block_off_div in Hp.
    pose proof (Z.div_mod x 4096). pose proof (Z.mod_pos_bound x 4096). pose proof (size_range (ei_type info)). lia.
  - rewrite !log_state_app. cbn [fence_events]. rewrite app_nil_r.
    change (view (log_state (machine (blocks s)) ?es)) with (apply_events (mview s) es).
    change (replicate (Z.to_nat size) Byte.x00) with (zeros size).
    rewrite (count_kept inode info x size (mview s)) by done. done.
Qed.

(** *** Failure atomicity *)

(** The append, and the update of the inode that publishes it. *)
Definition append_and_publish (thorough : Z → Z → M (lstate A) ()) (pi : Z) (inode : vfs_inode)
    (info : nova_log_entry_info) (hdr : inode_hdr) : M (lstate A) (Z * inode_hdr) :=
  '(ret, u) ← nova_append_log_entry cfg pages thorough pi inode info (LogUpdate 0 0 0 0);
  if negb (ret =? 0) then mret (ret, hdr) else
  hdr ← on_pm (nova_update_inode cfg hdr pi (InodeUpdate (lu_tail u) (lu_alter_tail u)) false);
  mret (ret, hdr).

(** The state after it: the entry filled, counted and published. *)
Record appended (inode : vfs_inode) (info : nova_log_entry_info) (pi x size : Z) (m m' : mem) : Prop := {
  ap_tail : load 8 m' (pi + pi_log_tail) = x + size;
  ap_entry : agree (in_range x size) (entry_image inode info x size m) m';
  ap_count : entries_of m' (BLOCK_OFF x) = u32 (entries_of m (BLOCK_OFF x) + 1);
  ap_frame : agree (λ y, ¬ slot x size y ∧ ¬ in_range (pi + pi_log_tail) 8 y) m m'
}.

Lemma slot_view inode info x size m :
  fits x size → x mod 8 = 0 → entry_request inode info size →
  let m' := apply_events m (slot_events inode info x size (entries_of m (BLOCK_OFF x))) in
  agree (in_range x size) (entry_image inode info x size m) m' ∧
  entries_of m' (BLOCK_OFF x) = u32 (entries_of m (BLOCK_OFF x) + 1) ∧ agree (λ y, ¬ slot x size y) m m'.
Proof using Type.
  intros Hf Hm Hreq m'. destruct (slot_events_facts inode info x size (entries_of m (BLOCK_OFF x)) Hm Hreq) as (_ & Hin & _).
  set (m1 := apply_events m (cached_events x (zeros size) ++ entry_events inode info x)).
  assert (Em : m' = write_bytes m1 (BLOCK_OFF x + pt_num_entries) (bytes_of 4 (entries_of m (BLOCK_OFF x) + 1))).
  { unfold m', slot_events. rewrite app_assoc, apply_events_app, apply_events_cons. fold m1.
    apply apply_events_no_store, is_flush_no_store, flush_events_flushes. }
  split_and!.
  - intros y Hy. rewrite Em, write_bytes_out, <- (entry_events_view inode info x size m y); [done|].
    rewrite length_bytes_of. apply (slot_size x size y Hf) in Hy. unfold in_range, pt_num_entries, LOG_BLOCK_TAIL in *. lia.
  - rewrite Em. unfold entries_of. by rewrite load_write_same.
  - intros y Hy. symmetry. by apply (apply_events_frame (slot x size)).
Qed.

Lemma tail_events_split pi t : ∃ fl, tail_update_events cfg pi t =
    EFence :: EStore false (pi + pi_log_tail) (bytes_of 8 t) :: fl ++ [EFence] ∧ Forall no_store fl.
Proof using Type.
  exists (flush_events (support_clwb cfg) (pi + pi_log_tail) 64 ++ [EFence] ++ flush_events (support_clwb cfg) pi 120).
  split; [unfold tail_update_events; by rewrite <- !app_assoc|].
  apply Forall_app. split; [apply is_flush_no_store, flush_events_flushes|].
  apply Forall_app. split; [by repeat constructor|apply is_flush_no_store, flush_events_flushes].
Qed.

Lemma publish_complete es pi t m0 :
  Forall ev_ok es → (∀ l, unflushed l es = false) → pi mod 8 = 0 →
  let s := pexec (PState m0 []) (es ++ tail_update_events cfg pi t) in
  inflight s = [] ∧ mem_eq (durable s) (write_bytes (apply_events m0 es) (pi + pi_log_tail) (bytes_of 8 t)).
Proof using Type.
  intros Hok Hu Hm. destruct (tail_events_split pi t) as (fl & E & Hfl).
  pose proof (tail_update_ok cfg pi t Hm) as Htok.
  pose proof (λ l, tail_update_flushed cfg l pi t [] Hm (stores_in_nil _) (List.Forall_nil _)) as Hfu.
  cbn [app] in Hfu. rewrite E in *.
  set (es2 := es ++ EFence :: EStore false (pi + pi_log_tail) (bytes_of 8 t) :: fl).
  replace (es ++ EFence :: EStore false (pi + pi_log_tail) (bytes_of 8 t) :: fl ++ [EFence]) with (es2 ++ [EFence])
    by (unfold es2; by rewrite <- app_assoc).
  destruct (fence_durable (PState m0 []) es2 eq_refl) as [Hn Hd].
  - apply Forall_app. split; [done|]. rewrite !app_comm_cons in Htok. by apply Forall_app in Htok as [? _].
  - intros l. apply unflushed_app; [done|]. specialize (Hfu l).
    rewrite !app_comm_cons in Hfu. unfold unflushed in *. by rewrite foldl_app_eq in Hfu.
  - split; [done|]. intros y. rewrite Hd. unfold es2. cbn [durable].
    rewrite apply_events_app, !apply_events_cons, (apply_events_no_store _ fl) by done. done.
Qed.

Lemma appended_intro inode info pi x size m :
  fits x size → x mod 8 = 0 → entry_request inode info size → 0 <= x + size < 2 ^ 64 →
  (∀ y, in_range pi 120 y → ¬ slot x size y) →
  appended inode info pi x size m
    (write_bytes (apply_events m (slot_events inode info x size (entries_of m (BLOCK_OFF x))))
       (pi + pi_log_tail) (bytes_of 8 (x + size))).
Proof using Type.
  intros Hf Hm Hreq Hr Hapart. destruct (slot_view inode info x size m Hf Hm Hreq) as (S1 & S2 & S3).
  assert (Htail : ∀ y, in_range (pi + pi_log_tail) 8 y → ¬ slot x size y).
  { intros y Hy. apply Hapart. unfold in_range, pi_log_tail in *. lia. }
  split.
  - rewrite load_write_same. by apply Z.mod_small.
  - intros y Hy. rewrite write_bytes_out; [by apply S1|]. rewrite length_bytes_of. intros Ht.
    apply (Htail y Ht). by left.
  - rewrite <- S2. symmetry. apply load_ext. intros y Hy. symmetry. apply write_bytes_out.
    rewrite length_bytes_of. intros Ht. apply (Htail y Ht). right.
    unfold tail_of, in_range, pt_num_entries, LOG_BLOCK_TAIL in *. lia.
  - intros y [Hy Ht]. rewrite write_bytes_out; [by apply S3|]. by rewrite length_bytes_of.
Qed.

Lemma entry_end_range x size : page_ok (BLOCK_OFF x) → fits x size → 0 < size → 0 <= x + size < 2 ^ 64.
Proof using Type.
  intros [Hp _] Hf Hs. rewrite block_off_div in Hp. unfold fits, LOG_BLOCK_TAIL in Hf.
  pose proof (Z.div_mod x 4096). pose proof (Z.mod_pos_bound x 4096). lia.
Qed.

End Append.
