(* ===== verification/NovaLogMain.v ===== *)
(** * NOVA: what the log pages guarantee

    The theorems about the log of an inode, over any allocator that keeps
    [LogAllocLaws], and the same small device as in [NovaBallocMain], on which
    the log runs over the block allocator itself. *)

From stdpp Require Import base list gmap.
From Stdlib Require Import ZArith Lia.
From coqutil Require Import Byte Word.LittleEndianList.
From S2P Require Import Prelude PMem NovaBase NovaJournal NovaInode NovaLogEntry.
From S2P Require Import NovaBalloc NovaBallocProofs NovaBallocSpec NovaBallocMain.
From S2P Require Import NovaLog NovaLogProofs NovaLogGc NovaLogOps NovaLogAlloc NovaLogCrash.

Local Open Scope Z_scope.


Section Main.
#[local] Set Default Proof Using "All".
Context `{Crc} `{NocacheCopy} `{CachedWrite} {A : Type} `{LogAlloc A} `{!LogAllocLaws}.
Variable cfg : nova_cfg.
Variable pages : nat.
Hypothesis Hcs : metadata_csum cfg = false.
Hypothesis Hrd : reads_ok cfg.
Hypothesis Hdev : ∀ b x, within b 1 → b <= x < b + 1 → x < Z.of_nat pages.
Hypothesis Hpages : Z.of_nat pages < 2 ^ 63.

(** The first page of a log.  [nova_extend_inode_log] on an inode without
    a log either returns 0 and changes nothing, or returns a page that was free:
    it is empty, it is the whole log, and head and tail, in DRAM and in the
    inode, point to it. *)
Theorem first_page_correct thorough pi s :
  inv (blocks s) → i_blk_type (sih s) = 0 → pi_apart s pi →
  (∃ s', nova_extend_inode_log cfg pages thorough pi 0 s = Ok (0, s') ∧ unchanged s s') ∨
  (∃ p s', nova_extend_inode_log cfg pages thorough pi 0 s = Ok (p, s') ∧ fresh_log s s' pi p).
Proof. by apply first_page_spec. Qed.

(** C9: growing a log keeps it.  [nova_extend_inode_log] either returns 0 and
    changes nothing, or links at most [EXTEND_THRESHOLD] empty pages that were
    free behind the log's last page, takes out exactly the dead pages before the
    tail page and frees them, leaves the other pages in order and their counters
    alone, and writes nothing but page tails and the inode's heads; what it
    hands to the thorough collection is a log again. *)
Theorem extend_log_correct thorough pi curr_p s ps tl lp :
  log_ok s pi ps (tl ++ [lp]) → BLOCK_OFF curr_p = lp → 0 < log_pages (sih s) →
  (∃ s', nova_extend_inode_log cfg pages thorough pi curr_p s = Ok (0, s') ∧ unchanged s s') ∨
  (∃ new s', nova_extend_inode_log cfg pages thorough pi curr_p s =
      (after_gc thorough (Z.of_nat (length (live (mview s) ps)));; mret (first new 0) : M (lstate A) Z) s' ∧
    Z.of_nat (length new) <= EXTEND_THRESHOLD ∧ grown_log s s' pi ps (tl ++ [lp]) new).
Proof. by apply extend_spec. Qed.

(** The place of an entry.  From a position in a page of the log,
    [nova_get_append_head] returns the position itself when the entry fits the
    page, else flags the page's end and goes to the next page, or grows the log
    and goes to its first new page; it fails only when no block is free. *)
Theorem append_head_correct thorough pi tail size ext s ps tl q rest x :
  log_ok s pi ps (tl ++ q :: rest) → x = (if tail =? 0 then log_tail (sih s) else tail) →
  BLOCK_OFF x = q → 0 < size <= LOG_BLOCK_TAIL → 0 < log_pages (sih s) →
  head_outcome thorough s pi x size ext ps tl q rest
    (nova_get_append_head cfg pages thorough pi tail size MAIN_LOG false ext s).
Proof. by apply append_head_spec. Qed.

(** C30: [nova_free_inode_log] nulls the inode's pointers and frees exactly the
    pages of the log, writing nothing outside the inode. *)
Theorem free_inode_log_correct pi s ps tl :
  log_ok s pi ps tl → log_tail (sih s) ≠ 0 → alter_log_head (sih s) = 0 →
  ∃ s', nova_free_inode_log cfg pages (Some pi) s = Ok (0, s') ∧ freed_log s s' pi (ps ++ tl).
Proof. by apply free_inode_log_spec. Qed.

(** Freeing the chain that [nova_allocate_inode_log_pages] returned
    restores the set of free blocks and counts the same pages. *)
Theorem log_pages_roundtrip num nb d s ret p s1 :
  inv (blocks s) → i_blk_type (sih s) = 0 → 0 < num < 2 ^ 32 →
  nova_allocate_inode_log_pages cfg num nb d s = Ok ((ret, p), s1) → 0 < ret →
  ∃ s2, nova_free_contiguous_log_blocks cfg pages p s1 = Ok (ret, s2) ∧ inv (blocks s2) ∧
    sih s2 = sih s ∧ ∀ x, is_free (blocks s2) x ↔ is_free (blocks s) x.
Proof.
  intros I Hbt Hnum E Hret.
  destruct (allocate_spec cfg num nb d s I Hbt Hnum)
    as (r & nb' & s' & E' & [(Hr & _)|(ps & Hr & Hlen & -> & C)]); rewrite E in E'; simplify_eq; [lia|].
  destruct (free_contiguous_spec cfg pages ps s' Hrd (nc_inv _ _ _ C))
    as (s2 & E2 & I2 & Sh2 & _ & F2).
  { by rewrite (nc_sih _ _ _ C). }
  { apply (nc_linked _ _ _ C). }
  { apply (nc_pages _ _ _ C). }
  { apply (nc_nodup _ _ _ C). }
  { apply (nc_within _ _ _ C). }
  { intros q Hq Hf. apply (nc_left _ _ _ C) in Hf as [_ Hf]. rewrite page_blocknr in Hf; [done|].
    pose proof (nc_pages _ _ _ C) as Hp. rewrite list.Forall_forall in Hp. by apply Hp. }
  { apply chain_length; [done|apply (nc_pages _ _ _ C)|apply (nc_nodup _ _ _ C)|apply (nc_within _ _ _ C)]. }
  exists s2. split_and!; try done; [by rewrite Sh2, (nc_sih _ _ _ C)|].
  intros x. rewrite F2, (nc_left _ _ _ C). split; [|destruct (decide (4096 * x ∈ ps)); tauto].
  intros [[? _]|Hx]; [done|]. rewrite <- (block_page x). by apply (nc_free _ _ _ C).
Qed.
End Main.

(** ** A small device *)

Module LogDemo.
#[local] Existing Instance plain_tree.
#[local] Existing Instance plain_tree_laws.
#[local] Existing Instance bytewise_copy.
#[local] Existing Instance bytewise_write.
#[local] Instance crc : Crc := bitwise_crc false.

(** 1024 blocks on two CPUs, for logs keep 256 blocks apart ([DEAD_ZONE_BLOCKS]);
    the inode lies in a reserved block. *)
Definition bc : balloc_cfg := BallocCfg true 4194304 1024 2 4 0 (λ _, true).
Definition off : bstate := BState ∅ O (replicate 2 empty_list) 0 (Cpu ∅ []).
Definition booted : bstate := match nova_init_blockmap bc false off with Ok (_, s) => s | _ => off end.
Definition R0 : nat → list range := init_ranges bc O.
Definition cfg : nova_cfg := NovaCfg true false 2 (λ _ _, 0).
Definition pi : Z := 4096 * 2.
Definition layouts : list fl_layout := layout <$> lists booted.
Definition no_gc (b c : Z) : M (lstate bstate) () := mret ().
#[local] Instance alloc : LogAlloc bstate := balloc_log_alloc bc 0.

Lemma log_booted_wf : wf_state bc booted R0 ∧
  (∀ b, free booted R0 b ↔ ∃ i, 0 <= i < 2 ∧ list_start bc i <= b <= list_end bc i).
Proof.
  destruct (init_blockmap_spec bc off) as (s & E & _ & S & Hf); [by split|done..|].
  assert (E' : nova_init_blockmap bc false off = Ok ((), booted)) by (vm_compute; reflexivity).
  rewrite E' in E. injection E as <-. by split.
Qed.

Lemma demo_cpu : 0 <= 0 < Z.of_nat (length layouts).
Proof. by vm_compute. Qed.
Lemma layouts_eq : layouts = [FlLayout 4 508 4 8 451 57 65 507; FlLayout 512 1020 4 516 963 57 573 1019].
Proof. vm_compute. reflexivity. Qed.
Lemma demo_layouts : Forall (λ l, 0 < block_start l ∧ block_end l < 2 ^ 51 ∧
  block_end l - block_start l < 2 ^ 32 - 1) layouts.
Proof. rewrite layouts_eq. repeat (apply Forall_cons; split; [simpl; lia|]). constructor. Qed.
Lemma demo_gap : ∀ l l', l ∈ layouts → l' ∈ layouts →
  ∀ x, block_start l <= x <= block_end l → block_start l' <= x + 1 <= block_end l' → l = l'.
Proof.
  rewrite layouts_eq. intros l l' Hl Hl' x. rewrite !elem_of_cons, elem_of_nil in Hl, Hl'.
  destruct Hl as [->|[->|[]]], Hl' as [->|[->|[]]]; simpl; try done; lia.
Qed.
#[local] Instance laws : LogAllocLaws :=
  balloc_log_laws bc 0 layouts demo_cpu (λ _, eq_refl) demo_layouts demo_gap.

Lemma demo_dev : ∀ b x, within b 1 → b <= x < b + 1 → x < Z.of_nat 1024.
Proof.
  intros b x (l & Hl & Hlo & Hhi) Hx. revert Hl. rewrite layouts_eq, !elem_of_cons, elem_of_nil.
  intros [->|[->|[]]]; simpl in *; lia.
Qed.
Lemma demo_inv : inv booted.
Proof. split; [|done]. eexists. apply log_booted_wf. Qed.
Lemma demo_reads : reads_ok cfg.
Proof. by intros p n. Qed.

(** An inode without a log. *)
Definition start : lstate bstate := LState booted (Sih pi 0 0 0 0 0 0 0 0 0).
Lemma demo_apart : pi_apart start pi.
Proof.
  intros x Hx Hf. unfold in_range, pi in Hx. assert (x / 4096 = 2) as E by (symmetry; apply (Z.div_unique x 4096 2 (x - 8192)); lia).
  rewrite E in Hf. apply (balloc_free_eq bc _ _ 2 (proj1 log_booted_wf)) in Hf.
  apply (proj2 log_booted_wf) in Hf as (i & Hi & Hlo & Hhi).
  assert (i = 0 ∨ i = 1) as [->| ->] by lia; by vm_compute in Hlo, Hhi.
Qed.



(** The first page, at block 65. *)
Definition s1 : lstate bstate :=
  match nova_extend_inode_log cfg 1024 no_gc pi 0 start with Ok (_, s) => s | _ => start end.
Lemma s1_run : nova_extend_inode_log cfg 1024 no_gc pi 0 start = Ok (4096 * 65, s1).
Proof. vm_compute. reflexivity. Qed.
#[local] Opaque s1.
Lemma s1_fresh : fresh_log start s1 pi (4096 * 65).
Proof.
  destruct (first_page_spec cfg 1024 eq_refl demo_reads demo_dev eq_refl no_gc pi start demo_inv eq_refl demo_apart)
    as [(s & E & _)|(p & s & E & F)]; rewrite s1_run in E.
  - discriminate E.
  - apply Ok_inj in E as [<- <-]. exact F.
Qed.

Lemma first_page_correct_witness :
  (∃ s', nova_extend_inode_log cfg 1024 no_gc pi 0 start = Ok (0, s') ∧ unchanged start s') ∨
  (∃ p s', nova_extend_inode_log cfg 1024 no_gc pi 0 start = Ok (p, s') ∧ fresh_log start s' pi p).
Proof. exact (first_page_correct cfg 1024 eq_refl demo_reads demo_dev eq_refl no_gc pi start demo_inv eq_refl demo_apart). Defined.

(** Grown by one page, at block 66. *)
Definition s2 : lstate bstate :=
  match nova_extend_inode_log cfg 1024 no_gc pi (4096 * 65) s1 with Ok (_, s) => s | _ => start end.
Lemma s2_run : nova_extend_inode_log cfg 1024 no_gc pi (4096 * 65) s1 = Ok (4096 * 66, s2).
Proof. vm_compute. reflexivity. Qed.
Lemma no_gc_runs n s : after_gc no_gc n s = Ok ((), s).
Proof. unfold after_gc. rewrite gets_bind. by destruct (thorough_gc_blocks _ _ _). Qed.
Lemma s2_pages : log_pages (sih s2) = 2.
Proof. vm_compute. reflexivity. Qed.
#[local] Opaque s2.
Lemma s2_grown : grown_log s1 s2 pi [] [4096 * 65] [4096 * 66].
Proof.
  destruct (extend_spec cfg 1024 eq_refl demo_reads demo_dev eq_refl no_gc pi (4096 * 65) s1 [] [] (4096 * 65))
    as [(s & E & _)|(new & s & E & Hn & G)].
  - apply s1_fresh.
  - done.
  - by rewrite (fl_pages _ _ _ _ s1_fresh).
  - rewrite s2_run in E. discriminate E.
  - rewrite s2_run in E. erewrite bind_Ok in E; [|apply no_gc_runs]. apply Ok_inj in E as [E <-].
    pose proof (gr_pages _ _ _ _ _ _ G) as Hp. rewrite s2_pages, (fl_pages _ _ _ _ s1_fresh) in Hp.
    unfold EXTEND_THRESHOLD in Hn. change (dead_pages _ []) with (@nil Z) in Hp.
    rewrite wrap_small in Hp by (simpl length; lia).
    destruct new as [|n [|n' new]]; [simpl in Hp; lia| |simpl in Hp; lia].
    simpl in E. by subst n.
Qed.

(** A commit moves the tail into the second page; the first has no live entry. *)
Definition s3 : lstate bstate :=
  LState (blocks s2) (set_main (sih s2) (log_head (sih s2)) (4096 * 66 + 64)).
Lemma s3_ok : log_ok s3 pi [4096 * 65] [4096 * 66].
Proof.
  exact (log_ok_commit s2 pi [] [4096 * 65] (4096 * 66) [] (4096 * 66 + 64) (gr_log _ _ _ _ _ _ s2_grown) eq_refl).
Qed.
Lemma s3_pages : log_pages (sih s3) = 2.
Proof. unfold s3. simpl. rewrite <- s2_pages. by destruct (sih s2). Qed.

Lemma extend_log_correct_witness :
  dead (mview s3) (4096 * 65) ∧
  ((∃ s', nova_extend_inode_log cfg 1024 no_gc pi (4096 * 66 + 64) s3 = Ok (0, s') ∧ unchanged s3 s') ∨
  (∃ new s', nova_extend_inode_log cfg 1024 no_gc pi (4096 * 66 + 64) s3 =
      (after_gc no_gc (Z.of_nat (length (live (mview s3) [4096 * 65])));; mret (first new 0) : M (lstate bstate) Z) s' ∧
    Z.of_nat (length new) <= EXTEND_THRESHOLD ∧ grown_log s3 s' pi [4096 * 65] [4096 * 66] new)).
Proof.
  split; [by vm_compute|].
  apply (extend_log_correct cfg 1024 eq_refl demo_reads demo_dev eq_refl no_gc pi (4096 * 66 + 64) s3
    [4096 * 65] [] (4096 * 66) s3_ok); [reflexivity|by rewrite s3_pages].
Defined.

Lemma append_head_correct_witness :
  head_outcome no_gc s3 pi (4096 * 66 + 4040) 64 false [4096 * 65] [] (4096 * 66) []
    (nova_get_append_head cfg 1024 no_gc pi (4096 * 66 + 4040) 64 MAIN_LOG false false s3).
Proof.
  apply (append_head_correct cfg 1024 eq_refl demo_reads demo_dev eq_refl no_gc pi (4096 * 66 + 4040) 64 false s3
    [4096 * 65] [] (4096 * 66) [] (4096 * 66 + 4040) s3_ok); [reflexivity|reflexivity|unfold LOG_BLOCK_TAIL; lia|by rewrite s3_pages].
Defined.

Lemma free_inode_log_correct_witness :
  ∃ s', nova_free_inode_log cfg 1024 (Some pi) s3 = Ok (0, s') ∧ freed_log s3 s' pi [4096 * 65; 4096 * 66].
Proof.
  apply (free_inode_log_correct cfg 1024 eq_refl demo_reads demo_dev eq_refl pi s3 [4096 * 65] [4096 * 66] s3_ok).
  - unfold s3. simpl. by destruct (sih s2).
  - by vm_compute.
Defined.

(** A setattr entry at the start of the first page. *)
Definition vnode : vfs_inode := VfsInode 420 0 0 100 7 8 9 1 3 0.
Definition info : nova_log_entry_info := EntryInfo SET_ATTR 1 0 [] 5 6 0 0 0 0 true.
Definition hdr : inode_hdr := InodeHdr pi 0 (4096 * 65) 0.

Definition s4 : lstate bstate :=
  match nova_allocate_inode_log_pages cfg 3 0 ALLOC_FROM_HEAD start with Ok (_, s) => s | _ => start end.
Lemma s4_run : nova_allocate_inode_log_pages cfg 3 0 ALLOC_FROM_HEAD start = Ok ((3, 4096 * 65), s4).
Proof. vm_compute. reflexivity. Qed.
Lemma log_pages_roundtrip_witness :
  ∃ s', nova_free_contiguous_log_blocks cfg 1024 (4096 * 65) s4 = Ok (3, s') ∧ inv (blocks s') ∧
    sih s' = sih start ∧ ∀ x, is_free (blocks s') x ↔ is_free (blocks start) x.
Proof.
  exact (log_pages_roundtrip cfg 1024 eq_refl demo_reads demo_dev eq_refl 3 0 ALLOC_FROM_HEAD start 3 (4096 * 65) s4
    demo_inv eq_refl (conj eq_refl eq_refl) s4_run eq_refl).
Defined.

End LogDemo.
