(* ===== verification/NovaFile.v ===== *)
(** * NOVA: the pages of a file

    A regular file maps page offsets to write entries of its log through a
    radix tree in DRAM; a write entry names a run of data blocks.  Writing maps
    pages to a new entry and retires the pages of the old ones
    ([nova_assign_write_entry], [log.c]); truncation unmaps
    ([nova_delete_file_tree], [inode.c]); seeking looks for mapped pages
    ([nova_find_region]).  The proofs are in [NovaFileProofs] and
    [NovaFileMain]. *)

From stdpp Require Import base list gmap.
From Stdlib Require Import ZArith Lia.
From coqutil Require Import Byte Word.LittleEndianList.
From S2P Require Import Prelude PMem NovaBase NovaJournal NovaInode NovaLogEntry NovaIntegrity.
From S2P Require Import NovaBalloc NovaLog.

Local Open Scope Z_scope.

(** ** The kernel's radix tree, and the data blocks *)

(** Items are pointers.  [radix_replace] is [radix_tree_replace_slot] of the
    slot a lookup found; [radix_next] is [radix_tree_gang_lookup] of one item. *)
Class RadixTree (T : Type) := {
  radix_lookup : T → Z → option Z;
  radix_replace : T → Z → Z → T;
  radix_insert : T → Z → Z → Z * T;               (* 0 or an error *)
  radix_delete : T → Z → option Z * T;
  radix_next : T → Z → option Z
}.

Class DataAlloc (A : Type) := {
  free_data_blocks : Z → Z → Z → M A Z            (* btype, blocknr, num *)
}.

(** ** Data *)

(** What is read of a [struct nova_file_write_entry]. *)
Definition fw_block : Z := 8.
Definition fw_pgoff : Z := 16.
Record wentry := WEntry {
  we_reassigned : Z; we_num_pages : Z; we_block : Z; we_pgoff : Z; we_epoch_id : Z
}.
Definition wentry_at (m : mem) (e : Z) : wentry :=
  WEntry (load 1 m (e + fw_reassigned)) (load 4 m (e + fw_num_pages)) (load 8 m (e + fw_block))
    (load 8 m (e + fw_pgoff)) (load 8 m (e + fw_epoch_id)).

(** The sizes in the inode and in NOVA's part of it. *)
Record file_head := FileHead {
  h_size : Z;             (* sih->i_size *)
  h_blocks : Z;           (* sih->i_blocks *)
  v_size : Z;             (* inode->i_size *)
  v_blocks : Z;           (* inode->i_blocks *)
  v_time : Z              (* inode->i_mtime = inode->i_ctime *)
}.

(** A file: its log, its mapping, its sizes, and the snapshots of the file
    system ([snapshot_info_tree], each info under its epoch id). *)
Record fstate (A T : Type) := FState {
  flog : lstate A; mapping : T; head : file_head; snapshots : T
}.
Arguments FState {A T}.
Arguments flog {A T}.
Arguments mapping {A T}.
Arguments head {A T}.
Arguments snapshots {A T}.

Definition set_h_blocks (h : file_head) (n : Z) : file_head :=
  FileHead (h_size h) n (v_size h) (v_blocks h) (v_time h).
Definition set_v_blocks (h : file_head) (n : Z) : file_head :=
  FileHead (h_size h) (h_blocks h) (v_size h) n (v_time h).
Definition set_time (h : file_head) (t : Z) : file_head :=
  FileHead (h_size h) (h_blocks h) (v_size h) (v_blocks h) t.
Definition set_sizes (h : file_head) (n : Z) : file_head :=
  FileHead n (h_blocks h) n (v_blocks h) (v_time h).

(** A run of pages of one old entry: the entry, its first page, their number. *)
Record run := Run { r_entry : option Z; r_pgoff : Z; r_num : Z }.
Definition no_run : run := Run None 0 0.

Definition ENXIO : Z := 6.
Definition NOVA_EOFBLOCKS_FL : Z := 536870912.
Definition pi_i_flags : Z := 4.
Definition blk_type_to_shift (btype : Z) : Z := if btype =? 0 then 12 else if btype =? 1 then 21 else 30.

Section File.
Context `{Crc} `{NocacheCopy} `{CachedWrite} {A T : Type} `{LogAlloc A} `{DataAlloc A} `{RadixTree T}.
Variable cfg : nova_cfg.
(** As in [NovaIntegrity]. *)
Variable mcsafe_again : option Z → Z → Z.
Variable copied_before : Z → Z → nat.
Variable uninit : entry_copy.
(** [nova_append_snapshot_file_write_entry info nvmm num_pages epoch], which
    adds to the snapshot's list in DRAM. *)
Variable snapshot_append : Z → Z → Z → Z → M (fstate A T) ().

Abbreviation F := (M (fstate A T)).

Definition on_log {B} (m : M (lstate A) B) : F B := λ s,
  match m (flog s) with
  | Ok (b, l) => Ok (b, FState l (mapping s) (head s) (snapshots s))
  | Bug => Bug
  | OutOfFuel => OutOfFuel
  end.
Definition file_pm {B} (m : PM B) : F B := on_log (on_pm m).
Definition put_mapping (f : T → T) : F () :=
  modify (λ s, FState (flog s) (f (mapping s)) (head s) (snapshots s)).
Definition put_head (f : file_head → file_head) : F () :=
  modify (λ s, FState (flog s) (mapping s) (f (head s)) (snapshots s)).

Definition nova_free_data (blocknr num : Z) : F Z :=
  btype ← gets (λ s, i_blk_type (sih (flog s)));
  on_log (on_blocks (free_data_blocks btype blocknr num)).

(** ** Entries of pages *)

Definition nova_get_write_entry (blocknr : Z) : F (option Z) :=
  gets (λ s, radix_lookup (mapping s) blocknr).

(** The entry itself, or its verified copy in DRAM; [None] when it cannot be
    verified. *)
Definition read_wentry (entry : Z) : PM (option wentry) :=
  if negb (metadata_csum cfg) then gets (λ s, Some (wentry_at (view s) entry)) else
  '(ok, entryc) ← nova_verify_entry_csum cfg mcsafe_again copied_before uninit entry;
  mret (if (ok : bool) then Some (wentry_at (view (in_dram (default [] entryc))) dram) else None).

(** The block of page [pgoff]; a page outside the entry is only warned of. *)
Definition get_nvmm (w : wentry) (pgoff : Z) : Z :=
  u64 (Z.shiftr (we_block w) PAGE_SHIFT + pgoff - we_pgoff w).

Definition nova_find_nvmm_block (entry : option Z) (blocknr : Z) : F Z :=
  entry ← (match entry with Some e => mret (Some e) | None => nova_get_write_entry blocknr end);
  match entry with
  | None => mret 0
  | Some e =>
      if mcsafe_rc cfg (Some e) 64 <? 0 then mret 0 else
      w ← file_pm (gets (λ s, wentry_at (view s) e));
      mret (u64 (Z.shiftl (get_nvmm w blocknr) PAGE_SHIFT))
  end.

Definition nova_find_next_entry (pgoff : Z) : F (option Z) :=
  gets (λ s, radix_next (mapping s) pgoff).

(** ** Snapshots *)

(** The first snapshot from [epoch_id] on. *)
Definition nova_find_target_snapshot_info (epoch_id : Z) : F (option Z) :=
  gets (λ s, radix_next (snapshots s) epoch_id).

(** 1: no snapshot needs the old entry; 0: this one does. *)
Definition nova_old_entry_deleteable (create_epoch_id delete_epoch_id : Z) : F (Z * option Z) :=
  if create_epoch_id =? delete_epoch_id then mret (1, None) else
  info ← nova_find_target_snapshot_info create_epoch_id;
  match info with
  | None => mret (1, None)
  | Some info => if info >=? delete_epoch_id then mret (1, None) else mret (0, Some info)
  end.

Definition nova_append_data_to_snapshot (w : wentry) (nvmm num_pages delete_epoch_id : Z) : F Z :=
  '(ret, info) ← nova_old_entry_deleteable (we_epoch_id w) delete_epoch_id;
  match info with
  | Some info => if ret =? 0 then snapshot_append info nvmm num_pages delete_epoch_id;; mret ret else mret ret
  | None => mret ret
  end.

(** ** Retiring pages *)

Definition nova_invalidate_write_entry (entry : option Z) (reassign : bool) (num_free : Z) : F Z :=
  match entry with
  | None => mret 0
  | Some e =>
      w ← file_pm (read_wentry e);
      match w with
      | None => mret (- EIO)
      | Some w =>
          if (num_free =? 0) && (we_reassigned w =? 1) then mret 0 else
          file_pm (nova_invalidate_reassign_logentry cfg uninit e FILE_WRITE reassign num_free)
      end
  end.

Definition nova_free_old_entry (entry : option Z) (pgoff num_free : Z) (delete_dead : bool)
    (epoch_id : Z) : F Z :=
  match entry with
  | None => mret 0
  | Some e =>
      w ← file_pm (read_wentry e);
      match w with
      | None => mret (u32 (- EIO))
      | Some w =>
          let old_nvmm := get_nvmm w pgoff in
          kept ←
            (if negb delete_dead then
               ret ← nova_append_data_to_snapshot w old_nvmm num_free epoch_id;
               if ret =? 0 then nova_invalidate_write_entry (Some e) true 0;; mret true
               else nova_invalidate_write_entry (Some e) true num_free;; mret false
             else mret false);
          (if (kept : bool) then mret () else nova_free_data old_nvmm num_free;; mret ());;
          put_head (λ h, set_h_blocks h (u64 (h_blocks h - num_free)));;
          mret num_free
      end
  end.

(** ** Mapping a new entry *)

(** [if (start_old_entry && free)] and the invalidation after it. *)
Definition retire (free : bool) (epoch_id : Z) (r : run) : F () :=
  (if free then nova_free_old_entry (r_entry r) (r_pgoff r) (r_num r) false epoch_id;; mret ()
   else mret ());;
  nova_invalidate_write_entry (r_entry r) true 0;;
  mret ().

(** The last [n] pages, from the [i]-th: the return code, and the run to
    retire. *)
Fixpoint assign_loop (n : nat) (i entry : Z) (entryc : wentry) (free : bool) (r : run) : F (Z * run) :=
  match n with
  | O => mret (0, r)
  | S n =>
      let curr_pgoff := u64 (we_pgoff entryc + i) in
      pentry ← gets (λ s, radix_lookup (mapping s) curr_pgoff);
      match pentry with
      | Some old_entry =>
          r ← (if bool_decide (r_entry r = Some old_entry)
               then mret (Run (r_entry r) (r_pgoff r) (u32 (r_num r + 1)))
               else retire free (we_epoch_id entryc) r;; mret (Run (Some old_entry) curr_pgoff 1));
          put_mapping (λ t, radix_replace t curr_pgoff entry);;
          assign_loop n (i + 1) entry entryc free r
      | None =>
          t ← gets mapping;
          let '(ret, t) := radix_insert t curr_pgoff entry in
          put_mapping (λ _, t);;
          if negb (ret =? 0) then mret (ret, r) else
          assign_loop n (i + 1) entry entryc free r
      end
  end.

(** [entryc]: the fields of the new entry, which the loop does not change.  An
    error leaves the last run as it is. *)
Definition nova_assign_write_entry (entry : Z) (entryc : wentry) (free : bool) : F Z :=
  '(ret, r) ← assign_loop (Z.to_nat (we_num_pages entryc)) 0 entry entryc free no_run;
  if negb (ret =? 0) then mret ret else
  retire free (we_epoch_id entryc) r;;
  mret ret.

(** ** Unmapping *)

Definition free_run (delete_nvmm delete_dead : bool) (epoch_id : Z) (r : run) (freed : Z) : F Z :=
  match r_entry r with
  | Some e =>
      if delete_nvmm then
        nova_free_old_entry (Some e) (r_pgoff r) (r_num r) delete_dead epoch_id;;
        mret (s32 (freed + r_num r))
      else mret freed
  | None => mret freed
  end.

(** [do ... while (1)]: the run left, and the pages freed. *)
Fixpoint delete_loop (fuel : nat) (pgoff : Z) (delete_nvmm delete_dead : bool) (epoch_id : Z) (r : run)
    (freed : Z) : F (run * Z) :=
  match fuel with
  | O => out_of_fuel
  | S fuel =>
      entry ← gets (λ s, radix_lookup (mapping s) pgoff);
      match entry with
      | Some e =>
          t ← gets mapping;
          let '(ret, t) := radix_delete t pgoff in
          put_mapping (λ _, t);;
          bug_on (negb (bool_decide (ret = Some e)));;
          '(r, freed) ←
            (if bool_decide (r_entry r = Some e)
             then mret (Run (r_entry r) (r_pgoff r) (u32 (r_num r + 1)), freed)
             else
               freed ← free_run delete_nvmm delete_dead epoch_id r freed;
               mret (Run (Some e) pgoff 1, freed));
          delete_loop fuel (u64 (pgoff + 1)) delete_nvmm delete_dead epoch_id r freed
      | None =>
          next ← nova_find_next_entry pgoff;
          match next with
          | None => mret (r, freed)
          | Some e =>
              w ← file_pm (read_wentry e);
              match w with
              | None => mret (r, freed)
              | Some w =>
                  delete_loop fuel (Z.max (u64 (pgoff + 1)) (we_pgoff w)) delete_nvmm delete_dead epoch_id r freed
              end
          end
      end
  end.

(** Pages of a file: all of the mapping lies below. *)
Variable max_pgoff : nat.

(** The last page is not looked at. *)
Definition nova_delete_file_tree (start_blocknr last_blocknr : Z) (delete_nvmm delete_dead : bool)
    (epoch_id : Z) : F Z :=
  '(r, freed) ← delete_loop (S max_pgoff) start_blocknr delete_nvmm delete_dead epoch_id no_run 0;
  free_run delete_nvmm delete_dead epoch_id r freed.

(** ** Truncating *)

Definition header (s : fstate A T) : inode_hdr :=
  let h := sih (flog s) in InodeHdr (s_pi_addr h) (s_alter_pi_addr h) (log_tail h) (alter_log_tail h).

Definition check_eof_blocks (pi : Z) : F () :=
  flags ← file_pm (fetch 4 (pi + pi_i_flags));
  h ← gets head;
  hdr ← gets header;
  if negb (Z.land flags NOVA_EOFBLOCKS_FL =? 0) &&
     (u64 (v_size h + PAGE_SIZE) >? u64 (Z.shiftl (h_blocks h) PAGE_SHIFT)) then
    file_pm (store 4 (pi + pi_i_flags) (Z.land flags (Z.lnot NOVA_EOFBLOCKS_FL));;
             nova_update_inode_checksum cfg pi;;
             nova_update_alter_inode cfg hdr pi);;
    mret ()
  else mret ().

(** [now]: [current_time(inode)]. *)
Definition nova_truncate_file_blocks (now start end_ epoch_id : Z) : F () :=
  hdr ← gets header;
  put_head (λ h, set_time h now);;
  btype ← gets (λ s, i_blk_type (sih (flog s)));
  let data_bits := blk_type_to_shift btype in
  let first_blocknr := Z.shiftr (u64 (start + (Z.shiftl 1 data_bits - 1))) data_bits in
  if end_ =? 0 then mret () else
  let last_blocknr := u64 (Z.shiftr (end_ - 1) data_bits) in
  if first_blocknr >? last_blocknr then mret () else
  freed ← nova_delete_file_tree first_blocknr last_blocknr true false epoch_id;
  put_head (λ h, set_v_blocks h (u64 (v_blocks h - s32 (freed * Z.shiftl 1 (data_bits - PAGE_SHIFT)))));;
  put_head (λ h, set_h_blocks h (v_blocks h));;
  pi ← file_pm (deref (nova_get_inode cfg hdr));
  check_eof_blocks pi.

(** The module parameters [data_csum] and [data_parity], and the updates they
    ask for ([checksum.c], [parity.c]). *)
Variable data_csum data_parity : Z.
Variable nova_update_truncated_block_csum nova_update_truncated_block_parity : Z → F ().

(** [newsize & (sb->s_blocksize - 1)] with pages of 4 KB. *)
Definition nova_clear_last_page_tail (newsize : Z) : F () :=
  let offset := Z.land newsize (PAGE_SIZE - 1) in
  h ← gets head;
  if (offset =? 0) || (newsize >? v_size h) then mret () else
  let length := PAGE_SIZE - offset in
  nvmm ← nova_find_nvmm_block None (u64 (Z.shiftr newsize PAGE_SHIFT));
  if nvmm =? 0 then mret () else
  file_pm (nvmm_addr ← deref (nova_get_block nvmm);
           copy_to_pmem cfg (nvmm_addr + offset) (replicate (Z.to_nat length) Byte.x00));;
  when (data_csum >? 0) (nova_update_truncated_block_csum newsize);;
  when (data_parity >? 0) (nova_update_truncated_block_parity newsize).

(** Regular files only; the page cache and direct I/O are the kernel's. *)
Definition nova_setsize (is_reg : bool) (now oldsize newsize epoch_id : Z) : F () :=
  if negb is_reg then mret () else
  when (negb (newsize =? oldsize))
    (nova_clear_last_page_tail newsize;; put_head (λ h, set_sizes h newsize));;
  nova_truncate_file_blocks now newsize oldsize epoch_id.

(** ** Looking for data and holes *)

(** Where to go on from an unmapped page; [None] when the next entry cannot be
    verified. *)
Definition after_hole (pgoff last_blocknr : Z) : F (option Z) :=
  next ← nova_find_next_entry pgoff;
  let pgoff := u64 (pgoff + 1) in
  match next with
  | None => mret (Some pgoff)
  | Some e =>
      w ← file_pm (read_wentry e);
      match w with
      | None => mret None
      | Some w =>
          let pgoff := Z.max pgoff (we_pgoff w) in
          mret (Some (if pgoff >? last_blocknr then u64 (last_blocknr + 1) else pgoff))
      end
  end.

(** [while (pgoff <= last_blocknr)]: the blocks passed, [*data_found] and
    [*hole_found]. *)
Fixpoint hole_loop (fuel : nat) (pgoff last_blocknr : Z) (hole data_found hole_found : bool) (blocks : Z) :
    F (Z * bool * bool) :=
  if negb (pgoff <=? last_blocknr) then mret (blocks, data_found, hole_found) else
  match fuel with
  | O => out_of_fuel
  | S fuel =>
      let old_pgoff := pgoff in
      entry ← gets (λ s, radix_lookup (mapping s) pgoff);
      match entry with
      | Some _ =>
          if negb hole then mret (blocks, true, hole_found) else
          let pgoff := u64 (pgoff + 1) in
          let blocks := if negb hole_found || negb hole then u64 (blocks + (pgoff - old_pgoff)) else blocks in
          hole_loop fuel pgoff last_blocknr hole true hole_found blocks
      | None =>
          next ← after_hole pgoff last_blocknr;
          match next with
          | None => mret (blocks, data_found, true)
          | Some pgoff =>
              let blocks := if negb hole then u64 (blocks + (pgoff - old_pgoff)) else blocks in
              hole_loop fuel pgoff last_blocknr hole data_found true blocks
          end
      end
  end.

Definition nova_lookup_hole_in_range (first_blocknr last_blocknr : Z) (data_found hole_found hole : bool) :
    F (Z * bool * bool) :=
  '(blocks, data_found, hole_found) ← hole_loop (Z.to_nat (last_blocknr + 1 - first_blocknr))
    first_blocknr last_blocknr hole data_found hole_found 0;
  mret (s32 blocks, data_found, hole_found).

(** The result, and [*offset]. *)
Definition nova_find_region (offset : Z) (hole : bool) : F (Z * Z) :=
  h ← gets head;
  btype ← gets (λ s, i_blk_type (sih (flog s)));
  let data_bits := blk_type_to_shift btype in
  if offset >=? v_size h then mret (u64 (- ENXIO), offset) else
  if (v_blocks h =? 0) || (h_size h =? 0) then
    mret (if hole then v_size h else u64 (- ENXIO), offset)
  else
    let offset_in_block := Z.land offset (Z.shiftl 1 data_bits - 1) in
    let first_blocknr := Z.shiftr offset data_bits in
    let last_blocknr := Z.shiftr (v_size h) data_bits in
    '(blocks, data_found, hole_found) ← nova_lookup_hole_in_range first_blocknr last_blocknr false false hole;
    let blocks := u64 blocks in
    if negb hole && negb data_found && hole_found then mret (u64 (- ENXIO), offset) else
    if data_found && negb hole_found then mret (0, if hole then v_size h else offset) else
    if hole && hole_found && (blocks =? 0) then mret (0, if negb data_found then v_size h else offset) else
    mret (0,
      if negb (offset_in_block =? 0)
      then swrap 64 (offset + u64 (u64 (Z.shiftl (u64 (blocks - 1)) data_bits) +
             (Z.shiftl 1 data_bits - offset_in_block)))
      else swrap 64 (offset + u64 (Z.shiftl blocks data_bits))).
End File.
