(* ===== verification/NovaFileProofs.v ===== *)
(** * NOVA: sweeping over the pages of a file

    Overwriting and truncating walk over the mapped pages of a file, gather runs
    of pages of one write entry, and retire each run when the next one begins
    ([retire], [free_run] in [NovaFile]).  This file has the invariant of a file
    ([file_ok]: every write entry counts its unmapped pages, and every mapped
    page has a block of its own), the effect of retiring a run, and the
    invariant of such a walk ([swept], [pending]). *)

From stdpp Require Import base list gmap.
From Stdlib Require Import ZArith Lia.
From coqutil Require Import Byte Word.LittleEndianList.
From S2P Require Import Prelude PMem NovaBase NovaJournal NovaInode NovaLogEntry NovaIntegrity.
From S2P Require Import NovaBalloc NovaLog NovaLogProofs NovaLogOps NovaFile.

Local Open Scope Z_scope.

(** ** What the file relies on *)

Class RadixTreeLaws (T : Type) `{RadixTree T} := {
  content : T → gmap Z Z;
  radix_lookup_ok : ∀ t k, radix_lookup t k = content t !! k;
  radix_replace_ok : ∀ t k v, is_Some (content t !! k) → content (radix_replace t k v) = <[k := v]> (content t);
  radix_insert_ok : ∀ t k v, content t !! k = None →
    (radix_insert t k v).1 = 0 ∧ content (radix_insert t k v).2 = <[k := v]> (content t) ∨
    (radix_insert t k v).1 < 0 ∧ content (radix_insert t k v).2 = content t;
  radix_delete_ok : ∀ t k, (radix_delete t k).1 = content t !! k ∧ content (radix_delete t k).2 = delete k (content t);
  radix_next_ok : ∀ t k, match radix_next t k with
    | Some v => ∃ j, k <= j ∧ content t !! j = Some v ∧ ∀ i, k <= i < j → content t !! i = None
    | None => ∀ j, k <= j → content t !! j = None
    end
}.

Class DataAllocLaws (A : Type) `{DataAlloc A} `{LogAllocLaws A} := {
  data_free_ok : ∀ a b n, inv a → 0 < n → within b n → (∀ x, b <= x < b + n → ¬ is_free a x) →
    ∃ ret a', free_data_blocks 0 b n a = Ok (ret, a') ∧ inv a' ∧ view (machine a') = view (machine a) ∧
      ∀ x, is_free a' x ↔ is_free a x ∨ b <= x < b + n
}.

(** ** Counting pages *)

(** The pages in [a, b) mapped to [e]. *)
Definition cnt (c : gmap Z Z) (e a b : Z) : Z :=
  Z.of_nat (length (filter (λ k, c !! k = Some e) (seqZ a (b - a)))).
(** The mapped pages in [a, b). *)
Definition mapped (c : gmap Z Z) (a b : Z) : Z :=
  Z.of_nat (length (filter (λ k, is_Some (c !! k)) (seqZ a (b - a)))).

Lemma seqZ_split a b c : a <= b <= c → seqZ a (c - a) = seqZ a (b - a) ++ seqZ b (c - b).
Proof.
  intros. replace (c - a) with ((b - a) + (c - b)) by lia. rewrite seqZ_app by lia. by replace (a + (b - a)) with b by lia.
Qed.

Lemma cnt_split c e a b d : a <= b <= d → cnt c e a d = cnt c e a b + cnt c e b d.
Proof. intros. unfold cnt. rewrite (seqZ_split a b d) by done. rewrite filter_app, length_app. lia. Qed.
Lemma mapped_split c a b d : a <= b <= d → mapped c a d = mapped c a b + mapped c b d.
Proof. intros. unfold mapped. rewrite (seqZ_split a b d) by done. rewrite filter_app, length_app. lia. Qed.

Lemma cnt_nonneg c e a b : 0 <= cnt c e a b.
Proof. unfold cnt. lia. Qed.

Lemma filter_seqZ_all P `{∀ x, Decision (P x)} a b :
  a <= b → (∀ k, a <= k < b → P k) → Z.of_nat (length (filter P (seqZ a (b - a)))) = b - a.
Proof.
  intros Hab HP. rewrite filter_all, length_seqZ; [lia|].
  apply Forall_forall. intros k Hk%elem_of_seqZ. apply HP. lia.
Qed.
Lemma filter_seqZ_none P `{∀ x, Decision (P x)} a b :
  (∀ k, a <= k < b → ¬ P k) → Z.of_nat (length (filter P (seqZ a (b - a)))) = 0.
Proof.
  intros HP. rewrite filter_none; [done|]. apply Forall_forall. intros k Hk%elem_of_seqZ. apply HP. lia.
Qed.

Lemma cnt_all c e a b : a <= b → (∀ k, a <= k < b → c !! k = Some e) → cnt c e a b = b - a.
Proof. intros. by apply filter_seqZ_all. Qed.
Lemma cnt_none c e a b : (∀ k, a <= k < b → c !! k ≠ Some e) → cnt c e a b = 0.
Proof. intros. by apply filter_seqZ_none. Qed.
Lemma mapped_all c a b : a <= b → (∀ k, a <= k < b → is_Some (c !! k)) → mapped c a b = b - a.
Proof. intros. by apply filter_seqZ_all. Qed.
Lemma mapped_none c a b : (∀ k, a <= k < b → c !! k = None) → mapped c a b = 0.
Proof. intros Hn. apply filter_seqZ_none. intros k Hk. rewrite Hn by done. by intros []. Qed.
Lemma filter_ext_in {X} (P Q : X → Prop) `{∀ x, Decision (P x)} `{∀ x, Decision (Q x)} (l : list X) :
  (∀ x, x ∈ l → P x ↔ Q x) → filter P l = filter Q l.
Proof.
  induction l as [|x l IH]; intros HPQ; [done|]. rewrite !filter_cons.
  rewrite IH by (intros; apply HPQ; by apply list_elem_of_further).
  pose proof (HPQ x (list_elem_of_here _ _)). do 2 case_decide; tauto.
Qed.
Lemma cnt_ext c c' e a b : (∀ k, a <= k < b → c !! k = Some e ↔ c' !! k = Some e) → cnt c e a b = cnt c' e a b.
Proof.
  intros Hc. unfold cnt. do 2 f_equal. apply filter_ext_in. intros k Hk%elem_of_seqZ. apply Hc. lia.
Qed.

(** ** Write entries in memory *)

(** A write entry lies in the body of its page. *)
Definition entry_slot (e : Z) : Prop := 4096 <= e ∧ e mod 4096 + 64 <= LOG_BLOCK_TAIL.
Definition inval (m : mem) (e : Z) : Z := load 4 m (e + fw_invalid_pages).
Definition dead_count (m : mem) (e : Z) : Z := load 4 m (BLOCK_OFF e + pt_invalid_entries).
(** All but the two fields that retiring writes. *)
Definition same_entry (m m' : mem) (e : Z) : Prop :=
  we_num_pages (wentry_at m' e) = we_num_pages (wentry_at m e) ∧
  we_block (wentry_at m' e) = we_block (wentry_at m e) ∧
  we_pgoff (wentry_at m' e) = we_pgoff (wentry_at m e) ∧
  we_epoch_id (wentry_at m' e) = we_epoch_id (wentry_at m e).

(** [n] pages of [e] retired. *)
Record retired (m m' : mem) (e n : Z) : Prop := {
  rt_inval : inval m' e = u32 (inval m e + n);
  rt_reassigned : we_reassigned (wentry_at m' e) = 1;
  rt_dead : dead_count m' e =
    (if u32 (inval m e + n) =? we_num_pages (wentry_at m e) then u32 (dead_count m e + 1) else dead_count m e);
  rt_frame : ∀ x, ¬ in_range (e + fw_reassigned) 1 x → ¬ in_range (e + fw_invalid_pages) 4 x →
    ¬ in_range (BLOCK_OFF e + pt_invalid_entries) 4 x → m' !!! x = m !!! x
}.

Lemma slot_block e : entry_slot e → BLOCK_OFF e = e - e mod 4096 ∧ 0 < BLOCK_OFF e ∧ 0 <= e mod 4096.
Proof.
  intros [He _]. rewrite block_off_div. pose proof (Z.div_mod e 4096). pose proof (Z.mod_pos_bound e 4096).
  assert (1 <= e / 4096) by (apply Z.div_le_lower_bound; lia). lia.
Qed.

(** The bytes retiring [e] writes are not those of another slot. *)
Lemma slot_apart e e' x :
  entry_slot e → entry_slot e' → disjoint_ranges e 64 e' 64 → in_range e' 64 x →
  ¬ in_range (e + fw_reassigned) 1 x ∧ ¬ in_range (e + fw_invalid_pages) 4 x ∧
  ¬ in_range (BLOCK_OFF e + pt_invalid_entries) 4 x.
Proof.
  intros Hs Hs' Hd Hx. destruct (slot_block e Hs) as (Eb & _ & Hm). destruct (slot_block e' Hs') as (_ & _ & Hm').
  destruct Hs as [_ Hs], Hs' as [_ Hs'].
  pose proof (Z.div_mod e 4096). pose proof (Z.div_mod e' 4096).
  unfold disjoint_ranges, in_range, fw_reassigned, fw_invalid_pages, pt_invalid_entries, LOG_BLOCK_TAIL in *.
  split_and!; lia.
Qed.

Lemma retired_other m m' e n e' :
  retired m m' e n → entry_slot e → entry_slot e' → disjoint_ranges e 64 e' 64 →
  wentry_at m' e' = wentry_at m e' ∧ inval m' e' = inval m e'.
Proof.
  intros R Hs Hs' Hd.
  assert (Hl : ∀ o k, 0 <= o → o + Z.of_nat k <= 64 → load k m' (e' + o) = load k m (e' + o)).
  { intros o k ? ?. apply load_ext. intros x Hx.
    destruct (slot_apart e e' x Hs Hs' Hd) as (? & ? & ?); [unfold in_range in *; lia|]. by apply (rt_frame _ _ _ _ R). }
  unfold wentry_at, inval. by rewrite !Hl by (unfold fw_reassigned, fw_num_pages, fw_block, fw_pgoff, fw_epoch_id, fw_invalid_pages; lia).
Qed.

Lemma retired_self m m' e n : retired m m' e n → entry_slot e → same_entry m m' e.
Proof.
  intros R Hs. destruct (slot_block e Hs) as (Eb & _ & Hm). destruct Hs as [_ Hs].
  assert (Hl : ∀ o k, (2 <= o ∧ o + Z.of_nat k <= 24 ∨ 28 <= o ∧ o + Z.of_nat k <= 64) →
    load k m' (e + o) = load k m (e + o)).
  { intros o k ?. apply load_ext. intros x Hx. apply (rt_frame _ _ _ _ R);
      unfold in_range, fw_reassigned, fw_invalid_pages, pt_invalid_entries, LOG_BLOCK_TAIL in *; lia. }
  unfold same_entry, wentry_at; cbn [we_num_pages we_block we_pgoff we_epoch_id].
  split_and!; apply Hl; unfold fw_num_pages, fw_block, fw_pgoff, fw_epoch_id; lia.
Qed.

Section Retire.
#[local] Set Default Proof Using "Type".
Context `{Crc} `{NocacheCopy} `{CachedWrite}.
Variable cfg : nova_cfg.
Variable uninit : entry_copy.
Hypothesis Hcs : metadata_csum cfg = false.

Lemma invalidate_write_view e n s :
  entry_slot e → 0 < n →
  ∃ s', nova_invalidate_reassign_logentry cfg uninit e FILE_WRITE true n s = Ok (0, s') ∧
    retired (view s) (view s') e n.
Proof using Hcs.
  intros Hs Hn. destruct (slot_block e Hs) as (Eb & Hb & Hm). destruct Hs as [_ Hs].
  unfold nova_invalidate_reassign_logentry.
  erewrite bind_Ok; [|apply nova_execute_invalidate_eq; [done|lia]].
  unfold nova_update_alter_entry. rewrite Hcs. cbn [negb].
  eexists. split; [by erewrite bind_Ok; [|done]|]. cbn [log_state view].
  set (m := view s). unfold invalidate_fields, becomes_dead. destruct (Z.eqb_spec n 0); [lia|]. cbn [app].
  change (load 4 m (e + fw_num_pages)) with (we_num_pages (wentry_at m e)). fold (inval m e).
  rewrite field_events_view. set (fs := [(fw_reassigned, 1%nat, 1); (fw_invalid_pages, 4%nat, inval m e + n)]).
  set (m1 := write_fields e fs m).
  assert (E1 : m1 = write_int 4 (e + fw_invalid_pages) (inval m e + n) (write_int 1 (e + fw_reassigned) 1 m)) by done.
  assert (D1 : dead_count m1 e = dead_count m e).
  { unfold dead_count. rewrite E1, !load_write_out; [done|..]; intros x;
      unfold in_range, fw_reassigned, fw_invalid_pages, pt_invalid_entries, LOG_BLOCK_TAIL in *; lia. }
  assert (I1 : inval m1 e = u32 (inval m e + n)) by (rewrite E1; unfold inval at 1, write_int; apply load_write_same).
  assert (R1 : we_reassigned (wentry_at m1 e) = 1).
  { unfold wentry_at; cbn [we_reassigned]. rewrite E1, load_write_out; [unfold write_int; by rewrite load_write_same|].
    intros x. unfold in_range, fw_reassigned, fw_invalid_pages. lia. }
  assert (F1 : ∀ x, ¬ in_range (e + fw_reassigned) 1 x → ¬ in_range (e + fw_invalid_pages) 4 x → m1 !!! x = m !!! x).
  { intros x H1' H2'. rewrite E1. unfold write_int. by rewrite !write_bytes_out. }
  rewrite apply_events_app, (apply_events_no_store _ (flush_events _ _ _ ++ _)) by apply (flush_fence_no_store _ _ _ true).
  destruct (_ =? _) eqn:Ed.
  2: { change (apply_events m1 []) with m1. split; try done; [by rewrite Ed|]. intros. by apply F1. }
  rewrite apply_events_cons, (apply_events_no_store _ (flush_events _ _ _)) by apply is_flush_no_store, flush_events_flushes.
  cbn [apply_event]. fold (dead_count m1 e). rewrite D1.
  change (write_bytes m1 ?a (bytes_of 4 ?v)) with (write_int 4 a v m1).
  split.
  - rewrite <- I1. unfold inval. apply load_write_out. intros x.
    unfold in_range, fw_invalid_pages, pt_invalid_entries, LOG_BLOCK_TAIL in *. lia.
  - rewrite <- R1. unfold wentry_at; cbn [we_reassigned]. apply load_write_out. intros x.
    unfold in_range, fw_reassigned, pt_invalid_entries, LOG_BLOCK_TAIL in *. lia.
  - rewrite Ed. unfold dead_count at 1, write_int. apply load_write_same.
  - intros x H1' H2' H3'. unfold write_int. rewrite write_bytes_out by done. by apply F1.
Qed.
End Retire.

(** ** Files *)

Section Files.
#[local] Set Default Proof Using "Type".
Context `{Crc} `{NocacheCopy} `{CachedWrite} {A T : Type} `{LogAlloc A} `{Hlaws : !LogAllocLaws}.
Context `{DataAlloc A} `{Hdata : !DataAllocLaws A} `{RadixTree T} `{Hradix : !RadixTreeLaws T}.
Variable cfg : nova_cfg.
Variable mcsafe_again : option Z → Z → Z.
Variable copied_before : Z → Z → nat.
Variable uninit : entry_copy.
Variable snapshot_append : Z → Z → Z → Z → M (fstate A T) ().
(** No page offset of a file reaches this. *)
Variable max_pgoff : nat.
Hypothesis Hcs : metadata_csum cfg = false.

Definition fmem (s : fstate A T) : mem := mview (flog s).
Definition pages_map (s : fstate A T) : gmap Z Z := content (mapping s).
Definition ffree (s : fstate A T) (x : Z) : Prop := is_free (blocks (flog s)) x.
(** The block of page [k] of the entry [e]. *)
Definition block_of (m : mem) (e k : Z) : Z := Z.shiftr (we_block (wentry_at m e)) PAGE_SHIFT + (k - we_pgoff (wentry_at m e)).

(** A set of write entries: in slots of their own, with pages of the file and
    blocks of the device. *)
Record entries_ok (m : mem) (es : gset Z) : Prop := {
  eo_slot : ∀ e, e ∈ es → entry_slot e;
  eo_apart : ∀ e e', e ∈ es → e' ∈ es → e ≠ e' → disjoint_ranges e 64 e' 64;
  eo_pages : ∀ e, e ∈ es → we_pgoff (wentry_at m e) + we_num_pages (wentry_at m e) <= Z.of_nat max_pgoff;
  eo_blocks : ∀ e, e ∈ es → within (Z.shiftr (we_block (wentry_at m e)) PAGE_SHIFT) (we_num_pages (wentry_at m e))
}.

(** The pages of a mapping: each in its entry, with a block in use that no
    other page has; between two pages of one entry there is no hole. *)
Record maps_ok (m : mem) (es : gset Z) (c : gmap Z Z) (free : Z → Prop) : Prop := {
  mo_entry : ∀ k e, c !! k = Some e → e ∈ es;
  mo_in : ∀ k e, c !! k = Some e →
    we_pgoff (wentry_at m e) <= k < we_pgoff (wentry_at m e) + we_num_pages (wentry_at m e);
  mo_used : ∀ k e, c !! k = Some e → ¬ free (block_of m e k);
  mo_unique : ∀ k e k' e', c !! k = Some e → c !! k' = Some e' → block_of m e k = block_of m e' k' → k = k';
  mo_convex : ∀ e i j k, c !! i = Some e → c !! j = Some e → i <= k <= j → is_Some (c !! k)
}.

(** A file: every entry counts the pages that are no longer mapped to it. *)
Record file_ok (s : fstate A T) (es : gset Z) : Prop := {
  fo_inv : inv (blocks (flog s));
  fo_btype : i_blk_type (sih (flog s)) = 0;
  fo_entries : entries_ok (fmem s) es;
  fo_maps : maps_ok (fmem s) es (pages_map s) (ffree s);
  fo_count : ∀ e, e ∈ es →
    inval (fmem s) e + cnt (pages_map s) e 0 (Z.of_nat max_pgoff) = we_num_pages (wentry_at (fmem s) e)
}.

Definition no_snapshots (s : fstate A T) : Prop := ∀ k, radix_next (snapshots s) k = None.

(** *** Retiring a run *)

Lemma file_pm_Ok {B} (m : PM B) (s : fstate A T) b c :
  m (machine (blocks (flog s))) = Ok (b, c) →
  file_pm m s = Ok (b, FState (LState (with_machine (blocks (flog s)) c) (sih (flog s))) (mapping s) (head s) (snapshots s)).
Proof. intros E. unfold file_pm, on_log. by rewrite (on_pm_Ok _ _ _ _ E). Qed.

(** The states [s'] that differ from [s] by retiring the pages [k .. k+n) of
    [e], whose first block is [b]. *)
Record run_retired (s s' : fstate A T) (e n b : Z) : Prop := {
  rr_inv : inv (blocks (flog s'));
  rr_sih : sih (flog s') = sih (flog s);
  rr_mapping : mapping s' = mapping s;
  rr_snaps : snapshots s' = snapshots s;
  rr_head : head s' = set_h_blocks (head s) (u64 (h_blocks (head s) - n));
  rr_mem : retired (fmem s) (fmem s') e n;
  rr_free : ∀ x, ffree s' x ↔ ffree s x ∨ b <= x < b + n
}.

Lemma read_wentry_eq e s :
  read_wentry cfg mcsafe_again copied_before uninit e s = Ok (Some (wentry_at (view s) e), s).
Proof using Hcs. unfold read_wentry. by rewrite Hcs. Qed.

Lemma fmem_with (a : A) c l (m : T) h sn : fmem (FState (LState (with_machine a c) l) m h sn) = view c.
Proof using Hlaws. unfold fmem, mview. cbn. by rewrite machine_with. Qed.

Lemma invalidate_spec e n s :
  entry_slot e → 0 < n → inv (blocks (flog s)) →
  ∃ s', nova_invalidate_write_entry cfg mcsafe_again copied_before uninit (Some e) true n s = Ok (0, s') ∧
    inv (blocks (flog s')) ∧ sih (flog s') = sih (flog s) ∧ mapping s' = mapping s ∧ snapshots s' = snapshots s ∧
    head s' = head s ∧ retired (fmem s) (fmem s') e n ∧ ∀ x, ffree s' x ↔ ffree s x.
Proof using Hcs Hlaws.
  intros Hs Hn Hinv. unfold nova_invalidate_write_entry.
  erewrite bind_Ok; [|apply file_pm_Ok, read_wentry_eq]. cbv beta iota.
  destruct (Z.eqb_spec n 0); [lia|]. cbn [andb].
  set (s1 := FState _ _ _ _). assert (E1 : fmem s1 = fmem s) by apply fmem_with.
  destruct (invalidate_write_view cfg uninit Hcs e n (machine (blocks (flog s1))) Hs Hn) as (c & E & R).
  eexists. split; [by apply file_pm_Ok|]. cbn [flog blocks sih mapping snapshots head].
  split_and!; try done; [by do 2 apply inv_with| |].
  - rewrite fmem_with. by rewrite <- E1.
  - intros x. unfold ffree. cbn. by rewrite !free_with.
Qed.

Lemma invalidate_again e s :
  we_reassigned (wentry_at (fmem s) e) = 1 → inv (blocks (flog s)) →
  ∃ s', nova_invalidate_write_entry cfg mcsafe_again copied_before uninit (Some e) true 0 s = Ok (0, s') ∧
    inv (blocks (flog s')) ∧ sih (flog s') = sih (flog s) ∧ mapping s' = mapping s ∧ snapshots s' = snapshots s ∧
    head s' = head s ∧ fmem s' = fmem s ∧ ∀ x, ffree s' x ↔ ffree s x.
Proof using Hcs Hlaws.
  intros Hr Hinv. unfold nova_invalidate_write_entry.
  erewrite bind_Ok; [|apply file_pm_Ok, read_wentry_eq]. cbv beta iota.
  change (view (machine (blocks (flog s)))) with (fmem s). rewrite Hr. cbn [Z.eqb andb].
  eexists. split; [done|]. cbn [flog blocks sih mapping snapshots head].
  split_and!; try done; [by apply inv_with|apply fmem_with|].
  intros x. unfold ffree. cbn. by rewrite free_with.
Qed.

Lemma free_old_entry_spec e k n epoch s :
  entry_slot e → 0 < n → inv (blocks (flog s)) → no_snapshots s → i_blk_type (sih (flog s)) = 0 →
  let b := get_nvmm (wentry_at (fmem s) e) k in
  within b n → (∀ x, b <= x < b + n → ¬ ffree s x) →
  ∃ s', nova_free_old_entry cfg mcsafe_again copied_before uninit snapshot_append (Some e) k n false epoch s = Ok (n, s') ∧
    run_retired s s' e n b.
Proof using Hcs Hlaws Hdata.
  intros Hs Hn Hinv Hsn Hbt b Hw Hnf. unfold nova_free_old_entry.
  erewrite bind_Ok; [|apply file_pm_Ok, read_wentry_eq]. cbv beta iota. cbn [negb].
  set (s1 := FState _ _ _ _). assert (E1 : fmem s1 = fmem s) by apply fmem_with.
  change (view (machine (blocks (flog s)))) with (fmem s). fold b.
  assert (Es : nova_append_data_to_snapshot snapshot_append (wentry_at (fmem s) e) b n epoch s1 = Ok (1, s1)).
  { unfold nova_append_data_to_snapshot, nova_old_entry_deleteable, nova_find_target_snapshot_info.
    destruct (_ =? epoch); [done|]. rewrite bind_assoc, gets_bind. change (snapshots s1) with (snapshots s). by rewrite Hsn. }
  destruct (invalidate_spec e n s1 Hs Hn) as (s2 & E2 & I2 & S2 & M2 & N2 & H2' & R2 & F2); [by apply inv_with|].
  erewrite bind_Ok; [|erewrite bind_Ok; [|exact Es]; cbn [Z.eqb]; by erewrite bind_Ok; [|exact E2]]. cbn iota.
  unfold nova_free_data. rewrite !bind_assoc, gets_bind, S2. change (sih (flog s1)) with (sih (flog s)). rewrite Hbt.
  assert (F : ∀ x, is_free (blocks (flog s2)) x ↔ ffree s x).
  { intros x. rewrite (F2 x). unfold ffree, s1. cbn. by rewrite free_with. }
  destruct (data_free_ok (blocks (flog s2)) b n I2 Hn Hw) as (ret & a & Ea & Ia & Va & Fa).
  { intros x Hx. rewrite F. by apply Hnf. }
  erewrite bind_Ok; [|unfold on_log; by rewrite (on_blocks_Ok _ _ _ _ Ea)].
  eexists. split; [done|]. split; cbn [flog blocks sih mapping snapshots head].
  - done.
  - by rewrite S2.
  - by rewrite M2.
  - by rewrite N2.
  - by rewrite H2'.
  - rewrite E1 in R2. unfold fmem at 2, mview. cbn [flog blocks]. rewrite Va. exact R2.
  - intros x. unfold ffree at 1. cbn. rewrite Fa, F. done.
Qed.

Lemma retire_spec e k n epoch s :
  entry_slot e → 0 < n → inv (blocks (flog s)) → no_snapshots s → i_blk_type (sih (flog s)) = 0 →
  let b := get_nvmm (wentry_at (fmem s) e) k in
  within b n → (∀ x, b <= x < b + n → ¬ ffree s x) →
  ∃ s', retire cfg mcsafe_again copied_before uninit snapshot_append true epoch (Run (Some e) k n) s = Ok ((), s') ∧
    run_retired s s' e n b.
Proof using Hcs Hlaws Hdata.
  intros Hs Hn Hinv Hsn Hbt b Hw Hnf. unfold retire. cbn [r_entry r_pgoff r_num].
  destruct (free_old_entry_spec e k n epoch s Hs Hn Hinv Hsn Hbt Hw Hnf) as (s1 & E1 & R1).
  erewrite bind_Ok; [|by erewrite bind_Ok; [|exact E1]].
  destruct R1 as [I1 S1 M1 N1 H1' R1 F1].
  destruct (invalidate_again e s1 (rt_reassigned _ _ _ _ R1) I1) as (s2 & E2 & I2 & S2 & M2 & N2 & H2' & V2 & F2).
  exists s2. split; [by erewrite bind_Ok; [|exact E2]|]. split; try congruence.
  intros x. by rewrite F2, F1.
Qed.

(** *** Walking over the pages of [s0], from page [a] *)

(** A file whose runs can be retired. *)
Record walkable (s : fstate A T) (es : gset Z) : Prop := {
  wk_inv : inv (blocks (flog s));
  wk_btype : i_blk_type (sih (flog s)) = 0;
  wk_snaps : no_snapshots s;
  wk_entries : entries_ok (fmem s) es;
  wk_maps : maps_ok (fmem s) es (pages_map s) (ffree s)
}.

Section Sweep.
#[local] Set Default Proof Using "Type".
Variable s0 : fstate A T.
Variable es : gset Z.
Hypothesis Hw : walkable s0 es.
Local Abbreviation c0 := (pages_map s0).

(** The pages of [a, j) are retired; the mapping is not looked at. *)
Record swept (s : fstate A T) (a j : Z) : Prop := {
  sw_inv : inv (blocks (flog s));
  sw_sih : sih (flog s) = sih (flog s0);
  sw_snaps : snapshots s = snapshots s0;
  sw_head : head s = set_h_blocks (head s0) (u64 (h_blocks (head s0) - mapped c0 a j));
  sw_entry : ∀ e, e ∈ es → same_entry (fmem s0) (fmem s) e ∧ inval (fmem s) e = u32 (inval (fmem s0) e + cnt c0 e a j);
  sw_free : ∀ x, ffree s x ↔ ffree s0 x ∨ ∃ k e, a <= k < j ∧ c0 !! k = Some e ∧ x = block_of (fmem s0) e k;
  sw_frame : ∀ x, (∀ e, e ∈ es → ¬ in_range e 64 x ∧ ¬ in_range (BLOCK_OFF e + pt_invalid_entries) 4 x) →
    fmem s !!! x = fmem s0 !!! x
}.

(** The run [r] covers the mapped pages of [j, p). *)
Definition pending (j p : Z) (r : run) : Prop :=
  match r_entry r with
  | None => ∀ k, j <= k < p → c0 !! k = None
  | Some e => r_pgoff r = j ∧ 0 < r_num r ∧ j + r_num r <= p ∧
      (∀ k, j <= k < j + r_num r → c0 !! k = Some e) ∧ ∀ k, j + r_num r <= k < p → c0 !! k = None
  end.

Lemma swept_start a : 0 <= h_blocks (head s0) < 2 ^ 64 → swept s0 a a.
Proof using Hw.
  intros Hh. assert (Hm : mapped c0 a a = 0) by (apply mapped_none; lia).
  split; try done.
  - apply (wk_inv _ _ Hw).
  - rewrite Hm, Z.sub_0_r, wrap_small by done. by destruct (head s0).
  - intros e He. split; [done|]. rewrite cnt_none by lia. rewrite Z.add_0_r, wrap_small; [done|apply (load_bound 4)].
  - intros x. split; [by left|]. intros [?|(k & e & ? & _)]; [done|lia].
Qed.

Lemma swept_mapping s a j m : swept s a j → swept (FState (flog s) m (head s) (snapshots s)) a j.
Proof. by intros []. Qed.

(** Reading memory changes nothing. *)
Definition after_read (s : fstate A T) : fstate A T :=
  FState (LState (with_machine (blocks (flog s)) (machine (blocks (flog s)))) (sih (flog s))) (mapping s) (head s) (snapshots s).
Lemma fmem_after_read s : fmem (after_read s) = fmem s.
Proof using Hlaws. unfold after_read, fmem, mview. cbn. by rewrite machine_with. Qed.
Lemma swept_read s a j : swept s a j → swept (after_read s) a j.
Proof using Hlaws.
  intros [I S N Hd He F Fr]. split; rewrite ?fmem_after_read; try done; [by apply inv_with|].
  intros x. rewrite <- F. unfold ffree. cbn. by rewrite free_with.
Qed.

(** Holes need no work. *)
Lemma swept_skip_iff s a j j' :
  a <= j <= j' → (∀ k, j <= k < j' → c0 !! k = None) → swept s a j ↔ swept s a j'.
Proof.
  intros Hj Hn.
  assert (Em : mapped c0 a j' = mapped c0 a j) by (rewrite (mapped_split c0 a j j'), (mapped_none c0 j j') by done; lia).
  assert (Ec : ∀ e, cnt c0 e a j' = cnt c0 e a j).
  { intros e. rewrite (cnt_split c0 e a j j'), (cnt_none c0 e j j'); [lia| |done]. intros k Hk. by rewrite Hn. }
  assert (Ef : ∀ x, (∃ k e, a <= k < j ∧ c0 !! k = Some e ∧ x = block_of (fmem s0) e k) ↔
    (∃ k e, a <= k < j' ∧ c0 !! k = Some e ∧ x = block_of (fmem s0) e k)).
  { intros x. split; intros (k & e & Hk & Hc & ->); exists k, e; (split; [|done]); [lia|].
    destruct (decide (k < j)); [lia|]. rewrite Hn in Hc by lia. done. }
  split; intros [I S N Hd He F Fr]; split; try done.
  - by rewrite Em.
  - intros e Hin. rewrite Ec. by apply He.
  - intros x. by rewrite F, Ef.
  - by rewrite <- Em.
  - intros e Hin. rewrite <- Ec. by apply He.
  - intros x. by rewrite F, Ef.
Qed.
Lemma swept_skip s a j j' :
  a <= j <= j' → (∀ k, j <= k < j' → c0 !! k = None) → swept s a j → swept s a j'.
Proof. intros Hj Hn. by apply (swept_skip_iff s a j j'). Qed.

Lemma swept_no_run s a j p r : a <= j <= p → r_entry r = None → pending j p r → swept s a j → swept s a p.
Proof. intros Hj Hr Hp. unfold pending in Hp. rewrite Hr in Hp. by apply swept_skip. Qed.

(** The block of a page, from the entry as it is now. *)
Lemma nvmm_eq s e k :
  e ∈ es → same_entry (fmem s0) (fmem s) e →
  we_pgoff (wentry_at (fmem s0) e) <= k < we_pgoff (wentry_at (fmem s0) e) + we_num_pages (wentry_at (fmem s0) e) →
  get_nvmm (wentry_at (fmem s) e) k = block_of (fmem s0) e k ∧ 0 < block_of (fmem s0) e k < 2 ^ 51.
Proof using Hw.
  intros He (_ & Eb & Ep & _) Hk. unfold get_nvmm. rewrite Eb, Ep.
  assert (Hr : 0 < block_of (fmem s0) e k < 2 ^ 51).
  { apply (within_range _ _ _ (eo_blocks _ _ (wk_entries _ _ Hw) e He)). unfold block_of. lia. }
  split; [|done]. unfold block_of in *.
  replace (_ + k - we_pgoff _) with (Z.shiftr (we_block (wentry_at (fmem s0) e)) PAGE_SHIFT + (k - we_pgoff (wentry_at (fmem s0) e))) by lia.
  apply wrap_small. lia.
Qed.

(** What retiring the pending run needs. *)
Lemma pending_ready s a j p r e :
  a <= j → swept s a j → r_entry r = Some e → pending j p r →
  let b := get_nvmm (wentry_at (fmem s) e) (r_pgoff r) in
  e ∈ es ∧ b = block_of (fmem s0) e j ∧ within b (r_num r) ∧ (∀ x, b <= x < b + r_num r → ¬ ffree s x).
Proof using Hw.
  intros Haj W Hr Hp b. unfold pending in Hp. rewrite Hr in Hp. destruct Hp as (Ej & Hn & _ & Hrun & _).
  assert (Hj : c0 !! j = Some e) by (apply Hrun; lia).
  pose proof (mo_entry _ _ _ _ (wk_maps _ _ Hw) j e Hj) as He.
  pose proof (mo_in _ _ _ _ (wk_maps _ _ Hw) j e Hj) as Hin.
  assert (Hlast : c0 !! (j + r_num r - 1) = Some e) by (apply Hrun; lia).
  pose proof (mo_in _ _ _ _ (wk_maps _ _ Hw) _ e Hlast) as Hin'.
  destruct (sw_entry _ _ _ W e He) as [Hsame _].
  assert (Eb : b = block_of (fmem s0) e j) by (unfold b; rewrite Ej; by apply nvmm_eq).
  split_and!; [done|done| |].
  - rewrite Eb. apply (within_sub _ _ _ _ (eo_blocks _ _ (wk_entries _ _ Hw) e He)); unfold block_of; lia.
  - intros x Hx. rewrite (sw_free _ _ _ W). set (k := x - b + j).
    assert (Hk : c0 !! k = Some e) by (apply Hrun; unfold k; lia).
    assert (Ex : x = block_of (fmem s0) e k) by (rewrite Eb in *; unfold k, block_of in *; lia).
    intros [Hf|(k' & e' & Hk' & Hc & E')].
    + rewrite Ex in Hf. by apply (mo_used _ _ _ _ (wk_maps _ _ Hw) k e).
    + assert (k = k') by (apply (mo_unique _ _ _ _ (wk_maps _ _ Hw) k e k' e'); congruence). unfold k in *. lia.
Qed.

(** Retiring it. *)
Lemma swept_retired s s' a j p r e :
  a <= j → swept s a j → r_entry r = Some e → pending j p r →
  run_retired s s' e (r_num r) (get_nvmm (wentry_at (fmem s) e) (r_pgoff r)) → swept s' a p.
Proof using Hw.
  intros Haj W Hr Hp R. destruct (pending_ready s a j p r e Haj W Hr Hp) as (He & Eb & _ & _).
  pose proof Hp as Hp'. unfold pending in Hp'. rewrite Hr in Hp'. destruct Hp' as (Ej & Hn & Hjp & Hrun & Hhole).
  apply (swept_skip s' a (j + r_num r) p); [lia|done|].
  pose proof W as [I S N Hd Hent F Fr]. pose proof R as [I' S' _ N' Hd' Rm F'].
  pose proof (eo_slot _ _ (wk_entries _ _ Hw) e He) as Hslot.
  split.
  - done.
  - congruence.
  - congruence.
  - rewrite Hd', Hd. unfold set_h_blocks; cbn [h_size h_blocks v_size v_blocks v_time]. f_equal.
    rewrite (mapped_split c0 a j (j + r_num r)), (mapped_all c0 j (j + r_num r)); [..|lia| |lia].
    + unfold wrap. rewrite Zminus_mod_idemp_l. f_equal. lia.
    + intros k Hk. rewrite Hrun by lia. by exists e.
  - intros e' He'. destruct (Hent e' He') as [Hsame Hi]. destruct (decide (e' = e)) as [->|Hne].
    + destruct (retired_self _ _ _ _ Rm Hslot) as (? & ? & ? & ?). destruct Hsame as (? & ? & ? & ?).
      split; [split_and!; congruence|]. rewrite (rt_inval _ _ _ _ Rm), Hi.
      rewrite (cnt_split c0 e a j (j + r_num r)), (cnt_all c0 e j (j + r_num r)); [..|lia]; [|lia|intros; apply Hrun; lia].
      unfold wrap. rewrite Zplus_mod_idemp_l. f_equal. lia.
    + destruct (retired_other _ _ _ _ e' Rm Hslot (eo_slot _ _ (wk_entries _ _ Hw) e' He')) as [Ew Ei].
      { apply (eo_apart _ _ (wk_entries _ _ Hw)); [done..|congruence]. }
      split; [unfold same_entry in *; by rewrite Ew|]. rewrite Ei, Hi.
      rewrite (cnt_split c0 e' a j (j + r_num r)), (cnt_none c0 e' j (j + r_num r)); [by rewrite Z.add_0_r| |lia].
      intros k Hk. rewrite Hrun by lia. congruence.
  - intros x. rewrite F', F, Eb. split.
    + intros [[?|(k & e' & Hk & Hc & ->)]|Hx]; [by left|right; exists k, e'; split; [lia|done]|].
      right. exists (j + (x - block_of (fmem s0) e j)), e. split; [lia|]. split; [apply Hrun; lia|unfold block_of; lia].
    + intros [?|(k & e' & Hk & Hc & ->)]; [by left; left|]. destruct (decide (k < j)) as [Hlt|Hge].
      * left. right. exists k, e'. split; [lia|done].
      * right. rewrite Hrun in Hc by lia. injection Hc as <-. unfold block_of. lia.
  - intros x Hx. rewrite <- Fr by done. apply (rt_frame _ _ _ _ Rm); destruct (Hx e He) as [H1' H2']; try done;
      unfold in_range, fw_reassigned, fw_invalid_pages in *; lia.
Qed.

Lemma swept_types s a j : swept s a j → no_snapshots s ∧ i_blk_type (sih (flog s)) = 0.
Proof using Hw.
  intros W. unfold no_snapshots. rewrite (sw_snaps _ _ _ W), (sw_sih _ _ _ W).
  split; [apply (wk_snaps _ _ Hw)|apply (wk_btype _ _ Hw)].
Qed.

(** *** Extending the run *)

Lemma pending_hole j p p' r :
  p <= p' → (∀ k, p <= k < p' → c0 !! k = None) → pending j p r → pending j p' r.
Proof.
  intros Hpp Hn. unfold pending. destruct (r_entry r).
  - intros (E & ? & ? & ? & Hh). split_and!; [done|done|lia|done|]. intros k Hk.
    destruct (decide (k < p)); [apply Hh|apply Hn]; lia.
  - intros Hh k Hk. destruct (decide (k < p)); [apply Hh|apply Hn]; lia.
Qed.

Lemma pending_more j p r e :
  j <= p → c0 !! p = Some e → r_entry r = Some e → pending j p r →
  pending j (p + 1) (Run (r_entry r) (r_pgoff r) (u32 (r_num r + 1))) ∧ j + r_num r = p.
Proof using Hw.
  intros Hjp Hc Hr Hp. unfold pending in *. cbn [r_entry r_pgoff r_num]. rewrite Hr in *.
  destruct Hp as (E & Hn & Hle & Hrun & Hh).
  assert (Ep : j + r_num r = p).
  { destruct (decide (j + r_num r = p)); [done|]. exfalso.
    destruct (mo_convex _ _ _ _ (wk_maps _ _ Hw) e j p (j + r_num r)) as [y Hy]; [apply Hrun; lia|done|lia|].
    by rewrite Hh in Hy by lia. }
  assert (Hj : c0 !! j = Some e) by (apply Hrun; lia).
  pose proof (mo_in _ _ _ _ (wk_maps _ _ Hw) j e Hj) as Hin. pose proof (mo_in _ _ _ _ (wk_maps _ _ Hw) p e Hc) as Hin'.
  pose proof (load_bound 4 (fmem s0) (e + fw_num_pages)) as Hb.
  change (load 4 (fmem s0) (e + fw_num_pages)) with (we_num_pages (wentry_at (fmem s0) e)) in Hb.
  rewrite wrap_small by lia. split; [|done]. split_and!; [done|lia|lia| |].
  - intros k Hk. destruct (decide (k = p)) as [->|]; [done|]. apply Hrun. lia.
  - intros k Hk. lia.
Qed.

Lemma pending_new p e : c0 !! p = Some e → pending p (p + 1) (Run (Some e) p 1).
Proof.
  intros Hc. unfold pending. cbn [r_entry r_pgoff r_num]. split_and!; [done|lia|lia| |intros; lia].
  intros k Hk. by replace k with p by lia.
Qed.

(** Retiring it in the program. *)
Lemma free_pending s a j p r e epoch :
  a <= j → swept s a j → r_entry r = Some e → pending j p r →
  ∃ s', nova_free_old_entry cfg mcsafe_again copied_before uninit snapshot_append (Some e) (r_pgoff r) (r_num r) false
          epoch s = Ok (r_num r, s') ∧ swept s' a p ∧ mapping s' = mapping s.
Proof using Hcs Hw Hdata.
  intros Haj W Hr Hp. destruct (pending_ready s a j p r e Haj W Hr Hp) as (He & _ & Hwi & Hf).
  destruct (swept_types s a j W) as [Hsn' Hbt'].
  assert (Hn : 0 < r_num r) by (unfold pending in Hp; rewrite Hr in Hp; tauto).
  destruct (free_old_entry_spec e (r_pgoff r) (r_num r) epoch s) as (s' & E & R); try done.
  { by apply (eo_slot _ _ (wk_entries _ _ Hw)). }
  { apply W. }
  exists s'. split; [done|]. split; [by eapply swept_retired|apply R].
Qed.
Lemma retire_pending s a j p r epoch :
  a <= j <= p → swept s a j → pending j p r →
  ∃ s', retire cfg mcsafe_again copied_before uninit snapshot_append true epoch r s = Ok ((), s') ∧
    swept s' a p ∧ mapping s' = mapping s.
Proof using Hcs Hw Hdata.
  intros Hj W Hp. destruct r as [[e|] k n] eqn:Er.
  - destruct (pending_ready s a j p r e) as (He & _ & Hwi & Hf); rewrite ?Er; try done; [lia|]. rewrite Er in *.
    destruct (swept_types s a j W) as [Hsn' Hbt'].
    assert (Hn : 0 < n) by apply Hp.
    destruct (retire_spec e k n epoch s) as (s' & E & R); try done.
    { by apply (eo_slot _ _ (wk_entries _ _ Hw)). }
    { apply W. }
    exists s'. split; [done|]. split; [|apply R]. apply (swept_retired s s' a j p r e); rewrite ?Er; try done; lia.
  - exists s. split; [done|]. split; [|done]. by apply (swept_no_run s a j p (Run None k n)).
Qed.
End Sweep.

(** *** The file after a walk *)

Lemma same_entry_block m m' e k : same_entry m m' e → block_of m' e k = block_of m e k.
Proof using Type. intros (_ & Eb & Ep & _). unfold block_of. by rewrite Eb, Ep. Qed.

(** The pages [a, b) of the mapping replaced by [v]. *)
Definition overwritten (s s' : fstate A T) (a b : Z) (v : option Z) : Prop :=
  ∀ k, pages_map s' !! k = if decide (a <= k < b) then v else pages_map s !! k.

(** What a new entry must be for its pages. *)
Definition fresh_pages (s : fstate A T) (a b : Z) (v : option Z) : Prop :=
  ∀ e, v = Some e → (∀ k, pages_map s !! k ≠ Some e) ∧
    ∀ k, a <= k < b → we_pgoff (wentry_at (fmem s) e) <= k < we_pgoff (wentry_at (fmem s) e) + we_num_pages (wentry_at (fmem s) e) ∧
      ¬ ffree s (block_of (fmem s) e k) ∧
      ∀ k' e', pages_map s !! k' = Some e' → block_of (fmem s) e k ≠ block_of (fmem s) e' k'.

Section After.
#[local] Set Default Proof Using "Type".
Variables s0 s' : fstate A T.
Variable es : gset Z.
Variables a b : Z.
Variable v : option Z.
Hypothesis Hw : walkable s0 es.
Hypothesis W : swept s0 es s' a b.
Hypothesis Hover : overwritten s0 s' a b v.
Hypothesis Hv : ∀ e, v = Some e → e ∈ es.
Hypothesis Hfresh : fresh_pages s0 a b v.
Hypothesis Hend : v = None → ∀ k, b <= k → pages_map s0 !! k = None.

Lemma over_cases k e :
  pages_map s' !! k = Some e →
  e ∈ es ∧ ((a <= k < b ∧ v = Some e) ∨ (¬ a <= k < b ∧ pages_map s0 !! k = Some e)).
Proof using Hw Hover Hv.
  rewrite Hover. case_decide; intros E; [split; [by apply Hv|by left]|].
  split; [by eapply (mo_entry _ _ _ _ (wk_maps _ _ Hw))|by right].
Qed.

Lemma after_entries : entries_ok (fmem s') es.
Proof using Hw W.
  destruct (wk_entries _ _ Hw) as [Hs Ha Hp Hb]. split; try done.
  - intros e He. destruct (sw_entry _ _ _ _ _ W e He) as [(-> & _ & -> & _) _]. by apply Hp.
  - intros e He. destruct (sw_entry _ _ _ _ _ W e He) as [(-> & -> & _) _]. by apply Hb.
Qed.

Lemma after_maps : maps_ok (fmem s') es (pages_map s') (ffree s').
Proof using Hw W Hover Hv Hfresh Hend.
  destruct (wk_maps _ _ Hw) as [Me Mi Mu Mq Mc].
  assert (Hblk : ∀ e k, e ∈ es → block_of (fmem s') e k = block_of (fmem s0) e k).
  { intros e k He. apply same_entry_block. by apply (sw_entry _ _ _ _ _ W). }
  split.
  - intros k e Hk. by destruct (over_cases k e Hk).
  - intros k e Hk. destruct (over_cases k e Hk) as [He Hc].
    destruct (sw_entry _ _ _ _ _ W e He) as [(-> & _ & -> & _) _].
    destruct Hc as [[Hr Ev]|[_ Hc]]; [|by apply Mi]. by apply (Hfresh e Ev).
  - intros k e Hk. destruct (over_cases k e Hk) as [He Hc]. rewrite Hblk, (sw_free _ _ _ _ _ W) by done.
    destruct Hc as [[Hr Ev]|[Hr Hc]].
    + destruct (Hfresh e Ev) as [_ Hp]. destruct (Hp k Hr) as (_ & Hf & Hne).
      intros [?|(k' & e' & _ & Hc' & E)]; [done|]. by apply (Hne k' e').
    + intros [Hf|(k' & e' & Hk' & Hc' & E)]; [by apply (Mu k e)|].
      assert (k = k') as -> by (by apply (Mq k e k' e')). done.
  - intros k e k' e' Hk Hk' E. destruct (over_cases k e Hk) as [He Hc], (over_cases k' e' Hk') as [He' Hc'].
    rewrite !Hblk in E by done.
    destruct Hc as [[Hr Ev]|[Hr Hc]], Hc' as [[Hr' Ev']|[Hr' Hc']].
    + assert (e' = e) as -> by congruence. unfold block_of in E. lia.
    + destruct (Hfresh e Ev) as [_ Hp]. by destruct (proj2 (proj2 (Hp k Hr)) k' e' Hc').
    + destruct (Hfresh e' Ev') as [_ Hp]. by destruct (proj2 (proj2 (Hp k' Hr')) k e Hc).
    + by apply (Mq k e k' e').
  - intros e i j k Hi Hj Hij. rewrite Hover. destruct (over_cases i e Hi) as [He Hc], (over_cases j e Hj) as [_ Hc'].
    case_decide as Hr.
    + destruct Hc as [[? ->]|[Hni Hc]]; [by exists e|]. destruct Hc' as [[? ->]|[Hnj Hc']]; [by exists e|].
      destruct v as [e0|]; [by exists e0|]. rewrite Hend in Hc' by (done || lia). done.
    + destruct Hc as [[Hri Ev]|[Hni Hc]], Hc' as [[Hrj Ev']|[Hnj Hc']]; [lia| | |by eapply (Mc e i j)].
      * by destruct (proj1 (Hfresh e Ev) j).
      * by destruct (proj1 (Hfresh e Ev') i).
Qed.

(** An entry that counted its pages before counts them afterwards. *)
Lemma after_count e :
  0 <= a <= b → b <= Z.of_nat max_pgoff → e ∈ es → v ≠ Some e →
  inval (fmem s0) e + cnt (pages_map s0) e 0 (Z.of_nat max_pgoff) = we_num_pages (wentry_at (fmem s0) e) →
  inval (fmem s') e + cnt (pages_map s') e 0 (Z.of_nat max_pgoff) = we_num_pages (wentry_at (fmem s') e).
Proof using Hover W.
  intros Hab Hb He Hne Hc. destruct (sw_entry _ _ _ _ _ W e He) as [(-> & _) ->].
  pose proof (load_bound 4 (fmem s0) (e + fw_num_pages)) as Hn.
  change (load 4 (fmem s0) (e + fw_num_pages)) with (we_num_pages (wentry_at (fmem s0) e)) in Hn.
  pose proof (load_bound 4 (fmem s0) (e + fw_invalid_pages)) as Hi. fold (inval (fmem s0) e) in Hi.
  rewrite (cnt_split (pages_map s0) e 0 a), (cnt_split (pages_map s0) e a b) in Hc by lia.
  rewrite (cnt_split (pages_map s') e 0 a), (cnt_split (pages_map s') e a b) by lia.
  rewrite (cnt_ext (pages_map s') (pages_map s0) e 0 a), (cnt_ext (pages_map s') (pages_map s0) e b),
    (cnt_none (pages_map s') e a b).
  - pose proof (cnt_nonneg (pages_map s0) e 0 a). pose proof (cnt_nonneg (pages_map s0) e a b).
    pose proof (cnt_nonneg (pages_map s0) e b (Z.of_nat max_pgoff)). rewrite wrap_small by lia. lia.
  - intros k Hk. rewrite Hover, decide_True by done. done.
  - intros k Hk. rewrite Hover, decide_False by lia. done.
  - intros k Hk. rewrite Hover, decide_False by lia. done.
Qed.
End After.
End Files.
