(* ===== verification/NovaFileOps.v ===== *)
(** * NOVA: overwriting, truncating and seeking

    The walks of [NovaFileProofs] run to their ends: what mapping a new entry
    ([assign_spec]), unmapping the end of a file ([delete_file_tree_spec]),
    clearing the end of its last page ([clear_tail_spec]) and seeking
    ([find_data_spec], [find_hole_spec]) do, over any radix tree and any
    allocator with their laws, for a file system without snapshots and without
    metadata checksums. *)

From stdpp Require Import base list gmap.
From Stdlib Require Import ZArith Lia.
From coqutil Require Import Byte Word.LittleEndianList.
From S2P Require Import Prelude PMem NovaBase NovaJournal NovaInode NovaLogEntry NovaIntegrity.
From S2P Require Import NovaBalloc NovaLog NovaLogProofs NovaLogOps NovaFile NovaFileProofs.

Local Open Scope Z_scope.

Section Main.
#[local] Set Default Proof Using "All".
Context `{Crc} `{NocacheCopy} `{CachedWrite} {A T : Type} `{LogAlloc A} `{Hlaws : !LogAllocLaws}.
Context `{DataAlloc A} `{!DataAllocLaws A} `{RadixTree T} `{!RadixTreeLaws T}.
Variable cfg : nova_cfg.
Variable mcsafe_again : option Z → Z → Z.
Variable copied_before : Z → Z → nat.
Variable uninit : entry_copy.
Variable snapshot_append : Z → Z → Z → Z → M (fstate A T) ().
Variable max_pgoff : nat.
Hypothesis Hcs : metadata_csum cfg = false.
Hypothesis Hmax : Z.of_nat max_pgoff < 2 ^ 63.

(** ** Overwriting *)

(** A write entry about to be mapped: counted in none of its fields yet, with
    blocks in use that no page has. *)
Record new_entry (s : fstate A T) (es : gset Z) (e : Z) : Prop := {
  ne_new : e ∉ es;
  ne_entries : entries_ok max_pgoff (fmem s) ({[e]} ∪ es);
  ne_inval : inval (fmem s) e = 0;
  ne_pgoff : 0 <= we_pgoff (wentry_at (fmem s) e);
  ne_blocks : ∀ k, we_pgoff (wentry_at (fmem s) e) <= k < we_pgoff (wentry_at (fmem s) e) + we_num_pages (wentry_at (fmem s) e) →
    ¬ ffree s (block_of (fmem s) e k) ∧
    ∀ k' e', pages_map s !! k' = Some e' → block_of (fmem s) e k ≠ block_of (fmem s) e' k'
}.

Section Assign.
Variable s0 : fstate A T.
Variable es : gset Z.
Variable e0 : Z.
Hypothesis Hok : file_ok max_pgoff s0 es.
Hypothesis Hnew : new_entry s0 es e0.
Hypothesis Hsn : no_snapshots s0.
Local Abbreviation w0 := (wentry_at (fmem s0) e0).
Local Abbreviation all_es := ({[e0]} ∪ es).
Local Abbreviation p0 := (we_pgoff w0).
Local Abbreviation num := (we_num_pages w0).

Lemma new_walkable : walkable max_pgoff s0 all_es.
Proof.
  destruct Hok as [? ? _ [He ? ? ? ?] _]. split; try done; [apply (ne_entries _ _ _ Hnew)|].
  split; try done. intros k e Hk. apply elem_of_union. right. by eapply He.
Qed.

(** The state after [i] pages, with the run [r] from page [j]. *)
Record assigning (s : fstate A T) (i j : Z) (r : run) : Prop := {
  as_swept : swept s0 all_es s p0 j;
  as_pending : pending s0 j (p0 + i) r;
  as_range : p0 <= j <= p0 + i;
  as_maps : overwritten s0 s p0 (p0 + i) (Some e0)
}.

Lemma num_range : 0 <= p0 ∧ 0 <= num ∧ p0 + num <= Z.of_nat max_pgoff.
Proof.
  split; [apply (ne_pgoff _ _ _ Hnew)|]. split; [apply (load_bound 4)|].
  apply (eo_pages _ _ _ (ne_entries _ _ _ Hnew)). set_solver.
Qed.

Lemma overwritten_next s s' i :
  0 <= i → overwritten s0 s p0 (p0 + i) (Some e0) → pages_map s' = <[p0 + i := e0]> (pages_map s) →
  overwritten s0 s' p0 (p0 + (i + 1)) (Some e0).
Proof.
  intros Hi Hm E k. rewrite E. destruct (decide (k = p0 + i)) as [->|Hne].
  - rewrite lookup_insert_eq, decide_True by lia. done.
  - rewrite lookup_insert_ne, Hm by done. do 2 case_decide; (done || lia).
Qed.

(** The end of the loop: all pages are mapped, or an insertion failed at [i]. *)
Lemma assign_loop_spec n i j r s :
  0 <= i → i + Z.of_nat n = num → assigning s i j r →
  ∃ ret r' j' i' s', assign_loop cfg mcsafe_again copied_before uninit snapshot_append n i e0 w0 true r s = Ok ((ret, r'), s') ∧
    assigning s' i' j' r' ∧ (ret = 0 ∧ i' = num ∨ ret < 0 ∧ i <= i' < num ∧ pages_map s0 !! (p0 + i') = None).
Proof.
  revert i j r s. induction n as [|n IH]; intros i j r s Hi Hn As.
  { exists 0, r, j, i, s. split; [done|]. split; [done|]. left. lia. }
  pose proof num_range as Hr. destruct As as [W Hp Hj Hm].
  cbn [assign_loop]. rewrite wrap_small by lia. rewrite gets_bind, radix_lookup_ok. fold (pages_map s).
  assert (Hlook : pages_map s !! (p0 + i) = pages_map s0 !! (p0 + i)) by (rewrite Hm, decide_False by lia; done).
  rewrite Hlook. destruct (pages_map s0 !! (p0 + i)) as [e|] eqn:Hc.
  - (* a page of [e] *)
    assert (Hstep : ∀ s1 j1 r1, swept s0 all_es s1 p0 j1 → pending s0 j1 (p0 + i + 1) r1 → p0 <= j1 <= p0 + i →
      mapping s1 = mapping s →
      assigning (FState (flog s1) (radix_replace (mapping s1) (p0 + i) e0) (head s1) (snapshots s1)) (i + 1) j1 r1).
    { intros s1 j1 r1 W1 P1 J1 M1. split; [by apply swept_mapping|by rewrite Z.add_assoc|lia|].
      eapply overwritten_next; [done|exact Hm|]. unfold pages_map at 1. cbn [mapping].
      rewrite M1, radix_replace_ok; [done|]. fold (pages_map s). rewrite Hlook. by exists e. }
    destruct (bool_decide_reflect (r_entry r = Some e)) as [Hre|Hre].
    + destruct (pending_more max_pgoff s0 all_es new_walkable j (p0 + i) r e) as [Hp' _]; [lia|done..|].
      destruct (IH (i + 1) j (Run (r_entry r) (r_pgoff r) (u32 (r_num r + 1))) _ ltac:(lia) ltac:(lia)
        (Hstep s j _ W Hp' ltac:(lia) eq_refl)) as (ret & r' & j' & i' & s' & E & As' & Hout).
      exists ret, r', j', i', s'. split; [exact E|]. split; [done|]. destruct Hout as [?|(? & ? & ?)]; [by left|right; split_and!; (done || lia)].
    + destruct (retire_pending cfg mcsafe_again copied_before uninit snapshot_append max_pgoff Hcs s0 all_es new_walkable
        s p0 j (p0 + i) r (we_epoch_id w0) Hj W Hp) as (s1 & E1 & W1 & M1).
      destruct (IH (i + 1) (p0 + i) (Run (Some e) (p0 + i) 1) _ ltac:(lia) ltac:(lia)
        (Hstep s1 (p0 + i) _ W1 (pending_new s0 _ _ Hc) ltac:(lia) M1)) as (ret & r' & j' & i' & s' & E & As' & Hout).
      exists ret, r', j', i', s'. split; [|split; [done|]].
      * erewrite bind_Ok; [|by erewrite bind_Ok; [|exact E1]]. exact E.
      * destruct Hout as [?|(? & ? & ?)]; [by left|right; split_and!; (done || lia)].
  - (* a hole *)
    rewrite gets_bind. destruct (radix_insert_ok (mapping s) (p0 + i) e0) as [[E0 Ec]|[E0 Ec]]; [by fold (pages_map s); rewrite Hlook| |];
      destruct (radix_insert (mapping s) (p0 + i) e0) as [ret t]; cbn [fst snd] in *.
    + subst ret. cbn [Z.eqb negb]. erewrite bind_Ok; [|done].
      destruct (IH (i + 1) j r (FState (flog s) t (head s) (snapshots s)) ltac:(lia) ltac:(lia)) as (ret & r' & j' & i' & s' & E & As' & Hout).
      { split; [by apply swept_mapping| |lia|by eapply overwritten_next; [| |exact Ec]].
        apply (pending_hole s0 j (p0 + i)); [lia| |done]. intros k Hk. by replace k with (p0 + i) by lia. }
      exists ret, r', j', i', s'. split; [exact E|]. split; [done|]. destruct Hout as [?|(? & ? & ?)]; [by left|right; split_and!; (done || lia)].
    + erewrite bind_Ok; [|done]. destruct (Z.eqb_spec ret 0); [lia|]. cbn [negb].
      exists ret, r, j, i, (FState (flog s) t (head s) (snapshots s)). split; [done|]. split.
      * split; [by apply swept_mapping|done|done|]. intros k. unfold pages_map at 1. cbn [mapping]. rewrite Ec. apply Hm.
      * right. split_and!; (done || lia).
Qed.

Lemma new_fresh b : b <= p0 + num → fresh_pages s0 p0 b (Some e0).
Proof.
  intros Hb e [= <-]. split.
  - intros k Hk. apply (ne_new _ _ _ Hnew). by eapply (mo_entry _ _ _ _ (fo_maps _ _ _ Hok)).
  - intros k Hk. split; [lia|]. apply (ne_blocks _ _ _ Hnew). lia.
Qed.

(** Every page mapped: the file is whole again. *)
Lemma assigned_ok s :
  swept s0 all_es s p0 (p0 + num) → overwritten s0 s p0 (p0 + num) (Some e0) → file_ok max_pgoff s all_es.
Proof.
  intros W Hm. pose proof num_range as Hr. pose proof new_walkable as Hw.
  assert (Hv : ∀ e, Some e0 = Some e → e ∈ all_es) by (intros e [= <-]; set_solver).
  split.
  - apply W.
  - rewrite (sw_sih _ _ _ _ _ W). apply (fo_btype _ _ _ Hok).
  - by eapply after_entries.
  - eapply (after_maps max_pgoff s0 s all_es p0 (p0 + num) (Some e0)); try done. by apply new_fresh.
  - intros e He. destruct (decide (e = e0)) as [->|Hne].
    + destruct (sw_entry _ _ _ _ _ W e0 He) as [(-> & _) ->]. rewrite (ne_inval _ _ _ Hnew).
      rewrite (cnt_none (pages_map s0)), wrap_small by (lia || (intros k Hk; apply (new_fresh (p0 + num) (Z.le_refl _) e0 eq_refl))).
      rewrite (cnt_split _ _ 0 p0), (cnt_split _ _ p0 (p0 + num)), (cnt_all _ _ p0 (p0 + num)), !cnt_none; [lia|..].
      * intros k Hk. rewrite Hm, decide_False by lia. apply (new_fresh (p0 + num) (Z.le_refl _) e0 eq_refl).
      * intros k Hk. rewrite Hm, decide_False by lia. apply (new_fresh (p0 + num) (Z.le_refl _) e0 eq_refl).
      * lia.
      * intros k Hk. by rewrite Hm, decide_True.
      * lia.
      * lia.
    + eapply (after_count max_pgoff s0 s all_es p0 (p0 + num) (Some e0)); try done; [lia|lia|congruence|].
      apply (fo_count _ _ _ Hok). apply elem_of_union in He as [->%elem_of_singleton|?]; done.
Qed.

(** What an assignment leaves behind. *)
Definition assigned (ret : Z) (s : fstate A T) : Prop :=
  ret = 0 ∧ overwritten s0 s p0 (p0 + num) (Some e0) ∧ swept s0 all_es s p0 (p0 + num) ∧ file_ok max_pgoff s all_es ∨
  ret < 0 ∧ ∃ i j r, 0 <= i < num ∧ pages_map s0 !! (p0 + i) = None ∧ p0 <= j <= p0 + i ∧
    overwritten s0 s p0 (p0 + i) (Some e0) ∧ swept s0 all_es s p0 j ∧ pending s0 j (p0 + i) r.

Lemma assign_spec :
  0 <= h_blocks (head s0) < 2 ^ 64 →
  ∃ ret s', nova_assign_write_entry cfg mcsafe_again copied_before uninit snapshot_append e0 w0 true s0 = Ok (ret, s') ∧
    assigned ret s'.
Proof.
  intros Hh. pose proof num_range as Hr. pose proof new_walkable as Hw. unfold nova_assign_write_entry.
  destruct (assign_loop_spec (Z.to_nat num) 0 p0 no_run s0 ltac:(lia) ltac:(lia)) as (ret & r & j & i & s & E & As & Hout).
  { split; [by eapply swept_start| |lia|]; [by intros k Hk; lia|]. intros k. rewrite decide_False by lia. done. }
  erewrite bind_Ok; [|exact E]. cbv beta iota. destruct As as [W P J M].
  destruct Hout as [[-> ->]|(Hret & Hi & Hn)].
  - cbn [Z.eqb negb].
    destruct (retire_pending cfg mcsafe_again copied_before uninit snapshot_append max_pgoff Hcs s0 all_es Hw
      s p0 j (p0 + num) r (we_epoch_id w0) J W P) as (s' & E' & W' & M').
    exists 0, s'. split; [by erewrite bind_Ok; [|exact E']|]. left.
    assert (M2 : overwritten s0 s' p0 (p0 + num) (Some e0)) by (intros k; unfold pages_map; rewrite M'; apply M).
    split_and!; [done|done|done|by apply assigned_ok].
  - destruct (Z.eqb_spec ret 0); [lia|]. cbn [negb]. exists ret, s. split; [done|]. right. split; [done|].
    exists i, j, r. split_and!; try done; lia.
Qed.
End Assign.

(** ** Truncating *)

Section Delete.
Variable s0 : fstate A T.
Variable es : gset Z.
Hypothesis Hok : file_ok max_pgoff s0 es.
Hypothesis Hsn : no_snapshots s0.
Variables start epoch : Z.
Hypothesis Hstart : 0 <= start.
Local Abbreviation c0 := (pages_map s0).

Lemma file_walkable : walkable max_pgoff s0 es.
Proof. by destruct Hok. Qed.

(** No page is mapped beyond [max_pgoff]. *)
Lemma no_page_beyond k : Z.of_nat max_pgoff <= k → c0 !! k = None.
Proof.
  intros Hk. destruct (c0 !! k) as [e|] eqn:E; [|done]. exfalso.
  pose proof (mo_in _ _ _ _ (fo_maps _ _ _ Hok) k e E).
  pose proof (eo_pages _ _ _ (fo_entries _ _ _ Hok) e (mo_entry _ _ _ _ (fo_maps _ _ _ Hok) k e E)). lia.
Qed.

(** The walk at page [p], with the run [r] from page [j] and [freed] pages
    retired. *)
Record deleting (s : fstate A T) (p j : Z) (r : run) (freed : Z) : Prop := {
  de_swept : swept s0 es s start j;
  de_pending : pending s0 j p r;
  de_range : start <= j <= p;
  de_maps : overwritten s0 s start p None;
  de_freed : freed = s32 (mapped c0 start j)
}.

(** [free_run] retires what is pending. *)
Lemma free_run_spec s p j r freed :
  swept s0 es s start j → pending s0 j p r → start <= j <= p → freed = s32 (mapped c0 start j) →
  ∃ freed' s', free_run cfg mcsafe_again copied_before uninit snapshot_append true false epoch r freed s = Ok (freed', s') ∧
    swept s0 es s' start p ∧ mapping s' = mapping s ∧ freed' = s32 (mapped c0 start p).
Proof.
  intros W P J ->. unfold free_run. destruct (r_entry r) as [e|] eqn:Er.
  - destruct (free_pending cfg mcsafe_again copied_before uninit snapshot_append max_pgoff Hcs s0 es file_walkable
      s start j p r e epoch) as (s' & E & W' & M'); [lia|done..|].
    exists (s32 (mapped c0 start p)), s'. split; [|done]. erewrite bind_Ok; [|exact E]. unfold mret, M_ret. do 2 f_equal.
    unfold pending in P. rewrite Er in P. destruct P as (_ & Hn & Hle & Hrun & Hh).
    rewrite swrap_add by lia. f_equal. rewrite (mapped_split c0 start j p), (mapped_split c0 j (j + r_num r) p) by lia.
    rewrite (mapped_all c0 j), (mapped_none c0 (j + r_num r) p); [lia|done|lia|].
    intros k Hk. rewrite Hrun by lia. by exists e.
  - exists (s32 (mapped c0 start j)), s. split; [done|]. split; [by eapply swept_no_run|]. split; [done|].
    unfold pending in P. rewrite Er in P. rewrite (mapped_split c0 start j p), (mapped_none c0 j p) by done. f_equal. lia.
Qed.

Lemma deleted_next s s' p :
  start <= p → overwritten s0 s start p None → pages_map s' = delete p (pages_map s) →
  overwritten s0 s' start (p + 1) None.
Proof.
  intros Hp Hm E k. rewrite E. destruct (decide (k = p)) as [->|Hne].
  - rewrite lookup_delete_eq, decide_True by lia. done.
  - rewrite lookup_delete_ne, Hm by done. do 2 case_decide; (done || lia).
Qed.

Lemma delete_loop_spec fuel p j r freed s :
  Z.of_nat max_pgoff - p < Z.of_nat fuel → (0 < fuel)%nat → deleting s p j r freed →
  ∃ r' freed' j' p' s', delete_loop cfg mcsafe_again copied_before uninit snapshot_append fuel p true false epoch r freed s =
      Ok ((r', freed'), s') ∧ deleting s' p' j' r' freed' ∧ p <= p' ∧ ∀ k, p' <= k → c0 !! k = None.
Proof.
  revert p j r freed s. induction fuel as [|fuel IH]; intros p j r freed s Hf Hpos D; [lia|].
  pose proof D as [W P J M Hfr]. cbn [delete_loop]. rewrite gets_bind, radix_lookup_ok. fold (pages_map s).
  assert (Hlook : ∀ k, p <= k → pages_map s !! k = c0 !! k) by (intros k Hk; rewrite M, decide_False by lia; done).
  rewrite Hlook by lia. destruct (c0 !! p) as [e|] eqn:Hc.
  - assert (Hpm : p < Z.of_nat max_pgoff).
    { destruct (decide (p < Z.of_nat max_pgoff)); [done|]. rewrite no_page_beyond in Hc by lia. done. }
    rewrite gets_bind. destruct (radix_delete_ok (mapping s) p) as [E1 E2].
    destruct (radix_delete (mapping s) p) as [ret t]. cbn [fst snd] in E1, E2.
    fold (pages_map s) in E1, E2. rewrite Hlook, Hc in E1 by lia. subst ret. erewrite bind_Ok; [|done].
    rewrite (bool_decide_eq_true_2 (Some e = Some e)) by done. cbn [negb bug_on]. erewrite bind_Ok; [|done].
    set (s1 := FState (flog s) t (head s) (snapshots s)).
    assert (M1 : overwritten s0 s1 start (p + 1) None) by (eapply deleted_next; [lia|exact M|exact E2]).
    rewrite (wrap_small 64 (p + 1)) by lia.
    destruct (bool_decide_reflect (r_entry r = Some e)) as [Hre|Hre].
    + destruct (pending_more max_pgoff s0 es file_walkable j p r e) as [P' _]; [lia|done..|].
      erewrite bind_Ok; [|done]. cbv beta iota.
      destruct (IH (p + 1) j (Run (r_entry r) (r_pgoff r) (u32 (r_num r + 1))) freed s1) as (r' & fr' & j' & p' & s' & E & D' & Hp' & Hn');
        [lia|lia|by split; [apply swept_mapping| |lia| |]|].
      exists r', fr', j', p', s'. split; [exact E|]. split; [done|]. split; [lia|done].
    + destruct (free_run_spec s1 p j r freed) as (freed' & s2 & E2' & W2 & M2 & F2); [by apply swept_mapping|done..|].
      erewrite bind_Ok; [|by erewrite bind_Ok; [|exact E2']]. cbv beta iota.
      destruct (IH (p + 1) p (Run (Some e) p 1) freed' s2) as (r' & fr' & j' & p' & s' & E & D' & Hp' & Hn');
        [lia|lia| |].
      { split; [done|by apply pending_new|lia| |done]. intros k. unfold pages_map at 1. rewrite M2. apply M1. }
      exists r', fr', j', p', s'. split; [exact E|]. split; [done|]. split; [lia|done].
  - unfold nova_find_next_entry. rewrite gets_bind. pose proof (radix_next_ok (mapping s) p) as Hnx.
    fold (pages_map s) in Hnx. destruct (radix_next (mapping s) p) as [e|].
    + destruct Hnx as (k & Hk & Hke & Hgap). rewrite Hlook in Hke by done.
      erewrite bind_Ok; [|by apply file_pm_Ok, read_wentry_eq]. cbv beta iota.
      set (s1 := after_read s). change (view (machine (blocks (flog s)))) with (fmem s).
      assert (Hke' := Hke). apply (mo_in _ _ _ _ (fo_maps _ _ _ Hok)) in Hke'.
      pose proof (mo_entry _ _ _ _ (fo_maps _ _ _ Hok) k e Hke) as He.
      destruct (sw_entry _ _ _ _ _ W e He) as [(_ & _ & -> & _) _].
      assert (Hkp : k ≠ p) by congruence. assert (Hkm : k < Z.of_nat max_pgoff).
      { destruct (decide (k < Z.of_nat max_pgoff)); [done|]. rewrite no_page_beyond in Hke by lia. done. }
      rewrite (wrap_small 64 (p + 1)) by lia. set (p1 := Z.max (p + 1) _).
      assert (Hh : ∀ i, p <= i < p1 → c0 !! i = None) by (intros i Hi; rewrite <- Hlook by lia; apply Hgap; lia).
      destruct (IH p1 j r freed s1) as (r' & fr' & j' & p' & s' & E & D' & Hp' & Hn'); [lia|lia| |].
      { split; [by apply swept_read| |lia| |done]; [apply (pending_hole s0 j p); [lia|done|done]|].
        intros i. unfold pages_map at 1. cbn [mapping s1]. fold (pages_map s). rewrite M.
        do 2 case_decide; try done; try lia. rewrite Hh by lia. done. }
      exists r', fr', j', p', s'. split; [exact E|]. split; [done|]. split; [lia|done].
    + exists r, freed, j, p, s. split; [done|]. split; [done|]. split; [lia|].
      intros k Hk. rewrite <- Hlook by done. by apply Hnx.
Qed.

(** The file after a truncation to [start] pages. *)
Record deleted (s : fstate A T) : Prop := {
  dl_maps : ∀ k, pages_map s !! k = if decide (start <= k) then None else c0 !! k;
  dl_swept : swept s0 es s start (Z.max start (Z.of_nat max_pgoff));
  dl_file : file_ok max_pgoff s es
}.

Lemma delete_file_tree_spec last :
  0 <= h_blocks (head s0) < 2 ^ 64 →
  ∃ s', nova_delete_file_tree cfg mcsafe_again copied_before uninit snapshot_append max_pgoff start last true false epoch s0 =
      Ok (s32 (mapped c0 start (Z.max start (Z.of_nat max_pgoff))), s') ∧ deleted s'.
Proof.
  intros Hh. pose proof file_walkable as Hw. unfold nova_delete_file_tree.
  destruct (delete_loop_spec (S max_pgoff) start start no_run 0 s0 ltac:(lia) ltac:(lia))
    as (r & freed & j & p & s & E & [W P J M F] & Hp & Hend).
  { split; [by eapply swept_start| |lia| |by rewrite mapped_none by lia].
    - intros k Hk. lia.
    - intros k. rewrite decide_False by lia. done. }
  erewrite bind_Ok; [|exact E]. cbv beta iota.
  destruct (free_run_spec s p j r freed W P J F) as (freed' & s' & E' & W' & M' & ->).
  set (b := Z.max start (Z.of_nat max_pgoff)).
  assert (Hs : swept s0 es s' start b ∧ mapped c0 start p = mapped c0 start b).
  { destruct (decide (p <= b)) as [Hle|Hgt].
    - assert (Hh' : ∀ k, p <= k < b → c0 !! k = None) by (intros k Hk; apply Hend; lia).
      split; [apply (swept_skip s0 es s' start p b); [lia|done|done]|].
      rewrite (mapped_split c0 start p b), (mapped_none c0 p b) by (done || lia). lia.
    - assert (Hh' : ∀ k, b <= k < p → c0 !! k = None) by (intros k Hk; apply no_page_beyond; lia).
      split; [apply (swept_skip_iff s0 es s' start b p); [lia|done|done]|].
      rewrite (mapped_split c0 start b p), (mapped_none c0 b p) by (done || lia). lia. }
  destruct Hs as [Wb Em]. rewrite Em in E'. exists s'. split; [exact E'|].
  assert (M2 : ∀ k, pages_map s' !! k = if decide (start <= k) then None else c0 !! k).
  { intros k. unfold pages_map at 1. rewrite M', M. do 2 case_decide; try done; try lia. by rewrite Hend by lia. }
  assert (M3 : overwritten s0 s' start b None).
  { intros k. rewrite M2. do 2 case_decide; try done; try lia. rewrite no_page_beyond by lia. done. }
  assert (Hb' : ∀ k, b <= k → c0 !! k = None) by (intros k Hk; apply no_page_beyond; lia).
  split; [done|done|]. split.
  - apply Wb.
  - rewrite (sw_sih _ _ _ _ _ Wb). apply (fo_btype _ _ _ Hok).
  - by eapply after_entries.
  - by eapply (after_maps max_pgoff s0 s' es start b None).
  - intros e He. destruct (decide (start <= Z.of_nat max_pgoff)) as [Hsm|Hsm].
    + eapply (after_count max_pgoff s0 s' es start b None); try done; [lia|lia|]. by apply (fo_count _ _ _ Hok).
    + destruct (sw_entry _ _ _ _ _ Wb e He) as [(-> & _) ->].
      rewrite (cnt_none c0 e start b) by (intros k Hk; rewrite no_page_beyond by lia; done).
      rewrite Z.add_0_r, wrap_small by apply (load_bound 4).
      rewrite (cnt_ext _ c0) by (intros k Hk; rewrite M2, decide_False by lia; done).
      by apply (fo_count _ _ _ Hok).
Qed.
End Delete.

(** ** Seeking *)

(** A state that was only read. *)
Record only_read (s s' : fstate A T) : Prop := {
  or_inv : inv (blocks (flog s')) ↔ inv (blocks (flog s));
  or_mem : fmem s' = fmem s;
  or_sih : sih (flog s') = sih (flog s);
  or_mapping : mapping s' = mapping s;
  or_head : head s' = head s;
  or_snaps : snapshots s' = snapshots s;
  or_free : ∀ x, ffree s' x ↔ ffree s x
}.

Section Seek.
Variable s0 : fstate A T.
Variable es : gset Z.
Hypothesis Hok : file_ok max_pgoff s0 es.
Variables first last : Z.
Hypothesis Hfl : 0 <= first <= last ∧ last < 2 ^ 51.
Local Abbreviation c0 := (pages_map s0).

Lemma only_read_refl s : only_read s s.
Proof using Type. by split. Qed.
Lemma only_read_step s : only_read s0 s → inv (blocks (flog s)) → only_read s0 (after_read s) ∧ inv (blocks (flog (after_read s))).
Proof using Hlaws.
  intros [I M S P D N F] Hi. assert (Hi' : inv (blocks (flog (after_read s)))) by by apply inv_with.
  split; [|done]. split; try done; [split; intros _; [by apply I|done]|by rewrite fmem_after_read|].
  intros x. rewrite <- F. unfold ffree. cbn. by rewrite free_with.
Qed.

(** Past the hole at [p]. *)
Lemma after_hole_spec s p :
  only_read s0 s → inv (blocks (flog s)) → first <= p <= last → c0 !! p = None →
  ∃ p' s', after_hole cfg mcsafe_again copied_before uninit p last s = Ok (Some p', s') ∧
    p < p' <= last + 1 ∧ (∀ k, p <= k < p' → c0 !! k = None) ∧ only_read s0 s' ∧ inv (blocks (flog s')).
Proof.
  intros R Hi Hp Hc. unfold after_hole, nova_find_next_entry. rewrite gets_bind, (or_mapping _ _ R).
  pose proof (radix_next_ok (mapping s0) p) as Hnx. fold c0 in Hnx. rewrite (wrap_small 64 (p + 1)) by lia.
  destruct (radix_next (mapping s0) p) as [e|].
  - destruct Hnx as (j & Hj & Hje & Hgap). assert (j ≠ p) by congruence.
    pose proof (mo_in _ _ _ _ (fo_maps _ _ _ Hok) j e Hje) as Hin.
    erewrite bind_Ok; [|by apply file_pm_Ok, read_wentry_eq]. cbv beta iota.
    change (view (machine (blocks (flog s)))) with (fmem s). rewrite (or_mem _ _ R).
    destruct (only_read_step s R Hi) as [R' Hi'].
    eexists _, (after_read s). split; [done|]. split_and!; try done.
    + destruct (Z.gtb_spec (Z.max (p + 1) (we_pgoff (wentry_at (fmem s0) e))) last); [rewrite wrap_small by lia|]; lia.
    + destruct (Z.gtb_spec (Z.max (p + 1) (we_pgoff (wentry_at (fmem s0) e))) last); [rewrite wrap_small by lia|]; lia.
    + intros k Hk. apply Hgap.
      destruct (Z.gtb_spec (Z.max (p + 1) (we_pgoff (wentry_at (fmem s0) e))) last); [rewrite wrap_small in Hk by lia|]; lia.
  - exists (p + 1), s. split; [done|]. split_and!; try done; [lia|lia|]. intros k Hk. apply Hnx. lia.
Qed.

(** Looking for data: the first mapped page [k], or the end. *)
Lemma data_loop_spec fuel p s :
  first <= p <= last + 1 → last + 1 - p <= Z.of_nat fuel → only_read s0 s → inv (blocks (flog s)) →
  (∀ k, first <= k < p → c0 !! k = None) →
  ∃ k s', hole_loop cfg mcsafe_again copied_before uninit fuel p last false false (first <? p) (p - first) s =
      Ok ((k - first, k <=? last, first <? k), s') ∧ only_read s0 s' ∧
    first <= k <= last + 1 ∧ (∀ i, first <= i < k → c0 !! i = None) ∧ (k <= last → is_Some (c0 !! k)).
Proof.
  revert p s. induction fuel as [|fuel IH]; intros p s Hp Hf R Hi Hn; cbn [hole_loop].
  - destruct (Z.leb_spec p last); [lia|]. cbn [negb]. exists p, s. split_and!; try done; try lia.
    destruct (Z.leb_spec p last); [lia|done].
  - destruct (Z.leb_spec p last) as [Hle|Hgt]; cbn [negb].
    2: { exists p, s. split_and!; try done; try lia. destruct (Z.leb_spec p last); [lia|done]. }
    rewrite gets_bind, radix_lookup_ok, (or_mapping _ _ R). fold c0. destruct (c0 !! p) as [e|] eqn:Hc.
    + exists p, s. split_and!; try done; try lia. by rewrite (proj2 (Z.leb_le p last)).
    + destruct (after_hole_spec s p R Hi ltac:(lia) Hc) as (p' & s' & E & Hp' & Hh & R' & Hi').
      erewrite bind_Ok; [|exact E]. cbv beta iota zeta. cbn [negb].
      destruct (IH p' s') as (k & s2 & E2 & R2 & Hk & Hk1 & Hk2); [lia|lia|done|done| |].
      { intros i Hi2. destruct (decide (i < p)); [apply Hn|apply Hh]; lia. }
      exists k, s2. split; [|done]. rewrite <- E2. rewrite wrap_small by lia.
      rewrite (proj2 (Z.ltb_lt first p')) by lia. f_equal. lia.
Qed.

(** Looking for a hole, once one is found: only [*data_found] can change. *)
Lemma hole_found_spec fuel p d b s :
  first <= p <= last + 1 → last + 1 - p <= Z.of_nat fuel → only_read s0 s → inv (blocks (flog s)) →
  ∃ d' s', hole_loop cfg mcsafe_again copied_before uninit fuel p last true d true b s = Ok ((b, d', true), s') ∧
    only_read s0 s' ∧ (d' = true ↔ d = true ∨ ∃ k, p <= k <= last ∧ is_Some (c0 !! k)).
Proof.
  revert p d s. induction fuel as [|fuel IH]; intros p d s Hp Hf R Hi; cbn [hole_loop].
  - destruct (Z.leb_spec p last); [lia|]. cbn [negb]. exists d, s. split_and!; try done.
    split; [by left|]. intros [?|(k & ? & _)]; [done|lia].
  - destruct (Z.leb_spec p last) as [Hle|Hgt]; cbn [negb].
    2: { exists d, s. split_and!; try done. split; [by left|]. intros [?|(k & ? & _)]; [done|lia]. }
    rewrite gets_bind, radix_lookup_ok, (or_mapping _ _ R). fold c0. destruct (c0 !! p) as [e|] eqn:Hc.
    + cbn [negb orb]. rewrite wrap_small by lia.
      destruct (IH (p + 1) true s) as (d' & s' & E & R' & Hd); [lia|lia|done|done|].
      exists d', s'. split; [exact E|]. split; [done|]. rewrite Hd.
      split; intros _; [right|by left]. exists p. split; [lia|by exists e].
    + destruct (after_hole_spec s p R Hi ltac:(lia) Hc) as (p' & s' & E & Hp' & Hh & R' & Hi').
      erewrite bind_Ok; [|exact E]. cbv beta iota zeta. cbn [negb].
      destruct (IH p' d s') as (d' & s2 & E2 & R2 & Hd); [lia|lia|done|done|].
      exists d', s2. split; [exact E2|]. split; [done|]. rewrite Hd.
      split; (intros [?|(k & Hk & Hs)]; [by left|right; exists k; split; [|done]]); [lia|].
      destruct (decide (p' <= k)); [lia|]. rewrite Hh in Hs by lia. by destruct Hs.
Qed.

(** The first unmapped page [k], or the end; and whether any page is mapped. *)
Lemma hole_loop_spec fuel p s :
  first <= p <= last + 1 → last + 1 - p <= Z.of_nat fuel → only_read s0 s → inv (blocks (flog s)) →
  (∀ k, first <= k < p → is_Some (c0 !! k)) →
  ∃ k d s', hole_loop cfg mcsafe_again copied_before uninit fuel p last true (first <? p) false (p - first) s =
      Ok ((k - first, d, k <=? last), s') ∧ only_read s0 s' ∧
    first <= k <= last + 1 ∧ (∀ i, first <= i < k → is_Some (c0 !! i)) ∧ (k <= last → c0 !! k = None) ∧
    (d = true ↔ ∃ i, first <= i <= last ∧ is_Some (c0 !! i)).
Proof.
  revert p s. induction fuel as [|fuel IH]; intros p s Hp Hf R Hi Hn; cbn [hole_loop].
  { destruct (Z.leb_spec p last); [lia|]. cbn [negb]. exists p, (first <? p), s.
    split_and!; try done; try lia; [by destruct (Z.leb_spec p last); [lia|]|].
    split; [intros _; exists first; split; [lia|apply Hn; lia]|intros _; apply Z.ltb_lt; lia]. }
  destruct (Z.leb_spec p last) as [Hle|Hgt]; cbn [negb].
  2: { exists p, (first <? p), s. split_and!; try done; try lia; [by destruct (Z.leb_spec p last); [lia|]|].
       split; [intros _; exists first; split; [lia|apply Hn; lia]|intros _; apply Z.ltb_lt; lia]. }
  rewrite gets_bind, radix_lookup_ok, (or_mapping _ _ R). fold c0. destruct (c0 !! p) as [e|] eqn:Hc.
  - cbn [negb orb]. rewrite (wrap_small 64 (p + 1)) by lia.
    destruct (IH (p + 1) s) as (k & d & s' & E & R' & Hk & Hk1 & Hk2 & Hd); [lia|lia|done|done| |].
    { intros i Hi2. destruct (decide (i = p)) as [->|]; [by exists e|apply Hn; lia]. }
    exists k, d, s'. split; [|done]. rewrite <- E, (proj2 (Z.ltb_lt first (p + 1))), wrap_small by lia. f_equal. lia.
  - destruct (after_hole_spec s p R Hi ltac:(lia) Hc) as (p' & s' & E & Hp' & Hh & R' & Hi').
    erewrite bind_Ok; [|exact E]. cbv beta iota zeta. cbn [negb].
    destruct (hole_found_spec fuel p' (first <? p) (p - first) s') as (d & s2 & E2 & R2 & Hd); [lia|lia|done|done|].
    exists p, d, s2. rewrite (proj2 (Z.leb_le p last)) by done. split; [exact E2|]. split_and!; try done; try lia.
    rewrite Hd, Z.ltb_lt. split.
    + intros [?|(i & Hi2 & Hs)]; [exists first; split; [lia|apply Hn; lia]|exists i; split; [lia|done]].
    + intros (i & Hi2 & Hs). destruct (decide (i < p)); [left; lia|]. right. exists i. split; [|done].
      destruct (decide (p' <= i)); [lia|]. rewrite Hh in Hs by lia. by destruct Hs.
Qed.
End Seek.

(** ** What seeking returns *)

Section Region.
Variable s0 : fstate A T.
Variable es : gset Z.
Hypothesis Hok : file_ok max_pgoff s0 es.
Variable offset : Z.
Hypothesis Hoff : 0 <= offset < v_size (head s0).
Hypothesis Hsize : v_size (head s0) < 2 ^ 42.
Hypothesis Hnonempty : v_blocks (head s0) ≠ 0 ∧ h_size (head s0) ≠ 0.
Local Abbreviation c0 := (pages_map s0).
Local Abbreviation first := (offset / 4096).
Local Abbreviation last := (v_size (head s0) / 4096).

Lemma region_range : 0 <= first <= last ∧ last < 2 ^ 30.
Proof.
  split; [split; [apply Z.div_pos; lia|apply Z.div_le_mono; lia]|apply Z.div_lt_upper_bound; lia].
Qed.

(** The start of page [k], or [offset] when it lies inside. *)
Lemma region_offset k :
  first < k → 4096 * k < 2 ^ 63 →
  (if negb (offset mod 4096 =? 0)
   then swrap 64 (offset + u64 (u64 (Z.shiftl (u64 (u64 (k - first) - 1)) 12) + (4096 - offset mod 4096)))
   else swrap 64 (offset + u64 (Z.shiftl (u64 (k - first)) 12))) = 4096 * k.
Proof.
  intros Hk Hb. pose proof region_range as [Hr _].
  pose proof (Z.div_mod offset 4096 ltac:(lia)). pose proof (Z.mod_pos_bound offset 4096 ltac:(lia)).
  rewrite (wrap_small 64 (k - first)) by lia. rewrite !Z.shiftl_mul_pow2 by lia. change (2 ^ 12) with 4096.
  destruct (Z.eqb_spec (offset mod 4096) 0) as [E|E]; cbn [negb].
  - rewrite wrap_small by lia. unfold swrap. rewrite wrap_small by lia.
    destruct (Z.ltb_spec (offset + (k - first) * 4096) (2 ^ (64 - 1))); lia.
  - rewrite (wrap_small 64 (k - first - 1)) by lia. rewrite (wrap_small 64 ((k - first - 1) * 4096)) by lia.
    rewrite wrap_small by lia. unfold swrap. rewrite wrap_small by lia.
    match goal with |- context [?x <? 2 ^ (64 - 1)] => destruct (Z.ltb_spec x (2 ^ (64 - 1))) end; lia.
Qed.

Lemma s32_small x : 0 <= x <= 2 ^ 31 - 1 → u64 (s32 x) = x.
Proof.
  intros Hx. unfold swrap. rewrite (wrap_small 32) by lia.
  destruct (Z.ltb_spec x (2 ^ (32 - 1))); [apply wrap_small; lia|lia].
Qed.

Definition seek_data (r : Z * Z) : Prop :=
  ((∀ k, first <= k <= last → c0 !! k = None) ∧ r = (u64 (- ENXIO), offset)) ∨
  ∃ k, first <= k <= last ∧ is_Some (c0 !! k) ∧ (∀ i, first <= i < k → c0 !! i = None) ∧
    r = (0, Z.max offset (4096 * k)).
Definition seek_hole (r : Z * Z) : Prop :=
  ((∀ k, first <= k <= last → is_Some (c0 !! k)) ∨ (∀ k, first <= k <= last → c0 !! k = None)) ∧
    r = (0, v_size (head s0)) ∨
  ∃ k, first <= k <= last ∧ c0 !! k = None ∧ (∀ i, first <= i < k → is_Some (c0 !! i)) ∧
    (∃ i, first <= i <= last ∧ is_Some (c0 !! i)) ∧ r = (0, Z.max offset (4096 * k)).

Lemma find_region_start hole s' blocks d h :
  i_blk_type (sih (flog s0)) = 0 →
  hole_loop cfg mcsafe_again copied_before uninit (Z.to_nat (last + 1 - first)) first last hole false false 0 s0 =
    Ok ((blocks, d, h), s') →
  nova_find_region cfg mcsafe_again copied_before uninit offset hole s0 =
  Ok ((let blocks := u64 (s32 blocks) in
    if negb hole && negb d && h then (u64 (- ENXIO), offset) else
    if d && negb h then (0, if hole then v_size (head s0) else offset) else
    if hole && h && (blocks =? 0) then (0, if negb d then v_size (head s0) else offset) else
    (0, if negb (offset mod 4096 =? 0)
        then swrap 64 (offset + u64 (u64 (Z.shiftl (u64 (blocks - 1)) 12) + (4096 - offset mod 4096)))
        else swrap 64 (offset + u64 (Z.shiftl blocks 12)))), s').
Proof.
  intros Hbt E. destruct Hnonempty as [Hb Hs]. unfold nova_find_region.
  rewrite !gets_bind, Hbt. change (blk_type_to_shift 0) with 12.
  destruct (Z.geb_spec offset (v_size (head s0))); [lia|].
  destruct (Z.eqb_spec (v_blocks (head s0)) 0); [done|]. destruct (Z.eqb_spec (h_size (head s0)) 0); [done|]. cbn [orb].
  unfold nova_lookup_hole_in_range. rewrite !Z.shiftr_div_pow2 by lia. change (2 ^ 12) with 4096.
  erewrite bind_Ok; [|by erewrite bind_Ok; [|exact E]]. cbv beta iota zeta.
  change (Z.shiftl 1 12) with (2 ^ 12). rewrite land_mask_mod by lia. change (2 ^ 12) with 4096.
  by repeat case_match.
Qed.

Lemma page_of_offset k : first <= k → Z.max offset (4096 * k) = if decide (k = first) then offset else 4096 * k.
Proof.
  intros Hk. pose proof (Z.div_mod offset 4096 ltac:(lia)). pose proof (Z.mod_pos_bound offset 4096 ltac:(lia)).
  case_decide; [subst k|]; lia.
Qed.

Lemma find_data_spec :
  i_blk_type (sih (flog s0)) = 0 →
  ∃ r s', nova_find_region cfg mcsafe_again copied_before uninit offset false s0 = Ok (r, s') ∧ only_read s0 s' ∧ seek_data r.
Proof.
  intros Hbt. pose proof region_range as [Hr Hl].
  destruct (data_loop_spec s0 es Hok first last ltac:(lia) (Z.to_nat (last + 1 - first)) first s0)
    as (k & s' & E & R & Hk & Hn & Hs); [lia|lia|apply only_read_refl|apply (fo_inv _ _ _ Hok)|lia|].
  rewrite Z.ltb_irrefl, Z.sub_diag in E.
  eexists _, s'. split; [apply (find_region_start false s' _ _ _ Hbt E)|]. split; [done|].
  cbn [negb andb]. cbv zeta. rewrite s32_small by lia. unfold seek_data.
  destruct (Z.leb_spec k last) as [Hkl|Hkl]; cbn [negb andb].
  - right. exists k. split_and!; [lia|lia|by apply Hs|done|]. rewrite page_of_offset by lia.
    destruct (Z.ltb_spec first k) as [Hlt|Hge]; cbn [negb].
    + rewrite decide_False by lia. f_equal. rewrite <- (region_offset k) by lia. by rewrite (wrap_small 64 (k - first)) by lia.
    + by rewrite decide_True by lia.
  - rewrite (proj2 (Z.ltb_lt first k)) by lia. left. split; [|done]. intros i Hi. apply Hn. lia.
Qed.

Lemma find_hole_spec :
  i_blk_type (sih (flog s0)) = 0 →
  ∃ r s', nova_find_region cfg mcsafe_again copied_before uninit offset true s0 = Ok (r, s') ∧ only_read s0 s' ∧ seek_hole r.
Proof.
  intros Hbt. pose proof region_range as [Hr Hl].
  destruct (hole_loop_spec s0 es Hok first last ltac:(lia) (Z.to_nat (last + 1 - first)) first s0)
    as (k & d & s' & E & R & Hk & Hn & Hs & Hd); [lia|lia|apply only_read_refl|apply (fo_inv _ _ _ Hok)|lia|].
  rewrite Z.ltb_irrefl, Z.sub_diag in E.
  eexists _, s'. split; [apply (find_region_start true s' _ _ _ Hbt E)|]. split; [done|].
  cbn [negb andb]. cbv zeta. rewrite s32_small by lia. unfold seek_hole.
  destruct (Z.leb_spec k last) as [Hkl|Hkl]; cbn [negb andb].
  - rewrite andb_false_r. destruct d; cbn [negb].
    + right. exists k. split_and!; [lia|lia|by apply Hs|done|by apply Hd|]. rewrite page_of_offset by lia.
      destruct (Z.eqb_spec (k - first) 0).
      * by rewrite decide_True by lia.
      * rewrite decide_False by lia. f_equal. rewrite <- (region_offset k) by lia. by rewrite (wrap_small 64 (k - first)) by lia.
    + assert (Hnone : ∀ i, first <= i <= last → c0 !! i = None).
      { intros i Hi. destruct (c0 !! i) eqn:Ei; [|done]. assert (false = true); [|done]. apply Hd. exists i. by rewrite Ei. }
      left. split; [by right|]. destruct (Z.eqb_spec (k - first) 0); [done|].
      destruct (Hn first ltac:(lia)) as [x Hx]. rewrite Hnone in Hx by lia. done.
  - assert (Hall : ∀ i, first <= i <= last → is_Some (c0 !! i)) by (intros i Hi; apply Hn; lia).
    left. split; [by left|]. assert (d = true) as -> by (apply Hd; exists first; split; [lia|apply Hall; lia]). done.
Qed.
End Region.

(** ** The end of the last page *)

Section Clear.
Variable s0 : fstate A T.
Variable es : gset Z.
Hypothesis Hok : file_ok max_pgoff s0 es.
Hypothesis Hrd : reads_ok cfg.
Variable data_csum data_parity : Z.
Variable csum_fn parity_fn : Z → M (fstate A T) ().
Hypothesis Hdc : data_csum = 0.
Hypothesis Hdp : data_parity = 0.

Lemma page_block k e :
  pages_map s0 !! k = Some e →
  get_nvmm (wentry_at (fmem s0) e) k = block_of (fmem s0) e k ∧ 0 < block_of (fmem s0) e k < 2 ^ 51.
Proof.
  intros Hc. pose proof (mo_entry _ _ _ _ (fo_maps _ _ _ Hok) k e Hc) as He.
  pose proof (mo_in _ _ _ _ (fo_maps _ _ _ Hok) k e Hc) as Hin.
  assert (Hr : 0 < block_of (fmem s0) e k < 2 ^ 51).
  { apply (within_range _ _ _ (eo_blocks _ _ _ (fo_entries _ _ _ Hok) e He)). unfold block_of. lia. }
  split; [|done]. unfold get_nvmm. rewrite <- Z.add_sub_assoc. apply wrap_small. unfold block_of in *. lia.
Qed.

Lemma find_nvmm_spec k :
  ∃ s', nova_find_nvmm_block cfg None k s0 =
      Ok (match pages_map s0 !! k with Some e => 4096 * block_of (fmem s0) e k | None => 0 end, s') ∧ only_read s0 s'.
Proof.
  unfold nova_find_nvmm_block, nova_get_write_entry. rewrite gets_bind, radix_lookup_ok. fold (pages_map s0).
  destruct (pages_map s0 !! k) as [e|] eqn:Hc; [|exists s0; split; [done|apply only_read_refl]].
  rewrite Hrd. cbn [Z.ltb Z.compare].
  erewrite bind_Ok; [|by apply (file_pm_Ok (gets _))]. exists (after_read s0).
  destruct (page_block k e Hc) as [E Hb]. cbv beta. change (view (machine (blocks (flog s0)))) with (fmem s0). rewrite E.
  rewrite Z.shiftl_mul_pow2 by done. change (2 ^ PAGE_SHIFT) with 4096. rewrite wrap_small by lia.
  split; [unfold mret, M_ret; by rewrite Z.mul_comm|].
  apply (only_read_step s0 s0 (only_read_refl s0) (fo_inv _ _ _ Hok)).
Qed.

(** From [newsize] to the end of its page, when that page is mapped. *)
Definition cleared (newsize : Z) (m : mem) : mem :=
  match pages_map s0 !! (newsize / 4096) with
  | Some e =>
      if newsize mod 4096 =? 0 then m else
      write_bytes m (4096 * block_of (fmem s0) e (newsize / 4096) + newsize mod 4096)
        (replicate (Z.to_nat (4096 - newsize mod 4096)) Byte.x00)
  | None => m
  end.

Lemma clear_tail_spec newsize :
  0 <= newsize <= v_size (head s0) → v_size (head s0) < 2 ^ 63 →
  ∃ s', nova_clear_last_page_tail cfg data_csum data_parity csum_fn parity_fn newsize s0 = Ok ((), s') ∧
    mem_eq (fmem s') (cleared newsize (fmem s0)) ∧ mapping s' = mapping s0 ∧ head s' = head s0 ∧
    sih (flog s') = sih (flog s0) ∧ snapshots s' = snapshots s0 ∧ inv (blocks (flog s')) ∧ ∀ x, ffree s' x ↔ ffree s0 x.
Proof.
  intros Hn Hv. unfold nova_clear_last_page_tail, cleared. change (PAGE_SIZE - 1) with (2 ^ 12 - 1).
  rewrite land_mask_mod by lia. change (2 ^ 12) with 4096. rewrite gets_bind.
  destruct (Z.gtb_spec newsize (v_size (head s0))); [lia|].
  pose proof (fo_inv _ _ _ Hok) as Hi. rewrite Z.shiftr_div_pow2 by done. change (2 ^ PAGE_SHIFT) with 4096.
  assert (Hsame : ∃ s', Ok ((), s0) = Ok ((), s') ∧ mem_eq (fmem s') (fmem s0) ∧ mapping s' = mapping s0 ∧ head s' = head s0 ∧
    sih (flog s') = sih (flog s0) ∧ snapshots s' = snapshots s0 ∧ inv (blocks (flog s')) ∧ ∀ x, ffree s' x ↔ ffree s0 x)
    by by exists s0.
  pose proof (Z.div_mod newsize 4096 ltac:(lia)). pose proof (Z.mod_pos_bound newsize 4096 ltac:(lia)) as Hm.
  destruct (Z.eqb_spec (newsize mod 4096) 0); cbn [orb]; [by destruct (pages_map s0 !! _)|].
  rewrite wrap_small by lia.
  destruct (find_nvmm_spec (newsize / 4096)) as (s1 & E1 & R). erewrite bind_Ok; [|exact E1].
  destruct (pages_map s0 !! (newsize / 4096)) as [e|] eqn:Hc.
  2: { exists s1. destruct R as [I ? ? ? ? ? ?]. split_and!; try done; [congruence|tauto]. }
  destruct (page_block _ _ Hc) as [_ Hb]. destruct (Z.eqb_spec (4096 * block_of (fmem s0) e (newsize / 4096)) 0); [lia|].
  rewrite nova_get_block_Some by lia. rewrite Hdc, Hdp. cbn [Z.gtb Z.compare when].
  set (p := 4096 * block_of (fmem s0) e (newsize / 4096)). set (bs := replicate (Z.to_nat (PAGE_SIZE - newsize mod 4096)) Byte.x00).
  assert (Hlen : Z.of_nat (length bs) <= 2 ^ 32 - 128) by (unfold bs, PAGE_SIZE; rewrite length_replicate; lia).
  destruct (copy_to_pmem_view cfg (p + newsize mod 4096) bs (machine (blocks (flog s1))) Hlen) as (c & E & V).
  erewrite bind_Ok; [|apply file_pm_Ok; by erewrite bind_Ok; [|done]].
  eexists. split; [done|]. cbn [mapping head snapshots flog sih blocks]. destruct R as [I M S P D N F].
  split_and!; try done.
  - rewrite fmem_with. intros x. rewrite V. change (view (machine (blocks (flog s1)))) with (fmem s1). by rewrite M.
  - by apply inv_with, I.
  - intros x. unfold ffree. cbn. rewrite free_with. apply F.
Qed.
End Clear.
End Main.
