(* ===== verification/NovaFileMain.v ===== *)
(** * NOVA: what the pages of a file guarantee

    The theorems about the mapping of a regular file, the block allocator as
    the source of its data blocks, and a small file on the device of
    [NovaLogMain]. *)

From stdpp Require Import base list gmap.
From Stdlib Require Import ZArith Lia.
From coqutil Require Import Byte Word.LittleEndianList.
From S2P Require Import Prelude PMem NovaBase NovaJournal NovaInode NovaLogEntry NovaIntegrity.
From S2P Require Import NovaBalloc NovaBallocProofs NovaBallocSpec NovaBallocMain.
From S2P Require Import NovaLog NovaLogProofs NovaLogGc NovaLogOps NovaLogAlloc NovaLogMain.
From S2P Require Import NovaFile NovaFileProofs NovaFileOps.

Local Open Scope Z_scope.

(** ** Instances *)

(** A mapping as the radix tree itself; insertions do not fail. *)
Definition nearest (k : Z) : Z → Z → option (Z * Z) → option (Z * Z) := λ j v acc,
  if decide (k <= j) then
    match acc with
    | Some (j', _) => if decide (j < j') then Some (j, v) else acc
    | None => Some (j, v)
    end
  else acc.
Definition plain_next (t : gmap Z Z) (k : Z) : option Z := snd <$> map_fold (nearest k) None t.
#[export] Instance plain_radix : RadixTree (gmap Z Z) := {|
  radix_lookup t k := t !! k;
  radix_replace t k v := <[k := v]> t;
  radix_insert t k v := (0, <[k := v]> t);
  radix_delete t k := (t !! k, delete k t);
  radix_next := plain_next
|}.

Lemma nearest_spec t k :
  match map_fold (nearest k) None t with
  | Some (j, v) => k <= j ∧ t !! j = Some v ∧ ∀ i, k <= i < j → t !! i = None
  | None => ∀ j, k <= j → t !! j = None
  end.
Proof.
  apply (map_fold_weak_ind (λ r t, match r with
    | Some (j, v) => k <= j ∧ t !! j = Some v ∧ ∀ i, k <= i < j → t !! i = None
    | None => ∀ j, k <= j → t !! j = None end)); [done|].
  intros i x m r Hi Hr. unfold nearest. destruct (decide (k <= i)) as [Hk|Hk].
  - destruct r as [[j v]|].
    + destruct Hr as (Hj & Hv & Hn). assert (i ≠ j) by congruence. case_decide as Hij.
      * split; [done|]. rewrite lookup_insert_eq. split; [done|]. intros i' Hi'.
        rewrite lookup_insert_ne by lia. apply Hn. lia.
      * split; [done|]. rewrite lookup_insert_ne by done. split; [done|]. intros i' Hi'.
        rewrite lookup_insert_ne by lia. by apply Hn.
    + split; [done|]. rewrite lookup_insert_eq. split; [done|]. intros i' Hi'.
      rewrite lookup_insert_ne by lia. apply Hr. lia.
  - destruct r as [[j v]|].
    + destruct Hr as (Hj & Hv & Hn). split; [done|]. rewrite lookup_insert_ne by lia. split; [done|]. intros i' Hi'.
      rewrite lookup_insert_ne by lia. by apply Hn.
    + intros j Hj. rewrite lookup_insert_ne by lia. by apply Hr.
Qed.

#[export] Instance plain_radix_laws : RadixTreeLaws (gmap Z Z).
Proof.
  refine {| content := λ t, t |}; try done.
  - intros t k v Hn. by left.
  - intros t k. change (radix_next t k) with (plain_next t k). unfold plain_next.
    pose proof (nearest_spec t k) as Hs. destruct (map_fold _ _ _) as [[j v]|]; [by exists j|done].
Defined.

(** Data blocks from the block allocator. *)
#[export] Instance balloc_data `{Crc} `{RBTree} (bc : balloc_cfg) : DataAlloc bstate := {|
  free_data_blocks btype blocknr num := nova_free_data_blocks bc btype blocknr num
|}.
Section Data.
Context `{Crc} `{RBTree} `{!RBTreeLaws}.
Variable bc : balloc_cfg.
Variable this_cpu : Z.
Variable layouts : list fl_layout.
Hypothesis Hcpu : 0 <= this_cpu < Z.of_nat (length layouts).
Hypothesis Hslab : ∀ a, slab_ok bc a = true.
Hypothesis Hlayouts : Forall (λ l, 0 < block_start l ∧ block_end l < 2 ^ 51 ∧
  block_end l - block_start l < 2 ^ 32 - 1) layouts.
Hypothesis Hgap : ∀ l l', l ∈ layouts → l' ∈ layouts →
  ∀ x, block_start l <= x <= block_end l → block_start l' <= x + 1 <= block_end l' → l = l'.

#[export] Instance balloc_data_laws : @DataAllocLaws bstate (balloc_data bc) (balloc_log_alloc bc this_cpu)
  (balloc_log_laws bc this_cpu layouts Hcpu Hslab Hlayouts Hgap).
Proof.
  constructor. intros s b n I Hn Hl Hf.
  destruct (balloc_free_any bc this_cpu layouts Hcpu Hslab Hlayouts s b n false I Hn Hl Hf) as (Hb & s' & E & Hs).
  exists 0, s'. simpl. unfold nova_free_data_blocks. by destruct (Z.eqb_spec b 0).
Qed.
End Data.

(** ** The theorems *)

Section Theorems.
#[local] Set Default Proof Using "All".
Context `{Crc} `{NocacheCopy} `{CachedWrite} {A T : Type} `{LogAlloc A} `{!LogAllocLaws}.
Context `{DataAlloc A} `{!DataAllocLaws A} `{RadixTree T} `{!RadixTreeLaws T}.
Variable cfg : nova_cfg.
Variable mcsafe_again : option Z → Z → Z.
Variable copied_before : Z → Z → nat.
Variable uninit : entry_copy.
Variable snapshot_append : Z → Z → Z → Z → M (fstate A T) ().
Variable max_pgoff : nat.
Hypothesis Hcs : metadata_csum cfg = false.
Hypothesis Hmax : Z.of_nat max_pgoff < 2 ^ 63.

(** C10: mapping a new write entry.  In a file where every write entry counts
    its unmapped pages and every mapped page has a block of its own,
    [nova_assign_write_entry] maps exactly the pages of the new entry to it,
    retires the pages it replaced - their entries count them as invalid, their
    blocks are free, the block count of the inode drops by their number - and
    leaves a file with the same invariant.  It fails only when the radix tree
    cannot take a page; then the pages before are mapped, and the last run
    among them has not been retired. *)
Theorem assign_write_entry_correct s es e :
  file_ok max_pgoff s es → new_entry max_pgoff s es e → no_snapshots s → 0 <= h_blocks (head s) < 2 ^ 64 →
  ∃ ret s', nova_assign_write_entry cfg mcsafe_again copied_before uninit snapshot_append e
      (wentry_at (fmem s) e) true s = Ok (ret, s') ∧ assigned max_pgoff s es e ret s'.
Proof. intros. by apply (assign_spec cfg mcsafe_again copied_before uninit snapshot_append max_pgoff Hcs Hmax). Qed.

(** C34: unmapping the end of a file.  [nova_delete_file_tree] from page
    [start] unmaps every page from there to the end of the file, whatever its
    last page is; it retires each as above, returns their number (as an [int]),
    leaves the pages before alone and keeps the invariant of the file. *)
Theorem delete_file_tree_correct s es start last epoch :
  file_ok max_pgoff s es → no_snapshots s → 0 <= start → 0 <= h_blocks (head s) < 2 ^ 64 →
  ∃ s', nova_delete_file_tree cfg mcsafe_again copied_before uninit snapshot_append max_pgoff start last true false epoch s =
      Ok (s32 (mapped (pages_map s) start (Z.max start (Z.of_nat max_pgoff))), s') ∧ deleted max_pgoff s es start s'.
Proof. intros. by apply (delete_file_tree_spec cfg mcsafe_again copied_before uninit snapshot_append max_pgoff Hcs Hmax). Qed.

(** C35: seeking.  On a file of 4 KB pages below 4 TB that has blocks,
    [nova_find_region] returns for data the first byte from the offset on that
    lies in a mapped page, or [-ENXIO] when there is none up to the file's end;
    for a hole, if some page from the offset on is mapped, the first byte that
    lies in an unmapped page, or the file's size when every page is mapped; and
    also the file's size when no page from the offset on is mapped, though the
    offset itself is then in a hole.  It changes nothing. *)
Theorem find_region_correct s es offset :
  file_ok max_pgoff s es → 0 <= offset < v_size (head s) → v_size (head s) < 2 ^ 42 →
  v_blocks (head s) ≠ 0 ∧ h_size (head s) ≠ 0 →
  (∃ r s', nova_find_region cfg mcsafe_again copied_before uninit offset false s = Ok (r, s') ∧
     only_read s s' ∧ seek_data s offset r) ∧
  (∃ r s', nova_find_region cfg mcsafe_again copied_before uninit offset true s = Ok (r, s') ∧
     only_read s s' ∧ seek_hole s offset r).
Proof.
  intros Hok Hoff Hsz Hne. split.
  - eapply (find_data_spec cfg mcsafe_again copied_before uninit snapshot_append max_pgoff Hcs Hmax s es Hok offset); try done.
    apply (fo_btype _ _ _ Hok).
  - eapply (find_hole_spec cfg mcsafe_again copied_before uninit snapshot_append max_pgoff Hcs Hmax s es Hok offset); try done.
    apply (fo_btype _ _ _ Hok).
Qed.

(** C36: shrinking a file leaves no old data behind its end.  When the page
    that holds the new end is mapped, [nova_clear_last_page_tail] writes zeros
    from there to the end of the page and nothing else; otherwise it writes
    nothing. *)
Theorem clear_last_page_tail_correct s es csum_fn parity_fn newsize :
  file_ok max_pgoff s es → reads_ok cfg → 0 <= newsize <= v_size (head s) → v_size (head s) < 2 ^ 63 →
  ∃ s', nova_clear_last_page_tail cfg 0 0 csum_fn parity_fn newsize s = Ok ((), s') ∧
    mem_eq (fmem s') (cleared s newsize (fmem s)) ∧ mapping s' = mapping s ∧ head s' = head s ∧
    ∀ x, ffree s' x ↔ ffree s x.
Proof.
  intros Hok Hrd Hn Hv.
  destruct (clear_tail_spec cfg mcsafe_again copied_before uninit snapshot_append max_pgoff Hcs Hmax s es Hok Hrd
    0 0 csum_fn parity_fn eq_refl eq_refl newsize Hn Hv) as (s' & E & V & M & D & _ & _ & _ & F).
  by exists s'.
Qed.
End Theorems.

(** ** A small file *)

Module FileDemo.
Import LogDemo.
#[local] Existing Instance plain_tree.
#[local] Existing Instance plain_tree_laws.
#[local] Existing Instance bytewise_copy.
#[local] Existing Instance bytewise_write.
#[local] Existing Instance LogDemo.crc.
#[local] Existing Instance LogDemo.alloc.
#[local] Existing Instance LogDemo.laws.
#[local] Instance data : DataAlloc bstate := balloc_data bc.
#[local] Instance data_laws : DataAllocLaws bstate :=
  balloc_data_laws bc 0 layouts demo_cpu (λ _, eq_refl) demo_layouts demo_gap.

(** Eight blocks in use: one for the log, the others for data. *)
Definition taken : bstate :=
  match new_log_blocks 0 8 ALLOC_FROM_HEAD booted with Ok (_, s) => s | _ => booted end.
Lemma taken_run : new_log_blocks 0 8 ALLOC_FROM_HEAD booted = Ok ((8, 65), taken).
Proof. vm_compute. reflexivity. Qed.
#[local] Opaque taken.
Lemma taken_free : inv taken ∧ within 65 8 ∧ ∀ x, 65 <= x < 73 → ¬ is_free taken x.
Proof.
  destruct (new_ok booted 8 ALLOC_FROM_HEAD demo_inv ltac:(lia)) as (r & b & a & E & I & _ & Hout).
  rewrite taken_run in E. apply Ok_inj in E as [[= <- <-] <-].
  destruct Hout as [[? _]|(_ & Hw & _ & Hf)]; [lia|]. split_and!; [done|done|].
  intros x Hx. rewrite Hf. intros [_ Hn]. by apply Hn.
Qed.

(** Two write entries: [old] for pages 0 to 2, [new] for pages 1 and 2. *)
Definition old : Z := 4096 * 65.
Definition new : Z := 4096 * 65 + 64.
Definition write_entry (e num block pgoff : Z) (m : mem) : mem :=
  write_int 8 (e + fw_pgoff) pgoff (write_int 8 (e + fw_block) block (write_int 4 (e + fw_num_pages) num m)).
Definition disk : mem := write_entry new 2 (4096 * 69) 1 (write_entry old 3 (4096 * 66) 0 ∅).
Definition file : fstate bstate (gmap Z Z) :=
  FState (LState (with_machine taken (Cpu disk [])) (Sih pi 0 0 1 0 0 old (new + 64) 0 0))
    (<[0 := old]> (<[1 := old]> (<[2 := old]> ∅))) (FileHead 12288 3 12288 3 0) ∅.
Definition again (p : option Z) (n : Z) : Z := 0.
Definition before (p n : Z) : nat := O.
Definition nothing : entry_copy := EntryCopy 0 0 [].
Definition kept (info nvmm num epoch : Z) : M (fstate bstate (gmap Z Z)) () := mret ().

Lemma entries : fmem file = disk ∧ wentry_at disk old = WEntry 0 3 (4096 * 66) 0 0 ∧ inval disk old = 0 ∧
  wentry_at disk new = WEntry 0 2 (4096 * 69) 1 0 ∧ inval disk new = 0.
Proof. split_and!; [by apply fmem_with|vm_compute; reflexivity..]. Qed.
#[local] Opaque disk.

Lemma maps k e : pages_map file !! k = Some e ↔ e = old ∧ 0 <= k < 3.
Proof.
  unfold pages_map, file. cbn [mapping]. change (content ?t) with t.
  rewrite !lookup_insert_Some, lookup_empty. split.
  - intros [[<- <-]|[_ [[<- <-]|[_ [[<- <-]|[_ ?]]]]]]; [split; [done|lia]..|done].
  - intros [-> Hk]. assert (k = 0 ∨ k = 1 ∨ k = 2) as [->|[->| ->]] by lia; naive_solver lia.
Qed.
Lemma in_use x : 65 <= x < 73 → ¬ ffree file x.
Proof. intros Hx. unfold ffree, file. cbn [flog blocks]. rewrite free_with. by apply taken_free. Qed.
Lemma demo_blocks_within b n : 65 <= b → 0 < n → b + n <= 73 → within b n.
Proof. intros. apply (within_sub 65 8); [apply taken_free|lia..]. Qed.

Lemma both_entries : entries_ok 16 (fmem file) ({[new]} ∪ {[old]}).
Proof.
  destruct entries as (-> & Eo & _ & En & _).
  split; intros e; rewrite ?elem_of_union, ?elem_of_singleton.
  - intros [->| ->]; vm_compute; split; discriminate.
  - intros e'. rewrite ?elem_of_union, ?elem_of_singleton. unfold disjoint_ranges, old, new.
    intros [E|E] [E'|E'] Hne; lia.
  - intros [->| ->]; rewrite ?Eo, ?En; vm_compute; discriminate.
  - intros [->| ->]; rewrite ?Eo, ?En; apply demo_blocks_within; by vm_compute.
Qed.

Lemma block_values k : block_of (fmem file) old k = 66 + k ∧ block_of (fmem file) new k = 68 + k.
Proof.
  destruct entries as (-> & Eo & _ & En & _). unfold block_of. rewrite Eo, En. cbn [we_block we_pgoff].
  change (Z.shiftr (4096 * 66) PAGE_SHIFT) with 66. change (Z.shiftr (4096 * 69) PAGE_SHIFT) with 69. lia.
Qed.

Lemma demo_ok : file_ok 16 file {[old]}.
Proof.
  pose proof both_entries as [Bs Ba Bp Bb]. split.
  - apply inv_with, taken_free.
  - done.
  - split; intros e; intros; (apply Bs || apply Ba || apply Bp || apply Bb); set_solver.
  - split; intros k e.
    + intros [-> _]%maps. set_solver.
    + intros [-> Hk]%maps. destruct entries as (-> & -> & _). cbn [we_pgoff we_num_pages]. lia.
    + intros [-> Hk]%maps. destruct (block_values k) as [-> _]. apply in_use. lia.
    + intros k' e' [-> Hk]%maps [-> Hk']%maps. destruct (block_values k) as [-> _], (block_values k') as [-> _]. lia.
    + intros j i [-> Hk]%maps [_ Hj]%maps Hi. exists old. apply maps. split; [done|lia].
  - intros e ->%elem_of_singleton. destruct entries as (-> & -> & -> & _). vm_compute. reflexivity.
Qed.
Lemma demo_new : new_entry 16 file {[old]} new.
Proof.
  split.
  - by rewrite elem_of_singleton.
  - apply both_entries.
  - by destruct entries as (-> & _ & _ & _ & ->).
  - destruct entries as (-> & _ & _ & -> & _). by vm_compute.
  - intros k Hk. assert (1 <= k < 3) by (destruct entries as (Em & _ & _ & En & _); rewrite Em, En in Hk; exact Hk).
    destruct (block_values k) as [_ ->]. split; [apply in_use; lia|].
    intros k' e' [-> Hk']%maps. destruct (block_values k') as [-> _]. lia.
Qed.
Lemma demo_no_snapshots : no_snapshots file.
Proof. intros k. unfold file. cbn [snapshots]. vm_compute. reflexivity. Qed.

Lemma assign_write_entry_correct_witness :
  ∃ ret s', nova_assign_write_entry cfg again before nothing kept new (wentry_at (fmem file) new) true file = Ok (ret, s') ∧
    assigned 16 file {[old]} new ret s'.
Proof.
  exact (assign_write_entry_correct cfg again before nothing kept 16 eq_refl ltac:(lia) file {[old]} new
    demo_ok demo_new demo_no_snapshots ltac:(cbn; lia)).
Defined.
Lemma delete_file_tree_correct_witness :
  ∃ s', nova_delete_file_tree cfg again before nothing kept 16 1 0 true false 7 file = Ok (2, s') ∧
    deleted 16 file {[old]} 1 s'.
Proof.
  destruct (delete_file_tree_correct cfg again before nothing kept 16 eq_refl ltac:(lia) file {[old]} 1 0 7
    demo_ok demo_no_snapshots ltac:(lia) ltac:(cbn; lia)) as (s' & E & D).
  exists s'. split; [|exact D]. rewrite E. vm_compute (s32 _). reflexivity.
Defined.
Lemma find_region_correct_witness :
  (∃ r s', nova_find_region cfg again before nothing 5000 false file = Ok (r, s') ∧
     only_read file s' ∧ seek_data file 5000 r) ∧
  (∃ r s', nova_find_region cfg again before nothing 5000 true file = Ok (r, s') ∧
     only_read file s' ∧ seek_hole file 5000 r).
Proof.
  exact (find_region_correct cfg again before nothing kept 16 eq_refl ltac:(lia) file {[old]} 5000
    demo_ok ltac:(cbn; lia) ltac:(cbn; lia) ltac:(cbn; lia)).
Defined.
Lemma clear_last_page_tail_correct_witness :
  ∃ s', nova_clear_last_page_tail cfg 0 0 (λ _, mret ()) (λ _, mret ()) 5000 file = Ok ((), s') ∧
    mem_eq (fmem s') (write_bytes (fmem file) (4096 * 67 + 904) (replicate 3192 Byte.x00)) ∧
    mapping s' = mapping file ∧ head s' = head file ∧ ∀ x, ffree s' x ↔ ffree file x.
Proof.
  destruct (clear_last_page_tail_correct cfg again before nothing kept 16 eq_refl ltac:(lia) file {[old]}
    (λ _, mret ()) (λ _, mret ()) 5000 demo_ok demo_reads ltac:(cbn; lia) ltac:(cbn; lia)) as (s' & E & V & Hs).
  exists s'. split; [exact E|]. split; [|exact Hs]. intros x. rewrite V. unfold cleared.
  change (5000 / 4096) with 1. rewrite (proj2 (maps 1 old)) by (split; [done|lia]).
  destruct (block_values 1) as [-> _]. reflexivity.
Defined.
End FileDemo.
