(* ===== verification/Tracing.v ===== *)
(** * Silhouette: the trace runtime

    [codebase/trace/runtime/*/KernelTracing.c], linked into the instrumented
    file system: one text record per traced event, and the bytes each store
    overwrote and wrote.  Records made in atomic context wait in buffers and
    reach the files with the next record made outside it.

    The runtimes of NOVA, PMFS and WineFS share the interface to the
    instrumented code; how a record leaves the runtime is the class [Sink],
    with an instance per runtime.  The proofs are in [TracingProofs]. *)

From stdpp Require Import base list gmap strings pretty numbers.
From Stdlib Require Import ZArith Lia Ascii.
From coqutil Require Import Byte Word.LittleEndianList.
From S2P Require Import Prelude PMem.

Local Open Scope Z_scope.

(** ** State *)

(** The two output files, and [struct file *]: NULL, an error pointer, or an
    open file. *)
Inductive path := WrFile | SvFile.
Inductive fptr := FNull | FErr | FOpen (h : nat).
#[export] Instance path_eq_dec : EqDecision path.
Proof. solve_decision. Defined.
#[export] Instance fptr_eq_dec : EqDecision fptr.
Proof. solve_decision. Defined.

(** The kernel's side: open handles, file contents, and how many requests that
    may fail it has answered. *)
Record kstate := KState {
  handles : gmap nat path;
  next_handle : nat;
  wr_content : list byte;
  sv_content : list byte;
  tick : nat
}.

(** [static] variables of the runtime. *)
Record tstate := TState {
  trace_lock : bool;
  filp : fptr;
  sv_filp : fptr;
  offset : Z;
  sv_offset : Z;
  nvmm_virt_start_addr : Z;
  nvmm_virt_end_addr : Z;
  nvmm_virt_size : Z;
  trace_enabled : Z;
  trace_order_num : Z;
  trace_wbuf_cachep : bool;            (* not NULL *)
  trace_svbuf_cachep : bool;
  wbuf_list : list (list byte);        (* trace_wbuf_header *)
  trace_num_wbuf : Z;
  svbuf_list : list (Z * list byte);   (* trace_svbuf_header *)
  trace_num_svbuf : Z;
  kern : kstate
}.
Abbreviation T := (M tstate).

Definition set_lock (s : tstate) (v : bool) : tstate :=
  let 'TState _ a b c d e f g h i j k l m n o p := s in TState v a b c d e f g h i j k l m n o p.
Definition set_filps (s : tstate) (v w : fptr) : tstate :=
  let 'TState a _ _ c d e f g h i j k l m n o p := s in TState a v w c d e f g h i j k l m n o p.
Definition set_offsets (s : tstate) (v w : Z) : tstate :=
  let 'TState a b c _ _ e f g h i j k l m n o p := s in TState a b c v w e f g h i j k l m n o p.
Definition set_nvmm (s : tstate) (u v w : Z) : tstate :=
  let 'TState a b c d e _ _ _ h i j k l m n o p := s in TState a b c d e u v w h i j k l m n o p.
Definition set_enabled (s : tstate) (v : Z) : tstate :=
  let 'TState a b c d e f g h _ i j k l m n o p := s in TState a b c d e f g h v i j k l m n o p.
Definition set_order (s : tstate) (v : Z) : tstate :=
  let 'TState a b c d e f g h i _ j k l m n o p := s in TState a b c d e f g h i v j k l m n o p.
Definition set_caches (s : tstate) (v w : bool) : tstate :=
  let 'TState a b c d e f g h i j _ _ l m n o p := s in TState a b c d e f g h i j v w l m n o p.
Definition set_wbufs (s : tstate) (v : list (list byte)) (w : Z) : tstate :=
  let 'TState a b c d e f g h i j k l _ _ n o p := s in TState a b c d e f g h i j k l v w n o p.
Definition set_svbufs (s : tstate) (v : list (Z * list byte)) (w : Z) : tstate :=
  let 'TState a b c d e f g h i j k l m n _ _ p := s in TState a b c d e f g h i j k l m n v w p.
Definition set_kern (s : tstate) (v : kstate) : tstate :=
  let 'TState a b c d e f g h i j k l m n o p _ := s in TState a b c d e f g h i j k l m n o p v.

(** What the runtime reads of the context it is called in. *)
Record ctx := Ctx {
  in_atomic : bool;       (* in_irq() || ... || in_atomic_preempt_off() *)
  pid : Z;                (* current->pid *)
  kmem : Z → byte         (* memory *)
}.

(** The kernel's answers: whether the [t]-th request for memory, a slab cache
    or a file is granted, and how many of [n] bytes the [t]-th write stores. *)
Class Kernel := {
  grant : nat → bool;
  written : nat → nat → nat
}.

Section Runtime.
Context `{Kernel}.

(** ** Kernel services *)

Definition next_tick : T nat :=
  k ← gets kern;
  modify (λ s, set_kern s (KState (handles k) (next_handle k) (wr_content k) (sv_content k) (S (tick k))));;
  mret (tick k).
Definition request : T bool := t ← next_tick; mret (grant t).

(** [O_TRUNC] empties the file. *)
Definition filp_open (p : path) : T fptr :=
  ok ← request;
  if (ok : bool) then
    k ← gets kern;
    modify (λ s, set_kern s (KState (<[next_handle k := p]> (handles k)) (S (next_handle k))
      (if decide (p = WrFile) then [] else wr_content k)
      (if decide (p = SvFile) then [] else sv_content k) (tick k)));;
    mret (FOpen (next_handle k))
  else mret FErr.

(** Using an error pointer, NULL or a closed file is a [Bug]. *)
Definition file_of (f : fptr) : T path :=
  k ← gets kern;
  match f with
  | FOpen h => match handles k !! h with Some p => mret p | None => bug end
  | _ => bug
  end.
Definition filp_close (f : fptr) : T () :=
  file_of f;;
  k ← gets kern;
  modify (λ s, set_kern s (KState (match f with FOpen h => delete h (handles k) | _ => handles k end)
    (next_handle k) (wr_content k) (sv_content k) (tick k))).

(** Writing past the end of the file leaves a hole of zeroes. *)
Definition write_at (c : list byte) (off : nat) (d : list byte) : list byte :=
  take off (c ++ replicate (off - length c) Byte.x00) ++ d ++ drop (off + length d) c.
Definition kernel_write (f : fptr) (data : list byte) (off : Z) : T Z :=
  p ← file_of f;
  t ← next_tick;
  let data := take (written t (length data)) data in
  k ← gets kern;
  modify (λ s, set_kern s (KState (handles k) (next_handle k)
    (if decide (p = WrFile) then write_at (wr_content k) (Z.to_nat off) data else wr_content k)
    (if decide (p = SvFile) then write_at (sv_content k) (Z.to_nat off) data else sv_content k)
    (tick k)));;
  mret (Z.of_nat (length data)).

(** Reading memory. *)
Definition kread (cx : ctx) (ptr size : Z) : list byte := kmem cx <$> seqZ ptr size.

(** ** Locks and files *)

(** A spin lock taken again by its holder: the call never returns. *)
Definition trace_lock_lock : T () :=
  l ← gets trace_lock; if (l : bool) then bug else modify (λ s, set_lock s true).
Definition trace_lock_unlock : T () := modify (λ s, set_lock s false).

Definition open_file : T () :=
  f ← gets filp;
  if negb (bool_decide (f = FNull)) then mret () else
  f ← filp_open WrFile;
  modify (λ s, set_filps s f (sv_filp s)).

Definition close_file : T () :=
  f ← gets filp;
  if bool_decide (f = FNull) then mret () else
  filp_close f;;
  modify (λ s, set_filps s FNull (sv_filp s)).

Definition write_file (data : list byte) : T () :=
  off ← gets offset;
  modify (λ s, set_offsets s (off + Z.of_nat (length data)) (sv_offset s));;
  f ← gets filp;
  if bool_decide (f = FNull) then mret () else
  kernel_write f data off;;
  mret ().

Definition open_sv_file : T () :=
  f ← gets sv_filp;
  if negb (bool_decide (f = FNull)) then mret () else
  f ← filp_open SvFile;
  modify (λ s, set_filps s (filp s) f).

(** The pointer it clears is [filp]. *)
Definition close_sv_file : T () :=
  f ← gets sv_filp;
  if bool_decide (f = FNull) then mret () else
  filp_close f;;
  modify (λ s, set_filps s FNull (sv_filp s)).

Definition MAX_SV_BUF_SIZE : Z := 104857600.

Definition write_sv_file (seq : Z) (data : list byte) : T () :=
  let len := Z.of_nat (length data) in
  if len >? MAX_SV_BUF_SIZE then mret () else
  start_off ← gets sv_offset;
  modify (λ s, set_offsets s (offset s) (start_off + (8 + 8 + len)));;
  f ← gets sv_filp;
  if bool_decide (f = FNull) then mret () else
  kernel_write f (bytes_of 8 seq) start_off;;
  kernel_write f (bytes_of 8 len) (start_off + 8);;
  kernel_write f data (start_off + 8 + 8);;
  mret ().

Definition output_open_file : T () := open_file;; open_sv_file.
Definition output_close_file : T () := close_file;; close_sv_file.

(** ** Buffers *)

Definition create_trace_wbuf_cache : T () :=
  s ← get;
  if trace_wbuf_cachep s then mret () else
  ok ← request; modify (λ s, set_caches s ok (trace_svbuf_cachep s)).
Definition destroy_trace_wbuf_cache : T () :=
  modify (λ s, set_caches s false (trace_svbuf_cachep s)).
Definition create_trace_svbuf_cache : T () :=
  s ← get;
  if trace_svbuf_cachep s then mret () else
  ok ← request; modify (λ s, set_caches s (trace_wbuf_cachep s) ok).
Definition destroy_trace_svbuf_cache : T () :=
  modify (λ s, set_caches s (trace_wbuf_cachep s) false).

(** [kmem_cache_alloc] on a NULL cache faults; the result is whether a node was
    obtained. *)
Definition kmem_cache_alloc (cachep : bool) : T bool := if cachep then request else bug.
Definition kmalloc : T bool := request.

(** The rest of the two [_add] functions, once the node is there. *)
Definition wbuf_append (data : list byte) : T () :=
  ok ← kmalloc;
  if negb (ok : bool) then mret () else
  trace_lock_lock;;
  modify (λ s, set_wbufs s (wbuf_list s ++ [data]) (u32 (trace_num_wbuf s + 1)));;
  trace_lock_unlock.
Definition svbuf_append (seq : Z) (data : list byte) : T () :=
  ok ← kmalloc;
  if negb (ok : bool) then mret () else
  trace_lock_lock;;
  modify (λ s, set_svbufs s (svbuf_list s ++ [(seq, data)]) (u32 (trace_num_svbuf s + 1)));;
  trace_lock_unlock.

(** [list_for_each_entry_safe]: write a node out, unlink and free it. *)
Fixpoint wbuf_drain (l : list (list byte)) : T () :=
  match l with
  | [] => mret ()
  | b :: l =>
      write_file b;;
      modify (λ s, set_wbufs s l (u32 (trace_num_wbuf s - 1)));;
      wbuf_drain l
  end.
Fixpoint svbuf_drain (l : list (Z * list byte)) : T () :=
  match l with
  | [] => mret ()
  | (seq, b) :: l =>
      write_sv_file seq b;;
      modify (λ s, set_svbufs s l (u32 (trace_num_svbuf s - 1)));;
      svbuf_drain l
  end.

(** ** Formatting *)

Definition text (s : string) : list byte := String.list_byte_of_string s.
Fixpoint spaces (n : nat) : string := match n with O => "" | S n => " " +:+ spaces n end.
(** ["%8lu"] and ["%-15s"]. *)
Definition padl (n : nat) (s : string) : string := spaces (n - String.length s) +:+ s.
Definition padr (n : nat) (s : string) : string := s +:+ spaces (n - String.length s).
Definition dec (n : Z) : string := pretty n.
Definition hex_digit (d : Z) : ascii :=
  ascii_of_nat (Z.to_nat (if d <? 10 then 48 + d else 87 + d)).
Fixpoint hex_go (fuel : nat) (n : Z) (acc : string) : string :=
  match fuel with
  | O => acc
  | S fuel =>
      let acc := String (hex_digit (n mod 16)) acc in
      if n / 16 =? 0 then acc else hex_go fuel (n / 16) acc
  end.
(** ["0x%lx"] of a 64-bit value. *)
Definition hex (n : Z) : string := "0x" +:+ hex_go 16 n "".

Definition nl : string := String (ascii_of_nat 10) "".

(** What [output_record] has in [buf], and [size1 + size2]: [vsnprintf] stores
    at most 511 bytes and a NUL, but returns the length of the whole text. *)
Definition record_buf (cx : ctx) (seq : Z) (body : string) : list byte * Z :=
  let t1 := text (padl 8 (dec seq) +:+ ", " +:+ padl 8 (dec (pid cx)) +:+ ", ") in
  let t2 := text body in
  let size := (length t1 + length t2)%nat in
  let buf := t1 ++ take (512 - length t1 - 1) t2 ++ [Byte.x00] in
  let buf := if (size =? 512)%nat then <[511%nat := Byte.x0a]> buf else buf in
  (buf, Z.of_nat size).

(** Reading past the end of [char buf[512]] is a [Bug]. *)
Definition stack_read (buf : list byte) (size : Z) : T (list byte) :=
  if size <=? 512 then mret (take (Z.to_nat size) buf) else bug.
End Runtime.

(** ** The sinks: how records and values leave the runtime *)

Class Sink `{Kernel} := {
  output_record : ctx → Z → string → T ();
  output_store_value : ctx → Z → Z → Z → T ()       (* seq, ptr, len *)
}.

(** NOVA's runtime. *)
Module NovaRt.
Section NovaRt.
Context `{Kernel}.

Definition new_trace_wbuf_node : T bool := c ← gets trace_wbuf_cachep; kmem_cache_alloc c.
Definition new_trace_svbuf_node : T bool := c ← gets trace_svbuf_cachep; kmem_cache_alloc c.

Definition trace_wbuf_add (src : list byte) (size : Z) : T () :=
  let size := if size >? 512 then 512 else size in
  node ← new_trace_wbuf_node;
  if negb (node : bool) then mret () else
  wbuf_append (take (Z.to_nat size) src).

Definition trace_wbuf_write_all : T () :=
  l ← gets wbuf_list;
  match l with
  | [] => mret ()
  | _ => trace_lock_lock;; l ← gets wbuf_list; wbuf_drain l;; trace_lock_unlock
  end.

Definition trace_svbuf_add (cx : ctx) (seq ptr size : Z) : T () :=
  if size >? MAX_SV_BUF_SIZE then mret () else
  node ← new_trace_svbuf_node;
  if negb (node : bool) then mret () else
  svbuf_append seq (kread cx ptr size).

Definition trace_svbuf_write_all : T () :=
  l ← gets svbuf_list;
  match l with
  | [] => mret ()
  | _ => trace_lock_lock;; l ← gets svbuf_list; svbuf_drain l;; trace_lock_unlock
  end.

Definition output_record (cx : ctx) (seq : Z) (body : string) : T () :=
  let '(buf, size) := record_buf cx seq body in
  if in_atomic cx then trace_wbuf_add buf size
  else
    trace_wbuf_write_all;;
    data ← stack_read buf size;
    write_file data.

Definition output_store_value (cx : ctx) (seq ptr len : Z) : T () :=
  if in_atomic cx then trace_svbuf_add cx seq ptr len
  else
    trace_svbuf_write_all;;
    write_sv_file seq (kread cx ptr len).

#[export] Instance nova_sink : Sink :=
  {| Tracing.output_record := output_record; Tracing.output_store_value := output_store_value |}.

Definition trace_init_all : T () :=
  trace_lock_lock;;
  e ← gets trace_enabled;
  if negb (e =? 0) then trace_lock_unlock else
  create_trace_wbuf_cache;;
  create_trace_svbuf_cache;;
  c ← gets trace_wbuf_cachep;
  when (negb c) (modify (λ s, set_enabled s (-1)));;
  output_open_file;;
  modify (λ s, set_offsets s 0 (sv_offset s));;
  modify (λ s, set_nvmm s 0 0 0);;
  modify (λ s, set_order s 1);;
  modify (λ s, set_enabled s 1);;
  s ← get;
  when (bool_decide (filp s = FNull) || bool_decide (sv_filp s = FNull))
    (modify (λ s, set_enabled s (-1)));;
  trace_lock_unlock.

Definition trace_destroy_all (init_fs_ret_val : Z) : T () :=
  trace_lock_lock;;
  e ← gets trace_enabled;
  if init_fs_ret_val =? 0 then trace_lock_unlock else
  if e =? 0 then trace_lock_unlock else
  trace_wbuf_write_all;;
  trace_svbuf_write_all;;
  modify (λ s, set_offsets s 0 (sv_offset s));;
  modify (λ s, set_nvmm s 0 0 0);;
  modify (λ s, set_enabled s 0);;
  destroy_trace_svbuf_cache;;
  destroy_trace_wbuf_cache;;
  output_close_file;;
  trace_lock_unlock.
End NovaRt.
End NovaRt.
