(* ===== verification/TracingApi.v ===== *)
(** * Silhouette: the PMFS runtime and the trace functions

    [PmfsRt]: what the runtimes of PMFS and WineFS do differently: every record
    is buffered until the module is unloaded.  Then the functions the
    instrumented code calls ([trace_start_func], [trace_store_inst], ...), which
    the three runtimes share; they are written against the class [Sink]. *)

From stdpp Require Import base list gmap strings pretty numbers.
From Stdlib Require Import ZArith Lia Ascii.
From coqutil Require Import Byte.
From S2P Require Import Prelude PMem Tracing.

Local Open Scope Z_scope.

(** ** The runtime of PMFS and WineFS *)

Module PmfsRt.
Section PmfsRt.
Context `{Kernel}.

Definition new_trace_wbuf_node : T bool :=
  c ← gets trace_wbuf_cachep; if (c : bool) then kmem_cache_alloc c else mret false.
Definition new_trace_svbuf_node : T bool :=
  c ← gets trace_svbuf_cachep; if (c : bool) then kmem_cache_alloc c else mret false.

Definition trace_wbuf_add (src : list byte) (size : Z) : T () :=
  let size := if size >? 512 then 512 else size in
  node ← new_trace_wbuf_node;
  if negb (node : bool) then mret () else
  wbuf_append (take (Z.to_nat size) src).

Definition trace_wbuf_write_all (is_locked : bool) : T () :=
  l ← gets wbuf_list;
  match l with
  | [] => mret ()
  | _ =>
      when (negb is_locked) trace_lock_lock;;
      l ← gets wbuf_list; wbuf_drain l;;
      when (negb is_locked) trace_lock_unlock
  end.

Definition trace_svbuf_add (cx : ctx) (seq ptr size : Z) : T () :=
  if size >? MAX_SV_BUF_SIZE then mret () else
  node ← new_trace_svbuf_node;
  if negb (node : bool) then mret () else
  svbuf_append seq (kread cx ptr size).

Definition trace_svbuf_write_all (is_locked : bool) : T () :=
  l ← gets svbuf_list;
  match l with
  | [] => mret ()
  | _ =>
      when (negb is_locked) trace_lock_lock;;
      l ← gets svbuf_list; svbuf_drain l;;
      when (negb is_locked) trace_lock_unlock
  end.

Definition output_record (cx : ctx) (seq : Z) (body : string) : T () :=
  let '(buf, size) := record_buf cx seq body in trace_wbuf_add buf size.
Definition output_store_value (cx : ctx) (seq ptr len : Z) : T () := trace_svbuf_add cx seq ptr len.

#[export] Instance pmfs_sink : Sink :=
  {| Tracing.output_record := output_record; Tracing.output_store_value := output_store_value |}.

Definition trace_destroy_all (init_fs_ret_val : Z) : T () :=
  trace_lock_lock;;
  e ← gets trace_enabled;
  if init_fs_ret_val =? 0 then trace_lock_unlock else
  if e =? 0 then trace_lock_unlock else
  trace_wbuf_write_all true;;
  trace_svbuf_write_all true;;
  modify (λ s, set_offsets s 0 (sv_offset s));;
  modify (λ s, set_nvmm s 0 0 0);;
  modify (λ s, set_enabled s 0);;
  destroy_trace_svbuf_cache;;
  destroy_trace_wbuf_cache;;
  output_close_file;;
  trace_lock_unlock.
End PmfsRt.
End PmfsRt.

(** ** The trace functions *)

Definition TRACE_DRAM_ADDR : bool := true.
Definition MAX_TRACE_SEQ_NUM : Z := 2000000000000.
Definition OLDSV_START_SEQ : Z := 1000000000000.

(** Pointer arithmetic wraps at 64 bits. *)
Definition check_dest_addr_nvmm (s : tstate) (ptr size : Z) : bool :=
  (nvmm_virt_start_addr s >? 0) && (ptr >=? nvmm_virt_start_addr s) &&
  (u64 (ptr + size) <=? nvmm_virt_end_addr s).
Definition is_user_space_address (addr : Z) : bool := u64 addr <? 2 ^ 63.

(** Pieces of the format strings. *)
Definition head_id (kind : string) (id : Z) : string := padr 15 kind +:+ ", id: " +:+ padl 8 (dec id).
Definition fmt_ptr (ptr : Z) : string := ", ptr: " +:+ hex ptr.
Definition fmt_size (size : Z) : string := ", size: " +:+ padl 8 (dec size).
Definition fin : string := "." +:+ nl.
Definition fmt_access (kind : string) (id ptr size : Z) : string :=
  head_id kind id +:+ fmt_ptr ptr +:+ fmt_size size +:+ fin.

Section Api.
Context `{Sink}.

(** [TRACE_UNLOCK_OR_RETURN], after [trace_lock_lock]: [None] when tracing is
    off and the caller returns. *)
Definition TRACE_UNLOCK_OR_RETURN (incby : Z) : T (option Z) :=
  trace_lock_lock;;
  e ← gets trace_enabled;
  if e =? 0 then trace_lock_unlock;; mret None else
  seq ← gets trace_order_num;
  modify (λ s, set_order s (u64 (seq + incby)));;
  trace_lock_unlock;;
  mret (Some seq).
Definition with_seq (k : Z → T ()) : T () :=
  seq ← TRACE_UNLOCK_OR_RETURN 1;
  match seq with Some seq => k seq | None => mret () end.

(** [TRACE_CHECK_SEQ_RETURN] *)
Definition check_seq (seq : Z) (k : T ()) : T () := if seq >=? MAX_TRACE_SEQ_NUM then mret () else k.
(** [if (TRACE_DRAM_ADDR || check_dest_addr_nvmm(ptr, size))] *)
Definition if_traced (ptr size : Z) (k : T ()) : T () :=
  c ← gets (λ s, check_dest_addr_nvmm s ptr size);
  when (TRACE_DRAM_ADDR || c) k.

Definition trace_acquire_sequence (incby : Z) : T Z :=
  trace_lock_lock;;
  e ← gets trace_enabled;
  seq ← (if negb (e =? 0) then
           seq ← gets trace_order_num;
           modify (λ s, set_order s (u64 (seq + incby)));;
           mret seq
         else mret MAX_TRACE_SEQ_NUM);
  trace_lock_unlock;;
  mret seq.

Definition trace_old_store_value (cx : ctx) (seq ptr size shift : Z) : T () :=
  check_seq seq (
    if is_user_space_address ptr then mret () else
    let seq := u64 (seq + shift) in
    if_traced ptr size (output_store_value cx (u64 (seq + OLDSV_START_SEQ)) ptr size)).

(** A record and the value now at [ptr]: the functions for stores. *)
Definition store_event (kind : string) (cx : ctx) (seq id ptr size : Z) : T () :=
  check_seq seq (if_traced ptr size (
    output_record cx seq (fmt_access kind id ptr size);;
    output_store_value cx seq ptr size)).

Definition trace_inline_asm_flush (cx : ctx) (id src : Z) : T () :=
  with_seq (λ seq, if_traced src 64 (
    output_record cx seq (head_id "asmFlush" id +:+ fmt_ptr src +:+ fin))).
Definition trace_inline_asm_fence (cx : ctx) (id : Z) : T () :=
  with_seq (λ seq, output_record cx seq (head_id "asmFence" id +:+ fin)).
Definition trace_implicit_fence (cx : ctx) (id : Z) : T () :=
  with_seq (λ seq, output_record cx seq (head_id "impFence" id +:+ fin)).

Definition trace_inline_asm_xchglq := store_event "asmxchg".
Definition trace_inline_asm_cas := store_event "cas".
Definition trace_inline_asm_memsetnt := store_event "asmmemsetnt".

Definition trace_inline_asm_unknown (cx : ctx) (id : Z) (caller_name fname : string) (line : Z)
    (asm_str : string) : T () :=
  with_seq (λ seq, output_record cx seq (
    head_id "ukasm" id +:+ ", caller: " +:+ caller_name +:+ ", fname: " +:+ fname +:+
    ", line: " +:+ dec line +:+ ", asm: " +:+
    (if (String.length asm_str <? 400)%nat then asm_str else "TooLong") +:+ fin)).

Definition func_event (kind : string) (cx : ctx) (id func_ptr : Z) (func_name : string) : T () :=
  with_seq (λ seq, output_record cx seq (
    head_id kind id +:+ fmt_ptr func_ptr +:+ ", fn: " +:+ func_name +:+ fin)).
Definition trace_start_func := func_event "startFunc".
Definition trace_end_func := func_event "endFunc".
Definition trace_start_bb := func_event "startBB".
Definition trace_end_bb (cx : ctx) (id func_ptr : Z) (func_name : string) : T () :=
  with_seq (λ seq, output_record cx seq (
    head_id "endBB" id +:+ fmt_ptr func_ptr +:+ ", fn: " +:+ func_name +:+
    ", call_id: " +:+ padl 8 (dec 0) +:+ fin)).

Definition trace_load_inst (cx : ctx) (id ptr size : Z) : T () :=
  with_seq (λ seq, if_traced ptr size (output_record cx seq (fmt_access "load" id ptr size))).
Definition trace_store_inst := store_event "store".
Definition trace_fence_inst := trace_inline_asm_fence.
Definition trace_xchg_inst := store_event "xchg".
Definition trace_rmw_inst := store_event "rmw".
Definition trace_memset_inst := store_event "memset".

Definition trace_memtransfer_inst (cx : ctx) (seq id dest src size : Z) : T () :=
  check_seq seq (
    if_traced src size (output_record cx seq (fmt_access "memtransLoad" id src size));;
    if_traced dest size (
      output_record cx (u64 (seq + 1)) (fmt_access "memtransStore" id dest size);;
      output_store_value cx (u64 (seq + 1)) dest size)).

Definition trace_select_inst (cx : ctx) (id flag : Z) : T () :=
  with_seq (λ seq, output_record cx seq (head_id "select" id +:+ ", flag: " +:+ dec flag +:+ fin)).

Definition call_event (kind : string) (cx : ctx) (id : Z) (caller_name callee_name fname : string)
    (line : Z) : T () :=
  with_seq (λ seq, output_record cx seq (
    head_id kind id +:+ ", caller: " +:+ caller_name +:+ ", callee: " +:+ callee_name +:+
    ", fname: " +:+ fname +:+ ", line: " +:+ dec line +:+ fin)).
Definition trace_start_calls := call_event "startCall".
Definition trace_end_calls := call_event "endCall".

(** The two copy families differ in the kinds of their records. *)
Definition uaccess_event (load_kind store_kind : string) (cx : ctx) (seq id to from size : Z) : T () :=
  check_seq seq (
    if is_user_space_address to then mret () else
    let rest := ", from: " +:+ hex from +:+ ", to: " +:+ hex to +:+ fmt_size size +:+ fin in
    if_traced from size (output_record cx seq (head_id load_kind id +:+ rest));;
    if_traced to size (
      output_record cx (u64 (seq + 1)) (head_id store_kind id +:+ rest);;
      output_store_value cx (u64 (seq + 1)) to size)).
Definition trace_uaccess_calls := uaccess_event "uaccessLoad" "uaccessStore".
Definition trace_uaccess_nt_calls := uaccess_event "uaccessNTLoad" "uaccessNTStore".

(** [addr] is [*addr]; [size] is in pages. *)
Definition trace_dax_access (cx : ctx) (id addr size : Z) : T () :=
  with_seq (λ seq,
    let vsize := swrap 64 (size * 4096) in
    let vend := u64 (addr + vsize) in
    modify (λ s, set_nvmm s addr vend vsize);;
    output_record cx seq (
      head_id "DaxDevInfo" 0 +:+ ", " +:+ hex addr +:+ ", " +:+ hex vend +:+ ", " +:+
      dec (Z.quot vsize 1048576) +:+ fin)).

Definition trace_centralized_flush (cx : ctx) (seq id ptr size : Z) : T () :=
  check_seq seq (if_traced ptr size (output_record cx seq (fmt_access "centflush" id ptr size))).

Definition struct_body (kind : string) (id ptr idx size : Z) (stname : string) : string :=
  head_id kind id +:+ ", type: " +:+ padr 15 stname +:+ fmt_ptr ptr +:+
  ", idx: " +:+ padl 4 (dec idx) +:+ fmt_size size +:+ fin.
Definition trace_pm_struct_ptr_inst (cx : ctx) (id ptr idx size : Z) (stname : string) : T () :=
  with_seq (λ seq, if_traced ptr size (
    output_record cx seq (struct_body "PMStructPtr" id ptr idx size stname))).
Definition trace_dram_struct_ptr_inst (cx : ctx) (id ptr idx size : Z) (stname : string) : T () :=
  with_seq (λ seq, output_record cx seq (struct_body "DRAMStructPtr" id ptr idx size stname)).
Definition trace_unknown_struct_ptr_inst (cx : ctx) (id ptr idx size : Z) (stname : string) : T () :=
  s ← get;
  if negb (nvmm_virt_start_addr s =? 0) && negb (nvmm_virt_end_addr s =? 0) &&
     negb (nvmm_virt_size s =? 0) then
    with_seq (λ seq, output_record cx seq (struct_body "UKStructPtr" id ptr idx size stname))
  else if check_dest_addr_nvmm s ptr size
  then trace_pm_struct_ptr_inst cx id ptr idx size stname
  else trace_dram_struct_ptr_inst cx id ptr idx size stname.

Definition trace_dbg_var_store (cx : ctx) (id ptr : Z) (stname : string) (size : Z) : T () :=
  with_seq (λ seq, output_record cx seq (
    head_id "dbgStore" id +:+ ", type: " +:+ padr 15 stname +:+ fmt_ptr ptr +:+ fmt_size size +:+ fin)).
End Api.
