(* ===== verification/TracingProofs.v ===== *)
(** * Silhouette: correctness of the trace runtime

    While the runtime is [ready], a record or a value is never lost or
    reordered: the file followed by the buffers is the log of everything
    output so far.  [SinkLaws] states that for a sink; the runtimes of NOVA and
    PMFS have it, and the trace functions are specified on top of it. *)

From stdpp Require Import base list gmap strings pretty numbers.
From Stdlib Require Import ZArith Lia Ascii.
From coqutil Require Import Byte Word.LittleEndianList.
From S2P Require Import Prelude PMem Tracing TracingApi.

Local Open Scope Z_scope.

(** ** The logs *)

Definition encode (e : Z * list byte) : list byte :=
  bytes_of 8 (fst e) ++ bytes_of 8 (Z.of_nat (length (snd e))) ++ snd e.
Definition wr_log (s : tstate) : list byte := wr_content (kern s) ++ concat (wbuf_list s).
Definition sv_log (s : tstate) : list byte := sv_content (kern s) ++ concat (encode <$> svbuf_list s).

(** Both files are open and written up to their offsets. *)
Record files_ok (s : tstate) : Prop := {
  fo_filp : ∃ h, filp s = FOpen h ∧ handles (kern s) !! h = Some WrFile;
  fo_sv_filp : ∃ h, sv_filp s = FOpen h ∧ handles (kern s) !! h = Some SvFile;
  fo_offset : offset s = Z.of_nat (length (wr_content (kern s)));
  fo_sv_offset : sv_offset s = Z.of_nat (length (sv_content (kern s)));
  fo_small : Forall (λ e, Z.of_nat (length (snd e)) <= MAX_SV_BUF_SIZE) (svbuf_list s)
}.
Record ready (s : tstate) : Prop := {
  rd_files : files_ok s;
  rd_lock : trace_lock s = false;
  rd_wbuf_cache : trace_wbuf_cachep s = true;
  rd_svbuf_cache : trace_svbuf_cachep s = true
}.

(** What output leaves alone. *)
Definition same_core (s s' : tstate) : Prop :=
  trace_lock s' = trace_lock s ∧ trace_enabled s' = trace_enabled s ∧
  trace_order_num s' = trace_order_num s ∧
  nvmm_virt_start_addr s' = nvmm_virt_start_addr s ∧ nvmm_virt_end_addr s' = nvmm_virt_end_addr s ∧
  nvmm_virt_size s' = nvmm_virt_size s ∧
  trace_wbuf_cachep s' = trace_wbuf_cachep s ∧ trace_svbuf_cachep s' = trace_svbuf_cachep s ∧
  filp s' = filp s ∧ sv_filp s' = sv_filp s ∧ handles (kern s') = handles (kern s).

#[export] Instance same_core_preorder : PreOrder same_core.
Proof. split; [by intros s|]. unfold same_core. intros s1 s2 s3 H1 H2. naive_solver congruence. Qed.

Lemma ready_core s s' : ready s → files_ok s' → same_core s s' → ready s'.
Proof. intros [] ? (?&?&?&?&?&?&?&?&?). split; congruence. Qed.

(** A kernel that grants every request and writes all it is given. *)
Class KernelServes `{Kernel} : Prop := {
  serves_grant : ∀ t, grant t = true;
  serves_write : ∀ t n, (n <= written t n)%nat
}.

Lemma write_at_end c d : write_at c (length c) d = c ++ d.
Proof.
  unfold write_at. rewrite Nat.sub_diag. simpl replicate. rewrite app_nil_r, firstn_all.
  rewrite drop_ge by lia. by rewrite app_nil_r.
Qed.

Section Proofs.
#[local] Set Default Proof Using "All".
Context `{Kernel} `{!KernelServes}.

(** *** Files *)

Lemma file_of_eq s h p : handles (kern s) !! h = Some p → file_of (FOpen h) s = Ok (p, s).
Proof using Type. intros Hh. unfold file_of. erewrite bind_Ok; [|done]. by rewrite Hh. Qed.

Definition bump (k : kstate) (w v : list byte) : kstate :=
  KState (handles k) (next_handle k) w v (S (tick k)).

Lemma kernel_write_wr s h d :
  handles (kern s) !! h = Some WrFile →
  kernel_write (FOpen h) d (Z.of_nat (length (wr_content (kern s)))) s =
  Ok (Z.of_nat (length d), set_kern s (bump (kern s) (wr_content (kern s) ++ d) (sv_content (kern s)))).
Proof.
  intros Hh. unfold kernel_write. erewrite bind_Ok; [|by apply file_of_eq].
  erewrite bind_Ok; [|done]. rewrite take_ge by apply serves_write.
  erewrite bind_Ok; [|done]. destruct s as [????????????????[]]. cbn.
  erewrite bind_Ok; [|done]. cbn. by rewrite Nat2Z.id, write_at_end.
Qed.

Lemma kernel_write_sv s h d :
  handles (kern s) !! h = Some SvFile →
  kernel_write (FOpen h) d (Z.of_nat (length (sv_content (kern s)))) s =
  Ok (Z.of_nat (length d), set_kern s (bump (kern s) (wr_content (kern s)) (sv_content (kern s) ++ d))).
Proof.
  intros Hh. unfold kernel_write. erewrite bind_Ok; [|by apply file_of_eq].
  erewrite bind_Ok; [|done]. rewrite take_ge by apply serves_write.
  erewrite bind_Ok; [|done]. destruct s as [????????????????[]]. cbn.
  erewrite bind_Ok; [|done]. cbn. by rewrite Nat2Z.id, write_at_end.
Qed.

(** Output that appends [d] and [e] to the files and keeps the buffers. *)
Definition appended (s s' : tstate) (d e : list byte) : Prop :=
  files_ok s' ∧ same_core s s' ∧
  wr_content (kern s') = wr_content (kern s) ++ d ∧ sv_content (kern s') = sv_content (kern s) ++ e ∧
  wbuf_list s' = wbuf_list s ∧ svbuf_list s' = svbuf_list s ∧
  trace_num_wbuf s' = trace_num_wbuf s ∧ trace_num_svbuf s' = trace_num_svbuf s.

Lemma write_file_spec s d :
  files_ok s → ∃ s', write_file d s = Ok ((), s') ∧ appended s s' d [].
Proof.
  intros [(h & Hf & Hh) Hsv Ho Hso Hsm]. unfold write_file. erewrite bind_Ok; [|done].
  destruct s as [l f sf o so a b c e n wc sc wl wn sl sn k]. cbn in *. subst f o so.
  erewrite bind_Ok; [|done]. cbn. erewrite bind_Ok; [|done]. cbn.
  rewrite bool_decide_eq_false_2 by done.
  erewrite bind_Ok; [|apply (kernel_write_wr (TState _ _ _ _ _ _ _ _ _ _ _ _ _ _ _ _ k)); exact Hh]. cbn.
  eexists. split; [reflexivity|]. unfold appended, same_core. cbn.
  split_and!; try done; [|by rewrite app_nil_r].
  split; cbn; try done; [by exists h|]. rewrite length_app. lia.
Qed.

Lemma length_encode e : length (encode e) = (16 + length (snd e))%nat.
Proof using Type. unfold encode. rewrite !length_app, !length_bytes_of. lia. Qed.

Lemma write_sv_file_spec s seq d :
  files_ok s → Z.of_nat (length d) <= MAX_SV_BUF_SIZE →
  ∃ s', write_sv_file seq d s = Ok ((), s') ∧ appended s s' [] (encode (seq, d)).
Proof.
  intros [Hw (h & Hf & Hh) Ho Hso Hsm] Hd. unfold write_sv_file. cbv zeta.
  destruct (Z.gtb_spec (Z.of_nat (length d)) MAX_SV_BUF_SIZE); [lia|].
  erewrite bind_Ok; [|done].
  destruct s as [l f sf o so a b c e n wc sc wl wn sl sn k]. cbn in *. subst sf o so.
  erewrite bind_Ok; [|done]. cbn. erewrite bind_Ok; [|done]. cbn.
  rewrite bool_decide_eq_false_2 by done. set (c0 := sv_content k).
  erewrite bind_Ok; [|apply (kernel_write_sv (TState _ _ _ _ _ _ _ _ _ _ _ _ _ _ _ _ k)); exact Hh].
  cbn. fold c0.
  replace (Z.of_nat (length c0) + 8) with (Z.of_nat (length (c0 ++ bytes_of 8 seq)))
    by (rewrite length_app, length_bytes_of; lia).
  erewrite bind_Ok; [|apply (kernel_write_sv (TState _ _ _ _ _ _ _ _ _ _ _ _ _ _ _ _ (bump _ _ _))); exact Hh].
  cbn. fold c0.
  match goal with |- context [kernel_write _ d ?o] =>
    replace o with (Z.of_nat (length ((c0 ++ bytes_of 8 seq) ++ bytes_of 8 (Z.of_nat (length d)))))
      by (rewrite !length_app, !length_bytes_of; lia) end.
  erewrite bind_Ok; [|apply (kernel_write_sv (TState _ _ _ _ _ _ _ _ _ _ _ _ _ _ _ _ (bump _ _ _))); exact Hh].
  cbn. eexists. split; [reflexivity|]. unfold appended, same_core. cbn. fold c0.
  split_and!; try done.
  - split; cbn; try done; [by exists h|]. fold c0. rewrite !length_app, !length_bytes_of. lia.
  - by rewrite app_nil_r.
  - unfold encode. by rewrite <- !app_assoc.
Qed.

(** *** Buffers *)

Lemma set_wbufs_fields s l n :
  files_ok s → files_ok (set_wbufs s l n) ∧ same_core s (set_wbufs s l n) ∧
  kern (set_wbufs s l n) = kern s ∧ wbuf_list (set_wbufs s l n) = l ∧
  svbuf_list (set_wbufs s l n) = svbuf_list s.
Proof using Type. destruct s. intros []. split_and!; try done. Qed.
Lemma set_svbufs_fields s l n :
  files_ok s → Forall (λ e, Z.of_nat (length (snd e)) <= MAX_SV_BUF_SIZE) l →
  files_ok (set_svbufs s l n) ∧ same_core s (set_svbufs s l n) ∧
  kern (set_svbufs s l n) = kern s ∧ wbuf_list (set_svbufs s l n) = wbuf_list s ∧
  svbuf_list (set_svbufs s l n) = l.
Proof using Type. destruct s. intros [] ?. split_and!; try done. Qed.

(** Draining moves the buffers to the file: the log is the same. *)
Definition drained (s s' : tstate) : Prop :=
  files_ok s' ∧ same_core s s' ∧ wr_log s' = wr_log s ∧ sv_log s' = sv_log s.

Lemma wbuf_drain_spec l : ∀ s,
  files_ok s → wbuf_list s = l →
  ∃ s', wbuf_drain l s = Ok ((), s') ∧ drained s s' ∧ wbuf_list s' = [] ∧ svbuf_list s' = svbuf_list s.
Proof.
  induction l as [|b l IH]; intros s Hs Hl; simpl.
  { exists s. split_and!; try done. }
  destruct (write_file_spec s b Hs) as (s1 & E1 & Hf1 & Hc1 & Hw1 & Hv1 & Hb1 & Hsb1 & _).
  erewrite bind_Ok; [|exact E1]. erewrite bind_Ok; [|done].
  destruct (set_wbufs_fields s1 l (u32 (trace_num_wbuf s1 - 1)) Hf1) as (Hf2 & Hc2 & Hk2 & Hb2 & Hsb2).
  set (s2 := set_wbufs s1 l _) in *.
  destruct (IH s2 Hf2 Hb2) as (s3 & E3 & (Hf3 & Hc3 & Hw3 & Hv3) & Hb3 & Hsb3).
  exists s3. split; [done|]. split; [|split; [done|by rewrite Hsb3, Hsb2]]. split_and!; [done|..].
  - etrans; [exact Hc1|]. by etrans; [exact Hc2|].
  - rewrite Hw3. unfold wr_log. rewrite Hk2, Hb2, Hw1, Hl. simpl. by rewrite <- app_assoc.
  - rewrite Hv3. unfold sv_log. by rewrite Hk2, Hsb2, Hv1, Hsb1, app_nil_r.
Qed.

Lemma svbuf_drain_spec l : ∀ s,
  files_ok s → svbuf_list s = l →
  ∃ s', svbuf_drain l s = Ok ((), s') ∧ drained s s' ∧ svbuf_list s' = [] ∧ wbuf_list s' = wbuf_list s.
Proof.
  induction l as [|[q b] l IH]; intros s Hs Hl; simpl.
  { exists s. split_and!; try done. }
  pose proof (fo_small _ Hs) as Hsm. rewrite Hl in Hsm. apply Forall_cons_1 in Hsm as [Hb Hsm].
  destruct (write_sv_file_spec s q b Hs Hb) as (s1 & E1 & Hf1 & Hc1 & Hw1 & Hv1 & Hb1 & Hsb1 & _).
  erewrite bind_Ok; [|exact E1]. erewrite bind_Ok; [|done].
  destruct (set_svbufs_fields s1 l (u32 (trace_num_svbuf s1 - 1)) Hf1 Hsm)
    as (Hf2 & Hc2 & Hk2 & Hb2 & Hsb2).
  set (s2 := set_svbufs s1 l _) in *.
  destruct (IH s2 Hf2 Hsb2) as (s3 & E3 & (Hf3 & Hc3 & Hw3 & Hv3) & Hsb3 & Hb3).
  exists s3. split; [done|]. split; [|split; [done|by rewrite Hb3, Hb2]]. split_and!; [done|..].
  - etrans; [exact Hc1|]. by etrans; [exact Hc2|].
  - rewrite Hw3. unfold wr_log. by rewrite Hk2, Hb2, Hw1, Hb1, app_nil_r.
  - rewrite Hv3. unfold sv_log. rewrite Hk2, Hsb2, Hv1, Hl. simpl. by rewrite <- app_assoc.
Qed.

Lemma request_eq s : ∃ k, request s = Ok (true, set_kern s k) ∧
  handles k = handles (kern s) ∧ wr_content k = wr_content (kern s) ∧ sv_content k = sv_content (kern s).
Proof.
  exists (bump (kern s) (wr_content (kern s)) (sv_content (kern s))). split; [|done].
  assert (E : next_tick s = Ok (tick (kern s),
    set_kern s (bump (kern s) (wr_content (kern s)) (sv_content (kern s))))) by reflexivity.
  unfold request. erewrite bind_Ok; [|exact E]. by rewrite serves_grant.
Qed.

Lemma set_kern_fields s k :
  files_ok s → handles k = handles (kern s) → wr_content k = wr_content (kern s) →
  sv_content k = sv_content (kern s) → drained s (set_kern s k) ∧
  wbuf_list (set_kern s k) = wbuf_list s ∧ svbuf_list (set_kern s k) = svbuf_list s.
Proof using Type.
  destruct s. intros [] Eh Ew Es. unfold drained. cbn in *.
  split_and!; try reflexivity.
  - by split; cbn; rewrite ?Eh, ?Ew, ?Es.
  - by split_and!.
  - unfold wr_log. cbn. by rewrite Ew.
  - unfold sv_log. cbn. by rewrite Es.
Qed.

Lemma set_lock_fields s b :
  files_ok s → files_ok (set_lock s b) ∧ wr_log (set_lock s b) = wr_log s ∧
  sv_log (set_lock s b) = sv_log s ∧ kern (set_lock s b) = kern s ∧
  wbuf_list (set_lock s b) = wbuf_list s ∧ svbuf_list (set_lock s b) = svbuf_list s.
Proof using Type. destruct s. intros []. by split_and!. Qed.

(** Running [m] under the lock. *)
Lemma under_lock s m s2 :
  ready s → m (set_lock s true) = Ok ((), s2) → drained (set_lock s true) s2 →
  ∃ s', (trace_lock_lock;; m;; trace_lock_unlock) s = Ok ((), s') ∧ ready s' ∧ same_core s s' ∧
    wr_log s' = wr_log s ∧ sv_log s' = sv_log s ∧ wbuf_list s' = wbuf_list s2 ∧
    svbuf_list s' = svbuf_list s2.
Proof using Type.
  intros [Hf Hl Hc1 Hc2] Em (Hf2 & Hc & Hw & Hv). unfold trace_lock_lock.
  rewrite bind_assoc. erewrite bind_Ok; [|done]. rewrite Hl.
  erewrite bind_Ok; [|done]. erewrite bind_Ok; [|exact Em].
  destruct (set_lock_fields s true Hf) as (_ & Hw1 & Hv1 & _).
  destruct (set_lock_fields s2 false Hf2) as (Hf3 & Hw3 & Hv3 & _ & Hb3 & Hs3).
  exists (set_lock s2 false). split; [done|].
  assert (Hcore : same_core s (set_lock s2 false)).
  { destruct s, s2. unfold same_core in *. cbn in *. naive_solver congruence. }
  split_and!; try done; [|by rewrite Hw3, Hw, Hw1|by rewrite Hv3, Hv, Hv1].
  by eapply ready_core; [|exact Hf3|exact Hcore].
Qed.

(** Adding a node at the tail of a buffer. *)
Lemma wbuf_append_spec s d :
  ready s → ∃ s', wbuf_append d s = Ok ((), s') ∧ ready s' ∧ same_core s s' ∧
    wr_log s' = wr_log s ++ d ∧ sv_log s' = sv_log s.
Proof.
  intros Hr. pose proof Hr as [Hf Hl Hc1 Hc2]. unfold wbuf_append, kmalloc.
  destruct (request_eq s) as (k & E & Hh & Hw & Hv). erewrite bind_Ok; [|exact E]. cbn [negb].
  destruct (set_kern_fields s k Hf Hh Hw Hv) as ((Hf1 & Hcore1 & Hw1 & Hv1) & Hb1 & Hs1).
  set (s1 := set_kern s k) in *. unfold trace_lock_lock. rewrite bind_assoc.
  erewrite bind_Ok; [|done]. replace (Tracing.trace_lock s1) with false by (destruct s; done).
  erewrite bind_Ok; [|done]. erewrite bind_Ok; [|done].
  eexists. split; [reflexivity|].
  assert (Hcore : ∀ w n, same_core s1 (set_lock (set_wbufs (set_lock s1 true) w n) false)).
  { intros w n. subst s1. destruct s. unfold same_core. cbn in *. by split_and!. }
  assert (Hfin : ∀ w n, files_ok (set_lock (set_wbufs (set_lock s1 true) w n) false)).
  { intros w n. destruct s1. destruct Hf1. split; done. }
  split_and!.
  - eapply ready_core; [exact Hr|apply Hfin|]. etrans; [exact Hcore1|apply Hcore].
  - etrans; [exact Hcore1|apply Hcore].
  - rewrite <- Hw1. destruct s1. unfold wr_log. cbn. rewrite concat_app. cbn.
    by rewrite app_nil_r, app_assoc.
  - rewrite <- Hv1. by destruct s1.
Qed.

Lemma svbuf_append_spec s q d :
  ready s → Z.of_nat (length d) <= MAX_SV_BUF_SIZE →
  ∃ s', svbuf_append q d s = Ok ((), s') ∧ ready s' ∧ same_core s s' ∧
    wr_log s' = wr_log s ∧ sv_log s' = sv_log s ++ encode (q, d).
Proof.
  intros Hr Hd. pose proof Hr as [Hf Hl Hc1 Hc2]. unfold svbuf_append, kmalloc.
  destruct (request_eq s) as (k & E & Hh & Hw & Hv). erewrite bind_Ok; [|exact E]. cbn [negb].
  destruct (set_kern_fields s k Hf Hh Hw Hv) as ((Hf1 & Hcore1 & Hw1 & Hv1) & Hb1 & Hs1).
  set (s1 := set_kern s k) in *. unfold trace_lock_lock. rewrite bind_assoc.
  erewrite bind_Ok; [|done]. replace (Tracing.trace_lock s1) with false by (destruct s; done).
  erewrite bind_Ok; [|done]. erewrite bind_Ok; [|done].
  eexists. split; [reflexivity|].
  assert (Hcore : ∀ w n, same_core s1 (set_lock (set_svbufs (set_lock s1 true) w n) false)).
  { intros w n. subst s1. destruct s. unfold same_core. cbn in *. by split_and!. }
  assert (Hfin : files_ok (set_lock (set_svbufs (set_lock s1 true) (svbuf_list s1 ++ [(q, d)])
    (u32 (trace_num_svbuf s1 + 1))) false)).
  { destruct s1. destruct Hf1. split; try done. cbn in *. apply Forall_app. split; [done|].
    by constructor. }
  split_and!.
  - eapply ready_core; [exact Hr| |etrans; [exact Hcore1|apply Hcore]]. destruct s1. exact Hfin.
  - etrans; [exact Hcore1|apply Hcore].
  - rewrite <- Hw1. by destruct s1.
  - rewrite <- Hv1. destruct s1. unfold sv_log. cbn. rewrite fmap_app, concat_app. cbn.
    by rewrite app_nil_r, app_assoc.
Qed.

(** *** The sinks *)

Lemma new_node_eq s c :
  c = true → ready s → ∃ k, kmem_cache_alloc c s = Ok (true, set_kern s k) ∧ ready (set_kern s k) ∧
    same_core s (set_kern s k) ∧ wr_log (set_kern s k) = wr_log s ∧ sv_log (set_kern s k) = sv_log s.
Proof.
  intros -> Hr. pose proof Hr as [Hf _ _ _]. destruct (request_eq s) as (k & E & Hh & Hw & Hv).
  destruct (set_kern_fields s k Hf Hh Hw Hv) as ((Hf1 & Hc & Hw1 & Hv1) & _).
  exists k. split_and!; try done. by eapply ready_core.
Qed.

Lemma file_append s s' d :
  appended s s' d [] → wbuf_list s = [] → wr_log s' = wr_log s ++ d ∧ sv_log s' = sv_log s.
Proof using Type.
  intros (_ & _ & Hw & Hv & Hb & Hs & _) Hnil. unfold wr_log, sv_log.
  by rewrite Hw, Hv, Hb, Hs, Hnil, !app_nil_r.
Qed.
Lemma sv_file_append s s' e :
  appended s s' [] e → svbuf_list s = [] → wr_log s' = wr_log s ∧ sv_log s' = sv_log s ++ e.
Proof using Type.
  intros (_ & _ & Hw & Hv & Hb & Hs & _) Hnil. unfold wr_log, sv_log.
  by rewrite Hw, Hv, Hb, Hs, Hnil, !app_nil_r.
Qed.

(** [m] appends [d] and [e] to the logs. *)
Definition logs_to (m : T ()) (s : tstate) (d e : list byte) : Prop :=
  ∃ s', m s = Ok ((), s') ∧ ready s' ∧ same_core s s' ∧
    wr_log s' = wr_log s ++ d ∧ sv_log s' = sv_log s ++ e.

Lemma logs_to_nil s : ready s → logs_to (mret ()) s [] [].
Proof using Type. intros Hr. exists s. rewrite !app_nil_r. split_and!; try done. Qed.

(** Sequences of output concatenate. *)
Lemma logs_to_seq m1 m2 s d1 e1 d2 e2 :
  logs_to m1 s d1 e1 → (∀ s', ready s' → same_core s s' → logs_to m2 s' d2 e2) →
  logs_to (m1;; m2) s (d1 ++ d2) (e1 ++ e2).
Proof using Type.
  intros (s1 & E1 & Hr1 & Hc1 & Hw1 & Hv1) H2.
  destruct (H2 s1 Hr1 Hc1) as (s2 & E2 & Hr2 & Hc2 & Hw2 & Hv2). exists s2.
  erewrite bind_Ok; [|exact E1]. rewrite Hw2, Hv2, Hw1, Hv1, !app_assoc.
  split_and!; try done. by etrans.
Qed.

(** The bytes of a record, and when it fits [buf]. *)
Definition record_line (cx : ctx) (seq : Z) (body : string) : list byte :=
  let '(buf, size) := record_buf cx seq body in take (Z.to_nat size) buf.
Definition fits (cx : ctx) (seq : Z) (body : string) : Prop := snd (record_buf cx seq body) <= 512.
(** The entry of a value; larger values are dropped. *)
Definition value_entry (cx : ctx) (seq ptr size : Z) : list (Z * list byte) :=
  if size >? MAX_SV_BUF_SIZE then [] else [(seq, kread cx ptr size)].

Lemma length_kread cx ptr size : length (kread cx ptr size) = Z.to_nat size.
Proof using Type. unfold kread. by rewrite length_fmap, length_seqZ. Qed.

Definition encode_all (l : list (Z * list byte)) : list byte := concat (encode <$> l).
End Proofs.

(** What a sink promises to the trace functions. *)
Class SinkLaws `{Sink} : Prop := {
  output_record_logs : ∀ cx seq body s, ready s → fits cx seq body →
    logs_to (output_record cx seq body) s (record_line cx seq body) [];
  output_store_value_logs : ∀ cx seq ptr size s, ready s → 0 <= size →
    logs_to (output_store_value cx seq ptr size) s [] (encode_all (value_entry cx seq ptr size))
}.

Section Instances.
#[local] Set Default Proof Using "All".
Context `{Kernel} `{!KernelServes}.

Lemma encode_one e : encode_all [e] = encode e.
Proof using Type. unfold encode_all. simpl. by rewrite app_nil_r. Qed.

(** Both runtimes add to the buffers the same way. *)
Lemma wbuf_add_logs s c d :
  c = true → ready s →
  logs_to (node ← kmem_cache_alloc c; if negb (node : bool) then mret () else wbuf_append d) s d [].
Proof.
  intros Hc Hr. destruct (new_node_eq s c Hc Hr) as (k & E & Hr1 & Hc1 & Hw1 & Hv1).
  destruct (wbuf_append_spec (set_kern s k) d Hr1) as (s2 & E2 & Hr2 & Hc2 & Hw2 & Hv2).
  exists s2. erewrite bind_Ok; [|exact E]. cbn [negb].
  rewrite app_nil_r, Hw2, Hv2, Hw1, Hv1. split_and!; try done. by etrans.
Qed.
Lemma svbuf_add_logs s c q d :
  c = true → ready s → Z.of_nat (length d) <= MAX_SV_BUF_SIZE →
  logs_to (node ← kmem_cache_alloc c; if negb (node : bool) then mret () else svbuf_append q d) s
    [] (encode (q, d)).
Proof.
  intros Hc Hr Hd. destruct (new_node_eq s c Hc Hr) as (k & E & Hr1 & Hc1 & Hw1 & Hv1).
  destruct (svbuf_append_spec (set_kern s k) q d Hr1 Hd) as (s2 & E2 & Hr2 & Hc2 & Hw2 & Hv2).
  exists s2. erewrite bind_Ok; [|exact E]. cbn [negb].
  rewrite app_nil_r, Hw2, Hv2, Hw1, Hv1. split_and!; try done. by etrans.
Qed.

(** NOVA's flush of the buffers. *)
Lemma nova_wbuf_write_all_spec s :
  ready s → ∃ s', NovaRt.trace_wbuf_write_all s = Ok ((), s') ∧ ready s' ∧ same_core s s' ∧
    wr_log s' = wr_log s ∧ sv_log s' = sv_log s ∧ wbuf_list s' = [].
Proof.
  intros Hr. unfold NovaRt.trace_wbuf_write_all. erewrite bind_Ok; [|done].
  destruct (wbuf_list s) as [|b l] eqn:El; [by exists s|].
  destruct (set_lock_fields s true (rd_files _ Hr)) as (Hf1 & _ & _ & _ & Hb1 & _).
  destruct (wbuf_drain_spec (b :: l) (set_lock s true) Hf1) as (s2 & E2 & Hd2 & Hb2 & _);
    [by rewrite Hb1|].
  destruct (under_lock s (wbuf_drain (b :: l)) s2 Hr E2 Hd2) as (s3 & E3 & Hr3 & Hc3 & Hw3 & Hv3 & Hb3 & _).
  exists s3. split_and!; try done; [|by rewrite Hb3].
  unfold trace_lock_lock in *. rewrite bind_assoc in E3 |- *.
  erewrite bind_Ok in E3 |- *; [|done|done]. rewrite (rd_lock _ Hr) in *.
  erewrite bind_Ok in E3 |- *; [|done|done]. erewrite bind_Ok; [|done]. by rewrite Hb1, El.
Qed.
Lemma nova_svbuf_write_all_spec s :
  ready s → ∃ s', NovaRt.trace_svbuf_write_all s = Ok ((), s') ∧ ready s' ∧ same_core s s' ∧
    wr_log s' = wr_log s ∧ sv_log s' = sv_log s ∧ svbuf_list s' = [].
Proof.
  intros Hr. unfold NovaRt.trace_svbuf_write_all. erewrite bind_Ok; [|done].
  destruct (svbuf_list s) as [|b l] eqn:El; [by exists s|].
  destruct (set_lock_fields s true (rd_files _ Hr)) as (Hf1 & _ & _ & _ & _ & Hb1).
  destruct (svbuf_drain_spec (b :: l) (set_lock s true) Hf1) as (s2 & E2 & Hd2 & Hb2 & _);
    [by rewrite Hb1|].
  destruct (under_lock s (svbuf_drain (b :: l)) s2 Hr E2 Hd2)
    as (s3 & E3 & Hr3 & Hc3 & Hw3 & Hv3 & _ & Hb3).
  exists s3. split_and!; try done; [|by rewrite Hb3].
  unfold trace_lock_lock in *. rewrite bind_assoc in E3 |- *.
  erewrite bind_Ok in E3 |- *; [|done|done]. rewrite (rd_lock _ Hr) in *.
  erewrite bind_Ok in E3 |- *; [|done|done]. erewrite bind_Ok; [|done]. by rewrite Hb1, El.
Qed.

(** A record in a buffer of at most 512 bytes. *)
Lemma nova_wbuf_add_logs s buf size :
  ready s → size <= 512 → logs_to (NovaRt.trace_wbuf_add buf size) s (take (Z.to_nat size) buf) [].
Proof.
  intros Hr Hs. unfold NovaRt.trace_wbuf_add, NovaRt.new_trace_wbuf_node. cbv zeta.
  destruct (Z.gtb_spec size 512); [lia|].
  destruct (wbuf_add_logs s _ (take (Z.to_nat size) buf) (rd_wbuf_cache _ Hr) Hr) as (s' & E & ?).
  exists s'. split; [|done]. rewrite bind_assoc. by erewrite bind_Ok; [|done].
Qed.

Lemma svbuf_add_value s cx seq ptr size :
  ready s → 0 <= size →
  logs_to (if size >? MAX_SV_BUF_SIZE then mret () else
    node ← kmem_cache_alloc (trace_svbuf_cachep s);
    if negb (node : bool) then mret () else svbuf_append seq (kread cx ptr size)) s
    [] (encode_all (value_entry cx seq ptr size)).
Proof.
  intros Hr Hsz. unfold value_entry. destruct (Z.gtb_spec size MAX_SV_BUF_SIZE).
  { by apply logs_to_nil. }
  rewrite encode_one. apply svbuf_add_logs; [apply Hr|done|].
  rewrite length_kread. lia.
Qed.

(** Bringing the cache pointer into view. *)
Lemma logs_gets {A} (f : tstate → A) (k : A → T ()) s d e :
  logs_to (k (f s)) s d e → logs_to (a ← gets f; k a) s d e.
Proof using Type. intros (s' & E & ?). exists s'. split; [|done]. by erewrite bind_Ok; [|done]. Qed.

#[export] Instance nova_sink_laws : @SinkLaws _ NovaRt.nova_sink.
Proof.
  split.
  - intros cx seq body s Hr Hfit. simpl. unfold NovaRt.output_record, record_line, fits in *.
    destruct (record_buf cx seq body) as [buf size]. simpl in Hfit.
    destruct (in_atomic cx); [by apply nova_wbuf_add_logs|].
    destruct (nova_wbuf_write_all_spec s Hr) as (s1 & E1 & Hr1 & Hc1 & Hw1 & Hv1 & Hb1).
    destruct (write_file_spec s1 (take (Z.to_nat size) buf) (rd_files _ Hr1)) as (s2 & E2 & Ha2).
    destruct (file_append s1 s2 _ Ha2 Hb1) as [Hw2 Hv2]. destruct Ha2 as (Hf2 & Hc2 & _).
    exists s2. erewrite bind_Ok; [|exact E1]. unfold stack_read.
    destruct (Z.leb_spec size 512); [|lia]. erewrite bind_Ok; [|done].
    rewrite app_nil_r, Hw2, Hv2, Hw1, Hv1. split_and!; try done; [by eapply ready_core|by etrans].
  - intros cx seq ptr size s Hr Hsz. simpl. unfold NovaRt.output_store_value.
    destruct (in_atomic cx).
    { unfold NovaRt.trace_svbuf_add, NovaRt.new_trace_svbuf_node.
      destruct (svbuf_add_value s cx seq ptr size Hr Hsz) as (s' & E & ?).
      exists s'. split; [|done]. rewrite <- E. destruct (_ >? _); [done|].
      rewrite bind_assoc. by erewrite bind_Ok; [|done]. }
    destruct (nova_svbuf_write_all_spec s Hr) as (s1 & E1 & Hr1 & Hc1 & Hw1 & Hv1 & Hb1).
    unfold value_entry. destruct (Z.gtb_spec size MAX_SV_BUF_SIZE) as [Hbig|Hsmall].
    + exists s1. erewrite bind_Ok; [|exact E1]. unfold write_sv_file. cbv zeta.
      rewrite length_kread, Z2Nat.id by lia. destruct (Z.gtb_spec size MAX_SV_BUF_SIZE); [|lia].
      simpl. by rewrite !app_nil_r.
    + destruct (write_sv_file_spec s1 seq (kread cx ptr size) (rd_files _ Hr1)) as (s2 & E2 & Ha2).
      { rewrite length_kread. lia. }
      destruct (sv_file_append s1 s2 _ Ha2 Hb1) as [Hw2 Hv2]. destruct Ha2 as (Hf2 & Hc2 & _).
      exists s2. erewrite bind_Ok; [|exact E1]. rewrite encode_one.
      rewrite app_nil_r, Hw2, Hv2, Hw1, Hv1. split_and!; try done; [by eapply ready_core|by etrans].
Qed.

#[export] Instance pmfs_sink_laws : @SinkLaws _ PmfsRt.pmfs_sink.
Proof.
  split.
  - intros cx seq body s Hr Hfit. simpl. unfold PmfsRt.output_record, record_line, fits in *.
    destruct (record_buf cx seq body) as [buf size]. simpl in Hfit.
    unfold PmfsRt.trace_wbuf_add, PmfsRt.new_trace_wbuf_node. cbv zeta.
    destruct (Z.gtb_spec size 512); [lia|].
    destruct (wbuf_add_logs s _ (take (Z.to_nat size) buf) (rd_wbuf_cache _ Hr) Hr) as (s' & E & ?).
    exists s'. split; [|done]. rewrite bind_assoc. erewrite bind_Ok; [|done].
    by rewrite (rd_wbuf_cache _ Hr) in *.
  - intros cx seq ptr size s Hr Hsz. simpl.
    unfold PmfsRt.output_store_value, PmfsRt.trace_svbuf_add, PmfsRt.new_trace_svbuf_node.
    destruct (svbuf_add_value s cx seq ptr size Hr Hsz) as (s' & E & ?).
    exists s'. split; [|done]. rewrite <- E. destruct (_ >? _); [done|].
    rewrite bind_assoc. erewrite bind_Ok; [|done]. by rewrite (rd_svbuf_cache _ Hr).
Qed.
End Instances.
