(* ===== verification/TracingSpec.v ===== *)
(** * Silhouette: the trace runtime refines an append-only log

    An abstract runtime has no buffers, files or locks: it is a switch, a
    sequence counter and two growing logs.  Every trace function of the real
    runtimes simulates its abstract version, through any sink that keeps
    [SinkLaws] and from any context, atomic or not. *)

From stdpp Require Import base list gmap strings pretty numbers.
From Stdlib Require Import ZArith Lia Ascii.
From coqutil Require Import Byte Word.LittleEndianList.
From S2P Require Import Prelude PMem Tracing TracingApi TracingProofs.

Local Open Scope Z_scope.

(** ** The abstract runtime *)

Record astate := AState {
  on : bool;
  order : Z;
  dax : Z * Z * Z;
  lines : list byte;
  values : list (Z * list byte)
}.

(** What a call outputs: records, and values read from memory. *)
Inductive out_event := ORec (seq : Z) (body : string) | OVal (seq ptr size : Z).

Definition event_line (cx : ctx) (e : out_event) : list byte :=
  match e with ORec seq body => record_line cx seq body | OVal _ _ _ => [] end.
Definition event_value (cx : ctx) (e : out_event) : list (Z * list byte) :=
  match e with ORec _ _ => [] | OVal seq ptr size => value_entry cx seq ptr size end.
Definition event_fits (cx : ctx) (e : out_event) : Prop :=
  match e with ORec seq body => fits cx seq body | OVal _ _ size => 0 <= size end.

Definition emits_all (cx : ctx) (es : list out_event) (a : astate) : astate :=
  AState (on a) (order a) (dax a) (lines a ++ concat (event_line cx <$> es))
    (values a ++ concat (event_value cx <$> es)).
Definition bump_order (n : Z) (a : astate) : astate :=
  AState (on a) (u64 (order a + n)) (dax a) (lines a) (values a).

(** ** The calls of the instrumented code *)

Inductive store_kind := KAsmXchg | KCas | KMemSetNt | KStore | KXchg | KRmw | KMemSet.
Inductive func_kind := KStartFunc | KEndFunc | KStartBB.

Inductive call :=
| CStore (k : store_kind) (seq id ptr size : Z)
| CMemTransfer (seq id dest src size : Z)
| CUaccess (nt : bool) (seq id to from size : Z)
| COldValue (seq ptr size shift : Z)
| CCentFlush (seq id ptr size : Z)
| CFlush (id src : Z)
| CFence (id : Z)
| CImplicitFence (id : Z)
| CUnknownAsm (id : Z) (caller fname : string) (line : Z) (asm : string)
| CFunc (k : func_kind) (id ptr : Z) (name : string)
| CEndBB (id ptr : Z) (name : string)
| CLoad (id ptr size : Z)
| CSelect (id flag : Z)
| CCall (start : bool) (id : Z) (caller callee fname : string) (line : Z)
| CDax (id addr size : Z)
| CPMStruct (id ptr idx size : Z) (stname : string)
| CDramStruct (id ptr idx size : Z) (stname : string)
| CUnknownStruct (id ptr idx size : Z) (stname : string)
| CDbgStore (id ptr : Z) (stname : string) (size : Z).

Section Calls.
Context `{Sink}.

Definition run_call (cx : ctx) (c : call) : T () :=
  match c with
  | CStore KAsmXchg seq id ptr size => trace_inline_asm_xchglq cx seq id ptr size
  | CStore KCas seq id ptr size => trace_inline_asm_cas cx seq id ptr size
  | CStore KMemSetNt seq id ptr size => trace_inline_asm_memsetnt cx seq id ptr size
  | CStore KStore seq id ptr size => trace_store_inst cx seq id ptr size
  | CStore KXchg seq id ptr size => trace_xchg_inst cx seq id ptr size
  | CStore KRmw seq id ptr size => trace_rmw_inst cx seq id ptr size
  | CStore KMemSet seq id ptr size => trace_memset_inst cx seq id ptr size
  | CMemTransfer seq id dest src size => trace_memtransfer_inst cx seq id dest src size
  | CUaccess false seq id to from size => trace_uaccess_calls cx seq id to from size
  | CUaccess true seq id to from size => trace_uaccess_nt_calls cx seq id to from size
  | COldValue seq ptr size shift => trace_old_store_value cx seq ptr size shift
  | CCentFlush seq id ptr size => trace_centralized_flush cx seq id ptr size
  | CFlush id src => trace_inline_asm_flush cx id src
  | CFence id => trace_fence_inst cx id
  | CImplicitFence id => trace_implicit_fence cx id
  | CUnknownAsm id caller fname line asm => trace_inline_asm_unknown cx id caller fname line asm
  | CFunc KStartFunc id ptr name => trace_start_func cx id ptr name
  | CFunc KEndFunc id ptr name => trace_end_func cx id ptr name
  | CFunc KStartBB id ptr name => trace_start_bb cx id ptr name
  | CEndBB id ptr name => trace_end_bb cx id ptr name
  | CLoad id ptr size => trace_load_inst cx id ptr size
  | CSelect id flag => trace_select_inst cx id flag
  | CCall true id caller callee fname line => trace_start_calls cx id caller callee fname line
  | CCall false id caller callee fname line => trace_end_calls cx id caller callee fname line
  | CDax id addr size => trace_dax_access cx id addr size
  | CPMStruct id ptr idx size st => trace_pm_struct_ptr_inst cx id ptr idx size st
  | CDramStruct id ptr idx size st => trace_dram_struct_ptr_inst cx id ptr idx size st
  | CUnknownStruct id ptr idx size st => trace_unknown_struct_ptr_inst cx id ptr idx size st
  | CDbgStore id ptr st size => trace_dbg_var_store cx id ptr st size
  end.
End Calls.

(** ** Their abstract meaning *)

Definition store_name (k : store_kind) : string :=
  match k with
  | KAsmXchg => "asmxchg" | KCas => "cas" | KMemSetNt => "asmmemsetnt" | KStore => "store"
  | KXchg => "xchg" | KRmw => "rmw" | KMemSet => "memset"
  end.
Definition func_name (k : func_kind) : string :=
  match k with KStartFunc => "startFunc" | KEndFunc => "endFunc" | KStartBB => "startBB" end.

(** Calls that draw a sequence number of their own, and are ignored when
    tracing is off; the others carry one, ignored when it is out of range. *)
Definition carried_seq (c : call) : option Z :=
  match c with
  | CStore _ seq _ _ _ | CMemTransfer seq _ _ _ _ | CUaccess _ seq _ _ _ _
  | COldValue seq _ _ _ | CCentFlush seq _ _ _ => Some seq
  | _ => None
  end.

Definition struct_name (a : astate) (ptr size : Z) : string :=
  let '(lo, hi, n) := dax a in
  if negb (lo =? 0) && negb (hi =? 0) && negb (n =? 0) then "UKStructPtr"
  else if (lo >? 0) && (ptr >=? lo) && (u64 (ptr + size) <=? hi) then "PMStructPtr"
  else "DRAMStructPtr".

Definition call_dax (c : call) (d : Z * Z * Z) : Z * Z * Z :=
  match c with
  | CDax _ addr size => (addr, u64 (addr + swrap 64 (size * 4096)), swrap 64 (size * 4096))
  | _ => d
  end.

(** The output of a call that takes effect with sequence number [seq]. *)
Definition call_events (a : astate) (seq : Z) (c : call) : list out_event :=
  match c with
  | CStore k _ id ptr size => [ORec seq (fmt_access (store_name k) id ptr size); OVal seq ptr size]
  | CMemTransfer _ id dest src size =>
      [ORec seq (fmt_access "memtransLoad" id src size);
       ORec (u64 (seq + 1)) (fmt_access "memtransStore" id dest size); OVal (u64 (seq + 1)) dest size]
  | CUaccess nt _ id to from size =>
      if is_user_space_address to then [] else
      let rest := ", from: " +:+ hex from +:+ ", to: " +:+ hex to +:+ fmt_size size +:+ fin in
      [ORec seq (head_id (if nt then "uaccessNTLoad" else "uaccessLoad") id +:+ rest);
       ORec (u64 (seq + 1)) (head_id (if nt then "uaccessNTStore" else "uaccessStore") id +:+ rest);
       OVal (u64 (seq + 1)) to size]
  | COldValue _ ptr size shift =>
      if is_user_space_address ptr then [] else
      [OVal (u64 (u64 (seq + shift) + OLDSV_START_SEQ)) ptr size]
  | CCentFlush _ id ptr size => [ORec seq (fmt_access "centflush" id ptr size)]
  | CFlush id src => [ORec seq (head_id "asmFlush" id +:+ fmt_ptr src +:+ fin)]
  | CFence id => [ORec seq (head_id "asmFence" id +:+ fin)]
  | CImplicitFence id => [ORec seq (head_id "impFence" id +:+ fin)]
  | CUnknownAsm id caller fname line asm =>
      [ORec seq (head_id "ukasm" id +:+ ", caller: " +:+ caller +:+ ", fname: " +:+ fname +:+
         ", line: " +:+ dec line +:+ ", asm: " +:+
         (if (String.length asm <? 400)%nat then asm else "TooLong") +:+ fin)]
  | CFunc k id ptr name => [ORec seq (head_id (func_name k) id +:+ fmt_ptr ptr +:+ ", fn: " +:+ name +:+ fin)]
  | CEndBB id ptr name =>
      [ORec seq (head_id "endBB" id +:+ fmt_ptr ptr +:+ ", fn: " +:+ name +:+
         ", call_id: " +:+ padl 8 (dec 0) +:+ fin)]
  | CLoad id ptr size => [ORec seq (fmt_access "load" id ptr size)]
  | CSelect id flag => [ORec seq (head_id "select" id +:+ ", flag: " +:+ dec flag +:+ fin)]
  | CCall start id caller callee fname line =>
      [ORec seq (head_id (if start then "startCall" else "endCall") id +:+ ", caller: " +:+ caller +:+
         ", callee: " +:+ callee +:+ ", fname: " +:+ fname +:+ ", line: " +:+ dec line +:+ fin)]
  | CDax id addr size =>
      let '(lo, hi, n) := call_dax c (dax a) in
      [ORec seq (head_id "DaxDevInfo" 0 +:+ ", " +:+ hex lo +:+ ", " +:+ hex hi +:+ ", " +:+
         dec (Z.quot n 1048576) +:+ fin)]
  | CPMStruct id ptr idx size st => [ORec seq (struct_body "PMStructPtr" id ptr idx size st)]
  | CDramStruct id ptr idx size st => [ORec seq (struct_body "DRAMStructPtr" id ptr idx size st)]
  | CUnknownStruct id ptr idx size st =>
      [ORec seq (struct_body (struct_name a ptr size) id ptr idx size st)]
  | CDbgStore id ptr st size =>
      [ORec seq (head_id "dbgStore" id +:+ ", type: " +:+ padr 15 st +:+ fmt_ptr ptr +:+
         fmt_size size +:+ fin)]
  end.

(** The events of a call, if it takes effect at all. *)
Definition effective (a : astate) (c : call) : option (list out_event) :=
  match carried_seq c with
  | Some seq => if seq >=? MAX_TRACE_SEQ_NUM then None else Some (call_events a seq c)
  | None => if on a then Some (call_events a (order a) c) else None
  end.

Definition spec_call (cx : ctx) (c : call) (a : astate) : astate :=
  match effective a c with
  | None => a
  | Some es =>
      let a := match carried_seq c with Some _ => a | None => bump_order 1 a end in
      emits_all cx es (AState (on a) (order a) (call_dax c (dax a)) (lines a) (values a))
  end.

(** A call whose records fit the runtime's line buffer. *)
Definition call_ok (cx : ctx) (a : astate) (c : call) : Prop :=
  match effective a c with None => True | Some es => Forall (event_fits cx) es end.

Definition spec_acquire (incby : Z) (a : astate) : Z * astate :=
  if on a then (order a, bump_order incby a) else (MAX_TRACE_SEQ_NUM, a).

(** ** The refinement *)

(** A runtime that is ready presents an abstract state. *)
Record models (s : tstate) (a : astate) : Prop := {
  mo_ready : ready s;
  mo_on : on a = negb (trace_enabled s =? 0);
  mo_order : order a = trace_order_num s;
  mo_dax : dax a = (nvmm_virt_start_addr s, nvmm_virt_end_addr s, nvmm_virt_size s);
  mo_lines : wr_log s = lines a;
  mo_values : sv_log s = encode_all (values a)
}.

Section Refinement.
#[local] Set Default Proof Using "All".
Context `{SinkLaws}.

Definition steps_to (m : T ()) (s : tstate) (a : astate) : Prop :=
  ∃ s', m s = Ok ((), s') ∧ models s' a.

Lemma encode_all_app l1 l2 : encode_all (l1 ++ l2) = encode_all l1 ++ encode_all l2.
Proof using Type. unfold encode_all. by rewrite fmap_app, concat_app. Qed.

(** Output steps the abstract state by its events. *)
Lemma logs_steps m s a cx es :
  models s a →
  logs_to m s (concat (event_line cx <$> es)) (encode_all (concat (event_value cx <$> es))) →
  steps_to m s (emits_all cx es a).
Proof.
  intros [Hr Hon Ho Hd Hl Hv] (s' & E & Hr' & Hc & Hw & Hs). exists s'. split; [done|].
  destruct Hc as (_ & He & Ho' & H1' & H2' & H3' & _). split; cbn; try congruence.
  rewrite Hs, Hv. symmetry. apply encode_all_app.
Qed.

Lemma log_rec cx seq body s :
  ready s → fits cx seq body →
  logs_to (output_record cx seq body) s (concat (event_line cx <$> [ORec seq body]))
    (encode_all (concat (event_value cx <$> [ORec seq body]))).
Proof. intros. simpl. rewrite app_nil_r. by apply output_record_logs. Qed.

Lemma log_val cx seq ptr size s :
  ready s → 0 <= size →
  logs_to (output_store_value cx seq ptr size) s (concat (event_line cx <$> [OVal seq ptr size]))
    (encode_all (concat (event_value cx <$> [OVal seq ptr size]))).
Proof. intros. simpl. rewrite app_nil_r. by apply output_store_value_logs. Qed.

(** Two parts of a call. *)
Lemma log_seq cx m1 m2 s es1 es2 :
  logs_to m1 s (concat (event_line cx <$> es1)) (encode_all (concat (event_value cx <$> es1))) →
  (∀ s', ready s' → same_core s s' →
     logs_to m2 s' (concat (event_line cx <$> es2)) (encode_all (concat (event_value cx <$> es2)))) →
  logs_to (m1;; m2) s (concat (event_line cx <$> (es1 ++ es2)))
    (encode_all (concat (event_value cx <$> (es1 ++ es2)))).
Proof.
  intros H1' H2'. rewrite !fmap_app, !concat_app, encode_all_app. by apply logs_to_seq.
Qed.

Lemma if_traced_eq ptr size k s : if_traced ptr size k s = k s.
Proof using Type. reflexivity. Qed.

Lemma lock_unlock s : trace_lock s = false → set_lock (set_lock s true) false = s.
Proof using Type. destruct s. simpl. by intros ->. Qed.

Lemma unlock_or_return_eq s n :
  ready s → TRACE_UNLOCK_OR_RETURN n s =
  if trace_enabled s =? 0 then Ok (None, s)
  else Ok (Some (trace_order_num s), set_order s (u64 (trace_order_num s + n))).
Proof using Type.
  intros Hr. pose proof (rd_lock _ Hr) as Hl. unfold TRACE_UNLOCK_OR_RETURN, trace_lock_lock.
  rewrite bind_assoc. erewrite bind_Ok; [|done]. rewrite Hl. erewrite bind_Ok; [|done].
  erewrite bind_Ok; [|done]. destruct s. cbn in *. subst. by destruct (trace_enabled =? 0).
Qed.

Lemma models_bump s a n :
  models s a → models (set_order s (u64 (trace_order_num s + n))) (bump_order n a).
Proof using Type.
  intros [[[]] Hon Ho Hd Hl Hv]. destruct s. cbn in *. split; cbn; try done; try (by rewrite Ho).
Qed.

(** A call that draws its own sequence number. *)
Lemma with_seq_off s a k : models s a → on a = false → steps_to (with_seq k) s a.
Proof using Type.
  intros Hm Hon. exists s. split; [|done]. unfold with_seq.
  assert (E1 : TRACE_UNLOCK_OR_RETURN 1 s = Ok (None, s)).
  { rewrite unlock_or_return_eq by apply Hm. rewrite (mo_on _ _ Hm) in Hon.
    by destruct (trace_enabled s =? 0). }
  by erewrite bind_Ok; [|exact E1].
Qed.

Lemma with_seq_on s a k a' :
  models s a → on a = true →
  (∀ s', models s' (bump_order 1 a) → steps_to (k (order a)) s' a') → steps_to (with_seq k) s a'.
Proof using Type.
  intros Hm Hon Hk. destruct (Hk _ (models_bump s a 1 Hm)) as (s' & E & Hm'). exists s'.
  split; [|done]. unfold with_seq. unfold steps_to.
  assert (E1 : TRACE_UNLOCK_OR_RETURN 1 s =
    Ok (Some (order a), set_order s (u64 (trace_order_num s + 1)))).
  { rewrite unlock_or_return_eq by apply Hm. rewrite (mo_on _ _ Hm) in Hon.
    rewrite (mo_order _ _ Hm). by destruct (trace_enabled s =? 0). }
  erewrite bind_Ok; [|exact E1]. done.
Qed.

(** The two shapes of calls: a list of events under a sequence number. *)
Lemma self_call s a cx k c :
  models s a → carried_seq c = None → call_dax c (dax a) = dax a → call_ok cx a c →
  (∀ s', ready s' → Forall (event_fits cx) (call_events a (order a) c) →
     logs_to (k (order a)) s' (concat (event_line cx <$> call_events a (order a) c))
       (encode_all (concat (event_value cx <$> call_events a (order a) c)))) →
  steps_to (with_seq k) s (spec_call cx c a).
Proof.
  intros Hm Hc Hd Hok Hk. unfold spec_call, call_ok, effective in *. rewrite Hc in *.
  destruct (on a) eqn:Hon; [|by apply with_seq_off].
  apply with_seq_on with (a := a); [done|done|]. intros s' Hm'. cbv zeta.
  replace (AState _ _ _ _ _) with (bump_order 1 a) by (cbn; by rewrite Hd).
  apply logs_steps; [done|]. apply Hk; [apply Hm'|done].
Qed.

Lemma carried_call s a cx k c seq :
  models s a → carried_seq c = Some seq → call_dax c (dax a) = dax a → call_ok cx a c →
  (∀ s', ready s' → Forall (event_fits cx) (call_events a seq c) →
     logs_to k s' (concat (event_line cx <$> call_events a seq c))
       (encode_all (concat (event_value cx <$> call_events a seq c)))) →
  steps_to (check_seq seq k) s (spec_call cx c a).
Proof.
  intros Hm Hc Hd Hok Hk. unfold spec_call, call_ok, effective, check_seq in *. rewrite Hc in *.
  destruct (seq >=? MAX_TRACE_SEQ_NUM); [by exists s|]. rewrite Hd.
  replace (AState (on a) (order a) (dax a) (lines a) (values a)) with a by (by destruct a).
  apply logs_steps; [done|]. apply Hk; [apply Hm|done].
Qed.

Lemma call_logs_one cx seq body s :
  ready s → Forall (event_fits cx) [ORec seq body] →
  logs_to (output_record cx seq body) s (concat (event_line cx <$> [ORec seq body]))
    (encode_all (concat (event_value cx <$> [ORec seq body]))).
Proof. intros Hr Hf. apply log_rec; [done|]. by inversion Hf. Qed.

Lemma call_logs_store cx seq b ptr size s :
  ready s → Forall (event_fits cx) [ORec seq b; OVal seq ptr size] →
  logs_to (if_traced ptr size (output_record cx seq b;; output_store_value cx seq ptr size)) s
    (concat (event_line cx <$> [ORec seq b; OVal seq ptr size]))
    (encode_all (concat (event_value cx <$> [ORec seq b; OVal seq ptr size]))).
Proof.
  intros Hr Hf. inversion Hf as [|?? Hb Hf']. inversion Hf' as [|?? Hsz]. subst.
  change (logs_to (output_record cx seq b;; output_store_value cx seq ptr size) s
    (concat (event_line cx <$> ([ORec seq b] ++ [OVal seq ptr size])))
    (encode_all (concat (event_value cx <$> ([ORec seq b] ++ [OVal seq ptr size]))))).
  apply log_seq; [by apply log_rec|]. intros s' Hr' _. by apply log_val.
Qed.

Lemma call_logs_copy cx seq b1 seq2 b2 from to size s :
  ready s → Forall (event_fits cx) [ORec seq b1; ORec seq2 b2; OVal seq2 to size] →
  logs_to (if_traced from size (output_record cx seq b1);;
           if_traced to size (output_record cx seq2 b2;; output_store_value cx seq2 to size)) s
    (concat (event_line cx <$> [ORec seq b1; ORec seq2 b2; OVal seq2 to size]))
    (encode_all (concat (event_value cx <$> [ORec seq b1; ORec seq2 b2; OVal seq2 to size]))).
Proof.
  intros Hr Hf. inversion Hf as [|?? Hb Hf']. subst.
  apply (log_seq cx _ _ s [ORec seq b1] [ORec seq2 b2; OVal seq2 to size]).
  - by apply log_rec.
  - intros s' Hr' _. by apply call_logs_store.
Qed.

Lemma models_nvmm s a lo hi n :
  models s a →
  models (set_nvmm s lo hi n) (AState (on a) (order a) (lo, hi, n) (lines a) (values a)).
Proof using Type. intros [[[]] Hon Ho Hd Hl Hv]. destruct s. cbn in *. by split; cbn. Qed.

Lemma dax_refines s a cx id addr size :
  models s a → call_ok cx a (CDax id addr size) →
  steps_to (trace_dax_access cx id addr size) s (spec_call cx (CDax id addr size) a).
Proof.
  intros Hm Hok. unfold spec_call, call_ok, effective in *. cbn [carried_seq] in *.
  destruct (on a) eqn:Hon; [|by apply with_seq_off].
  apply with_seq_on with (a := a); [done|done|]. intros s' Hm'. cbv zeta.
  set (vs := swrap 64 (size * 4096)) in *. set (ve := u64 (addr + vs)) in *.
  pose proof (models_nvmm s' _ addr ve vs Hm') as Hm2.
  destruct (logs_steps (output_record cx (order a) (head_id "DaxDevInfo" 0 +:+ ", " +:+ hex addr +:+
    ", " +:+ hex ve +:+ ", " +:+ dec (Z.quot vs 1048576) +:+ fin)) _ _ cx
    (call_events a (order a) (CDax id addr size)) Hm2) as (s2 & E & Hm3).
  { apply call_logs_one; [apply Hm2|done]. }
  exists s2. split; [by erewrite bind_Ok; [|done]|]. cbn in Hm3 |- *. by rewrite Hon in Hm3 |- *.
Qed.

Lemma unknown_struct_refines s a cx id ptr idx size st :
  models s a → call_ok cx a (CUnknownStruct id ptr idx size st) →
  steps_to (trace_unknown_struct_ptr_inst cx id ptr idx size st) s
    (spec_call cx (CUnknownStruct id ptr idx size st) a).
Proof.
  intros Hm Hok.
  assert (Hgoal : steps_to (with_seq (λ seq, output_record cx seq
    (struct_body (struct_name a ptr size) id ptr idx size st))) s
    (spec_call cx (CUnknownStruct id ptr idx size st) a)).
  { apply self_call; [done..|]. intros s' Hr' Hf. by apply call_logs_one. }
  destruct Hgoal as (s' & E & Hm'). exists s'. split; [|done]. rewrite <- E.
  unfold trace_unknown_struct_ptr_inst, struct_name. rewrite (mo_dax _ _ Hm).
  erewrite bind_Ok; [|done]. destruct (negb _ && _ && _); [done|].
  unfold check_dest_addr_nvmm. by destruct (_ && _ && _).
Qed.

(** Every trace function refines its abstract meaning. *)
Lemma run_call_refines s a cx c :
  models s a → call_ok cx a c → steps_to (run_call cx c) s (spec_call cx c a).
Proof.
  intros Hm Hok. destruct c as
    [k seq id ptr size|seq id dest src size|nt seq id to from size|seq ptr size shift
    |seq id ptr size|id src|id|id|id caller fname line asm|k id ptr name|id ptr name|id ptr size
    |id flag|start id caller callee fname line|id addr size|id ptr idx size st|id ptr idx size st
    |id ptr idx size st|id ptr st size].
  all: try (apply self_call; [done..|]; intros s' Hr' Hf; by apply call_logs_one).
  - destruct k; (eapply (carried_call _ _ _ _ (CStore _ seq id ptr size)); [done..|]);
      intros s' Hr' Hf; by apply call_logs_store.
  - eapply carried_call; [done..|]. intros s' Hr' Hf. by apply call_logs_copy.
  - destruct nt; (eapply (carried_call _ _ _ _ (CUaccess _ seq id to from size)); [done..|]);
      intros s' Hr' Hf; cbn [call_events] in Hf |- *;
      (destruct (is_user_space_address to); [by apply logs_to_nil|by apply call_logs_copy]).
  - eapply (carried_call _ _ _ _ (COldValue seq ptr size shift)); [done..|].
    intros s' Hr' Hf. cbn [call_events] in Hf |- *.
    destruct (is_user_space_address ptr); [by apply logs_to_nil|].
    apply log_val; [done|]. by inversion Hf.
  - eapply carried_call; [done..|]. intros s' Hr' Hf. by apply call_logs_one.
  - destruct k; (apply (self_call _ _ _ _ (CFunc _ id ptr name)); [done..|]);
      intros s' Hr' Hf; by apply call_logs_one.
  - destruct start; (apply (self_call _ _ _ _ (CCall _ id caller callee fname line)); [done..|]);
      intros s' Hr' Hf; by apply call_logs_one.
  - by apply dax_refines.
  - by apply unknown_struct_refines.
Qed.
End Refinement.
