(* ===== verification/TracingMain.v ===== *)
(** * Silhouette: sessions of the trace runtime

    From the load of the module to its unload: initialisation makes the runtime
    ready, any interleaving of trace calls appends to the logs, PMFS's unload
    writes everything out, NOVA's unload deadlocks on its own lock when a
    buffer is not empty, and a second session runs into the stale pointer
    [close_sv_file] leaves. *)

From stdpp Require Import base list gmap strings pretty numbers.
From Stdlib Require Import ZArith Lia Ascii.
From coqutil Require Import Byte Word.LittleEndianList.
From S2P Require Import Prelude PMem Tracing TracingApi TracingProofs TracingSpec.

Local Open Scope Z_scope.

(** The module just loaded. *)
Definition loaded : tstate :=
  TState false FNull FNull 0 0 0 0 0 0 1 false false [] 0 [] 0 (KState ∅ O [] [] O).

(** Runs a list of calls, each in its own context. *)
Definition run_calls `{Sink} (cs : list (ctx * call)) : T () :=
  foldr (λ '(cx, c) k, run_call cx c;; k) (mret ()) cs.
Definition spec_calls (cs : list (ctx * call)) (a : astate) : astate :=
  foldl (λ a '(cx, c), spec_call cx c a) a cs.
Fixpoint calls_ok (a : astate) (cs : list (ctx * call)) : Prop :=
  match cs with
  | [] => True
  | (cx, c) :: cs => call_ok cx a c ∧ calls_ok (spec_call cx c a) cs
  end.

Lemma on_spec_calls cs a : on (spec_calls cs a) = on a.
Proof.
  revert a. induction cs as [|[cx c] cs IH]; intros a; [done|]. simpl. rewrite IH.
  unfold spec_call. destruct (effective a c); [|done]. by destruct (carried_seq c).
Qed.

Definition fresh : astate := AState true 1 (0, 0, 0) [] [].

Section Session.
#[local] Set Default Proof Using "All".
Context `{Kernel} `{!KernelServes}.

(** The runtime after [trace_init_all]: two files open, both empty. *)
Definition started : tstate :=
  TState false (FOpen 0) (FOpen 1) 0 0 0 0 0 1 1 true true [] 0 [] 0
    (KState {[ 0%nat := WrFile; 1%nat := SvFile ]} 2 [] [] 4).

Lemma init_run : NovaRt.trace_init_all loaded = Ok ((), started).
Proof.
  pose proof (λ t, serves_grant t) as Hg. destruct H as [g w]. cbn in Hg.
  vm_compute. repeat (rewrite Hg; vm_compute). reflexivity.
Qed.

Lemma started_models : models started fresh.
Proof.
  split; try done. split; try done. split; try done; cbn.
  - exists O. by split.
  - by exists 1%nat.
Qed.

(** Runs of calls, from any sink. *)
Lemma run_calls_models `{!Sink} `{!SinkLaws} cs : ∀ s a,
  models s a → calls_ok a cs → ∃ s', run_calls cs s = Ok ((), s') ∧ models s' (spec_calls cs a).
Proof using Type.
  induction cs as [|[cx c] cs IH]; intros s a Hm Hok; [by exists s|].
  destruct Hok as [Hc Hok]. destruct (run_call_refines s a cx c Hm Hc) as (s1 & E1 & Hm1).
  destruct (IH s1 _ Hm1 Hok) as (s2 & E2 & Hm2). exists s2. split; [|done].
  simpl. by erewrite bind_Ok; [|exact E1].
Qed.

Lemma acquire_models `{!Sink} s a n :
  models s a → ∃ s', trace_acquire_sequence n s = Ok (fst (spec_acquire n a), s') ∧
    models s' (snd (spec_acquire n a)).
Proof using Type.
  intros Hm. pose proof Hm as [Hr Hon Ho _ _ _]. unfold trace_acquire_sequence, trace_lock_lock.
  rewrite bind_assoc. erewrite bind_Ok; [|done]. rewrite (rd_lock _ Hr).
  erewrite bind_Ok; [|done]. erewrite bind_Ok; [|done]. unfold spec_acquire. rewrite Hon, Ho.
  assert (Hl : set_lock (set_lock s true) false = s) by (apply lock_unlock, Hr).
  replace (trace_enabled (set_lock s true)) with (trace_enabled s) by (by destruct s).
  destruct (trace_enabled s =? 0); cbn [negb].
  - exists s. split; [|done]. erewrite bind_Ok; [|done]. erewrite bind_Ok; [|done]. by rewrite Hl.
  - pose proof (models_bump s a n Hm) as Hm'. eexists. split; [|exact Hm'].
    erewrite bind_Ok; [|done]. erewrite bind_Ok; [|done]. clear -Hr. destruct Hr as [_ Hl _ _]. destruct s. cbn in *. by subst.
Qed.

(** *** Unloading the module *)

Lemma pmfs_wbuf_flush s :
  files_ok s → ∃ s', PmfsRt.trace_wbuf_write_all true s = Ok ((), s') ∧ drained s s' ∧
    wbuf_list s' = [] ∧ svbuf_list s' = svbuf_list s.
Proof.
  intros Hf. unfold PmfsRt.trace_wbuf_write_all. erewrite bind_Ok; [|done].
  destruct (wbuf_list s) as [|b l] eqn:El; [by exists s|].
  destruct (wbuf_drain_spec (b :: l) s Hf El) as (s' & E & Hd & Hb & Hsb).
  exists s'. split; [|done]. erewrite bind_Ok; [|done]. erewrite bind_Ok; [|done]. rewrite El.
  by erewrite bind_Ok; [|exact E].
Qed.
Lemma pmfs_svbuf_flush s :
  files_ok s → ∃ s', PmfsRt.trace_svbuf_write_all true s = Ok ((), s') ∧ drained s s' ∧
    svbuf_list s' = [] ∧ wbuf_list s' = wbuf_list s.
Proof.
  intros Hf. unfold PmfsRt.trace_svbuf_write_all. erewrite bind_Ok; [|done].
  destruct (svbuf_list s) as [|b l] eqn:El; [by exists s|].
  destruct (svbuf_drain_spec (b :: l) s Hf El) as (s' & E & Hd & Hb & Hsb).
  exists s'. split; [|done]. erewrite bind_Ok; [|done]. erewrite bind_Ok; [|done]. rewrite El.
  by erewrite bind_Ok; [|exact E].
Qed.

(** Closing: both handles go, [sv_filp] keeps its value. *)
Definition closed (s : tstate) (h : nat) : tstate :=
  set_kern s (KState (delete h (handles (kern s))) (next_handle (kern s)) (wr_content (kern s))
    (sv_content (kern s)) (tick (kern s))).

Lemma filp_close_eq s h p :
  handles (kern s) !! h = Some p → filp_close (FOpen h) s = Ok ((), closed s h).
Proof using Type. intros Hh. unfold filp_close. by erewrite bind_Ok; [|by apply file_of_eq]. Qed.

Lemma close_file_eq s h p :
  filp s = FOpen h → handles (kern s) !! h = Some p →
  close_file s = Ok ((), set_filps (closed s h) FNull (sv_filp s)).
Proof using Type.
  intros Hf Hh. unfold close_file. erewrite bind_Ok; [|done]. rewrite Hf.
  rewrite bool_decide_eq_false_2 by done. erewrite bind_Ok; [|by eapply filp_close_eq].
  by destruct s.
Qed.
Lemma close_sv_file_eq s h p :
  sv_filp s = FOpen h → handles (kern s) !! h = Some p →
  close_sv_file s = Ok ((), set_filps (closed s h) FNull (FOpen h)).
Proof using Type.
  intros Hf Hh. unfold close_sv_file. erewrite bind_Ok; [|done]. rewrite Hf.
  rewrite bool_decide_eq_false_2 by done. erewrite bind_Ok; [|by eapply filp_close_eq].
  destruct s. cbn in *. by subst.
Qed.

Lemma output_close_file_eq s h1 h2 :
  filp s = FOpen h1 → sv_filp s = FOpen h2 →
  handles (kern s) !! h1 = Some WrFile → handles (kern s) !! h2 = Some SvFile →
  output_close_file s = Ok ((), set_filps (closed (closed s h1) h2) FNull (FOpen h2)).
Proof using Type.
  intros Hf Hs H1 H2. assert (Hne : h1 ≠ h2) by congruence.
  unfold output_close_file. erewrite bind_Ok; [|by eapply close_file_eq].
  destruct s as [l f sf o so a b c e n wc sc wl wn sl sn k]. cbn in *. subst.
  erewrite close_sv_file_eq; [|done|cbn; by rewrite lookup_delete_ne]. done.
Qed.

Lemma pmfs_destroy_eq s a ret :
  models s a → on a = true → ret ≠ 0 →
  ∃ s', PmfsRt.trace_destroy_all ret s = Ok ((), s') ∧ trace_enabled s' = 0 ∧ trace_lock s' = false ∧
    wbuf_list s' = [] ∧ svbuf_list s' = [] ∧
    wr_content (kern s') = lines a ∧ sv_content (kern s') = encode_all (values a).
Proof.
  intros [Hr Hon _ _ Hw Hv] Ha Hret. pose proof Hr as [Hf Hl _ _].
  rewrite Ha in Hon. unfold PmfsRt.trace_destroy_all, trace_lock_lock.
  rewrite bind_assoc. erewrite bind_Ok; [|done]. rewrite Hl. erewrite bind_Ok; [|done].
  erewrite bind_Ok; [|done]. destruct (Z.eqb_spec ret 0); [done|].
  replace (trace_enabled (set_lock s true)) with (trace_enabled s) by (by destruct s).
  destruct (trace_enabled s =? 0); [done|].
  destruct (set_lock_fields s true Hf) as (Hf1 & Hw1 & Hv1 & _).
  destruct (pmfs_wbuf_flush _ Hf1) as (s2 & E2 & (Hf2 & _ & Hw2 & Hv2) & Hb2 & Hs2).
  erewrite bind_Ok; [|exact E2].
  destruct (pmfs_svbuf_flush s2 Hf2) as (s3 & E3 & (Hf3 & _ & Hw3 & Hv3) & Hs3 & Hb3).
  erewrite bind_Ok; [|exact E3].
  assert (Elog : wr_content (kern s3) = lines a ∧ sv_content (kern s3) = encode_all (values a)).
  { rewrite <- Hw, <- Hv, <- Hw1, <- Hv1, <- Hw2, <- Hv2, <- Hw3, <- Hv3.
    unfold wr_log, sv_log. by rewrite Hs3, Hb3, Hb2, !app_nil_r. }
  rewrite Hb2 in Hb3. clear -Hf3 Hs3 Hb3 Elog. destruct Elog as [Ew Ev].
  destruct Hf3 as [(h1 & Hf & H1) (h2 & Hsf & H2) _ _ _].
  destruct s3 as [l f sf o so x y z e n wc sc wl wn sl sn k]. cbn in *. subst f sf wl sl.
  erewrite bind_Ok; [|done]. erewrite bind_Ok; [|done]. erewrite bind_Ok; [|done].
  erewrite bind_Ok; [|done]. erewrite bind_Ok; [|done]. cbn.
  erewrite bind_Ok; [|by apply output_close_file_eq]. cbn.
  eexists. split; [reflexivity|]. by split_and!.
Qed.

(** NOVA's [trace_destroy_all] takes the lock that the flush takes again. *)
Lemma nova_destroy_stuck s ret :
  trace_lock s = false → trace_enabled s ≠ 0 → ret ≠ 0 →
  wbuf_list s ≠ [] ∨ svbuf_list s ≠ [] → files_ok s → NovaRt.trace_destroy_all ret s = Bug.
Proof using Type.
  intros Hl He Hret Hbuf Hf. unfold NovaRt.trace_destroy_all, trace_lock_lock.
  rewrite bind_assoc. erewrite bind_Ok; [|done]. rewrite Hl. erewrite bind_Ok; [|done].
  erewrite bind_Ok; [|done]. destruct (Z.eqb_spec ret 0); [done|].
  replace (trace_enabled (set_lock s true)) with (trace_enabled s) by (by destruct s).
  destruct (Z.eqb_spec (trace_enabled s) 0); [done|].
  unfold NovaRt.trace_wbuf_write_all, NovaRt.trace_svbuf_write_all, trace_lock_lock.
  destruct (set_lock_fields s true Hf) as (_ & _ & _ & _ & Hb1 & Hs1).
  destruct (wbuf_list s) as [|b l] eqn:Eb.
  - erewrite bind_Ok; [|erewrite bind_Ok; [|done]; by rewrite Hb1].
    destruct (svbuf_list s) as [|e l'] eqn:Es; [by destruct Hbuf|].
    apply bind_Bug. erewrite bind_Ok; [|done]. rewrite Hs1, bind_assoc.
    erewrite bind_Ok; [|done]. destruct s. cbn. done.
  - apply bind_Bug. erewrite bind_Ok; [|done]. rewrite Hb1, bind_assoc.
    erewrite bind_Ok; [|done]. destruct s. cbn. done.
Qed.
End Session.
