(* ===== verification/TraceReader.v ===== *)
(** * Silhouette: the reader of stored values

    [scripts/trace_proc/trace_reader/trace_value_reader.py] parses the file the
    runtime's [write_sv_file] produces: 8 bytes of sequence number, 8 bytes of
    size, the bytes.  Numbers from [OLD_VALUE_SEQ_BASE] on carry the value a
    store overwrote.  Here: the reader, that it terminates on every file, and
    that it reads back exactly what was written. *)

From stdpp Require Import base list gmap.
From Stdlib Require Import ZArith Lia.
From coqutil Require Import Byte Word.LittleEndianList.
From S2P Require Import Prelude PMem Tracing TracingApi TracingProofs TracingSpec.

Local Open Scope Z_scope.

(** ** The reader *)

Record TraceValueEntry := Entry { e_seq : Z; e_size : Z; e_data : list byte }.
Record TraceValueReader := Reader { ov_map : gmap Z TraceValueEntry; sv_map : gmap Z TraceValueEntry }.

Definition OLD_VALUE_SEQ_BASE : Z := 1000000000000.
Definition is_old_value_seq (seq : Z) : bool := seq >=? OLD_VALUE_SEQ_BASE.
Definition conv_to_trace_seq (seq : Z) : Z :=
  if is_old_value_seq seq then seq - OLD_VALUE_SEQ_BASE else seq.

(** Adding an entry; an [assert False] is [Bug]. *)
Definition add_entry (seq size : Z) (data : list byte) (r : TraceValueReader) : result TraceValueReader :=
  if is_old_value_seq seq then
    let seq := conv_to_trace_seq seq in
    if bool_decide (is_Some (ov_map r !! seq)) then Bug
    else Ok (Reader (<[seq := Entry seq size data]> (ov_map r)) (sv_map r))
  else
    if bool_decide (is_Some (sv_map r !! seq)) then Bug
    else Ok (Reader (ov_map r) (<[seq := Entry seq size data]> (sv_map r))).

(** [while True]; [fd.read(n)] returns fewer bytes at the end of the file. *)
Fixpoint read_loop (fuel : nat) (fd : list byte) (r : TraceValueReader) : result TraceValueReader :=
  match fuel with
  | O => OutOfFuel
  | S fuel =>
      let seq_data := take 8 fd in
      let fd := drop 8 fd in
      if (length seq_data =? 0)%nat then Ok r else
      if negb (length seq_data =? 8)%nat then Bug else
      let size_data := take 8 fd in
      let fd := drop 8 fd in
      if negb (length size_data =? 8)%nat then Bug else
      let seq := le_combine seq_data in
      let size := le_combine size_data in
      let data := take (Z.to_nat size) fd in
      match add_entry seq size data r with
      | Ok r => read_loop fuel (drop (Z.to_nat size) fd) r
      | Bug => Bug
      | OutOfFuel => OutOfFuel
      end
  end.
Definition no_values : TraceValueReader := Reader ∅ ∅.
Definition read_from_file (fd : list byte) : result TraceValueReader :=
  read_loop (S (length fd)) fd no_values.

(** ** Termination *)

Lemma read_loop_fuel fuel : ∀ fd r, (length fd < fuel)%nat → read_loop fuel fd r ≠ OutOfFuel.
Proof.
  induction fuel as [|fuel IH]; intros fd r Hf; [lia|]. cbn [read_loop].
  destruct (Nat.eqb_spec (length (take 8 fd)) 0) as [|Hne]; [done|].
  destruct (Nat.eqb_spec (length (take 8 fd)) 8); [|done].
  destruct (Nat.eqb_spec (length (take 8 (drop 8 fd))) 8); [|done]. cbn [negb].
  assert (Hadd : ∀ seq size data, add_entry seq size data r ≠ OutOfFuel).
  { intros. unfold add_entry. by repeat case_match. }
  destruct (add_entry _ _ _ r) as [r'| |] eqn:E; [|done|by apply Hadd in E].
  apply IH. rewrite !length_drop. rewrite length_take in Hne. lia.
Qed.

Lemma read_loop_more fuel : ∀ fuel' fd r,
  (length fd < fuel)%nat → (length fd < fuel')%nat → read_loop fuel fd r = read_loop fuel' fd r.
Proof.
  induction fuel as [|fuel IH]; intros [|fuel'] fd r Hf Hf'; [lia..|]. cbn [read_loop].
  destruct (Nat.eqb_spec (length (take 8 fd)) 0) as [|Hne]; [done|].
  destruct (negb _); [done|]. destruct (negb _); [done|].
  destruct (add_entry _ _ _ r); [|done|done].
  rewrite length_take in Hne. apply IH; rewrite !length_drop; lia.
Qed.

(** ** Reading back *)

Definition valid_value (e : Z * list byte) : Prop :=
  0 <= fst e < 2 ^ 64 ∧ Z.of_nat (length (snd e)) < 2 ^ 64.

(** The entries of a list of values, by kind. *)
Definition stored (vs : list (Z * list byte)) (r : TraceValueReader) : Prop :=
  (∀ q d, 0 <= q → ov_map r !! q = Some (Entry q (Z.of_nat (length d)) d) ↔
     (q + OLD_VALUE_SEQ_BASE, d) ∈ vs) ∧
  (∀ q d, q < OLD_VALUE_SEQ_BASE → sv_map r !! q = Some (Entry q (Z.of_nat (length d)) d) ↔ (q, d) ∈ vs) ∧
  (∀ q e, ov_map r !! q = Some e → e_seq e = q ∧ 0 <= q ∧ e_size e = Z.of_nat (length (e_data e))) ∧
  (∀ q e, sv_map r !! q = Some e → e_seq e = q ∧ q < OLD_VALUE_SEQ_BASE ∧
     e_size e = Z.of_nat (length (e_data e))).

Lemma add_entry_stored vs r q d :
  stored vs r → q ∉ vs.*1 → 0 <= q →
  ∃ r', add_entry q (Z.of_nat (length d)) d r = Ok r' ∧ stored (vs ++ [(q, d)]) r'.
Proof.
  intros (Ho & Hs & Hoe & Hse) Hq Hq0. unfold add_entry, conv_to_trace_seq, is_old_value_seq.
  assert (Hnin : ∀ d', (q, d') ∉ vs) by (intros d' Hin; apply Hq, list_elem_of_fmap; by eexists (q, d')).
  destruct (Z.geb_spec q OLD_VALUE_SEQ_BASE) as [Hb|Hb].
  - destruct (ov_map r !! (q - OLD_VALUE_SEQ_BASE)) as [e|] eqn:E.
    { exfalso. destruct (Hoe _ _ E) as (He1 & He2 & He3). destruct e as [eq es ed]. cbn in *. subst.
      apply Ho in E; [|done]. apply (Hnin ed). by replace q with (q - OLD_VALUE_SEQ_BASE + OLD_VALUE_SEQ_BASE) by lia. }
    rewrite bool_decide_eq_false_2 by (by intros [? ?]). eexists. split; [done|].
    split_and!; cbn.
    + intros q' d' Hq'. rewrite elem_of_app, list_elem_of_singleton.
      destruct (decide (q' = q - OLD_VALUE_SEQ_BASE)) as [->|Hne].
      * rewrite lookup_insert_eq. split.
        { intros [= _ ->]. right. f_equal. lia. }
        intros [Hin|Heq]; [|by simplify_eq].
        exfalso. apply (Hnin d'). by replace q with (q - OLD_VALUE_SEQ_BASE + OLD_VALUE_SEQ_BASE) by lia.
      * rewrite lookup_insert_ne by done. rewrite Ho by done. split; [by left|].
        intros [?|Heq]; [done|]. simplify_eq. lia.
    + intros q' d' Hq'. rewrite elem_of_app, list_elem_of_singleton, Hs by done.
      split; [by left|]. intros [?|Heq]; [done|]. simplify_eq. lia.
    + intros q' e. destruct (decide (q' = q - OLD_VALUE_SEQ_BASE)) as [->|Hne].
      * rewrite lookup_insert_eq. intros [= <-]. cbn. split_and!; [done|lia|done].
      * rewrite lookup_insert_ne by done. apply Hoe.
    + done.
  - destruct (sv_map r !! q) as [e|] eqn:E.
    { exfalso. destruct (Hse _ _ E) as (He1 & He2 & He3). destruct e as [eq es ed]. cbn in *. subst.
      apply Hs in E; [|done]. by apply (Hnin ed). }
    rewrite bool_decide_eq_false_2 by (by intros [? ?]). eexists. split; [done|].
    split_and!; cbn.
    + intros q' d' Hq'. rewrite elem_of_app, list_elem_of_singleton, Ho by done.
      split; [by left|]. intros [?|Heq]; [done|]. simplify_eq. lia.
    + intros q' d' Hq'. rewrite elem_of_app, list_elem_of_singleton.
      destruct (decide (q' = q)) as [->|Hne].
      * rewrite lookup_insert_eq. split; [intros [= _ ->]; by right|].
        intros [Hin|Heq]; [by apply Hnin in Hin|by simplify_eq].
      * rewrite lookup_insert_ne by done. rewrite Hs by done. split; [by left|].
        intros [?|Heq]; [done|]. by simplify_eq.
    + done.
    + intros q' e. destruct (decide (q' = q)) as [->|Hne].
      * rewrite lookup_insert_eq. intros [= <-]. done.
      * rewrite lookup_insert_ne by done. apply Hse.
Qed.

Lemma read_loop_encode vs : ∀ fuel r us,
  stored us r → NoDup (us ++ vs).*1 → Forall valid_value vs → (length (encode_all vs) < fuel)%nat →
  ∃ r', read_loop fuel (encode_all vs) r = Ok r' ∧ stored (us ++ vs) r'.
Proof.
  induction vs as [|[q d] vs IH]; intros fuel r us Hst Hnd Hv Hf.
  { destruct fuel; [simpl in Hf; lia|]. exists r. by rewrite app_nil_r. }
  apply Forall_cons_1 in Hv as [[Hq Hd] Hv]. cbn in Hq, Hd.
  assert (Eenc : encode_all ((q, d) :: vs) =
    bytes_of 8 q ++ bytes_of 8 (Z.of_nat (length d)) ++ d ++ encode_all vs).
  { change (encode_all ((q, d) :: vs)) with (encode (q, d) ++ encode_all vs).
    unfold encode. cbn [fst snd]. by rewrite <- !app_assoc. }
  rewrite Eenc in *. rewrite !length_app, !length_bytes_of in Hf.
  destruct fuel as [|fuel]; [lia|]. cbn [read_loop].
  rewrite !(take_app_length' (bytes_of 8 q)), !(drop_app_length' (bytes_of 8 q)),
    !(take_app_length' (bytes_of 8 (Z.of_nat (length d)))),
    !(drop_app_length' (bytes_of 8 (Z.of_nat (length d)))) by (by rewrite length_bytes_of).
  rewrite !length_bytes_of. cbn [Nat.eqb negb].
  unfold bytes_of. rewrite !le_combine_split, !Z.mod_small by (cbn; lia).
  rewrite Nat2Z.id, take_app_length', drop_app_length' by done.
  rewrite fmap_app in Hnd. pose proof Hnd as (Hnd1 & Hdis & _)%NoDup_app.
  destruct (add_entry_stored us r q d Hst) as (r1 & E1 & Hst1); [|lia|].
  { intros Hin. apply (Hdis q Hin). by left. }
  rewrite E1. destruct (IH fuel r1 (us ++ [(q, d)]) Hst1) as (r2 & E2 & Hst2).
  - by rewrite <- app_assoc, fmap_app.
  - done.
  - lia.
  - exists r2. split; [done|]. by rewrite <- app_assoc in Hst2.
Qed.

Lemma no_values_stored : stored [] no_values.
Proof.
  split_and!; cbn; intros; rewrite ?lookup_empty in *; try done.
  - by rewrite elem_of_nil.
  - by rewrite elem_of_nil.
Qed.

Lemma read_back vs :
  NoDup vs.*1 → Forall valid_value vs → ∃ r, read_from_file (encode_all vs) = Ok r ∧ stored vs r.
Proof.
  intros Hnd Hv. apply (read_loop_encode vs _ _ [] no_values_stored Hnd Hv). lia.
Qed.
