(* ===== verification/TracePass.v ===== *)
(** * Silhouette: instrumented stores, from the pass to the reader

    [codebase/trace/src/Giri/TracingNoGiri.cpp] surrounds every store of the
    file system with calls of the trace runtime.  The calls around one
    instruction are definitions here, named after the visitor that inserts
    them; [cx] is the context before the instruction, [cx'] the one after it.

    End to end: run any sequence of instrumented stores, and the reader of the
    value file finds the bytes each store overwrote and the bytes it wrote. *)

From stdpp Require Import base list gmap strings pretty numbers.
From Stdlib Require Import ZArith Lia Ascii.
From coqutil Require Import Byte Word.LittleEndianList.
From S2P Require Import Prelude PMem Tracing TracingApi TracingProofs TracingSpec TracingMain.
From S2P Require Import TraceReader.

Local Open Scope Z_scope.

Section Pass.
Context `{Sink}.

Definition getTrackSequence (incby : Z) : T Z := trace_acquire_sequence incby.
Definition trackOldStoredValue (cx : ctx) (seq ptr size shift : Z) : T () :=
  trace_old_store_value cx seq ptr size shift.

(** The calls around a store of one sequence number, and around one that is a
    read-modify-write: a fence on either side of the record. *)
Definition around_store (trace : ctx → Z → Z → Z → Z → T ()) (cx cx' : ctx) (id ptr size : Z) : T () :=
  seq ← getTrackSequence 1;
  trackOldStoredValue cx seq ptr size 0;;
  trace cx' seq id ptr size.
Definition around_rmw (trace : ctx → Z → Z → Z → Z → T ()) (cx cx' : ctx) (id ptr size : Z) : T () :=
  seq ← getTrackSequence 1;
  trackOldStoredValue cx seq ptr size 0;;
  trace_implicit_fence cx' id;;
  trace cx' seq id ptr size;;
  trace_implicit_fence cx' id.
(** The calls around a copy: the load and the store have a number each. *)
Definition around_copy (trace : ctx → Z → Z → Z → Z → Z → T ()) (cx cx' : ctx) (id dest src size : Z) : T () :=
  seq ← getTrackSequence 2;
  trackOldStoredValue cx seq dest size 1;;
  trace cx' seq id dest src size.

Definition visitStoreInst := around_store trace_store_inst.
Definition visitMemSetInst := around_store trace_memset_inst.
Definition visitRawMemSetCall := around_store trace_memset_inst.
Definition visitAsmMemSetNT := around_store trace_inline_asm_memsetnt.
(** The size is that of the pointer operand's type: 8 bytes. *)
Definition visitAtomicCmpXchgInst (cx cx' : ctx) (id ptr : Z) : T () :=
  around_rmw trace_xchg_inst cx cx' id ptr 8.
Definition visitAtomicRMWInst (cx cx' : ctx) (id ptr : Z) : T () :=
  around_rmw trace_rmw_inst cx cx' id ptr 8.
Definition visitAsmXchgLQ := around_rmw trace_inline_asm_xchglq.
(** Double compare and swap: the call has ten operands. *)
Definition visitAsmCAS (num_operands : nat) (cx cx' : ctx) (id ptr : Z) : T () :=
  if (num_operands =? 10)%nat then around_rmw trace_inline_asm_cas cx cx' id ptr 16 else mret ().
Definition visitMemTransferInst := around_copy trace_memtransfer_inst.
Definition visitRawMemCpyCall := around_copy trace_memtransfer_inst.
Definition visitUaccessCall := around_copy trace_uaccess_calls.
Definition visitUaccessNTCall := around_copy trace_uaccess_nt_calls.
Definition visitAsmUaccessCall (num_uaccess_funcs : nat) (cx cx' : ctx) (id dest src size : Z) : T () :=
  if (num_uaccess_funcs =? 0)%nat then mret ()
  else around_copy trace_uaccess_calls cx cx' id dest src size.
Definition visitAtomicMemSetInst := around_store trace_memset_inst.
Definition visitAnyMemSetInst := around_store trace_memset_inst.
Definition visitAtomicTransferInst := around_copy trace_memtransfer_inst.
Definition visitAnyMemTransferInst := around_copy trace_memtransfer_inst.

(** Instructions that store nothing: one call, no sequence number of the
    pass's own. *)
Definition visitLoadInst := trace_load_inst.
Definition visitFenceInst := trace_fence_inst.
Definition visitAsmFlush := trace_inline_asm_flush.
Definition visitAsmFence := trace_inline_asm_fence.
Definition visitDaxDirectAccessCall := trace_dax_access.
Definition visitAsmCRC32 (is_pointer : bool) (cx' : ctx) (id ptr length : Z) : T () :=
  if is_pointer then trace_load_inst cx' id ptr length else mret ().
Definition visitRawStrnCmpCall (cx : ctx) (id ptr1 ptr2 size : Z) : T () :=
  trace_load_inst cx id ptr1 size;; trace_load_inst cx id ptr2 size.

(** The size of a centralised flush: the second argument, or a constant the
    name of the caller decides; [None] where the pass asserts. *)
Definition centralized_flush_size (caller_name : string) (args : list Z) : option Z :=
  match args with
  | _ :: size :: _ => Some size
  | _ =>
      if bool_decide (caller_name = "pmfs_mkdir") then Some 32
      else if bool_decide (caller_name = "nova_rebuild_inode_finish")
           || bool_decide (caller_name = "nova_rebuild_file_inode_tree")
           || bool_decide (caller_name = "memcpy_to_pmem_nocache") then Some 120
      else if bool_decide (caller_name = "pmfs_ioctl") then Some 128
      else None
  end.
Definition processCentralizedFlushCall (caller_name : string) (args : list Z) (cx : ctx) (id : Z) : T () :=
  seq ← getTrackSequence 1;
  match args with
  | addr :: _ =>
      match centralized_flush_size caller_name args with
      | Some size => trace_centralized_flush cx seq id addr size
      | None => bug
      end
  | [] => bug
  end.

(** The module's functions: initialisation starts the runtime and stops it
    again when [init] fails; exit stops it. *)
Definition processInitFSFunc (destroy : Z → T ()) (body : T Z) : T Z :=
  NovaRt.trace_init_all;;
  ret ← body;
  destroy ret;;
  mret ret.
Definition processExitFSFunc (destroy : Z → T ()) (body : T ()) : T () :=
  body;; destroy 1.
End Pass.

(** ** Every record of an access fits its buffer *)

Lemma length_app_string s1 s2 : String.length (s1 +:+ s2) = (String.length s1 + String.length s2)%nat.
Proof. induction s1 as [|c s1 IH]; simpl; [done|]. by rewrite IH. Qed.
Lemma length_text s : length (text s) = String.length s.
Proof.
  unfold text, String.list_byte_of_string. rewrite length_map.
  induction s as [|c s IH]; simpl; [done|]. by rewrite IH.
Qed.
Lemma length_spaces n : String.length (spaces n) = n.
Proof.
  induction n as [|n IH]; [done|]. change (spaces (S n)) with (" " +:+ spaces n).
  by rewrite length_app_string, IH.
Qed.
Lemma length_padl n s : String.length (padl n s) = (n `max` String.length s)%nat.
Proof. unfold padl. rewrite length_app_string, length_spaces. lia. Qed.
Lemma length_padr n s : String.length (padr n s) = (n `max` String.length s)%nat.
Proof. unfold padr. rewrite length_app_string, length_spaces. lia. Qed.

Lemma length_pretty_N_go k : ∀ x acc,
  (x < 10 ^ N.of_nat k)%N → (String.length (pretty_N_go x acc) <= k + String.length acc)%nat.
Proof.
  induction k as [|k IH]; intros x acc Hx.
  - replace x with 0%N by (simpl in Hx; lia). by rewrite pretty_N_go_0.
  - destruct (decide (x = 0)%N) as [->|Hne]; [rewrite pretty_N_go_0; lia|].
    rewrite pretty_N_go_step by lia. etrans; [apply IH|simpl; lia].
    apply N.Div0.div_lt_upper_bound. rewrite Nat2N.inj_succ, N.pow_succ_r' in Hx. lia.
Qed.

Lemma length_dec n k : (1 <= k)%nat → 0 <= n < 10 ^ Z.of_nat k → (String.length (dec n) <= k)%nat.
Proof.
  intros Hk Hn. unfold dec, pretty, pretty_Z. destruct n as [|p|p]; [simpl; lia| |lia].
  unfold pretty, pretty_positive, pretty, pretty_N. rewrite decide_False by done.
  etrans; [apply (length_pretty_N_go k)|simpl; lia].
  apply N2Z.inj_lt. rewrite N2Z.inj_pow. rewrite nat_N_Z. exact (proj2 Hn).
Qed.

Lemma length_hex_go fuel : ∀ n acc,
  (String.length (hex_go fuel n acc) <= fuel + String.length acc)%nat.
Proof.
  induction fuel as [|fuel IH]; intros n acc; cbn [hex_go]; [lia|].
  destruct (_ =? 0); [simpl; lia|]. etrans; [apply IH|]. simpl. lia.
Qed.
Lemma length_hex n : (String.length (hex n) <= 18)%nat.
Proof.
  unfold hex. rewrite length_app_string. pose proof (length_hex_go 16 n "") as Hl. cbn [String.length] in Hl |- *. lia.
Qed.

(** Contexts and numbers as the hardware has them. *)
Definition ctx_ok (cx : ctx) : Prop := 0 <= pid cx < 2 ^ 31.

Lemma record_fits cx seq body :
  ctx_ok cx → 0 <= seq < 2 ^ 64 → (String.length body <= 470)%nat → fits cx seq body.
Proof.
  intros Hcx Hseq Hb. unfold fits, record_buf. cbn [snd].
  rewrite !length_text, !length_app_string, !length_padl.
  pose proof (length_dec seq 20 ltac:(lia) ltac:(cbn; lia)).
  pose proof (length_dec (pid cx) 10 ltac:(lia) ltac:(unfold ctx_ok in Hcx; cbn; lia)).
  cbn [String.length]. lia.
Qed.

Lemma access_fits cx seq kind id ptr size :
  ctx_ok cx → 0 <= seq < 2 ^ 64 → (String.length kind <= 15)%nat → 0 <= id < 2 ^ 32 →
  0 <= size < 2 ^ 64 → fits cx seq (fmt_access kind id ptr size).
Proof.
  intros Hcx Hseq Hk Hid Hsz. apply record_fits; [done|done|].
  unfold fmt_access, head_id, fmt_ptr, fmt_size, fin, nl.
  rewrite !length_app_string, !length_padl, length_padr.
  pose proof (length_dec id 10 ltac:(lia) ltac:(cbn; lia)).
  pose proof (length_dec size 20 ltac:(lia) ltac:(cbn; lia)).
  pose proof (length_hex ptr). cbn [String.length]. lia.
Qed.

Lemma head_fits cx seq kind id :
  ctx_ok cx → 0 <= seq < 2 ^ 64 → (String.length kind <= 15)%nat → 0 <= id < 2 ^ 32 →
  fits cx seq (head_id kind id +:+ fin).
Proof.
  intros Hcx Hseq Hk Hid. apply record_fits; [done|done|]. unfold head_id, fin, nl.
  rewrite !length_app_string, !length_padl, length_padr.
  pose proof (length_dec id 10 ltac:(lia) ltac:(cbn; lia)). cbn [String.length]. lia.
Qed.
Lemma head_ptr_fits cx seq kind id ptr :
  ctx_ok cx → 0 <= seq < 2 ^ 64 → (String.length kind <= 15)%nat → 0 <= id < 2 ^ 32 →
  fits cx seq (head_id kind id +:+ fmt_ptr ptr +:+ fin).
Proof.
  intros Hcx Hseq Hk Hid. apply record_fits; [done|done|]. unfold head_id, fmt_ptr, fin, nl.
  rewrite !length_app_string, !length_padl, length_padr. pose proof (length_hex ptr).
  pose proof (length_dec id 10 ltac:(lia) ltac:(cbn; lia)). cbn [String.length]. lia.
Qed.

Lemma uaccess_fits cx seq kind id from to size :
  ctx_ok cx → 0 <= seq < 2 ^ 64 → (String.length kind <= 15)%nat → 0 <= id < 2 ^ 32 →
  0 <= size < 2 ^ 64 →
  fits cx seq (head_id kind id +:+ ", from: " +:+ hex from +:+ ", to: " +:+ hex to +:+ fmt_size size +:+ fin).
Proof.
  intros Hcx Hseq Hk Hid Hsz. apply record_fits; [done|done|].
  unfold head_id, fmt_size, fin, nl.
  rewrite !length_app_string, !length_padl, length_padr.
  pose proof (length_dec id 10 ltac:(lia) ltac:(cbn; lia)).
  pose proof (length_dec size 20 ltac:(lia) ltac:(cbn; lia)).
  pose proof (length_hex from). pose proof (length_hex to). cbn [String.length]. lia.
Qed.

(** Picks the lemma by the shape of the record. *)
Ltac fits :=
  lazymatch goal with
  | |- fits _ _ (fmt_access _ _ _ _) => apply access_fits
  | |- fits _ _ (head_id _ _ +:+ ", from: " +:+ _) => apply uaccess_fits
  | |- fits _ _ (head_id _ _ +:+ fin) => apply head_fits
  | |- fits _ _ (head_id _ _ +:+ fmt_ptr _ +:+ fin) => apply head_ptr_fits
  end; try done; try lia.

(** ** Runs of instrumented instructions *)

Inductive instr :=
| IStore (k : store_kind) (id ptr size : Z)             (* one record *)
| IRmwLike (k : store_kind) (id ptr size : Z)           (* with fences around it *)
| ICopy (k : option bool) (id dest src size : Z).       (* memcpy, or uaccess (nt?) *)

(** The instructions the pass distinguishes. *)
Definition i_store := IStore KStore.
Definition i_memset := IStore KMemSet.
Definition i_memset_nt := IStore KMemSetNt.
Definition i_cmpxchg (id ptr : Z) := IRmwLike KXchg id ptr 8.
Definition i_rmw (id ptr : Z) := IRmwLike KRmw id ptr 8.
Definition i_xchglq := IRmwLike KAsmXchg.
Definition i_cas (id ptr : Z) := IRmwLike KCas id ptr 16.
Definition i_memtransfer := ICopy None.
Definition i_uaccess := ICopy (Some false).
Definition i_uaccess_nt := ICopy (Some true).

Definition copy_call (k : option bool) (seq id dest src size : Z) : call :=
  match k with
  | None => CMemTransfer seq id dest src size
  | Some nt => CUaccess nt seq id dest src size
  end.

Definition i_ptr (i : instr) : Z :=
  match i with IStore _ _ ptr _ | IRmwLike _ _ ptr _ => ptr | ICopy _ _ dest _ _ => dest end.
Definition i_size (i : instr) : Z :=
  match i with IStore _ _ _ n | IRmwLike _ _ _ n | ICopy _ _ _ _ n => n end.
Definition i_id (i : instr) : Z :=
  match i with IStore _ id _ _ | IRmwLike _ id _ _ | ICopy _ id _ _ _ => id end.
(** The shift of the store's own number, and how many numbers are drawn. *)
Definition i_shift (i : instr) : Z := match i with ICopy _ _ _ _ _ => 1 | _ => 0 end.
Definition i_used (i : instr) : Z :=
  match i with IStore _ _ _ _ => 1 | IRmwLike _ _ _ _ => 3 | ICopy _ _ _ _ _ => 2 end.

Section Runs.
Context `{SinkLaws}.

Definition run_instr (cx cx' : ctx) (i : instr) : T () :=
  match i with
  | IStore k id ptr size =>
      around_store (λ cx seq id ptr size, run_call cx (CStore k seq id ptr size)) cx cx' id ptr size
  | IRmwLike k id ptr size =>
      around_rmw (λ cx seq id ptr size, run_call cx (CStore k seq id ptr size)) cx cx' id ptr size
  | ICopy k id dest src size =>
      around_copy (λ cx seq id dest src size, run_call cx (copy_call k seq id dest src size))
        cx cx' id dest src size
  end.

(** These are the visitors. *)
Lemma run_instr_visitors cx cx' id ptr dest src size :
  run_instr cx cx' (i_store id ptr size) = visitStoreInst cx cx' id ptr size ∧
  run_instr cx cx' (i_memset id ptr size) = visitMemSetInst cx cx' id ptr size ∧
  run_instr cx cx' (i_memset_nt id ptr size) = visitAsmMemSetNT cx cx' id ptr size ∧
  run_instr cx cx' (i_cmpxchg id ptr) = visitAtomicCmpXchgInst cx cx' id ptr ∧
  run_instr cx cx' (i_rmw id ptr) = visitAtomicRMWInst cx cx' id ptr ∧
  run_instr cx cx' (i_xchglq id ptr size) = visitAsmXchgLQ cx cx' id ptr size ∧
  run_instr cx cx' (i_cas id ptr) = visitAsmCAS 10 cx cx' id ptr ∧
  run_instr cx cx' (i_memtransfer id dest src size) = visitMemTransferInst cx cx' id dest src size ∧
  run_instr cx cx' (i_uaccess id dest src size) = visitUaccessCall cx cx' id dest src size ∧
  run_instr cx cx' (i_uaccess_nt id dest src size) = visitUaccessNTCall cx cx' id dest src size.
Proof. by split_and!. Qed.

Record instr_ok (cx cx' : ctx) (i : instr) : Prop := {
  io_before : ctx_ok cx;
  io_after : ctx_ok cx';
  io_id : 0 <= i_id i < 2 ^ 32;
  io_ptr : 2 ^ 63 <= i_ptr i < 2 ^ 64;       (* kernel space *)
  io_size : 0 <= i_size i <= MAX_SV_BUF_SIZE
}.

(** A call that takes effect, with its output. *)
Lemma effective_step s a cx c es :
  models s a → effective a c = Some es → Forall (event_fits cx) es →
  ∃ s' a', run_call cx c s = Ok ((), s') ∧ models s' a' ∧
    values a' = values a ++ concat (event_value cx <$> es) ∧ on a' = on a ∧
    order a' = match carried_seq c with Some _ => order a | None => u64 (order a + 1) end.
Proof using Type*.
  intros Hm He Hf. destruct (run_call_refines s a cx c Hm) as (s' & E & Hm').
  { unfold call_ok. by rewrite He. }
  exists s', (spec_call cx c a). split_and!; try done; unfold spec_call; rewrite He;
    by destruct (carried_seq c).
Qed.

Lemma value_entry_small cx seq ptr size :
  size <= MAX_SV_BUF_SIZE → value_entry cx seq ptr size = [(seq, kread cx ptr size)].
Proof. intros Hs. unfold value_entry. by destruct (Z.gtb_spec size MAX_SV_BUF_SIZE); [lia|]. Qed.

Lemma kernel_address ptr : 2 ^ 63 <= ptr < 2 ^ 64 → is_user_space_address ptr = false.
Proof.
  intros Hp. unfold is_user_space_address. rewrite wrap_small by lia.
  by destruct (Z.ltb_spec ptr (2 ^ 63)); [lia|].
Qed.

(** The old value: its number is [OLDSV_START_SEQ] above the store's. *)
Lemma old_value_step s a cx seq ptr size shift :
  models s a → 0 <= seq → 0 <= shift → seq + shift < OLDSV_START_SEQ → 2 ^ 63 <= ptr < 2 ^ 64 →
  0 <= size <= MAX_SV_BUF_SIZE →
  ∃ s' a', trace_old_store_value cx seq ptr size shift s = Ok ((), s') ∧ models s' a' ∧
    values a' = values a ++ [(seq + shift + OLDSV_START_SEQ, kread cx ptr size)] ∧
    on a' = on a ∧ order a' = order a.
Proof using Type*.
  unfold OLDSV_START_SEQ. intros Hm H0' H1' Hlt Hp Hs.
  destruct (effective_step s a cx (COldValue seq ptr size shift)
    [OVal (seq + shift + 1000000000000) ptr size] Hm) as (s' & a' & E & Hm' & Hv & Hon & Ho).
  - unfold effective. cbn [carried_seq]. unfold MAX_TRACE_SEQ_NUM.
    destruct (Z.geb_spec seq 2000000000000); [lia|]. unfold call_events, OLDSV_START_SEQ.
    rewrite kernel_address by done.
    by rewrite (wrap_small 64 (seq + shift)), wrap_small by lia.
  - repeat constructor. cbn. lia.
  - exists s', a'. split_and!; try done. rewrite Hv. cbn. by rewrite value_entry_small, app_nil_r by lia.
Qed.

Lemma store_step s a cx k seq id ptr size :
  models s a → ctx_ok cx → 0 <= seq < OLDSV_START_SEQ → 0 <= id < 2 ^ 32 →
  0 <= size <= MAX_SV_BUF_SIZE →
  ∃ s' a', run_call cx (CStore k seq id ptr size) s = Ok ((), s') ∧ models s' a' ∧
    values a' = values a ++ [(seq, kread cx ptr size)] ∧ on a' = on a ∧ order a' = order a.
Proof using Type*.
  unfold OLDSV_START_SEQ, MAX_SV_BUF_SIZE. intros Hm Hcx Hseq Hid Hs.
  destruct (effective_step s a cx (CStore k seq id ptr size)
    [ORec seq (fmt_access (store_name k) id ptr size); OVal seq ptr size] Hm)
    as (s' & a' & E & Hm' & Hv & Hon & Ho).
  - unfold effective. cbn [carried_seq]. unfold MAX_TRACE_SEQ_NUM.
    by destruct (Z.geb_spec seq 2000000000000); [lia|].
  - repeat constructor; cbn; [|lia]. fits. destruct k; cbn; lia.
  - exists s', a'. split_and!; try done. rewrite Hv. cbn.
    by rewrite value_entry_small, app_nil_r by (unfold MAX_SV_BUF_SIZE; lia).
Qed.

Lemma fence_step s a cx id :
  models s a → ctx_ok cx → on a = true → 0 <= order a < OLDSV_START_SEQ → 0 <= id < 2 ^ 32 →
  ∃ s' a', trace_implicit_fence cx id s = Ok ((), s') ∧ models s' a' ∧
    values a' = values a ∧ on a' = true ∧ order a' = order a + 1.
Proof using Type*.
  unfold OLDSV_START_SEQ. intros Hm Hcx Hon Ho Hid.
  destruct (effective_step s a cx (CImplicitFence id) [ORec (order a) (head_id "impFence" id +:+ fin)] Hm)
    as (s' & a' & E & Hm' & Hv & Hon' & Ho').
  - unfold effective. cbn [carried_seq]. by rewrite Hon.
  - repeat constructor. apply head_fits; [done|lia|cbn; lia|done].
  - exists s', a'. split_and!; try done; [by rewrite Hv; cbn; rewrite app_nil_r|congruence|].
    rewrite Ho'. cbn. rewrite wrap_small; lia.
Qed.

Lemma copy_step s a cx k seq id dest src size :
  models s a → ctx_ok cx → 0 <= seq → seq + 1 < OLDSV_START_SEQ → 0 <= id < 2 ^ 32 →
  2 ^ 63 <= dest < 2 ^ 64 → 0 <= size <= MAX_SV_BUF_SIZE →
  ∃ s' a', run_call cx (copy_call k seq id dest src size) s = Ok ((), s') ∧ models s' a' ∧
    values a' = values a ++ [(seq + 1, kread cx dest size)] ∧ on a' = on a ∧ order a' = order a.
Proof using Type*.
  unfold OLDSV_START_SEQ, MAX_SV_BUF_SIZE. intros Hm Hcx Hseq Hlt Hid Hd Hs.
  assert (Heff : ∃ b1 b2, effective a (copy_call k seq id dest src size) =
      Some [ORec seq b1; ORec (seq + 1) b2; OVal (seq + 1) dest size] ∧
    fits cx seq b1 ∧ fits cx (seq + 1) b2 ∧ carried_seq (copy_call k seq id dest src size) = Some seq).
  { unfold effective, MAX_TRACE_SEQ_NUM. destruct k as [nt|]; cbn [copy_call carried_seq call_events];
      rewrite ?kernel_address by done; rewrite (wrap_small 64) by lia;
      (destruct (Z.geb_spec seq 2000000000000); [lia|]); eexists _, _; (split; [done|]);
      split_and!; try done; fits; try (destruct nt); cbn; lia. }
  destruct Heff as (b1 & b2 & Heff & F1 & F2 & Hc).
  destruct (effective_step s a cx _ _ Hm Heff) as (s' & a' & E & Hm' & Hv & Hon & Ho).
  { repeat constructor; cbn; try done; lia. }
  exists s', a'. rewrite Hc in Ho. split_and!; try done. rewrite Hv. cbn.
  by rewrite value_entry_small, app_nil_r by (unfold MAX_SV_BUF_SIZE; lia).
Qed.

(** What an instruction leaves in the value log: before and after. *)
Definition i_values (cx cx' : ctx) (q : Z) (i : instr) : list (Z * list byte) :=
  [(q + i_shift i + OLDSV_START_SEQ, kread cx (i_ptr i) (i_size i));
   (q + i_shift i, kread cx' (i_ptr i) (i_size i))].

Definition instr_effect (s : tstate) (a : astate) (cx cx' : ctx) (i : instr) : Prop :=
  ∃ s' a', run_instr cx cx' i s = Ok ((), s') ∧ models s' a' ∧ on a' = true ∧
    order a' = order a + i_used i ∧ values a' = values a ++ i_values cx cx' (order a) i.

(** Drawing the numbers. *)
Lemma acquire_step s a n :
  models s a → on a = true → 0 <= order a → 0 <= n → order a + n <= OLDSV_START_SEQ →
  ∃ s' a', getTrackSequence n s = Ok (order a, s') ∧ models s' a' ∧
    values a' = values a ∧ on a' = true ∧ order a' = order a + n.
Proof using All.
  intros Hm Hon H0' Hn Hle. destruct (acquire_models s a n Hm) as (s' & E & Hm').
  unfold spec_acquire in E, Hm'. rewrite Hon in E, Hm'. cbn in E, Hm'.
  unfold OLDSV_START_SEQ in Hle.
  exists s', (bump_order n a). split_and!; try done. cbn. rewrite wrap_small; lia.
Qed.

Lemma istore_models s a cx cx' k id ptr size :
  models s a → on a = true → 0 <= order a → order a + 1 <= OLDSV_START_SEQ →
  instr_ok cx cx' (IStore k id ptr size) → instr_effect s a cx cx' (IStore k id ptr size).
Proof using Type*.
  intros Hm Hon H0' Hle [Hc Hc' Hid Hp Hs]. cbn in *.
  destruct (acquire_step s a 1 Hm) as (s1 & a1 & E1 & Hm1 & Hv1 & Hon1 & Ho1); [done|lia..|].
  destruct (old_value_step s1 a1 cx (order a) ptr size 0 Hm1) as (s2 & a2 & E2 & Hm2 & Hv2 & Hon2 & Ho2);
    [lia..|].
  destruct (store_step s2 a2 cx' k (order a) id ptr size Hm2 Hc') as (s3 & a3 & E3 & Hm3 & Hv3 & Hon3 & Ho3);
    [lia..|].
  exists s3, a3. split_and!; [|done|congruence|cbn; lia|].
  - cbn [run_instr]. unfold around_store. erewrite bind_Ok; [|exact E1].
    by erewrite bind_Ok; [|exact E2].
  - unfold i_values. cbn [i_shift i_ptr i_size]. by rewrite Hv3, Hv2, Hv1, <- app_assoc, Z.add_0_r.
Qed.

Lemma irmw_models s a cx cx' k id ptr size :
  models s a → on a = true → 0 <= order a → order a + 3 <= OLDSV_START_SEQ →
  instr_ok cx cx' (IRmwLike k id ptr size) → instr_effect s a cx cx' (IRmwLike k id ptr size).
Proof using Type*.
  intros Hm Hon H0' Hle [Hc Hc' Hid Hp Hs]. cbn in *.
  destruct (acquire_step s a 1 Hm) as (s1 & a1 & E1 & Hm1 & Hv1 & Hon1 & Ho1); [done|lia..|].
  destruct (old_value_step s1 a1 cx (order a) ptr size 0 Hm1) as (s2 & a2 & E2 & Hm2 & Hv2 & Hon2 & Ho2);
    [lia..|]. rewrite Hon1 in Hon2.
  destruct (fence_step s2 a2 cx' id Hm2 Hc') as (s3 & a3 & E3 & Hm3 & Hv3 & Hon3 & Ho3); [done|lia..|].
  destruct (store_step s3 a3 cx' k (order a) id ptr size Hm3 Hc') as (s4 & a4 & E4 & Hm4 & Hv4 & Hon4 & Ho4);
    [lia..|]. rewrite Hon3 in Hon4.
  destruct (fence_step s4 a4 cx' id Hm4 Hc') as (s5 & a5 & E5 & Hm5 & Hv5 & Hon5 & Ho5); [done|lia..|].
  exists s5, a5. split_and!; [|done|done|cbn; lia|].
  - cbn [run_instr]. unfold around_rmw. erewrite bind_Ok; [|exact E1].
    erewrite bind_Ok; [|exact E2]. erewrite bind_Ok; [|exact E3]. by erewrite bind_Ok; [|exact E4].
  - unfold i_values. cbn [i_shift i_ptr i_size].
    by rewrite Hv5, Hv4, Hv3, Hv2, Hv1, <- app_assoc, Z.add_0_r.
Qed.

Lemma icopy_models s a cx cx' k id dest src size :
  models s a → on a = true → 0 <= order a → order a + 2 <= OLDSV_START_SEQ →
  instr_ok cx cx' (ICopy k id dest src size) → instr_effect s a cx cx' (ICopy k id dest src size).
Proof using Type*.
  intros Hm Hon H0' Hle [Hc Hc' Hid Hp Hs]. cbn in *.
  destruct (acquire_step s a 2 Hm) as (s1 & a1 & E1 & Hm1 & Hv1 & Hon1 & Ho1); [done|lia..|].
  destruct (old_value_step s1 a1 cx (order a) dest size 1 Hm1) as (s2 & a2 & E2 & Hm2 & Hv2 & Hon2 & Ho2);
    [lia..|].
  destruct (copy_step s2 a2 cx' k (order a) id dest src size Hm2 Hc') as (s3 & a3 & E3 & Hm3 & Hv3 & Hon3 & Ho3);
    [lia..|].
  exists s3, a3. split_and!; [|done|congruence|cbn; lia|].
  - cbn [run_instr]. unfold around_copy. erewrite bind_Ok; [|exact E1].
    by erewrite bind_Ok; [|exact E2].
  - unfold i_values. cbn [i_shift i_ptr i_size]. by rewrite Hv3, Hv2, Hv1, <- app_assoc.
Qed.

Lemma instr_models s a cx cx' i :
  models s a → on a = true → 0 <= order a → order a + i_used i <= OLDSV_START_SEQ →
  instr_ok cx cx' i → instr_effect s a cx cx' i.
Proof using Type*. destruct i; [apply istore_models|apply irmw_models|apply icopy_models]. Qed.

(** *** Sequences of instructions *)

Definition step : Type := ctx * ctx * instr.
Definition run_instrs (xs : list step) : T () :=
  foldr (λ '(cx, cx', i) k, run_instr cx cx' i;; k) (mret ()) xs.
Definition used (xs : list step) : Z := foldr (λ '(_, _, i) n, i_used i + n) 0 xs.
Definition step_ok (x : step) : Prop := let '(cx, cx', i) := x in instr_ok cx cx' i.
Fixpoint all_values (q : Z) (xs : list step) : list (Z * list byte) :=
  match xs with
  | [] => []
  | (cx, cx', i) :: xs => i_values cx cx' q i ++ all_values (q + i_used i) xs
  end.

Lemma i_used_pos i : 0 < i_used i.
Proof using Type. destruct i; simpl; lia. Qed.
Lemma used_nonneg xs : 0 <= used xs.
Proof using Type.
  induction xs as [|[[cx cx'] i] xs IH]; simpl; [lia|]. pose proof (i_used_pos i). lia.
Qed.

Lemma run_instrs_models xs : ∀ s a,
  models s a → on a = true → 0 <= order a → order a + used xs <= OLDSV_START_SEQ → Forall step_ok xs →
  ∃ s' a', run_instrs xs s = Ok ((), s') ∧ models s' a' ∧ on a' = true ∧
    order a' = order a + used xs ∧ values a' = values a ++ all_values (order a) xs.
Proof using Type*.
  induction xs as [|[[cx cx'] i] xs IH]; intros s a Hm Hon H0' Hle Hok.
  { exists s, a. split_and!; try done; simpl; [lia|by rewrite app_nil_r]. }
  apply Forall_cons_1 in Hok as [Hi Hok]. simpl in Hle.
  pose proof (i_used_pos i). pose proof (used_nonneg xs).
  destruct (instr_models s a cx cx' i Hm Hon H0') as (s1 & a1 & E1 & Hm1 & Hon1 & Ho1 & Hv1);
    [lia|done|].
  destruct (IH s1 a1 Hm1 Hon1) as (s2 & a2 & E2 & Hm2 & Hon2 & Ho2 & Hv2); [lia|lia|done|].
  exists s2, a2. split_and!; try done.
  - simpl. by erewrite bind_Ok; [|exact E1].
  - simpl. lia.
  - by rewrite Hv2, Hv1, <- app_assoc, Ho1.
Qed.

(** The numbers of the values are distinct. *)
Lemma all_values_range xs : ∀ q e, e ∈ all_values q xs → 0 <= q → q + used xs <= OLDSV_START_SEQ →
  (q <= fst e < q + used xs ∨ q <= fst e - OLDSV_START_SEQ < q + used xs).
Proof using Type.
  induction xs as [|[[cx cx'] i] xs IH]; intros q e He Hq Hle; simpl in *; [by apply elem_of_nil in He|].
  pose proof (used_nonneg xs). rewrite !elem_of_cons in He. destruct He as [->|[->|He]].
  - cbn; destruct i; simpl in *; lia.
  - cbn; destruct i; simpl in *; lia.
  - pose proof (i_used_pos i). destruct (IH _ _ He); lia.
Qed.

Lemma all_values_nodup xs : ∀ q, 0 <= q → q + used xs <= OLDSV_START_SEQ → NoDup (all_values q xs).*1.
Proof using Type.
  induction xs as [|[[cx cx'] i] xs IH]; intros q Hq Hle; simpl in *; [constructor|].
  pose proof (used_nonneg xs). pose proof (i_used_pos i).
  assert (Hnin : ∀ z, (z = q + i_shift i ∨ z = q + i_shift i + OLDSV_START_SEQ) →
    z ∉ (all_values (q + i_used i) xs).*1).
  { intros z Hz (e & -> & He)%list_elem_of_fmap.
    assert (i_shift i < i_used i ∧ 0 <= i_shift i) by (destruct i; simpl; lia).
    destruct (all_values_range _ _ _ He); lia. }
  constructor; [|constructor].
  - rewrite elem_of_cons. intros [Heq|Hin]; [unfold OLDSV_START_SEQ in Heq; lia|].
    by apply (Hnin _ (or_intror eq_refl)).
  - apply Hnin. by left.
  - apply IH; lia.
Qed.
End Runs.
