(* ===== verification/TraceMain.v ===== *)
(** * Silhouette: what the trace guarantees

    The theorems of the trace: every instrumented store's bytes before and
    after are in the value file of a PMFS session, record by record the
    runtimes refine two append-only logs, access records fit their buffer,
    sequence numbers never collide, and NOVA's unload deadlocks exactly when a
    buffer still holds something. *)

From stdpp Require Import base list gmap strings pretty numbers.
From Stdlib Require Import ZArith Lia Ascii.
From coqutil Require Import Byte Word.LittleEndianList.
From S2P Require Import Prelude PMem Tracing TracingApi TracingProofs TracingSpec TracingMain.
From S2P Require Import TraceReader TracePass.

Local Open Scope Z_scope.

(** ** Values by instruction *)

(** The number of the [k]-th instruction's store, of a run whose first number
    is [q]. *)
Definition number (q : Z) (xs : list step) (k : nat) (i : instr) : Z :=
  q + used (take k xs) + i_shift i.

Definition before (x : step) : list byte := let '(cx, _, i) := x in kread cx (i_ptr i) (i_size i).
Definition after (x : step) : list byte := let '(_, cx', i) := x in kread cx' (i_ptr i) (i_size i).

(** [q'] is the number of an instruction of [xs], whose store is [x]. *)
Definition numbered (q : Z) (xs : list step) (q' : Z) (x : step) : Prop :=
  ∃ k, xs !! k = Some x ∧ q' = number q xs k (snd x).

Lemma used_cons x xs : used (x :: xs) = i_used (snd x) + used xs.
Proof. by destruct x as [[cx cx'] i]. Qed.

Lemma numbered_cons q x xs q' y :
  numbered q (x :: xs) q' y ↔
  (y = x ∧ q' = q + i_shift (snd x)) ∨ numbered (q + i_used (snd x)) xs q' y.
Proof.
  unfold numbered, number.
  assert (H0 : ∀ l, used (take 0 l) = 0) by done. split.
  - intros ([|k] & Hk & ->); simpl in Hk; [left; simplify_eq; rewrite H0; split; [done|lia]|].
    right. exists k. split; [done|]. cbn [take]. rewrite used_cons. lia.
  - intros [[-> ->]|(k & Hk & ->)]; [exists O; rewrite H0; split; [done|lia]|].
    exists (S k). split; [done|]. cbn [take]. rewrite used_cons. lia.
Qed.

Lemma elem_of_all_values xs : ∀ q e,
  e ∈ all_values q xs ↔
  ∃ q' x, numbered q xs q' x ∧ (e = (q' + OLDSV_START_SEQ, before x) ∨ e = (q', after x)).
Proof.
  induction xs as [|[[cx cx'] i] xs IH]; intros q e; simpl.
  - rewrite elem_of_nil. split; [done|]. by intros (q' & x & (k & Hk & _) & _).
  - rewrite !elem_of_cons, IH. setoid_rewrite numbered_cons. cbn [snd]. split.
    + intros [->|[->|(q' & x & Hn & He)]]; [| |exists q', x; by split; [right|]];
        exists (q + i_shift i), (cx, cx', i); (split; [by left|]); [by left|by right].
    + intros (q' & x & [[-> ->]|Hn] & He); [destruct He as [->| ->]; eauto|].
      right; right. by exists q', x.
Qed.

Lemma length_before x : step_ok x → Z.of_nat (length (before x)) = i_size (snd x).
Proof.
  destruct x as [[cx cx'] i]. intros Hx. pose proof (io_size _ _ _ Hx). cbn [before snd] in *.
  unfold kread. rewrite length_fmap, length_seqZ. lia.
Qed.
Lemma length_after x : step_ok x → Z.of_nat (length (after x)) = i_size (snd x).
Proof.
  destruct x as [[cx cx'] i]. intros Hx. pose proof (io_size _ _ _ Hx). cbn [after snd] in *.
  unfold kread. rewrite length_fmap, length_seqZ. lia.
Qed.

(** What a reader of the value file of a run finds. *)
Definition faithful (q : Z) (xs : list step) (r : TraceValueReader) : Prop :=
  (∀ q' e, ov_map r !! q' = Some e ↔
     ∃ x, numbered q xs q' x ∧ e = Entry q' (i_size (snd x)) (before x)) ∧
  (∀ q' e, sv_map r !! q' = Some e ↔
     ∃ x, numbered q xs q' x ∧ e = Entry q' (i_size (snd x)) (after x)).

Lemma numbered_range q xs q' x :
  numbered q xs q' x → q <= q' < q + used xs.
Proof.
  revert q. induction xs as [|[[cx cx'] i] xs IH]; intros q.
  { by intros (k & Hk & _). }
  rewrite numbered_cons, used_cons. cbn [snd]. pose proof (used_nonneg xs).
  assert (0 <= i_shift i < i_used i) by (destruct i; simpl; lia).
  intros [[-> ->]|Hn%IH]; lia.
Qed.
Lemma numbered_ok q xs q' x : Forall step_ok xs → numbered q xs q' x → step_ok x.
Proof. intros Hok (k & Hk & _). by eapply Forall_lookup_1. Qed.

Lemma all_values_valid q xs :
  0 <= q → q + used xs <= OLDSV_START_SEQ → Forall step_ok xs → Forall valid_value (all_values q xs).
Proof.
  intros Hq Hle Hok. apply list.Forall_forall. intros e (q' & x & Hn & He)%elem_of_all_values.
  pose proof (numbered_range _ _ _ _ Hn). pose proof (numbered_ok _ _ _ _ Hok Hn) as Hx.
  pose proof (length_before x Hx). pose proof (length_after x Hx).
  assert (0 <= i_size (snd x) <= MAX_SV_BUF_SIZE) as Hs by (destruct x as [[??]?]; apply Hx).
  unfold OLDSV_START_SEQ, MAX_SV_BUF_SIZE in *. unfold valid_value.
  destruct He as [->| ->]; cbn [fst snd]; lia.
Qed.

Lemma stored_faithful q xs r :
  0 <= q → q + used xs <= OLDSV_START_SEQ → Forall step_ok xs →
  stored (all_values q xs) r → faithful q xs r.
Proof.
  intros Hq Hle Hok (Ho & Hs & Hoe & Hse).
  assert (Hr : ∀ q' x, numbered q xs q' x → 0 <= q' < OLDSV_START_SEQ).
  { intros q' x Hn. pose proof (numbered_range _ _ _ _ Hn). lia. }
  change OLD_VALUE_SEQ_BASE with OLDSV_START_SEQ in *. split; intros q' e; split.
  - intros E. destruct (Hoe _ _ E) as (He1 & He2 & He3). destruct e as [eq es ed]. cbn in *. subst.
    apply Ho, elem_of_all_values in E as (q2 & x & Hn & He); [|done].
    destruct He as [[= He ->]|[= He _]]; [|apply Hr in Hn; lia].
    assert (q' = q2) as -> by lia. exists x. split; [done|].
    by rewrite length_before by (by eapply numbered_ok).
  - intros (x & Hn & ->). pose proof (numbered_ok _ _ _ _ Hok Hn) as Hx.
    rewrite <- (length_before x Hx). apply Ho; [by apply Hr in Hn as []|].
    apply elem_of_all_values. exists q', x. by split; [|left].
  - intros E. destruct (Hse _ _ E) as (He1 & He2 & He3). destruct e as [eq es ed]. cbn in *. subst.
    apply Hs, elem_of_all_values in E as (q2 & x & Hn & He); [|done].
    destruct He as [[= He _]|[= <- ->]]; [apply Hr in Hn; lia|].
    exists x. split; [done|]. by rewrite length_after by (by eapply numbered_ok).
  - intros (x & Hn & ->). pose proof (numbered_ok _ _ _ _ Hok Hn) as Hx.
    rewrite <- (length_after x Hx). apply Hs; [by apply Hr in Hn as []|].
    apply elem_of_all_values. exists q', x. by split; [|right].
Qed.

(** ** Sessions *)

(** A file system whose [init] succeeds after the stores [xs1], and which runs
    [xs2] until it is unloaded. *)
Definition session `{Sink} (destroy : Z → T ()) (xs1 xs2 : list step) : T Z :=
  ret ← processInitFSFunc destroy (run_instrs xs1;; mret 0);
  processExitFSFunc destroy (run_instrs xs2);;
  mret ret.

Section Pmfs.
#[local] Set Default Proof Using "All".
Context `{Kernel} `{!KernelServes}.
#[local] Existing Instance PmfsRt.pmfs_sink.

Lemma destroy_keeps s a : models s a → PmfsRt.trace_destroy_all 0 s = Ok ((), s).
Proof using Type.
  intros Hm. unfold PmfsRt.trace_destroy_all, trace_lock_lock. rewrite bind_assoc.
  erewrite bind_Ok; [|done]. rewrite (rd_lock _ (mo_ready _ _ Hm)).
  erewrite bind_Ok; [|done]. erewrite bind_Ok; [|done]. cbn [Z.eqb].
  pose proof (lock_unlock s (rd_lock _ (mo_ready _ _ Hm))) as E.
  unfold trace_lock_unlock, modify. by rewrite E.
Qed.

Lemma init_session xs s a :
  run_instrs xs started = Ok ((), s) → models s a →
  processInitFSFunc PmfsRt.trace_destroy_all (run_instrs xs;; mret 0) loaded = Ok (0, s).
Proof.
  intros E Hm. unfold processInitFSFunc. erewrite bind_Ok; [|apply init_run].
  rewrite bind_assoc. erewrite bind_Ok; [|exact E]. erewrite bind_Ok; [|done].
  by erewrite bind_Ok; [|by eapply destroy_keeps].
Qed.

Lemma all_values_app q xs ys : all_values q (xs ++ ys) = all_values q xs ++ all_values (q + used xs) ys.
Proof using Type.
  revert q. induction xs as [|[[cx cx'] i] xs IH]; intros q; [by simpl; rewrite Z.add_0_r|].
  rewrite used_cons. simpl. by rewrite IH, Z.add_assoc.
Qed.
Lemma used_app xs ys : used (xs ++ ys) = used xs + used ys.
Proof using Type. induction xs as [|x xs IH]; [done|]. simpl app. rewrite !used_cons, IH. lia. Qed.

(** C4: The values of a PMFS session: whatever stores run, in whatever
    contexts, the file written by the unload parses, and the reader's two maps
    hold, for the number of every store, exactly the bytes the store
    overwrote and the bytes it left, and nothing else. *)
Theorem every_store_recorded xs1 xs2 :
  Forall step_ok (xs1 ++ xs2) → 1 + used (xs1 ++ xs2) <= OLDSV_START_SEQ →
  ∃ s r, session PmfsRt.trace_destroy_all xs1 xs2 loaded = Ok (0, s) ∧
    read_from_file (sv_content (kern s)) = Ok r ∧ faithful 1 (xs1 ++ xs2) r.
Proof.
  intros Hok Hle. pose proof (used_nonneg xs1) as Hu1. pose proof (used_nonneg xs2) as Hu2.
  rewrite used_app in Hle. pose proof Hok as [Hok1 Hok2]%Forall_app.
  destruct (run_instrs_models xs1 started fresh started_models) as (s1 & a1 & E1 & Hm1 & Hon1 & Ho1 & Hv1);
    [done|cbn; lia|cbn [order fresh]; lia|done|]. cbn [order values fresh] in Ho1, Hv1.
  destruct (run_instrs_models xs2 s1 a1 Hm1 Hon1) as (s2 & a2 & E2 & Hm2 & Hon2 & _ & Hv2);
    [lia|lia|done|].
  destruct (pmfs_destroy_eq s2 a2 1 Hm2 Hon2) as (s3 & E3 & _ & _ & _ & _ & _ & Hfile); [done|].
  assert (Hvals : values a2 = all_values 1 (xs1 ++ xs2)).
  { by rewrite Hv2, Hv1, Ho1, all_values_app. }
  destruct (read_back (all_values 1 (xs1 ++ xs2))) as (r & Er & Hst).
  { apply all_values_nodup; [lia|]. rewrite used_app. lia. }
  { apply all_values_valid; [lia| |done]. rewrite used_app. lia. }
  exists s3, r. split_and!.
  - unfold session. erewrite bind_Ok; [|by eapply init_session].
    unfold processExitFSFunc. rewrite bind_assoc. erewrite bind_Ok; [|exact E2].
    by erewrite bind_Ok; [|exact E3].
  - by rewrite Hfile, Hvals.
  - apply stored_faithful; [lia| |done..]. rewrite used_app. lia.
Qed.
End Pmfs.

(** ** Any trace calls *)

Section Calls.
#[local] Set Default Proof Using "All".
Context `{Kernel} `{!KernelServes}.

(** C17: From the load of the module on, the runtime refines an append-only
    log: after initialisation and any calls whose records each fit the runtime's
    line buffer, made atomically or not, the files
    followed by the buffers are exactly the lines and the values the calls
    stand for, in the order of the calls, and the counters and the recorded
    device range agree; this for every sink that keeps [SinkLaws]. *)
Theorem trace_session_refines `{!Sink} `{!SinkLaws} cs :
  calls_ok fresh cs →
  ∃ s, (NovaRt.trace_init_all;; run_calls cs) loaded = Ok ((), s) ∧ models s (spec_calls cs fresh).
Proof.
  intros Hok. destruct (run_calls_models cs started fresh started_models Hok) as (s & E & Hm).
  exists s. split; [|done]. by erewrite bind_Ok; [|apply init_run].
Qed.

(** C22: The runtimes of NOVA and of PMFS agree: the same calls, if each of their
    records fits the line buffer, leave the same lines and the same values in files
    and buffers together.  (For longer records they do not: PMFS truncates, NOVA
    reads past the buffer.) *)
Theorem runtimes_agree cs :
  calls_ok fresh cs →
  ∃ s1 s2, run_calls (H0 := NovaRt.nova_sink) cs started = Ok ((), s1) ∧
    run_calls (H0 := PmfsRt.pmfs_sink) cs started = Ok ((), s2) ∧
    wr_log s1 = wr_log s2 ∧ sv_log s1 = sv_log s2 ∧ trace_order_num s1 = trace_order_num s2.
Proof.
  intros Hok.
  destruct (@run_calls_models _ NovaRt.nova_sink nova_sink_laws cs started fresh started_models Hok)
    as (s1 & E1 & [_ _ Ho1 _ Hl1 Hv1]).
  destruct (@run_calls_models _ PmfsRt.pmfs_sink pmfs_sink_laws cs started fresh started_models Hok)
    as (s2 & E2 & [_ _ Ho2 _ Hl2 Hv2]).
  exists s1, s2. split_and!; congruence.
Qed.

(** C23: PMFS's unload loses nothing: after calls whose records fit the line
    buffer the files hold every line and every value of the calls made, the buffers are empty, the lock is free and
    tracing is off. *)
Theorem pmfs_unload_complete cs :
  calls_ok fresh cs →
  ∃ s, (run_calls (H0 := PmfsRt.pmfs_sink) cs;; PmfsRt.trace_destroy_all 1) started = Ok ((), s) ∧
    wr_content (kern s) = lines (spec_calls cs fresh) ∧
    sv_content (kern s) = encode_all (values (spec_calls cs fresh)) ∧
    wbuf_list s = [] ∧ svbuf_list s = [] ∧ trace_lock s = false ∧ trace_enabled s = 0.
Proof.
  intros Hok.
  destruct (@run_calls_models _ PmfsRt.pmfs_sink pmfs_sink_laws cs started fresh started_models Hok)
    as (s1 & E1 & Hm).
  destruct (pmfs_destroy_eq s1 _ 1 Hm) as (s2 & E2 & ?); [by rewrite on_spec_calls|done|].
  exists s2. split; [by erewrite bind_Ok; [|exact E1]|naive_solver].
Qed.
End Calls.

(** ** NOVA's unload *)

Lemma nova_destroy_empty `{Kernel} s a ret :
  models s a → wbuf_list s = [] → svbuf_list s = [] →
  ∃ s', NovaRt.trace_destroy_all ret s = Ok ((), s').
Proof.
  intros Hm Hw Hv. pose proof (mo_ready _ _ Hm) as [Hf Hl _ _].
  unfold NovaRt.trace_destroy_all, trace_lock_lock. rewrite bind_assoc. erewrite bind_Ok; [|done].
  rewrite Hl. erewrite bind_Ok; [|done]. erewrite bind_Ok; [|done].
  destruct (ret =? 0); [by eexists|]. destruct (_ =? 0); [by eexists|].
  destruct (fo_filp _ Hf) as (h1 & Hfp & H1). destruct (fo_sv_filp _ Hf) as (h2 & Hsf & H2).
  destruct s as [l f sf o so x y z e n wc sc wl wn sl sn k]. cbn in Hw, Hv, Hfp, Hsf, H1, H2. subst.
  unfold NovaRt.trace_wbuf_write_all, NovaRt.trace_svbuf_write_all.
  do 7 (erewrite bind_Ok; [|done]). cbn -[output_close_file].
  erewrite bind_Ok; [by eexists|]. by apply output_close_file_eq.
Qed.

(** C24: NOVA's unload returns exactly when both buffers are empty: otherwise
    it waits for the lock it holds ([trace_destroy_all] calls the write-out
    functions, which take [trace_lock], with [trace_lock] held). *)
Theorem nova_unload_deadlocks `{Kernel} s a :
  models s a → on a = true →
  (NovaRt.trace_destroy_all 1 s = Bug ↔ wbuf_list s ≠ [] ∨ svbuf_list s ≠ []).
Proof.
  intros Hm Hon. pose proof (mo_ready _ _ Hm) as [Hf Hl _ _]. split.
  - intros E. destruct (wbuf_list s) eqn:Ew; [|by left]. destruct (svbuf_list s) eqn:Es; [|by right].
    exfalso. destruct (nova_destroy_empty s a 1 Hm Ew Es) as (s' & E'). congruence.
  - intros Hb. apply nova_destroy_stuck; try done. intros E. rewrite (mo_on _ _ Hm), E in Hon. done.
Qed.

(** ** Tracing off *)

Lemma off_eq s n :
  trace_enabled s = 0 → trace_lock s = false → TRACE_UNLOCK_OR_RETURN n s = Ok (None, s).
Proof.
  intros He Hl. unfold TRACE_UNLOCK_OR_RETURN, trace_lock_lock. rewrite bind_assoc.
  erewrite bind_Ok; [|done]. rewrite Hl. erewrite bind_Ok; [|done]. erewrite bind_Ok; [|done].
  replace (trace_enabled (set_lock s true)) with 0 by (by destruct s). cbn [Z.eqb].
  erewrite bind_Ok; [|done]. by rewrite lock_unlock.
Qed.
Lemma acquire_off_eq s n :
  trace_enabled s = 0 → trace_lock s = false → getTrackSequence n s = Ok (MAX_TRACE_SEQ_NUM, s).
Proof.
  intros He Hl. unfold getTrackSequence, trace_acquire_sequence, trace_lock_lock. rewrite bind_assoc.
  erewrite bind_Ok; [|done]. rewrite Hl. erewrite bind_Ok; [|done]. erewrite bind_Ok; [|done].
  replace (trace_enabled (set_lock s true)) with 0 by (by destruct s). cbn [Z.eqb negb].
  erewrite bind_Ok; [|done]. erewrite bind_Ok; [|done]. by rewrite lock_unlock.
Qed.

(** C25: Before initialisation and after an unload the instrumentation is
    invisible: instrumented stores run to the end and change no state of the
    runtime, so no file that is not open is written. *)
Theorem disabled_silent `{Sink} xs s :
  trace_enabled s = 0 → trace_lock s = false → run_instrs xs s = Ok ((), s).
Proof.
  intros He Hl.
  assert (Hacq : ∀ n, getTrackSequence n s = Ok (MAX_TRACE_SEQ_NUM, s)) by (intros; by apply acquire_off_eq).
  assert (Hoff : ∀ k, with_seq k s = Ok ((), s)).
  { intros k. unfold with_seq. erewrite bind_Ok; [|by apply off_eq]. done. }
  induction xs as [|[[cx cx'] i] xs IH]; [done|]. simpl. erewrite bind_Ok; [exact IH|].
  destruct i as [k id ptr size|k id ptr size|[nt|] id dest src size]; cbn [run_instr].
  - unfold around_store. erewrite bind_Ok; [|apply Hacq]. by destruct k.
  - unfold around_rmw. erewrite bind_Ok; [|apply Hacq].
    erewrite bind_Ok; [|done]. erewrite bind_Ok; [|apply Hoff].
    erewrite bind_Ok; [|by destruct k]. apply Hoff.
  - unfold around_copy. erewrite bind_Ok; [|apply Hacq]. by destruct nt.
  - unfold around_copy. by erewrite bind_Ok; [|apply Hacq].
Qed.

(** ** Bounds *)

(** The calls for memory accesses, flushes and fences, with arguments of the
    widths of the C declarations. *)
Definition access_call (c : call) : Prop :=
  match c with
  | CStore _ seq id _ size | CMemTransfer seq id _ _ size | CUaccess _ seq id _ _ size
  | CCentFlush seq id _ size => 0 <= seq < 2 ^ 64 ∧ 0 <= id < 2 ^ 32 ∧ 0 <= size < 2 ^ 64
  | COldValue seq _ size _ => 0 <= seq < 2 ^ 64 ∧ 0 <= size < 2 ^ 64
  | CLoad id _ size => 0 <= id < 2 ^ 32 ∧ 0 <= size < 2 ^ 64
  | CFlush id _ | CFence id | CImplicitFence id => 0 <= id < 2 ^ 32
  | _ => False
  end.

Lemma u64_range x : 0 <= u64 x < 2 ^ 64.
Proof. unfold wrap. apply Z.mod_pos_bound. lia. Qed.

(** Runs of such calls. *)
Lemma order_range cx c a : 0 <= order a < 2 ^ 64 → 0 <= order (spec_call cx c a) < 2 ^ 64.
Proof.
  intros Ho. unfold spec_call. destruct (effective a c); [|done].
  destruct (carried_seq c); [done|]. cbn [order emits_all bump_order]. apply u64_range.
Qed.
Lemma call_fits cx a c : ctx_ok cx → 0 <= order a < 2 ^ 64 → access_call c → call_ok cx a c.
Proof.
  intros Hcx Ho Hc. unfold call_ok, effective.
  destruct c as [k seq id ptr size|seq id dest src size|nt seq id to from size|seq ptr size shift
    |seq id ptr size|id src|id|id| | | |id ptr size| | | | | | |]; try done; cbn [carried_seq call_events];
    cbn [access_call] in Hc; repeat case_match; try done; simplify_eq; repeat constructor;
    cbn [event_fits]; try lia.
  all: try (destruct k); try (destruct nt); fits; try apply u64_range; cbn; lia.
Qed.
Lemma access_calls_ok cs : ∀ a,
  Forall (λ '(cx, c), ctx_ok cx ∧ access_call c) cs → 0 <= order a < 2 ^ 64 → calls_ok a cs.
Proof.
  induction cs as [|[cx c] cs IH]; intros a Hcs Ho; [done|].
  apply Forall_cons_1 in Hcs as [[Hcx Hc] Hcs]. split; [by apply call_fits|].
  apply IH; [done|]. by apply order_range.
Qed.

(** C26: No access overflows the 512-byte line buffer: whatever the thread,
    the counter and the arguments are, and whatever calls went before,
    the records of a call for a store, a
    copy, a load, a flush or a fence fit the buffer with their newline, so
    nothing of them is cut and nothing past the buffer is read. *)
Theorem access_calls_fit cs a :
  Forall (λ '(cx, c), ctx_ok cx ∧ access_call c) cs → 0 <= order a < 2 ^ 64 → calls_ok a cs.
Proof. apply access_calls_ok. Qed.

(** ** The value file *)

(** C27: The reader returns on every file, however cut or corrupt, and more
    fuel than the length of the file changes nothing. *)
Theorem reader_terminates fd fuel :
  (length fd < fuel)%nat → read_from_file fd ≠ OutOfFuel ∧ read_loop fuel fd no_values = read_from_file fd.
Proof.
  intros Hf. split; [apply read_loop_fuel; lia|]. apply read_loop_more; lia.
Qed.

(** Writing values one by one. *)
Definition write_values `{Kernel} (vs : list (Z * list byte)) : T () :=
  foldr (λ '(seq, data) k, write_sv_file seq data;; k) (mret ()) vs.

Lemma write_values_appends `{Kernel} `{!KernelServes} vs : ∀ s,
  files_ok s → Forall (λ e, Z.of_nat (length (snd e)) <= MAX_SV_BUF_SIZE) vs →
  ∃ s', write_values vs s = Ok ((), s') ∧ sv_content (kern s') = sv_content (kern s) ++ encode_all vs.
Proof.
  induction vs as [|[q d] vs IH]; intros s Hf Hsm; [exists s; by rewrite app_nil_r|].
  apply Forall_cons_1 in Hsm as [Hd Hsm]. cbn in Hd.
  destruct (write_sv_file_spec s q d Hf Hd) as (s1 & E1 & Hf1 & _ & _ & Hv1 & _).
  destruct (IH s1 Hf1 Hsm) as (s2 & E2 & Hv2). exists s2. split.
  - simpl. by erewrite bind_Ok; [|exact E1].
  - by rewrite Hv2, Hv1, <- app_assoc.
Qed.

(** C28: What [write_sv_file] writes, the reader reads: values with distinct
    sequence numbers come back unchanged, old values (numbered from
    [OLDSV_START_SEQ]) and new values each in their own map. *)
Theorem value_file_roundtrip `{Kernel} `{!KernelServes} vs :
  NoDup vs.*1 → Forall (λ e, 0 <= fst e < 2 ^ 64 ∧ Z.of_nat (length (snd e)) <= MAX_SV_BUF_SIZE) vs →
  ∃ s r, write_values vs started = Ok ((), s) ∧ read_from_file (sv_content (kern s)) = Ok r ∧
    (∀ q d, 0 <= q →
       ov_map r !! q = Some (Entry q (Z.of_nat (length d)) d) ↔ (q + OLDSV_START_SEQ, d) ∈ vs) ∧
    (∀ q d, q < OLDSV_START_SEQ →
       sv_map r !! q = Some (Entry q (Z.of_nat (length d)) d) ↔ (q, d) ∈ vs).
Proof.
  intros Hnd Hv. destruct (write_values_appends vs started) as (s & E & Hs).
  { apply (mo_ready _ _ started_models). }
  { eapply list.Forall_impl; [exact Hv|]. by intros ? []. }
  destruct (read_back vs Hnd) as (r & Er & Ho & Hn & _).
  { eapply list.Forall_impl; [exact Hv|]. unfold valid_value, MAX_SV_BUF_SIZE. intros ? []; lia. }
  exists s, r. by rewrite Hs.
Qed.

(** ** Errors *)

(** C29: A record longer than the line buffer makes NOVA's runtime read past
    the buffer on its stack when it is written directly: outside atomic
    context, and from any ready state, the call faults. *)
Theorem nova_long_record_overreads `{Kernel} `{!KernelServes} cx seq body s :
  ready s → in_atomic cx = false → ¬ fits cx seq body → NovaRt.output_record cx seq body s = Bug.
Proof.
  intros Hr Ha Hf. destruct (nova_wbuf_write_all_spec s Hr) as (s1 & E1 & _). unfold NovaRt.output_record, fits in *.
  destruct (record_buf cx seq body) as [buf size]. cbn [snd] in Hf. rewrite Ha.
  erewrite bind_Ok; [|exact E1]. unfold stack_read. by destruct (Z.leb_spec size 512).
Qed.

(** ** Concrete runs *)

Module TraceDemo.

(** A kernel that grants everything. *)
#[local] Instance demo_kernel : Kernel := {| grant := λ _, true; written := λ _ n, n |}.
#[local] Instance demo_serves : KernelServes.
Proof. by split. Qed.

Definition demo_ctx (atomic : bool) (b : byte) : ctx := Ctx atomic 100 (λ _, b).
Definition demo_ptr : Z := 18446612132314218496.
(** A store in atomic context, a fetch-and-add and a copy outside it. *)
Definition demo_init : list step :=
  [(demo_ctx true Byte.x00, demo_ctx true Byte.x01, i_store 7 demo_ptr 4)].
Definition demo_run : list step :=
  [(demo_ctx false Byte.x01, demo_ctx false Byte.x02, i_rmw 8 demo_ptr);
   (demo_ctx false Byte.x02, demo_ctx false Byte.x03, i_memtransfer 9 demo_ptr (demo_ptr + 64) 2)].

Lemma demo_steps_ok : Forall step_ok (demo_init ++ demo_run).
Proof.
  repeat constructor; cbn; unfold demo_ptr, MAX_SV_BUF_SIZE; lia.
Qed.

Definition demo_calls : list (ctx * call) :=
  [(demo_ctx true Byte.x01, CStore KStore 1 7 demo_ptr 4);
   (demo_ctx false Byte.x01, CFlush 8 demo_ptr);
   (demo_ctx false Byte.x01, CFence 9)].
Lemma demo_calls_ok : calls_ok fresh demo_calls.
Proof.
  apply access_calls_ok; [|cbn; lia]. repeat constructor; cbn; lia.
Qed.

Lemma every_store_recorded_witness :
  ∃ s r, session (H0 := PmfsRt.pmfs_sink) PmfsRt.trace_destroy_all demo_init demo_run loaded = Ok (0, s) ∧
    read_from_file (sv_content (kern s)) = Ok r ∧ faithful 1 (demo_init ++ demo_run) r.
Proof. apply every_store_recorded; [exact demo_steps_ok|vm_compute; congruence]. Defined.

Lemma trace_session_refines_witness :
  ∃ s, (NovaRt.trace_init_all;; run_calls (H0 := NovaRt.nova_sink) demo_calls) loaded = Ok ((), s) ∧
    models s (spec_calls demo_calls fresh).
Proof. apply trace_session_refines. exact demo_calls_ok. Defined.

Lemma runtimes_agree_witness :
  ∃ s1 s2, run_calls (H0 := NovaRt.nova_sink) demo_calls started = Ok ((), s1) ∧
    run_calls (H0 := PmfsRt.pmfs_sink) demo_calls started = Ok ((), s2) ∧
    wr_log s1 = wr_log s2 ∧ sv_log s1 = sv_log s2 ∧ trace_order_num s1 = trace_order_num s2.
Proof. apply runtimes_agree. exact demo_calls_ok. Defined.

Lemma pmfs_unload_complete_witness :
  ∃ s, (run_calls (H0 := PmfsRt.pmfs_sink) demo_calls;; PmfsRt.trace_destroy_all 1) started = Ok ((), s) ∧
    wr_content (kern s) = lines (spec_calls demo_calls fresh) ∧
    sv_content (kern s) = encode_all (values (spec_calls demo_calls fresh)) ∧
    wbuf_list s = [] ∧ svbuf_list s = [] ∧ trace_lock s = false ∧ trace_enabled s = 0.
Proof. apply pmfs_unload_complete. exact demo_calls_ok. Defined.

(** One line waits in a buffer: the unload never returns. *)
Definition waiting : tstate := set_wbufs started [text "x"] 1.
Definition waiting_log : astate := AState true 1 (0, 0, 0) (text "x") [].
Lemma waiting_models : models waiting waiting_log.
Proof. destruct started_models as [[[] ? ? ?] ?????]. by split; [split; [split|..]|..]. Qed.
Lemma nova_unload_deadlocks_witness : NovaRt.trace_destroy_all 1 waiting = Bug.
Proof.
  apply (proj2 (nova_unload_deadlocks waiting waiting_log waiting_models eq_refl)). by left.
Defined.

Lemma disabled_silent_witness :
  run_instrs (H0 := NovaRt.nova_sink) (demo_init ++ demo_run) loaded = Ok ((), loaded).
Proof. by apply disabled_silent. Defined.

Lemma access_calls_fit_witness : calls_ok fresh demo_calls.
Proof. apply access_calls_fit; [repeat constructor; cbn; lia|cbn; lia]. Defined.

(** Two bytes are no entry: the reader fails, but returns. *)
Lemma reader_terminates_witness :
  read_from_file [Byte.x00; Byte.x01] ≠ OutOfFuel ∧
  read_loop 5 [Byte.x00; Byte.x01] no_values = read_from_file [Byte.x00; Byte.x01].
Proof. apply reader_terminates. cbn. lia. Defined.

Definition demo_values : list (Z * list byte) :=
  [(5 + OLDSV_START_SEQ, [Byte.x00]); (5, [Byte.x01; Byte.x02])].
Lemma value_file_roundtrip_witness :
  ∃ s r, write_values demo_values started = Ok ((), s) ∧ read_from_file (sv_content (kern s)) = Ok r ∧
    (∀ q d, 0 <= q →
       ov_map r !! q = Some (Entry q (Z.of_nat (length d)) d) ↔ (q + OLDSV_START_SEQ, d) ∈ demo_values) ∧
    (∀ q d, q < OLDSV_START_SEQ →
       sv_map r !! q = Some (Entry q (Z.of_nat (length d)) d) ↔ (q, d) ∈ demo_values).
Proof.
  apply value_file_roundtrip.
  - vm_compute. repeat constructor; rewrite ?elem_of_cons, ?elem_of_nil; naive_solver.
  - repeat constructor; vm_compute; congruence.
Defined.

(** A symbol of 600 characters. *)
Lemma nova_long_record_overreads_witness :
  NovaRt.output_record (demo_ctx false Byte.x00) 1 (spaces 600) started = Bug.
Proof.
  apply nova_long_record_overreads; [apply (mo_ready _ _ started_models)|done|].
  unfold fits. vm_compute. congruence.
Defined.
End TraceDemo.
