(* ===== verification/PmfsJournal.v ===== *)
(** * PMFS: the journal

    [journal.c], [journal.h] and the flush helpers of [pmfs_def.h]: an undo (or
    redo) journal in a ring of 64-byte log entries, one cache line each.  An
    entry is valid when its generation id is the journal's, and the generation
    id is the last field of the line to be stored.  The operations are those of
    the source, one definition per function; pointers are offsets from
    [sbi->virt_addr] as for NOVA.  [PmfsRecover] and [PmfsCrash] hold the
    proofs, [PmfsMain] the properties. *)

From stdpp Require Import base list gmap.
From Stdlib Require Import ZArith Lia.
From coqutil Require Import Byte Word.LittleEndianList.
From S2P Require Import Prelude PMem NovaBase.

Local Open Scope Z_scope.

(** ** [journal.h], [pmfs_def.h]: constants and layouts *)

Definition LOGENTRY_SIZE : Z := 64.
Definition LESIZE_SHIFT : Z := 6.
Definition LE_DATA : Z := 0.
Definition LE_START : Z := 1.
Definition LE_COMMIT : Z := 2.
Definition LE_ABORT : Z := 4.
(** [(uint16_t)-1]. *)
Definition MAX_GEN_ID : Z := u16 (-1).

(** [pmfs_logentry_t]: field offsets and the size of [data]. *)
Definition le_addr_offset : Z := 0.
Definition le_transaction_id : Z := 8.
Definition le_gen_id : Z := 12.
Definition le_type : Z := 14.
Definition le_size : Z := 15.
Definition le_data : Z := 16.
Definition sizeof_le_data : Z := 48.

(** [pmfs_journal_t], and [s_journal_offset] of [struct pmfs_super_block]. *)
Definition j_base : Z := 0.
Definition j_size : Z := 8.
Definition j_head : Z := 12.
Definition j_tail : Z := 16.
Definition j_gen_id : Z := 20.
Definition j_redo_logging : Z := 24.
Definition sizeof_journal : Z := 32.
Definition s_journal_offset : Z := 32.

(** The DRAM state the journal uses: the fields of [struct pmfs_sb_info], whether
    the cleaner thread sleeps on [log_cleaner_wait], and [current->journal_info]. *)
Record pmfs_sb_info := SbInfo {
  redo_log : bool;
  journal_base_addr : option Z;
  jsize : Z;
  next_transaction_id : Z;
  cleaner_waiting : bool;
  journal_info : Z
}.

(** [pmfs_transaction_t].  [t_self] is the address of the object, what
    [current->journal_info] points to. *)
Record pmfs_transaction := Trans {
  t_self : Z;
  transaction_id : Z;
  num_entries : Z;
  num_used : Z;
  gen_id : Z;
  start_addr : option Z;
  parent : Z
}.
Definition set_num_used (t : pmfs_transaction) (n : Z) : pmfs_transaction :=
  Trans (t_self t) (transaction_id t) (num_entries t) n (gen_id t) (start_addr t) (parent t).

(** ** [pmfs.h]: addresses *)

Definition pmfs_get_block (block : Z) : option Z :=
  if block =? 0 then None else Some block.
Definition pmfs_get_addr_off (addr : Z) : Z := addr.
Definition pmfs_get_journal : PM Z := fetch 8 s_journal_offset.

(** ** [journal.c]: log-entry arithmetic *)

Definition next_log_entry (jsize le_off : Z) : Z :=
  let le_off := u32 (le_off + LOGENTRY_SIZE) in
  if le_off >=? jsize then 0 else le_off.

Definition prev_log_entry (jsize le_off : Z) : Z :=
  let le_off := if le_off =? 0 then jsize else le_off in
  u32 (le_off - LOGENTRY_SIZE).

Definition next_gen_id (gen_id : Z) : Z :=
  let gen_id := u16 (gen_id + 1) in
  if gen_id =? 0 then u16 (gen_id + 1) else gen_id.

Definition prev_gen_id (gen_id : Z) : Z :=
  let gen_id := u16 (gen_id - 1) in
  if gen_id =? 0 then u16 (gen_id - 1) else gen_id.

(** [type & flag] as a condition. *)
Definition has_flag (type flag : Z) : bool := negb (Z.land type flag =? 0).
Definition closes (type : Z) : bool := has_flag type LE_COMMIT || has_flag type LE_ABORT.

Section Journal.
Context `{CachedWrite}.
(** [support_clwb]. *)
Variable clwb : bool.

(** ** [pmfs_def.h]: flushing and fencing *)

Definition pmfs_flush_buffer (buf len : Z) (fence : bool) : PM () :=
  let len := u32 (len + Z.land buf (CACHELINE_SIZE - 1)) in
  flush_loop (Z.to_nat (len / CACHELINE_SIZE + 1)) clwb buf 0 len;;
  when fence PERSISTENT_BARRIER.

(** The kernel's [memcpy] over cached memory. *)
Definition memcpy (dst src n : Z) : PM () :=
  bs ← gets (λ s, read_bytes (view s) src (Z.to_nat n));
  emits (cached_events dst bs).

(** ** Undo, redo and flush of one transaction *)

Definition pmfs_undo_logentry (le : Z) : PM () :=
  size ← fetch 1 (le + le_size);
  if size >? 0 then
    addr ← fetch 8 (le + le_addr_offset);
    data ← deref (pmfs_get_block addr);
    memcpy data (le + le_data) size;;
    pmfs_flush_buffer data size false
  else mret ().

(** [for (i = trans->num_used - 1; i >= 0; i--, le--)]; [n] is [i + 1]. *)
Fixpoint undo_loop (n : nat) (start gen_id : Z) : PM () :=
  match n with
  | O => mret ()
  | S i =>
      let le := start + LOGENTRY_SIZE * Z.of_nat i in
      g ← fetch 2 (le + le_gen_id);
      (if gen_id =? g then pmfs_undo_logentry le else mret ());;
      undo_loop i start gen_id
  end.

Definition pmfs_undo_transaction (trans : pmfs_transaction) : PM () :=
  start ← deref (start_addr trans);
  undo_loop (Z.to_nat (num_used trans)) start (gen_id trans).

Fixpoint flush_trans_loop (n : nat) (redo : bool) (le : Z) : PM () :=
  match n with
  | O => mret ()
  | S n =>
      size ← fetch 1 (le + le_size);
      (if negb (size =? 0) then
         addr ← fetch 8 (le + le_addr_offset);
         data ← deref (pmfs_get_block addr);
         pmfs_flush_buffer data size false;;
         when redo (memcpy data (le + le_data) size)
       else mret ());;
      flush_trans_loop n redo (le + LOGENTRY_SIZE)
  end.

Definition pmfs_flush_transaction (sbi : pmfs_sb_info) (trans : pmfs_transaction) : PM () :=
  le ← deref (start_addr trans);
  flush_trans_loop (Z.to_nat (num_used trans)) (redo_log sbi) le.

Definition invalidate_gen_id (le : Z) : PM () :=
  store 2 (le + le_gen_id) 0;;
  pmfs_flush_buffer le LOGENTRY_SIZE false.

Fixpoint invalidate_loop (n : nat) (le : Z) : PM () :=
  match n with
  | O => mret ()
  | S n =>
      invalidate_gen_id le;;
      type ← fetch 1 (le + le_type);
      when (type =? LE_START) PERSISTENT_BARRIER;;
      invalidate_loop n (le + LOGENTRY_SIZE)
  end.

Definition pmfs_invalidate_logentries (trans : pmfs_transaction) : PM () :=
  le ← deref (start_addr trans);
  invalidate_loop (Z.to_nat (num_entries trans)) le.

Fixpoint redo_loop (n : nat) (le gen_id : Z) (recover : bool) : PM () :=
  match n with
  | O => mret ()
  | S n =>
      g ← fetch 2 (le + le_gen_id);
      size ← fetch 1 (le + le_size);
      (if (gen_id =? g) && (size >? 0) then
         addr ← fetch 8 (le + le_addr_offset);
         data ← deref (pmfs_get_block addr);
         when recover (memcpy data (le + le_data) size);;
         pmfs_flush_buffer data size false
       else mret ());;
      redo_loop n (le + LOGENTRY_SIZE) gen_id recover
  end.

Definition pmfs_redo_transaction (trans : pmfs_transaction) (recover : bool) : PM () :=
  le ← deref (start_addr trans);
  redo_loop (Z.to_nat (num_entries trans)) le (gen_id trans) recover.

(** ** Recovery of one transaction *)

(** What the loop of [pmfs_recover_transaction] leaves in its variables. *)
Record walk := Walk {
  w_tail : Z;
  w_le : Z;
  w_num : Z;         (* trans.num_entries, which equals trans.num_used *)
  w_closed : bool;   (* cmt_or_abrt_found *)
  w_start : bool     (* start_found *)
}.

Fixpoint recover_walk (fuel : nat) (jsize head gen_id tid tail le num : Z) (cmt : bool) : PM walk :=
  match fuel with
  | O => out_of_fuel
  | S fuel =>
      let num := u16 (num + 1) in
      g ← fetch 2 (le + le_gen_id);
      type ← fetch 1 (le + le_type);
      let cmt := cmt || (gen_id =? g) && closes type in
      if (gen_id =? g) && has_flag type LE_START then mret (Walk tail le num cmt true)
      else if (tail =? 0) || (tail =? head) then mret (Walk tail le num cmt false)
      else
        let le := le - LOGENTRY_SIZE in
        g ← fetch 2 (le + le_gen_id);
        type ← fetch 1 (le + le_type);
        if (gen_id =? g) && closes type then
          t ← fetch 4 (le + le_transaction_id);
          bug_on (tid =? t);;
          mret (Walk tail (le + LOGENTRY_SIZE) num cmt false)
        else recover_walk fuel jsize head gen_id tid (prev_log_entry jsize tail) le num cmt
  end.

Definition ring_fuel (jsize : Z) : nat := S (Z.to_nat (jsize / LOGENTRY_SIZE)).

Definition pmfs_recover_transaction (sbi : pmfs_sb_info) (head tail le : Z) : PM Z :=
  gen_id ← fetch 2 (le + le_gen_id);
  tid ← fetch 4 (le + le_transaction_id);
  w ← recover_walk (ring_fuel (jsize sbi)) (jsize sbi) head gen_id tid tail le 0 false;
  (* trans.start_addr stays NULL when the start was not found *)
  let trans := Trans 0 tid (w_num w) (w_num w) gen_id
                 (if w_start w then Some (w_le w) else None) 0 in
  let undo := w_start w && negb (w_closed w) in
  when undo (pmfs_undo_transaction trans);;
  when (gen_id =? MAX_GEN_ID)
    (when undo PERSISTENT_BARRIER;;
     pmfs_invalidate_logentries
       (Trans 0 tid (w_num w) (w_num w) gen_id (Some (w_le w)) 0));;
  mret (w_tail w).

(** The [do .. while] of [pmfs_process_transaction]: the head it returns and
    [handled]. *)
Fixpoint process_loop (fuel : nat) (sbi : pmfs_sb_info) (recover : bool)
    (trans : pmfs_transaction) (head new_head tail le handled : Z) : PM (Z * Z) :=
  match fuel with
  | O => out_of_fuel
  | S fuel =>
      let n := u16 (num_entries trans + 1) in
      let trans := Trans (t_self trans) (transaction_id trans) n n (gen_id trans)
                     (start_addr trans) (parent trans) in
      let new_head := next_log_entry (jsize sbi) new_head in
      let handled := swrap 32 (handled + 1) in
      g ← fetch 2 (le + le_gen_id);
      type ← fetch 1 (le + le_type);
      if (gen_id trans =? g) && closes type then
        let redo := has_flag type LE_COMMIT && redo_log sbi in
        when redo (pmfs_redo_transaction trans recover);;
        when (gen_id trans =? MAX_GEN_ID)
          (when redo PERSISTENT_BARRIER;; pmfs_invalidate_logentries trans);;
        mret (new_head, handled)
      else
        let le := le + LOGENTRY_SIZE in
        g ← fetch 2 (le + le_gen_id);
        type ← fetch 1 (le + le_type);
        if (new_head =? tail) || (gen_id trans =? g) && has_flag type LE_START then
          when (recover && (gen_id trans =? MAX_GEN_ID)) (pmfs_invalidate_logentries trans);;
          mret (if recover then new_head else head, handled)
        else process_loop fuel sbi recover trans head new_head tail le handled
  end.

(** Returns the new head and [*processed]. *)
Definition pmfs_process_transaction (sbi : pmfs_sb_info) (head tail le : Z) (recover : bool)
  : PM (Z * Z) :=
  gen_id ← fetch 2 (le + le_gen_id);
  type ← fetch 1 (le + le_type);
  if negb (has_flag type LE_START) then mret (next_log_entry (jsize sbi) head, 0)
  else
    tid ← fetch 4 (le + le_transaction_id);
    process_loop (ring_fuel (jsize sbi)) sbi recover (Trans 0 tid 0 0 gen_id (Some le) 0)
      head head tail le 0.

(** ** The log cleaner *)

(** [while (head != tail)]: the head reached and [total]. *)
Fixpoint clean_loop (fuel : nat) (sbi : pmfs_sb_info) (tail gen_id head total : Z) : PM (Z * Z) :=
  if head =? tail then mret (head, total) else
  match fuel with
  | O => out_of_fuel
  | S fuel =>
      base ← deref (journal_base_addr sbi);
      let le := base + head in
      let next head total :=
        clean_loop fuel sbi tail (if head =? 0 then next_gen_id gen_id else gen_id) head total in
      g ← fetch 2 (le + le_gen_id);
      if gen_id =? g then
        '(new_head, processed) ← pmfs_process_transaction sbi head tail le false;
        let total := swrap 32 (total + processed) in
        if new_head =? head then mret (head, total) else next new_head total
      else
        when (gen_id =? MAX_GEN_ID) (invalidate_gen_id le);;
        next (next_log_entry (jsize sbi) head) total
  end.

Definition pmfs_clean_journal (sbi : pmfs_sb_info) (unmount : bool) : PM Z :=
  journal ← pmfs_get_journal;
  head ← fetch 4 (journal + j_head);
  tail_genid ← fetch 8 (journal + j_tail);
  let tail := Z.land tail_genid 0xFFFFFFFF in
  let gen_id := Z.land (Z.shiftr tail_genid 32) 0xFFFF in
  let gen_id := if tail <? head then prev_gen_id gen_id else gen_id in
  '(head, total) ← clean_loop (ring_fuel (jsize sbi)) sbi tail gen_id head 0;
  PERSISTENT_BARRIER;;
  store 4 (journal + j_head) head;;
  pmfs_flush_buffer (journal + j_head) 4 true;;
  when unmount PERSISTENT_BARRIER;;
  mret total.

Definition pmfs_free_logentries (sbi : pmfs_sb_info) : PM Z :=
  freed_entries ← pmfs_clean_journal sbi false;
  mret (swrap 32 (LOGENTRY_SIZE * freed_entries)).

(** ** Transactions *)

(** The cleaner thread becomes runnable. *)
Definition wakeup_log_cleaner (sbi : pmfs_sb_info) : pmfs_sb_info :=
  SbInfo (redo_log sbi) (journal_base_addr sbi) (jsize sbi) (next_transaction_id sbi)
    false (journal_info sbi).
Definition set_journal_info (sbi : pmfs_sb_info) (p : Z) : pmfs_sb_info :=
  SbInfo (redo_log sbi) (journal_base_addr sbi) (jsize sbi) (next_transaction_id sbi)
    (cleaner_waiting sbi) p.
Definition set_next_transaction_id (sbi : pmfs_sb_info) (n : Z) : pmfs_sb_info :=
  SbInfo (redo_log sbi) (journal_base_addr sbi) (jsize sbi) n
    (cleaner_waiting sbi) (journal_info sbi).

(** [for (retry = 0; retry < 3; retry++)]: the bytes freed. *)
Fixpoint free_retry (n : nat) (sbi : pmfs_sb_info) (avail_size req_size freed_size : Z) : PM Z :=
  match n with
  | O => mret freed_size
  | S n =>
      f ← pmfs_free_logentries sbi;
      let freed_size := u32 (freed_size + f) in
      if u32 (avail_size + freed_size) >=? req_size then mret freed_size
      else free_retry n sbi avail_size req_size freed_size
  end.

(** The body of [pmfs_new_transaction] from the label [again]: [None] is
    [journal_full], else the offset of the transaction's entries from the
    superblock, its generation id and [avail_size]. *)
Fixpoint reserve (fuel : nat) (sbi : pmfs_sb_info) (journal head tail req_size : Z)
  : PM (option (Z * Z * Z)) :=
  match fuel with
  | O => out_of_fuel
  | S fuel =>
      gen_id ← fetch 2 (journal + j_gen_id);
      let avail_size := if tail >=? head then u32 (jsize sbi - u32 (tail - head))
                        else u32 (head - tail) in
      let avail_size := u32 (avail_size - LOGENTRY_SIZE) in
      full ← (if avail_size <? req_size then
                freed_size ← free_retry 3 sbi avail_size req_size 0;
                mret (u32 (avail_size + freed_size) <? req_size)
              else mret false);
      if (full : bool) then mret None else
      base ← fetch 8 (journal + j_base);
      let base := u64 (base + tail) in
      let tail := u32 (tail + req_size) in
      if tail >=? jsize sbi then
        g ← fetch 2 (journal + j_gen_id);
        (* one 8-byte store: tail 0, the next gen_id, pad 0 *)
        store 8 (journal + j_tail) (Z.shiftl (next_gen_id g) 32);;
        reserve fuel sbi journal head 0 req_size
      else
        store 4 (journal + j_tail) tail;;
        pmfs_flush_buffer (journal + j_tail) 8 false;;
        mret (Some (base, gen_id, avail_size))
  end.

(** [new] is the object [pmfs_alloc_transaction] returned, NULL when it failed. *)
Definition pmfs_new_transaction (fuel : nat) (sbi : pmfs_sb_info) (new : option Z)
    (max_log_entries : Z) : PM ((Z + pmfs_transaction) * pmfs_sb_info) :=
  journal ← pmfs_get_journal;
  let max_log_entries :=
    if redo_log sbi then max_log_entries else swrap 32 (max_log_entries + 1) in
  match new with
  | None => mret (inl (- ENOMEM), sbi)
  | Some self =>
      let req_size := u32 (Z.shiftl max_log_entries LESIZE_SHIFT) in
      tail ← fetch 4 (journal + j_tail);
      head ← fetch 4 (journal + j_head);
      let tid := next_transaction_id sbi in
      let sbi := set_next_transaction_id sbi (u32 (tid + 1)) in
      r ← reserve fuel sbi journal head tail req_size;
      match r with
      | None => mret (inl (- EAGAIN), sbi)
      | Some (base, gen_id, avail_size) =>
          let avail_size := u32 (avail_size - req_size) in
          let sbi := if (u32 (jsize sbi - avail_size) >? Z.shiftr (jsize sbi) 3)
                          && cleaner_waiting sbi
                     then wakeup_log_cleaner sbi else sbi in
          let trans := Trans self tid (u16 max_log_entries) 0 gen_id
                         (pmfs_get_block base) (journal_info sbi) in
          mret (inr trans, set_journal_info sbi self)
      end
  end.

Definition pmfs_commit_logentry (sbi : pmfs_sb_info) (trans : pmfs_transaction) (le : Z) : PM () :=
  if redo_log sbi then
    PERSISTENT_BARRIER;;
    t ← fetch 1 (le + le_type);
    store 1 (le + le_type) (Z.lor t LE_COMMIT);;
    store 2 (le + le_gen_id) (gen_id trans);;
    pmfs_flush_buffer le LOGENTRY_SIZE false;;
    PERSISTENT_BARRIER;;
    pmfs_flush_transaction sbi trans
  else
    pmfs_flush_transaction sbi trans;;
    PERSISTENT_BARRIER;;
    t ← fetch 1 (le + le_type);
    store 1 (le + le_type) (Z.lor t LE_COMMIT);;
    store 2 (le + le_gen_id) (gen_id trans);;
    pmfs_flush_buffer le LOGENTRY_SIZE true.

(** [for (i = 0; i < num_les; i++)], with [count = num_les - i] rounds to go.
    The result says whether the commit record was written, after which the
    function returns at once. *)
Fixpoint add_loop (count : nat) (sbi : pmfs_sb_info) (i num_les le_start addr size le type : Z)
    (trans : pmfs_transaction) : PM (bool * pmfs_transaction) :=
  match count with
  | O => mret (false, trans)
  | S count =>
      store 8 (le + le_addr_offset) le_start;;
      store 4 (le + le_transaction_id) (transaction_id trans);;
      let sz := u8 (if i =? num_les - 1 then size else sizeof_le_data) in
      store 1 (le + le_size) sz;;
      let size := u16 (size - sz) in
      when (negb (sz =? 0)) (memcpy (le + le_data) addr sz);;
      store 1 (le + le_type) type;;
      when ((i =? 0) && (num_used trans =? 0))
        (t ← fetch 1 (le + le_type); store 1 (le + le_type) (Z.lor t LE_START));;
      let trans := set_num_used trans (u16 (num_used trans + 1)) in
      if (i =? num_les - 1) && has_flag type LE_COMMIT then
        pmfs_commit_logentry sbi trans le;;
        mret (true, trans)
      else
        store 2 (le + le_gen_id) (gen_id trans);;
        pmfs_flush_buffer le LOGENTRY_SIZE false;;
        add_loop count sbi (i + 1) num_les (u64 (le_start + sz)) (addr + sz) size
          (le + LOGENTRY_SIZE) type trans
  end.

(** [num_les] of [pmfs_add_logentry]. *)
Definition log_entries_for (size type : Z) : Z :=
  if size =? 0 then (if closes type then 1 else 0)
  else (size + sizeof_le_data - 1) / sizeof_le_data.

(** [trans] is NULL or the transaction, whose object the call updates. *)
Definition pmfs_add_logentry (sbi : pmfs_sb_info) (trans : option pmfs_transaction)
    (addr size type : Z) : PM (Z * option pmfs_transaction) :=
  match trans with
  | None => mret (- EINVAL, None)
  | Some trans =>
      let num_les := log_entries_for size type in
      if num_used trans + num_les >? num_entries trans then mret (- ENOMEM, Some trans)
      else
        let le_start := if size =? 0 then 0 else pmfs_get_addr_off addr in
        le ← deref (start_addr trans);
        let le := le + LOGENTRY_SIZE * num_used trans in
        '(committed, trans) ← add_loop (Z.to_nat num_les) sbi 0 num_les le_start addr size le type trans;
        if (committed : bool) then mret (0, Some trans)
        else
          when (negb (redo_log sbi)) PERSISTENT_BARRIER;;
          mret (0, Some trans)
  end.

(** The transaction is freed at the end. *)
Definition pmfs_commit_transaction (sbi : pmfs_sb_info) (trans : option pmfs_transaction)
  : PM (Z * pmfs_sb_info) :=
  match trans with
  | None => mret (0, sbi)
  | Some t =>
      _ ← pmfs_add_logentry sbi trans 0 0 LE_COMMIT;
      mret (0, set_journal_info sbi (parent t))
  end.

Definition pmfs_abort_transaction (sbi : pmfs_sb_info) (trans : option pmfs_transaction)
  : PM (Z * pmfs_sb_info) :=
  match trans with
  | None => mret (0, sbi)
  | Some t =>
      when (negb (redo_log sbi)) (pmfs_undo_transaction t;; PERSISTENT_BARRIER);;
      _ ← pmfs_add_logentry sbi trans 0 0 LE_ABORT;
      mret (0, set_journal_info sbi (parent t))
  end.

(** ** Recovery *)

Fixpoint invalidate_remaining (fuel : nat) (le jtail jsize : Z) : PM () :=
  if jtail <? jsize then
    match fuel with
    | O => out_of_fuel
    | S fuel =>
        invalidate_gen_id le;;
        invalidate_remaining fuel (le + LOGENTRY_SIZE) (u32 (jtail + LOGENTRY_SIZE)) jsize
    end
  else mret ().

Definition invalidate_remaining_journal (journal_vaddr jtail jsize : Z) : PM () :=
  invalidate_remaining (ring_fuel jsize) (journal_vaddr + jtail) jtail jsize.

Definition pmfs_forward_journal (sbi : pmfs_sb_info) (journal : Z) : PM () :=
  gen_id ← fetch 2 (journal + j_gen_id);
  when (gen_id =? MAX_GEN_ID)
    (base ← deref (journal_base_addr sbi);
     tail ← fetch 4 (journal + j_tail);
     invalidate_remaining_journal base tail (jsize sbi));;
  PERSISTENT_BARRIER;;
  store 2 (journal + j_gen_id) (next_gen_id gen_id);;
  tail ← fetch 4 (journal + j_tail);
  store 4 (journal + j_head) tail;;
  pmfs_flush_buffer journal sizeof_journal false.

Fixpoint recover_undo_loop (fuel : nat) (sbi : pmfs_sb_info) (head tail gen_id : Z) : PM () :=
  if head =? tail then mret () else
  match fuel with
  | O => out_of_fuel
  | S fuel =>
      let gen_id := if tail =? 0 then prev_gen_id gen_id else gen_id in
      let tail := prev_log_entry (jsize sbi) tail in
      base ← deref (journal_base_addr sbi);
      let le := base + tail in
      g ← fetch 2 (le + le_gen_id);
      if gen_id =? g then
        tail ← pmfs_recover_transaction sbi head tail le;
        recover_undo_loop fuel sbi head tail gen_id
      else
        when (gen_id =? MAX_GEN_ID) (invalidate_gen_id le);;
        recover_undo_loop fuel sbi head tail gen_id
  end.

Definition pmfs_recover_undo_journal (sbi : pmfs_sb_info) : PM Z :=
  journal ← pmfs_get_journal;
  tail ← fetch 4 (journal + j_tail);
  head ← fetch 4 (journal + j_head);
  gen_id ← fetch 2 (journal + j_gen_id);
  recover_undo_loop (ring_fuel (jsize sbi)) sbi head tail gen_id;;
  pmfs_forward_journal sbi journal;;
  PERSISTENT_BARRIER;;
  mret 0.

Fixpoint recover_redo_loop (fuel : nat) (sbi : pmfs_sb_info) (tail head gen_id : Z) : PM () :=
  if head =? tail then mret () else
  match fuel with
  | O => out_of_fuel
  | S fuel =>
      base ← deref (journal_base_addr sbi);
      let le := base + head in
      g ← fetch 2 (le + le_gen_id);
      head ← (if gen_id =? g then
                '(h, _) ← pmfs_process_transaction sbi head tail le true; mret h
              else
                when (gen_id =? MAX_GEN_ID) (invalidate_gen_id le);;
                mret (next_log_entry (jsize sbi) head));
      recover_redo_loop fuel sbi tail head (if head =? 0 then next_gen_id gen_id else gen_id)
  end.

Definition pmfs_recover_redo_journal (sbi : pmfs_sb_info) : PM Z :=
  journal ← pmfs_get_journal;
  tail ← fetch 4 (journal + j_tail);
  head ← fetch 4 (journal + j_head);
  gen_id ← fetch 2 (journal + j_gen_id);
  let gen_id := if tail <? head then prev_gen_id gen_id else gen_id in
  recover_redo_loop (ring_fuel (jsize sbi)) sbi tail head gen_id;;
  pmfs_forward_journal sbi journal;;
  PERSISTENT_BARRIER;;
  mret 0.

Definition pmfs_recover_journal (sbi : pmfs_sb_info) : PM Z :=
  journal ← pmfs_get_journal;
  tail ← fetch 4 (journal + j_tail);
  head ← fetch 4 (journal + j_head);
  if head =? tail then mret 0
  else if redo_log sbi then pmfs_recover_redo_journal sbi;; mret 0
  else pmfs_recover_undo_journal sbi;; mret 0.

(** ** Initialisation *)

(** [thread_ok]: [kthread_run] started the cleaner thread, which then sleeps. *)
Definition pmfs_journal_cleaner_run (sbi : pmfs_sb_info) (thread_ok : bool) : Z * pmfs_sb_info :=
  (if thread_ok then 0 else -1,
   SbInfo (redo_log sbi) (journal_base_addr sbi) (jsize sbi) (next_transaction_id sbi)
     thread_ok (journal_info sbi)).

Definition pmfs_journal_soft_init (sbi : pmfs_sb_info) (thread_ok : bool) : PM (Z * pmfs_sb_info) :=
  journal ← pmfs_get_journal;
  base ← fetch 8 (journal + j_base);
  size ← fetch 4 (journal + j_size);
  redo ← fetch 2 (journal + j_redo_logging);
  mret (pmfs_journal_cleaner_run
    (SbInfo (negb (redo =? 0)) (pmfs_get_block base) size 0
       (cleaner_waiting sbi) (journal_info sbi)) thread_ok).

Definition pmfs_journal_hard_init (sbi : pmfs_sb_info) (base size : Z) (thread_ok : bool)
  : PM (Z * pmfs_sb_info) :=
  journal ← pmfs_get_journal;
  store 8 (journal + j_base) base;;
  store 4 (journal + j_size) size;;
  store 2 (journal + j_gen_id) 1;;
  store 4 (journal + j_tail) 0;;
  store 4 (journal + j_head) 0;;
  store 2 (journal + j_redo_logging) 0;;
  p ← deref (pmfs_get_block base);
  memset_nt p 0 size;;
  pmfs_journal_soft_init sbi thread_ok.

(** The journal's part of [pmfs_fill_super]. *)
Definition mount_journal (sbi : pmfs_sb_info) (thread_ok : bool) : PM (Z * pmfs_sb_info) :=
  '(r, sbi) ← pmfs_journal_soft_init sbi thread_ok;
  if negb (r =? 0) then mret (- EINVAL, sbi)
  else
    r ← pmfs_recover_journal sbi;
    mret (if negb (r =? 0) then - EINVAL else 0, sbi).

(** The journal's part of [pmfs_init]: where the header and the entries go, and
    the stores and write-backs that concern them. *)
Definition sizeof_pmfs_super_block : Z := 96.
Definition PMFS_SB_SIZE : Z := 512.
Definition journal_meta_start : Z :=
  Z.land (sizeof_pmfs_super_block + CACHELINE_SIZE - 1) (Z.lnot (CACHELINE_SIZE - 1)).
Definition journal_data_start (blocksize : Z) : Z :=
  Z.land (PMFS_SB_SIZE * 2 + blocksize - 1) (Z.lnot (blocksize - 1)).

Definition format_journal (sbi : pmfs_sb_info) (blocksize : Z) (thread_ok : bool)
  : PM (Z * pmfs_sb_info) :=
  memset_nt 0 0 (journal_data_start blocksize);;
  store 8 s_journal_offset journal_meta_start;;
  '(r, sbi) ← pmfs_journal_hard_init sbi (journal_data_start blocksize) (jsize sbi) thread_ok;
  if r <? 0 then mret (- EINVAL, sbi)
  else
    pmfs_flush_buffer 0 PMFS_SB_SIZE false;;
    PERSISTENT_BARRIER;;
    mret (0, sbi).

(** One round of [pmfs_log_cleaner], which then sleeps again, or its end. *)
Definition pmfs_log_cleaner (sbi : pmfs_sb_info) (should_stop : bool) : PM pmfs_sb_info :=
  pmfs_clean_journal sbi should_stop;;
  mret (SbInfo (redo_log sbi) (journal_base_addr sbi) (jsize sbi) (next_transaction_id sbi)
          (negb should_stop) (journal_info sbi)).

(** [kthread_stop] waits for the cleaner's last round. *)
Definition pmfs_journal_uninit (sbi : pmfs_sb_info) (log_cleaner_thread : bool) : PM (Z * pmfs_sb_info) :=
  sbi ← (if log_cleaner_thread then pmfs_log_cleaner sbi true else mret sbi);
  mret (0, sbi).

Definition pmfs_current_transaction (sbi : pmfs_sb_info) : Z := journal_info sbi.

End Journal.
