(* ===== verification/PmfsRecover.v ===== *)
(** * PMFS: recovery of the undo journal

    What the journal's slots hold ([slots]), which contents recovery leaves
    alone ([settled]: unused slots and closed transactions) and what it does to
    the transaction at the end of the journal: an open one is undone entry by
    entry from the newest, one whose start entry did not get through is left. *)

From stdpp Require Import base list gmap.
From Stdlib Require Import ZArith Lia.
From coqutil Require Import Byte Word.LittleEndianList.
From S2P Require Import Prelude PMem NovaBase PmfsJournal.

Local Open Scope Z_scope.

(** ** Log entries *)

Record lentry := LE { e_addr : Z; e_tid : Z; e_type : Z; e_data : list byte }.
Definition e_len (e : lentry) : Z := Z.of_nat (length (e_data e)).

(** A valid entry of generation [g] at address [p], and an invalid one. *)
Record slot_is (m : mem) (p g : Z) (e : lentry) : Prop := {
  si_gen : load 2 m (p + le_gen_id) = g;
  si_addr : load 8 m (p + le_addr_offset) = e_addr e;
  si_tid : load 4 m (p + le_transaction_id) = e_tid e;
  si_type : load 1 m (p + le_type) = e_type e;
  si_size : load 1 m (p + le_size) = e_len e;
  si_data : read_bytes m (p + le_data) (length (e_data e)) = e_data e;
  si_len : e_len e <= sizeof_le_data
}.
Definition slot_dead (m : mem) (p g : Z) : Prop := load 2 m (p + le_gen_id) < g.
Definition slot_opt (m : mem) (p g : Z) (o : option lentry) : Prop :=
  match o with Some e => slot_is m p g e | None => slot_dead m p g end.

Fixpoint slots (m : mem) (g p : Z) (L : list (option lentry)) : Prop :=
  match L with
  | [] => True
  | o :: L => slot_opt m p g o ∧ slots m g (p + LOGENTRY_SIZE) L
  end.

Definition nslots {A} (L : list A) : Z := LOGENTRY_SIZE * Z.of_nat (length L).

Lemma nslots_app {A} (L1 L2 : list A) : nslots (L1 ++ L2) = nslots L1 + nslots L2.
Proof. unfold nslots. rewrite length_app. lia. Qed.
Lemma nslots_cons {A} (x : A) L : nslots (x :: L) = LOGENTRY_SIZE + nslots L.
Proof. unfold nslots. simpl length. lia. Qed.
Lemma nslots_nil {A} : nslots (@nil A) = 0.
Proof. done. Qed.
Lemma nslots_nonneg {A} (L : list A) : 0 <= nslots L.
Proof. unfold nslots, LOGENTRY_SIZE. lia. Qed.

Lemma slots_app m g p L1 L2 :
  slots m g p (L1 ++ L2) ↔ slots m g p L1 ∧ slots m g (p + nslots L1) L2.
Proof.
  revert p. induction L1 as [|o L1 IH]; intros p; simpl.
  - rewrite nslots_nil, Z.add_0_r. tauto.
  - rewrite IH, nslots_cons, Z.add_assoc. tauto.
Qed.

Lemma slots_at m g p L1 o L2 :
  slots m g p (L1 ++ o :: L2) → slot_opt m (p + nslots L1) g o.
Proof. intros [_ [H _]]%slots_app. exact H. Qed.

Lemma slot_opt_ext m1 m2 p g o :
  agree (in_range p 64) m1 m2 → slot_opt m1 p g o → slot_opt m2 p g o.
Proof.
  unfold in_range. intros Ha.
  assert (Hl : ∀ n k, 0 <= k → k + Z.of_nat n <= 64 → load n m1 (p + k) = load n m2 (p + k)).
  { intros n k Hk Hn. apply load_ext. intros x Hx. apply Ha. unfold in_range in Hx. lia. }
  destruct o as [e|]; simpl.
  - intros [H1 H2 H3 H4 H5 H6 H7]. unfold le_gen_id, le_addr_offset, le_transaction_id,
      le_type, le_size, le_data, sizeof_le_data, e_len in *.
    constructor; unfold le_gen_id, le_addr_offset, le_transaction_id,
      le_type, le_size, le_data, sizeof_le_data, e_len;
      try (by rewrite <- Hl by lia); [|done].
    rewrite <- H6 at 2. symmetry. apply read_bytes_ext. intros x Hx. apply Ha.
    unfold in_range in Hx. lia.
  - unfold slot_dead, le_gen_id. by rewrite <- Hl by lia.
Qed.

Lemma slots_ext m1 m2 g p L :
  agree (in_range p (nslots L)) m1 m2 → slots m1 g p L → slots m2 g p L.
Proof.
  revert p. induction L as [|o L IH]; intros p Ha; simpl; [done|].
  rewrite nslots_cons in Ha. pose proof (nslots_nonneg L). intros [H1 H2]. split.
  - eapply slot_opt_ext; [|done]. eapply agree_mono; [done|].
    unfold in_range, LOGENTRY_SIZE. intros. lia.
  - apply IH; [|done]. eapply agree_mono; [done|]. unfold in_range, LOGENTRY_SIZE. intros. lia.
Qed.

(** Whether a slot holds a valid start, or a valid commit or abort record. *)
Definition o_start (o : option lentry) : bool :=
  match o with Some e => has_flag (e_type e) LE_START | None => false end.
Definition o_closes (o : option lentry) : bool :=
  match o with Some e => closes (e_type e) | None => false end.

(** What the code's two tests of a slot read. *)
Lemma slot_tests m p g o :
  slot_opt m p g o →
  (g =? load 2 m (p + le_gen_id)) && has_flag (load 1 m (p + le_type)) LE_START = o_start o ∧
  (g =? load 2 m (p + le_gen_id)) && closes (load 1 m (p + le_type)) = o_closes o.
Proof.
  destruct o as [e|]; simpl.
  - intros [-> _ _ -> _ _ _]. by rewrite Z.eqb_refl.
  - unfold slot_dead. intros Hd. destruct (Z.eqb_spec g (load 2 m (p + le_gen_id))); [lia|done].
Qed.

Lemma slot_valid m p g o :
  slot_opt m p g o → (g =? load 2 m (p + le_gen_id)) = bool_decide (is_Some o).
Proof.
  destruct o as [e|]; simpl.
  - intros [-> _ _ _ _ _ _]. by rewrite Z.eqb_refl.
  - unfold slot_dead. intros Hd. destruct (Z.eqb_spec g (load 2 m (p + le_gen_id))); [lia|done].
Qed.

(** ** Undoing *)

Definition e_range (e : lentry) (x : Z) : Prop := in_range (e_addr e) (e_len e) x.
Definition in_entries (l : list lentry) (x : Z) : Prop := ∃ e, e ∈ l ∧ e_range e x.

#[export] Instance in_entries_dec l x : Decision (in_entries l x).
Proof.
  refine (cast_if (decide (Exists (λ e, e_range e x) l)));
    [by apply Exists_exists | by intros ?%Exists_exists].
Defined.

Lemma in_entries_app l1 l2 x : in_entries (l1 ++ l2) x ↔ in_entries l1 x ∨ in_entries l2 x.
Proof. unfold in_entries. setoid_rewrite elem_of_app. naive_solver. Qed.
Lemma in_entries_rev l x : in_entries (rev l) x ↔ in_entries l x.
Proof.
  unfold in_entries. split; intros (e & He & Hx); exists e; (split; [|done]);
    rewrite ?list_elem_of_In, <- ?in_rev in *; done.
Qed.
Lemma in_entries_cons e l x : in_entries (e :: l) x ↔ e_range e x ∨ in_entries l x.
Proof. unfold in_entries. setoid_rewrite elem_of_cons. naive_solver. Qed.
Lemma in_entries_nil x : ¬ in_entries [] x.
Proof. intros (e & He & _). by apply elem_of_nil in He. Qed.

(** The valid entries of a slot list, oldest first. *)
Definition valid (L : list (option lentry)) : list lentry := omap id L.
Lemma valid_app L1 L2 : valid (L1 ++ L2) = valid L1 ++ valid L2.
Proof. apply omap_app. Qed.
Lemma valid_some es : valid (Some <$> es) = es.
Proof. induction es as [|e es IH]; [done|]. unfold valid in *. simpl. by f_equal. Qed.
Lemma valid_none L : Forall (λ o, o = None) L → valid L = [].
Proof. unfold valid. induction 1 as [|o L -> HL IH]; done. Qed.
Lemma elem_of_valid L e : e ∈ valid L ↔ Some e ∈ L.
Proof. unfold valid. rewrite list_elem_of_omap. naive_solver. Qed.

(** Writing the entries' data back, in the order of the list. *)
Definition put_back (m : mem) (e : lentry) : mem := write_bytes m (e_addr e) (e_data e).
Definition put_all (m : mem) (l : list lentry) : mem := foldl put_back m l.

Section Recover.
Context `{CachedWrite}.
Variable clwb : bool.

Lemma pmfs_flush_buffer_eq buf len fence s :
  0 <= len <= 2 ^ 32 - 128 →
  pmfs_flush_buffer clwb buf len fence s =
  Ok ((), log_state s (flush_events clwb buf len ++ fence_events fence)).
Proof.
  intros Hlen.
  exact (nova_flush_buffer_eq (NovaCfg clwb false 0 (λ _ _, 0)) buf len fence s Hlen).
Qed.

Lemma memcpy_eq dst src n s :
  memcpy dst src n s =
  Ok ((), log_state s (cached_events dst (read_bytes (view s) src (Z.to_nat n)))).
Proof. done. Qed.

(** The events of undoing [l] in order. *)
Definition undo_events1 (e : lentry) : list event :=
  match e_data e with
  | [] => []
  | _ => cached_events (e_addr e) (e_data e) ++ flush_events clwb (e_addr e) (e_len e)
  end.
Definition undo_events (l : list lentry) : list event := l ≫= undo_events1.

Lemma undo_events_app l1 l2 : undo_events (l1 ++ l2) = undo_events l1 ++ undo_events l2.
Proof. apply bind_app. Qed.

Lemma undo_events1_view m e : mem_eq (apply_events m (undo_events1 e)) (put_back m e).
Proof.
  unfold undo_events1, put_back. destruct (e_data e) eqn:E; [done|].
  rewrite apply_events_app, (apply_events_no_store _ (flush_events _ _ _))
    by apply is_flush_no_store, flush_events_flushes.
  apply cached_view.
Qed.

#[export] Instance put_back_proper : Proper (mem_eq ==> eq ==> mem_eq) put_back.
Proof. intros m1 m2 E e ? <-. unfold put_back. by rewrite E. Qed.
#[export] Instance put_all_proper : Proper (mem_eq ==> eq ==> mem_eq) put_all.
Proof.
  intros m1 m2 E l ? <-. unfold put_all. revert m1 m2 E.
  induction l as [|e l IH]; intros m1 m2 E; simpl; [done|]. apply IH. by rewrite E.
Qed.

Lemma undo_events_view l m : mem_eq (apply_events m (undo_events l)) (put_all m l).
Proof.
  revert m. induction l as [|e l IH]; intros m; [done|].
  change (undo_events (e :: l)) with (undo_events1 e ++ undo_events l).
  change (put_all m (e :: l)) with (put_all (put_back m e) l).
  by rewrite apply_events_app, IH, undo_events1_view.
Qed.

Lemma undo_events_in l : stores_in (in_entries l) (undo_events l).
Proof.
  induction l as [|e l IH]; [apply stores_in_nil|].
  change (undo_events (e :: l)) with (undo_events1 e ++ undo_events l).
  apply stores_in_app. split.
  - unfold undo_events1. destruct (e_data e) eqn:E; [apply stores_in_nil|].
    rewrite <- E. events_in. eapply stores_in_mono; [apply cached_stores|].
    intros x Hx. apply in_entries_cons. by left.
  - eapply stores_in_mono; [exact IH|]. intros x Hx. apply in_entries_cons. by right.
Qed.

Lemma undo_events_ok l : Forall ev_ok (undo_events l).
Proof.
  induction l as [|e l IH]; [constructor|].
  change (undo_events (e :: l)) with (undo_events1 e ++ undo_events l).
  apply Forall_app_2; [|done]. unfold undo_events1. destruct (e_data e); [constructor|].
  events_ok. apply cached_in_line.
Qed.

(** Entries that can be undone away from the journal's area [J]. *)
Definition entry_ok (J : Z → Prop) (e : lentry) : Prop :=
  e_data e = [] ∨ 0 < e_addr e ∧ ∀ x, e_range e x → ¬ J x.

Lemma pmfs_undo_logentry_eq J p g e s :
  slot_is (view s) p g e → entry_ok J e →
  pmfs_undo_logentry clwb p s = Ok ((), log_state s (undo_events1 e)).
Proof.
  intros [Hg Ha Ht Hty Hs Hd Hlen] He. unfold pmfs_undo_logentry, undo_events1.
  erewrite bind_Ok; [|apply fetch_eq]. rewrite Hs.
  unfold e_len, sizeof_le_data in *. destruct (e_data e) as [|b r] eqn:E.
  { by rewrite log_state_nil. }
  destruct He as [?|[He _]]; [congruence|]. rewrite <- E in *.
  assert (0 < Z.of_nat (length (e_data e))) by (rewrite E; simpl; lia).
  destruct (Z.gtb_spec (Z.of_nat (length (e_data e))) 0); [|lia].
  erewrite bind_Ok; [|apply fetch_eq]. rewrite Ha. unfold pmfs_get_block.
  destruct (Z.eqb_spec (e_addr e) 0); [lia|]. erewrite bind_Ok; [|done].
  erewrite bind_Ok; [|apply memcpy_eq]. rewrite Nat2Z.id, Hd.
  rewrite pmfs_flush_buffer_eq by lia. by rewrite log_state_app, app_nil_r.
Qed.

Lemma undo_loop_eq J g p L s :
  slots (view s) g p L → Forall (entry_ok J) (valid L) →
  (∀ x, in_range p (nslots L) x → J x) →
  undo_loop clwb (length L) p g s = Ok ((), log_state s (undo_events (rev (valid L)))).
Proof.
  revert s. induction L as [|o L IH] using rev_ind; intros s Hs Hok HJ.
  { by rewrite log_state_nil. }
  apply slots_app in Hs as [Hs [Ho _]]. rewrite valid_app in Hok |- *.
  apply Forall_app in Hok as [Hok1 Hok2]. rewrite nslots_app, nslots_cons, nslots_nil in HJ.
  pose proof (nslots_nonneg L).
  rewrite length_app, Nat.add_comm. simpl. fold (nslots L).
  erewrite bind_Ok; [|apply fetch_eq]. rewrite (slot_valid _ _ _ o) by exact Ho.
  rewrite rev_app_distr, undo_events_app.
  assert (E : (if bool_decide (is_Some o) then pmfs_undo_logentry clwb (p + nslots L) else mret ()) s
    = Ok ((), log_state s (undo_events (rev (valid [o]))))).
  { destruct o as [e|]; simpl in *; [|by rewrite log_state_nil].
    apply Forall_cons in Hok2 as [He _].
    erewrite pmfs_undo_logentry_eq by done. unfold undo_events. simpl. by rewrite app_nil_r. }
  erewrite bind_Ok; [|exact E]. rewrite IH; [by rewrite log_state_app| |done|].
  - eapply slots_ext; [|exact Hs]. intros x Hx. simpl. symmetry.
    eapply apply_events_frame; [apply undo_events_in|]. rewrite in_entries_rev.
    intros (e & He & Hx'). rewrite Forall_forall in Hok2. destruct (Hok2 e He) as [E'|[_ E']].
    + unfold e_range, e_len, in_range in Hx'. rewrite E' in Hx'. simpl in Hx'. lia.
    + apply (E' x Hx'), HJ. unfold in_range, LOGENTRY_SIZE in *. lia.
  - intros x Hx. apply HJ. unfold in_range, LOGENTRY_SIZE in *. lia.
Qed.
End Recover.

(** ** Walking one transaction backward *)

(** [B] starts with a start entry, has no other, and closes, if at all, with its
    last slot. *)
Definition run_start (B : list (option lentry)) : Prop :=
  ∃ o R, B = o :: R ∧ o_start o = true ∧ Forall (λ o, o_start o = false) R.
Definition closed_by (B : list (option lentry)) (c : bool) : Prop :=
  ∃ I z, B = I ++ [z] ∧ Forall (λ o, o_closes o = false) I ∧ o_closes z = c ∧ is_Some z.
Definition all_open (B : list (option lentry)) : Prop :=
  Forall (λ o, o_start o = false ∧ o_closes o = false) B.
(** Below a run without a start: nothing, or a closed transaction of another id. *)
Definition ends_closed (tid : Z) (A : list (option lentry)) : Prop :=
  A = [] ∨ ∃ A' e, A = A' ++ [Some e] ∧ closes (e_type e) = true ∧ e_tid e ≠ tid.

Lemma prev_log_entry_eq jsz o : 64 <= o < 2 ^ 32 → prev_log_entry jsz o = o - 64.
Proof.
  intros Ho. unfold prev_log_entry. destruct (Z.eqb_spec o 0); [lia|].
  apply wrap_small. unfold LOGENTRY_SIZE. lia.
Qed.

(** The number of slots of a run fits [u16]. *)
Definition fits16 {A} (num : Z) (B : list A) : Prop :=
  0 <= num ∧ num + Z.of_nat (length B) < 2 ^ 16.

Lemma last_open L : Forall (λ o, o_closes o = false) L → o_closes (List.last L None) = false.
Proof.
  destruct L as [|z L _] using rev_ind; [done|]. rewrite List.last_last.
  intros [_ H]%Forall_app. by apply Forall_cons in H as [H _].
Qed.
Lemma removelast_Forall {A} (P : A → Prop) L : Forall P L → Forall P (removelast L).
Proof.
  destruct L as [|z L _] using rev_ind; [done|]. rewrite removelast_last.
  by intros [H _]%Forall_app.
Qed.

(** The last slot of a run none of whose slots closes. *)
Lemma below_open A o R :
  Forall (λ o, o_closes o = false) (o :: R) →
  ∃ A' z, A ++ o :: R = A' ++ [z] ∧ o_closes z = false ∧ nslots A' = nslots A + nslots R.
Proof.
  intros HI. destruct R as [|z R _] using rev_ind.
  - exists A, o. apply Forall_cons in HI as [? _]. by rewrite nslots_nil, Z.add_0_r.
  - exists (A ++ o :: R), z. rewrite <- app_assoc. split; [done|].
    rewrite app_comm_cons in HI.
    apply Forall_app in HI as [_ HI]. apply Forall_cons in HI as [? _]. split; [done|].
    rewrite !nslots_app, !nslots_cons, nslots_nil. lia.
Qed.

Section Walk.
Variables (m : mem) (jsz hd g q tid : Z).
(** [q] is the address of the slot at offset [hd], and all offsets fit [u32]. *)
Hypothesis Hhd : 0 <= hd.

Lemma fetch_tests {A} p o (f : Z → Z → PM A) s :
  view s = m → slot_opt m p g o →
  (g' ← fetch 2 (p + le_gen_id); t ← fetch 1 (p + le_type); f g' t) s =
  f (load 2 m (p + le_gen_id)) (load 1 m (p + le_type)) s.
Proof.
  intros <- Ho. erewrite bind_Ok; [|apply fetch_eq]. by erewrite bind_Ok; [|apply fetch_eq].
Qed.

Lemma walk_to_start A o R fuel num cmt s :
  view s = m → slots m g q (A ++ o :: R) → o_start o = true →
  Forall (λ o, o_start o = false) R →
  Forall (λ o, o_closes o = false) (removelast (o :: R)) →
  hd + nslots (A ++ o :: R) < 2 ^ 32 → fits16 num (o :: R) → (length R < fuel)%nat →
  recover_walk fuel jsz hd g tid (hd + nslots A + nslots R) (q + nslots A + nslots R) num cmt s =
  Ok (Walk (hd + nslots A) (q + nslots A) (num + Z.of_nat (length (o :: R)))
        (cmt || o_closes (List.last (o :: R) None)) true, s).
Proof using Hhd.
  intros Hv. revert fuel num cmt.
  induction R as [|z R IH] using rev_ind; intros fuel num cmt Hs Ho HR HI Hb Hn Hf;
    (destruct fuel as [|fuel]; [simpl in Hf; lia|]); unfold fits16 in Hn; cbn [recover_walk].
  - rewrite nslots_nil, !Z.add_0_r. apply slots_at in Hs.
    rewrite (fetch_tests _ o) by done. destruct (slot_tests _ _ _ _ Hs) as [-> ->].
    rewrite Ho. simpl in *. rewrite wrap_small by lia. by destruct o.
  - change (o :: R ++ [z]) with ((o :: R) ++ [z]) in *. rewrite removelast_last in HI.
    rewrite app_assoc in Hs, Hb. pose proof (slots_at _ _ _ _ _ _ Hs) as Hz.
    apply slots_app in Hs as [Hs _]. apply Forall_app in HR as [HR Hz1].
    apply Forall_cons in Hz1 as [Hz1 _].
    pose proof (nslots_nonneg A). pose proof (nslots_nonneg R).
    rewrite !nslots_app, !nslots_cons, nslots_nil in *. unfold LOGENTRY_SIZE in *.
    replace (q + nslots A + (nslots R + (64 + 0))) with (q + (nslots A + (64 + nslots R))) by lia.
    rewrite (fetch_tests _ z) by done. destruct (slot_tests _ _ _ _ Hz) as [-> ->].
    rewrite Hz1. rewrite wrap_small by (rewrite length_app in Hn; simpl in Hn; lia).
    destruct (Z.eqb_spec (hd + nslots A + (nslots R + (64 + 0))) 0); [lia|].
    destruct (Z.eqb_spec (hd + nslots A + (nslots R + (64 + 0))) hd); [lia|]. cbn [orb].
    replace (q + (nslots A + (64 + nslots R)) - 64) with (q + nslots A + nslots R) by lia.
    destruct (below_open A o R) as (A' & z' & E & Hcl & En); [done|].
    pose proof Hs as Hs'. rewrite E in Hs'. apply slots_at in Hs'. rewrite En, Z.add_assoc in Hs'.
    rewrite (fetch_tests _ z') by done. destruct (slot_tests _ _ _ _ Hs') as [_ ->].
    rewrite Hcl. rewrite prev_log_entry_eq by lia.
    replace (hd + nslots A + (nslots R + (64 + 0)) - 64) with (hd + nslots A + nslots R) by lia.
    rewrite IH; [| |done|done| | | |].
    + rewrite List.last_last, (last_open (o :: R)), orb_false_r by done.
      do 3 f_equal. rewrite length_app. simpl. lia.
    + exact Hs.
    + by apply removelast_Forall.
    + lia.
    + unfold fits16. rewrite length_app in Hn. simpl in *. lia.
    + rewrite length_app in Hf. simpl in *. lia.
Qed.

Lemma walk_no_start A o R fuel num cmt s :
  view s = m → slots m g q (A ++ o :: R) → all_open (o :: R) → ends_closed tid A →
  hd + nslots (A ++ o :: R) < 2 ^ 32 → fits16 num (o :: R) → (length R < fuel)%nat →
  recover_walk fuel jsz hd g tid (hd + nslots A + nslots R) (q + nslots A + nslots R) num cmt s =
  Ok (Walk (hd + nslots A) (q + nslots A) (num + Z.of_nat (length (o :: R))) cmt false, s).
Proof using Hhd.
  intros Hv. revert fuel num cmt.
  induction R as [|z R IH] using rev_ind; intros fuel num cmt Hs HB HA Hb Hn Hf;
    (destruct fuel as [|fuel]; [simpl in Hf; lia|]); unfold fits16 in Hn; cbn [recover_walk].
  - rewrite nslots_nil, !Z.add_0_r. pose proof (slots_at _ _ _ _ _ _ Hs) as Ho.
    rewrite (fetch_tests _ o) by done. destruct (slot_tests _ _ _ _ Ho) as [-> ->].
    apply Forall_cons in HB as [[-> ->] _]. rewrite orb_false_r. simpl in Hn.
    rewrite wrap_small by lia.
    destruct HA as [->|(A' & e & -> & He & Htid)].
    { rewrite nslots_nil, !Z.add_0_r, Z.eqb_refl, orb_true_r. done. }
    pose proof (nslots_nonneg A'). rewrite !nslots_app, !nslots_cons, nslots_nil in *.
    unfold LOGENTRY_SIZE in *.
    destruct (Z.eqb_spec (hd + (nslots A' + (64 + 0))) 0); [lia|].
    destruct (Z.eqb_spec (hd + (nslots A' + (64 + 0))) hd); [lia|]. cbn [orb].
    rewrite <- app_assoc in Hs. apply slots_at in Hs.
    replace (q + (nslots A' + (64 + 0)) - 64) with (q + nslots A') by lia.
    rewrite (fetch_tests _ (Some e)) by done. destruct (slot_tests _ _ _ _ Hs) as [_ ->].
    simpl. rewrite He. erewrite bind_Ok; [|apply fetch_eq]. rewrite Hv.
    destruct Hs as [_ _ -> _ _ _ _]. destruct (Z.eqb_spec tid (e_tid e)); [congruence|].
    erewrite bind_Ok; [|done]. replace (q + nslots A' + 64) with (q + (nslots A' + (64 + 0))) by lia. done.
  - change (o :: R ++ [z]) with ((o :: R) ++ [z]) in *.
    rewrite app_assoc in Hs, Hb. pose proof (slots_at _ _ _ _ _ _ Hs) as Hz.
    apply slots_app in Hs as [Hs _]. apply Forall_app in HB as [HB Hz1].
    apply Forall_cons in Hz1 as [[Hz1 Hz2] _].
    pose proof (nslots_nonneg A). pose proof (nslots_nonneg R).
    rewrite !nslots_app, !nslots_cons, nslots_nil in *. unfold LOGENTRY_SIZE in *.
    replace (q + nslots A + (nslots R + (64 + 0))) with (q + (nslots A + (64 + nslots R))) by lia.
    rewrite (fetch_tests _ z) by done. destruct (slot_tests _ _ _ _ Hz) as [-> ->].
    rewrite Hz1, Hz2, orb_false_r. rewrite wrap_small by (rewrite length_app in Hn; simpl in Hn; lia).
    destruct (Z.eqb_spec (hd + nslots A + (nslots R + (64 + 0))) 0); [lia|].
    destruct (Z.eqb_spec (hd + nslots A + (nslots R + (64 + 0))) hd); [lia|]. cbn [orb].
    replace (q + (nslots A + (64 + nslots R)) - 64) with (q + nslots A + nslots R) by lia.
    destruct (below_open A o R) as (A' & z' & E & Hcl & En).
    { eapply Forall_impl; [exact HB|]. naive_solver. }
    pose proof Hs as Hs'. rewrite E in Hs'. apply slots_at in Hs'. rewrite En, Z.add_assoc in Hs'.
    rewrite (fetch_tests _ z') by done. destruct (slot_tests _ _ _ _ Hs') as [_ ->].
    rewrite Hcl. rewrite prev_log_entry_eq by lia.
    replace (hd + nslots A + (nslots R + (64 + 0)) - 64) with (hd + nslots A + nslots R) by lia.
    rewrite IH; [|done|done|done|lia| |].
    + do 3 f_equal. rewrite length_app. simpl. lia.
    + unfold fits16. rewrite length_app in Hn. simpl in *. lia.
    + rewrite length_app in Hf. simpl in *. lia.
Qed.
End Walk.

(** ** Recovering the whole journal *)

(** Contents from the head that recovery does not act on: unused slots, and closed
    transactions. *)
Inductive settled : list (option lentry) → Prop :=
| settled_nil : settled []
| settled_dead S : settled S → settled (S ++ [None])
| settled_tx S B e :
    settled S → run_start (B ++ [Some e]) → Forall (λ o, o_closes o = false) B →
    closes (e_type e) = true → settled (S ++ B ++ [Some e]).

(** No valid entry belongs to transaction [tid]. *)
Definition fresh (tid : Z) (S : list (option lentry)) : Prop :=
  ∀ e, Some e ∈ S → e_tid e ≠ tid.

Lemma settled_split tid S :
  settled S → fresh tid S →
  ∃ S1 D, S = S1 ++ D ∧ Forall (λ o, o = None) D ∧ settled S1 ∧ ends_closed tid S1.
Proof.
  induction 1 as [|S HS IH|S B e HS IH Hr HB Hc]; intros Hf.
  - exists [], []. split_and!; [done|constructor|constructor|by left].
  - destruct IH as (S1 & D & -> & HD & HS1 & HE).
    { intros e He. apply Hf, elem_of_app. by left. }
    exists S1, (D ++ [None]). rewrite app_assoc. split_and!; [done| |done|done].
    apply Forall_app_2; [done|by constructor].
  - exists (S ++ B ++ [Some e]), []. rewrite app_nil_r.
    split_and!; [done|constructor|by constructor|]. right. exists (S ++ B), e.
    rewrite app_assoc. split_and!; [done..|]. apply Hf. rewrite !elem_of_app.
    right. right. by apply list_elem_of_singleton.
Qed.

(** A slot list up to its last valid slot. *)
Lemma split_last_valid (L : list (option lentry)) :
  ∃ B N, L = B ++ N ∧ Forall (λ o, o = None) N ∧
    (B = [] ∨ ∃ o R e, B = o :: R ∧ List.last (o :: R) None = Some e).
Proof.
  induction L as [|z L (B & N & -> & HN & HB)] using rev_ind.
  { exists [], []. split_and!; [done|constructor|by left]. }
  destruct z as [e|].
  - exists ((B ++ N) ++ [Some e]), []. rewrite app_nil_r. split_and!; [done|constructor|].
    right. destruct ((B ++ N) ++ [Some e]) as [|o R] eqn:E; [by destruct (B ++ N)|].
    exists o, R, e. split; [done|]. by rewrite <- E, List.last_last.
  - exists B, (N ++ [None]). rewrite app_assoc. split_and!; [done| |done].
    apply Forall_app_2; [done|by constructor].
Qed.

Section RecoverJournal.
Context `{CachedWrite}.
Variables (clwb : bool) (sbi : pmfs_sb_info) (jb hd g : Z).
Hypothesis Hbase : journal_base_addr sbi = Some jb.
Hypothesis Hhd : 0 <= hd.
Hypothesis Hsize : jsize sbi <= 2 ^ 22.
Hypothesis Hgen : g ≠ MAX_GEN_ID.

(** [W] are the slots between the head and the tail. *)
Definition in_ring (W : list (option lentry)) : Prop := hd + nslots W < jsize sbi.

Lemma ring_fuel_enough A (o : option lentry) R :
  in_ring (A ++ o :: R) → (length R < ring_fuel (jsize sbi))%nat.
Proof using Hhd.
  unfold in_ring, ring_fuel. rewrite nslots_app, nslots_cons. pose proof (nslots_nonneg A).
  unfold nslots, LOGENTRY_SIZE in *. intros.
  assert (Z.of_nat (length R) <= jsize sbi / 64) by (apply Z.div_le_lower_bound; lia). lia.
Qed.

Lemma ring_fits16 A (B : list (option lentry)) : in_ring (A ++ B) → fits16 0 B.
Proof using Hhd Hsize.
  unfold in_ring, fits16. rewrite nslots_app. pose proof (nslots_nonneg A).
  unfold nslots, LOGENTRY_SIZE in *. lia.
Qed.

Lemma ring_bound W : in_ring W → hd + nslots W < 2 ^ 32.
Proof using Hsize. unfold in_ring. lia. Qed.

Lemma recover_transaction_walk le e tail w s :
  slot_is (view s) le g e →
  recover_walk (ring_fuel (jsize sbi)) (jsize sbi) hd g (e_tid e) tail le 0 false s = Ok (w, s) →
  pmfs_recover_transaction clwb sbi hd tail le s =
  (when (w_start w && negb (w_closed w))
     (pmfs_undo_transaction clwb (Trans 0 (e_tid e) (w_num w) (w_num w) g
        (if w_start w then Some (w_le w) else None) 0));;
   mret (w_tail w)) s.
Proof using Hgen.
  intros [Hg _ Ht _ _ _ _] Hw. unfold pmfs_recover_transaction.
  erewrite bind_Ok; [|apply fetch_eq]. erewrite bind_Ok; [|apply fetch_eq].
  rewrite Hg, Ht. erewrite bind_Ok; [|exact Hw].
  apply bind_ext. intros [] s'. by destruct (Z.eqb_spec g MAX_GEN_ID).
Qed.

(** The three outcomes for a transaction whose newest valid slot is the last of
    [A ++ o :: R]. *)
Section Outcomes.
Variables (A : list (option lentry)) (o : option lentry) (R : list (option lentry)).
Variables (e : lentry) (s : cpu).
Hypothesis Hslots : slots (view s) g (jb + hd) (A ++ o :: R).
Hypothesis Hlast : List.last (o :: R) None = Some e.
Hypothesis Hring : in_ring (A ++ o :: R).

Lemma last_slot : slot_is (view s) (jb + hd + nslots A + nslots R) g e.
Proof using Hslots Hlast.
  destruct (exists_last (l := o :: R)) as (I & z & E); [done|].
  pose proof Hlast as Hz. rewrite E, List.last_last in Hz. subst z.
  pose proof Hslots as Hs. rewrite E, app_assoc in Hs. apply slots_at in Hs.
  replace (nslots (A ++ I)) with (nslots A + nslots R) in Hs; [by rewrite Z.add_assoc in Hs|].
  apply (f_equal nslots) in E. rewrite !nslots_app, !nslots_cons, nslots_nil in *. lia.
Qed.

Lemma recover_closed :
  o_start o = true → Forall (λ o, o_start o = false) R →
  Forall (λ o, o_closes o = false) (removelast (o :: R)) → closes (e_type e) = true →
  pmfs_recover_transaction clwb sbi hd (hd + nslots A + nslots R)
    (jb + hd + nslots A + nslots R) s = Ok (hd + nslots A, s).
Proof using Hslots Hlast Hring Hhd Hsize Hgen.
  intros Ho HR HI Hc.
  rewrite (recover_transaction_walk _ e _
    (Walk (hd + nslots A) (jb + hd + nslots A) (0 + Z.of_nat (length (o :: R))) true true));
    [done|exact last_slot|].
  rewrite (walk_to_start (view s) (jsize sbi) hd g (jb + hd) (e_tid e) Hhd A o R); try done.
  - by rewrite Hlast, (Hc : o_closes (Some e) = true).
  - by apply ring_bound.
  - by eapply ring_fits16.
  - by eapply ring_fuel_enough.
Qed.

Lemma recover_no_start :
  all_open (o :: R) → ends_closed (e_tid e) A →
  pmfs_recover_transaction clwb sbi hd (hd + nslots A + nslots R)
    (jb + hd + nslots A + nslots R) s = Ok (hd + nslots A, s).
Proof using Hslots Hlast Hring Hhd Hsize Hgen.
  intros Ho HA.
  rewrite (recover_transaction_walk _ e _
    (Walk (hd + nslots A) (jb + hd + nslots A) (0 + Z.of_nat (length (o :: R))) false false));
    [done|exact last_slot|].
  apply (walk_no_start (view s) (jsize sbi) hd g (jb + hd) (e_tid e) Hhd A o R); try done.
  - by apply ring_bound.
  - by eapply ring_fits16.
  - by eapply ring_fuel_enough.
Qed.

Lemma recover_open J :
  o_start o = true → Forall (λ o, o_start o = false) R →
  Forall (λ o, o_closes o = false) (o :: R) →
  Forall (entry_ok J) (valid (o :: R)) →
  (∀ x, in_range (jb + hd + nslots A) (nslots (o :: R)) x → J x) →
  pmfs_recover_transaction clwb sbi hd (hd + nslots A + nslots R)
    (jb + hd + nslots A + nslots R) s =
  Ok (hd + nslots A, log_state s (undo_events clwb (rev (valid (o :: R))))).
Proof using Hslots Hlast Hring Hhd Hsize Hgen.
  intros Ho HR HI Hok HJ.
  rewrite (recover_transaction_walk _ e _
    (Walk (hd + nslots A) (jb + hd + nslots A) (0 + Z.of_nat (length (o :: R))) false true));
    [|exact last_slot|].
  - cbn [w_start w_closed w_num w_le w_tail negb andb when].
    unfold pmfs_undo_transaction. cbn [start_addr num_used gen_id].
    assert (E : Z.to_nat (0 + Z.of_nat (length (o :: R))) = length (o :: R)) by lia.
    rewrite E. erewrite bind_Ok; [|erewrite bind_Ok; [|done]; eapply undo_loop_eq; [|done..]];
      [done|]. by apply slots_app in Hslots as [_ ?].
  - rewrite (walk_to_start (view s) (jsize sbi) hd g (jb + hd) (e_tid e) Hhd A o R); try done.
    + by rewrite last_open.
    + by apply removelast_Forall.
    + by apply ring_bound.
    + by eapply ring_fits16.
    + by eapply ring_fuel_enough.
Qed.
End Outcomes.

(** *** The loop of [pmfs_recover_undo_journal] *)

Lemma undo_loop_step A z fuel s :
  slots (view s) g (jb + hd) (A ++ [z]) → in_ring (A ++ [z]) →
  recover_undo_loop clwb (S fuel) sbi hd (hd + nslots (A ++ [z])) g s =
  (if bool_decide (is_Some z) then
     tail ← pmfs_recover_transaction clwb sbi hd (hd + nslots A) (jb + hd + nslots A);
     recover_undo_loop clwb fuel sbi hd tail g
   else recover_undo_loop clwb fuel sbi hd (hd + nslots A) g) s.
Proof using Hbase Hhd Hsize Hgen.
  intros Hs Hr%ring_bound. apply slots_at in Hs. pose proof (nslots_nonneg A).
  rewrite nslots_app, nslots_cons, nslots_nil in *. unfold LOGENTRY_SIZE in *. cbn [recover_undo_loop].
  destruct (Z.eqb_spec hd (hd + (nslots A + (64 + 0)))); [lia|].
  destruct (Z.eqb_spec (hd + (nslots A + (64 + 0))) 0); [lia|].
  rewrite prev_log_entry_eq by lia.
  replace (hd + (nslots A + (64 + 0)) - 64) with (hd + nslots A) by lia.
  rewrite Hbase. erewrite bind_Ok; [|done]. erewrite bind_Ok; [|apply fetch_eq].
  rewrite !Z.add_assoc, (slot_valid _ _ _ z) by done. case_bool_decide; [done|].
  by destruct (Z.eqb_spec g MAX_GEN_ID).
Qed.

Lemma undo_loop_tx A o R e fuel s :
  slots (view s) g (jb + hd) (A ++ o :: R) → List.last (o :: R) None = Some e →
  in_ring (A ++ o :: R) →
  recover_undo_loop clwb (S fuel) sbi hd (hd + nslots (A ++ o :: R)) g s =
  (tail ← pmfs_recover_transaction clwb sbi hd (hd + nslots A + nslots R)
            (jb + hd + nslots A + nslots R);
   recover_undo_loop clwb fuel sbi hd tail g) s.
Proof using Hbase Hhd Hsize Hgen.
  intros Hs Hl Hr. destruct (exists_last (l := o :: R)) as (I & z & E); [done|].
  rewrite E, List.last_last in Hl. subst z. rewrite E, app_assoc in *.
  rewrite undo_loop_step by done. simpl.
  apply (f_equal nslots) in E. rewrite nslots_app, !nslots_cons, nslots_nil in E.
  replace (hd + nslots A + nslots R) with (hd + nslots (A ++ I)) by (rewrite nslots_app; lia).
  replace (jb + hd + nslots A + nslots R) with (jb + hd + nslots (A ++ I)) by (rewrite nslots_app; lia).
  done.
Qed.

Lemma undo_loop_none A N fuel s :
  Forall (λ o, o = None) N → slots (view s) g (jb + hd) (A ++ N) → in_ring (A ++ N) →
  (length N <= fuel)%nat →
  recover_undo_loop clwb fuel sbi hd (hd + nslots (A ++ N)) g s =
  recover_undo_loop clwb (fuel - length N) sbi hd (hd + nslots A) g s.
Proof using Hbase Hhd Hsize Hgen.
  revert fuel. induction N as [|z N IH] using rev_ind; intros fuel HN Hs Hr Hf.
  - by rewrite app_nil_r, Nat.sub_0_r.
  - apply Forall_app in HN as [HN Hz]. apply Forall_cons in Hz as [-> _].
    rewrite length_app in *. simpl in Hf. destruct fuel as [|fuel]; [lia|].
    rewrite app_assoc in *. rewrite undo_loop_step by done.
    rewrite bool_decide_eq_false_2 by (by intros [? ?]).
    simpl length. replace (S fuel - (length N + 1))%nat with (fuel - length N)%nat by lia.
    apply IH; [done| | |lia].
    + by apply slots_app in Hs as [? _].
    + unfold in_ring in *. rewrite nslots_app, nslots_cons, nslots_nil in Hr.
      unfold LOGENTRY_SIZE in *. lia.
Qed.

Lemma in_ring_app A B : in_ring (A ++ B) → in_ring A.
Proof. unfold in_ring. rewrite nslots_app. pose proof (nslots_nonneg B). lia. Qed.

Lemma undo_loop_end fuel s : recover_undo_loop clwb fuel sbi hd hd g s = Ok ((), s).
Proof. destruct fuel; simpl; by rewrite Z.eqb_refl. Qed.

Lemma undo_loop_settled S fuel s :
  settled S → slots (view s) g (jb + hd) S → in_ring S → (length S <= fuel)%nat →
  recover_undo_loop clwb fuel sbi hd (hd + nslots S) g s = Ok ((), s).
Proof using Hbase Hhd Hsize Hgen.
  intros HS. revert fuel. induction HS as [|S HS IH|S B e HS IH Hr HB Hc]; intros fuel Hs Hring Hf.
  - rewrite nslots_nil, Z.add_0_r. apply undo_loop_end.
  - rewrite length_app in Hf. simpl in Hf.
    rewrite undo_loop_none; [|by constructor|done|done|simpl; lia].
    apply IH; [by apply slots_app in Hs as [? _]|by eapply in_ring_app|simpl; lia].
  - destruct Hr as (o & R & E & Ho & HR). rewrite E in *.
    assert (Hl : List.last (o :: R) None = Some e) by (by rewrite <- E, List.last_last).
    rewrite length_app in Hf. simpl in Hf. destruct fuel as [|fuel]; [lia|].
    rewrite (undo_loop_tx S o R e) by done.
    erewrite bind_Ok; [|eapply recover_closed; try done].
    + apply IH; [by apply slots_app in Hs as [? _]|by eapply in_ring_app|lia].
    + by rewrite <- E, removelast_last.
Qed.

(** The transaction [tid] at the end of the journal, not closed: its first slot is
    its start entry or was not written, no other starts or closes one. *)
Definition cur_open (J : Z → Prop) (tid : Z) (L : list (option lentry)) : Prop :=
  match L with
  | [] => True
  | o :: R => o_closes o = false ∧ (∀ e, o = Some e → o_start o = true) ∧ all_open R
  end ∧ ∀ e, Some e ∈ L → e_tid e = tid ∧ entry_ok J e.
Definition started (L : list (option lentry)) : bool :=
  match L with Some _ :: _ => true | _ => false end.
Definition undo_of (L : list (option lentry)) : list lentry :=
  if started L then rev (valid L) else [].

Lemma cur_open_app J tid L1 L2 : cur_open J tid (L1 ++ L2) → cur_open J tid L1.
Proof.
  intros [H1 H2]. split.
  - destruct L1 as [|o R]; [done|]. destruct H1 as (? & ? & H1). split_and!; [done..|].
    by apply Forall_app in H1 as [? _].
  - intros e He. apply H2, elem_of_app. by left.
Qed.

Lemma undo_of_app_none L N : L ≠ [] → Forall (λ o, o = None) N → undo_of (L ++ N) = undo_of L.
Proof.
  intros HL HN. destruct L as [|o R]; [done|]. unfold undo_of. simpl started.
  destruct o; [|done]. by rewrite valid_app, (valid_none N), app_nil_r by done.
Qed.

(** An open run with its start is undone; the slots below are not disturbed. *)
Lemma undo_loop_open_run J tid S e0 R e fuel s :
  settled S → cur_open J tid (Some e0 :: R) → List.last (Some e0 :: R) None = Some e →
  slots (view s) g (jb + hd) (S ++ Some e0 :: R) → in_ring (S ++ Some e0 :: R) →
  (length S < fuel)%nat →
  (∀ x, in_range (jb + hd) (nslots (S ++ Some e0 :: R)) x → J x) →
  recover_undo_loop clwb fuel sbi hd (hd + nslots (S ++ Some e0 :: R)) g s =
  Ok ((), log_state s (undo_events clwb (undo_of (Some e0 :: R)))).
Proof using Hbase Hhd Hsize Hgen.
  intros HS [(Hc & Ho & HR) He] Hl Hs Hr Hf HJ. destruct fuel as [|fuel]; [lia|].
  specialize (Ho e0 eq_refl).
  assert (Hok : Forall (entry_ok J) (valid (Some e0 :: R))).
  { apply Forall_forall. intros e' He'%elem_of_valid. by apply He. }
  rewrite (undo_loop_tx S _ R e) by done.
  pose proof (nslots_nonneg S). pose proof (nslots_nonneg R). unfold LOGENTRY_SIZE in *.
  erewrite bind_Ok; [|apply (recover_open S (Some e0) R e s Hs Hl Hr J); try done].
  - apply undo_loop_settled; [done| |by eapply in_ring_app|lia].
    eapply slots_ext; [|by apply slots_app in Hs as [Hs _]].
    intros x Hx. symmetry. eapply apply_events_frame; [apply undo_events_in|].
    unfold undo_of. simpl started. cbn iota. rewrite in_entries_rev. intros (e' & He' & Hx').
    rewrite Forall_forall in Hok. destruct (Hok e' He') as [E|[_ E]].
    + unfold e_range, e_len, in_range in Hx'. rewrite E in Hx'. simpl in Hx'. lia.
    + apply (E x Hx'), HJ. rewrite nslots_app, nslots_cons. unfold in_range, LOGENTRY_SIZE in *. lia.
  - eapply Forall_impl; [exact HR|]. naive_solver.
  - constructor; [done|]. eapply Forall_impl; [exact HR|]. naive_solver.
  - intros x Hx. apply HJ. rewrite nslots_app in *. unfold in_range in *.
    rewrite nslots_cons in *. unfold LOGENTRY_SIZE in *. lia.
Qed.

(** A run whose start did not get through is left alone. *)
Lemma undo_loop_lost_start J tid S R e fuel s :
  settled S → fresh tid S → cur_open J tid (None :: R) → List.last (None :: R) None = Some e →
  slots (view s) g (jb + hd) (S ++ None :: R) → in_ring (S ++ None :: R) →
  (length S < fuel)%nat →
  recover_undo_loop clwb fuel sbi hd (hd + nslots (S ++ None :: R)) g s = Ok ((), s).
Proof using Hbase Hhd Hsize Hgen.
  intros HS Hfr [(_ & _ & HR) He] Hl Hs Hr Hf. destruct fuel as [|fuel]; [lia|].
  destruct (settled_split tid S) as (S1 & D & -> & HD & HS1 & HE); [done..|].
  rewrite <- app_assoc in Hs, Hr |- *.
  assert (Htid : e_tid e = tid).
  { apply He. destruct (exists_last (l := None :: R)) as (I & z & E); [done|].
    rewrite E, List.last_last in Hl. subst z. rewrite E. apply elem_of_app. right.
    by apply list_elem_of_singleton. }
  assert (Hopen : all_open (D ++ None :: R)).
  { apply Forall_app_2; [|by constructor]. eapply Forall_impl; [exact HD|]. by intros ? ->. }
  assert (Hl' : List.last (D ++ None :: R) None = Some e).
  { rewrite <- Hl. clear. induction D as [|d D IH]; [done|]. rewrite <- IH.
    simpl. by destruct (D ++ None :: R) eqn:E; [destruct D|]. }
  rewrite length_app in Hf.
  destruct (D ++ None :: R) as [|o R'] eqn:E; [by destruct D|].
  rewrite (undo_loop_tx S1 o R' e) by done.
  erewrite bind_Ok; [|apply (recover_no_start S1 o R' e s); try done; by rewrite Htid].
  apply undo_loop_settled; [done| |by eapply in_ring_app|lia].
  by apply slots_app in Hs as [? _].
Qed.

(** Recovery up to the transaction that was running. *)
Theorem undo_loop_current J tid S L fuel s :
  settled S → fresh tid S → cur_open J tid L →
  slots (view s) g (jb + hd) (S ++ L) → in_ring (S ++ L) → (length (S ++ L) < fuel)%nat →
  (∀ x, in_range (jb + hd) (nslots (S ++ L)) x → J x) →
  recover_undo_loop clwb fuel sbi hd (hd + nslots (S ++ L)) g s =
  Ok ((), log_state s (undo_events clwb (undo_of L))).
Proof using Hbase Hhd Hsize Hgen.
  intros HS Hfr Hcur Hs Hr Hf HJ.
  destruct (split_last_valid L) as (B & N & -> & HN & HB).
  rewrite app_assoc in Hs, Hr, Hf, HJ |- *. rewrite length_app in Hf.
  rewrite undo_loop_none by (done || lia).
  assert (Hs1 : slots (view s) g (jb + hd) (S ++ B)) by (by apply slots_app in Hs as [? _]).
  assert (Hr1 : in_ring (S ++ B)) by (by eapply in_ring_app).
  apply cur_open_app in Hcur. rewrite length_app in Hf.
  destruct HB as [->|(o & R & e & -> & Hl)].
  - rewrite app_nil_r in *. assert (undo_of ([] ++ N) = []) as -> by (by destruct HN as [|? ? ->]).
    rewrite log_state_nil. apply undo_loop_settled; [done..|simpl in *; lia].
  - rewrite undo_of_app_none by done. destruct o as [e0|].
    + eapply undo_loop_open_run; try done; [simpl in *; lia|]. intros x Hx. apply HJ.
      rewrite (nslots_app _ N). pose proof (nslots_nonneg N). unfold in_range in *. lia.
    + rewrite log_state_nil. eapply undo_loop_lost_start; try done. simpl in *. lia.
Qed.
End RecoverJournal.
