(* ===== verification/PmfsMount.v ===== *)
(** * PMFS: what mounting does with the journal

    The journal's place in the file system ([layout_ok]) and header ([jstate]),
    and what [mount_journal] makes of a memory whose journal ends in an open
    transaction: its valid entries are written back, newest first, nothing else
    changes but the journal's own header, and the journal is empty afterwards. *)

From stdpp Require Import base list gmap.
From Stdlib Require Import ZArith Lia.
From coqutil Require Import Byte Word.LittleEndianList.
From S2P Require Import Prelude PMem NovaBase PmfsJournal PmfsRecover.

Local Open Scope Z_scope.

(** The offsets of the journal's header and of its first entry, and its size. *)
Record layout := Layout { l_journal : Z; l_base : Z; l_size : Z }.

Record layout_ok (l : layout) : Prop := {
  lo_journal : l_journal l mod 64 = 0 ∧ 40 <= l_journal l < 2 ^ 64;
  lo_base : l_base l mod 64 = 0 ∧ 40 <= l_base l;
  lo_size : l_size l mod 64 = 0 ∧ 0 <= l_size l <= 2 ^ 22;
  lo_end : l_base l + l_size l <= 2 ^ 64;
  lo_apart : l_journal l + 64 <= l_base l ∨ l_base l + l_size l <= l_journal l
}.

(** The bytes of the journal's header line and of its entries; with the word that
    points to the header they are what no transaction may log. *)
Definition header (l : layout) (x : Z) : Prop := in_range (l_journal l) 64 x.
Definition entries (l : layout) (x : Z) : Prop := in_range (l_base l) (l_size l) x.
Definition journal_bytes (l : layout) (x : Z) : Prop := header l x ∨ entries l x.
Definition reserved (l : layout) (x : Z) : Prop :=
  journal_bytes l x ∨ in_range s_journal_offset 8 x.

#[export] Instance header_dec l x : Decision (header l x).
Proof. unfold header. apply _. Defined.
#[export] Instance journal_bytes_dec l x : Decision (journal_bytes l x).
Proof. unfold journal_bytes, header, entries. apply _. Defined.
#[export] Instance reserved_dec l x : Decision (reserved l x).
Proof. unfold reserved. apply _. Defined.

(** The header of an undo journal with entries in [[hd, tl)] and generation [g]. *)
Record jstate (l : layout) (m : mem) (hd tl g : Z) : Prop := {
  js_super : load 8 m s_journal_offset = l_journal l;
  js_base : load 8 m (l_journal l + j_base) = l_base l;
  js_size : load 4 m (l_journal l + j_size) = l_size l;
  js_head : load 4 m (l_journal l + j_head) = hd;
  js_tail : load 4 m (l_journal l + j_tail) = tl;
  js_gen : load 2 m (l_journal l + j_gen_id) = g;
  js_redo : load 2 m (l_journal l + j_redo_logging) = 0
}.

Lemma header_load l m1 m2 n o :
  agree (header l) m1 m2 → 0 <= o → o + Z.of_nat n <= 64 →
  load n m1 (l_journal l + o) = load n m2 (l_journal l + o).
Proof.
  intros Ha Ho Hn. apply load_ext. eapply agree_mono; [exact Ha|].
  unfold header, in_range. lia.
Qed.

Lemma jstate_ext l m1 m2 hd tl g :
  agree (header l) m1 m2 → agree (in_range s_journal_offset 8) m1 m2 →
  jstate l m1 hd tl g → jstate l m2 hd tl g.
Proof.
  intros Ha Hs [H1 H2 H3 H4 H5 H6 H7].
  constructor; try (by rewrite <- (header_load l m1)
    by (done || (unfold j_base, j_size, j_head, j_tail, j_gen_id, j_redo_logging; lia))).
  by rewrite <- (load_ext _ m1).
Qed.

(** Unfolds the offsets of the header's fields. *)
Ltac offsets := unfold j_base, j_size, j_head, j_tail, j_gen_id, j_redo_logging,
  s_journal_offset, sizeof_journal in *.

Section Mount.
Context `{CachedWrite}.
Variables (clwb : bool) (l : layout).
Hypothesis Hl : layout_ok l.

Definition forward_events (tl g : Z) : list event :=
  [EFence; EStore false (l_journal l + j_gen_id) (bytes_of 2 g);
   EStore false (l_journal l + j_head) (bytes_of 4 tl)] ++
  flush_events clwb (l_journal l) sizeof_journal.

Lemma pmfs_forward_journal_eq sbi hd tl g s :
  jstate l (view s) hd tl g → g ≠ MAX_GEN_ID →
  pmfs_forward_journal clwb sbi (l_journal l) s =
  Ok ((), log_state s (forward_events tl (next_gen_id g))).
Proof.
  intros [_ _ _ _ Ht Hg _] Hgm. unfold pmfs_forward_journal.
  erewrite bind_Ok; [|apply fetch_eq]. rewrite Hg.
  destruct (Z.eqb_spec g MAX_GEN_ID); [done|]. erewrite bind_Ok; [|done].
  erewrite bind_Ok; [|apply emit_eq]. erewrite bind_Ok; [|apply store_eq].
  erewrite bind_Ok; [|apply fetch_eq]. rewrite log_state_app.
  assert (E : load 4 (view (log_state s ([EFence] ++ [EStore false (l_journal l + j_gen_id)
    (bytes_of 2 (next_gen_id g))]))) (l_journal l + j_tail) = tl).
  { rewrite <- Ht. simpl. run_events. apply load_write_disjoint. rewrite length_bytes_of.
    unfold disjoint_ranges. offsets. lia. }
  rewrite E. erewrite bind_Ok; [|apply store_eq].
  rewrite pmfs_flush_buffer_eq by (unfold sizeof_journal; lia).
  by rewrite !log_state_app, app_nil_r.
Qed.

Lemma next_gen_range g : 0 <= next_gen_id g < 2 ^ 16.
Proof. unfold next_gen_id. case_match; apply wrap_range; lia. Qed.

(** Forwarding empties the journal and touches only its header. *)
Lemma forward_view m hd tl g :
  jstate l m hd tl g → 0 <= tl < 2 ^ 32 →
  jstate l (apply_events m (forward_events tl (next_gen_id g))) tl tl (next_gen_id g) ∧
  agree (λ x, ¬ header l x) (apply_events m (forward_events tl (next_gen_id g))) m.
Proof using Hl.
  intros [H1 H2 H3 H4 H5 H6 H7] Ht. pose proof (next_gen_range g) as Hg.
  destruct Hl as [[_ Hj] _ _ _ _]. unfold forward_events.
  rewrite apply_events_app, (apply_events_no_store _ (flush_events _ _ _))
    by apply is_flush_no_store, flush_events_flushes.
  run_events. split.
  - constructor; rewrite ?load_write_same;
      repeat (rewrite load_write_disjoint
        by (rewrite length_bytes_of; unfold disjoint_ranges; offsets; lia));
      rewrite ?load_write_same; try done; apply Z.mod_small; lia.
  - intros x Hx. unfold header, in_range in Hx.
    rewrite !write_bytes_out; [done|..]; rewrite length_bytes_of; unfold in_range; offsets; lia.
Qed.

Lemma soft_init_eq sbi hd tl g s :
  jstate l (view s) hd tl g →
  pmfs_journal_soft_init sbi true s =
  Ok ((0, SbInfo false (Some (l_base l)) (l_size l) 0 true (journal_info sbi)), s).
Proof using Hl.
  intros [H1 H2 H3 H4 H5 H6 H7]. destruct Hl as [_ [_ Hb] _ _ _].
  unfold pmfs_journal_soft_init, pmfs_get_journal.
  erewrite bind_Ok; [|apply fetch_eq]. rewrite H1.
  do 3 (erewrite bind_Ok; [|apply fetch_eq]). rewrite H2, H3, H7.
  unfold pmfs_get_block. by destruct (Z.eqb_spec (l_base l) 0); [lia|].
Qed.

(** An empty journal is left as it is. *)
Lemma mount_empty m t g sbi :
  jstate l m t t g → ∃ sbi', mount_journal clwb sbi true (Cpu m []) = Ok ((0, sbi'), Cpu m []).
Proof using Hl.
  intros Hj. unfold mount_journal.
  erewrite bind_Ok; [|by eapply soft_init_eq]. cbn [negb Z.eqb].
  unfold pmfs_recover_journal, pmfs_get_journal. rewrite bind_assoc.
  destruct Hj as [H1 _ _ H4 H5 _ _].
  do 3 (erewrite bind_Ok; [|apply fetch_eq]; rewrite ?bind_assoc; cbn [view]).
  rewrite H1, H4, H5, Z.eqb_refl. by eexists.
Qed.

(** The journal holds the slots [S ++ L] between head and tail. *)
Record journal_is (m : mem) (hd g : Z) (S L : list (option lentry)) : Prop := {
  ji_state : jstate l m hd (hd + nslots (S ++ L)) g;
  ji_slots : slots m g (l_base l + hd) (S ++ L);
  ji_head : 0 <= hd ∧ hd mod 64 = 0;
  ji_ring : hd + nslots (S ++ L) < l_size l
}.

(** ** Recovery *)

Section Run.
Variables (m : mem) (hd g tid : Z) (S L : list (option lentry)).
Hypothesis Hji : journal_is m hd g S L.
Hypothesis Hg : g ≠ MAX_GEN_ID.
Hypothesis HS : settled S.
Hypothesis Hfr : fresh tid S.
Hypothesis Hcur : cur_open (reserved l) tid L.
Hypothesis Hne : S ++ L ≠ [].

Abbreviation ue := (undo_events clwb (undo_of L)).
Abbreviation tl := (hd + nslots (S ++ L)).

(** What mounting stores: the contents logged, then the header. *)
Definition mount_events : list event := ue ++ forward_events tl (next_gen_id g) ++ [EFence].

Lemma undo_not_reserved x : in_entries (undo_of L) x → ¬ reserved l x.
Proof using Hcur.
  intros Hx Hr. assert (in_entries (valid L) x) as (e & He%elem_of_valid & Hx').
  { revert Hx. unfold undo_of. destruct (started L); [apply in_entries_rev|].
    intros Hx. by apply in_entries_nil in Hx. }
  destruct Hcur as [_ Hc]. destruct (Hc e He) as [_ [E|[_ E]]]; [|by apply (E x)].
  unfold e_range, e_len, in_range in Hx'. rewrite E in Hx'. simpl in Hx'. lia.
Qed.

Lemma undo_in : stores_in (λ x, ¬ reserved l x) ue.
Proof using Hcur.
  eapply stores_in_mono; [apply undo_events_in|]. intros x. apply undo_not_reserved.
Qed.

Lemma undo_reserved m' : agree (reserved l) m m' → journal_is m' hd g S L.
Proof using Hji.
  intros Hf. destruct Hji as [Hj Hs Hhd Hr]. constructor; try done.
  - eapply jstate_ext; [..|exact Hj]; eapply agree_mono; try exact Hf;
      intros x Hx; [left; by left|by right].
  - eapply slots_ext; [|exact Hs]. eapply agree_mono; [exact Hf|]. intros x Hx. left. right.
    unfold entries, in_range in *. lia.
Qed.

Lemma tail_moved : hd < tl ∧ tl < l_size l.
Proof using Hji Hne.
  destruct Hji as [_ _ _ Hr]. split; [|exact Hr].
  destruct (S ++ L) as [|o R]; [done|]. rewrite nslots_cons.
  pose proof (nslots_nonneg R). unfold LOGENTRY_SIZE. lia.
Qed.

(** Afterwards the journal is empty and the contents logged are back. *)
Lemma mount_view :
  jstate l (apply_events m mount_events) tl tl (next_gen_id g) ∧
  agree (λ x, ¬ header l x) (apply_events m mount_events) (put_all m (undo_of L)).
Proof using All.
  assert (Hf : agree (reserved l) m (apply_events m ue)).
  { intros x Hx. symmetry. eapply apply_events_frame; [exact undo_in|]. tauto. }
  destruct (undo_reserved _ Hf) as [Hj' _ [Hhd _] _]. pose proof tail_moved.
  pose proof (lo_size l Hl) as [_ Hsz].
  destruct (forward_view _ hd tl g Hj') as [Hfj Hfa]; [lia|].
  unfold mount_events. rewrite apply_events_app, (apply_events_app _ _ [EFence]).
  change (apply_events ?m [EFence]) with m. split; [exact Hfj|].
  etrans; [exact Hfa|]. apply mem_eq_agree, undo_events_view.
Qed.

Theorem mount_run sbi :
  ∃ sbi', mount_journal clwb sbi true (Cpu m []) = Ok ((0, sbi'), log_state (Cpu m []) mount_events).
Proof using All.
  assert (Hf : agree (reserved l) m (apply_events m ue)).
  { intros x Hx. symmetry. eapply apply_events_frame; [exact undo_in|]. tauto. }
  destruct (undo_reserved _ Hf) as [Hj' _ _ _]. pose proof tail_moved as [Htl Htr].
  destruct Hji as [Hj Hs [Hhd _] Hr]. pose proof (lo_size l Hl) as [_ Hsz].
  eexists. unfold mount_journal. erewrite bind_Ok; [|by eapply soft_init_eq]. cbn [negb Z.eqb].
  unfold pmfs_recover_journal, pmfs_get_journal. rewrite bind_assoc.
  destruct Hj as [H1 H2 H3 H4 H5 H6 H7].
  do 3 (erewrite bind_Ok; [|apply fetch_eq]; rewrite ?bind_assoc; cbn [view]).
  rewrite H1, H4, H5. destruct (Z.eqb_spec hd tl); [lia|]. cbn [redo_log].
  unfold pmfs_recover_undo_journal, pmfs_get_journal. rewrite !bind_assoc.
  do 4 (erewrite bind_Ok; [|apply fetch_eq]; rewrite ?bind_assoc; cbn [view]).
  rewrite H1, H4, H5, H6. cbn [jsize].
  erewrite bind_Ok; [|eapply (undo_loop_current clwb _ (l_base l) hd g); try done].
  - rewrite bind_assoc. erewrite bind_Ok; [|by eapply pmfs_forward_journal_eq].
    rewrite bind_assoc. erewrite bind_Ok; [|apply emit_eq].
    rewrite !log_state_app. unfold mount_events. by rewrite <- ?app_assoc.
  - simpl. lia.
  - unfold ring_fuel, nslots, LOGENTRY_SIZE in *.
    assert (Z.of_nat (length (S ++ L)) <= l_size l / 64) by (apply Z.div_le_lower_bound; lia). lia.
  - intros x Hx. left. right. unfold entries, in_range in *. lia.
Qed.
End Run.
End Mount.
