(* ===== verification/PmfsTrans.v ===== *)
(** * PMFS: what the transaction calls do

    Functional specifications of [pmfs_new_transaction], [pmfs_add_logentry],
    [pmfs_commit_transaction] and [pmfs_abort_transaction]: the stores, flushes
    and fences each issues, and the log entries it leaves ([add_entries],
    [entry_fill]). *)

From stdpp Require Import base list gmap.
From Stdlib Require Import ZArith Lia.
From coqutil Require Import Byte Word.LittleEndianList.
From S2P Require Import Prelude PMem NovaBase PmfsJournal PmfsRecover PmfsMount.

Local Open Scope Z_scope.

(** ** Filling one slot *)

(** Splits the fields of a log entry. *)
Ltac le_offsets := unfold le_addr_offset, le_transaction_id, le_gen_id, le_type, le_size,
  le_data, sizeof_le_data, e_len in *.
(** Reads the fields of a memory a slot was stored to. *)
Ltac read_slot := repeat first
  [ rewrite load_write_same
  | rewrite load_write_disjoint
      by (rewrite ?length_bytes_of; unfold disjoint_ranges; le_offsets; lia) ].

Section Slot.
Context `{CachedWrite}.
Variable clwb : bool.

(** The entry a slot gets: [ty] is the type passed by the caller, [first] says
    whether it starts the transaction. *)
Definition start_type (ty : Z) (first : bool) : Z := if first then Z.lor ty LE_START else ty.

(** All stores to the slot at [p] but the last, and the last, which validates it. *)
Definition entry_fill (p ty : Z) (first : bool) (e : lentry) : list event :=
  [EStore false (p + le_addr_offset) (bytes_of 8 (e_addr e));
   EStore false (p + le_transaction_id) (bytes_of 4 (e_tid e));
   EStore false (p + le_size) (bytes_of 1 (e_len e))] ++
  (if e_len e =? 0 then [] else cached_events (p + le_data) (e_data e)) ++
  EStore false (p + le_type) (bytes_of 1 ty) ::
  (if first then [EStore false (p + le_type) (bytes_of 1 (Z.lor ty LE_START))] else []).
Definition gen_event (p g : Z) : event := EStore false (p + le_gen_id) (bytes_of 2 g).

(** Numbers that fit the fields of an entry. *)
Record entry_fits (e : lentry) : Prop := {
  ef_addr : 0 <= e_addr e < 2 ^ 64;
  ef_tid : 0 <= e_tid e < 2 ^ 32;
  ef_len : e_len e <= sizeof_le_data
}.

Lemma cached_data m p e :
  mem_eq (apply_events m (if e_len e =? 0 then [] else cached_events (p + le_data) (e_data e)))
    (write_bytes m (p + le_data) (e_data e)).
Proof.
  unfold e_len. destruct (Z.eqb_spec (Z.of_nat (length (e_data e))) 0); [|apply cached_view].
  by destruct (e_data e).
Qed.

(** The memory after filling and validating. *)
Definition filled (m : mem) (p ty : Z) (first : bool) (e : lentry) : mem :=
  let m := write_bytes m (p + le_addr_offset) (bytes_of 8 (e_addr e)) in
  let m := write_bytes m (p + le_transaction_id) (bytes_of 4 (e_tid e)) in
  let m := write_bytes m (p + le_size) (bytes_of 1 (e_len e)) in
  let m := write_bytes m (p + le_data) (e_data e) in
  let m := write_bytes m (p + le_type) (bytes_of 1 ty) in
  if first then write_bytes m (p + le_type) (bytes_of 1 (Z.lor ty LE_START)) else m.

Lemma entry_fill_view m p ty first e :
  mem_eq (apply_events m (entry_fill p ty first e)) (filled m p ty first e).
Proof.
  unfold entry_fill, filled. rewrite !apply_events_app.
  rewrite apply_events_cons, cached_data. cbn [apply_event].
  destruct first; run_events; done.
Qed.

Lemma read_write_disjoint m a n b bs :
  disjoint_ranges b (Z.of_nat (length bs)) a (Z.of_nat n) →
  read_bytes (write_bytes m b bs) a n = read_bytes m a n.
Proof.
  intros Hd. apply read_bytes_ext. intros x Hx. apply write_bytes_out.
  unfold in_range, disjoint_ranges in *. lia.
Qed.

Lemma slot_is_proper m1 m2 p g e : mem_eq m1 m2 → slot_is m1 p g e → slot_is m2 p g e.
Proof. intros E. apply (slot_opt_ext m1 m2 p g (Some e)). by apply mem_eq_agree. Qed.

Lemma filled_slot m p g ty first e :
  entry_fits e → 0 <= g < 2 ^ 16 → 0 <= ty < 2 ^ 8 → e_type e = start_type ty first →
  slot_is (write_bytes (filled m p ty first e) (p + le_gen_id) (bytes_of 2 g)) p g e.
Proof.
  intros [Ha Ht Hn] Hg Hty Hte.
  assert (Hst : 0 <= start_type ty first < 2 ^ 8).
  { unfold start_type, LE_START. destruct first; [|lia]. split; [apply Z.lor_nonneg; lia|].
    destruct (decide (ty = 0)) as [->|]; [done|].
    apply Z.log2_lt_cancel. rewrite Z.log2_lor, Z.log2_pow2 by lia.
    apply Z.max_lub_lt; [apply Z.log2_lt_pow2; lia|simpl; lia]. }
  unfold filled, start_type in *. constructor; [| | | | | |le_offsets; lia].
  - destruct first; read_slot; apply Z.mod_small; lia.
  - destruct first; read_slot; apply Z.mod_small; lia.
  - destruct first; read_slot; apply Z.mod_small; lia.
  - rewrite Hte. destruct first; read_slot; apply Z.mod_small; lia.
  - destruct first; read_slot; apply Z.mod_small; le_offsets; lia.
  - destruct first; repeat (rewrite read_write_disjoint by
      (rewrite ?length_bytes_of; unfold disjoint_ranges; le_offsets; lia));
      by apply read_write_same.
Qed.

(** Whatever the slot held, filling it keeps its generation field. *)
Lemma entry_fill_in p ty first e :
  e_len e <= sizeof_le_data →
  stores_in (λ x, in_range p 64 x ∧ ¬ in_range (p + le_gen_id) 2 x) (entry_fill p ty first e).
Proof.
  intros Hn. unfold entry_fill. apply stores_in_app. split; [|apply stores_in_app; split].
  - le_offsets. repeat first [apply stores_in_nil | apply stores_in_store];
      intros x; rewrite length_bytes_of; unfold in_range; lia.
  - case_match; [apply stores_in_nil|]. eapply stores_in_mono; [apply cached_stores|].
    le_offsets. unfold in_range. intros. lia.
  - le_offsets. destruct first; repeat first [apply stores_in_nil | apply stores_in_store];
      intros x; rewrite length_bytes_of; unfold in_range; lia.
Qed.

Lemma gen_event_in p g : stores_in (in_range (p + le_gen_id) 2) [gen_event p g].
Proof.
  apply stores_in_store; [|apply stores_in_nil]. intros x. by rewrite length_bytes_of.
Qed.

Lemma aligned_field p o n : p mod 64 = 0 → (n | 64) → (n | o) → 0 < n → (p + o) mod n = 0.
Proof.
  intros Hp [a Ha] [b ->] Hn. apply Z.mod_divide in Hp as [c ->]; [|lia]. rewrite Ha.
  replace (c * (a * n) + b * n) with ((c * a + b) * n) by lia. by apply Z.mod_mul; lia.
Qed.

Lemma field_ok p o n v :
  p mod 64 = 0 → (0 < n)%nat → (Z.of_nat n | 64) → (Z.of_nat n | o) →
  ev_ok (EStore false (p + o) (bytes_of n v)).
Proof. intros. apply ev_ok_aligned; [done..|]. apply aligned_field; [done..|lia]. Qed.

Ltac solve_field := apply field_ok; [done|lia|by apply Z.mod_divide|by apply Z.mod_divide].

Lemma entry_fill_ok p ty first e : p mod 64 = 0 → Forall ev_ok (entry_fill p ty first e).
Proof.
  intros Hp. unfold entry_fill. apply Forall_app_2; [|apply Forall_app_2].
  - events_ok; solve_field.
  - case_match; [constructor|apply cached_in_line].
  - destruct first; events_ok; solve_field.
Qed.

Lemma gen_event_ok p g : p mod 64 = 0 → ev_ok (gen_event p g).
Proof. intros Hp. unfold gen_event. solve_field. Qed.
End Slot.

(** ** [pmfs_add_logentry] *)

Section Add.
Context `{CachedWrite}.
Variable clwb : bool.

(** The entry the current round of [add_loop] writes. *)
Definition round_entry (m : mem) (first : bool) (tid ty le_start addr sz : Z) : lentry :=
  LE le_start tid (start_type ty first) (read_bytes m addr (Z.to_nat sz)).

Lemma round_entry_len m first tid ty ls addr sz :
  0 <= sz → e_len (round_entry m first tid ty ls addr sz) = sz.
Proof. intros. unfold e_len. simpl. rewrite length_read_bytes. lia. Qed.

Lemma log_load s es n a : load n (view (log_state s es)) a = load n (apply_events (view s) es) a.
Proof. done. Qed.

(** One round, up to the validation of the slot. *)
Lemma add_loop_step count sbi i num_les ls addr size p ty trans s :
  let sz := if i =? num_les - 1 then size else sizeof_le_data in
  let first := (i =? 0) && (num_used trans =? 0) in
  let e := round_entry (view s) first (transaction_id trans) ty ls addr sz in
  let trans' := set_num_used trans (num_used trans + 1) in
  0 <= sz <= sizeof_le_data → sz <= size < 2 ^ 16 → 0 <= ty < 2 ^ 8 →
  0 <= num_used trans → num_used trans + 1 < 2 ^ 16 →
  (∀ x, in_range addr sz x → ¬ in_range p 64 x) →
  add_loop clwb (S count) sbi i num_les ls addr size p ty trans s =
  (if (i =? num_les - 1) && has_flag ty LE_COMMIT then
     pmfs_commit_logentry clwb sbi trans' p;; mret (true, trans')
   else
     store 2 (p + le_gen_id) (gen_id trans);;
     pmfs_flush_buffer clwb p LOGENTRY_SIZE false;;
     add_loop clwb count sbi (i + 1) num_les (u64 (ls + sz)) (addr + sz) (size - sz)
       (p + LOGENTRY_SIZE) ty trans') (log_state s (entry_fill p ty first e)).
Proof.
  cbv zeta. intros Hsz Hsize Hty Hu Hu1 Hdis. cbn [add_loop].
  erewrite bind_Ok; [|apply store_eq]. erewrite bind_Ok; [|apply store_eq].
  erewrite bind_Ok; [|apply store_eq]. rewrite !log_state_app.
  unfold sizeof_le_data in *. set (sz := if i =? num_les - 1 then size else 48) in *.
  assert (E8 : u8 sz = sz) by (apply wrap_small; lia). rewrite E8.
  assert (E16 : u16 (size - sz) = size - sz) by (apply wrap_small; lia). rewrite E16.
  set (first := (i =? 0) && (num_used trans =? 0)).
  set (e := round_entry (view s) first (transaction_id trans) ty ls addr sz).
  assert (Hlen : e_len e = sz) by (apply round_entry_len; lia).
  match goal with |- (mbind _ _) (log_state s ?l) = _ => set (es1 := l) end.
  assert (Hes1 : es1 = [EStore false (p + le_addr_offset) (bytes_of 8 (e_addr e));
    EStore false (p + le_transaction_id) (bytes_of 4 (e_tid e));
    EStore false (p + le_size) (bytes_of 1 (e_len e))]) by (by rewrite Hlen).
  assert (Hcopy : when (negb (sz =? 0)) (memcpy (p + le_data) addr sz) (log_state s es1) =
    Ok ((), log_state (log_state s es1)
      (if e_len e =? 0 then [] else cached_events (p + le_data) (e_data e)))).
  { rewrite Hlen. destruct (Z.eqb_spec sz 0); simpl; [by rewrite log_state_nil|].
    rewrite memcpy_eq. do 4 f_equal. apply read_bytes_ext. intros x Hx. simpl.
    eapply apply_events_frame; [|apply (Hdis x); unfold in_range in *; lia].
    rewrite Hes1. unfold le_addr_offset, le_transaction_id, le_size.
    repeat first [apply stores_in_nil | apply stores_in_store];
      intros y; rewrite length_bytes_of; unfold in_range; lia. }
  erewrite bind_Ok; [|exact Hcopy]. rewrite log_state_app.
  erewrite bind_Ok; [|apply store_eq]. rewrite log_state_app.
  match goal with |- (mbind _ _) (log_state s ?l) = _ => set (es2 := l) end.
  assert (Hstart : when first (t ← fetch 1 (p + le_type); store 1 (p + le_type) (Z.lor t LE_START))
    (log_state s es2) = Ok ((), log_state s (entry_fill p ty first e))).
  { unfold entry_fill. rewrite <- Hes1, app_assoc. fold es2. destruct first; simpl when.
    - erewrite bind_Ok; [|apply fetch_eq]. rewrite store_eq, log_state_app.
      assert (Ety : load 1 (view (log_state s es2)) (p + le_type) = ty).
      { unfold es2. rewrite log_load, apply_events_app. run_events.
        rewrite load_write_same. apply Z.mod_small. lia. }
      rewrite Ety. do 3 f_equal. unfold es2. by rewrite <- app_assoc.
    - done. }
  erewrite bind_Ok; [|exact Hstart].
  replace (u16 (num_used trans + 1)) with (num_used trans + 1) by (rewrite wrap_small; lia).
  by destruct (_ && _).
Qed.
End Add.

(** ** [pmfs_add_logentry] for data *)

Section AddData.
Context `{CachedWrite}.
Variable clwb : bool.

(** The entries logging [size] bytes at [addr] takes, with the bytes of [m]. *)
Fixpoint add_entries (count : nat) (m : mem) (tid : Z) (first : bool) (addr size : Z) : list lentry :=
  match count with
  | O => []
  | S n =>
      let sz := match n with O => size | S _ => sizeof_le_data end in
      round_entry m first tid LE_DATA addr addr sz ::
        add_entries n m tid false (addr + sz) (size - sz)
  end.

(** Filling, validating and writing back one slot. *)
Definition slot_events (p g ty : Z) (first : bool) (e : lentry) : list event :=
  entry_fill p ty first e ++ gen_event p g :: flush_events clwb p LOGENTRY_SIZE.

Lemma slot_events_in p g ty first e :
  e_len e <= sizeof_le_data → stores_in (in_range p 64) (slot_events p g ty first e).
Proof.
  intros Hn. unfold slot_events. apply stores_in_app. split.
  - eapply stores_in_mono; [by apply entry_fill_in|]. by intros x [].
  - apply stores_in_cons. split; [|apply stores_in_flushes, flush_events_flushes].
    eapply stores_in_mono; [apply gen_event_in|]. unfold in_range, le_gen_id. lia.
Qed.

Lemma slot_events_ok p g ty first e :
  p mod 64 = 0 → Forall ev_ok (slot_events p g ty first e).
Proof.
  intros Hp. unfold slot_events. apply Forall_app_2; [by apply entry_fill_ok|].
  events_ok. by apply gen_event_ok.
Qed.

(** The stores and flushes that put them into the slots from [p]. *)
Fixpoint add_events (p g : Z) (first : bool) (l : list lentry) : list event :=
  match l with
  | [] => []
  | e :: l =>
      slot_events p g LE_DATA first e ++ add_events (p + LOGENTRY_SIZE) g false l
  end.

(** [count] slots hold [size] bytes and no fewer do. *)
Definition chunked (count : nat) (size : Z) : Prop :=
  sizeof_le_data * (Z.of_nat count - 1) < size <= sizeof_le_data * Z.of_nat count.

Lemma length_add_entries count m tid first addr size :
  length (add_entries count m tid first addr size) = count.
Proof. revert first addr size. induction count as [|n IH]; intros; simpl; [done|]. by rewrite IH. Qed.

Lemma add_entries_ext count m1 m2 tid first addr size :
  chunked count size → agree (in_range addr size) m1 m2 →
  add_entries count m1 tid first addr size = add_entries count m2 tid first addr size.
Proof.
  unfold chunked, sizeof_le_data. revert first addr size.
  induction count as [|n IH]; intros first addr size Hc Ha; simpl; [done|]. unfold sizeof_le_data.
  set (sz := match n with O => size | S _ => 48 end).
  assert (Hsz : 0 <= sz <= size) by (subst sz; destruct n; lia). f_equal.
  - unfold round_entry. f_equal. apply read_bytes_ext. eapply agree_mono; [exact Ha|].
    unfold in_range. lia.
  - destruct n as [|n]; [done|]. apply IH; [subst sz; lia|]. eapply agree_mono; [exact Ha|].
    unfold in_range. lia.
Qed.

(** The entries cover the range, hold its bytes and fit their fields. *)
Lemma add_entries_elem count m tid first addr size :
  chunked count size → 0 <= addr → addr + size < 2 ^ 64 → 0 <= tid < 2 ^ 32 →
  Forall (λ e, e_tid e = tid ∧ entry_fits e ∧ addr <= e_addr e ∧ e_addr e + e_len e <= addr + size ∧
    e_data e = read_bytes m (e_addr e) (length (e_data e)))
    (add_entries count m tid first addr size).
Proof.
  unfold chunked, sizeof_le_data. revert first addr size.
  induction count as [|k IH]; intros first addr size Hc Ha Hb Ht; [constructor|]. simpl.
  unfold sizeof_le_data. set (sz := match k with O => size | _ => 48 end).
  assert (Hsz : 0 <= sz <= 48 ∧ sz <= size) by (subst sz; destruct k; lia). constructor.
  - pose proof (round_entry_len m first tid LE_DATA addr addr sz ltac:(lia)) as Hlen.
    rewrite Hlen. split_and!; simpl; try lia.
    + constructor; rewrite ?Hlen; unfold sizeof_le_data; simpl; lia.
    + by rewrite length_read_bytes.
  - destruct k as [|k]; [constructor|]. eapply Forall_impl; [apply IH; subst sz; lia|].
    simpl. intros e (? & ? & ? & ? & ?). split_and!; try done; lia.
Qed.

Lemma add_entries_cover count m tid first addr size x :
  chunked count size → in_range addr size x → in_entries (add_entries count m tid first addr size) x.
Proof.
  unfold chunked, sizeof_le_data. revert first addr size.
  induction count as [|k IH]; intros first addr size Hc Hx; [unfold in_range in Hx; lia|]. simpl.
  unfold sizeof_le_data. set (sz := match k with O => size | _ => 48 end).
  assert (Hsz : 0 <= sz <= 48 ∧ sz <= size) by (subst sz; destruct k; lia).
  apply in_entries_cons. destruct (decide (x < addr + sz)).
  - left. unfold e_range. rewrite round_entry_len by lia. unfold in_range in *. simpl. lia.
  - right. destruct k as [|k]; [unfold in_range, sz in *; lia|].
    apply IH; unfold in_range in *; subst sz; lia.
Qed.

(** The types [add_events] stores. *)
Definition types_ok (first : bool) (es : list lentry) : Prop :=
  match es with
  | [] => True
  | e :: es => e_type e = start_type LE_DATA first ∧ Forall (λ e, e_type e = LE_DATA) es
  end.

Lemma add_entries_open count m tid first addr size :
  types_ok first (add_entries count m tid first addr size).
Proof.
  assert (Hd : ∀ k addr size, Forall (λ e, e_type e = LE_DATA) (add_entries k m tid false addr size)).
  { induction k as [|k IH]; intros a z; constructor; [done|apply IH]. }
  destruct count as [|k]; [done|]. split; [done|apply Hd].
Qed.

Lemma add_loop_data count sbi i addr size p trans s :
  let first := (i =? 0) && (num_used trans =? 0) in
  let es := add_entries count (view s) (transaction_id trans) first addr size in
  chunked count size → size < 2 ^ 16 → 0 <= addr → addr + size < 2 ^ 64 → 0 <= i →
  0 <= num_used trans → num_used trans + Z.of_nat count < 2 ^ 16 →
  (∀ x, in_range addr size x → ¬ in_range p (64 * Z.of_nat count) x) →
  add_loop clwb count sbi i (i + Z.of_nat count) addr addr size p LE_DATA trans s =
  Ok ((false, set_num_used trans (num_used trans + Z.of_nat count)),
      log_state s (add_events p (gen_id trans) first es)).
Proof.
  cbv zeta. unfold chunked. revert i addr size p trans s.
  induction count as [|n IH]; intros i addr size p trans s Hc Hs Ha Hb Hi Hu Hu' Hd.
  { simpl. rewrite Z.add_0_r, log_state_nil. by destruct trans. }
  unfold sizeof_le_data in Hc.
  assert (Ei : (i =? i + Z.of_nat (S n) - 1) = match n with O => true | S _ => false end).
  { destruct n; [apply Z.eqb_eq; lia|apply Z.eqb_neq; lia]. }
  set (sz := match n with O => size | S _ => 48 end).
  assert (Hsz : 0 <= sz <= 48 ∧ sz <= size) by (subst sz; destruct n; lia).
  assert (Eif : (if i =? i + Z.of_nat (S n) - 1 then size else sizeof_le_data) = sz)
    by (rewrite Ei; by destruct n).
  rewrite add_loop_step; rewrite ?Eif; [|unfold LE_DATA, sizeof_le_data; try lia..].
  2: { unfold in_range in *. intros x Hx. specialize (Hd x). lia. }
  rewrite andb_false_r. erewrite bind_Ok; [|apply store_eq].
  erewrite bind_Ok; [|apply pmfs_flush_buffer_eq; unfold LOGENTRY_SIZE; lia]. rewrite !log_state_app.
  assert (E64 : u64 (addr + sz) = addr + sz) by (apply wrap_small; lia). rewrite E64.
  set (first := (i =? 0) && (num_used trans =? 0)).
  set (e := round_entry _ _ _ _ _ _ _).
  assert (He : e_len e = sz) by (apply round_entry_len; lia).
  change (_ ++ [EStore false (p + le_gen_id) _] ++ _ ++ fence_events false)
    with (entry_fill p LE_DATA first e ++ gen_event p (gen_id trans) ::
      flush_events clwb p LOGENTRY_SIZE ++ []).
  rewrite app_nil_r. fold (slot_events p (gen_id trans) LE_DATA first e).
  set (es := slot_events _ _ _ _ _).
  assert (Hes : stores_in (in_range p 64) es).
  { apply slot_events_in. unfold sizeof_le_data. lia. }
  destruct n as [|n].
  - cbn [add_entries add_events]. by rewrite app_nil_r.
  - replace (i + Z.of_nat (S (S n))) with (i + 1 + Z.of_nat (S n)) by lia.
    rewrite IH; [|unfold sizeof_le_data, LOGENTRY_SIZE in *; simpl num_used; try lia..].
    2: { unfold in_range in *. intros x Hx. specialize (Hd x). lia. }
    destruct (Z.eqb_spec (i + 1) 0); [lia|]. cbn [andb].
    rewrite (add_entries_ext (S n) (view (log_state s es)) (view s)), log_state_app.
    + replace (num_used trans + Z.of_nat (S (S n)))
        with (num_used trans + 1 + Z.of_nat (S n)) by lia. reflexivity.
    + unfold chunked, sizeof_le_data. lia.
    + intros x Hx. simpl. eapply apply_events_frame; [exact Hes|]. specialize (Hd x).
      unfold in_range in *. lia.
Qed.
End AddData.

(** ** The calls *)

Section Calls.
Context `{CachedWrite}.
Variable clwb : bool.
Implicit Types (sbi : pmfs_sb_info) (trans : pmfs_transaction).

(** The number of entries [size] bytes take. *)
Lemma log_entries_for_chunked size ty :
  0 < size → chunked (Z.to_nat (log_entries_for size ty)) size ∧ 0 < log_entries_for size ty.
Proof.
  intros Hs. unfold log_entries_for, chunked, sizeof_le_data.
  destruct (Z.eqb_spec size 0); [lia|].
  pose proof (Z.div_mod (size + 48 - 1) 48 ltac:(lia)).
  pose proof (Z.mod_pos_bound (size + 48 - 1) 48 ltac:(lia)). lia.
Qed.

(** A transaction record whose slots start at [p]. *)
Record trans_at trans (p : Z) : Prop := {
  ta_start : start_addr trans = Some p;
  ta_used : 0 <= num_used trans;
  ta_entries : num_entries trans < 2 ^ 16
}.

(** A call that does not fit the reservation stores nothing. *)
Lemma add_logentry_full sbi trans addr size ty s :
  num_entries trans < num_used trans + log_entries_for size ty →
  pmfs_add_logentry clwb sbi (Some trans) addr size ty s = Ok ((- ENOMEM, Some trans), s).
Proof.
  intros Hf. unfold pmfs_add_logentry.
  by destruct (Z.gtb_spec (num_used trans + log_entries_for size ty) (num_entries trans)); [|lia].
Qed.

Lemma add_logentry_data sbi trans addr size p0 s :
  let n := log_entries_for size LE_DATA in
  let first := num_used trans =? 0 in
  let p := p0 + LOGENTRY_SIZE * num_used trans in
  redo_log sbi = false → trans_at trans p0 →
  0 < size < 2 ^ 16 → 0 <= addr → addr + size < 2 ^ 64 →
  num_used trans + n <= num_entries trans →
  (∀ x, in_range addr size x → ¬ in_range p (64 * n) x) →
  pmfs_add_logentry clwb sbi (Some trans) addr size LE_DATA s =
  Ok ((0, Some (set_num_used trans (num_used trans + n))),
      log_state s (add_events clwb p (gen_id trans) first
        (add_entries (Z.to_nat n) (view s) (transaction_id trans) first addr size) ++ [EFence])).
Proof.
  cbv zeta. intros Hr [Hst Hu He] Hs Ha Hb Hn Hd.
  destruct (log_entries_for_chunked size LE_DATA) as [Hc Hpos]; [lia|].
  unfold pmfs_add_logentry. set (n := log_entries_for size LE_DATA) in *.
  destruct (Z.gtb_spec (num_used trans + n) (num_entries trans)); [lia|].
  destruct (Z.eqb_spec size 0); [lia|]. rewrite Hst. erewrite bind_Ok; [|done].
  unfold pmfs_get_addr_off.
  assert (En : n = 0 + Z.of_nat (Z.to_nat n)) by lia. rewrite En at 2.
  erewrite bind_Ok; [|apply add_loop_data; try done; try lia].
  2: { intros x Hx. specialize (Hd x Hx). unfold LOGENTRY_SIZE in *.
       by replace (Z.of_nat (Z.to_nat n)) with n by lia. }
  rewrite Hr. simpl negb. cbn [when].
  erewrite bind_Ok; [|apply emit_eq]. rewrite log_state_app. simpl andb.
  by replace (Z.of_nat (Z.to_nat n)) with n by lia.
Qed.

(** The record that closes a transaction. *)
Definition close_entry (tid ty : Z) (first : bool) : lentry := LE 0 tid (start_type ty first) [].

Lemma add_loop_close sbi p ty trans s :
  let first := num_used trans =? 0 in
  let trans' := set_num_used trans (num_used trans + 1) in
  0 <= ty < 2 ^ 8 → 0 <= num_used trans → num_used trans + 1 < 2 ^ 16 →
  add_loop clwb 1 sbi 0 1 0 0 0 p ty trans s =
  (if has_flag ty LE_COMMIT then pmfs_commit_logentry clwb sbi trans' p;; mret (true, trans')
   else
     store 2 (p + le_gen_id) (gen_id trans);;
     pmfs_flush_buffer clwb p LOGENTRY_SIZE false;; mret (false, trans'))
  (log_state s (entry_fill p ty first (close_entry (transaction_id trans) ty first))).
Proof.
  cbv zeta. intros Hty Hu Hu1.
  rewrite (add_loop_step clwb 0 sbi 0 1 0 0 0 p ty trans s);
    simpl; unfold sizeof_le_data, in_range; try lia.
  reflexivity.
Qed.

(** The abort record. *)
Lemma add_logentry_abort sbi trans p s :
  let first := num_used trans =? 0 in
  redo_log sbi = false → trans_at trans p → num_used trans + 1 <= num_entries trans →
  pmfs_add_logentry clwb sbi (Some trans) 0 0 LE_ABORT s =
  Ok ((0, Some (set_num_used trans (num_used trans + 1))),
      log_state s (slot_events clwb (p + LOGENTRY_SIZE * num_used trans) (gen_id trans) LE_ABORT first
        (close_entry (transaction_id trans) LE_ABORT first) ++ [EFence])).
Proof.
  cbv zeta. intros Hr [Hst Hu He] Hn. unfold pmfs_add_logentry.
  change (log_entries_for 0 LE_ABORT) with 1.
  destruct (Z.gtb_spec (num_used trans + 1) (num_entries trans)); [lia|].
  rewrite Hst. erewrite bind_Ok; [|done].
  change (Z.to_nat 1) with 1%nat. simpl Z.eqb. cbn iota.
  set (p1 := p + LOGENTRY_SIZE * num_used trans). set (first := num_used trans =? 0).
  erewrite bind_Ok.
  2: { rewrite add_loop_close by (unfold LE_ABORT; lia).
    change (has_flag LE_ABORT LE_COMMIT) with false. cbn iota.
    erewrite bind_Ok; [|apply store_eq].
    erewrite bind_Ok; [|apply pmfs_flush_buffer_eq; unfold LOGENTRY_SIZE; lia].
    rewrite !log_state_app. reflexivity. }
  cbn iota. rewrite Hr. cbn [negb when]. erewrite bind_Ok; [|apply emit_eq].
  rewrite log_state_app. unfold mret, M_ret. do 3 f_equal.
  unfold slot_events. rewrite app_nil_r, <- !app_assoc. reflexivity.
Qed.

(** *** Commit *)

(** The lines of the logged ranges. *)
Definition flush_logged (l : list lentry) : list event :=
  l ≫= λ e, match e_data e with [] => [] | _ => flush_events clwb (e_addr e) (e_len e) end.

Lemma flush_logged_flushes l : Forall is_flush (flush_logged l).
Proof.
  induction l as [|e l IH]; [constructor|]. unfold flush_logged in *. simpl.
  apply Forall_app_2; [|done]. destruct (e_data e); [constructor|apply flush_events_flushes].
Qed.

Lemma flush_logged_cover l x :
  in_entries l x → ∃ a, EFlush clwb a ∈ flush_logged l ∧ line a = line x.
Proof.
  intros (e & He & Hx). unfold flush_logged.
  destruct (flush_events_cover clwb (e_addr e) (e_len e) x) as (a & Ha & E);
    [unfold e_len; lia|done|]. exists a. split; [|done].
  apply list_elem_of_bind. exists e. split; [|done]. destruct (e_data e) eqn:Ed; [|done].
  unfold e_range, e_len, in_range in Hx. rewrite Ed in Hx. simpl in Hx. lia.
Qed.

Lemma flush_trans_loop_eq J g p l k s :
  slots (view s) g p (Some <$> l) → Forall (entry_ok J) l →
  flush_trans_loop clwb (length l + k) false p s =
  flush_trans_loop clwb k false (p + nslots l) (log_state s (flush_logged l)).
Proof.
  revert p s. induction l as [|e l IH]; intros p s Hs Hok.
  { by rewrite nslots_nil, Z.add_0_r, log_state_nil. }
  destruct Hs as [[H1 H2 _ _ H5 _ H7] Hs]. apply Forall_cons in Hok as [He Hok].
  simpl. erewrite bind_Ok; [|apply fetch_eq]. rewrite H5.
  assert (E : (if negb (e_len e =? 0) then
      addr ← fetch 8 (p + le_addr_offset); data ← deref (pmfs_get_block addr);
      pmfs_flush_buffer clwb data (e_len e) false;;
      when false (memcpy data (p + le_data) (e_len e)) else mret ()) s
    = Ok ((), log_state s (flush_logged [e]))).
  { unfold flush_logged. simpl. rewrite app_nil_r. unfold e_len, sizeof_le_data in *.
    destruct (e_data e) eqn:Ed; [by rewrite log_state_nil|]. rewrite <- Ed in *.
    destruct (Z.eqb_spec (Z.of_nat (length (e_data e))) 0) as [E0|_]; [rewrite Ed in E0; simpl in E0; lia|].
    destruct He as [?|[He _]]; [congruence|]. cbn [negb]. cbn iota.
    erewrite bind_Ok; [|apply fetch_eq]. rewrite H2. unfold pmfs_get_block.
    destruct (Z.eqb_spec (e_addr e) 0); [lia|]. erewrite bind_Ok; [|done].
    erewrite bind_Ok; [|apply pmfs_flush_buffer_eq; lia]. by rewrite app_nil_r. }
  erewrite bind_Ok; [|exact E]. rewrite IH; [|cbn [log_state view]|done].
  - rewrite log_state_app, nslots_cons. f_equal; [lia|]. do 2 f_equal.
    unfold flush_logged. simpl. by rewrite app_nil_r.
  - rewrite apply_events_no_store; [done|apply is_flush_no_store, flush_logged_flushes].
Qed.

(** From the commit record's type to its fence. *)
Definition commit_events (p g ty : Z) : list event :=
  EStore false (p + le_type) (bytes_of 1 ty) :: gen_event p g ::
  flush_events clwb p LOGENTRY_SIZE ++ [EFence].

Lemma commit_logentry_eq J sbi trans p0 l ty s :
  let p := p0 + nslots l in
  redo_log sbi = false → start_addr trans = Some p0 → num_used trans = Z.of_nat (length l) + 1 →
  slots (view s) (gen_id trans) p0 (Some <$> l) → Forall (entry_ok J) l →
  load 1 (view s) (p + le_size) = 0 → load 1 (view s) (p + le_type) = ty →
  pmfs_commit_logentry clwb sbi trans p s =
  Ok ((), log_state s (flush_logged l ++ [EFence] ++
    commit_events p (gen_id trans) (Z.lor ty LE_COMMIT))).
Proof.
  cbv zeta. intros Hr Hst Hu Hs Hok Hz Hty. unfold pmfs_commit_logentry. rewrite Hr.
  unfold pmfs_flush_transaction. rewrite Hst, Hr, bind_assoc. erewrite bind_Ok; [|done].
  replace (Z.to_nat (num_used trans)) with (length l + 1)%nat by lia.
  erewrite bind_Ok.
  2: { erewrite (flush_trans_loop_eq J); [|done..]. simpl.
    erewrite bind_Ok; [|apply fetch_eq]. simpl.
    rewrite (apply_events_no_store _ (flush_logged l)), Hz
      by apply is_flush_no_store, flush_logged_flushes. reflexivity. }
  erewrite bind_Ok; [|apply emit_eq]. erewrite bind_Ok; [|apply fetch_eq]. rewrite log_state_app.
  assert (E : load 1 (view (log_state s (flush_logged l ++ [EFence]))) (p0 + nslots l + le_type) = ty).
  { simpl. rewrite apply_events_app. run_events. fold (apply_events (view s) (flush_logged l)).
    by rewrite (apply_events_no_store _ (flush_logged l))
      by apply is_flush_no_store, flush_logged_flushes. }
  rewrite E. erewrite bind_Ok; [|apply store_eq]. erewrite bind_Ok; [|apply store_eq].
  rewrite pmfs_flush_buffer_eq by (unfold LOGENTRY_SIZE; lia).
  rewrite !log_state_app. do 3 f_equal. unfold commit_events, gen_event. cbn [fence_events].
  by rewrite <- !app_assoc.
Qed.

Lemma commit_transaction_eq J sbi trans p0 l s :
  let p := p0 + nslots l in
  let first := num_used trans =? 0 in
  let ty := start_type LE_COMMIT first in
  redo_log sbi = false → trans_at trans p0 → num_used trans = Z.of_nat (length l) →
  num_used trans + 1 <= num_entries trans →
  slots (view s) (gen_id trans) p0 (Some <$> l) → Forall (entry_ok J) l →
  pmfs_commit_transaction clwb sbi (Some trans) s =
  Ok ((0, set_journal_info sbi (parent trans)),
      log_state s (entry_fill p LE_COMMIT first (close_entry (transaction_id trans) LE_COMMIT first) ++
        flush_logged l ++ [EFence] ++ commit_events p (gen_id trans) (Z.lor ty LE_COMMIT))).
Proof.
  cbv zeta. intros Hr [Hst Hu He] Hul Hn Hs Hok.
  unfold pmfs_commit_transaction, pmfs_add_logentry.
  change (log_entries_for 0 LE_COMMIT) with 1.
  destruct (Z.gtb_spec (num_used trans + 1) (num_entries trans)); [lia|].
  rewrite Hst, bind_assoc. erewrite bind_Ok; [|done]. rewrite bind_assoc.
  change (Z.to_nat 1) with 1%nat. simpl Z.eqb. cbn iota.
  replace (p0 + LOGENTRY_SIZE * num_used trans) with (p0 + nslots l) by (unfold nslots; rewrite Hul; lia).
  set (p := p0 + nslots l). set (first := num_used trans =? 0).
  set (e := close_entry (transaction_id trans) LE_COMMIT first).
  assert (Hfill : stores_in (in_range p 64) (entry_fill p LE_COMMIT first e)).
  { eapply stores_in_mono; [apply entry_fill_in; simpl; unfold e_len, sizeof_le_data; simpl; lia|].
    by intros x []. }
  assert (Hv : mem_eq (apply_events (view s) (entry_fill p LE_COMMIT first e))
    (filled (view s) p LE_COMMIT first e)) by apply entry_fill_view.
  erewrite bind_Ok.
  2: { rewrite add_loop_close by (unfold LE_COMMIT; lia). fold first e.
    change (has_flag LE_COMMIT LE_COMMIT) with true. cbn iota.
    erewrite bind_Ok.
    2: { eapply (commit_logentry_eq J _ _ p0 l (start_type LE_COMMIT first)); try done; simpl.
      - lia.
      - eapply slots_ext; [|exact Hs]. intros x Hx. symmetry.
        eapply apply_events_frame; [exact Hfill|]. unfold p, in_range, nslots in *.
        rewrite length_fmap in Hx. lia.
      - fold p. rewrite Hv. unfold filled, start_type. destruct first; read_slot; done.
      - fold p. rewrite Hv. unfold filled, start_type. destruct first; read_slot; done. }
    rewrite log_state_app. reflexivity. }
  reflexivity.
Qed.
End Calls.

(** *** Abort *)

Section Ends.
Context `{CachedWrite}.
Variables (clwb : bool) (l : layout).
Hypothesis Hl : layout_ok l.

Lemma abort_transaction_eq J sbi trans p0 es s :
  let p := p0 + nslots es in
  let first := num_used trans =? 0 in
  redo_log sbi = false → trans_at trans p0 → num_used trans = Z.of_nat (length es) →
  num_used trans + 1 <= num_entries trans →
  slots (view s) (gen_id trans) p0 (Some <$> es) → Forall (entry_ok J) es →
  (∀ x, in_range p0 (nslots es) x → J x) →
  pmfs_abort_transaction clwb sbi (Some trans) s =
  Ok ((0, set_journal_info sbi (parent trans)),
      log_state s (undo_events clwb (rev es) ++ [EFence] ++
        slot_events clwb p (gen_id trans) LE_ABORT first
          (close_entry (transaction_id trans) LE_ABORT first) ++ [EFence])).
Proof.
  cbv zeta. intros Hr Ht Hul Hn Hs Hok HJ. unfold pmfs_abort_transaction. rewrite Hr.
  cbn [negb when]. rewrite bind_assoc. unfold pmfs_undo_transaction.
  rewrite (ta_start _ _ Ht), bind_assoc. erewrite bind_Ok; [|done].
  replace (Z.to_nat (num_used trans)) with (length (Some <$> es)) by (rewrite length_fmap; lia).
  erewrite bind_Ok.
  2: { apply (undo_loop_eq clwb J); [exact Hs|by rewrite valid_some|].
    intros x. unfold nslots in *. rewrite length_fmap. apply HJ. }
  rewrite valid_some. erewrite bind_Ok; [|apply emit_eq].
  erewrite bind_Ok; [|by apply (add_logentry_abort clwb _ _ p0)].
  rewrite !log_state_app. unfold mret, M_ret.
  replace (LOGENTRY_SIZE * num_used trans) with (nslots es) by (unfold nslots; rewrite Hul; lia).
  rewrite <- ?app_assoc. reflexivity.
Qed.

(** *** Begin *)

(** The new tail is stored and written back, without a fence. *)
Definition begin_events (tl : Z) : list event :=
  EStore false (l_journal l + j_tail) (bytes_of 4 tl) ::
  flush_events clwb (l_journal l + j_tail) 8.

(** The transaction record [pmfs_new_transaction] returns. *)
Definition begun (sbi : pmfs_sb_info) (self n tl g : Z) : pmfs_transaction :=
  Trans self (next_transaction_id sbi) (n + 1) 0 g (Some (l_base l + tl)) (journal_info sbi).

Lemma reserve_eq fuel sbi req hd tl g s :
  jstate l (view s) hd tl g → jsize sbi = l_size l →
  0 <= hd <= tl → tl mod 64 = 0 → req mod 64 = 0 → 0 < req → tl + req < l_size l →
  reserve clwb (S fuel) sbi (l_journal l) hd tl req s =
  Ok (Some (l_base l + tl, g, l_size l - (tl - hd) - LOGENTRY_SIZE),
      log_state s (begin_events (tl + req))).
Proof using Hl.
  intros Hj Hjs Hhd Htm Hrm Hreq Hfit.
  destruct Hl as [Hlj [Hbm Hb] [Hsm Hsz] He _]. destruct Hj as [H1 H2 H3 H4 H5 H6 H7].
  assert (Hroom : tl + req <= l_size l - 64).
  { apply Z.mod_divide in Htm as [a ->], Hsm as [b Eb], Hrm as [c ->]; lia. }
  cbn [reserve]. erewrite bind_Ok; [|apply fetch_eq]. rewrite H6.
  destruct (Z.geb_spec tl hd); [|lia]. rewrite Hjs.
  rewrite (wrap_small 32 (tl - hd)), (wrap_small 32 (l_size l - (tl - hd))) by lia.
  unfold LOGENTRY_SIZE. rewrite (wrap_small 32 (l_size l - (tl - hd) - 64)) by lia.
  destruct (Z.ltb_spec (l_size l - (tl - hd) - 64) req); [lia|]. erewrite bind_Ok; [|done].
  cbn iota. erewrite bind_Ok; [|apply fetch_eq]. rewrite H2.
  rewrite (wrap_small 64 (l_base l + tl)), (wrap_small 32 (tl + req)) by lia.
  destruct (Z.geb_spec (tl + req) (l_size l)); [lia|]. erewrite bind_Ok; [|apply store_eq].
  erewrite bind_Ok; [|apply pmfs_flush_buffer_eq; lia].
  unfold begin_events. by rewrite log_state_app, app_nil_r.
Qed.

Theorem new_transaction_eq fuel sbi self n hd tl g s :
  jstate l (view s) hd tl g → redo_log sbi = false → jsize sbi = l_size l →
  0 <= hd <= tl → tl mod 64 = 0 → 0 <= n → tl + LOGENTRY_SIZE * (n + 1) < l_size l →
  ∃ sbi', redo_log sbi' = false ∧ jsize sbi' = l_size l ∧
    next_transaction_id sbi' = u32 (next_transaction_id sbi + 1) ∧
  pmfs_new_transaction clwb (S fuel) sbi (Some self) n s =
  Ok ((inr (begun sbi self n tl g), sbi'),
      log_state s (begin_events (tl + LOGENTRY_SIZE * (n + 1)))).
Proof using Hl.
  intros Hj Hr Hjs Hhd Htm Hn Hfit. unfold LOGENTRY_SIZE in *.
  pose proof (lo_size l Hl) as [_ Hsz]. pose proof (lo_base l Hl) as [_ Hb].
  unfold pmfs_new_transaction, pmfs_get_journal. erewrite bind_Ok; [|apply fetch_eq].
  rewrite (js_super _ _ _ _ _ Hj), Hr.
  assert (Es : swrap 32 (n + 1) = n + 1).
  { unfold swrap. rewrite wrap_small by lia. by destruct (Z.ltb_spec (n + 1) (2 ^ (32 - 1))); [|lia]. }
  rewrite Es. unfold LESIZE_SHIFT. rewrite Z.shiftl_mul_pow2 by lia.
  replace ((n + 1) * 2 ^ 6) with (64 * (n + 1)) by lia. rewrite (wrap_small 32 (64 * (n + 1))) by lia.
  do 2 (erewrite bind_Ok; [|apply fetch_eq]).
  rewrite (js_head _ _ _ _ _ Hj), (js_tail _ _ _ _ _ Hj).
  erewrite bind_Ok; [|eapply reserve_eq; try done; [by rewrite Z.mul_comm, Z.mod_mul|lia]].
  cbn iota. set (c := _ && _). eexists. split_and!; [..|unfold mret, M_ret, begun].
  4: { rewrite (wrap_small 16) by lia. unfold pmfs_get_block.
    destruct (Z.eqb_spec (l_base l + tl) 0); [lia|].
    assert (E : journal_info (if c then wakeup_log_cleaner (set_next_transaction_id sbi
      (u32 (next_transaction_id sbi + 1))) else set_next_transaction_id sbi
      (u32 (next_transaction_id sbi + 1))) = journal_info sbi) by (by destruct c).
    rewrite E. reflexivity. }
  all: by destruct c.
Qed.
End Ends.
