(* ===== verification/PmfsCrash.v ===== *)
(** * PMFS: transactions are crash atomic

    The invariant of a running transaction ([running]): its entries are in the
    journal, undoing them in reverse restores the file system, the journal's
    lines hold no store that is not written back, and a crash at any point so far
    mounts to the old contents ([undone]).  Logging a range and storing to logged
    ranges keep it; the record that closes the transaction, whose generation id is
    the last store to its line, decides between old and new. *)

From stdpp Require Import base list gmap.
From Stdlib Require Import ZArith Lia.
From coqutil Require Import Byte Word.LittleEndianList.
From S2P Require Import Prelude PMem PMemLine NovaBase PmfsJournal PmfsRecover PmfsMount.
From S2P Require Import PmfsTrans.

Local Open Scope Z_scope.

(** ** Lines of the journal *)

Lemma line_block p x : p mod 64 = 0 → on (line p) x ↔ in_range p 64 x.
Proof.
  intros Hp. unfold on, line, in_range. pose proof (Z.div_mod p 64 ltac:(lia)).
  pose proof (Z.div_mod x 64 ltac:(lia)). pose proof (Z.mod_pos_bound x 64 ltac:(lia)). lia.
Qed.

Lemma block_line a n x y :
  a mod 64 = 0 → n mod 64 = 0 → line x = line y → in_range a n x → in_range a n y.
Proof.
  intros Ha Hn E. unfold line in E. unfold in_range.
  pose proof (Z.div_mod a 64 ltac:(lia)). pose proof (Z.div_mod n 64 ltac:(lia)).
  pose proof (Z.div_mod x 64 ltac:(lia)). pose proof (Z.mod_pos_bound x 64 ltac:(lia)).
  pose proof (Z.div_mod y 64 ltac:(lia)). pose proof (Z.mod_pos_bound y 64 ltac:(lia)). lia.
Qed.

Section Lines.
Variable l : layout.
Hypothesis Hl : layout_ok l.

Lemma journal_line x y : line x = line y → journal_bytes l x → journal_bytes l y.
Proof using Hl.
  destruct Hl as [[Hj _] [Hb _] [Hs _] _ _]. intros E [H|H]; [left|right];
    (eapply block_line; [| |exact E|exact H]); done.
Qed.

Lemma header_not_entries x : header l x → ¬ entries l x.
Proof using Hl. destruct Hl as [_ _ _ _ Ha]. unfold header, entries, in_range. lia. Qed.
Lemma entries_not_super x : entries l x → ¬ in_range s_journal_offset 8 x.
Proof using Hl. destruct Hl as [_ [_ Hb] _ _ _]. unfold entries, in_range, s_journal_offset. lia. Qed.

Lemma header_not_super x : header l x → ¬ in_range s_journal_offset 8 x.
Proof using Hl. destruct Hl as [[_ Hb] _ _ _ _]. unfold header, in_range, s_journal_offset. lia. Qed.

End Lines.

(** ** Undoing a log restores the contents *)

Section Undo.
Variables (l : layout) (m0 : mem).

(** Bytes outside the journal. *)
Definition data (x : Z) : Prop := ¬ journal_bytes l x.

(** Undoing [E], newest first, restores [m0] in any memory that differs from it
    only where [E] logged. *)
Definition undoes (E : list lentry) : Prop :=
  ∀ m, agree (λ x, data x ∧ ¬ in_entries E x) m m0 → agree data (put_all m (rev E)) m0.

Lemma undoes_nil : undoes [].
Proof. intros m Hm x Hx. apply Hm. split; [done|apply in_entries_nil]. Qed.

Lemma put_back_lookup m e x :
  put_back m e !!! x =
  if decide (e_range e x) then nth (Z.to_nat (x - e_addr e)) (e_data e) inhabitant else m !!! x.
Proof. apply lookup_total_write_bytes. Qed.

(** Entries whose data was current when they were logged extend the log. *)
Lemma undoes_snoc E e v :
  undoes E → agree (λ x, data x ∧ ¬ in_entries E x) v m0 →
  e_data e = read_bytes v (e_addr e) (length (e_data e)) → undoes (E ++ [e]).
Proof.
  intros HE Hv Hd m Hm. rewrite rev_app_distr. simpl.
  change (put_all m (e :: rev E)) with (put_all (put_back m e) (rev E)). apply HE.
  intros x [Hx1 Hx2]. rewrite put_back_lookup. case_decide as Hr.
  - rewrite Hd, nth_read_bytes by (unfold e_range, e_len, in_range in Hr; lia).
    rewrite <- Hv by done. f_equal. unfold e_range, in_range in Hr. lia.
  - apply Hm. split; [done|]. rewrite in_entries_app, in_entries_cons.
    intros [?|[?|?%in_entries_nil]]; done.
Qed.

Lemma undoes_app E es v :
  undoes E → agree (λ x, data x ∧ ¬ in_entries E x) v m0 →
  Forall (λ e, e_data e = read_bytes v (e_addr e) (length (e_data e))) es → undoes (E ++ es).
Proof.
  intros HE Hv Hes. revert E HE Hv. induction Hes as [|e es He Hes IH]; intros E HE Hv.
  { by rewrite app_nil_r. }
  change (e :: es) with ([e] ++ es). rewrite app_assoc. apply IH.
  - by apply (undoes_snoc E e v).
  - eapply agree_mono; [exact Hv|]. intros x [? H]. split; [done|]. intros ?. apply H.
    apply in_entries_app. by left.
Qed.
End Undo.

(** ** What a crash leaves of the slots being written *)

Lemma crash_quiet t ea m x :
  pwf t → clean (line x) t → Forall ev_ok ea → stores_in (λ y, y ≠ x) ea →
  crash_during t ea m → m !!! x = pview t !!! x.
Proof.
  intros Ht Hc Hok Hst Hm.
  destruct (crash_line_prefix (line x) t ea m) as (es' & Hp & Ha); [done..|].
  rewrite Ha by done. rewrite (apply_events_frame (λ y, y ≠ x)) by first
    [by eapply stores_in_prefix | tauto].
  by apply (clean_view (line x)).
Qed.

(** [k] slots from [p] without a valid entry. *)
Definition dead_slots (m : mem) (g p : Z) (k : nat) : Prop := slots m g p (replicate k None).

Section Slots.
Context `{CachedWrite}.
Variable clwb : bool.

Lemma add_events_in g es : ∀ p first,
  Forall entry_fits es → stores_in (in_range p (nslots es)) (add_events clwb p g first es).
Proof.
  induction es as [|e es IH]; intros p first Hes; [apply stores_in_nil|].
  apply Forall_cons in Hes as [[_ _ He] Hes]. cbn [add_events]. rewrite nslots_cons.
  pose proof (nslots_nonneg es). apply stores_in_app. split.
  - eapply stores_in_mono; [by apply slot_events_in|]. unfold in_range, LOGENTRY_SIZE. lia.
  - eapply stores_in_mono; [by apply IH|]. unfold in_range, LOGENTRY_SIZE. lia.
Qed.

Lemma add_events_ok g es : ∀ p first, p mod 64 = 0 → Forall ev_ok (add_events clwb p g first es).
Proof.
  induction es as [|e es IH]; intros p first Hp; [constructor|]. cbn [add_events].
  apply Forall_app_2; [by apply slot_events_ok|]. apply IH.
  unfold LOGENTRY_SIZE. rewrite Z.add_mod, Hp by lia. done.
Qed.

Lemma types_ok_tail first e es : types_ok first (e :: es) → types_ok false es.
Proof. intros [_ Hes]. destruct Hes; [done|]. by split. Qed.

Lemma unflushed_slot l p g ty first e tl :
  e_len e <= sizeof_le_data → p mod 64 = 0 → Forall no_store tl →
  unflushed l (slot_events clwb p g ty first e ++ tl) = false.
Proof.
  intros Hn Hp Htl. unfold slot_events. rewrite <- app_assoc.
  change ((gen_event p g :: flush_events clwb p LOGENTRY_SIZE) ++ tl)
    with ([gen_event p g] ++ (flush_events clwb p LOGENTRY_SIZE ++ tl)).
  rewrite app_assoc. apply unflushed_covered; [unfold LOGENTRY_SIZE; lia| | |done].
  - apply stores_in_app. split.
    + eapply stores_in_mono; [by apply entry_fill_in|]. by intros x [].
    + eapply stores_in_mono; [apply gen_event_in|]. unfold in_range, le_gen_id, LOGENTRY_SIZE. lia.
  - apply Forall_app_2; [by apply entry_fill_ok|]. constructor; [by apply gen_event_ok|constructor].
Qed.

Lemma unflushed_add l g es : ∀ p first,
  Forall entry_fits es → p mod 64 = 0 → unflushed l (add_events clwb p g first es) = false.
Proof.
  induction es as [|e es IH]; intros p first Hes Hp; [done|].
  apply Forall_cons in Hes as [[_ _ He] Hes]. cbn [add_events]. apply unflushed_app.
  - rewrite <- (app_nil_r (slot_events _ _ _ _ _ _)). by apply unflushed_slot.
  - apply IH; [done|]. unfold LOGENTRY_SIZE. by rewrite Z.add_mod, Hp by lia.
Qed.

(** Without a crash, the slots hold the entries. *)
Lemma slot_filled m p g ty first e :
  entry_fits e → 0 <= g < 2 ^ 16 → 0 <= ty < 2 ^ 8 → e_type e = start_type ty first →
  slot_is (apply_events m (slot_events clwb p g ty first e)) p g e.
Proof.
  intros He Hg Hty Hte. unfold slot_events. rewrite apply_events_app, apply_events_cons.
  rewrite apply_events_no_store by apply is_flush_no_store, flush_events_flushes.
  eapply slot_is_proper; [|by apply (filled_slot m p g ty first e)].
  unfold gen_event. cbn [apply_event]. by rewrite entry_fill_view.
Qed.

Lemma slots_filled g es : ∀ m p first,
  Forall entry_fits es → types_ok first es → 0 <= g < 2 ^ 16 →
  slots (apply_events m (add_events clwb p g first es)) g p (Some <$> es).
Proof.
  induction es as [|e es IH]; intros m p first Hes Hty Hg; [done|].
  apply Forall_cons in Hes as [He Hes]. cbn [add_events]. rewrite apply_events_app. split.
  - eapply slot_opt_ext; [|eapply (slot_filled m p g LE_DATA first e); try done; by destruct Hty].
    intros x Hx. symmetry. eapply apply_events_frame; [by apply add_events_in|].
    unfold in_range, LOGENTRY_SIZE in *. lia.
  - apply IH; [done|by eapply types_ok_tail|done].
Qed.

(** The slot one [slot_events] fills is found whole or invalid. *)
Lemma crash_slot t pre post p g ty first e m :
  pwf t → clean (line p) t → p mod 64 = 0 →
  Forall ev_ok (pre ++ entry_fill p ty first e ++ gen_event p g :: post) →
  stores_in (λ x, ¬ in_range p 64 x) pre → stores_in (λ x, ¬ in_range p 64 x) post →
  entry_fits e → 0 <= g < 2 ^ 16 → 0 <= ty < 2 ^ 8 → e_type e = start_type ty first →
  slot_dead (durable t) p g →
  crash_during t (pre ++ entry_fill p ty first e ++ gen_event p g :: post) m →
  slot_dead m p g ∨ slot_is m p g e.
Proof.
  intros Ht Hc Hp Hok Hpre Hpost He Hg Hty Hte Hd Hm. rewrite app_assoc in Hok, Hm.
  unfold gen_event in *. eapply (crash_last_store (line p)) in Hm as [Hm|Hm]; try done.
  - left. unfold slot_dead in *. rewrite (load_ext _ m (durable t)); [done|].
    by rewrite length_bytes_of in Hm.
  - right. eapply (slot_opt_ext _ _ p g (Some e)).
    + symmetry. eapply agree_mono; [exact Hm|]. intros x. by apply line_block.
    + eapply slot_is_proper; [|by apply (filled_slot (apply_events (durable t) pre) p g ty first e)].
      rewrite !apply_events_app. run_events. fold (apply_events (durable t) pre).
      fold (apply_events (apply_events (durable t) pre) (entry_fill p ty first e)).
      by rewrite entry_fill_view.
  - apply stores_in_app. split.
    + eapply stores_in_mono; [exact Hpre|]. intros x Hx. rewrite length_bytes_of.
      unfold in_range, le_gen_id in *. lia.
    + eapply stores_in_mono; [apply entry_fill_in, He|]. intros x [_ ?]. by rewrite length_bytes_of.
  - unfold line, le_gen_id. apply Z.mod_divide in Hp as [c ->]; [|lia].
    rewrite Z.div_mul by lia. symmetry. apply Z.div_unique with 12; lia.
  - apply Forall_app in Hok as [_ Hok]. apply Forall_cons in Hok as [_ Hok].
    eapply line_stores_out; [exact Hpost|done|]. intros x Hx. apply line_block in Hx; tauto.
Qed.

Lemma crash_slots t g es m : ∀ pre post p first,
  pwf t → (∀ x, in_range p (nslots es) x → clean (line x) t) → p mod 64 = 0 →
  Forall ev_ok (pre ++ add_events clwb p g first es ++ post) →
  stores_in (λ x, ¬ in_range p (nslots es) x) pre →
  stores_in (λ x, ¬ in_range p (nslots es) x) post →
  Forall entry_fits es → types_ok first es → 0 <= g < 2 ^ 16 →
  dead_slots (durable t) g p (length es) →
  crash_during t (pre ++ add_events clwb p g first es ++ post) m →
  ∃ R, Forall2 (λ o e, o = Some e ∨ o = None) R es ∧ slots m g p R.
Proof.
  induction es as [|e es IH]; intros pre post p first Ht Hc Hp Hok Hpre Hpost Hes Hty Hg Hds Hm.
  { exists []. by split. }
  destruct Hds as [Hd Hds].
  rewrite nslots_cons in *. pose proof (nslots_nonneg es). unfold LOGENTRY_SIZE in *.
  apply Forall_cons in Hes as [He Hes]. cbn [add_events] in Hok, Hm.
  destruct (IH (pre ++ slot_events clwb p g LE_DATA first e) post (p + 64) false)
    as (R & HR & HsR); try done.
  - intros x Hx. apply Hc. unfold in_range in *. lia.
  - by rewrite Z.add_mod, Hp by lia.
  - by rewrite <- !app_assoc in *.
  - apply stores_in_app. split.
    + eapply stores_in_mono; [exact Hpre|]. unfold in_range. lia.
    + eapply stores_in_mono; [apply slot_events_in, He|]. unfold in_range. lia.
  - eapply stores_in_mono; [exact Hpost|]. unfold in_range. lia.
  - by eapply types_ok_tail.
  - by rewrite <- !app_assoc in *.
  - assert (Hs : slot_dead m p g ∨ slot_is m p g e).
    { unfold slot_events in Hok, Hm. rewrite <- !app_assoc in Hok, Hm.
      rewrite <- !app_comm_cons in Hok, Hm.
      eapply (crash_slot t pre (flush_events clwb p LOGENTRY_SIZE ++
        add_events clwb (p + 64) g false es ++ post)); try done.
      - apply Hc. unfold in_range. lia.
      - eapply stores_in_mono; [exact Hpre|]. unfold in_range. lia.
      - events_in.
        + eapply stores_in_mono; [by apply add_events_in|]. unfold in_range. lia.
        + eapply stores_in_mono; [exact Hpost|]. unfold in_range. lia.
      - by destruct Hty. }
    destruct Hs as [Hs|Hs]; [exists (None :: R)|exists (Some e :: R)];
      (split; [constructor; auto|by split]).
Qed.
(** Undoing writes back what it stores. *)
Lemma undo_unflushed k es L :
  (∃ y, in_entries L y ∧ line y = k) → unflushed k (es ++ undo_events clwb L) = false.
Proof.
  induction L as [|e L IH] using rev_ind; intros (y & Hy & Ey).
  { by apply in_entries_nil in Hy. }
  rewrite undo_events_app, app_assoc.
  assert (E1 : undo_events clwb [e] = undo_events1 clwb e) by (unfold undo_events; simpl; by rewrite app_nil_r).
  rewrite E1. clear E1.
  destruct (decide (Exists (λ i, line (e_addr e + Z.of_nat i) = k) (seq 0 (length (e_data e)))))
    as [Hi|Hi].
  - apply Exists_exists in Hi as (i & Hi%elem_of_seq & Ek). unfold undo_events1.
    destruct (e_data e) as [|b bs] eqn:Ed; [simpl in Hi; lia|]. rewrite <- Ed, app_assoc in *.
    apply unflushed_app_flushes; [apply flush_events_flushes|]. intros _.
    destruct (flush_events_cover clwb (e_addr e) (e_len e) (e_addr e + Z.of_nat i))
      as (a & Ha & El); [unfold e_len; lia|unfold in_range, e_len; rewrite Ed in *; lia|].
    exists clwb, a. by rewrite El.
  - assert (Hno : ∀ x, e_range e x → line x ≠ k).
    { intros x Hx Ek. apply Hi, Exists_exists. exists (Z.to_nat (x - e_addr e)).
      unfold e_range, e_len, in_range in Hx. split; [apply elem_of_seq; lia|].
      rewrite <- Ek. f_equal. lia. }
    apply unflushed_app.
    + apply IH. exists y. split; [|done]. apply in_entries_app in Hy as [Hy|Hy]; [done|].
      apply in_entries_cons in Hy as [Hy|Hy%in_entries_nil]; [by destruct (Hno y)|done].
    + apply unflushed_off. eapply line_stores_out.
      * pose proof (undo_events_in clwb [e]) as Hin. unfold undo_events in Hin.
        simpl in Hin. rewrite app_nil_r in Hin. exact Hin.
      * pose proof (undo_events_ok clwb [e]) as Hok. unfold undo_events in Hok.
        simpl in Hok. by rewrite app_nil_r in Hok.
      * intros x Hx [Hr|Hr%in_entries_nil]%in_entries_cons; [by apply (Hno x)|done].
Qed.
End Slots.
