(* ===== verification/PmfsRemount.v ===== *)
(** * PMFS: recovery that is itself interrupted

    A crash while the journal is being recovered leaves the log entries as they
    were and the journal's header either old, with the new generation id, or with
    the new head too, since both are on one line.  In each case the next mount
    gives the same contents ([mount_survives]), and so on for as many crashes as
    the generation id has room for. *)

From stdpp Require Import base list gmap.
From Stdlib Require Import ZArith Lia.
From coqutil Require Import Byte Word.LittleEndianList.
From S2P Require Import Prelude PMem PMemLine NovaBase PmfsJournal PmfsRecover PmfsMount.
From S2P Require Import PmfsTrans PmfsCrash.

Local Open Scope Z_scope.

(** Writing back [U] gives the same in memories that agree outside it. *)
Lemma put_all_agree P U m1 m2 :
  agree (λ x, P x ∧ ¬ in_entries U x) m1 m2 → agree P (put_all m1 U) (put_all m2 U).
Proof.
  revert m1 m2. induction U as [|e U IH]; intros m1 m2 Ha.
  { eapply agree_mono; [exact Ha|]. intros x Hx. split; [done|apply in_entries_nil]. }
  apply (IH (put_back m1 e) (put_back m2 e)). intros x [Hx Hu]. rewrite !put_back_lookup.
  case_decide; [done|]. apply Ha. split; [done|]. by intros [?|?]%in_entries_cons.
Qed.

Lemma put_all_out U m : agree (λ x, ¬ in_entries U x) (put_all m U) m.
Proof.
  revert m. induction U as [|e U IH]; intros m; [done|]. intros x Hx.
  change (put_all m (e :: U)) with (put_all (put_back m e) U). rewrite IH.
  - rewrite put_back_lookup. case_decide; [|done]. exfalso. apply Hx, in_entries_cons. by left.
  - intros ?. apply Hx, in_entries_cons. by right.
Qed.

Lemma put_all_twice U m m' :
  agree (λ x, ¬ in_entries U x) m' m → mem_eq (put_all m' U) (put_all m U).
Proof.
  intros Ha x. apply (put_all_agree (λ _, True) U m' m); [|done].
  eapply agree_mono; [exact Ha|]. by intros y [].
Qed.

Section Survive.
Context `{CachedWrite}.
Variables (clwb : bool) (l : layout).
Hypothesis Hl : layout_ok l.

(** Mounting [m] gives a file system with the contents of [v] and an empty
    journal, also when up to [c] mounts in a row are cut short by a crash. *)
Fixpoint survives (c : nat) (v m : mem) : Prop :=
  (∀ sbi, ∃ sbi' s', mount_journal clwb sbi true (Cpu m []) = Ok ((0, sbi'), s') ∧
    agree (data l) (view s') v ∧ (∃ t g', jstate l (view s') t t g') ∧
    match c with
    | O => True
    | S c => ∀ m', crash_during (PState m []) (evs s') m' → survives c v m'
    end).

Lemma survives_agree c : ∀ m v v', agree (data l) v v' → survives c v m → survives c v' m.
Proof.
  induction c as [|c IH]; intros m v v' Hv Hs sbi;
    destruct (Hs sbi) as (sbi' & s' & H1 & H2 & H3 & H4); exists sbi', s';
    (split_and!; [done|by etrans|done|]); [done|]. intros m' Hm. by eapply IH, H4.
Qed.

Lemma survives_empty c : ∀ m t g v, jstate l m t t g → agree (data l) m v → survives c v m.
Proof using Hl.
  induction c as [|c IH]; intros m t g v Hj Ha sbi;
    destruct (mount_empty clwb l Hl m t g sbi Hj) as [sbi' Hm]; exists sbi', (Cpu m []);
    (split_and!; [done|done|by exists t, g|]); [done|].
  intros m' ->%crash_during_nil; [|done]. by apply (IH m t g).
Qed.

(** Between head and tail nothing carries the next generation id. *)
Lemma slots_older m g p L : slots m g p L → g + 1 < 2 ^ 16 → dead_slots m (g + 1) p (length L).
Proof.
  unfold dead_slots. revert p. induction L as [|o L IH]; intros p Hs Hg; [done|].
  destruct Hs as [Ho Hs]. split; [|by apply IH]. destruct o as [e|]; simpl in *; unfold slot_dead in *.
  - destruct Ho as [-> _ _ _ _ _ _]. lia.
  - lia.
Qed.

Lemma next_gen_succ g : 0 <= g → g + 1 < 2 ^ 16 → next_gen_id g = g + 1.
Proof.
  intros Hg Hg'. unfold next_gen_id. rewrite wrap_small by lia.
  by destruct (Z.eqb_spec (g + 1) 0); [lia|].
Qed.

Lemma settled_dead k : settled (replicate k None).
Proof. induction k as [|k IH]; [constructor|]. rewrite replicate_S_end. by constructor. Qed.

Section Cut.
Variables (m : mem) (hd g tid : Z) (S L : list (option lentry)).
Hypothesis Hji : journal_is l m hd g S L.
Hypothesis Hcur : cur_open (reserved l) tid L.

Abbreviation U := (undo_of L).
Abbreviation ue := (undo_events clwb U).
Abbreviation tl := (hd + nslots (S ++ L)).

(** Cut short while writing back. *)
Lemma cut_undo m' : crash_during (PState m []) (ue ++ [EFence]) m' →
  agree (λ x, ¬ in_entries U x) m' m.
Proof.
  intros Hm. eapply (crash_during_frame (in_entries U)) in Hm; [done| |].
  - intros p y Hp. by apply elem_of_nil in Hp.
  - apply stores_in_app. split; [apply undo_events_in|]. by apply stores_in_other, stores_in_nil.
Qed.

(** What was written back is durable at the fence. *)
Lemma undo_durable : ∃ m1, pexec (PState m []) (ue ++ [EFence]) = PState m1 [] ∧ mem_eq m1 (put_all m U).
Proof.
  destruct (fence_quiescent m ue) as (m1 & E & Hv); [apply undo_events_ok| |].
  - intros k. destruct (unflushed k ue) eqn:Hu; [|done]. exfalso.
    assert (Hne : line_stores k ue ≠ []) by (intros E%unflushed_off; congruence).
    apply Hne. eapply line_stores_out; [apply undo_events_in|apply undo_events_ok|].
    intros y Hy Hu'. pose proof (undo_unflushed clwb k [] U) as Hf.
    rewrite app_nil_l, Hu in Hf. discriminate Hf. by exists y.
  - exists m1. split; [done|]. rewrite Hv. apply undo_events_view.
Qed.

(** *** Moving the header on *)

Variable m1 : mem.
Hypothesis Hm1 : mem_eq m1 (put_all m U).
Hypothesis Hg : 0 <= g ∧ g + 1 < 2 ^ 16.

Abbreviation gen_store := (EStore false (l_journal l + j_gen_id) (bytes_of 2 (g + 1))).
Abbreviation head_store := (EStore false (l_journal l + j_head) (bytes_of 4 tl)).

Lemma undone_reserved : agree (reserved l) m1 m.
Proof using Hm1 Hcur.
  intros x Hx. rewrite Hm1. apply put_all_out. intros Hu.
  exact (undo_not_reserved l tid L Hcur x Hu Hx).
Qed.

Lemma undone_state : jstate l m1 hd tl g.
Proof using Hm1 Hcur Hji.
  eapply jstate_ext; [..|apply Hji]; intros x Hx; symmetry; apply undone_reserved;
    [left; by left|by right].
Qed.

Lemma gen_stored : jstate l (apply_events m1 [gen_store]) hd tl (g + 1).
Proof using All.
  destruct undone_state as [H1 H2 H3 H4 H5 H6 H7]. destruct (lo_journal l Hl) as [_ Hj].
  simpl. run_events. constructor; rewrite ?load_write_same; try (by apply Z.mod_small; simpl; lia);
    by rewrite load_write_disjoint by
      (rewrite length_bytes_of; unfold disjoint_ranges; offsets; lia).
Qed.

Lemma head_stored : jstate l (apply_events m1 [gen_store; head_store]) tl tl (g + 1).
Proof using All.
  destruct gen_stored as [H1 H2 H3 H4 H5 H6 H7]. destruct (lo_journal l Hl) as [_ Hj].
  pose proof (lo_size l Hl) as [_ Hsz]. destruct Hji as [_ _ [Hh _] Hr].
  pose proof (nslots_nonneg (S ++ L)).
  change [gen_store; head_store] with ([gen_store] ++ [head_store]). rewrite apply_events_app.
  set (m2 := apply_events m1 [gen_store]) in *. simpl. run_events.
  constructor; rewrite ?load_write_same; try (by apply Z.mod_small; simpl; lia);
    by rewrite load_write_disjoint by
      (rewrite length_bytes_of; unfold disjoint_ranges; offsets; lia).
Qed.

Lemma header_stores_in fl :
  Forall no_store fl → stores_in (header l) (gen_store :: head_store :: fl).
Proof.
  intros Hfl. apply stores_in_store; [|apply stores_in_store].
  1, 2: intros x; rewrite length_bytes_of; unfold header, in_range; offsets; lia.
  induction Hfl as [|e fl He Hfl IH]; [apply stores_in_nil|]. by apply stores_in_other.
Qed.

Lemma header_stores_ok fl : Forall ev_ok fl → Forall ev_ok (gen_store :: head_store :: fl).
Proof using Hl.
  intros Hfl. destruct (lo_journal l Hl) as [Hj _].
  constructor; [|constructor; [|done]]; apply field_ok; try done; try lia; by apply Z.mod_divide.
Qed.

(** Cut short there. *)
Lemma cut_header m' fl :
  Forall no_store fl → Forall ev_ok fl →
  crash_during (PState m1 []) (gen_store :: head_store :: fl) m' →
  agree (λ x, ¬ header l x) m' m1 ∧
  (jstate l m' hd tl g ∨ jstate l m' hd tl (g + 1) ∨ jstate l m' tl tl (g + 1)).
Proof using All.
  intros Hfl Hok Hm. pose proof (header_stores_in fl Hfl) as Hin.
  assert (Hout : agree (λ x, ¬ header l x) m' m1).
  { apply (crash_during_frame (header l) (PState m1 [])) in Hm; [done| |done].
    intros p y Hp. by apply elem_of_nil in Hp. }
  split; [done|]. destruct (lo_journal l Hl) as [Hj _].
  destruct (crash_line_prefix (line (l_journal l)) (PState m1 []) _ m' (pwf_nil m1) eq_refl
    (header_stores_ok fl Hok) Hm) as (es & Hp & Ha).
  assert (Hjs : ∀ h t q, jstate l (apply_events m1 es) h t q → jstate l m' h t q).
  { intros h t q Hst. eapply jstate_ext; [..|exact Hst].
    - intros x Hx. symmetry. apply Ha. by apply line_block.
    - intros x Hx. rewrite Hout; [|by intros ?; eapply (header_not_super l Hl)].
      eapply apply_events_frame; [by eapply stores_in_prefix|].
      intros ?. by eapply (header_not_super l Hl). }
  destruct es as [|e es].
  { left. apply Hjs, undone_state. }
  pose proof (prefix_cons_inv_1 _ _ _ _ Hp) as ->. apply prefix_cons_inv_2 in Hp.
  destruct es as [|e es].
  { right; left. apply Hjs, gen_stored. }
  pose proof (prefix_cons_inv_1 _ _ _ _ Hp) as ->. apply prefix_cons_inv_2 in Hp as [r ->].
  right; right. apply Hjs. change (gen_store :: head_store :: es) with ([gen_store; head_store] ++ es).
  apply Forall_app in Hfl as [Hfl _]. rewrite apply_events_app, (apply_events_no_store _ es) by done.
  apply head_stored.
Qed.
End Cut.

Theorem mount_survives c : ∀ m hd g tid S L v,
  journal_is l m hd g S L → 0 <= g → g + Z.of_nat c < MAX_GEN_ID → settled S → fresh tid S →
  cur_open (reserved l) tid L → agree (data l) (put_all m (undo_of L)) v → survives c v m.
Proof using Hl.
  change MAX_GEN_ID with (2 ^ 16 - 1).
  induction c as [|c IH]; intros m hd g tid S L v Hji Hg Hgc HS Hfr Hcur Ha.
  all: destruct (decide (S ++ L = [])) as [Hnil|Hne].
  1, 3: pose proof (ji_state _ _ _ _ _ _ Hji) as Hj; rewrite Hnil, nslots_nil, Z.add_0_r in Hj;
    apply app_eq_nil in Hnil as [_ ->]; by eapply survives_empty.
  all: intros sbi; assert (Hgm : g ≠ MAX_GEN_ID) by (change MAX_GEN_ID with (2 ^ 16 - 1); lia).
  all: destruct (mount_run clwb l Hl m hd g tid S L Hji Hgm HS Hfr Hcur Hne sbi) as [sbi' Hrun];
    eexists sbi', _; split; [exact Hrun|].
  all: destruct (mount_view clwb l Hl m hd g tid S L Hji Hgm HS Hfr Hcur Hne) as [Hmj Hmv].
  all: split; [etrans; [eapply agree_mono; [exact Hmv|]|exact Ha];
    intros x Hx Hh; apply Hx; by left|split; [by eexists _, _|]].
  { done. }
  intros m' Hm. cbn [log_state evs] in Hm. rewrite app_nil_l in Hm.
  unfold mount_events, forward_events in Hm. rewrite next_gen_succ in Hm by lia.
  rewrite <- !app_assoc in Hm. cbn [app] in Hm.
  change (EFence :: ?r) with ([EFence] ++ r) in Hm. rewrite app_assoc in Hm.
  apply crash_during_app in Hm as [Hm|Hm].
  { (* while writing back *)
    apply (cut_undo m L) in Hm. apply (IH m' hd g tid S L); try done; [|lia|].
    - apply (undo_reserved l m hd g S L Hji). intros x Hx. symmetry. apply Hm. intros Hu.
      exact (undo_not_reserved l tid L Hcur x Hu Hx).
    - etrans; [|exact Ha]. apply mem_eq_agree. by apply put_all_twice. }
  destruct (undo_durable m L) as (m1 & E & Hm1). rewrite E in Hm.
  assert (Hg' : 0 <= g ∧ g + 1 < 2 ^ 16) by lia.
  pose proof (undone_reserved m tid L Hcur m1 Hm1) as Hres.
  apply (cut_header m hd g tid S L Hji Hcur m1 Hm1 Hg') in Hm as [Hout Hm];
    [|apply Forall_app_2; [apply is_flush_no_store, flush_events_flushes|by constructor]
     |apply Forall_app_2; [apply is_flush_ev_ok, flush_events_flushes|by constructor]].
  assert (Hdata : agree (data l) m' (put_all m (undo_of L))).
  { intros x Hx. rewrite Hout, Hm1; [done|]. intros Hh. apply Hx. by left. }
  assert (Hent : agree (entries l) m m').
  { intros x Hx. rewrite Hout, Hres; [done|left; by right|].
    intros Hh. by apply (header_not_entries l Hl x). }
  destruct Hji as [Hj Hsl Hhd Hr].
  assert (Hsl' : ∀ q L', nslots L' = nslots (S ++ L) → slots m q (l_base l + hd) L' →
    slots m' q (l_base l + hd) L').
  { intros q L' EL. apply slots_ext. eapply agree_mono; [exact Hent|]. intros x Hx.
    unfold entries, in_range in *. rewrite EL in Hx. lia. }
  destruct Hm as [Hm|[Hm|Hm]].
  - apply (IH m' hd g tid S L); try done; [|lia|].
    + constructor; try done. by apply Hsl'.
    + etrans; [|exact Ha]. apply put_all_agree. intros x [Hx Hu]. rewrite Hdata by done.
      by apply put_all_out.
  - set (D := replicate (length (S ++ L)) (@None lentry)).
    assert (ED : nslots (D ++ []) = nslots (S ++ L)).
    { unfold D, nslots. by rewrite app_nil_r, length_replicate. }
    apply (IH m' hd (g + 1) (-1) D []); try done; try lia.
    + constructor; rewrite ?ED; try done. apply Hsl'; [done|]. rewrite app_nil_r.
      by apply slots_older; [|lia].
    + apply settled_dead.
    + intros e [? _]%elem_of_replicate. done.
    + split; [done|]. by intros e ?%elem_of_nil.
    + by etrans.
  - apply (survives_empty c m' (hd + nslots (S ++ L)) (g + 1)); [done|by etrans].
Qed.
End Survive.
