(* ===== verification/PmfsTx.v ===== *)
(** * PMFS: the invariant of a running transaction

    [running] relates the entries logged so far to the state of the memory and
    of the run's events; logging ([running_log]) and storing to logged ranges
    ([running_write]) keep it.  A crash in the middle of either mounts to the
    contents the transaction began with. *)

From stdpp Require Import base list gmap.
From Stdlib Require Import ZArith Lia.
From coqutil Require Import Byte Word.LittleEndianList.
From S2P Require Import Prelude PMem PMemLine NovaBase PmfsJournal PmfsRecover PmfsMount.
From S2P Require Import PmfsTrans PmfsCrash PmfsRemount.

Local Open Scope Z_scope.

(** ** Slot lists with slots in flight *)

(** [L] holds some of the entries [es], in their places. *)
Definition partly (L : list (option lentry)) (es : list lentry) : Prop :=
  Forall2 (λ o e, o = Some e ∨ o = None) L es.

Lemma partly_all es : partly (Some <$> es) es.
Proof. induction es as [|e es IH]; [constructor|]. constructor; auto. Qed.

Lemma partly_app L1 L2 es1 es2 : partly L1 es1 → partly L2 es2 → partly (L1 ++ L2) (es1 ++ es2).
Proof. apply Forall2_app. Qed.

Lemma partly_elem L es e : partly L es → Some e ∈ L → e ∈ es.
Proof.
  induction 1 as [|o e' L es Ho HL IH]; [by intros ?%elem_of_nil|].
  intros [E|E]%elem_of_cons; apply elem_of_cons; [|by auto]. left. destruct Ho; congruence.
Qed.

Lemma partly_valid (P : lentry → Prop) L es : partly L es → Forall P es → Forall P (valid L).
Proof.
  intros HL HP. rewrite Forall_forall in HP. apply Forall_forall.
  intros e He%elem_of_valid. apply HP. by eapply partly_elem.
Qed.

Lemma all_open_partly L es : all_open (Some <$> es) → partly L es → all_open L.
Proof.
  intros Ho HL. induction HL as [|o e L es Hoe HL IH]; [constructor|].
  apply Forall_cons in Ho as [H1 H2]. constructor; [by destruct Hoe as [->| ->]|by apply IH].
Qed.

Lemma cur_open_partly J tid L es :
  cur_open J tid (Some <$> es) → partly L es → cur_open J tid L.
Proof.
  intros [H1 H2] HL. split.
  - destruct HL as [|o e L es Ho HL]; [done|]. destruct H1 as (Hc & Hs & HR).
    split_and!; [by destruct Ho as [->| ->]| |by apply (all_open_partly L es)].
    intros e' ->. destruct Ho as [Ho|Ho]; [|done]. injection Ho as ->. exact (Hs _ eq_refl).
  - intros e He. apply H2. apply list_elem_of_fmap. exists e. split; [done|].
    by eapply partly_elem.
Qed.

Lemma cur_open_nones J tid L k : cur_open J tid L → cur_open J tid (L ++ replicate k None).
Proof.
  intros [H1 H2]. split.
  - destruct L as [|o R]; simpl.
    + destruct k as [|k]; [done|]. simpl. split_and!; [done|done|].
      apply Forall_replicate. done.
    + destruct H1 as (? & ? & ?). split_and!; [done..|]. apply Forall_app_2; [done|].
      by apply Forall_replicate.
  - intros e [He|He]%elem_of_app; [by apply H2|]. by apply elem_of_replicate in He as [? _].
Qed.

Lemma slots_elem_dead m g p k : dead_slots m g p k ↔ ∀ j, (j < k)%nat → slot_dead m (p + 64 * Z.of_nat j) g.
Proof.
  unfold dead_slots. revert p. induction k as [|k IH]; intros p; simpl; [split; [lia|done]|].
  rewrite IH. split.
  - intros [H1 H2] [|j] Hj; [by rewrite Z.add_0_r|].
    replace (p + 64 * Z.of_nat (S j)) with (p + LOGENTRY_SIZE + 64 * Z.of_nat j)
      by (unfold LOGENTRY_SIZE; lia). apply H2. lia.
  - intros Hd. split.
    + rewrite <- (Z.add_0_r p). apply (Hd O). lia.
    + intros j Hj. replace (p + LOGENTRY_SIZE + 64 * Z.of_nat j) with (p + 64 * Z.of_nat (S j))
        by (unfold LOGENTRY_SIZE; lia). apply Hd. lia.
Qed.

Lemma dead_slots_split m g p j k :
  dead_slots m g p (j + k) ↔ dead_slots m g p j ∧ dead_slots m g (p + LOGENTRY_SIZE * Z.of_nat j) k.
Proof.
  unfold dead_slots. rewrite replicate_add, slots_app. unfold nslots.
  by rewrite length_replicate.
Qed.

(** Ids are read from memory, so they are not negative. *)
Lemma slots_fresh m g p L tid : slots m g p L → tid < 0 → fresh tid L.
Proof.
  revert p. induction L as [|o L IH]; intros p Hs Ht e He; [by apply elem_of_nil in He|].
  destruct Hs as [Ho Hs]. apply elem_of_cons in He as [<-|He]; [|by eapply IH].
  destruct Ho as [_ _ Et _ _ _ _]. pose proof (load_bound 4 m (p + le_transaction_id)). lia.
Qed.

Lemma crash_during_after s es ea m :
  crash_during (pexec s es) ea m → crash_during s (es ++ ea) m.
Proof.
  intros (es' & Hp & Hc). exists (es ++ es'). split; [by apply prefix_app|].
  by rewrite pexec_app.
Qed.

Section Tx.
Context `{CachedWrite}.
Variables (clwb : bool) (l : layout).
Hypothesis Hl : layout_ok l.
(** The memory when the transaction begins, the journal's head, generation and
    slots, and the transaction's id and reservation. *)
Variables (m0 : mem) (hd g : Z) (S : list (option lentry)) (tid n : Z).

Definition tail0 : Z := hd + nslots S.
Definition slot0 : Z := l_base l + tail0.
Definition cap : nat := Z.to_nat (n + 1).
Definition tail1 : Z := tail0 + LOGENTRY_SIZE * (n + 1).
Definition start_state : pstate := PState m0 [].

(** A transaction of up to [n] entries can begin: the journal is in order, has
    room without wrapping, and the free slots carry no current generation. *)
Record ready : Prop := {
  rd_state : jstate l m0 hd tail0 g;
  rd_slots : slots m0 g (l_base l + hd) S;
  rd_head : 0 <= hd ∧ hd mod 64 = 0;
  rd_gen : 0 <= g < 2 ^ 16 ∧ g ≠ MAX_GEN_ID;
  rd_settled : settled S;
  rd_fresh : fresh tid S;
  rd_tid : 0 <= tid < 2 ^ 32;
  rd_room : 0 <= n ∧ tail1 < l_size l;
  rd_free : dead_slots m0 g slot0 cap
}.
Hypothesis Hready : ready.

(** Mounting [m] gives a file system with the contents of [v] and an empty journal,
    however often the mount is cut short before the generation id runs out. *)
Definition recovers_to (v m : mem) : Prop :=
  ∀ c, g + Z.of_nat c < MAX_GEN_ID → survives clwb l c v m.

Lemma tail0_bounds : 0 <= tail0 ∧ tail0 mod 64 = 0 ∧ tail0 < tail1 ∧ tail1 < l_size l.
Proof using Hready.
  destruct Hready as [_ _ [Hh Hm] _ _ _ _ [Hn Hr] _]. unfold tail1, tail0 in *.
  pose proof (nslots_nonneg S). unfold nslots, LOGENTRY_SIZE in *. split_and!; [lia| |lia|lia].
  by rewrite (Z.mul_comm 64), Z.mod_add by lia.
Qed.

Lemma slot0_aligned : slot0 mod 64 = 0.
Proof using Hready Hl.
  destruct tail0_bounds as (_ & Ht & _). destruct Hl as [_ [Hb _] _ _ _].
  unfold slot0. by rewrite Z.add_mod, Hb, Ht by lia.
Qed.

Lemma slot_entries x : in_range slot0 (LOGENTRY_SIZE * (n + 1)) x → entries l x.
Proof using Hready.
  pose proof tail0_bounds. unfold slot0, entries, in_range, tail1 in *. lia.
Qed.

Lemma old_entries x : in_range (l_base l + hd) (nslots S) x → entries l x.
Proof using Hready.
  destruct Hready as [_ _ [Hh _] _ _ _ _ _ _]. pose proof tail0_bounds.
  unfold entries, in_range, tail0, tail1, LOGENTRY_SIZE in *. lia.
Qed.

(** ** Crash images that mount to the old or to the new contents *)

Lemma recovers_old m :
  jstate l m hd tail0 g → slots m g (l_base l + hd) S → agree (data l) m m0 → recovers_to m0 m.
Proof using Hl Hready.
  intros Hj Hs Ha c Hc. pose proof tail0_bounds.
  destruct Hready as [_ _ Hh [Hg _] HS Hf _ _ _].
  apply (mount_survives clwb l Hl c m hd g tid S []); try done; [|lia|].
  - constructor; rewrite ?app_nil_r; try done. unfold tail0, tail1 in *. lia.
  - split; [done|]. by intros e ?%elem_of_nil.
Qed.

Lemma recovers_new m L :
  jstate l m hd tail1 g → slots m g (l_base l + hd) S → slots m g slot0 L → length L = cap →
  cur_open (reserved l) tid L → agree (data l) (put_all m (undo_of L)) m0 → recovers_to m0 m.
Proof using Hl Hready.
  intros Hj Hs HL Hlen Hc Ha c Hb. pose proof tail0_bounds.
  destruct Hready as [_ _ Hh [Hg _] HS Hf _ [Hn _] _].
  assert (E : hd + nslots (S ++ L) = tail1).
  { rewrite nslots_app. unfold tail1, tail0, nslots at 2. rewrite Hlen. unfold cap. lia. }
  apply (mount_survives clwb l Hl c m hd g tid S L); try done; [|lia].
  constructor; rewrite ?E; try done; [|lia]. apply slots_app. split; [done|].
  by rewrite <- Z.add_assoc.
Qed.

Lemma settled_nones L k : settled L → settled (L ++ replicate k None).
Proof.
  intros HL. induction k as [|k IH]; [by rewrite app_nil_r|].
  rewrite (replicate_S_end k), app_assoc. by constructor.
Qed.

(** The slots of a closed transaction: its entries, the record that closes it and
    the unused slots. *)
Definition closed_slots (E : list lentry) (ty : Z) : list (option lentry) :=
  (Some <$> E) ++ [Some (close_entry tid ty (bool_decide (E = [])))] ++
  replicate (cap - length E - 1) None.

Lemma length_closed E ty : (length E + 1 <= cap)%nat → length (closed_slots E ty) = cap.
Proof.
  intros Hc. unfold closed_slots. rewrite !length_app, length_fmap, length_replicate. simpl. lia.
Qed.

Lemma closed_settled S0 E ty :
  settled S0 → cur_open (reserved l) tid (Some <$> E) → (ty = LE_COMMIT ∨ ty = LE_ABORT) →
  settled (S0 ++ closed_slots E ty).
Proof.
  intros HS [Hc _] Hty. unfold closed_slots.
  set (c := close_entry tid ty (bool_decide (E = []))) in *.
  rewrite !app_assoc. apply settled_nones. rewrite <- app_assoc.
  constructor; [done| | |by destruct Hty as [->| ->]; unfold c; simpl; case_bool_decide].
  - destruct E as [|e E]; simpl in *.
    + exists (Some c), []. split_and!; [done|by destruct Hty as [->| ->]|constructor].
    + destruct Hc as (_ & Hst & HR). exists (Some e), ((Some <$> E) ++ [Some c]).
      split_and!; [done|exact (Hst _ eq_refl)|]. apply Forall_app_2.
      * eapply Forall_impl; [exact HR|]. naive_solver.
      * constructor; [|done]. by destruct Hty as [->| ->].
  - destruct E as [|e E]; [constructor|]. destruct Hc as (Hcl & _ & HR).
    constructor; [done|]. eapply Forall_impl; [exact HR|]. naive_solver.
Qed.

(** All of its ids are [tid]. *)
Lemma closed_tids E ty e :
  cur_open (reserved l) tid (Some <$> E) → Some e ∈ closed_slots E ty → e_tid e = tid.
Proof.
  intros [_ Ho]. unfold closed_slots. rewrite !elem_of_app. intros [He|[He|He]].
  - by apply Ho.
  - by apply list_elem_of_singleton in He as [= ->].
  - by apply elem_of_replicate in He as [? _].
Qed.

(** A memory with the slots [S] and a closed transaction. *)
Lemma recovers_closed m E ty :
  jstate l m hd tail1 g → slots m g (l_base l + hd) S → slots m g slot0 (closed_slots E ty) →
  (length E + 1 <= cap)%nat → cur_open (reserved l) tid (Some <$> E) →
  (ty = LE_COMMIT ∨ ty = LE_ABORT) → recovers_to m m.
Proof using Hl Hready.
  intros Hj Hs HL Hlen Hc Hty c Hb. pose proof tail0_bounds.
  destruct Hready as [_ _ Hh [Hg _] HS Hf _ [Hn _] _].
  set (W := closed_slots E ty) in *.
  assert (HW : length W = cap) by (by apply length_closed).
  assert (Et : hd + nslots (S ++ W) = tail1).
  { rewrite nslots_app. unfold tail1, tail0, nslots at 2. rewrite HW. unfold cap. lia. }
  assert (HSW : slots m g (l_base l + hd) (S ++ W)).
  { apply slots_app. split; [done|]. by rewrite <- Z.add_assoc. }
  apply (mount_survives clwb l Hl c m hd g (-1) (S ++ W) []); try done; try lia.
  - constructor; rewrite ?app_nil_r, ?Et; try done. lia.
  - by apply closed_settled.
  - by eapply (slots_fresh m g (l_base l + hd)).
  - split; [done|]. by intros e ?%elem_of_nil.
Qed.

(** ** The invariant *)

Record running (E : list lentry) (s : cpu) : Prop := {
  ru_view : view s = apply_events m0 (evs s);
  ru_ok : Forall ev_ok (evs s);
  ru_in : stores_in (λ x, journal_bytes l x ∨ in_entries E x) (evs s);
  ru_hdr : jstate l (view s) hd tail1 g;
  ru_old : slots (view s) g (l_base l + hd) S;
  ru_slots : slots (view s) g slot0 (Some <$> E);
  ru_free : dead_slots (view s) g (slot0 + nslots E) (cap - length E);
  (* the other entries of the ring *)
  ru_rest : agree (λ x, entries l x ∧ ¬ in_range slot0 (LOGENTRY_SIZE * (n + 1)) x) (view s) m0;
  ru_len : Z.of_nat (length E) <= n;
  ru_open : cur_open (reserved l) tid (Some <$> E);
  ru_undo : undoes l m0 E;
  ru_flushed : ∀ x, journal_bytes l x → unflushed (line x) (evs s) = false;
  ru_clean : ∀ x, entries l x → clean (line x) (pexec start_state (evs s));
  (* the new tail is on its way until the first fence *)
  ru_header : (∃ w, evs s = begin_events clwb l tail1 ++ w ∧ Forall no_store w ∧ E = []) ∨
    (∀ x, header l x → clean (line x) (pexec start_state (evs s)));
  ru_crash : ∀ m, crash_during start_state (evs s) m → recovers_to m0 m
}.

Section Step.
Variables (E : list lentry) (s : cpu).
Hypothesis Hrun : running E s.

Lemma running_pwf : pwf (pexec start_state (evs s)).
Proof using Hrun. apply pwf_pexec; [apply pwf_nil|apply Hrun]. Qed.

Lemma running_pview : mem_eq (pview (pexec start_state (evs s))) (view s).
Proof using Hrun.
  rewrite pview_pexec; [|apply pwf_nil|apply Hrun]. by rewrite (ru_view _ _ Hrun).
Qed.

(** Outside the journal only logged bytes have changed. *)
Lemma running_data : agree (λ x, data l x ∧ ¬ in_entries E x) (view s) m0.
Proof using Hrun.
  intros x [Hx Hx']. rewrite (ru_view _ _ Hrun).
  eapply apply_events_frame; [apply (ru_in _ _ Hrun)|]. unfold data in Hx. tauto.
Qed.

(** The bytes of the next [k] slots. *)
Definition next_slots (k : nat) (x : Z) : Prop :=
  in_range (slot0 + nslots E) (LOGENTRY_SIZE * Z.of_nat k) x.

(** What a crash leaves outside the next [k] slots when only those and logged
    bytes are stored to. *)
Record remains (k : nat) (m : mem) : Prop := {
  re_hdr : jstate l m hd tail1 g ∨ E = [] ∧ jstate l m hd tail0 g;
  re_old : slots m g (l_base l + hd) S;
  re_slots : slots m g slot0 (Some <$> E);
  re_free : dead_slots m g (slot0 + nslots E + LOGENTRY_SIZE * Z.of_nat k) (cap - length E - k);
  re_data : agree (λ x, data l x ∧ ¬ in_entries E x) m m0
}.

Lemma next_slots_entries k x : (length E + k <= cap)%nat → next_slots k x → entries l x.
Proof using Hready.
  intros Hk Hx. apply slot_entries. unfold next_slots, in_range, nslots, cap, LOGENTRY_SIZE in *. lia.
Qed.

Lemma next_slot_aligned : (slot0 + nslots E) mod 64 = 0.
Proof using Hready Hl.
  unfold nslots, LOGENTRY_SIZE. rewrite (Z.mul_comm 64), Z.mod_add by lia. apply slot0_aligned.
Qed.

Lemma logged_not_journal e x : e ∈ E → e_range e x → ¬ reserved l x.
Proof using Hrun.
  intros He Hx. destruct (ru_open _ _ Hrun) as [_ Hok].
  destruct (Hok e) as [_ [E0|[_ E0]]]; [by apply list_elem_of_fmap; eauto| |by apply E0].
  unfold e_range, e_len, in_range in Hx. rewrite E0 in Hx. simpl in Hx. lia.
Qed.

Section Crash.
Variables (k : nat) (ea : list event) (m : mem).
Hypothesis Hk : (length E + k <= cap)%nat.
Hypothesis Hok : Forall ev_ok ea.
Hypothesis Hin : stores_in (λ x, next_slots k x ∨ in_entries E x) ea.
Hypothesis Hm : crash_during (pexec start_state (evs s)) ea m.

(** Nothing else of the entries changes. *)
Lemma crash_entries x : entries l x → ¬ next_slots k x → m !!! x = view s !!! x.
Proof using Hm Hok Hin Hrun Hl.
  intros Hx Hn. rewrite <- running_pview. apply crash_quiet with ea; try done.
  - apply running_pwf.
  - by apply (ru_clean _ _ Hrun).
  - eapply stores_in_mono; [exact Hin|]. intros y [Hy|(e & He & Hy)] ->; [done|].
    apply (logged_not_journal e x He Hy). left. by right.
Qed.

Lemma crash_data : agree (λ x, ¬ entries l x ∧ ¬ header l x ∧ ¬ in_entries E x) m m0.
Proof using Hm Hok Hin Hrun Hready Hk.
  eapply agree_mono; [eapply (crash_during_frame (λ x, journal_bytes l x ∨ in_entries E x)
    start_state (evs s ++ ea)); [| |by apply crash_during_after]|].
  - intros p x Hp. by apply elem_of_nil in Hp.
  - apply stores_in_app. split; [apply (ru_in _ _ Hrun)|].
    eapply stores_in_mono; [exact Hin|]. intros x [Hx|Hx]; [|by right].
    left. right. by apply (next_slots_entries k).
  - unfold journal_bytes. tauto.
Qed.

Lemma crash_super : agree (in_range s_journal_offset 8) m m0.
Proof using Hm Hok Hin Hrun Hready Hk Hl.
  intros x Hx. apply crash_data.
  split_and!; [by intros ?%entries_not_super|by intros ?%header_not_super|].
  intros (e & He & Hy). apply (logged_not_journal e x He Hy). by right.
Qed.

Lemma view_super : agree (in_range s_journal_offset 8) (view s) m0.
Proof using Hrun Hl.
  intros x Hx. apply running_data. split.
  - intros [?%header_not_super|?%entries_not_super]; done.
  - intros (e & He & Hy). apply (logged_not_journal e x He Hy). by right.
Qed.

(** The header is that of the transaction, or still the old one. *)
Lemma crash_header : agree (header l) m (view s) ∨ E = [] ∧ agree (header l) m m0.
Proof using Hm Hok Hin Hrun Hready Hk Hl.
  assert (Hnh : stores_in (λ x, ¬ header l x) ea).
  { eapply stores_in_mono; [exact Hin|]. intros x [Hx|(e & He & Hy)] Hh.
    - apply (header_not_entries l Hl x Hh). by apply (next_slots_entries k).
    - apply (logged_not_journal e x He Hy). left. by left. }
  destruct (ru_header _ _ Hrun) as [(w & Ew & Hw & HE)|Hc].
  - destruct Hl as [[Hj _] _ _ _ _].
    assert (Hline : ∀ x, header l x ↔ on (line (l_journal l)) x).
    { intros x. symmetry. by apply line_block. }
    destruct (crash_line_prefix (line (l_journal l)) start_state (evs s ++ ea) m)
      as (es' & Hp & Ha); [apply pwf_nil|done| |by apply crash_during_after|].
    { apply Forall_app_2; [apply Hrun|done]. }
    rewrite Ew, <- app_assoc in Hp. unfold begin_events in Hp. rewrite <- app_comm_cons in Hp.
    destruct es' as [|e es']; [right; split; [done|]; intros x Hx; by apply Ha, Hline|].
    pose proof (prefix_cons_inv_1 _ _ _ _ Hp) as ->. apply prefix_cons_inv_2 in Hp. left.
    assert (Hes : stores_in (λ x, ¬ header l x) es').
    { eapply stores_in_prefix; [exact Hp|]. apply stores_in_app. split.
      - apply stores_in_flushes, flush_events_flushes.
      - apply stores_in_app. split; [|done]. clear Ew Hp. induction Hw as [|e w He Hw IH];
          [apply stores_in_nil|by apply stores_in_other]. }
    intros x Hx. rewrite (Ha x) by (by apply Hline). rewrite (ru_view _ _ Hrun), Ew.
    unfold begin_events. rewrite <- app_comm_cons, !apply_events_cons.
    rewrite (apply_events_frame _ _ es') by (done || tauto).
    by rewrite apply_events_no_store by (apply Forall_app_2;
      [apply is_flush_no_store, flush_events_flushes|done]).
  - left. intros x Hx. rewrite <- running_pview. apply crash_quiet with ea; try done.
    + apply running_pwf.
    + by apply Hc.
    + eapply stores_in_mono; [exact Hnh|]. intros y Hy ->. done.
Qed.

Theorem crash_remains : remains k m.
Proof using Hm Hok Hin Hrun Hready Hk Hl.
  pose proof crash_super as Hsup. pose proof view_super as Hvs.
  destruct (rd_head Hready) as [Hhd _]. destruct (rd_room Hready) as [Hn0 _].
  pose proof tail0_bounds as (Ht0 & _).
  assert (Hent : ∀ p j, slot0 <= p → p + LOGENTRY_SIZE * Z.of_nat j <= slot0 + LOGENTRY_SIZE * (n + 1) →
    (p + LOGENTRY_SIZE * Z.of_nat j <= slot0 + nslots E ∨
     slot0 + nslots E + LOGENTRY_SIZE * Z.of_nat k <= p) →
    agree (in_range p (LOGENTRY_SIZE * Z.of_nat j)) (view s) m).
  { intros p j Hp Hj Hd x Hx. symmetry. apply crash_entries.
    - apply slot_entries. unfold in_range in *. lia.
    - unfold next_slots, in_range in *. lia. }
  unfold cap, LOGENTRY_SIZE in *. constructor.
  - destruct crash_header as [Hh|[HE Hh]]; [left|right; split; [done|]].
    + eapply jstate_ext; [by symmetry| |apply (ru_hdr _ _ Hrun)]. by rewrite Hvs.
    + eapply jstate_ext; [by symmetry|by symmetry|apply (rd_state Hready)].
  - eapply slots_ext; [|apply (ru_old _ _ Hrun)]. intros x Hx. symmetry.
    apply crash_entries; [by apply old_entries|].
    unfold next_slots, slot0, tail0, in_range, nslots, LOGENTRY_SIZE in *. lia.
  - eapply slots_ext; [|apply (ru_slots _ _ Hrun)]. unfold nslots. rewrite length_fmap.
    unfold LOGENTRY_SIZE. apply Hent; unfold nslots, LOGENTRY_SIZE; lia.
  - pose proof (ru_free _ _ Hrun) as Hf. unfold cap in Hf.
    replace (Z.to_nat (n + 1) - length E)%nat with (k + (Z.to_nat (n + 1) - length E - k))%nat in Hf by lia.
    apply dead_slots_split in Hf as [_ Hf]. eapply slots_ext; [|exact Hf].
    unfold nslots at 2. rewrite length_replicate. unfold LOGENTRY_SIZE, cap.
    apply Hent; unfold nslots, LOGENTRY_SIZE; lia.
  - intros x [Hx1 Hx2]. apply crash_data. unfold data, journal_bytes in Hx1. tauto.
Qed.
End Crash.

(** A crash while the entries [es] are being added, [R] of which got through. *)
Theorem remains_recovers es R m :
  remains (length es) m → partly R es → slots m g (slot0 + nslots E) R →
  (length E + length es <= cap)%nat → cur_open (reserved l) tid (Some <$> (E ++ es)) →
  Forall (λ e, e_data e = read_bytes (view s) (e_addr e) (length (e_data e))) es →
  recovers_to m0 m.
Proof using Hl Hready Hrun.
  intros [Hh Ho Hs Hf Hd] HR HsR Hk Hc Hcur. destruct Hh as [Hh|[HE Hh]].
  2: { apply recovers_old; [done..|]. eapply agree_mono; [exact Hd|]. intros x Hx. split; [done|].
    rewrite HE. apply in_entries_nil. }
  set (k := (cap - length E - length es)%nat) in *.
  pose proof (Forall2_length _ _ _ HR) as HRl.
  apply recovers_new with (((Some <$> E) ++ R) ++ replicate k None); try done.
  - rewrite <- app_assoc. apply slots_app. split; [done|]. apply slots_app.
    unfold nslots in *. rewrite length_fmap, HRl. by split.
  - rewrite !length_app, length_fmap, length_replicate, HRl. unfold k. lia.
  - apply cur_open_nones, (cur_open_partly _ _ _ (E ++ es)); [done|].
    apply partly_app; [apply partly_all|done].
  - assert (Hu : agree (data l) (put_all m (rev (E ++ valid R))) m0).
    { apply (undoes_app l m0 E (valid R) (view s)); [apply Hrun|apply running_data| |].
      - by eapply partly_valid.
      - eapply agree_mono; [exact Hd|]. intros x [Hx Hx']. split; [done|]. intros ?.
        apply Hx', in_entries_app. by left. }
    assert (Hu0 : E = [] → agree (data l) m m0).
    { intros ->. eapply agree_mono; [exact Hd|]. intros x Hx. split; [done|apply in_entries_nil]. }
    assert (Hvalid : valid (((Some <$> E) ++ R) ++ replicate k None) = E ++ valid R).
    { rewrite !valid_app, valid_some, (valid_none (replicate k None)), app_nil_r; [done|].
      by apply Forall_replicate. }
    unfold undo_of. rewrite Hvalid. case_match eqn:Est; [done|].
    destruct E as [|e E']; [by apply Hu0|done].
Qed.

(** Storing to logged bytes. *)
Theorem running_write w :
  Forall ev_ok w → stores_in (in_entries E) w → running E (log_state s w).
Proof using Hl Hready Hrun.
  intros Hok Hin.
  assert (Hres : agree (reserved l) (view s) (apply_events (view s) w)).
  { intros x Hx. symmetry. eapply apply_events_frame; [exact Hin|].
    intros (e & He & Hy). by apply (logged_not_journal e x). }
  assert (Hent : agree (entries l) (view s) (apply_events (view s) w)).
  { eapply agree_mono; [exact Hres|]. intros x Hx. left. by right. }
  assert (Hoff : ∀ x, journal_bytes l x → line_stores (line x) w = []).
  { intros x Hx. eapply line_stores_out; [exact Hin|done|]. intros y Hy (e & He & Hy').
    apply (logged_not_journal e y He Hy'). left. by apply (journal_line l Hl x). }
  assert (Hcl : ∀ x, journal_bytes l x → clean (line x) (pexec start_state (evs s)) →
    clean (line x) (pexec start_state (evs s ++ w))).
  { intros x Hx Hc. rewrite pexec_app. apply clean_pexec; [apply running_pwf|done|done|by apply Hoff]. }
  constructor; simpl.
  - by rewrite (ru_view _ _ Hrun), apply_events_app.
  - apply Forall_app_2; [apply Hrun|done].
  - apply stores_in_app. split; [apply Hrun|]. eapply stores_in_mono; [exact Hin|]. by right.
  - eapply jstate_ext; [..|apply Hrun]; (eapply agree_mono; [exact Hres|]); intros x Hx;
      [left; by left|by right].
  - eapply slots_ext; [|apply Hrun]. eapply agree_mono; [exact Hent|]. apply old_entries.
  - eapply slots_ext; [|apply Hrun]. eapply agree_mono; [exact Hent|]. intros x Hx.
    pose proof (ru_len _ _ Hrun). apply slot_entries. unfold nslots, in_range, LOGENTRY_SIZE in *.
    rewrite length_fmap in Hx. lia.
  - eapply slots_ext; [|apply Hrun]. eapply agree_mono; [exact Hent|]. intros x Hx.
    pose proof (ru_len _ _ Hrun). apply slot_entries. unfold nslots, in_range, cap, LOGENTRY_SIZE in *.
    rewrite length_replicate in Hx. lia.
  - etrans; [|apply Hrun]. symmetry. eapply agree_mono; [exact Hent|]. tauto.
  - apply Hrun.
  - apply Hrun.
  - apply Hrun.
  - intros x Hx. apply unflushed_app; [by apply Hrun|by apply unflushed_off, Hoff].
  - intros x Hx. apply Hcl; [by right|by apply Hrun].
  - destruct (ru_header _ _ Hrun) as [(v & Ev & Hv & HE)|Hc].
    + left. exists (v ++ w). rewrite Ev, app_assoc. split_and!; [done| |done].
      apply Forall_app_2; [done|]. apply (no_store_of _ _ Hin Hok). rewrite HE.
      apply in_entries_nil.
    + right. intros x Hx. apply Hcl; [by left|by apply Hc].
  - intros m [Hm|Hm]%crash_during_app; [by apply (ru_crash _ _ Hrun)|].
    pose proof (ru_len _ _ Hrun).
    apply (remains_recovers [] []); [|constructor|done| | |constructor].
    + apply (crash_remains 0 w); [unfold cap; lia|done| |done].
      eapply stores_in_mono; [exact Hin|]. by right.
    + simpl. unfold cap. lia.
    + rewrite app_nil_r. apply Hrun.
Qed.

(** Logging the range of [z] bytes at [a]. *)
Section Log.
Variables (a z : Z).
Hypothesis Hz : 0 < z < 2 ^ 16.
Hypothesis Ha : 0 < a ∧ a + z < 2 ^ 64.
Hypothesis Hdata : ∀ x, in_range a z x → ¬ reserved l x.

Let k := Z.to_nat (log_entries_for z LE_DATA).
Let first := Z.of_nat (length E) =? 0.
Let es := add_entries k (view s) tid first a z.
Let p := slot0 + nslots E.
Let ea := add_events clwb p g first es ++ [EFence].
Hypothesis Hk : Z.of_nat (length E) + log_entries_for z LE_DATA <= n.

Lemma log_chunked : chunked k z ∧ (length E + k <= cap)%nat ∧ length es = k.
Proof using All.
  destruct (log_entries_for_chunked z LE_DATA) as [Hc Hp]; [lia|].
  split_and!; [done| |apply length_add_entries]. unfold k, cap. lia.
Qed.

Lemma log_elem :
  Forall (λ e, e_tid e = tid ∧ entry_fits e ∧ a <= e_addr e ∧ e_addr e + e_len e <= a + z ∧
    e_data e = read_bytes (view s) (e_addr e) (length (e_data e))) es.
Proof using All.
  destruct log_chunked as [Hc _]. apply add_entries_elem; [done|lia|lia|apply Hready].
Qed.

Lemma log_fits : Forall entry_fits es.
Proof using All. eapply Forall_impl; [apply log_elem|]. naive_solver. Qed.

Lemma log_current :
  Forall (λ e, e_data e = read_bytes (view s) (e_addr e) (length (e_data e))) es.
Proof using All. eapply Forall_impl; [apply log_elem|]. naive_solver. Qed.

Lemma log_slot_aligned : p mod 64 = 0.
Proof using All. exact next_slot_aligned. Qed.

Lemma log_open : cur_open (reserved l) tid (Some <$> (E ++ es)).
Proof using All.
  destruct (ru_open _ _ Hrun) as [H1 H2].
  pose proof (add_entries_open k (view s) tid first a z) as Hty. fold es in Hty.
  assert (Hplain : ∀ es, Forall (λ e, e_type e = LE_DATA) es → all_open (Some <$> es)).
  { induction 1 as [|e es' He Hes IH]; [constructor|]. constructor; [|done].
    simpl. by rewrite He. }
  split.
  - destruct E as [|e0 E0] eqn:EE; simpl.
    + destruct es as [|e es']; [done|]. destruct Hty as [Hty Hes]. unfold first in Hty.
      simpl in Hty. simpl. rewrite Hty. split_and!; [done| |by apply Hplain].
      by intros e' _.
    + destruct H1 as (Hc & Hs & HR). split_and!; [done|exact Hs|].
      rewrite fmap_app. apply Forall_app_2; [exact HR|]. apply Hplain.
      destruct es as [|e es']; [constructor|]. destruct Hty as [Hty Hes].
      constructor; [|done]. rewrite Hty. unfold first. by destruct (Z.eqb_spec (Z.of_nat (length (e0 :: E0))) 0).
  - intros e. rewrite fmap_app, elem_of_app. intros [He|He]; [by apply H2|].
    apply list_elem_of_fmap in He as (e' & [= ->] & He).
    pose proof log_elem as Hall. rewrite Forall_forall in Hall.
    destruct (Hall _ He) as (Ht & _ & Hlo & Hhi & _). split; [done|]. right. split; [lia|].
    intros x Hx. apply Hdata. unfold e_range, in_range in *. lia.
Qed.

Lemma log_ok : Forall ev_ok ea.
Proof using All.
  apply Forall_app_2; [apply add_events_ok, log_slot_aligned|]. by constructor.
Qed.

Lemma log_in : stores_in (next_slots k) ea.
Proof using All.
  destruct log_chunked as (_ & _ & Hlen). apply stores_in_app. split.
  - eapply stores_in_mono; [apply add_events_in, log_fits|]. unfold nslots. by rewrite Hlen.
  - by apply stores_in_other, stores_in_nil.
Qed.

(** A crash while the entries are on their way. *)
Lemma log_crash m : crash_during (pexec start_state (evs s)) ea m → recovers_to m0 m.
Proof using All.
  intros Hm. destruct log_chunked as (_ & Hcap & Hlen).
  destruct (rd_gen Hready) as [Hg _].
  assert (Hrem : remains k m).
  { apply (crash_remains k ea); [done|apply log_ok| |done].
    eapply stores_in_mono; [apply log_in|]. by left. }
  assert (Hclean : ∀ x, in_range p (nslots es) x → clean (line x) (pexec start_state (evs s))).
  { intros x Hx. apply (ru_clean _ _ Hrun), (next_slots_entries k); [done|].
    unfold nslots in Hx. by rewrite Hlen in Hx. }
  assert (Hdead : dead_slots (durable (pexec start_state (evs s))) g p (length es)).
  { pose proof (ru_free _ _ Hrun) as Hf.
    replace (cap - length E)%nat with (k + (cap - length E - k))%nat in Hf by lia.
    apply dead_slots_split in Hf as [Hf _]. rewrite Hlen. eapply slots_ext; [|exact Hf].
    intros x Hx. rewrite <- running_pview. symmetry.
    apply (clean_view (line x)); [apply running_pwf| |done]. apply Hclean.
    unfold nslots in *. by rewrite length_replicate in Hx; rewrite Hlen. }
  destruct (crash_slots clwb (pexec start_state (evs s)) g es m [] [EFence] p first)
    as (R & HR & HsR); try done.
  - apply running_pwf.
  - apply log_slot_aligned.
  - apply log_ok.
  - apply stores_in_nil.
  - by apply stores_in_other, stores_in_nil.
  - apply log_fits.
  - apply add_entries_open.
  - apply (remains_recovers es R); rewrite ?Hlen; try done; [apply log_open|apply log_current].
Qed.

Theorem running_log : running (E ++ es) (log_state s ea).
Proof using All.
  destruct log_chunked as (Hc & Hcap & Hlen). destruct (rd_gen Hready) as [Hg _].
  pose proof (ru_len _ _ Hrun) as Hn.
  assert (Hframe : agree (λ x, ¬ next_slots k x) (view s) (apply_events (view s) ea)).
  { intros x Hx. symmetry. eapply apply_events_frame; [apply log_in|done]. }
  assert (Hflush : ∀ x, journal_bytes l x →
    unflushed (line x) (evs s ++ add_events clwb p g first es) = false).
  { intros x Hx. apply unflushed_app; [by apply (ru_flushed _ _ Hrun)|].
    apply unflushed_add; [apply log_fits|apply log_slot_aligned]. }
  assert (Hclean : ∀ x, journal_bytes l x → clean (line x) (pexec start_state (evs s ++ ea))).
  { intros x Hx. unfold ea. rewrite app_assoc. apply fence_clean; [done| |by apply Hflush].
    apply Forall_app_2; [apply Hrun|apply add_events_ok, log_slot_aligned]. }
  constructor; simpl.
  - by rewrite (ru_view _ _ Hrun), apply_events_app.
  - apply Forall_app_2; [apply Hrun|apply log_ok].
  - apply stores_in_app. split.
    + eapply stores_in_mono; [apply Hrun|]. intros x [?|?]; [by left|]. right.
      apply in_entries_app. by left.
    + eapply stores_in_mono; [apply log_in|]. intros x Hx. left. right.
      by apply (next_slots_entries k).
  - eapply jstate_ext; [..|apply Hrun]; (eapply agree_mono; [exact Hframe|]);
      intros x Hx Hx'%(next_slots_entries k); try done;
      [by apply (header_not_entries l Hl x)|by apply (entries_not_super l Hl x)].
  - eapply slots_ext; [|apply Hrun]. eapply agree_mono; [exact Hframe|]. intros x Hx.
    unfold next_slots, slot0, tail0, in_range, nslots, LOGENTRY_SIZE in *. lia.
  - rewrite fmap_app. apply slots_app. split.
    + eapply slots_ext; [|apply Hrun]. eapply agree_mono; [exact Hframe|]. intros x Hx.
      unfold next_slots, in_range, nslots, LOGENTRY_SIZE in *. rewrite length_fmap in Hx. lia.
    + unfold ea. rewrite apply_events_app.
      replace (slot0 + nslots (Some <$> E)) with p by (unfold p, nslots; by rewrite length_fmap).
      apply (slots_filled clwb g es (view s) p first); [apply log_fits|apply add_entries_open|done].
  - pose proof (ru_free _ _ Hrun) as Hf.
    replace (cap - length E)%nat with (k + (cap - length E - k))%nat in Hf by lia.
    apply dead_slots_split in Hf as [_ Hf]. rewrite length_app, Hlen.
    replace (cap - (length E + k))%nat with (cap - length E - k)%nat by lia.
    replace (slot0 + nslots (E ++ es)) with (slot0 + nslots E + LOGENTRY_SIZE * Z.of_nat k)
      by (rewrite nslots_app; unfold nslots; rewrite Hlen; lia).
    eapply slots_ext; [|exact Hf]. eapply agree_mono; [exact Hframe|].
    unfold next_slots, in_range. lia.
  - etrans; [|apply Hrun]. symmetry. eapply agree_mono; [exact Hframe|]. intros x [_ Hx] Hx'.
    apply Hx. unfold next_slots, in_range, nslots, cap, LOGENTRY_SIZE in *. lia.
  - rewrite length_app, Hlen. unfold k. lia.
  - apply log_open.
  - apply (undoes_app l m0 E es (view s)); [apply Hrun|apply running_data|apply log_current].
  - intros x Hx. unfold ea. rewrite app_assoc. apply unflushed_app; [by apply Hflush|done].
  - intros x Hx. apply Hclean. by right.
  - right. intros x Hx. apply Hclean. by left.
  - intros m [Hm|Hm]%crash_during_app; [by apply (ru_crash _ _ Hrun)|by apply log_crash].
Qed.
End Log.
End Step.
End Tx.
