(* ===== verification/PmfsAtomic.v ===== *)
(** * PMFS: whole transactions

    A transaction as its callers run it ([transaction]): reserve entries, log
    ranges and store to logged ranges in any order, then commit or abort.
    Beginning establishes the invariant of [PmfsTx]; the record that closes the
    transaction is what a crash is decided by ([close_crash]).  [PmfsCommit]
    applies this to commit and abort. *)

From stdpp Require Import base list gmap.
From Stdlib Require Import ZArith Lia.
From coqutil Require Import Byte Word.LittleEndianList.
From S2P Require Import Prelude PMem PMemLine NovaBase PmfsJournal PmfsRecover PmfsMount.
From S2P Require Import PmfsTrans PmfsCrash PmfsRemount PmfsTx.

Local Open Scope Z_scope.

(** ** Transactions *)

(** What a caller does between begin and end: log [size] bytes at [addr], or issue
    stores, flushes and fences of its own. *)
Inductive tx_step :=
| SLog (addr size : Z)
| SWrite (es : list event).

Section Program.
Context `{CachedWrite}.
Variable clwb : bool.

(** The callers do not look at the result of [pmfs_add_logentry]. *)
Fixpoint run_steps (sbi : pmfs_sb_info) (trans : option pmfs_transaction) (steps : list tx_step)
  : PM (option pmfs_transaction) :=
  match steps with
  | [] => mret trans
  | SLog addr size :: steps =>
      '(_, trans) ← pmfs_add_logentry clwb sbi trans addr size LE_DATA;
      run_steps sbi trans steps
  | SWrite es :: steps => emits es;; run_steps sbi trans steps
  end.

Definition transaction (sbi : pmfs_sb_info) (self n : Z) (steps : list tx_step) (commit : bool)
  : PM (Z * pmfs_sb_info) :=
  '(r, sbi) ← pmfs_new_transaction clwb 1 sbi (Some self) n;
  match r with
  | inl err => mret (err, sbi)
  | inr trans =>
      trans ← run_steps sbi (Some trans) steps;
      if commit then pmfs_commit_transaction clwb sbi trans
      else pmfs_abort_transaction clwb sbi trans
  end.
End Program.

(** Bytes of the ranges [L]. *)
Definition logged (L : list (Z * Z)) (x : Z) : Prop := ∃ r, r ∈ L ∧ in_range r.1 r.2 x.

(** Callers log before they store, and keep off the journal. *)
Fixpoint steps_ok (l : layout) (L : list (Z * Z)) (steps : list tx_step) : Prop :=
  match steps with
  | [] => True
  | SLog a z :: steps =>
      (0 < a ∧ 0 < z < 2 ^ 16 ∧ a + z < 2 ^ 64 ∧ ∀ x, in_range a z x → ¬ reserved l x) ∧
      steps_ok l ((a, z) :: L) steps
  | SWrite es :: steps => (Forall ev_ok es ∧ stores_in (logged L) es) ∧ steps_ok l L steps
  end.

(** The log entries the steps take. *)
Fixpoint steps_entries (steps : list tx_step) : Z :=
  match steps with
  | [] => 0
  | SLog _ z :: steps => log_entries_for z LE_DATA + steps_entries steps
  | SWrite _ :: steps => steps_entries steps
  end.

(** What the caller stores, without the log. *)
Fixpoint steps_writes (steps : list tx_step) : list event :=
  match steps with
  | [] => []
  | SLog _ _ :: steps => steps_writes steps
  | SWrite es :: steps => es ++ steps_writes steps
  end.

Lemma log_entries_nonneg z ty : 0 <= z → 0 <= log_entries_for z ty.
Proof.
  intros Hz. destruct (decide (z = 0)) as [->|]; [unfold log_entries_for; simpl; case_match; lia|].
  pose proof (log_entries_for_chunked z ty). lia.
Qed.

Lemma steps_entries_nonneg l L steps : steps_ok l L steps → 0 <= steps_entries steps.
Proof.
  revert L. induction steps as [|[a z|es] steps IH]; intros L Hs; simpl; [lia| |].
  - destruct Hs as [(_ & Hz & _) Hs]. specialize (IH _ Hs).
    pose proof (log_entries_nonneg z LE_DATA). lia.
  - destruct Hs as [_ Hs]. by eapply IH.
Qed.

Section Atomic.
Context `{CachedWrite}.
Variables (clwb : bool) (l : layout).
Hypothesis Hl : layout_ok l.
Variables (m0 : mem) (hd g : Z) (S : list (option lentry)) (tid n : Z).
Hypothesis Hready : ready l m0 hd g S tid n.

Abbreviation tail0 := (tail0 hd S).
Abbreviation tail1 := (tail1 hd S n).
Abbreviation slot0 := (slot0 l hd S).
Abbreviation cap := (cap n).
Abbreviation running := (running clwb l m0 hd g S tid n).
Abbreviation recovers_to := (recovers_to clwb l g).

(** ** Begin *)

Lemma tail1_range : 0 <= tail0 < tail1 ∧ tail1 < 2 ^ 32.
Proof using Hl Hready.
  pose proof (tail0_bounds _ _ _ _ _ _ _ Hready) as (? & ? & ? & ?).
  pose proof (lo_size l Hl). lia.
Qed.

Lemma begin_in : stores_in (header l) (begin_events clwb l tail1).
Proof.
  apply stores_in_store; [|apply stores_in_flushes, flush_events_flushes].
  intros x. rewrite length_bytes_of. unfold header, in_range. offsets. lia.
Qed.

Lemma begin_ok : Forall ev_ok (begin_events clwb l tail1).
Proof using Hl.
  destruct Hl as [[Hj _] _ _ _ _]. unfold begin_events. events_ok.
  apply field_ok; [done|lia|by apply Z.mod_divide|by apply Z.mod_divide].
Qed.

Lemma jstate_set_tail t :
  0 <= t < 2 ^ 32 →
  jstate l (write_bytes m0 (l_journal l + j_tail) (bytes_of 4 t)) hd t g.
Proof using Hl Hready.
  intros Ht. destruct (rd_state _ _ _ _ _ _ _ Hready) as [H1 H2 H3 H4 H5 H6 H7].
  destruct Hl as [[_ Hj] _ _ _ _].
  constructor; rewrite ?load_write_same; try (by apply Z.mod_small; lia);
    by rewrite load_write_disjoint by
      (rewrite length_bytes_of; unfold disjoint_ranges; offsets; lia).
Qed.

Lemma begin_view m : apply_events m (begin_events clwb l tail1) =
  write_bytes m (l_journal l + j_tail) (bytes_of 4 tail1).
Proof.
  unfold begin_events. rewrite apply_events_cons, apply_events_no_store; [done|].
  apply is_flush_no_store, flush_events_flushes.
Qed.

Lemma begin_entries m : agree (λ x, ¬ header l x) m (apply_events m (begin_events clwb l tail1)).
Proof.
  intros x Hx. symmetry. eapply apply_events_frame; [apply begin_in|done].
Qed.

Lemma begin_data : agree (data l) (apply_events m0 (begin_events clwb l tail1)) m0.
Proof.
  intros x Hx. symmetry. apply begin_entries. intros Hh. apply Hx. by left.
Qed.

Theorem running_begin : running [] (log_state (Cpu m0 []) (begin_events clwb l tail1)).
Proof using Hl Hready.
  destruct tail1_range as [_ Ht]. pose proof (tail0_bounds _ _ _ _ _ _ _ Hready) as (? & ? & ? & ?).
  destruct (rd_room _ _ _ _ _ _ _ Hready) as [Hn _].
  assert (Hent : agree (entries l) m0 (apply_events m0 (begin_events clwb l tail1))).
  { eapply agree_mono; [apply begin_entries|]. intros x Hx Hh.
    by apply (header_not_entries l Hl x). }
  assert (Hhdr : jstate l (apply_events m0 (begin_events clwb l tail1)) hd tail1 g).
  { rewrite begin_view. apply jstate_set_tail. lia. }
  assert (Hfree : dead_slots (apply_events m0 (begin_events clwb l tail1)) g slot0 cap).
  { eapply slots_ext; [|apply Hready]. eapply agree_mono; [exact Hent|]. intros x Hx.
    apply (slot_entries _ _ _ _ _ _ _ Hready). unfold nslots, in_range, PmfsTx.cap in *.
    rewrite length_replicate in Hx. lia. }
  assert (Hold : slots (apply_events m0 (begin_events clwb l tail1)) g (l_base l + hd) S).
  { eapply slots_ext; [|apply Hready]. eapply agree_mono; [exact Hent|].
    apply (old_entries _ _ _ _ _ _ _ Hready). }
  constructor; simpl; try done.
  - apply begin_ok.
  - eapply stores_in_mono; [apply begin_in|]. intros x Hx. left. by left.
  - rewrite nslots_nil, Z.add_0_r, Nat.sub_0_r. exact Hfree.
  - symmetry. eapply agree_mono; [exact Hent|]. tauto.
  - split; [done|]. by intros e ?%elem_of_nil.
  - apply undoes_nil.
  - intros x _. unfold begin_events. change (?e :: ?fl) with ([e] ++ fl).
    rewrite <- (app_nil_r (flush_events _ _ _)). apply unflushed_covered; [lia| | |constructor].
    + apply stores_in_store; [|apply stores_in_nil]. intros x'. rewrite length_bytes_of.
      unfold in_range. lia.
    + pose proof begin_ok as Hok. unfold begin_events in Hok.
      apply Forall_cons in Hok as [Hok _]. by constructor.
  - intros x Hx. apply clean_pexec; [apply pwf_nil|apply begin_ok|done|].
    eapply line_stores_out; [apply begin_in|apply begin_ok|]. intros y Hy Hh.
    apply (header_not_entries l Hl y Hh).
    destruct Hl as [_ [Hb _] [Hs _] _ _]. by apply (block_line _ _ x y).
  - left. exists []. by rewrite app_nil_r.
  - intros m Hm. apply crash_one_store in Hm as [->| ->]; [| |done|].
    + apply (recovers_old clwb l Hl m0 hd g S tid n Hready); [apply Hready|apply Hready|done].
    + apply (recovers_new clwb l Hl m0 hd g S tid n Hready) with (replicate cap None).
      * apply jstate_set_tail. lia.
      * by rewrite begin_view in Hold.
      * by rewrite begin_view in Hfree.
      * apply length_replicate.
      * apply (cur_open_nones _ _ []). split; [done|]. by intros e ?%elem_of_nil.
      * assert (undo_of (replicate cap None) = []) as -> by (by destruct cap).
        intros x Hx. simpl. rewrite <- begin_view. symmetry. apply begin_entries.
        intros Hh. apply Hx. by left.
    + apply is_flush_no_store, flush_events_flushes.
Qed.

(** ** The steps *)

Record trans_is (self par : Z) (E : list lentry) (t : pmfs_transaction) : Prop := {
  ti_eq : t = Trans self tid (n + 1) (Z.of_nat (length E)) g (Some slot0) par
}.

Lemma run_steps_running sbi self par steps : ∀ E L t s,
  redo_log sbi = false → running E s → trans_is self par E t → steps_ok l L steps →
  (∀ x, logged L x → in_entries E x) → Z.of_nat (length E) + steps_entries steps <= n →
  ∃ E' t' s', run_steps clwb sbi (Some t) steps s = Ok (Some t', s') ∧ running E' s' ∧
    trans_is self par E' t' ∧
    agree (data l) (view s') (apply_events (view s) (steps_writes steps)).
Proof using Hl Hready.
  induction steps as [|[a z|es] steps IH]; intros E L t s Hr Hrun Ht Hok HL Hn.
  { exists E, t, s. by split. }
  - destruct Hok as [(Ha & Hz & Hb & Hd) Hok]. cbn [run_steps steps_entries] in *.
    pose proof (steps_entries_nonneg _ _ _ Hok).
    destruct (log_entries_for_chunked z LE_DATA) as [Hc Hpos]; [lia|].
    pose proof (tail0_bounds _ _ _ _ _ _ _ Hready) as (? & ? & ? & ?).
    pose proof (lo_size l Hl) as [_ Hsz].
    assert (Hn16 : n + 1 < 2 ^ 16) by (unfold PmfsTx.tail1, LOGENTRY_SIZE in *; lia).
    destruct Ht as [->].
    erewrite bind_Ok.
    2: { eapply (add_logentry_data clwb sbi _ a z slot0); simpl; try done; try lia.
      - constructor; simpl; [done|lia|lia].
      - intros x Hx Hx'. apply (Hd x Hx). left. right.
        apply (slot_entries _ _ _ _ _ _ _ Hready). unfold in_range, LOGENTRY_SIZE in *. lia. }
    cbn beta iota. set (k := Z.to_nat (log_entries_for z LE_DATA)) in *.
    set (E1 := add_entries _ _ _ _ _ _). set (s1 := log_state _ _).
    assert (Hrun1 : running (E ++ E1) s1).
    { exact (running_log clwb l Hl m0 hd g S tid n Hready E s Hrun a z Hz (conj Ha Hb) Hd
        ltac:(simpl; lia)). }
    assert (Hkeep : agree (data l) (view s1) (view s)).
    { intros x Hx. eapply apply_events_frame; [exact (log_in clwb l Hl m0 hd g S tid n Hready E s Hrun
        a z Hz (conj Ha Hb) Hd ltac:(simpl; lia))|]. intros Hk. apply Hx. right.
      eapply (next_slots_entries l m0 hd g S tid n Hready E); [|exact Hk].
      unfold PmfsTx.cap. lia. }
    assert (HlenE : length (E ++ E1) = (length E + k)%nat).
    { rewrite length_app. unfold E1. by rewrite length_add_entries. }
    set (t1 := set_num_used _ _).
    destruct (IH (E ++ E1) ((a, z) :: L) t1 s1) as (E' & t' & s' & H1' & H2' & H3' & Hv);
      [done|exact Hrun1| |exact Hok| | |].
    + constructor. unfold t1, set_num_used. simpl. f_equal. rewrite HlenE. unfold k. lia.
    + intros x (r & [->|Hr']%elem_of_cons & Hx); apply in_entries_app.
      * right. by apply add_entries_cover.
      * left. apply HL. by exists r.
    + rewrite HlenE. unfold k. lia.
    + exists E', t', s'. split_and!; [done..|]. etrans; [exact Hv|]. intros x Hx. 
      by apply apply_events_local, Hkeep.
  - destruct Hok as [[Ho Hin] Hok]. cbn [run_steps steps_entries] in *.
    erewrite bind_Ok; [|apply emits_eq].
    destruct (IH E L t (log_state s es)) as (E' & t' & s' & H1 & H2 & H3 & H4); try done.
    + apply (running_write clwb l Hl m0 hd g S tid n Hready); [done|done|].
      by eapply stores_in_mono.
    + exists E', t', s'. split_and!; [done..|]. simpl. rewrite apply_events_app. exact H4.
Qed.

(** ** Closing *)

Section Close.
Variables (E : list lentry) (s : cpu).
Hypothesis Hrun : running E s.
(** The closing record of type [ty] goes to slot [p]. *)
Variable ty : Z.
Hypothesis Hty : ty = LE_COMMIT ∨ ty = LE_ABORT.
Let p := slot0 + nslots E.
Let c := close_entry tid ty (bool_decide (E = [])).
Abbreviation next := (next_slots l hd S E 1).

(** The run closes in two parts: [A] and a fence, after which everything but slot
    [p] is durable, and [B], which validates the slot last. *)
Variables (A B pre post : list event).
Hypothesis HokA : Forall ev_ok A.
Hypothesis HokB : Forall ev_ok B.
Hypothesis HinA : stores_in (λ x, next x ∧ ¬ in_range (p + le_gen_id) 2 x ∨ in_entries E x) A.
Hypothesis HinB : stores_in next B.
Hypothesis Hsplit : (A ++ [EFence]) ++ B = pre ++ gen_event p g :: post.
Hypothesis Hpre : stores_in (λ x, ¬ in_range (p + le_gen_id) 2 x) pre.
Hypothesis Hpost : Forall no_store post.
Hypothesis Hslot : slot_is (apply_events (view s) (pre ++ [gen_event p g])) p g c.
Hypothesis Hflush : ∀ x, ¬ entries l x → unflushed (line x) (evs s ++ A) = false.

Let t := pexec (start_state m0) (evs s).
Let v := apply_events (view s) A.

Lemma close_cap : (length E + 1 <= cap)%nat.
Proof using Hrun. pose proof (ru_len _ _ _ _ _ _ _ _ _ _ Hrun). unfold PmfsTx.cap. lia. Qed.

Lemma close_aligned : p mod 64 = 0.
Proof using All. by eapply (next_slot_aligned l Hl). Qed.

Lemma slot_next x : in_range p 64 x ↔ next x.
Proof. unfold next_slots, p, LOGENTRY_SIZE. by rewrite Z.mul_1_r. Qed.

Lemma close_clean : clean (line p) t.
Proof using All.
  apply (ru_clean _ _ _ _ _ _ _ _ _ _ Hrun).
  apply (next_slots_entries l m0 hd g S tid n Hready E 1); [apply close_cap|].
  apply (proj1 (slot_next p)). unfold in_range. lia.
Qed.

Lemma close_dead : slot_dead (durable t) p g.
Proof using All.
  pose proof (ru_free _ _ _ _ _ _ _ _ _ _ Hrun) as Hf. pose proof close_cap.
  replace (cap - length E)%nat with (1 + (cap - length E - 1))%nat in Hf by lia.
  destruct Hf as [Hf _]. unfold slot_dead in *. rewrite (load_ext _ _ (view s)); [done|].
  intros x Hx. rewrite <- (running_pview clwb l m0 hd g S tid n E s Hrun).
  apply (clean_view (line p)); [by eapply running_pwf|exact close_clean|].
  apply line_block; [apply close_aligned|]. unfold in_range, le_gen_id in *. lia.
Qed.

(** The crashes that find the record invalid. *)
Lemma close_invalid m :
  crash_during t ((A ++ [EFence]) ++ B) m → slot_dead m p g → recovers_to m0 m.
Proof using All.
  intros Hm Hd. pose proof close_cap.
  assert (Hrem : remains l m0 hd g S n E 1 m).
  { apply (crash_remains clwb l Hl m0 hd g S tid n Hready E s Hrun 1 ((A ++ [EFence]) ++ B));
      [done| | |done].
    - repeat apply Forall_app_2; [done|by constructor|done].
    - repeat (apply stores_in_app; split).
      + eapply stores_in_mono; [exact HinA|]. tauto.
      + by apply stores_in_other, stores_in_nil.
      + eapply stores_in_mono; [exact HinB|]. tauto. }
  apply (remains_recovers clwb l Hl m0 hd g S tid n Hready E s Hrun [] [] m);
    [|constructor|done|simpl; lia|rewrite app_nil_r; apply Hrun|constructor].
  destruct Hrem as [H1 H2 H3 H4 H5]. constructor; try done. simpl. rewrite Z.add_0_r.
  replace (cap - length E - 0)%nat with (1 + (cap - length E - 1))%nat by lia.
  apply dead_slots_split. split; [by split|done].
Qed.

(** After the fence nothing but slot [p] is in flight. *)
Lemma close_quiet m x :
  crash_during (pexec (start_state m0) (evs s ++ A ++ [EFence])) B m → ¬ entries l x →
  m !!! x = v !!! x.
Proof using All.
  intros Hm Hx. assert (Hok : Forall ev_ok (evs s ++ A)) by (apply Forall_app_2; [apply Hrun|done]).
  assert (Hpwf : pwf (pexec (start_state m0) (evs s ++ A ++ [EFence]))).
  { apply pwf_pexec; [apply pwf_nil|]. rewrite app_assoc. apply Forall_app_2; [done|by constructor]. }
  rewrite (crash_quiet _ B m x Hpwf); [| |done| |done].
  - rewrite pview_pexec; [|apply pwf_nil|rewrite app_assoc; apply Forall_app_2; [done|by constructor]].
    rewrite !apply_events_app. unfold v. by rewrite (ru_view _ _ _ _ _ _ _ _ _ _ Hrun).
  - rewrite app_assoc. apply fence_clean; [done..|by apply Hflush].
  - eapply stores_in_mono; [exact HinB|]. intros y Hy ->. apply Hx.
    by apply (next_slots_entries l m0 hd g S tid n Hready E 1); [apply close_cap|].
Qed.

(** The crashes that find it whole. *)
Section Valid.
Variable m : mem.
Hypothesis Hm : crash_during (pexec (start_state m0) (evs s ++ A ++ [EFence])) B m.
Hypothesis Hs : slot_is m p g c.

Lemma close_all : crash_during t ((A ++ [EFence]) ++ B) m.
Proof using Hm. apply crash_during_after. unfold t. by rewrite <- pexec_app. Qed.

Lemma close_ok : Forall ev_ok ((A ++ [EFence]) ++ B).
Proof using All. repeat apply Forall_app_2; [done|by constructor|done]. Qed.

Lemma close_in : stores_in (λ x, next x ∨ in_entries E x) ((A ++ [EFence]) ++ B).
Proof using All.
  repeat (apply stores_in_app; split).
  - eapply stores_in_mono; [exact HinA|]. tauto.
  - by apply stores_in_other, stores_in_nil.
  - eapply stores_in_mono; [exact HinB|]. tauto.
Qed.

Lemma close_remains : remains l m0 hd g S n E 1 m.
Proof using All.
  apply (crash_remains clwb l Hl m0 hd g S tid n Hready E s Hrun 1 ((A ++ [EFence]) ++ B));
    [apply close_cap|apply close_ok|apply close_in|apply close_all].
Qed.

Lemma close_header : jstate l m hd tail1 g.
Proof using All.
  assert (Hkeep : ∀ x, ¬ entries l x → ¬ in_entries E x → v !!! x = view s !!! x).
  { intros x Hx HE. eapply apply_events_frame; [exact HinA|]. intros [[Hn _]|?]; [|done].
    apply Hx. by apply (next_slots_entries l m0 hd g S tid n Hready E 1); [apply close_cap|]. }
  assert (Hout : ∀ x, reserved l x → ¬ entries l x → m !!! x = view s !!! x).
  { intros x Hx Hne. rewrite (close_quiet m x Hm Hne). apply Hkeep; [done|].
    intros (e & He & Hy). by apply (logged_not_journal clwb l m0 hd g S tid n E s Hrun e x). }
  eapply jstate_ext; [..|apply Hrun]; intros x Hx; symmetry; apply Hout.
  - left. by left.
  - by apply (header_not_entries l Hl).
  - by right.
  - intros ?. by apply (entries_not_super l Hl x).
Qed.

Lemma close_slots : slots m g slot0 (closed_slots tid n E ty).
Proof using All.
  destruct close_remains as [_ _ H3 H4 _]. apply slots_app. split; [done|].
  unfold nslots at 1. rewrite length_fmap. apply slots_app. split; [by split|].
  rewrite nslots_cons, nslots_nil, Z.add_0_r. by rewrite Z.mul_1_r in H4.
Qed.

Lemma close_valid : recovers_to v m.
Proof using All.
  intros b Hb. eapply survives_agree; [|apply (recovers_closed clwb l Hl m0 hd g S tid n Hready m E ty)];
    [|apply close_header|apply close_remains|apply close_slots|apply close_cap|apply Hrun|done|done].
  intros x Hx. apply close_quiet; [done|]. intros ?. apply Hx. by right.
Qed.

(** The rest of the ring keeps. *)
Lemma close_rest : agree (λ x, entries l x ∧ ¬ in_range slot0 (LOGENTRY_SIZE * (n + 1)) x) m m0.
Proof using All.
  pose proof (ru_len _ _ _ _ _ _ _ _ _ _ Hrun) as Hlen.
  etrans; [|apply Hrun]. intros x [Hx Hx'].
  apply (crash_entries clwb l Hl m0 hd g S tid n E s Hrun 1 ((A ++ [EFence]) ++ B));
    [apply close_ok|apply close_in|apply close_all|done|].
  unfold next_slots, in_range, nslots, LOGENTRY_SIZE in *. lia.
Qed.

End Valid.

(** A crash while closing mounts to the old contents or to those of [v]. *)
Theorem close_crash m :
  crash_during (start_state m0) (evs s ++ (A ++ [EFence]) ++ B) m →
  recovers_to m0 m ∨ recovers_to v m.
Proof using All.
  intros [Hm|Hm]%crash_during_app; [left; by apply (ru_crash _ _ _ _ _ _ _ _ _ _ Hrun)|].
  assert (Hok : Forall ev_ok ((A ++ [EFence]) ++ B)).
  { repeat apply Forall_app_2; [done|by constructor|done]. }
  pose proof close_aligned as Hp.
  assert (Hpwf : pwf t) by (by eapply running_pwf).
  pose proof Hm as [HmA|HmB]%crash_during_app.
  - left. apply close_invalid; [done|].
    destruct (crash_line_prefix (line p) t (A ++ [EFence]) m) as (es' & Hes & Ha);
      [done|exact close_clean|by apply Forall_app in Hok as [? _]|done|].
    pose proof close_dead as Hd. unfold slot_dead in *. rewrite (load_ext _ m (durable t)); [done|].
    intros x Hx. rewrite Ha; [|apply line_block; [done|unfold in_range, le_gen_id in *; lia]].
    assert (Hin : stores_in (λ x, ¬ in_range (p + le_gen_id) 2 x) (A ++ [EFence])).
    { apply stores_in_app. split; [|by apply stores_in_other, stores_in_nil].
      eapply stores_in_mono; [exact HinA|]. intros y [[_ ?]|(e & He & Hy)]; [done|]. intros Hg.
      apply (logged_not_journal clwb l m0 hd g S tid n E s Hrun e y He Hy). left. right.
      apply (next_slots_entries l m0 hd g S tid n Hready E 1); [apply close_cap|].
      apply (proj1 (slot_next y)). unfold in_range, le_gen_id in *. lia. }
    eapply apply_events_frame; [by eapply stores_in_prefix|]. simpl. tauto.
  - pose proof Hm as Hm'. rewrite Hsplit in Hm'. unfold gen_event in *.
    apply (crash_last_store (line p)) in Hm' as [Hg|Hw].
    + left. apply close_invalid; [done|]. pose proof close_dead as Hd. unfold slot_dead in *.
      rewrite (load_ext _ m (durable t)); [done|]. by rewrite length_bytes_of in Hg.
    + right. apply close_valid; [by rewrite pexec_app|].
      eapply (slot_opt_ext _ _ p g (Some c)); [|exact Hslot]. intros x Hx.
      assert (Hon : on (line p) x) by (by apply line_block).
      rewrite (Hw x Hon). apply apply_events_local.
      rewrite <- (running_pview clwb l m0 hd g S tid n E s Hrun). symmetry.
      apply (clean_view (line p)); [done|exact close_clean|done].
    + done.
    + exact close_clean.
    + by rewrite <- Hsplit.
    + rewrite length_bytes_of. exact Hpre.
    + unfold line, le_gen_id. apply Z.mod_divide in Hp as [q Hq]; [|lia]. rewrite Hq.
      rewrite Z.div_mul by lia. symmetry. apply Z.div_unique with 12; lia.
    + by apply line_stores_none.
Qed.

(** The last fence leaves nothing in flight. *)
Section Fenced.
Variable B' : list event.
Hypothesis HB : B = B' ++ [EFence].
Hypothesis Hdone : unflushed (line p) (evs s ++ (A ++ [EFence]) ++ B') = false.

Let es := evs s ++ (A ++ [EFence]) ++ B.

Lemma fenced_ok : Forall ev_ok es.
Proof using All. apply Forall_app_2; [apply Hrun|]. repeat apply Forall_app_2; [done|by constructor|done]. Qed.

Lemma fenced_clean x : clean (line x) (pexec (start_state m0) es).
Proof using All.
  pose proof fenced_ok as Hok. unfold es in *. destruct (decide (line x = line p)) as [->|Hx].
  { rewrite HB, !app_assoc in *. apply Forall_app in Hok as [Hok _]. apply fence_clean;
      [done|done|]. by rewrite <- !app_assoc in *. }
  assert (HBx : line_stores (line x) B = []).
  { eapply line_stores_out; [exact HinB|exact HokB|]. intros y Hy Hn%slot_next. apply Hx.
    rewrite <- Hy. apply line_block; [apply close_aligned|done]. }
  rewrite app_assoc. rewrite app_assoc in Hok. apply Forall_app in Hok as [Hok1 Hok2].
  rewrite pexec_app. apply clean_pexec; [by apply pwf_pexec; [apply pwf_nil|]|done| |done].
  destruct (decide (entries l x)) as [He|He].
  - apply Forall_app in Hok1 as [Hok1 HokA']. rewrite pexec_app.
    apply clean_pexec; [by eapply running_pwf|done|by apply (ru_clean _ _ _ _ _ _ _ _ _ _ Hrun)|].
    eapply (line_stores_out _ _ (λ y, next y ∨ in_entries E y)); [|done|].
    + apply stores_in_app. split; [|by apply stores_in_other, stores_in_nil].
      eapply stores_in_mono; [exact HinA|]. tauto.
    + intros y Hy [Hn%slot_next|(e & Hin & Hr)].
      * apply Hx. rewrite <- Hy. apply line_block; [apply close_aligned|done].
      * apply (logged_not_journal clwb l m0 hd g S tid n E s Hrun e y Hin Hr). left.
        apply (journal_line l Hl x); [done|by right].
  - rewrite app_assoc in *. apply Forall_app in Hok1 as [Hok1 _].
    apply fence_clean; [done|done|by apply Hflush].
Qed.

Theorem close_quiescent : inflight (pexec (start_state m0) es) = [].
Proof using All.
  destruct (inflight (pexec (start_state m0) es)) as [|w ws] eqn:E0; [done|].
  pose proof (fenced_clean (p_addr w)) as Hc. unfold clean in Hc. rewrite E0 in Hc.
  unfold on_line in Hc. rewrite filter_cons_True in Hc; done.
Qed.
End Fenced.

(** Once the record is durable, every crash mounts to [v]. *)
Theorem close_durable B' m :
  B = B' ++ [EFence] → unflushed (line p) (evs s ++ (A ++ [EFence]) ++ B') = false →
  slot_is (apply_events (view s) ((A ++ [EFence]) ++ B)) p g c →
  crash_image (pexec (start_state m0) (evs s ++ (A ++ [EFence]) ++ B)) m → recovers_to v m.
Proof using All.
  intros HB Hu Hs Hm. apply close_valid.
  - apply crash_during_end. by rewrite <- pexec_app, <- app_assoc.
  - assert (Hok : Forall ev_ok (evs s ++ (A ++ [EFence]) ++ B')).
    { rewrite HB in HokB. apply Forall_app in HokB as [? _].
      repeat apply Forall_app_2; [apply Hrun|done|by constructor|done]. }
    assert (Eq : evs s ++ (A ++ [EFence]) ++ B' ++ [EFence] =
      (evs s ++ (A ++ [EFence]) ++ B') ++ [EFence]) by (by rewrite <- !app_assoc).
    rewrite HB, Eq in Hm. rewrite HB, app_assoc in Hs.
    eapply (slot_opt_ext _ _ p g (Some c)); [|exact Hs]. intros x Hx.
    assert (Hon : line x = line p) by (apply line_block; [apply close_aligned|done]).
    rewrite (crash_quiet (pexec (start_state m0) ((evs s ++ (A ++ [EFence]) ++ B') ++ [EFence])) [] m x).
    + rewrite pview_pexec; [|apply pwf_nil|apply Forall_app_2; [done|by constructor]].
      change (pview (start_state m0)) with m0. rewrite <- (app_assoc (evs s)), (apply_events_app m0 (evs s)).
      by rewrite <- (ru_view _ _ _ _ _ _ _ _ _ _ Hrun).
    + apply pwf_pexec; [apply pwf_nil|apply Forall_app_2; [done|by constructor]].
    + rewrite Hon. by apply fence_clean.
    + constructor.
    + apply stores_in_nil.
    + by apply crash_during_end.
Qed.
End Close.

(** *** What closing needs and gives *)

Record closing (E : list lentry) (s : cpu) (ty : Z) (A B' pre post : list event) : Prop := {
  cl_okA : Forall ev_ok A;
  cl_okB : Forall ev_ok (B' ++ [EFence]);
  cl_inA : stores_in (λ x, (next_slots l hd S E 1 x ∧
    ¬ in_range (slot0 + nslots E + le_gen_id) 2 x) ∨ in_entries E x) A;
  cl_inB : stores_in (next_slots l hd S E 1) (B' ++ [EFence]);
  cl_split : (A ++ [EFence]) ++ B' ++ [EFence] = pre ++ gen_event (slot0 + nslots E) g :: post;
  cl_pre : stores_in (λ x, ¬ in_range (slot0 + nslots E + le_gen_id) 2 x) pre;
  cl_post : Forall no_store post;
  cl_slot : slot_is (apply_events (view s) (pre ++ [gen_event (slot0 + nslots E) g]))
    (slot0 + nslots E) g (close_entry tid ty (bool_decide (E = [])));
  cl_flush : ∀ x, ¬ entries l x → unflushed (line x) (evs s ++ A) = false;
  cl_done : unflushed (line (slot0 + nslots E)) (evs s ++ (A ++ [EFence]) ++ B') = false
}.

(** The run [es] took the contents from those of [m0] to those of [v]. *)
Record ended (es : list event) (v : mem) (E : list lentry) (ty : Z) : Prop := {
  en_ok : Forall ev_ok es;
  en_crash m : crash_during (start_state m0) es m → recovers_to m0 m ∨ recovers_to v m;
  en_done : inflight (pexec (start_state m0) es) = [];
  en_new : recovers_to v (durable (pexec (start_state m0) es));
  en_data : agree (data l) (durable (pexec (start_state m0) es)) v;
  en_size : nslots (closed_slots tid n E ty) = LOGENTRY_SIZE * (n + 1);
  en_tids e : Some e ∈ closed_slots tid n E ty → e_tid e = tid;
  en_rest : agree (λ x, entries l x ∧ ¬ in_range slot0 (LOGENTRY_SIZE * (n + 1)) x)
    (durable (pexec (start_state m0) es)) m0;
  en_state : jstate l (durable (pexec (start_state m0) es)) hd tail1 g;
  en_slots : slots (durable (pexec (start_state m0) es)) g (l_base l + hd)
    (S ++ closed_slots tid n E ty);
  en_settled : settled (S ++ closed_slots tid n E ty)
}.

Theorem closing_ended E s ty A B' pre post :
  running E s → ty = LE_COMMIT ∨ ty = LE_ABORT → closing E s ty A B' pre post →
  ended (evs s ++ (A ++ [EFence]) ++ B' ++ [EFence]) (apply_events (view s) A) E ty.
Proof using All.
  intros Hrun Hty [H1 H2 H3 H4 H5 H6 H7 H8 H9 H10].
  set (es := evs s ++ (A ++ [EFence]) ++ B' ++ [EFence]).
  assert (Hq : inflight (pexec (start_state m0) es) = []) by (by eapply close_quiescent).
  assert (Hok : Forall ev_ok es) by (by eapply fenced_ok).
  set (m := durable (pexec (start_state m0) es)).
  assert (Em : pexec (start_state m0) es = PState m []).
  { unfold m. destruct (pexec (start_state m0) es). simpl in *. by rewrite Hq. }
  assert (Hm : crash_during (pexec (start_state m0) (evs s ++ A ++ [EFence])) (B' ++ [EFence]) m).
  { apply crash_during_end. rewrite <- pexec_app, <- app_assoc. fold es. rewrite Em. by exists (λ _, O). }
  assert (Hs : slot_is m (slot0 + nslots E) g (close_entry tid ty (bool_decide (E = [])))).
  { eapply slot_is_proper; [|exact H8]. pose proof (pview_pexec (start_state m0) es) as Hv.
    rewrite Em in Hv. rewrite Hv by (done || apply pwf_nil). unfold es.
    change (pview (start_state m0)) with m0. rewrite H5, (apply_events_app m0).
    rewrite <- (ru_view _ _ _ _ _ _ _ _ _ _ Hrun), !apply_events_app.
    rewrite (apply_events_cons (apply_events (view s) pre) _ post), (apply_events_no_store _ post); done. }
  constructor; fold m; try done.
  - intros m' Hm'. by eapply close_crash with (B := B' ++ [EFence]) (ty := ty).
  - by eapply close_valid with (B := B' ++ [EFence]).
  - intros x Hx. eapply close_quiet with (B := B' ++ [EFence]) (ty := ty); try done. intros ?. apply Hx. by right.
  - pose proof (rd_room _ _ _ _ _ _ _ Hready) as [Hn _]. unfold nslots. rewrite length_closed.
    + unfold PmfsTx.cap. lia.
    + by eapply close_cap.
  - intros e He. eapply (closed_tids l); [apply Hrun|done].
  - by eapply close_rest with (A := A) (B := B' ++ [EFence]) (ty := ty).
  - by eapply close_header with (A := A) (ty := ty) (B := B' ++ [EFence]).
  - apply slots_app. split.
    + by eapply close_remains with (A := A) (B := B' ++ [EFence]) (ty := ty).
    + rewrite <- Z.add_assoc. by eapply close_slots with (A := A) (B := B' ++ [EFence]).
  - apply (closed_settled l); [apply Hready|apply Hrun|done].
Qed.

Lemma recovers_agree v v' m : agree (data l) v v' → recovers_to v m → recovers_to v' m.
Proof. intros Hv Hr c Hc. by eapply survives_agree, Hr. Qed.

Lemma ended_agree es v v' E ty : agree (data l) v v' → ended es v E ty → ended es v' E ty.
Proof using All.
  intros Hv [H1 H2 H3 H4 H5 H6 H7 H8 H9 H10 H11]. constructor; try done.
  - intros m [Hm|Hm]%H2; [by left|right]. by eapply recovers_agree.
  - by eapply recovers_agree.
  - by etrans.
Qed.

End Atomic.
