(* ===== verification/PmfsCommit.v ===== *)
(** * PMFS: commit and abort

    The two ways to close a transaction as instances of [close_crash], and the
    whole run: a crash at any point of a committed transaction mounts to the old
    contents or to the new ones, an aborted one always to the old, and either
    leaves the journal ready for the next transaction. *)

From stdpp Require Import base list gmap.
From Stdlib Require Import ZArith Lia.
From coqutil Require Import Byte Word.LittleEndianList.
From S2P Require Import Prelude PMem PMemLine NovaBase PmfsJournal PmfsRecover PmfsMount.
From S2P Require Import PmfsTrans PmfsCrash PmfsTx PmfsAtomic.

Local Open Scope Z_scope.

Section Atomic.
Context `{CachedWrite}.
Variables (clwb : bool) (l : layout).
Hypothesis Hl : layout_ok l.
Variables (m0 : mem) (hd g : Z) (S : list (option lentry)) (tid n : Z).
Hypothesis Hready : ready l m0 hd g S tid n.

Abbreviation tail0 := (tail0 hd S).
Abbreviation tail1 := (tail1 hd S n).
Abbreviation slot0 := (slot0 l hd S).
Abbreviation cap := (cap n).
Abbreviation running := (running clwb l m0 hd g S tid n).
Abbreviation recovers_to := (recovers_to clwb l g).
Abbreviation trans_is := (trans_is l hd g S tid n).

(** *** The two closings *)

Lemma write_same m a k v x : load k m a = v → write_bytes m a (bytes_of k v) !!! x = m !!! x.
Proof. intros <-. rewrite write_back. by case_decide. Qed.

Lemma length_zero {A} (E : list A) : (Z.of_nat (length E) =? 0) = bool_decide (E = []).
Proof. by destruct E. Qed.

Section Ends.
Variables (E : list lentry) (s : cpu).
Hypothesis Hrun : running E s.
Let p := slot0 + nslots E.
Let first := Z.of_nat (length E) =? 0.
Abbreviation next := (next_slots l hd S E 1).

Lemma first_eq : first = bool_decide (E = []).
Proof using All. apply length_zero. Qed.

Lemma fill_next ty c : e_len c <= sizeof_le_data →
  stores_in (λ x, next x ∧ ¬ in_range (p + le_gen_id) 2 x) (entry_fill p ty first c).
Proof using All.
  intros Hc. eapply stores_in_mono; [by apply entry_fill_in|]. intros x [Hx Hg]. split; [|done].
  unfold next_slots, LOGENTRY_SIZE. by rewrite Z.mul_1_r.
Qed.

Lemma close_entry_fits ty : entry_fits (close_entry tid ty first).
Proof using All. constructor; simpl; [lia|apply Hready|unfold e_len, sizeof_le_data; simpl; lia]. Qed.

(** A line outside the entries is dirty only where the transaction logged. *)
Lemma dirty_logged w x :
  ¬ entries l x → stores_in (λ y, next y ∨ in_entries E y) w → Forall ev_ok w →
  unflushed (line x) (evs s ++ w) = true → ∃ y, in_entries E y ∧ line y = line x.
Proof using All.
  intros Hx Hin Hok Hu. pose proof (ru_len _ _ _ _ _ _ _ _ _ _ Hrun) as Hlen.
  assert (Hent : ∀ y, entries l y → line y = line x → False).
  { intros y Hy E'. apply Hx. destruct Hl as [_ [Hb _] [Hs _] _ _].
    by apply (block_line _ _ y x). }
  apply unflushed_stored in Hu as Hst. destruct Hst as (a & bs & [Hi|Hi]%elem_of_app & Ha).
  - assert (Ha' : in_range a (Z.of_nat (length bs)) a).
    { pose proof (ru_ok _ _ _ _ _ _ _ _ _ _ Hrun) as Hok'. rewrite Forall_forall in Hok'.
      destruct (Hok' _ Hi) as [Hne _]. destruct bs; [done|]. unfold in_range. simpl. lia. }
    destruct (ru_in _ _ _ _ _ _ _ _ _ _ Hrun _ _ _ _ Hi Ha') as [[Hh|He]|He];
      [|by destruct (Hent a)|by exists a].
    exfalso. assert (unflushed (line x) (evs s ++ w) = false); [|congruence].
    rewrite <- Ha. apply unflushed_app.
    + apply (ru_flushed _ _ _ _ _ _ _ _ _ _ Hrun). by left.
    + apply unflushed_off. eapply line_stores_out; [exact Hin|done|]. intros y Hy [Hn|(e & He & Hn)].
      * apply (Hent y); [|by rewrite Hy].
        apply (next_slots_entries l m0 hd g S tid n Hready E 1); [unfold PmfsTx.cap; lia|done].
      * apply (logged_not_journal clwb l m0 hd g S tid n E s Hrun e y He Hn). left.
        apply (journal_line l Hl a); [by rewrite Hy|by left].
  - assert (Ha' : in_range a (Z.of_nat (length bs)) a).
    { rewrite Forall_forall in Hok. destruct (Hok _ Hi) as [Hne _]. destruct bs; [done|].
      unfold in_range. simpl. lia. }
    destruct (Hin _ _ _ _ Hi Ha') as [Hn|He]; [|by exists a]. exfalso. apply (Hent a); [|done].
    apply (next_slots_entries l m0 hd g S tid n Hready E 1); [unfold PmfsTx.cap; lia|done].
Qed.

(** Commit. *)
Let cc := close_entry tid LE_COMMIT first.
Let ctype := Z.lor (start_type LE_COMMIT first) LE_COMMIT.
Let cA := entry_fill p LE_COMMIT first cc ++ flush_logged clwb E.
Let cB := commit_events clwb p g ctype.
Let cpre := (cA ++ [EFence]) ++ [EStore false (p + le_type) (bytes_of 1 ctype)].

Lemma ctype_eq : ctype = start_type LE_COMMIT first.
Proof using All. unfold ctype. by destruct first. Qed.

Lemma commit_slot m : slot_is (apply_events m (cpre ++ [gen_event p g])) p g cc.
Proof using All.
  destruct (rd_gen _ _ _ _ _ _ _ Hready) as [Hg _].
  eapply slot_is_proper; [|apply (filled_slot m p g LE_COMMIT first cc);
    [apply close_entry_fits|done|done|done]].
  unfold cpre, cA. rewrite !apply_events_app.
  rewrite (apply_events_no_store _ (flush_logged clwb E))
    by apply is_flush_no_store, flush_logged_flushes.
  change (apply_events ?m [EFence]) with m. unfold gen_event. rewrite !apply_events_cons.
  cbn [apply_event]. change (apply_events ?m []) with m. rewrite (entry_fill_view m).
  apply write_bytes_proper; [|done..]. intros x. symmetry. apply write_same.
  rewrite ctype_eq. unfold filled, start_type.
  destruct first; rewrite load_write_same; done.
Qed.

Lemma commit_okA : Forall ev_ok cA.
Proof using All.
  apply Forall_app_2; [apply entry_fill_ok; by eapply (next_slot_aligned l Hl)|].
  apply is_flush_ev_ok, flush_logged_flushes.
Qed.

Lemma commit_okB : Forall ev_ok cB.
Proof using All.
  assert (Hp : p mod 64 = 0) by (by eapply (next_slot_aligned l Hl)).
  unfold cB, commit_events. change (EStore false (p + le_type) ?b :: ?r) with ([EStore false (p + le_type) b] ++ r).
  events_ok; [|by apply gen_event_ok].
  apply field_ok; [done|lia|by apply Z.mod_divide|by apply Z.mod_divide].
Qed.

Lemma type_next : stores_in (λ x, next x ∧ ¬ in_range (p + le_gen_id) 2 x)
  [EStore false (p + le_type) (bytes_of 1 ctype)].
Proof using All.
  apply stores_in_store; [|apply stores_in_nil]. intros x. rewrite length_bytes_of.
  unfold next_slots, in_range, le_type, le_gen_id, LOGENTRY_SIZE, p. lia.
Qed.

Lemma commit_inA : stores_in (λ x, next x ∧ ¬ in_range (p + le_gen_id) 2 x) cA.
Proof using All.
  apply stores_in_app. split; [apply fill_next; unfold e_len, sizeof_le_data; simpl; lia|].
  apply stores_in_flushes, flush_logged_flushes.
Qed.

Lemma commit_inB : stores_in next cB.
Proof using All.
  unfold cB, commit_events. change (EStore false (p + le_type) ?b :: ?r) with ([EStore false (p + le_type) b] ++ r).
  apply stores_in_app. split; [eapply stores_in_mono; [apply type_next|by intros x []]|].
  apply stores_in_cons. split.
  - eapply stores_in_mono; [apply gen_event_in|].
    unfold next_slots, in_range, le_gen_id, LOGENTRY_SIZE, p. lia.
  - events_in.
Qed.

Lemma commit_flush x : ¬ entries l x → unflushed (line x) (evs s ++ cA) = false.
Proof using All.
  intros Hx. unfold cA. rewrite app_assoc. apply unflushed_app_flushes; [apply flush_logged_flushes|].
  intros Hu. apply dirty_logged in Hu as (y & Hy & Ey); [| done| |].
  - destruct (flush_logged_cover clwb E y Hy) as (a & Ha & El). exists clwb, a. by rewrite El.
  - eapply stores_in_mono; [apply fill_next; unfold e_len, sizeof_le_data; simpl; lia|]. intros y [Hy _]. by left.
  - apply entry_fill_ok. by eapply (next_slot_aligned l Hl).
Qed.

Lemma commit_keeps : agree (data l) (apply_events (view s) cA) (view s).
Proof using All.
  intros x Hx. eapply apply_events_frame; [apply commit_inA|]. intros [Hn _]. apply Hx. right.
  pose proof (ru_len _ _ _ _ _ _ _ _ _ _ Hrun).
  apply (next_slots_entries l m0 hd g S tid n Hready E 1); [unfold PmfsTx.cap; lia|done].
Qed.

(** The record's line is written back whatever was stored before. *)
Lemma slot_done w : unflushed (line p) (w ++ flush_events clwb p LOGENTRY_SIZE) = false.
Proof using All.
  apply unflushed_app_flushes; [apply flush_events_flushes|]. intros _. exists clwb, p. split; [|done].
  unfold flush_events. apply list_elem_of_fmap. exists O. split; [f_equal; lia|].
  apply elem_of_seq. pose proof (Z.mod_pos_bound p 64 ltac:(lia)). unfold LOGENTRY_SIZE.
  assert (1 <= (64 + p mod 64 + 63) / 64) by (apply Z.div_le_lower_bound; lia). lia.
Qed.

Lemma commit_closing : closing l hd g S tid E s LE_COMMIT cA
  (EStore false (p + le_type) (bytes_of 1 ctype) :: gen_event p g :: flush_events clwb p LOGENTRY_SIZE)
  cpre (flush_events clwb p LOGENTRY_SIZE ++ [EFence]).
Proof using All.
  constructor.
  - exact commit_okA.
  - exact commit_okB.
  - eapply stores_in_mono; [apply commit_inA|]. intros x Hx. by left.
  - exact commit_inB.
  - fold p. unfold cpre. by rewrite <- !app_assoc.
  - apply stores_in_app. split; [|eapply stores_in_mono; [apply type_next|by intros x []]].
    apply stores_in_app. split; [eapply stores_in_mono; [apply commit_inA|by intros x []]|].
    by apply stores_in_other, stores_in_nil.
  - apply (flush_fence_no_store _ _ _ true).
  - rewrite <- first_eq. apply commit_slot.
  - exact commit_flush.
  - fold p. change (?x :: ?y :: ?fl) with ([x; y] ++ fl). rewrite !app_assoc. apply slot_done.
Qed.

(** Abort. *)
Let ac := close_entry tid LE_ABORT first.
Let aA := undo_events clwb (rev E).
Let aB := slot_events clwb p g LE_ABORT first ac ++ [EFence].
Let apre := (aA ++ [EFence]) ++ entry_fill p LE_ABORT first ac.

Lemma abort_inA : stores_in (in_entries E) aA.
Proof using All.
  eapply stores_in_mono; [apply undo_events_in|]. intros x. apply in_entries_rev.
Qed.

(** Undoing leaves the old contents. *)
Lemma abort_restores : agree (data l) (apply_events (view s) aA) m0.
Proof using All.
  etrans; [apply mem_eq_agree, undo_events_view|].
  apply (ru_undo _ _ _ _ _ _ _ _ _ _ Hrun). by eapply running_data.
Qed.

Lemma abort_flush x : ¬ entries l x → unflushed (line x) (evs s ++ aA) = false.
Proof using All.
  intros Hx. destruct (unflushed (line x) (evs s ++ aA)) eqn:Hu; [|done]. exfalso.
  pose proof Hu as Hu'. apply dirty_logged in Hu as (y & Hy & Ey); [|done| |].
  - unfold aA in Hu'. rewrite <- Ey, undo_unflushed in Hu'; [done|]. exists y. split; [by apply in_entries_rev|done].
  - eapply stores_in_mono; [apply abort_inA|]. tauto.
  - apply undo_events_ok.
Qed.

Lemma abort_okB : Forall ev_ok aB.
Proof using All.
  apply Forall_app_2; [apply slot_events_ok; by eapply (next_slot_aligned l Hl)|by constructor].
Qed.

Lemma abort_slot m : slot_is (apply_events m (apre ++ [gen_event p g])) p g ac.
Proof using All.
  destruct (rd_gen _ _ _ _ _ _ _ Hready) as [Hg _]. unfold apre.
  rewrite <- app_assoc, apply_events_app.
  eapply slot_is_proper; [|apply (filled_slot (apply_events m (aA ++ [EFence])) p g LE_ABORT first ac);
    [apply close_entry_fits|done|done|done]].
  rewrite (apply_events_app _ (entry_fill _ _ _ _)), apply_events_cons. unfold gen_event.
  cbn [apply_event]. change (apply_events ?m' []) with m'. by rewrite entry_fill_view.
Qed.

Lemma abort_closing : closing l hd g S tid E s LE_ABORT aA (slot_events clwb p g LE_ABORT first ac)
  apre (flush_events clwb p LOGENTRY_SIZE ++ [EFence]).
Proof using All.
  assert (Hfill : stores_in (λ x, next x ∧ ¬ in_range (p + le_gen_id) 2 x) (entry_fill p LE_ABORT first ac))
    by (apply fill_next; unfold e_len, sizeof_le_data; simpl; lia).
  constructor.
  - apply undo_events_ok.
  - exact abort_okB.
  - eapply stores_in_mono; [apply abort_inA|]. intros x Hx. by right.
  - apply stores_in_app. split; [|by apply stores_in_other, stores_in_nil].
    eapply stores_in_mono; [apply slot_events_in; unfold e_len, sizeof_le_data; simpl; lia|].
    intros x Hx. unfold next_slots, LOGENTRY_SIZE. by rewrite Z.mul_1_r.
  - fold p. unfold apre, slot_events. by rewrite <- !app_assoc.
  - apply stores_in_app. split; [|eapply stores_in_mono; [exact Hfill|by intros x []]].
    apply stores_in_app. split; [|by apply stores_in_other, stores_in_nil].
    eapply stores_in_mono; [apply abort_inA|]. intros x (e & He & Hx) Hg.
    apply (logged_not_journal clwb l m0 hd g S tid n E s Hrun e x He Hx). left. right.
    pose proof (ru_len _ _ _ _ _ _ _ _ _ _ Hrun).
    apply (next_slots_entries l m0 hd g S tid n Hready E 1); [unfold PmfsTx.cap; lia|].
    unfold next_slots, in_range, le_gen_id, LOGENTRY_SIZE in *. lia.
  - apply (flush_fence_no_store _ _ _ true).
  - rewrite <- first_eq. apply abort_slot.
  - exact abort_flush.
  - fold p. unfold slot_events. change (gen_event p g :: ?fl) with ([gen_event p g] ++ fl).
    rewrite !app_assoc. apply slot_done.
Qed.
End Ends.

(** ** The whole run *)

Section Run.
Variables (sbi : pmfs_sb_info) (self : Z) (steps : list tx_step).
Hypothesis Hredo : redo_log sbi = false.
Hypothesis Hjsize : jsize sbi = l_size l.
Hypothesis Htid : next_transaction_id sbi = tid.
Hypothesis Hsteps : steps_ok l [] steps.
Hypothesis Hroom : steps_entries steps <= n.

(** The transaction up to its last step. *)
Lemma transaction_runs :
  ∃ par E t s sbi', redo_log sbi' = false ∧ jsize sbi' = l_size l ∧
    next_transaction_id sbi' = u32 (tid + 1) ∧ running E s ∧ trans_is self par E t ∧
    agree (data l) (view s) (apply_events m0 (steps_writes steps)) ∧
    ∀ commit, transaction clwb sbi self n steps commit (Cpu m0 []) =
      (if commit then pmfs_commit_transaction clwb sbi' (Some t)
       else pmfs_abort_transaction clwb sbi' (Some t)) s.
Proof using All.
  pose proof (tail0_bounds _ _ _ _ _ _ _ Hready) as (Ht0 & Htm & _ & Ht1).
  pose proof (rd_head _ _ _ _ _ _ _ Hready) as [Hh _].
  pose proof (rd_room _ _ _ _ _ _ _ Hready) as [Hn _].
  destruct (new_transaction_eq clwb l Hl 0 sbi self n hd tail0 g (Cpu m0 []))
    as (sbi' & Hr' & Hj' & Hi' & Hnew); try done.
  - apply Hready.
  - split; [done|]. unfold PmfsTx.tail0. pose proof (nslots_nonneg S). lia.
  - destruct (run_steps_running clwb l Hl m0 hd g S tid n Hready sbi' self (journal_info sbi) steps [] []
      (begun l sbi self n tail0 g) (log_state (Cpu m0 []) (begin_events clwb l tail1)))
      as (E & t & s & Hrun & HE & Ht & Hv); try done.
    + by apply running_begin.
    + constructor. unfold begun. by rewrite Htid.
    + by intros x (r & ?%elem_of_nil & _).
    + exists (journal_info sbi), E, t, s, sbi'. split_and!; [done| | |done|done| |].
      { done. }
      { by rewrite Hi', Htid. }
      { etrans; [exact Hv|]. intros x Hx. apply apply_events_local, begin_data, Hx. }
      intros commit. unfold transaction. erewrite bind_Ok; [|exact Hnew]. cbn beta iota.
      by erewrite bind_Ok; [|exact Hrun].
Qed.

Lemma trans_at_slot0 par E t s : running E s → trans_is self par E t → trans_at t slot0 ∧
  num_used t + 1 <= num_entries t ∧ num_used t = Z.of_nat (length E) ∧ gen_id t = g ∧
  transaction_id t = tid.
Proof using Hready Hl.
  intros Hrun [->]. simpl. pose proof (ru_len _ _ _ _ _ _ _ _ _ _ Hrun).
  pose proof (tail0_bounds _ _ _ _ _ _ _ Hready) as (? & _ & _ & ?).
  pose proof (lo_size l Hl) as [_ ?]. unfold PmfsTx.tail1, LOGENTRY_SIZE in *.
  split_and!; [constructor; simpl; [done|lia|lia]|lia|done..].
Qed.

Lemma running_entries_ok E s : running E s → Forall (entry_ok (reserved l)) E.
Proof.
  intros Hrun. apply Forall_forall. intros e He.
  apply (ru_open _ _ _ _ _ _ _ _ _ _ Hrun). apply list_elem_of_fmap. eauto.
Qed.

(** The contents the transaction leaves. *)
Definition outcome (commit : bool) : mem := if commit then apply_events m0 (steps_writes steps) else m0.

Theorem transaction_ends commit :
  ∃ E ty sbi' s', transaction clwb sbi self n steps commit (Cpu m0 []) = Ok ((0, sbi'), s') ∧
    redo_log sbi' = false ∧ jsize sbi' = l_size l ∧ next_transaction_id sbi' = u32 (tid + 1) ∧
    view s' = apply_events m0 (evs s') ∧
    ended clwb l m0 hd g S tid n (evs s') (outcome commit) E ty.
Proof using All.
  destruct transaction_runs as (par & E & t & s & sbi' & Hr & Hj & Hnx & Hrun & Ht & Hv & Htx).
  destruct (trans_at_slot0 par E t s Hrun Ht) as (Hat & Hlt & Hu & Hg & Hi).
  pose proof (running_entries_ok E s Hrun) as Hok.
  pose proof (ru_view _ _ _ _ _ _ _ _ _ _ Hrun) as Hview.
  destruct commit.
  - exists E, LE_COMMIT. eexists _, _. split; [|split_and!].
    + rewrite Htx. eapply (commit_transaction_eq clwb (reserved l) sbi' t slot0 E); try done.
      rewrite Hg. apply Hrun.
    + done.
    + done.
    + done.
    + cbn [evs view log_state]. by rewrite Hview, (apply_events_app m0).
    + cbn [evs log_state]. rewrite Hu, Hg, Hi. pose proof (closing_ended clwb l Hl m0 hd g S tid n
        Hready E s _ _ _ _ _ Hrun (or_introl eq_refl) (commit_closing E s Hrun)) as He.
      apply (ended_agree clwb l Hl m0 hd g S tid n Hready _ _ (outcome true)) in He;
        [|etrans; [by apply commit_keeps|exact Hv]].
      rewrite <- !app_assoc in *. exact He.
  - exists E, LE_ABORT. eexists _, _. split; [|split_and!].
    + rewrite Htx. eapply (abort_transaction_eq clwb (reserved l) sbi' t slot0 E); try done.
      * rewrite Hg. apply Hrun.
      * intros x Hx. left. right. pose proof (ru_len _ _ _ _ _ _ _ _ _ _ Hrun).
        apply (slot_entries _ _ _ _ _ _ _ Hready). unfold nslots, in_range, LOGENTRY_SIZE in *. lia.
    + done.
    + done.
    + done.
    + cbn [evs view log_state]. by rewrite Hview, (apply_events_app m0).
    + cbn [evs log_state]. rewrite Hu, Hg, Hi. pose proof (closing_ended clwb l Hl m0 hd g S tid n
        Hready E s _ _ _ _ _ Hrun (or_intror eq_refl) (abort_closing E s Hrun)) as He.
      apply (ended_agree clwb l Hl m0 hd g S tid n Hready _ _ (outcome false)) in He;
        [|by apply abort_restores].
      rewrite <- !app_assoc in *. exact He.
Qed.
End Run.
End Atomic.
