(* ===== verification/PmfsHistory.v ===== *)
(** * PMFS: histories of transactions

    [idle] is the state of a journal with no transaction open, which the
    initialisation establishes and every transaction restores.  From an idle
    journal a list of jobs runs one after the other ([history]); a crash at any
    point mounts to the contents after some prefix of the jobs
    ([history_atomic_at]).  The proof runs each transaction from what the ones
    before left durable: the code does not depend on the log of its own events
    ([oblivious]). *)

From stdpp Require Import base list gmap.
From Stdlib Require Import ZArith Lia.
From coqutil Require Import Byte Word.LittleEndianList.
From S2P Require Import Prelude PMem NovaBase PmfsJournal PmfsRecover PmfsMount PmfsCrash.
From S2P Require Import PmfsRemount PmfsTx PmfsAtomic PmfsCommit.

Local Open Scope Z_scope.

(** ** Runs that depend on the memory alone *)

Definition oblivious {A} (p : PM A) : Prop :=
  ∀ s1 s2 a s1', mem_eq (view s1) (view s2) → p s1 = Ok (a, s1') →
  ∃ es, s1' = log_state s1 es ∧ p s2 = Ok (a, log_state s2 es).

Create HintDb oblivious.

Lemma oblivious_ret {A} (a : A) : oblivious (mret a).
Proof. intros s1 s2 b s1' _ [= -> ->]. exists []. by rewrite !log_state_nil. Qed.

Lemma oblivious_bind {A B} (p : PM A) (f : A → PM B) :
  oblivious p → (∀ a, oblivious (f a)) → oblivious (p ≫= f).
Proof.
  intros Hp Hf s1 s2 b s1' Hs Hrun. apply bind_inv in Hrun as (a & s & Ha & Hb).
  destruct (Hp s1 s2 a s Hs Ha) as (es & -> & Ha').
  destruct (Hf a (log_state s1 es) (log_state s2 es) b s1') as (es' & -> & Hb'); [|done|].
  - simpl. by rewrite Hs.
  - exists (es ++ es'). rewrite log_state_app. split; [done|].
    by rewrite (bind_Ok _ _ _ _ _ Ha'), <- log_state_app.
Qed.

Lemma oblivious_emits es : oblivious (emits es).
Proof. intros s1 s2 a s1' _ [= <- <-]. by exists es. Qed.
Lemma oblivious_emit e : oblivious (emit e).
Proof. intros s1 s2 a s1' _ [= <- <-]. by exists [e]. Qed.
Lemma oblivious_fetch n a : oblivious (fetch n a).
Proof.
  intros s1 s2 b s1' Hs [= <- <-]. exists []. rewrite !log_state_nil. split; [done|].
  unfold fetch, gets. by rewrite Hs.
Qed.
Lemma oblivious_bytes a n : oblivious (gets (λ s, read_bytes (view s) a n)).
Proof.
  intros s1 s2 b s1' Hs [= <- <-]. exists []. rewrite !log_state_nil. split; [done|].
  unfold gets. by rewrite (read_bytes_ext (view s2) (view s1)) by (by apply mem_eq_agree).
Qed.
Lemma oblivious_bug {A} : oblivious (bug : PM A).
Proof. done. Qed.
Lemma oblivious_fuel {A} : oblivious (out_of_fuel : PM A).
Proof. done. Qed.
Lemma oblivious_deref p : oblivious (deref p).
Proof. destruct p; [apply oblivious_ret|apply oblivious_bug]. Qed.
Lemma oblivious_if {A} (c : bool) (p q : PM A) :
  oblivious p → oblivious q → oblivious (if c then p else q).
Proof. by destruct c. Qed.
Lemma oblivious_when c p : oblivious p → oblivious (when c p).
Proof. intros Hp. apply oblivious_if; [done|apply oblivious_ret]. Qed.
Lemma oblivious_store n a v : oblivious (store n a v).
Proof. apply oblivious_emit. Qed.

#[export] Hint Resolve oblivious_ret oblivious_emits oblivious_emit oblivious_fetch oblivious_bytes
  oblivious_bug oblivious_fuel oblivious_deref oblivious_store : oblivious.

(** Follows the structure of the code; calls are left to the hints. *)
Ltac oblivious :=
  repeat first
    [ solve [auto with oblivious]
    | match goal with
      | |- oblivious (_ ≫= _) => apply oblivious_bind; [|intros ?]
      | |- oblivious (when _ _) => apply oblivious_when
      | |- oblivious (match ?x with _ => _ end) => destruct x
      | |- oblivious (let _ := _ in _) => cbv zeta
      end ].

Section Oblivious.
Context `{CachedWrite}.
Variable clwb : bool.

Lemma oblivious_flush_loop fuel c buf i len : oblivious (flush_loop fuel c buf i len).
Proof. revert i. induction fuel as [|fuel IH]; intros i; simpl; oblivious. Qed.
Hint Resolve oblivious_flush_loop : oblivious.

Lemma oblivious_barrier : oblivious PERSISTENT_BARRIER.
Proof. apply oblivious_emit. Qed.
Hint Resolve oblivious_barrier : oblivious.

Lemma oblivious_flush buf len fence : oblivious (pmfs_flush_buffer clwb buf len fence).
Proof. unfold pmfs_flush_buffer. oblivious. Qed.
Lemma oblivious_memcpy dst src n : oblivious (memcpy dst src n).
Proof. unfold memcpy. oblivious. Qed.
Lemma oblivious_journal : oblivious pmfs_get_journal.
Proof. apply oblivious_fetch. Qed.
Hint Resolve oblivious_flush oblivious_memcpy oblivious_journal : oblivious.

Lemma oblivious_undo_loop k start g : oblivious (undo_loop clwb k start g).
Proof. induction k as [|k IH]; simpl; unfold pmfs_undo_logentry; oblivious. Qed.
Hint Resolve oblivious_undo_loop : oblivious.

Lemma oblivious_undo trans : oblivious (pmfs_undo_transaction clwb trans).
Proof. unfold pmfs_undo_transaction. oblivious. Qed.

Lemma oblivious_flush_trans k redo le : oblivious (flush_trans_loop clwb k redo le).
Proof. revert le. induction k as [|k IH]; intros le; simpl; oblivious. Qed.
Hint Resolve oblivious_undo oblivious_flush_trans : oblivious.

Lemma oblivious_redo_loop k le g r : oblivious (redo_loop clwb k le g r).
Proof. revert le. induction k as [|k IH]; intros le; simpl; oblivious. Qed.
Hint Resolve oblivious_redo_loop : oblivious.

Lemma oblivious_invalidate_loop k le : oblivious (invalidate_loop clwb k le).
Proof. revert le. induction k as [|k IH]; intros le; simpl; unfold invalidate_gen_id; oblivious. Qed.
Hint Resolve oblivious_invalidate_loop : oblivious.

Lemma oblivious_process_loop fuel sbi r : ∀ t h nh tl le n,
  oblivious (process_loop clwb fuel sbi r t h nh tl le n).
Proof.
  induction fuel as [|fuel IH]; intros; simpl;
    unfold pmfs_redo_transaction, pmfs_invalidate_logentries; oblivious.
Qed.
Hint Resolve oblivious_process_loop : oblivious.

Lemma oblivious_clean_loop fuel sbi : ∀ tl g h n, oblivious (clean_loop clwb fuel sbi tl g h n).
Proof.
  induction fuel as [|fuel IH]; intros; simpl; unfold pmfs_process_transaction, invalidate_gen_id; oblivious.
Qed.
Hint Resolve oblivious_clean_loop : oblivious.

Lemma oblivious_free sbi : oblivious (pmfs_free_logentries clwb sbi).
Proof. unfold pmfs_free_logentries, pmfs_clean_journal. oblivious. Qed.
Hint Resolve oblivious_free : oblivious.

Lemma oblivious_free_retry k sbi : ∀ a r f, oblivious (free_retry clwb k sbi a r f).
Proof. induction k as [|k IH]; intros; cbn [free_retry]; oblivious. Qed.
Hint Resolve oblivious_free_retry : oblivious.

Lemma oblivious_reserve fuel sbi : ∀ j h t r, oblivious (reserve clwb fuel sbi j h t r).
Proof. induction fuel as [|fuel IH]; intros; cbn [reserve]; oblivious. Qed.
Hint Resolve oblivious_reserve : oblivious.

Lemma oblivious_new fuel sbi new k : oblivious (pmfs_new_transaction clwb fuel sbi new k).
Proof. unfold pmfs_new_transaction. oblivious. Qed.
Hint Resolve oblivious_new : oblivious.

Lemma oblivious_add_loop k sbi : ∀ i n ls addr sz le ty t,
  oblivious (add_loop clwb k sbi i n ls addr sz le ty t).
Proof.
  induction k as [|k IH]; intros; simpl; unfold pmfs_commit_logentry, pmfs_flush_transaction; oblivious.
Qed.
Hint Resolve oblivious_add_loop : oblivious.

Lemma oblivious_add sbi t addr sz ty : oblivious (pmfs_add_logentry clwb sbi t addr sz ty).
Proof. unfold pmfs_add_logentry. oblivious. Qed.
Hint Resolve oblivious_add : oblivious.

Lemma oblivious_run_steps sbi steps : ∀ t, oblivious (run_steps clwb sbi t steps).
Proof. induction steps as [|[]]; intros; simpl; oblivious. Qed.
Hint Resolve oblivious_run_steps : oblivious.

Theorem oblivious_transaction sbi self n steps commit :
  oblivious (transaction clwb sbi self n steps commit).
Proof.
  unfold transaction, pmfs_commit_transaction, pmfs_abort_transaction. oblivious.
Qed.
End Oblivious.

(** ** Idle journals *)

(** Between transactions: the slots [S] in use are settled, their ids are below
    [tid], and the next [k] slots are free. *)
Record idle (l : layout) (m : mem) (hd g : Z) (S : list (option lentry)) (tid k : Z) : Prop := {
  id_state : jstate l m hd (hd + nslots S) g;
  id_slots : slots m g (l_base l + hd) S;
  id_head : 0 <= hd ∧ hd mod 64 = 0;
  id_gen : 0 <= g < 2 ^ 16 ∧ g ≠ MAX_GEN_ID;
  id_settled : settled S;
  id_older e : Some e ∈ S → e_tid e < tid;
  id_tid : 0 <= tid;
  id_room : 0 <= k ∧ hd + nslots S + LOGENTRY_SIZE * k < l_size l;
  id_free : dead_slots m g (l_base l + (hd + nslots S)) (Z.to_nat k)
}.

(** The first transaction of an idle journal. *)
Lemma idle_ready l m hd g S tid k n :
  idle l m hd g S tid k → tid < 2 ^ 32 → 0 <= n → n + 1 <= k → ready l m hd g S tid n.
Proof.
  intros [H1 H2 H3 H4 H5 H6 H7 [_ H8] H9] Ht Hn Hk. constructor; try done.
  - intros e He%H6. lia.
  - unfold tail1, tail0, LOGENTRY_SIZE in *. lia.
  - unfold slot0, tail0, cap.
    replace (Z.to_nat k) with (Z.to_nat (n + 1) + (Z.to_nat k - Z.to_nat (n + 1)))%nat in H9 by lia.
    by apply dead_slots_split in H9 as [H9 _].
Qed.

Lemma idle_next `{CachedWrite} clwb l m hd g S tid k n es v E ty :
  idle l m hd g S tid k → 0 <= n → n + 1 <= k → ended clwb l m hd g S tid n es v E ty →
  idle l (durable (pexec (start_state m) es)) hd g (S ++ closed_slots tid n E ty) (tid + 1) (k - (n + 1)).
Proof.
  intros [H1 H2 H3 H4 H5 H6 H7 [_ H8] H9] Hn Hk [_ _ _ _ _ Hsz Htid Hrest Hst Hsl Hset].
  pose proof (nslots_nonneg S) as HS.
  assert (Et : hd + nslots (S ++ closed_slots tid n E ty) = tail1 hd S n).
  { rewrite nslots_app, Hsz. unfold tail1, tail0. lia. }
  constructor; rewrite ?Et; try done.
  - intros e [He%H6|He%Htid]%elem_of_app; lia.
  - lia.
  - unfold tail1, tail0, LOGENTRY_SIZE in *. lia.
  - replace (Z.to_nat k) with (Z.to_nat (n + 1) + Z.to_nat (k - (n + 1)))%nat in H9 by lia.
    apply dead_slots_split in H9 as [_ H9]. rewrite Z2Nat.id in H9 by lia.
    eapply slots_ext; [symmetry; eapply agree_mono; [exact Hrest|]|].
    2: { unfold dead_slots in *. replace (l_base l + tail1 hd S n) with
      (l_base l + (hd + nslots S) + LOGENTRY_SIZE * (n + 1)) by (unfold tail1, tail0; lia). exact H9. }
    intros x Hx. unfold nslots in Hx at 1. rewrite length_replicate in Hx.
    unfold entries, slot0, tail1, tail0, in_range, LOGENTRY_SIZE in *. lia.
Qed.

(** ** Histories *)

Record job := Job {
  job_self : Z;               (* the address of the transaction object *)
  job_room : Z;               (* [max_log_entries] *)
  job_steps : list tx_step;
  job_commit : bool
}.

Fixpoint history `{CachedWrite} (clwb : bool) (sbi : pmfs_sb_info) (jobs : list job)
  : PM (list Z * pmfs_sb_info) :=
  match jobs with
  | [] => mret ([], sbi)
  | j :: jobs =>
      '(r, sbi) ← transaction clwb sbi (job_self j) (job_room j) (job_steps j) (job_commit j);
      '(rs, sbi) ← history clwb sbi jobs;
      mret (r :: rs, sbi)
  end.

Lemma oblivious_history `{CachedWrite} clwb jobs : ∀ sbi, oblivious (history clwb sbi jobs).
Proof.
  induction jobs as [|j jobs IH]; intros sbi; simpl; [apply oblivious_ret|].
  apply oblivious_bind; [apply oblivious_transaction|]. intros [r sbi'].
  apply oblivious_bind; [apply IH|]. intros [rs sbi'']. apply oblivious_ret.
Qed.

(** The contents after the jobs: each committed one has its stores applied. *)
Fixpoint contents (m : mem) (jobs : list job) : mem :=
  match jobs with
  | [] => m
  | j :: jobs => contents (outcome m (job_steps j) (job_commit j)) jobs
  end.

Definition job_ok (l : layout) (j : job) : Prop :=
  steps_ok l [] (job_steps j) ∧ 0 <= job_room j ∧ steps_entries (job_steps j) <= job_room j.

(** The slots the jobs reserve. *)
Fixpoint jobs_slots (jobs : list job) : Z :=
  match jobs with
  | [] => 0
  | j :: jobs => job_room j + 1 + jobs_slots jobs
  end.

Lemma contents_local jobs m1 m2 x : m1 !!! x = m2 !!! x → contents m1 jobs !!! x = contents m2 jobs !!! x.
Proof.
  revert m1 m2. induction jobs as [|j jobs IH]; intros m1 m2 Hx; [done|]. simpl. apply IH.
  unfold outcome. destruct (job_commit j); [by apply apply_events_local|done].
Qed.

Section History.
Context `{CachedWrite}.
Variables (clwb : bool) (l : layout).
Hypothesis Hl : layout_ok l.

Lemma idle_recovers m hd g S tid k : idle l m hd g S tid k → recovers_to clwb l g m m.
Proof using All.
  intros [Hs Hsl Hh [Hg _] HS Ho Htid [Hk Hroom] _] c Hc.
  apply (mount_survives clwb l Hl c m hd g (-1) S []); try done; try lia.
  - constructor; rewrite ?app_nil_r; try done. unfold LOGENTRY_SIZE in *. lia.
  - by eapply (slots_fresh m g (l_base l + hd)).
  - split; [done|]. by intros e ?%elem_of_nil.
Qed.

Theorem history_atomic_at jobs : ∀ sbi m0 hd g S tid k,
  idle l m0 hd g S tid k → redo_log sbi = false → jsize sbi = l_size l →
  next_transaction_id sbi = tid → tid + Z.of_nat (length jobs) < 2 ^ 32 →
  Forall (job_ok l) jobs → jobs_slots jobs <= k →
  ∃ sbi' s' S' m', history clwb sbi jobs (Cpu m0 []) = Ok ((replicate (length jobs) 0, sbi'), s') ∧
    view s' = apply_events m0 (evs s') ∧ Forall ev_ok (evs s') ∧
    (∀ m, crash_during (start_state m0) (evs s') m →
      ∃ n, recovers_to clwb l g (contents m0 (take n jobs)) m) ∧
    pexec (start_state m0) (evs s') = PState m' [] ∧ agree (data l) m' (contents m0 jobs) ∧
    idle l m' hd g S' (tid + Z.of_nat (length jobs)) (k - jobs_slots jobs).
Proof using All.
  induction jobs as [|j jobs IH]; intros sbi m0 hd g S tid k Hid Hr Hj Hn Ht Hok Hk.
  { exists sbi, (Cpu m0 []), S, m0. split_and!; try done.
    - intros m ->%crash_during_nil; [|done]. exists O. by eapply idle_recovers.
    - by rewrite Z.add_0_r, Z.sub_0_r. }
  apply Forall_cons in Hok as [(Hst & Hroom & Hen) Hok]. cbn [length jobs_slots] in *.
  assert (Hk' : 0 <= jobs_slots jobs).
  { clear -Hok. induction Hok as [|j jobs (_ & Hj & _) Hok IH]; simpl; lia. }
  pose proof (id_tid _ _ _ _ _ _ _ Hid) as Htid.
  assert (Hready : ready l m0 hd g S tid (job_room j)) by (eapply idle_ready; [done|lia..]).
  destruct (transaction_ends clwb l Hl m0 hd g S tid (job_room j) Hready sbi (job_self j)
    (job_steps j) Hr Hj Hn Hst Hen (job_commit j))
    as (E & ty & sbi1 & s1 & Hrun & Hr1 & Hj1 & Hn1 & Hv1 & Hend).
  set (v := outcome m0 (job_steps j) (job_commit j)) in *.
  set (m1 := durable (pexec (start_state m0) (evs s1))).
  assert (Em : pexec (start_state m0) (evs s1) = PState m1 []).
  { unfold m1. pose proof (en_done _ _ _ _ _ _ _ _ _ _ _ _ Hend) as Hq.
    destruct (pexec (start_state m0) (evs s1)). simpl in *. by rewrite Hq. }
  assert (Hid1 : idle l m1 hd g (S ++ closed_slots tid (job_room j) E ty) (tid + 1) (k - (job_room j + 1))).
  { eapply idle_next; [done..|lia|exact Hend]. }
  destruct (IH sbi1 m1 hd g _ (tid + 1) (k - (job_room j + 1)) Hid1)
    as (sbi2 & s2 & S2 & m2 & Hh & Hv2 & Hok2 & Hc2 & Em2 & Ha2 & Hid2); try done; try lia.
  { rewrite Hn1. apply wrap_small; lia. }
  assert (Hm1 : mem_eq m1 (view s1)).
  { pose proof (pview_pexec (start_state m0) (evs s1)) as Hp. rewrite Em in Hp. rewrite Hv1.
    apply Hp; [apply pwf_nil|apply Hend]. }
  destruct (oblivious_history clwb jobs sbi1 (Cpu m1 []) s1 _ _ Hm1 Hh) as (es & -> & Hh').
  simpl evs in *. assert (Hcont : agree (data l) m1 v) by apply Hend.
  exists sbi2. eexists. exists S2, m2. split; [|split_and!].
  - cbn [history]. erewrite bind_Ok; [|exact Hrun]. cbn beta iota.
    erewrite bind_Ok; [|exact Hh']. reflexivity.
  - simpl. by rewrite Hv1, (apply_events_app m0).
  - simpl. apply Forall_app_2; [apply Hend|done].
  - intros m [Hm|Hm]%crash_during_app.
    + apply (en_crash _ _ _ _ _ _ _ _ _ _ _ _ Hend) in Hm as [Hm|Hm]; [by exists O|by exists 1%nat].
    + rewrite Em in Hm. apply Hc2 in Hm as [i Hm]. exists (Datatypes.S i). simpl.
      eapply recovers_agree; [|exact Hm]. intros x Hx. by apply contents_local, Hcont.
  - simpl. by rewrite pexec_app, Em.
  - etrans; [exact Ha2|]. intros x Hx. cbn [contents]. by apply contents_local, Hcont.
  - replace (tid + Z.of_nat (Datatypes.S (length jobs))) with (tid + 1 + Z.of_nat (length jobs)) by lia.
    by replace (k - (job_room j + 1 + jobs_slots jobs)) with (k - (job_room j + 1) - jobs_slots jobs) by lia.
Qed.
End History.
