(* ===== verification/PmfsFormat.v ===== *)
(** * PMFS: the journal of a new file system

    Initialising the journal leaves it [idle], durably: empty, at generation 1,
    all its entries zero. *)

From stdpp Require Import base list gmap.
From Stdlib Require Import ZArith Lia.
From coqutil Require Import Byte Word.LittleEndianList.
From S2P Require Import Prelude PMem PMemLine NovaBase PmfsJournal PmfsRecover PmfsMount.
From S2P Require Import PmfsTrans PmfsCrash PmfsRemount PmfsTx PmfsAtomic PmfsCommit PmfsHistory.

Local Open Scope Z_scope.

(** ** Initialisation *)

Lemma meta_start : journal_meta_start = 128.
Proof. reflexivity. Qed.
Lemma data_start : journal_data_start 4096 = 4096.
Proof. reflexivity. Qed.

Definition format_layout (size : Z) : layout := Layout journal_meta_start (journal_data_start 4096) size.

Section Format.
Variables (clwb : bool) (sbi : pmfs_sb_info) (m : mem).
Abbreviation size := (jsize sbi).
Hypothesis Hsize : size mod 64 = 0 ∧ 64 <= size <= 2 ^ 22.
Abbreviation l := (format_layout (jsize sbi)).

Lemma format_layout_ok : layout_ok l.
Proof using Hsize.
  constructor; unfold format_layout; cbn [l_journal l_base l_size]; rewrite ?meta_start, ?data_start;
    try (split; [reflexivity|lia]); try lia.
Qed.

Definition header_events : list event :=
  [EStore false (128 + j_base) (bytes_of 8 4096); EStore false (128 + j_size) (bytes_of 4 size);
   EStore false (128 + j_gen_id) (bytes_of 2 1); EStore false (128 + j_tail) (bytes_of 4 0);
   EStore false (128 + j_head) (bytes_of 4 0); EStore false (128 + j_redo_logging) (bytes_of 2 0)].

Definition format_stores : list event :=
  (memset_nt_events 0 0 4096 ++ [EStore false s_journal_offset (bytes_of 8 128)] ++ header_events) ++
  memset_nt_events 4096 0 size.

Lemma header_view m1 : load 8 m1 s_journal_offset = 128 → jstate l (apply_events m1 header_events) 0 0 1.
Proof using Hsize.
  intros Hs. unfold header_events. run_events.
  constructor; unfold format_layout; cbn [l_journal l_base l_size]; rewrite ?meta_start, ?data_start;
    repeat (rewrite load_write_disjoint by
      (rewrite length_bytes_of; unfold disjoint_ranges; offsets; lia));
    rewrite ?load_write_same; try done; apply Z.mod_small; simpl; lia.
Qed.

Lemma format_state : jstate l (apply_events m format_stores) 0 0 1.
Proof using Hsize.
  unfold format_stores. rewrite !apply_events_app. eapply jstate_ext; [| |apply header_view].
  1, 2: intros x Hx; symmetry; eapply apply_events_frame; [apply fill_in; lia|];
    unfold header, format_layout in Hx; cbn [l_journal] in Hx; rewrite ?meta_start in Hx;
    unfold in_range, s_journal_offset in *; lia.
  run_events. by rewrite load_write_same.
Qed.

Theorem format_eq :
  format_journal clwb sbi 4096 true (Cpu m []) =
  Ok ((0, SbInfo false (Some 4096) size 0 true (journal_info sbi)),
      log_state (Cpu m []) (format_stores ++ flush_events clwb 0 PMFS_SB_SIZE ++ [EFence])).
Proof using All.
  unfold format_journal. rewrite meta_start, data_start.
  erewrite bind_Ok; [|apply emits_eq]. erewrite bind_Ok; [|apply store_eq].
  unfold pmfs_journal_hard_init, pmfs_get_journal. rewrite bind_assoc.
  erewrite bind_Ok; [|apply fetch_eq].
  set (s1 := log_state (log_state _ _) _).
  assert (E : load 8 (view s1) s_journal_offset = 128).
  { unfold s1. cbn [log_state view]. run_events. by rewrite load_write_same. }
  rewrite E. do 6 (rewrite bind_assoc; erewrite bind_Ok; [|apply store_eq]).
  rewrite bind_assoc. change (pmfs_get_block 4096) with (Some 4096). erewrite bind_Ok; [|done].
  rewrite bind_assoc. erewrite bind_Ok; [|apply emits_eq].
  unfold s1. rewrite !log_state_app.
  assert (Es : memset_nt_events 0 0 4096 ++ [EStore false s_journal_offset (bytes_of 8 128)] ++
    header_events ++ memset_nt_events 4096 0 size = format_stores)
    by (unfold format_stores; by rewrite <- !app_assoc).
  rewrite <- ?app_assoc. unfold header_events in Es. cbn [app] in *. rewrite Es.
  erewrite bind_Ok; [|apply (soft_init_eq l format_layout_ok sbi 0 0 1), format_state].
  cbn iota beta. change (0 <? 0) with false. cbn iota.
  erewrite bind_Ok; [|apply pmfs_flush_buffer_eq; unfold PMFS_SB_SIZE; lia].
  erewrite bind_Ok; [|apply emit_eq]. rewrite !log_state_app, app_nil_r, <- ?app_assoc. reflexivity.
Qed.

Lemma format_ok : Forall ev_ok (format_stores ++ flush_events clwb 0 PMFS_SB_SIZE).
Proof using Hsize.
  apply Forall_app_2; [|apply is_flush_ev_ok, flush_events_flushes].
  unfold format_stores, header_events. apply Forall_app_2; [apply Forall_app_2|apply fill_ok; [done|lia]].
  - by apply fill_ok.
  - cbn [app]. repeat (apply Forall_cons; split); [..|done];
      (apply ev_ok_aligned; [lia|by apply Z.mod_divide|done]).
Qed.

(** The cached stores are those the write-back covers. *)
Lemma format_flushed k : unflushed k (format_stores ++ flush_events clwb 0 PMFS_SB_SIZE) = false.
Proof using Hsize.
  apply unflushed_app_flushes; [apply flush_events_flushes|].
  intros (a & bs & Hin & <-)%unflushed_stored.
  assert (Ha : in_range 0 PMFS_SB_SIZE a).
  { unfold format_stores, header_events in Hin. rewrite !elem_of_app in Hin.
    destruct Hin as [[Hin|[Hin|Hin]]|Hin].
    - by apply fill_cached in Hin.
    - apply list_elem_of_singleton in Hin as [= -> _]. done.
    - rewrite !elem_of_cons in Hin. unfold PMFS_SB_SIZE, in_range. offsets.
      by repeat destruct Hin as [[= -> _]|Hin]; [lia..|apply not_elem_of_nil in Hin].
    - apply fill_cached in Hin; [done|lia]. }
  destruct (flush_events_cover clwb 0 PMFS_SB_SIZE a) as (b & Hb & El); [done..|].
  exists clwb, b. by rewrite El.
Qed.

(** The new journal is idle, and durably so. *)
Theorem format_idle :
  ∃ m', pexec (PState m []) (format_stores ++ flush_events clwb 0 PMFS_SB_SIZE ++ [EFence]) = PState m' [] ∧
    idle l m' 0 1 [] 0 (size / 64 - 1).
Proof using All.
  rewrite app_assoc. destruct (fence_quiescent m (format_stores ++ flush_events clwb 0 PMFS_SB_SIZE))
    as (m' & E & Hv); [apply format_ok|apply format_flushed|].
  exists m'. split; [done|].
  rewrite apply_events_app, (apply_events_no_store _ (flush_events _ _ _)) in Hv
    by apply is_flush_no_store, flush_events_flushes.
  assert (Hq : size = 64 * (size / 64)) by (apply Z_div_exact_2; [lia|apply Hsize]).
  constructor; rewrite ?nslots_nil, ?Z.add_0_r; try done.
  - eapply jstate_ext; [..|exact format_state]; intros x _; by rewrite Hv.
  - constructor.
  - intros e He. by apply elem_of_nil in He.
  - unfold LOGENTRY_SIZE, format_layout. cbn [l_size]. lia.
  - apply slots_elem_dead. intros j Hj. unfold slot_dead.
    assert (Hz : ∀ x, in_range 4096 size x → m' !!! x = Byte.x00).
    { intros x Hx. rewrite Hv. unfold format_stores. rewrite apply_events_app. apply fill_zero; [lia|done]. }
    unfold format_layout. cbn [l_base]. rewrite data_start. unfold load, le_gen_id.
    set (p := 4096 + 64 * Z.of_nat j + 12).
    assert (E2 : read_bytes m' p 2 = [Byte.x00; Byte.x00]); [|by rewrite E2].
    change (read_bytes m' p 2) with [m' !!! p; m' !!! (p + 1)].
    rewrite !Hz by (unfold p, in_range; lia). done.
Qed.
End Format.
