(* ===== verification/PmfsClean.v ===== *)
(** * PMFS: cleaning the journal

    [pmfs_clean_journal] moves the head past unused slots and closed
    transactions, up to the first transaction that is still open
    ([clean_journal_eq]); when nothing can be freed [pmfs_new_transaction] reports
    that the journal is full. *)

From stdpp Require Import base list gmap.
From Stdlib Require Import ZArith Lia.
From coqutil Require Import Byte Word.LittleEndianList.
From S2P Require Import Prelude PMem NovaBase PmfsJournal PmfsRecover PmfsMount PmfsTrans.
From S2P Require Import PmfsCrash PmfsRemount.

Local Open Scope Z_scope.

Lemma next_log_entry_eq jsz o : 0 <= o → o + 64 < jsz → jsz <= 2 ^ 22 → next_log_entry jsz o = o + 64.
Proof.
  intros Ho Hj Hb. unfold next_log_entry, LOGENTRY_SIZE. rewrite wrap_small by lia.
  by destruct (Z.geb_spec (o + 64) jsz); [lia|].
Qed.

(** The tail and the generation id are read with one load. *)
Lemma read_bytes_app m a n k :
  read_bytes m a (n + k) = read_bytes m a n ++ read_bytes m (a + Z.of_nat n) k.
Proof.
  revert a. induction n as [|n IH]; intros a; simpl; [by rewrite Z.add_0_r|].
  change (m !!! a :: read_bytes m (a + 1) (n + k) =
    m !!! a :: (read_bytes m (a + 1) n ++ read_bytes m (a + Z.of_nat (S n)) k)).
  rewrite IH. do 3 f_equal. lia.
Qed.

Lemma lor_shift_add x y k : 0 <= k → 0 <= x < 2 ^ k → Z.lor x (Z.shiftl y k) = x + y * 2 ^ k.
Proof.
  intros Hk Hx. rewrite <- Z.add_lor_land, Z.shiftl_mul_pow2 by lia.
  assert (E : Z.land x (y * 2 ^ k) = 0); [|lia]. apply Z.bits_inj'. intros i Hi.
  rewrite Z.land_spec, Z.bits_0, <- Z.shiftl_mul_pow2 by lia.
  destruct (decide (i < k)) as [Hlt|Hge].
  - by rewrite Z.shiftl_spec_low, andb_false_r by lia.
  - replace x with (x mod 2 ^ k) by (by apply Z.mod_small).
    by rewrite Z.mod_pow2_bits_high by lia.
Qed.

Lemma load_split n k m a :
  load (n + k) m a = load n m a + load k m (a + Z.of_nat n) * 2 ^ (8 * Z.of_nat n).
Proof.
  unfold load. rewrite read_bytes_app, le_combine_app, length_read_bytes.
  rewrite (Z.mul_comm (Z.of_nat n)). apply lor_shift_add; [lia|].
  apply (load_bound n m a).
Qed.

Lemma tail_genid_split m a :
  Z.land (load 8 m a) 0xFFFFFFFF = load 4 m a ∧
  Z.land (Z.shiftr (load 8 m a) 32) 0xFFFF = load 2 m (a + 4).
Proof.
  pose proof (load_bound 4 m a). pose proof (load_bound 2 m (a + 4)).
  pose proof (load_bound 4 m (a + 4)). pose proof (load_bound 2 m (a + 4 + 2)).
  pose proof (load_split 4 4 m a) as E8. simpl Nat.add in E8.
  change (Z.of_nat 4) with 4 in *. rewrite E8.
  pose proof (load_split 2 2 m (a + 4)) as E. simpl Nat.add in E.
  change (Z.of_nat 2) with 2 in *. rewrite E.
  change 0xFFFFFFFF with (2 ^ 32 - 1). change 0xFFFF with (2 ^ 16 - 1).
  rewrite !land_mask_mod, Z.shiftr_div_pow2 by lia. simpl Z.mul.
  rewrite Z.mod_add, Z.div_add, Z.div_small, Z.add_0_l, Z.mod_add by lia.
  split; apply Z.mod_small; lia.
Qed.

Section Clean.
Context `{CachedWrite}.
Variables (clwb : bool) (sbi : pmfs_sb_info) (jb hd g tail : Z).
Hypothesis Hbase : journal_base_addr sbi = Some jb.
Hypothesis Hredo : redo_log sbi = false.
Hypothesis Hhd : 0 <= hd.
Hypothesis Hsize : jsize sbi <= 2 ^ 22.
Hypothesis Htail : tail < jsize sbi.
Hypothesis Hgen : g ≠ MAX_GEN_ID.

(** [process_loop] on the slots [B] that stay open, and what comes after. *)
Lemma process_walk recover B : ∀ fuel trans head off le handled C s,
  gen_id trans = g → Forall (λ o, o_closes o = false) B →
  Forall (λ o, o_start o = false) (drop 1 (B ++ C)) → C ≠ [] →
  slots (view s) g le (B ++ C) → 0 <= off → off + nslots (B ++ C) <= tail →
  0 <= handled → handled + Z.of_nat (length B) < 2 ^ 30 →
  ∃ trans', gen_id trans' = g ∧
  process_loop clwb (length B + fuel) sbi recover trans head off tail le handled s =
  process_loop clwb fuel sbi recover trans' head (off + nslots B) tail (le + nslots B)
    (handled + Z.of_nat (length B)) s.
Proof using Hhd Hsize Htail.
  induction B as [|o B IH]; intros fuel trans head off le handled C s Hg HB HC HCn Hs Ho Ht Hh Hh'.
  { exists trans. rewrite nslots_nil, !Z.add_0_r. by split. }
  apply Forall_cons in HB as [Hcl HB]. destruct Hs as [Hso Hs].
  rewrite nslots_app, nslots_cons in Ht. rewrite nslots_cons.
  pose proof (nslots_nonneg B). pose proof (nslots_nonneg C). unfold LOGENTRY_SIZE in *.
  assert (HC1 : 64 <= nslots C).
  { destruct C; [done|]. rewrite nslots_cons. pose proof (nslots_nonneg C). unfold LOGENTRY_SIZE. lia. }
  simpl length in *. cbn [Nat.add process_loop]. rewrite next_log_entry_eq by lia.
  rewrite (fetch_tests (view s) g le o) by done. cbn [gen_id]. rewrite Hg.
  destruct (slot_tests _ _ _ _ Hso) as [_ ->]. rewrite Hcl.
  assert (Hnx : ∃ o' R, B ++ C = o' :: R) by (destruct B; [destruct C; [done|]|]; by eexists _, _).
  destruct Hnx as (o' & R & E). simpl in HC. rewrite drop_0, E in HC. rewrite E in Hs.
  destruct Hs as [Ho' Hs]. unfold LOGENTRY_SIZE in *.
  rewrite (fetch_tests (view s) g (le + 64) o') by done.
  destruct (slot_tests _ _ _ _ Ho') as [-> _]. apply Forall_cons in HC as [-> HC].
  destruct (Z.eqb_spec (off + 64) tail); [lia|]. cbn [orb].
  set (trans1 := Trans _ _ _ _ _ _ _).
  replace (swrap 32 (handled + 1)) with (handled + 1).
  2: { unfold swrap. rewrite wrap_small by lia. by destruct (Z.ltb_spec (handled + 1) (2 ^ (32 - 1))); [|lia]. }
  destruct (IH fuel trans1 head (off + 64) (le + 64) (handled + 1) C s) as (trans' & Hg' & ->); try done;
    try lia.
  - rewrite E. simpl. by rewrite drop_0.
  - rewrite E. by split.
  - rewrite nslots_app. lia.
  - exists trans'. split; [done|]. f_equal; [lia..|]. lia.
Qed.

Lemma handled_range {A} (B : list A) off : 0 <= off → off + nslots B <= tail → Z.of_nat (length B) < 2 ^ 29 ∧
  (length B < ring_fuel (jsize sbi))%nat.
Proof using Hsize Htail.
  unfold nslots, ring_fuel, LOGENTRY_SIZE. intros. split; [lia|].
  assert (Z.of_nat (length B) <= jsize sbi / 64) by (apply Z.div_le_lower_bound; lia). lia.
Qed.

Lemma swrap_small x : 0 <= x < 2 ^ 31 → swrap 32 x = x.
Proof.
  intros. unfold swrap. rewrite wrap_small by lia. by destruct (Z.ltb_spec x (2 ^ (32 - 1))); [|lia].
Qed.

(** A start entry lets the processing begin. *)
Lemma process_start o R off le s :
  o_start o = true → slots (view s) g le (o :: R) →
  pmfs_process_transaction clwb sbi off tail le false s =
  (tid ← fetch 4 (le + le_transaction_id);
   process_loop clwb (ring_fuel (jsize sbi)) sbi false (Trans 0 tid 0 0 g (Some le) 0)
     off off tail le 0) s.
Proof.
  intros Ho [Hs _]. destruct o as [e|]; [|done]. destruct Hs as [Hg _ _ Ht _ _ _].
  unfold pmfs_process_transaction. erewrite bind_Ok; [|apply fetch_eq].
  erewrite bind_Ok; [|apply fetch_eq]. rewrite Hg, Ht. by rewrite (Ho : has_flag _ _ = true).
Qed.

(** A closed transaction is passed. *)
Lemma process_closed B e off le s :
  run_start (B ++ [Some e]) → Forall (λ o, o_closes o = false) B → closes (e_type e) = true →
  slots (view s) g le (B ++ [Some e]) → 0 <= off → off + nslots (B ++ [Some e]) <= tail →
  pmfs_process_transaction clwb sbi off tail le false s =
  Ok ((off + nslots (B ++ [Some e]), Z.of_nat (length (B ++ [Some e]))), s).
Proof using Hhd Hsize Htail Hredo Hgen.
  intros (o & R & E & Ho & HR) HB Hc Hs Hoff Ht.
  destruct (handled_range _ _ Hoff Ht) as [Hlen Hfu].
  pose proof Hs as Hs0. rewrite E in Hs0. rewrite (process_start o R) by done.
  erewrite bind_Ok; [|apply fetch_eq].
  replace (ring_fuel (jsize sbi)) with (length B + (1 + (ring_fuel (jsize sbi) - length B - 1)))%nat
    by (rewrite length_app in Hfu; simpl in Hfu; lia).
  edestruct (process_walk false B) with (C := [Some e]) as (trans & Hg & ->); try done.
  - rewrite E. simpl. by rewrite drop_0.
  - rewrite length_app in Hlen. lia.
  - cbn [Nat.add process_loop]. apply slots_at in Hs. cbn [gen_id]. rewrite Hg.
    rewrite (fetch_tests (view s) g _ (Some e)) by done.
    destruct (slot_tests _ _ _ _ Hs) as [_ ->]. rewrite (Hc : o_closes (Some e) = true), Hredo, andb_false_r.
    cbn [when]. destruct (Z.eqb_spec g MAX_GEN_ID); [done|]. cbn [when].
    rewrite nslots_app, nslots_cons, nslots_nil in *. pose proof (nslots_nonneg B).
    unfold LOGENTRY_SIZE in *.
    rewrite next_log_entry_eq, swrap_small by (rewrite ?length_app in *; simpl length in *; lia).
    rewrite length_app, ?nslots_nil. simpl length. unfold mret, M_ret, mbind, M_bind.
    replace (off + nslots B + 64) with (off + (nslots B + (64 + 0))) by lia.
    by replace (0 + Z.of_nat (length B) + 1) with (Z.of_nat (length B + 1)) by lia.
Qed.

(** An open one is not, nor is anything after it. *)
Lemma process_open o R off le s :
  o_start o = true → Forall (λ o, o_start o = false) R →
  Forall (λ o, o_closes o = false) (o :: R) →
  slots (view s) g le (o :: R) → 0 <= off → off + nslots (o :: R) = tail →
  pmfs_process_transaction clwb sbi off tail le false s =
  Ok ((off, Z.of_nat (length (o :: R))), s).
Proof using Hhd Hsize Htail.
  intros Ho HR HB Hs Hoff Ht.
  destruct (handled_range (o :: R) off Hoff ltac:(lia)) as [Hlen Hfu].
  rewrite (process_start o R) by done. erewrite bind_Ok; [|apply fetch_eq].
  destruct (exists_last (l := o :: R)) as (B & z & E); [done|].
  assert (HR' : Forall (λ o, o_start o = false) (drop 1 (o :: R))) by (simpl; by rewrite drop_0).
  rewrite E in *. apply Forall_app in HB as [HB Hz]. apply Forall_cons in Hz as [Hz _].
  rewrite length_app in *. simpl length in *.
  replace (ring_fuel (jsize sbi)) with (length B + (1 + (ring_fuel (jsize sbi) - length B - 1)))%nat by lia.
  edestruct (process_walk false B) with (C := [z]) as (trans & Hg & ->); try done; try lia.
  cbn [Nat.add process_loop]. apply slots_at in Hs. cbn [gen_id]. rewrite Hg.
  rewrite (fetch_tests (view s) g _ z) by done.
  destruct (slot_tests _ _ _ _ Hs) as [_ ->]. rewrite Hz.
  erewrite bind_Ok; [|apply fetch_eq]. erewrite bind_Ok; [|apply fetch_eq].
  rewrite nslots_app, nslots_cons, nslots_nil in Ht. pose proof (nslots_nonneg B).
  unfold LOGENTRY_SIZE in *. rewrite next_log_entry_eq by lia.
  destruct (Z.eqb_spec (off + nslots B + 64) tail); [|lia]. cbn [orb andb when].
  rewrite swrap_small by lia. unfold mret, M_ret, mbind, M_bind.
  by replace (0 + Z.of_nat (length B) + 1) with (Z.of_nat (length B + 1)) by lia.
Qed.

(** *** The loop *)

(** What follows the settled part: nothing, or a transaction that has started and
    is open. *)
Definition open_tail (L : list (option lentry)) : Prop :=
  L = [] ∨ ∃ o R, L = o :: R ∧ o_start o = true ∧ Forall (λ o, o_start o = false) R ∧
    Forall (λ o, o_closes o = false) (o :: R).

Lemma clean_settled S : settled S → ∀ C fuel total s,
  slots (view s) g (jb + hd) (S ++ C) → hd + nslots (S ++ C) = tail → (length S <= fuel)%nat →
  0 <= total → total + Z.of_nat (length S) < 2 ^ 30 →
  ∃ fuel' total', (fuel <= fuel' + length S)%nat ∧ total <= total' <= total + Z.of_nat (length S) ∧
  clean_loop clwb fuel sbi tail g hd total s =
  clean_loop clwb fuel' sbi tail g (hd + nslots S) total' s.
Proof using All.
  induction 1 as [|S HS IH|S B e HS IH Hr HB Hc]; intros C fuel total s Hs Ht Hf Hto Hto'.
  - exists fuel, total. simpl length. split_and!; [lia..|].
    by rewrite (@nslots_nil (option lentry)), Z.add_0_r.
  - rewrite <- app_assoc in Hs, Ht. rewrite length_app in *. simpl length in *.
    destruct (IH ([None] ++ C) fuel total s) as (f & t & Hf' & Ht' & ->); try done; try lia.
    destruct f as [|f]; [lia|].
    assert (Hstep : clean_loop clwb (Datatypes.S f) sbi tail g (hd + nslots S) t s =
      clean_loop clwb f sbi tail g (hd + nslots (S ++ [None])) t s).
    { pose proof Hs as Hz. apply slots_at in Hz.
      rewrite !nslots_app, nslots_cons, nslots_nil in *. pose proof (nslots_nonneg S).
      pose proof (nslots_nonneg C). unfold LOGENTRY_SIZE in *. cbn [clean_loop].
      destruct (Z.eqb_spec (hd + nslots S) tail); [lia|]. rewrite Hbase.
      erewrite bind_Ok; [|done]. erewrite bind_Ok; [|apply fetch_eq].
      rewrite Z.add_assoc, (slot_valid _ _ _ None) by done.
      rewrite bool_decide_eq_false_2 by (by intros [? ?]).
      destruct (Z.eqb_spec g MAX_GEN_ID); [done|]. erewrite bind_Ok; [|done].
      rewrite next_log_entry_eq by lia.
      destruct (Z.eqb_spec (hd + nslots S + 64) 0); [lia|]. f_equal. lia. }
    rewrite Hstep. exists f, t. split_and!; [lia|lia|lia|done].
  - rewrite <- (app_assoc S) in Hs, Ht. rewrite (length_app S) in *.
    destruct (IH ((B ++ [Some e]) ++ C) fuel total s) as (f & t & Hf' & Ht' & ->); try done; try lia.
    assert (Hlb : (1 <= length (B ++ [Some e]))%nat) by (rewrite length_app; simpl; lia).
    destruct f as [|f]; [lia|].
    assert (Hstep : clean_loop clwb (Datatypes.S f) sbi tail g (hd + nslots S) t s =
      clean_loop clwb f sbi tail g (hd + nslots (S ++ B ++ [Some e]))
        (t + Z.of_nat (length (B ++ [Some e]))) s).
    { pose proof Hs as Hz. apply slots_app in Hz as [_ Hz]. apply slots_app in Hz as [Hz _].
      destruct Hr as (o & R & E & Ho & HR).
      assert (Hg : slot_opt (view s) (jb + hd + nslots S) g o) by (rewrite E in Hz; apply Hz).
      rewrite !(nslots_app S), (nslots_app (B ++ [Some e])) in *.
      pose proof (nslots_nonneg S). pose proof (nslots_nonneg C).
      assert (64 <= nslots (B ++ [Some e])) by (unfold nslots, LOGENTRY_SIZE; lia).
      cbn [clean_loop]. destruct (Z.eqb_spec (hd + nslots S) tail); [lia|]. rewrite Hbase.
      erewrite bind_Ok; [|done]. erewrite bind_Ok; [|apply fetch_eq].
      rewrite Z.add_assoc, (slot_valid _ _ _ o) by done.
      rewrite bool_decide_eq_true_2 by (destruct o; [by eexists|done]).
      erewrite bind_Ok; [|apply (process_closed B e); try done; [by exists o, R|lia|lia]].
      cbn beta iota. rewrite swrap_small by lia.
      destruct (Z.eqb_spec (hd + nslots S + nslots (B ++ [Some e])) (hd + nslots S)); [lia|].
      destruct (Z.eqb_spec (hd + nslots S + nslots (B ++ [Some e])) 0); [lia|].
      f_equal. lia. }
    rewrite Hstep. exists f, (t + Z.of_nat (length (B ++ [Some e]))). split_and!; [lia|lia|lia|done].
Qed.

Lemma clean_loop_eq S L s :
  settled S → open_tail L → slots (view s) g (jb + hd) (S ++ L) → hd + nslots (S ++ L) = tail →
  ∃ total, Z.of_nat (length L) <= total <= Z.of_nat (length (S ++ L)) ∧
  clean_loop clwb (ring_fuel (jsize sbi)) sbi tail g hd 0 s = Ok ((hd + nslots S, total), s).
Proof using All.
  intros HS HL Hs Ht. destruct (handled_range (S ++ L) hd Hhd ltac:(lia)) as [Hlen Hfu].
  rewrite length_app in *.
  destruct (clean_settled S HS L (ring_fuel (jsize sbi)) 0 s) as (f & t & Hf & Htt & ->); try done; try lia.
  pose proof (nslots_nonneg S). rewrite nslots_app in Ht. destruct f as [|f]; [lia|].
  destruct HL as [->|(o & R & -> & Ho & HR & HB)].
  - rewrite nslots_nil, Z.add_0_r in Ht. exists t. simpl length in *. split_and!; [lia|lia|].
    cbn [clean_loop]. by rewrite Ht, Z.eqb_refl.
  - apply slots_app in Hs as [_ Hs]. pose proof (nslots_nonneg R).
    pose proof (process_open o R (hd + nslots S) (jb + hd + nslots S) s Ho HR HB Hs ltac:(lia) ltac:(lia)) as Hp.
    cbn [clean_loop]. rewrite nslots_cons in Ht. unfold LOGENTRY_SIZE in *.
    destruct (Z.eqb_spec (hd + nslots S) tail); [lia|]. rewrite Hbase.
    erewrite bind_Ok; [|done]. erewrite bind_Ok; [|apply fetch_eq]. rewrite Z.add_assoc.
    destruct Hs as [Hso _]. rewrite (slot_valid _ _ _ o) by done.
    rewrite bool_decide_eq_true_2 by (destruct o; [by eexists|done]).
    erewrite bind_Ok; [|exact Hp]. cbn beta iota. rewrite Z.eqb_refl. rewrite swrap_small by lia.
    eexists. split; [|done]. lia.
Qed.
End Clean.

(** ** [pmfs_clean_journal] *)

Section CleanJournal.
Context `{CachedWrite}.
Variables (clwb : bool) (l : layout).
Hypothesis Hl : layout_ok l.

(** The journal's fields of a mounted [pmfs_sb_info], for an undo journal. *)
Record mounted (sbi : pmfs_sb_info) : Prop := {
  mo_redo : redo_log sbi = false;
  mo_base : journal_base_addr sbi = Some (l_base l);
  mo_size : jsize sbi = l_size l
}.

Definition clean_events (h : Z) (unmount : bool) : list event :=
  [EFence; EStore false (l_journal l + j_head) (bytes_of 4 h)] ++
  flush_events clwb (l_journal l + j_head) 4 ++ [EFence] ++ fence_events unmount.

Lemma clean_events_view m h u :
  apply_events m (clean_events h u) = write_bytes m (l_journal l + j_head) (bytes_of 4 h).
Proof.
  unfold clean_events. rewrite apply_events_app.
  rewrite (apply_events_no_store _ (flush_events _ _ _ ++ _)); [done|].
  rewrite app_assoc. apply Forall_app_2; [apply (flush_fence_no_store _ _ _ true)|].
  destruct u; by repeat constructor.
Qed.

Lemma clean_run sbi hd g S L u s :
  mounted sbi → journal_is l (view s) hd g S L → g ≠ MAX_GEN_ID → settled S → open_tail L →
  ∃ total, Z.of_nat (length L) <= total <= Z.of_nat (length (S ++ L)) ∧
  pmfs_clean_journal clwb sbi u s = Ok (total, log_state s (clean_events (hd + nslots S) u)).
Proof using Hl.
  intros [Hr Hb Hs] [Hj Hsl [Hh _] Hring] Hg HS HL. pose proof (lo_size l Hl) as [_ Hsz].
  set (tl := hd + nslots (S ++ L)) in *. pose proof (nslots_nonneg (S ++ L)).
  destruct (clean_loop_eq clwb sbi (l_base l) hd g tl Hb Hr Hh ltac:(lia) ltac:(lia) Hg S L s)
    as (total & Ht & Hloop); try done.
  exists total. split; [done|]. destruct Hj as [H1 _ _ H4 H5 H6 _].
  unfold pmfs_clean_journal, pmfs_get_journal.
  do 3 (erewrite bind_Ok; [|apply fetch_eq]).
  destruct (tail_genid_split (view s) (l_journal l + j_tail)) as [E1 E2].
  rewrite H1, H4, E1, E2. replace (l_journal l + j_tail + 4) with (l_journal l + j_gen_id)
    by (offsets; lia). rewrite H5, H6.
  destruct (Z.ltb_spec tl hd); [lia|].
  erewrite bind_Ok; [|exact Hloop]. cbn beta iota.
  erewrite bind_Ok; [|apply emit_eq]. erewrite bind_Ok; [|apply store_eq].
  erewrite bind_Ok; [|apply pmfs_flush_buffer_eq; lia].
  assert (E : ∀ s', when u PERSISTENT_BARRIER s' = Ok ((), log_state s' (fence_events u))).
  { intros s'. destruct u; [apply emit_eq|]. by rewrite log_state_nil. }
  erewrite bind_Ok; [|apply E]. rewrite !log_state_app. unfold mret, M_ret. do 3 f_equal.
  unfold clean_events. by rewrite <- !app_assoc.
Qed.

Lemma clean_header m hd g S L :
  journal_is l m hd g S L →
  journal_is l (write_bytes m (l_journal l + j_head) (bytes_of 4 (hd + nslots S)))
    (hd + nslots S) g [] L.
Proof using Hl.
  intros [Hj Hs [Hh Hm] Hr]. pose proof (nslots_nonneg S) as Hn1. pose proof (nslots_nonneg L) as Hn2.
  pose proof (lo_size l Hl) as [_ Hsz]. destruct (lo_journal l Hl) as [_ Hjo].
  rewrite nslots_app in *. constructor; simpl app.
  - rewrite <- Z.add_assoc. destruct Hj as [H1 H2 H3 H4 H5 H6 H7].
    constructor; rewrite ?load_write_same; try (by apply Z.mod_small; lia);
      by rewrite load_write_disjoint by
        (rewrite length_bytes_of; unfold disjoint_ranges; offsets; lia).
  - apply slots_app in Hs as [_ Hs]. rewrite Z.add_assoc. eapply slots_ext; [|exact Hs].
    intros x Hx. symmetry. apply write_bytes_out. rewrite length_bytes_of. intros Hx'.
    apply (header_not_entries l Hl x).
    + unfold header, in_range in *. offsets. lia.
    + unfold entries, in_range in *. lia.
  - split; [lia|]. unfold nslots, LOGENTRY_SIZE. by rewrite (Z.mul_comm 64), Z.mod_add by lia.
  - lia.
Qed.

(** A crash while the head is moved leaves the contents what they were. *)
Lemma clean_survives m hd g tid S L u c m' :
  journal_is l m hd g S L → 0 <= g → g + Z.of_nat c < MAX_GEN_ID → settled S → fresh tid S →
  cur_open (reserved l) tid L → crash_during (PState m []) (clean_events (hd + nslots S) u) m' →
  survives clwb l c (put_all m (undo_of L)) m'.
Proof using Hl.
  intros Hj Hg Hgc HS Hf Hc Hm. destruct (lo_journal l Hl) as [Hjm Hjo].
  unfold clean_events in Hm. change ([EFence; ?a] ++ ?r) with ([EFence] ++ a :: r) in Hm.
  apply crash_during_app in Hm as [Hm|Hm].
  { assert (Ha : agree (λ _, True) m' m).
    { assert (Ha : agree (λ _, ¬ False) m' m); [|intros x _; apply Ha; tauto].
      apply (crash_during_frame (λ _, False) (PState m []) [EFence]); [| |done].
      - intros p x Hp. by apply elem_of_nil in Hp.
      - by apply stores_in_other, stores_in_nil. }
    eapply (mount_survives clwb l Hl c m' hd g tid S L); try done.
    - eapply undo_reserved; [exact Hj|]. intros x _. symmetry. by apply Ha.
    - intros x Hx. eapply (put_all_agree (data l)); [|exact Hx]. intros y _. by apply Ha. }
  change (pexec (PState m []) [EFence]) with (PState m []) in Hm.
  apply crash_one_store in Hm as [->| ->]; [| |done|].
  3: { rewrite app_assoc. apply Forall_app_2; [apply (flush_fence_no_store _ _ _ true)|].
    destruct u; by repeat constructor. }
  - by eapply mount_survives.
  - apply (clean_header m hd g S L) in Hj. eapply (mount_survives clwb l Hl c _ _ g tid [] L); try done.
    + constructor.
    + by intros e He%elem_of_nil.
    + intros x Hx. eapply (put_all_agree (data l)); [|exact Hx]. intros y [Hy _].
      apply write_bytes_out. rewrite length_bytes_of. intros Hr. apply Hy. left.
      unfold header, in_range in *. offsets. lia.
Qed.
End CleanJournal.
