(* ===== verification/PmfsMain.v ===== *)
(** * PMFS: the journal's properties

    What the journal promises the file system, with a run of each property. *)

From stdpp Require Import base list gmap.
From Stdlib Require Import ZArith Lia.
From coqutil Require Import Byte Word.LittleEndianList.
From S2P Require Import Prelude PMem PMemLine NovaBase PmfsJournal PmfsRecover PmfsMount.
From S2P Require Import PmfsTrans PmfsCrash PmfsRemount PmfsTx PmfsAtomic PmfsCommit PmfsHistory.
From S2P Require Import PmfsFormat PmfsClean.

Local Open Scope Z_scope.

Section Main.
Context `{CachedWrite}.
Variables (clwb : bool) (l : layout).

(** C1: transactions run one after the other from an idle journal in undo mode,
    each logging before it stores and not more entries than the slots it reserved,
    all their slots free before the journal's end (no wrap, no cleaning), and
    their ids below 2^32, succeed and leave the journal idle and everything
    durable: the stores of the committed ones, none of the aborted ones.  A crash at any
    point mounts to the contents after some number of whole transactions, and
    still does when the mounts that follow are themselves cut short by crashes. *)
Theorem history_atomic jobs sbi m0 hd g S k :
  layout_ok l → idle l m0 hd g S (next_transaction_id sbi) k →
  redo_log sbi = false → jsize sbi = l_size l →
  next_transaction_id sbi + Z.of_nat (length jobs) < 2 ^ 32 →
  Forall (job_ok l) jobs → jobs_slots jobs <= k →
  ∃ sbi' s' S' m', history clwb sbi jobs (Cpu m0 []) = Ok ((replicate (length jobs) 0, sbi'), s') ∧
    (∀ m c, crash_during (PState m0 []) (evs s') m → g + Z.of_nat c < MAX_GEN_ID →
      ∃ n, survives clwb l c (contents m0 (take n jobs)) m) ∧
    pexec (PState m0 []) (evs s') = PState m' [] ∧ agree (data l) m' (contents m0 jobs) ∧
    idle l m' hd g S' (next_transaction_id sbi + Z.of_nat (length jobs)) (k - jobs_slots jobs).
Proof.
  intros Hl Hid Hr Hj Hn Hok Hk.
  destruct (history_atomic_at clwb l Hl jobs sbi m0 hd g S (next_transaction_id sbi) k)
    as (sbi' & s' & S' & m' & H1 & _ & _ & H4 & H5 & H6 & H7); try done.
  exists sbi', s', S', m'. split_and!; try done. intros m c Hm Hc.
  destruct (H4 m Hm) as [n Hn']. exists n. by apply Hn'.
Qed.

(** C5: mounting a journal that ends in an open transaction writes its logged
    contents back, newest first, changes nothing else but the journal's header,
    and leaves the journal empty at the next generation; cut short by a crash
    anywhere, the next mounts reach the same contents. *)
Theorem recovery_undoes m hd g tid S L sbi :
  layout_ok l → journal_is l m hd g S L → 0 <= g → g + 1 < MAX_GEN_ID → settled S → fresh tid S →
  cur_open (reserved l) tid L → S ++ L ≠ [] →
  ∃ sbi' s', mount_journal clwb sbi true (Cpu m []) = Ok ((0, sbi'), s') ∧
    agree (λ x, ¬ header l x) (view s') (put_all m (undo_of L)) ∧
    jstate l (view s') (hd + nslots (S ++ L)) (hd + nslots (S ++ L)) (g + 1) ∧
    ∀ m' c, crash_during (PState m []) (evs s') m' → g + Z.of_nat c + 1 < MAX_GEN_ID →
      survives clwb l c (put_all m (undo_of L)) m'.
Proof.
  intros Hl Hj Hg Hg' HS Hf Hc Hne. assert (Hgm : g ≠ MAX_GEN_ID) by lia.
  destruct (mount_run clwb l Hl m hd g tid S L Hj Hgm HS Hf Hc Hne sbi) as [sbi' Hrun].
  destruct (mount_view clwb l Hl m hd g tid S L Hj Hgm HS Hf Hc Hne) as [H1 H2].
  rewrite next_gen_succ in H1 by (unfold MAX_GEN_ID in Hg'; change (u16 (-1)) with (2 ^ 16 - 1) in Hg'; lia).
  eexists sbi', _. split_and!; [exact Hrun|done|done|]. intros m' c Hm Hb.
  pose proof (mount_survives clwb l Hl (Datatypes.S c) m hd g tid S L (put_all m (undo_of L))
    Hj Hg ltac:(lia) HS Hf Hc ltac:(done)) as Hs.
  destruct (Hs sbi) as (sbi2 & s2 & Hrun2 & _ & _ & Hcut). rewrite Hrun in Hrun2.
  injection Hrun2 as <- <-. by apply Hcut.
Qed.

(** C37: initialising the journal of a new file system succeeds and leaves it idle
    and durable: empty, at generation 1, with all of its entries free. *)
Theorem format_leaves_idle sbi m :
  jsize sbi mod 64 = 0 ∧ 64 <= jsize sbi <= 2 ^ 22 →
  ∃ sbi' s' m', format_journal clwb sbi 4096 true (Cpu m []) = Ok ((0, sbi'), s') ∧
    redo_log sbi' = false ∧ jsize sbi' = jsize sbi ∧ next_transaction_id sbi' = 0 ∧
    layout_ok (format_layout (jsize sbi)) ∧ pexec (PState m []) (evs s') = PState m' [] ∧
    idle (format_layout (jsize sbi)) m' 0 1 [] 0 (jsize sbi / 64 - 1).
Proof.
  intros Hs. destruct (format_idle clwb sbi m Hs) as (m' & E & Hid).
  eexists _, _, m'. split; [by apply format_eq|]. do 3 (split; [reflexivity|]).
  split; [by apply format_layout_ok|]. split; [exact E|exact Hid].
Qed.

(** C38: cleaning the journal terminates; it moves the head to the first open
    transaction and nothing else, returns a count of at least the slots of that
    transaction (which stay in use) and at most all slots, and a crash meanwhile
    mounts to the contents it would have mounted to before. *)
Theorem clean_journal_correct sbi u hd g tid S L m :
  layout_ok l → mounted l sbi → journal_is l m hd g S L → 0 <= g → g ≠ MAX_GEN_ID → settled S →
  open_tail L → fresh tid S → cur_open (reserved l) tid L →
  ∃ total s', pmfs_clean_journal clwb sbi u (Cpu m []) = Ok (total, s') ∧
    Z.of_nat (length L) <= total <= Z.of_nat (length (S ++ L)) ∧
    journal_is l (view s') (hd + nslots S) g [] L ∧ agree (data l) (view s') m ∧
    ∀ m' c, crash_during (PState m []) (evs s') m' → g + Z.of_nat c < MAX_GEN_ID →
      survives clwb l c (put_all m (undo_of L)) m'.
Proof.
  intros Hl Hmo Hj Hg Hgm HS HL Hf Hc.
  destruct (clean_run clwb l Hl sbi hd g S L u (Cpu m []) Hmo Hj Hgm HS HL) as (total & Ht & Hrun).
  eexists total, _. split_and!; [exact Hrun|apply Ht|apply Ht|..].
  - cbn [log_state view]. rewrite clean_events_view. by eapply clean_header.
  - cbn [log_state view]. rewrite clean_events_view. intros x Hx. apply write_bytes_out.
    rewrite length_bytes_of. intros Hr. apply Hx. left. unfold header, in_range in *. offsets. lia.
  - intros m' c Hm Hb. cbn [log_state evs] in Hm. by apply (clean_survives clwb l Hl m hd g tid S L u).
Qed.

End Main.

(** ** Runs *)

Section Demo.
Local Existing Instance bytewise_write.

Definition demo_sbi : pmfs_sb_info := SbInfo false (Some 4096) 1024 0 true 0.
Abbreviation demo_layout := (format_layout 1024).

(** One committed and one aborted transaction. *)
Definition demo_jobs : list job :=
  [Job 1 2 [SLog 8192 8; SWrite [EStore false 8192 (bytes_of 8 5)]] true;
   Job 2 1 [SLog 8192 8; SWrite [EStore false 8192 (bytes_of 8 6)]] false].

Lemma demo_layout_ok : layout_ok demo_layout.
Proof. apply (format_layout_ok demo_sbi). split; [reflexivity|cbn; lia]. Qed.

Lemma demo_range x : in_range 8192 8 x → ¬ reserved demo_layout x.
Proof.
  intros Hx [[Hh|He]|Hs]; unfold header, entries, in_range, format_layout, s_journal_offset in *;
    cbn [l_journal l_base l_size] in *; rewrite ?meta_start, ?data_start in *; lia.
Qed.

Lemma demo_job_ok v :
  steps_ok demo_layout [] [SLog 8192 8; SWrite [EStore false 8192 (bytes_of 8 v)]].
Proof.
  cbn [steps_ok]. split; [split_and!; try lia; exact demo_range|]. split; [split|done].
  - constructor; [|constructor]. apply ev_ok_aligned; [lia|by exists 8|done].
  - apply stores_in_store; [|apply stores_in_nil]. intros x. rewrite length_bytes_of. intros Hx.
    exists (8192, 8). split; [by left|done].
Qed.

Lemma demo_jobs_ok : Forall (job_ok demo_layout) demo_jobs.
Proof.
  constructor; [|constructor; [|constructor]]; (split; [apply demo_job_ok|by vm_compute]).
Qed.

Lemma history_atomic_witness :
  ∃ m0 sbi' s' S' m', history true demo_sbi demo_jobs (Cpu m0 []) = Ok (([0; 0], sbi'), s') ∧
    (∀ m c, crash_during (PState m0 []) (evs s') m → 1 + Z.of_nat c < MAX_GEN_ID →
      ∃ n, survives true demo_layout c (contents m0 (take n demo_jobs)) m) ∧
    pexec (PState m0 []) (evs s') = PState m' [] ∧ agree (data demo_layout) m' (contents m0 demo_jobs) ∧
    idle demo_layout m' 0 1 S' 2 10.
Proof.
  destruct (format_idle true demo_sbi ∅) as (m0 & _ & Hid); [split; [reflexivity|cbn; lia]|].
  exists m0. apply (history_atomic true demo_layout demo_jobs demo_sbi m0 0 1 [] 15);
    [exact demo_layout_ok|exact Hid|done|done|cbn; lia|exact demo_jobs_ok|cbn; lia].
Defined.

(** A journal of two slots: an open transaction with one entry, and an unused slot. *)
Definition demo_mem : mem :=
  foldl (λ m '(n, a, v), write_bytes m a (bytes_of n v)) ∅
    [(8%nat, 32, 128); (8%nat, 128, 4096); (4%nat, 136, 1024); (4%nat, 140, 0); (4%nat, 144, 128);
     (2%nat, 148, 1); (2%nat, 152, 0);
     (8%nat, 4096, 8192); (4%nat, 4104, 3); (2%nat, 4108, 1); (1%nat, 4110, 1); (1%nat, 4111, 8);
     (8%nat, 4112, 77)].
Definition demo_entry : lentry := LE 8192 3 LE_START (bytes_of 8 77).
Definition demo_slots : list (option lentry) := [Some demo_entry; None].

Lemma demo_journal : journal_is demo_layout demo_mem 0 1 [] demo_slots.
Proof.
  constructor; [constructor; by vm_compute| |done|by vm_compute].
  split; [constructor; by vm_compute|]. split; [by vm_compute|done].
Qed.

Lemma demo_open : cur_open (reserved demo_layout) 3 demo_slots.
Proof.
  split.
  - split; [done|]. split; [by intros e [= <-]|]. by constructor.
  - intros e [[= ->]|[?|?%elem_of_nil]%elem_of_cons]%elem_of_cons; [|done..]. split; [done|]. right.
    split; [done|]. exact demo_range.
Qed.

Lemma recovery_undoes_witness :
  ∃ sbi' s', mount_journal true demo_sbi true (Cpu demo_mem []) = Ok ((0, sbi'), s') ∧
    agree (λ x, ¬ header demo_layout x) (view s') (put_all demo_mem [demo_entry]) ∧
    jstate demo_layout (view s') 128 128 2 ∧
    ∀ m' c, crash_during (PState demo_mem []) (evs s') m' → 1 + Z.of_nat c + 1 < MAX_GEN_ID →
      survives true demo_layout c (put_all demo_mem [demo_entry]) m'.
Proof.
  apply (recovery_undoes true demo_layout demo_mem 0 1 3 [] demo_slots demo_sbi);
    [exact demo_layout_ok|exact demo_journal|lia|by vm_compute|constructor| |exact demo_open|done].
  intros e He. by apply elem_of_nil in He.
Defined.

Lemma format_leaves_idle_witness :
  ∃ sbi' s' m', format_journal true demo_sbi 4096 true (Cpu demo_mem []) = Ok ((0, sbi'), s') ∧
    redo_log sbi' = false ∧ jsize sbi' = 1024 ∧ next_transaction_id sbi' = 0 ∧
    layout_ok demo_layout ∧ pexec (PState demo_mem []) (evs s') = PState m' [] ∧
    idle demo_layout m' 0 1 [] 0 15.
Proof. apply (format_leaves_idle true demo_sbi demo_mem). split; [reflexivity|cbn; lia]. Defined.

Lemma clean_journal_correct_witness :
  ∃ total s', pmfs_clean_journal true demo_sbi false (Cpu demo_mem []) = Ok (total, s') ∧
    2 <= total <= 2 ∧
    journal_is demo_layout (view s') 0 1 [] demo_slots ∧ agree (data demo_layout) (view s') demo_mem ∧
    ∀ m' c, crash_during (PState demo_mem []) (evs s') m' → 1 + Z.of_nat c < MAX_GEN_ID →
      survives true demo_layout c (put_all demo_mem [demo_entry]) m'.
Proof.
  apply (clean_journal_correct true demo_layout demo_sbi false 0 1 3 [] demo_slots demo_mem);
    [exact demo_layout_ok|by constructor|exact demo_journal|lia|by vm_compute|constructor|..|exact demo_open].
  - right. exists (Some demo_entry), [None]. split_and!; [done|done|by constructor|by repeat constructor].
  - intros e He. by apply elem_of_nil in He.
Defined.
End Demo.
