(* ===== verification/PmfsFindings.v ===== *)
(** * PMFS: runs that show defects of the journal

    Concrete runs on a new file system with a journal of sixteen slots. *)

From stdpp Require Import base list gmap.
From Stdlib Require Import ZArith Lia.
From coqutil Require Import Byte Word.LittleEndianList.
From S2P Require Import Prelude PMem NovaBase PmfsJournal.

Local Open Scope Z_scope.

Local Existing Instance bytewise_write.

Definition small_sbi : pmfs_sb_info := SbInfo false None 1024 0 false 0.

(** A new transaction, or a failed run. *)
Definition begin_tx (sbi : pmfs_sb_info) (self n : Z) : PM (pmfs_transaction * pmfs_sb_info) :=
  '(r, sbi) ← pmfs_new_transaction true 4 sbi (Some self) n;
  match r with inl _ => bug | inr t => mret (t, sbi) end.

Definition log (sbi : pmfs_sb_info) (t : pmfs_transaction) (addr size : Z) : PM pmfs_transaction :=
  '(r, t) ← pmfs_add_logentry true sbi (Some t) addr size LE_DATA;
  match t with Some t => mret t | None => bug end.

(** Stores a byte and makes it durable. *)
Definition put_byte (addr v : Z) : PM () :=
  store 1 addr v;; pmfs_flush_buffer true addr 1 false;; PERSISTENT_BARRIER.

(** The byte at [addr] once a memory is mounted. *)
Definition mounted_byte (m : mem) (addr : Z) : option Z :=
  match mount_journal true small_sbi true (Cpu m []) with
  | Ok (_, s) => Some (load 1 (view s) addr)
  | _ => None
  end.

(** Transaction A takes ten slots and logs a range; B asks for six while A is
    open. *)
Definition overlap : PM (option Z * Z * option Z) :=
  '(_, sbi) ← format_journal true small_sbi 4096 true;
  '(a, sbi) ← begin_tx sbi 1 9;
  a ← log sbi a 8192 48;
  '(b, sbi) ← begin_tx sbi 2 5;
  mret (start_addr a, num_used a, start_addr b).

Definition result_of {A} (p : PM A) (m : mem) : option A :=
  match p (Cpu m []) with Ok (a, _) => Some a | _ => None end.

(** What a power failure at the end of a run leaves when nothing more is written
    back, and what it mounts to. *)
Definition crashed {A} (p : PM A) : option mem :=
  match p (Cpu ∅ []) with
  | Ok (_, s) => Some (durable (pexec (PState ∅ []) (evs s)))
  | _ => None
  end.
Definition recovered_byte {A} (p : PM A) (addr : Z) : option Z :=
  m ← crashed p; mounted_byte m addr.

(** The slots A still uses were counted as freed: both start at the first slot. *)
Example overlap_run : result_of overlap ∅ = Some (Some 4096, 1, Some 4096).
Proof. vm_compute. reflexivity. Qed.

(** B's first entry replaces A's, and A, which never commits, is not undone. *)
Definition overlap_lost : PM () :=
  '(_, sbi) ← format_journal true small_sbi 4096 true;
  '(a, sbi) ← begin_tx sbi 1 9;
  a ← log sbi a 8192 48;
  put_byte 8192 7;;
  '(b, sbi) ← begin_tx sbi 2 5;
  b ← log sbi b 12288 48;
  mret ().

Example overlap_lost_run : recovered_byte overlap_lost 8192 = Some 7.
Proof. vm_compute. reflexivity. Qed.

(** The cleaner runs between A's reservation and its first entry, whose slots look
    unused, and moves the head past them: A is not undone either. *)
Definition cleaned_early : PM () :=
  '(_, sbi) ← format_journal true small_sbi 4096 true;
  '(a, sbi) ← begin_tx sbi 1 9;
  sbi ← pmfs_log_cleaner true sbi false;
  a ← log sbi a 8192 48;
  put_byte 8192 7;;
  mret ().

Example cleaned_early_run : recovered_byte cleaned_early 8192 = Some 7.
Proof. vm_compute. reflexivity. Qed.

(** Without the cleaner it is. *)
Definition not_cleaned : PM () :=
  '(_, sbi) ← format_journal true small_sbi 4096 true;
  '(a, sbi) ← begin_tx sbi 1 9;
  a ← log sbi a 8192 48;
  put_byte 8192 7;;
  mret ().

Example not_cleaned_run : recovered_byte not_cleaned 8192 = Some 0.
Proof. vm_compute. reflexivity. Qed.

(** A transaction of one entry that logs two: the second takes the slot reserved
    for the commit record, and [pmfs_commit_transaction] returns 0 all the same. *)
Definition overfull : PM Z :=
  '(_, sbi) ← format_journal true small_sbi 4096 true;
  '(a, sbi) ← begin_tx sbi 1 1;
  a ← log sbi a 8192 48;
  a ← log sbi a 8256 48;
  put_byte 8192 7;;
  '(r, _) ← pmfs_commit_transaction true sbi (Some a);
  mret r.

Example overfull_run : result_of overfull ∅ = Some 0 ∧ recovered_byte overfull 8192 = Some 0.
Proof. vm_compute. by split. Qed.
