(* ===== verification/PmfsBalloc.v ===== *)
(** * PMFS: the block allocator

    [balloc.c], the slab wrappers of [super.c] and the part of [bbuild.c] that
    rebuilds the allocator from bitmaps after a crash.  PMFS keeps the blocks in
    use, not the free ones: a list of ranges ([struct pmfs_blocknode]) in
    increasing order.  The list is the kernel's circular list; a pointer to a
    node ([start_hint], [i], [next_i]) is its position, which is meaningful for
    as long as the caller holds [s_lock] and the list does not change under it.
    [PmfsBallocProofs] holds the invariant, [PmfsBallocMain] the properties. *)

From stdpp Require Import base list gmap.
From Stdlib Require Import ZArith Lia.
From S2P Require Import Prelude PMem NovaBase PmfsJournal.

Local Open Scope Z_scope.

(** ** Data *)

Record pmfs_blocknode := BlockNode { block_low : Z; block_high : Z }.
#[export] Instance pmfs_blocknode_eq_dec : EqDecision pmfs_blocknode.
Proof. solve_decision. Defined.

(** What the file system keeps in DRAM for its blocks, over the persistent
    memory: the fields of [struct pmfs_sb_info], the read-only flag of
    [sb->s_flags], and how often the slab cache was asked. *)
Record fs := Fs {
  block_inuse_head : list pmfs_blocknode;
  block_start : Z;
  block_end : Z;
  num_free_blocks : Z;
  num_blocknode_allocated : Z;
  rdonly : bool;
  slab_calls : nat;
  pm : cpu
}.
Abbreviation FM := (M fs).

Definition set_inuse (s : fs) (l : list pmfs_blocknode) : fs :=
  Fs l (block_start s) (block_end s) (num_free_blocks s) (num_blocknode_allocated s)
    (rdonly s) (slab_calls s) (pm s).
Definition set_num_free (s : fs) (n : Z) : fs :=
  Fs (block_inuse_head s) (block_start s) (block_end s) n (num_blocknode_allocated s)
    (rdonly s) (slab_calls s) (pm s).
Definition set_num_nodes (s : fs) (n : Z) : fs :=
  Fs (block_inuse_head s) (block_start s) (block_end s) (num_free_blocks s) n
    (rdonly s) (slab_calls s) (pm s).
Definition set_pm (s : fs) (c : cpu) : fs :=
  Fs (block_inuse_head s) (block_start s) (block_end s) (num_free_blocks s)
    (num_blocknode_allocated s) (rdonly s) (slab_calls s) c.

(** Running code of the persistent-memory level. *)
Definition lift {A} (m : PM A) : FM A := λ s,
  match m (pm s) with
  | Ok (a, c) => Ok (a, set_pm s c)
  | Bug => Bug
  | OutOfFuel => OutOfFuel
  end.

(** Mount options, and which calls of the slab cache succeed. *)
Record fs_cfg := FsCfg {
  errors_panic : bool;              (* PMFS_MOUNT_ERRORS_PANIC *)
  errors_ro : bool;                 (* PMFS_MOUNT_ERRORS_RO *)
  slab_ok : nat → bool
}.

Definition PMFS_BLOCK_TYPE_4K : Z := 0.
Definition PMFS_BLOCK_TYPE_2M : Z := 1.
(** [sb->s_blocksize] and its logarithm: PMFS formats with 4 KB only. *)
Definition s_blocksize : Z := 4096.
Definition s_blocksize_bits : Z := 12.

(** [pmfs.h] *)
Definition pmfs_get_numblocks (btype : Z) : Z :=
  if btype =? PMFS_BLOCK_TYPE_4K then 1
  else if btype =? PMFS_BLOCK_TYPE_2M then 512 else 0x40000.
Definition pmfs_get_block_off (blocknr : Z) : Z := u64 (Z.shiftl blocknr PAGE_SHIFT).
Definition pmfs_get_blocknr (block : Z) : Z := Z.shiftr block PAGE_SHIFT.

(** ** The kernel's lists *)

(** [list_del] of the node at position [i], [list_add] of a node behind it, and
    stores to its fields. *)
Definition list_del (i : nat) : FM () :=
  modify (λ s, set_inuse s (delete i (block_inuse_head s))).
Definition list_add_after (i : nat) (n : pmfs_blocknode) : FM () :=
  modify (λ s, set_inuse s
    (take (S i) (block_inuse_head s) ++ n :: drop (S i) (block_inuse_head s))).
Definition set_low (i : nat) (v : Z) : FM () :=
  modify (λ s, set_inuse s
    (alter (λ n, BlockNode v (block_high n)) i (block_inuse_head s))).
Definition set_high (i : nat) (v : Z) : FM () :=
  modify (λ s, set_inuse s
    (alter (λ n, BlockNode (block_low n) v) i (block_inuse_head s))).

Section Balloc.
Variable cfg : fs_cfg.

(** ** [super.c] *)

Definition pmfs_error_mng : FM () :=
  if errors_panic cfg then bug
  else modify (λ s, Fs (block_inuse_head s) (block_start s) (block_end s) (num_free_blocks s)
                      (num_blocknode_allocated s) (rdonly s || errors_ro cfg) (slab_calls s) (pm s)).

(** Whether the call returned a node. *)
Definition pmfs_alloc_blocknode : FM bool := λ s,
  let ok := slab_ok cfg (slab_calls s) in
  Ok (ok, Fs (block_inuse_head s) (block_start s) (block_end s) (num_free_blocks s)
            (if ok then u64 (num_blocknode_allocated s + 1) else num_blocknode_allocated s)
            (rdonly s) (S (slab_calls s)) (pm s)).

(** [sbi->num_blocknode_allocated--], also what [pmfs_free_blocknode] does. *)
Definition node_freed : FM () :=
  modify (λ s, set_num_nodes s (u64 (num_blocknode_allocated s - 1))).
Definition pmfs_free_blocknode : FM () := node_freed.

Definition add_free (n : Z) : FM () :=
  modify (λ s, set_num_free s (u64 (num_free_blocks s + n))).

(** ** [balloc.c] *)

Definition pmfs_init_blockmap (init_used_size : Z) : FM () :=
  let num_used_block := Z.shiftr (u64 (init_used_size + s_blocksize - 1)) s_blocksize_bits in
  ok ← pmfs_alloc_blocknode;
  (* PMFS_ASSERT only prints *)
  bug_on (negb ok);;
  modify (λ s, set_num_free s (u64 (num_free_blocks s - num_used_block)));;
  modify (λ s, set_inuse s
    (BlockNode (block_start s) (u64 (block_start s + num_used_block - 1)) :: block_inuse_head s)).

(** NULL behind the last node. *)
Definition pmfs_next_blocknode (i : nat) : FM (option nat) :=
  gets (λ s, if decide (S i < length (block_inuse_head s))%nat then Some (S i) else None).

(** [list_for_each_entry_from]: [rest] are the nodes from position [i] on.  The
    result is the new [*start_hint]. *)
Fixpoint free_loop (rest : list pmfs_blocknode) (i : nat) (num_blocks new_block_low new_block_high : Z)
    (start_hint : option nat) : FM (option nat) :=
  match rest with
  | [] => pmfs_error_mng;; mret start_hint
  | n :: rest =>
      if new_block_low >? block_high n then
        free_loop rest (S i) num_blocks new_block_low new_block_high start_hint
      else if (new_block_low =? block_low n) && (new_block_high =? block_high n) then
        next ← pmfs_next_blocknode i;
        list_del i;;
        node_freed;;
        add_free num_blocks;;
        (* list_del leaves the next node at the position of the one it took *)
        mret ((λ _, i) <$> next)
      else if (new_block_low =? block_low n) && (new_block_high <? block_high n) then
        set_low i (u64 (new_block_high + 1));;
        add_free num_blocks;;
        mret (Some i)
      else if (new_block_low >? block_low n) && (new_block_high =? block_high n) then
        set_high i (u64 (new_block_low - 1));;
        add_free num_blocks;;
        pmfs_next_blocknode i
      else if (new_block_low >? block_low n) && (new_block_high <? block_high n) then
        ok ← pmfs_alloc_blocknode;
        if negb ok then mret start_hint else
        set_high i (u64 (new_block_low - 1));;
        list_add_after i (BlockNode (u64 (new_block_high + 1)) (block_high n));;
        add_free num_blocks;;
        mret (Some (S i))
      else free_loop rest (S i) num_blocks new_block_low new_block_high start_hint
  end.

(** [start_hint] is [*start_hint]; callers that pass NULL pass [None] and drop
    the result. *)
Definition __pmfs_free_block (blocknr btype : Z) (start_hint : option nat) : FM (option nat) :=
  let num_blocks := pmfs_get_numblocks btype in
  let new_block_low := blocknr in
  let new_block_high := u64 (blocknr + num_blocks - 1) in
  head ← gets block_inuse_head;
  bug_on (bool_decide (head = []));;
  let i := match start_hint with
           | Some h =>
               match head !! h with
               | Some n => if new_block_low >=? block_low n then h else O
               | None => O
               end
           | None => O
           end in
  free_loop (drop i head) i num_blocks new_block_low new_block_high start_hint.

Definition pmfs_free_block (blocknr btype : Z) : FM () :=
  _ ← __pmfs_free_block blocknr btype None;
  mret ().

(** What the four tests of one round of [pmfs_new_block] come to. *)
Inductive claim := Skip | Claimed (next_freed : bool) | NoNode.

Definition claim_new_node (i : nat) (new_block_low new_block_high : Z) : FM claim :=
  ok ← pmfs_alloc_blocknode;
  if negb ok then mret NoNode else
  list_add_after i (BlockNode new_block_low new_block_high);;
  mret (Claimed false).

(** The gap behind node [i], up to [next_i] or the end of the device.  The same
    tests are in [pmfs_new_block] and in [pmfs_alloc_insert_blocknode_map]; the
    node [next_freed] is taken off the list here and freed by the caller. *)
Definition claim_gap (i : nat) (n : pmfs_blocknode) (next_i : option pmfs_blocknode)
    (next_block_low new_block_low new_block_high : Z) : FM claim :=
  let first := u64 (block_high n + 1) in
  let last := u64 (next_block_low - 1) in
  if new_block_high >=? next_block_low then mret Skip
  else if (new_block_low =? first) && (new_block_high =? last) then
    match next_i with
    | Some next => set_high i (block_high next);; list_del (S i);; mret (Claimed true)
    | None => set_high i new_block_high;; mret (Claimed false)
    end
  else if (new_block_low =? first) && (new_block_high <? last) then
    set_high i new_block_high;; mret (Claimed false)
  else if (new_block_low >? first) && (new_block_high =? last) then
    match next_i with
    | Some _ => set_low (S i) new_block_low;; mret (Claimed false)
    | None => claim_new_node i new_block_low new_block_high
    end
  else if (new_block_low >? first) && (new_block_high <? last) then
    claim_new_node i new_block_low new_block_high
  else mret Skip.

(** [next_block_low] and [next_i]. *)
Definition next_node (rest : list pmfs_blocknode) (block_end : Z) : option pmfs_blocknode * Z :=
  match rest with
  | [] => (None, block_end)
  | next :: _ => (Some next, block_low next)
  end.

(** The loop of [pmfs_new_block]; the result is [new_block_low] when [found]. *)
Fixpoint new_block_loop (rest : list pmfs_blocknode) (i : nat) (num_blocks : Z) : FM (option Z) :=
  match rest with
  | [] => mret None
  | n :: rest =>
      block_end ← gets block_end;
      let '(next_i, next_block_low) := next_node rest block_end in
      let new_block_low := Z.land (u64 (block_high n + num_blocks)) (Z.lnot (num_blocks - 1)) in
      let new_block_high := u64 (new_block_low + num_blocks - 1) in
      r ← claim_gap i n next_i next_block_low new_block_low new_block_high;
      match r with
      | Skip => new_block_loop rest (S i) num_blocks
      | Claimed next_freed => when next_freed node_freed;; mret (Some new_block_low)
      | NoNode => mret None
      end
  end.

(** The error code, and [*blocknr] after the call. *)
Definition pmfs_new_block (blocknr btype : Z) (zero : bool) : FM (Z * Z) :=
  let num_blocks := pmfs_get_numblocks btype in
  head ← gets block_inuse_head;
  found ← new_block_loop head 0 num_blocks;
  match found with
  | None => mret (- ENOSPC, blocknr)
  | Some new_block_low =>
      modify (λ s, set_num_free s (u64 (num_free_blocks s - num_blocks)));;
      when zero
        (let size := if btype =? PMFS_BLOCK_TYPE_4K then Z.shiftl 1 12
                     else if btype =? PMFS_BLOCK_TYPE_2M then Z.shiftl 1 21
                     else Z.shiftl 1 30 in
         lift (bp ← deref (pmfs_get_block (pmfs_get_block_off new_block_low));
               memset_nt bp 0 size));;
      mret (0, new_block_low)
  end.

Definition pmfs_count_free_blocks : FM Z := gets num_free_blocks.

(** ** [bbuild.c]: the allocator from the bitmaps *)

Fixpoint insert_loop (rest : list pmfs_blocknode) (i : nat) (new_block_low new_block_high : Z)
  : FM (option bool) :=
  match rest with
  | [] => mret None
  | n :: rest =>
      block_end ← gets block_end;
      let '(next_i, next_block_low) := next_node rest block_end in
      r ← claim_gap i n next_i next_block_low new_block_low new_block_high;
      match r with
      | Skip => insert_loop rest (S i) new_block_low new_block_high
      | Claimed next_freed => mret (Some next_freed)
      | NoNode => mret None
      end
  end.

Definition pmfs_alloc_insert_blocknode_map (low high : Z) : FM Z :=
  let num_blocks := u64 (high - low + 1) in
  head ← gets block_inuse_head;
  found ← insert_loop head 0 low high;
  match found with
  | None => mret (- ENOSPC)
  | Some next_freed =>
      modify (λ s, set_num_free s (u64 (num_free_blocks s - num_blocks)));;
      when next_freed pmfs_free_blocknode;;
      mret 0
  end.
End Balloc.

(** The kernel's searches in a bitmap of [size] bits, given as the set of its
    bits that are 1: the first bit from [off] on that is 1, or 0, else [size]. *)
Class BitSearch := {
  find_next_bit : gset Z → Z → Z → Z;
  find_next_zero_bit : gset Z → Z → Z → Z
}.
Class BitSearchLaws `{BitSearch} : Prop := {
  find_next_bit_spec bm size off : 0 <= off <= size →
    off <= find_next_bit bm size off <= size ∧
    (∀ k, off <= k < find_next_bit bm size off → k ∉ bm) ∧
    (find_next_bit bm size off < size → find_next_bit bm size off ∈ bm);
  find_next_zero_bit_spec bm size off : 0 <= off <= size →
    off <= find_next_zero_bit bm size off <= size ∧
    (∀ k, off <= k < find_next_zero_bit bm size off → k ∈ bm) ∧
    (find_next_zero_bit bm size off < size → find_next_zero_bit bm size off ∉ bm)
}.

(** [struct scan_bitmap]: the sizes are in bytes. *)
Record scan_bitmap := ScanBitmap {
  bitmap_4k_size : Z;
  bitmap_2M_size : Z;
  bitmap_1G_size : Z;
  bitmap_4k : gset Z;
  bitmap_2M : gset Z;
  bitmap_1G : gset Z
}.
Definition PAGE_SHIFT_2M : Z := 21.
Definition PAGE_SHIFT_1G : Z := 30.

Section Build.
Context `{BitSearch}.
Variable cfg : fs_cfg.

(** [while (1)]; each round moves [next] forward. *)
Fixpoint build_loop (fuel : nat) (bitmap : gset Z) (bsize scale next : Z) : FM () :=
  match fuel with
  | O => out_of_fuel
  | S fuel =>
      let next := find_next_bit bitmap bsize next in
      if next =? bsize then mret () else
      let low := next in
      let next := find_next_zero_bit bitmap bsize next in
      (* a failure is only printed *)
      _ ← pmfs_alloc_insert_blocknode_map cfg (u64 (Z.shiftl low scale))
            (u64 (Z.shiftl next scale - 1));
      if next =? bsize then mret () else build_loop fuel bitmap bsize scale next
  end.

Definition __pmfs_build_blocknode_map (bitmap : gset Z) (bsize scale : Z) : FM Z :=
  build_loop (S (Z.to_nat bsize)) bitmap bsize scale 1;;
  mret 0.

Definition pmfs_build_blocknode_map (bm : scan_bitmap) : FM () :=
  _ ← __pmfs_build_blocknode_map (bitmap_4k bm) (bitmap_4k_size bm * 8) (PAGE_SHIFT - 12);
  _ ← __pmfs_build_blocknode_map (bitmap_2M bm) (bitmap_2M_size bm * 8) (PAGE_SHIFT_2M - 12);
  _ ← __pmfs_build_blocknode_map (bitmap_1G bm) (bitmap_1G_size bm * 8) (PAGE_SHIFT_1G - 12);
  mret ().
End Build.
