(* ===== verification/PmfsBallocProofs.v ===== *)
(** * PMFS: the invariant of the block allocator, and its loops

    The ranges in use are increasing and never touch ([ok_from]), the counters
    agree with them ([wf]).  A claim takes its blocks out of one gap
    ([claimed]), a release gives them back. *)

From stdpp Require Import base list gmap.
From Stdlib Require Import ZArith Lia.
From S2P Require Import Prelude PMem NovaBase PmfsJournal PmfsBalloc.

Local Open Scope Z_scope.

(** ** Lists of ranges *)

(** The ranges of [l] lie in [[lo, hi)], in order, with a gap between them. *)
Fixpoint ok_from (lo hi : Z) (l : list pmfs_blocknode) : Prop :=
  match l with
  | [] => True
  | n :: l => lo <= block_low n <= block_high n ∧ block_high n < hi ∧
              ok_from (block_high n + 2) hi l
  end.

(** Block [y] is in use. *)
Definition used (l : list pmfs_blocknode) (y : Z) : Prop :=
  ∃ n, n ∈ l ∧ block_low n <= y <= block_high n.

Definition size_of (n : pmfs_blocknode) : Z := block_high n - block_low n + 1.
Definition sizes (l : list pmfs_blocknode) : Z := foldr (λ n a, size_of n + a) 0 l.

(** Where the ranges behind [l] may start. *)
Definition bound (lo : Z) (l : list pmfs_blocknode) : Z := foldl (λ _ n, block_high n + 2) lo l.

Lemma used_nil y : used [] y ↔ False.
Proof. split; [intros (n & H & _); by apply elem_of_nil in H|done]. Qed.
Lemma in_use_cons n l y : used (n :: l) y ↔ block_low n <= y <= block_high n ∨ used l y.
Proof. unfold used. setoid_rewrite elem_of_cons. naive_solver. Qed.
Lemma in_use_app l1 l2 y : used (l1 ++ l2) y ↔ used l1 y ∨ used l2 y.
Proof. unfold used. setoid_rewrite elem_of_app. naive_solver. Qed.

Lemma run_sizes_app l1 l2 : sizes (l1 ++ l2) = sizes l1 + sizes l2.
Proof. unfold sizes. induction l1 as [|n l1 IH]; simpl; [done|]. rewrite IH. lia. Qed.

Lemma ok_from_mono lo lo' hi l : lo' <= lo → ok_from lo hi l → ok_from lo' hi l.
Proof. destruct l; simpl; [done|]. intros ? (? & ? & ?). split_and!; [lia..|done]. Qed.

Lemma ok_from_app lo hi l1 l2 :
  ok_from lo hi (l1 ++ l2) ↔ ok_from lo hi l1 ∧ ok_from (bound lo l1) hi l2.
Proof.
  revert lo. induction l1 as [|n l1 IH]; intros lo; simpl; [tauto|].
  rewrite IH. unfold bound. simpl. tauto.
Qed.

Lemma used_bounds lo hi l y : ok_from lo hi l → used l y → lo <= y < hi.
Proof.
  revert lo. induction l as [|n l IH]; intros lo; [by rewrite used_nil|].
  rewrite in_use_cons. simpl. intros (? & ? & H) [?|Hu]; [lia|]. specialize (IH _ H Hu). lia.
Qed.

Lemma sizes_bounds lo hi l :
  ok_from lo hi l → lo <= hi → Z.of_nat (length l) <= sizes l <= hi - lo.
Proof.
  revert lo. induction l as [|n l IH]; intros lo; simpl; [lia|].
  intros (? & ? & Hl) ?. unfold size_of.
  destruct (decide (block_high n + 2 <= hi)); [specialize (IH _ Hl); lia|].
  destruct l as [|m l]; simpl in *; lia.
Qed.

Lemma bound_ge lo hi l y : ok_from lo hi l → used l y → y + 2 <= bound lo l.
Proof.
  revert lo. induction l as [|n l IH] using rev_ind; intros lo; [by rewrite used_nil|].
  rewrite ok_from_app, in_use_app, in_use_cons, used_nil. unfold bound. rewrite foldl_app_eq. simpl.
  intros [Hl (? & ? & _)] [Hu|[?|[]]]; [|lia]. specialize (IH _ Hl Hu). unfold bound in *. lia.
Qed.

(** All blocks of a run in use: the run lies in one range. *)
Lemma run_in_node lo hi l b e :
  ok_from lo hi l → b <= e → (∀ y, b <= y <= e → used l y) →
  ∃ l1 n l2, l = l1 ++ n :: l2 ∧ block_low n <= b ∧ e <= block_high n.
Proof.
  revert lo. induction l as [|n l IH]; intros lo Hok Hbe Hu.
  { exfalso. by eapply used_nil, (Hu b). }
  destruct Hok as (Hn & Hhi & Hok).
  destruct (decide (block_low n <= b ∧ b <= block_high n)) as [Hb|Hb].
  - exists [], n, l. split; [done|]. split; [lia|].
    destruct (decide (e <= block_high n)); [done|exfalso].
    assert (Hg : used (n :: l) (block_high n + 1)) by (apply Hu; lia).
    apply in_use_cons in Hg as [?|Hg]; [lia|]. apply (used_bounds _ _ _ _ Hok) in Hg. lia.
  - assert (Hbl : used l b).
    { assert (Hg : used (n :: l) b) by (apply Hu; lia). apply in_use_cons in Hg as [?|Hg]; [lia|done]. }
    assert (block_high n + 2 <= b) by (apply (used_bounds _ _ _ _ Hok) in Hbl; lia).
    destruct (IH _ Hok Hbe) as (l1 & m & l2 & -> & Hm).
    { intros y Hy. assert (Hg : used (n :: l) y) by auto. apply in_use_cons in Hg as [?|Hg]; [lia|done]. }
    by exists (n :: l1), m, l2.
Qed.

(** ** The invariant *)

Record wf (s : fs) : Prop := {
  wf_start : block_start s = 0;
  wf_end : 0 <= block_end s < 2 ^ 52;
  wf_ranges : ok_from 0 (block_end s) (block_inuse_head s);
  wf_free : num_free_blocks s = block_end s - sizes (block_inuse_head s);
  wf_nodes : num_blocknode_allocated s = Z.of_nat (length (block_inuse_head s))
}.

(** The parts of the state the allocator leaves alone, the memory aside: an error
    may make the file system read-only. *)
Definition same_device (s s' : fs) : Prop :=
  block_start s' = block_start s ∧ block_end s' = block_end s ∧
  (rdonly s = true → rdonly s' = true).

#[export] Instance same_device_preorder : PreOrder same_device.
Proof.
  split; [by intros s|]. intros s1 s2 s3 (H1 & H2 & H3) (H4 & H5 & H6). unfold same_device.
  split_and!; [congruence..|auto].
Qed.

(** Only the slab cache was asked. *)
Definition idle_step (s s' : fs) : Prop :=
  ∃ k, s' = Fs (block_inuse_head s) (block_start s) (block_end s) (num_free_blocks s)
              (num_blocknode_allocated s) (rdonly s) k (pm s).

Lemma idle_step_refl s : idle_step s s.
Proof. exists (slab_calls s). by destruct s. Qed.
Lemma idle_step_trans s1 s2 s3 : idle_step s1 s2 → idle_step s2 s3 → idle_step s1 s3.
Proof. intros [k1 ->] [k2 ->]. by exists k2. Qed.

(** The list after claiming [[lo, hi]] in the gap behind the head of [l]. *)
Record gap_filled (l : list pmfs_blocknode) (lo hi e : Z) (l' : list pmfs_blocknode) : Prop := {
  gf_ok : ∀ b, ok_from b e l → ok_from b e l';
  gf_used : ∀ y, used l' y ↔ used l y ∨ lo <= y <= hi;
  gf_sizes : sizes l' = sizes l + (hi - lo + 1);
  gf_cons : l' ≠ []
}.

Ltac word := rewrite ?wrap_small by lia.

(** How a claim changes the state: the list, the nodes counted so far. *)
Definition claim_state (s : fs) (l : list pmfs_blocknode) (nodes : Z) (k : nat) : fs :=
  Fs l (block_start s) (block_end s) (num_free_blocks s) nodes (rdonly s) k (pm s).

(** Runs the list operations at the head of the goal. *)
Ltac run_list :=
  unfold set_low, set_high, list_del, list_add_after, modify, set_inuse, claim_state;
  unfold mbind, M_bind, mret, M_ret;
  cbn [block_inuse_head PmfsBalloc.block_start block_end num_free_blocks
       num_blocknode_allocated rdonly slab_calls pm].

Section Gap.
Variable cfg : fs_cfg.

Lemma alloc_node_eq s :
  pmfs_alloc_blocknode cfg s =
  Ok (slab_ok cfg (slab_calls s),
      Fs (block_inuse_head s) (block_start s) (block_end s) (num_free_blocks s)
        (if slab_ok cfg (slab_calls s) then u64 (num_blocknode_allocated s + 1)
         else num_blocknode_allocated s) (rdonly s) (S (slab_calls s)) (pm s)).
Proof. done. Qed.

Lemma alter_head {A} (f : A → A) l1 x l2 : alter f (length l1) (l1 ++ x :: l2) = l1 ++ f x :: l2.
Proof. rewrite alter_app_r_alt by lia. by rewrite Nat.sub_diag. Qed.
Lemma alter_second {A} (f : A → A) l1 x y l2 :
  alter f (S (length l1)) (l1 ++ x :: y :: l2) = l1 ++ x :: f y :: l2.
Proof. rewrite alter_app_r_alt by lia. by replace (S (length l1) - length l1)%nat with 1%nat by lia. Qed.
Lemma delete_second {A} (l1 : list A) x y l2 :
  delete (S (length l1)) (l1 ++ x :: y :: l2) = l1 ++ x :: l2.
Proof.
  replace (l1 ++ x :: y :: l2) with ((l1 ++ [x]) ++ y :: l2) by (by rewrite <- app_assoc).
  replace (S (length l1)) with (length (l1 ++ [x])) by (rewrite length_app; simpl; lia).
  by rewrite delete_middle, <- app_assoc.
Qed.
Lemma add_behind {A} (l1 : list A) x y l2 :
  take (S (length l1)) (l1 ++ x :: l2) ++ y :: drop (S (length l1)) (l1 ++ x :: l2)
  = l1 ++ x :: y :: l2.
Proof.
  replace (l1 ++ x :: l2) with ((l1 ++ [x]) ++ l2) by (by rewrite <- app_assoc).
  replace (S (length l1)) with (length (l1 ++ [x])) by (rewrite length_app; simpl; lia).
  by rewrite take_app_length, drop_app_length, <- app_assoc.
Qed.

(** The claim fits the gap behind [n]. *)
Definition fits_gap (n : pmfs_blocknode) (l2 : list pmfs_blocknode) (e lo hi : Z) : Prop :=
  block_high n < lo ∧ lo <= hi ∧ hi < (next_node l2 e).2.

Lemma claim_gap_skip i n l2 e lo hi s :
  (next_node l2 e).2 <= hi →
  claim_gap cfg i n (next_node l2 e).1 (next_node l2 e).2 lo hi s = Ok (Skip, s).
Proof.
  intros H. unfold claim_gap. by destruct (Z.geb_spec hi (next_node l2 e).2); [|lia].
Qed.

(** What a claim that fits comes to: only a missing node stands in its way. *)
Definition claim_result (s : fs) (l1 : list pmfs_blocknode) (n : pmfs_blocknode)
    (l2 : list pmfs_blocknode) (lo hi : Z) (r : result (claim * fs)) : Prop :=
  (∃ s', r = Ok (NoNode, s') ∧ idle_step s s' ∧ slab_ok cfg (slab_calls s) = false) ∨
  ∃ b l' nodes k, r = Ok (Claimed b, claim_state s (l1 ++ l') nodes k) ∧
    gap_filled (n :: l2) lo hi (block_end s) l' ∧
    (if (b : bool) then nodes - 1 else nodes) =
      num_blocknode_allocated s + Z.of_nat (length l') - Z.of_nat (length (n :: l2)) ∧
    num_blocknode_allocated s <= nodes <= num_blocknode_allocated s + 1.

Lemma claim_new_node_result s l1 n l2 lo hi :
  block_inuse_head s = l1 ++ n :: l2 → ok_from (block_low n) (block_end s) (n :: l2) →
  0 <= num_blocknode_allocated s < 2 ^ 63 →
  block_high n + 1 < lo → lo <= hi → hi < block_end s → ok_from (hi + 2) (block_end s) l2 →
  claim_result s l1 n l2 lo hi (claim_new_node cfg (length l1) lo hi s).
Proof.
  intros Hl (_ & Hhi & _) Hn Hlo Hlh He Hl2. unfold claim_new_node.
  erewrite bind_Ok; [|apply alloc_node_eq].
  destruct (slab_ok cfg (slab_calls s)) eqn:Es; simpl; [right|left].
  - eexists false, (n :: BlockNode lo hi :: l2), _, _. rewrite wrap_small by lia.
    split; [|split].
    + run_list. by rewrite Hl, add_behind.
    + split; [|intros y; rewrite !in_use_cons; simpl; tauto|simpl; unfold size_of; simpl; lia|done].
      intros b (H1 & H2 & _). simpl. split_and!; [lia..|done].
    + simpl. lia.
  - eexists. split; [done|]. by split; [exists (S (slab_calls s))|].
Qed.

Lemma claim_grow_result s l1 n l2 lo hi :
  block_inuse_head s = l1 ++ n :: l2 → ok_from (block_low n) (block_end s) (n :: l2) →
  block_high n + 1 = lo → lo <= hi → hi < block_end s → ok_from (hi + 2) (block_end s) l2 →
  claim_result s l1 n l2 lo hi ((set_high (length l1) hi;; mret (Claimed false)) s).
Proof.
  intros Hl (Hn & _) Hlo Hlh He Hl2. right. eexists false, (BlockNode (block_low n) hi :: l2), _, _.
  split; [|split].
  - run_list. by rewrite Hl, alter_head.
  - split; [|intros y; rewrite !in_use_cons; simpl; intuition lia|simpl; unfold size_of; simpl; lia|done].
    intros b (H1 & H2 & _). simpl. split_and!; [lia..|done].
  - simpl. lia.
Qed.

(** The two claims that reach the next node: the gap is filled, or a hole stays. *)
Lemma claim_join_result s l1 n m l3 lo hi :
  block_inuse_head s = l1 ++ n :: m :: l3 → ok_from (block_low n) (block_end s) (n :: m :: l3) →
  block_high n + 1 = lo → lo <= hi → hi + 1 = block_low m →
  claim_result s l1 n (m :: l3) lo hi
    ((set_high (length l1) (block_high m);; list_del (S (length l1));; mret (Claimed true)) s).
Proof.
  intros Hl (Hn & _ & Hm & Hme & Hl3) Hlo Hlh Hhi. right.
  eexists true, (BlockNode (block_low n) (block_high m) :: l3), _, _. split; [|split].
  - run_list. by rewrite Hl, alter_head, delete_second.
  - split; [|intros y; rewrite !in_use_cons; simpl; intuition lia|simpl; unfold size_of; simpl; lia|done].
    intros b (H1 & H2 & _). simpl. split_and!; [lia..|done].
  - simpl. lia.
Qed.

Lemma claim_before_result s l1 n m l3 lo hi :
  block_inuse_head s = l1 ++ n :: m :: l3 → ok_from (block_low n) (block_end s) (n :: m :: l3) →
  block_high n + 1 < lo → lo <= hi → hi + 1 = block_low m →
  claim_result s l1 n (m :: l3) lo hi ((set_low (S (length l1)) lo;; mret (Claimed false)) s).
Proof.
  intros Hl (Hn & _ & Hm & Hme & Hl3) Hlo Hlh Hhi. right.
  eexists false, (n :: BlockNode lo (block_high m) :: l3), _, _. split; [|split].
  - run_list. by rewrite Hl, alter_second.
  - split; [|intros y; rewrite !in_use_cons; simpl; intuition lia|simpl; unfold size_of; simpl; lia|done].
    intros b (H1 & H2 & _). simpl. split_and!; [lia..|done].
  - simpl. lia.
Qed.

Lemma claim_gap_fits s l1 n l2 lo hi :
  block_inuse_head s = l1 ++ n :: l2 → ok_from (block_low n) (block_end s) (n :: l2) →
  0 <= block_low n → block_end s <= 2 ^ 52 → 0 <= num_blocknode_allocated s < 2 ^ 63 →
  fits_gap n l2 (block_end s) lo hi →
  claim_result s l1 n l2 lo hi
    (claim_gap cfg (length l1) n (next_node l2 (block_end s)).1 (next_node l2 (block_end s)).2 lo hi s).
Proof.
  intros Hl Hok H0 He Hnodes (Hlo & Hlh & Hnext). pose proof Hok as (Hn & Hhi & Hl2).
  unfold claim_gap. destruct (Z.geb_spec hi (next_node l2 (block_end s)).2); [lia|].
  destruct l2 as [|m l3]; simpl in *.
  - rewrite !wrap_small by lia.
    destruct (Z.eqb_spec lo (block_high n + 1)), (Z.eqb_spec hi (block_end s - 1)); simpl.
    + by apply claim_grow_result.
    + destruct (Z.ltb_spec hi (block_end s - 1)); [by apply claim_grow_result|lia].
    + destruct (Z.gtb_spec lo (block_high n + 1)); [|lia]. apply claim_new_node_result; try done; lia.
    + destruct (Z.gtb_spec lo (block_high n + 1)); [|lia].
      destruct (Z.ltb_spec hi (block_end s - 1)); [|lia]. apply claim_new_node_result; try done; lia.
  - destruct Hl2 as (Hm & Hme & Hl3). rewrite !wrap_small by lia.
    assert (Hrest : hi + 2 <= block_low m → ok_from (hi + 2) (block_end s) (m :: l3)).
    { intros. simpl. split_and!; [lia..|done]. }
    destruct (Z.eqb_spec lo (block_high n + 1)), (Z.eqb_spec hi (block_low m - 1)); simpl.
    + apply claim_join_result; try done; lia.
    + destruct (Z.ltb_spec hi (block_low m - 1)); [|lia].
      apply claim_grow_result; try done; [lia..|]. apply Hrest. lia.
    + destruct (Z.gtb_spec lo (block_high n + 1)); [|lia]. apply claim_before_result; try done; lia.
    + destruct (Z.gtb_spec lo (block_high n + 1)); [|lia].
      destruct (Z.ltb_spec hi (block_low m - 1)); [|lia].
      apply claim_new_node_result; try done; [lia..|]. apply Hrest. lia.
Qed.
End Gap.

(** ** The loops *)

(** [n] is one of the allocation sizes. *)
Definition pow2 (n : Z) : Prop := ∃ k, 0 <= k <= 18 ∧ n = 2 ^ k.

Lemma pow2_pos n : pow2 n → 1 <= n <= 2 ^ 18.
Proof.
  intros (k & Hk & ->). split; [change 1 with (2 ^ 0)|]; apply Z.pow_le_mono_r; lia.
Qed.

Lemma numblocks_pow2 btype : pow2 (pmfs_get_numblocks btype).
Proof.
  unfold pmfs_get_numblocks, pow2.
  destruct (_ =? _); [by exists 0|]. destruct (_ =? _); [by exists 9|by exists 18].
Qed.

(** Rounding [h + 1] up to a multiple of [n]. *)
Lemma round_up h n :
  pow2 n → 0 <= h < 2 ^ 60 →
  let b := Z.land (u64 (h + n)) (Z.lnot (n - 1)) in
  h < b <= h + n ∧ (n | b) ∧ ∀ b', h < b' → (n | b') → b <= b'.
Proof.
  intros Hp Hh b. pose proof (pow2_pos n Hp). destruct Hp as (k & Hk & ->).
  unfold b. rewrite wrap_small, land_lnot_mask by lia.
  pose proof (Z.mod_pos_bound (h + 2 ^ k) (2 ^ k) ltac:(lia)).
  pose proof (Z.div_mod (h + 2 ^ k) (2 ^ k) ltac:(lia)) as E.
  set (q := (h + 2 ^ k) / 2 ^ k) in *. set (r := (h + 2 ^ k) mod 2 ^ k) in *.
  split; [lia|]. split; [exists q; lia|]. intros b' Hb' [c ->].
  assert (q - 1 < c) by nia. nia.
Qed.

(** An aligned run of [n] free blocks behind the start of the first range. *)
Definition free_run (l : list pmfs_blocknode) (e b n : Z) : Prop :=
  (∃ m, head l = Some m ∧ block_low m <= b) ∧ b + n <= e ∧ (n | b) ∧
  ∀ y, b <= y < b + n → ¬ used l y.

Lemma free_run_tail n l e b k :
  ok_from (block_low n) e (n :: l) → 1 <= k → free_run (n :: l) e b k →
  block_high n < b ∧ (b + k <= (next_node l e).2 ∨ free_run l e b k).
Proof.
  intros (Hn & _ & Hl) Hk ((m & [= <-] & Hm) & Hbe & Ha & Hfree).
  assert (Hb : block_high n < b).
  { destruct (Z.lt_ge_cases (block_high n) b); [done|]. exfalso.
    apply (Hfree b); [lia|]. apply in_use_cons. left. lia. }
  split; [done|]. destruct l as [|x l]; simpl; [by left|]. destruct Hl as (Hx & _).
  destruct (Z.le_gt_cases (b + k) (block_low x)) as [?|Hg]; [by left|right].
  assert (block_low x <= b).
  { destruct (Z.le_gt_cases (block_low x) b); [done|]. exfalso.
    apply (Hfree (block_low x)); [lia|]. rewrite !in_use_cons. right. left. lia. }
  split_and!; [by exists x|done|done|]. intros y Hy Hu. apply (Hfree y Hy). apply in_use_cons. by right.
Qed.

Lemma gap_filled_cons m l lo hi e l' : gap_filled l lo hi e l' → gap_filled (m :: l) lo hi e (m :: l').
Proof.
  intros [H1 H2 H3 H4]. split; [|intros y; rewrite !in_use_cons, H2; tauto|simpl; lia|done].
  intros b (Hm & He & Hl). simpl. split_and!; [lia..|by apply H1].
Qed.

Section Loops.
Variable cfg : fs_cfg.

(** The list of [s] from position [length l1] on, within the bounds of the device. *)
Record suffix_ok (s : fs) (l1 rest : list pmfs_blocknode) : Prop := {
  sf_list : block_inuse_head s = l1 ++ rest;
  sf_end : 0 <= block_end s < 2 ^ 52;
  sf_ok : ok_from 0 (block_end s) (l1 ++ rest);
  sf_nodes : num_blocknode_allocated s = Z.of_nat (length (l1 ++ rest))
}.

Lemma wf_suffix s l1 rest : wf s → block_inuse_head s = l1 ++ rest → suffix_ok s l1 rest.
Proof. intros [] E. split; [done..|congruence|congruence]. Qed.

Lemma suffix_next s l1 n rest : suffix_ok s l1 (n :: rest) → suffix_ok s (l1 ++ [n]) rest.
Proof. intros []. split; rewrite <- ?app_assoc; done. Qed.

Lemma ok_from_suffix lo hi l1 n l :
  0 <= lo → ok_from lo hi (l1 ++ n :: l) → 0 <= block_low n ∧ ok_from (block_low n) hi (n :: l).
Proof.
  intros Hlo. revert lo Hlo. induction l1 as [|x l1 IH]; intros lo Hlo; simpl.
  - intros (? & ? & ?). split_and!; [lia..|done].
  - intros (? & ? & H). apply (IH (block_high x + 2)); [lia|done].
Qed.

Lemma suffix_head s l1 n rest :
  suffix_ok s l1 (n :: rest) →
  0 <= block_low n ∧ ok_from (block_low n) (block_end s) (n :: rest) ∧
  0 <= num_blocknode_allocated s < 2 ^ 63 ∧ block_high n < 2 ^ 52.
Proof.
  intros [Hl He Hok Hn]. destruct (ok_from_suffix 0 (block_end s) l1 n rest) as [H0 H1]; [done..|].
  pose proof (sizes_bounds _ _ _ Hok ltac:(lia)). destruct H1 as (? & ? & ?).
  split_and!; try done; lia.
Qed.

(** The state after a claim that succeeded, the counter of free blocks aside. *)
Definition claimed (s : fs) (l1 rest : list pmfs_blocknode) (lo hi : Z) (nodes : Z) (s' : fs) : Prop :=
  ∃ l' k, s' = claim_state s (l1 ++ l') nodes k ∧ gap_filled rest lo hi (block_end s) l'.

Lemma claimed_next s l1 n rest lo hi nodes s' :
  claimed s (l1 ++ [n]) rest lo hi nodes s' → claimed s l1 (n :: rest) lo hi nodes s'.
Proof.
  intros (l' & k & -> & Hf). exists (n :: l'), k. rewrite <- app_assoc.
  split; [done|]. by apply gap_filled_cons.
Qed.

(** The outcome of the search of [pmfs_new_block]. *)
Definition search_result (s : fs) (l1 rest : list pmfs_blocknode) (n : Z)
    (r : result (option Z * fs)) : Prop :=
  (∃ s', r = Ok (None, s') ∧ idle_step s s' ∧
    ((∀ b, ¬ free_run rest (block_end s) b n) ∨ slab_ok cfg (slab_calls s) = false)) ∨
  ∃ b s', r = Ok (Some b, s') ∧ free_run rest (block_end s) b n ∧
    claimed s l1 rest b (b + n - 1) (Z.of_nat (length (block_inuse_head s'))) s' ∧
    ∀ b', free_run rest (block_end s) b' n → b <= b'.

Lemma search_next s l1 m rest n r :
  ok_from (block_low m) (block_end s) (m :: rest) → 1 <= n →
  (∀ b, free_run (m :: rest) (block_end s) b n → free_run rest (block_end s) b n) →
  search_result s (l1 ++ [m]) rest n r → search_result s l1 (m :: rest) n r.
Proof.
  intros Hok Hn Hall [(s' & -> & Hid & Hno)|(b & s' & -> & Hrun & Hc & Hmin)]; [left|right].
  - exists s'. split_and!; [done..|]. destruct Hno as [Hno|Hno]; [left|by right].
    intros b Hb. by apply (Hno b), Hall.
  - exists b, s'. split_and!; [done| |by apply claimed_next|intros b' Hb'; by apply Hmin, Hall].
    destruct Hrun as ((x & Hx & Hxb) & Hbe & Ha & Hfree). destruct rest as [|y rest]; [done|].
    destruct Hok as (Hm & _ & Hy & _). injection Hx as ->.
    split_and!; [exists m; split; [done|lia]|done..|].
    intros z Hz Hu. apply in_use_cons in Hu as [?|Hu]; [lia|by apply (Hfree z)].
Qed.

Lemma claim_search s l1 m rest n b r :
  suffix_ok s l1 (m :: rest) → pow2 n → free_run (m :: rest) (block_end s) b n →
  (∀ b', free_run (m :: rest) (block_end s) b' n → b <= b') →
  claim_result cfg s l1 m rest b (b + n - 1) r →
  search_result s l1 (m :: rest) n
    (match r with
     | Ok (Claimed freed, s) => (when freed node_freed;; mret (Some b)) s
     | Ok (_, s) => Ok (None, s)
     | Bug => Bug | OutOfFuel => OutOfFuel
     end).
Proof.
  intros Hs Hp Hrun Hmin [(s' & -> & Hid & Hslab)|(f & l' & nodes & k & -> & Hf & Hnodes & Hge)].
  { left. exists s'. by split_and!; [| |right]. }
  right. destruct (suffix_head _ _ _ _ Hs) as (_ & _ & Hn & _).
  assert (Hlen : num_blocknode_allocated s = Z.of_nat (length l1) + Z.of_nat (length (m :: rest))).
  { rewrite (sf_nodes _ _ _ Hs), length_app. lia. }
  assert (Hlen' : Z.of_nat (length (l1 ++ l')) = if (f : bool) then nodes - 1 else nodes)
    by (rewrite length_app; lia).
  assert (Hl' : (0 < length l')%nat) by (destruct l'; [by destruct Hf|simpl; lia]).
  exists b, (claim_state s (l1 ++ l') (Z.of_nat (length (l1 ++ l'))) k).
  split_and!; [|done|by exists l', k|done]. simpl in Hnodes. destruct f; [|by rewrite Hlen'].
  rewrite Hlen', <- (wrap_small 64 (nodes - 1)) by lia. done.
Qed.

Lemma new_block_loop_result rest : ∀ s l1 n,
  suffix_ok s l1 rest → pow2 n →
  search_result s l1 rest n (new_block_loop cfg rest (length l1) n s).
Proof.
  induction rest as [|m rest IH]; intros s l1 n Hs Hp; simpl.
  { left. exists s. split_and!; [done|apply idle_step_refl|left]. by intros b ((? & ? & _) & _). }
  pose proof (pow2_pos n Hp). destruct (suffix_head _ _ _ _ Hs) as (H0 & Hok & Hn & Hlt).
  destruct (round_up (block_high m) n Hp) as (Hb & Ha & Hmin); [destruct Hok; lia|].
  set (b := Z.land (u64 (block_high m + n)) (Z.lnot (n - 1))) in *.
  clearbody b. pose proof Hok as ((_ & Hm0) & _).
  rewrite gets_bind. rewrite (surjective_pairing (next_node rest (block_end s))).
  rewrite (wrap_small 64 (b + n - 1)) by lia.
  assert (Hend : (next_node rest (block_end s)).2 <= block_end s).
  { destruct Hok as (_ & ? & Hr). destruct rest; simpl; [done|]. destruct Hr as (? & ? & _). lia. }
  destruct (Z.le_gt_cases (next_node rest (block_end s)).2 (b + n - 1)) as [Hsk|Hfit].
  - erewrite bind_Ok; [|by apply claim_gap_skip]. cbv iota.
    replace (S (length l1)) with (length (l1 ++ [m])) by (rewrite length_app; simpl; lia).
    apply search_next; [done|lia| |apply IH; [by apply suffix_next|done]].
    intros b' Hb'. destruct (free_run_tail m rest (block_end s) b' n Hok ltac:(lia) Hb') as [Hgt [Hle|?]]; [|done].
    destruct Hb' as (_ & _ & Ha' & _). specialize (Hmin b' Hgt Ha'). lia.
  - assert (Hrun : free_run (m :: rest) (block_end s) b n).
    { split_and!; [exists m; split; [done|destruct Hok; lia]|lia|done|].
      intros y Hy Hu. apply in_use_cons in Hu as [?|Hu]; [lia|]. destruct rest as [|x rest].
      { by apply used_nil in Hu. }
      destruct Hok as (_ & _ & Hx & Hxe & Hr). simpl in Hfit.
      apply in_use_cons in Hu as [?|Hu]; [lia|]. apply (used_bounds _ _ _ _ Hr) in Hu. lia. }
    pose proof (claim_gap_fits cfg s l1 m rest b (b + n - 1) (sf_list _ _ _ Hs) Hok H0
      ltac:(by destruct Hs; lia) Hn ltac:(unfold fits_gap; lia)) as Hc.
    pose proof Hc as Hr. apply (claim_search _ _ _ _ _ _ _ Hs Hp Hrun) in Hc.
    + destruct Hr as [(s' & E & _)|(f & l' & nodes & k & E & _)];
        rewrite E in Hc; (erewrite bind_Ok; [|exact E]); exact Hc.
    + intros b' Hb'. destruct (free_run_tail m rest (block_end s) b' n Hok ltac:(lia) Hb') as [Hgt _].
      destruct Hb' as (_ & _ & Ha' & _). by apply Hmin.
Qed.
End Loops.

Section InsertFree.
Variable cfg : fs_cfg.

(** The outcome of inserting a free run whose place is known. *)
Definition insert_result (s : fs) (l1 rest : list pmfs_blocknode) (lo hi : Z)
    (r : result (option bool * fs)) : Prop :=
  (∃ s', r = Ok (None, s') ∧ idle_step s s' ∧ slab_ok cfg (slab_calls s) = false) ∨
  ∃ b s' nodes, r = Ok (Some b, s') ∧ claimed s l1 rest lo hi nodes s' ∧
    (if (b : bool) then nodes - 1 else nodes) = Z.of_nat (length (block_inuse_head s')) ∧
    nodes <= 2 ^ 63.

Lemma claim_insert s l1 m rest lo hi r :
  suffix_ok s l1 (m :: rest) → claim_result cfg s l1 m rest lo hi r →
  insert_result s l1 (m :: rest) lo hi
    (match r with
     | Ok (Claimed freed, s) => Ok (Some freed, s)
     | Ok (_, s) => Ok (None, s)
     | Bug => Bug | OutOfFuel => OutOfFuel
     end).
Proof.
  intros Hs [(s' & -> & ? & ?)|(f & l' & nodes & k & -> & Hf & Hnodes & Hge)]; [left; eauto|right].
  destruct (suffix_head _ _ _ _ Hs) as (_ & _ & Hn & _).
  exists f. eexists. exists nodes. split_and!; [done|by exists l', k| |lia].
  rewrite (sf_nodes _ _ _ Hs) in Hnodes. unfold claim_state. simpl. simpl in Hnodes.
  rewrite !length_app in *. simpl in *. lia.
Qed.

Lemma insert_loop_result rest : ∀ s l1 lo hi,
  suffix_ok s l1 rest → (∃ m, head rest = Some m ∧ block_low m <= lo) →
  lo <= hi < block_end s → (∀ y, lo <= y <= hi → ¬ used rest y) →
  insert_result s l1 rest lo hi (insert_loop cfg rest (length l1) lo hi s).
Proof.
  induction rest as [|m rest IH]; intros s l1 lo hi Hs (x & Hx & Hxlo) Hhi Hfree; simplify_eq/=.
  destruct (suffix_head _ _ _ _ Hs) as (H0 & Hok & Hn & Hlt).
  rewrite gets_bind, (surjective_pairing (next_node rest (block_end s))).
  destruct (free_run_tail x rest (block_end s) lo 1 Hok ltac:(lia)) as [Hgt _].
  { split_and!; [by exists x|lia|apply Z.divide_1_l|]. intros y Hy. apply Hfree. lia. }
  destruct (Z.le_gt_cases (next_node rest (block_end s)).2 hi) as [Hsk|Hfit].
  - erewrite bind_Ok; [|by apply claim_gap_skip]. cbv iota.
    replace (S (length l1)) with (length (l1 ++ [x])) by (rewrite length_app; simpl; lia).
    destruct rest as [|z rest]; simpl in Hsk; [lia|].
    assert (block_low z <= lo).
    { destruct (Z.le_gt_cases (block_low z) lo); [done|exfalso]. destruct Hok as (_ & _ & Hz & _).
      apply (Hfree (block_low z)); [lia|]. rewrite !in_use_cons. right. left. lia. }
    assert (Hi : insert_result s (l1 ++ [x]) (z :: rest) lo hi
      (insert_loop cfg (z :: rest) (length (l1 ++ [x])) lo hi s)).
    { apply IH; [by apply suffix_next|by exists z|done|]. intros y Hy Hu.
      apply (Hfree y Hy). apply in_use_cons. by right. }
    destruct Hi as [?|(b & s' & nodes & E & Hc & ?)]; [by left|right].
    exists b, s', nodes. split_and!; [done|by apply claimed_next|by destruct_and?..].
  - pose proof (claim_gap_fits cfg s l1 x rest lo hi (sf_list _ _ _ Hs) Hok H0
      ltac:(by destruct Hs; lia) Hn ltac:(unfold fits_gap; lia)) as Hc.
    pose proof Hc as Hr. apply (claim_insert _ _ _ _ _ _ _ Hs) in Hc.
    destruct Hr as [(s' & E & _)|(f & l' & nodes & k & E & _)];
      rewrite E in Hc; (erewrite bind_Ok; [|exact E]); exact Hc.
Qed.

(** ** Releasing a run *)

Record released (l : list pmfs_blocknode) (lo hi e : Z) (l' : list pmfs_blocknode) : Prop := {
  rl_ok : ∀ b, ok_from b e l → ok_from b e l';
  rl_used : ∀ b, ok_from b e l → ∀ y, used l' y ↔ used l y ∧ ¬ lo <= y <= hi;
  rl_sizes : sizes l' = sizes l - (hi - lo + 1)
}.

Lemma released_cons m l lo hi e l' :
  block_high m < lo → released l lo hi e l' → released (m :: l) lo hi e (m :: l').
Proof.
  intros Hm [H1 H2 H3]. split; [| |simpl; lia].
  - intros b (Hb & He & Hl). simpl. split_and!; [lia..|by apply H1].
  - intros b (Hb & He & Hl) y. rewrite !in_use_cons, (H2 _ Hl). intuition lia.
Qed.

(** A hint that points to a node. *)
Definition hint_ok (s : fs) (h : option nat) : Prop :=
  ∀ i, h = Some i → (i < length (block_inuse_head s))%nat.

(** The outcome of releasing [[lo, hi]]: done, no node for the second half, or
    not a run in use. *)
Definition free_result (s : fs) (l1 rest : list pmfs_blocknode) (lo hi : Z) (hint : option nat)
    (r : result (option nat * fs)) : Prop :=
  ((∀ y, lo <= y <= hi → used rest y) ∧
   ((∃ h l' k, r = Ok (h, Fs (l1 ++ l') (block_start s) (block_end s)
                           (u64 (num_free_blocks s + (hi - lo + 1)))
                           (Z.of_nat (length (l1 ++ l'))) (rdonly s) k (pm s)) ∧
      released rest lo hi (block_end s) l' ∧
      ∀ i, h = Some i → (i < length (l1 ++ l'))%nat) ∨
    ∃ s', r = Ok (hint, s') ∧ idle_step s s' ∧ slab_ok cfg (slab_calls s) = false)) ∨
  (¬ (∀ y, lo <= y <= hi → used rest y) ∧
   r = (pmfs_error_mng cfg;; mret hint) s).

Lemma free_next s l1 m rest lo hi hint r :
  ok_from (block_low m) (block_end s) (m :: rest) → block_high m < lo → lo <= hi →
  free_result s (l1 ++ [m]) rest lo hi hint r → free_result s l1 (m :: rest) lo hi hint r.
Proof.
  intros Hok Hm Hlh [[Hu Hr]|[Hu Hr]]; [left|right].
  - split; [intros y Hy; apply in_use_cons; right; by apply Hu|].
    destruct Hr as [(h & l' & k & -> & Hrel & Hh)|?]; [left|by right].
    exists h, (m :: l'), k. rewrite <- app_assoc in *. split_and!; [done|by apply released_cons|done].
  - split; [|done]. intros H. apply Hu. intros y Hy. specialize (H y Hy).
    apply in_use_cons in H as [?|?]; [lia|done].
Qed.

(** A range that does not hold the run, and none behind it does. *)
Lemma free_miss rest lo e b : ok_from b e rest → lo < b → ¬ used rest lo.
Proof. intros Hok Hlt Hu. apply (used_bounds _ _ _ _ Hok) in Hu. lia. Qed.

Lemma free_loop_miss rest : ∀ s i b n lo hi hint,
  ok_from b (block_end s) rest → lo < b → 0 <= lo <= hi →
  free_loop cfg rest i n lo hi hint s = (pmfs_error_mng cfg;; mret hint) s.
Proof.
  induction rest as [|m rest IH]; intros s i b n lo hi hint Hok Hlt Hlo; [done|].
  destruct Hok as (Hm & _ & Hok). simpl.
  destruct (Z.gtb_spec lo (block_high m)); [lia|].
  destruct (Z.eqb_spec lo (block_low m)); [lia|]. simpl.
  destruct (Z.gtb_spec lo (block_low m)); [lia|]. simpl. apply (IH _ _ (block_high m + 2)); [done|lia..].
Qed.

(** The list after releasing a run inside [m]. *)
Definition cut (m : pmfs_blocknode) (lo hi : Z) : list pmfs_blocknode :=
  (if decide (block_low m < lo) then [BlockNode (block_low m) (lo - 1)] else []) ++
  (if decide (hi < block_high m) then [BlockNode (hi + 1) (block_high m)] else []).

Lemma cut_released m rest lo hi e :
  block_low m <= lo → lo <= hi → hi <= block_high m → released (m :: rest) lo hi e (cut m lo hi ++ rest).
Proof.
  intros Hlo Hlh Hhi. unfold cut. split.
  - intros b (H1 & H2 & H3). repeat case_decide; simpl; repeat split; try lia;
      (eapply ok_from_mono; [|exact H3]); lia.
  - intros b (H1 & H2 & H3) y. assert (used rest y → block_high m + 2 <= y)
      by (intros Hu; apply (used_bounds _ _ _ _ H3) in Hu; lia).
    repeat case_decide; simpl; rewrite !in_use_cons; simpl; intuition lia.
  - repeat case_decide; simpl; unfold size_of; simpl; lia.
Qed.

Lemma free_hit s l1 m rest lo hi hint :
  suffix_ok s l1 (m :: rest) → block_low m <= lo → lo <= hi → hi <= block_high m →
  free_result s l1 (m :: rest) lo hi hint
    (free_loop cfg (m :: rest) (length l1) (hi - lo + 1) lo hi hint s).
Proof.
  intros Hs Hlo Hlh Hhi. destruct (suffix_head _ _ _ _ Hs) as (H0 & Hok & Hn & Hlt).
  pose proof (cut_released m rest lo hi (block_end s) Hlo Hlh Hhi) as Hrel.
  pose proof (sf_list _ _ _ Hs) as Hl. pose proof (sf_nodes _ _ _ Hs) as Hnodes.
  left. split; [intros y Hy; apply in_use_cons; left; lia|].
  simpl. destruct (Z.gtb_spec lo (block_high m)); [lia|]. unfold cut in Hrel.
  destruct (Z.eqb_spec lo (block_low m)) as [E1|E1], (Z.eqb_spec hi (block_high m)) as [E2|E2];
    simpl; repeat (case_decide; try lia).
  - left. do 3 eexists. split_and!; [| exact Hrel|].
    + unfold pmfs_next_blocknode, node_freed, add_free, set_num_nodes, set_num_free.
      rewrite gets_bind. run_list. rewrite Hl, delete_middle. do 3 f_equal.
      rewrite Hnodes, wrap_small; rewrite !length_app in *; simpl in *; lia.
    + intros i. case_decide as Hd; simpl; [|done]. intros [= <-].
      rewrite length_app in *. simpl in *. lia.
  - destruct (Z.ltb_spec hi (block_high m)); [|lia]. left. do 3 eexists. split_and!; [|exact Hrel|].
    + unfold add_free, set_num_free. run_list. rewrite Hl, alter_head, wrap_small by lia. simpl.
      do 3 f_equal. rewrite Hnodes, !length_app. simpl. lia.
    + intros i [= <-]. rewrite length_app. simpl. lia.
  - destruct (Z.gtb_spec lo (block_low m)); [|lia]. simpl. left. do 3 eexists. split_and!; [|exact Hrel|].
    + unfold pmfs_next_blocknode, add_free, set_num_free, gets. run_list.
      rewrite Hl, alter_head, wrap_small by lia. simpl. do 3 f_equal.
      rewrite Hnodes, !length_app. simpl. lia.
    + intros i. rewrite !length_app. simpl. case_decide; [|done]. intros [= <-]. done.
  - destruct (Z.gtb_spec lo (block_low m)), (Z.ltb_spec hi (block_high m)); try lia. simpl.
    erewrite bind_Ok; [|apply alloc_node_eq].
    destruct (slab_ok cfg (slab_calls s)) eqn:Es; simpl; [left|right].
    + do 3 eexists. split_and!; [|exact Hrel|].
      * unfold add_free, set_num_free. run_list.
        rewrite Hl, alter_head, add_behind, (wrap_small 64 (lo - 1)), (wrap_small 64 (hi + 1)),
          (wrap_small 64 (_ + 1)) by lia. simpl. do 3 f_equal.
        rewrite Hnodes, !length_app. simpl. lia.
      * intros i [= <-]. rewrite length_app. simpl. lia.
    + eexists. split; [done|]. by split; [exists (S (slab_calls s))|].
Qed.

Lemma free_loop_result rest : ∀ s l1 lo hi hint,
  suffix_ok s l1 rest → 0 <= lo <= hi →
  free_result s l1 rest lo hi hint (free_loop cfg rest (length l1) (hi - lo + 1) lo hi hint s).
Proof.
  induction rest as [|m rest IH]; intros s l1 lo hi hint Hs Hlo.
  { right. split; [|done]. intros H. apply (used_nil lo), H. lia. }
  destruct (suffix_head _ _ _ _ Hs) as (H0 & Hok & Hn & Hlt). pose proof Hok as (Hm & Hme & Hrest).
  destruct (decide (block_high m < lo)) as [Hgt|Hle].
  - simpl. destruct (Z.gtb_spec lo (block_high m)); [|lia]. replace (S (length l1)) with (length (l1 ++ [m])) by (rewrite length_app; simpl; lia).
    apply free_next; [done|lia..|]. apply IH; [by apply suffix_next|lia].
  - destruct (decide (block_low m <= lo ∧ hi <= block_high m)) as [[? ?]|Hno]; [apply free_hit; (done || lia)|].
    right. assert (Hmiss : ∀ i, free_loop cfg rest i (hi - lo + 1) lo hi hint s = (pmfs_error_mng cfg;; mret hint) s).
    { intros i. by apply (free_loop_miss rest s i (block_high m + 2)); [|lia..]. }
    split.
    + intros Hu. assert (Hl : used (m :: rest) lo) by (apply Hu; lia).
      apply in_use_cons in Hl as [Hl|Hl]; [|by apply (used_bounds _ _ _ _ Hrest) in Hl; lia].
      assert (Hh : used (m :: rest) (block_high m + 1)) by (apply Hu; lia).
      apply in_use_cons in Hh as [?|Hh]; [lia|]. apply (used_bounds _ _ _ _ Hrest) in Hh. lia.
    + simpl. destruct (Z.gtb_spec lo (block_high m)); [lia|].
      destruct (Z.eqb_spec lo (block_low m)), (Z.eqb_spec hi (block_high m)); simpl; try lia;
        destruct (Z.gtb_spec lo (block_low m)), (Z.ltb_spec hi (block_high m)); simpl; try lia; apply Hmiss.
Qed.
End InsertFree.
