(* ===== verification/PmfsBallocMain.v ===== *)
(** * PMFS: the properties of the block allocator *)

From stdpp Require Import base list gmap.
From Stdlib Require Import ZArith Lia.
From coqutil Require Import Byte Word.LittleEndianList.
From S2P Require Import Prelude PMem NovaBase PmfsJournal PmfsBalloc PmfsBallocProofs.

Local Open Scope Z_scope.

Section Main.
Variable cfg : fs_cfg.

Lemma wf_idle s s' : wf s → idle_step s s' → wf s'.
Proof. intros [] [k ->]. by split. Qed.

(** A claim, with its blocks counted off. *)
Lemma claimed_wf s lo hi s' :
  wf s → claimed s [] (block_inuse_head s) lo hi (Z.of_nat (length (block_inuse_head s'))) s' →
  lo <= hi →
  let s'' := set_num_free s' (u64 (num_free_blocks s' - (hi - lo + 1))) in
  wf s'' ∧ (∀ y, used (block_inuse_head s'') y ↔ used (block_inuse_head s) y ∨ lo <= y <= hi) ∧
  num_free_blocks s'' = num_free_blocks s - (hi - lo + 1) ∧ same_device s s'' ∧ pm s'' = pm s ∧
  block_inuse_head s'' ≠ [].
Proof.
  intros [W1 W2 W3 W4 W5] (l' & k & Es & [F1 F2 F3 F4]) Hlh s''.
  assert (El : block_inuse_head s' = l') by (by rewrite Es). rewrite El in Es.
  pose proof (sizes_bounds _ _ _ (F1 0 W3) ltac:(lia)) as Hsz.
  assert (Ef : num_free_blocks s'' = num_free_blocks s - (hi - lo + 1)).
  { unfold s''. rewrite Es. simpl. apply wrap_small. rewrite W4. lia. }
  split_and!; try exact Ef; unfold s''; rewrite Es; simpl; try done.
  split; simpl; [done|done|by apply F1| |done].
  unfold s'' in Ef. rewrite Es in Ef. simpl in Ef. rewrite Ef, F3, W4. lia.
Qed.

(** The blocks of a run as addresses. *)
Definition run_bytes (b n : Z) : Z → Prop := in_range (4096 * b) (4096 * n).

(** What [zero] does: the run is filled with zeroes, by stores to it only. *)
Definition zeroed (b n : Z) (c c' : cpu) : Prop :=
  ∃ es, c' = log_state c es ∧ stores_in (run_bytes b n) es ∧ Forall ev_ok es ∧
    ∀ m x, run_bytes b n x → apply_events m es !!! x = Byte.x00.

Lemma zero_size btype :
  (if btype =? PMFS_BLOCK_TYPE_4K then Z.shiftl 1 12
   else if btype =? PMFS_BLOCK_TYPE_2M then Z.shiftl 1 21 else Z.shiftl 1 30)
  = 4096 * pmfs_get_numblocks btype.
Proof. unfold pmfs_get_numblocks. destruct (_ =? _); [done|]. by destruct (_ =? _). Qed.

Lemma pmfs_block_off_eq b : 0 <= b < 2 ^ 52 → pmfs_get_block_off b = 4096 * b.
Proof.
  intros Hb. unfold pmfs_get_block_off, PAGE_SHIFT.
  rewrite Z.shiftl_mul_pow2, wrap_small by lia. change (2 ^ 12) with 4096. lia.
Qed.

Lemma zero_run b n s :
  0 < b → pow2 n → b + n <= 2 ^ 52 →
  ∃ c, lift (bp ← deref (pmfs_get_block (pmfs_get_block_off b)); memset_nt bp 0 (4096 * n)) s
       = Ok ((), set_pm s c) ∧ zeroed b n (pm s) c.
Proof.
  intros Hb Hp He. pose proof (pow2_pos n Hp). rewrite pmfs_block_off_eq by lia.
  unfold pmfs_get_block. destruct (Z.eqb_spec (4096 * b) 0); [lia|]. eexists. split; [done|].
  assert (Hd : (4096 * b) mod 8 = 0)
    by (replace (4096 * b) with (512 * b * 8) by lia; apply Z.mod_mul; lia).
  assert (Hlen : 0 <= 4096 * n < 2 ^ 32 ∧ (4096 * n) mod 64 = 0)
    by (split; [lia|]; replace (4096 * n) with (64 * n * 64) by lia; apply Z.mod_mul; lia).
  eexists. split_and!; [done|by apply fill_in|by apply fill_ok|].
  intros m x Hx. by apply (fill_zero (4096 * b) (4096 * n)).
Qed.

(** Allocation of an aligned run, in every case. *)
Lemma new_block_cases blocknr btype zero s :
  wf s →
  let n := pmfs_get_numblocks btype in
  (∃ s', pmfs_new_block cfg blocknr btype zero s = Ok ((- ENOSPC, blocknr), s') ∧
     idle_step s s' ∧
     ((∀ b, ¬ free_run (block_inuse_head s) (block_end s) b n) ∨ slab_ok cfg (slab_calls s) = false)) ∨
  ∃ b s', pmfs_new_block cfg blocknr btype zero s = Ok ((0, b), s') ∧ wf s' ∧
    free_run (block_inuse_head s) (block_end s) b n ∧
    (∀ b', free_run (block_inuse_head s) (block_end s) b' n → b <= b') ∧
    (∀ y, used (block_inuse_head s') y ↔ used (block_inuse_head s) y ∨ b <= y < b + n) ∧
    num_free_blocks s' = num_free_blocks s - n ∧ same_device s s' ∧
    (if (zero : bool) then zeroed b n (pm s) (pm s') else pm s' = pm s).
Proof.
  intros Hwf n. pose proof (numblocks_pow2 btype) as Hp. fold n in Hp.
  pose proof (new_block_loop_result cfg (block_inuse_head s) s [] n
    (wf_suffix s [] _ Hwf eq_refl) Hp) as Hr.
  unfold pmfs_new_block. fold n. rewrite gets_bind.
  destruct Hr as [(s' & E & Hid & Hno)|(b & s' & E & Hrun & Hc & Hmin)]; simpl length in E.
  { left. exists s'. rewrite (bind_Ok _ _ _ _ _ E). done. }
  right. exists b. rewrite (bind_Ok _ _ _ _ _ E).
  pose proof (pow2_pos n Hp).
  destruct (claimed_wf s b (b + n - 1) s' Hwf Hc ltac:(lia)) as (W & Hu & Hn & Hd & Hpm & _).
  replace (b + n - 1 - b + 1) with n in * by lia.
  set (s'' := set_num_free s' (u64 (num_free_blocks s' - n))) in *.
  assert (Hrange : ∀ y, used (block_inuse_head s'') y ↔ used (block_inuse_head s) y ∨ b <= y < b + n).
  { intros y. rewrite Hu. intuition lia. }
  assert (Hb : 0 < b ∧ b + n <= 2 ^ 52).
  { destruct Hwf as [_ [_ He] Hok _ _]. pose proof Hrun as ((m & Hm & Hmb) & Hbe & _ & Hfree).
    destruct (block_inuse_head s) as [|m' l]; [done|]. injection Hm as ->. destruct Hok as (Hlo & _).
    split; [|lia]. destruct (decide (b = 0)) as [->|]; [|lia].
    exfalso. apply (Hfree 0); [lia|]. apply in_use_cons. left. lia. }
  rewrite (bind_Ok _ _ s' () s'') by reflexivity. rewrite zero_size. fold n. destruct zero.
  - destruct (zero_run b n s'') as (c & Ez & Hz); [lia|done|lia|].
    exists (set_pm s'' c). unfold when. rewrite (bind_Ok _ _ _ _ _ Ez). rewrite Hpm in Hz.
    split_and!; [done| |done..]. by destruct W.
  - exists s''. by split_and!.
Qed.

(** [s] with its message printed. *)
Definition error_state (s : fs) : fs :=
  Fs (block_inuse_head s) (block_start s) (block_end s) (num_free_blocks s)
    (num_blocknode_allocated s) (rdonly s || errors_ro cfg) (slab_calls s) (pm s).

Lemma free_loop_skip l1 : ∀ rest i s n lo hi hint,
  Forall (λ m, block_high m < lo) l1 →
  free_loop cfg (l1 ++ rest) i n lo hi hint s = free_loop cfg rest (i + length l1)%nat n lo hi hint s.
Proof.
  induction l1 as [|m l1 IH]; intros rest i s n lo hi hint Hl; simpl; [by rewrite Nat.add_0_r|].
  apply Forall_cons in Hl as [Hm Hl]. destruct (Z.gtb_spec lo (block_high m)); [|lia].
  rewrite IH by done. by rewrite Nat.add_succ_r.
Qed.

Lemma ok_from_before lo hi l1 m rest :
  ok_from lo hi (l1 ++ m :: rest) → Forall (λ x, block_high x < block_low m) l1.
Proof.
  revert lo. induction l1 as [|x l1 IH]; intros lo; simpl; [constructor|].
  intros (Hx & _ & H). constructor; [|by eapply IH].
  assert (Hu : used (l1 ++ m :: rest) (block_low m)).
  { rewrite in_use_app, in_use_cons. right. left. apply ok_from_app in H as [_ (? & _)]. lia. }
  apply (used_bounds _ _ _ _ H) in Hu. lia.
Qed.

(** The hint only saves steps. *)
Lemma free_block_start b btype h s :
  wf s → block_inuse_head s ≠ [] →
  __pmfs_free_block cfg b btype h s =
  free_loop cfg (block_inuse_head s) 0 (pmfs_get_numblocks btype) b
    (u64 (b + pmfs_get_numblocks btype - 1)) h s.
Proof.
  intros [_ _ Hok _ _] Hne. unfold __pmfs_free_block. rewrite gets_bind.
  rewrite bool_decide_eq_false_2 by done. cbn [bug_on]. rewrite (bind_Ok _ _ s () s) by done.
  destruct h as [h|]; [|done]. destruct (_ !! h) as [m|] eqn:Em; [|done].
  destruct (Z.geb_spec b (block_low m)) as [Hb|Hb]; [|done].
  rewrite <- (take_drop h (block_inuse_head s)) at 2. rewrite free_loop_skip.
  - simpl. rewrite length_take, Nat.min_l; [done|]. apply lookup_lt_Some in Em. lia.
  - rewrite <- (take_drop_middle _ _ _ Em) in Hok. apply ok_from_before in Hok.
    eapply Forall_impl; [exact Hok|]. simpl. lia.
Qed.

(** Whether all the blocks of a run are in use. *)
Definition run_used (s : fs) (b n : Z) : Prop := ∀ y, b <= y < b + n → used (block_inuse_head s) y.

Lemma free_block_cases b btype h s :
  wf s → block_inuse_head s ≠ [] → hint_ok s h → 0 <= b < 2 ^ 52 →
  let n := pmfs_get_numblocks btype in
  let r := __pmfs_free_block cfg b btype h s in
  (run_used s b n ∧
   ((∃ h' s', r = Ok (h', s') ∧ wf s' ∧ hint_ok s' h' ∧
      (∀ y, used (block_inuse_head s') y ↔ used (block_inuse_head s) y ∧ ¬ b <= y < b + n) ∧
      num_free_blocks s' = num_free_blocks s + n ∧ same_device s s' ∧ pm s' = pm s) ∨
    ∃ s', r = Ok (h, s') ∧ idle_step s s' ∧ slab_ok cfg (slab_calls s) = false)) ∨
  (¬ run_used s b n ∧ r = if errors_panic cfg then Bug else Ok (h, error_state s)).
Proof.
  intros Hwf Hne Hh Hb n r. pose proof (numblocks_pow2 btype) as Hp. fold n in Hp.
  pose proof (pow2_pos n Hp). unfold r. rewrite free_block_start by done. fold n.
  rewrite wrap_small by lia.
  pose proof (free_loop_result cfg (block_inuse_head s) s [] b (b + n - 1) h
    (wf_suffix s [] _ Hwf eq_refl) ltac:(lia)) as Hr.
  replace (b + n - 1 - b + 1) with n in Hr by lia. simpl length in Hr.
  assert (Hiff : (∀ y, b <= y <= b + n - 1 → used (block_inuse_head s) y) ↔ run_used s b n).
  { unfold run_used. split; intros H' y Hy; apply H'; lia. }
  destruct Hr as [[Hu Hr]|[Hu Hr]]; [left|right]; rewrite Hiff in Hu; (split; [exact Hu|]).
  - destruct Hr as [(h' & l' & k & E & [R1 R2 R3] & Hh')|(s' & E & Hid & Hs)]; [left|right].
    + rewrite E. do 2 eexists. split; [done|]. replace (b + n - 1 - b + 1) with n in * by lia.
      destruct Hwf as [W1 W2 W3 W4 W5]. specialize (R2 _ W3).
      pose proof (sizes_bounds _ _ _ (R1 0 W3) ltac:(lia)) as Hsz.
      split_and!; simpl; try done.
      * split; simpl; [done|done|by apply R1| |done]. rewrite wrap_small; lia.
      * intros y. rewrite R2. intuition lia.
      * rewrite wrap_small; lia.
    + exists s'. by rewrite E.
  - rewrite Hr. unfold pmfs_error_mng. by destruct (errors_panic cfg).
Qed.

Lemma init_blockmap_cases init_used s :
  block_inuse_head s = [] → block_start s = 0 → 0 < init_used → num_blocknode_allocated s = 0 →
  num_free_blocks s = block_end s → block_end s < 2 ^ 52 →
  (init_used + 4095) / 4096 <= block_end s → slab_ok cfg (slab_calls s) = true →
  ∃ s', pmfs_init_blockmap cfg init_used s = Ok ((), s') ∧ wf s' ∧ same_device s s' ∧ pm s' = pm s ∧
    block_inuse_head s' ≠ [] ∧
    ∀ y, used (block_inuse_head s') y ↔ 0 <= y ∧ 4096 * y < init_used.
Proof.
  intros Hl Hst Hi Hn Hf He Hfit Hok. unfold pmfs_init_blockmap, s_blocksize, s_blocksize_bits.
  rewrite (bind_Ok _ _ _ _ _ (alloc_node_eq cfg s)), Hok.
  set (k := (init_used + 4095) / 4096) in *.
  pose proof (Z.div_mod (init_used + 4095) 4096 ltac:(lia)) as Hd. fold k in Hd.
  pose proof (Z.mod_pos_bound (init_used + 4095) 4096 ltac:(lia)) as Hm.
  assert (Hk : 0 < k) by lia.
  assert (E : Z.shiftr (u64 (init_used + 4096 - 1)) 12 = k).
  { rewrite wrap_small, Z.shiftr_div_pow2 by lia. unfold k. f_equal. lia. }
  rewrite E. simpl negb. cbn [bug_on]. rewrite (bind_Ok _ _ _ () _ eq_refl), (bind_Ok _ _ _ () _ eq_refl).
  eexists. split; [reflexivity|]. cbn. rewrite Hl, Hst, Hn, Hf. rewrite !wrap_small by lia.
  split_and!; try done.
  - split; cbn; [done|lia|split_and!; [lia..|done]|unfold size_of; cbn; lia|done].
  - intros y. rewrite in_use_cons, used_nil. cbn. lia.
Qed.

(** ** Rebuilding the allocator from bitmaps *)

Section Build.
Context `{BitSearchLaws}.
Hypothesis slab_total : ∀ k, slab_ok cfg k = true.

(** The state after taking the blocks of [P] into use. *)
Record took (s : fs) (P : Z → Prop) (s' : fs) : Prop := {
  tk_wf : wf s';
  tk_used : ∀ y, used (block_inuse_head s') y ↔ used (block_inuse_head s) y ∨ P y;
  tk_device : same_device s s';
  tk_pm : pm s' = pm s;
  tk_ne : block_inuse_head s' ≠ []
}.

Lemma took_refl s : wf s → block_inuse_head s ≠ [] → took s (λ _, False) s.
Proof. intros. split; [done|tauto|done|done|done]. Qed.

Lemma took_trans s1 s2 s3 P Q R :
  took s1 P s2 → took s2 Q s3 → (∀ y, R y ↔ P y ∨ Q y) → took s1 R s3.
Proof.
  intros [A1 A2 A3 A4 A5] [B1 B2 B3 B4 B5] HR.
  split; [done| |by etrans|congruence|done]. intros y. rewrite B2, A2, HR. tauto.
Qed.

Lemma used_head s x y :
  wf s → used (block_inuse_head s) x → x <= y →
  ∃ m, head (block_inuse_head s) = Some m ∧ block_low m <= y.
Proof.
  intros [_ _ Hok _ _] Hu Hxy. destruct (block_inuse_head s) as [|m l]; [by apply used_nil in Hu|].
  exists m. split; [done|]. destruct Hok as (Hm & _ & Hl).
  apply in_use_cons in Hu as [?|Hu]; [lia|]. apply (used_bounds _ _ _ _ Hl) in Hu. lia.
Qed.

Lemma insert_run lo hi s :
  wf s → (∃ x, used (block_inuse_head s) x ∧ x <= lo) →
  lo <= hi < block_end s → (∀ y, lo <= y <= hi → ¬ used (block_inuse_head s) y) →
  ∃ s', pmfs_alloc_insert_blocknode_map cfg lo hi s = Ok (0, s') ∧ took s (λ y, lo <= y <= hi) s'.
Proof using cfg slab_total.
  intros Hwf (x & Hx & Hxlo) Hhi Hfree. pose proof (used_head _ _ _ Hwf Hx Hxlo) as Hm.
  assert (Hlo : 0 <= lo).
  { destruct Hm as (m & Hm & ?). destruct Hwf as [_ _ Hok _ _]. destruct (block_inuse_head s); [done|].
    injection Hm as ->. destruct Hok as (? & _). lia. }
  assert (He : block_end s < 2 ^ 52) by apply Hwf.
  unfold pmfs_alloc_insert_blocknode_map. rewrite gets_bind, (wrap_small 64 (hi - lo + 1)) by lia.
  destruct (insert_loop_result cfg (block_inuse_head s) s [] lo hi (wf_suffix s [] _ Hwf eq_refl)
    Hm Hhi Hfree) as [(s' & _ & _ & Hs)|(f & s' & nodes & E & Hc & Hnodes & Hle)];
    [by rewrite slab_total in Hs|].
  simpl length in E. rewrite (bind_Ok _ _ _ _ _ E).
  set (t := set_num_nodes s' (Z.of_nat (length (block_inuse_head s')))).
  assert (Ht : claimed s [] (block_inuse_head s) lo hi (Z.of_nat (length (block_inuse_head t))) t).
  { destruct Hc as (l' & k & -> & Hf). by exists l', k. }
  destruct (claimed_wf s lo hi t Hwf Ht ltac:(lia)) as (W & Hu & _ & Hd & Hpm & Hne).
  set (t' := set_num_free t (u64 (num_free_blocks t - (hi - lo + 1)))) in *.
  rewrite (bind_Ok _ _ s' () (set_num_free s' (u64 (num_free_blocks s' - (hi - lo + 1))))) by reflexivity.
  exists t'. split; [|by split].
  assert (Ef : (when f pmfs_free_blocknode) (set_num_free s' (u64 (num_free_blocks s' - (hi - lo + 1))))
    = Ok ((), t')); [|by rewrite (bind_Ok _ _ _ _ _ Ef)].
  destruct Hc as (l' & k & -> & Hf). unfold t', t, claim_state, when, pmfs_free_blocknode, node_freed.
  unfold modify, set_num_nodes, set_num_free. simpl in *. destruct f; simpl.
  - unfold modify. simpl. rewrite (wrap_small 64 (nodes - 1)) by lia. by rewrite Hnodes.
  - by rewrite <- Hnodes.
Qed.

(** Block [y] has its bit set in [bm], at [2 ^ scale] blocks to the bit. *)
Definition marked (bm : gset Z) (scale y : Z) : Prop := Z.shiftr y scale ∈ bm.

(** The blocks of the bits from [from] on. *)
Definition marked_from (bm : gset Z) (scale from y : Z) : Prop :=
  marked bm scale y ∧ from <= Z.shiftr y scale.

(** The marked blocks are free blocks of the device, behind a block in use. *)
Definition mappable (s : fs) (P : Z → Prop) : Prop :=
  ∀ y, P y → ¬ used (block_inuse_head s) y ∧ y < block_end s ∧
    ∃ x, used (block_inuse_head s) x ∧ x <= y.

Lemma shiftr_bounds y scale k : 0 <= scale → Z.shiftr y scale = k ↔ Z.shiftl k scale <= y < Z.shiftl (k + 1) scale.
Proof.
  intros Hs. rewrite Z.shiftr_div_pow2, !Z.shiftl_mul_pow2 by done.
  assert (0 < 2 ^ scale) by (by apply Z.pow_pos_nonneg). split.
  - intros <-. pose proof (Z.div_mod y (2 ^ scale) ltac:(lia)).
    pose proof (Z.mod_pos_bound y (2 ^ scale) ltac:(lia)). nia.
  - intros Hy. symmetry. apply (Z.div_unique y (2 ^ scale) k (y - k * 2 ^ scale)); lia.
Qed.

Lemma shiftr_range y scale a b :
  0 <= scale → a <= Z.shiftr y scale < b ↔ Z.shiftl a scale <= y < Z.shiftl b scale.
Proof.
  intros Hs. pose proof (proj1 (shiftr_bounds y scale _ Hs) eq_refl) as Hy.
  rewrite !Z.shiftl_mul_pow2 in * by done. assert (0 < 2 ^ scale) by (by apply Z.pow_pos_nonneg). nia.
Qed.

(** The bits of [bm] below [bsize], 0 apart, when those of all blocks are. *)
Lemma build_loop_took bm bsize scale : 0 <= scale → ∀ fuel next s,
  wf s → block_inuse_head s ≠ [] → 0 <= next <= bsize → (Z.to_nat (bsize - next) < fuel)%nat →
  (∀ k, k ∈ bm → k < bsize) → mappable s (marked_from bm scale next) →
  ∃ s', build_loop cfg fuel bm bsize scale next s = Ok ((), s') ∧ took s (marked_from bm scale next) s'.
Proof using All.
  intros Hsc. induction fuel as [|fuel IH]; intros next s Hwf Hne Hnext Hf Hbits Hmap; [lia|].
  simpl. destruct (find_next_bit_spec bm bsize next Hnext) as (Hl1 & Hl2 & Hl3).
  set (low := find_next_bit bm bsize next) in *.
  assert (Hskip : ∀ y, marked_from bm scale next y ↔ marked_from bm scale low y).
  { intros y. unfold marked_from. split; [|intros [? ?]; split; [done|lia]].
    intros [Hy Hny]. split; [done|]. destruct (Z.le_gt_cases low (Z.shiftr y scale)); [done|].
    exfalso. by apply (Hl2 (Z.shiftr y scale)). }
  destruct (Z.eqb_spec low bsize) as [E|Hlow].
  { exists s. split; [done|]. eapply took_trans; [by apply took_refl..|]. intros y.
    rewrite Hskip, E. unfold marked_from, marked. split; [|tauto]. intros [Hy ?].
    specialize (Hbits _ Hy). lia. }
  destruct (find_next_zero_bit_spec bm bsize low ltac:(lia)) as (Hz1 & Hz2 & Hz3).
  set (next' := find_next_zero_bit bm bsize low) in *.
  assert (Hlt : low < next').
  { destruct (Z.eq_dec low next') as [E|]; [|lia]. exfalso. rewrite <- E in Hz3. apply Hz3; [lia|].
    apply Hl3. lia. }
  set (a := Z.shiftl low scale). set (b := Z.shiftl next' scale).
  assert (Hrun : ∀ y, a <= y < b → marked_from bm scale next y).
  { intros y Hy. apply (shiftr_range _ _ _ _ Hsc) in Hy. split; [by apply Hz2|lia]. }
  assert (Hab : a < b).
  { unfold a, b. rewrite !Z.shiftl_mul_pow2 by done.
    assert (0 < 2 ^ scale) by (by apply Z.pow_pos_nonneg). nia. }
  destruct (Hmap a) as (_ & _ & Hhead); [apply Hrun; lia|].
  destruct (Hmap (b - 1)) as (_ & Hb & _); [apply Hrun; lia|].
  assert (0 <= a) by (unfold a; apply Z.shiftl_nonneg; lia).
  assert (block_end s < 2 ^ 52) by apply Hwf.
  rewrite !wrap_small by lia.
  destruct (insert_run a (b - 1) s Hwf Hhead ltac:(lia)) as (s1 & E1 & T1).
  { intros y Hy. destruct (Hmap y) as [? _]; [apply Hrun; lia|done]. }
  rewrite (bind_Ok _ _ _ _ _ E1).
  assert (Hsplit : ∀ y, marked_from bm scale next y ↔ a <= y <= b - 1 ∨ marked_from bm scale next' y).
  { intros y. split.
    - intros Hy. pose proof (proj1 (Hskip y) Hy) as [Hm Hge].
      destruct (Z.lt_ge_cases (Z.shiftr y scale) next').
      + left. assert (Hr : a <= y < b); [|lia]. by apply shiftr_range.
      + right. by split.
    - intros [Hy|[Hm Hge]]; [apply Hrun; lia|split; [done|lia]]. }
  destruct (Z.eqb_spec next' bsize) as [E|Hn'].
  - exists s1. split; [done|]. eapply took_trans; [exact T1|apply took_refl; apply T1|].
    intros y. rewrite Hsplit, E. unfold marked_from, marked. split; [|tauto]. intros [?|[Hy ?]]; [by left|].
    specialize (Hbits _ Hy). lia.
  - destruct (IH next' s1) as (s2 & E2 & T2); [apply T1|apply T1|lia|lia|done| |].
    + intros y Hy. destruct (Hmap y) as (Hu & He & x & Hx & Hxy); [by apply Hsplit; right|].
      pose proof (tk_used _ _ _ T1 y) as Hu1. destruct (tk_device _ _ _ T1) as (_ & -> & _).
      split_and!; [|done|].
      * rewrite Hu1. intros [?|Hr]; [done|]. destruct Hy as [_ Hy].
        assert (Hr' : low <= Z.shiftr y scale < next') by (apply shiftr_range; [done|unfold a, b in *; lia]). lia.
      * exists x. split; [|done]. apply T1. by left.
    + exists s2. split; [exact E2|]. by eapply took_trans.
Qed.
End Build.
End Main.

(** ** The properties *)

(** The list is determined by the blocks in use. *)
Lemma ok_from_ext lo lo' hi l l' :
  ok_from lo hi l → ok_from lo' hi l' → (∀ y, used l y ↔ used l' y) → l = l'.
Proof.
  revert lo lo' l'. induction l as [|n l IH]; intros lo lo' [|n' l']; simpl; [done|..].
  - intros _ (? & _) Hu. exfalso. apply (used_nil (block_low n')), Hu, in_use_cons. left. lia.
  - intros (? & _) _ Hu. exfalso. apply (used_nil (block_low n)), Hu, in_use_cons. left. lia.
  - intros (H1 & H2 & H3) (H1' & H2' & H3') Hu.
    assert (Hin : ∀ y, block_low n <= y <= block_high n ∨ block_high n + 2 <= y ∧ used l y ↔
                       block_low n' <= y <= block_high n' ∨ block_high n' + 2 <= y ∧ used l' y).
    { intros y. specialize (Hu y). rewrite !in_use_cons in Hu.
      pose proof (λ H, used_bounds _ _ _ y H3 H). pose proof (λ H, used_bounds _ _ _ y H3' H).
      intuition lia. }
    assert (block_low n = block_low n') by (pose proof (Hin (block_low n)); pose proof (Hin (block_low n')); lia).
    assert (block_high n = block_high n').
    { pose proof (Hin (block_high n + 1)). pose proof (Hin (block_high n' + 1)). lia. }
    f_equal; [destruct n, n'; simpl in *; congruence|].
    apply (IH _ _ _ H3 H3'). intros y. specialize (Hin y).
    pose proof (λ H, used_bounds _ _ _ y H3 H). pose proof (λ H, used_bounds _ _ _ y H3' H).
    intuition lia.
Qed.

(** C14: [pmfs_new_block] returns -ENOSPC with nothing changed when no aligned
    run of the size is free behind the first range (or the slab cache failed);
    otherwise it returns the lowest such run, takes exactly its blocks into use,
    counts them off, keeps the invariant, and with [zero] fills the run with
    zeroes and stores nowhere else. *)
Theorem pmfs_new_block_correct cfg blocknr btype zero s :
  wf s →
  let n := pmfs_get_numblocks btype in
  (∃ s', pmfs_new_block cfg blocknr btype zero s = Ok ((- ENOSPC, blocknr), s') ∧
     idle_step s s' ∧
     ((∀ b, ¬ free_run (block_inuse_head s) (block_end s) b n) ∨ slab_ok cfg (slab_calls s) = false)) ∨
  ∃ b s', pmfs_new_block cfg blocknr btype zero s = Ok ((0, b), s') ∧ wf s' ∧
    free_run (block_inuse_head s) (block_end s) b n ∧
    (∀ b', free_run (block_inuse_head s) (block_end s) b' n → b <= b') ∧
    (∀ y, used (block_inuse_head s') y ↔ used (block_inuse_head s) y ∨ b <= y < b + n) ∧
    num_free_blocks s' = num_free_blocks s - n ∧ same_device s s' ∧
    (if (zero : bool) then zeroed b n (pm s) (pm s') else pm s' = pm s).
Proof. apply new_block_cases. Qed.

(** C15: [__pmfs_free_block] of a run in use takes exactly its blocks out of use
    and counts them, with any hint the same, or leaks the run when the slab
    cache has no node for a split; a run not wholly in use is an error that
    changes no block.  A returned hint points to a node. *)
Theorem pmfs_free_block_correct cfg b btype h s :
  wf s → block_inuse_head s ≠ [] → hint_ok s h → 0 <= b < 2 ^ 52 →
  let n := pmfs_get_numblocks btype in
  let r := __pmfs_free_block cfg b btype h s in
  (run_used s b n ∧
   ((∃ h' s', r = Ok (h', s') ∧ wf s' ∧ hint_ok s' h' ∧
      (∀ y, used (block_inuse_head s') y ↔ used (block_inuse_head s) y ∧ ¬ b <= y < b + n) ∧
      num_free_blocks s' = num_free_blocks s + n ∧ same_device s s' ∧ pm s' = pm s) ∨
    ∃ s', r = Ok (h, s') ∧ idle_step s s' ∧ slab_ok cfg (slab_calls s) = false)) ∨
  (¬ run_used s b n ∧ r = if errors_panic cfg then Bug else Ok (h, error_state cfg s)).
Proof. apply free_block_cases. Qed.

(** C39: a run taken by [pmfs_new_block] and given back by [pmfs_free_block]
    leaves the allocator with the list and the counter it had. *)
Theorem pmfs_balloc_roundtrip cfg blocknr btype s b s' :
  wf s → (∀ k, slab_ok cfg k = true) →
  pmfs_new_block cfg blocknr btype false s = Ok ((0, b), s') →
  ∃ s'', pmfs_free_block cfg b btype s' = Ok ((), s'') ∧ wf s'' ∧
    block_inuse_head s'' = block_inuse_head s ∧ num_free_blocks s'' = num_free_blocks s ∧
    num_blocknode_allocated s'' = num_blocknode_allocated s ∧ pm s'' = pm s.
Proof.
  intros Hwf Hs E. pose proof (numblocks_pow2 btype) as Hp. pose proof (pow2_pos _ Hp).
  destruct (new_block_cases cfg blocknr btype false s Hwf)
    as [(t & E' & _)|(b' & t & E' & Ht & Hrun & _ & Hu & Hn & Hd & Hpm)]; rewrite E in E'; [done|].
  injection E' as <- <-. pose proof Hrun as ((m & Hm & Hmb) & Hbe & _ & Hfree).
  assert (Hlo : 0 <= b).
  { pose proof (wf_ranges _ Hwf) as Hok. destruct (block_inuse_head s); [done|]. injection Hm as ->.
    destruct Hok. lia. }
  pose proof (wf_end _ Hwf). pose proof Hd as (_ & He & _).
  destruct (free_block_cases cfg b btype None s' Ht) as [[_ Hr]|[Hno _]]; [|done|lia|..].
  - intros El. apply (used_nil b). rewrite <- El. apply Hu. right. lia.
  - destruct Hr as [(h & u & E2 & Wu & _ & Hu2 & Hn2 & (_ & He2 & _) & Hpm2)|(u & _ & _ & Hf)]; [|by rewrite Hs in Hf].
    exists u. unfold pmfs_free_block. rewrite (bind_Ok _ _ _ _ _ E2).
    assert (El : block_inuse_head u = block_inuse_head s).
    { assert (Heu : block_end u = block_end s) by congruence.
      eapply (ok_from_ext 0 0 (block_end s)); [rewrite <- Heu; apply Wu|apply Hwf|].
      intros y. rewrite Hu2, Hu. specialize (Hfree y). intuition. }
    split_and!; [done|done|done|lia| |congruence].
    rewrite (wf_nodes _ Wu), (wf_nodes _ Hwf). by rewrite El.
  - exfalso. apply Hno. intros y Hy. apply Hu. by right.
Qed.

Section BuildMap.
Context `{BitSearchLaws}.
Variable cfg : fs_cfg.
Hypothesis slab_total : ∀ k, slab_ok cfg k = true.

(** What the three bitmaps say of block [y]; the search starts at bit 1. *)
Definition in_4k (bm : scan_bitmap) : Z → Prop := marked_from (bitmap_4k bm) 0 1.
Definition in_2M (bm : scan_bitmap) : Z → Prop := marked_from (bitmap_2M bm) 9 1.
Definition in_1G (bm : scan_bitmap) : Z → Prop := marked_from (bitmap_1G bm) 18 1.
Definition covered (bm : scan_bitmap) (y : Z) : Prop := in_4k bm y ∨ in_2M bm y ∨ in_1G bm y.

Record bits_ok (bm : scan_bitmap) : Prop := {
  bo_4k k : k ∈ bitmap_4k bm → k < bitmap_4k_size bm * 8;
  bo_2M k : k ∈ bitmap_2M bm → k < bitmap_2M_size bm * 8;
  bo_1G k : k ∈ bitmap_1G bm → k < bitmap_1G_size bm * 8;
  bo_sizes : 1 <= bitmap_4k_size bm ∧ 1 <= bitmap_2M_size bm ∧ 1 <= bitmap_1G_size bm;
  bo_4k_2M y : in_4k bm y → ¬ in_2M bm y;
  bo_4k_1G y : in_4k bm y → ¬ in_1G bm y;
  bo_2M_1G y : in_2M bm y → ¬ in_1G bm y
}.

(** One bitmap, when its blocks are mappable. *)
Lemma build_one_took bm size scale s :
  0 <= scale → wf s → block_inuse_head s ≠ [] → 1 <= size → (∀ k, k ∈ bm → k < size * 8) →
  mappable s (marked_from bm scale 1) →
  ∃ s', __pmfs_build_blocknode_map cfg bm (size * 8) scale s = Ok (0, s') ∧
    took s (marked_from bm scale 1) s'.
Proof using All.
  intros Hsc Hwf Hne Hsz Hb Hm. unfold __pmfs_build_blocknode_map.
  destruct (build_loop_took cfg slab_total bm (size * 8) scale Hsc (S (Z.to_nat (size * 8))) 1 s
    Hwf Hne ltac:(lia) ltac:(lia) Hb Hm) as (s' & E & T).
  exists s'. by rewrite (bind_Ok _ _ _ _ _ E).
Qed.

(** What is still to be mapped stays mappable. *)
Lemma took_mappable s s' P Q :
  took s P s' → mappable s Q → (∀ y, Q y → ¬ P y) → mappable s' Q.
Proof.
  intros [_ Hu (_ & He & _) _ _] Hm Hd y Hy. destruct (Hm y Hy) as (Hn & Hb & x & Hx & Hxy).
  rewrite Hu, He. split_and!; [|done|].
  - intros [?|?]; [done|by apply (Hd y)].
  - exists x. split; [|done]. apply Hu. by left.
Qed.

Lemma build_map_took bm s :
  wf s → block_inuse_head s ≠ [] → bits_ok bm → mappable s (covered bm) →
  ∃ s', pmfs_build_blocknode_map cfg bm s = Ok ((), s') ∧ took s (covered bm) s'.
Proof using All.
  intros Hwf Hne [B1 B2 B3 (Z1 & Z2 & Z3) D1 D2 D3] Hm. unfold pmfs_build_blocknode_map.
  change (PAGE_SHIFT - 12) with 0. change (PAGE_SHIFT_2M - 12) with 9. change (PAGE_SHIFT_1G - 12) with 18.
  destruct (build_one_took (bitmap_4k bm) (bitmap_4k_size bm) 0 s) as (s1 & E1 & T1); try done.
  { intros y Hy. apply Hm. by left. }
  destruct (build_one_took (bitmap_2M bm) (bitmap_2M_size bm) 9 s1) as (s2 & E2 & T2); try done; try apply T1.
  { apply (took_mappable _ _ _ _ T1); [|intros y Hy Hy'; by apply (D1 y)].
    intros y Hy. apply Hm. right. by left. }
  assert (T12 : took s (λ y, in_4k bm y ∨ in_2M bm y) s2) by (eapply took_trans; [exact T1|exact T2|done]).
  destruct (build_one_took (bitmap_1G bm) (bitmap_1G_size bm) 18 s2) as (s3 & E3 & T3); try done; try apply T2.
  { apply (took_mappable _ _ _ _ T12); [intros y Hy; apply Hm; by right; right|].
    intros y Hy [?|?]; [by apply (D2 y)|by apply (D3 y)]. }
  exists s3. rewrite (bind_Ok _ _ _ _ _ E1), (bind_Ok _ _ _ _ _ E2), (bind_Ok _ _ _ _ _ E3).
  split; [done|]. eapply took_trans; [exact T12|exact T3|]. unfold covered, in_4k, in_2M, in_1G. tauto.
Qed.

(** Building the map from the three bitmaps terminates and takes into use
    exactly the blocks they mark, for bitmaps that do not mark a block twice or
    a block already in use. *)
Theorem pmfs_build_map_correct bm s :
  wf s → block_inuse_head s ≠ [] → bits_ok bm → mappable s (covered bm) →
  ∃ s', pmfs_build_blocknode_map cfg bm s = Ok ((), s') ∧ wf s' ∧
    (∀ y, used (block_inuse_head s') y ↔ used (block_inuse_head s) y ∨ covered bm y) ∧
    same_device s s' ∧ pm s' = pm s.
Proof using All.
  intros. destruct (build_map_took bm s) as (s' & E & []); [done..|]. by exists s'.
Qed.
End BuildMap.

(** ** Concrete inputs *)

(** A bit search by counting. *)
Fixpoint scan_bits (n : nat) (want : bool) (bm : gset Z) (k : Z) : Z :=
  match n with
  | O => k
  | S n => if bool_decide (bool_decide (k ∈ bm) = want) then k else scan_bits n want bm (k + 1)
  end.
#[export] Instance scan_search : BitSearch := {|
  find_next_bit bm size off := scan_bits (Z.to_nat (size - off)) true bm off;
  find_next_zero_bit bm size off := scan_bits (Z.to_nat (size - off)) false bm off
|}.

Lemma scan_bits_spec want bm n : ∀ k,
  k <= scan_bits n want bm k <= k + Z.of_nat n ∧
  (∀ j, k <= j < scan_bits n want bm k → bool_decide (j ∈ bm) ≠ want) ∧
  (scan_bits n want bm k < k + Z.of_nat n → bool_decide (scan_bits n want bm k ∈ bm) = want).
Proof.
  induction n as [|n IH]; intros k; simpl; [split_and!; [lia..|intros; lia|lia]|].
  case_bool_decide as E; [split_and!; [lia..|intros; lia|done]|].
  destruct (IH (k + 1)) as (H1 & H2 & H3). split_and!; [lia..| |intros; apply H3; lia].
  intros j Hj. destruct (decide (j = k)) as [->|]; [done|apply H2; lia].
Qed.

#[export] Instance scan_search_laws : BitSearchLaws.
Proof.
  split; intros bm size off Ho; cbn.
  - destruct (scan_bits_spec true bm (Z.to_nat (size - off)) off) as (H1 & H2 & H3).
    split_and!; [lia..| |].
    + intros k Hk. apply H2 in Hk. by case_bool_decide.
    + intros Hl. specialize (H3 ltac:(lia)). by case_bool_decide.
  - destruct (scan_bits_spec false bm (Z.to_nat (size - off)) off) as (H1 & H2 & H3).
    split_and!; [lia..| |].
    + intros k Hk. apply H2 in Hk. by case_bool_decide.
    + intros Hl. specialize (H3 ltac:(lia)). by case_bool_decide.
Qed.

(** A device of 16 blocks; 0 to 2 and 4 are in use. *)
Definition small_cfg : fs_cfg := FsCfg false true (λ _, true).
Definition small_fs : fs := Fs [BlockNode 0 2; BlockNode 4 4] 0 16 12 2 false 0 (Cpu ∅ []).

Lemma small_wf : wf small_fs.
Proof. split; cbn; [done|lia|lia|unfold size_of; cbn; lia|done]. Qed.

Lemma pmfs_new_block_correct_witness :
  let r := pmfs_new_block small_cfg 0 PMFS_BLOCK_TYPE_4K false small_fs in
  (∃ s', r = Ok ((- ENOSPC, 0), s') ∧ idle_step small_fs s' ∧
     ((∀ b, ¬ free_run [BlockNode 0 2; BlockNode 4 4] 16 b 1) ∨ true = false)) ∨
  ∃ b s', r = Ok ((0, b), s') ∧ wf s' ∧ free_run [BlockNode 0 2; BlockNode 4 4] 16 b 1 ∧
    (∀ b', free_run [BlockNode 0 2; BlockNode 4 4] 16 b' 1 → b <= b') ∧
    (∀ y, used (block_inuse_head s') y ↔ used [BlockNode 0 2; BlockNode 4 4] y ∨ b <= y < b + 1) ∧
    num_free_blocks s' = 12 - 1 ∧ same_device small_fs s' ∧ pm s' = Cpu ∅ [].
Proof. exact (pmfs_new_block_correct small_cfg 0 PMFS_BLOCK_TYPE_4K false small_fs small_wf). Defined.

Lemma pmfs_free_block_correct_witness :
  let r := __pmfs_free_block small_cfg 1 PMFS_BLOCK_TYPE_4K (Some 0%nat) small_fs in
  (run_used small_fs 1 1 ∧
   ((∃ h' s', r = Ok (h', s') ∧ wf s' ∧ hint_ok s' h' ∧
      (∀ y, used (block_inuse_head s') y ↔ used [BlockNode 0 2; BlockNode 4 4] y ∧ ¬ 1 <= y < 1 + 1) ∧
      num_free_blocks s' = 12 + 1 ∧ same_device small_fs s' ∧ pm s' = Cpu ∅ []) ∨
    ∃ s', r = Ok (Some 0%nat, s') ∧ idle_step small_fs s' ∧ true = false)) ∨
  (¬ run_used small_fs 1 1 ∧ r = Ok (Some 0%nat, error_state small_cfg small_fs)).
Proof.
  apply (pmfs_free_block_correct small_cfg 1 PMFS_BLOCK_TYPE_4K (Some 0%nat) small_fs small_wf);
    [done| |lia]. intros i [= <-]. cbn. lia.
Defined.

Lemma pmfs_balloc_roundtrip_witness :
  ∃ s', pmfs_new_block small_cfg 0 PMFS_BLOCK_TYPE_4K false small_fs = Ok ((0, 3), s') ∧
  ∃ s'', pmfs_free_block small_cfg 3 PMFS_BLOCK_TYPE_4K s' = Ok ((), s'') ∧ wf s'' ∧
    block_inuse_head s'' = [BlockNode 0 2; BlockNode 4 4] ∧ num_free_blocks s'' = 12 ∧
    num_blocknode_allocated s'' = 2 ∧ pm s'' = Cpu ∅ [].
Proof.
  eexists. split; [vm_compute; reflexivity|].
  eapply (pmfs_balloc_roundtrip small_cfg 0 PMFS_BLOCK_TYPE_4K small_fs 3 _ small_wf);
    [done|vm_compute; reflexivity].
Defined.

Definition small_bitmap : scan_bitmap := ScanBitmap 2 1 1 {[3; 6; 7]} ∅ ∅.

Lemma pmfs_build_map_correct_witness :
  ∃ s', pmfs_build_blocknode_map small_cfg small_bitmap small_fs = Ok ((), s') ∧ wf s' ∧
    (∀ y, used (block_inuse_head s') y ↔
          used [BlockNode 0 2; BlockNode 4 4] y ∨ covered small_bitmap y) ∧
    same_device small_fs s' ∧ pm s' = Cpu ∅ [].
Proof.
  assert (Hin : ∀ y, covered small_bitmap y → y = 3 ∨ y = 6 ∨ y = 7).
  { unfold covered, in_4k, in_2M, in_1G, marked_from, marked. cbn. intros y. rewrite Z.shiftr_0_r.
    set_solver. }
  apply (pmfs_build_map_correct small_cfg (λ _, eq_refl) small_bitmap small_fs small_wf); [done|..].
  - split; cbn; try set_solver by lia; try lia; unfold in_2M, in_1G, marked_from, marked; cbn; set_solver.
  - intros y Hy. destruct (Hin y Hy) as [-> | [-> | ->]]; (split_and!; [|cbn; lia|]);
      try (exists 2; split; [cbn; apply in_use_cons; left; cbn; lia|lia]);
      cbn; rewrite !in_use_cons, used_nil; cbn; lia.
Defined.
