(* ===== verification/PmfsTree.v ===== *)
(** * PMFS: the block tree of an inode

    [inode.c] and the helpers of [pmfs.h]: a file's blocks hang off
    [pi->root], a tree of [pi->height] levels of 4 KB pages of 512 pointers
    each, kept in persistent memory.  Pointers are offsets from
    [sbi->virt_addr]; [pi] and [node] are addresses in the same sense.  The
    blocks come from [PmfsBalloc], changes to pages that are already reachable
    are logged with [PmfsJournal].  The counters of the loops are the source's;
    a tree has at most three levels, so the recursion is on the height. *)

From stdpp Require Import base list gmap.
From Stdlib Require Import ZArith Lia.
From coqutil Require Import Byte.
From S2P Require Import Prelude PMem NovaBase PmfsJournal PmfsBalloc.

Local Open Scope Z_scope.

(** ** Data *)

(** [struct pmfs_inode]: field offsets. *)
Definition pi_height : Z := 2.
Definition pi_i_blk_type : Z := 3.
Definition pi_i_flags : Z := 4.
Definition pi_root : Z := 8.
Definition pi_i_size : Z := 16.
Definition pi_i_ctime : Z := 24.
Definition pi_i_mtime : Z := 28.
Definition pi_i_blocks : Z := 40.
Definition sizeof_pmfs_inode : Z := 80.
Definition PMFS_EOFBLOCKS_FL : Z := 0x20000000.
Definition META_BLK_SHIFT : Z := 9.
Definition s_inode_table_offset : Z := 40.
Definition ENXIO : Z := 6.

(** The fields of the VFS's [struct inode] that are used here. *)
Record inode := Inode { i_ino : Z; i_size : Z; i_blocks : Z; i_mtime : Z; i_ctime : Z }.
Definition set_i_blocks (i : inode) (n : Z) : inode :=
  Inode (i_ino i) (i_size i) n (i_mtime i) (i_ctime i).

(** [blk_type_to_shift], [blk_type_to_size]: a type outside the array is a read
    past it. *)
Definition blk_type_to_shift (btype : Z) : PM Z :=
  match [12; 21; 30] !! Z.to_nat btype with Some s => mret s | None => bug end.
Definition blk_type_to_size (btype : Z) : PM Z :=
  match [0x1000; 0x200000; 0x40000000] !! Z.to_nat btype with Some s => mret s | None => bug end.

Definition inode_blk_type (pi : Z) : PM Z := fetch 1 (pi + pi_i_blk_type).
Definition pmfs_inode_blk_shift (pi : Z) : PM Z := t ← inode_blk_type pi; blk_type_to_shift t.
Definition pmfs_inode_blk_size (pi : Z) : PM Z := t ← inode_blk_type pi; blk_type_to_size t.

(** [node[i]] *)
Definition node_ptr (node i : Z) : Z := node + 8 * i.

(** ** [pmfs.h]: looking a block up *)

Fixpoint find_loop (height : nat) (bp blocknr : Z) : PM Z :=
  match height with
  | O => mret bp
  | S h =>
      level_ptr ← deref (pmfs_get_block bp);
      let bit_shift := Z.of_nat h * META_BLK_SHIFT in
      let idx := u32 (Z.shiftr blocknr bit_shift) in
      bp ← fetch 8 (node_ptr level_ptr idx);
      if bp =? 0 then mret 0
      else find_loop h bp (Z.land blocknr (Z.shiftl 1 bit_shift - 1))
  end.

Definition __pmfs_find_data_block (pi blocknr : Z) : PM Z :=
  height ← fetch 1 (pi + pi_height);
  bp ← fetch 8 (pi + pi_root);
  find_loop (Z.to_nat height) bp blocknr.

(** NULL when the inode table has no such inode. *)
Definition pmfs_get_inode_table : PM Z := fetch 8 s_inode_table_offset.
Definition pmfs_get_inode (ino : Z) : PM (option Z) :=
  inode_table ← pmfs_get_inode_table;
  if ino =? 0 then mret None else
  shift ← pmfs_inode_blk_shift inode_table;
  bp ← __pmfs_find_data_block inode_table (Z.shiftr ino shift);
  if bp =? 0 then mret None else
  size ← pmfs_inode_blk_size inode_table;
  mret (Some (bp + Z.land ino (size - 1))).

(** ** [inode.c]: looking blocks up *)

Definition find_data_block_at (pi file_blocknr : Z) : PM Z :=
  data_bits ← pmfs_inode_blk_shift pi;
  let blk_shift := data_bits - s_blocksize_bits in
  let blk_offset := Z.land file_blocknr (Z.shiftl 1 blk_shift - 1) in
  let blocknr := Z.shiftr file_blocknr blk_shift in
  height ← fetch 1 (pi + pi_height);
  if blocknr >=? Z.shiftl 1 (height * META_BLK_SHIFT) then mret 0 else
  bp ← __pmfs_find_data_block pi blocknr;
  if bp =? 0 then mret 0 else mret (u64 (bp + Z.shiftl blk_offset s_blocksize_bits)).

Definition pmfs_find_data_block (inode : inode) (file_blocknr : Z) : PM Z :=
  p ← pmfs_get_inode (i_ino inode);
  pi ← deref p;
  find_data_block_at pi file_blocknr.

(** [first_blk] and [last_blk] of child [i], for children of [2 ^ node_bits]
    blocks: the part of the range that lies in the child. *)
Definition child_first (node_bits first_index first_blocknr i : Z) : Z :=
  if i =? first_index then Z.land first_blocknr (Z.shiftl 1 node_bits - 1) else 0.
Definition child_last (node_bits last_index last_blocknr i : Z) : Z :=
  if i =? last_index then Z.land last_blocknr (Z.shiftl 1 node_bits - 1)
  else Z.shiftl 1 node_bits - 1.

(** [*data_found], [*hole_found] and [blocks]. *)
Record region := Region { data_found : bool; hole_found : bool; blocks : Z }.

(** The loop over [n] children from [i] on; [rec] is the call for a child, and
    the flag of the result tells whether it went to [done]. *)
Fixpoint region_loop (rec : Z → Z → Z → region → PM region) (n : nat) (leaf : bool)
    (node node_bits first_index last_index first_blocknr last_blocknr i : Z) (hole : bool)
    (r : region) : PM region :=
  match n with
  | O => mret r
  | S n =>
      let next := region_loop rec n leaf node node_bits first_index last_index first_blocknr
                    last_blocknr (i + 1) hole in
      p ← fetch 8 (node_ptr node i);
      if leaf || (p =? 0) then
        let r := if p =? 0 then Region (data_found r) true (blocks r)
                 else Region true (hole_found r) (blocks r) in
        if negb (p =? 0) && negb hole then mret r
        else next (if negb (hole_found r) || negb hole
                   then Region (data_found r) (hole_found r) (u64 (blocks r + Z.shiftl 1 node_bits))
                   else r)
      else
        c ← rec p (child_first node_bits first_index first_blocknr i)
              (child_last node_bits last_index last_blocknr i)
              (Region (data_found r) (hole_found r) 0);
        (* the callee returns its count as an [int] *)
        let r := Region (data_found c) (hole_found c) (u64 (blocks r + s32 (blocks c))) in
        if negb hole && data_found r then mret r else next r
  end.

Fixpoint recursive_find_region (height : nat) (block first_blocknr last_blocknr : Z) (hole : bool)
    (r : region) : PM region :=
  match height with
  | O => bug
  | S h =>
      let node_bits := Z.of_nat h * META_BLK_SHIFT in
      let first_index := u32 (Z.shiftr first_blocknr node_bits) in
      let last_index := u32 (Z.shiftr last_blocknr node_bits) in
      node ← deref (pmfs_get_block block);
      region_loop (λ p f l, recursive_find_region h p f l hole)
        (Z.to_nat (last_index - first_index + 1)) (bool_decide (h = O)) node node_bits
        first_index last_index first_blocknr last_blocknr first_index hole r
  end.

(** The result and [*offset] after the call. *)
Definition pmfs_find_region (inode : inode) (offset : Z) (hole : bool) : PM (Z * Z) :=
  p ← pmfs_get_inode (i_ino inode);
  pi ← deref p;
  data_bits ← pmfs_inode_blk_shift pi;
  if offset >=? i_size inode then mret (u64 (- ENXIO), offset) else
  root ← fetch 8 (pi + pi_root);
  if (i_blocks inode =? 0) || (root =? 0) then
    mret (if hole then i_size inode else u64 (- ENXIO), offset) else
  let offset_in_block := Z.land offset (Z.shiftl 1 data_bits - 1) in
  height ← fetch 1 (pi + pi_height);
  r ← (if height =? 0 then mret (Region true false 0)
       else recursive_find_region (Z.to_nat height) root (Z.shiftr offset data_bits)
              (Z.shiftr (i_size inode) data_bits) hole (Region false false 0));
  let r := Region (data_found r) (hole_found r) (u64 (s32 (blocks r))) in
  if negb hole && negb (data_found r) && hole_found r then mret (u64 (- ENXIO), offset)
  else if data_found r && negb (hole_found r) then
    mret (0, if hole then i_size inode else offset)
  else if hole && hole_found r && (blocks r =? 0) then
    mret (0, if negb (data_found r) then i_size inode else offset)
  else if negb (offset_in_block =? 0) then
    let blocks := u64 (blocks r - 1) in
    mret (0, u64 (offset + u64 (Z.shiftl blocks data_bits) + (Z.shiftl 1 data_bits - offset_in_block)))
  else mret (0, u64 (offset + u64 (Z.shiftl (blocks r) data_bits))).

(** ** [inode.c]: allocating blocks *)

Section Alloc.
Context `{CachedWrite}.
Variables (clwb : bool) (cfg : fs_cfg) (sbi : pmfs_sb_info).

(** [pi->i_flags |= cpu_to_le32(flag)], and the like. *)
Definition set_flag (pi flag : Z) : PM () :=
  f ← fetch 4 (pi + pi_i_flags);
  store 4 (pi + pi_i_flags) (Z.lor f flag).

(** The error code and [*blocknr]. *)
Definition pmfs_new_data_block (pi blocknr : Z) (zero : bool) : FM (Z * Z) :=
  btype ← lift (inode_blk_type pi);
  data_bits ← lift (blk_type_to_shift btype);
  '(errval, blocknr) ← pmfs_new_block cfg blocknr btype zero;
  when (errval =? 0)
    (lift (n ← fetch 8 (pi + pi_i_blocks);
           store 8 (pi + pi_i_blocks) (u64 (n + Z.shiftl 1 (data_bits - s_blocksize_bits)))));;
  mret (errval, blocknr).

(** What the loop of [recursive_alloc_blocks] carries. *)
Record alloc_vars := AllocVars {
  trans : option pmfs_transaction;
  new_node : bool;
  journal_saved : bool
}.

(** Saving [node[i .. last_index]] in the journal before the first change. *)
Definition save_node (node i last_index : Z) (v : alloc_vars) : FM alloc_vars :=
  if negb (new_node v) && negb (journal_saved v) then
    let le_size := Z.shiftl (last_index - i + 1) 3 in
    '(_, t) ← lift (pmfs_add_logentry clwb sbi (trans v) (node_ptr node i) (u16 le_size) LE_DATA);
    mret (AllocVars t (new_node v) true)
  else mret v.

(** One round at the level of the data blocks; an error ends the call. *)
Definition alloc_data (pi node i last_index : Z) (zero : bool) (v : alloc_vars)
  : FM (Z * alloc_vars) :=
  p ← lift (fetch 8 (node_ptr node i));
  if p =? 0 then
    '(errval, blocknr) ← pmfs_new_data_block pi 0 zero;
    if negb (errval =? 0) then
      lift (set_flag pi PMFS_EOFBLOCKS_FL;;
            pmfs_flush_buffer clwb (pi + pi_i_flags) 4 false);;
      mret (errval, v)
    else
      v ← save_node node i last_index v;
      lift (store 8 (node_ptr node i) (pmfs_get_block_off blocknr));;
      mret (0, v)
  else mret (0, v).

(** The first half of a round above that level: the page of the child. *)
Definition alloc_meta (node i last_index : Z) (v : alloc_vars) : FM (Z * alloc_vars) :=
  p ← lift (fetch 8 (node_ptr node i));
  if p =? 0 then
    '(errval, blocknr) ← pmfs_new_block cfg 0 PMFS_BLOCK_TYPE_4K true;
    if negb (errval =? 0) then mret (errval, v) else
    v ← save_node node i last_index v;
    lift (store 8 (node_ptr node i) (pmfs_get_block_off blocknr));;
    mret (0, AllocVars (trans v) true (journal_saved v))
  else mret (0, v).

(** [n] rounds from [i] on: 0, or the error that ended them.  [round] is the
    body of the loop. *)
Fixpoint alloc_loop (round : Z → alloc_vars → FM (Z * alloc_vars)) (n : nat) (i : Z)
    (v : alloc_vars) : FM (Z * alloc_vars) :=
  match n with
  | O => mret (0, v)
  | S n =>
      '(errval, v) ← round i v;
      if negb (errval =? 0) then mret (errval, v) else alloc_loop round n (i + 1) v
  end.

(** [trans] is updated in place; the call returns it. *)
Fixpoint recursive_alloc_blocks (height : nat) (tr : option pmfs_transaction) (pi block : Z)
    (first_blocknr last_blocknr : Z) (new zero : bool) : FM (Z * option pmfs_transaction) :=
  match height with
  | O => bug
  | S h =>
      let node_bits := Z.of_nat h * META_BLK_SHIFT in
      let first_index := u32 (Z.shiftr first_blocknr node_bits) in
      let last_index := u32 (Z.shiftr last_blocknr node_bits) in
      node ← lift (deref (pmfs_get_block block));
      let round i v :=
        match h with
        | O => alloc_data pi node i last_index zero v
        | S _ =>
            '(errval, v) ← alloc_meta node i last_index v;
            if negb (errval =? 0) then mret (errval, v) else
            p ← lift (fetch 8 (node_ptr node i));
            '(errval, t) ← recursive_alloc_blocks h (trans v) pi p
              (child_first node_bits first_index first_blocknr i)
              (child_last node_bits last_index last_blocknr i) (new_node v) zero;
            mret (if errval <? 0 then errval else 0, AllocVars t (new_node v) (journal_saved v))
        end in
      '(errval, v) ← alloc_loop round (Z.to_nat (last_index - first_index + 1)) first_index
                       (AllocVars tr new false);
      if negb (errval =? 0) then mret (errval, trans v) else
      when (new_node v || bool_decide (trans v = None))
        (lift (pmfs_flush_buffer clwb (node_ptr node first_index)
                 (u32 ((last_index - first_index + 1) * 8)) false));;
      mret (0, trans v)
  end.

(** [while (height < new_height)]: the error code, [prev_root] and [height]. *)
Fixpoint increase_loop (n : nat) (height prev_root : Z) : FM (Z * Z * Z) :=
  match n with
  | O => mret (0, prev_root, height)
  | S n =>
      '(errval, blocknr) ← pmfs_new_block cfg 0 PMFS_BLOCK_TYPE_4K true;
      if negb (errval =? 0) then
        pmfs_error_mng cfg;;
        mret (errval, prev_root, height)
      else
        let blocknr := pmfs_get_block_off blocknr in
        root ← lift (deref (pmfs_get_block blocknr));
        lift (store 8 (node_ptr root 0) prev_root;;
              pmfs_flush_buffer clwb root 8 false);;
        increase_loop n (height + 1) blocknr
  end.

Definition pmfs_increase_btree_height (pi new_height : Z) : FM Z :=
  height ← lift (fetch 1 (pi + pi_height));
  prev_root ← lift (fetch 8 (pi + pi_root));
  '(errval, prev_root, height) ← increase_loop (Z.to_nat (new_height - height)) height prev_root;
  lift (store 8 (pi + pi_root) prev_root;;
        store 1 (pi + pi_height) (u8 height);;
        pmfs_flush_buffer clwb pi sizeof_pmfs_inode false);;
  mret errval.

(** [while (total_blocks > 0)]; a [u64] runs out after eight rounds. *)
Fixpoint height_loop (fuel : nat) (total_blocks height : Z) : FM Z :=
  if total_blocks >? 0 then
    match fuel with
    | O => out_of_fuel
    | S fuel => height_loop fuel (Z.shiftr total_blocks META_BLK_SHIFT) (u32 (height + 1))
    end
  else mret height.

Definition __pmfs_alloc_blocks (tr : option pmfs_transaction) (pi file_blocknr num : Z) (zero : bool)
  : FM (Z * option pmfs_transaction) :=
  data_bits ← lift (pmfs_inode_blk_shift pi);
  let blk_shift := data_bits - s_blocksize_bits in
  let first_blocknr := Z.shiftr file_blocknr blk_shift in
  let last_blocknr := Z.shiftr (u64 (file_blocknr + num - 1)) blk_shift in
  pi_h ← lift (fetch 1 (pi + pi_height));
  let blk_shift := pi_h * META_BLK_SHIFT in
  let max_blocks := u64 (Z.shiftl 1 blk_shift) in
  height ← (if last_blocknr >? u64 (max_blocks - 1)
            then height_loop 8 (Z.shiftr last_blocknr blk_shift) pi_h
            else mret pi_h);
  if (last_blocknr >? u64 (max_blocks - 1)) && (height >? 3) then mret (- ENOSPC, tr) else
  root ← lift (fetch 8 (pi + pi_root));
  if root =? 0 then
    if height =? 0 then
      '(errval, blocknr) ← pmfs_new_data_block pi 0 zero;
      if negb (errval =? 0) then mret (errval, tr) else
      lift (store 8 (pi + pi_root) (pmfs_get_block_off blocknr);;
            store 1 (pi + pi_height) (u8 height);;
            pmfs_flush_buffer clwb pi sizeof_pmfs_inode false);;
      mret (0, tr)
    else
      errval ← pmfs_increase_btree_height pi height;
      if negb (errval =? 0) then mret (errval, tr) else
      root ← lift (fetch 8 (pi + pi_root));
      h ← lift (fetch 1 (pi + pi_height));
      '(errval, tr) ← recursive_alloc_blocks (Z.to_nat h) tr pi root first_blocknr last_blocknr true zero;
      mret (if errval <? 0 then errval else 0, tr)
  else if height =? 0 then mret (0, tr)
  else
    errval ← (if height >? pi_h then pmfs_increase_btree_height pi height else mret 0);
    if negb (errval =? 0) then mret (errval, tr) else
    root ← lift (fetch 8 (pi + pi_root));
    '(errval, tr) ← recursive_alloc_blocks (Z.to_nat height) tr pi root first_blocknr last_blocknr false zero;
    mret (if errval <? 0 then errval else 0, tr).

(** The caller's [inode->i_blocks] follows the inode's. *)
Definition pmfs_alloc_blocks (tr : option pmfs_transaction) (inode : inode) (file_blocknr num : Z)
    (zero : bool) : FM (Z * option pmfs_transaction * PmfsTree.inode) :=
  p ← lift (pmfs_get_inode (i_ino inode));
  pi ← lift (deref p);
  '(errval, tr) ← __pmfs_alloc_blocks tr pi file_blocknr num zero;
  n ← lift (fetch 8 (pi + pi_i_blocks));
  mret (errval, tr, set_i_blocks inode n).
End Alloc.

(** ** [inode.c]: truncating *)

Section Truncate.
Context `{CachedWrite}.
Variables (clwb : bool) (cfg : fs_cfg).

(** No pointer in [node[i], .., node[i + n - 1]]. *)
Fixpoint no_pointers (n : nat) (node i : Z) : PM bool :=
  match n with
  | O => mret true
  | S n =>
      p ← fetch 8 (node_ptr node i);
      if negb (p =? 0) then mret false else no_pointers n node (i + 1)
  end.

Definition is_empty_meta_block (node start_idx end_idx : Z) : PM bool :=
  let last_idx := Z.shiftl 1 META_BLK_SHIFT - 1 in
  before ← no_pointers (Z.to_nat start_idx) node 0;
  if negb before then mret false
  else no_pointers (Z.to_nat (last_idx - end_idx)) node (end_idx + 1).

(** The loop over the data blocks; [freed] counts them. *)
Fixpoint truncate_data (n : nat) (node btype i freed : Z) (start_hint : option nat) : FM Z :=
  match n with
  | O => mret freed
  | S n =>
      p ← lift (fetch 8 (node_ptr node i));
      if p =? 0 then truncate_data n node btype (i + 1) freed start_hint
      else
        start_hint ← __pmfs_free_block cfg (pmfs_get_blocknr p) btype start_hint;
        truncate_data n node btype (i + 1) (u32 (freed + 1)) start_hint
  end.

(** What the loop over the pages carries. *)
Record truncate_vars := TruncateVars {
  tv_start : Z;
  tv_end : Z;
  all_range_freed : bool;
  freed : Z
}.

(** [rec] frees below a child and returns the count and [mpty]. *)
Fixpoint truncate_meta (rec : Z → Z → Z → FM (Z * bool)) (n : nat)
    (node node_bits first_index last_index first_blocknr last_blocknr i : Z) (v : truncate_vars)
  : FM truncate_vars :=
  match n with
  | O => mret v
  | S n =>
      let next := truncate_meta rec n node node_bits first_index last_index first_blocknr
                    last_blocknr (i + 1) in
      p ← lift (fetch 8 (node_ptr node i));
      if p =? 0 then next v
      else
        '(k, mpty) ← rec p (child_first node_bits first_index first_blocknr i)
                       (child_last node_bits last_index last_blocknr i);
        let v := TruncateVars (tv_start v) (tv_end v) (all_range_freed v) (u32 (freed v + k)) in
        if (mpty : bool) then
          p ← lift (fetch 8 (node_ptr node i));
          pmfs_free_block cfg (pmfs_get_blocknr p) PMFS_BLOCK_TYPE_4K;;
          next v
        else
          next (TruncateVars (if i =? first_index then tv_start v + 1 else tv_start v)
                  (if i =? first_index then tv_end v
                   else if i =? last_index then tv_end v - 1 else tv_end v)
                  false (freed v))
  end.

(** The count, and [*meta_empty]. *)
Fixpoint recursive_truncate_blocks (height : nat) (block btype first_blocknr last_blocknr : Z)
  : FM (Z * bool) :=
  match height with
  | O => bug
  | S h =>
      node ← lift (deref (pmfs_get_block block));
      let node_bits := Z.of_nat h * META_BLK_SHIFT in
      let first_index := u32 (Z.shiftr first_blocknr node_bits) in
      let last_index := u32 (Z.shiftr last_blocknr node_bits) in
      let n := Z.to_nat (last_index - first_index + 1) in
      v ← match h with
          | O =>
              f ← truncate_data n node btype first_index 0 None;
              mret (TruncateVars first_index last_index true f)
          | S _ =>
              truncate_meta (λ p f l, recursive_truncate_blocks h p btype f l) n node node_bits first_index
                last_index first_blocknr last_blocknr first_index
                (TruncateVars first_index last_index true 0)
          end;
      empty ← (if all_range_freed v then lift (is_empty_meta_block node first_index last_index)
               else mret false);
      if (empty : bool) then mret (freed v, true) else
      when (tv_start v <=? tv_end v)
        (let bzero := u32 ((tv_end v - tv_start v + 1) * 8) in
         lift (emits (cached_events (node_ptr node (tv_start v))
                        (repeat_bytes (Z.to_nat bzero) [Byte.x00]));;
               pmfs_flush_buffer clwb (node_ptr node (tv_start v)) bzero false));;
      mret (freed v, false)
  end.

Definition pmfs_free_inode_subtree (root height btype last_blocknr : Z) : FM Z :=
  if root =? 0 then mret 0
  else if height =? 0 then
    pmfs_free_block cfg (pmfs_get_blocknr root) btype;;
    mret 1
  else
    '(freed, mpty) ← recursive_truncate_blocks (Z.to_nat height) root btype 0 last_blocknr;
    bug_on (negb mpty);;
    pmfs_free_block cfg (pmfs_get_blocknr root) PMFS_BLOCK_TYPE_4K;;
    mret freed.

(** [while (height > new_height)]: [newroot]. *)
Fixpoint decrease_loop (n : nat) (newroot : Z) : FM Z :=
  match n with
  | O => mret newroot
  | S n =>
      root ← lift (deref (pmfs_get_block newroot));
      let blocknr := pmfs_get_blocknr newroot in
      newroot ← lift (fetch 8 (node_ptr root 0));
      pmfs_free_block cfg blocknr PMFS_BLOCK_TYPE_4K;;
      decrease_loop n newroot
  end.

(** The 16-byte [cmpxchg] of the first two words of the inode; nobody else
    writes them, so it succeeds. *)
Definition update_root_and_height (pi newroot new_height : Z) : PM () :=
  w ← fetch 8 pi;
  let b := Z.lor (Z.land w (Z.lnot (Z.shiftl 0xFF 16))) (Z.shiftl (u8 new_height) 16) in
  emit (EStore false pi (bytes_of 8 b ++ bytes_of 8 newroot)).

Definition pmfs_decrease_btree_height (pi newsize newroot : Z) : FM () :=
  height ← lift (fetch 1 (pi + pi_height));
  n ← lift (fetch 8 (pi + pi_i_blocks));
  if (n =? 0) || (newsize =? 0) then
    bug_on (negb (newroot =? 0));;
    lift (update_root_and_height pi newroot 0)
  else
    size ← lift (pmfs_inode_blk_size pi);
    shift ← lift (pmfs_inode_blk_shift pi);
    let last_blocknr := u64 (Z.shiftr (u64 (newsize + size - 1)) shift - 1) in
    new_height ← height_loop 8 last_blocknr 0;
    if height =? new_height then mret () else
    newroot ← decrease_loop (Z.to_nat (height - new_height)) newroot;
    lift (update_root_and_height pi newroot new_height).

(** [rec] counts below a child. *)
Fixpoint count_loop (rec : Z → PM Z) (n : nat) (node i i_blocks : Z) : PM Z :=
  match n with
  | O => mret i_blocks
  | S n =>
      p ← fetch 8 (node_ptr node i);
      if p =? 0 then count_loop rec n node (i + 1) i_blocks
      else
        k ← rec p;
        count_loop rec n node (i + 1) (u64 (i_blocks + k))
  end.

Fixpoint pmfs_inode_count_iblocks_recursive (height : nat) (block : Z) : PM Z :=
  match height with
  | O => mret 1
  | S h =>
      node ← deref (pmfs_get_block block);
      count_loop (pmfs_inode_count_iblocks_recursive h) 512 node 0 0
  end.

Definition pmfs_inode_count_iblocks (pi root : Z) : PM Z :=
  if root =? 0 then mret 0 else
  height ← fetch 1 (pi + pi_height);
  iblocks ← pmfs_inode_count_iblocks_recursive (Z.to_nat height) root;
  shift ← pmfs_inode_blk_shift pi;
  mret (u64 (Z.shiftl iblocks (shift - s_blocksize_bits))).

Definition pmfs_sparse_last_blocknr (height last_blocknr : Z) : Z :=
  if last_blocknr >=? Z.shiftl 1 (height * META_BLK_SHIFT)
  then Z.shiftl 1 (height * META_BLK_SHIFT) - 1 else last_blocknr.

(** [pmfs.h] *)
Definition check_eof_blocks (pi size : Z) : PM () :=
  f ← fetch 4 (pi + pi_i_flags);
  n ← fetch 8 (pi + pi_i_blocks);
  when (negb (Z.land f PMFS_EOFBLOCKS_FL =? 0) &&
        (u64 (size + s_blocksize) >? u64 (Z.shiftl n s_blocksize_bits)))
    (store 4 (pi + pi_i_flags) (Z.land f (u32 (Z.lnot PMFS_EOFBLOCKS_FL)))).

Definition store_times (pi : Z) (inode : inode) : PM () :=
  store 4 (pi + pi_i_mtime) (u32 (i_mtime inode));;
  store 4 (pi + pi_i_ctime) (u32 (i_ctime inode)).

(** The range to free: [None] goes to [end_truncate_blocks]. *)
Definition truncate_range (pi start end_ : Z) : PM (option (Z * Z)) :=
  root ← fetch 8 (pi + pi_root);
  if root =? 0 then mret None else
  data_bits ← pmfs_inode_blk_shift pi;
  let first_blocknr := Z.shiftr (u64 (start + Z.shiftl 1 data_bits - 1)) data_bits in
  flags ← fetch 4 (pi + pi_i_flags);
  height ← fetch 1 (pi + pi_height);
  let last_blocknr :=
    if negb (Z.land flags PMFS_EOFBLOCKS_FL =? 0)
    then Some (Z.shiftl 1 (height * META_BLK_SHIFT) - 1)
    else if end_ =? 0 then None
    else Some (pmfs_sparse_last_blocknr height (Z.shiftr (end_ - 1) data_bits)) in
  mret (match last_blocknr with
        | Some l => if first_blocknr >? l then None else Some (first_blocknr, l)
        | None => None
        end).

(** [now] is [current_time], [mounting] whether the file system is being
    mounted; the result is the VFS inode after the call. *)
Definition __pmfs_truncate_blocks (inode : inode) (start end_ now : Z) (mounting : bool)
  : FM PmfsTree.inode :=
  p ← lift (pmfs_get_inode (i_ino inode));
  pi ← lift (deref p);
  let inode := Inode (i_ino inode) (i_size inode) (i_blocks inode) now now in
  r ← lift (truncate_range pi start end_);
  match r with
  | None =>
      lift (store_times pi inode;;
            pmfs_flush_buffer clwb pi 1 false);;
      mret inode
  | Some (first_blocknr, last_blocknr) =>
      root ← lift (fetch 8 (pi + pi_root));
      height ← lift (fetch 1 (pi + pi_height));
      btype ← lift (inode_blk_type pi);
      data_bits ← lift (blk_type_to_shift btype);
      '(freed, root) ←
        (if height =? 0 then
           pmfs_free_block cfg (pmfs_get_blocknr root) btype;;
           mret (1, 0)
         else
           '(freed, mpty) ← recursive_truncate_blocks (Z.to_nat height) root btype
                              first_blocknr last_blocknr;
           if (mpty : bool) then
             pmfs_free_block cfg (pmfs_get_blocknr root) PMFS_BLOCK_TYPE_4K;;
             mret (freed, 0)
           else mret (freed, root));
      n ← (if mounting then lift (pmfs_inode_count_iblocks pi root)
           else mret (u64 (i_blocks inode
                           - u32 (freed * Z.shiftl 1 (data_bits - s_blocksize_bits)))));
      let inode := set_i_blocks inode n in
      lift (store 8 (pi + pi_i_blocks) n;;
            store_times pi inode);;
      pmfs_decrease_btree_height pi start root;;
      lift (check_eof_blocks pi (i_size inode);;
            pmfs_flush_buffer clwb pi 1 false);;
      mret inode
  end.
End Truncate.
