(* ===== verification/PmfsTreeProofs.v ===== *)
(** * PMFS: what a block tree is in memory

    [tree m n h p D]: at [p] there is a tree of height [h] whose pages and data
    runs of [n] blocks are the blocks of [D], each used once.  [find] is what
    looking a block up returns. *)

From stdpp Require Import base list gmap.
From Stdlib Require Import ZArith Lia.
From coqutil Require Import Byte.
From S2P Require Import Prelude PMem NovaBase PmfsJournal PmfsBalloc PmfsBallocProofs.
From S2P Require Import PmfsBallocMain PmfsTree.

Local Open Scope Z_scope.

(** ** Trees in memory *)

Definition ptr (m : mem) (p i : Z) : Z := load 8 m (node_ptr p i).

(** The blocks below a pointer of height [h]. *)
Definition span (h : nat) : Z := 2 ^ (9 * Z.of_nat h).

(** The block an address is in. *)
Definition blk (x : Z) : Z := x / 4096.

(** The page [b] at [p]: [C i] are the blocks of its child [i], [P] says what a
    child is. *)
Record node_ok (P : Z → (Z → Prop) → Prop) (m : mem) (p : Z) (D : Z → Prop)
    (b : Z) (C : Z → Z → Prop) : Prop := {
  no_pos : 0 < b;
  no_addr : p = 4096 * b;
  no_child i : 0 <= i < 512 → (ptr m p i = 0 ∧ ∀ y, ¬ C i y) ∨ P (ptr m p i) (C i);
  no_disjoint i j y : 0 <= i < 512 → 0 <= j < 512 → C i y → C j y → i = j;
  no_self i y : 0 <= i < 512 → C i y → y ≠ b;
  no_dom y : D y ↔ y = b ∨ ∃ i, 0 <= i < 512 ∧ C i y
}.

Fixpoint tree (m : mem) (n : Z) (h : nat) (p : Z) (D : Z → Prop) : Prop :=
  match h with
  | O => ∃ b, 0 < b ∧ p = 4096 * b ∧ (n | b) ∧ ∀ y, D y ↔ b <= y < b + n
  | S h => ∃ b C, node_ok (tree m n h) m p D b C
  end.

Fixpoint find (m : mem) (h : nat) (p k : Z) : Z :=
  match h with
  | O => p
  | S h =>
      let q := ptr m p (k / span h) in
      if q =? 0 then 0 else find m h q (k mod span h)
  end.

Lemma span_pos h : 0 < span h.
Proof. unfold span. apply Z.pow_pos_nonneg; lia. Qed.
Lemma span_S h : span (S h) = 512 * span h.
Proof.
  unfold span. replace (9 * Z.of_nat (S h)) with (9 + 9 * Z.of_nat h) by lia.
  rewrite Z.pow_add_r by lia. done.
Qed.
Lemma span_mono h h' : (h <= h')%nat → span h <= span h'.
Proof. intros. unfold span. apply Z.pow_le_mono_r; lia. Qed.

Lemma span_add h c : span (h + c) = span h * span c.
Proof. unfold span. rewrite <- Z.pow_add_r by lia. f_equal. lia. Qed.
Lemma span_child h k : 0 <= k < span (S h) → 0 <= k / span h < 512 ∧ 0 <= k mod span h < span h.
Proof.
  pose proof (span_pos h). rewrite span_S. intros Hk. split; [|apply Z.mod_pos_bound; lia].
  split; [apply Z.div_pos; lia|apply Z.div_lt_upper_bound; lia].
Qed.

(** The bytes of pointer [i] are in the page. *)
Lemma ptr_blk b i x : 0 <= i < 512 → in_range (node_ptr (4096 * b) i) 8 x → blk x = b.
Proof.
  unfold in_range, node_ptr, blk. intros Hi Hx. symmetry.
  apply (Z.div_unique x 4096 b (x - 4096 * b)); lia.
Qed.

Lemma ptr_ext m1 m2 p i : agree (in_range (node_ptr p i) 8) m1 m2 → ptr m1 p i = ptr m2 p i.
Proof. intros. by apply load_ext. Qed.

Lemma ptr_bound m p i : 0 <= ptr m p i < 2 ^ 64.
Proof. apply (load_bound 8). Qed.

Section Tree.
Variable n : Z.
Hypothesis Hn : 1 <= n.

Lemma tree_ext m h p D D' : tree m n h p D → (∀ y, D y ↔ D' y) → tree m n h p D'.
Proof.
  intros Ht E. destruct h; simpl in *.
  - destruct Ht as (b & ? & ? & ? & HD). exists b. split_and!; [done..|]. intros y. by rewrite <- E.
  - destruct Ht as (b & C & []). exists b, C. split; try done. intros y. by rewrite <- E.
Qed.

Lemma tree_addr m h p D : tree m n h p D → ∃ b, 0 < b ∧ p = 4096 * b ∧ D b.
Proof using Hn.
  destruct h; simpl.
  - intros (b & ? & ? & _ & HD). exists b. split_and!; [done..|]. apply HD. lia.
  - intros (b & C & []). exists b. split_and!; [done..|]. apply no_dom0. by left.
Qed.

Lemma tree_nonzero m h p D : tree m n h p D → p ≠ 0.
Proof using Hn. intros (b & ? & -> & _)%tree_addr. lia. Qed.

(** Only the blocks of the tree matter. *)
Lemma tree_frame m m' h : ∀ p D,
  tree m n h p D → agree (λ x, D (blk x)) m' m → tree m' n h p D.
Proof.
  induction h as [|h IH]; intros p D Ht Ha; [done|]. simpl in *.
  destruct Ht as (b & C & [H1 H2 H3 H4 H5 H6]). exists b, C.
  assert (Hp : ∀ i, 0 <= i < 512 → ptr m' p i = ptr m p i).
  { intros i Hi. apply ptr_ext. intros x Hx. apply Ha. subst p. rewrite (ptr_blk b i x Hi Hx).
    apply H6. by left. }
  split; try done. intros i Hi. rewrite (Hp i Hi). destruct (H3 i Hi) as [?|Hc]; [by left|right].
  apply IH; [done|]. intros x Hx. apply Ha, H6. right. eauto.
Qed.

Lemma find_frame m m' h : ∀ p D k,
  tree m n h p D → agree (λ x, D (blk x)) m' m → 0 <= k < span h → find m' h p k = find m h p k.
Proof.
  induction h as [|h IH]; intros p D k Ht Ha Hk; [done|]. simpl in *.
  destruct Ht as (b & C & [H1 H2 H3 H4 H5 H6]). destruct (span_child h k Hk) as [Hi Hm].
  assert (Hp : ptr m' p (k / span h) = ptr m p (k / span h)).
  { apply ptr_ext. intros x Hx. apply Ha. subst p. rewrite (ptr_blk b _ x Hi Hx).
    apply H6. by left. }
  rewrite Hp. destruct (Z.eqb_spec (ptr m p (k / span h)) 0); [done|].
  destruct (H3 _ Hi) as [[? _]|Hc]; [done|]. apply (IH _ (C (k / span h))); [done| |done].
  intros x Hx. apply Ha, H6. right. eauto.
Qed.

(** Exchanging child [i] of a page, when nothing else of the tree changes. *)
Section Update.
Variables (m m' : mem) (h : nat) (p : Z) (D : Z → Prop) (b : Z) (C : Z → Z → Prop).
Variables (i q : Z) (E : Z → Prop).
Hypothesis Hnode : node_ok (tree m n h) m p D b C.
Hypothesis Hi : 0 <= i < 512.
Hypothesis Hq : ptr m' p i = q.
Hypothesis Hother : agree (λ x, D (blk x) ∧ ¬ C i (blk x) ∧ ¬ in_range (node_ptr p i) 8 x) m' m.
Hypothesis Hnew : (q = 0 ∧ ∀ y, ¬ E y) ∨ tree m' n h q E.
Hypothesis Hfresh : ∀ y, E y → ¬ (D y ∧ ¬ C i y).

Lemma update_ptr j : 0 <= j < 512 → j ≠ i → ptr m' p j = ptr m p j.
Proof using All.
  intros Hj Hne. apply ptr_ext. intros x Hx. destruct Hnode as [H1 H2 H3 H4 H5 H6].
  assert (Eb : blk x = b) by (subst p; by apply (ptr_blk b j)).
  apply Hother. rewrite Eb. split_and!; [apply H6; by left|intros Hc; by apply (H5 i b Hi Hc)|].
  unfold in_range, node_ptr in *. lia.
Qed.

Lemma update_frame j x : 0 <= j < 512 → j ≠ i → C j (blk x) → m' !!! x = m !!! x.
Proof using All.
  intros Hj Hne Hc. destruct Hnode as [H1 H2 H3 H4 H5 H6]. apply Hother. split_and!.
  - apply H6. right. eauto.
  - intros Hc'. apply Hne. by apply (H4 j i (blk x)).
  - intros Hx. apply (H5 j (blk x) Hj Hc). subst p. by apply (ptr_blk b i).
Qed.

Lemma update_node :
  tree m' n (S h) p (λ y, (D y ∧ ¬ C i y) ∨ E y).
Proof using All.
  exists b, (λ j y, if decide (j = i) then E y else C j y).
  pose proof Hnode as [H1 H2 H3 H4 H5 H6]. split; try done.
  - intros j Hj. case_decide as Hji; [subst j; rewrite Hq; exact Hnew|].
    rewrite update_ptr by done. destruct (H3 j Hj) as [?|Hc]; [by left|right].
    apply (tree_frame m); [done|]. intros x Hx. by apply (update_frame j).
  - intros j k y Hj Hk Hcj Hck.
    repeat case_decide; subst; try done; [| |by apply (H4 j k y)]; exfalso.
    + apply (Hfresh y Hck). split; [apply H6; right; eauto|]. intros Hc. assert (i = j) by eauto. congruence.
    + apply (Hfresh y Hcj). split; [apply H6; right; eauto|]. intros Hc. assert (i = k) by eauto. congruence.
  - intros j y Hj Hcj. case_decide as Hji; [|by apply (H5 j)]. intros ->.
    apply (Hfresh b Hcj). split; [apply H6; by left|]. intros Hc. by apply (H5 i b Hi Hc).
  - intros y. rewrite H6. split.
    + intros [[[->|(j & Hj & Hc)] Hni]|He]; [by left| |right; exists i; by rewrite decide_True].
      right. exists j. split; [done|]. case_decide; [by subst|done].
    + intros [->|(j & Hj & Hc)].
      { left. split; [by left|]. intros Hc. by apply (H5 i b Hi Hc). }
      case_decide as Hji; [by right|left]. split; [right; eauto|].
      intros Hc'. apply Hji. by apply (H4 j i y).
Qed.

Lemma update_find k :
  0 <= k < span (S h) →
  find m' (S h) p k = if decide (k / span h = i) then (if q =? 0 then 0 else find m' h q (k mod span h))
                      else find m (S h) p k.
Proof using All.
  intros Hk. destruct (span_child h k Hk) as [Hd Hm]. simpl. case_decide as Hki.
  - by rewrite Hki, Hq.
  - rewrite update_ptr by done. destruct (Z.eqb_spec (ptr m p (k / span h)) 0); [done|].
    pose proof Hnode as [H1 H2 H3 H4 H5 H6]. destruct (H3 _ Hd) as [[? _]|Hc]; [done|].
    apply (find_frame m m' h _ (C (k / span h))); [done| |done].
    intros x Hx. by apply (update_frame (k / span h)).
Qed.
End Update.

(** A page of zeroes. *)
Lemma empty_node m h b :
  0 < b → (∀ i, 0 <= i < 512 → ptr m (4096 * b) i = 0) → tree m n (S h) (4096 * b) (λ y, y = b).
Proof.
  intros Hb Hz. exists b, (λ _ _, False). split; try done.
  { intros i Hi. left. split; [by apply Hz|by intros y []]. }
  intros y. split; [by left|]. by intros [?|(i & _ & [])].
Qed.

Lemma empty_find m h p k : (∀ i, 0 <= i < 512 → ptr m p i = 0) → 0 <= k < span (S h) → find m (S h) p k = 0.
Proof. intros Hz Hk. destruct (span_child h k Hk) as [Hi _]. simpl. by rewrite Hz. Qed.

(** A page on top of a tree. *)
Lemma grown_node m h p D b :
  tree m n h p D → 0 < b → ¬ D b → ptr m (4096 * b) 0 = p →
  (∀ i, 0 < i < 512 → ptr m (4096 * b) i = 0) →
  tree m n (S h) (4096 * b) (λ y, y = b ∨ D y).
Proof.
  intros Ht Hb Hd Hp Hz. exists b, (λ i y, i = 0 ∧ D y). split; try done.
  - intros i Hi. destruct (decide (i = 0)) as [->|Hne].
    + right. rewrite Hp. apply (tree_ext _ _ _ D); [done|tauto].
    + left. split; [apply Hz; lia|tauto].
  - intros i j y _ _ [-> _] [-> _]. done.
  - intros i y _ [_ Hy] ->. done.
  - intros y. split; [intros [?|?]; [by left|right; exists 0; split; [lia|done]]|].
    intros [?|(i & _ & _ & ?)]; tauto.
Qed.

Lemma grown_find m h p b k :
  p ≠ 0 → ptr m (4096 * b) 0 = p → (∀ i, 0 < i < 512 → ptr m (4096 * b) i = 0) → 0 <= k < span (S h) →
  find m (S h) (4096 * b) k = if decide (k < span h) then find m h p k else 0.
Proof.
  intros Hne Hp Hz Hk. destruct (span_child h k Hk) as [Hi Hm]. pose proof (span_pos h). simpl.
  case_decide as Hlt.
  - rewrite Z.div_small, Z.mod_small, Hp by lia. by destruct (Z.eqb_spec p 0).
  - rewrite Hz; [done|]. split; [|lia]. assert (1 <= k / span h); [|lia].
    apply Z.div_le_lower_bound; lia.
Qed.
End Tree.
