(* ===== verification/PmfsTreeAlloc.v ===== *)
(** * PMFS: allocating the blocks of a range

    Every round of the loop of [recursive_alloc_blocks] keeps the tree, takes
    only free blocks into it and keeps the blocks that were mapped. *)

From stdpp Require Import base list gmap.
From Stdlib Require Import ZArith Lia.
From coqutil Require Import Byte.
From S2P Require Import Prelude PMem PMemLine NovaBase PmfsJournal PmfsRecover PmfsTrans PmfsCrash.
From S2P Require Import PmfsBalloc PmfsBallocProofs PmfsBallocMain PmfsTree PmfsTreeProofs.

Local Open Scope Z_scope.

(** The memory as the code sees it. *)
Abbreviation vw s := (view (pm s)).

Lemma lift_eq {A} (m : PM A) s a c : m (pm s) = Ok (a, c) → lift m s = Ok (a, set_pm s c).
Proof. intros E. unfold lift. by rewrite E. Qed.
Lemma set_pm_id s : set_pm s (pm s) = s.
Proof. by destruct s. Qed.
Lemma lift_fetch k a s : lift (fetch k a) s = Ok (load k (vw s) a, s).
Proof. unfold lift. rewrite fetch_eq. by rewrite set_pm_id. Qed.
Lemma lift_ret {A} (a : A) s : lift (mret a) s = Ok (a, s).
Proof. unfold lift, mret, M_ret. by rewrite set_pm_id. Qed.

(** ** What an allocation does to the file system *)

(** [F] are the blocks taken, [D] those of the pages it may write to, [side] the
    bytes outside of them it may write. *)
Record grew (side : Z → Prop) (s : fs) (D F : Z → Prop) (s' : fs) : Prop := {
  gr_wf : wf s';
  gr_device : same_device s s';
  gr_used y : used (block_inuse_head s') y ↔ used (block_inuse_head s) y ∨ F y;
  gr_fresh y : F y → ¬ used (block_inuse_head s) y;
  gr_view : agree (λ x, ¬ D (blk x) ∧ ¬ F (blk x) ∧ ¬ side x) (vw s') (vw s)
}.

Lemma grew_refl side s D : wf s → grew side s D (λ _, False) s.
Proof. intros. split; [done|done|tauto|tauto|by intros x]. Qed.

Lemma grew_ext side s D F F' s' : grew side s D F s' → (∀ y, F y ↔ F' y) → grew side s D F' s'.
Proof.
  intros [H1 H2 H3 H4 H5] E. split; [done|done| | |].
  - intros y. by rewrite H3, E.
  - intros y Hy. by apply H4, E.
  - intros x (Hd & Hf & Hs). apply H5. split_and!; [done| |done]. by rewrite E.
Qed.

Lemma grew_mono side s D D' F s' : grew side s D F s' → (∀ y, D y → D' y) → grew side s D' F s'.
Proof. intros [H1 H2 H3 H4 H5] E. split; try done. intros x (Hd & Hf & Hs). apply H5. auto. Qed.

Lemma grew_trans side s1 s2 s3 D D' F F' :
  grew side s1 D F s2 → grew side s2 D' F' s3 → (∀ y, D' y → D y ∨ F y) →
  grew side s1 D (λ y, F y ∨ F' y) s3.
Proof.
  intros [A1 A2 A3 A4 A5] [B1 B2 B3 B4 B5] HD. split; [done|by etrans| | |].
  - intros y. rewrite B3, A3. tauto.
  - intros y [Hy|Hy]; [by apply A4|]. intros Hu. apply (B4 y Hy), A3. by left.
  - intros x (Hd & Hf & Hs). rewrite B5; [apply A5; tauto|].
    split_and!; [|tauto|done]. intros Hd'. apply HD in Hd'. tauto.
Qed.

(** ** What it does to the blocks found *)

Definition extends (rng : Z → Prop) (ok : Prop) (h : nat) (g g' : Z → Z) : Prop :=
  ∀ k, 0 <= k < span h →
    (g k ≠ 0 → g' k = g k) ∧ (¬ rng k → g' k = g k) ∧ (ok → rng k → g' k ≠ 0).

Lemma extends_refl ok h g : extends (λ _, False) ok h g g.
Proof. intros k Hk. by split_and!. Qed.

Lemma extends_trans r1 r2 (ok1 ok2 : Prop) h g1 g2 g3 :
  (ok2 → ok1) → extends r1 ok1 h g1 g2 → extends r2 ok2 h g2 g3 →
  extends (λ k, r1 k ∨ r2 k) ok2 h g1 g3.
Proof.
  intros Hok H1 H2 k Hk. destruct (H1 k Hk) as (A1 & A2 & A3), (H2 k Hk) as (B1 & B2 & B3).
  split_and!.
  - intros Hne. rewrite B1; rewrite A1; done.
  - intros Hr. rewrite B2, A2; tauto.
  - intros Ho [Hr|Hr]; [|by apply B3]. rewrite B1; auto.
Qed.

Lemma extends_weaken r r' (ok ok' : Prop) h g g' :
  (∀ k, 0 <= k < span h → r k → r' k) → (ok' → ok ∧ ∀ k, 0 <= k < span h → r' k → r k) →
  extends r ok h g g' → extends r' ok' h g g'.
Proof.
  intros Hr Hok H k Hk. destruct (H k Hk) as (A1 & A2 & A3). split_and!; [done|intros ?; auto|].
  intros Ho Hr'. destruct (Hok Ho) as [? Hback]. auto.
Qed.

(** ** Runs *)

(** The blocks of a run. *)
Definition run (b k : Z) (y : Z) : Prop := b <= y < b + k.

Lemma run_blk b k x : run_bytes b k x → run b k (blk x).
Proof.
  unfold run_bytes, in_range, run, blk. intros Hx.
  pose proof (Z.div_mod x 4096 ltac:(lia)). pose proof (Z.mod_pos_bound x 4096 ltac:(lia)). nia.
Qed.

Lemma zeroed_view b k c c' x : zeroed b k c c' → ¬ run b k (blk x) → view c' !!! x = view c !!! x.
Proof.
  intros (es & -> & Hin & _) Hx. simpl. eapply apply_events_frame; [done|].
  intros Hr. by apply Hx, run_blk.
Qed.

(** What a successful call of [pmfs_new_block] says of its run. *)
Record fresh_run (s : fs) (b k : Z) : Prop := {
  fr_pos : 0 < b;
  fr_end : b + k <= block_end s;
  fr_aligned : (k | b)
}.

Lemma fresh_run_of s b k :
  wf s → free_run (block_inuse_head s) (block_end s) b k → 1 <= k → fresh_run s b k.
Proof.
  intros [_ _ Hok _ _] ((m & Hm & Hb) & He & Ha & Hfree) Hk.
  destruct (block_inuse_head s) as [|m' l]; [done|]. injection Hm as ->. destruct Hok as (H0 & _).
  split; [|done|done]. destruct (decide (b = 0)) as [->|]; [|lia].
  exfalso. apply (Hfree 0); [lia|]. apply in_use_cons. left. lia.
Qed.

(** A store. *)
Lemma store_view c a bs : view (log_state c [EStore false a bs]) = write_bytes (view c) a bs.
Proof. done. Qed.
Lemma store_agree (P : Z → Prop) c a k v :
  (∀ x, P x → ¬ in_range a (Z.of_nat k) x) →
  agree P (view (log_state c [EStore false a (bytes_of k v)])) (view c).
Proof.
  intros Hout x Hx. rewrite store_view. apply write_bytes_out. rewrite length_bytes_of. auto.
Qed.
Lemma lift_store k a v s :
  lift (store k a v) s = Ok ((), set_pm s (log_state (pm s) [EStore false a (bytes_of k v)])).
Proof. apply lift_eq, store_eq. Qed.

Lemma flush_keeps_view c clwb a len :
  apply_events (view c) (flush_events clwb a len ++ fence_events false) = view c.
Proof.
  rewrite app_nil_r. apply apply_events_no_store, is_flush_no_store, flush_events_flushes.
Qed.

(** An integer of zero bytes. *)
Lemma load_zero k m a : (∀ x, in_range a (Z.of_nat k) x → m !!! x = Byte.x00) → load k m a = 0.
Proof.
  intros Hz. rewrite (load_ext k m ∅ a) by (intros x Hx; by rewrite Hz).
  unfold load. clear Hz. revert a. induction k as [|k IH]; intros a; [done|].
  change (read_bytes ∅ a (S k)) with ((∅ : mem) !!! a :: read_bytes ∅ (a + 1) k).
  change (LittleEndianList.le_combine (?b :: ?l)) with
    (Z.lor (byte.unsigned b) (Z.shiftl (LittleEndianList.le_combine l) 8)). by rewrite IH.
Qed.

(** ** The part of a range in one child *)

Lemma land_span x h : Z.land x (Z.shiftl 1 (Z.of_nat h * META_BLK_SHIFT) - 1) = x mod span h.
Proof.
  unfold META_BLK_SHIFT, span. rewrite Z.shiftl_1_l, Z.mul_comm. apply land_mask_mod. lia.
Qed.
Lemma shiftr_span x h : Z.shiftr x (Z.of_nat h * META_BLK_SHIFT) = x / span h.
Proof. unfold META_BLK_SHIFT, span. rewrite Z.shiftr_div_pow2 by lia. by rewrite Z.mul_comm. Qed.
Lemma shiftl_span h : Z.shiftl 1 (Z.of_nat h * META_BLK_SHIFT) = span h.
Proof. unfold META_BLK_SHIFT, span. rewrite Z.shiftl_1_l. by rewrite Z.mul_comm. Qed.

(** What child [i] of a node of height [h + 1] has of the range. *)
Definition in_child (h : nat) (first last i k : Z) : Prop :=
  k / span h = i ∧
  child_first (Z.of_nat h * META_BLK_SHIFT) (first / span h) first i <= k mod span h <=
  child_last (Z.of_nat h * META_BLK_SHIFT) (last / span h) last i.

Lemma child_bounds h first last i :
  0 <= first <= last → first / span h <= i <= last / span h →
  0 <= child_first (Z.of_nat h * META_BLK_SHIFT) (first / span h) first i <=
    child_last (Z.of_nat h * META_BLK_SHIFT) (last / span h) last i ∧
  child_last (Z.of_nat h * META_BLK_SHIFT) (last / span h) last i < span h.
Proof.
  intros Hfl Hi. unfold child_first, child_last. rewrite !land_span, shiftl_span.
  pose proof (span_pos h). pose proof (Z.mod_pos_bound first (span h) ltac:(lia)).
  pose proof (Z.mod_pos_bound last (span h) ltac:(lia)).
  pose proof (Z.div_mod first (span h) ltac:(lia)). pose proof (Z.div_mod last (span h) ltac:(lia)).
  destruct (Z.eqb_spec i (first / span h)), (Z.eqb_spec i (last / span h)); lia.
Qed.

Lemma range_split h first last k :
  0 <= first <= last → 0 <= k →
  first <= k <= last ↔ ∃ i, first / span h <= i <= last / span h ∧ in_child h first last i k.
Proof.
  intros Hfl Hk. unfold in_child, child_first, child_last. rewrite !land_span, shiftl_span.
  pose proof (span_pos h). set (s := span h) in *.
  pose proof (Z.mod_pos_bound first s ltac:(lia)). pose proof (Z.mod_pos_bound last s ltac:(lia)).
  pose proof (Z.mod_pos_bound k s ltac:(lia)).
  pose proof (Z.div_mod first s ltac:(lia)). pose proof (Z.div_mod last s ltac:(lia)).
  pose proof (Z.div_mod k s ltac:(lia)). split.
  - intros Hr. exists (k / s). split.
    { split; apply Z.div_le_mono; lia. }
    split; [done|]. destruct (Z.eqb_spec (k / s) (first / s)) as [E1|], (Z.eqb_spec (k / s) (last / s)) as [E2|];
      try rewrite E1 in *; try rewrite E2 in *; nia.
  - intros (i & Hi & <- & Hr).
    destruct (Z.eqb_spec (k / s) (first / s)) as [E1|], (Z.eqb_spec (k / s) (last / s)) as [E2|]; nia.
Qed.

(** ** The setting of an allocation *)

Section Setting.
Context `{CachedWrite}.
Variables (clwb : bool) (cfg : fs_cfg) (sbi : pmfs_sb_info) (pi btype : Z).
(** The log entries the transaction may fill. *)
Variables (slots0 nslots0 : Z).

Let n : Z := pmfs_get_numblocks btype.
Definition in_slots (x : Z) : Prop := in_range slots0 (LOGENTRY_SIZE * nslots0) x.
Hypothesis Hslots : ∀ x, in_range pi sizeof_pmfs_inode x → ¬ in_slots x.

(** No transaction, or one whose entries are those. *)
Definition tr_ok (tr : option pmfs_transaction) : Prop :=
  ∀ t, tr = Some t → redo_log sbi = false ∧ trans_at t slots0 ∧ num_entries t = nslots0 ∧
    num_used t <= num_entries t ∧ 0 <= transaction_id t < 2 ^ 32.

Lemma tr_none : tr_ok None.
Proof. done. Qed.

(** What is written outside the tree: log entries, the inode's flags and count. *)
Definition side (x : Z) : Prop :=
  in_slots x ∨ in_range (pi + pi_i_flags) 4 x ∨ in_range (pi + pi_i_blocks) 8 x.

Record pre (s : fs) (D : Z → Prop) : Prop := {
  pr_wf : wf s;
  pr_used y : D y → used (block_inuse_head s) y;
  pr_side x : in_slots x ∨ in_range pi sizeof_pmfs_inode x →
    used (block_inuse_head s) (blk x) ∧ ¬ D (blk x);
  pr_type : load 1 (vw s) (pi + pi_i_blk_type) = btype
}.

Lemma side_blocks s D x : pre s D → side x → used (block_inuse_head s) (blk x) ∧ ¬ D (blk x).
Proof.
  intros Hp [Hx|Hx]; apply (pr_side _ _ Hp); [by left|right].
  unfold in_range, pi_i_flags, pi_i_blocks, sizeof_pmfs_inode in *. lia.
Qed.

Lemma pre_sub s D D' : pre s D → (∀ y, D' y → D y) → pre s D'.
Proof.
  intros [H1 H2 H3 H4] Hs. split; [done|auto| |done]. intros x Hx. destruct (H3 x Hx). auto.
Qed.

(** The inode's type is not written. *)
Lemma grew_type s D F s' : pre s D → grew side s D F s' → load 1 (vw s') (pi + pi_i_blk_type) = btype.
Proof using Hslots.
  intros Hp Hg. rewrite <- (pr_type _ _ Hp). apply load_ext. intros x Hx. apply (gr_view _ _ _ _ _ Hg).
  assert (Hi : in_range pi sizeof_pmfs_inode x)
    by (unfold in_range, pi_i_blk_type, sizeof_pmfs_inode in *; lia).
  destruct (pr_side _ _ Hp x (or_intror Hi)) as [Hu Hd]. split_and!; [done| |].
  - intros Hf. by apply (gr_fresh _ _ _ _ _ Hg) in Hf.
  - intros [Hs|Hs]; [by apply (Hslots x Hi)|].
    unfold in_range, pi_i_blk_type, pi_i_flags, pi_i_blocks in *. lia.
Qed.

Lemma pre_grew s D F s' : pre s D → grew side s D F s' → pre s' (λ y, D y ∨ F y).
Proof using Hslots.
  intros Hp Hg. split; [by apply Hg| | |by eapply grew_type].
  - intros y [Hy|Hy]; apply (gr_used _ _ _ _ _ Hg); [left; by apply Hp|by right].
  - intros x Hx. destruct (pr_side _ _ Hp x Hx) as [Hu Hd]. split.
    + apply (gr_used _ _ _ _ _ Hg). by left.
    + intros [?|Hf]; [done|]. by apply (gr_fresh _ _ _ _ _ Hg) in Hf.
Qed.

(** Running persistent-memory code that only writes to [side]. *)
Lemma grew_pm s D c : pre s D → agree (λ x, ¬ side x) (view c) (vw s) → grew side s D (λ _, False) (set_pm s c).
Proof.
  intros Hp Ha. split; simpl; [by destruct (pr_wf _ _ Hp)|done|tauto|tauto|].
  intros x (_ & _ & Hx). by apply Ha.
Qed.

Lemma grew_idle s D s' : pre s D → idle_step s s' → grew side s D (λ _, False) s'.
Proof.
  intros Hp Hid. split; [eapply wf_idle; [apply Hp|done]| |..]; destruct Hid as [k ->]; simpl; try done.
  intros y. tauto.
Qed.

(** A run was taken, by code that writes to it only. *)
Lemma grew_run s D b k s' :
  pre s D → wf s' → same_device s s' →
  (∀ y, used (block_inuse_head s') y ↔ used (block_inuse_head s) y ∨ b <= y < b + k) →
  (∀ y, b <= y < b + k → ¬ used (block_inuse_head s) y) →
  (∀ x, ¬ run b k (blk x) → vw s' !!! x = vw s !!! x) →
  grew side s D (run b k) s'.
Proof. intros Hp Hwf Hd Hu Hf Hv. split; try done. intros x (_ & Hx & _). by apply Hv. Qed.

Lemma new_block_grew bt blocknr (zero : bool) s D :
  pre s D →
  let k := pmfs_get_numblocks bt in
  (∃ s', pmfs_new_block cfg blocknr bt zero s = Ok ((- ENOSPC, blocknr), s') ∧
     grew side s D (λ _, False) s') ∨
  ∃ b s', pmfs_new_block cfg blocknr bt zero s = Ok ((0, b), s') ∧ fresh_run s b k ∧
    grew side s D (run b k) s' ∧ (zero = true → ∀ x, run_bytes b k x → vw s' !!! x = Byte.x00).
Proof.
  intros Hp k. pose proof (numblocks_pow2 bt) as Hk. fold k in Hk. pose proof (pow2_pos k Hk).
  destruct (new_block_cases cfg blocknr bt zero s (pr_wf _ _ Hp))
    as [(s' & E & Hid & _)|(b & s' & E & Hwf & Hrun & _ & Hu & _ & Hd & Hpm)].
  - left. exists s'. split; [done|]. by apply grew_idle.
  - right. fold k in Hrun, Hu, Hpm. exists b, s'.
    split_and!; [done|apply fresh_run_of; [apply Hp|done|lia]| |].
    + apply grew_run; try done; [by apply Hrun|]. intros x Hx. destruct zero.
      * by eapply zeroed_view.
      * by rewrite Hpm.
    + intros -> x Hx. destruct Hpm as (es & -> & _ & _ & Hz). simpl. by apply Hz.
Qed.

(** [pmfs_new_data_block]. *)
Hypothesis Hbtype : 0 <= btype <= 2.
#[local] Set Default Proof Using "All".

Lemma shift_eq s : ∃ d, blk_type_to_shift btype s = Ok (d, s) ∧ 12 <= d.
Proof using Hbtype.
  unfold blk_type_to_shift.
  assert (btype = 0 ∨ btype = 1 ∨ btype = 2) as [E|[E|E]] by lia; rewrite E; simpl; eexists; split; (done || lia).
Qed.

Lemma new_data_block_grew blocknr (zero : bool) s D :
  pre s D →
  (∃ s', pmfs_new_data_block cfg pi blocknr zero s = Ok ((- ENOSPC, blocknr), s') ∧
     grew side s D (λ _, False) s') ∨
  ∃ b s', pmfs_new_data_block cfg pi blocknr zero s = Ok ((0, b), s') ∧ fresh_run s b n ∧
    grew side s D (run b n) s'.
Proof using Hslots Hbtype.
  intros Hp. unfold pmfs_new_data_block.
  rewrite (bind_Ok _ _ _ _ _ (lift_fetch 1 (pi + pi_i_blk_type) s)), (pr_type _ _ Hp).
  destruct (shift_eq (pm s)) as (d & Ed & _).
  rewrite (bind_Ok _ _ _ _ _ (lift_eq _ _ _ _ Ed)), set_pm_id.
  destruct (new_block_grew btype blocknr zero s D Hp) as [(s' & E & Hg)|(b & s' & E & Hf & Hg & _)].
  - left. exists s'. by rewrite (bind_Ok _ _ _ _ _ E).
  - right. rewrite (bind_Ok _ _ _ _ _ E). change (0 =? 0) with true. cbn [when].
    pose proof (pre_grew _ _ _ _ Hp Hg) as Hp'.
    eexists b, _. split; [|split; [done|]].
    + erewrite bind_Ok; [|apply lift_eq; erewrite bind_Ok; [|apply fetch_eq]; apply store_eq].
      reflexivity.
    + eapply (grew_ext _ _ _ (λ y, run b n y ∨ False)); [|tauto].
      eapply grew_trans; [exact Hg|eapply grew_pm; [exact Hp'|]|by intros y].
      apply store_agree. intros x Hx Hr. apply Hx. by right; right.
Qed.

(** Logging writes to the slots of the transaction only. *)
Lemma add_logentry_frame tr addr size c :
  tr_ok tr → 0 < size < 2 ^ 16 → 0 <= addr → addr + size < 2 ^ 64 →
  (∀ x, in_range addr size x → ¬ in_slots x) →
  ∃ r tr' c', pmfs_add_logentry clwb sbi tr addr size LE_DATA c = Ok ((r, tr'), c') ∧
    tr_ok tr' ∧ agree (λ x, ¬ in_slots x) (view c') (view c).
Proof.
  intros Htr Hs Ha Hb Hd. destruct tr as [t|]; [|by do 3 eexists].
  destruct (Htr t eq_refl) as (Hr & Hat & Hne & Hu & Htid).
  destruct (log_entries_for_chunked size LE_DATA) as [Hc Hpos]; [lia|].
  destruct (Z.lt_ge_cases (num_entries t) (num_used t + log_entries_for size LE_DATA)) as [Hfull|Hfit].
  { do 3 eexists. split; [by apply add_logentry_full|]. done. }
  set (k := log_entries_for size LE_DATA) in *.
  assert (Hin : ∀ x, in_range (slots0 + LOGENTRY_SIZE * num_used t) (64 * k) x → in_slots x).
  { intros x. destruct Hat as [_ ? _]. unfold in_slots, in_range, LOGENTRY_SIZE. lia. }
  do 3 eexists. split; [apply (add_logentry_data clwb sbi t addr size slots0); try done|split].
  - intros x Hx Hj. apply (Hd x Hx), Hin, Hj.
  - intros t' [= <-]. destruct Hat as [A1 A2 A3]. split; [done|]. split; [split; simpl; [done|lia|done]|simpl; lia].
  - intros x Hx. eapply apply_events_frame; [|exact (λ H, Hx (Hin x H))].
    apply stores_in_app. split; [|by apply stores_in_other, stores_in_nil].
    eapply stores_in_mono; [apply add_events_in|].
    + eapply Forall_impl; [by apply add_entries_elem|]. tauto.
    + intros y. unfold nslots. rewrite length_add_entries. unfold LOGENTRY_SIZE.
      rewrite Z2Nat.id by lia. done.
Qed.

Definition vars_ok (v : alloc_vars) : Prop := tr_ok (trans v).

Lemma save_node_grew b i last_index v s D :
  pre s D → D b → 0 < b → vars_ok v → 0 <= i <= last_index → last_index < 512 →
  ∃ v' c, save_node clwb sbi (4096 * b) i last_index v s = Ok (v', set_pm s c) ∧
    vars_ok v' ∧ new_node v' = new_node v ∧ agree (λ x, ¬ in_slots x) (view c) (vw s).
Proof.
  intros Hp Hb H0 Hv Hi Hlast. unfold save_node.
  destruct (negb (new_node v) && negb (journal_saved v)).
  2: { exists v, (pm s). rewrite set_pm_id. by split_and!. }
  assert (Hend : b < block_end s).
  { apply (pr_used _ _ Hp) in Hb. apply (used_bounds _ _ _ _ (wf_ranges _ (pr_wf _ _ Hp))) in Hb. lia. }
  assert (He : block_end s < 2 ^ 52) by apply (pr_wf _ _ Hp).
  rewrite Z.shiftl_mul_pow2, wrap_small by lia. change (2 ^ 3) with 8.
  destruct (add_logentry_frame (trans v) (node_ptr (4096 * b) i) ((last_index - i + 1) * 8) (pm s))
    as (r & tr' & c & E & Htr & Ha); [done|lia|unfold node_ptr; lia..| |].
  - intros x Hx Hj. destruct (pr_side _ _ Hp x (or_introl Hj)) as [_ Hd]. apply Hd.
    assert (Eb : blk x = b); [|by rewrite Eb]. unfold blk, in_range, node_ptr in *. symmetry.
    apply (Z.div_unique x 4096 b (x - 4096 * b)); lia.
  - exists (AllocVars tr' (new_node v) true), c.
    rewrite (bind_Ok _ _ _ _ _ (lift_eq _ _ _ _ E)). by split_and!.
Qed.

(** ** Linking a new child *)

(** The tree after the pointer [i], which was NULL, was set to [q], where there
    is a new tree of the blocks of [R]. *)
Lemma link_child s s' h b D R i q :
  let m := vw s in let m' := vw s' in
  tree m n (S h) (4096 * b) D → 0 <= i < 512 → ptr m (4096 * b) i = 0 →
  agree (λ x, D (blk x) ∧ ¬ in_range (node_ptr (4096 * b) i) 8 x) m' m →
  ptr m' (4096 * b) i = q → tree m' n h q R → (∀ y, R y → ¬ D y) →
  tree m' n (S h) (4096 * b) (λ y, D y ∨ R y) ∧
  ∀ k, 0 <= k < span (S h) →
    find m' (S h) (4096 * b) k =
    if decide (k / span h = i) then find m' h q (k mod span h) else find m (S h) (4096 * b) k.
Proof.
  intros m m' (b0 & C & Hnode) Hi Hz Ha Hq Hnew Hdis.
  assert (Hn : 1 <= n) by apply (pow2_pos n (numblocks_pow2 btype)).
  assert (Hqz : q ≠ 0) by (by eapply tree_nonzero).
  pose proof Hnode as [N1 N2 N3 N4 N5 N6].
  assert (HC : ∀ y, ¬ C i y).
  { destruct (N3 i Hi) as [[_ ?]|Hc]; [done|]. rewrite Hz in Hc.
    exfalso. by eapply (tree_nonzero n Hn). }
  assert (Ho : agree (λ x, D (blk x) ∧ ¬ C i (blk x) ∧ ¬ in_range (node_ptr (4096 * b) i) 8 x) m' m)
    by (intros x (? & _ & ?); by apply Ha).
  assert (Hf : ∀ y, R y → ¬ (D y ∧ ¬ C i y)) by (intros y Hy [? _]; by apply (Hdis y)).
  split.
  - apply (tree_ext n _ _ _ (λ y, (D y ∧ ¬ C i y) ∨ R y)).
    + apply (update_node n Hn m m' h (4096 * b) D b0 C i q R); try done. by right.
    + intros y. specialize (HC y). tauto.
  - intros k Hk.
    rewrite (update_find n Hn m m' h (4096 * b) D b0 C i q R Hnode Hi Hq Ho (or_intror Hnew) Hf k Hk).
    case_decide; [|done]. by destruct (Z.eqb_spec q 0).
Qed.

(** Room for a fresh run in the address space. *)
Lemma fresh_addr s D b k : pre s D → fresh_run s b k → 1 <= k → 0 <= b < 2 ^ 52.
Proof. intros Hp [? ? _] Hk. pose proof (wf_end _ (pr_wf _ _ Hp)). lia. Qed.

Lemma tree_block s D h b : pre s D → tree (vw s) n h (4096 * b) D → D b ∧ 0 < b.
Proof.
  intros Hp Ht. destruct (tree_addr n (proj1 (pow2_pos n (numblocks_pow2 btype))) _ _ _ _ Ht)
    as (b0 & ? & ? & ?). assert (b0 = b) by lia. by subst.
Qed.

Lemma link_fresh h b D s s1 b' k i last_index v :
  pre s D → tree (vw s) n (S h) (4096 * b) D → 0 <= i <= last_index → last_index < 512 →
  ptr (vw s) (4096 * b) i = 0 → fresh_run s b' k → 1 <= k → grew side s (λ _, False) (run b' k) s1 →
  (∀ m, agree (λ x, run b' k (blk x)) m (vw s1) → tree m n h (4096 * b') (run b' k)) → vars_ok v →
  ∃ v' c, save_node clwb sbi (4096 * b) i last_index v s1 = Ok (v', set_pm s1 c) ∧ vars_ok v' ∧
    new_node v' = new_node v ∧
    let s2 := set_pm s1 (log_state c [EStore false (node_ptr (4096 * b) i)
                                        (bytes_of 8 (pmfs_get_block_off b'))]) in
    grew side s D (run b' k) s2 ∧ ptr (vw s2) (4096 * b) i = 4096 * b' ∧
    agree (λ x, run b' k (blk x)) (vw s2) (vw s1) ∧
    tree (vw s2) n (S h) (4096 * b) (λ y, D y ∨ run b' k y) ∧
    ∀ j, 0 <= j < span (S h) →
      find (vw s2) (S h) (4096 * b) j =
      if decide (j / span h = i) then find (vw s2) h (4096 * b') (j mod span h)
      else find (vw s) (S h) (4096 * b) j.
Proof.
  intros Hp Ht Hi Hlast Hz Hfr Hk Hg Hnew Hv.
  destruct (tree_block s D (S h) b Hp Ht) as [Hb H0].
  pose proof (grew_mono _ _ _ D _ _ Hg (λ _ H, False_ind _ H)) as HgD.
  pose proof (pre_grew _ _ _ _ Hp HgD) as Hp1.
  destruct (save_node_grew b i last_index v s1 _ Hp1 (or_introl Hb) H0 Hv Hi Hlast)
    as (v' & c & E & Hv' & Hnn & Hc).
  exists v', c. split_and!; [done..|].
  rewrite pmfs_block_off_eq by exact (fresh_addr _ _ _ _ Hp Hfr Hk). intros s2.
  assert (Hpage : ∀ x, in_range (node_ptr (4096 * b) i) 8 x → blk x = b) by (intros x; apply ptr_blk; lia).
  assert (Hdis : ∀ y, run b' k y → ¬ D y).
  { intros y Hy Hd. apply (gr_fresh _ _ _ _ _ Hg y Hy), Hp, Hd. }
  assert (Hs2 : agree (λ x, ¬ in_range (node_ptr (4096 * b) i) 8 x) (vw s2) (view c))
    by (apply store_agree; auto).
  assert (Hslot : ∀ x, D (blk x) ∨ run b' k (blk x) → ¬ in_slots x).
  { intros x Hx Hj. destruct (pr_side _ _ Hp1 x (or_introl Hj)) as [_ Hnd]. by apply Hnd. }
  assert (Hq : ptr (vw s2) (4096 * b) i = 4096 * b').
  { unfold ptr. change (vw s2) with (write_bytes (view c) (node_ptr (4096 * b) i) (bytes_of 8 (4096 * b'))).
    rewrite load_write_same. apply Z.mod_small. pose proof (fresh_addr _ _ _ _ Hp Hfr Hk). simpl. lia. }
  assert (Hrun : agree (λ x, run b' k (blk x)) (vw s2) (vw s1)).
  { intros x Hx. rewrite Hs2; [apply Hc, Hslot; by right|].
    intros Hr. rewrite (Hpage x Hr) in Hx. by apply (Hdis b). }
  destruct (link_child s s2 h b D (run b' k) i (4096 * b')) as [Ht2 Hf2]; try done; [lia| |by apply Hnew|].
  { intros x [Hx Hnr]. rewrite Hs2 by done. rewrite Hc by (apply Hslot; by left).
    apply (gr_view _ _ _ _ _ Hg). split_and!; [tauto|intros Hr; by apply (Hdis (blk x))|].
    intros Hs. destruct (side_blocks _ _ _ Hp Hs) as [_ Hnd]. by apply Hnd. }
  split_and!; try done. eapply (grew_ext _ _ _ (λ y, run b' k y ∨ False)); [|tauto].
  eapply grew_trans; [exact HgD| |by intros y Hy; left; exact Hy].
  split; simpl; [by destruct (gr_wf _ _ _ _ _ Hg)|done|tauto|tauto|].
  intros x (Hx & _ & Hs). rewrite Hs2.
  - apply Hc. intros Hj. apply Hs. by left.
  - intros Hr. apply Hx. by rewrite (Hpage x Hr).
Qed.

(** ** Rounds *)

(** The outcome of code that allocates for the range [rng] of the tree at [p]:
    it returns 0 or -ENOSPC, and in either case kept the tree and what was
    mapped in it; on success the whole range is mapped. *)
Definition alloc_result {A} (h : nat) (p : Z) (rng : Z → Prop) (okA : A → Prop) (s : fs) (D : Z → Prop)
    (r : result ((Z * A) * fs)) : Prop :=
  ∃ err a s' F, r = Ok ((err, a), s') ∧ okA a ∧ (err = 0 ∨ err = - ENOSPC) ∧ grew side s D F s' ∧
    tree (vw s') n h p (λ y, D y ∨ F y) ∧
    extends rng (err = 0) h (find (vw s) h p) (find (vw s') h p).

Lemma alloc_nothing {A} h p rng (okA : A → Prop) s D s' a :
  pre s D → tree (vw s) n h p D → okA a → grew side s (λ _, False) (λ _, False) s' →
  alloc_result h p rng okA s D (Ok ((- ENOSPC, a), s')).
Proof.
  intros Hp Ht Ha Hg.
  assert (Hv : agree (λ x, D (blk x)) (vw s') (vw s)).
  { intros x Hx. apply (gr_view _ _ _ _ _ Hg). split_and!; [tauto..|].
    intros Hs. destruct (side_blocks _ _ _ Hp Hs). tauto. }
  assert (Hn : 1 <= n) by apply (pow2_pos n (numblocks_pow2 btype)).
  do 4 eexists. split; [done|]. split_and!; [done|by right|by eapply grew_mono| |].
  - apply (tree_ext n _ _ _ D); [|tauto]. by apply (tree_frame n (vw s)).
  - intros k Hk. rewrite (find_frame n (vw s) (vw s') h p D k) by done. split_and!; [done..|].
    unfold ENOSPC. lia.
Qed.

Lemma find_zero_child m h p k :
  ptr m p (k / span h) = 0 → find m (S h) p k = 0.
Proof. simpl. by intros ->. Qed.

(** The levels of data blocks. *)
Lemma alloc_data_round b s D i last_index zero v :
  pre s D → tree (vw s) n 1 (4096 * b) D → 0 <= i <= last_index → last_index < 512 → vars_ok v →
  alloc_result 1 (4096 * b) (λ k, k = i) vars_ok s D
    (alloc_data clwb cfg sbi pi (4096 * b) i last_index zero v s).
Proof.
  intros Hp Ht Hi Hlast Hv. unfold alloc_data. rewrite (bind_Ok _ _ _ _ _ (lift_fetch 8 _ s)).
  fold (ptr (vw s) (4096 * b) i). destruct (Z.eqb_spec (ptr (vw s) (4096 * b) i) 0) as [Hz|Hnz].
  2: { do 4 eexists. split; [reflexivity|]. split_and!; [done|by left|by apply grew_refl, Hp| |].
       - apply (tree_ext n _ _ _ D); [done|tauto].
       - intros k Hk. split_and!; [done..|]. intros _ ->. simpl.
         rewrite Z.div_1_r. by destruct (Z.eqb_spec (ptr (vw s) (4096 * b) i) 0). }
  pose proof (pre_sub _ _ (λ _, False) Hp (λ y H, False_ind _ H)) as Hp0.
  assert (Hn : 1 <= n) by apply (pow2_pos n (numblocks_pow2 btype)).
  destruct (new_data_block_grew 0 zero s _ Hp0) as [(s1 & E & Hg)|(b' & s1 & E & Hfr & Hg)];
    rewrite (bind_Ok _ _ _ _ _ E).
  - change (negb (- ENOSPC =? 0)) with true. cbv iota. unfold set_flag.
    erewrite bind_Ok; [|apply lift_eq; erewrite bind_Ok; [|erewrite bind_Ok; [|apply fetch_eq]; apply store_eq];
      apply pmfs_flush_buffer_eq; lia].
    apply alloc_nothing; try done.
    eapply (grew_ext _ _ _ (λ _, False ∨ False)); [|tauto].
    eapply grew_trans; [exact Hg|eapply grew_pm; [eapply pre_grew; [exact Hp0|exact Hg]|]|tauto].
    intros x Hx. simpl. rewrite app_nil_r.
    rewrite (apply_events_frame (λ _, False)); [|by apply stores_in_flushes, flush_events_flushes|tauto].
    apply write_bytes_out. rewrite length_bytes_of. intros Hr. apply Hx. right. by left.
  - change (negb (0 =? 0)) with false. cbv iota.
    destruct (link_fresh 0 b D s s1 b' n i last_index v Hp Ht Hi Hlast Hz Hfr Hn Hg)
      as (v' & c & E2 & Hv' & _ & Hg2 & _ & _ & Ht2 & Hf2); [|done|].
    { intros m Hm. exists b'. split_and!; [by apply Hfr|done|apply Hfr|done]. }
    rewrite (bind_Ok _ _ _ _ _ E2), (bind_Ok _ _ _ _ _ (lift_store _ _ _ _)).
    do 4 eexists. split; [reflexivity|]. split_and!; [done|by left|exact Hg2|exact Ht2|].
    intros k Hk. rewrite Hf2 by done. change (span 0) with 1. rewrite Z.div_1_r.
    assert (Hb' : 0 < b') by apply Hfr. cbn [find]. split_and!.
    + intros Hne. case_decide as Hki; [|done]. exfalso. apply Hne. subst k.
      apply find_zero_child. change (span 0) with 1. by rewrite Z.div_1_r.
    + intros Hne. by rewrite decide_False.
    + intros _ ->. rewrite decide_True by done. lia.
Qed.

Lemma zero_page m b : (∀ x, run_bytes b 1 x → m !!! x = Byte.x00) → ∀ j, 0 <= j < 512 → ptr m (4096 * b) j = 0.
Proof.
  intros Hz j Hj. apply load_zero. intros x Hx. apply Hz.
  unfold run_bytes, in_range, node_ptr in *. lia.
Qed.

(** The page of child [i], which is there when the round goes on. *)
Lemma alloc_meta_round h b s D i last_index v :
  pre s D → tree (vw s) n (S (S h)) (4096 * b) D → 0 <= i <= last_index → last_index < 512 → vars_ok v →
  ∃ err v' s' F, alloc_meta clwb cfg sbi (4096 * b) i last_index v s = Ok ((err, v'), s') ∧
    vars_ok v' ∧ (err = 0 ∨ err = - ENOSPC) ∧ grew side s D F s' ∧
    tree (vw s') n (S (S h)) (4096 * b) (λ y, D y ∨ F y) ∧
    (∀ k, 0 <= k < span (S (S h)) →
       find (vw s') (S (S h)) (4096 * b) k = find (vw s) (S (S h)) (4096 * b) k) ∧
    (err = 0 → ptr (vw s') (4096 * b) i ≠ 0).
Proof.
  intros Hp Ht Hi Hlast Hv. unfold alloc_meta. rewrite (bind_Ok _ _ _ _ _ (lift_fetch 8 _ s)).
  fold (ptr (vw s) (4096 * b) i). destruct (Z.eqb_spec (ptr (vw s) (4096 * b) i) 0) as [Hz|Hnz].
  2: { exists 0, v, s, (λ _, False). split_and!; try done; [by left|by apply grew_refl, Hp|].
       apply (tree_ext n _ _ _ D); [done|tauto]. }
  pose proof (pre_sub _ _ (λ _, False) Hp (λ y H, False_ind _ H)) as Hp0.
  destruct (new_block_grew PMFS_BLOCK_TYPE_4K 0 true s _ Hp0)
    as [(s1 & E & Hg)|(b' & s1 & E & Hfr & Hg & Hzero)]; rewrite (bind_Ok _ _ _ _ _ E).
  - change (negb (- ENOSPC =? 0)) with true. cbv iota.
    destruct (alloc_nothing (S (S h)) (4096 * b) (λ _, False) vars_ok s D s1 v Hp Ht Hv Hg)
      as (err & a & s' & F & [= <- <- <-] & Ha & Herr & Hg' & Ht' & Hx).
    exists (- ENOSPC), v, s1, F. split_and!; try done. intros k Hk. destruct (Hx k Hk) as (_ & Hx' & _).
    apply Hx'. tauto.
  - change (negb (0 =? 0)) with false. cbv iota. change (pmfs_get_numblocks PMFS_BLOCK_TYPE_4K) with 1 in *.
    assert (Hb' : 0 < b') by apply Hfr.
    destruct (link_fresh (S h) b D s s1 b' 1 i last_index v Hp Ht Hi Hlast Hz Hfr ltac:(lia) Hg)
      as (v' & c & E2 & Hv' & _ & Hg2 & Hq & Hrun & Ht2 & Hf2); [|done|].
    { intros m Hm. apply (tree_ext n _ _ _ (λ y, y = b')); [|unfold run; lia].
      apply empty_node; [done|]. apply zero_page. intros x Hx. rewrite Hm by (by apply run_blk).
      by apply Hzero. }
    rewrite (bind_Ok _ _ _ _ _ E2), (bind_Ok _ _ _ _ _ (lift_store _ _ _ _)).
    do 4 eexists. split; [reflexivity|]. split_and!; [exact Hv'|by left|exact Hg2|exact Ht2| |].
    + intros k Hk. rewrite Hf2 by done. case_decide as Hki; [|done].
      rewrite (find_zero_child (vw s) _ (4096 * b) k) by (by rewrite Hki).
      apply empty_find; [|by apply span_child]. apply zero_page. intros x Hx.
      rewrite Hrun by (by apply run_blk). by apply Hzero.
    + intros _ E0. assert (4096 * b' = 0) by (rewrite <- Hq; exact E0). lia.
Qed.

(** ** Putting rounds together *)

Lemma alloc_ext {A} h p r r' (okA : A → Prop) s D res :
  (∀ k, 0 <= k < span h → r k ↔ r' k) → alloc_result h p r okA s D res → alloc_result h p r' okA s D res.
Proof.
  intros Hr (err & a & s' & F & -> & Ha & Herr & Hg & Ht & Hx).
  exists err, a, s', F. split_and!; try done. eapply extends_weaken; [| |exact Hx].
  - intros k Hk. by apply Hr.
  - intros ?. split; [done|]. intros k Hk. by apply Hr.
Qed.

Lemma alloc_then {A B} h p r1 r2 (okA : A → Prop) (okB : B → Prop) s D (m : FM (Z * A)) (f : Z * A → FM (Z * B)) :
  alloc_result h p r1 okA s D (m s) → pre s D →
  (∀ a s' F, okA a → pre s' (λ y, D y ∨ F y) → tree (vw s') n h p (λ y, D y ∨ F y) →
     alloc_result h p r2 okB s' (λ y, D y ∨ F y) (f (0, a) s')) →
  (∀ a s', okA a → ∃ b, okB b ∧ f (- ENOSPC, a) s' = Ok ((- ENOSPC, b), s')) →
  alloc_result h p (λ k, r1 k ∨ r2 k) okB s D ((m ≫= f) s).
Proof.
  intros (err & a & s' & F & E & Ha & Herr & Hg & Ht & Hx) Hp Hok Hfail.
  rewrite (bind_Ok _ _ _ _ _ E). destruct Herr as [-> | ->].
  - destruct (Hok a s' F Ha (pre_grew _ _ _ _ Hp Hg) Ht)
      as (err & b & s'' & F' & -> & Hb & Herr & Hg' & Ht' & Hx').
    exists err, b, s'', (λ y, F y ∨ F' y). split_and!; try done.
    + by eapply grew_trans.
    + eapply tree_ext; [exact Ht'|]. intros y. tauto.
    + eapply (extends_trans _ _ (0 = 0)); [done|exact Hx|exact Hx'].
  - destruct (Hfail a s' Ha) as (b & Hb & ->). exists (- ENOSPC), b, s', F.
    split_and!; try done; [by right|]. eapply extends_weaken; [| |exact Hx]; [by left|done].
Qed.

Lemma alloc_loop_result h p rng round lo hi cnt : ∀ i v s D,
  (∀ i v s D, lo <= i <= hi → pre s D → tree (vw s) n h p D → vars_ok v →
     alloc_result h p (rng i) vars_ok s D (round i v s)) →
  pre s D → tree (vw s) n h p D → vars_ok v → lo <= i → i + Z.of_nat cnt <= hi + 1 →
  alloc_result h p (λ k, ∃ j, i <= j < i + Z.of_nat cnt ∧ rng j k) vars_ok s D (alloc_loop round cnt i v s).
Proof.
  induction cnt as [|cnt IH]; intros i v s D Hround Hp Ht Hv Hlo Hhi.
  { exists 0, v, s, (λ _, False). split_and!; try done; [by left|by apply grew_refl, Hp| |].
    - apply (tree_ext n _ _ _ D); [done|tauto].
    - intros k Hk. split_and!; [done..|]. intros _ (j & ? & _). lia. }
  cbn [alloc_loop].
  apply (alloc_ext _ _ (λ k, rng i k ∨ ∃ j, i + 1 <= j < i + 1 + Z.of_nat cnt ∧ rng j k)).
  { intros k Hk. split.
    - intros [Hr|(j & Hj & Hr)]; [exists i|exists j]; (split; [lia|done]).
    - intros (j & Hj & Hr). destruct (decide (j = i)) as [->|]; [by left|right].
      exists j. split; [lia|done]. }
  apply (alloc_then _ _ _ _ vars_ok); [apply Hround; try done; lia|done| |].
  - intros a s' F Ha Hp' Ht'. change (negb (0 =? 0)) with false. cbv iota.
    apply IH; try done; lia.
  - intros a s' Ha. by exists a.
Qed.

(** What happens to a child happens to the tree. *)
Lemma alloc_child {A} h b D C b0 i rng (okA : A → Prop) s r :
  pre s D → node_ok (tree (vw s) n h) (vw s) (4096 * b) D b0 C → 0 <= i < 512 →
  ptr (vw s) (4096 * b) i ≠ 0 →
  alloc_result h (ptr (vw s) (4096 * b) i) rng okA s (C i) r →
  alloc_result (S h) (4096 * b) (λ k, k / span h = i ∧ rng (k mod span h)) okA s D r.
Proof.
  intros Hp Hnode Hi Hnz (err & a & s' & F & -> & Ha & Herr & Hg & Ht & Hx).
  pose proof Hnode as [N1 N2 N3 N4 N5 N6].
  assert (Hn : 1 <= n) by apply (pow2_pos n (numblocks_pow2 btype)).
  assert (HCD : ∀ y, C i y → D y) by (intros y Hy; apply N6; right; eauto).
  assert (Hview : agree (λ x, D (blk x) ∧ ¬ C i (blk x)) (vw s') (vw s)).
  { intros x [Hd Hc]. apply (gr_view _ _ _ _ _ Hg). split_and!; [done| |].
    - intros Hf. apply (gr_fresh _ _ _ _ _ Hg) in Hf. by apply Hf, Hp.
    - intros Hs. by destruct (side_blocks _ _ _ Hp Hs). }
  assert (Hq : ptr (vw s') (4096 * b) i = ptr (vw s) (4096 * b) i).
  { apply ptr_ext. intros x Hx'. apply Hview. rewrite (ptr_blk b i x Hi Hx').
    assert (b = b0) by lia. subst b0. split; [apply N6; by left|intros Hc; by apply (N5 i b)]. }
  assert (Ho : agree (λ x, D (blk x) ∧ ¬ C i (blk x) ∧ ¬ in_range (node_ptr (4096 * b) i) 8 x) (vw s') (vw s))
    by (intros x (? & ? & _); by apply Hview).
  assert (Hf : ∀ y, C i y ∨ F y → ¬ (D y ∧ ¬ C i y)).
  { intros y [Hy|Hy] [Hd Hc]; [done|]. apply (gr_fresh _ _ _ _ _ Hg y Hy), Hp, Hd. }
  exists err, a, s', F. split_and!; try done.
  - eapply grew_mono; [exact Hg|done].
  - apply (tree_ext n _ _ _ (λ y, (D y ∧ ¬ C i y) ∨ (C i y ∨ F y))).
    + apply (update_node n Hn (vw s) (vw s') h (4096 * b) D b0 C i _ (λ y, C i y ∨ F y) Hnode Hi Hq Ho);
        [by right|done].
    + intros y. specialize (HCD y). destruct (N3 i Hi) as [[? _]|_]; [done|].
      split; [tauto|]. intros [Hd|?]; [|tauto].
      destruct (decide (y = b0)) as [->|]; [left; split; [done|]; intros Hc; by apply (N5 i b0)|].
      apply N6 in Hd as [->|(j & Hj & Hc)]; [done|]. destruct (decide (j = i)) as [->|Hne]; [tauto|].
      left. split; [apply N6; right; eauto|]. intros Hc'. apply Hne. by apply (N4 j i y).
  - intros k Hk. destruct (span_child h k Hk) as [Hd Hm].
    rewrite (update_find n Hn (vw s) (vw s') h (4096 * b) D b0 C i _ (λ y, C i y ∨ F y) Hnode Hi Hq Ho
      (or_intror Ht) Hf k Hk).
    destruct (Z.eqb_spec (ptr (vw s) (4096 * b) i) 0); [done|]. case_decide as Hki.
    + assert (Efind : find (vw s) (S h) (4096 * b) k = find (vw s) h (ptr (vw s) (4096 * b) i) (k mod span h)).
      { simpl. rewrite Hki. by destruct (Z.eqb_spec (ptr (vw s) (4096 * b) i) 0). }
      rewrite Efind. destruct (Hx (k mod span h) Hm) as (X1 & X2 & X3). split_and!; [done| |].
      * intros Hr. apply X2. intros Hr'. by apply Hr.
      * intros Ho' [_ Hr]. by apply X3.
    + split_and!; [done..|]. by intros _ [? _].
Qed.

(** A step that found nothing new, before an allocation. *)
Lemma alloc_after {A} h p rng (okA : A → Prop) s s1 D F res :
  grew side s D F s1 →
  (∀ k, 0 <= k < span h → find (vw s1) h p k = find (vw s) h p k) →
  alloc_result h p rng okA s1 (λ y, D y ∨ F y) res → alloc_result h p rng okA s D res.
Proof.
  intros Hg Hfind (err & a & s' & F' & -> & Ha & Herr & Hg' & Ht' & Hx).
  exists err, a, s', (λ y, F y ∨ F' y). split_and!; try done.
  - by eapply grew_trans.
  - eapply tree_ext; [exact Ht'|]. intros y. tauto.
  - intros k Hk. rewrite <- Hfind by done. by apply Hx.
Qed.

(** A change of what is returned. *)
Lemma alloc_map {A B} h p rng (okA : A → Prop) (okB : B → Prop) s D (m : FM (Z * A)) (f : Z * A → FM (Z * B)) :
  alloc_result h p rng okA s D (m s) →
  (∀ err a s', (err = 0 ∨ err = - ENOSPC) → okA a →
     ∃ b c, okB b ∧ f (err, a) s' = Ok ((err, b), set_pm s' c) ∧ view c = vw s') →
  alloc_result h p rng okB s D ((m ≫= f) s).
Proof.
  intros (err & a & s' & F & E & Ha & Herr & Hg & Ht & Hx) Hf.
  rewrite (bind_Ok _ _ _ _ _ E). destruct (Hf err a s' Herr Ha) as (b & c & Hb & -> & Ec).
  exists err, b, (set_pm s' c), F. assert (Ev : vw (set_pm s' c) = vw s') by done.
  rewrite Ev. split_and!; try done.
  destruct Hg as [G1 G2 G3 G4 G5]. split; try done; [by destruct G1|].
  intros x Hx'. rewrite Ev. by apply G5.
Qed.

Section MetaRound.
Variables (h : nat) (zero : bool).
Variable rec : option pmfs_transaction → Z → Z → Z → bool → FM (Z * option pmfs_transaction).
Hypothesis Hrec : ∀ s D tr b f l nw,
  pre s D → tree (vw s) n (S h) (4096 * b) D → tr_ok tr → 0 <= f <= l → l < span (S h) →
  alloc_result (S h) (4096 * b) (λ k, f <= k <= l) tr_ok s D (rec tr (4096 * b) f l nw s).
Let node_bits : Z := Z.of_nat (S h) * META_BLK_SHIFT.

(** A round above the data blocks: the child's page, then the child. *)
Lemma alloc_meta_then b s D i first last v :
  pre s D → tree (vw s) n (S (S h)) (4096 * b) D → vars_ok v →
  0 <= first <= last → last < span (S (S h)) →
  first / span (S h) <= i <= last / span (S h) →
  alloc_result (S (S h)) (4096 * b) (in_child (S h) first last i) vars_ok s D
    (('(errval, v) ← alloc_meta clwb cfg sbi (4096 * b) i (last / span (S h)) v;
      if negb (errval =? 0) then mret (errval, v) else
      p ← lift (fetch 8 (node_ptr (4096 * b) i));
      '(errval, t) ← rec (trans v) p (child_first node_bits (first / span (S h)) first i)
                       (child_last node_bits (last / span (S h)) last i) (new_node v);
      mret (if errval <? 0 then errval else 0, AllocVars t (new_node v) (journal_saved v))) s).
Proof.
  intros Hp Ht Hv Hfl Hlast Hi.
  destruct (span_child (S h) first ltac:(lia)) as [Hf1 _].
  destruct (span_child (S h) last ltac:(lia)) as [Hl1 _].
  destruct (alloc_meta_round h b s D i (last / span (S h)) v Hp Ht ltac:(lia) ltac:(lia) Hv)
    as (err & v1 & s1 & F & E & Hv1 & Herr & Hg & Ht1 & Hfind & Hptr).
  rewrite (bind_Ok _ _ _ _ _ E). destruct Herr as [-> | ->].
  2: { exists (- ENOSPC), v1, s1, F. split_and!; try done; [by right|].
       intros k Hk. rewrite Hfind by done. split_and!; [done..|]. unfold ENOSPC. lia. }
  change (negb (0 =? 0)) with false. cbv iota. specialize (Hptr eq_refl).
  apply (alloc_after _ _ _ _ s s1 D F); [done..|].
  pose proof (pre_grew _ _ _ _ Hp Hg) as Hp1.
  rewrite (bind_Ok _ _ _ _ _ (lift_fetch 8 _ s1)). fold (ptr (vw s1) (4096 * b) i).
  pose proof Ht1 as (b0 & C & Hnode). pose proof Hnode as [N1 N2 N3 N4 N5 N6].
  destruct (N3 i ltac:(lia)) as [[? _]|Hc]; [done|].
  destruct (tree_addr n (proj1 (pow2_pos n (numblocks_pow2 btype))) _ _ _ _ Hc) as (bc & _ & Ebc & _).
  destruct (child_bounds (S h) first last i Hfl Hi) as [Hb1 Hb2].
  apply (alloc_map _ _ _ tr_ok).
  - apply (alloc_child (S h) b (λ y, D y ∨ F y) C b0 i (λ k,
      child_first node_bits (first / span (S h)) first i <= k <=
      child_last node_bits (last / span (S h)) last i) tr_ok s1); [done|exact Hnode|lia|done|].
    rewrite Ebc in Hc |- *. apply Hrec; try done.
    apply (pre_sub _ _ _ Hp1). intros y Hy. apply N6. right. exists i. split; [lia|done].
  - intros err a s' Herr Ha. exists (AllocVars a (new_node v1) (journal_saved v1)), (pm s').
    rewrite set_pm_id. split_and!; [done| |done]. by destruct Herr as [-> | ->].
Qed.
End MetaRound.

(** ** The whole call *)

Lemma recursive_alloc_result h : ∀ s D tr b f l nw zero,
  (0 < h <= 3)%nat → pre s D → tree (vw s) n h (4096 * b) D → tr_ok tr → 0 <= f <= l → l < span h →
  alloc_result h (4096 * b) (λ k, f <= k <= l) tr_ok s D
    (recursive_alloc_blocks clwb cfg sbi h tr pi (4096 * b) f l nw zero s).
Proof.
  induction h as [|h IH]; intros s D tr b f l nw zero Hh Hp Ht Htr Hfl Hl; [lia|].
  destruct (tree_block s D (S h) b Hp Ht) as [Hb H0].
  destruct (span_child h f ltac:(lia)) as [Hf1 _]. destruct (span_child h l ltac:(lia)) as [Hl1 _].
  pose proof (Z.div_le_mono f l (span h) ltac:(pose proof (span_pos h); lia) ltac:(lia)) as Hle.
  cbn [recursive_alloc_blocks]. rewrite !shiftr_span, (wrap_small 32 (f / span h)), (wrap_small 32 (l / span h)) by lia.
  assert (En : pmfs_get_block (4096 * b) = Some (4096 * b))
    by (unfold pmfs_get_block; by destruct (Z.eqb_spec (4096 * b) 0); [lia|]).
  rewrite En. unfold deref. rewrite (bind_Ok _ _ _ _ _ (lift_ret _ s)).
  apply (alloc_map _ _ _ vars_ok).
  - apply (alloc_ext _ _ (λ k, ∃ j, f / span h <= j < f / span h + Z.of_nat (Z.to_nat (l / span h - f / span h + 1))
      ∧ in_child h f l j k)).
    { intros k Hk. rewrite (range_split h f l k) by lia.
      split; intros (j & Hj & Hr); exists j; (split; [lia|done]). }
    apply (alloc_loop_result _ _ _ _ (f / span h) (l / span h)); try done; [|lia..].
    clear s D Hp Ht Hb. intros i v s D Hi Hp Ht Hv. destruct h as [|h].
    + apply (alloc_ext _ _ (λ k, k = i)).
      { intros k Hk. unfold in_child, child_first, child_last. rewrite !land_span, shiftl_span.
        change (span 0) with 1 in *. rewrite Z.div_1_r, !Z.mod_1_r.
        destruct (_ =? _), (_ =? _); intuition lia. }
      apply alloc_data_round; try done; lia.
    + apply (alloc_meta_then h zero (λ tr p f l nw, recursive_alloc_blocks clwb cfg sbi (S h) tr pi p f l nw zero));
        try done; [|lia..].
      intros. apply IH; try done; lia.
  - intros err v s' Herr Hv. exists (trans v).
    assert (Hid : ∃ c, (mret (err, trans v) : FM _) s' = Ok ((err, trans v), set_pm s' c) ∧ view c = vw s')
      by (exists (pm s'); by rewrite set_pm_id).
    destruct Herr as [-> | ->]; [|by destruct Hid as (c & E & Ec); exists c; split_and!].
    change (negb (0 =? 0)) with false. cbv iota. unfold when. destruct (_ || _).
    + erewrite bind_Ok; [|apply lift_eq, pmfs_flush_buffer_eq]; [|rewrite wrap_small; lia].
      eexists. split_and!; [done|reflexivity|]. simpl. apply flush_keeps_view.
    + destruct Hid as (c & E & Ec). exists c. by split_and!.
Qed.
End Setting.
