(* ===== verification/PmfsTreeFile.v ===== *)
(** * PMFS: allocating blocks of a file

    [__pmfs_alloc_blocks] on an inode: growing the tree, then filling the
    range. *)

From stdpp Require Import base list gmap.
From Stdlib Require Import ZArith Lia.
From coqutil Require Import Byte.
From S2P Require Import Prelude PMem PMemLine NovaBase PmfsJournal PmfsRecover PmfsTrans PmfsCrash.
From S2P Require Import PmfsBalloc PmfsBallocProofs PmfsBallocMain PmfsTree PmfsTreeProofs PmfsTreeAlloc.

Local Open Scope Z_scope.

Section File.
Context `{CachedWrite}.
Variables (clwb : bool) (cfg : fs_cfg) (sbi : pmfs_sb_info) (pi btype : Z).
Variables (slots0 nslots0 : Z).
Hypothesis Hbtype : 0 <= btype <= 2.
Hypothesis Hslots : ∀ x, in_range pi sizeof_pmfs_inode x → ¬ in_slots slots0 nslots0 x.
Hypothesis Hpanic : errors_panic cfg = false.
#[local] Set Default Proof Using "All".

Let n : Z := pmfs_get_numblocks btype.
Abbreviation pre := (PmfsTreeAlloc.pre pi btype slots0 nslots0).
Abbreviation side := (PmfsTreeAlloc.side pi slots0 nslots0).
Abbreviation tr_ok := (PmfsTreeAlloc.tr_ok sbi slots0 nslots0).

Lemma n_pos : 1 <= n.
Proof using btype n. apply (pow2_pos n (numblocks_pow2 btype)). Qed.

(** A tree, or none. *)
Definition dtree (m : mem) (h : nat) (root : Z) (D : Z → Prop) : Prop :=
  (root = 0 ∧ h = O ∧ ∀ y, ¬ D y) ∨ tree m n h root D.

(** The block at [k], in blocks of the inode's type: 0 is a hole. *)
Definition block_at (m : mem) (h : nat) (root k : Z) : Z :=
  if decide (k < span h) then find m h root k else 0.

Lemma dtree_frame m m' h root D : dtree m h root D → agree (λ x, D (blk x)) m' m → dtree m' h root D.
Proof using btype n. intros [?|Ht] Ha; [by left|right]. by apply (tree_frame n m). Qed.

Lemma block_at_frame m m' h root D k :
  dtree m h root D → agree (λ x, D (blk x)) m' m → 0 <= k → block_at m' h root k = block_at m h root k.
Proof using btype n.
  intros Ht Ha Hk. unfold block_at. case_decide; [|done].
  destruct Ht as [(-> & -> & _)|Ht]; [done|]. by apply (find_frame n m m' h root D).
Qed.

(** One more page on top. *)
Lemma top_page m h root D b :
  dtree m h root D → 0 < b → ¬ D b → ptr m (4096 * b) 0 = root →
  (∀ i, 0 < i < 512 → ptr m (4096 * b) i = 0) →
  tree m n (S h) (4096 * b) (λ y, D y ∨ y = b) ∧
  ∀ k, 0 <= k → block_at m (S h) (4096 * b) k = block_at m h root k.
Proof.
  intros [(-> & -> & HD)|Ht] Hb Hnb H0 Hz.
  - assert (Hz' : ∀ i, 0 <= i < 512 → ptr m (4096 * b) i = 0).
    { intros i Hi. destruct (decide (i = 0)) as [->|]; [done|apply Hz; lia]. }
    split.
    + apply (tree_ext n _ _ _ (λ y, y = b)); [by apply (empty_node n)|]. intros y. specialize (HD y). tauto.
    + intros k Hk. unfold block_at. case_decide as Hs; [|by case_decide].
      rewrite (empty_find m 0 (4096 * b) k) by done. by case_decide.
  - split.
    + apply (tree_ext n _ _ _ (λ y, y = b ∨ D y)); [by apply (grown_node n m h root D b)|]. intros y. tauto.
    + intros k Hk. unfold block_at. pose proof (span_pos h). rewrite span_S. case_decide as Hs.
      * apply (grown_find m h root b k); try done; [exact (tree_nonzero n n_pos _ _ _ _ Ht)|by rewrite span_S].
      * by rewrite decide_False by lia.
Qed.

(** ** Growing the tree *)

(** The outcome: all levels, or as many as there was space for. *)
Definition increase_result (levels h : nat) (root : Z) (s : fs) (D : Z → Prop)
    (r : result (Z * Z * Z * fs)) : Prop :=
  ∃ err root' h' s' F, r = Ok ((err, root', Z.of_nat h'), s') ∧ (err = 0 ∨ err = - ENOSPC) ∧
    grew side s (λ _, False) F s' ∧ dtree (vw s') h' root' (λ y, D y ∨ F y) ∧
    (∀ k, 0 <= k → block_at (vw s') h' root' k = block_at (vw s) h root k) ∧
    (err = 0 → h' = (h + levels)%nat) ∧ (h <= h' <= h + levels)%nat.

Lemma increase_loop_result levels : ∀ h root s D,
  pre s D → dtree (vw s) h root D → 0 <= root < 2 ^ 64 →
  increase_result levels h root s D (increase_loop clwb cfg levels (Z.of_nat h) root s).
Proof.
  induction levels as [|levels IH]; intros h root s D Hp Ht Hroot.
  { exists 0, root, h, s, (λ _, False). split_and!; try done; [by left|by apply grew_refl, Hp| |lia..].
    destruct Ht as [(-> & -> & HD)|Ht]; [left; split_and!; [done..|]; intros y; specialize (HD y); tauto|right].
    apply (tree_ext n _ _ _ D); [done|tauto]. }
  cbn [increase_loop].
  pose proof (pre_sub _ _ _ _ _ _ (λ _, False) Hp (λ y H, False_ind _ H)) as Hp0.
  destruct (new_block_grew cfg pi btype slots0 nslots0 PMFS_BLOCK_TYPE_4K 0 true s _ Hp0)
    as [(s1 & E & Hg)|(b & s1 & E & Hfr & Hg & Hzero)]; rewrite (bind_Ok _ _ _ _ _ E).
  - change (negb (- ENOSPC =? 0)) with true. cbv iota. unfold pmfs_error_mng. rewrite Hpanic.
    set (s2 := error_state cfg s1).
    rewrite (bind_Ok _ _ s1 () s2) by reflexivity.
    assert (Hg2 : grew side s (λ _, False) (λ _, False) s2).
    { destruct Hg as [G1 G2 G3 G4 G5]. split; try done; [by destruct G1|].
      destruct G2 as (? & ? & Hr). split_and!; [done..|]. intros Hro. simpl. by rewrite Hr. }
    assert (Hv : agree (λ x, D (blk x)) (vw s2) (vw s)).
    { intros x Hx. apply (gr_view _ _ _ _ _ Hg2). split_and!; [tauto..|].
      intros Hs. destruct (side_blocks _ _ _ _ _ _ _ Hp Hs). tauto. }
    exists (- ENOSPC), root, h, s2, (λ _, False). split_and!; try done; [by right| | |lia..].
    + apply (dtree_frame _ (vw s2)) in Ht; [|done].
      destruct Ht as [(-> & -> & HD)|Ht]; [left; split_and!; [done..|]; intros y; specialize (HD y); tauto|right].
      apply (tree_ext n _ _ _ D); [done|tauto].
    + intros k Hk. by apply (block_at_frame _ _ _ _ D).
  - change (negb (0 =? 0)) with false. cbv iota.
    change (pmfs_get_numblocks PMFS_BLOCK_TYPE_4K) with 1 in *.
    assert (Hb : 0 < b) by apply Hfr.
    assert (Hb52 : 0 <= b < 2 ^ 52) by (apply (fresh_addr clwb cfg sbi pi btype slots0 nslots0 Hslots Hbtype s D b 1); (done || lia)).
    rewrite pmfs_block_off_eq by done. unfold pmfs_get_block, deref.
    destruct (Z.eqb_spec (4096 * b) 0); [lia|]. rewrite (bind_Ok _ _ _ _ _ (lift_ret _ s1)).
    erewrite bind_Ok; [|apply lift_eq; erewrite bind_Ok; [|apply store_eq]; apply pmfs_flush_buffer_eq; lia].
    set (s2 := set_pm s1 _). replace (Z.of_nat h + 1) with (Z.of_nat (S h)) by lia.
    assert (Ev : vw s2 = write_bytes (vw s1) (node_ptr (4096 * b) 0) (bytes_of 8 root)) by apply flush_keeps_view.
    assert (Hpage : ∀ i x, 0 <= i < 512 → in_range (node_ptr (4096 * b) i) 8 x → run b 1 (blk x)).
    { intros i x Hi Hx. rewrite (ptr_blk b i x Hi Hx). unfold run. lia. }
    assert (Hv : ∀ x, ¬ run b 1 (blk x) → vw s2 !!! x = vw s1 !!! x).
    { intros x Hx. rewrite Ev. apply write_bytes_out. rewrite length_bytes_of. intros Hr.
      by apply Hx, (Hpage 0); [lia|]. }
    assert (Hg2 : grew side s (λ _, False) (run b 1) s2).
    { destruct Hg as [G1 G2 G3 G4 G5]. split; try done; [by destruct G1|].
      intros x (? & Hr & ?). rewrite Hv by done. by apply G5. }
    pose proof (grew_mono _ _ _ D _ _ Hg2 (λ _ H, False_ind _ H)) as HgD.
    assert (HnD : ¬ D b).
    { intros Hd. apply (gr_fresh _ _ _ _ _ Hg b); [unfold run; lia|]. by apply Hp. }
    assert (Ha : agree (λ x, D (blk x)) (vw s2) (vw s)).
    { intros x Hx. apply (gr_view _ _ _ _ _ Hg2). split_and!; [tauto| |].
      - unfold run. intros Hr. by replace b with (blk x) in HnD by lia.
      - intros Hs. by destruct (side_blocks _ _ _ _ _ _ _ Hp Hs). }
    assert (H0 : ptr (vw s2) (4096 * b) 0 = root).
    { unfold ptr. rewrite Ev, load_write_same. by apply Z.mod_small. }
    assert (Hz : ∀ i, 0 < i < 512 → ptr (vw s2) (4096 * b) i = 0).
    { intros i Hi. unfold ptr. rewrite Ev, load_write_disjoint.
      - apply load_zero. intros x Hx. apply Hzero; [done|].
        unfold run_bytes, in_range, node_ptr in *. lia.
      - rewrite length_bytes_of. unfold disjoint_ranges, node_ptr. lia. }
    destruct (top_page (vw s2) h root D b (dtree_frame _ _ _ _ _ Ht Ha) Hb HnD H0 Hz) as [Ht2 Hat].
    assert (Hrun : ∀ y, D y ∨ y = b ↔ D y ∨ run b 1 y) by (intros y; unfold run; intuition lia).
    destruct (IH (S h) (4096 * b) s2 (λ y, D y ∨ run b 1 y))
      as (err & root' & h' & s' & F & -> & Herr & Hg' & Ht' & Hat' & Hh & Hhs).
    { by eapply pre_grew. }
    { right. by eapply tree_ext. }
    { lia. }
    exists err, root', h', s', (λ y, run b 1 y ∨ F y). split_and!; try done; try lia.
    + eapply grew_trans; [exact Hg2|exact Hg'|tauto].
    + destruct Ht' as [(-> & -> & HD)|Ht']; [exfalso; lia|right].
      eapply tree_ext; [exact Ht'|]. intros y. tauto.
    + intros k Hk. rewrite Hat', Hat by done. by apply (block_at_frame _ _ _ _ D).
Qed.

(** ** The inode *)

Definition i_height (m : mem) : nat := Z.to_nat (load 1 m (pi + pi_height)).
Definition i_root (m : mem) : Z := load 8 m (pi + pi_root).

Record inode_ok (s : fs) (D : Z → Prop) : Prop := {
  io_pre : pre s D;
  io_height : (i_height (vw s) <= 3)%nat;
  io_tree : dtree (vw s) (i_height (vw s)) (i_root (vw s)) D
}.

(** The block of the file at [k]. *)
Definition file_block (m : mem) (k : Z) : Z := block_at m (i_height m) (i_root m) k.

(** What is written outside the tree by the calls on an inode. *)
Definition pside (x : Z) : Prop := in_slots slots0 nslots0 x ∨ in_range pi sizeof_pmfs_inode x.

Lemma side_pside x : side x → pside x.
Proof.
  intros [?|Hx]; [by left|right]. unfold in_range, pi_i_flags, pi_i_blocks, sizeof_pmfs_inode in *. lia.
Qed.

Lemma grew_pside s D F s' : grew side s D F s' → grew pside s D F s'.
Proof.
  intros [H1 H2 H3 H4 H5]. split; try done. intros x (? & ? & Hx). apply H5.
  split_and!; [done..|]. intros Hs. by apply Hx, side_pside.
Qed.

Lemma height_byte m : load 1 m (pi + pi_height) = Z.of_nat (i_height m).
Proof using btype n. unfold i_height. pose proof (load_bound 1 m (pi + pi_height)). lia. Qed.

(** Bytes of the inode that are not written stay. *)
Lemma grew_inode_load s D F s' k o :
  pre s D → grew side s D F s' → 0 <= o → o + Z.of_nat k <= sizeof_pmfs_inode →
  (∀ x, in_range (pi + o) (Z.of_nat k) x → ¬ in_range (pi + pi_i_flags) 4 x ∧ ¬ in_range (pi + pi_i_blocks) 8 x) →
  load k (vw s') (pi + o) = load k (vw s) (pi + o).
Proof.
  intros Hp Hg Ho Hk Hout. apply load_ext. intros x Hx. apply (gr_view _ _ _ _ _ Hg).
  assert (Hi : in_range pi sizeof_pmfs_inode x) by (unfold in_range in *; lia).
  destruct (pr_side _ _ _ _ _ _ Hp x (or_intror Hi)) as [Hu Hd]. split_and!; [done| |].
  - intros Hf. by apply (gr_fresh _ _ _ _ _ Hg) in Hf.
  - intros [Hs|Hs]; [by apply (Hslots x Hi)|]. destruct (Hout x Hx). tauto.
Qed.

Lemma grew_height s D F s' : pre s D → grew side s D F s' → i_height (vw s') = i_height (vw s).
Proof.
  intros Hp Hg. unfold i_height. f_equal. eapply grew_inode_load; [exact Hp|exact Hg|..];
    unfold in_range, pi_height, sizeof_pmfs_inode, pi_i_flags, pi_i_blocks; intros; lia.
Qed.
Lemma grew_root s D F s' : pre s D → grew side s D F s' → i_root (vw s') = i_root (vw s).
Proof.
  intros Hp Hg. unfold i_root. eapply grew_inode_load; [exact Hp|exact Hg|..];
    unfold in_range, pi_root, sizeof_pmfs_inode, pi_i_flags, pi_i_blocks; intros; lia.
Qed.

(** Pointing the inode at another tree. *)
Lemma set_tree s D root h :
  pre s D → (h <= 3)%nat → 0 <= root < 2 ^ 64 →
  ∃ c, lift (store 8 (pi + pi_root) root;;
             store 1 (pi + pi_height) (u8 (Z.of_nat h));;
             pmfs_flush_buffer clwb pi sizeof_pmfs_inode false) s = Ok ((), set_pm s c) ∧
    agree (λ x, ¬ in_range pi sizeof_pmfs_inode x) (view c) (vw s) ∧
    pre (set_pm s c) D ∧ i_root (view c) = root ∧ i_height (view c) = h.
Proof.
  intros Hp Hh Hr. eexists. split.
  { apply lift_eq. erewrite bind_Ok; [|apply store_eq]. erewrite bind_Ok; [|apply store_eq].
    apply pmfs_flush_buffer_eq. unfold sizeof_pmfs_inode. lia. }
  set (c := log_state _ _).
  assert (Ev : view c = write_bytes (write_bytes (vw s) (pi + pi_root) (bytes_of 8 root))
                          (pi + pi_height) (bytes_of 1 (u8 (Z.of_nat h)))) by apply flush_keeps_view.
  assert (Ha : agree (λ x, ¬ in_range (pi + pi_root) 8 x ∧ ¬ in_range (pi + pi_height) 1 x) (view c) (vw s)).
  { intros x [H1 H2]. rewrite Ev, !write_bytes_out by (by rewrite length_bytes_of). done. }
  split_and!.
  - intros x Hx. apply Ha. unfold in_range, sizeof_pmfs_inode, pi_root, pi_height in *. lia.
  - destruct Hp as [P1 P2 P3 P4]. split; [by destruct P1|done|done|].
    rewrite <- P4. apply load_ext. intros x Hx. apply Ha.
    unfold in_range, pi_i_blk_type, pi_root, pi_height in *. lia.
  - unfold i_root. rewrite Ev, load_write_disjoint.
    + rewrite load_write_same. by apply Z.mod_small.
    + rewrite length_bytes_of. unfold disjoint_ranges, pi_root, pi_height. lia.
  - unfold i_height. rewrite Ev, load_write_same. rewrite Z.mod_small; [|apply wrap_range; lia].
    rewrite wrap_small by lia. lia.
Qed.

(** ** Growing the tree of the inode *)

Lemma dtree_root m h root D : dtree m h root D → 0 <= root < 2 ^ 64 → root = 0 ∧ h = O ∨ root ≠ 0.
Proof using btype n. intros [(? & ? & _)|Ht] _; [by left|right]. exact (tree_nonzero n n_pos _ _ _ _ Ht). Qed.

(** What a call that allocates for the range leaves. *)
Record grown_file (s : fs) (D F : Z → Prop) (s' : fs) : Prop := {
  gf_inode : inode_ok s' (λ y, D y ∨ F y);
  gf_grew : grew pside s D F s';
  gf_kept k : 0 <= k → file_block (vw s) k ≠ 0 → file_block (vw s') k = file_block (vw s) k
}.

Lemma increase_height_result s D h :
  inode_ok s D → (i_height (vw s) <= h <= 3)%nat →
  ∃ err s' F, pmfs_increase_btree_height clwb cfg pi (Z.of_nat h) s = Ok (err, s') ∧
    (err = 0 ∨ err = - ENOSPC) ∧ inode_ok s' (λ y, D y ∨ F y) ∧ grew pside s D F s' ∧
    (∀ k, 0 <= k → file_block (vw s') k = file_block (vw s) k) ∧
    (err = 0 → i_height (vw s') = h).
Proof.
  intros [Hp H3 Ht] Hh. unfold pmfs_increase_btree_height.
  rewrite (bind_Ok _ _ _ _ _ (lift_fetch _ _ s)), (bind_Ok _ _ _ _ _ (lift_fetch _ _ s)).
  fold (i_root (vw s)). rewrite height_byte.
  destruct (increase_loop_result (h - i_height (vw s)) (i_height (vw s)) (i_root (vw s)) s D Hp Ht
    ltac:(apply (load_bound 8))) as (err & root' & h' & s1 & F & E & Herr & Hg & Ht1 & Hat & Hh' & Hle).
  replace (Z.to_nat (Z.of_nat h - Z.of_nat (i_height (vw s)))) with (h - i_height (vw s))%nat by lia.
  rewrite (bind_Ok _ _ _ _ _ E).
  pose proof (grew_mono _ _ _ D _ _ Hg (λ _ H, False_ind _ H)) as HgD.
  pose proof (pre_grew _ _ _ _ Hslots _ _ _ _ Hp HgD) as Hp1.
  destruct (set_tree s1 (λ y, D y ∨ F y) root' h' Hp1) as (c & E1 & Ha & Hp2 & Er & Eh); [lia| |].
  { destruct Ht1 as [(-> & _)|Ht1]; [lia|].
    destruct (tree_addr n n_pos _ _ _ _ Ht1) as (b & Hb & -> & HDb).
    apply (pr_used _ _ _ _ _ _ Hp1) in HDb.
    apply (used_bounds _ _ _ _ (wf_ranges _ (pr_wf _ _ _ _ _ _ Hp1))) in HDb.
    pose proof (wf_end _ (pr_wf _ _ _ _ _ _ Hp1)). lia. }
  rewrite (bind_Ok _ _ _ _ _ E1). exists err, (set_pm s1 c), F.
  assert (Hblk : agree (λ x, D (blk x) ∨ F (blk x)) (view c) (vw s1)).
  { intros x Hx. apply Ha. intros Hi. by destruct (pr_side _ _ _ _ _ _ Hp1 x (or_intror Hi)). }
  assert (Ht2 : dtree (view c) h' root' (λ y, D y ∨ F y)) by (by eapply dtree_frame).
  split_and!; try done.
  - split; [done| |]; simpl; rewrite Eh; [lia|by rewrite Er].
  - apply grew_pside in HgD. destruct HgD as [G1 G2 G3 G4 G5]. split; try done; [by destruct G1|].
    intros x (Hd & Hf & Hs). simpl. rewrite Ha; [by apply G5|]. intros Hi. apply Hs. by right.
  - intros k Hk. unfold file_block. simpl. rewrite Er, Eh.
    rewrite (block_at_frame _ _ _ _ _ k Ht1 Hblk Hk). by apply Hat.
  - intros He. simpl. rewrite Eh. specialize (Hh' He). lia.
Qed.

(** ** Filling the range *)

Lemma fill_range s D tr f l nw zero :
  inode_ok s D → i_root (vw s) ≠ 0 → (0 < i_height (vw s))%nat → tr_ok tr →
  0 <= f <= l → l < span (i_height (vw s)) →
  ∃ err tr' s' F,
    ('(errval, tr) ← recursive_alloc_blocks clwb cfg sbi (i_height (vw s)) tr pi (i_root (vw s)) f l nw zero;
     mret (if errval <? 0 then errval else 0, tr)) s = Ok ((err, tr'), s') ∧
    tr_ok tr' ∧ (err = 0 ∨ err = - ENOSPC) ∧ grown_file s D F s' ∧
    ∀ k, 0 <= k → (¬ f <= k <= l → file_block (vw s') k = file_block (vw s) k) ∧
      (err = 0 → f <= k <= l → file_block (vw s') k ≠ 0).
Proof.
  intros [Hp H3 Ht] Hr Hh Htr Hfl Hl. destruct Ht as [(? & _)|Ht]; [done|].
  destruct (tree_addr n n_pos _ _ _ _ Ht) as (b & _ & Eb & _). rewrite Eb in Ht |- *.
  destruct (recursive_alloc_result clwb cfg sbi pi btype slots0 nslots0 Hslots Hbtype (i_height (vw s))
    s D tr b f l nw zero ltac:(lia) Hp Ht Htr Hfl Hl)
    as (err & tr' & s' & F & E & Htr' & Herr & Hg & Ht' & Hx).
  rewrite (bind_Ok _ _ _ _ _ E).
  assert (Eerr : (if err <? 0 then err else 0) = err) by (destruct Herr as [-> | ->]; done).
  rewrite Eerr. exists err, tr', s', F.
  assert (Eh : i_height (vw s') = i_height (vw s)) by (by eapply grew_height).
  assert (Er : i_root (vw s') = i_root (vw s)) by (by eapply grew_root).
  assert (Hpr : pre s' (λ y, D y ∨ F y)) by (by eapply pre_grew).
  split_and!; try done.
  - split; [split; [done|by rewrite Eh|]|by apply grew_pside|].
    + rewrite Eh, Er, Eb. by right.
    + intros k Hk. unfold file_block, block_at. rewrite Eh, Er, Eb. case_decide; [|done].
      by apply Hx.
  - intros k Hk. unfold file_block, block_at. rewrite Eh, Er, Eb. case_decide.
    + destruct (Hx k) as (_ & X2 & X3); [done|]. split; [exact X2|exact X3].
    + split; [done|]. intros _ ?. lia.
Qed.

Lemma height_loop_result fuel : ∀ x h (s : fs),
  0 <= x < span fuel → 0 <= h → h + Z.of_nat fuel < 2 ^ 32 →
  ∃ c, height_loop fuel x h s = Ok (h + Z.of_nat c, s) ∧ x < span c ∧
    (∀ c', (c' < c)%nat → span c' <= x).
Proof using btype n.
  induction fuel as [|fuel IH]; intros x h s Hx Hh Hf; simpl.
  - assert (x = 0) by (change (span 0) with 1 in Hx; lia). subst x. exists O.
    split_and!; [by rewrite Z.add_0_r|done|lia].
  - destruct (Z.gtb_spec x 0) as [Hgt|Hle].
    + rewrite wrap_small by lia. change META_BLK_SHIFT with (Z.of_nat 1 * META_BLK_SHIFT).
      rewrite shiftr_span. change (span 1) with 512. rewrite span_S in Hx.
      destruct (IH (x / 512) (h + 1) s) as (c & E & Hc & Hmin); [|lia..|].
      { split; [apply Z.div_pos; lia|apply Z.div_lt_upper_bound; lia]. }
      exists (S c). rewrite E. pose proof (Z.div_mod x 512 ltac:(lia)) as Hd.
      pose proof (Z.mod_pos_bound x 512 ltac:(lia)). split_and!; [do 2 f_equal; lia| |].
      * rewrite span_S. lia.
      * intros [|c'] Hc'; [change (span 0) with 1; lia|]. rewrite span_S.
        specialize (Hmin c' ltac:(lia)). lia.
    + exists O. assert (x = 0) by lia. subst x. split_and!; [by rewrite Z.add_0_r|done|lia].
Qed.

(** ** [__pmfs_alloc_blocks] *)

(** The bits of a block of the inode's type beyond those of a 4 KB block. *)
Definition blk_shift : Z := if btype =? 0 then 0 else if btype =? 1 then 9 else 18.

Lemma inode_shift s : load 1 (vw s) (pi + pi_i_blk_type) = btype →
  lift (pmfs_inode_blk_shift pi) s = Ok (12 + blk_shift, s).
Proof using Hbtype.
  intros Ht. unfold pmfs_inode_blk_shift, inode_blk_type.
  rewrite (lift_eq _ _ (12 + blk_shift) (pm s)); [by rewrite set_pm_id|].
  rewrite (bind_Ok _ _ _ _ _ (fetch_eq _ _ _)), Ht. unfold blk_type_to_shift, blk_shift.
  assert (btype = 0 ∨ btype = 1 ∨ btype = 2) as [E|[E|E]] by lia; by rewrite E.
Qed.

(** The outcome for the blocks [f .. l] of the file. *)
Definition file_result (s : fs) (D : Z → Prop) (f l : Z)
    (r : result (Z * option pmfs_transaction * fs)) : Prop :=
  ∃ err tr' s' F, r = Ok ((err, tr'), s') ∧ tr_ok tr' ∧ (err = 0 ∨ err = - ENOSPC) ∧
    grown_file s D F s' ∧
    ∀ k, 0 <= k → (¬ f <= k <= l → file_block (vw s') k = file_block (vw s) k) ∧
      (err = 0 → f <= k <= l → file_block (vw s') k ≠ 0).

Lemma grown_file_refl s D : inode_ok s D → grown_file s D (λ _, False) s.
Proof.
  intros [Hp H3 Ht]. split; [split; [|done|]|by apply grew_refl, Hp|done].
  - apply (pre_sub _ _ _ _ _ _ _ Hp). tauto.
  - destruct Ht as [(? & ? & HD)|Ht]; [left; split_and!; [done..|]; intros y; specialize (HD y); tauto|right].
    apply (tree_ext n _ _ _ D); [done|tauto].
Qed.

(** Growing the tree first. *)
Lemma file_after s s1 D F f l r :
  inode_ok s1 (λ y, D y ∨ F y) → grew pside s D F s1 →
  (∀ k, 0 <= k → file_block (vw s1) k = file_block (vw s) k) →
  file_result s1 (λ y, D y ∨ F y) f l r → file_result s D f l r.
Proof.
  intros Hi Hg Hsame (err & tr' & s' & F' & -> & Htr & Herr & [G1 G2 G3] & Hk).
  exists err, tr', s', (λ y, F y ∨ F' y). split_and!; try done.
  - split; [|by eapply grew_trans|].
    + destruct G1 as [Hp H3 Ht]. split; [|done|].
      * apply (pre_sub _ _ _ _ _ _ _ Hp). tauto.
      * destruct Ht as [(? & ? & HD)|Ht]; [left; split_and!; [done..|]; intros y; specialize (HD y); tauto|right].
        eapply tree_ext; [exact Ht|tauto].
    + intros k H0 Hne. rewrite <- Hsame in Hne by done. rewrite (G3 k H0 Hne). by apply Hsame.
  - intros k H0. rewrite <- Hsame by done. by apply Hk.
Qed.

Lemma file_nothing s s1 D F f l tr :
  inode_ok s1 (λ y, D y ∨ F y) → grew pside s D F s1 → tr_ok tr →
  (∀ k, 0 <= k → file_block (vw s1) k = file_block (vw s) k) →
  file_result s D f l (Ok ((- ENOSPC, tr), s1)).
Proof.
  intros Hi Hg Htr Hsame. exists (- ENOSPC), tr, s1, F. split_and!; [done..|by right| |].
  - split; [done..|]. intros k H0 _. by apply Hsame.
  - intros k H0. split; [intros _; by apply Hsame|done].
Qed.

(** The first block of an empty file, when the tree has no levels. *)
Lemma first_block s D tr zero :
  inode_ok s D → i_root (vw s) = 0 → tr_ok tr →
  file_result s D 0 0
    (('(errval, blocknr) ← pmfs_new_data_block cfg pi 0 zero;
      if negb (errval =? 0) then mret (errval, tr) else
      lift (store 8 (pi + pi_root) (pmfs_get_block_off blocknr);;
            store 1 (pi + pi_height) (u8 0);;
            pmfs_flush_buffer clwb pi sizeof_pmfs_inode false);;
      mret (0, tr)) s).
Proof.
  intros Hi Hr Htr. pose proof Hi as [Hp H3 Ht].
  destruct Ht as [(_ & Hh & HD)|Ht]; [|by destruct (tree_nonzero n n_pos _ _ _ _ Ht)].
  assert (Hempty : ∀ k, 0 <= k → file_block (vw s) k = 0).
  { intros k Hk. unfold file_block, block_at. rewrite Hh, Hr. by case_decide. }
  destruct (new_data_block_grew cfg pi btype slots0 nslots0 Hslots Hbtype 0 zero s D Hp)
    as [(s1 & E & Hg)|(b & s1 & E & Hfr & Hg)]; rewrite (bind_Ok _ _ _ _ _ E).
  - change (negb (- ENOSPC =? 0)) with true. cbv iota.
    assert (Hi1 : inode_ok s1 (λ y, D y ∨ False)).
    { split; [by eapply pre_grew|by rewrite (grew_height s D _ s1 Hp Hg)|].
      left. rewrite (grew_height s D _ s1 Hp Hg), (grew_root s D _ s1 Hp Hg).
      split_and!; [done..|]. intros y. specialize (HD y). tauto. }
    apply (file_nothing s s1 D (λ _, False)); [done|by apply grew_pside|done|].
    intros k Hk. rewrite Hempty by done. unfold file_block, block_at.
    rewrite (grew_height s D _ s1 Hp Hg), (grew_root s D _ s1 Hp Hg), Hh, Hr. by case_decide.
  - change (negb (0 =? 0)) with false. cbv iota. pose proof n_pos as Hn.
    pose proof (fresh_addr clwb cfg sbi pi btype slots0 nslots0 Hslots Hbtype s D b n Hp Hfr Hn) as Hb.
    rewrite pmfs_block_off_eq by done. assert (Hb0 : 0 < b) by apply Hfr.
    pose proof (pre_grew _ _ _ _ Hslots _ _ _ _ Hp Hg) as Hp1.
    destruct (set_tree s1 _ (4096 * b) 0 Hp1) as (c & E1 & Ha & Hp2 & Er & Eh); [lia..|].
    change (u8 0) with (u8 (Z.of_nat 0)). rewrite (bind_Ok _ _ _ _ _ E1).
    exists 0, tr, (set_pm s1 c), (run b n). split_and!; [done..|by left| |].
    + split.
      * split; [done|simpl; rewrite Eh; lia|]. simpl. rewrite Eh, Er. right. exists b.
        split_and!; [done..|by apply Hfr|]. intros y. specialize (HD y). unfold run. tauto.
      * apply grew_pside in Hg. destruct Hg as [G1 G2 G3 G4 G5]. split; try done; [by destruct G1|].
        intros x (Hd & Hf & Hs). simpl. rewrite Ha; [by apply G5|]. intros Hx. apply Hs. by right.
      * intros k Hk. by rewrite Hempty.
    + intros k Hk. rewrite Hempty by done. unfold file_block, block_at. simpl. rewrite Eh, Er.
      change (span 0) with 1. split.
      * intros Hout. by rewrite decide_False by lia.
      * intros _ Hin. rewrite decide_True by lia. simpl. lia.
Qed.

Lemma fill_file s D tr f l nw zero :
  inode_ok s D → i_root (vw s) ≠ 0 → (0 < i_height (vw s))%nat → tr_ok tr →
  0 <= f <= l → l < span (i_height (vw s)) →
  file_result s D f l
    (('(errval, tr) ← recursive_alloc_blocks clwb cfg sbi (i_height (vw s)) tr pi (i_root (vw s)) f l nw zero;
      mret (if errval <? 0 then errval else 0, tr)) s).
Proof. exact (fill_range s D tr f l nw zero). Qed.

(** Growing the tree to [h] levels, then filling the range; [k] is what is run
    on success. *)
Lemma grow_then_fill s D tr f l h (k : FM (Z * option pmfs_transaction)) :
  inode_ok s D → (i_height (vw s) < h <= 3)%nat → tr_ok tr → 0 <= f <= l → l < span h →
  (∀ s1, i_height (vw s1) = h → ∃ nw zero, k s1 =
     ('(errval, tr) ← recursive_alloc_blocks clwb cfg sbi h tr pi (i_root (vw s1)) f l nw zero;
      mret (if errval <? 0 then errval else 0, tr)) s1) →
  file_result s D f l
    ((errval ← pmfs_increase_btree_height clwb cfg pi (Z.of_nat h);
      if negb (errval =? 0) then mret (errval, tr) else k) s).
Proof.
  intros Hi Hh Htr Hfl Hl Hk.
  destruct (increase_height_result s D h Hi ltac:(lia)) as (err & s1 & F & E & Herr & Hi1 & Hg & Hsame & Eh).
  rewrite (bind_Ok _ _ _ _ _ E). destruct Herr as [-> | ->].
  - change (negb (0 =? 0)) with false. cbv iota. specialize (Eh eq_refl).
    destruct (Hk s1 Eh) as (nw & zero & ->). apply (file_after s s1 D F); [done..|]. rewrite <- Eh.
    apply fill_file; try done; [|lia|by rewrite Eh].
    destruct Hi1 as [_ _ [(_ & Hh1 & _)|Ht]]; [lia|]. exact (tree_nonzero n n_pos _ _ _ _ Ht).
  - change (negb (- ENOSPC =? 0)) with true. cbv iota. by apply (file_nothing s s1 D F).
Qed.

Lemma alloc_blocks_result s D tr fb num zero :
  inode_ok s D → tr_ok tr → 0 <= fb → 1 <= num → fb + num <= 2 ^ 63 →
  file_result s D (Z.shiftr fb blk_shift) (Z.shiftr (fb + num - 1) blk_shift)
    (__pmfs_alloc_blocks clwb cfg sbi tr pi fb num zero s).
Proof.
  intros Hi Htr Hfb Hnum Hsum. pose proof Hi as [Hp H3 Ht].
  unfold __pmfs_alloc_blocks. rewrite (bind_Ok _ _ _ _ _ (inode_shift s (pr_type _ _ _ _ _ _ Hp))).
  rewrite (bind_Ok _ _ _ _ _ (lift_fetch _ _ s)), height_byte.
  unfold s_blocksize_bits. replace (12 + blk_shift - 12) with blk_shift by lia.
  rewrite (wrap_small 64 (fb + num - 1)) by lia.
  set (f := Z.shiftr fb blk_shift). set (l := Z.shiftr (fb + num - 1) blk_shift).
  assert (Hbs : 0 <= blk_shift) by (unfold blk_shift; repeat case_match; lia).
  assert (Hfl : 0 <= f <= l).
  { unfold f, l. rewrite !Z.shiftr_div_pow2 by done. pose proof (Z.pow_pos_nonneg 2 blk_shift ltac:(lia) Hbs).
    split; [apply Z.div_pos; lia|apply Z.div_le_mono; lia]. }
  assert (Hl63 : l < 2 ^ 63).
  { unfold l. rewrite Z.shiftr_div_pow2 by done. pose proof (Z.pow_pos_nonneg 2 blk_shift ltac:(lia) Hbs).
    apply Z.div_lt_upper_bound; [lia|]. nia. }
  clearbody f l. rewrite shiftl_span, shiftr_span. set (h := i_height (vw s)) in *.
  pose proof (span_pos h) as Hs. pose proof (span_mono h 3 H3) as Hs3. change (span 3) with (2 ^ 27) in Hs3.
  rewrite (wrap_small 64 (span h)), (wrap_small 64 (span h - 1)) by lia.
  pose proof (dtree_root _ _ _ _ Ht ltac:(apply (load_bound 8))) as Hroot.
  destruct (Z.gtb_spec l (span h - 1)) as [Hgt|Hle].
  - destruct (height_loop_result 8 (l / span h) (Z.of_nat h) s) as (c & E & Hc & _); [|lia..|].
    { split; [apply Z.div_pos; lia|]. apply Z.div_lt_upper_bound; [lia|]. change (span 8) with (2 ^ 72). nia. }
    rewrite (bind_Ok _ _ _ _ _ E), <- Nat2Z.inj_add.
    assert (Hc1 : (0 < c)%nat).
    { destruct c; [|lia]. change (span 0) with 1 in Hc.
      assert (1 <= l / span h) by (apply Z.div_le_lower_bound; lia). lia. }
    destruct (Z.gtb_spec (Z.of_nat (h + c)) 3).
    { apply (file_nothing s s D (λ _, False)); [by apply grown_file_refl|by apply grew_refl, Hp|done|done]. }
    cbn [andb]. assert (Hl : l < span (h + c)).
    { rewrite span_add. pose proof (Z.div_mod l (span h) ltac:(lia)).
      pose proof (Z.mod_pos_bound l (span h) ltac:(lia)). nia. }
    rewrite (bind_Ok _ _ _ _ _ (lift_fetch _ _ s)). fold (i_root (vw s)).
    destruct (Z.eqb_spec (Z.of_nat (h + c)) 0); [lia|].
    destruct (Z.eqb_spec (i_root (vw s)) 0).
    + apply (grow_then_fill s D tr f l (h + c)); try done; [lia|]. intros s1 Eh. exists true, zero.
      rewrite (bind_Ok _ _ _ _ _ (lift_fetch _ _ s1)), (bind_Ok _ _ _ _ _ (lift_fetch _ _ s1)).
      by rewrite height_byte, Eh, Nat2Z.id.
    + destruct (Z.gtb_spec (Z.of_nat (h + c)) (Z.of_nat h)); [|lia].
      apply (grow_then_fill s D tr f l (h + c)); try done; [lia|]. intros s1 Eh. exists false, zero.
      rewrite (bind_Ok _ _ _ _ _ (lift_fetch _ _ s1)). by rewrite Nat2Z.id.
  - rewrite (bind_Ok (mret (Z.of_nat h)) _ s (Z.of_nat h) s) by done. cbn [andb].
    rewrite (bind_Ok _ _ _ _ _ (lift_fetch _ _ s)). fold (i_root (vw s)).
    destruct Hroot as [[Hr Hh]|Hr].
    + rewrite Hr. fold h in Hh. rewrite Hh in *. change (span 0) with 1 in *.
      assert (f = 0 ∧ l = 0) as [-> ->] by lia. simpl Z.eqb. cbv iota. by apply first_block.
    + destruct (Z.eqb_spec (i_root (vw s)) 0); [done|].
      destruct (Z.eqb_spec (Z.of_nat h) 0).
      * exists 0, tr, s, (λ _, False). split_and!; [done..|by left|by apply grown_file_refl|].
        intros k Hk. split; [done|]. intros _ Hin. unfold file_block, block_at. fold h.
        assert (Eh : h = O) by lia. rewrite Eh in *. change (span 0) with 1 in *.
        by rewrite decide_True by lia.
      * destruct (Z.gtb_spec (Z.of_nat h) (Z.of_nat h)); [lia|].
        rewrite (bind_Ok (mret 0) _ s 0 s) by done. change (negb (0 =? 0)) with false. cbv iota.
        rewrite (bind_Ok _ _ _ _ _ (lift_fetch _ _ s)), Nat2Z.id. fold (i_root (vw s)).
        apply fill_file; try done; fold h; lia.
Qed.
End File.
