(* ===== verification/PmfsTreeMain.v ===== *)
(** * PMFS: the properties of the block tree of an inode

    Looking blocks up, and what allocating blocks does to it. *)

From stdpp Require Import base list gmap.
From Stdlib Require Import ZArith Lia.
From coqutil Require Import Byte.
From S2P Require Import Prelude PMem PMemLine NovaBase PmfsJournal PmfsRecover PmfsTrans PmfsCrash.
From S2P Require Import PmfsBalloc PmfsBallocProofs PmfsBallocMain PmfsTree PmfsTreeProofs PmfsTreeAlloc.
From S2P Require Import PmfsTreeFile.

Local Open Scope Z_scope.

(** ** Looking a block up *)

Lemma deref_get_block bp (c : cpu) : bp ≠ 0 → deref (pmfs_get_block bp) c = Ok (bp, c).
Proof. intros H. unfold pmfs_get_block. by destruct (Z.eqb_spec bp 0). Qed.

Section Lookup.
Variable n : Z.
Hypothesis Hn : 1 <= n.

Lemma find_loop_eq m h : ∀ p D k c,
  view c = m → tree m n h p D → 0 <= k < span h → find_loop h p k c = Ok (find m h p k, c).
Proof using Hn.
  induction h as [|h IH]; intros p D k c Hc Ht Hk; [done|].
  pose proof (tree_nonzero n Hn m (S h) p D Ht) as Hp. destruct (span_child h k Hk) as [Hi Hm].
  cbn [find_loop]. rewrite (bind_Ok _ _ _ _ _ (deref_get_block p c Hp)), shiftr_span, land_span.
  rewrite (wrap_small 32) by lia. rewrite (bind_Ok _ _ _ _ _ (fetch_eq 8 _ c)), Hc.
  cbn [find]. fold (ptr m p (k / span h)).
  destruct (Z.eqb_spec (ptr m p (k / span h)) 0); [done|].
  destruct Ht as (b & C & Hnode). destruct (no_child _ _ _ _ _ _ Hnode _ Hi) as [[? _]|Hchild]; [done|].
  by apply (IH _ (C (k / span h))).
Qed.

(** A block that is found is the first of a run of the tree. *)
Lemma find_run m h : ∀ p D k,
  tree m n h p D → 0 <= k < span h → find m h p k ≠ 0 →
  ∃ b, find m h p k = 4096 * b ∧ 0 < b ∧ (n | b) ∧ ∀ y, b <= y < b + n → D y.
Proof.
  induction h as [|h IH]; intros p D k Ht Hk Hne.
  - destruct Ht as (b & Hb & -> & Ha & HD). exists b. split_and!; try done. intros y Hy. by apply HD.
  - destruct (span_child h k Hk) as [Hi Hm]. cbn [find] in *.
    destruct (Z.eqb_spec (ptr m p (k / span h)) 0); [done|].
    destruct Ht as (b & C & Hnode). destruct (no_child _ _ _ _ _ _ Hnode _ Hi) as [[? _]|Hchild]; [done|].
    destruct (IH _ (C (k / span h)) _ Hchild Hm Hne) as (b' & E & Hb & Ha & HD). exists b'. split_and!; try done.
    intros y Hy. apply (no_dom _ _ _ _ _ _ Hnode). right. exists (k / span h). auto.
Qed.
End Lookup.

(** ** Files *)

Section File.
Context `{CachedWrite}.
Variables (clwb : bool) (cfg : fs_cfg) (sbi : pmfs_sb_info) (pi btype : Z).
Variables (slots0 nslots0 : Z).
Hypothesis Hbtype : 0 <= btype <= 2.
Hypothesis Hslots : ∀ x, in_range pi sizeof_pmfs_inode x → ¬ in_slots slots0 nslots0 x.
Hypothesis Hpanic : errors_panic cfg = false.
#[local] Set Default Proof Using "All".

Let n : Z := pmfs_get_numblocks btype.
Abbreviation inode_ok := (PmfsTreeFile.inode_ok pi btype slots0 nslots0).
Abbreviation tr_ok := (PmfsTreeAlloc.tr_ok sbi slots0 nslots0).
Abbreviation file_block := (PmfsTreeFile.file_block pi).
Abbreviation shift := (PmfsTreeFile.blk_shift btype).

(** The 4 KB blocks of a run. *)
Lemma n_shift : n = 2 ^ shift ∧ 0 <= shift <= 18.
Proof using Hbtype pi slots0 nslots0 n.
  unfold n, blk_shift, pmfs_get_numblocks, PMFS_BLOCK_TYPE_4K, PMFS_BLOCK_TYPE_2M.
  assert (btype = 0 ∨ btype = 1 ∨ btype = 2) as [E|[E|E]] by lia; rewrite E; simpl; split; (done || lia).
Qed.

(** Where the file's 4 KB block [fb] lies; 0 is a hole. *)
Definition lookup_block (m : mem) (fb : Z) : Z :=
  let b := file_block m (Z.shiftr fb shift) in
  if b =? 0 then 0 else b + 4096 * (fb mod n).

Lemma file_block_run s D k :
  inode_ok s D → 0 <= k → file_block (vw s) k ≠ 0 →
  ∃ b, file_block (vw s) k = 4096 * b ∧ 0 < b ∧ b + n <= 2 ^ 52 ∧ ∀ y, b <= y < b + n → D y.
Proof using Hbtype pi slots0 nslots0 n.
  intros [Hp _ Ht] Hk Hne. unfold PmfsTreeFile.file_block, block_at in *. case_decide as Hlt; [|done].
  destruct Ht as [(Hr & Hh & _)|Ht]; [by rewrite Hr, Hh in Hne|].
  assert (Hn : 1 <= n) by apply (pow2_pos n (numblocks_pow2 btype)).
  destruct (find_run n _ _ _ _ k Ht ltac:(lia) Hne) as (b & E & Hb & _ & HD). exists b.
  split_and!; try done. pose proof (pr_wf _ _ _ _ _ _ Hp) as Hwf.
  assert (Hu : used (block_inuse_head s) (b + n - 1)) by (apply (pr_used _ _ _ _ _ _ Hp), HD; lia).
  apply (used_bounds _ _ _ _ (wf_ranges _ Hwf)) in Hu. pose proof (wf_end _ Hwf). lia.
Qed.

(** [find_data_block_at] computes it. *)
Lemma find_data_block_at_eq s D fb :
  inode_ok s D → 0 <= fb → find_data_block_at pi fb (pm s) = Ok (lookup_block (vw s) fb, pm s).
Proof using Hbtype pi slots0 nslots0 n.
  intros Hi Hfb. pose proof Hi as [Hp H3 Ht]. destruct n_shift as [Hns Hsh]. unfold find_data_block_at.
  assert (Es : pmfs_inode_blk_shift pi (pm s) = Ok (12 + shift, pm s)).
  { assert (E : lift (pmfs_inode_blk_shift pi) s = Ok (12 + shift, s)) by (eapply inode_shift; [done..|apply Hp]).
    unfold lift in E. destruct (pmfs_inode_blk_shift pi (pm s)) as [[a c]| |]; [|done..].
    injection E as -> E. destruct s; simpl in *. by inversion E. }
  rewrite (bind_Ok _ _ _ _ _ Es), (bind_Ok _ _ _ _ _ (fetch_eq 1 _ _)).
  unfold s_blocksize_bits. replace (12 + shift - 12) with shift by lia.
  set (h := i_height pi (vw s)) in *.
  assert (Eh : load 1 (vw s) (pi + pi_height) = Z.of_nat h).
  { unfold h, i_height. pose proof (load_bound 1 (vw s) (pi + pi_height)). lia. }
  rewrite Eh, shiftl_span. unfold lookup_block, PmfsTreeFile.file_block, block_at. fold h.
  assert (Hk : 0 <= Z.shiftr fb shift) by (apply Z.shiftr_nonneg; lia).
  destruct (Z.geb_spec (Z.shiftr fb shift) (span h)) as [Hge|Hlt].
  { by rewrite decide_False by lia. }
  rewrite decide_True by lia.
  assert (Ef : __pmfs_find_data_block pi (Z.shiftr fb shift) (pm s)
               = Ok (find (vw s) h (i_root pi (vw s)) (Z.shiftr fb shift), pm s)).
  { unfold __pmfs_find_data_block. rewrite (bind_Ok _ _ _ _ _ (fetch_eq 1 _ _)), (bind_Ok _ _ _ _ _ (fetch_eq 8 _ _)).
    rewrite Eh, Nat2Z.id. fold (i_root pi (vw s)). destruct Ht as [(Hr & Hh & _)|Ht].
    - fold h in Hh. by rewrite Hr, Hh.
    - apply (find_loop_eq n (proj1 (pow2_pos n (numblocks_pow2 btype))) _ _ _ D); [done|exact Ht|lia]. }
  rewrite (bind_Ok _ _ _ _ _ Ef).
  destruct (Z.eqb_spec (find (vw s) h (i_root pi (vw s)) (Z.shiftr fb shift)) 0) as [|Hne]; [done|].
  pose proof (file_block_run s D (Z.shiftr fb shift) Hi Hk) as Hrun.
  unfold PmfsTreeFile.file_block, block_at in Hrun. fold h in Hrun. rewrite decide_True in Hrun by lia.
  destruct (Hrun Hne) as (b & -> & Hb & Hbn & _).
  replace (Z.land fb (Z.shiftl 1 shift - 1)) with (fb mod n).
  2: { rewrite Hns, Z.shiftl_1_l. symmetry. replace (2 ^ shift - 1) with (Z.ones shift) by (rewrite Z.ones_equiv; lia).
       apply Z.land_ones; lia. }
  assert (0 < n) by (rewrite Hns; apply Z.pow_pos_nonneg; lia).
  pose proof (Z.mod_pos_bound fb n ltac:(lia)).
  rewrite Z.shiftl_mul_pow2 by lia. unfold mret, M_ret. do 2 f_equal. rewrite wrap_small; lia.
Qed.

Lemma shiftr_mono a b : a <= b → Z.shiftr a shift <= Z.shiftr b shift.
Proof.
  intros Hab. destruct n_shift as [_ Hs]. rewrite !Z.shiftr_div_pow2 by lia. apply Z.div_le_mono; [|lia].
  apply Z.pow_pos_nonneg; lia.
Qed.

End File.

(** ** A concrete input *)

(** An inode of zeroes in block 2 of the small device: no blocks yet. *)
Section Demo.
Local Existing Instance bytewise_write.

Definition demo_pi : Z := 8192.
Definition file_sbi : pmfs_sb_info := SbInfo false (Some 4096) 1024 0 true 0.

Lemma demo_inode_ok : inode_ok demo_pi 0 0 0 small_fs (λ _, False).
Proof.
  split; [|by vm_compute; lia|by left; vm_compute]. split; [exact small_wf|done| |by vm_compute].
  intros x [Hx|Hx]; [unfold in_slots, in_range in Hx; lia|]. split; [|tauto].
  assert (E : blk x = 2).
  { symmetry. apply (Z.div_unique x 4096 2 (x - 8192)); unfold in_range, demo_pi, sizeof_pmfs_inode in Hx; lia. }
  rewrite E. cbn. rewrite in_use_cons. left. cbn. lia.
Qed.

End Demo.
