(* ===== verification/PmfsTreeTrunc.v ===== *)
(** * PMFS: freeing the blocks of a range of a tree

    [recursive_truncate_blocks]: the blocks of the range and the pages they leave
    empty go back to the allocator, the rest of the tree stays.  [closed] says
    when nothing of a tree lies outside of the range. *)

From stdpp Require Import base list gmap.
From Stdlib Require Import ZArith Lia.
From coqutil Require Import Byte.
From S2P Require Import Prelude PMem PMemLine NovaBase PmfsJournal PmfsRecover.
From S2P Require Import PmfsBalloc PmfsBallocProofs PmfsBallocMain PmfsTree PmfsTreeProofs PmfsTreeAlloc PmfsTreeMain.

Local Open Scope Z_scope.

(** ** Sums *)

Fixpoint sumZ (f : Z → Z) (i : Z) (n : nat) : Z :=
  match n with O => 0 | S n => f i + sumZ f (i + 1) n end.

Lemma sumZ_ext f g n : ∀ i, (∀ j, i <= j < i + Z.of_nat n → f j = g j) → sumZ f i n = sumZ g i n.
Proof.
  induction n as [|n IH]; intros i H; simpl; [done|]. rewrite (IH (i + 1)) by (intros; apply H; lia).
  by rewrite H by lia.
Qed.

Lemma sumZ_update f k v n : ∀ i,
  i <= k < i + Z.of_nat n → sumZ (λ j, if decide (j = k) then v else f j) i n = sumZ f i n - f k + v.
Proof.
  induction n as [|n IH]; intros i Hk; [lia|]. simpl. destruct (decide (i = k)) as [->|Hne].
  - rewrite (sumZ_ext _ f n (k + 1)); [lia|]. intros j Hj. by rewrite decide_False by lia.
  - rewrite IH by lia. lia.
Qed.

Lemma sumZ_bounds f n b : ∀ i,
  (∀ j, i <= j < i + Z.of_nat n → 0 <= f j <= b) → 0 <= sumZ f i n <= b * Z.of_nat n.
Proof.
  induction n as [|n IH]; intros i H; simpl; [lia|].
  pose proof (H i ltac:(lia)). specialize (IH (i + 1) ltac:(intros; apply H; lia)). nia.
Qed.

Lemma sumZ_zero f n : ∀ i, (∀ j, i <= j < i + Z.of_nat n → f j = 0) → sumZ f i n = 0.
Proof.
  induction n as [|n IH]; intros i H; simpl; [done|]. rewrite (H i), IH by (intros; try apply H; lia). done.
Qed.

Lemma sumZ_first f n i : (∀ j, i < j < i + 1 + Z.of_nat n → f j = 0) → sumZ f i (S n) = f i.
Proof. intros H. cbn [sumZ]. rewrite sumZ_zero by (intros; apply H; lia). lia. Qed.

Lemma sumZ_pos f n k : ∀ i,
  (∀ j, i <= j < i + Z.of_nat n → 0 <= f j) → i <= k < i + Z.of_nat n → 0 < f k → 0 < sumZ f i n.
Proof.
  induction n as [|n IH]; intros i H Hk Hf; [lia|]. simpl. pose proof (H i ltac:(lia)).
  destruct (decide (k = i)) as [->|Hne].
  - assert (0 <= sumZ f (i + 1) n); [|lia]. clear IH Hk.
    assert (Hs : ∀ j, i + 1 <= j < i + 1 + Z.of_nat n → 0 <= f j) by (intros; apply H; lia).
    clear -Hs. revert Hs. generalize (i + 1). induction n as [|n IH]; intros a Hs; simpl; [done|].
    pose proof (Hs a ltac:(lia)). specialize (IH (a + 1) ltac:(intros; apply Hs; lia)). lia.
  - specialize (IH (i + 1) ltac:(intros; apply H; lia) ltac:(lia) Hf). lia.
Qed.

(** ** Counting data blocks, and pages that are not empty *)

(** The data blocks below a pointer. *)
Fixpoint count (m : mem) (h : nat) (p : Z) : Z :=
  match h with
  | O => 1
  | S h => sumZ (λ i, let q := ptr m p i in if q =? 0 then 0 else count m h q) 0 512
  end.
Definition count_at (m : mem) (h : nat) (q : Z) : Z := if q =? 0 then 0 else count m h q.

(** Every page has a pointer. *)
Fixpoint tight (m : mem) (h : nat) (p : Z) : Prop :=
  match h with
  | O => True
  | S h => (∃ i, 0 <= i < 512 ∧ ptr m p i ≠ 0) ∧ ∀ i, 0 <= i < 512 → ptr m p i ≠ 0 → tight m h (ptr m p i)
  end.

(** Every pointer below [p] leads to positions from [f] to [l] only. *)
Fixpoint closed (m : mem) (h : nat) (p f l : Z) : Prop :=
  match h with
  | O => True
  | S h => ∀ i, 0 <= i < 512 → ptr m p i ≠ 0 → f / span h <= i <= l / span h ∧
      closed m h (ptr m p i) (child_first (Z.of_nat h * META_BLK_SHIFT) (f / span h) f i)
        (child_last (Z.of_nat h * META_BLK_SHIFT) (l / span h) l i)
  end.

Lemma count_S m h p : count m (S h) p = sumZ (λ i, count_at m h (ptr m p i)) 0 512.
Proof. done. Qed.

Lemma count_bounds m h : ∀ p, 0 <= count m h p <= span h.
Proof.
  induction h as [|h IH]; intros p; [change (span 0) with 1; simpl; lia|].
  rewrite count_S, span_S. assert (Hb : ∀ q, 0 <= count_at m h q <= span h).
  { intros q. unfold count_at. pose proof (span_pos h). destruct (_ =? 0); [lia|apply IH]. }
  pose proof (sumZ_bounds (λ i, count_at m h (ptr m p i)) 512 (span h) 0 (λ j _, Hb _)). lia.
Qed.

Lemma count_at_bounds m h q : 0 <= count_at m h q <= span h.
Proof.
  unfold count_at. pose proof (span_pos h). destruct (_ =? 0); [lia|apply count_bounds].
Qed.

Lemma tight_count m h : ∀ p, tight m h p → 0 < count m h p.
Proof.
  induction h as [|h IH]; intros p Ht; [done|]. destruct Ht as [(i & Hi & Hne) Ht].
  rewrite count_S. apply (sumZ_pos _ _ i); [intros; apply count_at_bounds|lia|].
  unfold count_at. rewrite (proj2 (Z.eqb_neq _ _) Hne). by apply IH, Ht.
Qed.

Lemma find_count m h : ∀ p k, 0 <= k < span h → p ≠ 0 → find m h p k ≠ 0 → 0 < count m h p.
Proof.
  induction h as [|h IH]; intros p k Hk Hp Hne; [done|]. destruct (span_child h k Hk) as [Hi Hm].
  rewrite count_S. apply (sumZ_pos _ _ (k / span h)); [intros; apply count_at_bounds|lia|].
  cbn [find] in Hne. unfold count_at. destruct (Z.eqb_spec (ptr m p (k / span h)) 0) as [|Hq]; [done|].
  by apply (IH _ (k mod span h)).
Qed.

(** A tight tree maps something. *)
Lemma tight_find m h : ∀ p, p ≠ 0 → tight m h p → ∃ k, 0 <= k < span h ∧ find m h p k ≠ 0.
Proof.
  induction h as [|h IH]; intros p Hp Ht; [by exists 0|]. destruct Ht as [(i & Hi & Hne) Ht].
  destruct (IH _ Hne (Ht i Hi Hne)) as (k & Hk & Hf). pose proof (span_pos h).
  assert (Ei : (i * span h + k) / span h = i).
  { rewrite Z.add_comm, Z.div_add, Z.div_small by lia. lia. }
  assert (Em : (i * span h + k) mod span h = k).
  { rewrite Z.add_comm, Z.mod_add, Z.mod_small by lia. done. }
  exists (i * span h + k). rewrite span_S. split; [nia|]. cbn [find]. rewrite Ei, Em.
  by rewrite (proj2 (Z.eqb_neq _ _) Hne).
Qed.

Lemma child_full h i :
  0 <= i < 512 →
  child_first (Z.of_nat h * META_BLK_SHIFT) (0 / span h) 0 i = 0 ∧
  child_last (Z.of_nat h * META_BLK_SHIFT) ((span (S h) - 1) / span h) (span (S h) - 1) i = span h - 1 ∧
  (span (S h) - 1) / span h = 511.
Proof.
  intros Hi. pose proof (span_pos h). unfold child_first, child_last. rewrite !land_span, shiftl_span, span_S.
  assert (E : (512 * span h - 1) / span h = 511) by (symmetry; apply (Z.div_unique _ _ _ (span h - 1)); lia).
  assert (Em : (512 * span h - 1) mod span h = span h - 1)
    by (symmetry; apply (Z.mod_unique _ _ 511); lia).
  rewrite Z.mod_0_l, E, Em by lia. split_and!; [by destruct (_ =? _)|by destruct (_ =? _)|done].
Qed.

Lemma closed_full m h : ∀ p, closed m h p 0 (span h - 1).
Proof.
  induction h as [|h IH]; intros p; [done|]. intros i Hi Hne.
  destruct (child_full h i Hi) as (-> & -> & ->). pose proof (span_pos h).
  rewrite Z.div_0_l by lia. split; [lia|apply IH].
Qed.

Lemma closed_find m h : ∀ p f l k,
  closed m h p f l → 0 <= f <= l → l < span h → 0 <= k < span h → find m h p k ≠ 0 → f <= k <= l.
Proof.
  induction h as [|h IH]; intros p f l k Hc Hfl Hl Hk Hne.
  { change (span 0) with 1 in *. lia. }
  destruct (span_child h k Hk) as [Hi Hm]. cbn [find] in Hne.
  destruct (Z.eqb_spec (ptr m p (k / span h)) 0) as [|Hq]; [done|].
  destruct (Hc _ Hi Hq) as [Hr Hcc]. destruct (child_bounds h f l _ Hfl Hr) as [Hb1 Hb2].
  apply (range_split h f l k); [done|lia|]. exists (k / span h). split; [done|]. split; [done|].
  by eapply IH.
Qed.

Section Frames.
Variable n : Z.
Hypothesis Hn : 1 <= n.

(** What holds of a page's children is kept when the tree's blocks are. *)
Lemma page_frame m m' h p D b C :
  node_ok (tree m n h) m p D b C → agree (λ x, D (blk x)) m' m →
  ∀ i, 0 <= i < 512 → ptr m' p i = ptr m p i ∧
    (ptr m p i ≠ 0 → tree m n h (ptr m p i) (C i) ∧ agree (λ x, C i (blk x)) m' m).
Proof.
  intros [H1 H2 H3 H4 H5 H6] Ha i Hi. split.
  - apply ptr_ext. intros x Hx. apply Ha. subst p. rewrite (ptr_blk b i x Hi Hx). apply H6. by left.
  - intros Hne. destruct (H3 i Hi) as [[? _]|Ht]; [done|]. split; [done|].
    intros x Hx. apply Ha, H6. right. eauto.
Qed.

Lemma count_frame m m' h : ∀ p D,
  tree m n h p D → agree (λ x, D (blk x)) m' m → count m' h p = count m h p.
Proof.
  induction h as [|h IH]; intros p D Ht Ha; [done|]. destruct Ht as (b & C & Hnode).
  rewrite !count_S. apply sumZ_ext. intros i Hi.
  destruct (page_frame m m' h p D b C Hnode Ha i ltac:(lia)) as [-> Hc]. unfold count_at.
  destruct (Z.eqb_spec (ptr m p i) 0) as [|Hne]; [done|]. destruct (Hc Hne). by apply (IH _ (C i)).
Qed.

Lemma tight_frame m m' h : ∀ p D,
  tree m n h p D → agree (λ x, D (blk x)) m' m → tight m h p → tight m' h p.
Proof.
  induction h as [|h IH]; intros p D Ht Ha Hti; [done|]. destruct Ht as (b & C & Hnode).
  destruct Hti as [(i & Hi & Hne) Hti]. split.
  - exists i. destruct (page_frame m m' h p D b C Hnode Ha i Hi) as [-> _]. done.
  - intros j Hj. destruct (page_frame m m' h p D b C Hnode Ha j Hj) as [-> Hc]. intros Hnj.
    destruct (Hc Hnj). apply (IH _ (C j)); [done..|]. by apply Hti.
Qed.

Lemma closed_frame m m' h : ∀ p D f l,
  tree m n h p D → agree (λ x, D (blk x)) m' m → closed m h p f l → closed m' h p f l.
Proof.
  induction h as [|h IH]; intros p D f l Ht Ha Hcl; [done|]. destruct Ht as (b & C & Hnode).
  intros i Hi. destruct (page_frame m m' h p D b C Hnode Ha i Hi) as [-> Hc]. intros Hne.
  destruct (Hc Hne). destruct (Hcl i Hi Hne). split; [done|]. by apply (IH _ (C i)).
Qed.
End Frames.

(** ** Giving blocks back *)

(** [G] are the blocks given back, [D] those of the tree: only what is left of
    [D] may be written. *)
Record cut (s : fs) (D G : Z → Prop) (s' : fs) : Prop := {
  cut_wf : wf s';
  cut_device : same_device s s';
  cut_used y : used (block_inuse_head s') y ↔ used (block_inuse_head s) y ∧ ¬ G y;
  cut_in y : G y → D y;
  cut_view : agree (λ x, ¬ (D (blk x) ∧ ¬ G (blk x))) (vw s') (vw s)
}.

(** The blocks of the tree are in use, and something else is. *)
Record owns (s : fs) (D : Z → Prop) : Prop := {
  ow_wf : wf s;
  ow_used y : D y → used (block_inuse_head s) y;
  ow_anchor : ∃ a, used (block_inuse_head s) a ∧ ¬ D a
}.

Lemma cut_refl s D : wf s → cut s D (λ _, False) s.
Proof. intros. split; [done|done|tauto|tauto|by intros x]. Qed.

Lemma cut_ext s D D' G G' s' :
  cut s D G s' → (∀ y, D y ↔ D' y) → (∀ y, G y ↔ G' y) → cut s D' G' s'.
Proof.
  intros [H1 H2 H3 H4 H5] ED EG. split; [done|done| | |].
  - intros y. by rewrite H3, EG.
  - intros y Hy. by apply ED, H4, EG.
  - intros x Hx. apply H5. by rewrite ED, EG.
Qed.

Lemma cut_mono s D D' G s' : cut s D G s' → (∀ y, D y → D' y) → cut s D' G s'.
Proof.
  intros [H1 H2 H3 H4 H5] HD. split; [done|done|done|auto|].
  intros x Hx. apply H5. intros [??]. apply Hx. auto.
Qed.

Lemma cut_trans s1 s2 s3 D1 D2 G1 G2 :
  cut s1 D1 G1 s2 → cut s2 D2 G2 s3 → (∀ y, D1 y → D2 y → False) →
  cut s1 (λ y, D1 y ∨ D2 y) (λ y, G1 y ∨ G2 y) s3.
Proof.
  intros [A1 A2 A3 A4 A5] [B1 B2 B3 B4 B5] Hd. split; [done|by etrans| | |].
  - intros y. rewrite B3, A3. tauto.
  - intros y [?|?]; auto.
  - intros x Hx. pose proof (A4 (blk x)). pose proof (B4 (blk x)). pose proof (Hd (blk x)).
    rewrite B5; [apply A5|]; intros [??]; apply Hx; tauto.
Qed.

Lemma owns_cut s D E G s' : owns s D → (∀ y, E y → D y) → cut s E G s' → owns s' (λ y, D y ∧ ¬ G y).
Proof.
  intros [H1 H2 (a & Ha & Hna)] HE [B1 B2 B3 B4 B5]. split; [done| |].
  - intros y [Hy Hg]. apply B3. auto.
  - exists a. split; [apply B3; split; [done|]; intros Hg; by apply Hna, HE, B4|tauto].
Qed.

Lemma owns_sub s D D' : owns s D → (∀ y, D' y → D y) → owns s D'.
Proof. intros [H1 H2 (a & Ha & Hna)] HD. split; [done|auto|]. exists a. split; [done|]. auto. Qed.

Lemma get_blocknr_eq b : pmfs_get_blocknr (4096 * b) = b.
Proof.
  unfold pmfs_get_blocknr, PAGE_SHIFT. rewrite Z.shiftr_div_pow2 by lia. change (2 ^ 12) with 4096.
  rewrite Z.mul_comm. by apply Z.div_mul.
Qed.

Section Free.
Variable cfg : fs_cfg.
(** The slab cache always has a node for a split. *)
Hypothesis Hslab : ∀ k, slab_ok cfg k = true.

Lemma free_cut b btype h s D :
  let k := pmfs_get_numblocks btype in
  owns s D → (∀ y, run b k y → D y) → hint_ok s h → 0 < b →
  ∃ h' s', __pmfs_free_block cfg b btype h s = Ok (h', s') ∧ hint_ok s' h' ∧
    cut s (run b k) (run b k) s' ∧ pm s' = pm s.
Proof using Hslab.
  intros k Ho Hrun Hh Hb. pose proof (pow2_pos k (numblocks_pow2 btype)) as Hk.
  assert (Hu : run_used s b k) by (intros y Hy; by apply Ho, Hrun).
  pose proof (used_bounds _ _ _ _ (wf_ranges _ (ow_wf _ _ Ho)) (Hu b ltac:(lia))) as Hbd.
  pose proof (wf_end _ (ow_wf _ _ Ho)) as He.
  assert (Hne : block_inuse_head s ≠ []).
  { intros E. specialize (Hu b ltac:(lia)). rewrite E in Hu. by apply used_nil in Hu. }
  destruct (free_block_cases cfg b btype h s (ow_wf _ _ Ho) Hne Hh ltac:(lia)) as [[_ Hr]|[Hnu _]]; [|done].
  destruct Hr as [(h' & s' & E & Hwf & Hh' & Hus & _ & Hd & Hpm)|(s' & _ & _ & Hs)];
    [|by rewrite Hslab in Hs].
  exists h', s'. split_and!; [done|done| |done].
  split; [done|done|by intros y; rewrite Hus|done|]. intros x _. by rewrite Hpm.
Qed.

Lemma pmfs_free_cut b btype s D :
  let k := pmfs_get_numblocks btype in
  owns s D → (∀ y, run b k y → D y) → 0 < b →
  ∃ s', pmfs_free_block cfg b btype s = Ok ((), s') ∧ cut s (run b k) (run b k) s' ∧ pm s' = pm s.
Proof using Hslab.
  intros k Ho Hrun Hb. destruct (free_cut b btype None s D Ho Hrun) as (h' & s' & E & _ & Hc & Hpm);
    [by intros ? [=]|done|].
  exists s'. split_and!; [|done|done]. unfold pmfs_free_block. by rewrite (bind_Ok _ _ _ _ _ E).
Qed.
End Free.

(** ** What is left of a child *)

Section Trunc.
Variable n : Z.
Hypothesis Hn : 1 <= n.

(** The tree at [q] in [m], of the blocks of [C], after its range from [f] to [l]
    was freed: gone as a whole, or kept with [r] data blocks. *)
Definition pruned (m m' : mem) (h : nat) (q : Z) (C G : Z → Prop) (f l : Z) (kept : bool) (r : Z) : Prop :=
  if kept then
    ¬ closed m h q f l ∧ tree m' n h q (λ y, C y ∧ ¬ G y) ∧
    (∀ k, 0 <= k < span h → find m' h q k = if decide (f <= k <= l) then 0 else find m h q k) ∧
    r = count m' h q ∧ (tight m h q → tight m' h q)
  else closed m h q f l ∧ (∀ y, C y → G y) ∧ r = 0.

Lemma pruned_later m m1 m2 h q C G1 G2 f l kept r :
  pruned m m1 h q C G1 f l kept r → agree (λ x, C (blk x) ∧ ¬ G1 (blk x)) m2 m1 →
  (∀ y, C y → (G1 y ↔ G2 y)) → pruned m m2 h q C G2 f l kept r.
Proof using Hn.
  intros Hp Ha HG. destruct kept; simpl in *.
  - destruct Hp as (H1 & H2 & H3 & H4 & H5). split_and!; [done| | | |].
    + eapply tree_ext; [by eapply tree_frame|]. intros y. specialize (HG y). tauto.
    + intros k Hk. rewrite (find_frame n m1 m2 h q _ k H2 Ha Hk). by apply H3.
    + by rewrite (count_frame n m1 m2 h q _ H2 Ha).
    + intros Ht. eapply tight_frame; [exact H2|exact Ha|by apply H5].
  - destruct Hp as (H1 & H2 & H3). split_and!; [done| |done]. intros y Hy. by apply HG, H2.
Qed.

Lemma pruned_base m0 m m' h q C G f l kept r :
  tree m0 n h q C → agree (λ x, C (blk x)) m m0 → pruned m m' h q C G f l kept r →
  pruned m0 m' h q C G f l kept r.
Proof using Hn.
  intros Ht Ha Hp. pose proof (tree_frame n m0 m h q C Ht Ha) as Ht'.
  assert (Ha' : agree (λ x, C (blk x)) m0 m) by (intros x Hx; by rewrite Ha).
  destruct kept; simpl in *.
  - destruct Hp as (H1 & H2 & H3 & H4 & H5). split_and!; [|done| |done|].
    + intros Hc. apply H1. by eapply (closed_frame n m0).
    + intros k Hk. rewrite H3, (find_frame n m0 m h q C k Ht Ha Hk) by done. done.
    + intros Hti. apply H5. by eapply (tight_frame n m0).
  - destruct Hp as (H1 & H2 & H3). split_and!; [|done|done]. by eapply (closed_frame n m).
Qed.

(** What freeing a range of the tree of the page [b] comes to: the count, and
    whether nothing is left but the page itself. *)
Definition trunc_result (h : nat) (b f l : Z) (s : fs) (D : Z → Prop) (res : result ((Z * bool) * fs)) : Prop :=
  ∃ c mpty s' G, res = Ok ((u32 c, mpty), s') ∧ 0 <= c ∧ ¬ G b ∧
    if (mpty : bool) then
      cut s G G s' ∧ closed (vw s) h (4096 * b) f l ∧ (∀ y, D y ↔ y = b ∨ G y) ∧ c = count (vw s) h (4096 * b)
    else
      cut s D G s' ∧ pruned (vw s) (vw s') h (4096 * b) D G f l true (count (vw s) h (4096 * b) - c).

(** ** The rounds over the pointers of a page *)

Section Page.
Variables (h : nat) (b first last : Z) (s0 : fs) (D : Z → Prop) (C : Z → Z → Prop).
Let m0 : mem := vw s0.
Let p : Z := 4096 * b.
Let fi : Z := first / span h.
Let li : Z := last / span h.
Let cf (i : Z) : Z := child_first (Z.of_nat h * META_BLK_SHIFT) fi first i.
Let cl (i : Z) : Z := child_last (Z.of_nat h * META_BLK_SHIFT) li last i.
Hypothesis Hnode : node_ok (tree m0 n h) m0 p D b C.
Hypothesis Howns : owns s0 D.
Hypothesis Hfl : 0 <= first <= last.
Hypothesis Hlast : last < span (S h).

(** The rounds up to [i] are done: [kept j] tells whether child [j] stays, [r j]
    is its number of data blocks now, [c] data blocks were freed. *)
Record progress (i : Z) (s : fs) (kept : Z → bool) (r : Z → Z) (G : Z → Prop) (c : Z) : Prop := {
  pg_cut : cut s0 (λ y, ∃ j, fi <= j < i ∧ C j y) G s;
  pg_todo j : 0 <= j < 512 → ¬ fi <= j < i → kept j = false ∧ r j = count_at m0 h (ptr m0 p j);
  pg_null j : fi <= j < i → ptr m0 p j = 0 → kept j = false ∧ r j = 0;
  pg_done j : fi <= j < i → ptr m0 p j ≠ 0 →
    pruned m0 (vw s) h (ptr m0 p j) (C j) G (cf j) (cl j) (kept j) (r j);
  pg_count : 0 <= c ∧ c + sumZ r 0 512 = count m0 (S h) p;
  pg_kept j : kept j = true → j = fi ∨ j = li
}.

Lemma range_ok : 0 <= fi <= li ∧ li < 512.
Proof using All.
  pose proof (span_pos h). destruct (span_child h first ltac:(lia)), (span_child h last ltac:(lia)).
  unfold fi, li. split; [|lia]. split; [lia|]. apply Z.div_le_mono; lia.
Qed.

Lemma child_sub j y : 0 <= j < 512 → C j y → D y ∧ y ≠ b.
Proof using All.
  intros Hj Hc. destruct Hnode as [N1 N2 N3 N4 N5 N6]. split; [apply N6; right; eauto|by apply (N5 j)].
Qed.

Lemma child_tree j : 0 <= j < 512 → ptr m0 p j ≠ 0 → tree m0 n h (ptr m0 p j) (C j).
Proof using All.
  intros Hj Hne. by destruct (no_child _ _ _ _ _ _ Hnode j Hj) as [[? _]|?].
Qed.

Lemma child_null j y : 0 <= j < 512 → ptr m0 p j = 0 → ¬ C j y.
Proof using All.
  intros Hj Hz. destruct (no_child _ _ _ _ _ _ Hnode j Hj) as [[_ Hno]|Ht]; [apply Hno|].
  rewrite Hz in Ht. by apply (tree_nonzero n Hn) in Ht.
Qed.

Lemma progress_start : progress fi s0 (λ _, false) (λ j, count_at m0 h (ptr m0 p j)) (λ _, False) 0.
Proof using All.
  split; try done; try lia.
  eapply cut_ext; [apply (cut_refl s0 (λ _, False)), Howns| |done].
  intros y. split; [done|]. intros (j & ? & _). lia.
Qed.

(** Nothing but the children of the rounds done is written. *)
Lemma progress_view i s kept r G c x :
  progress i s kept r G c → i <= 512 → blk x = b ∨ (∃ j, 0 <= j < 512 ∧ ¬ fi <= j < i ∧ C j (blk x)) →
  vw s !!! x = m0 !!! x.
Proof using All.
  intros Hp Hi Hx. apply (cut_view _ _ _ _ (pg_cut _ _ _ _ _ _ Hp)). intros [(j & Hj & Hc) _].
  pose proof range_ok. destruct Hx as [Hx|(k & Hk & Hnk & Hc')].
  - by apply (child_sub j _ ltac:(lia) Hc).
  - assert (j = k) by (apply (no_disjoint _ _ _ _ _ _ Hnode j k (blk x)); [lia|lia|done|done]). by subst.
Qed.

Lemma progress_ptr i s kept r G c j :
  progress i s kept r G c → i <= 512 → 0 <= j < 512 → ptr (vw s) p j = ptr m0 p j.
Proof using All.
  intros Hp Hi Hj. apply ptr_ext. intros x Hx. eapply progress_view; [done..|].
  left. by apply (ptr_blk b j).
Qed.

(** The tree of the next child. *)
Lemma progress_child i s kept r G c :
  progress i s kept r G c → fi <= i <= li → ptr m0 p i ≠ 0 →
  tree (vw s) n h (ptr m0 p i) (C i) ∧ agree (λ x, C i (blk x)) (vw s) m0 ∧
  owns s (λ y, (y = b ∨ C i y)) ∧ (∀ y, C i y → ¬ G y) ∧ ¬ G b.
Proof using All.
  intros Hp Hi Hne. pose proof range_ok as Hr.
  assert (Ha : agree (λ x, C i (blk x)) (vw s) m0).
  { intros x Hx. eapply progress_view; [done|lia|]. right. exists i. split; [lia|]. split; [lia|done]. }
  assert (HG : ∀ y, G y → ∃ j, fi <= j < i ∧ C j y) by apply (cut_in _ _ _ _ (pg_cut _ _ _ _ _ _ Hp)).
  assert (HC : ∀ y, C i y → ¬ G y).
  { intros y Hy (j & Hj & Hc)%HG.
    assert (j = i) by (apply (no_disjoint _ _ _ _ _ _ Hnode j i y); [lia|lia|done|done]). lia. }
  assert (Hb : ¬ G b) by (intros (j & Hj & Hc)%HG; by destruct (child_sub j b ltac:(lia) Hc)).
  split_and!; [|done| |done|done].
  - eapply tree_frame; [|exact Ha]. apply child_tree; [lia|done].
  - eapply owns_sub; [eapply owns_cut; [exact Howns| |apply (pg_cut _ _ _ _ _ _ Hp)]|].
    + intros y (j & Hj & Hc). by apply (child_sub j y); [lia|].
    + intros y [->|Hy]; split; [by apply (no_dom _ _ _ _ _ _ Hnode); left|done|by apply (child_sub i y); [lia|]|auto].
Qed.

Lemma progress_skip i s kept r G c :
  progress i s kept r G c → fi <= i <= li → ptr m0 p i = 0 → progress (i + 1) s kept r G c.
Proof using All.
  intros [P1 P2 P3 P4 P5 P6] Hi Hz. pose proof range_ok as Hr. destruct (P2 i ltac:(lia) ltac:(lia)) as [Hk Er].
  split; [| | | |done|done].
  - eapply cut_mono; [exact P1|]. intros y (j & Hj & Hc). exists j. split; [lia|done].
  - intros j Hj Hnj. apply P2; [done|lia].
  - intros j Hj Hzj. destruct (decide (j = i)) as [->|]; [|apply P3; [lia|done]].
    split; [done|]. rewrite Er, Hz. done.
  - intros j Hj Hne. apply P4; [|done]. assert (j ≠ i) by congruence. lia.
Qed.

Lemma progress_step i s kept r G c s1 Gi kb ri ci :
  progress i s kept r G c → fi <= i <= li → ptr m0 p i ≠ 0 →
  cut s (C i) Gi s1 → pruned (vw s) (vw s1) h (ptr m0 p i) (C i) Gi (cf i) (cl i) kb ri →
  0 <= ci → ci + ri = count (vw s) h (ptr m0 p i) → (kb = true → i = fi ∨ i = li) →
  progress (i + 1) s1 (λ j, if decide (j = i) then kb else kept j) (λ j, if decide (j = i) then ri else r j)
    (λ y, G y ∨ Gi y) (c + ci).
Proof using All.
  intros Hp Hi Hne Hcut Hpr Hci Ec Hkb. pose proof range_ok as Hr.
  destruct (progress_child _ _ _ _ _ _ Hp Hi Hne) as (Ht & Ha & _ & HCG & _).
  pose proof Hp as [P1 P2 P3 P4 P5 P6].
  assert (Hdis : ∀ j y, fi <= j < i → C j y → ¬ C i y).
  { intros j y Hj H1 H2. assert (j = i); [|lia].
    apply (no_disjoint _ _ _ _ _ _ Hnode j i y); [lia|lia|done|done]. }
  split.
  - eapply cut_ext; [eapply cut_trans; [exact P1|exact Hcut|]| |done].
    + intros y (j & Hj & Hc). by apply (Hdis j).
    + intros y. split.
      * intros [(j & Hj & Hc)|Hc]; [exists j|exists i]; (split; [lia|done]).
      * intros (j & Hj & Hc). destruct (decide (j = i)) as [->|]; [by right|left]. exists j. split; [lia|done].
  - intros j Hj Hnj. rewrite !decide_False by lia. apply P2; [done|lia].
  - intros j Hj Hz. rewrite !decide_False by congruence. apply P3; [|done]. assert (j ≠ i) by congruence. lia.
  - intros j Hj Hnej. destruct (decide (j = i)) as [->|Hji].
    + eapply pruned_base; [apply child_tree; [lia|done]|exact Ha|].
      eapply pruned_later; [exact Hpr|by intros x _|]. intros y Hy. pose proof (HCG y Hy). tauto.
    + eapply pruned_later; [apply P4; [lia|done]| |].
      * intros x [Hx _]. apply (cut_view _ _ _ _ Hcut). intros [Hc _]. apply (Hdis j (blk x)); [lia|done|done].
      * intros y Hy. split; [by left|]. intros [?|Hg]; [done|]. exfalso.
        apply (cut_in _ _ _ _ Hcut) in Hg. apply (Hdis j y); [lia|done|done].
  - rewrite sumZ_update by lia. destruct (P2 i ltac:(lia) ltac:(lia)) as [_ ->]. unfold count_at.
    rewrite (proj2 (Z.eqb_neq _ _) Hne).
    rewrite (count_frame n m0 (vw s) h _ (C i)) in Ec by (done || (apply child_tree; [lia|done])). lia.
  - intros j. case_decide as Hj; [subst j; done|apply P6].
Qed.

Variables (cfg : fs_cfg) (btype : Z).
Hypothesis Hslab : ∀ k, slab_ok cfg k = true.
Hypothesis Hbt : n = pmfs_get_numblocks btype.

Lemma wrap_succ w x y : 0 <= w → wrap w (wrap w x + y) = wrap w (x + y).
Proof. intros. unfold wrap. apply Zplus_mod_idemp_l. Qed.
Lemma wrap_add2 w x y : 0 <= w → wrap w (wrap w x + wrap w y) = wrap w (x + y).
Proof. intros. unfold wrap. by rewrite <- Zplus_mod. Qed.

(** The data blocks. *)
Lemma truncate_data_run cnt : h = O → ∀ i s hint kept r G c,
  progress i s kept r G c → hint_ok s hint → (∀ j, kept j = false) → fi <= i → i + Z.of_nat cnt = li + 1 →
  ∃ s' kept' r' G' c', truncate_data cfg cnt p btype i (u32 c) hint s = Ok (u32 c', s') ∧
    progress (li + 1) s' kept' r' G' c' ∧ ∀ j, kept' j = false.
Proof using All.
  intros Hh. pose proof range_ok as Hr.
  induction cnt as [|cnt IH]; intros i s hint kept r G c Hp Hhint Hk Hi Hcnt; cbn [truncate_data].
  { exists s, kept, r, G, c. replace (li + 1) with i by lia. by split_and!. }
  rewrite (bind_Ok _ _ _ _ _ (lift_fetch 8 _ s)). fold (ptr (vw s) p i).
  rewrite (progress_ptr i s kept r G c i Hp) by lia.
  destruct (Z.eqb_spec (ptr m0 p i) 0) as [Hz|Hne].
  { eapply IH; [eapply progress_skip; [exact Hp|lia|done]|done|done|lia|lia]. }
  destruct (progress_child _ _ _ _ _ _ Hp ltac:(lia) Hne) as (Ht & _ & Ho & _ & _).
  rewrite Hh in Ht. destruct Ht as (b' & Hb' & Eq & _ & HC). rewrite Eq, get_blocknr_eq.
  destruct (free_cut cfg Hslab b' btype hint s _ Ho) as (hint' & s1 & E & Hh1 & Hc & Hpm); [|done|done|].
  { rewrite <- Hbt. intros y Hy. right. by apply HC. }
  rewrite (bind_Ok _ _ _ _ _ E), (wrap_succ 32) by lia. rewrite <- Hbt in Hc.
  eapply IH; [eapply (progress_step i s kept r G c s1 (C i) false 0 1)| | | |]; try done; try lia.
  - eapply cut_ext; [exact Hc| |]; intros y; symmetry; apply HC.
  - rewrite Hh. by split_and!.
  - by rewrite Hh.
  - intros j. cbn. by destruct (decide (j = i)).
Qed.

(** The four variables of the loop over the pages. *)
Definition vars_of (kept : Z → bool) (c : Z) : truncate_vars :=
  TruncateVars (if kept fi then fi + 1 else fi) (if negb (li =? fi) && kept li then li - 1 else li)
    (negb (kept fi || kept li)) (u32 c).

Variable rec : Z → Z → Z → FM (Z * bool).
Hypothesis Hrec : h ≠ O → ∀ s D' b' f l, tree (vw s) n h (4096 * b') D' → owns s D' → 0 <= f <= l → l < span h →
  trunc_result h b' f l s D' (rec (4096 * b') f l s).

(** One child. *)
Lemma child_truncated i s kept r G c :
  h ≠ O → progress i s kept r G c → fi <= i <= li → ptr m0 p i ≠ 0 →
  ∃ ci mpty s1, rec (ptr m0 p i) (cf i) (cl i) s = Ok ((u32 ci, mpty), s1) ∧
    if (mpty : bool) then ptr (vw s1) p i = ptr m0 p i ∧
      ∃ s2 kept' r' G', pmfs_free_block cfg (pmfs_get_blocknr (ptr m0 p i)) PMFS_BLOCK_TYPE_4K s1 = Ok ((), s2) ∧
        progress (i + 1) s2 kept' r' G' (c + ci) ∧ (∀ j, kept' j = kept j)
    else ∃ kept' r' G', progress (i + 1) s1 kept' r' G' (c + ci) ∧ kept' i = true ∧ ∀ j, j ≠ i → kept' j = kept j.
Proof using All.
  intros Hh Hp Hi Hne. pose proof range_ok as Hr.
  destruct (progress_child _ _ _ _ _ _ Hp ltac:(lia) Hne) as (Ht & Ha & Ho & _ & HGb).
  destruct (tree_addr n Hn _ _ _ _ Ht) as (b' & Hb' & Eb & HCb).
  destruct (child_bounds h first last i Hfl Hi) as [Hcb1 Hcb2].
  assert (Hno : b' ≠ b) by (by apply (child_sub i b'); [lia|]).
  assert (Ek : kept i = false) by (apply (pg_todo _ _ _ _ _ _ Hp); lia).
  destruct (Hrec Hh s (C i) b' (cf i) (cl i)) as (ci & mpty & s1 & Gi & E & Hci & HGi & Hres);
    [by rewrite <- Eb|eapply owns_sub; [exact Ho|intros y Hy; by right]|done|done|].
  rewrite Eb. exists ci, mpty, s1. split; [done|]. rewrite <- Eb in Hres. destruct mpty.
  - destruct Hres as (Hcut & Hcl & HD & Ec). split.
    { rewrite <- Eb. rewrite <- (progress_ptr i s kept r G c i Hp) by lia. apply ptr_ext. intros x Hx.
      apply (cut_view _ _ _ _ Hcut). tauto. }
    pose proof (owns_cut _ _ _ _ _ Ho (λ y H, or_intror (proj2 (HD y) (or_intror H))) Hcut) as Ho1.
    destruct (pmfs_free_cut cfg Hslab b' PMFS_BLOCK_TYPE_4K s1 _ Ho1) as (s2 & E2 & Hc2 & Hpm); [|done|].
    { intros y Hy. assert (y = b') as -> by (unfold run in Hy; cbn in Hy; lia). split; [by right|done]. }
    rewrite get_blocknr_eq, E2. do 4 eexists. split; [done|]. split.
    + eapply (progress_step i s kept r G c s2 (C i) false 0 ci); [exact Hp|lia|done| | |done|lia|done].
      * assert (HR : ∀ y, run b' 1 y ↔ y = b') by (unfold run; lia).
        change (pmfs_get_numblocks PMFS_BLOCK_TYPE_4K) with 1 in Hc2.
        eapply cut_ext; [eapply cut_trans; [exact Hcut|exact Hc2|]| |].
        -- intros y Hy ->%HR. done.
        -- intros y. cbv beta. rewrite HR, HD. tauto.
        -- intros y. cbv beta. rewrite HR, HD. tauto.
      * by split_and!.
    + intros j. cbn. destruct (decide (j = i)); [by subst|done].
  - destruct Hres as (Hcut & Hpr). do 3 eexists. split; [|split].
    + eapply (progress_step i s kept r G c s1 Gi true _ ci); try done; [lia|]. intros _.
      destruct (decide (i = fi)); [by left|]. destruct (decide (i = li)); [by right|]. exfalso.
      destruct Hpr as [Hnc _]. apply Hnc. unfold cf, cl, child_first, child_last.
      rewrite (proj2 (Z.eqb_neq i fi)), (proj2 (Z.eqb_neq i li)), shiftl_span by done. apply closed_full.
    + cbn. by rewrite decide_True.
    + intros j Hj. cbn. by rewrite decide_False.
Qed.

(** The pages. *)
Lemma truncate_meta_run cnt : h ≠ O → ∀ i s kept r G c,
  progress i s kept r G c → fi <= i → i + Z.of_nat cnt = li + 1 →
  ∃ s' kept' r' G' c',
    truncate_meta cfg rec cnt p (Z.of_nat h * META_BLK_SHIFT) fi li first last i (vars_of kept c) s
      = Ok (vars_of kept' c', s') ∧ progress (li + 1) s' kept' r' G' c'.
Proof using All.
  intros Hh. pose proof range_ok as Hr.
  induction cnt as [|cnt IH]; intros i s kept r G c Hp Hi Hcnt; cbn [truncate_meta].
  { exists s, kept, r, G, c. replace (li + 1) with i by lia. done. }
  rewrite (bind_Ok _ _ _ _ _ (lift_fetch 8 _ s)). fold (ptr (vw s) p i).
  rewrite (progress_ptr i s kept r G c i Hp) by lia.
  destruct (Z.eqb_spec (ptr m0 p i) 0) as [Hz|Hne].
  { eapply IH; [eapply progress_skip; [exact Hp|lia|done]|lia|lia]. }
  assert (Ek : kept i = false) by (apply (pg_todo _ _ _ _ _ _ Hp); lia).
  destruct (child_truncated i s kept r G c Hh Hp ltac:(lia) Hne) as (ci & mpty & s1 & E & Hres).
  rewrite (bind_Ok _ _ _ _ _ E). destruct mpty.
  - destruct Hres as (Eq & s2 & kept' & r' & G' & E2 & Hp2 & Hkeep).
    rewrite (bind_Ok _ _ _ _ _ (lift_fetch 8 _ s1)). fold (ptr (vw s1) p i). rewrite Eq.
    rewrite (bind_Ok _ _ _ _ _ E2). destruct (IH (i + 1) s2 kept' r' G' (c + ci) Hp2) as (s3 & k3 & r3 & G3 & c3 & E3 & Hp3);
      [lia|lia|].
    exists s3, k3, r3, G3, c3. split; [|done]. rewrite <- E3. f_equal. unfold vars_of. cbn.
    rewrite !Hkeep, wrap_add2 by lia. done.
  - destruct Hres as (kept' & r' & G' & Hp2 & Hki & Hkeep).
    destruct (IH (i + 1) s1 kept' r' G' (c + ci) Hp2) as (s3 & k3 & r3 & G3 & c3 & E3 & Hp3); [lia|lia|].
    exists s3, k3, r3, G3, c3. split; [|done]. rewrite <- E3. f_equal. unfold vars_of. cbn [tv_start tv_end all_range_freed freed].
    rewrite wrap_add2 by lia. destruct (Z.eqb_spec i fi) as [->|Hif].
    + rewrite Hki, Ek. cbn. f_equal. destruct (Z.eqb_spec li fi); [done|]. by rewrite (Hkeep li).
    + rewrite (Hkeep fi) by done. destruct (Z.eqb_spec i li) as [->|Hil].
      * rewrite Hki, Ek, (proj2 (Z.eqb_neq li fi)) by done. cbn. by rewrite orb_true_r.
      * assert (kept' i = true → i = fi ∨ i = li) by apply (pg_kept _ _ _ _ _ _ Hp2). intuition congruence.
Qed.

(** ** The end of the call *)

Lemma no_pointers_eq k node c : ∀ i, ∃ e, no_pointers k node i c = Ok (e, c) ∧
  if (e : bool) then ∀ j, i <= j < i + Z.of_nat k → ptr (view c) node j = 0
  else ∃ j, i <= j < i + Z.of_nat k ∧ ptr (view c) node j ≠ 0.
Proof using All.
  induction k as [|k IH]; intros i; cbn [no_pointers].
  { exists true. split; [done|]. lia. }
  rewrite (bind_Ok _ _ _ _ _ (fetch_eq 8 _ c)). fold (ptr (view c) node i).
  destruct (Z.eqb_spec (ptr (view c) node i) 0) as [Hz|Hne].
  - destruct (IH (i + 1)) as (e & E & He). exists e. split; [done|]. destruct e.
    + intros j Hj. destruct (decide (j = i)) as [->|]; [done|]. apply He. lia.
    + destruct He as (j & Hj & Hne). exists j. split; [lia|done].
  - exists false. split; [done|]. exists i. split; [lia|done].
Qed.

Lemma is_empty_eq c : ∃ e, is_empty_meta_block p fi li c = Ok (e, c) ∧
  if (e : bool) then ∀ j, 0 <= j < 512 → ¬ fi <= j <= li → ptr (view c) p j = 0
  else ∃ j, 0 <= j < 512 ∧ ¬ fi <= j <= li ∧ ptr (view c) p j ≠ 0.
Proof using All.
  pose proof range_ok as Hr. unfold is_empty_meta_block. change (Z.shiftl 1 META_BLK_SHIFT - 1) with 511.
  destruct (no_pointers_eq (Z.to_nat fi) p c 0) as (e & E & He). rewrite (bind_Ok _ _ _ _ _ E). destruct e.
  2: { exists false. split; [done|]. destruct He as (j & Hj & Hne). exists j. split; [lia|]. split; [lia|done]. }
  destruct (no_pointers_eq (Z.to_nat (511 - li)) p c (li + 1)) as (e & E2 & He2). cbn [negb]. exists e.
  split; [exact E2|]. destruct e.
  - intros j Hj Hnj. destruct (Z.lt_ge_cases j fi); [apply He; lia|apply He2; lia].
  - destruct He2 as (j & Hj & Hne). exists j. split; [lia|]. split; [lia|done].
Qed.

(** Nothing but the page is left. *)
Lemma page_emptied s kept r G c :
  progress (li + 1) s kept r G c → kept fi = false → kept li = false →
  (∀ j, 0 <= j < 512 → ¬ fi <= j <= li → ptr m0 p j = 0) →
  cut s0 G G s ∧ ¬ G b ∧ closed m0 (S h) p first last ∧ (∀ y, D y ↔ y = b ∨ G y) ∧ c = count m0 (S h) p.
Proof using All.
  intros [P1 P2 P3 P4 [P5 P5'] P6] Hkf Hkl Hout. pose proof range_ok as Hr.
  assert (Hk : ∀ j, kept j = false).
  { intros j. destruct (kept j) eqn:E; [|done]. destruct (P6 j E); congruence. }
  assert (Hin : ∀ j, 0 <= j < 512 → ptr m0 p j ≠ 0 → fi <= j <= li).
  { intros j Hj Hne. destruct (decide (fi <= j <= li)); [done|]. by destruct (Hne (Hout j Hj n0)). }
  assert (Hpr : ∀ j, 0 <= j < 512 → ptr m0 p j ≠ 0 → closed m0 h (ptr m0 p j) (cf j) (cl j) ∧ (∀ y, C j y → G y) ∧ r j = 0).
  { intros j Hj Hne. specialize (Hin j Hj Hne). specialize (P4 j ltac:(lia) Hne). by rewrite (Hk j) in P4. }
  assert (HG : ∀ y, G y ↔ ∃ j, fi <= j < li + 1 ∧ C j y).
  { intros y. split; [apply (cut_in _ _ _ _ P1)|]. intros (j & Hj & Hc).
    destruct (decide (ptr m0 p j = 0)) as [Hz|Hne]; [by destruct (child_null j y ltac:(lia) Hz)|].
    by apply (Hpr j ltac:(lia) Hne). }
  split_and!.
  - eapply cut_ext; [exact P1| |done]. intros y. by rewrite HG.
  - rewrite HG. intros (j & Hj & Hc). by destruct (child_sub j b ltac:(lia) Hc).
  - intros j Hj Hne. split; [by apply Hin|by apply Hpr].
  - intros y. rewrite HG, (no_dom _ _ _ _ _ _ Hnode). split.
    + intros [?|(j & Hj & Hc)]; [by left|right]. exists j. split; [|done].
      destruct (decide (ptr m0 p j = 0)) as [Hz|Hne]; [by destruct (child_null j y Hj Hz)|].
      specialize (Hin j Hj Hne). lia.
    + intros [?|(j & Hj & Hc)]; [by left|right]. exists j. split; [lia|done].
  - rewrite (sumZ_zero r 512 0) in P5'; [lia|]. intros j Hj.
    destruct (decide (ptr m0 p j = 0)) as [Hz|Hne]; [|by apply Hpr; [lia|]].
    destruct (decide (fi <= j <= li)); [by apply P3; [lia|]|].
    destruct (P2 j) as [_ ->]; [lia|lia|]. unfold count_at. by rewrite Hz.
Qed.

Section Kept.
Variables (s : fs) (kept : Z → bool) (r : Z → Z) (G : Z → Prop) (c : Z) (m2 : mem) (x : Z).
Hypothesis Hp : progress (li + 1) s kept r G c.
Hypothesis Hptr : ∀ j, 0 <= j < 512 →
  ptr m2 p j = if decide (fi <= j <= li ∧ kept j = false) then 0 else ptr m0 p j.
Hypothesis Hm2 : agree (λ a, blk a ≠ b) m2 (vw s).
Hypothesis Hx : 0 <= x < 512 ∧ ptr m0 p x ≠ 0 ∧ (kept x = true ∨ ¬ fi <= x <= li).

Lemma gone_child y : G y → ∃ j, fi <= j < li + 1 ∧ C j y.
Proof using All. apply (cut_in _ _ _ _ (pg_cut _ _ _ _ _ _ Hp)). Qed.

(** The child stays. *)
Definition stays (j : Z) : Prop := 0 <= j < 512 ∧ ptr m0 p j ≠ 0 ∧ ¬ (fi <= j <= li ∧ kept j = false).

Lemma child_stays j : stays j →
  tree m2 n h (ptr m0 p j) (λ y, C j y ∧ ¬ G y) ∧
  (∀ k, 0 <= k < span h → find m2 h (ptr m0 p j) k =
     if decide (fi <= j <= li ∧ cf j <= k <= cl j) then 0 else find m0 h (ptr m0 p j) k) ∧
  r j = count m2 h (ptr m0 p j) ∧ (tight m0 h (ptr m0 p j) → tight m2 h (ptr m0 p j)).
Proof using All.
  intros (Hj & Hne & Hs). pose proof range_ok as Hr.
  assert (Hb : ∀ y, C j y → y ≠ b) by (intros y Hy; by apply (child_sub j y)).
  destruct (decide (fi <= j <= li)) as [Hin|Hout].
  - assert (Ek : kept j = true) by (destruct (kept j); [done|tauto]).
    pose proof (pg_done _ _ _ _ _ _ Hp j ltac:(lia) Hne) as Hpr. rewrite Ek in Hpr.
    apply (pruned_later _ _ m2 _ _ _ _ G) in Hpr; [| |done].
    2: { intros y [Hy _]. by apply Hm2, Hb. }
    destruct Hpr as (_ & H1 & H2 & H3 & H4). split_and!; [done| |done|done].
    intros k Hk. rewrite H2 by done. repeat case_decide; try done; tauto.
  - assert (HG : ∀ y, C j y → ¬ G y).
    { intros y Hy (i & Hi & Hc)%gone_child.
      assert (i = j) by (apply (no_disjoint _ _ _ _ _ _ Hnode i j y); [lia|lia|done|done]). lia. }
    assert (Ha : agree (λ y, C j (blk y)) m2 m0).
    { intros y Hy. rewrite Hm2 by (by apply Hb). eapply progress_view; [exact Hp|lia|]. right.
      exists j. split; [lia|]. split; [lia|done]. }
    pose proof (child_tree j Hj Hne) as Ht. split_and!.
    + eapply tree_ext; [by eapply tree_frame|]. intros y. specialize (HG y). tauto.
    + intros k Hk. rewrite decide_False by tauto. by apply (find_frame n m0 m2 h _ (C j)).
    + destruct (pg_todo _ _ _ _ _ _ Hp j) as [_ ->]; [lia|lia|]. unfold count_at.
      rewrite (proj2 (Z.eqb_neq _ _) Hne). symmetry. by apply (count_frame n m0 m2 h _ (C j)).
    + by apply (tight_frame n m0 m2 h _ (C j)).
Qed.

Lemma x_stays : stays x.
Proof using All. destruct Hx as (H1 & H2 & H3). unfold stays. split_and!; [lia|lia|done|]. intuition congruence. Qed.

Lemma stays_ptr j : 0 <= j < 512 → ptr m2 p j ≠ 0 → stays j ∧ ptr m2 p j = ptr m0 p j.
Proof using All.
  intros Hj. rewrite Hptr by done.
  destruct (decide (fi <= j <= li ∧ kept j = false)); [done|]. intros ?. unfold stays. split; [split; [done|by split]|done].
Qed.

(** A child that does not stay has no blocks left. *)
Lemma child_gone j y : 0 <= j < 512 → ptr m2 p j = 0 → C j y → G y.
Proof using All.
  intros Hj. rewrite Hptr by done. intros Hz Hy.
  destruct (decide (ptr m0 p j = 0)) as [Hz0|Hne]; [by destruct (child_null j y Hj Hz0)|].
  destruct (decide (fi <= j <= li ∧ kept j = false)) as [[Hin Ek]|]; [|done].
  pose proof (pg_done _ _ _ _ _ _ Hp j ltac:(lia) Hne) as Hpr. rewrite Ek in Hpr. by apply Hpr.
Qed.

Lemma kept_tree : tree m2 n (S h) p (λ y, D y ∧ ¬ G y).
Proof using All.
  pose proof Hnode as [N1 N2 N3 N4 N5 N6]. pose proof range_ok as Hr. exists b, (λ j y, C j y ∧ ¬ G y). split; [done|done|..].
  - intros j Hj. destruct (decide (ptr m2 p j = 0)) as [Hz|Hne].
    + left. split; [done|]. intros y [Hc Hg]. by apply Hg, (child_gone j y).
    + right. destruct (stays_ptr j Hj Hne) as [Hs ->]. by apply child_stays.
  - intros i j y Hi Hj [Hc _] [Hc' _]. by apply (N4 i j y).
  - intros i y Hi [Hc _]. by apply (N5 i y).
  - intros y. rewrite N6. split.
    + intros [[?|(j & Hj & Hc)] Hg]; [by left|right; eauto].
    + intros [->|(j & Hj & Hc & Hg)].
      * split; [by left|]. intros (j & Hj & Hc)%gone_child. by apply (N5 j b ltac:(lia) Hc).
      * split; [right; eauto|done].
Qed.

Lemma kept_find k : 0 <= k < span (S h) →
  find m2 (S h) p k = if decide (first <= k <= last) then 0 else find m0 (S h) p k.
Proof using All.
  intros Hk. destruct (span_child h k Hk) as [Hi Hm]. cbn [find]. pose proof range_ok as Hr.
  assert (Hrange : first <= k <= last ↔ fi <= k / span h <= li ∧ cf (k / span h) <= k mod span h <= cl (k / span h)).
  { rewrite (range_split h first last k) by lia. unfold in_child. split.
    - intros (i & Hi' & <- & Hc). done.
    - intros [Hi' Hc]. exists (k / span h). done. }
  destruct (decide (ptr m2 p (k / span h) = 0)) as [Hz|Hne].
  - rewrite Hz. cbn. case_decide as Hd; [done|].
    destruct (Z.eqb_spec (ptr m0 p (k / span h)) 0) as [|Hne]; [done|].
    pose proof (Hptr _ Hi) as E. rewrite Hz in E.
    destruct (decide (fi <= k / span h <= li ∧ kept (k / span h) = false)) as [[Hin Ek]|]; [|by rewrite <- E in Hne].
    pose proof (pg_done _ _ _ _ _ _ Hp _ ltac:(split; [apply Hin|lia]) Hne) as Hpr.
    rewrite Ek in Hpr. destruct Hpr as [Hcl _]. symmetry. destruct (decide (find m0 h (ptr m0 p (k / span h)) (k mod span h) = 0)) as [|Hf]; [done|].
    exfalso. apply Hd, Hrange. split; [done|]. destruct (child_bounds h first last _ Hfl Hin) as [Hb1 Hb2].
    by eapply closed_find.
  - destruct (stays_ptr _ Hi Hne) as [Hs E]. rewrite E in Hne |- *. rewrite (proj2 (Z.eqb_neq _ _) Hne).
    destruct (child_stays _ Hs) as (_ & Hf & _). rewrite Hf by done.
    repeat case_decide; try done; tauto.
Qed.

Lemma page_kept :
  ¬ G b ∧ pruned m0 m2 (S h) p D G first last true (count m0 (S h) p - c).
Proof using All.
  pose proof range_ok as Hr. split.
  { intros (j & Hj & Hc)%gone_child. by destruct (child_sub j b ltac:(lia) Hc). }
  split_and!; [|exact kept_tree|exact kept_find| |].
  - intros Hcl. destruct Hx as (Hx0 & Hne & Hor). destruct (Hcl x Hx0 Hne) as [Hin Hc].
    destruct Hor as [Ek|]; [|done].
    pose proof (pg_done _ _ _ _ _ _ Hp x ltac:(split; [apply Hin|unfold li in *; lia]) Hne) as Hpr. rewrite Ek in Hpr.
    by destruct Hpr.
  - destruct (pg_count _ _ _ _ _ _ Hp) as [_ <-]. rewrite count_S.
    rewrite (sumZ_ext r (λ j, count_at m2 h (ptr m2 p j)) 512 0); [lia|]. intros j Hj. unfold count_at.
    destruct (Z.eqb_spec (ptr m2 p j) 0) as [Hz|Hne].
    + rewrite Hptr in Hz by lia. destruct (decide (ptr m0 p j = 0)) as [Hz0|Hne].
      * destruct (decide (fi <= j <= li)); [by apply (pg_null _ _ _ _ _ _ Hp); [lia|]|].
        destruct (pg_todo _ _ _ _ _ _ Hp j) as [_ ->]; [lia|lia|]. unfold count_at. by rewrite Hz0.
      * destruct (decide (fi <= j <= li ∧ kept j = false)) as [Hd|]; [|done]. pose proof (pg_done _ _ _ _ _ _ Hp j ltac:(lia) Hne) as Hpr.
        destruct Hd as [_ Ek]. rewrite Ek in Hpr. by apply Hpr.
    + destruct (stays_ptr j ltac:(lia) Hne) as [Hs ->]. by apply child_stays.
  - intros [_ Ht]. split.
    + exists x. pose proof x_stays as (H1 & H2 & H3). split; [done|]. rewrite Hptr by done.
      by rewrite decide_False.
    + intros j Hj Hne. destruct (stays_ptr j Hj Hne) as [Hs ->]. apply child_stays; [done|].
      apply Ht; [done|apply Hs].
Qed.
End Kept.

Context `{CachedWrite}.
Variable clwb : bool.

(** The pointers [a, .., e] of the page are cleared. *)
Definition clear_ptrs (a e : Z) : FM () :=
  when (a <=? e)
    (let bzero := u32 ((e - a + 1) * 8) in
     lift (emits (cached_events (node_ptr p a) (repeat_bytes (Z.to_nat bzero) [Byte.x00]));;
           pmfs_flush_buffer clwb (node_ptr p a) bzero false)).

Lemma zeros_at k m a x :
  write_bytes m a (repeat_bytes k [Byte.x00]) !!! x =
  if decide (in_range a (Z.of_nat k) x) then Byte.x00 else m !!! x.
Proof using All.
  rewrite lookup_total_write_bytes, length_repeat_bytes. cbn [length]. rewrite Nat.mul_1_r.
  destruct (decide (in_range a (Z.of_nat k) x)) as [Hx|]; [|done].
  assert (E : repeat_bytes k [Byte.x00] = replicate k Byte.x00).
  { clear. induction k as [|k IH]; [done|]. change (repeat_bytes (S k) ?l) with (l ++ repeat_bytes k l). by rewrite IH. }
  rewrite E. apply nth_lookup_Some, lookup_replicate_2. unfold in_range in Hx. lia.
Qed.

Lemma clear_ptrs_eq a e s : 0 <= a → e < 512 →
  ∃ c, clear_ptrs a e s = Ok ((), set_pm s c) ∧ agree (λ x, blk x ≠ b) (view c) (vw s) ∧
    ∀ j, 0 <= j < 512 → ptr (view c) p j = if decide (a <= j <= e) then 0 else ptr (vw s) p j.
Proof using All.
  intros Ha He. unfold clear_ptrs, when. destruct (Z.leb_spec a e) as [Hae|Hae].
  2: { exists (pm s). rewrite set_pm_id. split_and!; [done|done|]. intros j Hj. by rewrite decide_False by lia. }
  rewrite (wrap_small 32) by lia.
  erewrite lift_eq. 2: { erewrite bind_Ok; [|apply emits_eq]. apply pmfs_flush_buffer_eq. lia. }
  eexists. split; [reflexivity|].
  assert (Ev : ∀ x, view (log_state (log_state (pm s) (cached_events (node_ptr p a)
      (repeat_bytes (Z.to_nat ((e - a + 1) * 8)) [Byte.x00])))
      (flush_events clwb (node_ptr p a) ((e - a + 1) * 8) ++ fence_events false)) !!! x =
    if decide (in_range (node_ptr p a) ((e - a + 1) * 8) x) then Byte.x00 else vw s !!! x).
  { intros x. set (c1 := log_state (pm s) _).
    change (view (log_state c1 ?es)) with (apply_events (view c1) es). rewrite flush_keeps_view.
    unfold c1. cbn [view log_state]. rewrite cached_view, zeros_at, Z2Nat.id by lia. done. }
  split.
  - intros x Hx. rewrite Ev, decide_False; [done|]. intros Hr. apply Hx.
    unfold in_range, node_ptr, p, blk in *. symmetry. apply (Z.div_unique x 4096 b (x - 4096 * b)); lia.
  - intros j Hj. destruct (decide (a <= j <= e)).
    + apply load_zero. intros x Hx. rewrite Ev, decide_True; [done|]. unfold in_range, node_ptr in *. lia.
    + apply load_ext. intros x Hx. rewrite Ev, decide_False; [done|]. unfold in_range, node_ptr in *. lia.
Qed.

Lemma page_tail s kept r G c :
  progress (li + 1) s kept r G c →
  let v := vars_of kept c in
  trunc_result (S h) b first last s0 D
    ((empty ← (if all_range_freed v then lift (is_empty_meta_block p fi li) else mret false);
      if (empty : bool) then mret (freed v, true) else
      clear_ptrs (tv_start v) (tv_end v);; mret (freed v, false)) s).
Proof using All.
  intros Hp v. pose proof range_ok as Hr. pose proof (pg_count _ _ _ _ _ _ Hp) as [Hc _].
  pose proof (cut_mono _ _ D _ _ (pg_cut _ _ _ _ _ _ Hp)) as Hcut.
  specialize (Hcut ltac:(intros y (j & Hj & Hcj); by apply (child_sub j y ltac:(lia)))).
  set (empty := if all_range_freed v then lift (is_empty_meta_block p fi li) else mret false : FM bool).
  assert (He : ∃ e, empty s = Ok (e, s) ∧
    if (e : bool) then kept fi = false ∧ kept li = false ∧ ∀ j, 0 <= j < 512 → ¬ fi <= j <= li → ptr m0 p j = 0
    else ∃ x, 0 <= x < 512 ∧ ptr m0 p x ≠ 0 ∧ (kept x = true ∨ ¬ fi <= x <= li)).
  { assert (Hkx : ∀ x, kept x = true → x = fi ∨ x = li → 0 <= x < 512 ∧ ptr m0 p x ≠ 0 ∧ (kept x = true ∨ ¬ fi <= x <= li)).
    { intros x Ek Hx. split; [destruct Hx; lia|]. split; [|by left]. intros Hz.
      destruct (pg_null _ _ _ _ _ _ Hp x); [destruct Hx; lia|done|congruence]. }
    unfold empty, v. cbn [all_range_freed vars_of]. destruct (kept fi) eqn:Ef; [exists false; eauto|].
    destruct (kept li) eqn:El; [exists false; eauto|]. cbn.
    destruct (is_empty_eq (pm s)) as (e & E & He). exists e. rewrite (lift_eq _ _ _ _ E), set_pm_id. split; [done|].
    assert (Hsame : ∀ j, 0 <= j < 512 → ptr (vw s) p j = ptr m0 p j)
      by (intros; eapply progress_ptr; [done|lia|done]).
    destruct e.
    - split_and!; [done|done|]. intros j Hj Hnj. rewrite <- Hsame by done. by apply He.
    - destruct He as (x & Hx & Hnx & Hne). rewrite Hsame in Hne by done. exists x. auto. }
  destruct He as (e & E & He). rewrite (bind_Ok _ _ _ _ _ E). destruct e.
  - destruct He as (Hkf & Hkl & Hout). destruct (page_emptied s kept r G c Hp Hkf Hkl Hout) as (H1 & H2 & H3 & H4 & H5).
    exists c, true, s, G. by split_and!.
  - destruct He as (x & Hx).
    destruct (clear_ptrs_eq (tv_start v) (tv_end v) s) as (c2 & E2 & Hv & Hptr).
    { unfold v. cbn. destruct (kept fi); lia. }
    { unfold v. cbn. destruct (negb (li =? fi) && kept li); lia. }
    rewrite (bind_Ok _ _ _ _ _ E2).
    destruct (page_kept s kept r G c (view c2) x) as (HGb & Hpr); [exact Hp| |done|done|].
    { intros j Hj. rewrite Hptr by done. rewrite (progress_ptr (li + 1) s kept r G c j Hp) by lia.
      assert (Hiff : tv_start v <= j <= tv_end v ↔ fi <= j <= li ∧ kept j = false).
      { unfold v. cbn [tv_start tv_end vars_of]. pose proof (pg_kept _ _ _ _ _ _ Hp j) as Hk.
        destruct (kept j) eqn:Ej.
        - destruct (Hk eq_refl) as [-> | ->].
          + rewrite Ej. destruct (_ && _); split; (lia || (intros [_ ?]; done)).
          + rewrite Ej, andb_true_r. destruct (Z.eqb_spec li fi) as [El|El]; cbn.
            * rewrite <- El, Ej. split; (lia || (intros [_ ?]; done)).
            * destruct (kept fi); split; (lia || (intros [_ ?]; done)).
        - assert (Hf : kept fi = true → j ≠ fi) by congruence. assert (Hl : kept li = true → j ≠ li) by congruence.
          destruct (Z.eqb_spec li fi) as [El|El]; cbn; destruct (kept fi); try destruct (kept li);
            try specialize (Hf eq_refl); try specialize (Hl eq_refl); intuition lia. }
      destruct (decide (tv_start v <= j <= tv_end v)), (decide (fi <= j <= li ∧ kept j = false)); tauto. }
    exists c, false, (set_pm s c2), G. split_and!; [done|done|done| |done].
    destruct Hcut as [C1 C2 C3 C4 C5]. split; [by destruct C1|done|done|done|].
    intros y Hy. destruct (decide (blk y = b)) as [Eb|Hnb].
    + exfalso. apply Hy. rewrite Eb. split; [|done]. apply (no_dom _ _ _ _ _ _ Hnode). by left.
    + change (view c2 !!! y = m0 !!! y). rewrite Hv by done. by apply C5.
Qed.
End Page.

(** ** The recursion *)

Section Recursion.
Context `{CachedWrite}.
Variables (clwb : bool) (cfg : fs_cfg) (btype : Z).
Hypothesis Hslab : ∀ k, slab_ok cfg k = true.
Hypothesis Hbt : n = pmfs_get_numblocks btype.

Lemma recursive_truncate_result h : ∀ s D b f l,
  (0 < h <= 3)%nat → tree (vw s) n h (4096 * b) D → owns s D → 0 <= f <= l → l < span h →
  trunc_result h b f l s D (recursive_truncate_blocks clwb cfg h (4096 * b) btype f l s).
Proof using All.
  induction h as [|h IH]; intros s D b f l Hh Ht Ho Hfl Hl; [lia|].
  pose proof Ht as (b0 & C & Hnode). assert (b0 = b) by (destruct Hnode; lia). subst b0.
  destruct (span_child h f ltac:(lia)) as [Hf1 _]. destruct (span_child h l ltac:(lia)) as [Hl1 _].
  pose proof (Z.div_le_mono f l (span h) ltac:(pose proof (span_pos h); lia) ltac:(lia)) as Hle.
  assert (Hb : 4096 * b ≠ 0) by (destruct Hnode; lia).
  cbn [recursive_truncate_blocks]. rewrite !shiftr_span, (wrap_small 32 (f / span h)), (wrap_small 32 (l / span h)) by lia.
  rewrite (bind_Ok _ _ _ _ _ (lift_eq _ _ _ _ (deref_get_block (4096 * b) (pm s) Hb))), set_pm_id.
  set (rec := λ p f l, recursive_truncate_blocks clwb cfg h p btype f l).
  assert (Hrec : h ≠ O → ∀ s D' b' f l, tree (vw s) n h (4096 * b') D' → owns s D' → 0 <= f <= l → l < span h →
    trunc_result h b' f l s D' (rec (4096 * b') f l s)) by (intros; apply IH; (done || lia)).
  pose proof (progress_start h b f l s D C Hnode Ho Hfl Hl) as Hstart.
  assert (Hloop : ∃ s' kept r G c,
    (match h with
     | O => f0 ← truncate_data cfg (Z.to_nat (l / span h - f / span h + 1)) (4096 * b) btype (f / span h) 0 None;
            mret (TruncateVars (f / span h) (l / span h) true f0)
     | S _ => truncate_meta cfg rec (Z.to_nat (l / span h - f / span h + 1)) (4096 * b) (Z.of_nat h * META_BLK_SHIFT)
                (f / span h) (l / span h) f l (f / span h) (TruncateVars (f / span h) (l / span h) true 0)
     end) s = Ok (vars_of h f l kept c, s') ∧ progress h b f l s C (l / span h + 1) s' kept r G c).
  { destruct (decide (h = O)) as [E0|Hne].
    - destruct (truncate_data_run h b f l s D C Hnode Ho Hfl Hl cfg btype Hslab Hbt
        (Z.to_nat (l / span h - f / span h + 1)) E0 _ s None _ _ _ 0 Hstart) as (s' & k' & r' & G' & c' & E & Hp & Hk);
        [by intros ? [=]|done|lia|lia|].
      exists s', k', r', G', c'. split; [|done]. rewrite E0 in E |- *. change (u32 0) with 0 in E.
      rewrite (bind_Ok _ _ _ _ _ E). unfold vars_of. rewrite !Hk. cbn. rewrite andb_false_r. done.
    - destruct (truncate_meta_run h b f l s D C Hnode Ho Hfl Hl cfg btype Hslab Hbt rec Hrec
        (Z.to_nat (l / span h - f / span h + 1)) Hne _ s _ _ _ 0 Hstart) as (s' & k' & r' & G' & c' & E & Hp);
        [lia|lia|].
      exists s', k', r', G', c'. split; [|done]. unfold vars_of in E at 1. cbn in E. rewrite andb_false_r in E.
      destruct h as [|h']; [done|]. exact E. }
  destruct Hloop as (s' & kept & r & G & c & E & Hp). unfold rec in E.
  erewrite bind_Ok; [|exact E].
  exact (page_tail h b f l s D C Hnode Ho Hfl Hl cfg btype Hslab Hbt rec Hrec clwb s' kept r G c Hp).
Qed.

(** Deleting a file's tree: all of it goes back. *)
Lemma free_subtree_result root h D s last :
  (h <= 3)%nat → tree (vw s) n h root D → owns s D → 0 <= last < span h → closed (vw s) h root 0 last →
  ∃ s', pmfs_free_inode_subtree clwb cfg root (Z.of_nat h) btype last s = Ok (u32 (count (vw s) h root), s') ∧
    cut s D D s'.
Proof using All.
  intros Hh Ht Ho Hl Hcl. destruct (tree_addr n Hn _ _ _ _ Ht) as (b & Hb & -> & HDb).
  unfold pmfs_free_inode_subtree. rewrite (proj2 (Z.eqb_neq (4096 * b) 0)) by lia.
  destruct h as [|h].
  - change (Z.of_nat 0 =? 0) with true. cbv iota. rewrite get_blocknr_eq.
    destruct Ht as (b' & _ & Eb & _ & HD). assert (b' = b) by lia. subst b'.
    destruct (pmfs_free_cut cfg Hslab b btype s D Ho) as (s' & E & Hc & _); [|done|].
    { rewrite <- Hbt. intros y Hy. by apply HD. }
    rewrite (bind_Ok _ _ _ _ _ E). exists s'. split; [done|]. rewrite <- Hbt in Hc.
    eapply cut_ext; [exact Hc| |]; intros y; symmetry; apply HD.
  - rewrite (proj2 (Z.eqb_neq (Z.of_nat (S h)) 0)), Nat2Z.id by lia.
    destruct (recursive_truncate_result (S h) s D b 0 last) as (c & mpty & s1 & G & E & Hc & HGb & Hres);
      [lia|done|done|lia|lia|].
    rewrite (bind_Ok _ _ _ _ _ E). destruct mpty.
    2: { destruct Hres as (_ & Hnc & _). by destruct Hnc. }
    destruct Hres as (Hcut & _ & HD & ->). cbn [negb bug_on]. rewrite (bind_Ok (mret ()) _ _ () s1) by done.
    pose proof (owns_cut _ _ _ _ _ Ho (λ y H, proj2 (HD y) (or_intror H)) Hcut) as Ho1.
    rewrite get_blocknr_eq.
    destruct (pmfs_free_cut cfg Hslab b PMFS_BLOCK_TYPE_4K s1 _ Ho1) as (s2 & E2 & Hc2 & _); [|done|].
    { intros y Hy. assert (y = b) as -> by (unfold run in Hy; cbn in Hy; lia). done. }
    rewrite (bind_Ok _ _ _ _ _ E2). exists s2. split; [done|].
    change (pmfs_get_numblocks PMFS_BLOCK_TYPE_4K) with 1 in Hc2.
    assert (HR : ∀ y, run b 1 y ↔ y = b) by (unfold run; lia).
    eapply cut_ext; [eapply cut_trans; [exact Hcut|exact Hc2|]| |].
    + intros y Hy ->%HR. done.
    + intros y. cbv beta. rewrite HR, HD. tauto.
    + intros y. cbv beta. rewrite HR, HD. tauto.
Qed.
End Recursion.
End Trunc.
