(* ===== verification/PmfsTruncate.v ===== *)
(** * PMFS: truncating a file

    [__pmfs_truncate_blocks] on an inode: freeing the range, counting, and taking
    off the pages at the top that a smaller file does not need. *)

From stdpp Require Import base list gmap.
From Stdlib Require Import ZArith Lia.
From coqutil Require Import Byte.
From S2P Require Import Prelude PMem PMemLine NovaBase PmfsJournal PmfsRecover PmfsTrans PmfsCrash.
From S2P Require Import PmfsBalloc PmfsBallocProofs PmfsBallocMain PmfsTree PmfsTreeProofs PmfsTreeAlloc.
From S2P Require Import PmfsTreeFile PmfsTreeMain PmfsTreeTrunc.

Local Open Scope Z_scope.

(** A tree without empty pages that maps positions of a range only is closed. *)
Lemma tight_closed m h : ∀ p f l,
  tight m h p → 0 <= f <= l → l < span h → (∀ k, 0 <= k < span h → find m h p k ≠ 0 → f <= k <= l) →
  closed m h p f l.
Proof.
  induction h as [|h IH]; intros p f l Ht Hfl Hl Hin; [done|]. intros i Hi Hne.
  destruct Ht as [_ Ht]. specialize (Ht i Hi Hne). pose proof (span_pos h) as Hs.
  assert (Hk : ∀ k, 0 <= k < span h → find m h (ptr m p i) k ≠ 0 →
    f / span h <= i <= l / span h ∧ child_first (Z.of_nat h * META_BLK_SHIFT) (f / span h) f i <= k <=
      child_last (Z.of_nat h * META_BLK_SHIFT) (l / span h) l i).
  { intros k Hk Hf.
    assert (Ei : (i * span h + k) / span h = i) by (rewrite Z.add_comm, Z.div_add, Z.div_small by lia; lia).
    assert (Em : (i * span h + k) mod span h = k) by (rewrite Z.add_comm, Z.mod_add, Z.mod_small by lia; done).
    assert (Hr : f <= i * span h + k <= l).
    { apply Hin; [rewrite span_S; nia|]. cbn [find]. rewrite Ei, Em. by rewrite (proj2 (Z.eqb_neq _ _) Hne). }
    apply (range_split h f l) in Hr as (i' & Hi' & Ei' & Hc); [|done|nia]. rewrite Ei in Ei'. rewrite Em in Hc.
    by subst i'. }
  destruct (tight_find m h _ Hne Ht) as (k0 & Hk0 & Hf0). destruct (Hk k0 Hk0 Hf0) as [Hr _].
  destruct (child_bounds h f l i Hfl Hr) as [Hb1 Hb2]. split; [done|].
  apply IH; [done|done|done|]. intros k Hk' Hf. by apply Hk.
Qed.

(** ** The word of the height *)

Lemma byte_of_ext x y : x mod 2 ^ 8 = y mod 2 ^ 8 → byte.of_Z x = byte.of_Z y.
Proof.
  intros E. apply byte.unsigned_inj. rewrite !byte.unsigned_of_Z. unfold byte.wrap.
  change (2 ^ 8) with 256 in E. done.
Qed.

Lemma nth_bytes_of k v i : (i < k)%nat → nth i (bytes_of k v) inhabitant = byte.of_Z (Z.shiftr v (8 * Z.of_nat i)).
Proof.
  intros Hi. rewrite <- nth_default_eq. unfold bytes_of. rewrite LittleEndianList.nth_default_le_split by done.
  done.
Qed.

Definition height_word (w v : Z) : Z := Z.lor (Z.land w (Z.lnot (Z.shiftl 0xFF 16))) (Z.shiftl v 16).

Lemma height_word_byte w v i :
  0 <= w → 0 <= v < 2 ^ 8 → 0 <= i →
  Z.shiftr (height_word w v) (8 * i) mod 2 ^ 8 = if decide (i = 2) then v else Z.shiftr w (8 * i) mod 2 ^ 8.
Proof.
  intros Hw Hv Hi. apply Z.bits_inj'. intros k Hk.
  assert (Hvk : ∀ j, 8 <= j → Z.testbit v j = false).
  { intros j Hj. rewrite <- (Z.mod_small v (2 ^ 8)) by lia. by apply Z.mod_pow2_bits_high. }
  destruct (Z.lt_ge_cases k 8) as [Hk8|Hk8].
  - rewrite Z.mod_pow2_bits_low, Z.shiftr_spec by lia. unfold height_word.
    rewrite Z.lor_spec, Z.land_spec, Z.lnot_spec, !Z.shiftl_spec by lia. change 0xFF with (Z.ones 8).
    destruct (decide (i = 2)) as [->|Hne].
    + replace (k + 8 * 2 - 16) with k by lia. rewrite Z.ones_spec_low by lia. by rewrite andb_false_r.
    + rewrite (Z.mod_pow2_bits_low _ 8 k), (Z.shiftr_spec w) by lia.
      destruct (Z.lt_ge_cases (k + 8 * i - 16) 0) as [Hneg|Hpos].
      * rewrite (Z.testbit_neg_r (Z.ones 8)), (Z.testbit_neg_r v) by lia. by rewrite andb_true_r, orb_false_r.
      * rewrite Z.ones_spec_high, Hvk by lia. by rewrite andb_true_r, orb_false_r.
  - rewrite Z.mod_pow2_bits_high by lia. destruct (decide (i = 2)); [by rewrite Hvk|].
    by rewrite Z.mod_pow2_bits_high by lia.
Qed.

(** Replacing the height in the first word of an inode and the root behind it. *)
Lemma root_height_written m pi root v :
  0 <= v < 2 ^ 8 → 0 <= root < 2 ^ 64 →
  let m' := write_bytes m pi (bytes_of 8 (height_word (load 8 m pi) v) ++ bytes_of 8 root) in
  agree (λ x, x ≠ pi + pi_height ∧ ¬ in_range (pi + pi_root) 8 x) m' m ∧
  load 1 m' (pi + pi_height) = v ∧ load 8 m' (pi + pi_root) = root.
Proof.
  intros Hv Hr m'. unfold m'. rewrite write_bytes_app, length_bytes_of. change (pi + Z.of_nat 8) with (pi + pi_root).
  set (m1 := write_bytes m pi _).
  assert (Hm1 : ∀ x, in_range pi 8 x → m1 !!! x = byte.of_Z (Z.shiftr (height_word (load 8 m pi) v) (8 * (x - pi)))).
  { intros x Hx. unfold m1. rewrite lookup_total_write_bytes, length_bytes_of, decide_True by done.
    unfold in_range in Hx. rewrite nth_bytes_of by lia. do 2 f_equal. lia. }
  assert (Hm0 : ∀ x, in_range pi 8 x → m !!! x = byte.of_Z (Z.shiftr (load 8 m pi) (8 * (x - pi)))).
  { intros x Hx. unfold in_range in Hx.
    pose proof (nth_read_bytes m pi 8 (Z.to_nat (x - pi)) ltac:(lia)) as E.
    rewrite <- (bytes_of_load 8 m pi), nth_bytes_of in E by lia. rewrite Z2Nat.id in E by lia.
    rewrite E. f_equal. lia. }
  pose proof (load_bound 8 m pi) as Hw. split_and!.
  - intros x [Hx1 Hx2]. rewrite write_bytes_out by (by rewrite length_bytes_of).
    destruct (decide (in_range pi 8 x)) as [Hx|Hx]; [|unfold m1; by rewrite write_bytes_out by (by rewrite length_bytes_of)].
    rewrite Hm1, Hm0 by done. apply byte_of_ext. unfold in_range, pi_height in *.
    rewrite height_word_byte by lia. by rewrite decide_False by lia.
  - rewrite load_write_disjoint by (rewrite length_bytes_of; unfold disjoint_ranges, pi_height, pi_root; lia).
    change (load 1 m1 (pi + pi_height)) with (Z.lor (byte.unsigned (m1 !!! (pi + pi_height))) (Z.shiftl 0 8)).
    rewrite Hm1 by (unfold in_range, pi_height; lia). rewrite byte.unsigned_of_Z. unfold byte.wrap.
    change 256 with (2 ^ 8). unfold pi_height. replace (pi + 2 - pi) with 2 by lia.
    rewrite height_word_byte by lia. cbn. by rewrite Z.lor_0_r.
  - rewrite load_write_same. by apply Z.mod_small.
Qed.

Section Truncate.
Context `{CachedWrite}.
Variables (clwb : bool) (cfg : fs_cfg) (pi btype : Z).
Variables (slots0 nslots0 : Z).
Hypothesis Hbtype : 0 <= btype <= 2.
Hypothesis Hslots : ∀ x, in_range pi sizeof_pmfs_inode x → ¬ in_slots slots0 nslots0 x.
(** The slab cache always has a node. *)
Hypothesis Hslab : ∀ k, slab_ok cfg k = true.
#[local] Set Default Proof Using "All".

Let n : Z := pmfs_get_numblocks btype.
Abbreviation pre := (PmfsTreeAlloc.pre pi btype slots0 nslots0).
Abbreviation inode_ok := (PmfsTreeFile.inode_ok pi btype slots0 nslots0).
Abbreviation dtree := (PmfsTreeFile.dtree btype).
Abbreviation file_block := (PmfsTreeFile.file_block pi).
Abbreviation i_height := (PmfsTreeFile.i_height pi).
Abbreviation i_root := (PmfsTreeFile.i_root pi).
Abbreviation shift := (PmfsTreeFile.blk_shift btype).

Lemma run_pos : 1 <= n.
Proof. apply (pow2_pos n (numblocks_pow2 btype)). Qed.

(** ** Blocks given back and the inode written *)

Record trimmed (s : fs) (D G : Z → Prop) (s' : fs) : Prop := {
  tm_wf : wf s';
  tm_device : same_device s s';
  tm_used y : used (block_inuse_head s') y ↔ used (block_inuse_head s) y ∧ ¬ G y;
  tm_in y : G y → D y;
  tm_view : agree (λ x, ¬ D (blk x) ∧ ¬ in_range pi sizeof_pmfs_inode x) (vw s') (vw s)
}.

Lemma trimmed_cut s D G s' : cut s D G s' → trimmed s D G s'.
Proof. intros [H1 H2 H3 H4 H5]. split; try done. intros x [Hx _]. apply H5. tauto. Qed.

Lemma trimmed_pm s D c : wf s → agree (λ x, ¬ in_range pi sizeof_pmfs_inode x) (view c) (vw s) →
  trimmed s D (λ _, False) (set_pm s c).
Proof.
  intros Hwf Ha. split; simpl; [by destruct Hwf|done|tauto|tauto|]. intros x [_ Hx]. by apply Ha.
Qed.

Lemma trimmed_trans s1 s2 s3 D G1 G2 :
  trimmed s1 D G1 s2 → trimmed s2 (λ y, D y ∧ ¬ G1 y) G2 s3 → trimmed s1 D (λ y, G1 y ∨ G2 y) s3.
Proof.
  intros [A1 A2 A3 A4 A5] [B1 B2 B3 B4 B5]. split; [done|by etrans| | |].
  - intros y. rewrite B3, A3. tauto.
  - intros y [?|Hy]; [auto|]. by apply B4.
  - intros x [Hx Hi]. rewrite B5; [by apply A5|]. split; [tauto|done].
Qed.

Lemma trimmed_ext s D D' G G' s' : trimmed s D G s' → (∀ y, D y → D' y) → (∀ y, ¬ G y ↔ ¬ G' y) →
  (∀ y, G' y → D' y) → trimmed s D' G' s'.
Proof.
  intros [H1 H2 H3 H4 H5] HD E HG. split; [done|done| |done|].
  - intros y. by rewrite H3, E.
  - intros x [Hx Hi]. apply H5. auto.
Qed.

Lemma trimmed_none s D s' : trimmed s D (λ _, False) s' → trimmed s D (λ y, D y ∧ ¬ D y) s'.
Proof. intros Ht. eapply trimmed_ext; [exact Ht|done|intros y; tauto|by intros y [? _]]. Qed.

(** First to [D1], then to [D2]. *)
Lemma trimmed_step s1 s2 s3 D D1 D2 :
  trimmed s1 D (λ y, D y ∧ ¬ D1 y) s2 → (∀ y, D1 y → D y) → trimmed s2 D1 (λ y, D1 y ∧ ¬ D2 y) s3 →
  (∀ y, D2 y → D1 y) → trimmed s1 D (λ y, D y ∧ ¬ D2 y) s3.
Proof.
  intros [A1 A2 A3 A4 A5] H1 [B1 B2 B3 B4 B5] H2. split; [done|by etrans| |by intros y [? _]|].
  - intros y. rewrite B3, A3. specialize (H1 y). specialize (H2 y). tauto.
  - intros x [Hx Hi]. rewrite B5; [by apply A5|]. split; [auto|done].
Qed.

(** The bytes of the inode are in use and not in the tree. *)
Lemma inode_byte s D x : pre s D → in_range pi sizeof_pmfs_inode x →
  used (block_inuse_head s) (blk x) ∧ ¬ D (blk x).
Proof. intros Hp Hx. apply (pr_side _ _ _ _ _ _ Hp). by right. Qed.

Lemma pre_owns s D : pre s D → owns s D.
Proof.
  intros Hp. split; [apply Hp|apply Hp|]. exists (blk pi). eapply inode_byte; [exact Hp|].
  unfold in_range, sizeof_pmfs_inode. lia.
Qed.

Lemma cut_inode s D G s' k o : pre s D → cut s D G s' → 0 <= o → o + Z.of_nat k <= sizeof_pmfs_inode →
  load k (vw s') (pi + o) = load k (vw s) (pi + o).
Proof.
  intros Hp Hc Ho Hk. apply load_ext. intros x Hx. apply (cut_view _ _ _ _ Hc).
  assert (Hi : in_range pi sizeof_pmfs_inode x) by (unfold in_range in *; lia).
  destruct (inode_byte _ _ _ Hp Hi). tauto.
Qed.

Lemma pre_cut s D G s' : pre s D → cut s D G s' → pre s' (λ y, D y ∧ ¬ G y).
Proof.
  intros Hp Hc. split; [apply Hc| | |].
  - intros y [Hy Hg]. apply (cut_used _ _ _ _ Hc). split; [by apply Hp|done].
  - intros x Hx. destruct (pr_side _ _ _ _ _ _ Hp x Hx) as [Hu Hd]. split; [|tauto].
    apply (cut_used _ _ _ _ Hc). split; [done|]. intros Hg. by apply Hd, (cut_in _ _ _ _ Hc).
  - rewrite <- (pr_type _ _ _ _ _ _ Hp). eapply cut_inode; [exact Hp|exact Hc|..];
      unfold pi_i_blk_type, sizeof_pmfs_inode; lia.
Qed.

Lemma pre_ext s D D' : pre s D → (∀ y, D' y ↔ D y) → pre s D'.
Proof. intros Hp E. apply (pre_sub _ _ _ _ _ _ _ Hp). intros y. by rewrite E. Qed.

(** ** Taking pages off the top *)

(** What the smaller tree has of the larger one. *)
Record lowered (s : fs) (h : nat) (root : Z) (D : Z → Prop) (h' : nat) (root' : Z) (D' : Z → Prop) : Prop := {
  lw_sub y : D' y → D y;
  lw_tree : tree (vw s) n h' root' D';
  lw_tight : tight (vw s) h' root';
  lw_find k : 0 <= k < span h' → find (vw s) h' root' k = find (vw s) h root k;
  lw_count : count (vw s) h' root' = count (vw s) h root
}.

Lemma only_first m h p k0 :
  tight m (S h) p → k0 <= span h → (∀ k, 0 <= k < span (S h) → find m (S h) p k ≠ 0 → k < k0) →
  ptr m p 0 ≠ 0 ∧ tight m h (ptr m p 0) ∧ ∀ i, 0 < i < 512 → ptr m p i = 0.
Proof.
  intros [(x & Hx & Hne) Ht] Hk0 Hin. pose proof (span_pos h) as Hs.
  assert (Hz : ∀ i, 0 <= i < 512 → ptr m p i ≠ 0 → i = 0).
  { intros i Hi Hni. destruct (tight_find m h _ Hni (Ht i Hi Hni)) as (k & Hk & Hf).
    assert (Ei : (i * span h + k) / span h = i) by (rewrite Z.add_comm, Z.div_add, Z.div_small by lia; lia).
    assert (Em : (i * span h + k) mod span h = k) by (rewrite Z.add_comm, Z.mod_add, Z.mod_small by lia; done).
    assert (i * span h + k < k0); [|nia]. apply Hin; [rewrite span_S; nia|].
    cbn [find]. rewrite Ei, Em. by rewrite (proj2 (Z.eqb_neq _ _) Hni). }
  assert (x = 0) as -> by auto. split; [done|]. split; [by apply Ht|].
  intros i Hi. destruct (decide (ptr m p i = 0)) as [|Hni]; [done|]. specialize (Hz i ltac:(lia) Hni). lia.
Qed.

Lemma decrease_loop_result cnt : ∀ h root s D,
  tree (vw s) n (cnt + h) root D → tight (vw s) (cnt + h) root → owns s D →
  (∀ k, 0 <= k < span (cnt + h) → find (vw s) (cnt + h) root k ≠ 0 → k < span h) →
  ∃ root' s' D', decrease_loop cfg cnt root s = Ok (root', s') ∧ pm s' = pm s ∧
    cut s D (λ y, D y ∧ ¬ D' y) s' ∧ lowered s (cnt + h) root D h root' D'.
Proof.
  induction cnt as [|cnt IH]; intros h root s D Ht Hti Ho Hin.
  { exists root, s, D. split; [done|]. split; [done|]. split; [|by split].
    eapply cut_ext; [apply (cut_refl s D), Ho|done|]. intros y. tauto. }
  change (S cnt + h)%nat with (S (cnt + h)) in *.
  destruct (tree_addr n run_pos _ _ _ _ Ht) as (b & Hb & -> & HDb).
  destruct (only_first _ _ _ (span h) Hti (span_mono h (cnt + h) ltac:(lia)) Hin) as (Hne & Hti0 & Hz).
  pose proof Ht as (b0 & C & Hnode). assert (b0 = b) by (destruct Hnode; lia). subst b0.
  pose proof Hnode as [N1 N2 N3 N4 N5 N6]. destruct (N3 0 ltac:(lia)) as [[? _]|Hc]; [done|].
  assert (HC : ∀ i y, 0 < i < 512 → ¬ C i y).
  { intros i y Hi Hy. destruct (N3 i ltac:(lia)) as [[_ Hno]|Hti']; [by apply (Hno y)|].
    rewrite Hz in Hti' by done. by apply (tree_nonzero n run_pos) in Hti'. }
  assert (HD : ∀ y, D y ↔ y = b ∨ C 0 y).
  { intros y. rewrite N6. split; [|intros [?|?]; [by left|right; exists 0; split; [lia|done]]].
    intros [?|(i & Hi & Hy)]; [by left|right]. destruct (decide (i = 0)) as [->|]; [done|].
    destruct (HC i y); [lia|done]. }
  cbn [decrease_loop]. rewrite (bind_Ok _ _ _ _ _ (lift_eq _ _ _ _ (deref_get_block (4096 * b) (pm s) ltac:(lia)))), set_pm_id.
  rewrite (bind_Ok _ _ _ _ _ (lift_fetch 8 _ s)), get_blocknr_eq.
  change (load 8 (vw s) (node_ptr (4096 * b) 0)) with (ptr (vw s) (4096 * b) 0).
  destruct (pmfs_free_cut cfg Hslab b PMFS_BLOCK_TYPE_4K s D Ho) as (s1 & E1 & Hc1 & Hpm1); [|done|].
  { intros y Hy. assert (y = b) as -> by (unfold run in Hy; cbn in Hy; lia). done. }
  rewrite (bind_Ok _ _ _ _ _ E1). change (pmfs_get_numblocks PMFS_BLOCK_TYPE_4K) with 1 in Hc1.
  assert (HR : ∀ y, run b 1 y ↔ y = b) by (unfold run; lia).
  assert (Hfind : ∀ k, 0 <= k < span (cnt + h) →
    find (vw s) (S (cnt + h)) (4096 * b) k = find (vw s) (cnt + h) (ptr (vw s) (4096 * b) 0) k).
  { intros k Hk. cbn [find]. rewrite Z.div_small, Z.mod_small by lia. by rewrite (proj2 (Z.eqb_neq _ _) Hne). }
  destruct (IH h (ptr (vw s) (4096 * b) 0) s1 (C 0)) as (root' & s2 & D' & E2 & Hpm2 & Hc2 & [L1 L2 L3 L4 L5]).
  { by rewrite Hpm1. }
  { by rewrite Hpm1. }
  { eapply owns_sub; [eapply owns_cut; [exact Ho| |exact Hc1]|].
    - by intros y ->%HR.
    - intros y Hy. cbv beta. rewrite HR. split; [apply HD; by right|]. apply (N5 0 y ltac:(lia) Hy). }
  { rewrite Hpm1. intros k Hk Hf. apply Hin; [rewrite span_S; lia|]. by rewrite Hfind. }
  rewrite Hpm1 in *. exists root', s2, D'. split; [done|]. split; [by rewrite Hpm2|]. split.
  - eapply cut_ext; [eapply cut_trans; [exact Hc1|exact Hc2|]| |].
    + intros y ->%HR Hy. exact (N5 0 b ltac:(lia) Hy eq_refl).
    + intros y. cbv beta. by rewrite HR, HD.
    + intros y. cbv beta. rewrite HR, HD. pose proof (L1 y). pose proof (N5 0 y ltac:(lia)).
      split; [intros [->|[? ?]]; [|tauto]; split; [by left|]; intros Hy; by apply (N5 0 b ltac:(lia) (L1 b Hy))|tauto].
  - split; [intros y Hy; apply HD; right; by apply L1|done|done| |].
    + intros k Hk. rewrite L4 by done. symmetry. apply Hfind.
      pose proof (span_mono h (cnt + h) ltac:(lia)). lia.
    + rewrite L5, count_S. etrans; [|symmetry; apply (sumZ_first _ 511)].
      * unfold count_at. rewrite (proj2 (Z.eqb_neq _ _) Hne). lia.
      * intros j Hj. rewrite Hz by lia. done.
Qed.

(** ** The inode *)

Lemma pre_pm s D c : pre s D → agree (λ x, ¬ in_range pi sizeof_pmfs_inode x) (view c) (vw s) →
  load 1 (view c) (pi + pi_i_blk_type) = btype → pre (set_pm s c) D.
Proof. intros [P1 P2 P3 P4] Ha Ht. split; [by destruct P1|done|done|done]. Qed.

(** The blocks of the tree are not the inode's. *)
Lemma tree_same s D c : pre s D → agree (λ x, ¬ in_range pi sizeof_pmfs_inode x) (view c) (vw s) →
  agree (λ x, D (blk x)) (view c) (vw s).
Proof. intros Hp Ha x Hx. apply Ha. intros Hi. by destruct (inode_byte _ _ _ Hp Hi). Qed.

(** The fields of the inode but root and height. *)
Definition other_field (x : Z) : Prop :=
  in_range pi sizeof_pmfs_inode x ∧ x ≠ pi + pi_height ∧ ¬ in_range (pi + pi_root) 8 x.

Lemma update_eq s root h : (h <= 3)%nat → 0 <= root < 2 ^ 64 →
  ∃ c, lift (update_root_and_height pi root (Z.of_nat h)) s = Ok ((), set_pm s c) ∧
    agree (λ x, x ≠ pi + pi_height ∧ ¬ in_range (pi + pi_root) 8 x) (view c) (vw s) ∧
    i_height (view c) = h ∧ i_root (view c) = root.
Proof.
  intros Hh Hr. destruct (root_height_written (vw s) pi root (Z.of_nat h) ltac:(lia) Hr) as (Ha & Eh & Er).
  eexists. split.
  { apply lift_eq. unfold update_root_and_height. rewrite (bind_Ok _ _ _ _ _ (fetch_eq 8 pi _)). apply emit_eq. }
  rewrite store_view, (wrap_small 8) by lia. split; [exact Ha|]. unfold PmfsTreeFile.i_height, PmfsTreeFile.i_root.
  split; [exact (eq_trans (f_equal Z.to_nat Eh) (Nat2Z.id h))|exact Er].
Qed.

Lemma inode_size s : load 1 (vw s) (pi + pi_i_blk_type) = btype →
  lift (pmfs_inode_blk_size pi) s = Ok (2 ^ (12 + shift), s).
Proof.
  intros Ht. unfold pmfs_inode_blk_size, inode_blk_type.
  rewrite (lift_eq _ _ (2 ^ (12 + shift)) (pm s)); [by rewrite set_pm_id|].
  rewrite (bind_Ok _ _ _ _ _ (fetch_eq _ _ _)), Ht. unfold blk_type_to_size, blk_shift.
  assert (btype = 0 ∨ btype = 1 ∨ btype = 2) as [E|[E|E]] by lia; by rewrite E.
Qed.

Lemma shift_bounds : 0 <= shift <= 18.
Proof. unfold blk_shift. destruct (_ =? 0); [lia|]. destruct (_ =? 1); lia. Qed.

(** The first block of the inode that begins at [start] or behind. *)
Definition first_after (start : Z) : Z := (start + 2 ^ (12 + shift) - 1) / 2 ^ (12 + shift).

Lemma first_after_spec start k : k < first_after start ↔ k * 2 ^ (12 + shift) < start.
Proof.
  unfold first_after. pose proof shift_bounds. set (q := 2 ^ (12 + shift)).
  assert (0 < q) by (apply Z.pow_pos_nonneg; lia).
  pose proof (Z.div_mod (start + q - 1) q ltac:(lia)). pose proof (Z.mod_pos_bound (start + q - 1) q ltac:(lia)). nia.
Qed.

Lemma first_after_bounds start : 0 <= start < 2 ^ 62 → 0 <= first_after start < 2 ^ 50 + 1.
Proof.
  intros Hs. pose proof shift_bounds. split.
  - destruct (Z.lt_ge_cases (first_after start) 0) as [Hlt|]; [|lia]. exfalso.
    assert (Hn : ¬ first_after start < first_after start) by lia. apply Hn, first_after_spec.
    assert (0 < 2 ^ (12 + shift)) by (apply Z.pow_pos_nonneg; lia). nia.
  - destruct (Z.lt_ge_cases (first_after start) (2 ^ 50 + 1)) as [|Hge]; [lia|]. exfalso.
    assert (Hx : 2 ^ 50 * 2 ^ (12 + shift) < start) by (apply first_after_spec; lia).
    assert (2 ^ 12 <= 2 ^ (12 + shift)) by (apply Z.pow_le_mono_r; lia). lia.
Qed.

(** What shrinking leaves: the blocks of [D'], [cnt] data blocks, where [g] had
    them. *)
Record shrunk (s : fs) (D : Z → Prop) (g : Z → Z) (cnt : Z) (D' : Z → Prop) (s' : fs) : Prop := {
  sh_trim : trimmed s D (λ y, D y ∧ ¬ D' y) s';
  sh_sub y : D' y → D y;
  sh_inode : inode_ok s' D';
  sh_find k : 0 <= k → file_block (vw s') k = g k;
  sh_tight : i_root (vw s') ≠ 0 → tight (vw s') (i_height (vw s')) (i_root (vw s'));
  sh_count : count_at (vw s') (i_height (vw s')) (i_root (vw s')) = cnt;
  sh_other : agree other_field (vw s') (vw s)
}.

Lemma agree_other (m m' : mem) : agree (λ x, x ≠ pi + pi_height ∧ ¬ in_range (pi + pi_root) 8 x) m' m →
  agree (λ x, ¬ in_range pi sizeof_pmfs_inode x) m' m ∧ agree other_field m' m.
Proof.
  intros Ha. split; intros x Hx; apply Ha; [|apply Hx].
  unfold in_range, sizeof_pmfs_inode, pi_height, pi_root in *. lia.
Qed.

(** Pointing the inode at a tree of height [h']. *)
Lemma repoint s D g cnt h' root' D' s1 :
  pre s D → cut s D (λ y, D y ∧ ¬ D' y) s1 → vw s1 = vw s → (∀ y, D' y → D y) → (h' <= 3)%nat → 0 <= root' < 2 ^ 64 →
  dtree (vw s) h' root' D' → (root' ≠ 0 → tight (vw s) h' root') → count_at (vw s) h' root' = cnt →
  (∀ k, 0 <= k → block_at (vw s) h' root' k = g k) →
  ∃ s2, lift (update_root_and_height pi root' (Z.of_nat h')) s1 = Ok ((), s2) ∧ shrunk s D g cnt D' s2.
Proof.
  intros Hp Hc Ev Hsub Hh Hr Ht Hti Hcnt Hat.
  destruct (update_eq s1 root' h' Hh Hr) as (c & E & Ha & Eh & Er). rewrite Ev in Ha.
  destruct (agree_other _ _ Ha) as [Hi Ho].
  assert (Hp1 : pre s1 D').
  { eapply (pre_sub _ _ _ _ _ _ _ (pre_cut _ _ _ _ Hp Hc)). intros y Hy. split; [auto|]. tauto. }
  assert (Hi1 : agree (λ x, ¬ in_range pi sizeof_pmfs_inode x) (view c) (vw s1)) by (by rewrite Ev).
  pose proof (tree_same s1 D' c Hp1 Hi1) as Hts. rewrite Ev in Hts.
  exists (set_pm s1 c). split; [done|].
  assert (Hty : load 1 (view c) (pi + pi_i_blk_type) = btype).
  { rewrite <- (pr_type _ _ _ _ _ _ Hp). apply load_ext. intros x Hx. apply Ha.
    unfold in_range, pi_i_blk_type, pi_height, pi_root in *. lia. }
  split; try done.
  - eapply trimmed_ext; [eapply trimmed_trans; [by apply trimmed_cut|apply trimmed_pm; [apply Hc|exact Hi1]]|done|..].
    + intros y. cbv beta. tauto.
    + by intros y [? _].
  - split; [by apply pre_pm| |]; change (vw (set_pm s1 c)) with (view c); rewrite Eh; [done|]. rewrite Er.
    by eapply (dtree_frame btype).
  - intros k Hk. unfold PmfsTreeFile.file_block. change (vw (set_pm s1 c)) with (view c). rewrite Eh, Er, <- Hat by done.
    by eapply (block_at_frame btype).
  - change (vw (set_pm s1 c)) with (view c). rewrite Eh, Er. intros Hne. destruct Ht as [(? & _)|Ht]; [done|].
    eapply (tight_frame n); [exact Ht|exact Hts|by apply Hti].
  - change (vw (set_pm s1 c)) with (view c). rewrite Eh, Er, <- Hcnt. unfold count_at. destruct (Z.eqb_spec root' 0) as [|Hne]; [done|].
    destruct Ht as [(? & _)|Ht]; [done|]. by apply (count_frame n _ _ _ _ D').
Qed.

Lemma tree_root s h root D : pre s D → tree (vw s) n h root D → 0 < root < 2 ^ 64.
Proof.
  intros Hp Ht. destruct (tree_addr n run_pos _ _ _ _ Ht) as (b & Hb & -> & HDb).
  apply (pr_used _ _ _ _ _ _ Hp) in HDb.
  apply (used_bounds _ _ _ _ (wf_ranges _ (pr_wf _ _ _ _ _ _ Hp))) in HDb.
  pose proof (wf_end _ (pr_wf _ _ _ _ _ _ Hp)). lia.
Qed.

Lemma cut_nothing s D : wf s → cut s D (λ y, D y ∧ ¬ D y) s.
Proof. intros Hwf. eapply cut_ext; [apply (cut_refl s D Hwf)|done|]. intros y. cbv beta. tauto. Qed.

Lemma cut_left s D G s' : cut s D G s' → cut s D (λ y, D y ∧ ¬ (D y ∧ ¬ G y)) s'.
Proof.
  intros [C1 C2 C3 C4 C5]. split; [done|done| |tauto|].
  - intros y. rewrite C3. specialize (C4 y). tauto.
  - intros x Hx. apply C5. tauto.
Qed.

(** ** [pmfs_decrease_btree_height] *)

(** When nothing is left, the inode loses its tree. *)
Lemma decrease_empty s D start :
  pre s D → (∀ y, ¬ D y) → load 8 (vw s) (pi + pi_i_blocks) = 0 →
  ∃ s', pmfs_decrease_btree_height cfg pi start 0 s = Ok ((), s') ∧ shrunk s D (λ _, 0) 0 D s'.
Proof.
  intros Hp HD Hb.
  destruct (repoint s D (λ _, 0) 0 0 0 D s) as (s2 & E & Hs); try done; [by apply cut_nothing, Hp|lia|by left| |].
  { intros k Hk. unfold block_at. by case_decide. }
  exists s2. split; [|done]. unfold pmfs_decrease_btree_height.
  rewrite (bind_Ok _ _ _ _ _ (lift_fetch 1 _ s)), (bind_Ok _ _ _ _ _ (lift_fetch 8 _ s)), Hb.
  cbn [Z.eqb orb negb bug_on]. rewrite (bind_Ok (mret ()) _ _ () s) by done. exact E.
Qed.

Lemma decrease_result s D h root start :
  pre s D → (h <= 3)%nat → i_height (vw s) = h → i_root (vw s) = root → tree (vw s) n h root D → tight (vw s) h root →
  load 8 (vw s) (pi + pi_i_blocks) = n * count (vw s) h root → 0 <= start < 2 ^ 62 →
  (∀ k, 0 <= k < span h → find (vw s) h root k ≠ 0 → k < first_after start) → first_after start <= span h →
  ∃ s' D', pmfs_decrease_btree_height cfg pi start root s = Ok ((), s') ∧
    shrunk s D (block_at (vw s) h root) (count (vw s) h root) D' s'.
Proof.
  intros Hp Hh Eh Er Ht Hti Hb Hst Hin Hfs. set (first := first_after start) in *.
  pose proof run_pos as Hn. pose proof (tree_root _ _ _ _ Hp Ht) as Hroot.
  pose proof (tight_count _ _ _ Hti) as Hcnt. destruct (tight_find (vw s) h root ltac:(lia) Hti) as (k0 & Hk0 & Hf0).
  specialize (Hin k0 Hk0 Hf0) as Hpos. pose proof shift_bounds as Hsh.
  assert (Hs0 : 0 < start) by (apply first_after_spec in Hpos; assert (0 < 2 ^ (12 + shift)) by (apply Z.pow_pos_nonneg; lia); nia).
  unfold pmfs_decrease_btree_height.
  rewrite (bind_Ok _ _ _ _ _ (lift_fetch 1 _ s)), (bind_Ok _ _ _ _ _ (lift_fetch 8 _ s)), Hb.
  rewrite (proj2 (Z.eqb_neq (n * count (vw s) h root) 0)), (proj2 (Z.eqb_neq start 0)) by nia. cbn [orb].
  rewrite (bind_Ok _ _ _ _ _ (inode_size s (pr_type _ _ _ _ _ _ Hp))).
  rewrite (bind_Ok _ _ _ _ _ (inode_shift pi btype Hbtype s (pr_type _ _ _ _ _ _ Hp))).
  assert (Hq : 2 ^ 12 <= 2 ^ (12 + shift) <= 2 ^ 30) by (split; apply Z.pow_le_mono_r; lia).
  rewrite (wrap_small 64 (start + 2 ^ (12 + shift) - 1)) by lia. rewrite Z.shiftr_div_pow2 by lia.
  change ((start + 2 ^ (12 + shift) - 1) / 2 ^ (12 + shift)) with first.
  pose proof (first_after_bounds start ltac:(lia)) as Hfb. fold first in Hfb.
  rewrite (wrap_small 64) by lia.
  destruct (height_loop_result btype 8 (first - 1) 0 s) as (c & Ec & Hc & Hmin); [|lia|lia|].
  { change (span 8) with (2 ^ 72). lia. }
  rewrite (bind_Ok _ _ _ _ _ Ec), Z.add_0_l.
  assert (Ehb : load 1 (vw s) (pi + pi_height) = Z.of_nat h) by (rewrite <- Eh; apply (height_byte pi btype)).
  rewrite Ehb. assert (Hch : (c <= h)%nat).
  { destruct (Nat.le_gt_cases c h); [done|]. specialize (Hmin h ltac:(lia)). lia. }
  destruct (Z.eqb_spec (Z.of_nat h) (Z.of_nat c)) as [E|Hne].
  - exists s, D. split; [done|]. split; try done.
    + apply trimmed_cut, cut_nothing, Hp.
    + split; [done|by rewrite Eh|]. rewrite Eh, Er. by right.
    + intros k Hk. unfold PmfsTreeFile.file_block. by rewrite Eh, Er.
    + by rewrite Eh, Er.
    + rewrite Eh, Er. unfold count_at. by rewrite (proj2 (Z.eqb_neq root 0)) by lia.
  - replace (Z.to_nat (Z.of_nat h - Z.of_nat c)) with (h - c)%nat by lia.
    assert (Hhc : h = (h - c + c)%nat) by lia. rewrite Hhc in Ht, Hti.
    destruct (decrease_loop_result (h - c) c root s D Ht Hti (pre_owns _ _ Hp))
      as (root' & s1 & D' & E1 & Hpm & Hcut & [L1 L2 L3 L4 L5]).
    { rewrite <- Hhc. intros k Hk Hf. specialize (Hin k Hk Hf). lia. }
    rewrite (bind_Ok _ _ _ _ _ E1). rewrite <- Hhc in L4, L5.
    pose proof (pre_cut _ _ _ _ Hp Hcut) as Hp1.
    assert (Hp1' : pre s1 D').
    { apply (pre_sub _ _ _ _ _ _ _ Hp1). intros y Hy. split; [auto|tauto]. }
    assert (Hr' : 0 < root' < 2 ^ 64) by (eapply tree_root; [exact Hp1'|by rewrite Hpm]).
    destruct (repoint s D (block_at (vw s) h root) (count (vw s) h root) c root' D' s1) as (s2 & E2 & Hs2);
      try done; [by rewrite Hpm|lia|lia|by right| | |].
    + unfold count_at. by rewrite (proj2 (Z.eqb_neq root' 0)) by lia.
    + intros k Hk. unfold block_at. pose proof (span_mono c h Hch) as Hsp.
      destruct (decide (k < span c)) as [Hlt|Hge].
      * rewrite decide_True by lia. by apply L4.
      * destruct (decide (k < span h)) as [Hlt|]; [|done].
        destruct (decide (find (vw s) h root k = 0)) as [|Hf]; [done|]. specialize (Hin k ltac:(lia) Hf). lia.
    + exists s2, D'. by split.
Qed.

(** ** Freeing the range *)

(** The commands between the range and the count. *)
Definition free_range (h : nat) (root first last : Z) : FM (Z * Z) :=
  if Z.of_nat h =? 0 then
    pmfs_free_block cfg (pmfs_get_blocknr root) btype;;
    mret (1, 0)
  else
    '(freed, mpty) ← recursive_truncate_blocks clwb cfg (Z.to_nat (Z.of_nat h)) root btype first last;
    if (mpty : bool) then
      pmfs_free_block cfg (pmfs_get_blocknr root) PMFS_BLOCK_TYPE_4K;;
      mret (freed, 0)
    else mret (freed, root).

(** All is gone, or a tree with the blocks before the range. *)
Definition range_freed (s : fs) (h : nat) (root first c root' : Z) (D1 : Z → Prop) (s1 : fs) : Prop :=
  (root' = 0 ∧ (∀ y, ¬ D1 y) ∧ c = count (vw s) h root ∧
   ∀ k, 0 <= k < span h → find (vw s) h root k ≠ 0 → first <= k) ∨
  (root' = root ∧ tree (vw s1) n h root D1 ∧ tight (vw s1) h root ∧ c + count (vw s1) h root = count (vw s) h root ∧
   ∀ k, 0 <= k < span h → find (vw s1) h root k = if decide (first <= k) then 0 else find (vw s) h root k).

Lemma free_range_result s D h root first last :
  pre s D → (h <= 3)%nat → tree (vw s) n h root D → tight (vw s) h root → 0 <= first <= last → last < span h →
  (∀ k, 0 <= k < span h → find (vw s) h root k ≠ 0 → k <= last) →
  ∃ c root' s1 D1, free_range h root first last s = Ok ((u32 c, root'), s1) ∧ 0 <= c ∧
    cut s D (λ y, D y ∧ ¬ D1 y) s1 ∧ (∀ y, D1 y → D y) ∧ range_freed s h root first c root' D1 s1.
Proof.
  intros Hp Hh Ht Hti Hfl Hl Hin. pose proof (pre_owns _ _ Hp) as Ho. pose proof run_pos as Hn. unfold free_range.
  destruct (tree_addr n Hn _ _ _ _ Ht) as (b & Hb & Eb & HDb). subst root. rewrite get_blocknr_eq.
  destruct h as [|h].
  - change (Z.of_nat 0 =? 0) with true. cbv iota. destruct Ht as (b' & _ & Eb & _ & HD). assert (b' = b) by lia. subst b'.
    destruct (pmfs_free_cut cfg Hslab b btype s D Ho) as (s1 & E & Hc & _); [|done|].
    { fold n. intros y Hy. by apply HD. }
    rewrite (bind_Ok _ _ _ _ _ E). exists 1, 0, s1, (λ _, False). split; [done|]. split; [lia|].
    split; [|split; [done|]].
    + fold n in Hc. eapply cut_ext; [exact Hc| |]; intros y; cbv beta; rewrite HD; unfold run; tauto.
    + left. split_and!; try done; [tauto|]. intros k Hk _. change (span 0) with 1 in *. lia.
  - rewrite (proj2 (Z.eqb_neq (Z.of_nat (S h)) 0)), Nat2Z.id by lia.
    destruct (recursive_truncate_result n Hn clwb cfg btype Hslab eq_refl (S h) s D b first last)
      as (c & mpty & s1 & G & E & Hc & HGb & Hres); [lia|done|done|lia|done|].
    rewrite (bind_Ok _ _ _ _ _ E). destruct mpty.
    + destruct Hres as (Hcut & Hcl & HD & Ec).
      pose proof (owns_cut _ _ _ _ _ Ho (λ y H, proj2 (HD y) (or_intror H)) Hcut) as Ho1.
      destruct (pmfs_free_cut cfg Hslab b PMFS_BLOCK_TYPE_4K s1 _ Ho1) as (s2 & E2 & Hc2 & _); [|done|].
      { intros y Hy. assert (y = b) as -> by (unfold run in Hy; cbn in Hy; lia). done. }
      rewrite (bind_Ok _ _ _ _ _ E2). exists c, 0, s2, (λ _, False). split; [done|]. split; [done|].
      assert (HR : ∀ y, run b 1 y ↔ y = b) by (unfold run; lia). split; [|split; [done|]].
      * change (pmfs_get_numblocks PMFS_BLOCK_TYPE_4K) with 1 in Hc2.
        eapply cut_ext; [eapply cut_trans; [exact Hcut|exact Hc2|]| |].
        -- intros y Hy ->%HR. done.
        -- intros y. cbv beta. rewrite HR, HD. tauto.
        -- intros y. cbv beta. rewrite HR, HD. tauto.
      * left. split_and!; [done|tauto|done|]. intros k Hk Hf.
        destruct (closed_find _ _ _ _ _ k Hcl Hfl Hl Hk Hf). done.
    + destruct Hres as (Hcut & Hnc & Ht1 & Hf1 & Ec & Hti1).
      exists c, (4096 * b), s1, (λ y, D y ∧ ¬ G y). split; [done|]. split; [done|]. split; [|split; [by intros y [? _]|]].
      * by apply cut_left.
      * right. split_and!; [done|done|by apply Hti1|lia|]. intros k Hk. rewrite Hf1 by done.
        specialize (Hin k Hk). destruct (decide (find (vw s) (S h) (4096 * b) k = 0)) as [E0|Hne].
        -- rewrite E0. by repeat case_decide.
        -- specialize (Hin Hne). repeat case_decide; (done || lia).
Qed.

(** ** The inode as truncation finds and leaves it *)

(** Its pages are not empty, and it counts its blocks. *)
Record file_ok (s : fs) (D : Z → Prop) : Prop := {
  fo_inode : inode_ok s D;
  fo_tight : i_root (vw s) ≠ 0 → tight (vw s) (i_height (vw s)) (i_root (vw s));
  fo_count : load 8 (vw s) (pi + pi_i_blocks) = n * count_at (vw s) (i_height (vw s)) (i_root (vw s));
  fo_small : load 8 (vw s) (pi + pi_i_blocks) < 2 ^ 32
}.

(** The inode's times and flags. *)
Definition plain_field (x : Z) : Prop := in_range (pi + pi_i_flags) 4 x ∨ in_range (pi + pi_i_ctime) 8 x.

Lemma plain_load (m m' : mem) k o : agree (λ x, ¬ plain_field x) m' m → 0 <= o →
  (o + Z.of_nat k <= 4 ∨ 8 <= o ∧ o + Z.of_nat k <= 24 ∨ 32 <= o) → load k m' (pi + o) = load k m (pi + o).
Proof.
  intros Ha Ho Hk. apply load_ext. intros x Hx. apply Ha.
  unfold plain_field, in_range, pi_i_flags, pi_i_ctime in *. lia.
Qed.

Lemma plain_inode (m m' : mem) : agree (λ x, ¬ plain_field x) m' m → agree (λ x, ¬ in_range pi sizeof_pmfs_inode x) m' m.
Proof.
  intros Ha x Hx. apply Ha. intros Hp. apply Hx.
  unfold plain_field, in_range, pi_i_flags, pi_i_ctime, sizeof_pmfs_inode in *. lia.
Qed.

Lemma plain_same s D c : file_ok s D → agree (λ x, ¬ plain_field x) (view c) (vw s) →
  file_ok (set_pm s c) D ∧ trimmed s D (λ _, False) (set_pm s c) ∧
  (∀ k, 0 <= k → file_block (view c) k = file_block (vw s) k) ∧
  load 8 (view c) (pi + pi_i_blocks) = load 8 (vw s) (pi + pi_i_blocks).
Proof.
  intros [[Hp H3 Ht] Hti Hcnt Hsm] Ha. pose proof (plain_inode _ _ Ha) as Hi.
  pose proof (tree_same _ _ _ Hp Hi) as Hts.
  assert (Eh : i_height (view c) = i_height (vw s)).
  { unfold PmfsTreeFile.i_height. f_equal. apply plain_load; [done|unfold pi_height; lia..]. }
  assert (Er : i_root (view c) = i_root (vw s)) by (apply plain_load; [done|unfold pi_root; lia..]).
  assert (Eb : load 8 (view c) (pi + pi_i_blocks) = load 8 (vw s) (pi + pi_i_blocks))
    by (apply plain_load; [done|unfold pi_i_blocks; lia..]).
  assert (Hty : load 1 (view c) (pi + pi_i_blk_type) = btype).
  { rewrite <- (pr_type _ _ _ _ _ _ Hp). apply plain_load; [done|unfold pi_i_blk_type; lia..]. }
  split_and!.
  - split; change (vw (set_pm s c)) with (view c); rewrite ?Eb, ?Eh, ?Er; [| | |done].
    + split; [by apply pre_pm| |]; change (vw (set_pm s c)) with (view c); rewrite ?Eh, ?Er; [done|].
      by eapply (dtree_frame btype).
    + intros Hne. destruct Ht as [(? & _)|Ht]; [done|]. by eapply (tight_frame n); [exact Ht| |by apply Hti].
    + rewrite Hcnt. unfold count_at. destruct (Z.eqb_spec (i_root (vw s)) 0) as [|Hne]; [done|].
      destruct Ht as [(? & _)|Ht]; [done|]. by rewrite (count_frame n _ _ _ _ D Ht Hts).
  - apply trimmed_pm; [apply Hp|done].
  - intros k Hk. unfold PmfsTreeFile.file_block. rewrite Eh, Er. by eapply (block_at_frame btype).
  - done.
Qed.

(** ** Small pieces of code *)

Lemma n_is : n = 2 ^ shift.
Proof.
  unfold n, blk_shift, pmfs_get_numblocks, PMFS_BLOCK_TYPE_4K, PMFS_BLOCK_TYPE_2M.
  assert (btype = 0 ∨ btype = 1 ∨ btype = 2) as [E|[E|E]] by lia; by rewrite E.
Qed.

Lemma type_shift s : lift (blk_type_to_shift btype) s = Ok (12 + shift, s).
Proof.
  unfold blk_type_to_shift, blk_shift.
  assert (btype = 0 ∨ btype = 1 ∨ btype = 2) as [E|[E|E]] by lia; rewrite E; apply lift_ret.
Qed.

Lemma lift_bind {A B} (m : PM A) (g : A → PM B) s : lift (m ≫= g) s = (lift m ≫= λ a, lift (g a)) s.
Proof. unfold lift, mbind, M_bind. destruct (m (pm s)) as [[a c]| |]; [|done..]. cbn. by destruct (g a c) as [[]| |]. Qed.

(** A store to a field. *)
Lemma lift_store_field k o v s : ∃ c, lift (store k (pi + o) v) s = Ok ((), set_pm s c) ∧
  agree (λ x, ¬ in_range (pi + o) (Z.of_nat k) x) (view c) (vw s) ∧ load k (view c) (pi + o) = v mod 2 ^ (Z.of_nat k * 8).
Proof.
  eexists. split; [apply lift_store|]. rewrite store_view. split; [|apply load_write_same].
  intros x Hx. apply write_bytes_out. by rewrite length_bytes_of.
Qed.

Lemma times_eq s ino : ∃ c, lift (store_times pi ino) s = Ok ((), set_pm s c) ∧
  agree (λ x, ¬ plain_field x) (view c) (vw s).
Proof.
  unfold store_times. rewrite lift_bind.
  destruct (lift_store_field 4 pi_i_mtime (u32 (i_mtime ino)) s) as (c1 & E1 & H1 & _).
  rewrite (bind_Ok _ _ _ _ _ E1).
  destruct (lift_store_field 4 pi_i_ctime (u32 (i_ctime ino)) (set_pm s c1)) as (c2 & E2 & H2 & _).
  exists c2. split; [exact E2|]. intros x Hx. unfold plain_field, in_range, pi_i_ctime, pi_i_mtime in *.
  rewrite H2 by lia. apply H1. lia.
Qed.

(** The count and the times. *)
Lemma counts_eq s v ino : 0 <= v < 2 ^ 64 →
  ∃ c, lift (store 8 (pi + pi_i_blocks) v;; store_times pi ino) s = Ok ((), set_pm s c) ∧
    agree (λ x, ¬ plain_field x ∧ ¬ in_range (pi + pi_i_blocks) 8 x) (view c) (vw s) ∧
    load 8 (view c) (pi + pi_i_blocks) = v.
Proof.
  intros Hv. rewrite lift_bind.
  destruct (lift_store_field 8 pi_i_blocks v s) as (c1 & E1 & H1 & L1). rewrite (bind_Ok _ _ _ _ _ E1).
  destruct (times_eq (set_pm s c1) ino) as (c2 & E2 & H2). exists c2. split; [exact E2|]. split.
  - intros x [Hx Hb]. rewrite H2 by done. by apply H1.
  - rewrite (plain_load (view c1) (view c2) 8 pi_i_blocks) by (done || (unfold pi_i_blocks; lia)).
    rewrite L1. by apply Z.mod_small.
Qed.

Lemma flush_inode c : pmfs_flush_buffer clwb pi 1 false c = Ok ((), log_state c (flush_events clwb pi 1 ++ fence_events false)).
Proof. by rewrite pmfs_flush_buffer_eq by lia. Qed.

Lemma flags_eq s size : ∃ c, lift (check_eof_blocks pi size;; pmfs_flush_buffer clwb pi 1 false) s = Ok ((), set_pm s c) ∧
  agree (λ x, ¬ plain_field x) (view c) (vw s).
Proof.
  assert (∃ c1, check_eof_blocks pi size (pm s) = Ok ((), c1) ∧ agree (λ x, ¬ plain_field x) (view c1) (vw s)) as (c1 & E & Ha).
  { unfold check_eof_blocks. rewrite (bind_Ok _ _ _ _ _ (fetch_eq 4 _ _)), (bind_Ok _ _ _ _ _ (fetch_eq 8 _ _)).
    unfold when. destruct (_ && _); [|by exists (pm s)].
    eexists. split; [apply store_eq|]. intros x Hx. rewrite store_view, write_bytes_out; [done|].
    rewrite length_bytes_of. intros Hr. apply Hx. by left. }
  eexists. split; [apply lift_eq; rewrite (bind_Ok _ _ _ _ _ E); apply flush_inode|].
  cbn [view log_state]. rewrite flush_keeps_view. done.
Qed.

(** ** The range *)

(** Without the flag of blocks past the end, no block begins behind [size]. *)
Definition past_end (m : mem) (size : Z) : Prop :=
  Z.land (load 4 m (pi + pi_i_flags)) PMFS_EOFBLOCKS_FL = 0 →
  ∀ k, 0 <= k → file_block m k ≠ 0 → k * 2 ^ (12 + shift) < size.

Lemma block_bound s D k : inode_ok s D → 0 <= k → file_block (vw s) k ≠ 0 →
  i_root (vw s) ≠ 0 ∧ k < span (i_height (vw s)).
Proof.
  intros Hi Hk Hne. unfold PmfsTreeFile.file_block, block_at in Hne. case_decide; [|done]. split; [|done].
  intros Hz. destruct (io_tree _ _ _ _ _ _ Hi) as [(_ & Hh & _)|Ht]; [|by apply (tree_nonzero n run_pos) in Ht].
  by rewrite Hz, Hh in Hne.
Qed.

Lemma sparse_last (h : nat) l : 0 <= l → 0 <= pmfs_sparse_last_blocknr (Z.of_nat h) l < span h ∧
  pmfs_sparse_last_blocknr (Z.of_nat h) l <= l ∧ ∀ k, k < span h → k <= l → k <= pmfs_sparse_last_blocknr (Z.of_nat h) l.
Proof.
  intros Hl. unfold pmfs_sparse_last_blocknr. rewrite shiftl_span. pose proof (span_pos h).
  destruct (Z.geb_spec l (span h)); split_and!; lia.
Qed.

Lemma truncate_range_eq s D start size :
  inode_ok s D → 0 <= start < 2 ^ 62 → 0 <= size → past_end (vw s) size →
  ∃ r, truncate_range pi start size (pm s) = Ok (r, pm s) ∧
    match r with
    | Some (f, l) => f = first_after start ∧ i_root (vw s) ≠ 0 ∧ f <= l ∧ l < span (i_height (vw s)) ∧
        ∀ k, 0 <= k → file_block (vw s) k ≠ 0 → k <= l
    | None => ∀ k, first_after start <= k → 0 <= k → file_block (vw s) k = 0
    end.
Proof.
  intros Hi Hst Hsz Hpast. pose proof (io_pre _ _ _ _ _ _ Hi) as Hp. unfold truncate_range.
  rewrite (bind_Ok _ _ _ _ _ (fetch_eq 8 _ _)). fold (i_root (vw s)).
  destruct (Z.eqb_spec (i_root (vw s)) 0) as [Hz|Hroot].
  { exists None. split; [done|]. intros k _ Hk. destruct (decide (file_block (vw s) k = 0)) as [|Hne]; [done|].
    by destruct (block_bound _ _ _ Hi Hk Hne). }
  pose proof shift_bounds as Hsh.
  assert (Hq : 2 ^ 12 <= 2 ^ (12 + shift) <= 2 ^ 30) by (split; apply Z.pow_le_mono_r; lia).
  assert (Esh : pmfs_inode_blk_shift pi (pm s) = Ok (12 + shift, pm s)).
  { unfold pmfs_inode_blk_shift, inode_blk_type. rewrite (bind_Ok _ _ _ _ _ (fetch_eq 1 _ _)).
    rewrite (pr_type _ _ _ _ _ _ Hp). pose proof (type_shift s) as E. unfold lift in E.
    destruct (blk_type_to_shift btype (pm s)) as [[a c]| |]; [|done..]. injection E as -> E. destruct s; cbn in *.
    by inversion E. }
  rewrite (bind_Ok _ _ _ _ _ Esh), (bind_Ok _ _ _ _ _ (fetch_eq 4 _ _)), (bind_Ok _ _ _ _ _ (fetch_eq 1 _ _)).
  rewrite (height_byte pi btype), shiftl_span. rewrite Z.shiftl_1_l, (wrap_small 64) by lia.
  rewrite (Z.shiftr_div_pow2 (start + 2 ^ (12 + shift) - 1)) by lia.
  fold (first_after start). pose proof (first_after_bounds start Hst) as Hf.
  set (m := vw s) in *. set (h := i_height m) in *. pose proof (span_pos h) as Hspan.
  assert (Hbound : ∀ k, 0 <= k → file_block m k ≠ 0 → k < span h) by (intros; by eapply block_bound).
  assert (Hnone : ∀ l, (∀ k, 0 <= k → file_block m k ≠ 0 → k <= l) → l < first_after start →
    ∀ k, first_after start <= k → 0 <= k → file_block m k = 0).
  { intros l Hl Hlt k Hk Hk0. destruct (decide (file_block m k = 0)) as [|Hne]; [done|]. specialize (Hl k Hk0 Hne). lia. }
  assert (Hfinish : ∀ l, l < span h → (∀ k, 0 <= k → file_block m k ≠ 0 → k <= l) →
    ∃ r, (mret (if first_after start >? l then None else Some (first_after start, l)) : PM _) (pm s) = Ok (r, pm s) ∧
    match r with
    | Some (f, l) => f = first_after start ∧ i_root m ≠ 0 ∧ f <= l ∧ l < span h ∧
        ∀ k, 0 <= k → file_block m k ≠ 0 → k <= l
    | None => ∀ k, first_after start <= k → 0 <= k → file_block m k = 0
    end).
  { intros l Hl Hin. eexists. split; [reflexivity|]. destruct (Z.gtb_spec (first_after start) l) as [Hgt|Hle].
    - by apply (Hnone l).
    - split_and!; done. }
  destruct (Z.eqb_spec (Z.land (load 4 m (pi + pi_i_flags)) PMFS_EOFBLOCKS_FL) 0) as [Hno|Hfl]; cbn [negb].
  2: { apply Hfinish; [lia|]. intros k Hk Hne. specialize (Hbound k Hk Hne). lia. }
  specialize (Hpast Hno). assert (Hq0 : 0 < 2 ^ (12 + shift)) by lia.
  destruct (Z.eqb_spec size 0) as [->|Hsz0].
  - exists None. split; [done|]. apply (Hnone (-1)); [|lia]. intros k Hk Hne. specialize (Hpast k Hk Hne). nia.
  - rewrite Z.shiftr_div_pow2 by lia.
    destruct (sparse_last h ((size - 1) / 2 ^ (12 + shift))) as (H1 & H2 & H3); [apply Z.div_pos; lia|].
    apply Hfinish; [lia|]. intros k Hk Hne. apply H3; [by apply Hbound|]. apply Z.div_le_lower_bound; [lia|].
    specialize (Hpast k Hk Hne). lia.
Qed.

(** ** The whole call *)

(** What truncating leaves: the blocks of [D'], those before [start] only. *)
Record truncated (s : fs) (D : Z → Prop) (start : Z) (D' : Z → Prop) (s' : fs) : Prop := {
  td_file : file_ok s' D';
  td_sub y : D' y → D y;
  td_trim : trimmed s D (λ y, D y ∧ ¬ D' y) s';
  td_find k : 0 <= k → file_block (vw s') k = if decide (first_after start <= k) then 0 else file_block (vw s) k
}.

Lemma file_root s D : file_ok s D → i_root (vw s) ≠ 0 →
  tree (vw s) n (i_height (vw s)) (i_root (vw s)) D ∧ tight (vw s) (i_height (vw s)) (i_root (vw s)) ∧
  load 8 (vw s) (pi + pi_i_blocks) = n * count (vw s) (i_height (vw s)) (i_root (vw s)).
Proof.
  intros [[_ _ Ht] Hti Hc _] Hne. split_and!; [by destruct Ht as [(? & _)|]|by apply Hti|].
  rewrite Hc. unfold count_at. by rewrite (proj2 (Z.eqb_neq _ _) Hne).
Qed.

(** Only times and flags are written. *)
Lemma truncated_plain s D start c :
  file_ok s D → agree (λ x, ¬ plain_field x) (view c) (vw s) →
  (∀ k, first_after start <= k → 0 <= k → file_block (vw s) k = 0) → truncated s D start D (set_pm s c).
Proof.
  intros Hf Ha Hz. destruct (plain_same s D c Hf Ha) as (H1 & H2 & H3 & _). split; [done|done| |].
  - eapply trimmed_ext; [exact H2|done|intros y; tauto|by intros y [? _]].
  - intros k Hk. change (vw (set_pm s c)) with (view c). rewrite H3 by done. case_decide; [by apply Hz|done].
Qed.

(** The state after the count and the times were stored. *)
Lemma counted_state s D D1 s1 v ino :
  pre s D → cut s D (λ y, D y ∧ ¬ D1 y) s1 → (∀ y, D1 y → D y) → 0 <= v < 2 ^ 64 →
  ∃ c, lift (store 8 (pi + pi_i_blocks) v;; store_times pi ino) s1 = Ok ((), set_pm s1 c) ∧
    pre (set_pm s1 c) D1 ∧ agree (λ x, ¬ in_range pi sizeof_pmfs_inode x) (view c) (vw s1) ∧
    i_height (view c) = i_height (vw s) ∧ i_root (view c) = i_root (vw s) ∧ load 8 (view c) (pi + pi_i_blocks) = v.
Proof.
  intros Hp Hc Hsub Hv. destruct (counts_eq s1 v ino Hv) as (c & E & Ha & Hl). exists c.
  assert (Hi : agree (λ x, ¬ in_range pi sizeof_pmfs_inode x) (view c) (vw s1)).
  { intros x Hx. apply Ha. unfold plain_field, in_range, sizeof_pmfs_inode, pi_i_flags, pi_i_ctime, pi_i_blocks in *. lia. }
  assert (Hload : ∀ k o, 0 <= o → (o + Z.of_nat k <= 4 ∨ 8 <= o ∧ o + Z.of_nat k <= 24) →
    load k (view c) (pi + o) = load k (vw s) (pi + o)).
  { intros k o Ho Hk. rewrite <- (cut_inode s D _ s1 k o Hp Hc) by (unfold sizeof_pmfs_inode; lia).
    apply load_ext. intros x Hx. apply Ha. unfold plain_field, in_range, pi_i_flags, pi_i_ctime, pi_i_blocks in *. lia. }
  split_and!; [done| |done| | |done].
  - apply pre_pm; [|done|].
    + apply (pre_sub _ _ _ _ _ _ _ (pre_cut _ _ _ _ Hp Hc)). intros y Hy. split; [auto|tauto].
    + rewrite Hload by (unfold pi_i_blk_type; lia). apply (pr_type _ _ _ _ _ _ Hp).
  - unfold PmfsTreeFile.i_height. by rewrite Hload by (unfold pi_height; lia).
  - unfold PmfsTreeFile.i_root. by rewrite Hload by (unfold pi_root; lia).
Qed.

(** The height, after the count. *)
Lemma decrease_after s D D1 s1 c root' c2 start :
  let h := i_height (vw s) in let root := i_root (vw s) in
  file_ok s D → root ≠ 0 → 0 <= start < 2 ^ 62 → first_after start <= span h →
  range_freed s h root (first_after start) c root' D1 s1 → (∀ y, D1 y → D y) →
  pre (set_pm s1 c2) D1 → agree (λ x, ¬ in_range pi sizeof_pmfs_inode x) (view c2) (vw s1) → pre s1 D1 →
  i_height (view c2) = h → i_root (view c2) = root →
  load 8 (view c2) (pi + pi_i_blocks) = load 8 (vw s) (pi + pi_i_blocks) - n * c →
  ∃ g cnt D' s3, pmfs_decrease_btree_height cfg pi start root' (set_pm s1 c2) = Ok ((), s3) ∧
    shrunk (set_pm s1 c2) D1 g cnt D' s3 ∧ load 8 (view c2) (pi + pi_i_blocks) = n * cnt ∧
    ∀ k, 0 <= k → g k = if decide (first_after start <= k) then 0 else file_block (vw s) k.
Proof.
  intros h root Hf Hroot Hst Hfs Hrf Hsub Hp2 Hi Hp1 Eh Er Hl.
  destruct (file_root s D Hf Hroot) as (Ht & Hti & Hcnt). fold h root in Ht, Hti, Hcnt. rewrite Hcnt in Hl.
  pose proof (tree_same s1 D1 c2 Hp1 Hi) as Hts. pose proof (fo_inode _ _ Hf) as Hio.
  assert (Hfb : ∀ k, 0 <= k → file_block (vw s) k = if decide (k < span h) then find (vw s) h root k else 0) by done.
  destruct Hrf as [(-> & HD1 & -> & Hgone)|(-> & Ht1 & Hti1 & Ec & Hfind)].
  - destruct (decrease_empty (set_pm s1 c2) D1 start Hp2 HD1) as (s3 & E & Hs); [simpl; lia|].
    exists (λ _, 0), 0, D1, s3. split_and!; [done|done|lia|]. intros k Hk. case_decide as Hd; [done|]. rewrite Hfb by done.
    case_decide; [|done]. destruct (decide (find (vw s) h root k = 0)) as [|Hne]; [done|].
    destruct Hd. apply Hgone; [lia|done].
  - assert (Ecn : count (view c2) h root = count (vw s1) h root) by (by apply (count_frame n _ _ _ _ D1)).
    assert (Hf2 : ∀ k, 0 <= k < span h → find (view c2) h root k = if decide (first_after start <= k) then 0 else find (vw s) h root k).
    { intros k Hk. rewrite (find_frame n _ _ _ _ D1 k Ht1 Hts Hk). by apply Hfind. }
    destruct (decrease_result (set_pm s1 c2) D1 h root start) as (s3 & D' & E & Hs); try done.
    + apply (io_height _ _ _ _ _ _ Hio).
    + by apply (tree_frame n (vw s1)).
    + by apply (tight_frame n (vw s1) _ _ _ D1).
    + change (vw (set_pm s1 c2)) with (view c2). rewrite Hl, Ecn. lia.
    + change (vw (set_pm s1 c2)) with (view c2). intros k Hk. rewrite Hf2 by done. case_decide; [done|lia].
    + do 4 eexists. split; [exact E|]. split; [exact Hs|]. change (vw (set_pm s1 c2)) with (view c2). split.
      * rewrite Hl, Ecn. lia.
      * intros k Hk. unfold block_at. rewrite Hfb by done. destruct (decide (k < span h)) as [Hlt|].
        -- by apply Hf2.
        -- by case_decide.
Qed.

(** From the freed range to the end of the call. *)
Lemma finish_truncate s D start size c root' D1 s1 ino :
  let h := i_height (vw s) in let root := i_root (vw s) in
  file_ok s D → root ≠ 0 → 0 <= start < 2 ^ 62 → first_after start <= span h →
  cut s D (λ y, D y ∧ ¬ D1 y) s1 → (∀ y, D1 y → D y) → 0 <= c → range_freed s h root (first_after start) c root' D1 s1 →
  let v := load 8 (vw s) (pi + pi_i_blocks) - n * c in
  ∃ s' D', (lift (store 8 (pi + pi_i_blocks) v;; store_times pi ino);;
            pmfs_decrease_btree_height cfg pi start root';;
            lift (check_eof_blocks pi size;; pmfs_flush_buffer clwb pi 1 false);; mret ino) s1 = Ok (ino, s') ∧
    truncated s D start D' s' ∧ load 8 (vw s') (pi + pi_i_blocks) = v.
Proof.
  intros h root Hf Hroot Hst Hfs Hc Hsub Hc0 Hrf v. pose proof run_pos as Hn.
  destruct (file_root s D Hf Hroot) as (_ & _ & Hcnt). fold h root in Hcnt.
  pose proof (io_pre _ _ _ _ _ _ (fo_inode _ _ Hf)) as Hp. pose proof (fo_small _ _ Hf) as Hsm.
  assert (Hcc : c <= count (vw s) h root).
  { destruct Hrf as [(_ & _ & -> & _)|(_ & _ & _ & Ec & _)]; [lia|].
    pose proof (count_bounds (vw s1) h root). lia. }
  assert (Hv : 0 <= v < 2 ^ 32) by (unfold v; rewrite Hcnt in *; nia).
  destruct (counted_state s D D1 s1 v ino Hp Hc Hsub ltac:(lia)) as (c2 & E2 & Hp2 & Hi2 & Eh & Er & Hl).
  rewrite (bind_Ok _ _ _ _ _ E2).
  assert (Hp1 : pre s1 D1).
  { apply (pre_sub _ _ _ _ _ _ _ (pre_cut _ _ _ _ Hp Hc)). intros y Hy. split; [auto|tauto]. }
  destruct (decrease_after s D D1 s1 c root' c2 start) as (g & cnt & D' & s3 & E3 & Hs & Hvc & Hg); try done.
  rewrite (bind_Ok _ _ _ _ _ E3). destruct Hs as [S1 S2 S3 S4 S5 S6 S7].
  assert (Hb3 : load 8 (vw s3) (pi + pi_i_blocks) = v).
  { rewrite <- Hl. apply load_ext. intros x Hx. apply S7. unfold other_field, in_range, sizeof_pmfs_inode, pi_i_blocks, pi_height, pi_root in *. lia. }
  assert (Hf3 : file_ok s3 D') by (split; [done|done|rewrite Hb3, S6, <- Hvc; done|lia]).
  destruct (flags_eq s3 size) as (c4 & E4 & Ha4). rewrite (bind_Ok _ _ _ _ _ E4).
  destruct (plain_same s3 D' c4 Hf3 Ha4) as (F1 & F2 & F3 & F4).
  exists (set_pm s3 c4), D'. split; [done|]. split; [|by change (vw (set_pm s3 c4)) with (view c4); rewrite F4].
  split; [done|auto| |].
  - apply (trimmed_step _ s1 _ _ D1); [by apply trimmed_cut|done| |auto].
    apply (trimmed_step _ (set_pm s1 c2) _ _ D1); [by apply trimmed_none, trimmed_pm; [apply Hc|]|done| |auto].
    apply (trimmed_step _ s3 _ _ D'); [exact S1|done|by apply trimmed_none|done].
  - intros k Hk. change (vw (set_pm s3 c4)) with (view c4). rewrite F3, S4 by done. by apply Hg.
Qed.

(** The blocks the VFS inode counts after [c] data blocks were freed. *)
Lemma blocks_left b c : 0 <= c → n * c <= b < 2 ^ 32 →
  u64 (b - u32 (u32 c * Z.shiftl 1 (12 + shift - s_blocksize_bits))) = b - n * c.
Proof.
  intros Hc Hb. pose proof run_pos as Hn. unfold s_blocksize_bits. replace (12 + shift - 12) with shift by lia.
  rewrite Z.shiftl_1_l, <- n_is. rewrite (wrap_small 32 c) by nia. rewrite (wrap_small 32) by nia. rewrite wrap_small; nia.
Qed.

Lemma truncate_blocks_result s D ino start size now :
  pmfs_get_inode (i_ino ino) (pm s) = Ok (Some pi, pm s) → file_ok s D →
  i_blocks ino = load 8 (vw s) (pi + pi_i_blocks) → 0 <= start < 2 ^ 62 → 0 <= size → past_end (vw s) size →
  ∃ ino' s' D', __pmfs_truncate_blocks clwb cfg ino start size now false s = Ok (ino', s') ∧
    truncated s D start D' s' ∧ i_blocks ino' = load 8 (vw s') (pi + pi_i_blocks).
Proof.
  intros Hget Hf Hib Hst Hsz Hpast. pose proof (fo_inode _ _ Hf) as Hio. pose proof (io_pre _ _ _ _ _ _ Hio) as Hp.
  unfold __pmfs_truncate_blocks.
  rewrite (bind_Ok _ _ _ _ _ (lift_eq _ _ _ _ Hget)), set_pm_id. cbn [deref].
  rewrite (bind_Ok _ _ _ _ _ (lift_ret pi s)). set (ino1 := Inode _ _ _ _ _).
  destruct (truncate_range_eq s D start size Hio Hst Hsz Hpast) as (r & Er & Hr).
  rewrite (bind_Ok _ _ _ _ _ (lift_eq _ _ _ _ Er)), set_pm_id. destruct r as [[first last]|]; cbv iota beta.
  2: { destruct (times_eq s ino1) as (c1 & E1 & Ha1).
       erewrite bind_Ok; [|rewrite lift_bind, (bind_Ok _ _ _ _ _ E1); apply lift_eq, flush_inode].
       exists ino1, (set_pm s (log_state c1 (flush_events clwb pi 1 ++ fence_events false))), D.
       assert (Ha : agree (λ x, ¬ plain_field x) (view (log_state c1 (flush_events clwb pi 1 ++ fence_events false))) (vw s))
         by (cbn [view log_state]; by rewrite flush_keeps_view).
       split; [done|]. split; [apply truncated_plain; [done|exact Ha|exact Hr]|].
       etrans; [exact Hib|]. symmetry. by apply plain_load; [|unfold pi_i_blocks; lia|unfold pi_i_blocks; lia]. }
  destruct Hr as (-> & Hroot & Hle & Hlast & Hin). set (h := i_height (vw s)) in *. set (root := i_root (vw s)) in *.
  destruct (file_root s D Hf Hroot) as (Ht & Hti & Hcnt). fold h root in Ht, Hti, Hcnt.
  rewrite (bind_Ok _ _ _ _ _ (lift_fetch 8 _ s)), (bind_Ok _ _ _ _ _ (lift_fetch 1 _ s)).
  unfold inode_blk_type. rewrite (bind_Ok _ _ _ _ _ (lift_fetch 1 _ s)), (pr_type _ _ _ _ _ _ Hp).
  rewrite (bind_Ok _ _ _ _ _ (type_shift s)), (height_byte pi btype). fold h. change (load 8 (vw s) (pi + pi_root)) with root.
  assert (Hinh : ∀ k, 0 <= k < span h → find (vw s) h root k ≠ 0 → k <= last).
  { intros k Hk Hne. apply Hin; [lia|]. change (block_at (vw s) h root k ≠ 0). unfold block_at. by rewrite decide_True by lia. }
  pose proof (first_after_bounds start Hst) as Hfb.
  destruct (free_range_result s D h root (first_after start) last Hp (io_height _ _ _ _ _ _ Hio) Ht Hti ltac:(lia) Hlast Hinh)
    as (c & root' & s1 & D1 & E1 & Hc & Hcut & Hsub & Hrf).
  unfold free_range in E1. rewrite (bind_Ok _ _ _ _ _ E1). rewrite (bind_Ok (mret _) _ s1 _ s1 eq_refl).
  assert (Hcc : c <= count (vw s) h root).
  { destruct Hrf as [(_ & _ & -> & _)|(_ & _ & _ & Ec & _)]; [lia|]. pose proof (count_bounds (vw s1) h root). lia. }
  pose proof (fo_small _ _ Hf) as Hsm. pose proof run_pos as Hn.
  assert (Ev : u64 (i_blocks ino1 - u32 (u32 c * Z.shiftl 1 (12 + shift - s_blocksize_bits))) =
    load 8 (vw s) (pi + pi_i_blocks) - n * c).
  { cbn [i_blocks ino1]. rewrite Hib. apply blocks_left; [done|]. split; [rewrite Hcnt; nia|done]. }
  rewrite Ev. set (v := load 8 (vw s) (pi + pi_i_blocks) - n * c).
  destruct (finish_truncate s D start (i_size (set_i_blocks ino1 v)) c root' D1 s1 (set_i_blocks ino1 v) Hf Hroot Hst)
    as (s' & D' & E & Htr & Hl); [fold h; lia|done..|].
  exists (set_i_blocks ino1 v), s', D'. split; [exact E|]. split; [done|]. by rewrite Hl.
Qed.

(** C13: truncating a file to [start] bytes terminates without hitting a [BUG_ON],
    for a file that has no empty page of pointers, which counts its blocks and
    has none that begins behind its old size (or has the flag that says so).
    Afterwards no block that begins at [start] or behind is found, every other is
    found where it was; the blocks that left the tree, data and pages, are out of
    use, the others are in use; the tree is well formed and without empty pages; the inode counts its blocks, and the VFS's inode as many;
    only the inode and the file's blocks were written. *)
Theorem pmfs_truncate_blocks_correct s D ino start size now :
  pmfs_get_inode (i_ino ino) (pm s) = Ok (Some pi, pm s) → file_ok s D →
  i_blocks ino = load 8 (vw s) (pi + pi_i_blocks) → 0 <= start < 2 ^ 62 → 0 <= size → past_end (vw s) size →
  ∃ ino' s' D', __pmfs_truncate_blocks clwb cfg ino start size now false s = Ok (ino', s') ∧
    file_ok s' D' ∧ (∀ y, D' y → D y) ∧ trimmed s D (λ y, D y ∧ ¬ D' y) s' ∧
    i_blocks ino' = load 8 (vw s') (pi + pi_i_blocks) ∧
    ∀ k, 0 <= k → ∃ a, find_data_block_at pi k (pm s) = Ok (a, pm s) ∧
      find_data_block_at pi k (pm s') =
        Ok (if decide (start <= Z.shiftr k shift * 2 ^ (12 + shift)) then 0 else a, pm s').
Proof.
  intros Hget Hf Hib Hst Hsz Hpast.
  destruct (truncate_blocks_result s D ino start size now Hget Hf Hib Hst Hsz Hpast)
    as (ino' & s' & D' & E & [T1 T2 T3 T4] & Hb).
  exists ino', s', D'. split_and!; try done. intros k Hk.
  exists (lookup_block pi btype (vw s) k).
  split; [eapply find_data_block_at_eq; [done|apply Hf|done]|].
  rewrite (find_data_block_at_eq pi btype slots0 nslots0 Hbtype s' D' k (fo_inode _ _ T1) Hk).
  do 2 f_equal. unfold lookup_block. rewrite T4 by (apply Z.shiftr_nonneg; lia).
  pose proof (first_after_spec start (Z.shiftr k shift)) as Hiff.
  destruct (decide (first_after start <= Z.shiftr k shift)), (decide (start <= _)); (done || lia).
Qed.
End Truncate.

(** ** A concrete input *)

(** Inode 128 in block 2, with a page of pointers in block 3 and data in blocks 4
    and 5; it is cut to one block. *)
Section Demo.
Local Existing Instance bytewise_write.

Definition cut_pi : Z := 8320.
Definition cut_mem : mem :=
  write_bytes (write_bytes (write_bytes (write_bytes (write_bytes (write_bytes (write_bytes ∅
    40 (bytes_of 8 1024)) (1024 + pi_root) (bytes_of 8 8192)) (cut_pi + pi_height) (bytes_of 1 1))
    (cut_pi + pi_root) (bytes_of 8 12288)) (cut_pi + pi_i_blocks) (bytes_of 8 2))
    12288 (bytes_of 8 16384)) 12296 (bytes_of 8 20480).
Definition cut_fs : fs := Fs [BlockNode 0 5] 0 16 10 1 false 0 (Cpu cut_mem []).
Definition cut_D (y : Z) : Prop := 3 <= y <= 5.
Definition cut_file : inode := Inode 128 4096 2 0 0.

Lemma cut_ptr_zero i : 2 <= i < 512 → ptr cut_mem 12288 i = 0.
Proof.
  intros Hi. apply load_zero. intros x Hx. unfold in_range, node_ptr in Hx. unfold cut_mem.
  unfold cut_pi, pi_root, pi_height, pi_i_blocks.
  rewrite !write_bytes_out; [done|..]; rewrite length_bytes_of; unfold in_range; lia.
Qed.

Lemma cut_ptrs : ptr cut_mem 12288 0 = 16384 ∧ ptr cut_mem 12288 1 = 20480.
Proof. by split; vm_compute. Qed.

Lemma cut_tree : tree cut_mem 1 1 12288 cut_D.
Proof.
  destruct cut_ptrs as [E0 E1].
  exists 3, (λ i y, (i = 0 ∧ y = 4) ∨ (i = 1 ∧ y = 5)). split; [lia|lia|..].
  - intros i Hi. destruct (decide (i = 0)) as [->|H0]; [right|destruct (decide (i = 1)) as [->|H1]; [right|left]].
    + rewrite E0. exists 4. split_and!; [lia|lia|by exists 4|]. intros y. lia.
    + rewrite E1. exists 5. split_and!; [lia|lia|by exists 5|]. intros y. lia.
    + split; [apply cut_ptr_zero; lia|]. intros y. lia.
  - intros i j y _ _. lia.
  - intros i y _. lia.
  - intros y. unfold cut_D. split.
    + intros Hy. destruct (decide (y = 3)); [by left|right]. destruct (decide (y = 4)); [exists 0|exists 1]; lia.
    + intros [?|(i & _ & ?)]; lia.
Qed.

Lemma cut_fields : i_height cut_pi cut_mem = 1%nat ∧ i_root cut_pi cut_mem = 12288 ∧
  load 8 cut_mem (cut_pi + pi_i_blocks) = 2 ∧ load 4 cut_mem (cut_pi + pi_i_flags) = 0 ∧
  load 1 cut_mem (cut_pi + pi_i_blk_type) = 0 ∧ count cut_mem 1 12288 = 2.
Proof. split_and!; vm_compute; done. Qed.

Lemma cut_fs_wf : wf cut_fs.
Proof. split; cbn; lia || done. Qed.

Lemma cut_is_ok : file_ok cut_pi 0 0 0 cut_fs cut_D.
Proof.
  destruct cut_fields as (Eh & Er & Eb & _ & Ety & Ec). destruct cut_ptrs as [E0 _].
  split; change (vw cut_fs) with cut_mem; rewrite ?Eh, ?Er, ?Eb.
  - split; change (vw cut_fs) with cut_mem; rewrite ?Eh, ?Er; [|lia|right; exact cut_tree]. split.
    + exact cut_fs_wf.
    + intros y Hy. apply in_use_cons. left. unfold cut_D in Hy. cbn. lia.
    + intros x [Hx|Hx]; [unfold in_slots, in_range in Hx; lia|].
      assert (E : blk x = 2).
      { symmetry. apply (Z.div_unique x 4096 2 (x - 8192)); unfold in_range, cut_pi, sizeof_pmfs_inode in Hx; lia. }
      rewrite E. split; [apply in_use_cons; left; cbn; lia|unfold cut_D; lia].
    + exact Ety.
  - intros _. split; [|done]. exists 0. rewrite E0. lia.
  - unfold count_at. change (12288 =? 0) with false. cbv iota. by rewrite Ec.
  - lia.
Qed.

Lemma cut_past_end : past_end cut_pi 0 cut_mem 8192.
Proof.
  intros _ k Hk Hne. destruct cut_fields as (Eh & Er & _). change (12 + blk_shift 0) with 12.
  unfold file_block, block_at in Hne. rewrite Eh, Er in Hne. case_decide as Hs; [|done]. change (span 1) with 512 in Hs.
  destruct (Z.lt_ge_cases k 2) as [|Hge]; [lia|]. exfalso. apply Hne. cbn [find]. change (span 0) with 1.
  by rewrite Z.div_1_r, cut_ptr_zero by lia.
Qed.

Lemma pmfs_truncate_blocks_correct_witness :
  ∃ ino' s' D', __pmfs_truncate_blocks true small_cfg cut_file 4096 8192 77 false cut_fs = Ok (ino', s') ∧
    file_ok cut_pi 0 0 0 s' D' ∧ (∀ y, D' y → cut_D y) ∧ trimmed cut_pi cut_fs cut_D (λ y, cut_D y ∧ ¬ D' y) s' ∧
    i_blocks ino' = load 8 (vw s') (cut_pi + pi_i_blocks) ∧
    ∀ k, 0 <= k → ∃ a, find_data_block_at cut_pi k (pm cut_fs) = Ok (a, pm cut_fs) ∧
      find_data_block_at cut_pi k (pm s') =
        Ok (if decide (4096 <= Z.shiftr k (blk_shift 0) * 2 ^ (12 + blk_shift 0)) then 0 else a, pm s').
Proof.
  apply (pmfs_truncate_blocks_correct true small_cfg cut_pi 0 0 0);
    [lia|intros x _ Hx; unfold in_slots, in_range in Hx; lia|done|vm_compute; done|exact cut_is_ok
    |symmetry; exact (proj1 (proj2 (proj2 cut_fields)))|lia|lia|exact cut_past_end].
Defined.

(** An allocation that ran out of space left an empty page behind the first of
    two levels: shortening the file to an end behind that page hits the
    [BUG_ON]. *)
Definition hollow_mem : mem :=
  write_bytes (write_bytes (write_bytes (write_bytes (write_bytes (write_bytes ∅
    40 (bytes_of 8 1024)) (1024 + pi_root) (bytes_of 8 8192)) (cut_pi + pi_height) (bytes_of 1 2))
    (cut_pi + PmfsTree.pi_i_flags) (bytes_of 4 PMFS_EOFBLOCKS_FL)) (cut_pi + pi_root) (bytes_of 8 12288))
    (12288 + 8) (bytes_of 8 16384).
Definition hollow_fs : fs := Fs [BlockNode 0 4] 0 16 11 1 false 0 (Cpu hollow_mem []).

Lemma hollow_page_bug :
  __pmfs_truncate_blocks true small_cfg (Inode 128 4194304 0 0 0) 4194304 8388608 77 false hollow_fs = Bug.
Proof. vm_compute. done. Qed.
End Demo.
