(* ===== verification/PmfsBuild.v ===== *)
(** * PMFS: rebuilding the allocator at mount

    [bbuild.c].  After a clean unmount the ranges in use are read back from the
    blocks of a special inode; after a crash the inode table and the block tree
    of every inode in it are walked, and every block found is marked in a
    bitmap.  [super] is what the file system keeps in DRAM: the allocator, the
    journal's part and the inode counters. *)

From stdpp Require Import base list gmap.
From Stdlib Require Import ZArith Lia.
From coqutil Require Import Byte.
From S2P Require Import Prelude PMem NovaBase PmfsJournal PmfsBalloc PmfsTree.

Local Open Scope Z_scope.

(** ** Data *)

Record super := Super {
  sfs : fs;
  jsbi : pmfs_sb_info;
  s_inodes_count : Z;
  s_free_inodes_count : Z;
  s_inodes_used_count : Z;
  s_free_inode_hint : Z
}.
Abbreviation SM := (M super).

Definition set_fs (s : super) (f : fs) : super :=
  Super f (jsbi s) (s_inodes_count s) (s_free_inodes_count s) (s_inodes_used_count s) (s_free_inode_hint s).
Definition set_journal (s : super) (j : pmfs_sb_info) : super :=
  Super (sfs s) j (s_inodes_count s) (s_free_inodes_count s) (s_inodes_used_count s) (s_free_inode_hint s).
Definition set_counts (s : super) (count free used hint : Z) : super :=
  Super (sfs s) (jsbi s) count free used hint.

Definition on_fs {A} (m : FM A) : SM A := λ s,
  match m (sfs s) with
  | Ok (a, f) => Ok (a, set_fs s f)
  | Bug => Bug
  | OutOfFuel => OutOfFuel
  end.
Definition on_mem {A} (m : PM A) : SM A := on_fs (lift m).

(** Code of the journal, which may change its part. *)
Definition on_journal {A} (m : pmfs_sb_info → PM (A * pmfs_sb_info)) : SM A :=
  j ← gets jsbi;
  '(a, j) ← on_mem (m j);
  modify (λ s, set_journal s j);;
  mret a.

(** [struct pmfs_super_block] and [struct pmfs_inode]: more field offsets. *)
Definition sb_s_size : Z := 8.
Definition sb_s_wtime : Z := 60.
Definition sb_num_blocknode_allocated : Z := 64.
Definition sb_num_free_blocks : Z := 72.
Definition sb_inodes_count : Z := 80.
Definition sb_free_inodes_count : Z := 84.
Definition sb_inodes_used_count : Z := 88.
Definition sb_free_inode_hint : Z := 92.
Definition PMFS_FAST_MOUNT_FIELD_SIZE : Z := 36.
Definition pi_i_dtime : Z := 32.
Definition pi_i_mode : Z := 36.
Definition pi_i_links_count : Z := 38.
Definition PMFS_INODE_SIZE : Z := 128.
Definition PMFS_INODE_BITS : Z := 7.
Definition PMFS_BLOCKNODE_IN0 : Z := 256.
Definition PMFS_FREE_INODE_HINT_START : Z := 3.
Definition MAX_INODE_LENTRIES : Z := 2.
Definition MAX_SB_LENTRIES : Z := 2.
Definition MAX_DATA_PER_LENTRY : Z := 48.

(** [INODES_PER_BLOCK] *)
Definition inodes_per_block (btype : Z) : PM Z :=
  shift ← blk_type_to_shift btype;
  mret (Z.shiftl 1 (shift - PMFS_INODE_BITS)).

(** ** Marking blocks *)

(** [set_bit]: a bit behind the [size] bytes of the map is a store out of
    bounds. *)
Definition set_bit (k size : Z) (bits : gset Z) : PM (gset Z) :=
  if k <? size * 8 then mret ({[k]} ∪ bits) else bug.
Definition mark_4k (k : Z) (bm : scan_bitmap) : PM scan_bitmap :=
  b ← set_bit k (bitmap_4k_size bm) (bitmap_4k bm);
  mret (ScanBitmap (bitmap_4k_size bm) (bitmap_2M_size bm) (bitmap_1G_size bm) b (bitmap_2M bm) (bitmap_1G bm)).
Definition mark_2M (k : Z) (bm : scan_bitmap) : PM scan_bitmap :=
  b ← set_bit k (bitmap_2M_size bm) (bitmap_2M bm);
  mret (ScanBitmap (bitmap_4k_size bm) (bitmap_2M_size bm) (bitmap_1G_size bm) (bitmap_4k bm) b (bitmap_1G bm)).
Definition mark_1G (k : Z) (bm : scan_bitmap) : PM scan_bitmap :=
  b ← set_bit k (bitmap_1G_size bm) (bitmap_1G bm);
  mret (ScanBitmap (bitmap_4k_size bm) (bitmap_2M_size bm) (bitmap_1G_size bm) (bitmap_4k bm) (bitmap_2M bm) b).

(** The loop over the pointers of a page that are not null. *)
Fixpoint crawl_loop {A} (rec : Z → A → PM A) (n : nat) (node i : Z) (a : A) : PM A :=
  match n with
  | O => mret a
  | S n =>
      p ← fetch 8 (node_ptr node i);
      a ← (if p =? 0 then mret a else rec p a);
      crawl_loop rec n node (i + 1) a
  end.

Fixpoint pmfs_inode_crawl_recursive (height : nat) (block btype : Z) (bm : scan_bitmap)
  : PM scan_bitmap :=
  match height with
  | O =>
      if btype =? PMFS_BLOCK_TYPE_4K then mark_4k (Z.shiftr block PAGE_SHIFT) bm
      else if btype =? PMFS_BLOCK_TYPE_2M then mark_2M (Z.shiftr block PAGE_SHIFT_2M) bm
      else mark_1G (Z.shiftr block PAGE_SHIFT_1G) bm
  | S h =>
      node ← deref (pmfs_get_block block);
      bm ← mark_4k (Z.shiftr block PAGE_SHIFT) bm;
      crawl_loop (λ p bm, pmfs_inode_crawl_recursive h p btype bm) 512 node 0 bm
  end.

Definition pmfs_inode_crawl (pi : Z) (bm : scan_bitmap) : PM scan_bitmap :=
  root ← fetch 8 (pi + pi_root);
  if root =? 0 then mret bm else
  height ← fetch 1 (pi + pi_height);
  btype ← fetch 1 (pi + pi_i_blk_type);
  pmfs_inode_crawl_recursive (Z.to_nat height) root btype bm.

(** The bitmaps, [sbi->s_inodes_count] and [sbi->s_inodes_used_count]. *)
Record scan := Scan { sc_bm : scan_bitmap; sc_count : Z; sc_used : Z }.

(** [links == 0 && (mode == 0 || dtime)] *)
Definition inode_is_free (pi : Z) : PM bool :=
  links ← fetch 2 (pi + pi_i_links_count);
  mode ← fetch 2 (pi + pi_i_mode);
  dtime ← fetch 4 (pi + pi_i_dtime);
  mret ((links =? 0) && ((mode =? 0) || negb (dtime =? 0))).

(** The inodes of one block of the table, [n] of them from [pi] on. *)
Fixpoint crawl_inodes (n : nat) (pi : Z) (sc : scan) : PM scan :=
  match n with
  | O => mret sc
  | S n =>
      empty ← inode_is_free pi;
      sc ← (if (empty : bool) then mret sc else
            bm ← pmfs_inode_crawl pi (sc_bm sc);
            mret (Scan bm (sc_count sc) (u32 (sc_used sc + 1))));
      crawl_inodes n (pi + PMFS_INODE_SIZE) sc
  end.

Fixpoint pmfs_inode_table_crawl_recursive (height : nat) (block btype : Z) (sc : scan) : PM scan :=
  node ← deref (pmfs_get_block block);
  match height with
  | O =>
      k ← inodes_per_block btype;
      bm ← (if btype =? PMFS_BLOCK_TYPE_2M then mark_2M (Z.shiftr block PAGE_SHIFT_2M) (sc_bm sc)
            else mark_4k (Z.shiftr block PAGE_SHIFT) (sc_bm sc));
      crawl_inodes (Z.to_nat k) node (Scan bm (u32 (sc_count sc + k)) (sc_used sc))
  | S h =>
      bm ← mark_4k (Z.shiftr block PAGE_SHIFT) (sc_bm sc);
      crawl_loop (λ p sc, pmfs_inode_table_crawl_recursive h p btype sc) 512 node 0
        (Scan bm (sc_count sc) (sc_used sc))
  end.

Section Build.
Context `{CachedWrite, BitSearch}.
Variables (clwb : bool) (cfg : fs_cfg).
(** The slab cache's answer for a transaction. *)
Variable new_trans : option Z.

(** [pmfs_add_logentry], whose result the callers drop. *)
Definition log_range (trans : option pmfs_transaction) (addr size : Z) : SM (option pmfs_transaction) :=
  j ← gets jsbi;
  '(_, trans) ← on_mem (pmfs_add_logentry clwb j trans addr size LE_DATA);
  mret trans.

(** [pmfs_new_transaction]; [None] is an error pointer. *)
Definition begin_transaction (max_log_entries : Z) : SM (option pmfs_transaction) :=
  r ← on_journal (λ j, pmfs_new_transaction clwb 2 j new_trans max_log_entries);
  mret (match r with inl _ => None | inr t => Some t end).

(** [memset(pi, 0, n)] and the write-back. *)
Definition clear_bytes (pi n : Z) : PM () :=
  emits (cached_events pi (repeat_bytes (Z.to_nat n) [Byte.x00]));;
  pmfs_flush_buffer clwb pi n false.

Definition pmfs_clear_datablock_inode : SM () :=
  p ← on_mem (pmfs_get_inode PMFS_BLOCKNODE_IN0);
  r ← begin_transaction MAX_INODE_LENTRIES;
  match r with
  | None => mret ()
  | Some _ =>
      pi ← on_mem (deref p);
      trans ← log_range r pi MAX_DATA_PER_LENTRY;
      on_mem (clear_bytes pi MAX_DATA_PER_LENTRY);;
      _ ← on_journal (λ j, pmfs_commit_transaction clwb j trans);
      mret ()
  end.

(** ** After a clean unmount *)

(** [n] ranges from number [i] on; [p] is the block they are in. *)
Fixpoint ranges_from_inode (n : nat) (pi i : Z) (p : option Z) : FM () :=
  match n with
  | O => mret ()
  | S n =>
      let index := Z.land i 0xFF in
      p ← (if index =? 0 then
             bp ← lift (__pmfs_find_data_block pi (Z.shiftr i 8));
             mret (pmfs_get_block bp)
           else mret p);
      (* PMFS_ASSERT only prints *)
      ok ← pmfs_alloc_blocknode cfg;
      bug_on (negb ok);;
      a ← lift (deref p);
      low ← lift (fetch 8 (a + 16 * index));
      high ← lift (fetch 8 (a + 16 * index + 8));
      modify (λ s, set_inuse s (block_inuse_head s ++ [BlockNode low high]));;
      ranges_from_inode n pi (i + 1) p
  end.

Definition pmfs_init_blockmap_from_inode : FM () :=
  p ← lift (pmfs_get_inode PMFS_BLOCKNODE_IN0);
  num_blocknode ← gets num_blocknode_allocated;
  modify (λ s, set_num_nodes s 0);;
  if num_blocknode =? 0 then mret () else
  pi ← lift (deref p);
  ranges_from_inode (Z.to_nat num_blocknode) pi 0 None.

Definition pmfs_can_skip_full_scan : SM bool :=
  p ← on_mem (pmfs_get_inode PMFS_BLOCKNODE_IN0);
  pi ← on_mem (deref p);
  root ← on_mem (fetch 8 (pi + pi_root));
  if root =? 0 then mret false else
  nodes ← on_mem (fetch 8 sb_num_blocknode_allocated);
  free ← on_mem (fetch 8 sb_num_free_blocks);
  on_fs (modify (λ s, set_num_free (set_num_nodes s nodes) free));;
  count ← on_mem (fetch 4 sb_inodes_count);
  ifree ← on_mem (fetch 4 sb_free_inodes_count);
  iused ← on_mem (fetch 4 sb_inodes_used_count);
  hint ← on_mem (fetch 4 sb_free_inode_hint);
  modify (λ s, set_counts s count ifree iused hint);;
  on_fs pmfs_init_blockmap_from_inode;;
  root ← on_mem (fetch 8 (pi + pi_root));
  height ← on_mem (fetch 1 (pi + pi_height));
  btype ← on_mem (fetch 1 (pi + pi_i_blk_type));
  size ← on_mem (fetch 8 (pi + pi_i_size));
  shift ← on_mem (pmfs_inode_blk_shift pi);
  let last_blocknr := Z.shiftr (u64 (size - 1)) shift in
  pmfs_clear_datablock_inode;;
  _ ← on_fs (pmfs_free_inode_subtree clwb cfg root height btype last_blocknr);
  mret true.

(** ** At unmount *)

Definition pmfs_allocate_datablock_block_inode (trans : option pmfs_transaction) (pi num_blocks : Z)
  : SM (Z * option pmfs_transaction) :=
  on_mem (store 2 (pi + pi_i_mode) 0;;
          store 2 (pi + pi_i_links_count) 1;;
          store 1 (pi + pi_i_blk_type) PMFS_BLOCK_TYPE_4K;;
          store 4 (pi + PmfsTree.pi_i_flags) 0;;
          store 1 (pi + pi_height) 0;;
          store 4 (pi + pi_i_dtime) 0;;
          store 8 (pi + pi_i_size) (u64 (Z.shiftl num_blocks s_blocksize_bits));;
          pmfs_flush_buffer clwb pi sizeof_pmfs_inode false);;
  j ← gets jsbi;
  on_fs (__pmfs_alloc_blocks clwb cfg j trans pi 0 (u32 num_blocks) false).

(** [k] counts the ranges, [j] those in the block [p]. *)
Fixpoint save_ranges (l : list pmfs_blocknode) (pi : Z) (p : option Z) (j k : Z) : FM (option Z * Z) :=
  match l with
  | [] => mret (p, j)
  | n :: l =>
      p ← (if j =? 0 then
             bp ← lift (__pmfs_find_data_block pi (Z.shiftr k 8));
             mret (pmfs_get_block bp)
           else mret p);
      a ← lift (deref p);
      lift (store 8 (a + 16 * j) (block_low n);;
            store 8 (a + 16 * j + 8) (block_high n));;
      let j := j + 1 in
      if j =? 256 then
        lift (pmfs_flush_buffer clwb a 4096 false);;
        save_ranges l pi p 0 (k + 1)
      else save_ranges l pi p j (k + 1)
  end.

(** [now] is [get_seconds()]. *)
Definition pmfs_save_blocknode_mappings (now : Z) : SM () :=
  p ← on_mem (pmfs_get_inode PMFS_BLOCKNODE_IN0);
  nodes ← gets (λ s, num_blocknode_allocated (sfs s));
  let num_blocks := Z.shiftr (u64 (nodes * 16 - 1)) s_blocksize_bits + 1 in
  r ← begin_transaction (MAX_INODE_LENTRIES + MAX_SB_LENTRIES);
  match r with
  | None => mret ()
  | Some _ =>
      pi ← on_mem (deref p);
      trans ← log_range r pi MAX_DATA_PER_LENTRY;
      '(errval, trans) ← pmfs_allocate_datablock_block_inode trans pi num_blocks;
      if negb (errval =? 0) then
        _ ← on_journal (λ j, pmfs_abort_transaction clwb j trans);
        mret ()
      else
        head ← gets (λ s, block_inuse_head (sfs s));
        '(p, j) ← on_fs (save_ranges head pi None 0 0);
        when (negb (j =? 0)) (on_mem (a ← deref p; pmfs_flush_buffer clwb a (Z.shiftl j 4) false));;
        trans ← log_range trans sb_s_wtime PMFS_FAST_MOUNT_FIELD_SIZE;
        s ← get;
        on_mem (store 4 sb_s_wtime (u32 now);;
                store 8 sb_num_blocknode_allocated (num_blocknode_allocated (sfs s));;
                store 8 sb_num_free_blocks (num_free_blocks (sfs s));;
                store 4 sb_inodes_count (s_inodes_count s);;
                store 4 sb_free_inodes_count (s_free_inodes_count s);;
                store 4 sb_inodes_used_count (s_inodes_used_count s);;
                store 4 sb_free_inode_hint (s_free_inode_hint s));;
        _ ← on_journal (λ j, pmfs_commit_transaction clwb j trans);
        mret ()
  end.

(** ** At mount *)

(** The walk after a crash, from [Performing failure recovery] to [skip]. *)
Definition full_scan (kzalloc_ok : bool) (initsize pi : Z) : SM () :=
  let bm := ScanBitmap (Z.shiftr initsize (PAGE_SHIFT + 3) + 1) (Z.shiftr initsize (PAGE_SHIFT_2M + 3) + 1)
              (Z.shiftr initsize (PAGE_SHIFT_1G + 3) + 1) ∅ ∅ ∅ in
  if negb kzalloc_ok then mret () else
  pmfs_clear_datablock_inode;;
  root ← on_mem (fetch 8 (pi + pi_root));
  height ← on_mem (fetch 1 (pi + pi_height));
  btype ← on_mem (fetch 1 (pi + pi_i_blk_type));
  s ← get;
  sc ← on_mem (pmfs_inode_table_crawl_recursive (Z.to_nat height) root btype
                 (Scan bm (s_inodes_count s) (s_inodes_used_count s)));
  modify (λ s, set_counts s (sc_count sc) (u32 (sc_count sc - u32 (sc_used sc + 2))) (sc_used sc)
                 PMFS_FREE_INODE_HINT_START);;
  on_fs (modify (λ s, set_num_free s (Z.shiftr initsize PAGE_SHIFT)));;
  journal ← on_mem pmfs_get_journal;
  base ← on_mem (fetch 8 (journal + j_base));
  j ← gets jsbi;
  on_fs (pmfs_init_blockmap cfg (u64 (base + jsize j)));;
  on_fs (pmfs_build_blocknode_map cfg (sc_bm sc)).

Definition pmfs_setup_blocknode_map (kzalloc_ok : bool) : SM Z :=
  initsize ← on_mem (fetch 8 sb_s_size);
  pi ← on_mem pmfs_get_inode_table;
  on_fs (modify (λ s, Fs (block_inuse_head s) 0 (Z.shiftr initsize PAGE_SHIFT) (num_free_blocks s)
                        (num_blocknode_allocated s) (rdonly s) (slab_calls s) (pm s)));;
  value ← pmfs_can_skip_full_scan;
  (if (value : bool) then mret () else full_scan kzalloc_ok initsize pi);;
  mret 0.
End Build.
