(* ===== verification/PmfsBuildProofs.v ===== *)
(** * PMFS: the walk over the inode table

    [marks e bm P]: the bitmaps mark exactly the blocks of [P], none twice, all
    below [e].  Walking a tree adds its blocks. *)

From stdpp Require Import base list gmap.
From Stdlib Require Import ZArith Lia.
From coqutil Require Import Byte.
From S2P Require Import Prelude PMem NovaBase PmfsJournal PmfsBalloc PmfsBallocProofs PmfsBallocMain.
From S2P Require Import PmfsTree PmfsTreeProofs PmfsTreeAlloc PmfsTreeMain PmfsBuild.

Local Open Scope Z_scope.

(** ** Marked blocks *)

Record marks (e : Z) (bm : scan_bitmap) (P : Z → Prop) : Prop := {
  mk_bits : bits_ok bm;
  mk_covered y : covered bm y ↔ P y;
  mk_room : e <= bitmap_4k_size bm * 8 ∧ e < bitmap_2M_size bm * 8 * 512 ∧
            e < bitmap_1G_size bm * 8 * 2 ^ 18
}.

Lemma marks_ext e bm P P' : marks e bm P → (∀ y, P y ↔ P' y) → marks e bm P'.
Proof. intros [H1 H2 H3] E. split; [done| |done]. intros y. by rewrite H2. Qed.

Lemma marked_insert k bits scale y :
  0 <= scale → 1 <= k →
  marked_from ({[k]} ∪ bits) scale 1 y ↔
  marked_from bits scale 1 y ∨ k * 2 ^ scale <= y < k * 2 ^ scale + 2 ^ scale.
Proof.
  intros Hs Hk. unfold marked_from, marked. rewrite elem_of_union, elem_of_singleton.
  pose proof (shiftr_bounds y scale k Hs) as Hb. rewrite !Z.shiftl_mul_pow2 in Hb by done.
  replace ((k + 1) * 2 ^ scale) with (k * 2 ^ scale + 2 ^ scale) in Hb by lia. rewrite <- Hb.
  intuition lia.
Qed.

Section Mark.
Variables (e : Z) (bm : scan_bitmap) (P : Z → Prop) (b : Z).
Hypothesis Hm : marks e bm P.
Hypothesis Hb : 0 < b.

Lemma mark_4k_run c :
  ¬ P b → b < e → ∃ bm', mark_4k b bm c = Ok (bm', c) ∧ marks e bm' (λ y, P y ∨ b <= y < b + 1).
Proof using All.
  intros Hn He. destruct Hm as [[B1 B2 B3 B4 B5 B6 B7] Hc (R1 & R2 & R3)].
  unfold mark_4k, set_bit. destruct (Z.ltb_spec b (bitmap_4k_size bm * 8)); [|lia].
  eexists. split; [reflexivity|].
  assert (Hin : ∀ y, marked_from ({[b]} ∪ bitmap_4k bm) 0 1 y ↔ in_4k bm y ∨ y = b).
  { intros y. rewrite marked_insert by lia. change (2 ^ 0) with 1. unfold in_4k. intuition lia. }
  assert (Hnb : ¬ in_2M bm b ∧ ¬ in_1G bm b).
  { split; intros ?; apply Hn, Hc; [right; by left|by right; right]. }
  split; [split|..]; unfold in_4k, in_2M, in_1G; simpl; try done.
  - intros k [->%elem_of_singleton|?]%elem_of_union; [done|auto].
  - intros y [Hy|Hy]%Hin; [by apply B5|rewrite Hy; apply Hnb].
  - intros y [Hy|Hy]%Hin; [by apply B6|rewrite Hy; apply Hnb].
  - intros y. rewrite <- Hc. unfold covered, in_2M, in_1G. simpl. unfold in_4k at 1. simpl. rewrite Hin.
    intuition lia.
Qed.

Lemma mark_2M_run c :
  (512 | b) → (∀ y, b <= y < b + 512 → ¬ P y) → b < e →
  ∃ bm', mark_2M (Z.shiftr b 9) bm c = Ok (bm', c) ∧ marks e bm' (λ y, P y ∨ b <= y < b + 512).
Proof using All.
  intros [k ->] Hn He. destruct Hm as [[B1 B2 B3 B4 B5 B6 B7] Hc (R1 & R2 & R3)].
  rewrite Z.shiftr_div_pow2 by lia. change (2 ^ 9) with 512. rewrite Z.div_mul by lia.
  unfold mark_2M, set_bit. destruct (Z.ltb_spec k (bitmap_2M_size bm * 8)); [|lia].
  eexists. split; [reflexivity|].
  assert (Hin : ∀ y, marked_from ({[k]} ∪ bitmap_2M bm) 9 1 y ↔ in_2M bm y ∨ k * 512 <= y < k * 512 + 512).
  { intros y. by rewrite marked_insert by lia. }
  split; [split|..]; unfold in_4k, in_2M, in_1G; simpl; try done.
  - intros j [->%elem_of_singleton|?]%elem_of_union; [done|auto].
  - intros y H4 [Hy|Hy]%Hin; [by apply (B5 y)|]. apply (Hn y Hy), Hc. by left.
  - intros y [Hy|Hy]%Hin; [by apply B7|]. intros H1. apply (Hn y Hy), Hc. by right; right.
  - intros y. rewrite <- Hc. unfold covered, in_4k, in_1G. simpl. unfold in_2M at 1. simpl. rewrite Hin. tauto.
Qed.

Lemma mark_1G_run c :
  (2 ^ 18 | b) → (∀ y, b <= y < b + 2 ^ 18 → ¬ P y) → b < e →
  ∃ bm', mark_1G (Z.shiftr b 18) bm c = Ok (bm', c) ∧ marks e bm' (λ y, P y ∨ b <= y < b + 2 ^ 18).
Proof using All.
  intros [k ->] Hn He. destruct Hm as [[B1 B2 B3 B4 B5 B6 B7] Hc (R1 & R2 & R3)].
  rewrite Z.shiftr_div_pow2, Z.div_mul by lia.
  unfold mark_1G, set_bit. destruct (Z.ltb_spec k (bitmap_1G_size bm * 8)); [|nia].
  eexists. split; [reflexivity|].
  assert (Hin : ∀ y, marked_from ({[k]} ∪ bitmap_1G bm) 18 1 y ↔
                     in_1G bm y ∨ k * 2 ^ 18 <= y < k * 2 ^ 18 + 2 ^ 18).
  { intros y. by rewrite marked_insert by lia. }
  split; [split|..]; unfold in_4k, in_2M, in_1G; simpl; try done.
  - intros j [->%elem_of_singleton|?]%elem_of_union; [done|auto].
  - intros y H4 [Hy|Hy]%Hin; [by apply (B6 y)|]. apply (Hn y Hy), Hc. by left.
  - intros y H4 [Hy|Hy]%Hin; [by apply (B7 y)|]. apply (Hn y Hy), Hc. right. by left.
  - intros y. rewrite <- Hc. unfold covered, in_4k, in_2M. simpl. unfold in_1G at 1. simpl. rewrite Hin. tauto.
Qed.
End Mark.

(** ** Walking a tree *)

(** A loop over the children of a page keeps [I]. *)
Lemma crawl_loop_ind {A} (rec : Z → A → PM A) (I : Z → A → Prop) m p c :
  view c = m →
  (∀ i a, 0 <= i < 512 → I i a → ptr m p i = 0 → I (i + 1) a) →
  (∀ i a, 0 <= i < 512 → I i a → ptr m p i ≠ 0 →
     ∃ a', rec (ptr m p i) a c = Ok (a', c) ∧ I (i + 1) a') →
  ∀ a, I 0 a → ∃ a', crawl_loop rec 512 p 0 a c = Ok (a', c) ∧ I 512 a'.
Proof.
  intros Hc Hz Hr.
  assert (Hl : ∀ n i a, 0 <= i → i + Z.of_nat n = 512 → I i a →
    ∃ a', crawl_loop rec n p i a c = Ok (a', c) ∧ I 512 a').
  { induction n as [|n IH]; intros i a Hi Hn Ha.
    { exists a. replace 512 with i by lia. done. }
    cbn [crawl_loop]. rewrite (bind_Ok _ _ _ _ _ (fetch_eq 8 _ c)), Hc. fold (ptr m p i).
    destruct (Z.eqb_spec (ptr m p i) 0) as [E|E].
    - rewrite (bind_Ok (mret a) _ c a c) by done. apply IH; [lia..|].
      apply Hz; [lia|done..].
    - destruct (Hr i a ltac:(lia) Ha E) as (a' & E' & Ha'). rewrite (bind_Ok _ _ _ _ _ E').
      apply IH; [lia..|done]. }
  intros a Ha. by apply (Hl 512%nat 0 a).
Qed.

(** The blocks of the children before [i]. *)
Definition before (C : Z → Z → Prop) (i y : Z) : Prop := ∃ j, 0 <= j < i ∧ C j y.

Lemma before_0 C y : before C 0 y ↔ False.
Proof. unfold before. split; [|done]. intros (j & ? & _). lia. Qed.
Lemma before_S C i y : 0 <= i → before C (i + 1) y ↔ before C i y ∨ C i y.
Proof.
  intros Hi. unfold before. split.
  - intros (j & Hj & Hc). destruct (decide (j = i)) as [->|]; [by right|]. left. exists j. split; [lia|done].
  - intros [(j & Hj & Hc)|Hc]; [exists j; split; [lia|done]|]. exists i. split; [lia|done].
Qed.

Section Crawl.
Variables (m : mem) (c : cpu) (e : Z).
Hypothesis Hc : view c = m.

(** The page's block is 4 KB. *)
Lemma mark_page b bm P :
  marks e bm P → 0 < b → ¬ P b → b < e →
  ∃ bm', mark_4k (Z.shiftr (4096 * b) PAGE_SHIFT) bm c = Ok (bm', c) ∧ marks e bm' (λ y, P y ∨ y = b).
Proof.
  intros Hm Hb Hn He. unfold PAGE_SHIFT. rewrite Z.shiftr_div_pow2 by lia. change (2 ^ 12) with 4096.
  rewrite Z.mul_comm, Z.div_mul by lia.
  destruct (mark_4k_run e bm P b Hm Hb c Hn He) as (bm' & E & Hm'). exists bm'. split; [done|].
  eapply marks_ext; [exact Hm'|]. intros y. simpl. intuition lia.
Qed.

Lemma crawl_data btype b bm P :
  0 <= btype <= 2 → marks e bm P → 0 < b → (pmfs_get_numblocks btype | b) →
  (∀ y, b <= y < b + pmfs_get_numblocks btype → ¬ P y ∧ y < e) →
  ∃ bm', pmfs_inode_crawl_recursive 0 (4096 * b) btype bm c = Ok (bm', c) ∧
    marks e bm' (λ y, P y ∨ b <= y < b + pmfs_get_numblocks btype).
Proof.
  intros Ht Hm Hb Ha Hd. cbn [pmfs_inode_crawl_recursive].
  assert (Hsh : ∀ k, 0 <= k → Z.shiftr (4096 * b) (12 + k) = Z.shiftr b k).
  { intros k Hk. rewrite !Z.shiftr_div_pow2, Z.pow_add_r by lia. change (2 ^ 12) with 4096.
    rewrite Z.div_mul_cancel_l; [done| |lia]. apply Z.pow_nonzero; lia. }
  unfold PMFS_BLOCK_TYPE_4K, PMFS_BLOCK_TYPE_2M, PAGE_SHIFT, PAGE_SHIFT_2M, PAGE_SHIFT_1G.
  assert (btype = 0 ∨ btype = 1 ∨ btype = 2) as [-> | [-> | ->]] by lia; simpl Z.eqb; cbv iota;
    unfold pmfs_get_numblocks, PMFS_BLOCK_TYPE_4K, PMFS_BLOCK_TYPE_2M in *; simpl Z.eqb in *; cbv iota in *.
  - rewrite (Hsh 0 ltac:(lia) : Z.shiftr _ 12 = _), Z.shiftr_0_r. apply (mark_4k_run e bm P b Hm Hb c); apply Hd; lia.
  - rewrite (Hsh 9 ltac:(lia) : Z.shiftr _ 21 = _). apply (mark_2M_run e bm P b Hm Hb c Ha); [|apply Hd; lia]. intros y Hy. by apply Hd.
  - rewrite (Hsh 18 ltac:(lia) : Z.shiftr _ 30 = _). apply (mark_1G_run e bm P b Hm Hb c Ha); [|apply Hd; lia]. intros y Hy. by apply Hd.
Qed.

Lemma crawl_tree btype h : 0 <= btype <= 2 → ∀ p D bm P,
  tree m (pmfs_get_numblocks btype) h p D → marks e bm P → (∀ y, D y → ¬ P y ∧ y < e) →
  ∃ bm', pmfs_inode_crawl_recursive h p btype bm c = Ok (bm', c) ∧ marks e bm' (λ y, P y ∨ D y).
Proof using Hc.
  intros Ht. induction h as [|h IH]; intros p D bm P Htree Hm Hd.
  - destruct Htree as (b & Hb & -> & Ha & HD).
    destruct (crawl_data btype b bm P Ht Hm Hb Ha) as (bm' & E & Hm'); [intros y Hy; by apply Hd, HD|].
    exists bm'. split; [done|]. eapply marks_ext; [exact Hm'|]. intros y. simpl. by rewrite HD.
  - destruct Htree as (b & C & Hnode). pose proof Hnode as [H1 H2 H3 H4 H5 H6]. subst p.
    cbn [pmfs_inode_crawl_recursive]. rewrite (bind_Ok _ _ _ _ _ (deref_get_block (4096 * b) c ltac:(lia))).
    destruct (Hd b) as [Hpb Hbe]; [apply H6; by left|].
    destruct (mark_page b bm P Hm H1 Hpb Hbe) as (bm1 & E1 & Hm1). rewrite (bind_Ok _ _ _ _ _ E1).
    destruct (crawl_loop_ind (λ p bm, pmfs_inode_crawl_recursive h p btype bm)
      (λ i bm, marks e bm (λ y, (P y ∨ y = b) ∨ before C i y)) m (4096 * b) c Hc) with (a := bm1)
      as (bm2 & E2 & Hm2).
    + intros i a Hi Hma Hz. eapply marks_ext; [exact Hma|]. intros y. simpl. rewrite before_S by lia.
      destruct (H3 i Hi) as [[_ Hn]|Hct]; [specialize (Hn y); tauto|].
      assert (Hne : 1 <= pmfs_get_numblocks btype) by apply (pow2_pos _ (numblocks_pow2 btype)).
      by destruct (tree_nonzero _ Hne _ _ _ _ Hct).
    + intros i a Hi Hma Hnz. destruct (H3 i Hi) as [[? _]|Hct]; [done|].
      destruct (IH _ (C i) a _ Hct Hma) as (a' & E' & Hm').
      { intros y Hy. destruct (Hd y) as [? ?]; [apply H6; right; eauto|]. split; [|done].
        intros [[?| ->]|(j & Hj & Hcj)]; [done|by apply (H5 i b)|].
        assert (j = i) by (apply (H4 j i y); [lia|done..]). lia. }
      exists a'. split; [done|]. eapply marks_ext; [exact Hm'|]. intros y. simpl. rewrite before_S by lia. tauto.
    + eapply marks_ext; [exact Hm1|]. intros y. simpl. rewrite before_0. tauto.
    + exists bm2. split; [done|]. eapply marks_ext; [exact Hm2|]. intros y. simpl. rewrite H6.
      unfold before. tauto.
Qed.

Lemma crawl_inode pi bm P D :
  let btype := load 1 m (pi + pi_i_blk_type) in
  let root := load 8 m (pi + pi_root) in
  0 <= btype <= 2 →
  (root = 0 ∧ ∀ y, ¬ D y) ∨
    tree m (pmfs_get_numblocks btype) (Z.to_nat (load 1 m (pi + pi_height))) root D →
  marks e bm P → (∀ y, D y → ¬ P y ∧ y < e) →
  ∃ bm', pmfs_inode_crawl pi bm c = Ok (bm', c) ∧ marks e bm' (λ y, P y ∨ D y).
Proof using Hc.
  intros btype root Ht Hd Hm Hn. unfold pmfs_inode_crawl.
  rewrite (bind_Ok _ _ _ _ _ (fetch_eq 8 _ c)), Hc. fold root.
  destruct (Z.eqb_spec root 0) as [E|E].
  - exists bm. split; [done|]. eapply marks_ext; [exact Hm|]. intros y. destruct Hd as [[_ Hd]|Hd].
    + specialize (Hd y). tauto.
    + assert (Hne : 1 <= pmfs_get_numblocks btype) by apply (pow2_pos _ (numblocks_pow2 btype)).
      by destruct (tree_nonzero _ Hne _ _ _ _ Hd).
  - destruct Hd as [[? _]|Hd]; [done|].
    rewrite (bind_Ok _ _ _ _ _ (fetch_eq 1 _ c)), (bind_Ok _ _ _ _ _ (fetch_eq 1 _ c)), Hc.
    by apply crawl_tree.
Qed.
End Crawl.

(** ** Walking the inode table *)

(** The inodes of [n] slots from [pi] on, of the children of a page from [i] on,
    and of a table. *)
Fixpoint slot_list (n : nat) (pi : Z) : list Z :=
  match n with O => [] | S n => pi :: slot_list n (pi + PMFS_INODE_SIZE) end.
Fixpoint kids (f : Z → list Z) (m : mem) (p i : Z) (n : nat) : list Z :=
  match n with
  | O => []
  | S n => (if ptr m p i =? 0 then [] else f (ptr m p i)) ++ kids f m p (i + 1) n
  end.
Fixpoint table_inodes (m : mem) (k : nat) (h : nat) (p : Z) : list Z :=
  match h with
  | O => slot_list k p
  | S h => kids (table_inodes m k h) m p 0 512
  end.

Lemma slot_list_elem n : ∀ pi x, x ∈ slot_list n pi ↔ ∃ k, 0 <= k < Z.of_nat n ∧ x = pi + 128 * k.
Proof.
  unfold PMFS_INODE_SIZE. induction n as [|n IH]; intros pi x; simpl.
  - split; [by intros ?%elem_of_nil|]. intros (k & ? & _). lia.
  - rewrite elem_of_cons, IH. unfold PMFS_INODE_SIZE. split.
    + intros [->|(k & Hk & ->)]; [exists 0; lia|exists (k + 1); lia].
    + intros (k & Hk & ->). destruct (decide (k = 0)) as [->|]; [left; lia|]. right. exists (k - 1). lia.
Qed.

Lemma slot_list_nodup n : ∀ pi, NoDup (slot_list n pi).
Proof.
  induction n as [|n IH]; intros pi; simpl; [constructor|]. constructor; [|apply IH].
  rewrite slot_list_elem. intros (k & Hk & E). unfold PMFS_INODE_SIZE in E. lia.
Qed.

Lemma kids_elem f m p n : ∀ i x,
  x ∈ kids f m p i n ↔ ∃ j, i <= j < i + Z.of_nat n ∧ ptr m p j ≠ 0 ∧ x ∈ f (ptr m p j).
Proof.
  induction n as [|n IH]; intros i x; simpl.
  - split; [by intros ?%elem_of_nil|]. intros (j & ? & _). lia.
  - rewrite elem_of_app, IH. split.
    + intros [Hx|(j & Hj & ?)]; [|exists j; split; [lia|done]].
      destruct (Z.eqb_spec (ptr m p i) 0); [by apply elem_of_nil in Hx|]. exists i. split; [lia|done].
    + intros (j & Hj & Hne & Hx). destruct (decide (j = i)) as [->|]; [left|right].
      * by destruct (Z.eqb_spec (ptr m p i) 0).
      * exists j. split; [lia|done].
Qed.

Lemma kids_snoc f m p n : ∀ i,
  kids f m p i (S n) = kids f m p i n ++ (if ptr m p (i + Z.of_nat n) =? 0 then [] else f (ptr m p (i + Z.of_nat n))).
Proof.
  induction n as [|n IH]; intros i.
  - simpl. rewrite app_nil_r. by rewrite Z.add_0_r.
  - change (kids f m p i (S (S n))) with
      ((if ptr m p i =? 0 then [] else f (ptr m p i)) ++ kids f m p (i + 1) (S n)).
    rewrite IH. cbn [kids]. rewrite app_assoc. by replace (i + 1 + Z.of_nat n) with (i + Z.of_nat (S n)) by lia.
Qed.

Lemma kids_nodup f m p (C : Z → Z → Prop) n : ∀ i, 0 <= i → i + Z.of_nat n <= 512 →
  (∀ j, 0 <= j < 512 → ptr m p j ≠ 0 → NoDup (f (ptr m p j)) ∧ ∀ x, x ∈ f (ptr m p j) → C j (blk x)) →
  (∀ j k y, 0 <= j < 512 → 0 <= k < 512 → C j y → C k y → j = k) →
  NoDup (kids f m p i n).
Proof.
  induction n as [|n IH]; intros i Hi Hn Hf Hd; simpl; [constructor|]. apply NoDup_app. split_and!.
  - destruct (Z.eqb_spec (ptr m p i) 0); [constructor|]. apply Hf; [lia|done].
  - intros x Hx Hx'. destruct (Z.eqb_spec (ptr m p i) 0) as [|Hne]; [by apply elem_of_nil in Hx|].
    apply kids_elem in Hx' as (j & Hj & Hnj & Hx').
    destruct (Hf i ltac:(lia) Hne) as [_ H1]. destruct (Hf j ltac:(lia) Hnj) as [_ H2].
    assert (i = j) by (apply (Hd i j (blk x)); [lia|lia|auto..]). lia.
  - apply IH; [lia..|done|done].
Qed.

(** An inode of the table lies in a block of the table. *)
Lemma table_blocks m n k h : 1 <= n → 128 * Z.of_nat k = 4096 * n → ∀ p D,
  tree m n h p D → NoDup (table_inodes m k h p) ∧ ∀ x, x ∈ table_inodes m k h p → D (blk x).
Proof.
  intros Hn Hk. induction h as [|h IH]; intros p D Ht.
  - destruct Ht as (b & Hb & -> & _ & HD). split; [apply slot_list_nodup|].
    intros x (j & Hj & ->)%slot_list_elem. apply HD. unfold blk.
    pose proof (Z.div_mod (4096 * b + 128 * j) 4096 ltac:(lia)).
    pose proof (Z.mod_pos_bound (4096 * b + 128 * j) 4096 ltac:(lia)). lia.
  - destruct Ht as (b & C & [H1 H2 H3 H4 H5 H6]).
    assert (Hf : ∀ j, 0 <= j < 512 → ptr m p j ≠ 0 →
      NoDup (table_inodes m k h (ptr m p j)) ∧ ∀ x, x ∈ table_inodes m k h (ptr m p j) → C j (blk x)).
    { intros j Hj Hne. destruct (H3 j Hj) as [[? _]|Hc]; [done|by apply IH]. }
    split; [by apply (kids_nodup _ _ _ C)|]. intros x (j & Hj & Hne & Hx)%kids_elem.
    apply H6. right. exists j. split; [lia|]. by apply Hf; [lia|..].
Qed.

Lemma table_bytes m n k h : 1 <= n → 128 * Z.of_nat k = 4096 * n → ∀ p D pi x,
  tree m n h p D → pi ∈ table_inodes m k h p → in_range pi PMFS_INODE_SIZE x → D (blk x).
Proof.
  intros Hn Hk. induction h as [|h IH]; intros p D pi x Ht Hpi Hx.
  - destruct Ht as (b & Hb & -> & _ & HD). apply slot_list_elem in Hpi as (j & Hj & ->). apply HD.
    unfold in_range, PMFS_INODE_SIZE, blk in *.
    pose proof (Z.div_mod x 4096 ltac:(lia)). pose proof (Z.mod_pos_bound x 4096 ltac:(lia)). lia.
  - destruct Ht as (b & C & [H1 H2 H3 H4 H5 H6]). apply kids_elem in Hpi as (j & Hj & Hne & Hpi).
    destruct (H3 j ltac:(lia)) as [[? _]|Hc]; [done|]. apply H6. right. exists j. split; [lia|]. by eapply IH.
Qed.

(** The list depends on the pages of the table alone. *)
Lemma table_inodes_frame m m' n k h : ∀ p D,
  tree m n h p D → agree (λ x, D (blk x)) m' m → table_inodes m' k h p = table_inodes m k h p.
Proof.
  induction h as [|h IH]; intros p D Ht Ha; [done|]. destruct Ht as (b & C & [H1 H2 H3 H4 H5 H6]). cbn [table_inodes].
  assert (Hp : ∀ i, 0 <= i < 512 → ptr m' p i = ptr m p i).
  { intros i Hi. apply ptr_ext. intros x Hx. apply Ha. subst p. rewrite (ptr_blk b i x Hi Hx). apply H6. by left. }
  assert (Hk : ∀ j i, 0 <= i → i + Z.of_nat j <= 512 →
    kids (table_inodes m' k h) m' p i j = kids (table_inodes m k h) m p i j).
  { induction j as [|j IHj]; intros i Hi Hj; [done|]. cbn [kids]. rewrite IHj, Hp by lia. f_equal.
    destruct (Z.eqb_spec (ptr m p i) 0); [done|]. destruct (H3 i ltac:(lia)) as [[? _]|Hc]; [done|].
    apply (IH _ (C i)); [done|]. intros x Hx. apply Ha, H6. right. exists i. split; [lia|done]. }
  by apply Hk.
Qed.

Definition inode_free (m : mem) (pi : Z) : bool :=
  (load 2 m (pi + pi_i_links_count) =? 0) &&
  ((load 2 m (pi + pi_i_mode) =? 0) || negb (load 4 m (pi + pi_i_dtime) =? 0)).

(** [T pi] are the blocks of the inode at [pi]. *)
Record inode_tree (m : mem) (T : Z → Z → Prop) (pi : Z) : Prop := {
  it_free : inode_free m pi = true → ∀ y, ¬ T pi y;
  it_used : inode_free m pi = false →
    let btype := load 1 m (pi + pi_i_blk_type) in
    let root := load 8 m (pi + pi_root) in
    0 <= btype <= 2 ∧
    ((root = 0 ∧ ∀ y, ¬ T pi y) ∨
     tree m (pmfs_get_numblocks btype) (Z.to_nat (load 1 m (pi + pi_height))) root (T pi))
}.

Lemma inode_free_frame m m' pi : agree (in_range pi PMFS_INODE_SIZE) m' m → inode_free m' pi = inode_free m pi.
Proof.
  intros Ha. unfold inode_free. rewrite !(load_ext _ m' m); [done|..]; intros x Hx; apply Ha;
    unfold in_range, pi_i_dtime, pi_i_mode, pi_i_links_count, PMFS_INODE_SIZE in *; lia.
Qed.

Lemma inode_tree_frame m m' T pi :
  inode_tree m T pi → agree (in_range pi PMFS_INODE_SIZE) m' m → agree (λ x, T pi (blk x)) m' m → inode_tree m' T pi.
Proof.
  intros [H1 H2] Ha Ht. split; rewrite (inode_free_frame m m' pi Ha); [done|]. intros Hf. specialize (H2 Hf).
  assert (Hl : ∀ n o, 0 <= o → o + Z.of_nat n <= PMFS_INODE_SIZE → load n m' (pi + o) = load n m (pi + o)).
  { intros n o Ho Hn. apply load_ext. intros x Hx. apply Ha. unfold in_range in *. lia. }
  rewrite !Hl by (unfold pi_i_blk_type, pi_root, pi_height, PMFS_INODE_SIZE; lia).
  destruct H2 as [? [?|Htree]]; (split; [done|]); [by left|right]. by eapply tree_frame.
Qed.

(** The blocks of the inodes of a list. *)
Definition owned (T : Z → Z → Prop) (l : list Z) (y : Z) : Prop := ∃ pi, pi ∈ l ∧ T pi y.

Lemma owned_nil T y : owned T [] y ↔ False.
Proof. split; [|done]. intros (pi & H & _). by apply elem_of_nil in H. Qed.
Lemma owned_cons T pi l y : owned T (pi :: l) y ↔ T pi y ∨ owned T l y.
Proof. unfold owned. setoid_rewrite elem_of_cons. naive_solver. Qed.
Lemma owned_app T l1 l2 y : owned T (l1 ++ l2) y ↔ owned T l1 y ∨ owned T l2 y.
Proof. unfold owned. setoid_rewrite elem_of_app. naive_solver. Qed.

Definition used_count (m : mem) (l : list Z) : Z :=
  Z.of_nat (length (filter (λ pi, inode_free m pi = false) l)).

Lemma used_count_app m l1 l2 : used_count m (l1 ++ l2) = used_count m l1 + used_count m l2.
Proof. unfold used_count. rewrite filter_app, length_app. lia. Qed.

Lemma used_count_frame m m' l : (∀ pi, pi ∈ l → inode_free m' pi = inode_free m pi) → used_count m' l = used_count m l.
Proof.
  intros Hf. unfold used_count. do 2 f_equal. induction l as [|pi l IH]; [done|]. rewrite !filter_cons.
  rewrite (Hf pi) by by left. rewrite IH; [done|]. intros q Hq. apply Hf. by right.
Qed.

(** Each inode of [l] has its tree, no block has two owners, none is in [P]. *)
Record inodes_ok (m : mem) (e : Z) (T : Z → Z → Prop) (P : Z → Prop) (l : list Z) : Prop := {
  in_tree pi : pi ∈ l → inode_tree m T pi;
  in_apart pi pi' y : pi ∈ l → pi' ∈ l → T pi y → T pi' y → pi = pi';
  in_out pi y : pi ∈ l → T pi y → ¬ P y ∧ y < e
}.

(** The counters after counting [k] inodes of which [u] are used. *)
Definition counted (sc sc' : scan) (k u : Z) : Prop :=
  sc_count sc' = u32 (sc_count sc + k) ∧ sc_used sc' = u32 (sc_used sc + u).
Definition small_counts (sc : scan) : Prop := 0 <= sc_count sc < 2 ^ 32 ∧ 0 <= sc_used sc < 2 ^ 32.

Lemma counted_trans sc1 sc2 sc3 k1 u1 k2 u2 :
  counted sc1 sc2 k1 u1 → counted sc2 sc3 k2 u2 → counted sc1 sc3 (k1 + k2) (u1 + u2).
Proof.
  intros [A1 A2] [B1 B2]. split; [rewrite B1, A1|rewrite B2, A2]; unfold u32, wrap;
    rewrite Zplus_mod_idemp_l; f_equal; lia.
Qed.
Lemma counted_same sc : small_counts sc → counted sc sc 0 0.
Proof. intros [? ?]. split; rewrite Z.add_0_r, wrap_small; done || lia. Qed.
Lemma counted_small sc sc' k u : counted sc sc' k u → small_counts sc'.
Proof. intros [E1 E2]. unfold small_counts. rewrite E1, E2. split; apply wrap_range; lia. Qed.

Section Table.
Variables (m : mem) (c : cpu) (e : Z) (T : Z → Z → Prop).
Hypothesis Hc : view c = m.

Lemma inode_is_free_eq pi : inode_is_free pi c = Ok (inode_free m pi, c).
Proof using Hc.
  unfold inode_is_free. by rewrite (bind_Ok _ _ _ _ _ (fetch_eq 2 _ c)), (bind_Ok _ _ _ _ _ (fetch_eq 2 _ c)),
    (bind_Ok _ _ _ _ _ (fetch_eq 4 _ c)), Hc.
Qed.

Lemma crawl_inodes_run n : ∀ pi sc P,
  marks e (sc_bm sc) P → small_counts sc → inodes_ok m e T P (slot_list n pi) →
  ∃ sc', crawl_inodes n pi sc c = Ok (sc', c) ∧
    marks e (sc_bm sc') (λ y, P y ∨ owned T (slot_list n pi) y) ∧
    counted sc sc' 0 (used_count m (slot_list n pi)).
Proof using Hc.
  induction n as [|n IH]; intros pi sc P Hm Hs Hl; cbn [crawl_inodes slot_list].
  - exists sc. split_and!; [done| |by apply counted_same].
    eapply marks_ext; [exact Hm|]. intros y. rewrite owned_nil. tauto.
  - rewrite (bind_Ok _ _ _ _ _ (inode_is_free_eq pi)). pose proof Hl as [Ht Hap Hout].
    assert (Hin : pi ∈ slot_list (S n) pi) by by left.
    assert (Hnot : pi ∉ slot_list n (pi + PMFS_INODE_SIZE)).
    { intros (k & Hk & E)%slot_list_elem. unfold PMFS_INODE_SIZE in E. lia. }
    assert (Hone : ∃ sc1, (if inode_free m pi then mret sc else
        bm ← pmfs_inode_crawl pi (sc_bm sc); mret (Scan bm (sc_count sc) (u32 (sc_used sc + 1)))) c = Ok (sc1, c) ∧
      marks e (sc_bm sc1) (λ y, P y ∨ T pi y) ∧ counted sc sc1 0 (used_count m [pi])).
    { destruct (Ht pi Hin) as [Hfree Hused]. unfold used_count. rewrite filter_cons, filter_nil.
      destruct (inode_free m pi) eqn:Ef; simpl length.
      - exists sc. split_and!; [done| |by apply counted_same]. eapply marks_ext; [exact Hm|].
        intros y. specialize (Hfree eq_refl y). tauto.
      - destruct (Hused eq_refl) as [Hty Htree].
        destruct (crawl_inode m c e Hc pi (sc_bm sc) P (T pi) Hty Htree Hm) as (bm & E & Hbm).
        { intros y Hy. by apply (Hout pi). }
        exists (Scan bm (sc_count sc) (u32 (sc_used sc + 1))). rewrite (bind_Ok _ _ _ _ _ E).
        split_and!; [done|done|]. split; simpl; [|done]. destruct Hs as [Hs _]. rewrite Z.add_0_r, wrap_small; lia. }
    destruct Hone as (sc1 & E1 & Hm1 & Hc1). rewrite (bind_Ok _ _ _ _ _ E1).
    destruct (IH (pi + PMFS_INODE_SIZE) sc1 (λ y, P y ∨ T pi y) Hm1 (counted_small _ _ _ _ Hc1))
      as (sc2 & E2 & Hm2 & Hc2).
    { split; [intros q Hq; apply Ht; by right|intros q q' y Hq Hq'; apply Hap; by right|].
      intros q y Hq Hy. destruct (Hout q y) as [? ?]; [by right|done|]. split; [|done].
      intros [?|Hp]; [done|]. assert (q = pi) by (apply (Hap q pi y); [by right|done..]). congruence. }
    exists sc2. split_and!; [done| |].
    + eapply marks_ext; [exact Hm2|]. intros y. rewrite owned_cons. tauto.
    + pose proof (counted_trans _ _ _ _ _ _ _ Hc1 Hc2) as Hct.
      change (pi :: slot_list n (pi + PMFS_INODE_SIZE)) with ([pi] ++ slot_list n (pi + PMFS_INODE_SIZE)).
      by rewrite used_count_app.
Qed.

Variables (btype k : Z).
Hypothesis Hbtype : 0 <= btype <= 1.
Hypothesis Hk : k = pmfs_get_numblocks btype * 32.

Lemma inodes_per_block_eq : inodes_per_block btype c = Ok (k, c).
Proof using Hbtype Hk.
  unfold inodes_per_block, blk_type_to_shift. subst k.
  assert (btype = 0 ∨ btype = 1) as [-> | ->] by lia; reflexivity.
Qed.

(** Marking the block of the table, 4 KB or 2 MB. *)
Lemma mark_table_block b bm P :
  marks e bm P → 0 < b → (pmfs_get_numblocks btype | b) →
  (∀ y, b <= y < b + pmfs_get_numblocks btype → ¬ P y ∧ y < e) →
  ∃ bm', (if btype =? PMFS_BLOCK_TYPE_2M then mark_2M (Z.shiftr (4096 * b) PAGE_SHIFT_2M) bm
          else mark_4k (Z.shiftr (4096 * b) PAGE_SHIFT) bm) c = Ok (bm', c) ∧
    marks e bm' (λ y, P y ∨ b <= y < b + pmfs_get_numblocks btype).
Proof using All.
  intros Hm Hb Ha Hd. destruct (crawl_data c e btype b bm P ltac:(lia) Hm Hb Ha Hd) as (bm' & E & Hm').
  exists bm'. split; [|done]. rewrite <- E. cbn [pmfs_inode_crawl_recursive].
  unfold PMFS_BLOCK_TYPE_2M, PMFS_BLOCK_TYPE_4K. assert (btype = 0 ∨ btype = 1) as [-> | ->] by lia; done.
Qed.

Abbreviation inodes_of h p := (table_inodes m (Z.to_nat k) h p).

(** Counting inodes for a subtree. *)
Definition table_result (h : nat) (p : Z) (D P : Z → Prop) (sc : scan) (r : result (scan * cpu)) : Prop :=
  ∃ sc', r = Ok (sc', c) ∧
    marks e (sc_bm sc') (λ y, (P y ∨ D y) ∨ owned T (inodes_of h p) y) ∧
    counted sc sc' (Z.of_nat (length (inodes_of h p))) (used_count m (inodes_of h p)).

Lemma crawl_table_leaf p D sc P :
  tree m (pmfs_get_numblocks btype) 0 p D → marks e (sc_bm sc) P → small_counts sc →
  (∀ y, D y → ¬ P y ∧ y < e) → inodes_ok m e T (λ y, P y ∨ D y) (inodes_of 0 p) →
  table_result 0 p D P sc (pmfs_inode_table_crawl_recursive 0 p btype sc c).
Proof using All.
  intros (b & Hb & -> & Ha & HD) Hm Hs Hd Hl. cbn [pmfs_inode_table_crawl_recursive].
  rewrite (bind_Ok _ _ _ _ _ (deref_get_block (4096 * b) c ltac:(lia))).
  rewrite (bind_Ok _ _ _ _ _ inodes_per_block_eq).
  destruct (mark_table_block b (sc_bm sc) P Hm Hb Ha) as (bm & E & Hbm); [intros y Hy; by apply Hd, HD|].
  rewrite (bind_Ok _ _ _ _ _ E).
  assert (Hbm' : marks e bm (λ y, P y ∨ D y)).
  { eapply marks_ext; [exact Hbm|]. intros y. simpl. by rewrite HD. }
  assert (Hlen : ∀ n pi, length (slot_list n pi) = n) by (induction n; intros; simpl; congruence).
  destruct (crawl_inodes_run (Z.to_nat k) (4096 * b) (Scan bm (u32 (sc_count sc + k)) (sc_used sc)) _ Hbm')
    as (sc' & E2 & Hm2 & Hc2); [split; simpl; [apply wrap_range; lia|apply Hs]|exact Hl|].
  exists sc'. split_and!; [done|done|]. cbn [table_inodes]. rewrite Hlen.
  assert (Hk0 : 0 <= k) by (subst k; assert (0 <= pmfs_get_numblocks btype) by
    (pose proof (pow2_pos _ (numblocks_pow2 btype)); lia); lia).
  rewrite Z2Nat.id by done.
  assert (Hct : counted sc (Scan bm (u32 (sc_count sc + k)) (sc_used sc)) k 0).
  { split; simpl; [done|]. destruct Hs as [_ Hs]. rewrite Z.add_0_r, wrap_small; lia. }
  pose proof (counted_trans _ _ _ _ _ _ _ Hct Hc2) as H'. by rewrite (Z.add_0_r k), Z.add_0_l in H'.
Qed.

(** One page of the table: what is behind its children. *)
Section Node.
Variables (h : nat) (b : Z) (D P : Z → Prop) (C : Z → Z → Prop).
Hypothesis Hnode : node_ok (tree m (pmfs_get_numblocks btype) h) m (4096 * b) D b C.
Hypothesis Hd : ∀ y, D y → ¬ P y ∧ y < e.
Hypothesis Hl : inodes_ok m e T (λ y, P y ∨ D y) (inodes_of (S h) (4096 * b)).

Definition kid (i : Z) : list Z := kids (λ q, inodes_of h q) m (4096 * b) 0 (Z.to_nat i).

Lemma kid_S i : 0 <= i →
  kid (i + 1) = kid i ++ (if ptr m (4096 * b) i =? 0 then [] else inodes_of h (ptr m (4096 * b) i)).
Proof.
  intros Hi. unfold kid. replace (Z.to_nat (i + 1)) with (S (Z.to_nat i)) by lia.
  by rewrite kids_snoc, Z2Nat.id, Z.add_0_l by lia.
Qed.

Lemma child_inode i pi : 0 <= i < 512 → ptr m (4096 * b) i ≠ 0 → pi ∈ inodes_of h (ptr m (4096 * b) i) →
  pi ∈ inodes_of (S h) (4096 * b).
Proof. intros Hi Hnz Hpi. apply kids_elem. exists i. split; [lia|done]. Qed.
Lemma kid_inode i pi : 0 <= i <= 512 → pi ∈ kid i → pi ∈ inodes_of (S h) (4096 * b).
Proof. intros Hi (j & Hj & Hnj & Hpj)%kids_elem. apply (child_inode j); [lia|done..]. Qed.

Lemma child_block j pi : 0 <= j < 512 → ptr m (4096 * b) j ≠ 0 → pi ∈ inodes_of h (ptr m (4096 * b) j) →
  C j (blk pi).
Proof using All.
  assert (Hn1 : 1 <= pmfs_get_numblocks btype) by apply (pow2_pos _ (numblocks_pow2 btype)).
  intros Hj Hnj. destruct (no_child _ _ _ _ _ _ Hnode j Hj) as [[? _]|Hct]; [done|].
  apply (table_blocks m (pmfs_get_numblocks btype) (Z.to_nat k) h Hn1 ltac:(lia) _ _ Hct).
Qed.

(** The blocks marked before child [i]. *)
Definition done_before (i y : Z) : Prop := ((P y ∨ y = b) ∨ before C i y) ∨ owned T (kid i) y.

Lemma child_unmarked i y : 0 <= i < 512 → C i y → ¬ done_before i y ∧ y < e.
Proof using All.
  destruct Hnode as [H1 H2 H3 H4 H5 H6]. intros Hi Hy.
  assert (HDy : D y) by (apply H6; right; eauto). destruct (Hd y HDy) as [? ?]. split; [|done].
  intros [[[?| ->]|(j & Hj & Hcj)]|(pi & Hpi & HT)]; [done|by apply (H5 i b)| |].
  - assert (j = i) by (apply (H4 j i y); [lia|done..]). lia.
  - apply (in_out _ _ _ _ _ Hl pi y (kid_inode i pi ltac:(lia) Hpi) HT). by right.
Qed.

Lemma child_inodes_ok i : 0 <= i < 512 → ptr m (4096 * b) i ≠ 0 →
  inodes_ok m e T (λ y, done_before i y ∨ C i y) (inodes_of h (ptr m (4096 * b) i)).
Proof using All.
  intros Hi Hnz. split.
  - intros pi Hpi. by apply (in_tree _ _ _ _ _ Hl), (child_inode i).
  - intros pi pi' y Hpi Hpi'. apply (in_apart _ _ _ _ _ Hl); by apply (child_inode i).
  - intros pi y Hpi HT. pose proof (child_inode i pi Hi Hnz Hpi) as Hpi'.
    destruct (in_out _ _ _ _ _ Hl pi y Hpi' HT) as [Hno ?]. split; [|done].
    assert (HnD : ¬ D y) by tauto. rewrite (no_dom _ _ _ _ _ _ Hnode) in HnD.
    intros [[[[?| ->]|(j & Hj & ?)]|(pj & Hpj & HTj)]|?]; [tauto|tauto| | |].
    + apply HnD. right. exists j. split; [lia|done].
    + assert (pi = pj) as <-
        by (apply (in_apart _ _ _ _ _ Hl pi pj y); [done|by apply (kid_inode i); [lia|]|done..]).
      apply kids_elem in Hpj as (j & Hj & Hnj & Hpj).
      assert (i = j); [|lia].
      apply (no_disjoint _ _ _ _ _ _ Hnode i j (blk pi)); [lia|lia| |]; apply child_block; done || lia.
    + apply HnD. right. by exists i.
Qed.
End Node.

Lemma crawl_table h : ∀ p D sc P,
  tree m (pmfs_get_numblocks btype) h p D → marks e (sc_bm sc) P → small_counts sc →
  (∀ y, D y → ¬ P y ∧ y < e) → inodes_ok m e T (λ y, P y ∨ D y) (inodes_of h p) →
  table_result h p D P sc (pmfs_inode_table_crawl_recursive h p btype sc c).
Proof using All.
  induction h as [|h IH]; intros p D sc P Ht Hm Hs Hd Hl; [by apply crawl_table_leaf|].
  destruct Ht as (b & C & Hnode). pose proof Hnode as [H1 H2 H3 H4 H5 H6]. subst p.
  cbn [pmfs_inode_table_crawl_recursive]. rewrite (bind_Ok _ _ _ _ _ (deref_get_block (4096 * b) c ltac:(lia))).
  destruct (Hd b) as [Hpb Hbe]; [apply H6; by left|].
  destruct (mark_page c e b (sc_bm sc) P Hm H1 Hpb Hbe) as (bm1 & E1 & Hm1). rewrite (bind_Ok _ _ _ _ _ E1).
  destruct (crawl_loop_ind (λ p sc, pmfs_inode_table_crawl_recursive h p btype sc)
    (λ i sc', marks e (sc_bm sc') (done_before h b P C i) ∧
       counted sc sc' (Z.of_nat (length (kid h b i))) (used_count m (kid h b i))) m (4096 * b) c Hc)
    with (a := Scan bm1 (sc_count sc) (sc_used sc)) as (sc2 & E2 & Hm2 & Hc2).
  - intros i a Hi [Hma Hca] Hz. assert (Ek : kid h b (i + 1) = kid h b i).
    { rewrite kid_S, Hz by lia. by rewrite app_nil_r. }
    rewrite Ek. split; [|done]. eapply marks_ext; [exact Hma|]. intros y. unfold done_before.
    rewrite Ek, before_S by lia. destruct (H3 i Hi) as [[_ Hn]|Hct]; [specialize (Hn y); tauto|].
    by destruct (tree_nonzero _ (proj1 (pow2_pos _ (numblocks_pow2 btype))) _ _ _ _ Hct).
  - intros i a Hi [Hma Hca] Hnz. destruct (H3 i Hi) as [[? _]|Hct]; [done|].
    assert (Ek : kid h b (i + 1) = kid h b i ++ inodes_of h (ptr m (4096 * b) i)).
    { rewrite kid_S by lia. by destruct (Z.eqb_spec (ptr m (4096 * b) i) 0). }
    destruct (IH (ptr m (4096 * b) i) (C i) a _ Hct Hma (counted_small _ _ _ _ Hca)) as (a' & E' & Hm' & Hc').
    + intros y Hy. by eapply child_unmarked.
    + by eapply child_inodes_ok.
    + exists a'. split; [done|]. rewrite Ek. split.
      * eapply marks_ext; [exact Hm'|]. intros y. unfold done_before. rewrite Ek, before_S, owned_app by lia. tauto.
      * rewrite used_count_app, length_app, Nat2Z.inj_add. by eapply counted_trans.
  - split; [|exact (counted_same sc Hs)]. eapply marks_ext; [exact Hm1|]. intros y. unfold done_before.
    change (kid h b 0) with (@nil Z). rewrite before_0, owned_nil. tauto.
  - exists sc2. split_and!; [done| |done]. eapply marks_ext; [exact Hm2|]. intros y. unfold done_before, before.
    change (kid h b 512) with (inodes_of (S h) (4096 * b)). rewrite H6. tauto.
Qed.
End Table.
