(* ===== verification/PmfsBuildMain.v ===== *)
(** * PMFS: what mounting after a crash rebuilds

    A journalled change of an idle file system, as the clients of the journal
    use it, then [pmfs_setup_blocknode_map] after a crash: the blocks in use are
    the superblock's and the journal's, the inode table's and those of every
    inode in it, and no other. *)

From stdpp Require Import base list gmap.
From Stdlib Require Import ZArith Lia.
From coqutil Require Import Byte Word.LittleEndianList.
From S2P Require Import Prelude PMem NovaBase PmfsJournal PmfsRecover PmfsMount PmfsTrans PmfsCrash.
From S2P Require Import PmfsRemount PmfsTx PmfsAtomic PmfsCommit PmfsHistory.
From S2P Require Import PmfsBalloc PmfsBallocProofs PmfsBallocMain.
From S2P Require Import PmfsTree PmfsTreeProofs PmfsTreeAlloc PmfsTreeMain PmfsBuild PmfsBuildProofs.

Local Open Scope Z_scope.

(** ** One transaction of a client *)

Lemma idle_same l m m' hd g S tid k : mem_eq m m' → idle l m hd g S tid k → idle l m' hd g S tid k.
Proof.
  intros He [[J1 J2 J3 J4 J5 J6 J7] H2 H3 H4 H5 H6 H7 H8 H9].
  assert (Hl : ∀ n a, load n m' a = load n m a) by (intros; apply load_ext; by intros x _).
  constructor; try done.
  - constructor; by rewrite Hl.
  - eapply slots_ext; [|exact H2]. by intros x _.
  - unfold dead_slots in *. eapply slots_ext; [|exact H9]. by intros x _.
Qed.

Section Client.
Context `{CachedWrite}.
Variables (clwb : bool) (l : layout).
Hypothesis Hl : layout_ok l.

Lemma client_transaction sbi self n steps s hd g S k :
  idle l (view s) hd g S (next_transaction_id sbi) k → redo_log sbi = false → jsize sbi = l_size l →
  next_transaction_id sbi + 1 < 2 ^ 32 → steps_ok l [] steps → 0 <= n → steps_entries steps <= n → n + 1 <= k →
  ∃ sbi' s' S', transaction clwb sbi self n steps true s = Ok ((0, sbi'), s') ∧
    agree (data l) (view s') (apply_events (view s) (steps_writes steps)) ∧
    jsize sbi' = l_size l ∧ redo_log sbi' = false ∧
    idle l (view s') hd g S' (next_transaction_id sbi + 1) (k - (n + 1)).
Proof using All.
  intros Hid Hr Hj Hn Hst H0 Hen Hk.
  pose proof (id_tid _ _ _ _ _ _ _ Hid) as Htid.
  assert (Hready : ready l (view s) hd g S (next_transaction_id sbi) n) by (eapply idle_ready; [done|lia..]).
  destruct (transaction_ends clwb l Hl (view s) hd g S _ n Hready sbi self steps Hr Hj eq_refl Hst Hen true)
    as (E & ty & sbi1 & s1 & Hrun & Hr1 & Hj1 & Hn1 & Hv1 & Hend).
  destruct (oblivious_transaction clwb sbi self n steps true (Cpu (view s) []) s _ _ ltac:(done) Hrun)
    as (es & -> & Hrun'). simpl in Hv1, Hend.
  set (m1 := durable (pexec (start_state (view s)) es)).
  assert (Em : pexec (start_state (view s)) es = PState m1 []).
  { unfold m1. pose proof (en_done _ _ _ _ _ _ _ _ _ _ _ _ Hend) as Hq.
    destruct (pexec (start_state (view s)) es). simpl in *. by rewrite Hq. }
  assert (Hm1 : mem_eq m1 (apply_events (view s) es)).
  { pose proof (pview_pexec (start_state (view s)) es) as Hp. rewrite Em in Hp.
    apply Hp; [apply pwf_nil|apply Hend]. }
  exists sbi1, (log_state s es), (S ++ closed_slots (next_transaction_id sbi) n E ty).
  split_and!; try done.
  - intros x Hx. cbn [log_state view]. rewrite <- (Hm1 x). by apply (en_data _ _ _ _ _ _ _ _ _ _ _ _ Hend).
  - eapply idle_same; [exact Hm1|]. eapply idle_next; [done..|lia|exact Hend].
Qed.
End Client.

(** More fuel than needed does not matter. *)
Section Fuel.
Context `{CachedWrite}.
Variable clwb : bool.

Lemma reserve_fuel sbi fuel : ∀ j h t r s x,
  reserve clwb fuel sbi j h t r s = Ok x → reserve clwb (S fuel) sbi j h t r s = Ok x.
Proof.
  induction fuel as [|fuel IH]; intros j h t r s x Hx; [done|].
  cbn [reserve] in Hx. destruct x as [a s']. 
  apply bind_inv in Hx as (g & s1 & E1 & Hx). apply bind_inv in Hx as (full & s2 & E2 & Hx).
  remember (Datatypes.S fuel) as fuel' eqn:Ef. cbn [reserve].
  rewrite (bind_Ok _ _ _ _ _ E1), (bind_Ok _ _ _ _ _ E2). destruct full; [done|].
  apply bind_inv in Hx as (base & s3 & E3 & Hx). rewrite (bind_Ok _ _ _ _ _ E3). cbv zeta in *.
  destruct (u32 (t + r) >=? jsize sbi); [|done].
  apply bind_inv in Hx as (g' & s4 & E4 & Hx). rewrite (bind_Ok _ _ _ _ _ E4).
  apply bind_inv in Hx as ([] & s5 & E5 & Hx). rewrite (bind_Ok _ _ _ _ _ E5). subst fuel'.
  by apply IH.
Qed.

Lemma new_transaction_fuel fuel sbi new n s r s' :
  pmfs_new_transaction clwb fuel sbi new n s = Ok (r, s') →
  pmfs_new_transaction clwb (S fuel) sbi new n s = Ok (r, s') ∧ (∀ e, r.1 = inl e → e ≠ 0).
Proof.
  unfold pmfs_new_transaction. intros Hx. apply bind_inv in Hx as (j & s1 & E1 & Hx).
  rewrite (bind_Ok _ _ _ _ _ E1). destruct new as [self|].
  2: { injection Hx as <- <-. split; [done|]. by intros e [= <-]. }
  apply bind_inv in Hx as (t & s2 & E2 & Hx). rewrite (bind_Ok _ _ _ _ _ E2).
  apply bind_inv in Hx as (h & s3 & E3 & Hx). rewrite (bind_Ok _ _ _ _ _ E3).
  apply bind_inv in Hx as (q & s4 & E4 & Hx). rewrite (bind_Ok _ _ _ _ _ (reserve_fuel _ _ _ _ _ _ _ _ E4)).
  destruct q as [[[base gen] avail]|]; injection Hx as <- <-; (split; [done|]); [done|by intros e [= <-]].
Qed.
End Fuel.

(** ** Running the parts of the file system *)

Definition with_pm (s : super) (c : cpu) : super := set_fs s (set_pm (sfs s) c).

Lemma on_mem_eq {A} (m : PM A) s a c : m (pm (sfs s)) = Ok (a, c) → on_mem m s = Ok (a, with_pm s c).
Proof. intros E. unfold on_mem, on_fs, lift. by rewrite E. Qed.
Lemma with_pm_id s : with_pm s (pm (sfs s)) = s.
Proof. by destruct s as [[] ? ? ? ? ?]. Qed.
Lemma on_mem_fetch n a s : on_mem (fetch n a) s = Ok (load n (view (pm (sfs s))) a, s).
Proof. rewrite (on_mem_eq _ _ _ _ (fetch_eq _ _ _)). by rewrite with_pm_id. Qed.
Lemma on_mem_same {A} (m : PM A) s a : m (pm (sfs s)) = Ok (a, pm (sfs s)) → on_mem m s = Ok (a, s).
Proof. intros E. rewrite (on_mem_eq _ _ _ _ E). by rewrite with_pm_id. Qed.
Lemma on_fs_eq {A} (m : FM A) s a f : m (sfs s) = Ok (a, f) → on_fs m s = Ok (a, set_fs s f).
Proof. intros E. unfold on_fs. by rewrite E. Qed.
Lemma on_journal_eq {A} (m : pmfs_sb_info → PM (A * pmfs_sb_info)) s a j c :
  m (jsbi s) (pm (sfs s)) = Ok ((a, j), c) →
  on_journal m s = Ok (a, set_journal (with_pm s c) j).
Proof.
  intros E. unfold on_journal. rewrite gets_bind. by rewrite (bind_Ok _ _ _ _ _ (on_mem_eq _ _ _ _ E)).
Qed.

Section Mount.
Context `{CachedWrite, BitSearchLaws}.
Variables (clwb : bool) (cfg : fs_cfg) (self : Z).

Definition zeros (n : Z) : list byte := repeat_bytes (Z.to_nat n) [Byte.x00].
Definition clear_events (pi n : Z) : list event :=
  cached_events pi (zeros n) ++ flush_events clwb pi n ++ fence_events false.

Lemma clear_bytes_eq pi n c : 0 <= n <= 2 ^ 32 - 128 → clear_bytes clwb pi n c = Ok ((), log_state c (clear_events pi n)).
Proof.
  intros Hn. unfold clear_bytes, clear_events, zeros. rewrite (bind_Ok _ _ _ _ _ (emits_eq _ _)).
  by rewrite pmfs_flush_buffer_eq, log_state_app.
Qed.

(** [pmfs_clear_datablock_inode] is a transaction. *)
Lemma clear_datablock_eq s pi j' c' :
  pmfs_get_inode PMFS_BLOCKNODE_IN0 (pm (sfs s)) = Ok (Some pi, pm (sfs s)) →
  transaction clwb (jsbi s) self MAX_INODE_LENTRIES
    [SLog pi MAX_DATA_PER_LENTRY; SWrite (clear_events pi MAX_DATA_PER_LENTRY)] true (pm (sfs s)) = Ok ((0, j'), c') →
  pmfs_clear_datablock_inode clwb (Some self) s = Ok ((), set_journal (with_pm s c') j').
Proof.
  intros Hpi Htx. unfold transaction in Htx.
  apply bind_inv in Htx as ([r j1] & c1 & E1 & Htx).
  apply new_transaction_fuel in E1 as [E1 Herr]. destruct r as [e|t]; [|clear Herr].
  { injection Htx as -> _ _. by destruct (Herr 0 eq_refl). }
  cbn [run_steps] in Htx. apply bind_inv in Htx as (tr & c2 & E2 & Htx).
  apply bind_inv in E2 as ([e2 tr2] & c3 & E3 & E2). apply bind_inv in E2 as ([] & c4 & E4 & E2).
  injection E4 as <-. injection E2 as <- <-.
  unfold pmfs_clear_datablock_inode. rewrite (bind_Ok _ _ _ _ _ (on_mem_same _ _ _ Hpi)).
  unfold begin_transaction.
  rewrite (bind_Ok _ _ s (Some t) (set_journal (with_pm s c1) j1)).
  2: { by rewrite (bind_Ok _ _ _ _ _ (on_journal_eq _ _ _ _ _ E1)). }
  rewrite (bind_Ok _ _ _ pi (set_journal (with_pm s c1) j1)) by (by apply on_mem_same).
  unfold log_range. rewrite bind_assoc, gets_bind, bind_assoc.
  rewrite (bind_Ok _ _ _ (e2, tr2) (set_journal (with_pm s c3) j1)) by (etrans; [apply on_mem_eq; exact E3|done]).
  rewrite (bind_Ok (mret tr2) _ _ tr2 (set_journal (with_pm s c3) j1)) by done.
  rewrite (bind_Ok _ _ _ () (set_journal (with_pm s (log_state c3 (clear_events pi MAX_DATA_PER_LENTRY))) j1)).
  2: { etrans; [apply on_mem_eq, clear_bytes_eq; unfold MAX_DATA_PER_LENTRY; lia|done]. }
  erewrite bind_Ok; [|apply on_journal_eq; exact Htx]. done.
Qed.
End Mount.

(** ** Mounting after a crash *)

Lemma empty_marks size :
  0 <= size →
  marks (Z.shiftr size PAGE_SHIFT)
    (ScanBitmap (Z.shiftr size (PAGE_SHIFT + 3) + 1) (Z.shiftr size (PAGE_SHIFT_2M + 3) + 1)
       (Z.shiftr size (PAGE_SHIFT_1G + 3) + 1) ∅ ∅ ∅) (λ _, False).
Proof.
  intros Hs. unfold PAGE_SHIFT, PAGE_SHIFT_2M, PAGE_SHIFT_1G.
  rewrite !Z.shiftr_div_pow2 by lia.
  assert (Hd : ∀ j, 0 <= j → 0 <= size / 2 ^ (12 + j) ∧ size / 2 ^ 12 < (size / 2 ^ (12 + j) + 1) * 2 ^ j).
  { intros j Hj. rewrite Z.pow_add_r, <- Z.div_div by lia.
    assert (0 < 2 ^ j) by (apply Z.pow_pos_nonneg; lia).
    pose proof (Z.div_mod (size / 2 ^ 12) (2 ^ j) ltac:(lia)).
    pose proof (Z.mod_pos_bound (size / 2 ^ 12) (2 ^ j) ltac:(lia)).
    assert (0 <= size / 2 ^ 12) by (apply Z.div_pos; lia). split; [apply Z.div_pos; lia|nia]. }
  destruct (Hd 3 ltac:(lia)). destruct (Hd 12 ltac:(lia)). destruct (Hd 21 ltac:(lia)).
  change (2 ^ (12 + 3)) with (2 ^ 15) in *. change (2 ^ (12 + 12)) with (2 ^ 24) in *.
  change (2 ^ (12 + 21)) with (2 ^ 33) in *.
  change (2 ^ (12 + 3)) with (2 ^ 15). change (2 ^ (21 + 3)) with (2 ^ 24). change (2 ^ (30 + 3)) with (2 ^ 33).
  assert (Hno : ∀ scale y, ¬ marked_from ∅ scale 1 y) by (unfold marked_from, marked; set_solver).
  split; [split|intros y|]; unfold covered, in_4k, in_2M, in_1G;
    cbn [bitmap_4k bitmap_2M bitmap_1G bitmap_4k_size bitmap_2M_size bitmap_1G_size].
  - set_solver.
  - set_solver.
  - set_solver.
  - lia.
  - intros y Hy. by apply Hno in Hy.
  - intros y Hy. by apply Hno in Hy.
  - intros y Hy. by apply Hno in Hy.
  - pose proof (λ scale, Hno scale y). naive_solver.
  - lia.
Qed.

(** The memory of a file system: [pi] is the inode of the saved ranges; its table
    and its trees are those after [pi] was cleared. *)
Definition cleared (m : mem) (pi : Z) : mem := write_bytes m pi (zeros MAX_DATA_PER_LENTRY).
Definition table_at (m : mem) : Z := load 8 m s_inode_table_offset.
Definition table_type (m : mem) : Z := load 1 m (table_at m + pi_i_blk_type).
Definition table_root (m : mem) : Z := load 8 m (table_at m + pi_root).
Definition table_height (m : mem) : nat := Z.to_nat (load 1 m (table_at m + pi_height)).
Definition device_end (m : mem) : Z := Z.shiftr (load 8 m sb_s_size) PAGE_SHIFT.

(** All inodes of the file system. *)
Definition all_inodes (m : mem) : list Z :=
  table_inodes m (Z.to_nat (pmfs_get_numblocks (table_type m) * 32)) (table_height m) (table_root m).

(** [D] are the blocks of the table, [T pi] those of the inode at [pi]. *)
Record image_ok (l : layout) (m : mem) (D : Z → Prop) (T : Z → Z → Prop) : Prop := {
  im_super : 96 <= l_journal l ∧ l_journal l + 64 <= table_at m ∧ table_at m + sizeof_pmfs_inode <= l_base l;
  im_size : device_end m < 2 ^ 52 ∧ 0 < l_size l ∧ l_base l + l_size l <= 4096 * device_end m;
  im_type : 0 <= table_type m <= 1;
  im_table : tree m (pmfs_get_numblocks (table_type m)) (table_height m) (table_root m) D;
  im_place y : D y → l_base l + l_size l <= 4096 * y ∧ y < device_end m;
  im_inodes : inodes_ok m (device_end m) T (λ y, D y ∨ 4096 * y < l_base l + l_size l) (all_inodes m)
}.

Section Image.
Variables (l : layout) (m : mem) (D : Z → Prop) (T : Z → Z → Prop).
Hypothesis Hl : layout_ok l.
Hypothesis Him : image_ok l m D T.

Lemma table_n : 1 <= pmfs_get_numblocks (table_type m).
Proof. apply (pow2_pos _ (numblocks_pow2 _)). Qed.
Lemma table_k : 128 * Z.of_nat (Z.to_nat (pmfs_get_numblocks (table_type m) * 32)) =
  4096 * pmfs_get_numblocks (table_type m).
Proof. pose proof table_n. lia. Qed.

(** Blocks behind the journal hold data. *)
Lemma behind_data x : l_base l + l_size l <= 4096 * blk x → data l x.
Proof using All.
  intros Hx [Hh|He]; unfold header, entries, in_range, blk in *; destruct Him as [(? & ? & ?) _ _ _ _ _];
    pose proof (Z.div_mod x 4096 ltac:(lia)); pose proof (Z.mod_pos_bound x 4096 ltac:(lia)); unfold sizeof_pmfs_inode in *; destruct Hl; lia.
Qed.

Lemma owned_place y : owned T (all_inodes m) y → l_base l + l_size l <= 4096 * y ∧ y < device_end m ∧ ¬ D y.
Proof using All. intros (pi & Hpi & HT). destruct (in_out _ _ _ _ _ (im_inodes _ _ _ _ Him) pi y Hpi HT). split_and!; [lia|done|tauto]. Qed.

Lemma all_inodes_place pi x : pi ∈ all_inodes m → in_range pi PMFS_INODE_SIZE x → D (blk x).
Proof using All. apply (table_bytes _ _ _ _ table_n table_k _ _ _ _ (im_table _ _ _ _ Him)). Qed.

(** The image as another memory with the same data shows it. *)
Variable v : mem.
Hypothesis Hv : agree (data l) v m.

Lemma im_static a n : 0 <= a → a + Z.of_nat n <= l_journal l ∨ table_at m <= a ∧ a + Z.of_nat n <= l_base l →
  load n v a = load n m a.
Proof using All.
  intros Ha Hr. apply load_ext. intros x Hx. apply Hv. intros [Hh|He];
    unfold header, entries, in_range in *; destruct Him as [(? & ? & ?) _ _ _ _ _]; unfold sizeof_pmfs_inode in *; destruct Hl; lia.
Qed.

Lemma im_same : table_at v = table_at m ∧ table_type v = table_type m ∧ table_root v = table_root m ∧
  table_height v = table_height m ∧ device_end v = device_end m.
Proof using All.
  pose proof (im_super _ _ _ _ Him) as (H1 & H2 & H3). unfold sizeof_pmfs_inode in H3.
  assert (Et : table_at v = table_at m).
  { apply im_static; [done|left]. unfold s_inode_table_offset. lia. }
  unfold table_type, table_root, table_height, device_end. rewrite Et.
  rewrite !im_static; [done|..]; unfold sb_s_size, pi_i_blk_type, pi_root, pi_height in *; try lia.
Qed.

Lemma im_agree (P : Z → Prop) : (∀ y, P y → l_base l + l_size l <= 4096 * y) → agree (λ x, P (blk x)) v m.
Proof using All. intros HP x Hx. by apply Hv, behind_data, HP. Qed.

Lemma im_all_inodes : all_inodes v = all_inodes m.
Proof using All.
  destruct im_same as (Et & Ety & Er & Eh & _). unfold all_inodes. rewrite Ety, Er, Eh.
  eapply table_inodes_frame; [apply Him|]. apply im_agree. intros y Hy. by apply Him.
Qed.

Lemma im_tree : tree v (pmfs_get_numblocks (table_type m)) (table_height m) (table_root m) D.
Proof using All. eapply tree_frame; [apply Him|]. apply im_agree. intros y Hy. by apply Him. Qed.

Lemma im_slots pi : pi ∈ all_inodes m → agree (in_range pi PMFS_INODE_SIZE) v m.
Proof using All. intros Hpi x Hx. apply Hv, behind_data, (im_place _ _ _ _ Him), (all_inodes_place pi x Hpi Hx). Qed.

Lemma im_inodes_v : inodes_ok v (device_end m) T (λ y, D y ∨ 4096 * y < l_base l + l_size l) (all_inodes m).
Proof using All.
  pose proof (im_inodes _ _ _ _ Him) as [H1 H2 H3]. split; [|done|done]. intros pi Hpi.
  apply (inode_tree_frame m); [by apply H1|by apply im_slots|]. apply im_agree.
  intros y Hy. apply owned_place. by exists pi.
Qed.

Lemma im_used : used_count v (all_inodes m) = used_count m (all_inodes m).
Proof using All. apply used_count_frame. intros pi Hpi. by apply inode_free_frame, im_slots. Qed.
End Image.

Section Scan.
Context `{CachedWrite, BitSearchLaws}.
Variables (clwb : bool) (cfg : fs_cfg) (self : Z) (l : layout).
Hypothesis Hl : layout_ok l.
Hypothesis slab_total : ∀ k, slab_ok cfg k = true.

(** What a new mount finds. *)
Record fresh_mount (s : super) (hd g : Z) (S : list (option lentry)) (k : Z) : Prop := {
  fm_list : block_inuse_head (sfs s) = [];
  fm_nodes : num_blocknode_allocated (sfs s) = 0;
  fm_counts : s_inodes_count s = 0 ∧ s_inodes_used_count s = 0;
  fm_redo : redo_log (jsbi s) = false;
  fm_size : jsize (jsbi s) = l_size l;
  fm_idle : idle l (view (pm (sfs s))) hd g S (next_transaction_id (jsbi s)) k;
  fm_room : next_transaction_id (jsbi s) + 1 < 2 ^ 32 ∧ 3 <= k
}.

(** The inode of the saved ranges: a slot of the table, with no blocks. *)
Record no_saved_ranges (s : super) (pi : Z) : Prop := {
  ns_found : pmfs_get_inode PMFS_BLOCKNODE_IN0 (pm (sfs s)) = Ok (Some pi, pm (sfs s));
  ns_root : load 8 (view (pm (sfs s))) (pi + pi_root) = 0;
  ns_slot : pi ∈ all_inodes (cleared (view (pm (sfs s))) pi)
}.

Lemma length_zeros n : 0 <= n → Z.of_nat (length (zeros n)) = n.
Proof. intros Hn. unfold zeros. rewrite length_repeat_bytes. simpl. lia. Qed.

Lemma clear_events_view m pi n : mem_eq (apply_events m (clear_events clwb pi n)) (write_bytes m pi (zeros n)).
Proof.
  intros x. unfold clear_events. rewrite apply_events_app, app_nil_r.
  rewrite apply_events_no_store by (apply is_flush_no_store, flush_events_flushes). apply cached_view.
Qed.

Lemma cleared_static m pi a n : a + Z.of_nat n <= pi ∨ pi + MAX_DATA_PER_LENTRY <= a →
  load n (cleared m pi) a = load n m a.
Proof.
  intros Ha. apply load_ext. intros x Hx. apply write_bytes_out. rewrite length_zeros by done.
  unfold in_range, MAX_DATA_PER_LENTRY in *. lia.
Qed.

Section Run.
Variables (s : super) (hd g : Z) (S : list (option lentry)) (k pi : Z).
Variables (D : Z → Prop) (T : Z → Z → Prop).
Let m : mem := view (pm (sfs s)).
Let m1 : mem := cleared m pi.
Hypothesis Hfresh : fresh_mount s hd g S k.
Hypothesis Hns : no_saved_ranges s pi.
Hypothesis Him : image_ok l m1 D T.

(** The inode lies behind the journal. *)
Lemma saved_place : l_base l + l_size l <= pi ∧ pi + PMFS_INODE_SIZE <= 2 ^ 64.
Proof using Hl Him Hns.
  assert (Hx : ∀ x, in_range pi PMFS_INODE_SIZE x → l_base l + l_size l <= x ∧ x < 2 ^ 64).
  { intros x Hx. pose proof (all_inodes_place l m1 D T Hl Him pi x (ns_slot _ _ Hns) Hx) as HD.
    destruct (im_place _ _ _ _ Him _ HD) as [Hlo Hhi]. destruct (im_size _ _ _ _ Him) as (He & _).
    unfold blk in *. pose proof (Z.div_mod x 4096 ltac:(lia)).
    pose proof (Z.mod_pos_bound x 4096 ltac:(lia)). lia. }
  unfold PMFS_INODE_SIZE, in_range in *. pose proof (Hx pi ltac:(lia)). pose proof (Hx (pi + 127) ltac:(lia)). lia.
Qed.

Lemma super_same a n : 0 <= a → a + Z.of_nat n <= l_base l → load n m1 a = load n m a.
Proof using Hl Him Hns.
  intros Ha Hb. apply cleared_static. pose proof saved_place as [? _]. destruct (im_size _ _ _ _ Him) as (_ & ? & _). lia.
Qed.

Lemma clear_run : ∃ j' c' S', pmfs_clear_datablock_inode clwb (Some self) s = Ok ((), set_journal (with_pm s c') j') ∧
  agree (data l) (view c') m1 ∧ jsize j' = l_size l ∧ idle l (view c') hd g S' (next_transaction_id (jsbi s) + 1) (k - 3).
Proof using Hl Hfresh Hns Him.
  destruct saved_place as [Hlo Hhi]. pose proof (im_super _ _ _ _ Him) as (Hs1 & Hs2 & Hs3).
  destruct (im_size _ _ _ _ Him) as (_ & Hsz & _). unfold PMFS_INODE_SIZE, sizeof_pmfs_inode in *.
  assert (Hres : ∀ x, in_range pi MAX_DATA_PER_LENTRY x → ¬ reserved l x).
  { intros x Hx [[Hh|He]|Hj]; unfold header, entries, in_range, MAX_DATA_PER_LENTRY, s_journal_offset in *; lia. }
  destruct (client_transaction clwb l Hl (jsbi s) self MAX_INODE_LENTRIES
    [SLog pi MAX_DATA_PER_LENTRY; SWrite (clear_events clwb pi MAX_DATA_PER_LENTRY)] (pm (sfs s)) hd g S k)
    as (j' & c' & S' & E & Ha & Hj & _ & Hid).
  - apply Hfresh.
  - apply Hfresh.
  - apply Hfresh.
  - apply Hfresh.
  - cbn [steps_ok]. split_and!; [lia|done|unfold MAX_DATA_PER_LENTRY; lia|unfold MAX_DATA_PER_LENTRY; lia|exact Hres|..].
    + unfold clear_events. apply Forall_app_2; [apply cached_in_line|]. rewrite app_nil_r.
      apply is_flush_ev_ok, flush_events_flushes.
    + unfold clear_events. apply stores_in_app. split.
      * eapply stores_in_mono; [apply cached_stores|]. intros x Hx. rewrite length_zeros in Hx by done.
        exists (pi, MAX_DATA_PER_LENTRY). split; [by left|exact Hx].
      * rewrite app_nil_r. by apply stores_in_flushes, flush_events_flushes.
    + done.
  - done.
  - done.
  - destruct (fm_room _ _ _ _ _ Hfresh). unfold MAX_INODE_LENTRIES. lia.
  - exists j', c', S'. split_and!; [eapply clear_datablock_eq; [apply Hns|exact E]| |done|exact Hid].
    intros x Hx. rewrite (Ha x Hx). cbn [steps_writes]. rewrite app_nil_r. apply clear_events_view.
Qed.

(** The walk: what is marked, and the counters. *)
Lemma scan_run c : agree (data l) (view c) m1 →
  ∃ sc, pmfs_inode_table_crawl_recursive (table_height m1) (table_root m1) (table_type m1)
      (Scan (ScanBitmap (Z.shiftr (load 8 m sb_s_size) (PAGE_SHIFT + 3) + 1)
               (Z.shiftr (load 8 m sb_s_size) (PAGE_SHIFT_2M + 3) + 1)
               (Z.shiftr (load 8 m sb_s_size) (PAGE_SHIFT_1G + 3) + 1) ∅ ∅ ∅) 0 0) c = Ok (sc, c) ∧
    marks (device_end m1) (sc_bm sc) (λ y, D y ∨ owned T (all_inodes m1) y) ∧
    sc_count sc = u32 (Z.of_nat (length (all_inodes m1))) ∧ sc_used sc = u32 (used_count m1 (all_inodes m1)).
Proof using Hl Hns Him.
  intros Hv. set (sz := load 8 m sb_s_size).
  assert (Esz : device_end m1 = Z.shiftr sz PAGE_SHIFT).
  { unfold device_end, sz. f_equal. apply super_same; [done|]. pose proof (im_super _ _ _ _ Him) as (? & ? & ?).
    unfold sb_s_size, sizeof_pmfs_inode in *. lia. }
  assert (Hsz : 0 <= sz) by apply (load_bound 8).
  pose proof (empty_marks sz Hsz) as Hm0. rewrite <- Esz in Hm0.
  pose proof (im_same l m1 D T Hl Him (view c) Hv) as (Et & Ety & Er & Eh & Ee).
  pose proof (im_all_inodes l m1 D T Hl Him (view c) Hv) as EL.
  set (sc0 := Scan _ 0 0).
  destruct (crawl_table (view c) c (device_end m1) T eq_refl (table_type m1) (pmfs_get_numblocks (table_type m1) * 32)
    (im_type _ _ _ _ Him) eq_refl (table_height m1) (table_root m1) D sc0 (λ _, False))
    as (sc & E & Hm & Hc1 & Hc2).
  - by apply (im_tree l m1 D T Hl Him).
  - exact Hm0.
  - split; cbn; lia.
  - intros y Hy. split; [tauto|]. exact (proj2 (im_place _ _ _ _ Him y Hy)).
  - unfold all_inodes in EL. rewrite Ety, Eh, Er in EL. rewrite EL.
    destruct (im_inodes_v l m1 D T Hl Him (view c) Hv) as [I1 I2 I3]. split; [done|done|].
    intros q y Hq HT. destruct (I3 q y Hq HT) as [Hn He]. split; [|exact He]. intros [[]|Hd]. apply Hn. by left.
  - unfold all_inodes in EL. rewrite Ety, Eh, Er in EL. rewrite EL in Hm, Hc1, Hc2.
    unfold sc0 in Hc1, Hc2. cbn [sc_count sc_used] in Hc1, Hc2. rewrite Z.add_0_l in Hc1, Hc2.
    exists sc. split; [exact E|]. split_and!; [|exact Hc1|].
    + eapply marks_ext; [exact Hm|]. intros y. cbn beta. fold (all_inodes m1). split.
      * intros [[[]|?]|?]; [by left|by right].
      * intros [?|?]; [left; by right|by right].
    + rewrite Hc2. f_equal. exact (im_used l m1 D T Hl Him (view c) Hv).
Qed.

(** Building the allocator of an empty list. *)
Lemma allocator_run f bm P :
  block_inuse_head f = [] → num_blocknode_allocated f = 0 → block_start f = 0 →
  num_free_blocks f = device_end m1 → block_end f = device_end m1 →
  marks (device_end m1) bm P → (∀ y, P y → l_base l + l_size l <= 4096 * y ∧ y < device_end m1) →
  ∃ f', (pmfs_init_blockmap cfg (l_base l + l_size l);; pmfs_build_blocknode_map cfg bm) f = Ok ((), f') ∧
    wf f' ∧ block_end f' = device_end m1 ∧ pm f' = pm f ∧
    ∀ y, used (block_inuse_head f') y ↔ (0 <= y ∧ 4096 * y < l_base l + l_size l) ∨ P y.
Proof using Hl Him slab_total H1.
  intros F1 F2 F3 F4 F5 Hm HP. destruct (im_size _ _ _ _ Him) as (He1 & Hsz & He2).
  pose proof (lo_base _ Hl) as [_ Hb].
  destruct (init_blockmap_cases cfg (l_base l + l_size l) f) as (f1 & E1 & W1 & D1 & P1 & N1 & U1); try done; try lia.
  { rewrite F5. pose proof (Z.div_mod (l_base l + l_size l + 4095) 4096 ltac:(lia)).
    pose proof (Z.mod_pos_bound (l_base l + l_size l + 4095) 4096 ltac:(lia)). lia. }
  rewrite (bind_Ok _ _ _ _ _ E1).
  destruct (build_map_took cfg slab_total bm f1 W1 N1 (mk_bits _ _ _ Hm)) as (f2 & E2 & T2).
  { intros y Hy. apply (mk_covered _ _ _ Hm) in Hy. destruct (HP y Hy) as [Hlo Hhi]. rewrite U1.
    destruct D1 as (_ & -> & _). rewrite F5. split_and!; [lia|done|].
    exists 0. split; [apply U1; lia|lia]. }
  exists f2. destruct T2 as [W2 U2 (_ & D2 & _) P2 _]. destruct D1 as (_ & D1 & _).
  split_and!; [done|done|congruence|congruence|]. intros y. rewrite U2, U1, (mk_covered _ _ _ Hm). done.
Qed.

(** Nothing was saved: no fast mount. *)
Lemma no_fast_mount f :
  pm f = pm (sfs s) → pmfs_can_skip_full_scan clwb cfg (Some self) (set_fs s f) = Ok (false, set_fs s f).
Proof using Hns.
  intros Ef. unfold pmfs_can_skip_full_scan.
  rewrite (bind_Ok _ _ _ (Some pi) (set_fs s f)).
  2: { apply on_mem_same. simpl. rewrite Ef. apply Hns. }
  rewrite (bind_Ok _ _ _ pi (set_fs s f)) by by apply on_mem_same.
  rewrite (bind_Ok _ _ _ _ _ (on_mem_fetch _ _ _)). simpl. rewrite Ef.
  pose proof (ns_root _ _ Hns) as ->. done.
Qed.

Definition setup_done (s' : super) : Prop :=
  wf (sfs s') ∧ block_end (sfs s') = device_end m ∧
  (∀ y, used (block_inuse_head (sfs s')) y ↔
        (0 <= y ∧ 4096 * y < l_base l + l_size l) ∨ D y ∨ owned T (all_inodes m1) y) ∧
  s_inodes_count s' = u32 (Z.of_nat (length (all_inodes m1))) ∧
  s_inodes_used_count s' = u32 (used_count m1 (all_inodes m1)) ∧
  s_free_inodes_count s' = u32 (s_inodes_count s' - u32 (s_inodes_used_count s' + 2)) ∧
  s_free_inode_hint s' = PMFS_FREE_INODE_HINT_START ∧ agree (data l) (view (pm (sfs s'))) m1.

Lemma end_same : device_end m1 = device_end m.
Proof using Hl Him Hns.
  unfold device_end. f_equal. apply super_same; [done|]. pose proof (im_super _ _ _ _ Him) as (? & ? & ?).
  unfold sb_s_size, sizeof_pmfs_inode in *. lia.
Qed.

(** The walk and the rebuilding, once the saved inode is cleared. *)
Lemma scan_build_run t c j S' k' :
  pm (sfs t) = c → agree (data l) (view c) m1 → jsbi t = j → jsize j = l_size l →
  idle l (view c) hd g S' (next_transaction_id (jsbi s) + 1) k' →
  block_inuse_head (sfs t) = [] → num_blocknode_allocated (sfs t) = 0 → block_start (sfs t) = 0 →
  block_end (sfs t) = device_end m → s_inodes_count t = 0 → s_inodes_used_count t = 0 →
  ∃ s', (root ← on_mem (fetch 8 (table_at m + pi_root));
         height ← on_mem (fetch 1 (table_at m + pi_height));
         btype ← on_mem (fetch 1 (table_at m + pi_i_blk_type));
         s ← get;
         sc ← on_mem (pmfs_inode_table_crawl_recursive (Z.to_nat height) root btype
                (Scan (ScanBitmap (Z.shiftr (load 8 m sb_s_size) (PAGE_SHIFT + 3) + 1)
                         (Z.shiftr (load 8 m sb_s_size) (PAGE_SHIFT_2M + 3) + 1)
                         (Z.shiftr (load 8 m sb_s_size) (PAGE_SHIFT_1G + 3) + 1) ∅ ∅ ∅)
                   (s_inodes_count s) (s_inodes_used_count s)));
         modify (λ s, set_counts s (sc_count sc) (u32 (sc_count sc - u32 (sc_used sc + 2))) (sc_used sc)
                        PMFS_FREE_INODE_HINT_START);;
         on_fs (modify (λ s, set_num_free s (Z.shiftr (load 8 m sb_s_size) PAGE_SHIFT)));;
         journal ← on_mem pmfs_get_journal;
         base ← on_mem (fetch 8 (journal + j_base));
         j ← gets jsbi;
         on_fs (pmfs_init_blockmap cfg (u64 (base + jsize j)));;
         on_fs (pmfs_build_blocknode_map cfg (sc_bm sc))) t = Ok ((), s') ∧ setup_done s'.
Proof using Hl Hns Him slab_total H1.
  intros Hc Hv Hj Hjs Hid F1 F2 F3 F4 F5 F6.
  pose proof (im_same l m1 D T Hl Him (view c) Hv) as (Et & Ety & Er & Eh & Ee).
  assert (Etab : table_at m = table_at (view c)).
  { rewrite Et. symmetry. apply super_same; [done|]. pose proof (im_super _ _ _ _ Him) as (? & ? & ?).
    unfold s_inode_table_offset, sizeof_pmfs_inode in *. lia. }
  rewrite Etab. rewrite !(bind_Ok _ _ _ _ _ (on_mem_fetch _ _ t)), Hc.
  fold (table_root (view c)) (table_type (view c)) (table_height (view c)). rewrite Ety, Er, Eh.
  rewrite (bind_Ok get _ t t t) by done. rewrite F5, F6.
  destruct (scan_run c Hv) as (sc & E & Hm & Hc1 & Hc2).
  rewrite (bind_Ok _ _ t sc t) by (apply on_mem_same; by rewrite Hc).
  set (t1 := set_counts t (sc_count sc) (u32 (sc_count sc - u32 (sc_used sc + 2))) (sc_used sc)
               PMFS_FREE_INODE_HINT_START).
  rewrite (bind_Ok _ _ t () t1) by done.
  set (f1 := set_num_free (sfs t1) (Z.shiftr (load 8 m sb_s_size) PAGE_SHIFT)).
  rewrite (bind_Ok _ _ t1 () (set_fs t1 f1)) by done.
  assert (Ec : pm (sfs (set_fs t1 f1)) = c) by exact Hc.
  unfold pmfs_get_journal. rewrite (bind_Ok _ _ _ _ _ (on_mem_fetch _ _ _)), Ec.
  pose proof (id_state _ _ _ _ _ _ _ Hid) as Hjs1. rewrite (js_super _ _ _ _ _ Hjs1).
  rewrite (bind_Ok _ _ _ _ _ (on_mem_fetch _ _ _)), Ec, (js_base _ _ _ _ _ Hjs1).
  rewrite gets_bind. change (jsbi (set_fs t1 f1)) with (jsbi t). rewrite Hj, Hjs.
  pose proof (lo_base _ Hl). destruct (im_size _ _ _ _ Him) as (He1 & Hsz & He2).
  rewrite (wrap_small 64) by lia.
  assert (Een : device_end m = Z.shiftr (load 8 m sb_s_size) PAGE_SHIFT) by reflexivity.
  destruct (allocator_run f1 (sc_bm sc) (λ y, D y ∨ owned T (all_inodes m1) y)) as (f2 & E2 & W & Hend & Hpm & Hu);
    [exact F1|exact F2|exact F3|rewrite end_same; reflexivity|rewrite end_same; exact F4|exact Hm|..].
  { intros y [Hy|Hy]; [by apply (im_place _ _ _ _ Him)|].
    destruct (owned_place l m1 D T Hl Him y Hy) as (? & ? & _). done. }
  apply bind_inv in E2 as ([] & f3 & E3 & E4).
  rewrite (bind_Ok _ _ _ () (set_fs t1 f3)).
  2: { etrans; [apply on_fs_eq; exact E3|done]. }
  exists (set_fs t1 f2). split; [etrans; [apply on_fs_eq; exact E4|done]|].
  unfold setup_done. split_and!; [exact W|transitivity (device_end m1); [exact Hend|exact end_same]|exact Hu|exact Hc1|exact Hc2|done|done|].
  cbn [sfs set_fs]. rewrite Hpm. cbn. rewrite Hc. exact Hv.
Qed.
End Run.

(** C2: mounting after a crash.  On an image whose inode table and inodes have
    well-formed trees of their own, behind the journal and inside the device,
    and with no ranges saved by an unmount, [pmfs_setup_blocknode_map] returns 0
    and rebuilds the allocator: in use are exactly the blocks up to the end of
    the journal, those of the inode table and those of every inode in use.  The
    inode counters are those of the table; of the memory it changes the saved
    inode and the journal. *)
Theorem pmfs_setup_after_crash s hd g S k pi D T :
  fresh_mount s hd g S k → no_saved_ranges s pi → image_ok l (cleared (view (pm (sfs s))) pi) D T →
  let m := view (pm (sfs s)) in
  let inodes := all_inodes (cleared m pi) in
  ∃ s', pmfs_setup_blocknode_map clwb cfg (Some self) true s = Ok (0, s') ∧
    wf (sfs s') ∧ block_end (sfs s') = device_end m ∧
    (∀ y, used (block_inuse_head (sfs s')) y ↔
          (0 <= y ∧ 4096 * y < l_base l + l_size l) ∨ D y ∨ owned T inodes y) ∧
    s_inodes_count s' = u32 (Z.of_nat (length inodes)) ∧
    s_inodes_used_count s' = u32 (used_count (cleared m pi) inodes) ∧
    s_free_inodes_count s' = u32 (s_inodes_count s' - u32 (s_inodes_used_count s' + 2)) ∧
    s_free_inode_hint s' = PMFS_FREE_INODE_HINT_START ∧ agree (data l) (view (pm (sfs s'))) (cleared m pi).
Proof using All.
  intros Hf Hns Him m inodes. unfold pmfs_setup_blocknode_map.
  rewrite (bind_Ok _ _ _ _ _ (on_mem_fetch _ _ s)). unfold pmfs_get_inode_table.
  rewrite (bind_Ok _ _ _ _ _ (on_mem_fetch _ _ s)). fold m. fold (table_at m).
  set (f0 := Fs (block_inuse_head (sfs s)) 0 (Z.shiftr (load 8 m sb_s_size) PAGE_SHIFT) (num_free_blocks (sfs s))
               (num_blocknode_allocated (sfs s)) (rdonly (sfs s)) (slab_calls (sfs s)) (pm (sfs s))).
  rewrite (bind_Ok _ _ s () (set_fs s f0)) by done.
  rewrite (bind_Ok _ _ _ _ _ (no_fast_mount s pi Hns f0 eq_refl)). cbv iota.
  assert (Hf0 : fresh_mount (set_fs s f0) hd g S k) by (destruct Hf; by split).
  assert (Hns0 : no_saved_ranges (set_fs s f0) pi) by (destruct Hns; by split).
  unfold full_scan. simpl negb. cbv iota.
  destruct (clear_run (set_fs s f0) hd g S k pi D T Hf0 Hns0 Him) as (j' & c' & S' & Ec & Hv & Hj & Hid).
  rewrite bind_assoc, (bind_Ok _ _ _ _ _ Ec).
  destruct (scan_build_run s hd g pi D T Hns Him (set_journal (with_pm (set_fs s f0) c') j') c' j' S' (k - 3))
    as (s' & E & Hdone); try done; try apply Hf.
  rewrite (bind_Ok _ _ _ _ _ E). by exists s'.
Qed.
End Scan.

(** ** A concrete image *)

(** Sixteen blocks: the superblock and the journal in 0 and 1, the inode table in
    2, the root inode in its slot 1 with its block 3. *)
Section Demo.
Local Existing Instance bytewise_write.
Local Existing Instance scan_search.

Definition image_mem : mem :=
  foldl (λ m '(n, a, v), write_bytes m a (bytes_of n v)) ∅
    [(8%nat, sb_s_size, 65536); (8%nat, s_journal_offset, 128); (8%nat, s_inode_table_offset, 192);
     (8%nat, 128 + j_base, 4096); (4%nat, 128 + j_size, 1024); (4%nat, 128 + j_head, 0);
     (4%nat, 128 + j_tail, 0); (2%nat, 128 + j_gen_id, 1); (2%nat, 128 + j_redo_logging, 0);
     (8%nat, 192 + pi_root, 8192);
     (2%nat, 8320 + pi_i_links_count, 2); (8%nat, 8320 + pi_root, 12288)].
Definition image_layout : layout := Layout 128 4096 1024.
Definition image_sbi : pmfs_sb_info := SbInfo false (Some 4096) 1024 0 true 0.
Definition image_super : super :=
  Super (Fs [] 0 0 0 0 false 0 (Cpu image_mem [])) image_sbi 0 0 0 0.
Definition image_pi : Z := 8448.
Definition image_D (y : Z) : Prop := y = 2.
Definition image_T (pi y : Z) : Prop := pi = 8320 ∧ y = 3.

Lemma image_fresh : fresh_mount image_layout image_super 0 1 [] 3.
Proof.
  split; try done. constructor; try done; try by vm_compute.
  - constructor; by vm_compute.
  - by intros e ?%elem_of_nil.
Qed.

Lemma image_no_saved : no_saved_ranges image_super image_pi.
Proof. split; [by vm_compute|by vm_compute|]. apply (bool_decide_unpack _). by vm_compute. Qed.

Lemma image_free : forallb (λ pi, (pi =? 8320) || inode_free (cleared image_mem image_pi) pi)
  (all_inodes (cleared image_mem image_pi)) = true.
Proof. by vm_compute. Qed.

Lemma image_inode pi : pi ∈ all_inodes (cleared image_mem image_pi) →
  inode_tree (cleared image_mem image_pi) image_T pi.
Proof.
  intros Hpi. pose proof image_free as Hf. rewrite forallb_forall in Hf. apply list_elem_of_In, Hf in Hpi.
  clear Hf. split.
  - intros Hfree y [-> _]. vm_compute in Hfree. discriminate Hfree.
  - intros Hused. rewrite Hused, orb_false_r in Hpi. apply Z.eqb_eq in Hpi as ->. clear Hused.
    assert (Eh : load 1 (cleared image_mem image_pi) (8320 + pi_height) = 0) by (vm_compute; done).
    assert (Er : load 8 (cleared image_mem image_pi) (8320 + pi_root) = 12288) by (vm_compute; done).
    assert (Et : load 1 (cleared image_mem image_pi) (8320 + pi_i_blk_type) = 0) by (vm_compute; done).
    cbv zeta. rewrite Eh, Er, Et. split; [lia|right]. exists 3. split_and!; [lia|lia|by exists 3|].
    intros y. change (pmfs_get_numblocks 0) with 1. unfold image_T. lia.
Qed.

Lemma image_wf : image_ok image_layout (cleared image_mem image_pi) image_D image_T.
Proof.
  split.
  - vm_compute. done.
  - vm_compute. done.
  - vm_compute. done.
  - assert (Eh : table_height (cleared image_mem image_pi) = O) by (vm_compute; done).
    assert (Er : table_root (cleared image_mem image_pi) = 8192) by (vm_compute; done).
    assert (Et : table_type (cleared image_mem image_pi) = 0) by (vm_compute; done).
    rewrite Eh, Er, Et. exists 2. split_and!; [lia|lia|by exists 2|]. intros y. unfold image_D.
    change (pmfs_get_numblocks 0) with 1. lia.
  - intros y ->. vm_compute. done.
  - split; [exact image_inode|by intros pi pi' y _ _ [-> _] [-> _]|].
    intros pi y _ [_ ->]. split; [|vm_compute; done]. unfold image_D. cbn. lia.
Qed.

Lemma pmfs_setup_after_crash_witness :
  let m1 := cleared image_mem image_pi in
  ∃ s', pmfs_setup_blocknode_map true small_cfg (Some 7) true image_super = Ok (0, s') ∧
    wf (sfs s') ∧ block_end (sfs s') = device_end image_mem ∧
    (∀ y, used (block_inuse_head (sfs s')) y ↔
          (0 <= y ∧ 4096 * y < 4096 + 1024) ∨ image_D y ∨ owned image_T (all_inodes m1) y) ∧
    s_inodes_count s' = u32 (Z.of_nat (length (all_inodes m1))) ∧
    s_inodes_used_count s' = u32 (used_count m1 (all_inodes m1)) ∧
    s_free_inodes_count s' = u32 (s_inodes_count s' - u32 (s_inodes_used_count s' + 2)) ∧
    s_free_inode_hint s' = PMFS_FREE_INODE_HINT_START ∧ agree (data image_layout) (view (pm (sfs s'))) m1.
Proof.
  apply (pmfs_setup_after_crash true small_cfg 7 image_layout) with (hd := 0) (g := 1) (S := []) (k := 3);
    [constructor; [vm_compute; done..|left; vm_compute; done]|done|exact image_fresh|exact image_no_saved|exact image_wf].
Defined.
End Demo.
