(* ===== verification/PmfsInode.v ===== *)
(** * PMFS: inodes

    [inode.c] from [pmfs_init_inode_table] on, the block-size hint of [file.c]
    and the recovery of the truncate list of [super.c]: the table the inodes are
    in, the VFS's inodes and their copies in persistent memory, creating and
    freeing inodes, changing a file's size.  [s_truncate] is the list of inodes
    that a mount after a power failure still has to truncate or free; it is
    kept twice, as a list of the VFS's inodes (here the list of their numbers)
    and as a chain through the items behind the inodes in persistent memory.
    [PmfsTruncList] holds the proofs about that list. *)

From stdpp Require Import base list gmap.
From Stdlib Require Import ZArith Lia.
From coqutil Require Import Byte.
From S2P Require Import Prelude PMem NovaBase PmfsJournal PmfsBalloc PmfsTree PmfsBuild.

Local Open Scope Z_scope.

(** ** Data *)

(** [struct pmfs_inode]: more field offsets, and [struct
    pmfs_inode_truncate_item], which follows it. *)
Definition pi_i_xattr : Z := 48.
Definition pi_i_uid : Z := 56.
Definition pi_i_gid : Z := 60.
Definition pi_i_generation : Z := 64.
Definition pi_i_atime : Z := 68.
Definition pi_rdev : Z := 72.
Definition i_truncatesize : Z := 0.
Definition i_next_truncate : Z := 8.
Definition sizeof_truncate_item : Z := 16.
Definition PMFS_LARGE_INODE_TABLE_SIZE : Z := 0x200000.
Definition PMFS_LARGE_INODE_TABLE_THREASHOLD : Z := 0x20000000.
Definition PMFS_DEFAULT_BLOCK_TYPE : Z := PMFS_BLOCK_TYPE_4K.
Definition EACCES : Z := 13.
Definition ESTALE : Z := 116.

(** The VFS's inode: the fields of [PmfsTree] and the others that are used. *)
Record vnode := VNode {
  base : inode;
  i_mode : Z;
  i_uid : Z;
  i_gid : Z;
  i_nlink : Z;
  i_atime : Z;
  i_generation : Z;
  i_flags : Z;
  i_rdev : Z;
  is_bad_inode : bool
}.
Definition set_base (v : vnode) (b : inode) : vnode :=
  VNode b (i_mode v) (i_uid v) (i_gid v) (i_nlink v) (i_atime v) (i_generation v) (i_flags v)
    (i_rdev v) (is_bad_inode v).
Definition set_flags (v : vnode) (f : Z) : vnode :=
  VNode (base v) (i_mode v) (i_uid v) (i_gid v) (i_nlink v) (i_atime v) (i_generation v) f
    (i_rdev v) (is_bad_inode v).
Definition vino (v : vnode) : Z := i_ino (base v).

(** [S_ISREG] and the like. *)
Definition S_ISREG (m : Z) : bool := Z.land m 0xF000 =? 0x8000.
Definition S_ISDIR (m : Z) : bool := Z.land m 0xF000 =? 0x4000.
Definition S_ISLNK (m : Z) : bool := Z.land m 0xF000 =? 0xA000.
Definition S_ISCHR (m : Z) : bool := Z.land m 0xF000 =? 0x2000.
Definition S_ISBLK (m : Z) : bool := Z.land m 0xF000 =? 0x6000.

(** The kernel's inode flags with their counterparts in [pi->i_flags]. *)
Definition S_APPEND : Z := 4.
Definition S_IMMUTABLE : Z := 8.
Definition S_DAX : Z := 8192.
Definition flag_pairs : list (Z * Z) :=
  [(1, 8); (S_APPEND, 0x20); (S_IMMUTABLE, 0x10); (2, 0x80); (64, 0x10000)].
Definition set_of (fs : list Z) : Z := foldr Z.lor 0 fs.

(** [PMFS_FL_INHERITED], [PMFS_REG_FLMASK], [PMFS_OTHER_FLMASK]. *)
Definition PMFS_FL_INHERITED : Z :=
  set_of [1; 2; 4; 8; 0x40; 0x80; 0x200; 0x400; 0x4000; 0x8000; 0x10000].
Definition PMFS_REG_FLMASK : Z := u32 (Z.lnot (Z.lor 0x10000 0x20000)).
Definition PMFS_OTHER_FLMASK : Z := Z.lor 0x40 0x80.

Definition pmfs_mask_flags (mode flags : Z) : Z :=
  let flags := Z.land flags PMFS_FL_INHERITED in
  if S_ISDIR mode then flags
  else if S_ISREG mode then Z.land flags PMFS_REG_FLMASK
  else Z.land flags PMFS_OTHER_FLMASK.

(** Each flag of [from] that is set in [flags] sets its counterpart in [acc]. *)
Definition copy_flags (from to : Z * Z → Z) (flags acc : Z) : Z :=
  foldl (λ acc p, if Z.land flags (from p) =? 0 then acc else Z.lor acc (to p)) acc flag_pairs.

(** The bit of [inode_has_no_xattr] is not used by the code. *)
Definition pmfs_set_inode_flags (v : vnode) (pi : Z) : PM vnode :=
  flags ← fetch 4 (pi + PmfsTree.pi_i_flags);
  let kept := Z.land (i_flags v) (Z.lnot (set_of flag_pairs.*1)) in
  mret (set_flags v (Z.lor (copy_flags snd fst flags kept) S_DAX)).

Definition pmfs_get_inode_flags (v : vnode) (pi : Z) : PM () :=
  pmfs_flags ← fetch 4 (pi + PmfsTree.pi_i_flags);
  let kept := Z.land pmfs_flags (u32 (Z.lnot (set_of flag_pairs.*2))) in
  store 4 (pi + PmfsTree.pi_i_flags) (copy_flags fst snd (i_flags v) kept).

(** ** The truncate list *)

(** [pi + 1], behind the 80 bytes of the inode. *)
Definition truncate_item (pi : Z) : Z := pi + sizeof_pmfs_inode.
Definition pmfs_get_truncate_item (ino : Z) : PM Z :=
  p ← pmfs_get_inode ino;
  pi ← deref p;
  mret (truncate_item pi).
Definition pmfs_get_truncate_list_head : PM Z :=
  pi ← pmfs_get_inode_table;
  mret (truncate_item pi).

(** What [i_truncated.prev] is: [None] for [&sbi->s_truncate]. *)
Fixpoint list_prev (prev : option Z) (l : list Z) (ino : Z) : option Z :=
  match l with
  | [] => prev
  | x :: l => if x =? ino then prev else list_prev (Some x) l ino
  end.

Section TruncateList.
Context `{CachedWrite}.
Variable clwb : bool.

(** [s_truncate] and the result are the list before and after; [i_truncated] is
    empty unless the inode is on it. *)
Definition pmfs_truncate_del (ino : Z) (s_truncate : list Z) : PM (list Z) :=
  head ← pmfs_get_truncate_list_head;
  if bool_decide (ino ∉ s_truncate) then mret s_truncate else
  li ← pmfs_get_truncate_item ino;
  ino_next ← fetch 8 (li + i_next_truncate);
  PERSISTENT_BARRIER;;
  (match list_prev None s_truncate ino with
   | None =>
       store 8 (head + i_next_truncate) ino_next;;
       pmfs_flush_buffer clwb (head + i_next_truncate) 8 false
   | Some prv =>
       li_prv ← pmfs_get_truncate_item prv;
       store 8 (li_prv + i_next_truncate) ino_next;;
       pmfs_flush_buffer clwb (li_prv + i_next_truncate) 8 false
   end);;
  PERSISTENT_BARRIER;;
  mret (filter (λ x, x ≠ ino) s_truncate).

(** [in_trans]: there is a current transaction. *)
Definition pmfs_truncate_add (ino truncate_size : Z) (in_trans : bool) (s_truncate : list Z)
  : PM (list Z) :=
  head ← pmfs_get_truncate_list_head;
  if bool_decide (ino ∈ s_truncate) then mret s_truncate else
  li ← pmfs_get_truncate_item ino;
  next ← fetch 8 (head + i_next_truncate);
  store 8 (li + i_next_truncate) next;;
  store 8 (li + i_truncatesize) (u64 truncate_size);;
  pmfs_flush_buffer clwb li sizeof_truncate_item false;;
  PERSISTENT_BARRIER;;
  store 8 (head + i_next_truncate) ino;;
  pmfs_flush_buffer clwb (head + i_next_truncate) 8 false;;
  when (negb in_trans) PERSISTENT_BARRIER;;
  mret (ino :: s_truncate).

(** Calls outside a transaction, one after the other. *)
Inductive list_call := TruncateAdd (ino size : Z) | TruncateDel (ino : Z).
Definition run_call (c : list_call) (s_truncate : list Z) : PM (list Z) :=
  match c with
  | TruncateAdd ino size => pmfs_truncate_add ino size false s_truncate
  | TruncateDel ino => pmfs_truncate_del ino s_truncate
  end.
Fixpoint run_calls (cs : list list_call) (s_truncate : list Z) : PM (list Z) :=
  match cs with
  | [] => mret s_truncate
  | c :: cs => l ← run_call c s_truncate; run_calls cs l
  end.
End TruncateList.

(** ** The inode's copy in persistent memory *)

Section Copy.
Context `{CachedWrite}.
Variable clwb : bool.

(** The error code and the inode read: 0, or [-ESTALE] for a deleted one. *)
Definition pmfs_read_inode (ino : Z) (pi : Z) : PM (Z * vnode) :=
  mode ← fetch 2 (pi + pi_i_mode);
  uid ← fetch 4 (pi + pi_i_uid);
  gid ← fetch 4 (pi + pi_i_gid);
  nlink ← fetch 2 (pi + pi_i_links_count);
  size ← fetch 8 (pi + pi_i_size);
  atime ← fetch 4 (pi + pi_i_atime);
  ctime ← fetch 4 (pi + pi_i_ctime);
  mtime ← fetch 4 (pi + pi_i_mtime);
  gen ← fetch 4 (pi + pi_i_generation);
  let v n size rdev := VNode (Inode ino size n mtime ctime) mode uid gid nlink atime gen 0 rdev false in
  v1 ← pmfs_set_inode_flags (v 0 size 0) pi;
  dtime ← fetch 4 (pi + pi_i_dtime);
  if (nlink =? 0) && ((mode =? 0) || negb (dtime =? 0)) then
    mret (- ESTALE, VNode (base v1) mode uid gid nlink atime gen (i_flags v1) 0 true)
  else
    n ← fetch 8 (pi + pi_i_blocks);
    if S_ISREG mode || S_ISDIR mode || S_ISLNK mode then
      mret (0, set_flags (v n size 0) (i_flags v1))
    else
      rdev ← fetch 4 (pi + pi_rdev);
      mret (0, set_flags (v n 0 rdev) (i_flags v1)).

Definition pmfs_update_inode (v : vnode) (pi : Z) : PM () :=
  store 2 (pi + pi_i_mode) (i_mode v);;
  store 4 (pi + pi_i_uid) (i_uid v);;
  store 4 (pi + pi_i_gid) (i_gid v);;
  store 2 (pi + pi_i_links_count) (i_nlink v);;
  store 8 (pi + pi_i_size) (i_size (base v));;
  store 8 (pi + pi_i_blocks) (i_blocks (base v));;
  store 4 (pi + pi_i_atime) (i_atime v);;
  store 4 (pi + pi_i_ctime) (i_ctime (base v));;
  store 4 (pi + pi_i_mtime) (i_mtime (base v));;
  store 4 (pi + pi_i_generation) (i_generation v);;
  pmfs_get_inode_flags v pi;;
  when (S_ISCHR (i_mode v) || S_ISBLK (i_mode v)) (store 4 (pi + pi_rdev) (i_rdev v));;
  pmfs_flush_buffer clwb pi sizeof_pmfs_inode false.

Definition pmfs_update_nlink (v : vnode) (pi : Z) : PM () :=
  store 2 (pi + pi_i_links_count) (i_nlink v);;
  pmfs_flush_buffer clwb (pi + pi_i_links_count) 2 false.

Definition pmfs_update_isize (v : vnode) (pi : Z) : PM () :=
  store 8 (pi + pi_i_size) (i_size (base v));;
  pmfs_flush_buffer clwb (pi + pi_i_size) 8 false.

Definition pmfs_update_time (v : vnode) (pi : Z) : PM () :=
  store 4 (pi + pi_i_ctime) (i_ctime (base v));;
  store 4 (pi + pi_i_mtime) (i_mtime (base v));;
  pmfs_flush_buffer clwb pi sizeof_pmfs_inode false.

(** [pmfs.h]: the 16-byte [cmpxchg] of size and times; it does not write back. *)
Definition pmfs_update_time_and_size (v : vnode) (pi : Z) : PM () :=
  emit (EStore false (pi + pi_i_size)
          (bytes_of 8 (i_size (base v)) ++ bytes_of 4 (i_ctime (base v)) ++ bytes_of 4 (i_mtime (base v)))).

(** Whether the field of [n] bytes at [a] differs from [x]. *)
Definition field_differs (n : nat) (a x : Z) : PM bool := y ← fetch n a; mret (negb (x =? y)).
Fixpoint any_differs (l : list (nat * Z * Z)) : PM bool :=
  match l with
  | [] => mret false
  | (n, a, x) :: l => d ← field_differs n a x; if (d : bool) then mret true else any_differs l
  end.

Definition pmfs_is_inode_dirty (v : vnode) (pi : Z) : PM bool :=
  any_differs
    [(4%nat, pi + pi_i_ctime, i_ctime (base v)); (4%nat, pi + pi_i_mtime, i_mtime (base v));
     (8%nat, pi + pi_i_size, i_size (base v)); (2%nat, pi + pi_i_mode, i_mode v);
     (4%nat, pi + pi_i_uid, i_uid v); (4%nat, pi + pi_i_gid, i_gid v);
     (2%nat, pi + pi_i_links_count, i_nlink v); (8%nat, pi + pi_i_blocks, i_blocks (base v));
     (4%nat, pi + pi_i_atime, i_atime v)].

(** The result tells whether the warning is printed. *)
Definition pmfs_dirty_inode (v : vnode) : PM bool :=
  p ← pmfs_get_inode (vino v);
  pi ← deref p;
  store 4 (pi + pi_i_atime) (i_atime v);;
  pmfs_flush_buffer clwb (pi + pi_i_atime) 4 true;;
  pmfs_is_inode_dirty v pi.

(** [ATTR_MODE] and the like. *)
Definition ATTR_MODE : Z := 1.
Definition ATTR_UID : Z := 2.
Definition ATTR_GID : Z := 4.
Definition ATTR_SIZE : Z := 8.
Definition ATTR_ATIME : Z := 16.
Definition ATTR_MTIME : Z := 32.
Definition ATTR_CTIME : Z := 64.

Definition pmfs_update_single_field (v : vnode) (pi ia_valid : Z) : PM Z :=
  (if ia_valid =? ATTR_MODE then store 2 (pi + pi_i_mode) (i_mode v)
   else if ia_valid =? ATTR_UID then store 4 (pi + pi_i_uid) (i_uid v)
   else if ia_valid =? ATTR_GID then store 4 (pi + pi_i_gid) (i_gid v)
   else if ia_valid =? ATTR_SIZE then store 8 (pi + pi_i_size) (i_size (base v))
   else if ia_valid =? ATTR_ATIME then store 4 (pi + pi_i_atime) (i_atime v)
   else if ia_valid =? ATTR_CTIME then store 4 (pi + pi_i_ctime) (i_ctime (base v))
   else if ia_valid =? ATTR_MTIME then store 4 (pi + pi_i_mtime) (i_mtime (base v))
   else mret ());;
  pmfs_flush_buffer clwb pi sizeof_pmfs_inode true;;
  mret 0.

(** [file.c] *)
Definition pmfs_can_set_blocksize_hint (pi : Z) : PM bool :=
  root ← fetch 8 (pi + pi_root);
  mret (root =? 0).
Definition pmfs_set_blocksize_hint (pi new_size : Z) : PM () :=
  ok ← pmfs_can_set_blocksize_hint pi;
  when ok (store 1 (pi + pi_i_blk_type)
             (if new_size >=? 0x40000000 then 2 else if new_size >=? 0x200000 then PMFS_BLOCK_TYPE_2M
              else PMFS_BLOCK_TYPE_4K)).

(** The part of a 4 KB page behind the new end of the file. *)
Definition pmfs_block_truncate_page (inode : inode) (newsize : Z) : PM () :=
  let offset := Z.land newsize (s_blocksize - 1) in
  if (offset =? 0) || (newsize >? i_size inode) then mret () else
  let length := s_blocksize - offset in
  blockoff ← pmfs_find_data_block inode (Z.shiftr newsize s_blocksize_bits);
  if blockoff =? 0 then mret () else
  bp ← deref (pmfs_get_block blockoff);
  emits (cached_events (bp + offset) (repeat_bytes (Z.to_nat length) [Byte.x00]));;
  pmfs_flush_buffer clwb (bp + offset) length false.
End Copy.

(** ** The table of inodes *)

(** What [PmfsBuild.super] does not have: the VFS's truncate list and the next
    generation number. *)
Record isuper := ISuper { sup : super; s_truncate : list Z; next_generation : Z }.
Abbreviation IM := (M isuper).
Definition on_super {A} (m : SM A) : IM A := λ s,
  match m (sup s) with
  | Ok (a, s') => Ok (a, ISuper s' (s_truncate s) (next_generation s))
  | Bug => Bug
  | OutOfFuel => OutOfFuel
  end.
Definition on_cpu {A} (m : PM A) : IM A := on_super (on_mem m).
Definition on_list (m : list Z → PM (list Z)) : IM () :=
  l ← gets s_truncate;
  l ← on_cpu (m l);
  modify (λ s, ISuper (sup s) l (next_generation s)).

Section Table.
Context `{CachedWrite}.
Variables (clwb : bool) (cfg : fs_cfg).
(** The slab cache's answer for a transaction. *)
Variable new_trans : option Z.

(** [num_inodes] and [initsize] are [sbi]'s, from the mount options. *)
Definition pmfs_init_inode_table (num_inodes initsize : Z) : SM Z :=
  pi ← on_mem pmfs_get_inode_table;
  let init_inode_table_size :=
    if num_inodes =? 0 then
      if initsize >=? PMFS_LARGE_INODE_TABLE_THREASHOLD then PMFS_LARGE_INODE_TABLE_SIZE else s_blocksize
    else u64 (Z.shiftl num_inodes PMFS_INODE_BITS) in
  on_mem (store 2 (pi + pi_i_mode) 0;;
          store 4 (pi + pi_i_uid) 0;;
          store 4 (pi + pi_i_gid) 0;;
          store 2 (pi + pi_i_links_count) 1;;
          store 4 (pi + PmfsTree.pi_i_flags) 0;;
          store 1 (pi + pi_height) 0;;
          store 4 (pi + pi_i_dtime) 0;;
          store 1 (pi + pi_i_blk_type)
            (if init_inode_table_size >=? PMFS_LARGE_INODE_TABLE_SIZE then PMFS_BLOCK_TYPE_2M
             else PMFS_BLOCK_TYPE_4K));;
  size ← on_mem (pmfs_inode_blk_size pi);
  shift ← on_mem (pmfs_inode_blk_shift pi);
  let num_blocks := Z.shiftr (u64 (init_inode_table_size + size - 1)) shift in
  on_mem (store 8 (pi + pi_i_size) (u64 (Z.shiftl num_blocks shift));;
          pmfs_flush_buffer clwb pi sizeof_pmfs_inode false);;
  let count := u32 (Z.shiftl num_blocks (shift - PMFS_INODE_BITS)) in
  modify (λ s, set_counts s count (s_free_inodes_count s) (s_inodes_used_count s) (s_free_inode_hint s));;
  let num_blocks := u64 (Z.shiftl num_blocks (shift - s_blocksize_bits)) in
  j ← gets jsbi;
  '(errval, _) ← on_fs (__pmfs_alloc_blocks clwb cfg j None pi 0 (u32 num_blocks) true);
  if negb (errval =? 0) then
    (* pmfs_err *)
    on_fs (pmfs_error_mng cfg);;
    mret errval
  else
    modify (λ s, set_counts s (s_inodes_count s) (u32 (s_inodes_count s - PMFS_FREE_INODE_HINT_START))
                   (s_inodes_used_count s) PMFS_FREE_INODE_HINT_START);;
    mret 0.

(** [pmfs_new_transaction], with the error code. *)
Definition new_transaction (max_log_entries : Z) : SM (Z + pmfs_transaction) :=
  on_journal (λ j, pmfs_new_transaction clwb 2 j new_trans max_log_entries).

(** [now] is [get_seconds()]. *)
Definition pmfs_free_inode (ino now : Z) : SM Z :=
  let inode_nr := Z.shiftr ino PMFS_INODE_BITS in
  p ← on_mem (pmfs_get_inode ino);
  r ← new_transaction MAX_INODE_LENTRIES;
  match r with
  | inl err => mret err
  | inr trans =>
      pi ← on_mem (deref p);
      trans ← log_range clwb (Some trans) pi MAX_DATA_PER_LENTRY;
      on_mem (store 8 (pi + pi_root) 0;;
              store 8 (pi + pi_i_size) 0;;
              store 4 (pi + pi_i_dtime) (u32 now);;
              pmfs_flush_buffer clwb pi sizeof_pmfs_inode false);;
      _ ← on_journal (λ j, pmfs_commit_transaction clwb j trans);
      modify (λ s, let hint := if inode_nr <? s_free_inode_hint s then u32 inode_nr else s_free_inode_hint s in
                   let free := u32 (s_free_inodes_count s + 1) in
                   set_counts s (s_inodes_count s) free (s_inodes_used_count s)
                     (if free =? u32 (s_inodes_count s - PMFS_FREE_INODE_HINT_START)
                      then PMFS_FREE_INODE_HINT_START else hint));;
      mret 0
  end.

Definition pmfs_increase_inode_table_size : SM Z :=
  pi ← on_mem pmfs_get_inode_table;
  r ← new_transaction MAX_INODE_LENTRIES;
  match r with
  | inl err => mret err
  | inr trans =>
      trans ← log_range clwb (Some trans) pi MAX_DATA_PER_LENTRY;
      size ← on_mem (fetch 8 (pi + pi_i_size));
      j ← gets jsbi;
      '(errval, trans) ← on_fs (__pmfs_alloc_blocks clwb cfg j trans pi (Z.shiftr size s_blocksize_bits) 1 true);
      when (errval =? 0)
        (size ← on_mem (fetch 8 (pi + pi_i_size));
         modify (λ s, set_counts s (s_inodes_count s) (s_free_inodes_count s) (s_inodes_used_count s)
                        (u32 (Z.shiftr size PMFS_INODE_BITS)));;
         blk ← on_mem (pmfs_inode_blk_size pi);
         let size := u64 (size + blk) in
         on_mem (store 8 (pi + pi_i_size) size;;
                 pmfs_flush_buffer clwb (pi + pi_i_size) 8 false);;
         btype ← on_mem (inode_blk_type pi);
         per ← on_mem (inodes_per_block btype);
         modify (λ s, set_counts s (u32 (Z.shiftr size PMFS_INODE_BITS)) (u32 (s_free_inodes_count s + per))
                        (s_inodes_used_count s) (s_free_inode_hint s)));;
      _ ← on_journal (λ j, pmfs_commit_transaction clwb j trans);
      mret errval
  end.

(** ** Finding a free inode *)

(** [i << PMFS_INODE_BITS] of an [int], as an inode number; [i] is compared as a [u32]. *)
Definition ino_of (i : Z) : Z := u64 (s32 (Z.shiftl i PMFS_INODE_BITS)).

(** The [for] over the inodes of a block: [pi] and [i] when it ends. *)
Fixpoint block_scan (n : nat) (pi i : Z) : PM (Z * Z) :=
  match n with
  | O => mret (pi, i)
  | S n =>
      free ← inode_is_free pi;
      if (free : bool) then mret (pi, i) else block_scan n (pi + PMFS_INODE_SIZE) (i + 1)
  end.

(** [end_ino] *)
Definition block_end_of (per i : Z) : Z := u32 (i + (per - Z.land i (per - 1))).

(** [while (i < num_inodes)] *)
Fixpoint table_scan (fuel : nat) (num_inodes per : Z) (pi : option Z) (i : Z) : PM (option Z * Z) :=
  if i <? num_inodes then
    match fuel with
    | O => out_of_fuel
    | S fuel =>
        let end_ino := block_end_of per i in
        p ← pmfs_get_inode (ino_of i);
        pi ← deref p;
        '(pi, i) ← block_scan (Z.to_nat (end_ino - i)) pi i;
        if i <? end_ino then mret (Some pi, i) else table_scan fuel num_inodes per (Some pi) i
    end
  else mret (pi, i).

(** From [retry] on: an error, or the inode found.  The table's blocks hold at
    least 32 inodes, so there are fewer rounds than inodes. *)
Fixpoint find_free_inode (retries : nat) (per : Z) (pi : option Z) (i : Z) : SM (Z + option Z * Z) :=
  num_inodes ← gets s_inodes_count;
  '(pi, i) ← on_mem (table_scan (Z.to_nat num_inodes) num_inodes per pi i);
  if i >=? num_inodes then
    errval ← pmfs_increase_inode_table_size;
    if errval =? 0 then
      match retries with
      | O => out_of_fuel
      | S retries => find_free_inode retries per pi i
      end
    else mret (inl errval)
  else mret (inr (pi, i)).

Definition with_ino (v : vnode) (ino : Z) : vnode :=
  set_base v (Inode ino (i_size (base v)) (i_blocks (base v)) (i_mtime (base v)) (i_ctime (base v))).

(** [new_inode] is the VFS's answer; [owner] is [inode_init_owner]'s user, group
    and mode, [now] [current_time], [insert_ok] whether [insert_inode_locked] finds
    the number unused.  After an error the new inode is bad, and evicting it does
    nothing here. *)
Definition pmfs_new_inode (retries : nat) (new_inode : option Z) (owner : Z → Z * Z * Z) (insert_ok : bool) (now : Z)
    (trans : option pmfs_transaction) (dir mode : Z) : IM ((Z + vnode) * option pmfs_transaction) :=
  match new_inode with
  | None => mret (inl (- ENOMEM), trans)
  | Some number =>
      modify (λ s, ISuper (sup s) (s_truncate s) (s32 (next_generation s + 1)));;
      gen ← gets next_generation;
      let '(uid, gid, vmode) := owner mode in
      let v := VNode (Inode number 0 0 now now) vmode uid gid 1 now (u32 gen) 0 0 false in
      inode_table ← on_cpu pmfs_get_inode_table;
      diri ← on_cpu (pmfs_get_inode dir);
      match diri with
      | None => mret (inl (- EACCES), trans)
      | Some diri =>
          hint ← gets (λ s, s_free_inode_hint (sup s));
          btype ← on_cpu (inode_blk_type inode_table);
          per ← on_cpu (inodes_per_block btype);
          r ← on_super (find_free_inode retries per None hint);
          match r with
          | inl errval => mret (inl errval, trans)
          | inr (p, i) =>
              let v := with_ino v (ino_of i) in
              pi ← on_cpu (deref p);
              trans ← on_super (log_range clwb trans pi sizeof_pmfs_inode);
              flags ← on_cpu (fetch 4 (diri + PmfsTree.pi_i_flags));
              on_cpu (store 1 (pi + pi_i_blk_type) PMFS_DEFAULT_BLOCK_TYPE;;
                      store 4 (pi + PmfsTree.pi_i_flags) (pmfs_mask_flags mode flags);;
                      store 1 (pi + pi_height) 0;;
                      store 4 (pi + pi_i_dtime) 0;;
                      pmfs_flush_buffer clwb pi sizeof_pmfs_inode false);;
              on_super (modify (λ s,
                set_counts s (s_inodes_count s) (u32 (s_free_inodes_count s - 1)) (s_inodes_used_count s)
                  (if i <? u32 (s_inodes_count s - 1) then u32 (i + 1) else PMFS_FREE_INODE_HINT_START)));;
              on_cpu (pmfs_update_inode clwb v pi);;
              v ← on_cpu (pmfs_set_inode_flags v pi);
              if negb insert_ok then
                (* pmfs_err *)
                on_super (on_fs (pmfs_error_mng cfg));;
                mret (inl (- EINVAL), trans)
              else mret (inr v, trans)
          end
      end
  end.
End Table.

(** ** Changing the size, dropping and recovering inodes *)

Section Size.
Context `{CachedWrite}.
Variables (clwb : bool) (cfg : fs_cfg).
Variable new_trans : option Z.

(** [mounting] is [pmfs_is_mounting]. *)
Definition pmfs_setsize (v : vnode) (newsize now : Z) (mounting : bool) : SM vnode :=
  let oldsize := i_size (base v) in
  if negb (S_ISREG (i_mode v) || S_ISDIR (i_mode v) || S_ISLNK (i_mode v)) then
    (* pmfs_err *)
    on_fs (pmfs_error_mng cfg);;
    mret v
  else
    when (negb (newsize =? oldsize)) (on_mem (pmfs_block_truncate_page clwb (base v) newsize));;
    let b := base v in
    let b := if newsize =? oldsize then b else Inode (i_ino b) newsize (i_blocks b) (i_mtime b) (i_ctime b) in
    b ← on_fs (__pmfs_truncate_blocks clwb cfg b newsize oldsize now mounting);
    j ← gets jsbi;
    when (journal_info j =? 0) (on_mem PERSISTENT_BARRIER);;
    mret (set_base v b).

Definition in_transaction : IM bool := j ← gets (λ s, jsbi (sup s)); mret (negb (journal_info j =? 0)).

(** The last block to free, in [pmfs_evict_inode]. *)
Definition evict_last_blocknr (v : vnode) (pi : Z) : PM Z :=
  flags ← fetch 4 (pi + PmfsTree.pi_i_flags);
  height ← fetch 1 (pi + pi_height);
  if negb (Z.land flags PMFS_EOFBLOCKS_FL =? 0) then
    mret (u64 (Z.shiftl 1 (height * META_BLK_SHIFT) - 1))
  else
    last ← (if negb (i_size (base v) =? 0) then
              shift ← pmfs_inode_blk_shift pi;
              mret (Z.shiftr (i_size (base v) - 1) shift)
            else mret 0);
    mret (pmfs_sparse_last_blocknr height last).

(** The part under [if (!inode->i_nlink && !is_bad_inode(inode))], up to [out]. *)
Definition drop_inode (v : vnode) (pi : option Z) (now : Z) : SM () :=
  if negb (S_ISREG (i_mode v) || S_ISDIR (i_mode v) || S_ISLNK (i_mode v)) then mret () else
  if negb (Z.land (i_flags v) S_APPEND =? 0) || negb (Z.land (i_flags v) S_IMMUTABLE =? 0) then mret () else
  pi ← on_mem (deref pi);
  root ← on_mem (fetch 8 (pi + pi_root));
  height ← on_mem (fetch 1 (pi + pi_height));
  btype ← on_mem (inode_blk_type pi);
  last_blocknr ← on_mem (evict_last_blocknr v pi);
  err ← pmfs_free_inode clwb new_trans (vino v) now;
  if negb (err =? 0) then mret () else
  _ ← on_fs (pmfs_free_inode_subtree clwb cfg root height btype last_blocknr);
  mret ().

Definition pmfs_evict_inode (v : vnode) (now : Z) : IM () :=
  pi ← on_cpu (pmfs_get_inode (vino v));
  when ((i_nlink v =? 0) && negb (is_bad_inode v)) (on_super (drop_inode v pi now));;
  on_list (pmfs_truncate_del clwb (vino v)).

(** [file.c] and [inode.c]: [setattr_prepare] and [setattr_copy] are the VFS's.
    The result is the error code and the inode. *)
Definition pmfs_notify_change (setattr_prepare : Z) (setattr_copy : vnode → vnode) (v : vnode)
    (ia_valid ia_size now : Z) (mounting : bool) : IM (Z * vnode) :=
  p ← on_cpu (pmfs_get_inode (vino v));
  match p with
  | None => mret (- EACCES, v)
  | Some pi =>
      if negb (setattr_prepare =? 0) then mret (setattr_prepare, v) else
      flags ← on_cpu (fetch 4 (pi + PmfsTree.pi_i_flags));
      let resize := negb (Z.land ia_valid ATTR_SIZE =? 0) &&
                    (negb (ia_size =? i_size (base v)) || negb (Z.land flags PMFS_EOFBLOCKS_FL =? 0)) in
      '(v, ia_valid) ←
        (if resize then
           b ← in_transaction;
           on_list (pmfs_truncate_add clwb (vino v) ia_size b);;
           on_cpu (pmfs_set_blocksize_hint pi ia_size);;
           v ← on_super (pmfs_setsize v ia_size now mounting);
           on_cpu (pmfs_update_isize clwb v pi;;
                   pmfs_flush_buffer clwb pi CACHELINE_SIZE false);;
           on_list (pmfs_truncate_del clwb (vino v));;
           mret (v, Z.land ia_valid (Z.lnot (Z.lor ATTR_CTIME ATTR_MTIME)))
         else mret (v, ia_valid));
      let v := setattr_copy v in
      let ia_valid := Z.land ia_valid
        (set_of [ATTR_MODE; ATTR_UID; ATTR_GID; ATTR_ATIME; ATTR_MTIME; ATTR_CTIME]) in
      if ia_valid =? 0 then mret (0, v)
      else if Z.land ia_valid (ia_valid - 1) =? 0 then
        _ ← on_cpu (pmfs_update_single_field clwb v pi ia_valid);
        mret (0, v)
      else
        b ← in_transaction;
        bug_on b;;
        r ← on_super (new_transaction clwb new_trans MAX_INODE_LENTRIES);
        match r with
        | inl err => mret (err, v)
        | inr trans =>
            trans ← on_super (log_range clwb (Some trans) pi sizeof_pmfs_inode);
            on_cpu (pmfs_update_inode clwb v pi);;
            _ ← on_super (on_journal (λ j, pmfs_commit_transaction clwb j trans));
            mret (0, v)
        end
  end.

(** At mount the VFS has no inode yet, and [iput] drops the last reference: it
    comes back as [pmfs_evict_inode].  [iget_ok] is whether [iget_locked] found
    the memory; the result is [None] for an error pointer. *)
Definition pmfs_iget (iget_ok : Z → bool) (ino : Z) : PM (option vnode) :=
  if negb (iget_ok ino) then mret None else
  p ← pmfs_get_inode ino;
  match p with
  | None => mret None
  | Some pi =>
      '(err, v) ← pmfs_read_inode ino pi;
      mret (if err =? 0 then Some v else None)
  end.

(** One round of [pmfs_recover_truncate_list]; [false] is the [break]. *)
Definition recover_inode (iget_ok : Z → bool) (ino now : Z) (pi li : Z) : IM bool :=
  r ← on_cpu (pmfs_iget iget_ok ino);
  match r with
  | None => mret false
  | Some v =>
      v ← (if negb (i_nlink v =? 0) then
             size ← on_cpu (fetch 8 (li + i_truncatesize));
             on_cpu (pmfs_set_blocksize_hint pi size);;
             v ← on_super (pmfs_setsize v size now true);
             on_cpu (pmfs_update_isize clwb v pi);;
             mret v
           else mret v);
      pmfs_evict_inode v now;;
      on_cpu (pmfs_flush_buffer clwb pi CACHELINE_SIZE false);;
      mret true
  end.

Fixpoint list_recover_loop (fuel : nat) (iget_ok : Z → bool) (now ino_next : Z) : IM () :=
  if ino_next =? 0 then mret () else
  match fuel with
  | O => out_of_fuel
  | S fuel =>
      p ← on_cpu (pmfs_get_inode ino_next);
      pi ← on_cpu (deref p);
      let li := truncate_item pi in
      ok ← recover_inode iget_ok ino_next now pi li;
      if negb ok then mret () else
      next ← on_cpu (fetch 8 (li + i_next_truncate));
      list_recover_loop fuel iget_ok now next
  end.

Definition pmfs_recover_truncate_list (fuel : nat) (iget_ok : Z → bool) (now : Z) : IM () :=
  head ← on_cpu pmfs_get_truncate_list_head;
  ino_next ← on_cpu (fetch 8 (head + i_next_truncate));
  if ino_next =? 0 then mret () else
  list_recover_loop fuel iget_ok now ino_next;;
  on_cpu (PERSISTENT_BARRIER;;
          store 8 (head + i_next_truncate) 0;;
          pmfs_flush_buffer clwb head sizeof_truncate_item false;;
          PERSISTENT_BARRIER).
End Size.
