(* ===== verification/PmfsTruncList.v ===== *)
(** * PMFS: the truncate list survives crashes

    [pmfs_truncate_add] and [pmfs_truncate_del] of [PmfsInode], against the list
    of pairs of an inode and its new size they keep: a crash at any point of a
    sequence of calls finds in persistent memory the list as it was after some of
    them, and once they have returned the list is durable. *)

From stdpp Require Import base list gmap.
From Stdlib Require Import ZArith Lia.
From coqutil Require Import Byte.
From S2P Require Import Prelude PMem PMemLine NovaBase PmfsJournal PmfsRecover PmfsBalloc PmfsTree PmfsBuild PmfsInode.

Local Open Scope Z_scope.

(** ** Lines in flight *)

(** What is in flight on a line depends only on what was. *)
Lemma on_line_pexec l t1 t2 es :
  on_line l (inflight t1) = on_line l (inflight t2) →
  on_line l (inflight (pexec t1 es)) = on_line l (inflight (pexec t2 es)).
Proof.
  unfold pexec. revert t1 t2. induction es as [|e es IH]; intros t1 t2 E; [done|]. simpl. apply IH.
  destruct e as [[] a bs|[] a|]; simpl;
    rewrite ?on_line_app, ?on_line_mark, ?on_line_filter; by rewrite E.
Qed.

(** A line without stores in flight, written and written back, has none behind a fence. *)
Lemma clean_fence l t es :
  clean l t → Forall ev_ok es → unflushed l es = false → clean l (pexec t (es ++ [EFence])).
Proof.
  intros Hc Hok Hu. pose proof (fence_clean l (PState (durable t) []) es eq_refl Hok Hu) as Hf.
  unfold clean in *. by rewrite (on_line_pexec l t (PState (durable t) [])).
Qed.

(** A crash of a run whose stores are off a line does not change it. *)
Lemma crash_off_line l t es m :
  pwf t → clean l t → Forall ev_ok es → line_stores l es = [] → crash_during t es m →
  agree (on l) m (durable t).
Proof.
  intros Hw Hc Hok Hn Hm. destruct (crash_line_prefix l t es m Hw Hc Hok Hm) as (es' & [r ->] & Ha).
  intros x Hx. rewrite Ha by done. apply Forall_app in Hok as [Hok _].
  rewrite line_stores_app in Hn. apply app_nil in Hn as [Hn _].
  by rewrite (apply_events_line l) by done; rewrite Hn.
Qed.

(** A run with one store, to a line without stores in flight: a crash finds every
    such line before or after the store, all of them alike. *)
Lemma crash_single C t pre nt a bs post m :
  pwf t → (∀ l, C l → clean l t) → C (line a) → Forall no_store pre → Forall no_store post →
  ev_ok (EStore nt a bs) → crash_during t (pre ++ EStore nt a bs :: post) m →
  agree (λ x, C (line x)) m (durable t) ∨ agree (λ x, C (line x)) m (write_bytes (durable t) a bs).
Proof.
  intros Hw Hc Ha Hpre Hpost Hst Hm.
  assert (Hok : Forall ev_ok (pre ++ EStore nt a bs :: post)).
  { apply Forall_app. split; [|constructor; [done|]]; (eapply Forall_impl; [eassumption|]); by intros []. }
  assert (Hoff : ∀ l, line a ≠ l → line_stores l (pre ++ EStore nt a bs :: post) = []).
  { intros l Hl. rewrite line_stores_app, line_stores_none by done. simpl. rewrite decide_False by done.
    by apply line_stores_none. }
  assert (Hother : ∀ x, C (line x) → line x ≠ line a → m !!! x = durable t !!! x).
  { intros x Hx Hne. eapply (crash_off_line (line x)); [done|by apply Hc|exact Hok|by apply Hoff|done|done]. }
  assert (Hout : ∀ x, line x ≠ line a → write_bytes (durable t) a bs !!! x = durable t !!! x).
  { intros x Hne. apply write_bytes_out. intros Hin. apply Hne. by apply Hst. }
  destruct (crash_line_prefix (line a) t _ m Hw (Hc _ Ha) Hok Hm) as (es' & Hp & Hx).
  assert (E : apply_events (durable t) es' = durable t ∨ apply_events (durable t) es' = write_bytes (durable t) a bs).
  { apply prefix_app_inv in Hp as [[r ->]|(l' & -> & Hp)].
    - left. apply apply_events_no_store. by apply Forall_app in Hpre as [? _].
    - rewrite apply_events_app, (apply_events_no_store _ pre) by done.
      destruct l' as [|e l']; [by left|right]. apply prefix_cons_inv_1 in Hp as Ee. subst e.
      apply prefix_cons_inv_2 in Hp as [r ->]. rewrite apply_events_cons. apply apply_events_no_store.
      by apply Forall_app in Hpost as [? _]. }
  destruct E as [E|E]; rewrite E in Hx; [left|right]; intros x HC; (destruct (decide (line x = line a)) as [Hl|Hl];
    [by apply Hx|rewrite Hother by done]); [done|by rewrite Hout].
Qed.

(** ** The list in persistent memory *)

Section List.
Context `{CachedWrite}.
Variable clwb : bool.
(** The inodes in use, the address of each, and that of the table's inode. *)
Variables (used : Z → Prop) (addr : Z → Z) (tbl : Z).

(** The inode of the table for [None], which is also the head of the list. *)
Definition inode_of (p : option Z) : Z := match p with Some i => addr i | None => tbl end.
Definition item (p : option Z) : Z := truncate_item (inode_of p).
Definition known (p : option Z) : Prop := match p with Some i => used i | None => True end.
Definition item_byte (x : Z) : Prop := ∃ p, known p ∧ in_range (item p) sizeof_truncate_item x.

(** Inodes are aligned and apart. *)
Record placed : Prop := {
  pl_align p : known p → 0 <= inode_of p ∧ inode_of p mod PMFS_INODE_SIZE = 0;
  pl_apart p q : known p → known q → p ≠ q → inode_of p ≠ inode_of q;
  pl_ino i : used i → 0 < i < 2 ^ 64
}.

(** Inode numbers lead to the addresses, whatever the items hold. *)
Record table (m : mem) : Prop := {
  tb_head : load 8 m s_inode_table_offset = tbl;
  tb_look i c : used i → agree (λ x, ¬ item_byte x) (view c) m →
    pmfs_get_inode i c = Ok (Some (addr i), c)
}.

Definition next (m : mem) (p : option Z) : Z := load 8 m (item p + i_next_truncate).
Definition size_of (m : mem) (i : Z) : Z := load 8 m (item (Some i) + i_truncatesize).

(** The chain behind [p] is [L]: the inodes and their new sizes. *)
Fixpoint chain (m : mem) (p : option Z) (L : list (Z * Z)) : Prop :=
  match L with
  | [] => next m p = 0
  | (i, z) :: L => next m p = i ∧ size_of m i = z ∧ chain m (Some i) L
  end.

(** Its part before the last link. *)
Fixpoint links (m : mem) (p : option Z) (L : list (Z * Z)) : Prop :=
  match L with
  | [] => True
  | (i, z) :: L => next m p = i ∧ size_of m i = z ∧ links m (Some i) L
  end.
Fixpoint last_of (p : option Z) (L : list (Z * Z)) : option Z :=
  match L with [] => p | (i, _) :: L => last_of (Some i) L end.

Lemma chain_app m L1 L2 p : chain m p (L1 ++ L2) ↔ links m p L1 ∧ chain m (last_of p L1) L2.
Proof.
  revert p. induction L1 as [|[i z] L1 IH]; intros p; simpl; [by split; [split|intros [_ ?]]|].
  rewrite IH. split; intros; destruct_and?; by split_and!.
Qed.

Lemma list_prev_last L1 L2 p i :
  i ∉ L1.*1 → list_prev p (L1.*1 ++ i :: L2) i = last_of p L1.
Proof.
  revert p. induction L1 as [|[j z] L1 IH]; intros p Hi; simpl in *; [by rewrite Z.eqb_refl|].
  apply not_elem_of_cons in Hi as [Hij Hi]. rewrite (proj2 (Z.eqb_neq _ _)) by congruence. by apply IH.
Qed.

Lemma last_of_in p L : last_of p L = p ∨ ∃ i, last_of p L = Some i ∧ i ∈ L.*1.
Proof.
  revert p. induction L as [|[i z] L IH]; intros p; simpl; [by left|].
  destruct (IH (Some i)) as [->|(j & -> & Hj)]; right; [exists i|exists j]; (split; [done|apply elem_of_cons; by auto]).
Qed.

Hypothesis Hpl : placed.

(** *** Cells *)

(** The line with the item of [p]. *)
Definition iline (p : option Z) : Z := line (item p).

Lemma item_line p x : known p → in_range (item p) sizeof_truncate_item x → line x = iline p.
Proof using Hpl.
  intros Hp Hx. destruct (pl_align Hpl p Hp) as [H0 Ha].
  unfold iline, line, item, truncate_item, in_range, sizeof_truncate_item, sizeof_pmfs_inode, PMFS_INODE_SIZE in *.
  apply Z.mod_divide in Ha as [k Ek]; [|lia]. rewrite Ek in *.
  rewrite <- (Z.div_unique (k * 128 + 80) 64 (2 * k + 1) 16) by lia.
  symmetry. apply (Z.div_unique _ 64 _ (x - (k * 128 + 64))); lia.
Qed.

Lemma iline_apart p q : known p → known q → p ≠ q → iline p ≠ iline q.
Proof using Hpl.
  intros Hp Hq Hne E. apply (pl_apart Hpl p q Hp Hq Hne).
  destruct (pl_align Hpl p Hp) as [_ Ha], (pl_align Hpl q Hq) as [_ Hb].
  unfold iline, line, item, truncate_item, sizeof_pmfs_inode, PMFS_INODE_SIZE in *.
  apply Z.mod_divide in Ha as [k Ek]; [|lia]. apply Z.mod_divide in Hb as [j Ej]; [|lia]. rewrite Ek, Ej in *.
  rewrite <- (Z.div_unique (k * 128 + 80) 64 (2 * k + 1) 16) in E by lia.
  rewrite <- (Z.div_unique (j * 128 + 80) 64 (2 * j + 1) 16) in E by lia. lia.
Qed.

Lemma next_in p x : in_range (item p + i_next_truncate) 8 x → in_range (item p) sizeof_truncate_item x.
Proof. unfold in_range, i_next_truncate, sizeof_truncate_item. lia. Qed.
Lemma size_in p x : in_range (item p + i_truncatesize) 8 x → in_range (item p) sizeof_truncate_item x.
Proof. unfold in_range, i_truncatesize, sizeof_truncate_item. lia. Qed.

(** What [p] links to is decided by the line of [p]. *)
Lemma next_ext m1 m2 p : known p → agree (on (iline p)) m1 m2 → next m1 p = next m2 p.
Proof using Hpl. intros Hp Ha. apply load_ext. intros x Hx. apply Ha, item_line; [done|by apply next_in]. Qed.
Lemma size_ext m1 m2 i : used i → agree (on (iline (Some i))) m1 m2 → size_of m1 i = size_of m2 i.
Proof using Hpl. intros Hp Ha. apply load_ext. intros x Hx. apply Ha, (item_line (Some i)); [done|by apply size_in]. Qed.

Lemma chain_ext m1 m2 L p :
  known p → Forall used L.*1 → agree (on (iline p)) m1 m2 →
  (∀ i, i ∈ L.*1 → agree (on (iline (Some i))) m1 m2) → chain m1 p L → chain m2 p L.
Proof using Hpl.
  revert p. induction L as [|[i z] L IH]; intros p Hp Hu Ha HL Hc; simpl in *.
  { by rewrite <- (next_ext m1 m2). }
  apply Forall_cons in Hu as [Hi Hu]. destruct Hc as (H1 & H2 & H3).
  assert (Hil : agree (on (iline (Some i))) m1 m2) by (apply HL, elem_of_cons; by left).
  rewrite <- (next_ext m1 m2) by done. rewrite <- (size_ext m1 m2) by done. split_and!; [done..|].
  apply IH; try done. intros j Hj. apply HL, elem_of_cons. by right.
Qed.

(** The chain by its first link. *)
Definition first_of (L : list (Z * Z)) : Z := match L with [] => 0 | (i, _) :: _ => i end.
Definition body (m : mem) (L : list (Z * Z)) : Prop :=
  match L with [] => True | (i, z) :: L => size_of m i = z ∧ chain m (Some i) L end.
Lemma chain_body m p L : chain m p L ↔ next m p = first_of L ∧ body m L.
Proof. destruct L as [|[i z] L]; simpl; [by split; [|intros [? _]]|done]. Qed.

Lemma body_ext m1 m2 L :
  Forall used L.*1 → (∀ i, i ∈ L.*1 → agree (on (iline (Some i))) m1 m2) → body m1 L → body m2 L.
Proof using Hpl.
  destruct L as [|[i z] L]; simpl; [done|]. intros Hu Ha [H1 H2]. apply Forall_cons in Hu as [Hi Hu].
  rewrite <- (size_ext m1 m2); [|done|by apply Ha, elem_of_cons; left]. split; [done|].
  apply (chain_ext m1 m2); try done; [by apply Ha, elem_of_cons; left|].
  intros j Hj. apply Ha, elem_of_cons. by right.
Qed.

(** *** States between calls *)

(** A line with an item. *)
Definition item_line_of (l : Z) : Prop := ∃ p, known p ∧ l = iline p.

(** Nothing is in flight on the items' lines. *)
Record steady (t : pstate) (s : cpu) : Prop := {
  st_wf : pwf t;
  st_view : mem_eq (pview t) (view s);
  st_clean l : item_line_of l → clean l t;
  st_table : table (view s)
}.

Lemma steady_durable t s : steady t s → agree (λ x, item_line_of (line x)) (durable t) (view s).
Proof. intros [H1 H2 H3 _] x Hx. rewrite <- H2. by apply (clean_view (line x)); [|apply H3|]. Qed.

Lemma table_ext m1 m2 : agree (λ x, ¬ item_byte x) m1 m2 → (∀ x, item_byte x → 48 <= x) → table m1 → table m2.
Proof.
  intros Ha Hlow [H1 H2]. split.
  - rewrite <- H1. apply load_ext. intros x Hx. symmetry. apply Ha. intros Hb. specialize (Hlow x Hb).
    unfold in_range, s_inode_table_offset in Hx. lia.
  - intros i c Hi Hc. apply H2; [done|]. etrans; [exact Hc|]. by symmetry.
Qed.

Lemma item_high x : item_byte x → 48 <= x.
Proof using Hpl.
  intros (p & Hp & Hx). destruct (pl_align Hpl p Hp) as [H0 _].
  unfold in_range, item, truncate_item, sizeof_pmfs_inode in Hx. lia.
Qed.

(** A run that stores to items only and leaves their lines written back. *)
Lemma steady_run t s es :
  steady t s → Forall ev_ok es → stores_in item_byte es →
  (∀ l, item_line_of l → clean l (pexec t es)) → steady (pexec t es) (log_state s es).
Proof using Hpl.
  intros [H1 H2 H3 H4] Hok Hin Hc. split; [by apply pwf_pexec| |done|].
  - simpl. rewrite pview_pexec by done. by rewrite H2.
  - apply (table_ext (view s)); [|exact item_high|done]. intros x Hx. symmetry. by eapply apply_events_frame.
Qed.

(** Fences and write-backs only. *)
Lemma steady_quiet t s es : steady t s → Forall no_store es → steady (pexec t es) (log_state s es).
Proof using Hpl.
  intros Hs Hn. assert (Hok : Forall ev_ok es) by (eapply Forall_impl; [exact Hn|]; by intros []).
  assert (Hin : stores_in item_byte es).
  { clear -Hn. induction Hn as [|e es He Hn IH]; [apply stores_in_nil|by apply stores_in_other]. }
  apply steady_run; try done. intros l Hl.
  apply clean_pexec; [apply Hs|done|by apply Hs|by apply line_stores_none].
Qed.

Lemma quiet_crash t s es m :
  steady t s → Forall no_store es → crash_during t es m → agree (λ x, item_line_of (line x)) m (view s).
Proof.
  intros Hs Hn Hm. assert (Hok : Forall ev_ok es) by (eapply Forall_impl; [exact Hn|]; by intros []).
  etrans; [|by apply steady_durable]. intros x Hx.
  eapply (crash_off_line (line x)); [apply Hs|by apply Hs|exact Hok|by apply line_stores_none|done|done].
Qed.

(** *** Storing a link *)

Definition link_events (q : option Z) (n : Z) (fence : bool) : list event :=
  EStore false (item q + i_next_truncate) (bytes_of 8 n) ::
    flush_events clwb (item q + i_next_truncate) 8 ++ fence_events fence.
Definition relinked (m : mem) (q : option Z) (n : Z) : mem :=
  write_bytes m (item q + i_next_truncate) (bytes_of 8 n).

Lemma link_line q : known q → line (item q + i_next_truncate) = iline q.
Proof using Hpl. intros Hq. apply item_line; [done|]. apply next_in. unfold in_range. lia. Qed.

Lemma item_aligned q o : known q → o mod 8 = 0 → (item q + o) mod 8 = 0.
Proof using Hpl.
  intros Hq Ho. destruct (pl_align Hpl q Hq) as [_ Ha]. unfold item, truncate_item, sizeof_pmfs_inode, PMFS_INODE_SIZE in *.
  apply Z.mod_divide in Ha as [k ->]; [|lia]. apply Z.mod_divide in Ho as [j ->]; [|lia].
  replace (k * 128 + 80 + j * 8) with ((k * 16 + 10 + j) * 8) by lia. by apply Z.mod_mul.
Qed.

Lemma link_store_ok q n : known q → ev_ok (EStore false (item q + i_next_truncate) (bytes_of 8 n)).
Proof using Hpl. intros Hq. apply ev_ok_aligned; [lia|by exists 8|by apply item_aligned]. Qed.

Lemma link_ok q n b : known q → Forall ev_ok (link_events q n b).
Proof using Hpl. intros Hq. constructor; [by apply link_store_ok|]. destruct b; events_ok; by repeat constructor. Qed.

Lemma link_in q n b : known q → stores_in item_byte (link_events q n b).
Proof.
  intros Hq. apply stores_in_store.
  - intros x. rewrite length_bytes_of. intros Hx. exists q. split; [done|]. by apply next_in.
  - unfold fence_events. destruct b; events_in.
Qed.

Lemma link_view s q n b : view (log_state s (link_events q n b)) = relinked (view s) q n.
Proof.
  simpl. unfold link_events. rewrite apply_events_cons, apply_events_no_store; [done|].
  apply flush_fence_no_store.
Qed.

Lemma link_steady t s q n :
  steady t s → known q → steady (pexec t (link_events q n true)) (log_state s (link_events q n true)).
Proof using Hpl.
  intros Hs Hq. apply steady_run; [done|by apply link_ok|by apply link_in|]. intros l Hl.
  unfold link_events, fence_events. change (?e :: ?f ++ [EFence]) with ((e :: f) ++ [EFence]).
  apply clean_fence; [by apply Hs| |].
  - pose proof (link_ok q n false Hq) as Hok. unfold link_events, fence_events in Hok. by rewrite app_nil_r in Hok.
  - change (?e :: ?f) with ([e] ++ f). rewrite <- (app_nil_r (flush_events _ _ _)).
    apply unflushed_covered; [lia| |by constructor; [apply link_store_ok|]|constructor].
    apply stores_in_store; [|apply stores_in_nil]. intros x. by rewrite length_bytes_of.
Qed.

(** A crash while a link is stored finds the old one or the new one. *)
Lemma link_crash t s q n b m :
  steady t s → known q → crash_during t (link_events q n b) m →
  agree (λ x, item_line_of (line x)) m (view s) ∨ agree (λ x, item_line_of (line x)) m (relinked (view s) q n).
Proof using Hpl.
  intros Hs Hq Hm. pose proof (steady_durable t s Hs) as Hd.
  destruct (crash_single item_line_of t [] false (item q + i_next_truncate) (bytes_of 8 n)
    (flush_events clwb (item q + i_next_truncate) 8 ++ fence_events b) m) as [Ha|Ha]; try done.
  - apply Hs.
  - intros l. apply Hs.
  - exists q. split; [done|]. by apply link_line.
  - apply flush_fence_no_store.
  - by apply link_store_ok.
  - left. by etrans.
  - right. etrans; [exact Ha|]. intros x Hx. unfold relinked. rewrite !lookup_total_write_bytes.
    case_decide; [done|]. by apply Hd.
Qed.

(** *** Chains after a store *)

Lemma relinked_off m q n p : known p → known q → p ≠ q → agree (on (iline p)) m (relinked m q n).
Proof using Hpl.
  intros Hp Hq Hne x Hx. symmetry. apply write_bytes_out. rewrite length_bytes_of. intros Hr.
  apply (iline_apart p q Hp Hq Hne). rewrite <- Hx. apply item_line; [done|by apply next_in].
Qed.

Lemma relinked_next m q n : 0 <= n < 2 ^ 64 → next (relinked m q n) q = n.
Proof. intros Hn. unfold next, relinked. rewrite load_write_same. by apply Z.mod_small. Qed.

Lemma relinked_size m q n i : known q → used i → size_of (relinked m q n) i = size_of m i.
Proof using Hpl.
  intros Hq Hi. destruct (decide (q = Some i)) as [->|Hne].
  - apply load_write_disjoint. rewrite length_bytes_of. unfold disjoint_ranges, i_truncatesize, i_next_truncate. lia.
  - symmetry. apply size_ext; [done|]. by apply relinked_off.
Qed.

Lemma chain_relinked m q n L :
  known q → Forall used L.*1 → (∀ i, q = Some i → i ∉ L.*1) → 0 <= n < 2 ^ 64 → n = first_of L →
  body m L → chain (relinked m q n) q L.
Proof using Hpl.
  intros Hq Hu Hni Hn -> Hb. apply chain_body. split; [by apply relinked_next|].
  eapply (body_ext m); [done| |done]. intros i Hi. rewrite Forall_forall in Hu.
  apply relinked_off; [by apply Hu|done|]. intros <-. by eapply Hni.
Qed.

(** Storing the last link of a part keeps the others. *)
Lemma links_relinked m L n p :
  known p → Forall used L.*1 → NoDup L.*1 → (∀ i, p = Some i → i ∉ L.*1) → links m p L →
  links (relinked m (last_of p L) n) p L.
Proof using Hpl.
  revert p. induction L as [|[i z] L IH]; intros p Hp Hu Hd Hni Hl; simpl in *; [done|].
  apply Forall_cons in Hu as [Hi Hu]. apply NoDup_cons in Hd as [Hdi Hd]. destruct Hl as (H1 & H2 & H3).
  assert (Hq : known (last_of (Some i) L)).
  { destruct (last_of_in (Some i) L) as [->|(j & -> & Hj)]; [done|]. rewrite Forall_forall in Hu. by apply Hu. }
  split_and!.
  - etrans; [symmetry|exact H1]. apply next_ext; [done|]. apply relinked_off; [done..|]. intros ->.
    destruct (last_of_in (Some i) L) as [E|(j & E & Hj)]; (apply (Hni _ E), elem_of_cons); auto.
  - rewrite <- H2. by apply relinked_size.
  - apply IH; try done. by intros j [= <-].
Qed.

(** *** The calls *)

(** What holds between calls when the list is [L]. *)
Record listed (t : pstate) (s : cpu) (L : list (Z * Z)) : Prop := {
  li_steady : steady t s;
  li_chain : chain (view s) None L;
  li_nodup : NoDup L.*1;
  li_used : Forall used L.*1
}.

(** A run that takes the list from [L] to [L'], also for a crash in it. *)
Record turns (t : pstate) (s : cpu) (es : list event) (L L' : list (Z * Z)) : Prop := {
  tn_ok : Forall ev_ok es;
  tn_listed : listed (pexec t es) (log_state s es) L';
  tn_crash m : crash_during t es m → chain m None L ∨ chain m None L'
}.

Lemma list_head_eq s : table (view s) → pmfs_get_truncate_list_head s = Ok (item None, s).
Proof.
  intros [Hh _]. unfold pmfs_get_truncate_list_head, pmfs_get_inode_table.
  rewrite (bind_Ok _ _ _ _ _ (fetch_eq 8 _ _)). by rewrite Hh.
Qed.

Lemma list_item_eq s i : table (view s) → used i → pmfs_get_truncate_item i s = Ok (item (Some i), s).
Proof.
  intros [_ Hl] Hi. unfold pmfs_get_truncate_item. by rewrite (bind_Ok _ _ _ _ _ (Hl i s Hi ltac:(done))).
Qed.

Lemma link_run q n c :
  (store 8 (item q + i_next_truncate) n;; pmfs_flush_buffer clwb (item q + i_next_truncate) 8 false) c =
  Ok ((), log_state c (link_events q n false)).
Proof. rewrite (bind_Ok _ _ _ _ _ (store_eq 8 _ _ c)), pmfs_flush_buffer_eq by lia. by rewrite log_state_app. Qed.

Lemma link_fence q n : link_events q n false ++ [EFence] = link_events q n true.
Proof. unfold link_events, fence_events. by rewrite app_nil_r. Qed.

Lemma known_last L : Forall used L.*1 → known (last_of None L).
Proof.
  intros Hu. destruct (last_of_in None L) as [->|(j & -> & Hj)]; [done|].
  rewrite Forall_forall in Hu. by apply Hu.
Qed.

(** A chain is the same in memories that agree on the items' lines. *)
Lemma chain_same m1 m2 L :
  Forall used L.*1 → agree (λ x, item_line_of (line x)) m1 m2 → chain m2 None L → chain m1 None L.
Proof using Hpl.
  intros Hu Ha. apply chain_ext; [done|done| |].
  - intros x Hx. symmetry. apply Ha. by exists None.
  - intros i Hi x Hx. symmetry. apply Ha. exists (Some i). split; [|done]. rewrite Forall_forall in Hu. by apply Hu.
Qed.

Lemma first_bound L : placed → Forall used L.*1 → 0 <= first_of L < 2 ^ 64.
Proof.
  intros Hp Hu. destruct L as [|[i z] L]; simpl in *; [lia|]. apply Forall_cons in Hu as [Hi _].
  pose proof (pl_ino Hp i Hi). lia.
Qed.

Lemma del_absent s (L : list (Z * Z)) i :
  table (view s) → i ∉ L.*1 → pmfs_truncate_del clwb i L.*1 s = Ok (L.*1, s).
Proof.
  intros Ht Hi. unfold pmfs_truncate_del. rewrite (bind_Ok _ _ _ _ _ (list_head_eq s Ht)).
  by rewrite bool_decide_true.
Qed.

Lemma filter_other (l1 l2 : list Z) i :
  NoDup (l1 ++ i :: l2) → filter (λ x, x ≠ i) (l1 ++ i :: l2) = l1 ++ l2.
Proof.
  intros Hd. apply NoDup_app in Hd as (_ & H1 & [H2 _]%NoDup_cons).
  rewrite filter_app, filter_cons_False by (by intros ?).
  rewrite !filter_all; [done| |]; apply Forall_forall; intros x Hx ->; [done|].
  apply (H1 i Hx), elem_of_cons. by left.
Qed.

(** Taking the chain's link around [i]. *)
Lemma chain_del m L1 L2 i z :
  NoDup (L1 ++ (i, z) :: L2).*1 → Forall used (L1 ++ (i, z) :: L2).*1 →
  chain m None (L1 ++ (i, z) :: L2) → chain (relinked m (last_of None L1) (next m (Some i))) None (L1 ++ L2).
Proof using Hpl.
  rewrite !fmap_app, !fmap_cons. intros Hd Hu Hc.
  apply NoDup_app in Hd as (Hd1 & Hd12 & [Hdi Hd2]%NoDup_cons).
  apply Forall_app in Hu as [Hu1 [Hi Hu2]%Forall_cons].
  apply chain_app in Hc as [Hl (Hn & _ & Hc)]. pose proof (known_last L1 Hu1) as Hq.
  apply chain_body in Hc as [Hn2 Hb]. apply chain_app. split.
  - by apply links_relinked.
  - apply chain_relinked; [done|done| | |done|done].
    + intros j E Hj. destruct (last_of_in None L1) as [E'|(k & E' & Hk)]; rewrite E in E'; [done|].
      injection E' as <-. apply (Hd12 j Hk), elem_of_cons. by right.
    + rewrite Hn2. by apply first_bound.
Qed.

Lemma del_present t s L1 L2 i z :
  listed t s (L1 ++ (i, z) :: L2) →
  ∃ es, pmfs_truncate_del clwb i (L1 ++ (i, z) :: L2).*1 s = Ok ((L1 ++ L2).*1, log_state s es) ∧
    turns t s es (L1 ++ (i, z) :: L2) (L1 ++ L2).
Proof using Hpl.
  intros [Hs Hc Hd Hu]. pose proof (st_table _ _ Hs) as Ht.
  pose proof Hd as Hd'. pose proof Hu as Hu'. rewrite fmap_app, fmap_cons in Hd', Hu'. simpl in Hd', Hu'.
  pose proof Hd' as (Hd1 & Hd12 & [Hdi Hd2]%NoDup_cons)%NoDup_app.
  apply Forall_app in Hu' as [Hu1 [Hi Hu2]%Forall_cons].
  set (q := last_of None L1). set (n := next (view s) (Some i)).
  pose proof (known_last L1 Hu1) as Hq. fold q in Hq.
  assert (Hfe : Forall no_store [EFence]) by (by repeat constructor).
  pose proof (steady_quiet t s [EFence] Hs Hfe) as Hs1.
  assert (Hi1 : i ∉ L1.*1) by (intros Hin; apply (Hd12 i Hin), elem_of_cons; by left).
  exists ([EFence] ++ link_events q n true). split.
  - unfold pmfs_truncate_del. rewrite (bind_Ok _ _ _ _ _ (list_head_eq s Ht)).
    rewrite fmap_app, fmap_cons. cbn [fst].
    rewrite bool_decide_false by (intros Hn; apply Hn, elem_of_app; right; apply elem_of_cons; by left).
    rewrite (bind_Ok _ _ _ _ _ (list_item_eq s i Ht Hi)), (bind_Ok _ _ _ _ _ (fetch_eq 8 _ s)). fold n.
    unfold PERSISTENT_BARRIER. rewrite (bind_Ok _ _ _ _ _ (emit_eq EFence s)).
    rewrite list_prev_last by done. fold q.
    rewrite (bind_Ok _ _ _ () (log_state (log_state s [EFence]) (link_events q n false))).
    2: { destruct q as [prv|]; [|apply link_run]. rewrite (bind_Ok _ _ _ _ _ (list_item_eq _ prv (st_table _ _ Hs1) Hq)).
         apply link_run. }
    rewrite (bind_Ok _ _ _ _ _ (emit_eq EFence _)), filter_other, fmap_app by done.
    by rewrite !log_state_app, link_fence.
  - split.
    + apply Forall_app_2; [by constructor|by apply link_ok].
    + rewrite pexec_app, <- log_state_app. split; [by apply link_steady| | |].
      * rewrite link_view. by apply chain_del with z.
      * rewrite fmap_app. apply NoDup_app. split_and!; [done| |done]. intros x Hx Hx2.
        apply (Hd12 x Hx), elem_of_cons. by right.
      * rewrite fmap_app. by apply Forall_app_2.
    + intros m Hm. apply crash_during_app in Hm as [Hm|Hm].
      * left. apply (quiet_crash t s) in Hm; [|done|done]. by apply (chain_same m (view s)).
      * apply (link_crash _ (log_state s [EFence])) in Hm as [Ha|Ha]; [left|right|done|done].
        -- by apply (chain_same m (view s)).
        -- apply (chain_same m (relinked (view s) q n)); [rewrite fmap_app; by apply Forall_app_2|done|].
           by apply chain_del with z.
Qed.

(** *** Adding *)

Definition fill_events (i n z : Z) : list event :=
  [EStore false (item (Some i) + i_next_truncate) (bytes_of 8 n);
   EStore false (item (Some i) + i_truncatesize) (bytes_of 8 z)] ++
  flush_events clwb (item (Some i)) sizeof_truncate_item.
Definition filled (m : mem) (i n z : Z) : mem :=
  write_bytes (relinked m (Some i) n) (item (Some i) + i_truncatesize) (bytes_of 8 z).

Lemma fill_stores_in i n z :
  stores_in (in_range (item (Some i)) sizeof_truncate_item)
    [EStore false (item (Some i) + i_next_truncate) (bytes_of 8 n);
     EStore false (item (Some i) + i_truncatesize) (bytes_of 8 z)].
Proof.
  repeat apply stores_in_store; try apply stores_in_nil; intros x; rewrite length_bytes_of;
    [apply next_in|apply size_in].
Qed.

Lemma fill_stores_ok i n z : used i →
  Forall ev_ok [EStore false (item (Some i) + i_next_truncate) (bytes_of 8 n);
                EStore false (item (Some i) + i_truncatesize) (bytes_of 8 z)].
Proof using Hpl.
  intros Hi. events_ok; (apply ev_ok_aligned; [lia|by exists 8|by apply (item_aligned (Some i))]).
Qed.

Lemma item_fill_ok i n z : used i → Forall ev_ok (fill_events i n z).
Proof using Hpl. intros Hi. apply Forall_app_2; [by apply fill_stores_ok|]. apply is_flush_ev_ok, flush_events_flushes. Qed.

Lemma item_fill_in i n z : stores_in (in_range (item (Some i)) sizeof_truncate_item) (fill_events i n z).
Proof. apply stores_in_app. split; [apply fill_stores_in|apply stores_in_flushes, flush_events_flushes]. Qed.

Lemma fill_view m i n z : apply_events m (fill_events i n z) = filled m i n z.
Proof.
  unfold fill_events. rewrite apply_events_app. apply apply_events_no_store, is_flush_no_store, flush_events_flushes.
Qed.

Lemma fill_off i n z p : used i → known p → p ≠ Some i → line_stores (iline p) (fill_events i n z) = [].
Proof using Hpl.
  intros Hi Hp Hne. eapply line_stores_out; [apply item_fill_in|by apply item_fill_ok|]. intros x Hx Hin.
  apply (iline_apart p (Some i) Hp Hi Hne). rewrite <- Hx. by apply item_line.
Qed.

(** The item is durable before the head is stored. *)
Lemma fill_steady t s i n z :
  steady t s → used i →
  steady (pexec t (fill_events i n z ++ [EFence])) (log_state s (fill_events i n z ++ [EFence])).
Proof using Hpl.
  intros Hs Hi. apply steady_run; [done|apply Forall_app_2; [by apply item_fill_ok|by constructor]| |].
  - apply stores_in_app. split; [|apply stores_in_other; [done|apply stores_in_nil]].
    eapply stores_in_mono; [apply item_fill_in|]. intros x Hx. by exists (Some i).
  - intros l Hl. apply clean_fence; [by apply Hs|by apply item_fill_ok|]. unfold fill_events.
    rewrite <- (app_nil_r (flush_events _ _ _)).
    apply unflushed_covered; [done|apply fill_stores_in|by apply fill_stores_ok|constructor].
Qed.

(** A crash before that does not touch the other inodes' items. *)
Lemma fill_crash t s i n z m p :
  steady t s → used i → known p → p ≠ Some i → crash_during t (fill_events i n z ++ [EFence]) m →
  agree (on (iline p)) m (view s).
Proof using Hpl.
  intros Hs Hi Hp Hne Hm. assert (Hl : item_line_of (iline p)) by (by exists p).
  etrans; [eapply crash_off_line; [apply Hs|by apply Hs| | |exact Hm]|].
  - apply Forall_app_2; [by apply item_fill_ok|by constructor].
  - rewrite line_stores_app, fill_off by done. done.
  - intros x Hx. apply (steady_durable t s Hs). by rewrite Hx.
Qed.

Lemma filled_off m i n z p : used i → known p → p ≠ Some i → agree (on (iline p)) m (filled m i n z).
Proof using Hpl.
  intros Hi Hp Hne. etrans; [by apply (relinked_off m (Some i) n p)|]. intros x Hx. symmetry.
  apply write_bytes_out. rewrite length_bytes_of. intros Hr.
  apply (iline_apart p (Some i) Hp Hi Hne). rewrite <- Hx. apply item_line; [done|by apply size_in].
Qed.

Lemma filled_next m i n z : 0 <= n < 2 ^ 64 → next (filled m i n z) (Some i) = n.
Proof.
  intros Hn. unfold next, filled. rewrite load_write_disjoint.
  - by apply relinked_next.
  - rewrite length_bytes_of. unfold disjoint_ranges, i_truncatesize, i_next_truncate. lia.
Qed.

Lemma filled_size m i n z : 0 <= z < 2 ^ 64 → size_of (filled m i n z) i = z.
Proof. intros Hz. unfold size_of, filled. rewrite load_write_same. by apply Z.mod_small. Qed.

Lemma chain_add m L i z :
  used i → i ∉ L.*1 → Forall used L.*1 → 0 <= z < 2 ^ 64 → chain m None L →
  chain (relinked (filled m i (next m None) z) None i) None ((i, z) :: L).
Proof using Hpl.
  intros Hi Hni Hu Hz Hc. apply chain_body in Hc as [Hn Hb]. pose proof (pl_ino Hpl i Hi) as Hib.
  pose proof (first_bound L Hpl Hu) as Hf. simpl. split_and!.
  - apply relinked_next. lia.
  - rewrite relinked_size by done. by apply filled_size.
  - apply chain_body. split.
    + rewrite <- (next_ext (filled m i (next m None) z)); [|done|by apply (relinked_off _ None _ (Some i))].
      rewrite filled_next; [done|lia].
    + eapply (body_ext m); [done| |done]. intros j Hj. rewrite Forall_forall in Hu. specialize (Hu j Hj).
      etrans; [apply (filled_off m i (next m None) z (Some j)); [done|done|by intros [= ->]]|].
      by apply (relinked_off _ None _ (Some j)).
Qed.

Lemma add_present s (L : list (Z * Z)) i z b :
  table (view s) → i ∈ L.*1 → pmfs_truncate_add clwb i z b L.*1 s = Ok (L.*1, s).
Proof.
  intros Ht Hi. unfold pmfs_truncate_add. rewrite (bind_Ok _ _ _ _ _ (list_head_eq s Ht)).
  by rewrite bool_decide_true.
Qed.

Lemma fill_run i n z c : 0 <= z < 2 ^ 64 →
  (store 8 (item (Some i) + i_next_truncate) n;;
   store 8 (item (Some i) + i_truncatesize) (u64 z);;
   pmfs_flush_buffer clwb (item (Some i)) sizeof_truncate_item false) c =
  Ok ((), log_state c (fill_events i n z)).
Proof.
  intros Hz. rewrite (bind_Ok _ _ _ _ _ (store_eq 8 _ _ c)), (bind_Ok _ _ _ _ _ (store_eq 8 _ _ _)).
  rewrite pmfs_flush_buffer_eq by (unfold sizeof_truncate_item; lia). rewrite !log_state_app, (wrap_small 64) by done.
  unfold fill_events, fence_events. by rewrite app_nil_r.
Qed.

(** In a transaction the last fence is left to the transaction. *)
Lemma add_absent t s L i z b :
  listed t s L → used i → i ∉ L.*1 → 0 <= z < 2 ^ 64 →
  ∃ es, pmfs_truncate_add clwb i z b L.*1 s = Ok (((i, z) :: L).*1, log_state s es) ∧
    Forall ev_ok es ∧ chain (view (log_state s es)) None ((i, z) :: L) ∧
    (∀ m, crash_during t es m → chain m None L ∨ chain m None ((i, z) :: L)) ∧
    (b = false → listed (pexec t es) (log_state s es) ((i, z) :: L)).
Proof using Hpl.
  intros [Hs Hc Hd Hu] Hi Hni Hz. pose proof (st_table _ _ Hs) as Ht. set (n := next (view s) None).
  pose proof (fill_steady t s i n z Hs Hi) as Hs1. set (es1 := fill_events i n z ++ [EFence]) in *.
  assert (Hok : Forall ev_ok (es1 ++ link_events None i (negb b))).
  { apply Forall_app_2; [apply Forall_app_2; [by apply item_fill_ok|by constructor]|by apply link_ok]. }
  assert (Hv : view (log_state s es1) = filled (view s) i n z).
  { simpl. unfold es1. rewrite apply_events_app, fill_view. done. }
  assert (Hch : chain (relinked (view (log_state s es1)) None i) None ((i, z) :: L)).
  { rewrite Hv. by apply chain_add. }
  assert (Hold : ∀ m, (∀ p, known p → p ≠ Some i → agree (on (iline p)) m (view s)) → chain m None L).
  { intros m Ha. eapply (chain_ext (view s)); [done|done|symmetry; by apply Ha| |done].
    intros j Hj. symmetry. rewrite Forall_forall in Hu. apply Ha; [by apply Hu|by intros [= ->]]. }
  assert (Hu' : Forall used ((i, z) :: L).*1) by (by constructor).
  exists (es1 ++ link_events None i (negb b)). split_and!.
  - unfold pmfs_truncate_add. rewrite (bind_Ok _ _ _ _ _ (list_head_eq s Ht)).
    rewrite bool_decide_false by done. rewrite (bind_Ok _ _ _ _ _ (list_item_eq s i Ht Hi)).
    rewrite (bind_Ok _ _ _ _ _ (fetch_eq 8 _ s)). change (load 8 _ _) with n.
    pose proof (fill_run i n z s Hz) as Ef. 
    rewrite !(bind_Ok _ _ _ _ _ (store_eq 8 _ _ _)) in Ef. rewrite !(bind_Ok _ _ _ _ _ (store_eq 8 _ _ _)).
    rewrite (bind_Ok _ _ _ _ _ Ef). unfold PERSISTENT_BARRIER. rewrite (bind_Ok _ _ _ _ _ (emit_eq EFence _)), log_state_app.
    fold es1. pose proof (link_run None i (log_state s es1)) as El.
    rewrite (bind_Ok _ _ _ _ _ (store_eq 8 _ _ _)) in El.
    rewrite (bind_Ok _ _ _ _ _ (store_eq 8 _ _ _)), (bind_Ok _ _ _ _ _ El).
    destruct b; cbn [negb when]; [by rewrite log_state_app|].
    rewrite (bind_Ok _ _ _ _ _ (emit_eq EFence _)), log_state_app, link_fence. by rewrite log_state_app.
  - done.
  - by rewrite <- log_state_app, link_view.
  - intros m Hm. apply crash_during_app in Hm as [Hm|Hm].
    + left. apply Hold. intros p Hp Hne. by apply (fill_crash t s i n z).
    + apply (link_crash _ (log_state s es1)) in Hm as [Ha|Ha]; [left|right|done|done].
      * apply Hold. intros p Hp Hne. etrans; [intros x Hx; apply Ha; exists p; by rewrite Hx|].
        rewrite Hv. symmetry. by apply filled_off.
      * by apply (chain_same m _ ((i, z) :: L) Hu' Ha).
  - intros ->. rewrite pexec_app, <- log_state_app. split; [by apply link_steady|by rewrite link_view| |done].
    simpl. by apply NoDup_cons.
Qed.

(** ** Sequences of calls *)

(** The list after a call: what the two functions promise. *)
Definition list_after (L : list (Z * Z)) (c : list_call) : list (Z * Z) :=
  match c with
  | TruncateAdd i z => if decide (i ∈ L.*1) then L else (i, z) :: L
  | TruncateDel i => filter (λ p, p.1 ≠ i) L
  end.
Definition call_ok (c : list_call) : Prop :=
  match c with TruncateAdd i z => used i ∧ 0 <= z < 2 ^ 64 | TruncateDel _ => True end.

Lemma listed_quiet t s L : listed t s L → turns t s [] L L.
Proof using Hpl.
  intros HL. split; [done| |].
  - unfold log_state. simpl. rewrite app_nil_r. by destruct s.
  - intros m Hm. left. apply (chain_same m (view s)); [apply HL| |apply HL].
    by apply (quiet_crash t s []); [apply HL|constructor|].
Qed.

Lemma filter_absent (L : list (Z * Z)) i : i ∉ L.*1 → filter (λ p, p.1 ≠ i) L = L.
Proof.
  intros Hi. apply filter_all, Forall_forall. intros [j z] Hj E. simpl in E. subst j.
  apply Hi, list_elem_of_fmap. by exists (i, z).
Qed.

Lemma filter_present (L1 L2 : list (Z * Z)) i z :
  NoDup (L1 ++ (i, z) :: L2).*1 → filter (λ p, p.1 ≠ i) (L1 ++ (i, z) :: L2) = L1 ++ L2.
Proof.
  rewrite fmap_app, fmap_cons. intros (_ & H1 & [H2 _]%NoDup_cons)%NoDup_app.
  rewrite filter_app, filter_cons_False by (simpl; by intros ?). rewrite !filter_absent; [done|done|].
  intros Hi. apply (H1 i Hi), elem_of_cons. by left.
Qed.

Lemma call_result t s L c :
  listed t s L → call_ok c →
  ∃ es, run_call clwb c L.*1 s = Ok ((list_after L c).*1, log_state s es) ∧ turns t s es L (list_after L c).
Proof using Hpl.
  intros HL Hok. pose proof (st_table _ _ (li_steady _ _ _ HL)) as Ht.
  assert (Hnil : log_state s [] = s) by (unfold log_state; simpl; rewrite app_nil_r; by destruct s).
  destruct c as [i z|i]; simpl in *.
  - destruct Hok as [Hi Hz]. case_decide as Hin.
    + exists []. rewrite Hnil. split; [by apply add_present|by apply listed_quiet].
    + destruct (add_absent t s L i z false HL Hi Hin Hz) as (es & E & Ho & _ & Hc & Hl). exists es.
      split; [done|]. split; [done|by apply Hl|done].
  - destruct (decide (i ∈ L.*1)) as [Hin|Hin].
    + apply list_elem_of_fmap in Hin as ([j z] & Ej & Hin). simpl in Ej. subst j.
      apply list_elem_of_split in Hin as (L1 & L2 & ->). rewrite filter_present by apply HL. by apply del_present.
    + rewrite filter_absent by done. exists []. rewrite Hnil. split; [by apply del_absent|by apply listed_quiet].
Qed.

(** C12: any sequence of calls outside of a transaction that put inodes on the
    truncate list and take them off, run from a state whose list is [L] and settled, does what the same
    sequence does to the list of pairs: the VFS's list follows it, the chain in
    persistent memory is durable when the calls have returned, and a power
    failure at any point finds the chain as it was after some of the calls, never
    a broken one.  Putting an inode on the list that is there, and taking one off
    that is not, changes nothing. *)
Theorem truncate_list_crash_safe t s L cs :
  listed t s L → Forall call_ok cs →
  ∃ es, run_calls clwb cs L.*1 s = Ok ((foldl list_after L cs).*1, log_state s es) ∧
    listed (pexec t es) (log_state s es) (foldl list_after L cs) ∧
    (∀ m, crash_image (pexec t es) m → chain m None (foldl list_after L cs)) ∧
    ∀ m, crash_during t es m → ∃ cs', cs' `prefix_of` cs ∧ chain m None (foldl list_after L cs').
Proof using Hpl.
  intros HL Hok.
  assert (∃ es, run_calls clwb cs L.*1 s = Ok ((foldl list_after L cs).*1, log_state s es) ∧
    listed (pexec t es) (log_state s es) (foldl list_after L cs) ∧
    ∀ m, crash_during t es m → ∃ cs', cs' `prefix_of` cs ∧ chain m None (foldl list_after L cs'))
    as (es & H1 & H2 & H3).
  { revert t s L HL. induction Hok as [|c cs Hc Hok IH]; intros t s L HL.
    - destruct (listed_quiet t s L HL) as [_ Hl Hm]. exists []. split_and!; [|done|].
      + unfold log_state. simpl. rewrite app_nil_r. by destruct s.
      + intros m Hcr. exists []. split; [done|]. by destruct (Hm m Hcr).
    - destruct (call_result t s L c HL Hc) as (es1 & E1 & [_ Hl Hm]).
      destruct (IH _ _ _ Hl) as (es2 & E2 & Hl2 & Hm2).
      exists (es1 ++ es2). rewrite pexec_app, <- log_state_app. split_and!; [|done|].
      + simpl. by rewrite (bind_Ok _ _ _ _ _ E1).
      + intros m Hcr. apply crash_during_app in Hcr as [Hcr|Hcr].
        * destruct (Hm m Hcr); [exists []|exists [c]]; (split; [|done]); [by apply prefix_nil|].
          by apply prefix_cons, prefix_nil.
        * destruct (Hm2 m Hcr) as (cs' & Hp & Hch). exists (c :: cs'). split; [by apply prefix_cons|done]. }
  exists es. split_and!; [done..| |done]. intros m Hm.
  destruct (listed_quiet _ _ _ H2) as [_ _ Hq]. by destruct (Hq m (crash_during_end _ [] m Hm)).
Qed.
End List.

(** ** A concrete input *)

(** Inodes 128 and 256 in block 2; the list is empty. *)
Section Demo.
Local Existing Instance bytewise_write.

Definition list_mem : mem := write_bytes (write_bytes ∅ 40 (bytes_of 8 1024)) (1024 + pi_root) (bytes_of 8 8192).
Definition list_used (i : Z) : Prop := i = 128 ∨ i = 256.
Definition list_addr (i : Z) : Z := 8192 + i.
Definition list_calls : list list_call :=
  [TruncateAdd 128 4096; TruncateAdd 256 100; TruncateAdd 128 0; TruncateDel 128].

Lemma list_placed : placed list_used list_addr 1024.
Proof.
  unfold list_used. split.
  - intros [i|] Hp; simpl in *; unfold list_addr; [|done]. destruct Hp as [-> | ->]; done.
  - intros [i|] [j|] Hp Hq Hne; simpl in *; unfold list_addr; try done; [intros E; apply Hne; f_equal; lia| |];
      destruct_or?; subst; done.
  - intros i [-> | ->]; lia.
Qed.

Lemma list_item_bytes x : item_byte list_used list_addr 1024 x → 1104 <= x < 1120 ∨ 8192 <= x.
Proof.
  intros ([i|] & Hp & Hx); unfold in_range, item, inode_of, list_addr, truncate_item, sizeof_pmfs_inode, sizeof_truncate_item in Hx;
    [right|left; lia]. destruct Hp as [-> | ->]; lia.
Qed.

Lemma list_table : table list_used list_addr 1024 list_mem.
Proof.
  split; [by vm_compute|]. intros i c Hi Ha.
  assert (Hl : ∀ k a, 0 <= a → a + Z.of_nat k <= 1104 → load k (view c) a = load k list_mem a).
  { intros k a H1 H2. apply load_ext. intros x Hx. apply Ha. unfold in_range in Hx.
    intros [? | ?]%list_item_bytes; lia. }
  unfold pmfs_get_inode, pmfs_get_inode_table, pmfs_inode_blk_shift, pmfs_inode_blk_size, inode_blk_type, __pmfs_find_data_block.
  rewrite (bind_Ok _ _ _ _ _ (fetch_eq 8 _ c)), Hl by (unfold s_inode_table_offset; lia).
  change (load 8 list_mem s_inode_table_offset) with 1024.
  rewrite (proj2 (Z.eqb_neq i 0)) by (destruct Hi; lia).
  rewrite (bind_Ok _ _ _ 12 c) by (rewrite (bind_Ok _ _ _ _ _ (fetch_eq 1 _ c)), Hl by (unfold pi_i_blk_type; lia); done).
  rewrite (bind_Ok _ _ _ 8192 c).
  - change (8192 =? 0) with false. cbv iota.
    rewrite (bind_Ok _ _ _ 4096 c) by (rewrite (bind_Ok _ _ _ _ _ (fetch_eq 1 _ c)), Hl by (unfold pi_i_blk_type; lia); done).
    destruct Hi as [-> | ->]; done.
  - rewrite (bind_Ok _ _ _ _ _ (fetch_eq 1 _ c)), Hl by (unfold pi_height; lia).
    rewrite (bind_Ok _ _ _ _ _ (fetch_eq 8 _ c)), Hl by (unfold pi_root; lia). done.
Qed.

Lemma truncate_list_crash_safe_witness :
  ∃ es, run_calls true list_calls [] (Cpu list_mem []) = Ok ([256], log_state (Cpu list_mem []) es) ∧
    listed list_used list_addr 1024 (pexec (PState list_mem []) es) (log_state (Cpu list_mem []) es) [(256, 100)] ∧
    (∀ m, crash_image (pexec (PState list_mem []) es) m → chain list_addr 1024 m None [(256, 100)]) ∧
    ∀ m, crash_during (PState list_mem []) es m → ∃ cs', cs' `prefix_of` list_calls ∧
      chain list_addr 1024 m None (foldl list_after [] cs').
Proof.
  apply (truncate_list_crash_safe true list_used list_addr 1024 list_placed (PState list_mem []) (Cpu list_mem []) [] list_calls).
  - split; [split|..].
    + apply pwf_nil.
    + done.
    + intros l _. done.
    + exact list_table.
    + by vm_compute.
    + constructor.
    + constructor.
  - repeat constructor; lia.
Defined.
End Demo.
