(* ===== verification/PmfsInodeMain.v ===== *)
(** * PMFS: creating inodes

    The search for a free inode finds the first at or behind the hint
    ([find_free_inode_least]); what [pmfs_update_inode] stores is what
    [pmfs_read_inode] reads ([inode_update_read]); and a new inode takes a free
    place in the table and nothing else ([new_inode_correct]).  At the end,
    runs that show where the code does not do what it means to. *)

From stdpp Require Import base list gmap.
From Stdlib Require Import ZArith Lia.
From coqutil Require Import Byte Word.LittleEndianList.
From S2P Require Import Prelude PMem PMemLine NovaBase PmfsJournal PmfsRecover PmfsTrans PmfsCrash.
From S2P Require Import PmfsBalloc PmfsBallocProofs PmfsBallocMain PmfsTree PmfsTreeProofs PmfsTreeAlloc.
From S2P Require Import PmfsBuild PmfsBuildProofs PmfsBuildMain PmfsInode.

Local Open Scope Z_scope.

(** ** The search *)

Section Search.
(** The table: [ad i] is the address of inode [i]; there are [num] of them, [per]
    to a block of the table, next to each other within a block.  Inode 0 is not one. *)
Variables (ad : Z → Z) (num per : Z) (c : cpu).

Record table_at : Prop := {
  ta_num : 0 <= num < 2 ^ 24;
  ta_per : ∃ k, 0 <= k <= 23 ∧ per = 2 ^ k;
  ta_whole : (per | num);
  ta_look i : 0 < i < num → pmfs_get_inode (ino_of i) c = Ok (Some (ad i), c);
  ta_next i : 0 <= i → i + 1 < num → (i + 1) mod per ≠ 0 → ad (i + 1) = ad i + PMFS_INODE_SIZE
}.
Hypothesis Htab : table_at.

(** The inodes from [a] to [b - 1] are not free. *)
Definition all_active (a b : Z) : Prop := ∀ j, a <= j < b → inode_free (view c) (ad j) = false.

(** [j] is the first free inode in [a, b), or [b]. *)
Definition first_free (a b j : Z) : Prop :=
  a <= j <= b ∧ all_active a j ∧ (j < b → inode_free (view c) (ad j) = true).

Lemma is_free_eq pi : inode_is_free pi c = Ok (inode_free (view c) pi, c).
Proof. by apply inode_is_free_eq. Qed.

(** The rest of a block. *)
Lemma block_scan_eq n : ∀ i e,
  0 <= i → e = i + Z.of_nat n → e <= num → (∀ j, i < j < e → j mod per ≠ 0) → 
  ∃ j p, block_scan n (ad i) i c = Ok ((p, j), c) ∧ first_free i e j ∧ (j < e → p = ad j).
Proof using Htab.
  induction n as [|n IH]; intros i e Hi He Hnum Hin.
  { exists i, (ad i). split; [done|]. split; [|lia]. split; [lia|]. split; [intros j; lia|lia]. }
  cbn [block_scan]. rewrite (bind_Ok _ _ _ _ _ (is_free_eq (ad i))).
  destruct (inode_free (view c) (ad i)) eqn:Ef.
  { exists i, (ad i). split; [done|]. split; [|done]. split; [lia|]. split; [intros j; lia|done]. }
  destruct (decide (n = O)) as [->|Hn].
  { exists (i + 1), (ad i + PMFS_INODE_SIZE). split; [done|]. split; [|lia]. split; [lia|]. split; [|lia].
    intros j Hj. by replace j with i by lia. }
  rewrite <- (ta_next Htab i) by (try apply Hin; lia).
  destruct (IH (i + 1) e) as (j & p & E & (H1 & H2 & H3) & H4); [lia..|intros j Hj; apply Hin; lia|].
  exists j, p. split; [exact E|]. split; [|done]. split; [lia|]. split; [|done].
  intros j' Hj'. destruct (decide (j' = i)) as [->|]; [done|]. apply H2. lia.
Qed.

(** Where the block of [i] ends. *)
Lemma block_end_bounds i : 0 <= i < num →
  block_end_of per i = per * (i / per + 1) ∧ i < block_end_of per i <= num ∧
  ∀ j, i < j < block_end_of per i → j mod per ≠ 0.
Proof using Htab.
  intros Hi. destruct Htab as [Hnum (k & Hk & Ek) [q Hq] _ _]. assert (Hper : 0 < per) by (rewrite Ek; apply Z.pow_pos_nonneg; lia).
  pose proof (Z.div_mod i per ltac:(lia)) as Hd. pose proof (Z.mod_pos_bound i per Hper) as Hm.
  assert (E : block_end_of per i = per * (i / per + 1)).
  { unfold block_end_of. rewrite Ek at 2. rewrite land_mask_mod by lia. rewrite <- Ek.
    rewrite wrap_small; [lia|]. assert (per <= 2 ^ 23) by (rewrite Ek; apply Z.pow_le_mono_r; lia). lia. }
  rewrite E. assert (i / per < q) by (apply Z.div_lt_upper_bound; lia).
  split_and!; [done|lia|nia|]. intros j Hj Hz. apply Z.mod_divide in Hz as [r ->]; [|lia]. assert (i / per < r) by (apply Z.div_lt_upper_bound; lia). nia.
Qed.

Lemma table_scan_eq fuel : ∀ pi i,
  0 < i <= num → (Z.to_nat (num - i) <= fuel)%nat →
  ∃ j p, table_scan fuel num per pi i c = Ok ((p, j), c) ∧ first_free i num j ∧ (j < num → p = Some (ad j)).
Proof using Htab.
  induction fuel as [|fuel IH]; intros pi i Hi Hf; cbn [table_scan]; destruct (Z.ltb_spec i num) as [Hlt|Hge]; try lia.
  1, 3: exists i, pi; split; [done|]; split; [|lia]; split; [lia|]; split; [intros j; lia|lia].
  destruct (block_end_bounds i ltac:(lia)) as (_ & Hb & Hin). set (e := block_end_of per i) in *.
  rewrite (bind_Ok _ _ _ _ _ (ta_look Htab i ltac:(lia))). cbn [deref]. rewrite (bind_Ok (mret _) _ c _ c eq_refl).
  destruct (block_scan_eq (Z.to_nat (e - i)) i e) as (j & p & E & Hff & Hp); [lia..|done|].
  rewrite (bind_Ok _ _ _ _ _ E). destruct Hff as (H1 & H2 & H3). destruct (Z.ltb_spec j e) as [Hje|Hje].
  - exists j, (Some p). split; [done|]. rewrite (Hp Hje). split; [|done]. split; [lia|]. split; [done|]. intros _. by apply H3.
  - assert (j = e) as -> by lia. destruct (IH (Some p) e) as (j & p' & E' & (G1 & G2 & G3) & G4); [lia..|].
    exists j, p'. split; [exact E'|]. split; [|done]. split; [lia|]. split; [|done].
    intros j' Hj'. destruct (Z.lt_ge_cases j' e); [by apply H2; lia|by apply G2; lia].
Qed.
End Search.

(** ** Storing and reading an inode *)

(** The flags both sides have a bit for. *)
Definition shared_flags : Z := set_of flag_pairs.*1.
Definition disk_flags : Z := set_of flag_pairs.*2.

(** A bit of [2 ^ k] or none. *)
Lemma land_bit f k : 0 <= k → Z.land f (2 ^ k) = if Z.testbit f k then 2 ^ k else 0.
Proof.
  intros Hk. apply Z.bits_inj_iff'. intros i Hi. rewrite Z.land_spec, Z.pow2_bits_eqb by lia.
  destruct (Z.eqb_spec k i) as [->|Hne].
  - rewrite andb_true_r. destruct (Z.testbit f i); [by rewrite Z.pow2_bits_true|by rewrite Z.bits_0].
  - rewrite andb_false_r. destruct (Z.testbit f k); [by rewrite Z.pow2_bits_false|by rewrite Z.bits_0].
Qed.

Lemma copy_flags_bit from to f acc t :
  Z.testbit (copy_flags from to f acc) t =
  Z.testbit acc t || existsb (λ p, negb (Z.land f (from p) =? 0) && Z.testbit (to p) t) flag_pairs.
Proof.
  unfold copy_flags. generalize flag_pairs. intros l. revert acc.
  induction l as [|p l IH]; intros acc; simpl; [by rewrite orb_false_r|]. rewrite IH.
  destruct (Z.land f (from p) =? 0); simpl; [done|]. by rewrite Z.lor_spec, orb_assoc.
Qed.

(** The inode has the flags that were copied to it. *)
Lemma copied_flag f old k j :
  Z.land old disk_flags = 0 → (2 ^ j, 2 ^ k) ∈ flag_pairs → 0 <= k →
  (Z.land (copy_flags fst snd f old) (2 ^ k) =? 0) = (Z.land f (2 ^ j) =? 0).
Proof.
  intros Hold Hin Hk. rewrite (land_bit _ k Hk), copy_flags_bit.
  assert (Hd : Z.testbit disk_flags k = true ∧
    existsb (λ p, negb (Z.land f p.1 =? 0) && Z.testbit p.2 k) flag_pairs = negb (Z.land f (2 ^ j) =? 0)).
  { unfold flag_pairs, S_APPEND, S_IMMUTABLE in Hin |- *.
    repeat (apply elem_of_cons in Hin as [E|Hin]; [injection E as -> E|]); [| | | | |by apply elem_of_nil in Hin].
    all: match type of E with _ = ?v => let l := eval compute in (Z.log2 v) in
           assert (k = l) as -> by (apply (Z.pow_inj_r 2); [lia|lia|lia|exact E]) end.
    all: split; [done|]; cbn [existsb fst snd]; rewrite ?(Z.mul_comm _ 1);
      repeat match goal with |- context [Z.testbit ?a ?b] => let v := eval compute in (Z.testbit a b) in change (Z.testbit a b) with v end;
      by rewrite ?andb_false_r, ?andb_true_r, ?orb_false_r. }
  destruct Hd as [Hd ->]. assert (Z.testbit old k = false) as ->.
  { destruct (Z.testbit old k) eqn:Eb; [|done]. apply (f_equal (λ x, Z.testbit x k)) in Hold.
    by rewrite Z.land_spec, Eb, Hd, Z.bits_0 in Hold. }
  destruct (Z.land f (2 ^ j) =? 0); simpl; [done|]. apply Z.eqb_neq. pose proof (Z.pow_pos_nonneg 2 k). lia.
Qed.

(** Flags go out to the inode and come back. *)
Lemma flags_roundtrip f old acc :
  Z.land old disk_flags = 0 →
  copy_flags snd fst (copy_flags fst snd f old) acc = Z.lor acc (Z.land f shared_flags).
Proof.
  intros Hold. set (F := copy_flags fst snd f old).
  assert (Hc : ∀ k j, (2 ^ j, 2 ^ k) ∈ flag_pairs → 0 <= k → (Z.land F (2 ^ k) =? 0) = (Z.land f (2 ^ j) =? 0))
    by (intros; by apply copied_flag).
  pose proof (Hc 3 0 ltac:(set_solver) ltac:(lia)) as E0. pose proof (Hc 5 2 ltac:(set_solver) ltac:(lia)) as E2.
  pose proof (Hc 4 3 ltac:(set_solver) ltac:(lia)) as E3. pose proof (Hc 7 1 ltac:(set_solver) ltac:(lia)) as E1.
  pose proof (Hc 16 6 ltac:(set_solver) ltac:(lia)) as E6.
  assert (Es : Z.land f shared_flags =
    Z.lor (Z.land f (2 ^ 0)) (Z.lor (Z.land f (2 ^ 2)) (Z.lor (Z.land f (2 ^ 3)) (Z.lor (Z.land f (2 ^ 1)) (Z.land f (2 ^ 6)))))).
  { by rewrite <- !Z.land_lor_distr_r. }
  clear Hc. clearbody F. rewrite Es. unfold copy_flags, flag_pairs, S_APPEND, S_IMMUTABLE. cbn [foldl fst snd].
  pose proof (land_bit f 0 ltac:(lia)) as L0. pose proof (land_bit f 2 ltac:(lia)) as L2.
  pose proof (land_bit f 3 ltac:(lia)) as L3. pose proof (land_bit f 1 ltac:(lia)) as L1.
  pose proof (land_bit f 6 ltac:(lia)) as L6.
  change (2 ^ 0) with 1 in *. change (2 ^ 1) with 2 in *. change (2 ^ 2) with 4 in *. change (2 ^ 3) with 8 in *.
  change (2 ^ 4) with 16 in *. change (2 ^ 5) with 32 in *. change (2 ^ 6) with 64 in *. change (2 ^ 7) with 128 in *.
  change (2 ^ 16) with 65536 in *.
  rewrite E0, E2, E3, E1, E6, L0, L2, L3, L1, L6. clear.
  destruct (Z.testbit f 0), (Z.testbit f 2), (Z.testbit f 3), (Z.testbit f 1), (Z.testbit f 6);
    cbn; rewrite <- ?Z.lor_assoc, ?Z.lor_0_r; done.
Qed.

Lemma lor_small w a b : 0 <= w → 0 <= a < 2 ^ w → 0 <= b < 2 ^ w → 0 <= Z.lor a b < 2 ^ w.
Proof.
  intros Hw Ha Hb. assert (E : Z.lor a b = Z.lor a b mod 2 ^ w).
  { rewrite <- Z.land_ones, Z.land_lor_distr_l, !Z.land_ones by lia. by rewrite !Z.mod_small. }
  rewrite E. apply Z.mod_pos_bound. lia.
Qed.

Lemma copy_flags_small f acc : 0 <= acc < 2 ^ 32 → 0 <= copy_flags fst snd f acc < 2 ^ 32.
Proof.
  unfold copy_flags. assert (Hl : Forall (λ p : Z * Z, 0 <= p.2 < 2 ^ 32) flag_pairs) by (repeat constructor; done).
  revert acc Hl. generalize flag_pairs. intros l acc Hl. revert acc.
  induction Hl as [|p l Hp Hl IH]; intros acc Ha; simpl; [done|]. apply IH.
  destruct (Z.land f p.1 =? 0); [done|]. apply lor_small; [lia|done|done].
Qed.

(** What of the inode's flags is not shared. *)
Definition kept_flags (flags : Z) : Z := Z.land flags (u32 (Z.lnot disk_flags)).

Lemma kept_small flags : 0 <= flags < 2 ^ 32 → 0 <= kept_flags flags < 2 ^ 32.
Proof.
  intros Hf. unfold kept_flags. rewrite <- (Z.mod_small flags (2 ^ 32)) by done. rewrite <- Z.land_ones by lia.
  rewrite <- Z.land_assoc, (Z.land_comm (Z.ones 32)), Z.land_assoc, Z.land_ones by lia. apply Z.mod_pos_bound. lia.
Qed.

(** The inherited flags that the VFS has too: sync, noatime and dirsync. *)
Definition vfs_inherited : Z := Z.land disk_flags PMFS_FL_INHERITED.

(** A parent without those passes on flags that are not shared. *)
Lemma mask_flags_kept mode f :
  0 <= f < 2 ^ 32 → Z.land f vfs_inherited = 0 →
  0 <= pmfs_mask_flags mode f < 2 ^ 32 ∧ kept_flags (pmfs_mask_flags mode f) = pmfs_mask_flags mode f.
Proof.
  intros Hf Hv.
  assert (Hk : ∀ k, Z.land k disk_flags = Z.land k vfs_inherited → k = Z.land k (Z.ones 32) →
    0 <= Z.land f k < 2 ^ 32 ∧ kept_flags (Z.land f k) = Z.land f k).
  { intros k Hd Hs. split.
    - rewrite Hs, Z.land_assoc, Z.land_ones by lia. apply Z.mod_pos_bound. lia.
    - unfold kept_flags. change (u32 (Z.lnot disk_flags)) with (Z.ldiff (Z.ones 32) disk_flags).
      apply Z.bits_inj_iff'. intros i Hi. rewrite Hs at 2. rewrite !Z.land_spec, Z.ldiff_spec.
      destruct (Z.testbit f i) eqn:Ef; [|done]. destruct (Z.testbit k i) eqn:Ek; [|done].
      destruct (Z.testbit disk_flags i) eqn:Ed; [|by destruct (Z.testbit (Z.ones 32) i)].
      pose proof (f_equal (λ z, Z.testbit z i) Hd) as Hb. pose proof (f_equal (λ z, Z.testbit z i) Hv) as Hz.
      cbn beta in Hb, Hz. rewrite !Z.land_spec, Ek, Ed in Hb. rewrite Z.land_spec, Ef, <- Hb in Hz.
      by rewrite Z.bits_0 in Hz. }
  unfold pmfs_mask_flags. repeat case_match; rewrite <- ?Z.land_assoc; by apply Hk.
Qed.

Lemma kept_disjoint flags : Z.land (kept_flags flags) disk_flags = 0.
Proof. unfold kept_flags. rewrite <- Z.land_assoc. change (Z.land (u32 (Z.lnot disk_flags)) disk_flags) with 0. apply Z.land_0_r. Qed.

(** The values fit their fields. *)
Record fits (v : vnode) : Prop := {
  ft_mode : 0 <= i_mode v < 2 ^ 16;
  ft_uid : 0 <= i_uid v < 2 ^ 32;
  ft_gid : 0 <= i_gid v < 2 ^ 32;
  ft_nlink : 0 <= i_nlink v < 2 ^ 16;
  ft_size : 0 <= i_size (base v) < 2 ^ 64;
  ft_blocks : 0 <= i_blocks (base v) < 2 ^ 64;
  ft_atime : 0 <= i_atime v < 2 ^ 32;
  ft_ctime : 0 <= i_ctime (base v) < 2 ^ 32;
  ft_mtime : 0 <= i_mtime (base v) < 2 ^ 32;
  ft_gen : 0 <= i_generation v < 2 ^ 32;
  ft_rdev : 0 <= i_rdev v < 2 ^ 32
}.

Definition is_device (v : vnode) : bool := S_ISCHR (i_mode v) || S_ISBLK (i_mode v).

(** The inode at [pi] is [v], in the fields the two share. *)
Record stored (v : vnode) (pi : Z) (m : mem) : Prop := {
  sd_mode : load 2 m (pi + pi_i_mode) = i_mode v;
  sd_uid : load 4 m (pi + pi_i_uid) = i_uid v;
  sd_gid : load 4 m (pi + pi_i_gid) = i_gid v;
  sd_nlink : load 2 m (pi + pi_i_links_count) = i_nlink v;
  sd_size : load 8 m (pi + pi_i_size) = i_size (base v);
  sd_blocks : load 8 m (pi + pi_i_blocks) = i_blocks (base v);
  sd_atime : load 4 m (pi + pi_i_atime) = i_atime v;
  sd_ctime : load 4 m (pi + pi_i_ctime) = i_ctime (base v);
  sd_mtime : load 4 m (pi + pi_i_mtime) = i_mtime (base v);
  sd_gen : load 4 m (pi + pi_i_generation) = i_generation v;
  sd_rdev : is_device v = true → load 4 m (pi + pi_rdev) = i_rdev v;
  sd_flags : ∃ old, Z.land old disk_flags = 0 ∧
    load 4 m (pi + PmfsTree.pi_i_flags) = copy_flags fst snd (i_flags v) old
}.

(** The fields [pmfs_update_inode] leaves alone. *)
Definition other_inode_field (pi x : Z) : Prop :=
  in_range pi 4 x ∨ in_range (pi + pi_root) 8 x ∨ in_range (pi + pi_i_dtime) 4 x ∨ in_range (pi + pi_i_xattr) 8 x.

Ltac field_offsets :=
  unfold pi_i_mode, pi_i_uid, pi_i_gid, pi_i_links_count, pi_i_size, pi_i_blocks, pi_i_atime, pi_i_ctime,
    pi_i_mtime, pi_i_generation, pi_rdev, PmfsTree.pi_i_flags, pi_root, pi_height, pi_i_blk_type, pi_i_dtime, pi_i_xattr, sizeof_pmfs_inode in *.
(** A load behind stores to other fields. *)
Ltac load_field :=
  repeat (rewrite load_write_disjoint by (rewrite length_bytes_of; unfold disjoint_ranges; field_offsets; lia));
  rewrite load_write_same; apply Z.mod_small; simpl Z.of_nat; try done.

Section Copy.
Context `{CachedWrite}.
Variable clwb : bool.

Lemma apply_store m nt a bs : apply_events m [EStore nt a bs] = write_bytes m a bs.
Proof. done. Qed.

Lemma update_inode_eq v pi c :
  fits v →
  ∃ c', pmfs_update_inode clwb v pi c = Ok ((), c') ∧ stored v pi (view c') ∧
    agree (λ x, ¬ in_range pi sizeof_pmfs_inode x ∨ other_inode_field pi x) (view c') (view c) ∧
    load 4 (view c') (pi + PmfsTree.pi_i_flags) =
      copy_flags fst snd (i_flags v) (kept_flags (load 4 (view c) (pi + PmfsTree.pi_i_flags))).
Proof.
  intros [F1 F2 F3 F4 F5 F6 F7 F8 F9 F10 F11]. unfold pmfs_update_inode.
  do 10 rewrite (bind_Ok _ _ _ _ _ (store_eq _ _ _ _)).
  unfold pmfs_get_inode_flags. rewrite bind_assoc, (bind_Ok _ _ _ _ _ (fetch_eq 4 _ _)).
  fold disk_flags. set (flags := load 4 _ _). pose proof (load_bound 4 _ _ : 0 <= flags < 2 ^ 32) as Hfl.
  assert (Efl : flags = load 4 (view c) (pi + PmfsTree.pi_i_flags)).
  { unfold flags. cbn [view log_state]. rewrite !apply_store.
    repeat (rewrite load_write_disjoint by (rewrite length_bytes_of; unfold disjoint_ranges; field_offsets; lia)). done. }
  change (Z.land flags (u32 (Z.lnot disk_flags))) with (kept_flags flags).
  pose proof (copy_flags_small (i_flags v) _ (kept_small flags Hfl)) as Hcp.
  set (cf := copy_flags fst snd (i_flags v) (kept_flags flags)) in *.
  rewrite (bind_Ok _ _ _ _ _ (store_eq _ _ _ _)).
  fold (is_device v).
  set (c1 := log_state _ [EStore false (pi + PmfsTree.pi_i_flags) (bytes_of 4 cf)]).
  assert (E1 : ∃ c2, when (is_device v) (store 4 (pi + pi_rdev) (i_rdev v)) c1 = Ok ((), c2) ∧
    view c2 = if is_device v then write_bytes (view c1) (pi + pi_rdev) (bytes_of 4 (i_rdev v)) else view c1).
  { destruct (is_device v); eexists; done. }
  destruct E1 as (c2 & E1 & Ev). rewrite (bind_Ok _ _ _ _ _ E1).
  rewrite pmfs_flush_buffer_eq by (unfold sizeof_pmfs_inode; lia). eexists. split; [done|].
  rewrite (flush_keeps_view c2 clwb pi sizeof_pmfs_inode : view (log_state c2 _) = _), Ev. clear E1 Ev.
  unfold c1. cbn [view log_state]. rewrite !apply_store. clear c1. rewrite <- Efl. fold cf. split_and!.
  - split; try (destruct (is_device v); load_field).
    + intros ->. load_field.
    + exists (kept_flags flags). split; [apply kept_disjoint|]. destruct (is_device v); load_field.
  - intros x Hx. unfold other_inode_field, in_range in Hx.
    destruct (is_device v); rewrite !write_bytes_out; try done;
      rewrite length_bytes_of; unfold in_range; field_offsets; lia.
  - destruct (is_device v); load_field.
Qed.

(** An inode as the VFS has it after reading it. *)
Record well_read (v : vnode) : Prop := {
  wr_flags : i_flags v = Z.lor (Z.land (i_flags v) shared_flags) S_DAX;
  wr_good : is_bad_inode v = false;
  wr_type : if S_ISREG (i_mode v) || S_ISDIR (i_mode v) || S_ISLNK (i_mode v) then i_rdev v = 0
            else i_size (base v) = 0 ∧ is_device v = true
}.

Lemma set_flags_eq v w pi c :
  stored v pi (view c) → i_flags w = 0 →
  pmfs_set_inode_flags w pi c = Ok (set_flags w (Z.lor (Z.land (i_flags v) shared_flags) S_DAX), c).
Proof.
  intros Hs Hw. destruct (sd_flags _ _ _ Hs) as (old & Hold & Ef). unfold pmfs_set_inode_flags.
  rewrite (bind_Ok _ _ _ _ _ (fetch_eq 4 _ _)), Ef, Hw, Z.land_0_l. by rewrite flags_roundtrip.
Qed.

Lemma read_stored v pi c :
  stored v pi (view c) → well_read v → i_nlink v ≠ 0 ∨ i_mode v ≠ 0 ∧ load 4 (view c) (pi + pi_i_dtime) = 0 →
  pmfs_read_inode (vino v) pi c = Ok ((0, v), c).
Proof.
  intros Hs [Hf Hg Ht] Hal. pose proof Hs as [S1 S2 S3 S4 S5 S6 S7 S8 S9 S10 S11 _]. unfold pmfs_read_inode.
  rewrite !(bind_Ok _ _ _ _ _ (fetch_eq _ _ c)). rewrite S1, S2, S3, S4, S5, S7, S8, S9, S10.
  erewrite bind_Ok; [|by apply (set_flags_eq v)]. cbv beta. rewrite !(bind_Ok _ _ _ _ _ (fetch_eq _ _ c)).
  destruct ((i_nlink v =? 0) && _) eqn:Ed.
  { exfalso. apply andb_prop in Ed as [E1%Z.eqb_eq E2]. destruct Hal as [Hn|[Hm Hz]]; [done|].
    rewrite Hz in E2. apply orb_prop in E2 as [E2%Z.eqb_eq|E2]; done. }
  rewrite (bind_Ok _ _ _ _ _ (fetch_eq 8 _ c)), S6. cbn [i_flags set_flags]. rewrite <- Hf. destruct (S_ISREG (i_mode v) || S_ISDIR (i_mode v) || S_ISLNK (i_mode v)).
  - destruct v as [[] ? ? ? ? ? ? ? ? ?]. cbn in *. by subst.
  - destruct Ht as [Hz Hd]. rewrite (bind_Ok _ _ _ _ _ (fetch_eq 4 _ c)), (S11 Hd). destruct v as [[] ? ? ? ? ? ? ? ? ?]. cbn in *. by subst.
Qed.

Lemma field_same n a x l c :
  load n (view c) a = x → any_differs ((n, a, x) :: l) c = any_differs l c.
Proof.
  intros E. cbn [any_differs]. unfold field_differs.
  rewrite bind_assoc, (bind_Ok _ _ _ _ _ (fetch_eq _ _ c)), E, Z.eqb_refl. done.
Qed.

Lemma not_dirty v pi c : stored v pi (view c) → pmfs_is_inode_dirty v pi c = Ok (false, c).
Proof.
  intros [S1 S2 S3 S4 S5 S6 S7 S8 S9 S10 S11 _]. unfold pmfs_is_inode_dirty.
  by rewrite !field_same.
Qed.

(** C40: what [pmfs_update_inode] stores of a VFS inode in use is what
    [pmfs_read_inode] reads back, the flags the two share among it; the copy is then
    not dirty, and the fields of the block tree, the deletion time, the extended
    attributes and everything outside of the inode are as they were. *)
Theorem inode_update_read v pi c :
  fits v → well_read v → i_nlink v ≠ 0 →
  ∃ c', pmfs_update_inode clwb v pi c = Ok ((), c') ∧ pmfs_read_inode (vino v) pi c' = Ok ((0, v), c') ∧
    pmfs_is_inode_dirty v pi c' = Ok (false, c') ∧
    agree (λ x, ¬ in_range pi sizeof_pmfs_inode x ∨ other_inode_field pi x) (view c') (view c).
Proof.
  intros Hf Hw Hn. destruct (update_inode_eq v pi c Hf) as (c' & E & Hs & Ha & _). exists c'.
  split_and!; [done|by apply read_stored; [| |left]|by apply not_dirty|done].
Qed.
End Copy.

Definition read_vnode : vnode :=
  VNode (Inode 256 4096 1 70 71) 0x81A4 1000 100 2 72 9 (Z.lor (Z.lor 1 64) S_DAX) 0 false.

Lemma inode_update_read_witness :
  ∃ c', pmfs_update_inode true read_vnode 8448 (Cpu ∅ []) = Ok ((), c') ∧
    pmfs_read_inode 256 8448 c' = Ok ((0, read_vnode), c') ∧
    pmfs_is_inode_dirty read_vnode 8448 c' = Ok (false, c') ∧
    agree (λ x, ¬ in_range 8448 sizeof_pmfs_inode x ∨ other_inode_field 8448 x) (view c') ∅.
Proof.
  apply (inode_update_read true read_vnode 8448 (Cpu ∅ [])).
  - split; vm_compute; done.
  - split; vm_compute; done.
  - done.
Defined.

(** ** Running the parts of the state *)

Definition with_sup (s : isuper) (f : super) : isuper := ISuper f (s_truncate s) (next_generation s).
(** The persistent memory under it all. *)
Definition icpu (s : isuper) : cpu := pm (sfs (sup s)).

Lemma on_super_eq {A} (m : SM A) s a f : m (sup s) = Ok (a, f) → on_super m s = Ok (a, with_sup s f).
Proof. intros E. unfold on_super. by rewrite E. Qed.
Lemma on_cpu_eq {A} (m : PM A) s a c : m (icpu s) = Ok (a, c) → on_cpu m s = Ok (a, with_sup s (with_pm (sup s) c)).
Proof. intros E. by apply on_super_eq, on_mem_eq. Qed.
Lemma on_cpu_same {A} (m : PM A) s a : m (icpu s) = Ok (a, icpu s) → on_cpu m s = Ok (a, s).
Proof. intros E. rewrite (on_cpu_eq _ _ _ _ E). unfold icpu. rewrite with_pm_id. by destruct s. Qed.

Section New.
Context `{CachedWrite}.
Variables (clwb : bool) (cfg : fs_cfg) (new_trans : option Z).

(** The whole search: the first free inode, or the table is made larger. *)
Lemma find_free_result (ad : Z → Z) per retries s pi i :
  let num := s_inodes_count s in
  table_at ad num per (pm (sfs s)) → 0 < i <= num →
  ∃ j, first_free ad (pm (sfs s)) i num j ∧
    (j < num → find_free_inode clwb cfg new_trans retries per pi i s = Ok (inr (Some (ad j), j), s)) ∧
    (j = num → ∃ p, find_free_inode clwb cfg new_trans retries per pi i s =
       (errval ← pmfs_increase_inode_table_size clwb cfg new_trans;
        if errval =? 0 then
          match retries with
          | O => out_of_fuel
          | S retries => find_free_inode clwb cfg new_trans retries per p j
          end
        else mret (inl errval)) s).
Proof.
  intros num Htab Hi. destruct (table_scan_eq ad num per _ Htab (Z.to_nat num) pi i Hi) as (j & p & E & Hf & Hp); [lia|].
  exists j. split; [done|]. pose proof Hf as ((Hj1 & Hj2) & _ & _).
  assert (Ef : ∀ r, find_free_inode clwb cfg new_trans r per pi i s =
    (if j >=? num then
       errval ← pmfs_increase_inode_table_size clwb cfg new_trans;
       if errval =? 0 then match r with O => out_of_fuel | S r => find_free_inode clwb cfg new_trans r per p j end
       else mret (inl errval)
     else mret (inr (p, j))) s).
  { intros r. destruct r; cbn [find_free_inode]; rewrite gets_bind; fold num;
      by rewrite (bind_Ok _ _ _ _ _ (on_mem_same _ _ _ E)). }
  split.
  - intros Hlt. rewrite Ef. destruct (Z.geb_spec j num); [lia|]. by rewrite (Hp Hlt).
  - intros ->. exists p. rewrite Ef. destruct (Z.geb_spec num num); [done|lia].
Qed.


(** No memory for the transaction that makes the table larger. *)
Lemma increase_nomem s :
  pmfs_increase_inode_table_size clwb cfg None s = Ok (- ENOMEM, s).
Proof.
  unfold pmfs_increase_inode_table_size, pmfs_get_inode_table. rewrite (bind_Ok _ _ _ _ _ (on_mem_fetch _ _ s)).
  unfold new_transaction.
  rewrite (bind_Ok _ _ _ (inl (- ENOMEM)) s); [done|].
  etrans; [apply (on_journal_eq _ _ (inl (- ENOMEM)) (jsbi s) (pm (sfs s)))|by destruct s as [[] ? ? ? ? ?]].
  unfold pmfs_new_transaction, pmfs_get_journal. by rewrite (bind_Ok _ _ _ _ _ (fetch_eq 8 _ _)).
Qed.

(** The inode as [pmfs_new_inode] fills it in before it goes to the table. *)
Definition fresh_vnode (ino mode uid gid gen now : Z) : vnode :=
  VNode (Inode ino 0 0 now now) mode uid gid 1 now (u32 gen) 0 0 false.

(** The fields [pmfs_new_inode] sets itself, at [pi]. *)
Record prepared (pi : Z) (m : mem) : Prop := {
  pp_type : load 1 m (pi + pi_i_blk_type) = PMFS_DEFAULT_BLOCK_TYPE;
  pp_height : load 1 m (pi + pi_height) = 0;
  pp_dtime : load 4 m (pi + pi_i_dtime) = 0
}.

Lemma prepare_eq pi flags c :
  ∃ c', (store 1 (pi + pi_i_blk_type) PMFS_DEFAULT_BLOCK_TYPE;;
         store 4 (pi + PmfsTree.pi_i_flags) flags;;
         store 1 (pi + pi_height) 0;;
         store 4 (pi + pi_i_dtime) 0;;
         pmfs_flush_buffer clwb pi sizeof_pmfs_inode false) c = Ok ((), c') ∧
    prepared pi (view c') ∧ agree (λ x, ¬ in_range pi sizeof_pmfs_inode x) (view c') (view c) ∧
    load 4 (view c') (pi + PmfsTree.pi_i_flags) = flags mod 2 ^ 32.
Proof.
  do 4 rewrite (bind_Ok _ _ _ _ _ (store_eq _ _ _ _)).
  rewrite pmfs_flush_buffer_eq by (unfold sizeof_pmfs_inode; lia). eexists. split; [done|].
  match goal with |- context [log_state ?c (flush_events _ _ _ ++ _)] =>
    rewrite (flush_keeps_view c clwb pi sizeof_pmfs_inode : view (log_state c _) = _) end.
  cbn [view log_state]. rewrite !apply_store. split_and!.
  - split; load_field.
  - intros x Hx. rewrite !write_bytes_out; try done; rewrite length_bytes_of; unfold in_range in *; field_offsets; lia.
  - repeat (rewrite load_write_disjoint by (rewrite length_bytes_of; unfold disjoint_ranges; field_offsets; lia)).
    by rewrite load_write_same.
Qed.

Lemma prepared_kept pi m m' :
  prepared pi m → agree (λ x, ¬ in_range pi sizeof_pmfs_inode x ∨ other_inode_field pi x) m' m → prepared pi m'.
Proof.
  intros [H1 H2 H3] Ha. split; [rewrite <- H1|rewrite <- H2|rewrite <- H3]; apply load_ext; intros x Hx; apply Ha; right;
    unfold other_inode_field, in_range in *; field_offsets; lia.
Qed.

Lemma stored_flags v f pi m :
  stored v pi m → Z.land (i_flags v) shared_flags = 0 → Z.land f shared_flags = 0 → stored (set_flags v f) pi m.
Proof.
  intros [S1 S2 S3 S4 S5 S6 S7 S8 S9 S10 S11 (old & Hold & Ef)] Hv Hf. split; try done. exists old. split; [done|].
  rewrite Ef. cbn [i_flags set_flags].
  assert (Hz : ∀ g, Z.land g shared_flags = 0 → copy_flags fst snd g old = old).
  { intros g Hg. unfold copy_flags. assert (Hall : Forall (λ p, Z.land g p.1 = 0) flag_pairs).
    { assert (Hs : ∀ b, Z.land shared_flags b = b → Z.land g b = 0).
      { intros b Hb. by rewrite <- Hb, Z.land_assoc, Hg. }
      unfold flag_pairs. repeat (constructor; [by apply Hs|]). constructor. }
    induction Hall as [|p l Hp Hl IH]; [done|]. cbn [foldl]. by rewrite Hp. }
  by rewrite !Hz.
Qed.

Section Create.
Variables (s : isuper) (ad : Z → Z) (per dir diri mode number now slots0 nslots0 : Z) (owner : Z → Z * Z * Z).
Variables (trans : option pmfs_transaction) (retries : nat) (uid gid vmode : Z).
Abbreviation num := (s_inodes_count (sup s)).
Abbreviation hint := (s_free_inode_hint (sup s)).
Abbreviation m := (view (icpu s)).
Abbreviation in_slots := (PmfsTreeAlloc.in_slots slots0 nslots0).
Abbreviation gen := (s32 (next_generation s + 1)).
Abbreviation dirflags := (load 4 m (diri + PmfsTree.pi_i_flags)).
Let s1 : isuper := ISuper (sup s) (s_truncate s) gen.

(** The state a new inode is made in: the table, the directory and the
    transaction.  The directory has none of the flags [vfs_inherited], which the
    code loses ([inherited_flag_lost]). *)
Record creation : Prop := {
  cr_table : table_at ad num per (icpu s);
  cr_per : inodes_per_block (load 1 m (load 8 m s_inode_table_offset + pi_i_blk_type)) (icpu s) = Ok (per, icpu s);
  cr_hint : 0 < hint <= num;
  cr_place i : 0 < i < num → 0 <= ad i ∧ ad i + sizeof_pmfs_inode < 2 ^ 64 ∧
    ∀ x, in_range (ad i) sizeof_pmfs_inode x → ¬ in_slots x;
  cr_dir : pmfs_get_inode dir (icpu s) = Ok (Some diri, icpu s);
  cr_trans : tr_ok (jsbi (sup s)) slots0 nslots0 trans;
  cr_owner : owner mode = (uid, gid, vmode) ∧ 0 <= vmode < 2 ^ 16 ∧ 0 <= uid < 2 ^ 32 ∧ 0 <= gid < 2 ^ 32;
  cr_now : 0 <= now < 2 ^ 32;
  cr_apart x : in_range diri sizeof_pmfs_inode x → ¬ in_slots x;
  cr_passes : Z.land dirflags vfs_inherited = 0
}.
Hypothesis Hcr : creation.

(** The inode [j] as created. *)
Definition created (j : Z) : vnode := set_flags (fresh_vnode (ino_of j) vmode uid gid gen now) S_DAX.

(** What creating inode [j] leaves. *)
Record creates (j : Z) (s' : isuper) : Prop := {
  cs_stored : stored (created j) (ad j) (view (icpu s'));
  cs_prepared : prepared (ad j) (view (icpu s'));
  cs_flags : load 4 (view (icpu s')) (ad j + PmfsTree.pi_i_flags) = pmfs_mask_flags mode dirflags;
  cs_active : inode_free (view (icpu s')) (ad j) = false;
  cs_view : agree (λ x, ¬ in_slots x ∧ ¬ in_range (ad j) sizeof_pmfs_inode x) (view (icpu s')) m;
  cs_count : s_inodes_count (sup s') = num ∧
    s_free_inodes_count (sup s') = u32 (s_free_inodes_count (sup s) - 1) ∧
    s_free_inode_hint (sup s') = (if j <? u32 (num - 1) then u32 (j + 1) else PMFS_FREE_INODE_HINT_START);
  cs_rest : s_truncate s' = s_truncate s ∧ next_generation s' = gen ∧ jsbi (sup s') = jsbi (sup s)
}.

Lemma fresh_fits ino : fits (fresh_vnode ino vmode uid gid gen now).
Proof using Hcr.
  destruct Hcr as [_ _ _ _ _ _ (_ & Hm & Hu & Hg) Hn _ _]. split; cbn; try done; try lia. apply wrap_range. lia.
Qed.

(** From the place found to the end. *)
Lemma fill_inode j c1 (tr1 : option pmfs_transaction) :
  0 < j < num → agree (λ x, ¬ in_slots x) (view c1) m →
  ∃ s', (flags ← on_cpu (fetch 4 (diri + PmfsTree.pi_i_flags));
     on_cpu (store 1 (ad j + pi_i_blk_type) PMFS_DEFAULT_BLOCK_TYPE;;
             store 4 (ad j + PmfsTree.pi_i_flags) (pmfs_mask_flags mode flags);;
             store 1 (ad j + pi_height) 0;;
             store 4 (ad j + pi_i_dtime) 0;;
             pmfs_flush_buffer clwb (ad j) sizeof_pmfs_inode false);;
     on_super (modify (λ s,
       set_counts s (s_inodes_count s) (u32 (s_free_inodes_count s - 1)) (s_inodes_used_count s)
         (if j <? u32 (s_inodes_count s - 1) then u32 (j + 1) else PMFS_FREE_INODE_HINT_START)));;
     on_cpu (pmfs_update_inode clwb (fresh_vnode (ino_of j) vmode uid gid gen now) (ad j));;
     v ← on_cpu (pmfs_set_inode_flags (fresh_vnode (ino_of j) vmode uid gid gen now) (ad j));
     mret (inr v, tr1)) (with_sup s1 (with_pm (sup s) c1)) = Ok ((inr (created j) : Z + vnode, tr1), s') ∧ creates j s'.
Proof using Hcr.
  intros Hj Ha. set (s2 := with_sup s1 (with_pm (sup s) c1)). set (v0 := fresh_vnode _ _ _ _ _ _).
  rewrite (bind_Ok _ _ _ _ _ (on_cpu_same _ s2 _ (fetch_eq 4 _ _))).
  destruct (prepare_eq (ad j) (pmfs_mask_flags mode (load 4 (view (icpu s2)) (diri + PmfsTree.pi_i_flags))) (icpu s2))
    as (c2 & E2 & Hp & Ha2 & Hf2).
  rewrite (bind_Ok _ _ _ _ _ (on_cpu_eq _ _ _ _ E2)).
  rewrite (bind_Ok _ _ _ _ _ (on_super_eq _ _ _ _ eq_refl)). set (s3 := with_sup _ _).
  destruct (update_inode_eq clwb v0 (ad j) c2 (fresh_fits _)) as (c3 & E3 & Hs & Ha3 & Hf3).
  rewrite (bind_Ok _ _ _ _ _ (on_cpu_eq _ s3 _ _ E3)). set (s4 := with_sup s3 _).
  assert (Hst : stored (created j) (ad j) (view c3)) by (by apply (stored_flags v0)).
  rewrite (bind_Ok _ _ _ _ _ (on_cpu_same _ s4 _ (set_flags_eq (created j) v0 (ad j) c3 Hst eq_refl))).
  exists s4. split; [done|]. split; try done.
  - change (view (icpu s4)) with (view c3). by eapply prepared_kept.
  - change (view (icpu s4)) with (view c3). rewrite Hf3, Hf2.
    assert (E : load 4 (view (icpu s2)) (diri + PmfsTree.pi_i_flags) = dirflags).
    { apply load_ext. intros x Hx. apply Ha, (cr_apart Hcr). unfold in_range in *. field_offsets. lia. }
    rewrite E. destruct (mask_flags_kept mode dirflags (load_bound 4 _ _) (cr_passes Hcr)) as [Hb Hk].
    rewrite Z.mod_small by done. exact Hk.
  - change (view (icpu s4)) with (view c3). unfold inode_free. by rewrite (sd_nlink _ _ _ Hst).
  - intros x [Hx1 Hx2]. change (view (icpu s4)) with (view c3). rewrite Ha3 by (by left). rewrite Ha2 by done. by apply Ha.
Qed.

(** C16: [pmfs_new_inode], where the VFS has an inode to give and accepts it, looks
    for the first free inode at or behind the hint.  If there is one, the new
    inode gets its number; its place in the table, now in use, holds the new
    inode, of the default block type, without a tree, not deleted, and with the
    flags its directory passes on, for a directory that has none of the sync,
    noatime and dirsync flags; nothing else in persistent memory changes but the
    transaction's log entries, and the counters and the hint follow.  If there is
    none and no memory for the transaction that would enlarge the table, the call
    fails with [-ENOMEM] and only a generation number is used up. *)
Theorem new_inode_correct :
  ∃ j, first_free ad (icpu s) hint num j ∧
    (j < num → ∃ tr' s', pmfs_new_inode clwb cfg new_trans retries (Some number) owner true now trans dir mode s =
       Ok ((inr (created j), tr'), s') ∧ tr_ok (jsbi (sup s)) slots0 nslots0 tr' ∧ creates j s') ∧
    (j = num → new_trans = None →
       pmfs_new_inode clwb cfg new_trans retries (Some number) owner true now trans dir mode s =
       Ok ((inl (- ENOMEM), trans), s1)).
Proof using Hcr.
  pose proof Hcr as [Htab Hper Hhint Hplace Hdir Htr (Hown & _) Hnow _ _].
  destruct (find_free_result ad per retries (sup s) None hint Htab Hhint) as (j & Hff & Hfound & Hnone).
  exists j. split; [done|].
  assert (Estart : ∀ K : Z + option Z * Z → IM ((Z + vnode) * option pmfs_transaction),
    (hint ← gets (λ s, s_free_inode_hint (sup s));
     btype ← on_cpu (inode_blk_type (load 8 m s_inode_table_offset));
     per ← on_cpu (inodes_per_block btype);
     r ← on_super (find_free_inode clwb cfg new_trans retries per None hint); K r) s1 =
    (r ← on_super (find_free_inode clwb cfg new_trans retries per None hint); K r) s1).
  { intros K. rewrite gets_bind. unfold inode_blk_type.
    rewrite (bind_Ok _ _ _ _ _ (on_cpu_same _ s1 _ (fetch_eq 1 _ _))). by rewrite (bind_Ok _ _ _ _ _ (on_cpu_same _ s1 _ Hper)). }
  split.
  - intros Hlt. specialize (Hfound Hlt). pose proof Hff as ((Hj1 & _) & _ & _). assert (Hj : 0 < j < num) by lia.
    destruct (Hplace j Hj) as (Hp1 & Hp2 & Hp3).
    destruct (add_logentry_frame clwb cfg (jsbi (sup s)) (ad j) 0 slots0 nslots0 Hp3 ltac:(lia) trans (ad j) sizeof_pmfs_inode (icpu s) Htr)
      as (r & tr1 & c1 & E1 & Htr1 & Ha1); [done|done|done|done|].
    destruct (fill_inode j c1 tr1 Hj Ha1) as (s' & E' & Hs'). exists tr1, s'. split_and!; [|done|done].
    unfold pmfs_new_inode. rewrite (bind_Ok (modify _) _ s () s1) by done. rewrite gets_bind, Hown.
    rewrite (bind_Ok _ _ _ (load 8 m s_inode_table_offset) s1) by (by apply on_cpu_same).
    rewrite (bind_Ok _ _ _ (Some diri) s1) by (by apply on_cpu_same). rewrite Estart.
    rewrite (bind_Ok _ _ _ (inr (Some (ad j), j)) s1) by (etrans; [by apply on_super_eq|done]). cbn [deref].
    rewrite (bind_Ok _ _ _ (ad j) s1) by (by apply on_cpu_same).
    rewrite (bind_Ok _ _ _ tr1 (with_sup s1 (with_pm (sup s) c1))); [exact E'|].
    apply on_super_eq. unfold log_range. rewrite gets_bind.
    rewrite (bind_Ok _ _ _ _ _ (on_mem_eq _ (sup s) _ _ E1)). done.
  - intros -> ->. destruct (Hnone eq_refl) as (p & E). rewrite (bind_Ok _ _ _ _ _ (increase_nomem (sup s))) in E.
    unfold pmfs_new_inode. rewrite (bind_Ok (modify _) _ s () s1) by done. rewrite gets_bind, Hown.
    rewrite (bind_Ok _ _ _ (load 8 m s_inode_table_offset) s1) by (by apply on_cpu_same).
    rewrite (bind_Ok _ _ _ (Some diri) s1) by (by apply on_cpu_same). rewrite Estart.
    rewrite (bind_Ok _ _ _ (inl (- ENOMEM)) s1) by (etrans; [apply on_super_eq; exact E|done]). done.
Qed.
End Create.
End New.

(** ** Concrete inputs *)

Section Demo.
Local Existing Instance bytewise_write.

Fixpoint store_all (m : mem) (l : list (Z * nat * Z)) : mem :=
  match l with [] => m | (a, n, v) :: l => store_all (write_bytes m a (bytes_of n v)) l end.

(** One block of inodes, block 2: inode [i] is at [8192 + 128 i]. *)
Definition table_words : list (Z * nat * Z) := [(40, 8%nat, 1024); (1024 + pi_root, 8%nat, 8192)].
Definition demo_place (i : Z) : Z := 8192 + 128 * i.

(** A file at [pi] with one block, at [root], and its item. *)
Definition file_words (pi mode nlink dtime size root next : Z) : list (Z * nat * Z) :=
  [(pi + pi_i_mode, 2%nat, mode); (pi + pi_i_links_count, 2%nat, nlink); (pi + pi_i_dtime, 4%nat, dtime);
   (pi + pi_i_size, 8%nat, size); (pi + pi_root, 8%nat, root); (pi + 88, 8%nat, next); (pi + pi_i_blocks, 8%nat, 1)].
Definition demo_sbi : pmfs_sb_info := SbInfo false None 0 0 false 0.
Definition demo_state (m : mem) (l : list Z) : isuper :=
  ISuper (Super (Fs [BlockNode 0 3] 0 16 12 1 false 0 (Cpu m [])) demo_sbi 32 29 0 3) l 0.

(** Inode 3 is in use, the next is free. *)
Definition new_mem : mem := store_all ∅ (table_words ++ file_words (demo_place 3) 0x81A4 1 0 0 0 0).
Definition demo_owner (mode : Z) : Z * Z * Z := (1000, 100, mode).

Lemma demo_look i : 0 < i < 32 →
  pmfs_get_inode (ino_of i) (Cpu new_mem []) = Ok (Some (demo_place i), Cpu new_mem []).
Proof.
  intros Hi. assert (Ei : ino_of i = 128 * i).
  { unfold ino_of, PMFS_INODE_BITS, swrap. rewrite Z.shiftl_mul_pow2 by lia. rewrite (wrap_small 32) by lia.
    destruct (Z.ltb_spec (i * 2 ^ 7) (2 ^ (32 - 1))); [|lia]. rewrite wrap_small by lia. lia. }
  rewrite Ei. unfold pmfs_get_inode, pmfs_get_inode_table, pmfs_inode_blk_shift, pmfs_inode_blk_size, inode_blk_type,
    __pmfs_find_data_block.
  set (c := Cpu new_mem []). rewrite (bind_Ok _ _ _ _ _ (fetch_eq 8 _ c)).
  change (load 8 (view c) s_inode_table_offset) with 1024. rewrite (proj2 (Z.eqb_neq (128 * i) 0)) by lia. cbv iota.
  rewrite (bind_Ok _ _ _ 12 c) by done. rewrite (bind_Ok _ _ _ 8192 c) by done.
  change (8192 =? 0) with false. cbv iota. rewrite (bind_Ok _ _ _ 4096 c) by done.
  change (4096 - 1) with (2 ^ 12 - 1). rewrite land_mask_mod, Z.mod_small by lia. done.
Qed.

Lemma demo_table : table_at demo_place 32 32 (Cpu new_mem []).
Proof.
  split; [lia|by exists 5|by exists 1|exact demo_look|]. intros i _ _ _. unfold demo_place, PMFS_INODE_SIZE. lia.
Qed.

Lemma demo_creation : creation (demo_state new_mem []) demo_place 32 128 (demo_place 1) 0x81A4 77 0 0 demo_owner None 1000 100 0x81A4.
Proof.
  split.
  - exact demo_table.
  - by vm_compute.
  - done.
  - intros i Hi. unfold demo_place, sizeof_pmfs_inode. simpl in Hi. split_and!; [lia|lia|].
    intros x Hx. unfold in_slots, in_range, LOGENTRY_SIZE. lia.
  - exact (demo_look 1 ltac:(lia)).
  - done.
  - done.
  - done.
  - intros x Hx. unfold in_slots, in_range, LOGENTRY_SIZE. lia.
  - by vm_compute.
Qed.

Lemma new_inode_correct_witness :
  ∃ j, first_free demo_place (Cpu new_mem []) 3 32 j ∧
    (j < 32 → ∃ tr' s', pmfs_new_inode true small_cfg None 2 (Some 7) demo_owner true 77 None 128 0x81A4 (demo_state new_mem []) =
       Ok ((inr (created (demo_state new_mem []) 77 1000 100 0x81A4 j), tr'), s') ∧ tr_ok demo_sbi 0 0 tr' ∧
       creates (demo_state new_mem []) demo_place (demo_place 1) 0x81A4 77 0 0 1000 100 0x81A4 j s') ∧
    (j = 32 → None = None :> option Z →
       pmfs_new_inode true small_cfg None 2 (Some 7) demo_owner true 77 None 128 0x81A4 (demo_state new_mem []) =
       Ok ((inl (- ENOMEM), None), ISuper (sup (demo_state new_mem [])) [] 1)).
Proof.
  exact (new_inode_correct true small_cfg None (demo_state new_mem []) demo_place 32 128 (demo_place 1) 0x81A4 7 77 0 0
    demo_owner None 2 1000 100 0x81A4 demo_creation).
Defined.

(** Inode 4 it is. *)
Lemma demo_created :
  match pmfs_new_inode true small_cfg None 2 (Some 7) demo_owner true 77 None 128 0x81A4 (demo_state new_mem []) with
  | Ok ((inr v, _), _) => vino v = 512
  | _ => False
  end.
Proof. vm_compute. done. Qed.

(** ** Where the code does not do what it means to *)

(** The table, the head of the truncate list, and inodes 1 and 2: what is left of
    a run in those words. *)
Definition left_of (r : result (() * isuper)) : option (Z * Z * Z * list Z) :=
  match r with
  | Ok (_, s) => let m := view (icpu s) in
      Some (load 8 m (1024 + 88), load 8 m (demo_place 2 + pi_root), load 8 m (demo_place 2 + pi_i_size), s_truncate s)
  | _ => None
  end.

(** Inode 1 was freed, then the power failed before it was off the list; inode 2,
    with a block, is behind it and is to be cut to 0 bytes. *)
Definition stale_mem : mem :=
  store_all ∅ (table_words ++ [(1024 + 88, 8%nat, 128)] ++ file_words (demo_place 1) 0x8000 0 5 0 0 256
               ++ file_words (demo_place 2) 0x8000 1 0 4096 12288 0).
(** The same without inode 1. *)
Definition fresh_mem : mem :=
  store_all ∅ (table_words ++ [(1024 + 88, 8%nat, 256)] ++ file_words (demo_place 2) 0x8000 1 0 4096 12288 0).

(** Alone inode 2 is cut; behind inode 1 it is left as it was, and the list is
    emptied all the same. *)
Lemma stale_inode_drops_list :
  left_of (pmfs_recover_truncate_list true small_cfg None 10 (λ _, true) 77 (demo_state fresh_mem [])) = Some (0, 0, 0, []) ∧
  left_of (pmfs_recover_truncate_list true small_cfg None 10 (λ _, true) 77 (demo_state stale_mem [])) = Some (0, 12288, 4096, []).
Proof. split; vm_compute; done. Qed.

(** Inode 2 has no links any more and is on the list; there is no memory for the
    transaction that frees it.  It is off the list and still has its block. *)
Definition evicted : vnode := VNode (Inode 256 4096 1 0 0) 0x8000 0 0 0 0 0 0 0 false.
Definition evict_mem : mem :=
  store_all ∅ (table_words ++ [(1024 + 88, 8%nat, 256)] ++ file_words (demo_place 2) 0x8000 0 0 4096 12288 0).

Lemma evict_error_leaks :
  left_of (pmfs_evict_inode true small_cfg None evicted 77 (demo_state evict_mem [256])) = Some (0, 12288, 4096, []) ∧
  inode_free evict_mem (demo_place 2) = false.
Proof. split; vm_compute; done. Qed.

(** A directory with [FS_SYNC_FL], a flag new inodes are meant to inherit: the new
    inode has it neither in the VFS nor in the table, because [pmfs_update_inode]
    overwrites what [pmfs_mask_flags] gave. *)
Definition sync_mem : mem := store_all new_mem [(demo_place 1 + PmfsTree.pi_i_flags, 4%nat, 8)].

Lemma inherited_flag_lost :
  pmfs_mask_flags 0x81A4 8 = 8 ∧
  match pmfs_new_inode true small_cfg None 2 (Some 7) demo_owner true 77 None 128 0x81A4 (demo_state sync_mem []) with
  | Ok ((inr v, _), s) => i_flags v = S_DAX ∧ load 4 (view (icpu s)) (demo_place 4 + PmfsTree.pi_i_flags) = 0
  | _ => False
  end.
Proof. split; vm_compute; done. Qed.

(** A file of one 2 MB block is cut to 5000 bytes and made long again: byte 8192
    is what it was before. *)
Definition large_mem : mem :=
  store_all ∅ (table_words ++ file_words (demo_place 2) 0x8000 1 0 0x200000 0x200000 0 ++
    [(demo_place 2 + pi_i_blk_type, 1%nat, 1); (demo_place 2 + pi_i_blocks, 8%nat, 512); (0x200000 + 8192, 1%nat, 0xAB)]).
Definition large_state : super :=
  Super (Fs [BlockNode 0 2; BlockNode 512 1023] 0 2048 1533 2 false 0 (Cpu large_mem [])) demo_sbi 32 29 0 3.
Definition large_vnode : vnode := VNode (Inode 256 0x200000 512 0 0) 0x8000 0 0 1 0 0 0 0 false.

Lemma large_block_shows_old_data :
  match (v ← pmfs_setsize true small_cfg large_vnode 5000 77 false; pmfs_setsize true small_cfg v 0x200000 78 false) large_state with
  | Ok (v, s) => i_size (base v) = 0x200000 ∧
      match pmfs_find_data_block (base v) 2 (pm (sfs s)) with
      | Ok (a, c) => load 1 (view c) a = 0xAB
      | _ => False
      end
  | _ => False
  end.
Proof. vm_compute. done. Qed.
End Demo.
